(* ===== verification/_CoqProject ===== *)
-Q . S2P
Prelude.v
Machine.v
RustStr.v
SeekSequence.v
PatchParser.v
PatchParserFacts.v
PatchRoundtrip.v
Replacements.v
PatchApply.v
PatchApplyFacts.v
HeadTailBuffer.v
Truncate.v
StreamText.v
InlineTag.v
InlineTagFacts.v
TaggedLine.v
TaggedLineFacts.v
Utf8Stream.v
AssistantText.v
ExecPolicy.v
ExecPolicyFacts.v
Template.v
TemplateFacts.v
ResponseItems.v
Normalize.v
NormalizeFacts.v
ContextFragments.v
History.v
HistoryTokens.v
HistoryFacts.v
ShellTree.v
CommandSafety.v
CommandSafetyFacts.v
PolicyFiles.v
PolicyFilesFacts.v
Readiness.v
ReadinessFacts.v
LegacyArgs.v
LegacyArgsFacts.v
LegacyPolicy.v
LegacyPolicyFacts.v
Invocation.v
ParseCommand.v
ParseCommandFacts.v
AbsolutePath.v
Permissions.v
PermissionsFacts.v
PermissionsChange.v
Profiles.v
NetworkPolicy.v
NetworkConfig.v
NetworkHooks.v
NetworkState.v
NetworkProxy.v
NetworkBroker.v
NetworkPolicyFacts.v
NetworkConfigFacts.v
NetworkProxyFacts.v
NetworkTheorems.v
ConfigLayers.v
ConfigLayersFacts.v
ExecApproval.v
ExecApprovalFacts.v
Orchestrator.v
OrchestratorFacts.v
NetworkApproval.v
NetworkApprovalFacts.v
WorldState.v
ThreadItems.v
ThreadHistory.v
ThreadChangesFacts.v
ThreadHistoryFacts.v
Rollout.v
Reconstruction.v
ReconstructionFacts.v
Hooks.v
HooksFacts.v
HookDiscovery.v
TurnDiff.v
Agents.v
