(* ===== verification/Prelude.v ===== *)
(** * A verification of the self-contained core of the coding agent

    The program (the Rust workspace [codex-rs]) is a coding agent: it talks to a
    model, runs the tool calls the model makes, and edits files.  Much of it is
    asynchronous I/O.  This library models the parts with logic of their own and
    proves what makes them correct; all paths below are relative to [codex-rs].

    ** The parts and how they interact

    - The model edits files with patches.  [apply-patch] recognises a patch in a
      command line ([invocation.rs]), parses it ([parser.rs],
      [streaming_parser.rs]), locates the lines of each chunk
      ([seek_sequence.rs]), computes and applies the replacements and runs the
      hunks against a file system while it records what it changed ([lib.rs]).
    - The model's text arrives in chunks.  [utils/stream-parser] decodes bytes
      ([utf8_stream.rs]) and separates hidden citations
      ([inline_hidden_tag.rs], [citation.rs]) and proposed plans
      ([tagged_line_parser.rs], [proposed_plan.rs]) from the visible text; the
      pipeline is [assistant_text.rs], the common trait [stream_text.rs].
    - Output of commands is kept in a capped buffer
      ([core/src/unified_exec/head_tail_buffer.rs]) and truncated in the middle
      before the model sees it ([utils/string/src/truncate.rs],
      [utils/output-truncation]).
    - The conversation is the context history
      ([core/src/context_manager/history.rs], [normalize.rs]) over the items of
      [protocol/src/models.rs].  It records items (truncating tool outputs),
      normalises the prompt, rolls turns back and evicts old items; injected
      context is told apart from user turns by its markers
      ([context-fragments], [core/src/context], [core/src/event_mapping.rs]).
    - A tool call goes through the orchestrator
      ([core/src/tools/orchestrator.rs], [sandboxing.rs]): approval, an attempt
      under a sandbox, perhaps a retry outside of it.  Whether a command needs
      approval follows from the execution policy ([core/src/exec_policy.rs] over
      [execpolicy], with the rules files of its [parser.rs] and [amend.rs]);
      without a rule, a list of read-only commands decides what runs without
      asking ([shell-command/src/command_safety]), also inside shell scripts,
      whose syntax tree is walked for plain commands ([bash.rs]).  Commands are
      summarised for display ([parse_command.rs]).  [execpolicy-legacy] is the
      older policy.
    - What a call may touch is its permission profile
      ([protocol/src/permissions.rs], [models.rs],
      [sandboxing/src/policy_transforms.rs]) over absolute paths
      ([utils/absolute-path]).
    - Network access of commands goes through a proxy ([network-proxy]): its
      settings under managed constraints, domain patterns, hooks on intercepted
      requests, the credential broker, and the running state with its decisions.
      A host that is not on the allow list is asked about
      ([core/src/tools/network_approval.rs]).
    - The log of a thread is replayed into turns for clients of the app server,
      which can also follow it change by change
      ([app-server-protocol/src/protocol/thread_history.rs]).  The agent rebuilds a
      conversation from it when it resumes or forks one
      ([core/src/session/rollout_reconstruction.rs],
      [core/src/thread_rollout_truncation.rs]), with the state of the world it has
      told the model of ([core/src/context/world_state]).
    - Settings are merged from layers ([config/src/state.rs], [merge.rs]).
    - Commands of the user, the hooks, run at ten events of a session and may
      block, rewrite or annotate what the agent does ([hooks/src/events] over
      [engine/dispatcher.rs] and [output_parser.rs]).  They come from the layers of
      the configuration, managed requirements and plugins, and run only once they
      are trusted ([engine/discovery.rs]).
    - What the patches of a turn did to the files is shown as one diff
      ([core/src/turn_diff_tracker.rs], told by [core/src/tools/events.rs]).
    - The agents of a session form a tree; how many there are, are loaded and run is
      limited ([core/src/agent/registry.rs], [control/residency.rs],
      [control/execution.rs]).
    - [utils/readiness] is the flag tools wait for before a turn goes on; prompts
      are rendered from strict templates ([utils/template]).

    ** Files

    - [Prelude]: results with the [let?] notation for Rust's [?], the tactics
      [case_goal], [case_hyp] and [bool_to_prop], list lemmas.  [Machine]:
      [usize], [u64] and [i64] as [Z] with saturating, checked and wrapping
      operations.  [RustStr]: [char] as its scalar value in [N], [str] as a list
      of chars, byte lengths and offsets as those of the UTF-8 encoding, and the
      methods the code calls.  The hint database of the rewriting and resolution
      lemmas is [rust].
    - [SeekSequence] (module [Seek]): [seek_sequence].  [PatchParser] (module
      [Patch]): the parser state, one definition per line handler, [parse_patch].
      [PatchParserFacts], [PatchRoundtrip]: its theorems.  [Replacements]
      (module [Replace]): [compute_replacements], [apply_replacements] and the
      conversions between text and lines.  [PatchApply] (module [Apply]):
      [apply_hunks_to_files], one definition per kind of hunk, and [apply_patch];
      [PatchApplyFacts]: its theorems and an in-memory file system.
      [Invocation]: patches in command lines, with theorems.
    - [HeadTailBuffer], [Truncate]: the buffer and the truncation, with theorems.
    - [StreamText]: the trait as the class [StreamTextParser], and
      [ChunkInvariant], the contract a client may rely on.  [InlineTag],
      [TaggedLine] and their [...Facts]: the parsers; [Utf8Stream]: the bytes in
      front of them, with its theorems.
      [AssistantText]: the pipeline, proved against the contract.
    - [ExecPolicy], [ExecPolicyFacts]: rules, policies and evaluation.
      [PolicyFiles], [PolicyFilesFacts]: rules files, read and amended.
      [ExecApproval], [ExecApprovalFacts]: the approval requirement of a call.
      [LegacyArgs], [LegacyPolicy] and their [...Facts]: the legacy policy.
    - [ShellTree] (module [Shell]): scripts and shells.  [CommandSafety],
      [CommandSafetyFacts]: the safe list and the danger heuristics.
      [ParseCommand], [ParseCommandFacts]: summaries of commands.
    - [Orchestrator], [OrchestratorFacts]: the run of a tool call.
    - [AbsolutePath]: paths.  [Permissions], [PermissionsFacts],
      [PermissionsChange]: file-system policies, what they grant and how they
      change.  [Profiles]: profiles and their transforms, with theorems.
    - [NetworkPolicy], [NetworkConfig], [NetworkState], [NetworkProxy] and their
      [...Facts], [NetworkHooks] and [NetworkBroker] with their theorems: the
      proxy; [NetworkTheorems]: its guarantees.  [NetworkApproval],
      [NetworkApprovalFacts]: questions about hosts.
    - [ConfigLayers], [ConfigLayersFacts]: the layers of the configuration.
    - [Readiness], [ReadinessFacts]: the flag.  [Template], [TemplateFacts]: the
      template language.
    - [ResponseItems]: the item types.  [Normalize], [NormalizeFacts]:
      [normalize.rs].  [ContextFragments]: the trait as the class
      [ContextualUserFragment], its implementations and the recognisers, with
      the contract [Recognised].  [History], [HistoryTokens], [HistoryFacts]:
      the context manager and its token estimates.
    - [ThreadItems], [ThreadHistory]: app-server-protocol/src/protocol: the items of
      a thread and their builders, and thread_history.rs, which replays the log
      of a thread into turns and reports what each entry changed;
      [ThreadChangesFacts], [ThreadHistoryFacts]: followers and identifiers.
    - [WorldState]: sections, snapshots and merge patches of the world state
      (core/src/context/world_state/mod.rs), with theorems.  [Rollout]: the log of
      a session, cutting it for forks (thread_rollout_truncation.rs) and the history
      of a compaction (compact.rs), with theorems.  [Reconstruction],
      [ReconstructionFacts]: session/rollout_reconstruction.rs.
    - [Hooks], [HooksFacts]: hooks/src/events and the engine that runs the hooks of
      an event.  [HookDiscovery]: engine/discovery.rs, with theorems.
    - [TurnDiff]: the diff of a turn, with theorems.  [Agents]: the agents of a
      session, with theorems.

    ** What the theorems show

    - Patches: a printed patch parses back to its hunks; a patch that is accepted
      while it streams in, in whatever pieces, parses to the same hunks; [seek_sequence] finds the least position of
      the strictest matching level; an update is exactly the splice of the
      located regions, without a panic; whenever the recorded delta is
      flagged exact, on success and on every failure path, replaying it gives the
      final file texts and undoing it restores the original ones; and the changes
      shown before a patch is applied are those that applying it makes.
    - Streams: for every way to cut the input into chunks, of bytes or chars,
      the parsers give what a reference gives on the whole text; a rejected byte
      chunk leaves no trace; parsing inverts rendering of citations.
    - Buffer and truncation: the buffer refines a specification that keeps every
      byte; truncation keeps a prefix and a suffix within budget around a marker
      with the exact count, and never slices inside a char.
    - Policy: the strictest matching rule decides, overlays and added prefixes
      cannot weaken a decision, the last network rule for a host wins; a rule
      that is appended to a file is read back as the rule that the running policy
      has; the legacy policy accepts exactly the calls its specifications
      describe.
    - Approval: an approved script consists of allowed constructs only and each
      of its commands is on the safe list; a call is let out of the sandbox
      without a question only when rules allow all of it; an accepted amendment
      can only allow commands that no rule covers as they are written, among them
      its own; the requirements hold of every session whose policy files can be
      parsed, except that rules for a path hide those for a program name; no
      attempt runs before the consent it needs, nor without a sandbox when one is
      required and available and reads are denied.
    - Permissions: the most specific entry decides; the roots handed to sandboxes
      grant no more than the policy; denied reads are enforced; a granted request
      reads no more than was asked for and granted.
    - Network: which hosts are allowed, exactly; the managed constraints hold in
      every state that interleaved operations reach; child processes get a
      dummy for every credential that has hosts, and the real one goes to its hosts
      only; one question about a host at a
      time, one answer for all who wait for it, and none of them is forgotten,
      unless the request that asks is dropped, after which all wait for ever.
    - Configuration: the merge always ends; a setting is that of the highest layer
      that says anything about it, and its reported origin is that layer; changes
      of the user's layer keep the order of the stack.
    - Templates: printing and parsing are inverse, rendering succeeds exactly
      when the values are those the template uses.  Readiness: granted once, never
      taken back, waiters wake.
    - History: normalisation is one reference pass, leaves every call with an
      output and every output with its call, and is idempotent; a debug build
      panics exactly on histories that are not supposed to occur; rollback drops
      exactly the requested turns and the context right before them; eviction
      keeps pairs; recording is total and keeps all but shortened texts; injected
      context never counts as a turn; estimates are sums cut off at the largest
      64-bit value.
    - Thread history: one who applies the reported changes, however the log is cut
      into batches, has what a replay shows ([follower_sees_replay]), for logs
      that start a turn once and whose ids are not of the form the builder draws;
      in such logs ids are unique, also after rollbacks.
    - Logs: the conversation that a scan from the newest entry finds, which stops
      early, is that of a replay of the whole log, unless the compaction it starts
      from is rolled back ([reconstruction_is_replay]); the state of the world that
      the model has been told of survives a restart ([world_state_restored]);
      a fork has exactly the first messages or the last turns asked for
      ([fork_keeps_last_turns]), rolled-back ones not counted.
    - Hooks: whatever the order in which the hooks of an event end, a call of a tool
      is blocked exactly when one of them objects ([pre_tool_use_blocks]), a denial
      wins over permissions ([permission_denial_wins]), what is shown of a hook
      tells its effect ([status_tells_effect]) and every announced run is reported
      ([previewed_rows_reported]); a hook that has changed since the user trusted it
      does not run ([untrusted_hooks_never_run]).
    - Turn diff: the diff compares each file that differs at the end of the turn with
      its text at the start, unless a patch moves a file onto itself or a call ends
      in an error of which the tracker is not told ([turn_diff_shows_net_change]).
    - Agents: the counter of agents is exact and stays within the limit, but for
      agents that are reserved without one ([agents_within_limit]).

    ** Conventions

    Fallible code returns [result]; [None] of an [option] stands for a panic
    where the source can panic (slicing, indexing, [unwrap], debug assertions),
    and the theorems show that it does not happen or when it does.  State is
    passed explicitly.  Code that tasks run at the same time is a machine with a
    program counter per task and one transition per access to shared state
    ([Readiness], [NetworkProxy], [NetworkApproval], [Agents]); the theorems hold for all
    interleavings.  Loops that are not structural take fuel, and a theorem
    shows that the fuel given is enough: one iteration per pending char and one
    more for the tag parser ([inline_push_terminates]) and for templates
    ([parse_loop_total]), one per byte for the UTF-8 decoder, one per node for
    the walks over syntax trees ([walk_spec], [find_single_total],
    [has_kind_total]), one per char for the stems of a shell path
    ([detect_shell_type_total]), one per summary for the simplification of
    command summaries ([simplify_terminates]), one per component for the
    ancestors of a path, the depth of the overlay for the merge of
    configurations ([merge_layers_total]).  Drawing tokens of the readiness flag
    until one is fresh ends once the sequence of random numbers has a fresh one;
    drawing dummy credentials ends when that sequence is [fair] (every finite
    sequence occurs in it again and again) and the value has room for enough of
    them ([child_sees_no_credential]).  [usize] is 64 bits
    wide.  [f64] arithmetic is that of [SpecFloat] with 53 bits of precision.
    HashMaps are [gmap]s; BTreeMaps are ascending lists where their order shows.

    Code outside the repository is a parameter with its documented behaviour as
    hypotheses: the executor's file system (read what was written, nothing else
    changes) and path URIs, the operating system under absolute paths (class
    [Os]), shell quoting and splitting (shlex), Debug renderings, UUIDs and random
    numbers, JSON and XML readers, base64 and image decoding, the shell grammar
    with its queries, diffs, regular expressions, globs and URLs ([DomainLib]),
    HTTP headers ([HttpLib]), the watch channel of tokio.  The Starlark
    interpreter is the sequence of builtin calls a file makes.  What a component
    asks of the rest of the program at run time (hooks, reviews, running a tool)
    is an interface that sees the history so far ([World] of [Orchestrator]) or
    an input of the transitions.  Witnesses instantiate them.

    ** What is not modelled

    The terminal and web front ends, the app server, model clients, the system
    calls of sandboxes, process and file management and telemetry are I/O.  Of
    the parts above: unified diffs (a diff library), the servers of the proxy and
    their certificates, the sections of the world state, the cache of image
    estimates of the history, reading the files of the configuration.
    Windows-only code is left out throughout.  Of the hooks, running
    the commands and writing long outputs to files are left out.  Left out although
    they have logic of their own are self-contained parts of the terminal UI (paste
    bursts, streaming chunks, line wrapping). *)

(** Error results, tactics, and the list lemmas that the components use. *)

From stdpp Require Import base list option numbers sets.

(** ** Results

    Rust's [Result<T, E>], with the [?] operator as a scoped bind. *)

Inductive result (A E : Type) : Type :=
| Ok (a : A)
| Err (e : E).
Arguments Ok {A E} a.
Arguments Err {A E} e.

Declare Scope rust_scope.
Delimit Scope rust_scope with rust.

Notation "'let?' x ':=' c 'in' k" :=
  (match c with Ok x => k | Err e => Err e end)
  (at level 10, x pattern, c at level 200, k at level 200,
   format "'[v' 'let?'  x  ':='  c  'in'  '/' k ']'") : rust_scope.

Definition is_ok {A E} (r : result A E) : bool :=
  match r with Ok _ => true | Err _ => false end.

Definition ok {A E} (r : result A E) : option A :=
  match r with Ok a => Some a | Err _ => None end.

Definition map_err {A E F} (f : E -> F) (r : result A E) : result A F :=
  match r with Ok a => Ok a | Err e => Err (f e) end.

Definition is_some {A} (o : option A) : bool :=
  match o with Some _ => true | None => false end.

Definition is_empty {A} (l : list A) : bool :=
  match l with [] => true | _ => false end.

(** [Option::is_some_and]. *)
Definition is_some_and {A} (o : option A) (p : A -> bool) : bool :=
  match o with Some a => p a | None => false end.

#[export] Instance result_eq_dec {A E} `{EqDecision A, EqDecision E} :
  EqDecision (result A E).
Proof. solve_decision. Defined.

(** ** Tactics *)

(** Case analysis on the innermost scrutinee of a [match] in the goal. *)
Ltac case_goal :=
  match goal with
  | |- context [match ?x with _ => _ end] =>
      lazymatch x with
      | context [match _ with _ => _ end] => fail
      | _ => destruct x eqn:?
      end
  end.

(** The same in a hypothesis, discarding the impossible branches. *)
Ltac case_hyp H :=
  match type of H with
  | context [match ?x with _ => _ end] =>
      lazymatch x with
      | context [match _ with _ => _ end] => fail
      | _ => destruct x eqn:?
      end
  end; simplify_eq/=.

(** Boolean connectives and comparisons to propositions, everywhere. *)
Ltac bool_to_prop :=
  repeat match goal with
  | H : _ && _ = true |- _ => apply andb_true_iff in H; destruct H
  | H : _ || _ = false |- _ => apply orb_false_iff in H; destruct H
  | H : negb _ = true |- _ => apply negb_true_iff in H
  | H : negb _ = false |- _ => apply negb_false_iff in H
  | H : bool_decide _ = true |- _ => apply bool_decide_eq_true_1 in H
  | H : bool_decide _ = false |- _ => apply bool_decide_eq_false_1 in H
  | H : (_ <? _)%nat = true |- _ => apply Nat.ltb_lt in H
  | H : (_ <? _)%nat = false |- _ => apply Nat.ltb_ge in H
  | H : (_ <=? _)%nat = true |- _ => apply Nat.leb_le in H
  | H : (_ <=? _)%nat = false |- _ => apply Nat.leb_gt in H
  | H : (_ =? _)%nat = true |- _ => apply Nat.eqb_eq in H
  | H : (_ =? _)%nat = false |- _ => apply Nat.eqb_neq in H
  end.

(** ** Lists *)

Create HintDb rust.

Lemma is_empty_true {A} (l : list A) : is_empty l = true <-> l = [].
Proof. by destruct l. Qed.

Lemma is_empty_false {A} (l : list A) : is_empty l = false <-> l <> [].
Proof. by destruct l. Qed.

Lemma is_empty_app {A} (l k : list A) : is_empty (l ++ k) = is_empty l && is_empty k.
Proof. by destruct l. Qed.

Lemma app_cons_shift {A} (l : list A) x k : l ++ x :: k = (l ++ [x]) ++ k.
Proof. by rewrite <- app_assoc. Qed.

Lemma mjoin_cons {A} (l : list A) ls : mjoin (l :: ls) = l ++ mjoin ls.
Proof. done. Qed.

(** Rust's [Vec::last_mut] followed by an in-place update. *)
Fixpoint update_last {A} (f : A -> A) (l : list A) : list A :=
  match l with
  | [] => []
  | [x] => [f x]
  | x :: l' => x :: update_last f l'
  end.

Lemma update_last_snoc {A} (f : A -> A) l x :
  update_last f (l ++ [x]) = l ++ [f x].
Proof. induction l as [|y [|z l] IH]; simpl in *; [done|done|by rewrite IH]. Qed.

Lemma last_update_last {A} (f : A -> A) l :
  last (update_last f l) = option_map f (last l).
Proof.
  destruct l as [|x l _] using rev_ind; [done|].
  by rewrite update_last_snoc, !last_snoc.
Qed.

Lemma length_update_last {A} (f : A -> A) l :
  length (update_last f l) = length l.
Proof.
  destruct l as [|x l _] using rev_ind; [done|].
  by rewrite update_last_snoc, !length_app.
Qed.

Lemma last_Some_snoc {A} (l : list A) x :
  last l = Some x -> exists l', l = l' ++ [x].
Proof.
  destruct l as [|y l _] using rev_ind; [done|].
  rewrite last_snoc. intros [= ->]. eauto.
Qed.

(** The elements of [a..=b], the inclusive range, empty when [b < a]. *)
Definition range_incl (a b : nat) : list nat := seq a (S b - a).

Lemma elem_of_range_incl a b i : i ∈ range_incl a b <-> a <= i <= b.
Proof. unfold range_incl. rewrite elem_of_seq. lia. Qed.

(** [Iterator::find] on a list: the first element satisfying [p]. *)
Fixpoint find_first {A} (p : A -> bool) (l : list A) : option A :=
  match l with
  | [] => None
  | x :: l' => if p x then Some x else find_first p l'
  end.

Lemma find_first_None {A} (p : A -> bool) l :
  find_first p l = None <-> forall x, x ∈ l -> p x = false.
Proof.
  induction l as [|x l IH]; simpl; [set_solver|].
  destruct (p x) eqn:E; split; intros H.
  - done.
  - specialize (H x). rewrite E in H. discriminate H. set_solver.
  - intros y Hy. apply elem_of_cons in Hy as [->|Hy]; [done|]. by apply IH.
  - apply IH. set_solver.
Qed.

Lemma find_first_Some {A} (p : A -> bool) l x :
  find_first p l = Some x <->
  exists l1 l2, l = l1 ++ x :: l2 /\ p x = true /\ forall y, y ∈ l1 -> p y = false.
Proof.
  split.
  - induction l as [|y l IH]; simpl; [done|].
    destruct (p y) eqn:E.
    + intros [= ->]. exists [], l. set_solver.
    + intros (l1 & l2 & -> & Hx & Hl)%IH. exists (y :: l1), l2.
      split_and!; [done..|]. intros z [->|Hz]%elem_of_cons; auto.
  - intros (l1 & l2 & -> & Hx & Hl). induction l1 as [|y l1 IH]; simpl.
    + by rewrite Hx.
    + rewrite Hl by set_solver. apply IH. set_solver.
Qed.

(** First matching index of a range: the least one. *)
Lemma find_first_range p a b i :
  find_first p (range_incl a b) = Some i <->
  a <= i <= b /\ p i = true /\ forall j, a <= j < i -> p j = false.
Proof.
  unfold range_incl. remember (S b - a) as n eqn:Hn.
  assert (Hb : forall j, a <= j <= b <-> a <= j < a + n) by lia.
  clear Hn. revert a Hb. induction n as [|n IH]; simpl; intros a Hb.
  - split; [done|]. intros ([? ?] & _). specialize (Hb i). lia.
  - destruct (p a) eqn:E.
    + split.
      * intros [= <-]. split_and!; [specialize (Hb a); lia..|done|]. lia.
      * intros ((? & ?) & Hp & Hm). f_equal.
        destruct (decide (a = i)); [done|]. rewrite Hm in E by lia. done.
    + destruct (decide (i = a)) as [->|].
      * rewrite E. split; [|naive_solver].
        intros (l1 & l2 & Heq & Hp & _)%find_first_Some. congruence.
      * rewrite IH by (intros j; specialize (Hb j); lia).
        -- specialize (Hb i). split.
           ++ intros (? & ? & Hm). split_and!; [lia..|done|].
              intros j ?. destruct (decide (j = a)) as [->|]; [done|].
              apply Hm. lia.
           ++ intros (? & ? & Hm). split_and!; [lia..|done|].
              intros j ?. apply Hm. lia.
Qed.

Lemma filter_all_id {A} (p : A -> bool) l : (forall x, x ∈ l -> p x = true) -> List.filter p l = l.
Proof.
  induction l as [|x l IH]; intros H; [done|]. cbn [List.filter]. rewrite H by left. f_equal. apply IH. intros y Hy. apply H. by right.
Qed.

Lemma filter_nothing {A} (p : A -> bool) l : (forall x, x ∈ l -> p x = false) -> List.filter p l = [].
Proof.
  induction l as [|x l IH]; intros H; [done|]. cbn [List.filter]. rewrite H by left. apply IH. intros y Hy. apply H. by right.
Qed.

#[export] Hint Resolve elem_of_range_incl : rust.
#[export] Hint Rewrite @update_last_snoc @last_update_last @length_update_last
  @is_empty_app @length_app : rust.
