(* ===== verification/Machine.v ===== *)
(** Machine-width integers: the 64-bit [usize], [u64] and [i64] of the target as
    [Z] with the operations of the Rust standard library. *)

From stdpp Require Import base list numbers.
From S2P Require Import Prelude.

Definition usize_max : Z := 2 ^ 64 - 1.
Definition u64_max : Z := 2 ^ 64 - 1.
Definition i64_max : Z := 2 ^ 63 - 1.

Open Scope Z_scope.

(** [saturating_add], [saturating_sub] and [saturating_mul] on [usize]. *)
Definition sat_add (a b : Z) : Z := Z.min usize_max (a + b).
Definition sat_sub (a b : Z) : Z := Z.max 0 (a - b).
Definition sat_mul (a b : Z) : Z := Z.min usize_max (a * b).

(** [i64]: saturating operations, and the plain [+] and [-], which panic on
    overflow in a debug build ([None]) and wrap around in a release build. *)
Definition i64_min : Z := - 2 ^ 63.
Definition i64 (a : Z) : Prop := i64_min <= a <= i64_max.
Definition sat_i64 (a : Z) : Z := Z.max i64_min (Z.min i64_max a).
Definition i64_sat_add (a b : Z) : Z := sat_i64 (a + b).
Definition i64_sat_sub (a b : Z) : Z := sat_i64 (a - b).
Definition i64_sat_mul (a b : Z) : Z := sat_i64 (a * b).
Definition wrap_i64 (a : Z) : Z := (a + 2 ^ 63) mod 2 ^ 64 - 2 ^ 63.
Definition i64_checked (debug : bool) (a : Z) : option Z :=
  if (i64_min <=? a) && (a <=? i64_max) then Some a else if debug then None else Some (wrap_i64 a).
Definition i64_add (debug : bool) (a b : Z) : option Z := i64_checked debug (a + b).
Definition i64_sub (debug : bool) (a b : Z) : option Z := i64_checked debug (a - b).

(** [i64::try_from(n).unwrap_or(i64::MAX)] for a [usize]. *)
Definition i64_of_usize (n : Z) : Z := Z.min i64_max n.

(** A value a [usize] can hold. *)
Definition usize (a : Z) : Prop := 0 <= a <= usize_max.

(** [Vec::len]. *)
Definition len {A} (l : list A) : Z := Z.of_nat (length l).

Lemma len_nonneg {A} (l : list A) : 0 <= len l.
Proof. unfold len. lia. Qed.

Lemma len_app {A} (l k : list A) : len (l ++ k) = len l + len k.
Proof. unfold len. rewrite length_app. lia. Qed.

Lemma len_nil {A} : len (@nil A) = 0.
Proof. done. Qed.

(** Saturating additions collapse: only the total matters. *)
Lemma sat_add_min a b : 0 <= b -> sat_add (Z.min usize_max a) b = Z.min usize_max (a + b).
Proof. unfold sat_add. lia. Qed.

Lemma sat_add_exact a b : a + b <= usize_max -> sat_add a b = a + b.
Proof. unfold sat_add. lia. Qed.

Lemma sat_sub_exact a b : b <= a -> sat_sub a b = a - b.
Proof. unfold sat_sub. lia. Qed.

Lemma usize_sat_add a b : usize a -> usize b -> usize (sat_add a b).
Proof. unfold usize, sat_add. lia. Qed.

Lemma usize_sat_sub a b : usize a -> usize b -> usize (sat_sub a b).
Proof. unfold usize, sat_sub. lia. Qed.

Lemma usize_sat_mul a b : usize a -> usize b -> usize (sat_mul a b).
Proof. unfold usize, sat_mul. assert (0 <= usize_max) by done. nia. Qed.

Lemma i64_sat a : i64 (sat_i64 a).
Proof. unfold i64, sat_i64. assert (i64_min <= i64_max) by done. lia. Qed.

Lemma i64_checked_exact debug a : i64 a -> i64_checked debug a = Some a.
Proof. unfold i64, i64_checked. intros [H1%Z.leb_le H2%Z.leb_le]. by rewrite H1, H2. Qed.

Lemma wrap_i64_range a : i64 (wrap_i64 a).
Proof. unfold i64, wrap_i64, i64_min, i64_max. pose proof (Z.mod_pos_bound (a + 2 ^ 63) (2 ^ 64) eq_refl). lia. Qed.

#[export] Hint Resolve len_nonneg usize_sat_add usize_sat_sub usize_sat_mul : rust.
#[export] Hint Rewrite @len_app @len_nil : rust.

Close Scope Z_scope.
