(* ===== verification/RustStr.v ===== *)
(** Rust's [char], [str] and the parts of their API that the modelled code
    calls.  A [char] is its Unicode scalar value, a [str] the sequence of its
    chars; byte lengths and byte offsets are those of the UTF-8 encoding. *)

From stdpp Require Import base list option numbers strings pretty.
From S2P Require Import Prelude.

Notation char := N (only parsing).
Notation str := (list N) (only parsing).

(** An ASCII string literal. *)
Definition lit (s : string) : str :=
  List.map Ascii.N_of_ascii (String.list_ascii_of_string s).
Arguments lit s%_string : simpl never.

Notation "a == b" := (bool_decide (a = b)) (at level 70) : rust_scope.
Open Scope rust_scope.

Definition LF : char := 10.
Definition CR : char := 13.
Definition SPACE : char := 32.

(** Decimal rendering of an unsigned integer, as [format!("{n}")]. *)
Definition show_N (n : N) : str := lit (pretty n).
Definition show_nat (n : nat) : str := lit (pretty n).

(** ** White space *)

(** [char::is_whitespace]: the Unicode property [White_Space]. *)
Definition is_whitespace (c : char) : bool :=
  ((9 <=? c) && (c <=? 13) || (c =? 32) || (c =? 0x85) || (c =? 0xA0)
   || (c =? 0x1680) || (0x2000 <=? c) && (c <=? 0x200A) || (c =? 0x2028)
   || (c =? 0x2029) || (c =? 0x202F) || (c =? 0x205F) || (c =? 0x3000))%N.

(** [trim_start_matches] and [trim_end_matches] for a class of chars. *)
Fixpoint trim_start_by (p : char -> bool) (s : str) : str :=
  match s with
  | [] => []
  | c :: s' => if p c then trim_start_by p s' else s
  end.

Definition trim_end_by (p : char -> bool) (s : str) : str :=
  reverse (trim_start_by p (reverse s)).

Definition trim_start : str -> str := trim_start_by is_whitespace.
Definition trim_end : str -> str := trim_end_by is_whitespace.
Definition trim (s : str) : str := trim_end (trim_start s).

(** ** Prefixes, suffixes, searching *)

Fixpoint strip_prefix (p s : str) : option str :=
  match p, s with
  | [], _ => Some s
  | a :: p', b :: s' => if (a =? b)%N then strip_prefix p' s' else None
  | _ :: _, [] => None
  end.

Definition strip_suffix (p s : str) : option str :=
  match strip_prefix (reverse p) (reverse s) with
  | Some r => Some (reverse r)
  | None => None
  end.

Definition starts_with (p s : str) : bool := is_some (strip_prefix p s).
Definition ends_with (p s : str) : bool := is_some (strip_suffix p s).

(** [s.split_once(p)]: the text before and after the first occurrence. *)
Fixpoint split_once (p s : str) : option (str * str) :=
  match strip_prefix p s with
  | Some r => Some ([], r)
  | None =>
      match s with
      | [] => None
      | c :: s' =>
          match split_once p s' with
          | Some (a, b) => Some (c :: a, b)
          | None => None
          end
      end
  end.

Definition contains (p s : str) : bool := is_some (split_once p s).
Definition contains_char (c : char) (s : str) : bool :=
  existsb (fun d => (c =? d)%N) s.

(** ** Splitting and joining *)

Fixpoint split_on (sep : char) (s : str) : list str :=
  match s with
  | [] => [[]]
  | c :: s' =>
      match split_on sep s' with
      | [] => [[c]]
      | l :: ls => if (c =? sep)%N then [] :: l :: ls else (c :: l) :: ls
      end
  end.

Fixpoint join (sep : str) (ls : list str) : str :=
  match ls with
  | [] => []
  | [l] => l
  | l :: ls' => l ++ sep ++ join sep ls'
  end.

(** [line.strip_suffix('\r').unwrap_or(line)]. *)
Definition strip_cr (l : str) : str := default l (strip_suffix [CR] l).

(** [str::lines]: a line ends at ["\n"] or ["\r\n"]; a final line without a
    terminator keeps a trailing ['\r'], and there is no line after a final
    terminator. *)
Definition lines (s : str) : list str :=
  let parts := split_on LF s in
  let front := List.removelast parts in
  let final := List.last parts [] in
  List.map strip_cr front ++ (if is_empty final then [] else [final]).

(** ** ASCII *)

Definition is_ascii_digit (c : char) : bool := ((48 <=? c) && (c <=? 57))%N.
Definition is_ascii_uppercase (c : char) : bool := ((65 <=? c) && (c <=? 90))%N.
Definition to_ascii_lower (c : char) : char :=
  if is_ascii_uppercase c then (c + 32)%N else c.
Definition to_ascii_lowercase (s : str) : str := List.map to_ascii_lower s.
Definition eq_ignore_ascii_case (s t : str) : bool :=
  to_ascii_lowercase s == to_ascii_lowercase t.

(** ** Order *)

(** The derived order of [Vec], and of [str]: UTF-8 sorts as the chars do. *)
Fixpoint list_compare {A} (cmp : A -> A -> comparison) (a b : list A) : comparison :=
  match a, b with
  | [], [] => Eq
  | [], _ :: _ => Lt
  | _ :: _, [] => Gt
  | x :: a', y :: b' => match cmp x y with Eq => list_compare cmp a' b' | c => c end
  end.

Definition str_compare : str -> str -> comparison := list_compare N.compare.

(** ** UTF-8 lengths *)

(** [char::len_utf8]. *)
Definition len_utf8 (c : char) : nat :=
  if (c <? 0x80)%N then 1
  else if (c <? 0x800)%N then 2
  else if (c <? 0x10000)%N then 3
  else 4.

(** [str::len]: the length of the UTF-8 encoding, in bytes. *)
Fixpoint str_len (s : str) : nat :=
  match s with [] => 0 | c :: s' => len_utf8 c + str_len s' end.

(** [&s[..n]] and [&s[n..]] for a byte offset [n] on a char boundary. *)
Fixpoint slice_to (n : nat) (s : str) : str :=
  match s with
  | [] => []
  | c :: s' => if len_utf8 c <=? n then c :: slice_to (n - len_utf8 c) s' else []
  end.

Fixpoint slice_from (n : nat) (s : str) : str :=
  match s with
  | [] => []
  | c :: s' => if n =? 0 then s else slice_from (n - len_utf8 c) s'
  end.

(** [s.find(p)]: byte offset of the first occurrence of [p]. *)
Definition find (p s : str) : option nat :=
  match split_once p s with Some (a, _) => Some (str_len a) | None => None end.

(** [str::is_char_boundary]. *)
Fixpoint is_char_boundary (s : str) (n : nat) : bool :=
  match n, s with
  | 0, _ => true
  | _, [] => false
  | _, c :: s' => (len_utf8 c <=? n) && is_char_boundary s' (n - len_utf8 c)
  end.

(** ** Lemmas: prefixes, suffixes, searching *)

Lemma strip_prefix_Some p s r : strip_prefix p s = Some r <-> s = p ++ r.
Proof.
  revert s. induction p as [|a p IH]; intros s; simpl; [naive_solver|].
  destruct s as [|b s]; [naive_solver|].
  destruct (N.eqb_spec a b) as [->|]; [rewrite IH|]; naive_solver.
Qed.

Lemma strip_prefix_app p r : strip_prefix p (p ++ r) = Some r.
Proof. by apply strip_prefix_Some. Qed.

Lemma strip_prefix_None p s : strip_prefix p s = None <-> forall r, s <> p ++ r.
Proof.
  destruct (strip_prefix p s) as [r|] eqn:E.
  - apply strip_prefix_Some in E. naive_solver.
  - split; [|done]. intros _ r ->. by rewrite strip_prefix_app in E.
Qed.

Lemma strip_suffix_Some p s r : strip_suffix p s = Some r <-> s = r ++ p.
Proof.
  unfold strip_suffix. destruct (strip_prefix _ _) as [t|] eqn:E.
  - apply strip_prefix_Some in E. apply (f_equal reverse) in E.
    rewrite reverse_involutive, reverse_app, reverse_involutive in E. subst s.
    split; [naive_solver|]. intros ?%app_inj_2; [naive_solver|done].
  - rewrite strip_prefix_None in E. split; [done|]. intros ->.
    destruct (E (reverse r)). by rewrite reverse_app.
Qed.

Lemma starts_with_true p s : starts_with p s = true <-> exists r, s = p ++ r.
Proof.
  unfold starts_with. destruct (strip_prefix p s) as [r|] eqn:E; simpl.
  - apply strip_prefix_Some in E. naive_solver.
  - rewrite strip_prefix_None in E. naive_solver.
Qed.

Lemma ends_with_true p s : ends_with p s = true <-> exists r, s = r ++ p.
Proof.
  unfold ends_with. destruct (strip_suffix p s) as [r|] eqn:E; simpl.
  - apply strip_suffix_Some in E. naive_solver.
  - split; [done|]. intros [r Hr%strip_suffix_Some]. congruence.
Qed.

Lemma split_once_eq p s a b : split_once p s = Some (a, b) -> s = a ++ p ++ b.
Proof.
  revert a b. induction s as [|c s IH]; intros a b; simpl;
    destruct (strip_prefix _ _) as [r|] eqn:E;
    try apply strip_prefix_Some in E.
  - intros; simplify_eq. done.
  - done.
  - intros; simplify_eq. done.
  - destruct (split_once p s) as [[a' b']|]; [|done].
    intros [= <- <-]. simpl. f_equal. by apply IH.
Qed.

(** The occurrence found is the leftmost one. *)
Lemma split_once_leftmost p s a b :
  split_once p s = Some (a, b) ->
  forall a' b', s = a' ++ p ++ b' -> length a <= length a'.
Proof.
  revert a b. induction s as [|c s IH]; intros a b; simpl;
    destruct (strip_prefix _ _) as [r|] eqn:E; try (intros; simplify_eq/=; lia).
  destruct (split_once p s) as [[a0 b0]|]; [|done]. intros [= <- <-] a' b' Heq.
  destruct a' as [|c' a'].
  - rewrite strip_prefix_None in E. by destruct (E b').
  - simpl in Heq. injection Heq as _ Heq. specialize (IH _ _ eq_refl a' b' Heq).
    simpl. lia.
Qed.

Lemma split_once_None p s :
  split_once p s = None <-> forall a b, s <> a ++ p ++ b.
Proof.
  induction s as [|c s IH]; simpl; destruct (strip_prefix _ _) as [r|] eqn:E.
  - apply strip_prefix_Some in E. split; [done|]. intros H. by destruct (H [] r).
  - rewrite strip_prefix_None in E. split; [|done]. intros _ [|??] b; simpl; [|done].
    apply E.
  - apply strip_prefix_Some in E. split; [done|]. intros H. by destruct (H [] r).
  - rewrite strip_prefix_None in E. destruct (split_once p s) as [[a b]|] eqn:E'.
    + split; [done|]. apply split_once_eq in E'. subst.
      intros H. by destruct (H (c :: a) b).
    + split; [|done]. intros _ [|c' a] b; simpl; [apply E|].
      intros [= -> ->]. by destruct (proj1 IH eq_refl a b).
Qed.

Lemma contains_true p s : contains p s = true <-> exists a b, s = a ++ p ++ b.
Proof.
  unfold contains. destruct (split_once p s) as [[a b]|] eqn:E; simpl.
  - apply split_once_eq in E. naive_solver.
  - rewrite split_once_None in E. naive_solver.
Qed.

(** ** Lemmas: trimming *)

Lemma trim_start_by_head p c s : p c = false -> trim_start_by p (c :: s) = c :: s.
Proof. simpl. by intros ->. Qed.

Lemma trim_start_by_idem p s : trim_start_by p (trim_start_by p s) = trim_start_by p s.
Proof. induction s as [|c s IH]; simpl; [done|]. destruct (p c) eqn:E; [done|]. simpl. by rewrite E. Qed.

Lemma trim_start_by_suffix p s : exists w, s = w ++ trim_start_by p s /\ Forall (fun c => p c = true) w.
Proof.
  induction s as [|c s (w & Hs & Hw)]; simpl; [by exists []|].
  destruct (p c) eqn:E.
  - exists (c :: w). simpl. rewrite <- Hs. auto.
  - by exists [].
Qed.

Lemma trim_end_by_prefix p s : exists w, s = trim_end_by p s ++ w /\ Forall (fun c => p c = true) w.
Proof.
  destruct (trim_start_by_suffix p (reverse s)) as (w & Hs & Hw).
  exists (reverse w). unfold trim_end_by. split.
  - rewrite <- reverse_app, <- Hs. by rewrite reverse_involutive.
  - by apply Forall_reverse.
Qed.

Lemma trim_end_by_snoc p c s : p c = false -> trim_end_by p (s ++ [c]) = s ++ [c].
Proof.
  intros H. unfold trim_end_by. rewrite reverse_snoc, trim_start_by_head by done.
  by rewrite reverse_cons, reverse_involutive.
Qed.

Lemma trim_end_by_snoc_drop p c s : p c = true -> trim_end_by p (s ++ [c]) = trim_end_by p s.
Proof. intros H. unfold trim_end_by. by rewrite reverse_snoc; simpl; rewrite H. Qed.

Lemma trim_end_by_idem p s : trim_end_by p (trim_end_by p s) = trim_end_by p s.
Proof. unfold trim_end_by. by rewrite reverse_involutive, trim_start_by_idem. Qed.

(** A string that starts and ends with a visible char is its own trim. *)
Lemma trim_end_id s c : last s = Some c -> is_whitespace c = false -> trim_end s = s.
Proof. intros (s' & ->)%last_Some_snoc H. by apply trim_end_by_snoc. Qed.

Lemma trim_id s a b :
  head s = Some a -> is_whitespace a = false ->
  last s = Some b -> is_whitespace b = false -> trim s = s.
Proof.
  intros Ha Hwa Hb Hwb. unfold trim, trim_start.
  destruct s as [|c s]; [done|]. simplify_eq/=.
  rewrite Hwa. by apply (trim_end_id _ b).
Qed.

Lemma trim_end_app_visible s t c :
  head t = Some c -> is_whitespace c = false -> trim_end (s ++ t) = s ++ trim_end t.
Proof.
  intros Hh Hc. induction t as [|x t IH] using rev_ind; [done|].
  rewrite (app_assoc s t). unfold trim_end.
  destruct (is_whitespace x) eqn:E.
  - rewrite !trim_end_by_snoc_drop by done.
    destruct t as [|y t]; [simplify_eq/=; congruence|].
    by apply IH.
  - rewrite !trim_end_by_snoc by done. by rewrite (app_assoc s t).
Qed.

Lemma trim_start_app s t : trim_start s <> [] -> trim_start (s ++ t) = trim_start s ++ t.
Proof.
  unfold trim_start. induction s as [|c s IH]; simpl; [done|]. destruct (is_whitespace c); auto.
Qed.

Lemma trim_end_app_ws s w : Forall (fun c => is_whitespace c = true) w -> trim_end (s ++ w) = trim_end s.
Proof.
  intros Hw. induction w as [|c w IH] using rev_ind; [by rewrite app_nil_r|].
  apply Forall_app in Hw as [Hw Hc]. rewrite Forall_singleton in Hc. rewrite app_assoc. unfold trim_end.
  rewrite trim_end_by_snoc_drop by exact Hc. by apply IH.
Qed.

(** ** Lemmas: splitting and joining *)

Lemma split_on_not_nil sep s : split_on sep s <> [].
Proof. destruct s; simpl; [done|]. repeat case_match; done. Qed.

Lemma split_on_cons_sep sep s : split_on sep (sep :: s) = [] :: split_on sep s.
Proof.
  simpl. destruct (split_on sep s) eqn:E; [by apply split_on_not_nil in E|].
  by rewrite N.eqb_refl.
Qed.

Lemma split_on_none sep s : Forall (fun c => c <> sep) s -> split_on sep s = [s].
Proof.
  induction 1 as [|c s Hc _ IH]; simpl; [done|]. rewrite IH.
  by destruct (N.eqb_spec c sep).
Qed.

Lemma split_on_app sep l s :
  Forall (fun c => c <> sep) l ->
  split_on sep (l ++ sep :: s) = l :: split_on sep s.
Proof.
  induction 1 as [|c l Hc _ IH]; simpl app.
  - apply split_on_cons_sep.
  - cbn [split_on]. rewrite IH. by destruct (N.eqb_spec c sep).
Qed.

Lemma split_on_no_sep sep s :
  Forall (Forall (fun c => c <> sep)) (split_on sep s).
Proof.
  induction s as [|c s IH]; simpl; [by repeat constructor|].
  destruct (split_on sep s) as [|l ls] eqn:E; [by apply split_on_not_nil in E|].
  inversion IH; subst. destruct (N.eqb_spec c sep); repeat constructor; auto.
Qed.

Lemma join_cons sep l ls : ls <> [] -> join sep (l :: ls) = l ++ sep ++ join sep ls.
Proof. by destruct ls. Qed.

Lemma join_split_on sep s : join [sep] (split_on sep s) = s.
Proof.
  induction s as [|c s IH]; [done|]. cbn [split_on].
  destruct (split_on sep s) as [|l ls] eqn:E; [by apply split_on_not_nil in E|].
  destruct (N.eqb_spec c sep) as [->|].
  - by rewrite join_cons, IH by done.
  - rewrite <- IH. by destruct ls.
Qed.

Lemma split_on_join sep ls :
  ls <> [] -> Forall (Forall (fun c => c <> sep)) ls ->
  split_on sep (join [sep] ls) = ls.
Proof.
  intros Hne H. induction H as [|l ls Hl _ IH]; [done|].
  destruct ls as [|l' ls]; [by apply split_on_none|].
  rewrite join_cons by done. cbn [app]. rewrite split_on_app by done.
  f_equal. by apply IH.
Qed.

(** ** Lemmas: order *)

Lemma list_compare_antisym {A} (cmp : A -> A -> comparison) :
  (forall x y, cmp y x = CompOpp (cmp x y)) ->
  forall a b, list_compare cmp b a = CompOpp (list_compare cmp a b).
Proof.
  intros Hc a. induction a as [|x a IH]; intros [|y b]; simpl; try done.
  rewrite Hc. destruct (cmp x y); simpl; auto.
Qed.

Lemma list_compare_eq {A} (cmp : A -> A -> comparison) :
  (forall x y, cmp x y = Eq -> x = y) -> forall a b, list_compare cmp a b = Eq -> a = b.
Proof.
  intros Hc a. induction a as [|x a IH]; intros [|y b]; simpl; try done.
  destruct (cmp x y) eqn:E; try done. intros ?. f_equal; auto.
Qed.

Lemma str_compare_antisym a b : str_compare b a = CompOpp (str_compare a b).
Proof. apply list_compare_antisym. intros x y. by rewrite N.compare_antisym. Qed.

Lemma str_compare_eq a b : str_compare a b = Eq -> a = b.
Proof. apply list_compare_eq, N.compare_eq. Qed.

Lemma str_compare_refl a : str_compare a a = Eq.
Proof. unfold str_compare. induction a as [|x a IH]; simpl; [done|]. by rewrite N.compare_refl. Qed.

Lemma str_compare_lt_trans a b c :
  str_compare a b = Lt -> str_compare b c = Lt -> str_compare a c = Lt.
Proof.
  unfold str_compare. revert b c. induction a as [|x a IH]; intros [|y b] [|z c]; simpl; try done.
  destruct (N.compare_spec x y), (N.compare_spec y z), (N.compare_spec x z); subst; try done; try lia.
  apply IH.
Qed.

(** ** Lemmas: UTF-8 lengths and slices *)

Lemma len_utf8_pos c : 1 <= len_utf8 c.
Proof. unfold len_utf8. repeat case_match; lia. Qed.

Lemma str_len_app s t : str_len (s ++ t) = str_len s + str_len t.
Proof. induction s as [|c s IH]; simpl; lia. Qed.

Lemma length_le_str_len s : length s <= str_len s.
Proof. induction s as [|c s IH]; simpl; [lia|]. pose proof (len_utf8_pos c). lia. Qed.

Lemma str_len_0 s : str_len s = 0 <-> s = [].
Proof. split; [|by intros ->]. pose proof (length_le_str_len s). destruct s; simpl in *; [done|lia]. Qed.

Lemma slice_to_app s t : slice_to (str_len s) (s ++ t) = s.
Proof.
  induction s as [|c s IH]; simpl.
  - destruct t as [|c t]; simpl; [done|].
    pose proof (len_utf8_pos c). by destruct (Nat.leb_spec (len_utf8 c) 0); [lia|].
  - destruct (Nat.leb_spec (len_utf8 c) (len_utf8 c + str_len s)); [|lia].
    f_equal. replace (_ + _ - _) with (str_len s) by lia. done.
Qed.

Lemma slice_from_app s t : slice_from (str_len s) (s ++ t) = t.
Proof.
  induction s as [|c s IH]; simpl.
  - by destruct t.
  - pose proof (len_utf8_pos c).
    destruct (Nat.eqb_spec (len_utf8 c + str_len s) 0); [lia|].
    replace (_ + _ - _) with (str_len s) by lia. done.
Qed.

Lemma slice_to_0 s : slice_to 0 s = [].
Proof. apply (slice_to_app []). Qed.

Lemma slice_from_0 s : slice_from 0 s = s.
Proof. by destruct s. Qed.

(** A byte offset is a char boundary exactly when a prefix has that length. *)
Lemma is_char_boundary_true s n :
  is_char_boundary s n = true <-> exists a b, s = a ++ b /\ n = str_len a.
Proof.
  revert n. induction s as [|c s IH]; intros n; simpl.
  - destruct n; simpl.
    + split; [|done]. intros _. by exists [], [].
    + split; [done|]. intros (a & b & H & Hn).
      symmetry in H. apply app_eq_nil in H as [-> ->]. done.
  - destruct n as [|n]; [split; [|done]; intros _; by exists [], (c :: s)|].
    rewrite andb_true_iff, Nat.leb_le, IH. split.
    + intros (Hle & a & b & -> & Hn). exists (c :: a), b. split; [done|]. simpl. lia.
    + intros ([|c' a] & b & Heq & Hn); simplify_eq/=.
      split; [lia|]. exists a, b. split; [done|]. lia.
Qed.

Lemma find_Some p s n :
  find p s = Some n -> exists a b, split_once p s = Some (a, b) /\ n = str_len a.
Proof. unfold find. destruct (split_once p s) as [[a b]|]; naive_solver. Qed.

#[export] Hint Rewrite str_len_app slice_to_app slice_from_app slice_to_0 slice_from_0
  strip_prefix_app : rust.
