(* ===== verification/SeekSequence.v ===== *)
(** [apply-patch/src/seek_sequence.rs]: locating the lines of a patch chunk
    in a file, with four passes of decreasing strictness. *)

From stdpp Require Import base list option numbers strings.
From S2P Require Import Prelude RustStr.

Module Seek.

(** ** Definitions *)

(** The char map of the local function [normalise]. *)
Definition normalise_char (c : char) : char :=
  (if (0x2010 <=? c) && (c <=? 0x2015) || (c =? 0x2212) then 45
   else if (0x2018 <=? c) && (c <=? 0x201B) then 39
   else if (0x201C <=? c) && (c <=? 0x201F) then 34
   else if (c =? 0xA0) || (0x2002 <=? c) && (c <=? 0x200A) || (c =? 0x202F)
           || (c =? 0x205F) || (c =? 0x3000) then 32
   else c)%N.

Definition normalise (s : str) : str := List.map normalise_char (trim s).

(** The inner loop of a lenient pass: every pattern line equals, after [key],
    the file line at the same offset.  A missing file line would be an
    out-of-bounds panic; [probes_in_bounds] shows there is none. *)
Fixpoint matches_from (key : str -> str) (lines pattern : list str) (i : nat) : bool :=
  match pattern with
  | [] => true
  | pat :: pats =>
      match lines !! i with
      | Some l => (key l == key pat) && matches_from key lines pats (S i)
      | None => false
      end
  end.

(** [lines[i..i + pattern.len()] == *pattern], the exact pass. *)
Definition slice_equals (lines pattern : list str) (i : nat) : bool :=
  take (length pattern) (drop i lines) == pattern.

(** The first index of the search. *)
Definition search_start (lines pattern : list str) (start : nat) (eof : bool) : nat :=
  if eof && (length pattern <=? length lines)
  then length lines - length pattern
  else start.

(** The indices every pass iterates over, [search_start..=len - pattern.len()]. *)
Definition candidates (lines pattern : list str) (start : nat) (eof : bool) : list nat :=
  range_incl (search_start lines pattern start eof) (length lines - length pattern).

Definition seek_sequence (lines pattern : list str) (start : nat) (eof : bool) : option nat :=
  if is_empty pattern then Some start
  else if length lines <? length pattern then None
  else
    let cands := candidates lines pattern start eof in
    match find_first (slice_equals lines pattern) cands with
    | Some i => Some i
    | None =>
        match find_first (matches_from trim_end lines pattern) cands with
        | Some i => Some i
        | None =>
            match find_first (matches_from trim lines pattern) cands with
            | Some i => Some i
            | None => find_first (matches_from normalise lines pattern) cands
            end
        end
    end.

(** ** Specification *)

(** The four strictness levels, strictest first, and the key each compares. *)
Inductive level := Exact | Rstrip | Trim | Normalised.

Definition level_key (lv : level) : str -> str :=
  match lv with
  | Exact => fun s => s
  | Rstrip => trim_end
  | Trim => trim
  | Normalised => normalise
  end.

Definition level_rank (lv : level) : nat :=
  match lv with Exact => 0 | Rstrip => 1 | Trim => 2 | Normalised => 3 end.

(** The file lines from [i] on agree with the pattern up to [level_key lv]. *)
Definition matches_at (lv : level) (lines pattern : list str) (i : nat) : Prop :=
  Forall2 (fun l p => level_key lv l = level_key lv p)
    (take (length pattern) (drop i lines)) pattern.

(** The range of start indices that is searched. *)
Definition in_range (lines pattern : list str) (start : nat) (eof : bool) (i : nat) : Prop :=
  search_start lines pattern start eof <= i <= length lines - length pattern.

(** ** Lemmas *)

Lemma matches_from_spec key lines pattern i :
  matches_from key lines pattern i = true <->
  Forall2 (fun l p => key l = key p) (take (length pattern) (drop i lines)) pattern.
Proof.
  revert i. induction pattern as [|pat pats IH]; intros i; simpl.
  - split; [constructor|done].
  - destruct (lines !! i) as [l|] eqn:E.
    + rewrite andb_true_iff, bool_decide_eq_true, IH.
      rewrite (drop_S lines l i) by done. simpl. split.
      * intros [??]. by constructor.
      * inversion 1; naive_solver.
    + apply lookup_ge_None in E. rewrite drop_ge by done. simpl.
      split; [done|by inversion 1].
Qed.

Lemma slice_equals_spec lines pattern i :
  slice_equals lines pattern i = true <-> matches_at Exact lines pattern i.
Proof.
  unfold slice_equals, matches_at. rewrite bool_decide_eq_true. split.
  - intros ->. simpl. induction pattern; constructor; auto.
  - simpl. induction 1; naive_solver.
Qed.

Lemma trim_start_end_comm s : trim_start (trim_end s) = trim_end (trim_start s).
Proof.
  unfold trim_start, trim_end. induction s as [|c s IH] using rev_ind; [done|].
  destruct (is_whitespace c) eqn:Hc.
  - rewrite trim_end_by_snoc_drop by done. rewrite IH. clear IH.
    induction s as [|d s IHs]; simpl.
    + by rewrite Hc.
    + destruct (is_whitespace d) eqn:Hd; [done|].
      rewrite app_comm_cons. by rewrite trim_end_by_snoc_drop.
  - rewrite trim_end_by_snoc by done. clear IH.
    induction s as [|d s IHs]; simpl.
    + rewrite Hc. by rewrite (trim_end_by_snoc _ c []).
    + destruct (is_whitespace d) eqn:Hd; [done|].
      by rewrite app_comm_cons, trim_end_by_snoc.
Qed.

(** Agreement at a level implies agreement at every more lenient one. *)
Lemma level_key_mono lv lv' l p :
  level_rank lv <= level_rank lv' ->
  level_key lv l = level_key lv p -> level_key lv' l = level_key lv' p.
Proof.
  assert (Hrt : trim_end l = trim_end p -> trim l = trim p).
  { unfold trim. rewrite <- !trim_start_end_comm. by intros ->. }
  assert (Htn : trim l = trim p -> normalise l = normalise p)
    by (unfold normalise; by intros ->).
  destruct lv, lv'; simpl; try lia; intros _ H; subst; auto.
Qed.

Lemma matches_at_mono lv lv' lines pattern i :
  level_rank lv <= level_rank lv' ->
  matches_at lv lines pattern i -> matches_at lv' lines pattern i.
Proof.
  unfold matches_at. intros Hr. induction 1; constructor; eauto using level_key_mono.
Qed.

(** The boolean test that the pass of level [lv] runs. *)
Definition pass (lv : level) (lines pattern : list str) : nat -> bool :=
  match lv with
  | Exact => slice_equals lines pattern
  | _ => matches_from (level_key lv) lines pattern
  end.

Lemma pass_spec lv lines pattern i :
  pass lv lines pattern i = true <-> matches_at lv lines pattern i.
Proof. destruct lv; [apply slice_equals_spec|apply matches_from_spec..]. Qed.

Lemma pass_false lv lines pattern i :
  pass lv lines pattern i = false <-> ~ matches_at lv lines pattern i.
Proof. rewrite <- pass_spec. by destruct (pass _ _ _ _). Qed.

Lemma pass_Some lv lines pattern start eof i :
  find_first (pass lv lines pattern) (candidates lines pattern start eof) = Some i <->
  in_range lines pattern start eof i /\ matches_at lv lines pattern i /\
  forall j, in_range lines pattern start eof j -> j < i -> ~ matches_at lv lines pattern j.
Proof.
  unfold candidates. rewrite find_first_range, pass_spec. unfold in_range.
  setoid_rewrite pass_false. naive_solver lia.
Qed.

Lemma pass_None lv lines pattern start eof :
  find_first (pass lv lines pattern) (candidates lines pattern start eof) = None <->
  forall j, in_range lines pattern start eof j -> ~ matches_at lv lines pattern j.
Proof.
  unfold candidates. rewrite find_first_None. unfold in_range.
  setoid_rewrite elem_of_range_incl. by setoid_rewrite pass_false.
Qed.

(** A match at a non-empty pattern lies inside the file. *)
Lemma matches_at_bounds lv lines pattern i :
  pattern <> [] -> matches_at lv lines pattern i -> i + length pattern <= length lines.
Proof.
  unfold matches_at. intros Hne H%Forall2_length.
  rewrite length_take, length_drop in H.
  assert (0 < length pattern) by (destruct pattern; simpl; [done|lia]). lia.
Qed.

(** [seek_sequence] unfolded as the four passes. *)
Lemma seek_sequence_passes lines pattern start eof :
  pattern <> [] -> length pattern <= length lines ->
  seek_sequence lines pattern start eof =
  foldr (fun lv rest =>
           match find_first (pass lv lines pattern) (candidates lines pattern start eof) with
           | Some i => Some i
           | None => rest
           end) None [Exact; Rstrip; Trim; Normalised].
Proof.
  intros Hne Hle. unfold seek_sequence. apply is_empty_false in Hne. rewrite Hne.
  destruct (Nat.ltb_spec (length lines) (length pattern)); [lia|]. simpl.
  by repeat case_match.
Qed.

Lemma seek_sequence_short lines pattern start eof :
  length lines < length pattern -> seek_sequence lines pattern start eof = None.
Proof.
  intros H. unfold seek_sequence. destruct pattern as [|p ps]; simpl in *; [lia|].
  destruct (Nat.ltb_spec (length lines) (S (length ps))); [done|lia].
Qed.

(** ** Theorems *)

(** Soundness and optimality of a hit, the form the other components use. *)
Lemma seek_sequence_hit lines pattern start eof i :
  pattern <> [] -> seek_sequence lines pattern start eof = Some i ->
  exists lv, in_range lines pattern start eof i /\ matches_at lv lines pattern i /\
    (forall j, in_range lines pattern start eof j -> j < i ->
       ~ matches_at lv lines pattern j) /\
    (forall lv' j, level_rank lv' < level_rank lv ->
       in_range lines pattern start eof j -> ~ matches_at lv' lines pattern j).
Proof.
  intros Hne. destruct (decide (length pattern <= length lines)) as [Hle|].
  2: { rewrite seek_sequence_short by lia. done. }
  rewrite seek_sequence_passes by done. cbn [foldr].
  repeat case_goal; intros [= ->];
  match goal with H : find_first (pass ?lv _ _) _ = Some i |- _ => exists lv end;
  repeat match goal with
  | H : find_first _ _ = Some _ |- _ => apply pass_Some in H
  | H : find_first _ _ = None |- _ => rewrite pass_None in H
  end; destruct_and?; split_and!; try done;
  intros [] ?; simpl; (lia || eauto).
Qed.

Lemma seek_sequence_miss lines pattern start eof :
  pattern <> [] ->
  seek_sequence lines pattern start eof = None <->
  length lines < length pattern \/
  forall i, in_range lines pattern start eof i -> ~ matches_at Normalised lines pattern i.
Proof.
  intros Hne. destruct (decide (length lines < length pattern)) as [Hlt|].
  { rewrite seek_sequence_short by done. naive_solver. }
  rewrite seek_sequence_passes by (done || lia). cbn [foldr]. split.
  - repeat case_goal; try done. intros _. right. by apply pass_None.
  - intros [?|Hno]; [lia|].
    repeat match goal with
    | |- context [find_first (pass ?lv ?l ?p) ?c] =>
        rewrite (proj2 (pass_None lv l p start eof))
          by (intros j Hj Hm; apply (Hno j Hj); eapply matches_at_mono; [|exact Hm];
              simpl; lia)
    end. done.
Qed.

(** The out-of-range probe of [matches_from] is never taken: every index a
    pass looks at is inside the file. *)
Lemma probes_in_bounds lines pattern start eof i k :
  length pattern <= length lines ->
  i ∈ candidates lines pattern start eof -> k < length pattern ->
  is_Some (lines !! (i + k)).
Proof.
  intros Hle Hi%elem_of_range_incl Hk. apply lookup_lt_is_Some. lia.
Qed.

(** [seek_sequence] on a non-empty pattern returns the least index, inside
    the searched range and inside the file, of a match at the strictest level
    that has any match there; it fails exactly when the pattern is longer than
    the file or the most lenient level matches nowhere in the range. *)
Theorem seek_sequence_correct lines pattern start eof :
  pattern <> [] ->
  match seek_sequence lines pattern start eof with
  | Some i =>
      i + length pattern <= length lines /\
      exists lv, in_range lines pattern start eof i /\ matches_at lv lines pattern i /\
        (forall j, in_range lines pattern start eof j -> j < i ->
           ~ matches_at lv lines pattern j) /\
        (forall lv' j, level_rank lv' < level_rank lv ->
           in_range lines pattern start eof j -> ~ matches_at lv' lines pattern j)
  | None =>
      length lines < length pattern \/
      forall i, in_range lines pattern start eof i -> ~ matches_at Normalised lines pattern i
  end.
Proof.
  intros Hne. destruct (seek_sequence _ _ _ _) as [i|] eqn:E.
  - destruct (seek_sequence_hit _ _ _ _ _ Hne E) as (lv & ? & Hm & ?).
    split; [by eapply matches_at_bounds|by exists lv].
  - by apply seek_sequence_miss in E.
Qed.

Lemma seek_sequence_correct_witness :
  seek_sequence [lit "a"; lit "b "; lit "b"] [lit "b"] 0 false = Some 2 /\
  2 + 1 <= 3.
Proof.
  split; [by vm_compute|].
  exact (proj1 (seek_sequence_correct [lit "a"; lit "b "; lit "b"] [lit "b"] 0 false
                  ltac:(done))).
Defined.

(** With [eof] set there is a single candidate, the end of the file: a hit
    ends exactly at the last line, and the search never falls back to [start]. *)
Theorem seek_sequence_eof_anchored lines pattern start i :
  pattern <> [] ->
  seek_sequence lines pattern start true = Some i ->
  i + length pattern = length lines.
Proof.
  intros Hne E. destruct (seek_sequence_hit _ _ _ _ _ Hne E) as (lv & Hr & Hm & _).
  apply (matches_at_bounds _ _ _ _ Hne) in Hm. unfold in_range, search_start in Hr.
  destruct (Nat.leb_spec (length pattern) (length lines)); simpl in Hr; lia.
Qed.

Lemma seek_sequence_eof_anchored_witness :
  seek_sequence [lit "a"; lit "b"] [lit "a"] 0 true = None /\
  1 + length [lit "b"] = length [lit "a"; lit "b"].
Proof.
  split; [by vm_compute|].
  apply (seek_sequence_eof_anchored [lit "a"; lit "b"] [lit "b"] 0 1); by vm_compute.
Defined.

End Seek.
