(* ===== verification/PatchParser.v ===== *)
(** [apply-patch/src/parser.rs] and [apply-patch/src/streaming_parser.rs]: the
    patch grammar, the incremental line parser and the whole-text parser. *)

From stdpp Require Import base list option numbers strings.
From S2P Require Import Prelude RustStr.

Module Patch.

(** ** Markers *)

Definition BEGIN_PATCH_MARKER : str := lit "*** Begin Patch".
Definition END_PATCH_MARKER : str := lit "*** End Patch".
Definition ADD_FILE_MARKER : str := lit "*** Add File: ".
Definition DELETE_FILE_MARKER : str := lit "*** Delete File: ".
Definition UPDATE_FILE_MARKER : str := lit "*** Update File: ".
Definition MOVE_TO_MARKER : str := lit "*** Move to: ".
Definition EOF_MARKER : str := lit "*** End of File".
Definition CHANGE_CONTEXT_MARKER : str := lit "@@ ".
Definition EMPTY_CHANGE_CONTEXT_MARKER : str := lit "@@".
Definition ENVIRONMENT_ID_MARKER : str := lit "*** Environment ID:".

(** ** Data *)

Inductive ParseError :=
| InvalidPatchError (message : str)
| InvalidHunkError (message : str) (line_number : nat).

Record UpdateFileChunk := mkChunk {
  change_context : option str;
  old_lines : list str;
  new_lines : list str;
  is_end_of_file : bool;
}.

(** Paths are the UTF-8 text they are built from. *)
Inductive Hunk :=
| AddFile (path contents : str)
| DeleteFile (path : str)
| UpdateFile (path : str) (move_path : option str) (chunks : list UpdateFileChunk).

#[export] Instance UpdateFileChunk_eq_dec : EqDecision UpdateFileChunk.
Proof. solve_decision. Defined.
#[export] Instance Hunk_eq_dec : EqDecision Hunk.
Proof. solve_decision. Defined.
#[export] Instance ParseError_eq_dec : EqDecision ParseError.
Proof. solve_decision. Defined.

(** [Hunk::path]: the move destination for renames. *)
Definition hunk_path (h : Hunk) : str :=
  match h with
  | AddFile path _ => path
  | DeleteFile path => path
  | UpdateFile _ (Some path) _ => path
  | UpdateFile path None _ => path
  end.

(** The path that [Hunk::resolve_path] joins to the working directory. *)
Definition hunk_source_path (h : Hunk) : str :=
  match h with
  | UpdateFile path _ _ => path
  | AddFile _ _ | DeleteFile _ => hunk_path h
  end.

Inductive StreamingParserMode :=
| NotStarted
| StartedPatch
| AddFileMode
| DeleteFileMode
| UpdateFileMode (hunk_line_number : nat)
| EndedPatch.

Record StreamingParserState := mkState {
  mode : StreamingParserMode;
  hunks : list Hunk;
  environment_id : option str;
}.

Record StreamingPatchParser := mkParser {
  line_buffer : str;
  state : StreamingParserState;
  line_number : nat;
}.

Definition default_parser : StreamingPatchParser :=
  mkParser [] (mkState NotStarted [] None) 0.

(** Field updates. *)
Definition set_mode (p : StreamingPatchParser) (m : StreamingParserMode) :=
  mkParser (line_buffer p)
    (mkState m (hunks (state p)) (environment_id (state p))) (line_number p).
Definition set_hunks (p : StreamingPatchParser) (hs : list Hunk) :=
  mkParser (line_buffer p)
    (mkState (mode (state p)) hs (environment_id (state p))) (line_number p).
Definition set_environment_id (p : StreamingPatchParser) (e : option str) :=
  mkParser (line_buffer p)
    (mkState (mode (state p)) (hunks (state p)) e) (line_number p).
Definition set_line_buffer (p : StreamingPatchParser) (b : str) :=
  mkParser b (state p) (line_number p).
Definition incr_line_number (p : StreamingPatchParser) :=
  mkParser (line_buffer p) (state p) (S (line_number p)).

(** ** Messages *)

Definition msg_first_line : str := lit "The first line of the patch must be '*** Begin Patch'".
Definition msg_last_line : str := lit "The last line of the patch must be '*** End Patch'".
Definition msg_env_twice : str :=
  lit "apply_patch environment_id cannot be specified more than once".
Definition msg_env_empty : str := lit "apply_patch environment_id cannot be empty".
Definition msg_no_lines : str := lit "Update hunk does not contain any lines".
Definition msg_empty_update (path : str) : str :=
  lit "Update file hunk for path '" ++ path ++ lit "' is empty".
Definition msg_unexpected_line (line : str) : str :=
  lit "Unexpected line found in update hunk: '" ++ line ++
  lit "'. Every line should start with ' ' (context line), '+' (added line), or '-' (removed line)".
Definition msg_bad_header (trimmed : str) : str :=
  lit "'" ++ trimmed ++
  lit "' is not a valid hunk header. Valid hunk headers: '*** Add File: {path}', '*** Delete File: {path}', '*** Update File: {path}'".
Definition msg_expected_context (line : str) : str :=
  lit "Expected update hunk to start with a @@ context marker, got: '" ++ line ++ lit "'".

(** ** The line parser

    A method that takes [&mut self] and may fail returns the parser it leaves
    behind together with its result. *)

Definition chunk_is_empty (c : UpdateFileChunk) : bool :=
  is_empty (old_lines c) && is_empty (new_lines c).

Definition ensure_update_hunk_is_not_empty (p : StreamingPatchParser) (line : str)
  : result unit ParseError :=
  match last (hunks (state p)) with
  | Some (UpdateFile path _ chunks) =>
      match is_empty chunks, mode (state p) with
      | true, UpdateFileMode hunk_line_number =>
          Err (InvalidHunkError (msg_empty_update path) hunk_line_number)
      | _, _ =>
          if is_some_and (last chunks) chunk_is_empty then
            if line == END_PATCH_MARKER
            then Err (InvalidHunkError msg_no_lines (line_number p))
            else Err (InvalidHunkError (msg_unexpected_line line) (line_number p))
          else Ok tt
      end
  | _ => Ok tt
  end.

Definition handle_hunk_headers_and_end_patch (p : StreamingPatchParser) (trimmed : str)
  : StreamingPatchParser * result bool ParseError :=
  let env :=
    match mode (state p) with
    | StartedPatch => strip_prefix ENVIRONMENT_ID_MARKER trimmed
    | _ => None
    end in
  match env with
  | Some environment_id' =>
      if is_some (environment_id (state p)) then (p, Err (InvalidPatchError msg_env_twice))
      else
        let environment_id' := trim environment_id' in
        if is_empty environment_id' then (p, Err (InvalidPatchError msg_env_empty))
        else (set_environment_id p (Some environment_id'), Ok true)
  | None =>
      if trimmed == END_PATCH_MARKER then
        match ensure_update_hunk_is_not_empty p trimmed with
        | Err e => (p, Err e)
        | Ok _ => (set_mode p EndedPatch, Ok true)
        end
      else
      match strip_prefix ADD_FILE_MARKER trimmed with
      | Some path =>
          match ensure_update_hunk_is_not_empty p trimmed with
          | Err e => (p, Err e)
          | Ok _ =>
              (set_mode (set_hunks p (hunks (state p) ++ [AddFile path []])) AddFileMode, Ok true)
          end
      | None =>
      match strip_prefix DELETE_FILE_MARKER trimmed with
      | Some path =>
          match ensure_update_hunk_is_not_empty p trimmed with
          | Err e => (p, Err e)
          | Ok _ =>
              (set_mode (set_hunks p (hunks (state p) ++ [DeleteFile path])) DeleteFileMode, Ok true)
          end
      | None =>
      match strip_prefix UPDATE_FILE_MARKER trimmed with
      | Some path =>
          match ensure_update_hunk_is_not_empty p trimmed with
          | Err e => (p, Err e)
          | Ok _ =>
              (set_mode (set_hunks p (hunks (state p) ++ [UpdateFile path None []]))
                 (UpdateFileMode (line_number p)), Ok true)
          end
      | None => (p, Ok false)
      end end end
  end.

(** An empty chunk with the given context, as pushed by [chunks.push]. *)
Definition fresh_chunk (ctx : option str) : UpdateFileChunk := mkChunk ctx [] [] false.

(** The idiom [if chunks.is_empty() { push } if let Some(c) = chunks.last_mut()]. *)
Definition edit_last_chunk (f : UpdateFileChunk -> UpdateFileChunk)
    (chunks : list UpdateFileChunk) : list UpdateFileChunk :=
  update_last f (if is_empty chunks then [fresh_chunk None] else chunks).

Definition push_old (l : str) (c : UpdateFileChunk) : UpdateFileChunk :=
  mkChunk (change_context c) (old_lines c ++ [l]) (new_lines c) (is_end_of_file c).
Definition push_new (l : str) (c : UpdateFileChunk) : UpdateFileChunk :=
  mkChunk (change_context c) (old_lines c) (new_lines c ++ [l]) (is_end_of_file c).
Definition push_both (l : str) (c : UpdateFileChunk) : UpdateFileChunk :=
  push_new l (push_old l c).
Definition mark_eof (c : UpdateFileChunk) : UpdateFileChunk :=
  mkChunk (change_context c) (old_lines c) (new_lines c) true.

(** Writing back through the [last_mut] borrow of an update hunk, and the mode
    assignment that follows every edit. *)
Definition set_last_update (p : StreamingPatchParser) (n : nat) (path : str)
    (move_path : option str) (chunks : list UpdateFileChunk) : StreamingPatchParser :=
  set_mode
    (set_hunks p (update_last (fun _ => UpdateFile path move_path chunks) (hunks (state p))))
    (UpdateFileMode n).

(** [update_line] is ["@@"] or starts with ["@@ "]. *)
Definition is_context_line (update_line : str) : bool :=
  (update_line == EMPTY_CHANGE_CONTEXT_MARKER)
  || starts_with CHANGE_CONTEXT_MARKER update_line.

(** The body of the [if let Some(UpdateFile { .. })] block of the update mode. *)
Definition process_update_body (p : StreamingPatchParser) (n : nat) (line update_line path : str)
    (move_path : option str) (chunks : list UpdateFileChunk)
  : StreamingPatchParser * result unit ParseError :=
  let fail msg := (p, Err (InvalidHunkError msg (line_number p))) in
  let put chunks' := (set_last_update p n path move_path chunks', Ok tt) in
  let after_eof := is_some_and (last chunks) is_end_of_file in
  let last_empty := is_some_and (last chunks) chunk_is_empty in
  if after_eof && is_empty update_line then (p, Ok tt)
  else if after_eof && negb (is_context_line update_line) then fail (msg_expected_context line)
  else
  match (if is_empty chunks && negb (is_some move_path)
         then strip_prefix MOVE_TO_MARKER update_line else None) with
  | Some move_to_path => (set_last_update p n path (Some move_to_path) chunks, Ok tt)
  | None =>
  if is_context_line update_line && last_empty then fail (msg_unexpected_line line)
  else if update_line == EMPTY_CHANGE_CONTEXT_MARKER then put (chunks ++ [fresh_chunk None])
  else
  match strip_prefix CHANGE_CONTEXT_MARKER update_line with
  | Some ctx => put (chunks ++ [fresh_chunk (Some ctx)])
  | None =>
  if update_line == EOF_MARKER then
    if last_empty then fail msg_no_lines
    else put (update_last mark_eof chunks)
  else if is_empty line then put (edit_last_chunk (push_both []) chunks)
  else
  match strip_prefix [SPACE] line with
  | Some l => put (edit_last_chunk (push_both l) chunks)
  | None =>
  match strip_prefix (lit "+") line with
  | Some l => put (edit_last_chunk (push_new l) chunks)
  | None =>
  match strip_prefix (lit "-") line with
  | Some l => put (edit_last_chunk (push_old l) chunks)
  | None =>
      if is_some_and (last chunks) (fun c => negb (chunk_is_empty c))
      then fail (msg_expected_context line)
      else fail (msg_unexpected_line line)
  end end end end end.

Definition process_line (p : StreamingPatchParser) (line : str)
  : StreamingPatchParser * result unit ParseError :=
  let trimmed := trim line in
  match mode (state p) with
  | NotStarted =>
      if trimmed == BEGIN_PATCH_MARKER then (set_mode p StartedPatch, Ok tt)
      else (p, Err (InvalidPatchError msg_first_line))
  | StartedPatch =>
      match handle_hunk_headers_and_end_patch p trimmed with
      | (p', Err e) => (p', Err e)
      | (p', Ok true) => (p', Ok tt)
      | (p', Ok false) => (p', Err (InvalidHunkError (msg_bad_header trimmed) (line_number p')))
      end
  | AddFileMode =>
      match handle_hunk_headers_and_end_patch p trimmed with
      | (p', Err e) => (p', Err e)
      | (p', Ok true) => (p', Ok tt)
      | (p', Ok false) =>
          match strip_prefix (lit "+") line, last (hunks (state p')) with
          | Some line_to_add, Some (AddFile path contents) =>
              (set_hunks p' (update_last (fun _ => AddFile path (contents ++ line_to_add ++ [LF]))
                               (hunks (state p'))), Ok tt)
          | _, _ => (p', Err (InvalidHunkError (msg_bad_header trimmed) (line_number p')))
          end
      end
  | DeleteFileMode =>
      match handle_hunk_headers_and_end_patch p trimmed with
      | (p', Err e) => (p', Err e)
      | (p', Ok true) => (p', Ok tt)
      | (p', Ok false) => (p', Err (InvalidHunkError (msg_bad_header trimmed) (line_number p')))
      end
  | UpdateFileMode hunk_line_number =>
      let update_line := trim_end line in
      match handle_hunk_headers_and_end_patch p update_line with
      | (p', Err e) => (p', Err e)
      | (p', Ok true) => (p', Ok tt)
      | (p', Ok false) =>
          match last (hunks (state p')) with
          | Some (UpdateFile path move_path chunks) =>
              process_update_body p' hunk_line_number line update_line path move_path chunks
          | _ => (p', Err (InvalidHunkError (msg_unexpected_line line) (line_number p')))
          end
      end
  | EndedPatch =>
      if is_empty trimmed then (p, Ok tt) else (p, Err (InvalidPatchError msg_last_line))
  end.

(** ** The streaming interface *)

(** The char loop of [push_delta]. *)
Fixpoint push_chars (p : StreamingPatchParser) (delta : str)
  : StreamingPatchParser * result unit ParseError :=
  match delta with
  | [] => (p, Ok tt)
  | ch :: rest =>
      if (ch =? LF)%N then
        let line := strip_cr (line_buffer p) in
        match process_line (incr_line_number (set_line_buffer p [])) line with
        | (p', Ok _) => push_chars p' rest
        | (p', Err e) => (p', Err e)
        end
      else push_chars (set_line_buffer p (line_buffer p ++ [ch])) rest
  end.

Definition push_delta (p : StreamingPatchParser) (delta : str)
  : StreamingPatchParser * result (list Hunk) ParseError :=
  match push_chars p delta with
  | (p', Ok _) => (p', Ok (hunks (state p')))
  | (p', Err e) => (p', Err e)
  end.

(** The [if !self.line_buffer.is_empty()] block of [finish]. *)
Definition finish_buffer (p : StreamingPatchParser)
  : StreamingPatchParser * result unit ParseError :=
  if is_empty (line_buffer p) then (p, Ok tt)
  else
    let line := line_buffer p in
    let p := incr_line_number (set_line_buffer p []) in
    if trim line == END_PATCH_MARKER then
      match ensure_update_hunk_is_not_empty p (trim line) with
      | Err e => (p, Err e)
      | Ok _ => (set_mode p EndedPatch, Ok tt)
      end
    else process_line p line.

Definition finish (p : StreamingPatchParser)
  : StreamingPatchParser * result (list Hunk) ParseError :=
  match finish_buffer p with
  | (p', Err e) => (p', Err e)
  | (p', Ok _) =>
      match mode (state p') with
      | EndedPatch => (p', Ok (hunks (state p')))
      | _ => (p', Err (InvalidPatchError msg_last_line))
      end
  end.

(** ** The whole-text parser *)

Inductive ParseMode := Strict | Lenient.

Record ApplyPatchArgs := mkArgs {
  args_patch : str;
  args_hunks : list Hunk;
  args_workdir : option str;
  args_environment_id : option str;
}.

Definition PARSE_IN_STRICT_MODE : bool := false.

Definition check_start_and_end_lines_strict (first_line last_line : option str)
  : result unit ParseError :=
  let first_line := option_map trim first_line in
  let last_line := option_map trim last_line in
  match first_line, last_line with
  | Some first, Some last =>
      if (first == BEGIN_PATCH_MARKER) && (last == END_PATCH_MARKER) then Ok tt
      else if negb (first == BEGIN_PATCH_MARKER) then Err (InvalidPatchError msg_first_line)
      else Err (InvalidPatchError msg_last_line)
  | Some first, None =>
      if negb (first == BEGIN_PATCH_MARKER) then Err (InvalidPatchError msg_first_line)
      else Err (InvalidPatchError msg_last_line)
  | None, _ => Err (InvalidPatchError msg_last_line)
  end.

Definition check_patch_boundaries_strict (lines : list str) : result (list str) ParseError :=
  match check_start_and_end_lines_strict (head lines) (last lines) with
  | Ok _ => Ok lines
  | Err e => Err e
  end.

(** The heredoc openers accepted in lenient mode: [<<EOF], quoted or not. *)
Definition heredoc_openers : list str :=
  [lit "<<EOF"; lit "<<'EOF'"; lit "<<" ++ [34%N] ++ lit "EOF" ++ [34%N]].

Definition check_patch_boundaries_lenient (original_lines : list str)
  : result (list str) ParseError :=
  match check_patch_boundaries_strict original_lines with
  | Ok lines => Ok lines
  | Err original_parse_error =>
      match head original_lines, last original_lines with
      | Some first, Some last =>
          if existsb (fun o => first == o) heredoc_openers && ends_with (lit "EOF") last
             && (4 <=? length original_lines)
          then check_patch_boundaries_strict
                 (take (length original_lines - 2) (drop 1 original_lines))
          else Err original_parse_error
      | _, _ => Err original_parse_error
      end
  end.

Definition parse_patch_text (patch : str) (pm : ParseMode) : result ApplyPatchArgs ParseError :=
  let ls := lines (trim patch) in
  let? patch_lines :=
    match pm with
    | Strict => check_patch_boundaries_strict ls
    | Lenient => check_patch_boundaries_lenient ls
    end in
  let patch := join [LF] patch_lines in
  let '(parser, r) := push_delta default_parser patch in
  let? _ := r in
  let '(parser, r) := finish parser in
  let? hunks := r in
  Ok (mkArgs patch hunks None (environment_id (state parser))).

Definition parse_patch (patch : str) : result ApplyPatchArgs ParseError :=
  parse_patch_text patch (if PARSE_IN_STRICT_MODE then Strict else Lenient).

End Patch.
