(* ===== verification/PatchParserFacts.v ===== *)
(** Theorems about the patch parser of [PatchParser]: independence of the
    chunking of the input, the well-formedness invariant of the parser state,
    and the round trip with a printer of the patch grammar. *)

From stdpp Require Import base list option numbers strings.
From S2P Require Import Prelude RustStr PatchParser.

Module PatchFacts.
Import Patch.

(** ** Chunking *)

Lemma push_chars_app p a b :
  push_chars p (a ++ b) =
  match push_chars p a with
  | (p', Ok _) => push_chars p' b
  | (p', Err e) => (p', Err e)
  end.
Proof.
  revert p. induction a as [|ch a IH]; intros p; simpl; [done|].
  destruct (ch =? LF)%N; [|apply IH].
  destruct (process_line _ _) as [p' [?|e]]; [apply IH|done].
Qed.

(** ** The invariant of the parser state *)

(** A hunk as a finished parse may contain it: an update hunk has chunks, and
    every chunk has at least one removed, added or context line. *)
Definition hunk_complete (h : Hunk) : Prop :=
  match h with
  | UpdateFile _ _ chunks =>
      chunks <> [] /\ Forall (fun c => chunk_is_empty c = false) chunks
  | _ => True
  end.

(** The chunks of an update hunk that is still being read: only the last one
    may be empty. *)
Definition chunks_wf (chunks : list UpdateFileChunk) : Prop :=
  chunks = [] \/
  exists cs c, chunks = cs ++ [c] /\ Forall (fun c => chunk_is_empty c = false) cs.

Definition parser_inv (p : StreamingPatchParser) : Prop :=
  match mode (state p) with
  | NotStarted | StartedPatch => hunks (state p) = []
  | EndedPatch => Forall hunk_complete (hunks (state p))
  | AddFileMode =>
      exists hs path contents,
        hunks (state p) = hs ++ [AddFile path contents] /\ Forall hunk_complete hs
  | DeleteFileMode =>
      exists hs path, hunks (state p) = hs ++ [DeleteFile path] /\ Forall hunk_complete hs
  | UpdateFileMode n =>
      exists hs path mv chunks,
        hunks (state p) = hs ++ [UpdateFile path mv chunks] /\
        Forall hunk_complete hs /\ chunks_wf chunks /\ 1 <= n <= line_number p
  end.

(** An error names a line that has been read. *)
Definition err_in_range {A} (r : result A ParseError) (n : nat) : Prop :=
  match r with Err (InvalidHunkError _ l) => 1 <= l <= n | _ => True end.

(** What every transition of the line parser guarantees. *)
Definition step_post {A} (p : StreamingPatchParser)
    (out : StreamingPatchParser * result A ParseError) : Prop :=
  parser_inv out.1 /\ line_number out.1 = line_number p /\
  line_buffer out.1 = line_buffer p /\ err_in_range out.2 (line_number p).

Lemma chunks_wf_snoc cs c :
  chunks_wf cs -> is_some_and (last cs) chunk_is_empty = false -> chunks_wf (cs ++ [c]).
Proof.
  intros [->|(cs' & c' & -> & Hcs)] Hl; right; [by exists [], c|].
  rewrite last_snoc in Hl. exists (cs' ++ [c']), c. split; [done|].
  apply Forall_app. auto.
Qed.

Lemma chunks_wf_update_last f cs : chunks_wf cs -> chunks_wf (update_last f cs).
Proof.
  intros [->|(cs' & c' & -> & Hcs)]; [by left|]. right. rewrite update_last_snoc. eauto.
Qed.

Lemma chunks_wf_edit f cs : chunks_wf cs -> chunks_wf (edit_last_chunk f cs).
Proof.
  intros H. apply chunks_wf_update_last. destruct cs; [|done]. right. by exists [], (fresh_chunk None).
Qed.

Lemma ensure_complete p line :
  parser_inv p -> ensure_update_hunk_is_not_empty p line = Ok tt ->
  Forall hunk_complete (hunks (state p)).
Proof.
  unfold parser_inv, ensure_update_hunk_is_not_empty.
  destruct (mode (state p)) eqn:Hm.
  1,2: intros ->; by constructor.
  - intros (hs & path & contents & -> & Hhs) _. apply Forall_app. split; [done|].
    by repeat constructor.
  - intros (hs & path & -> & Hhs) _. apply Forall_app. split; [done|].
    by repeat constructor.
  - intros (hs & path & mv & chunks & -> & Hhs & Hwf & _). rewrite last_snoc. intros He.
    apply Forall_app. split; [done|]. constructor; [|done].
    destruct Hwf as [->|(cs & c & -> & Hcs)]; [done|]. simpl.
    rewrite is_empty_app, andb_false_r, last_snoc in He. simpl in He.
    destruct (chunk_is_empty c) eqn:Hc; [by case_bool_decide|].
    split; [by destruct cs|]. apply Forall_app. auto.
  - done.
Qed.

Lemma ensure_err_in_range p line :
  parser_inv p -> 1 <= line_number p ->
  err_in_range (ensure_update_hunk_is_not_empty p line) (line_number p).
Proof.
  unfold parser_inv, ensure_update_hunk_is_not_empty. intros Hinv Hn.
  destruct (last (hunks (state p))) as [[]|]; try done.
  destruct (is_empty chunks), (mode (state p)) eqn:Hm; simpl;
    repeat case_match; simpl; try (lia || done).
  all: naive_solver.
Qed.

Lemma handle_post p t :
  parser_inv p -> 1 <= line_number p ->
  step_post p (handle_hunk_headers_and_end_patch p t) /\
  ((handle_hunk_headers_and_end_patch p t).2 = Ok false ->
   (handle_hunk_headers_and_end_patch p t).1 = p).
Proof.
  intros Hinv Hn. unfold handle_hunk_headers_and_end_patch.
  pose proof (ensure_err_in_range p t Hinv Hn) as Herr.
  pose proof (ensure_complete p t Hinv) as Hc.
  destruct (match mode (state p) with
            | StartedPatch => strip_prefix ENVIRONMENT_ID_MARKER t
            | _ => None
            end) as [env|] eqn:Henv.
  - unfold parser_inv in *. destruct (mode (state p)) eqn:Hm; try done.
    repeat case_match; split; try done; unfold step_post, parser_inv; simpl;
      rewrite ?Hm; auto.
  - destruct (ensure_update_hunk_is_not_empty p t) as [[]|e].
    + specialize (Hc eq_refl).
      repeat case_match; split; try done; unfold step_post, parser_inv; simpl;
        split_and!; try done; eauto 10.
      all: do 4 eexists; split_and!; [done|done|by left|lia|lia].
    + repeat case_match; split; try done; unfold step_post; simpl; auto.
Qed.

Lemma step_post_fail {A} p msg :
  parser_inv p -> 1 <= line_number p ->
  step_post (A := A) p (p, Err (InvalidHunkError msg (line_number p))).
Proof. intros. split_and!; simpl; auto. Qed.

Lemma is_context_line_true l :
  is_context_line l = true <->
  l = EMPTY_CHANGE_CONTEXT_MARKER \/ exists ctx, strip_prefix CHANGE_CONTEXT_MARKER l = Some ctx.
Proof.
  unfold is_context_line, starts_with.
  rewrite orb_true_iff, bool_decide_eq_true. destruct (strip_prefix _ _); naive_solver.
Qed.

Lemma update_body_post p n hs line update_line path mv chunks :
  hunks (state p) = hs ++ [UpdateFile path mv chunks] ->
  Forall hunk_complete hs -> chunks_wf chunks -> mode (state p) = UpdateFileMode n ->
  1 <= n <= line_number p ->
  step_post p (process_update_body p n line update_line path mv chunks).
Proof.
  intros Hh Hhs Hwf Hm Hn.
  assert (Hinv : parser_inv p) by (unfold parser_inv; rewrite Hm; eauto 10).
  assert (Hput : forall mv' cs, chunks_wf cs ->
            step_post p (set_last_update p n path mv' cs, Ok tt)).
  { intros mv' cs Hcs. unfold step_post, parser_inv. simpl.
    rewrite Hh, update_last_snoc. split_and!; try done. eauto 10. }
  pose proof (fun msg => step_post_fail (A:=unit) p msg Hinv ltac:(lia)) as Hfail.
  unfold process_update_body.
  destruct (is_some_and (last chunks) chunk_is_empty) eqn:Hle;
  repeat case_goal; try done; auto using chunks_wf_edit, chunks_wf_update_last, chunks_wf_snoc.
  all: exfalso; bool_to_prop;
    match goal with
    | H : is_context_line ?l && true = false |- _ =>
        assert (is_context_line l = true) by (apply is_context_line_true; eauto);
        rewrite andb_true_r in H; congruence
    end.
Qed.

(** Dispose of the outcomes of [handle_hunk_headers_and_end_patch] in which it
    consumed the line; what is left is the [Ok(false)] branch, parser unchanged. *)
Ltac handle_case p t Hinv Hn :=
  let Hp := fresh in let Hf := fresh in
  destruct (handle_post p t Hinv Hn) as [Hp Hf];
  destruct (handle_hunk_headers_and_end_patch _ _) as [? [[]|?]];
  [done|simpl in Hf; rewrite (Hf eq_refl); clear Hp Hf|done].

Lemma process_line_post p line :
  parser_inv p -> 1 <= line_number p -> step_post p (process_line p line).
Proof.
  intros Hinv Hn. unfold process_line.
  destruct (mode (state p)) eqn:Hm.
  - unfold parser_inv in Hinv. rewrite Hm in Hinv.
    case_goal; split_and!; simpl; unfold parser_inv; simpl; by rewrite ?Hm.
  - handle_case p (trim line) Hinv Hn. by apply step_post_fail.
  - handle_case p (trim line) Hinv Hn.
    pose proof Hinv as Hinv'. unfold parser_inv in Hinv'. rewrite Hm in Hinv'.
    destruct Hinv' as (hs & path & contents & Hh & Hhs).
    repeat case_goal; try by apply step_post_fail.
    rewrite Hh, last_snoc in *. simplify_eq.
    unfold step_post, parser_inv; simpl. rewrite Hm, update_last_snoc.
    split_and!; eauto 10.
  - handle_case p (trim line) Hinv Hn. by apply step_post_fail.
  - handle_case p (trim_end line) Hinv Hn.
    pose proof Hinv as Hinv'. unfold parser_inv in Hinv'. rewrite Hm in Hinv'.
    destruct Hinv' as (hs & path & mv & chunks & Hh & Hhs & Hwf & Hl).
    rewrite Hh, last_snoc. by eapply update_body_post.
  - case_goal; split_and!; simpl; auto.
Qed.

(** Number of line terminators, hence of lines the char loop completes. *)
Fixpoint count_lf (s : str) : nat :=
  match s with [] => 0 | c :: s' => (if (c =? LF)%N then 1 else 0) + count_lf s' end.

Lemma parser_inv_set_line_buffer p b : parser_inv p -> parser_inv (set_line_buffer p b).
Proof. done. Qed.

Lemma parser_inv_incr p : parser_inv p -> parser_inv (incr_line_number p).
Proof.
  unfold parser_inv. simpl. destruct (mode (state p)); try done.
  intros (hs & path & mv & cs & ? & ? & ? & ?). do 4 eexists. split_and!; eauto; lia.
Qed.

Lemma push_chars_post p s :
  parser_inv p ->
  parser_inv (push_chars p s).1 /\
  line_number (push_chars p s).1 <= line_number p + count_lf s /\
  err_in_range (push_chars p s).2 (line_number p + count_lf s).
Proof.
  revert p. induction s as [|ch s IH]; intros p Hinv; simpl; [split_and!; [done|lia|done]|].
  destruct (ch =? LF)%N.
  - set (q := incr_line_number (set_line_buffer p [])).
    assert (Hq : step_post q (process_line q (strip_cr (line_buffer p)))).
    { apply process_line_post; [by apply parser_inv_incr|simpl; lia]. }
    destruct (process_line q _) as [p' [u|e]]; destruct Hq as (Hi & Hl & _ & He); simpl in *.
    + destruct (IH p' Hi) as (? & ? & Hr). rewrite Hl in *. simpl in *. split_and!; [done|lia|].
      unfold err_in_range in *. repeat case_match; auto; lia.
    + split_and!; [done|lia|]. unfold err_in_range in *. repeat case_match; auto; lia.
  - destruct (IH (set_line_buffer p (line_buffer p ++ [ch]))) as (? & ? & Hr);
      [done|]. simpl in *. split_and!; [done|lia|].
    unfold err_in_range in *. repeat case_match; auto; lia.
Qed.

Lemma finish_post p :
  parser_inv p ->
  err_in_range (finish p).2 (S (line_number p)) /\
  (forall hs, (finish p).2 = Ok hs -> Forall hunk_complete hs).
Proof.
  intros Hinv. unfold finish, finish_buffer.
  destruct (is_empty (line_buffer p)) eqn:Hb.
  { unfold parser_inv in Hinv. destruct (mode (state p)); simpl; naive_solver. }
  set (q := incr_line_number (set_line_buffer p [])).
  assert (Hq : parser_inv q) by (by apply parser_inv_incr).
  pose proof (ensure_complete q (trim (line_buffer p)) Hq) as Hc.
  pose proof (ensure_err_in_range q (trim (line_buffer p)) Hq ltac:(simpl; lia)) as He.
  pose proof (process_line_post q (line_buffer p) Hq ltac:(simpl; lia)) as Hp.
  case_goal.
  - destruct (ensure_update_hunk_is_not_empty _ _) as [[]|e]; simpl in *; naive_solver.
  - destruct (process_line q _) as [p' [u|e]]; destruct Hp as (Hi & Hl & _ & Her); simpl in *;
      [|naive_solver].
    unfold parser_inv in Hi. destruct (mode (state p')); simpl; naive_solver.
Qed.

(** ** The whole-text parser *)

Notation no_lf := (Forall (fun c => c <> LF)).

Lemma strip_cr_no_lf l : no_lf l -> no_lf (strip_cr l).
Proof.
  intros H. unfold strip_cr. destruct (strip_suffix [CR] l) as [r|] eqn:E; [|done].
  apply strip_suffix_Some in E. subst. by apply Forall_app in H as [? _].
Qed.

Lemma lines_no_lf s : Forall no_lf (lines s).
Proof.
  unfold lines. pose proof (split_on_no_sep LF s) as H.
  destruct (split_on LF s) as [|l ls _] using rev_ind; [by constructor|].
  rewrite List.removelast_last, List.last_last.
  apply Forall_app in H as [H1 H2]. apply Forall_app. split.
  - clear H2. induction H1; cbn [List.map]; constructor; auto using strip_cr_no_lf.
  - by destruct (is_empty l).
Qed.

Lemma count_lf_app a b : count_lf (a ++ b) = count_lf a + count_lf b.
Proof. induction a; simpl; lia. Qed.

Lemma count_lf_none l : no_lf l -> count_lf l = 0.
Proof. induction 1 as [|c l Hc _ IH]; simpl; [done|]. by destruct (N.eqb_spec c LF). Qed.

Lemma count_lf_join ls : ls <> [] -> Forall no_lf ls -> S (count_lf (join [LF] ls)) = length ls.
Proof.
  intros Hne H. induction H as [|l ls Hl _ IH]; [done|]. destruct ls as [|l' ls].
  - simpl. by rewrite count_lf_none.
  - rewrite join_cons by done. rewrite !count_lf_app, count_lf_none by done.
    cbn [count_lf]. replace (LF =? LF)%N with true by done.
    specialize (IH ltac:(done)). cbn [length] in *. lia.
Qed.

Lemma strict_ok ls ls' :
  check_patch_boundaries_strict ls = Ok ls' -> ls' = ls /\ ls <> [].
Proof.
  unfold check_patch_boundaries_strict, check_start_and_end_lines_strict.
  destruct ls as [|l ls]; [done|]. repeat case_match; naive_solver.
Qed.

Lemma strict_err ls e :
  check_patch_boundaries_strict ls = Err e -> exists m, e = InvalidPatchError m.
Proof.
  unfold check_patch_boundaries_strict, check_start_and_end_lines_strict.
  destruct (option_map trim (head ls)), (option_map trim (last ls)); try case_goal;
    try case_goal; intros [= <-]; eauto.
Qed.

Lemma boundaries_err pm ls e :
  match pm with
  | Strict => check_patch_boundaries_strict ls
  | Lenient => check_patch_boundaries_lenient ls
  end = Err e -> exists m, e = InvalidPatchError m.
Proof.
  destruct pm; [apply strict_err|]. unfold check_patch_boundaries_lenient.
  destruct (check_patch_boundaries_strict ls) as [|e'] eqn:E; [done|].
  apply strict_err in E as [m ->].
  destruct (head ls) as [first|]; [|intros [= <-]; eauto].
  destruct (last ls) as [final|]; [|intros [= <-]; eauto].
  destruct (_ && (4 <=? length ls)); [apply strict_err|intros [= <-]; eauto].
Qed.

Lemma boundaries_ok pm ls ls' :
  match pm with
  | Strict => check_patch_boundaries_strict ls
  | Lenient => check_patch_boundaries_lenient ls
  end = Ok ls' ->
  Forall no_lf ls -> ls' <> [] /\ Forall no_lf ls' /\ length ls' <= length ls.
Proof.
  intros H Hls. destruct pm; [by apply strict_ok in H as [-> ?]|].
  unfold check_patch_boundaries_lenient in H.
  destruct (check_patch_boundaries_strict ls) eqn:E.
  - simplify_eq. by apply strict_ok in E as [-> ?].
  - destruct (head ls) as [first|]; [|done]. destruct (last ls) as [final|]; [|done].
    destruct (_ && (4 <=? length ls)); [|done].
    apply strict_ok in H as [-> ?]. split; [done|]. split.
    + by apply Forall_take, Forall_drop.
    + rewrite length_take, length_drop. lia.
Qed.

(** The parser state reached on an accepted line list, and its outcome. *)
Lemma parse_patch_text_post patch pm :
  match parse_patch_text patch pm with
  | Ok a => Forall hunk_complete (args_hunks a)
  | Err (InvalidHunkError _ n) => 1 <= n <= length (lines (trim patch))
  | Err _ => True
  end.
Proof.
  unfold parse_patch_text.
  destruct (match pm with Strict => _ | Lenient => _ end) as [ls|e] eqn:E.
  2: { by apply boundaries_err in E as [? ->]. }
  apply boundaries_ok in E as (Hne & Hlf & Hlen); [|apply lines_no_lf].
  pose proof (count_lf_join ls Hne Hlf) as Hc.
  unfold push_delta.
  destruct (push_chars_post default_parser (join [LF] ls)) as (Hi & Hn & He); [done|].
  destruct (push_chars _ _) as [p [u|e]]; simpl in *.
  2: { destruct e; simpl in *; [done|lia]. }
  destruct (finish_post p Hi) as [Hf Hok].
  destruct (finish p) as [p' [hs|e]]; simpl in *; [auto|].
  destruct e; simpl in *; [done|lia].
Qed.

(** Feeding a delta in two pieces is feeding it whole: same parser, same
    hunks, same error, for every split point (inside a line, a marker or a
    ["\r\n"]). *)
Theorem push_delta_app p a b :
  push_delta p (a ++ b) =
  match push_delta p a with
  | (p', Ok _) => push_delta p' b
  | (p', Err e) => (p', Err e)
  end.
Proof.
  unfold push_delta. rewrite push_chars_app.
  by destruct (push_chars p a) as [p' [u|e]].
Qed.

(** Every hunk of an accepted patch is complete: an update hunk has at
    least one chunk, and no chunk is without lines. *)
Theorem parse_patch_complete patch args :
  parse_patch patch = Ok args -> Forall hunk_complete (args_hunks args).
Proof.
  intros H. pose proof (parse_patch_text_post patch Lenient) as Hp.
  unfold parse_patch in H. cbn in H. by rewrite H in Hp.
Qed.

Definition sample_patch : str :=
  join [LF] [lit "*** Begin Patch"; lit "*** Update File: f"; lit "@@"; lit "+x";
             lit "*** End Patch"].

Lemma parse_patch_complete_witness :
  Forall hunk_complete [UpdateFile (lit "f") None [mkChunk None [] [lit "x"] false]].
Proof.
  apply (parse_patch_complete sample_patch
           (mkArgs sample_patch
              [UpdateFile (lit "f") None [mkChunk None [] [lit "x"] false]] None None)).
  by vm_compute.
Defined.

(** A hunk error names a line of the patch text: its number lies between 1
    and the number of lines of the trimmed input. *)
Theorem parse_patch_error_line patch message n :
  parse_patch patch = Err (InvalidHunkError message n) ->
  1 <= n <= length (lines (trim patch)).
Proof.
  intros H. pose proof (parse_patch_text_post patch Lenient) as Hp.
  unfold parse_patch in H. cbn in H. by rewrite H in Hp.
Qed.

Definition sample_bad_patch : str :=
  join [LF] [lit "*** Begin Patch"; lit "*** Update File: f"; lit "oops"; lit "*** End Patch"].

Lemma parse_patch_error_line_witness : 1 <= 3 <= length (lines (trim sample_bad_patch)).
Proof.
  apply (parse_patch_error_line sample_bad_patch (msg_unexpected_line (lit "oops"))).
  by vm_compute.
Defined.

End PatchFacts.
