(* ===== verification/PatchRoundtrip.v ===== *)
(** A printer for the patch grammar documented at the top of
    [apply-patch/src/parser.rs], and the proof that the parser inverts it; in the
    module [PatchStream], that a patch which is accepted while it streams in parses to
    the same hunks. *)

From stdpp Require Import base list option numbers strings.
From S2P Require Import Prelude RustStr SeekSequence PatchParser PatchParserFacts.

Module PatchRoundtrip.
Import Patch PatchFacts.

(** ** The printer *)

Definition context_line (ctx : option str) : str :=
  match ctx with
  | None => EMPTY_CHANGE_CONTEXT_MARKER
  | Some ctx => CHANGE_CONTEXT_MARKER ++ ctx
  end.

Definition print_chunk (c : UpdateFileChunk) : list str :=
  context_line (change_context c)
  :: List.map (app (lit "-")) (old_lines c) ++ List.map (app (lit "+")) (new_lines c)
  ++ (if is_end_of_file c then [EOF_MARKER] else []).

(** The lines of the contents of an added file. *)
Definition content_lines (contents : str) : list str :=
  List.removelast (split_on LF contents).

Definition print_move (mv : option str) : list str :=
  match mv with Some m => [MOVE_TO_MARKER ++ m] | None => [] end.

Definition print_hunk (h : Hunk) : list str :=
  match h with
  | AddFile path contents =>
      (ADD_FILE_MARKER ++ path) :: List.map (app (lit "+")) (content_lines contents)
  | DeleteFile path => [DELETE_FILE_MARKER ++ path]
  | UpdateFile path mv chunks =>
      (UPDATE_FILE_MARKER ++ path) :: print_move mv ++ mjoin (List.map print_chunk chunks)
  end.

Definition print_env (env : option str) : list str :=
  match env with Some e => [ENVIRONMENT_ID_MARKER ++ lit " " ++ e] | None => [] end.

Definition print_body (env : option str) (hs : list Hunk) : list str :=
  BEGIN_PATCH_MARKER :: print_env env ++ mjoin (List.map print_hunk hs).

Definition print_patch (env : option str) (hs : list Hunk) : str :=
  join [LF] (print_body env hs ++ [END_PATCH_MARKER]).

(** ** Printable hunks *)

(** A line of text: no terminator inside, and no ['\r'] at its end. *)
Definition text_line (l : str) : bool :=
  forallb (fun c => negb (c =? LF)%N) l &&
  match last l with Some c => negb (c =? CR)%N | None => true end.

(** A path or a context: a line of text that ends with a visible char. *)
Definition field (s : str) : bool :=
  text_line s && is_some_and (last s) (fun c => negb (is_whitespace c)).

Definition printable_chunk (c : UpdateFileChunk) : bool :=
  match change_context c with Some ctx => field ctx | None => true end
  && forallb text_line (old_lines c) && forallb text_line (new_lines c)
  && negb (chunk_is_empty c).

Definition printable_hunk (h : Hunk) : bool :=
  match h with
  | AddFile path contents =>
      field path && forallb text_line (content_lines contents)
      && (mjoin (List.map (fun l => l ++ [LF]) (content_lines contents)) == contents)
  | DeleteFile path => field path
  | UpdateFile path mv chunks =>
      field path && match mv with Some m => field m | None => true end
      && negb (is_empty chunks) && forallb printable_chunk chunks
  end.

Definition printable_env (env : option str) : bool :=
  match env with
  | Some e => field e && is_some_and (head e) (fun c => negb (is_whitespace c))
  | None => true
  end.

(** ** Reading one line *)

(** Processing [l] as line [S n] takes the parser state [st] to [st']. *)
Definition reads (st : StreamingParserState) (n : nat) (l : str) (st' : StreamingParserState) : Prop :=
  process_line (mkParser [] st (S n)) l = (mkParser [] st' (S n), Ok tt).

Inductive reads_all : StreamingParserState -> nat -> list str -> StreamingParserState -> Prop :=
| reads_nil st n : reads_all st n [] st
| reads_cons st n l st' ls st'' :
    reads st n l st' -> reads_all st' (S n) ls st'' -> reads_all st n (l :: ls) st''.

Lemma reads_one st n l st' : reads st n l st' -> reads_all st n [l] st'.
Proof. intros. econstructor; [done|constructor]. Qed.

Lemma reads_app st n ls st' ls' st'' :
  reads_all st n ls st' -> reads_all st' (n + length ls) ls' st'' ->
  reads_all st n (ls ++ ls') st''.
Proof.
  induction 1 as [|st n l st1 ls st2 Hl _ IH]; simpl.
  - by rewrite Nat.add_0_r.
  - intros H. econstructor; [done|]. apply IH. by rewrite Nat.add_succ_r in H.
Qed.

Lemma text_line_no_lf l : text_line l = true -> Forall (fun c => c <> LF) l.
Proof.
  intros [H _]%andb_true_iff. induction l as [|c l IH]; [done|]. simpl in H.
  apply andb_true_iff in H as [Hc H]. constructor; [|auto].
  by apply negb_true_iff, N.eqb_neq in Hc.
Qed.

Lemma text_line_strip_cr l : text_line l = true -> strip_cr l = l.
Proof.
  intros [_ H]%andb_true_iff. unfold strip_cr.
  destruct (strip_suffix [CR] l) as [r|] eqn:E; [|done].
  apply strip_suffix_Some in E. subst. by rewrite last_snoc in H.
Qed.

Lemma push_chars_no_lf p s :
  Forall (fun c => c <> LF) s ->
  push_chars p s = (set_line_buffer p (line_buffer p ++ s), Ok tt).
Proof.
  intros H. revert p. induction H as [|c s Hc _ IH]; intros p; simpl.
  - rewrite app_nil_r. by destruct p.
  - destruct (N.eqb_spec c LF); [done|]. rewrite IH. simpl. by rewrite <- app_assoc.
Qed.

(** Feeding terminated lines char by char is processing them line by line. *)
Lemma reads_all_push st n ls st' rest :
  reads_all st n ls st' -> Forall (fun l => text_line l = true) ls ->
  push_chars (mkParser [] st n) (mjoin (List.map (fun l => l ++ [LF]) ls) ++ rest) =
  push_chars (mkParser [] st' (n + length ls)) rest.
Proof.
  induction 1 as [|st n l st1 ls st2 Hl _ IH]; intros Hls; simpl.
  - by rewrite Nat.add_0_r.
  - inversion Hls as [|? ? Ht Hts]; subst. rewrite <- !app_assoc. simpl.
    rewrite push_chars_app, push_chars_no_lf by (by apply text_line_no_lf). simpl.
    rewrite text_line_strip_cr by done. unfold reads in Hl.
    unfold set_line_buffer, incr_line_number; simpl. rewrite Hl.
    rewrite IH by done. by rewrite Nat.add_succ_r.
Qed.

(** ** Lines that are not headers *)

Lemma trim_end_cons c l :
  is_whitespace c = false -> exists x, trim_end (c :: l) = c :: x.
Proof.
  intros Hc. change (c :: l) with ([] ++ c :: l).
  induction l as [|d l IH] using rev_ind.
  - exists []. by rewrite (trim_end_id _ c).
  - destruct (is_whitespace d) eqn:Hd.
    + simpl. rewrite app_comm_cons. unfold trim_end. rewrite trim_end_by_snoc_drop by done.
      apply IH.
    + simpl. rewrite app_comm_cons. unfold trim_end. rewrite trim_end_by_snoc by done. eauto.
Qed.

Lemma trim_cons c l :
  is_whitespace c = false -> exists x, trim (c :: l) = c :: x.
Proof.
  intros Hc. unfold trim, trim_start. simpl. rewrite Hc. by apply trim_end_cons.
Qed.

(** Every header marker starts with ['*']. *)
Lemma handle_plain p c x :
  c <> 42%N -> handle_hunk_headers_and_end_patch p (c :: x) = (p, Ok false).
Proof.
  intros Hc. unfold handle_hunk_headers_and_end_patch.
  assert (Hs : forall m, strip_prefix (42%N :: m) (c :: x) = None).
  { intros m. apply strip_prefix_None. naive_solver. }
  replace (match mode (state p) with
           | StartedPatch => strip_prefix ENVIRONMENT_ID_MARKER (c :: x)
           | _ => None end) with (@None str)
    by (destruct (mode (state p)); try done; symmetry; apply Hs).
  rewrite bool_decide_eq_false_2 by (intros [=]; done).
  assert (HA : strip_prefix ADD_FILE_MARKER (c :: x) = None) by apply Hs.
  assert (HD : strip_prefix DELETE_FILE_MARKER (c :: x) = None) by apply Hs.
  assert (HU : strip_prefix UPDATE_FILE_MARKER (c :: x) = None) by apply Hs.
  by rewrite HA, HD, HU.
Qed.

(** ** Header lines *)

(** A state in which a header may follow: the previous hunk is complete. *)
Definition ready (st : StreamingParserState) : Prop :=
  match mode st with NotStarted | EndedPatch => False | _ => True end /\
  forall b n line, ensure_update_hunk_is_not_empty (mkParser b st n) line = Ok tt.

Lemma field_last (s : str) : field s = true -> exists c, last s = Some c /\ is_whitespace c = false.
Proof.
  intros [_ H]%andb_true_iff. destruct (last s) as [c|]; [|done].
  simpl in H. apply negb_true_iff in H. eauto.
Qed.

Lemma last_app_field (m s : str) c : last s = Some c -> last (m ++ s) = Some c.
Proof. intros (s' & ->)%last_Some_snoc. by rewrite app_assoc, last_snoc. Qed.

Lemma header_trim (m s : str) :
  field s = true -> head m = Some 42%N -> trim (m ++ s) = m ++ s /\ trim_end (m ++ s) = m ++ s.
Proof.
  intros (c & Hl & Hc)%field_last Hm. pose proof (last_app_field m s c Hl) as Hl'.
  split; [|by apply (trim_end_id _ c)].
  apply (trim_id _ 42%N c); try done. by destruct m.
Qed.

Lemma read_header st n line st' :
  ready st -> trim line = line -> trim_end line = line ->
  handle_hunk_headers_and_end_patch (mkParser [] st (S n)) line
    = (mkParser [] st' (S n), Ok true) ->
  reads st n line st'.
Proof.
  intros [Hm _] Ht Hte Hh. unfold reads, process_line. simpl.
  rewrite Ht, Hte, Hh. by destruct (mode st).
Qed.

(** The three hunk headers, from a ready state. *)
Lemma handle_header st n path :
  ready st ->
  handle_hunk_headers_and_end_patch (mkParser [] st n) (ADD_FILE_MARKER ++ path) =
    (mkParser [] (mkState AddFileMode (hunks st ++ [AddFile path []]) (environment_id st)) n, Ok true) /\
  handle_hunk_headers_and_end_patch (mkParser [] st n) (DELETE_FILE_MARKER ++ path) =
    (mkParser [] (mkState DeleteFileMode (hunks st ++ [DeleteFile path]) (environment_id st)) n, Ok true) /\
  handle_hunk_headers_and_end_patch (mkParser [] st n) (UPDATE_FILE_MARKER ++ path) =
    (mkParser [] (mkState (UpdateFileMode n) (hunks st ++ [UpdateFile path None []])
                    (environment_id st)) n, Ok true).
Proof.
  intros [_ He]. unfold handle_hunk_headers_and_end_patch.
  assert (Hnone : forall t, strip_prefix ENVIRONMENT_ID_MARKER t = None ->
            match mode st with
            | StartedPatch => strip_prefix ENVIRONMENT_ID_MARKER t
            | _ => None
            end = None) by (intros t Ht; by destruct (mode st)).
  split_and!; cbn [mode state]; rewrite Hnone by done;
    rewrite bool_decide_eq_false_2 by discriminate; by rewrite He.
Qed.

Lemma reads_header_lines st n path :
  ready st -> field path = true ->
  reads st n (ADD_FILE_MARKER ++ path)
    (mkState AddFileMode (hunks st ++ [AddFile path []]) (environment_id st)) /\
  reads st n (DELETE_FILE_MARKER ++ path)
    (mkState DeleteFileMode (hunks st ++ [DeleteFile path]) (environment_id st)) /\
  reads st n (UPDATE_FILE_MARKER ++ path)
    (mkState (UpdateFileMode (S n)) (hunks st ++ [UpdateFile path None []]) (environment_id st)).
Proof.
  intros Hr Hf. destruct (handle_header st (S n) path Hr) as (? & ? & ?).
  split_and!; apply read_header; try done; by apply header_trim.
Qed.

(** ** Body lines of an added file *)

Lemma reads_add_line hs env n path contents l :
  reads (mkState AddFileMode (hs ++ [AddFile path contents]) env) n (lit "+" ++ l)
    (mkState AddFileMode (hs ++ [AddFile path (contents ++ l ++ [LF])]) env).
Proof.
  change (lit "+" ++ l) with (43%N :: l). unfold reads, process_line. cbn [mode state].
  destruct (trim_cons 43%N l) as [x ->]; [done|]. rewrite handle_plain by done. simpl.
  by rewrite last_snoc, update_last_snoc.
Qed.

Lemma reads_add_lines hs env n path contents ls :
  reads_all (mkState AddFileMode (hs ++ [AddFile path contents]) env) n
    (List.map (app (lit "+")) ls)
    (mkState AddFileMode
       (hs ++ [AddFile path (contents ++ mjoin (List.map (fun l => l ++ [LF]) ls))]) env).
Proof.
  revert n contents. induction ls as [|l ls IH]; intros n contents;
    cbn [List.map mjoin list_join].
  - rewrite app_nil_r. constructor.
  - econstructor; [apply reads_add_line|].
    rewrite (app_assoc contents (l ++ [LF])). apply IH.
Qed.

(** ** Body lines of an update *)

(** The parser state while the chunks of the last hunk are being read. *)
Definition updating (k : nat) (hs : list Hunk) (path : str) (mv : option str)
    (chunks : list UpdateFileChunk) (env : option str) : StreamingParserState :=
  mkState (UpdateFileMode k) (hs ++ [UpdateFile path mv chunks]) env.

Lemma reads_update k hs path mv chunks env n line update_line chunks' mv' :
  trim_end line = update_line ->
  (forall p, handle_hunk_headers_and_end_patch p update_line = (p, Ok false)) ->
  (forall p, process_update_body p k line update_line path mv chunks =
             (set_last_update p k path mv' chunks', Ok tt)) ->
  reads (updating k hs path mv chunks env) n line (updating k hs path mv' chunks' env).
Proof.
  intros Ht Hh Hb. unfold reads, process_line. simpl. rewrite Ht, Hh. simpl.
  rewrite last_snoc, Hb. unfold set_last_update, set_hunks, set_mode. simpl.
  by rewrite update_last_snoc.
Qed.

Lemma edit_last_chunk_snoc f cs c : edit_last_chunk f (cs ++ [c]) = cs ++ [f c].
Proof.
  unfold edit_last_chunk. replace (is_empty (cs ++ [c])) with false by (by destruct cs).
  apply update_last_snoc.
Qed.

(** A removed or an added line, inside an open chunk. *)
Lemma reads_edit_line k hs path mv cs c env n l (op : UpdateFileChunk -> UpdateFileChunk) ch :
  (ch = 45%N /\ op = push_old l) \/ (ch = 43%N /\ op = push_new l) ->
  is_end_of_file c = false ->
  reads (updating k hs path mv (cs ++ [c]) env) n (ch :: l)
    (updating k hs path mv (cs ++ [op c]) env).
Proof.
  intros Hop Hc.
  assert (Hw : is_whitespace ch = false) by (destruct Hop as [[-> _]|[-> _]]; done).
  destruct (trim_end_cons ch l Hw) as [x Hx].
  eapply reads_update; [exact Hx| |].
  - intros p. apply handle_plain. destruct Hop as [[-> _]|[-> _]]; done.
  - intros p. unfold process_update_body. rewrite last_snoc. simpl. rewrite Hc. simpl.
    rewrite is_empty_app, andb_false_r. simpl.
    rewrite <- edit_last_chunk_snoc.
    unfold is_context_line. rewrite !bool_decide_eq_false_2
      by (destruct Hop as [[-> _]|[-> _]]; discriminate).
    destruct Hop as [[-> ->]|[-> ->]]; done.
Qed.

Lemma reads_edit_lines k hs path mv cs c env n ls (op : str -> UpdateFileChunk -> UpdateFileChunk) ch :
  (ch = 45%N /\ op = push_old) \/ (ch = 43%N /\ op = push_new) ->
  is_end_of_file c = false ->
  reads_all (updating k hs path mv (cs ++ [c]) env) n (List.map (cons ch) ls)
    (updating k hs path mv (cs ++ [fold_left (fun c l => op l c) ls c]) env).
Proof.
  intros Hop. revert c n. induction ls as [|l ls IH]; intros c n Hc;
    cbn [List.map fold_left]; [constructor|].
  econstructor; [apply (reads_edit_line _ _ _ _ _ _ _ _ _ (op l)); [naive_solver|done]|].
  apply IH. destruct Hop as [[_ ->]|[_ ->]]; done.
Qed.

Lemma fold_push_old ls c :
  fold_left (fun c l => push_old l c) ls c =
  mkChunk (change_context c) (old_lines c ++ ls) (new_lines c) (is_end_of_file c).
Proof.
  revert c. induction ls as [|l ls IH]; intros c; simpl.
  - rewrite app_nil_r. by destruct c.
  - rewrite IH. simpl. by rewrite <- app_assoc.
Qed.

Lemma fold_push_new ls c :
  fold_left (fun c l => push_new l c) ls c =
  mkChunk (change_context c) (old_lines c) (new_lines c ++ ls) (is_end_of_file c).
Proof.
  revert c. induction ls as [|l ls IH]; intros c; simpl.
  - rewrite app_nil_r. by destruct c.
  - rewrite IH. simpl. by rewrite <- app_assoc.
Qed.

(** The context line that opens a chunk. *)
Lemma reads_context_line k hs path mv cs env n ctx :
  is_some_and (last cs) chunk_is_empty = false ->
  match ctx with Some c => field c = true | None => True end ->
  reads (updating k hs path mv cs env) n (context_line ctx)
    (updating k hs path mv (cs ++ [fresh_chunk ctx]) env).
Proof.
  intros Hl Hctx. apply reads_update with (update_line := context_line ctx).
  - destruct ctx as [c|]; [|by vm_compute].
    destruct (field_last c Hctx) as (d & Hd & Hw).
    apply (trim_end_id _ d); [|done]. by apply last_app_field.
  - intros p. destruct ctx; by apply handle_plain.
  - intros p. unfold process_update_body. rewrite Hl.
    assert (Hc : is_context_line (context_line ctx) = true).
    { apply is_context_line_true. destruct ctx; [right; eexists; apply strip_prefix_app|by left]. }
    rewrite Hc. cbn [negb andb]. rewrite andb_false_r.
    replace (is_empty (context_line ctx)) with false by (by destruct ctx).
    rewrite andb_false_r.
    replace (if _ && _ then strip_prefix MOVE_TO_MARKER _ else None) with (@None str)
      by (destruct ctx; by case_match).
    destruct ctx as [c|]; [|done]. rewrite bool_decide_eq_false_2 by discriminate. done.
Qed.

Lemma reads_eof k hs path mv cs c env n :
  chunk_is_empty c = false -> is_end_of_file c = false ->
  reads (updating k hs path mv (cs ++ [c]) env) n EOF_MARKER
    (updating k hs path mv (cs ++ [mark_eof c]) env).
Proof.
  intros He Hc. eapply reads_update; [by vm_compute| |].
  - intros p. unfold handle_hunk_headers_and_end_patch.
    by destruct (mode (state p)).
  - intros p. unfold process_update_body. rewrite last_snoc. simpl. rewrite Hc, He. simpl.
    rewrite is_empty_app, andb_false_r. simpl. by rewrite update_last_snoc.
Qed.

(** A whole chunk. *)
Lemma reads_chunk k hs path mv cs c env n :
  is_some_and (last cs) chunk_is_empty = false -> printable_chunk c = true ->
  reads_all (updating k hs path mv cs env) n (print_chunk c)
    (updating k hs path mv (cs ++ [c]) env).
Proof.
  intros Hl Hp. unfold printable_chunk in Hp. bool_to_prop.
  unfold print_chunk. econstructor.
  { apply reads_context_line; [done|]. by destruct (change_context c). }
  eapply reads_app; [apply (reads_edit_lines _ _ _ _ _ _ _ _ _ push_old); [by left|done]|].
  rewrite fold_push_old.
  eapply reads_app; [apply (reads_edit_lines _ _ _ _ _ _ _ _ _ push_new); [by right|done]|].
  rewrite fold_push_new. simpl.
  destruct c as [ctx old new [|]]; simpl in *; [|constructor].
  apply reads_one. change (mkChunk ctx old new true) with (mark_eof (mkChunk ctx old new false)).
  by apply reads_eof.
Qed.

Lemma reads_chunks k hs path mv cs0 cs env n :
  is_some_and (last cs0) chunk_is_empty = false ->
  forallb printable_chunk cs = true ->
  reads_all (updating k hs path mv cs0 env) n (mjoin (List.map print_chunk cs))
    (updating k hs path mv (cs0 ++ cs) env).
Proof.
  revert cs0 n. induction cs as [|c cs IH]; intros cs0 n Hl Hp;
    cbn [List.map mjoin list_join forallb] in *.
  - rewrite app_nil_r. constructor.
  - apply andb_true_iff in Hp as [Hc Hcs].
    eapply reads_app; [by apply reads_chunk|].
    change (c :: cs) with ([c] ++ cs). rewrite app_assoc. apply IH; [|done].
    rewrite last_snoc. simpl. unfold printable_chunk in Hc. by bool_to_prop.
Qed.

Lemma reads_move k hs path env n m :
  field m = true ->
  reads (updating k hs path None [] env) n (MOVE_TO_MARKER ++ m)
    (updating k hs path (Some m) [] env).
Proof.
  intros Hm. eapply reads_update; [by apply header_trim| |].
  - intros p. unfold handle_hunk_headers_and_end_patch.
    rewrite bool_decide_eq_false_2 by discriminate. by destruct (mode (state p)).
  - done.
Qed.

(** ** A whole hunk, and the patch *)

Definition after_mode (h : Hunk) (n : nat) : StreamingParserMode :=
  match h with
  | AddFile _ _ => AddFileMode
  | DeleteFile _ => DeleteFileMode
  | UpdateFile _ _ _ => UpdateFileMode (S n)
  end.

Lemma printable_last_chunk cs :
  forallb printable_chunk cs = true -> is_some_and (last cs) chunk_is_empty = false.
Proof.
  destruct cs as [|c cs _] using rev_ind; [done|].
  rewrite forallb_app, last_snoc. simpl. unfold printable_chunk. intros.
  by bool_to_prop.
Qed.

Lemma reads_hunk st n h :
  ready st -> printable_hunk h = true ->
  reads_all st n (print_hunk h)
    (mkState (after_mode h n) (hunks st ++ [h]) (environment_id st)) /\
  ready (mkState (after_mode h n) (hunks st ++ [h]) (environment_id st)).
Proof.
  intros Hr Hp. destruct h as [path contents|path|path mv cs];
    cbn [printable_hunk print_hunk after_mode] in *; bool_to_prop.
  - destruct (reads_header_lines st n path Hr) as (Ha & _ & _); [done|]. split.
    + econstructor; [exact Ha|].
      match goal with H : mjoin _ = contents |- _ => rewrite <- H at 2 end.
      apply (reads_add_lines _ _ _ _ []).
    + split; [done|]. intros. unfold ensure_update_hunk_is_not_empty. simpl. by rewrite last_snoc.
  - destruct (reads_header_lines st n path Hr) as (_ & Hd & _); [done|]. split.
    + by apply reads_one.
    + split; [done|]. intros. unfold ensure_update_hunk_is_not_empty. simpl. by rewrite last_snoc.
  - destruct (reads_header_lines st n path Hr) as (_ & _ & Hu); [done|]. split.
    + econstructor; [exact Hu|]. eapply reads_app; [|by apply (reads_chunks _ _ _ _ [])].
      destruct mv as [m|]; simpl; [|constructor]. apply reads_one. by apply reads_move.
    + split; [done|]. intros. unfold ensure_update_hunk_is_not_empty. simpl.
      rewrite last_snoc.
      match goal with H : is_empty cs = false |- _ => rewrite H end.
      by rewrite printable_last_chunk.
Qed.

Lemma reads_hunks st n hs :
  ready st -> forallb printable_hunk hs = true ->
  exists m,
    reads_all st n (mjoin (List.map print_hunk hs))
      (mkState m (hunks st ++ hs) (environment_id st)) /\
    ready (mkState m (hunks st ++ hs) (environment_id st)).
Proof.
  revert st n. induction hs as [|h hs IH]; intros st n Hr Hp;
    cbn [List.map mjoin list_join forallb] in *.
  - exists (mode st). rewrite app_nil_r. destruct st. split; [constructor|done].
  - apply andb_true_iff in Hp as [Hh Hhs].
    destruct (reads_hunk st n h Hr Hh) as [H1 Hr1].
    destruct (IH _ (n + length (print_hunk h)) Hr1 Hhs) as (m & H2 & Hr2).
    cbn [hunks environment_id] in *.
    rewrite <- app_assoc in H2, Hr2. exists m. split; [|done].
    by eapply reads_app.
Qed.

(** ** Printed lines are lines of text *)

Lemma text_line_app m s :
  text_line m = true -> text_line s = true -> text_line (m ++ s) = true.
Proof.
  unfold text_line. intros Hm Hs. bool_to_prop. rewrite forallb_app.
  apply andb_true_iff. split; [by apply andb_true_iff|].
  destruct s as [|c s _] using rev_ind; [by rewrite app_nil_r|].
  rewrite app_assoc, last_snoc. by rewrite last_snoc in *.
Qed.

Lemma field_text_line s : field s = true -> text_line s = true.
Proof. intros H. unfold field in H. by bool_to_prop. Qed.

Notation text_lines := (Forall (fun l => text_line l = true)).

Lemma text_lines_prefixed m ls :
  text_line m = true -> forallb text_line ls = true -> text_lines (List.map (app m) ls).
Proof.
  intros Hm. induction ls as [|l ls IH]; cbn [forallb List.map]; [constructor|].
  intros [Hl Hls]%andb_true_iff. constructor; [by apply text_line_app|auto].
Qed.

Lemma print_chunk_text_lines c : printable_chunk c = true -> text_lines (print_chunk c).
Proof.
  intros Hp. unfold printable_chunk in Hp. bool_to_prop. unfold print_chunk.
  constructor.
  - destruct (change_context c); [|done].
    apply text_line_app; [done|by apply field_text_line].
  - rewrite !Forall_app. split_and!; try by apply text_lines_prefixed.
    destruct (is_end_of_file c); repeat constructor.
Qed.

Lemma print_hunk_text_lines h : printable_hunk h = true -> text_lines (print_hunk h).
Proof.
  intros Hp. destruct h as [path contents|path|path mv cs];
    cbn [printable_hunk print_hunk] in *; bool_to_prop;
    (constructor; [apply text_line_app; [done|by apply field_text_line]|]).
  - by apply text_lines_prefixed.
  - constructor.
  - apply Forall_app. split.
    + destruct mv; repeat constructor. apply text_line_app; [done|by apply field_text_line].
    + match goal with H : forallb printable_chunk cs = true |- _ => revert H end.
      clear. induction cs as [|c cs IH]; cbn [List.map mjoin list_join forallb]; [constructor|].
      intros [Hc Hcs]%andb_true_iff. apply Forall_app. split; [by apply print_chunk_text_lines|auto].
Qed.

Lemma print_body_text_lines env hs :
  printable_env env = true -> forallb printable_hunk hs = true -> text_lines (print_body env hs).
Proof.
  intros He Hp. unfold print_body. constructor; [done|]. apply Forall_app. split.
  - destruct env as [e|]; unfold print_env; repeat constructor. unfold printable_env in He.
    bool_to_prop. do 2 (apply text_line_app; [done|]). by apply field_text_line.
  - induction hs as [|h hs IH]; cbn [List.map mjoin list_join forallb]; [constructor|]. cbn [forallb] in Hp. bool_to_prop.
    apply Forall_app. split; [by apply print_hunk_text_lines|auto].
Qed.

(** ** Reading the whole patch *)

Lemma reads_env n env :
  printable_env env = true ->
  reads_all (mkState StartedPatch [] None) n (print_env env) (mkState StartedPatch [] env).
Proof.
  destruct env as [e|]; [|constructor]. unfold printable_env. intros He. bool_to_prop.
  destruct (field_last e) as (d & Hd & Hw); [done|]. apply reads_one.
  destruct e as [|c e]; [done|]. cbn [head is_some_and] in *. bool_to_prop.
  assert (Hl : last (lit "*** Environment ID: " ++ c :: e) = Some d)
    by (by apply last_app_field).
  assert (Ht : trim (ENVIRONMENT_ID_MARKER ++ lit " " ++ c :: e)
               = lit "*** Environment ID: " ++ c :: e)
    by (apply (trim_id _ 42%N d); done).
  unfold reads, process_line. cbn [mode state]. rewrite Ht.
  unfold handle_hunk_headers_and_end_patch. cbn [mode state environment_id].
  replace (strip_prefix ENVIRONMENT_ID_MARKER (lit "*** Environment ID: " ++ c :: e))
    with (Some (32%N :: c :: e)) by done.
  assert (Hte : trim (32%N :: c :: e) = c :: e).
  { change (trim (c :: e) = c :: e). by apply (trim_id _ c d). }
  cbn [is_some]. rewrite Hte. done.
Qed.

Lemma reads_body env hs :
  printable_env env = true -> forallb printable_hunk hs = true ->
  exists m, reads_all (mkState NotStarted [] None) 0 (print_body env hs) (mkState m hs env) /\
    ready (mkState m hs env).
Proof.
  intros He Hp. unfold print_body.
  assert (Hr : ready (mkState StartedPatch [] env)) by (split; [done|done]).
  destruct (reads_hunks (mkState StartedPatch [] env) (1 + length (print_env env)) hs Hr Hp)
    as (m & Hm & Hrm).
  exists m. split; [|done]. econstructor; [by vm_compute|].
  eapply reads_app; [by apply reads_env|done].
Qed.

Lemma lines_print_patch env hs :
  printable_env env = true -> forallb printable_hunk hs = true ->
  lines (trim (print_patch env hs)) = print_body env hs ++ [END_PATCH_MARKER].
Proof.
  intros He Hp. pose proof (print_body_text_lines _ _ He Hp) as Ht.
  assert (Htrim : trim (print_patch env hs) = print_patch env hs).
  { unfold print_patch. apply (trim_id _ 42%N 104%N); try done.
    - unfold print_body. cbn [app].
      by rewrite join_cons by (destruct (print_env env ++ _); done).
    - generalize (print_body env hs). intros ls. induction ls as [|l ls IH]; [done|].
      cbn [app]. rewrite join_cons by (by destruct ls). by do 2 apply last_app_field. }
  rewrite Htrim. unfold lines, print_patch.
  rewrite split_on_join.
  - rewrite List.removelast_last, List.last_last. cbn [is_empty END_PATCH_MARKER]. f_equal.
    induction Ht as [|l ls Hl _ IH]; cbn [List.map]; [done|].
    by rewrite text_line_strip_cr, IH.
  - by destruct (print_body env hs).
  - apply Forall_app. split; [|by repeat constructor].
    eapply Forall_impl; [exact Ht|]. intros l Hl. by apply text_line_no_lf.
Qed.

Lemma check_print_patch env hs :
  check_patch_boundaries_strict (print_body env hs ++ [END_PATCH_MARKER]) =
  Ok (print_body env hs ++ [END_PATCH_MARKER]).
Proof.
  unfold check_patch_boundaries_strict. rewrite last_snoc. unfold print_body. cbn [head app].
  by replace (check_start_and_end_lines_strict _ _) with (@Ok unit ParseError tt) by (by vm_compute).
Qed.

Lemma join_terminated ls l :
  join [LF] (ls ++ [l]) = mjoin (List.map (fun l => l ++ [LF]) ls) ++ l.
Proof.
  induction ls as [|x ls IH]; [done|]. cbn [app]. rewrite join_cons by (by destruct ls).
  rewrite IH. cbn [List.map mjoin list_join]. by rewrite <- !app_assoc.
Qed.

(** C7: the parser inverts the printer: for every environment id and list of
    printable hunks, [parse_patch] of the printed patch succeeds with exactly
    those hunks and that id (whatever the paths, contents and contexts). *)
Theorem parse_print_patch env hs :
  printable_env env = true -> forallb printable_hunk hs = true ->
  parse_patch (print_patch env hs) = Ok (mkArgs (print_patch env hs) hs None env).
Proof.
  intros He Hp. unfold parse_patch, parse_patch_text. cbn [PARSE_IN_STRICT_MODE].
  rewrite lines_print_patch by done. unfold check_patch_boundaries_lenient.
  rewrite check_print_patch. fold (print_patch env hs).
  destruct (reads_body env hs He Hp) as (m & Hm & Hmode & Hr).
  unfold push_delta. unfold print_patch at 1. rewrite join_terminated.
  unfold default_parser. rewrite (reads_all_push _ _ _ _ _ Hm) by (by apply print_body_text_lines).
  rewrite push_chars_no_lf by (by repeat constructor).
  unfold finish, finish_buffer. cbn [line_buffer set_line_buffer is_empty app].
  replace (is_empty END_PATCH_MARKER) with false by done.
  replace (trim END_PATCH_MARKER) with END_PATCH_MARKER by (by vm_compute).
  rewrite bool_decide_eq_true_2 by done.
  unfold incr_line_number, set_line_buffer. cbn [state line_number line_buffer].
  rewrite Hr. done.
Qed.

Definition sample_hunks : list Hunk :=
  [AddFile (lit "a b.txt") (lit "x" ++ [LF] ++ lit "*** End Patch" ++ [LF]);
   DeleteFile (lit "old.txt");
   UpdateFile (lit "src/m.py") (Some (lit "src/n.py"))
     [mkChunk (Some (lit "def f():")) [lit "  pass  "] [lit "@@"] false;
      mkChunk None [] [[]] true]].

Lemma parse_print_patch_witness :
  parse_patch (print_patch (Some (lit "env 1")) sample_hunks) =
  Ok (mkArgs (print_patch (Some (lit "env 1")) sample_hunks) sample_hunks None (Some (lit "env 1"))).
Proof. apply parse_print_patch; by vm_compute. Defined.

End PatchRoundtrip.

(** * Streaming a patch and parsing it whole *)

Module PatchStream.
Import Patch PatchFacts PatchRoundtrip.

#[export] Instance parser_mode_eq_dec : EqDecision StreamingParserMode.
Proof. solve_decision. Defined.

(** The pieces of a patch as they arrive, up to the first error, and the end. *)
Fixpoint feed (p : StreamingPatchParser) (deltas : list str) : StreamingPatchParser * result unit ParseError :=
  match deltas with
  | [] => (p, Ok tt)
  | d :: deltas =>
      match push_delta p d with
      | (p', Ok _) => feed p' deltas
      | (p', Err e) => (p', Err e)
      end
  end.

Definition stream (deltas : list str) : StreamingPatchParser * result (list Hunk) ParseError :=
  match feed default_parser deltas with
  | (p, Ok _) => finish p
  | (p, Err e) => (p, Err e)
  end.

Lemma feed_concat p deltas : feed p deltas = push_chars p (mjoin deltas).
Proof.
  revert p. induction deltas as [|d deltas IH]; intros p; [done|]. cbn [feed mjoin list_join]. unfold push_delta.
  rewrite push_chars_app. destruct (push_chars p d) as [p' [[]|e]]; [apply IH|done].
Qed.

(** ** A line leaves buffer and line number alone *)

Definition keeps {A} (p : StreamingPatchParser) (out : StreamingPatchParser * A) : Prop :=
  line_buffer out.1 = line_buffer p /\ line_number out.1 = line_number p.

Lemma handle_keeps p t : keeps p (handle_hunk_headers_and_end_patch p t).
Proof. unfold keeps, handle_hunk_headers_and_end_patch. repeat case_match; done. Qed.

Lemma update_body_keeps p n line update_line path mv chunks : keeps p (process_update_body p n line update_line path mv chunks).
Proof. unfold keeps, process_update_body. repeat case_match; done. Qed.

Lemma handle_false p t p' : handle_hunk_headers_and_end_patch p t = (p', Ok false) -> p' = p.
Proof. unfold handle_hunk_headers_and_end_patch. repeat case_match; by intros [= <-]. Qed.

Lemma process_line_keeps p line : keeps p (process_line p line).
Proof.
  unfold process_line. destruct (mode (state p)); try by case_match.
  all: match goal with |- context [handle_hunk_headers_and_end_patch ?q ?t] => pose proof (handle_keeps q t) as H; pose proof (handle_false q t) as Hf end;
    destruct (handle_hunk_headers_and_end_patch _ _) as [q [[]|e]]; try done; rewrite (Hf q eq_refl); repeat case_match; try done.
  apply update_body_keeps.
Qed.

(** The char loop on terminated lines, both ways. *)
Lemma reads_all_terminated st n ls st' rest :
  reads_all st n (List.map strip_cr ls) st' -> Forall no_lf ls ->
  push_chars (mkParser [] st n) (mjoin (List.map (fun l => l ++ [LF]) ls) ++ rest) = push_chars (mkParser [] st' (n + length ls)) rest.
Proof.
  revert st n. induction ls as [|l ls IH]; intros st n H Hls; inversion H as [|? ? ? st1 ? ? Hl Hr]; subst; cbn [List.map mjoin list_join app].
  - by rewrite Nat.add_0_r.
  - apply Forall_cons in Hls as [Hl' Hls]. cbn [length]. rewrite <- !app_assoc, push_chars_app, push_chars_no_lf by done. cbn -[strip_cr process_line].
    unfold reads in Hl. unfold set_line_buffer, incr_line_number. cbn [line_buffer state line_number]. rewrite Hl, IH by done.
    by rewrite Nat.add_succ_r.
Qed.

Lemma push_terminated_inv st n ls rest p' :
  Forall no_lf ls -> push_chars (mkParser [] st n) (mjoin (List.map (fun l => l ++ [LF]) ls) ++ rest) = (p', Ok tt) ->
  exists st', reads_all st n (List.map strip_cr ls) st' /\ push_chars (mkParser [] st' (n + length ls)) rest = (p', Ok tt).
Proof.
  revert st n. induction ls as [|l ls IH]; intros st n Hls; cbn [List.map mjoin list_join app].
  - intros H. exists st. split; [constructor|]. by rewrite Nat.add_0_r.
  - apply Forall_cons in Hls as [Hl Hls]. rewrite <- !app_assoc, push_chars_app, push_chars_no_lf by done. cbn -[strip_cr process_line].
    unfold set_line_buffer, incr_line_number. cbn [line_buffer state line_number].
    pose proof (process_line_keeps (mkParser [] st (S n)) (strip_cr l)) as [Hb Hn].
    destruct (process_line _ _) as [[b st1 n1] [[]|e]] eqn:E; [|done]. cbn [fst line_buffer line_number] in Hb, Hn. subst b n1.
    intros (st' & Hr & Hp)%IH; [|done]. exists st'. split; [by econstructor|].
    cbn [length]. by rewrite Nat.add_succ_r.
Qed.

(** ** The end of a patch *)

Lemma trim_end_nil s : trim s = [] -> trim_end s = [].
Proof.
  intros H. destruct (trim_start_by_suffix is_whitespace s) as (w & Hs & Hw). unfold trim in H.
  destruct (trim_end_by_prefix is_whitespace (trim_start s)) as (w' & Hs' & Hw').
  change (trim_end_by is_whitespace (trim_start s)) with (trim_end (trim_start s)) in Hs'. rewrite H in Hs'. cbn in Hs'.
  change (trim_start_by is_whitespace s) with (trim_start s) in Hs. rewrite Hs, Hs'.
  rewrite <- (app_nil_l (w ++ w')). rewrite trim_end_app_ws; [done|]. by apply Forall_app.
Qed.

Lemma handle_blank p : handle_hunk_headers_and_end_patch p [] = (p, Ok false).
Proof. unfold handle_hunk_headers_and_end_patch. by destruct (mode (state p)). Qed.

Lemma update_body_mode p n line update_line path mv chunks p' :
  mode (state p) = UpdateFileMode n -> process_update_body p n line update_line path mv chunks = (p', Ok tt) -> mode (state p') = UpdateFileMode n.
Proof. intros Hm. unfold process_update_body. repeat case_match; intros [= <-]; done. Qed.

(** A blank line does not end a patch. *)
Lemma blank_line p line p' :
  trim line = [] -> process_line p line = (p', Ok tt) -> mode (state p') = EndedPatch -> p' = p.
Proof.
  intros Hb. unfold process_line. rewrite Hb, (trim_end_nil line Hb), handle_blank.
  destruct (mode (state p)) eqn:Hm; cbn [is_empty]; try done; repeat case_match; try done; try (intros [= <-]; by cbn; rewrite ?Hm).
  intros Hu He. apply update_body_mode in Hu; [|done]. congruence.
Qed.

(** Only the end marker ends a patch, and it changes nothing else. *)
Definition ends_patch (p : StreamingPatchParser) (p' : StreamingPatchParser) : Prop :=
  ensure_update_hunk_is_not_empty p END_PATCH_MARKER = Ok tt /\ p' = set_mode p EndedPatch.

Lemma handle_ends p t p' r :
  mode (state p) <> EndedPatch -> handle_hunk_headers_and_end_patch p t = (p', Ok r) -> mode (state p') = EndedPatch ->
  t = END_PATCH_MARKER /\ ends_patch p p' /\ r = true.
Proof.
  intros Hm. unfold handle_hunk_headers_and_end_patch, ends_patch.
  destruct (match mode (state p) with StartedPatch => _ | _ => _ end) as [env|] eqn:Ee; [repeat case_match; intros; simplify_eq/=; congruence|].
  case_bool_decide; [subst|repeat case_match; intros; simplify_eq/=; congruence].
  destruct (ensure_update_hunk_is_not_empty p END_PATCH_MARKER) as [[]|]; [|done]. by intros [= <- <-].
Qed.

Lemma trim_end_marker line : trim_end line = END_PATCH_MARKER -> trim line = END_PATCH_MARKER.
Proof. intros H. unfold trim. rewrite <- SeekSequence.Seek.trim_start_end_comm, H. by vm_compute. Qed.

Lemma line_ends p line p' :
  mode (state p) <> EndedPatch -> process_line p line = (p', Ok tt) -> mode (state p') = EndedPatch ->
  trim line = END_PATCH_MARKER /\ ends_patch p p'.
Proof.
  intros Hm. unfold process_line. destruct (mode (state p)) eqn:E; try done; [by case_match; intros [= <-]|..].
  all: match goal with |- context [handle_hunk_headers_and_end_patch ?q ?t] =>
      pose proof (fun q' => handle_ends q t q' true) as He; pose proof (handle_false q t) as Hf; rewrite E in He;
      destruct (handle_hunk_headers_and_end_patch _ _) as [p1 [[]|e]] end; try done.
  all: try (intros [= <-] Hend; destruct (He p1 Hm eq_refl Hend) as (Ht & Hp & _); split; [|done]; (exact Ht || by apply trim_end_marker)).
  all: rewrite (Hf p1 eq_refl); repeat case_match; try done; try (intros [= <-]; cbn; congruence).
  intros Hu Hend. apply update_body_mode in Hu; [congruence|done].
Qed.

Notation blank := (fun l => trim l = []).

Lemma trim_end_trim_start s : trim_start (trim_end s) = trim s.
Proof. apply SeekSequence.Seek.trim_start_end_comm. Qed.

Lemma trim_strip_cr l : trim (strip_cr l) = trim l.
Proof.
  unfold strip_cr. destruct (strip_suffix [CR] l) as [r|] eqn:E; [|done]. apply strip_suffix_Some in E as ->. cbn [default].
  rewrite <- !trim_end_trim_start. unfold trim_end. by rewrite trim_end_by_snoc_drop.
Qed.

Lemma reads_all_snoc st n ls l st' :
  reads_all st n (ls ++ [l]) st' -> exists st1, reads_all st n ls st1 /\ reads st1 (n + length ls) l st'.
Proof.
  revert st n. induction ls as [|x ls IH]; intros st n H; inversion H as [|? ? ? st1 ? ? Hl Hr]; subst.
  - inversion Hr; subst. exists st. split; [constructor|]. by rewrite Nat.add_0_r.
  - apply IH in Hr as (st2 & Hr & Hl2). exists st2. split; [by econstructor|]. cbn [length]. by rewrite Nat.add_succ_r.
Qed.

(** The last line of an ended patch that is not blank is the end marker. *)
Definition closes (st0 : StreamingParserState) (n : nat) (pre : list str) (k : str) (sk : StreamingParserState) : Prop :=
  trim k = END_PATCH_MARKER /\ reads_all st0 n (List.map strip_cr pre) sk
  /\ ensure_update_hunk_is_not_empty (mkParser [] sk (S (n + length pre))) END_PATCH_MARKER = Ok tt.

Definition ended (st : StreamingParserState) : StreamingParserState := mkState EndedPatch (hunks st) (environment_id st).

Lemma ended_closes st0 n front st1 :
  mode st0 <> EndedPatch -> reads_all st0 n (List.map strip_cr front) st1 -> mode st1 = EndedPatch ->
  exists pre k blanks sk, front = pre ++ k :: blanks /\ Forall blank blanks /\ closes st0 n pre k sk /\ st1 = ended sk.
Proof.
  intros H0. revert st1. induction front as [|l front IH] using rev_ind; intros st1 H He; [by inversion H; subst|].
  rewrite List.map_app in H. apply reads_all_snoc in H as (st & Hr & Hl). unfold reads in Hl. rewrite List.length_map in Hl.
  destruct (decide (trim l = [])) as [Hb|Hb].
  - apply blank_line in Hl; [|by rewrite trim_strip_cr|done]. injection Hl as ->.
    destruct (IH st Hr He) as (pre & k & blanks & sk & -> & Hbl & Hc & Hst). exists pre, k, (blanks ++ [l]), sk.
    split_and!; [by rewrite <- app_assoc|apply Forall_app; by rewrite Forall_singleton|done|done].
  - destruct (decide (mode st = EndedPatch)) as [Hm|Hm].
    + unfold process_line in Hl. cbn [mode state] in Hl. rewrite Hm, trim_strip_cr in Hl. by destruct (trim l).
    + apply line_ends in Hl as (Ht & Hen & Hst); [|done..]. exists front, l, [], st. injection Hst as Hst.
      split_and!; [done|constructor|split_and!; [by rewrite trim_strip_cr in Ht|done|done]|done].
Qed.

(** What a successful stream has read. *)
Lemma stream_closes deltas p hs :
  stream deltas = (p, Ok hs) ->
  exists pre k blanks sk, split_on LF (mjoin deltas) = pre ++ k :: blanks /\ Forall blank blanks
    /\ closes (mkState NotStarted [] None) 0 pre k sk /\ hunks sk = hs /\ environment_id (state p) = environment_id sk.
Proof.
  unfold stream. rewrite feed_concat. intros Hs. pose proof (split_on_no_sep LF (mjoin deltas)) as Hlf.
  rewrite <- (join_split_on LF (mjoin deltas)) in Hs.
  destruct (split_on LF (mjoin deltas)) as [|final front _] using rev_ind; [by destruct (split_on_not_nil LF (mjoin deltas))|].
  apply Forall_app in Hlf as [Hfr Hfi]. rewrite Forall_singleton in Hfi. rewrite join_terminated in Hs.
  destruct (push_chars default_parser _) as [p1 [[]|e]] eqn:E; [|done].
  apply push_terminated_inv in E as (st1 & Hr & Hp); [|done]. rewrite push_chars_no_lf in Hp by done. injection Hp as <-.
  unfold finish, finish_buffer in Hs. unfold set_line_buffer, incr_line_number in Hs. cbn [line_buffer state line_number app] in Hs.
  set (n := length front) in *. cbn [Nat.add] in Hs.
  assert (Hblank : forall q, mode (state q) = EndedPatch -> state q = st1 -> (q, Ok (hunks (state q)) : result _ ParseError) = (p, Ok hs) ->
    trim final = [] -> exists pre k blanks sk, front ++ [final] = pre ++ k :: blanks /\ Forall blank blanks
    /\ closes (mkState NotStarted [] None) 0 pre k sk /\ hunks sk = hs /\ environment_id (state p) = environment_id sk).
  { intros q Hm Hq [= <- <-] Hb. rewrite Hq in *. apply ended_closes in Hr as (pre & k & blanks & sk & -> & Hbl & Hc & ->); [|done..].
    exists pre, k, (blanks ++ [final]), sk. split_and!; [by rewrite <- app_assoc|apply Forall_app; by rewrite Forall_singleton|done..]. }
  destruct (is_empty final) eqn:Ef.
  { apply is_empty_true in Ef as ->. cbn [mode state] in Hs. destruct (mode st1) eqn:Em; try done.
    eapply (Hblank (mkParser [] st1 n)); [exact Em|done|exact Hs|done]. }
  case_bool_decide as Ht.
  - rewrite Ht in Hs. destruct (ensure_update_hunk_is_not_empty _ _) as [[]|] eqn:En; [|done]. cbn in Hs. injection Hs as <- <-.
    exists front, final, [], st1. split_and!; [done|constructor|by split_and!|done..].
  - destruct (process_line _ final) as [p2 [[]|e]] eqn:E2; [|done]. destruct (mode (state p2)) eqn:Em; try done.
    destruct (decide (mode st1 = EndedPatch)) as [Hm|Hm].
    + pose proof E2 as E3. unfold process_line in E3. cbn [mode state] in E3. rewrite Hm in E3.
      destruct (trim final) eqn:Eb; [|done]. injection E3 as <-.
      by eapply (Hblank (mkParser [] st1 (S n))).
    + by apply line_ends in E2 as (Ht' & _); [|done..].
Qed.

(** ** The same patch, parsed whole *)

Lemma blank_whitespace l : trim l = [] -> Forall (fun c => is_whitespace c = true) l.
Proof.
  intros H%trim_end_nil. destruct (trim_end_by_prefix is_whitespace l) as (w & Hl & Hw).
  change (trim_end_by is_whitespace l) with (trim_end l) in Hl. rewrite H in Hl. by rewrite Hl.
Qed.

Lemma join_blanks k blanks : Forall blank blanks ->
  exists w, join [LF] (k :: blanks) = k ++ w /\ Forall (fun c => is_whitespace c = true) w.
Proof.
  intros H. revert k. induction H as [|b blanks Hb _ IH]; intros k; [exists []; by rewrite app_nil_r|].
  rewrite join_cons by done. destruct (IH b) as (w & -> & Hw). exists (LF :: b ++ w). split; [done|].
  constructor; [done|]. apply Forall_app. split; [by apply blank_whitespace|done].
Qed.

Lemma trim_blanks k blanks : Forall blank blanks -> trim (join [LF] ([] ++ k :: blanks)) = trim k.
Proof.
  intros H. destruct (join_blanks k blanks H) as (w & Hw & Hws). cbn [app]. by rewrite Hw, <- !trim_end_trim_start, trim_end_app_ws.
Qed.

Lemma join_app_cons ls k rest : join [LF] (ls ++ k :: rest) = mjoin (List.map (fun l => l ++ [LF]) ls) ++ join [LF] (k :: rest).
Proof.
  induction ls as [|x ls IH]; [done|]. cbn [app]. rewrite join_cons by (by destruct ls).
  rewrite IH. cbn [List.map mjoin list_join]. by rewrite <- !app_assoc.
Qed.

Lemma trim_end_tail s k : trim k <> [] -> trim_end (s ++ k) = s ++ trim_end k.
Proof.
  intros Hk. destruct (trim_start_by_suffix is_whitespace k) as (w & Hw & _). change (trim_start_by is_whitespace k) with (trim_start k) in Hw.
  assert (Hv : exists c r, trim_start k = c :: r /\ is_whitespace c = false).
  { destruct (trim_start k) as [|c r] eqn:E; [unfold trim in Hk; by rewrite E in Hk|]. exists c, r. split; [done|].
    pose proof (trim_start_by_idem is_whitespace k) as Hi. change (trim_start_by is_whitespace k) with (trim_start k) in Hi. rewrite E in Hi.
    cbn in Hi. destruct (is_whitespace c); [|done]. exfalso. destruct (trim_start_by_suffix is_whitespace r) as (w' & Hr & _).
    rewrite Hi in Hr. apply (f_equal length) in Hr. rewrite length_app in Hr. cbn in Hr. lia. }
  destruct Hv as (c & r & E & Hc). rewrite E in Hw. rewrite Hw, app_assoc, !(trim_end_app_visible _ _ c) by done. by rewrite <- app_assoc.
Qed.

Lemma trim_join first mid k blanks :
  trim first <> [] -> trim k <> [] -> Forall blank blanks ->
  trim (join [LF] (first :: mid ++ k :: blanks)) = join [LF] (trim_start first :: mid ++ [trim_end k]).
Proof.
  intros Hf Hk Hb. unfold trim at 1. rewrite join_cons by (by destruct mid).
  rewrite trim_start_app by (intros E; unfold trim in Hf; by rewrite E in Hf).
  rewrite <- join_cons by (by destruct mid). change (trim_start first :: mid ++ k :: blanks) with ((trim_start first :: mid) ++ k :: blanks).
  change (trim_start first :: mid ++ [trim_end k]) with ((trim_start first :: mid) ++ [trim_end k]). rewrite join_app_cons, join_terminated.
  destruct (join_blanks k blanks Hb) as (w & -> & Hw). rewrite app_assoc, trim_end_app_ws by done. by apply trim_end_tail.
Qed.

Lemma trim_idem_end k : trim (trim_end k) = trim k.
Proof. unfold trim at 1. rewrite trim_end_trim_start. unfold trim, trim_end. apply trim_end_by_idem. Qed.

Lemma trim_idem_start k : trim (trim_start k) = trim k.
Proof. unfold trim, trim_start. by rewrite trim_start_by_idem. Qed.

Lemma strip_cr_no_cr l : last l <> Some CR -> strip_cr l = l.
Proof.
  intros H. unfold strip_cr. destruct (strip_suffix [CR] l) as [r|] eqn:E; [|done]. apply strip_suffix_Some in E as ->.
  by rewrite last_snoc in H.
Qed.

(** The first line only counts trimmed. *)
Lemma reads_first first st1 :
  reads (mkState NotStarted [] None) 0 first st1 <-> trim first = BEGIN_PATCH_MARKER /\ st1 = mkState StartedPatch [] None.
Proof.
  unfold reads, process_line. cbn [mode state]. case_bool_decide; [|naive_solver]. cbn. split; [intros [= <-]|intros [_ ->]]; done.
Qed.

(** C24: A patch that the streaming parser accepts, in whatever pieces it comes,
    is accepted by [parse_patch] with the same hunks and the same environment:
    what is shown while a patch streams in is what will be applied.  There are two
    exceptions: a lone end marker, which a stream takes for an empty patch, and a
    line that ends with two carriage returns, of which only parsing drops the
    second. *)
Theorem stream_agrees_with_parse deltas p hs :
  stream deltas = (p, Ok hs) -> trim (mjoin deltas) <> END_PATCH_MARKER -> Forall (fun l => last (strip_cr l) <> Some CR) (split_on LF (mjoin deltas)) ->
  exists text, parse_patch (mjoin deltas) = Ok (mkArgs text hs None (environment_id (state p))).
Proof.
  intros Hs Hne Hcr. apply stream_closes in Hs as (pre & k & blanks & sk & Et & Hb & (Hk & Hr & Hen) & Hh & ->).
  pose proof (split_on_no_sep LF (mjoin deltas)) as Hlf. rewrite <- (join_split_on LF (mjoin deltas)). rewrite Et in Hlf, Hcr |- *.
  destruct pre as [|first mid]; [by rewrite <- (join_split_on LF (mjoin deltas)), Et, trim_blanks in Hne|]. cbn [app List.map] in *. inversion Hr as [|? ? ? st1 ? ? H1 Hr']; subst.
  apply reads_first in H1 as [Hf ->]. rewrite trim_strip_cr in Hf.
  apply Forall_cons in Hlf as [Lf [Lm [Lk _]%Forall_cons]%Forall_app]. apply Forall_cons in Hcr as [_ [Hcr _]%Forall_app].
  set (front := strip_cr (trim_start first) :: List.map strip_cr mid).
  assert (Hts : no_lf (trim_start first)).
  { destruct (trim_start_by_suffix is_whitespace first) as (w & Hw & _). rewrite Hw in Lf. by apply Forall_app in Lf as [_ ?]. }
  assert (Hte : no_lf (trim_end k)).
  { destruct (trim_end_by_prefix is_whitespace k) as (w & Hw & _). rewrite Hw in Lk. by apply Forall_app in Lk as [? _]. }
  assert (Hlf : Forall no_lf front).
  { constructor; [by apply strip_cr_no_lf|]. apply Forall_fmap. eapply Forall_impl; [exact Lm|]. intros l. by apply strip_cr_no_lf. }
  assert (Hlines : lines (trim (join [LF] (first :: mid ++ k :: blanks))) = front ++ [trim_end k]).
  { rewrite trim_join by (rewrite ?Hf, ?Hk; done). unfold lines. rewrite split_on_join; [|done|].
    - rewrite app_comm_cons, List.removelast_last, List.last_last. destruct (is_empty (trim_end k)) eqn:E; [|done].
      apply is_empty_true in E. apply (f_equal trim) in E. rewrite trim_idem_end, Hk in E. done.
    - constructor; [done|]. apply Forall_app. by rewrite Forall_singleton. }
  exists (join [LF] (front ++ [trim_end k])). unfold parse_patch, parse_patch_text. cbn [PARSE_IN_STRICT_MODE]. rewrite Hlines.
  unfold check_patch_boundaries_lenient, check_patch_boundaries_strict, check_start_and_end_lines_strict. rewrite last_snoc. subst front. cbn [head app option_map].
  rewrite trim_strip_cr, trim_idem_start, trim_idem_end, Hf, Hk.
  rewrite !bool_decide_eq_true_2 by done. cbn [andb negb].
  rewrite app_comm_cons. set (front := strip_cr (trim_start first) :: List.map strip_cr mid) in *.
  unfold push_delta, default_parser. rewrite join_terminated at 1. rewrite (reads_all_terminated _ 0 front sk); [|clear Hlines|done].
  2: { subst front. cbn [List.map]. econstructor; [apply reads_first; by rewrite !trim_strip_cr, trim_idem_start|].
       replace (List.map strip_cr (List.map strip_cr mid)) with (List.map strip_cr mid); [done|].
       rewrite List.map_map. apply List.map_ext_Forall. eapply Forall_impl; [exact Hcr|]. intros l Hl. by rewrite (strip_cr_no_cr _ Hl). }
  rewrite push_chars_no_lf by done. unfold finish, finish_buffer, set_line_buffer, incr_line_number. cbn [line_buffer state line_number app].
  destruct (is_empty (trim_end k)) eqn:E; [apply is_empty_true, (f_equal trim) in E; by rewrite trim_idem_end, Hk in E|].
  rewrite trim_idem_end, Hk, bool_decide_eq_true_2 by done. subst front. cbn [length Nat.add] in *. rewrite List.length_map, Hen. done.
Qed.

(** A patch in pieces that cut a marker, a line end and a path. *)
Definition sample_deltas : list str :=
  [lit "*** Begin Pa"; lit "tch" ++ [CR]; [LF] ++ lit "*** Update File: a b" ++ [LF] ++ lit "@@" ++ [LF] ++ lit "-o"; lit "ld" ++ [CR; LF] ++ lit "+new" ++ [LF];
   lit "*** End Patch  " ++ [LF; LF]].

Lemma stream_agrees_with_parse_witness :
  exists text, parse_patch (mjoin sample_deltas)
    = Ok (mkArgs text [UpdateFile (lit "a b") None [mkChunk None [lit "old"] [lit "new"] false]] None None).
Proof.
  apply (stream_agrees_with_parse sample_deltas (stream sample_deltas).1 [UpdateFile (lit "a b") None [mkChunk None [lit "old"] [lit "new"] false]]);
    [by vm_compute|done|]. vm_compute. repeat constructor; done.
Defined.

(** The two differences: a lone end marker, and two carriage returns. *)
Example lone_end_marker :
  (stream [END_PATCH_MARKER]).2 = Ok [] /\ parse_patch END_PATCH_MARKER = Err (InvalidPatchError msg_first_line).
Proof. by vm_compute. Qed.

Definition two_returns : str :=
  lit "*** Begin Patch" ++ [LF] ++ lit "*** Add File: f" ++ [LF] ++ lit "+x" ++ [CR; CR; LF] ++ lit "*** End Patch".

Example two_returns_differ :
  (stream [two_returns]).2 = Ok [AddFile (lit "f") (lit "x" ++ [CR; LF])]
  /\ args_hunks <$> ok (parse_patch two_returns) = Some [AddFile (lit "f") (lit "x" ++ [LF])].
Proof. by vm_compute. Qed.

End PatchStream.
