(* ===== verification/Replacements.v ===== *)
(** [apply-patch/src/lib.rs], the pure core: locating the chunks of an update
    hunk in a file ([compute_replacements]), rewriting the line vector
    ([apply_replacements]) and the text conversions of
    [derive_new_contents_from_chunks]. *)

From stdpp Require Import base list option numbers strings sorting.
From S2P Require Import Prelude RustStr SeekSequence PatchParser.

Module Replace.
Import Patch.

(** ** Definitions *)

(** [(start_index, old_len, new_lines)]. *)
Notation replacement := (nat * nat * list str)%type (only parsing).

Definition rep_start (r : replacement) : nat := r.1.1.
Definition rep_old_len (r : replacement) : nat := r.1.2.
Definition rep_new (r : replacement) : list str := r.2.

Definition msg_no_context (ctx_line path : str) : str :=
  lit "Failed to find context '" ++ ctx_line ++ lit "' in " ++ path.
Definition msg_no_lines_found (path : str) (old : list str) : str :=
  lit "Failed to find expected lines in " ++ path ++ lit ":" ++ [LF] ++ join [LF] old.

(** The text drops its last, empty element: [lines.last().is_some_and(String::is_empty)]. *)
Definition last_is_empty (ls : list str) : bool := is_some_and (last ls) is_empty.
Definition drop_last {A} (ls : list A) : list A := take (length ls - 1) ls.

(** The body of the loop over the chunks: the replacement that is pushed and
    the new [line_index]; the error is the [ComputeReplacements] message. *)
Definition compute_chunk (original_lines : list str) (path : str) (line_index : nat)
    (chunk : UpdateFileChunk) : result (replacement * nat) str :=
  let? line_index :=
    match change_context chunk with
    | Some ctx_line =>
        match Seek.seek_sequence original_lines [ctx_line] line_index false with
        | Some idx => Ok (idx + 1)
        | None => Err (msg_no_context ctx_line path)
        end
    | None => Ok line_index
    end in
  if is_empty (old_lines chunk) then
    let insertion_idx :=
      if last_is_empty original_lines then length original_lines - 1
      else length original_lines in
    Ok ((insertion_idx, 0, new_lines chunk), line_index)
  else
    let eof := is_end_of_file chunk in
    let found := Seek.seek_sequence original_lines (old_lines chunk) line_index eof in
    let '(pattern, new_slice, found) :=
      if negb (is_some found) && last_is_empty (old_lines chunk) then
        let pattern := drop_last (old_lines chunk) in
        let new_slice :=
          if last_is_empty (new_lines chunk) then drop_last (new_lines chunk)
          else new_lines chunk in
        (pattern, new_slice, Seek.seek_sequence original_lines pattern line_index eof)
      else (old_lines chunk, new_lines chunk, found) in
    match found with
    | Some start_idx =>
        Ok ((start_idx, length pattern, new_slice), start_idx + length pattern)
    | None => Err (msg_no_lines_found path (old_lines chunk))
    end.

Fixpoint compute_loop (original_lines : list str) (path : str) (line_index : nat)
    (chunks : list UpdateFileChunk) : result (list replacement) str :=
  match chunks with
  | [] => Ok []
  | chunk :: chunks' =>
      let? (r, line_index') := compute_chunk original_lines path line_index chunk in
      let? rs := compute_loop original_lines path line_index' chunks' in
      Ok (r :: rs)
  end.

(** [sort_by_key]: a stable sort on the start index. *)
Fixpoint insert_by_start (r : replacement) (rs : list replacement) : list replacement :=
  match rs with
  | [] => [r]
  | r' :: rs' =>
      if rep_start r <=? rep_start r' then r :: rs else r' :: insert_by_start r rs'
  end.

Definition sort_by_start (rs : list replacement) : list replacement :=
  foldr insert_by_start [] rs.

Definition compute_replacements (original_lines : list str) (path : str)
    (chunks : list UpdateFileChunk) : result (list replacement) str :=
  let? rs := compute_loop original_lines path 0 chunks in
  Ok (sort_by_start rs).

(** [Vec::remove] and [Vec::insert]; the latter panics past the end. *)
Definition vec_remove {A} (i : nat) (l : list A) : list A := take i l ++ drop (S i) l.
Definition vec_insert {A} (i : nat) (x : A) (l : list A) : option (list A) :=
  if i <=? length l then Some (take i l ++ x :: drop i l) else None.

(** [for _ in 0..old_len { if start_idx < lines.len() { lines.remove(start_idx); } }] *)
Fixpoint remove_lines (start_idx old_len : nat) (ls : list str) : list str :=
  match old_len with
  | 0 => ls
  | S n =>
      remove_lines start_idx n
        (if start_idx <? length ls then vec_remove start_idx ls else ls)
  end.

(** [for (offset, l) in new_segment.iter().enumerate() { lines.insert(start + offset, l) }] *)
Fixpoint insert_lines (idx : nat) (new_segment : list str) (ls : list str)
  : option (list str) :=
  match new_segment with
  | [] => Some ls
  | l :: new' =>
      match vec_insert idx l ls with
      | Some ls' => insert_lines (S idx) new' ls'
      | None => None
      end
  end.

(** [None] is a panic. *)
Definition apply_one (r : replacement) (ls : list str) : option (list str) :=
  insert_lines (rep_start r) (rep_new r) (remove_lines (rep_start r) (rep_old_len r) ls).

(** The replacements are applied last first. *)
Definition apply_replacements (ls : list str) (rs : list replacement) : option (list str) :=
  foldr (fun r acc => match acc with Some ls => apply_one r ls | None => None end) (Some ls) rs.

(** [split('\n')] and the drop of the element after the final newline. *)
Definition original_lines_of (contents : str) : list str :=
  let ls := split_on LF contents in
  if last_is_empty ls then drop_last ls else ls.

(** The final newline, if missing, and [join]. *)
Definition contents_of (new_lines : list str) : str :=
  join [LF] (if last_is_empty new_lines then new_lines else new_lines ++ [[]]).

(** [derive_new_contents_from_chunks] after the file has been read.  The
    default of the panic case is never used: [apply_replacements_no_panic]. *)
Definition derive_new_contents (original_contents path_text : str)
    (chunks : list UpdateFileChunk) : result str str :=
  let original_lines := original_lines_of original_contents in
  let? replacements := compute_replacements original_lines path_text chunks in
  Ok (contents_of (default [] (apply_replacements original_lines replacements))).

(** ** Specification *)

(** The replacements are in bounds, and each starts where the previous one
    ends or later. *)
Fixpoint disjoint_from (pos len : nat) (rs : list replacement) : Prop :=
  match rs with
  | [] => pos <= len
  | r :: rs' =>
      pos <= rep_start r /\ disjoint_from (rep_start r + rep_old_len r) len rs'
  end.

(** The reference result: copy up to the next replacement, emit its new lines,
    skip its old ones.  [ls] is the rest of the file from line [pos] on. *)
Fixpoint splice (pos : nat) (rs : list replacement) (ls : list str) : list str :=
  match rs with
  | [] => ls
  | r :: rs' =>
      take (rep_start r - pos) ls ++ rep_new r ++
      splice (rep_start r + rep_old_len r) rs'
        (drop (rep_start r - pos + rep_old_len r) ls)
  end.

Definition in_bounds (len : nat) (r : replacement) : Prop :=
  rep_start r + rep_old_len r <= len.

(** What a replacement computed for a chunk says: the lines it removes match
    the chunk's old lines (without a final empty line that the file lacks), at
    some strictness, and it inserts the chunk's new lines. *)
Definition realises (original_lines : list str) (chunk : UpdateFileChunk) (r : replacement) : Prop :=
  exists pattern lv,
    (pattern = old_lines chunk /\ rep_new r = new_lines chunk \/
     pattern ++ [[]] = old_lines chunk /\
     (rep_new r = new_lines chunk \/ rep_new r ++ [[]] = new_lines chunk)) /\
    rep_old_len r = length pattern /\
    Seek.matches_at lv original_lines pattern (rep_start r).

(** ** Lemmas: one replacement *)

Lemma remove_lines_spec s n ls : remove_lines s n ls = take s ls ++ drop (s + n) ls.
Proof.
  revert ls. induction n as [|n IH]; intros ls; cbn [remove_lines].
  - by rewrite Nat.add_0_r, take_drop.
  - rewrite IH. destruct (Nat.ltb_spec s (length ls)) as [Hlt|Hge].
    + unfold vec_remove. rewrite take_app_le by (rewrite length_take; lia).
      rewrite take_take, Nat.min_id. f_equal.
      rewrite drop_app_ge by (rewrite length_take; lia).
      rewrite drop_drop, length_take. f_equal. lia.
    + rewrite !take_ge, !drop_ge by lia. done.
Qed.

Lemma insert_lines_spec a new b :
  insert_lines (length a) new (a ++ b) = Some (a ++ new ++ b).
Proof.
  revert a. induction new as [|l new IH]; intros a; cbn [insert_lines]; [done|].
  unfold vec_insert. rewrite length_app.
  destruct (Nat.leb_spec (length a) (length a + length b)); [|lia].
  rewrite take_app_length, drop_app_length.
  specialize (IH (a ++ [l])). rewrite length_app in IH. cbn [length] in IH.
  rewrite Nat.add_1_r, <- !app_assoc in IH. exact IH.
Qed.

Lemma apply_one_spec r ls :
  rep_start r <= length ls ->
  apply_one r ls =
  Some (take (rep_start r) ls ++ rep_new r ++ drop (rep_start r + rep_old_len r) ls).
Proof.
  intros Hle. unfold apply_one. rewrite remove_lines_spec.
  rewrite <- (length_take_le ls (rep_start r)) at 1 by done.
  by rewrite insert_lines_spec.
Qed.

(** ** Lemmas: all of them *)

Lemma disjoint_from_le pos len rs : disjoint_from pos len rs -> pos <= len.
Proof.
  revert pos. induction rs as [|r rs IH]; intros pos; simpl; [done|].
  intros [? H%IH]. lia.
Qed.

Lemma apply_replacements_app pre rs ls pos :
  length pre = pos -> disjoint_from pos (pos + length ls) rs ->
  apply_replacements (pre ++ ls) rs = Some (pre ++ splice pos rs ls).
Proof.
  revert pos pre ls. induction rs as [|r rs IH]; intros pos pre ls Hpre Hd;
    cbn [apply_replacements foldr splice disjoint_from] in *; [done|].
  destruct Hd as [Hs Hd]. pose proof (disjoint_from_le _ _ _ Hd) as Hle.
  set (s := rep_start r) in *. set (n := rep_old_len r) in *.
  fold (apply_replacements (pre ++ ls) rs).
  rewrite <- (take_drop (s - pos + n) ls) at 1. rewrite app_assoc.
  rewrite (IH (s + n)).
  2: { rewrite length_app, length_take. lia. }
  2: { rewrite length_drop. replace (s + n + (length ls - (s - pos + n))) with (pos + length ls); [done|lia]. }
  rewrite apply_one_spec by (fold s; rewrite !length_app, length_take; lia).
  fold s n. f_equal. rewrite <- app_assoc.
  rewrite take_app_ge by lia. rewrite take_app_le by (rewrite length_take; lia).
  rewrite take_take. replace ((s - length pre) `min` (s - pos + n)) with (s - pos) by lia.
  rewrite <- !app_assoc. do 3 f_equal.
  rewrite app_assoc. rewrite drop_app_length'; [done|].
  rewrite length_app, length_take. lia.
Qed.

Lemma apply_replacements_no_panic ls rs :
  Sorted (fun r r' => rep_start r <= rep_start r') rs ->
  Forall (fun r => rep_start r <= length ls) rs ->
  exists ls', apply_replacements ls rs = Some ls' /\
    match rs with [] => True | r :: _ => rep_start r <= length ls' end.
Proof.
  intros Hs Hf. induction rs as [|r rs IH]; cbn [apply_replacements foldr]; [eauto|].
  apply Sorted_inv in Hs as [Hs Hhd]. inversion Hf as [|? ? Hr Hrs]; subst.
  destruct (IH Hs Hrs) as (ls' & Hls' & Hlen).
  fold (apply_replacements ls rs). rewrite Hls'.
  assert (Hle : rep_start r <= length ls').
  { destruct rs as [|r' rs']; [by simplify_eq/=|].
    apply HdRel_inv in Hhd. lia. }
  rewrite apply_one_spec by done. eexists. split; [done|].
  rewrite length_app, length_take. lia.
Qed.

(** ** Lemmas: sorting *)

Lemma insert_by_start_perm r rs : insert_by_start r rs ≡ₚ r :: rs.
Proof.
  induction rs as [|r' rs IH]; simpl; [done|].
  destruct (rep_start r <=? rep_start r'); [done|]. rewrite IH. apply Permutation_swap.
Qed.

Lemma sort_by_start_perm rs : sort_by_start rs ≡ₚ rs.
Proof.
  induction rs as [|r rs IH]; simpl; [done|]. by rewrite insert_by_start_perm, IH.
Qed.

Lemma insert_by_start_sorted r rs :
  Sorted (fun r r' => rep_start r <= rep_start r') rs ->
  Sorted (fun r r' => rep_start r <= rep_start r') (insert_by_start r rs).
Proof.
  induction 1 as [|r' rs Hs IH Hhd]; simpl; [by repeat constructor|].
  destruct (Nat.leb_spec (rep_start r) (rep_start r')).
  - constructor; [by constructor|]. by constructor.
  - constructor; [done|]. destruct rs as [|r'' rs]; simpl; [constructor; lia|].
    apply HdRel_inv in Hhd.
    destruct (rep_start r <=? rep_start r''); constructor; lia.
Qed.

Lemma sort_by_start_sorted rs :
  Sorted (fun r r' => rep_start r <= rep_start r') (sort_by_start rs).
Proof. induction rs as [|r rs IH]; simpl; [constructor|]. by apply insert_by_start_sorted. Qed.

(** Replacements that are already disjoint are left where they are. *)
Lemma sort_by_start_disjoint pos len rs :
  disjoint_from pos len rs -> sort_by_start rs = rs.
Proof.
  revert pos. induction rs as [|r rs IH]; intros pos; simpl; [done|].
  intros [Hp Hd]. rewrite (IH _ Hd). destruct rs as [|r' rs]; [done|].
  simpl in *. destruct Hd as [Hd _].
  by destruct (Nat.leb_spec (rep_start r) (rep_start r')); [|lia].
Qed.

(** ** Lemmas: locating the chunks *)

Lemma seek_located ls pattern li eof i :
  li <= length ls -> Seek.seek_sequence ls pattern li eof = Some i ->
  i + length pattern <= length ls /\ li <= i + length pattern /\
  (eof = false -> li <= i) /\ exists lv, Seek.matches_at lv ls pattern i.
Proof.
  intros Hli Hs. destruct (decide (pattern = [])) as [->|Hne].
  - unfold Seek.seek_sequence in Hs. simplify_eq/=. split_and!; try lia.
    exists Seek.Exact. constructor.
  - destruct (Seek.seek_sequence_hit _ _ _ _ _ Hne Hs) as (lv & Hr & Hm & _).
    pose proof (Seek.matches_at_bounds _ _ _ _ Hne Hm) as Hb.
    unfold Seek.in_range, Seek.search_start in Hr.
    split_and!; [lia| | |by exists lv].
    + destruct eof; simpl in Hr; [|lia].
      destruct (Nat.leb_spec (length pattern) (length ls)); lia.
    + intros ->. simpl in Hr. lia.
Qed.

Lemma last_is_empty_true ls : last_is_empty ls = true -> drop_last ls ++ [[]] = ls.
Proof.
  unfold last_is_empty, drop_last. destruct ls as [|l ls _] using rev_ind; [done|].
  rewrite last_snoc. simpl. intros ->%is_empty_true.
  rewrite length_app, Nat.add_sub. by rewrite take_app_length.
Qed.

Lemma compute_context_spec ls path li chunk li' :
  li <= length ls ->
  match change_context chunk with
  | Some ctx_line =>
      match Seek.seek_sequence ls [ctx_line] li false with
      | Some idx => Ok (idx + 1)
      | None => Err (msg_no_context ctx_line path)
      end
  | None => Ok li
  end = Ok li' -> li <= li' <= length ls.
Proof.
  intros Hli. destruct (change_context chunk) as [ctx|]; [|intros [= <-]; lia].
  destruct (Seek.seek_sequence _ _ _ _) as [idx|] eqn:E; [|done].
  apply seek_located in E as (Hb & _ & Hge & _); [|done]. specialize (Hge eq_refl).
  simpl in Hb. intros [= <-]. lia.
Qed.

Lemma compute_chunk_spec ls path li chunk r li' :
  li <= length ls -> compute_chunk ls path li chunk = Ok (r, li') ->
  in_bounds (length ls) r /\ li <= li' <= length ls /\
  (old_lines chunk <> [] ->
     realises ls chunk r /\
     (is_end_of_file chunk = false ->
        li <= rep_start r /\ li' = rep_start r + rep_old_len r)).
Proof.
  intros Hli. unfold compute_chunk.
  destruct (match change_context chunk with Some _ => _ | None => _ end) as [l|e] eqn:E;
    [|done].
  apply compute_context_spec in E; [|done].
  destruct (is_empty (old_lines chunk)) eqn:Ho.
  { apply is_empty_true in Ho. rewrite Ho. intros [= <- <-].
    split_and!; [|lia..|done]. unfold in_bounds, rep_start, rep_old_len. cbn [fst snd].
    destruct (last_is_empty ls); lia. }
  destruct (negb (is_some _) && last_is_empty (old_lines chunk)) eqn:Hretry.
  - apply andb_true_iff in Hretry as [_ Hle]. apply last_is_empty_true in Hle.
    destruct (Seek.seek_sequence _ (drop_last _) _ _) as [i|] eqn:Ei; [|done].
    apply seek_located in Ei as (Hb & Hge & Hne & lv & Hm); [|lia].
    intros [= <- <-]. unfold in_bounds, rep_start, rep_old_len. cbn [fst snd].
    split_and!; [lia..|]. intros _. split.
    + exists (drop_last (old_lines chunk)), lv. split_and!; [|done..]. right. split; [done|].
      simpl. destruct (last_is_empty (new_lines chunk)) eqn:Hn; [|by left].
      right. by apply last_is_empty_true.
    + intros Hf. specialize (Hne Hf). lia.
  - destruct (Seek.seek_sequence _ (old_lines chunk) _ _) as [i|] eqn:Ei; [|done].
    apply seek_located in Ei as (Hb & Hge & Hne & lv & Hm); [|lia].
    intros [= <- <-]. unfold in_bounds, rep_start, rep_old_len. cbn [fst snd].
    split_and!; [lia..|]. intros _. split.
    + exists (old_lines chunk), lv. split_and!; [by left|done..].
    + intros Hf. specialize (Hne Hf). lia.
Qed.

Lemma compute_loop_in_bounds ls path li chunks rs :
  li <= length ls -> compute_loop ls path li chunks = Ok rs ->
  Forall (in_bounds (length ls)) rs.
Proof.
  revert li rs. induction chunks as [|c cs IH]; intros li rs Hli; cbn [compute_loop].
  - intros [= <-]. constructor.
  - destruct (compute_chunk _ _ _ _) as [[r li']|] eqn:E; [|done].
    apply compute_chunk_spec in E as (Hb & Hl & _); [|done].
    destruct (compute_loop _ _ _ cs) as [rs'|] eqn:E'; [|done].
    intros [= <-]. constructor; [done|]. eapply IH; [|done]. lia.
Qed.

(** Chunks that remove or anchor on lines, none of them pinned to the end. *)
Definition anchored (c : UpdateFileChunk) : Prop :=
  old_lines c <> [] /\ is_end_of_file c = false.

Lemma compute_loop_anchored ls path li chunks rs :
  Forall anchored chunks -> li <= length ls -> compute_loop ls path li chunks = Ok rs ->
  disjoint_from li (length ls) rs /\ Forall2 (realises ls) chunks rs.
Proof.
  intros Ha. revert li rs. induction Ha as [|c cs [Ho He] _ IH]; intros li rs Hli;
    cbn [compute_loop].
  - intros [= <-]. split; [done|constructor].
  - destruct (compute_chunk _ _ _ _) as [[r li']|] eqn:E; [|done].
    apply compute_chunk_spec in E as (Hb & Hl & Hr); [|done].
    destruct (Hr Ho) as [Hreal Hpos]. destruct (Hpos He) as [? ->].
    destruct (compute_loop _ _ _ cs) as [rs'|] eqn:E'; [|done].
    intros [= <-]. apply IH in E' as [Hd Hf]; [|lia].
    split; [by split|by constructor].
Qed.

Lemma compute_replacements_bounds ls path chunks rs :
  compute_replacements ls path chunks = Ok rs ->
  Sorted (fun r r' => rep_start r <= rep_start r') rs /\ Forall (in_bounds (length ls)) rs.
Proof.
  unfold compute_replacements. destruct (compute_loop _ _ _ _) as [rs'|] eqn:E; [|done].
  intros [= <-]. apply compute_loop_in_bounds in E; [|lia].
  split; [apply sort_by_start_sorted|]. by rewrite sort_by_start_perm.
Qed.

(** ** Lemmas: text *)

Lemma contents_of_snoc ls : contents_of (ls ++ [[]]) = join [LF] (ls ++ [[]]).
Proof. unfold contents_of, last_is_empty. by rewrite last_snoc. Qed.

Lemma join_snoc_nil ls : ls <> [] -> exists t, join [LF] (ls ++ [[]]) = t ++ [LF].
Proof.
  induction ls as [|l ls IH]; [done|]. intros _.
  destruct ls as [|l' ls]; [by exists l|]. destruct IH as [t Ht]; [done|].
  cbn [app]. rewrite join_cons by done. cbn [app] in Ht. rewrite Ht.
  exists (l ++ [LF] ++ t). by rewrite <- !app_assoc.
Qed.

Lemma split_on_terminated s :
  split_on LF (s ++ [LF]) = split_on LF s ++ [[]].
Proof.
  induction s as [|c s IH]; [done|]. cbn [app split_on]. rewrite IH.
  destruct (split_on LF s) as [|l ls] eqn:E; [by apply split_on_not_nil in E|].
  cbn [app]. by destruct (c =? LF)%N.
Qed.

Lemma original_lines_terminated s : original_lines_of (s ++ [LF]) = split_on LF s.
Proof.
  unfold original_lines_of, last_is_empty, drop_last. rewrite split_on_terminated, last_snoc.
  simpl. by rewrite length_app, Nat.add_sub, take_app_length.
Qed.

Lemma last_split_on s c :
  last s = Some c -> c <> LF -> last_is_empty (split_on LF s) = false.
Proof.
  intros (s' & ->)%last_Some_snoc Hc. induction s' as [|d s' IH].
  - simpl. unfold last_is_empty. by destruct (N.eqb_spec c LF).
  - cbn [app split_on]. destruct (split_on LF (s' ++ [c])) as [|l ls] eqn:E;
      [by apply split_on_not_nil in E|].
    destruct (d =? LF)%N; [done|]. unfold last_is_empty in *. by destruct ls.
Qed.

(** ** Theorems *)

(** On sorted, disjoint, in-bounds replacements the in-place loop of
    removals and insertions never panics and computes the reference splice:
    lines outside the replaced regions are copied unchanged, in order. *)
Theorem apply_replacements_splice ls rs :
  disjoint_from 0 (length ls) rs ->
  apply_replacements ls rs = Some (splice 0 rs ls).
Proof. intros H. by apply (apply_replacements_app [] rs ls 0). Qed.

Lemma apply_replacements_splice_witness :
  apply_replacements [lit "a"; lit "b"; lit "c"] [(0, 1, []); (1, 0, [lit "x"]); (2, 1, [lit "y"; lit "z"])]
  = Some [lit "x"; lit "b"; lit "y"; lit "z"].
Proof.
  apply apply_replacements_splice. cbn. unfold rep_start, rep_old_len. cbn. lia.
Defined.

(** Whatever the chunks (also overlapping or pinned to the end of the
    file), the replacements [compute_replacements] returns are sorted and in
    bounds, and applying them does not panic. *)
Theorem compute_replacements_safe ls path chunks rs :
  compute_replacements ls path chunks = Ok rs ->
  Sorted (fun r r' => rep_start r <= rep_start r') rs /\
  Forall (in_bounds (length ls)) rs /\
  is_Some (apply_replacements ls rs).
Proof.
  intros [Hs Hb]%compute_replacements_bounds. split_and!; [done..|].
  destruct (apply_replacements_no_panic ls rs) as (ls' & -> & _); [done| |done].
  eapply Forall_impl; [exact Hb|]. unfold in_bounds. lia.
Qed.

Definition sample_chunks : list UpdateFileChunk :=
  [mkChunk None [lit "a"] [lit "A"] false; mkChunk (Some (lit "b")) [lit "c"; []] [lit "C"; []] false].

Lemma compute_replacements_safe_witness :
  is_Some (apply_replacements [lit "a"; lit "b"; lit "c"] [(0, 1, [lit "A"]); (2, 1, [lit "C"])]).
Proof.
  apply (compute_replacements_safe [lit "a"; lit "b"; lit "c"] (lit "f") sample_chunks).
  by vm_compute.
Defined.

(** C25: for chunks that all have old lines and are not pinned to the end, a
    successful update is the reference splice of replacements that realise
    the chunks one by one, in order and without overlap. *)
Theorem update_is_splice ls path chunks rs :
  Forall anchored chunks ->
  compute_replacements ls path chunks = Ok rs ->
  Forall2 (realises ls) chunks rs /\
  disjoint_from 0 (length ls) rs /\
  apply_replacements ls rs = Some (splice 0 rs ls).
Proof.
  intros Ha. unfold compute_replacements.
  destruct (compute_loop _ _ _ _) as [rs'|] eqn:E; [|done].
  apply compute_loop_anchored in E as [Hd Hf]; [|done|lia].
  rewrite (sort_by_start_disjoint _ _ _ Hd). intros [= <-].
  split_and!; [done..|]. by apply (apply_replacements_app [] rs' ls 0).
Qed.

Lemma update_is_splice_witness :
  apply_replacements [lit "a"; lit "b"; lit "c"] [(0, 1, [lit "A"]); (2, 1, [lit "C"])]
  = Some [lit "A"; lit "b"; lit "C"].
Proof.
  eapply (update_is_splice [lit "a"; lit "b"; lit "c"] (lit "f") sample_chunks);
    [by repeat constructor|by vm_compute].
Defined.

(** The text of an updated file is empty or ends with a newline. *)
Theorem derived_text_terminated contents path chunks t :
  derive_new_contents contents path chunks = Ok t -> t = [] \/ last t = Some LF.
Proof.
  unfold derive_new_contents. destruct (compute_replacements _ _ _); [|done].
  intros [= <-]. generalize (default [] (apply_replacements (original_lines_of contents) a)).
  intros ls. unfold contents_of. destruct (last_is_empty ls) eqn:E.
  - apply last_is_empty_true in E. rewrite <- E.
    destruct (decide (drop_last ls = [])) as [->|Hne]; [by left|].
    destruct (join_snoc_nil _ Hne) as [t ->]. right. by rewrite last_snoc.
  - destruct (decide (ls = [])) as [->|Hne]; [by left|].
    destruct (join_snoc_nil _ Hne) as [t ->]. right. by rewrite last_snoc.
Qed.

Lemma derived_text_terminated_witness :
  lit "A" ++ [LF] = [] \/ last (lit "A" ++ [LF]) = Some LF.
Proof.
  apply (derived_text_terminated (lit "a") (lit "f") [mkChunk None [lit "a"] [lit "A"] false]).
  by vm_compute.
Defined.

(** Splitting a file into lines and writing the lines back is the identity
    on a text that ends with exactly one newline. *)
Theorem lines_text_roundtrip s c :
  last s = Some c -> c <> LF -> contents_of (original_lines_of (s ++ [LF])) = s ++ [LF].
Proof.
  intros Hl Hc. rewrite original_lines_terminated. unfold contents_of.
  rewrite (last_split_on _ _ Hl Hc), <- split_on_terminated. apply join_split_on.
Qed.

Lemma lines_text_roundtrip_witness :
  contents_of (original_lines_of (lit "ab" ++ [LF])) = lit "ab" ++ [LF].
Proof. by apply (lines_text_roundtrip (lit "ab") 98%N). Defined.

(** On a text that ends with a blank line the round trip loses it: the
    final newline of [s ++ "\n\n"] is dropped whatever the chunks do elsewhere
    in the file. *)
Theorem lines_text_drops_blank_line s :
  contents_of (original_lines_of (s ++ [LF; LF])) = s ++ [LF].
Proof.
  change [LF; LF] with ([LF] ++ [LF]). rewrite app_assoc.
  rewrite original_lines_terminated, split_on_terminated, contents_of_snoc.
  rewrite <- split_on_terminated. apply join_split_on.
Qed.

End Replace.
