(* ===== verification/PatchApply.v ===== *)
(** [apply-patch/src/lib.rs]: applying parsed hunks to a file system while
    recording the committed changes, and the summary of the affected paths.
    The file system and the path type are interfaces: the operations of
    [ExecutorFileSystem] and [PathUri] that this code calls. *)

From stdpp Require Import base list option numbers strings.
From S2P Require Import Prelude RustStr PatchParser Replacements.

Module Apply.
Import Patch.

(** ** Errors *)

(** The kinds of [std::io::ErrorKind] that the code tests or builds. *)
Inductive ErrorKind := NotFound | InvalidInput | Other | OtherKind (code : N).

Record io_error := mkIo { io_kind : ErrorKind; io_message : str }.

Inductive ApplyPatchError :=
| ApplyParseError (e : ParseError)
| ApplyIoError (context : str) (source : io_error)
| ComputeReplacements (message : str)
| ApplyPathUri (message : str)
| ImplicitInvocation.

(** [anyhow::Error]: an [io::Error] under an optional context, one of the
    crate's errors, a path error, or a plain message. *)
Inductive any_error :=
| AnyIo (context : option str) (source : io_error)
| AnyApply (e : ApplyPatchError)
| AnyPathUri (message : str)
| AnyMessage (message : str).

Definition show_parse_error (e : ParseError) : str :=
  match e with
  | InvalidPatchError m => lit "invalid patch: " ++ m
  | InvalidHunkError m n => lit "invalid hunk at line " ++ show_nat n ++ lit ", " ++ m
  end.

Definition msg_implicit_invocation : str :=
  lit "patch detected without explicit call to apply_patch. Rerun as [" ++ [34%N]
  ++ lit "apply_patch" ++ [34%N] ++ lit ", " ++ [34%N] ++ lit "<patch>" ++ [34%N] ++ lit "]".

Definition show_apply_error (e : ApplyPatchError) : str :=
  match e with
  | ApplyParseError e => show_parse_error e
  | ApplyIoError context source => context ++ lit ": " ++ io_message source
  | ComputeReplacements m => m
  | ApplyPathUri m => m
  | ImplicitInvocation => msg_implicit_invocation
  end.

(** [error.to_string()]: the outermost context. *)
Definition show_any_error (e : any_error) : str :=
  match e with
  | AnyIo (Some context) _ => context
  | AnyIo None source => io_message source
  | AnyApply e => show_apply_error e
  | AnyPathUri m => m
  | AnyMessage m => m
  end.

(** [error.downcast_ref::<std::io::Error>()]: sees through a context. *)
Definition downcast_io (e : any_error) : option io_error :=
  match e with AnyIo _ source => Some source | _ => None end.

(** [impl From<&std::io::Error> for ApplyPatchError]. *)
Definition from_io (e : io_error) : ApplyPatchError :=
  ApplyIoError (lit "I/O error") (mkIo (io_kind e) (io_message e)).

(** ** Interfaces *)

(** The [PathUri] operations used here; [join] fails with a message. *)
Class PathUriOps (uri : Type) := {
  uri_join : uri -> str -> result uri str;
  uri_parent : uri -> option uri;
  uri_native_string : uri -> str;
}.

Record FileMetadata := mkMeta { is_directory : bool; is_file : bool; is_symlink : bool }.

(** The [ExecutorFileSystem] operations used here, for one sandbox context.
    Reads leave the file system unchanged; a mutation returns the state it
    leaves behind also when it fails.  [fs_create_directory] is recursive,
    [fs_remove] neither recursive nor forced. *)
Class ExecutorFileSystem (fs uri : Type) := {
  fs_read_file_text : fs -> uri -> result str io_error;
  fs_get_metadata : fs -> uri -> result FileMetadata io_error;
  fs_write_file : fs -> uri -> str -> fs * result unit io_error;
  fs_create_directory : fs -> uri -> fs * result unit io_error;
  fs_remove : fs -> uri -> fs * result unit io_error;
}.

(** [std::io::Write], one call per [writeln!]. *)
Class Write (w : Type) := { write_line : w -> str -> w * result unit io_error }.

(** ** Committed changes *)

Inductive AppliedPatchFileChange :=
| ChangeAdd (content : str) (overwritten_content : option str)
| ChangeDelete (content : str)
| ChangeUpdate (move_path : option str) (old_content : str)
    (overwritten_move_content : option str) (new_content : str).

Record AppliedPatchChange := mkChange { change_path : str; change : AppliedPatchFileChange }.

Record AppliedPatchDelta := mkDelta { changes : list AppliedPatchChange; exact : bool }.

Definition empty_delta : AppliedPatchDelta := mkDelta [] true.

Definition delta_is_empty (d : AppliedPatchDelta) : bool := is_empty (changes d).

(** [AppliedPatchDelta::append]. *)
Definition delta_append (d other : AppliedPatchDelta) : AppliedPatchDelta :=
  mkDelta (changes d ++ changes other) (exact d && exact other).

(** [delta.changes.push(..)], [delta.exact = false], [delta.exact &= b]. *)
Definition push_change (d : AppliedPatchDelta) (c : AppliedPatchChange) : AppliedPatchDelta :=
  mkDelta (changes d ++ [c]) (exact d).
Definition inexact (d : AppliedPatchDelta) : AppliedPatchDelta := mkDelta (changes d) false.
Definition and_exact (d : AppliedPatchDelta) (b : bool) : AppliedPatchDelta :=
  mkDelta (changes d) (exact d && b).

Record ApplyPatchFailure := mkFailure { failure_error : ApplyPatchError; failure_delta : AppliedPatchDelta }.

Definition without_delta (e : ApplyPatchError) : ApplyPatchFailure := mkFailure e empty_delta.

Record AffectedPaths := mkAffected { added : list str; modified : list str; deleted : list str }.

Definition no_affected : AffectedPaths := mkAffected [] [] [].
Definition push_added (a : AffectedPaths) (p : str) := mkAffected (added a ++ [p]) (modified a) (deleted a).
Definition push_modified (a : AffectedPaths) (p : str) := mkAffected (added a) (modified a ++ [p]) (deleted a).
Definition push_deleted (a : AffectedPaths) (p : str) := mkAffected (added a) (modified a) (deleted a ++ [p]).

Section Engine.
Context {uri fs : Type} `{PathUriOps uri} `{ExecutorFileSystem fs uri}.

(** [PathUri::to_path_buf]. *)
Definition to_path_buf (u : uri) : str := uri_native_string u.

(** ** File-system helpers *)

Definition ensure_not_directory (f : fs) (path : uri) : result unit io_error :=
  let? metadata := fs_get_metadata f path in
  if is_directory metadata then Err (mkIo InvalidInput (lit "path is a directory")) else Ok tt.

Definition remove_failure_was_side_effect_free (f : fs) (path : uri)
    (expected_content : option str) : bool :=
  match expected_content with
  | Some expected =>
      match fs_read_file_text f path with Ok content => content == expected | Err _ => false end
  | None => false
  end.

(** The new value of the [exact] flag. *)
Definition note_existing_path_delta_support (f : fs) (path : uri) (exact : bool) : bool :=
  match fs_get_metadata f path with
  | Ok metadata => if is_file metadata && negb (is_symlink metadata) then exact else false
  | Err source => match io_kind source with NotFound => exact | _ => false end
  end.

Definition read_optional_file_text_for_delta (f : fs) (path : uri) (exact : bool)
  : option str * bool :=
  let exact := note_existing_path_delta_support f path exact in
  match fs_read_file_text f path with
  | Ok content => (Some content, exact)
  | Err source => match io_kind source with NotFound => (None, exact) | _ => (None, false) end
  end.

Definition msg_write (path : uri) : str := lit "Failed to write file " ++ uri_native_string path.
Definition msg_mkdir (path : uri) : str :=
  lit "Failed to create parent directories for " ++ uri_native_string path.
Definition msg_delete (path : uri) : str := lit "Failed to delete file " ++ uri_native_string path.
Definition msg_remove_original (path : uri) : str :=
  lit "Failed to remove original " ++ uri_native_string path.
Definition msg_read_update (path : uri) : str :=
  lit "Failed to read file to update " ++ uri_native_string path.

(** [.with_context(..)] on an [io::Result]. *)
Definition with_context {A} (r : result A io_error) (context : str) : result A any_error :=
  map_err (AnyIo (Some context)) r.

Definition write_file_with_missing_parent_retry (f : fs) (path : uri) (contents : str)
  : fs * result unit any_error :=
  match fs_write_file f path contents with
  | (f, Ok _) => (f, Ok tt)
  | (f, Err err) =>
      match io_kind err with
      | NotFound =>
          let '(f, r) :=
            match uri_parent path with
            | Some parent =>
                let '(f, r) := fs_create_directory f parent in
                (f, with_context r (msg_mkdir path))
            | None => (f, Ok tt)
            end in
          match r with
          | Err e => (f, Err e)
          | Ok _ =>
              let '(f, r) := fs_write_file f path contents in
              (f, with_context r (msg_write path))
          end
      | _ => (f, Err (AnyIo (Some (msg_write path)) err))
      end
  end.

Record AppliedPatch := mkApplied { original_contents : str; new_contents : str }.

Definition derive_new_contents_from_chunks (f : fs) (path : uri)
    (chunks : list UpdateFileChunk) : result AppliedPatch ApplyPatchError :=
  let? original := map_err (ApplyIoError (msg_read_update path)) (fs_read_file_text f path) in
  let? new :=
    map_err ComputeReplacements (Replace.derive_new_contents original (uri_native_string path) chunks) in
  Ok (mkApplied original new).

(** ** Applying one hunk

    [apply_hunk] is one iteration of the loop of [apply_hunks_to_files]: the
    mutable state of the loop is the file system, the delta and the affected
    paths. *)

Definition loop_state : Type := fs * AppliedPatchDelta * AffectedPaths.

Definition apply_add (st : loop_state) (affected_path : str) (path : uri) (contents : str)
  : loop_state * result unit any_error :=
  let '(f, d, a) := st in
  let '(overwritten, ex) := read_optional_file_text_for_delta f path (exact d) in
  let d := mkDelta (changes d) ex in
  match write_file_with_missing_parent_retry f path contents with
  | (f, Err e) => ((f, inexact d, a), Err e)
  | (f, Ok _) =>
      ((f, push_change d (mkChange (to_path_buf path) (ChangeAdd contents overwritten)),
        push_added a affected_path), Ok tt)
  end.

Definition apply_delete (st : loop_state) (affected_path : str) (path : uri)
  : loop_state * result unit any_error :=
  let '(f, d, a) := st in
  let d := mkDelta (changes d) (note_existing_path_delta_support f path (exact d)) in
  let deleted_content := ok (fs_read_file_text f path) in
  let d := if is_some deleted_content then d else inexact d in
  match with_context (ensure_not_directory f path) (msg_delete path) with
  | Err e => ((f, d, a), Err e)
  | Ok _ =>
      match fs_remove f path with
      | (f, Err err) =>
          ((f, and_exact d (remove_failure_was_side_effect_free f path deleted_content), a),
           Err (AnyIo (Some (msg_delete path)) err))
      | (f, Ok _) =>
          let d :=
            match deleted_content with
            | Some content => push_change d (mkChange (to_path_buf path) (ChangeDelete content))
            | None => d
            end in
          ((f, d, push_deleted a affected_path), Ok tt)
      end
  end.

(** The [Some(dest)] branch of an update: write the destination, then remove
    the original. *)
Definition apply_move (st : loop_state) (affected_path : str) (path dest : uri) (p : AppliedPatch)
  : loop_state * result unit any_error :=
  let '(f, d, a) := st in
  let '(overwritten, ex) := read_optional_file_text_for_delta f dest (exact d) in
  let d := mkDelta (changes d) ex in
  match write_file_with_missing_parent_retry f dest (new_contents p) with
  | (f, Err e) => ((f, inexact d, a), Err e)
  | (f, Ok _) =>
      let dest_write_change_index := length (changes d) in
      let d := push_change d (mkChange (to_path_buf dest) (ChangeAdd (new_contents p) overwritten)) in
      match with_context (ensure_not_directory f path) (msg_remove_original path) with
      | Err e => ((f, d, a), Err e)
      | Ok _ =>
          match fs_remove f path with
          | (f, Err err) =>
              ((f, and_exact d
                     (remove_failure_was_side_effect_free f path (Some (original_contents p))), a),
               Err (AnyIo (Some (msg_remove_original path)) err))
          | (f, Ok _) =>
              let c :=
                mkChange (to_path_buf path)
                  (ChangeUpdate (Some (to_path_buf dest)) (original_contents p) overwritten
                     (new_contents p)) in
              ((f, mkDelta (<[dest_write_change_index := c]> (changes d)) (exact d),
                push_modified a affected_path), Ok tt)
          end
      end
  end.

Definition apply_update_in_place (st : loop_state) (affected_path : str) (path : uri) (p : AppliedPatch)
  : loop_state * result unit any_error :=
  let '(f, d, a) := st in
  match fs_write_file f path (new_contents p) with
  | (f, Err err) => ((f, inexact d, a), Err (AnyIo (Some (msg_write path)) err))
  | (f, Ok _) =>
      ((f, push_change d
             (mkChange (to_path_buf path)
                (ChangeUpdate None (original_contents p) None (new_contents p))),
        push_modified a affected_path), Ok tt)
  end.

Definition apply_update (cwd : uri) (st : loop_state) (affected_path : str) (path : uri)
    (move_path : option str) (chunks : list UpdateFileChunk)
  : loop_state * result unit any_error :=
  let '(f, d, a) := st in
  let d := mkDelta (changes d) (note_existing_path_delta_support f path (exact d)) in
  match derive_new_contents_from_chunks f path chunks with
  | Err e => ((f, d, a), Err (AnyApply e))
  | Ok p =>
      match move_path with
      | Some dest =>
          match uri_join cwd dest with
          | Err m => ((f, d, a), Err (AnyPathUri m))
          | Ok dest_uri => apply_move (f, d, a) affected_path path dest_uri p
          end
      | None => apply_update_in_place (f, d, a) affected_path path p
      end
  end.

Definition apply_hunk (cwd : uri) (st : loop_state) (hunk : Hunk)
  : loop_state * result unit any_error :=
  let affected_path := hunk_path hunk in
  match uri_join cwd (hunk_source_path hunk) with
  | Err m => (st, Err (AnyPathUri m))
  | Ok path_uri =>
      match hunk with
      | AddFile _ contents => apply_add st affected_path path_uri contents
      | DeleteFile _ => apply_delete st affected_path path_uri
      | UpdateFile _ move_path chunks =>
          apply_update cwd st affected_path path_uri move_path chunks
      end
  end.

Fixpoint apply_loop (cwd : uri) (st : loop_state) (hs : list Hunk)
  : loop_state * result unit any_error :=
  match hs with
  | [] => (st, Ok tt)
  | h :: hs' =>
      match apply_hunk cwd st h with
      | (st, Ok _) => apply_loop cwd st hs'
      | (st, Err e) => (st, Err e)
      end
  end.

Definition apply_hunks_to_files (cwd : uri) (f : fs) (d : AppliedPatchDelta) (hs : list Hunk)
  : fs * AppliedPatchDelta * result AffectedPaths any_error :=
  if is_empty hs then (f, d, Err (AnyMessage (lit "No files were modified.")))
  else
    match apply_loop cwd (f, d, no_affected) hs with
    | ((f, d, a), Ok _) => (f, d, Ok a)
    | ((f, d, _), Err e) => (f, d, Err e)
    end.

(** ** Output *)

Section Output.
Context {w : Type} `{Write w}.

Fixpoint print_lines (out : w) (ls : list str) : w * result unit io_error :=
  match ls with
  | [] => (out, Ok tt)
  | l :: ls' =>
      match write_line out l with
      | (out, Ok _) => print_lines out ls'
      | (out, Err e) => (out, Err e)
      end
  end.

Definition summary_lines (affected : AffectedPaths) : list str :=
  lit "Success. Updated the following files:"
  :: List.map (app (lit "A ")) (added affected)
  ++ List.map (app (lit "M ")) (modified affected)
  ++ List.map (app (lit "D ")) (deleted affected).

Definition print_summary (affected : AffectedPaths) (out : w) : w * result unit io_error :=
  print_lines out (summary_lines affected).

Definition apply_hunks (hs : list Hunk) (cwd : uri) (stdout stderr : w) (f : fs)
  : w * w * fs * result AppliedPatchDelta ApplyPatchFailure :=
  match apply_hunks_to_files cwd f empty_delta hs with
  | (f, d, Ok affected) =>
      match print_summary affected stdout with
      | (stdout, Err e) => (stdout, stderr, f, Err (mkFailure (from_io e) d))
      | (stdout, Ok _) => (stdout, stderr, f, Ok d)
      end
  | (f, d, Err error) =>
      let msg := show_any_error error in
      match write_line stderr msg with
      | (stderr, Err e) => (stdout, stderr, f, Err (mkFailure (from_io e) d))
      | (stderr, Ok _) =>
          let error :=
            match downcast_io error with
            | Some io => from_io io
            | None => ApplyIoError msg (mkIo Other msg)
            end in
          (stdout, stderr, f, Err (mkFailure error d))
      end
  end.

Definition msg_stderr_parse (e : ParseError) : str :=
  match e with
  | InvalidPatchError m => lit "Invalid patch: " ++ m
  | InvalidHunkError m n => lit "Invalid patch hunk on line " ++ show_nat n ++ lit ": " ++ m
  end.

Definition apply_patch (patch : str) (cwd : uri) (stdout stderr : w) (f : fs)
  : w * w * fs * result AppliedPatchDelta ApplyPatchFailure :=
  match parse_patch patch with
  | Ok source => apply_hunks (args_hunks source) cwd stdout stderr f
  | Err e =>
      match write_line stderr (msg_stderr_parse e) with
      | (stderr, Err io) => (stdout, stderr, f, Err (without_delta (from_io io)))
      | (stderr, Ok _) => (stdout, stderr, f, Err (without_delta (ApplyParseError e)))
      end
  end.

End Output.
End Engine.
End Apply.
