(* ===== verification/PatchApplyFacts.v ===== *)
(** Theorems about applying patches: the recorded delta is a faithful and
    reversible account of what happened to the files, the reported paths are
    those of the hunks, and a law-abiding in-memory file system on which the
    engine runs. *)

From stdpp Require Import base list option numbers strings gmap.
From S2P Require Import Prelude RustStr PatchParser Replacements PatchApply.

Module ApplyFacts.
Import Patch Apply.

(** ** What the engine relies on *)

(** The metadata of a path whose changes a delta can describe: a regular file
    that is not a symbolic link, or nothing at all. *)
Definition plain `{ExecutorFileSystem fs uri} (f : fs) (u : uri) : Prop :=
  match fs_get_metadata f u with
  | Ok m => is_file m = true /\ is_symlink m = false
  | Err e => io_kind e = NotFound
  end.

(** The contract of an alias-free file system, in terms of the text it holds at
    each path. *)
Class FileSystemLaws (fs uri : Type) `{PathUriOps uri} `{ExecutorFileSystem fs uri}
    `{EqDecision uri} := {
  fs_text : fs -> uri -> option str;
  law_read_ok f u s : fs_read_file_text f u = Ok s -> fs_text f u = Some s;
  law_read_not_found f u e :
    fs_read_file_text f u = Err e -> io_kind e = NotFound -> fs_text f u = None;
  law_write_ok f u s f' :
    fs_write_file f u s = (f', Ok tt) -> plain f u ->
    forall v, fs_text f' v = if decide (v = u) then Some s else fs_text f v;
  law_write_plain f u s f' :
    fs_write_file f u s = (f', Ok tt) -> forall v, plain f v -> plain f' v;
  law_write_not_found f u s f' e :
    fs_write_file f u s = (f', Err e) -> io_kind e = NotFound ->
    forall v, fs_text f' v = fs_text f v /\ (plain f v -> plain f' v);
  law_mkdir_text f u f' r :
    fs_create_directory f u = (f', r) -> forall v, fs_text f' v = fs_text f v;
  law_mkdir_plain f u f' r :
    fs_create_directory f u = (f', r) ->
    forall v, plain f v -> uri_parent v = Some u \/ is_Some (fs_text f v) -> plain f' v;
  law_remove_ok f u f' :
    fs_remove f u = (f', Ok tt) -> plain f u ->
    forall v, fs_text f' v = if decide (v = u) then None else fs_text f v;
  law_remove_err f u f' e :
    fs_remove f u = (f', Err e) ->
    forall v, fs_text f' v = fs_text f v \/ v = u /\ fs_text f' v = None;
}.

(** ** Replaying and undoing a delta *)

Section Delta.
Context {uri : Type} `{PathUriOps uri}.

(** The texts of a file system, path by path. *)
Notation view := (uri -> option str).

Definition set_text (g : view) (path : str) (t : option str) : view :=
  fun v => if to_path_buf v == path then t else g v.

Definition replay_change (g : view) (c : AppliedPatchChange) : view :=
  match change c with
  | ChangeAdd content _ => set_text g (change_path c) (Some content)
  | ChangeDelete _ => set_text g (change_path c) None
  | ChangeUpdate None _ _ new => set_text g (change_path c) (Some new)
  | ChangeUpdate (Some dest) _ _ new => set_text (set_text g dest (Some new)) (change_path c) None
  end.

Definition undo_change (g : view) (c : AppliedPatchChange) : view :=
  match change c with
  | ChangeAdd _ overwritten => set_text g (change_path c) overwritten
  | ChangeDelete content => set_text g (change_path c) (Some content)
  | ChangeUpdate None old _ _ => set_text g (change_path c) (Some old)
  | ChangeUpdate (Some dest) old overwritten _ =>
      set_text (set_text g dest overwritten) (change_path c) (Some old)
  end.

Definition replay (cs : list AppliedPatchChange) (g : view) : view := fold_left replay_change cs g.
Definition undo (cs : list AppliedPatchChange) (g : view) : view :=
  foldr (fun c g => undo_change g c) g cs.

#[export] Instance set_text_proper :
  Proper (pointwise_relation uri eq ==> eq ==> eq ==> pointwise_relation uri eq) set_text.
Proof. intros g g' Hg ? p -> ? t -> v. unfold set_text. by case_bool_decide. Qed.

#[export] Instance replay_change_proper :
  Proper (pointwise_relation uri eq ==> eq ==> pointwise_relation uri eq) replay_change.
Proof.
  intros g g' Hg ? c -> v. unfold replay_change, set_text.
  repeat case_match; auto.
Qed.

#[export] Instance undo_change_proper :
  Proper (pointwise_relation uri eq ==> eq ==> pointwise_relation uri eq) undo_change.
Proof.
  intros g g' Hg ? c -> v. unfold undo_change, set_text. repeat case_match; auto.
Qed.

Lemma replay_snoc cs c g : replay (cs ++ [c]) g = replay_change (replay cs g) c.
Proof. unfold replay. by rewrite fold_left_app. Qed.

Lemma undo_snoc cs c g : undo (cs ++ [c]) g = undo cs (undo_change g c).
Proof. unfold undo. by rewrite foldr_app. Qed.

#[export] Instance undo_proper cs :
  Proper (pointwise_relation uri eq ==> pointwise_relation uri eq) (undo cs).
Proof.
  intros g g' Hg. induction cs as [|c cs IH]; simpl; [done|]. by rewrite IH.
Qed.

End Delta.

Section Exactness.
Context {uri fs : Type} {HU : PathUriOps uri} {HF : ExecutorFileSystem fs uri}
  {HD : EqDecision uri} {HL : FileSystemLaws fs uri}.
Context (path_inj : forall u v : uri, to_path_buf u = to_path_buf v -> u = v).

Lemma set_text_decide (g : uri -> option str) u t v :
  set_text g (to_path_buf u) t v = if decide (v = u) then t else g v.
Proof using path_inj.
  unfold set_text. case_bool_decide as E; case_decide as E'; try done.
  - by apply path_inj in E.
  - by subst.
Qed.

(** One iteration: if the flag is still set then either no text changed and
    nothing was recorded, or one change was recorded that describes the step
    forwards and backwards. *)
Definition step_recorded (f : fs) (d : AppliedPatchDelta) (f' : fs) (d' : AppliedPatchDelta) : Prop :=
  exact d' = true ->
  exact d = true /\
  ((changes d' = changes d /\ forall v, fs_text f' v = fs_text f v) \/
   exists c, changes d' = changes d ++ [c] /\
     (forall v, fs_text f' v = replay_change (fs_text f) c v) /\
     (forall v, undo_change (fs_text f') c v = fs_text f v)).

Lemma note_existing_true (f : fs) (u : uri) b :
  note_existing_path_delta_support f u b = true -> b = true /\ plain f u.
Proof.
  unfold note_existing_path_delta_support, plain.
  destruct (fs_get_metadata f u) as [m|e].
  - destruct (is_file m), (is_symlink m); simpl; naive_solver.
  - destruct (io_kind e); naive_solver.
Qed.

Lemma read_optional_true (f : fs) (u : uri) b o :
  read_optional_file_text_for_delta f u b = (o, true) ->
  b = true /\ plain f u /\ fs_text f u = o.
Proof.
  unfold read_optional_file_text_for_delta.
  destruct (fs_read_file_text f u) as [s|e] eqn:E.
  - intros [= <- [-> ?]%note_existing_true]. eauto using law_read_ok.
  - destruct (io_kind e) eqn:Ek; intros [= <- Hn]; try done.
    apply note_existing_true in Hn as [-> ?]. eauto using law_read_not_found.
Qed.

(** A successful write, with or without the retry, sets exactly one text. *)
Lemma write_retry_ok (f : fs) (u : uri) s f' :
  write_file_with_missing_parent_retry f u s = (f', Ok tt) -> plain f u ->
  (forall v, fs_text f' v = if decide (v = u) then Some s else fs_text f v) /\
  (forall v, plain f v -> v = u \/ is_Some (fs_text f v) -> plain f' v).
Proof.
  unfold write_file_with_missing_parent_retry. intros Hw Hp.
  destruct (fs_write_file f u s) as [f1 [[]|e1]] eqn:E1.
  { simplify_eq. split; [by apply law_write_ok|]. intros v Hv _. by eapply law_write_plain. }
  destruct (io_kind e1) eqn:Ek; simplify_eq.
  pose proof (law_write_not_found _ _ _ _ _ E1 Ek) as H1.
  destruct (uri_parent u) as [par|] eqn:Epar.
  - destruct (fs_create_directory f1 par) as [f2 [[]|e2]] eqn:E2; simplify_eq/=.
    destruct (fs_write_file f2 u s) as [f3 [[]|e3]] eqn:E3; simplify_eq/=.
    pose proof (law_mkdir_text _ _ _ _ E2) as H2.
    pose proof (law_mkdir_plain _ _ _ _ E2) as H2p.
    assert (Hp2 : plain f2 u).
    { apply H2p; [by apply H1|by left]. }
    split.
    + intros v. rewrite (law_write_ok _ _ _ _ E3 Hp2), H2. by destruct (H1 v) as [-> _].
    + intros v Hv Hor. eapply law_write_plain; [exact E3|]. apply H2p; [by apply H1|].
      destruct Hor as [->|Hs]; [by left|right]. by destruct (H1 v) as [-> _].
  - simplify_eq/=. destruct (fs_write_file f1 u s) as [f3 [[]|e3]] eqn:E3; simplify_eq/=.
    assert (Hp1 : plain f1 u) by (by apply H1). split.
    + intros v. rewrite (law_write_ok _ _ _ _ E3 Hp1). by destruct (H1 v) as [-> _].
    + intros v Hv _. eapply law_write_plain; [exact E3|]. by apply H1.
Qed.

Lemma apply_add_recorded f d a ap (u : uri) contents f' d' a' r :
  apply_add (f, d, a) ap u contents = ((f', d', a'), r) -> step_recorded f d f' d'.
Proof using path_inj.
  unfold apply_add, step_recorded.
  destruct (read_optional_file_text_for_delta f u (exact d)) as [ow ex] eqn:Er.
  destruct (write_file_with_missing_parent_retry f u contents) as [f1 [[]|e]] eqn:Ew;
    intros Heq; simplify_eq/=; [|done].
  intros ->. apply read_optional_true in Er as (-> & Hp & How).
  destruct (write_retry_ok _ _ _ _ Ew Hp) as [Ht _]. split; [done|]. right.
  eexists. split_and!; [done| |]; intros v; simpl; unfold replay_change, undo_change; simpl;
    rewrite !set_text_decide, Ht; by case_decide; subst.
Qed.

Lemma apply_delete_recorded f d a ap (u : uri) f' d' a' r :
  apply_delete (f, d, a) ap u = ((f', d', a'), r) -> step_recorded f d f' d'.
Proof using path_inj.
  unfold apply_delete, step_recorded.
  destruct (fs_read_file_text f u) as [s|e] eqn:Er; cbn [ok is_some].
  2: { destruct (with_context (ensure_not_directory _ _) _); [|by intros; simplify_eq/=].
       destruct (fs_remove f u) as [f1 [[]|]]; intros; simplify_eq/=; done. }
  pose proof (law_read_ok _ _ _ Er) as Ht.
  destruct (with_context (ensure_not_directory _ _) _).
  2: { intros Heq; simplify_eq/=. intros [-> _]%note_existing_true. eauto. }
  destruct (fs_remove f u) as [f1 [[]|e]] eqn:Em; intros Heq; simplify_eq/=.
  - intros [-> Hp]%note_existing_true. split; [done|]. right.
    pose proof (law_remove_ok _ _ _ Em Hp) as Hr.
    eexists. split_and!; [done| |]; intros v; unfold replay_change, undo_change; simpl;
      rewrite set_text_decide, Hr; by case_decide; subst.
  - intros [[-> Hp]%note_existing_true Hfree]%andb_true_iff. split; [done|]. left.
    split; [done|]. intros v. destruct (decide (v = u)) as [->|Hne].
    + destruct (fs_read_file_text f' u) eqn:Er'; [|done].
      apply bool_decide_eq_true in Hfree as ->. rewrite Ht. by apply law_read_ok.
    + by destruct (law_remove_err _ _ _ _ Em v) as [->|[? _]].
Qed.

Lemma insert_snoc {A} (l : list A) x y : <[length l := y]> (l ++ [x]) = l ++ [y].
Proof. by rewrite insert_app_r_alt, Nat.sub_diag by lia. Qed.

Lemma apply_move_recorded f d a ap (u dest : uri) p f' d' a' r :
  plain f u -> fs_text f u = Some (original_contents p) ->
  apply_move (f, d, a) ap u dest p = ((f', d', a'), r) -> step_recorded f d f' d'.
Proof using path_inj.
  unfold apply_move, step_recorded. intros Hpu Htu.
  destruct (read_optional_file_text_for_delta f dest (exact d)) as [ow ex] eqn:Er.
  destruct (write_file_with_missing_parent_retry f dest (new_contents p)) as [f1 [[]|e]] eqn:Ew.
  2: { intros; by simplify_eq/=. }
  assert (Hadd : ex = true -> exact d = true /\
    (forall v, fs_text f1 v = if decide (v = dest) then Some (new_contents p) else fs_text f v) /\
    plain f1 u /\ fs_text f dest = ow).
  { intros ->. apply read_optional_true in Er as (Hd & Hpd & Hod).
    destruct (write_retry_ok _ _ _ _ Ew Hpd) as [Hw Hwp].
    split_and!; [done|done| |done]. apply Hwp; [done|]. right. by rewrite Htu. }
  destruct (with_context (ensure_not_directory f1 u) _).
  2: { intros Heq; simplify_eq/=. intros Hex. destruct (Hadd Hex) as (? & Hw & _ & ?).
       split; [done|]. right. eexists. split_and!; [done| |]; intros v;
         unfold replay_change, undo_change; simpl; rewrite set_text_decide, Hw;
         by case_decide; subst. }
  destruct (fs_remove f1 u) as [f2 [[]|e]] eqn:Em; intros Heq; simplify_eq/=.
  - intros Hex. destruct (Hadd Hex) as (? & Hw & Hp1 & Hod). split; [done|]. right.
    pose proof (law_remove_ok _ _ _ Em Hp1) as Hr.
    eexists. split_and!; [apply insert_snoc| |]; intros v;
      unfold replay_change, undo_change; simpl; rewrite !set_text_decide, Hr, ?Hw;
      repeat case_decide; by subst.
  - intros [Hex Hfree]%andb_true_iff. destruct (Hadd Hex) as (? & Hw & Hp1 & Hod).
    destruct (fs_read_file_text f' u) as [s|] eqn:Er'; [|done].
    apply bool_decide_eq_true in Hfree as ->. apply law_read_ok in Er'.
    pose proof (law_remove_err _ _ _ _ Em) as Hr.
    split; [done|]. right. eexists. split_and!; [done| |]; intros v;
      unfold replay_change, undo_change; simpl; rewrite set_text_decide;
      destruct (Hr v) as [->|[-> Hn]]; rewrite ?Hw; try (by case_decide; subst); congruence.
Qed.

Lemma apply_update_recorded cwd f d a ap (u : uri) mv chunks f' d' a' r :
  apply_update cwd (f, d, a) ap u mv chunks = ((f', d', a'), r) -> step_recorded f d f' d'.
Proof using path_inj.
  unfold apply_update. set (ex := note_existing_path_delta_support f u (exact d)).
  assert (Hsame : step_recorded f d f (mkDelta (changes d) ex)).
  { intros [-> _]%note_existing_true. eauto. }
  destruct (derive_new_contents_from_chunks f u chunks) as [p|e] eqn:Ed;
    [|by intros; simplify_eq].
  assert (Ht : fs_text f u = Some (original_contents p)).
  { unfold derive_new_contents_from_chunks in Ed.
    destruct (fs_read_file_text f u) as [s|] eqn:Er; [|done]. cbn [map_err] in Ed.
    destruct (Replace.derive_new_contents _ _ _); simplify_eq/=. by apply law_read_ok. }
  destruct mv as [dest|].
  - destruct (uri_join cwd dest) as [dest_uri|m]; [|by intros; simplify_eq].
    intros Hm Hex.
    assert (Hnote : ex = true).
    { revert Hm. unfold apply_move.
      destruct (read_optional_file_text_for_delta f dest_uri _) as [ow ex'] eqn:Er.
      assert (ex' = true -> ex = true)
        by (intros ->; by apply read_optional_true in Er as [? _]).
      repeat case_goal; intros; simplify_eq/=; bool_to_prop; auto. }
    destruct (note_existing_true f u (exact d) Hnote) as [Hd Hp]. split; [done|].
    by eapply (apply_move_recorded f (mkDelta (changes d) ex)).
  - unfold apply_update_in_place.
    destruct (fs_write_file f u (new_contents p)) as [f1 [[]|e]] eqn:Ew;
      intros Heq; simplify_eq/=; [|by intros ?].
    intros Hex. apply note_existing_true in Hex as [-> Hp]. split; [done|]. right.
    pose proof (law_write_ok _ _ _ _ Ew Hp) as Hw.
    eexists. split_and!; [done| |]; intros v; unfold replay_change, undo_change; simpl;
      rewrite set_text_decide, Hw; by case_decide; subst.
Qed.

Lemma apply_hunk_recorded cwd f d a h f' d' a' r :
  apply_hunk cwd (f, d, a) h = ((f', d', a'), r) -> step_recorded f d f' d'.
Proof using path_inj.
  unfold apply_hunk. destruct (uri_join cwd (hunk_source_path h)) as [u|m].
  2: { intros Heq; simplify_eq. intros Hd. eauto. }
  destruct h; eauto using apply_add_recorded, apply_delete_recorded, apply_update_recorded.
Qed.

(** The delta accounts for everything since [f0]. *)
Definition accounts (f0 f : fs) (d : AppliedPatchDelta) : Prop :=
  exact d = true ->
  (forall v, fs_text f v = replay (changes d) (fs_text f0) v) /\
  (forall v, undo (changes d) (fs_text f) v = fs_text f0 v).

Lemma accounts_step f0 f d f' d' :
  accounts f0 f d -> step_recorded f d f' d' -> accounts f0 f' d'.
Proof.
  intros Ha Hs Hex. destruct (Hs Hex) as [Hd Hc]. destruct (Ha Hd) as [Hr Hu].
  destruct Hc as [[-> Ht]|(c & -> & Ht & Hb)].
  - split; intros v; [by rewrite Ht|]. rewrite <- Hu.
    apply undo_proper. intros w. apply Ht.
  - rewrite replay_snoc, undo_snoc. split; intros v.
    + rewrite Ht. apply replay_change_proper; [|done]. intros w. apply Hr.
    + rewrite <- Hu. apply undo_proper. intros w. apply Hb.
Qed.

Lemma apply_loop_accounts cwd f0 st hs st' r :
  accounts f0 st.1.1 st.1.2 -> apply_loop cwd st hs = (st', r) -> accounts f0 st'.1.1 st'.1.2.
Proof using path_inj.
  revert st. induction hs as [|h hs IH]; intros [[f d] a] Hacc; simpl.
  - intros [= <- _]. done.
  - destruct (apply_hunk cwd (f, d, a) h) as [[[f1 d1] a1] [[]|e]] eqn:E;
      apply apply_hunk_recorded in E.
    + apply IH. by eapply accounts_step.
    + intros [= <- _]. by eapply accounts_step.
Qed.

Lemma apply_hunks_accounts cwd f hs f' d r :
  apply_hunks_to_files cwd f empty_delta hs = (f', d, r) -> accounts f f' d.
Proof using path_inj.
  unfold apply_hunks_to_files. assert (H0 : accounts f f empty_delta) by done.
  destruct (is_empty hs); [by intros; simplify_eq|].
  destruct (apply_loop _ _ _) as [[[f1 d1] a1] [u|e]] eqn:E;
    apply (apply_loop_accounts _ f) in E; intros; by simplify_eq.
Qed.

(** C1: whenever the returned delta is flagged exact (on success and on every
    failure path), replaying its changes on the texts before the call gives
    the texts after it, and undoing them restores every original text. *)
Theorem exact_delta_accounts cwd f hs f' d r :
  apply_hunks_to_files cwd f empty_delta hs = (f', d, r) -> exact d = true ->
  (forall v, fs_text f' v = replay (changes d) (fs_text f) v) /\
  (forall v, undo (changes d) (fs_text f') v = fs_text f v).
Proof using path_inj. apply apply_hunks_accounts. Qed.

(** An update hunk whose move destination resolves to the updated file
    itself is reported as a success and leaves no file: the freshly written
    destination is the original that the second half of the move removes. *)
Theorem self_move_deletes cwd f d a path dest chunks u f' d' a' :
  uri_join cwd path = Ok u -> uri_join cwd dest = Ok u -> plain f u ->
  apply_hunk cwd (f, d, a) (UpdateFile path (Some dest) chunks) = ((f', d', a'), Ok tt) ->
  fs_text f' u = None.
Proof.
  intros Hj Hjd Hp. unfold apply_hunk, apply_update. cbn [hunk_source_path hunk_path].
  rewrite Hj. destruct (derive_new_contents_from_chunks f u chunks) as [p|e] eqn:Ed; [|done].
  assert (Ht : is_Some (fs_text f u)).
  { unfold derive_new_contents_from_chunks in Ed.
    destruct (fs_read_file_text f u) as [s|] eqn:Er; [|done].
    exists s. by apply law_read_ok. }
  rewrite Hjd. unfold apply_move.
  destruct (read_optional_file_text_for_delta f u _) as [ow ex].
  destruct (write_file_with_missing_parent_retry f u (new_contents p)) as [f1 [[]|e]] eqn:Ew;
    [|done].
  destruct (write_retry_ok _ _ _ _ Ew Hp) as [_ Hwp].
  destruct (with_context (ensure_not_directory f1 u) _); [|done].
  destruct (fs_remove f1 u) as [f2 [[]|e]] eqn:Em; intros Heq; simplify_eq.
  rewrite (law_remove_ok _ _ _ Em) by (apply Hwp; auto). by rewrite decide_True.
Qed.

End Exactness.

(** ** Reported paths *)

Definition is_add (h : Hunk) : bool := match h with AddFile _ _ => true | _ => false end.
Definition is_update (h : Hunk) : bool := match h with UpdateFile _ _ _ => true | _ => false end.
Definition is_delete (h : Hunk) : bool := match h with DeleteFile _ => true | _ => false end.

(** The display paths of the hunks of one kind, in patch order. *)
Definition paths_of (p : Hunk -> bool) (hs : list Hunk) : list str :=
  List.map hunk_path (List.filter p hs).

Section Paths.
Context {uri fs : Type} `{PathUriOps uri} `{ExecutorFileSystem fs uri}.

Lemma apply_add_paths (f : fs) d a ap (u : uri) c f' d' a' :
  apply_add (f, d, a) ap u c = ((f', d', a'), Ok tt) -> a' = push_added a ap.
Proof.
  unfold apply_add. destruct (read_optional_file_text_for_delta _ _ _).
  destruct (write_file_with_missing_parent_retry _ _ _) as [? [[]|]]; [|done].
  by intros [= _ _ ->].
Qed.

Lemma apply_delete_paths (f : fs) d a ap (u : uri) f' d' a' :
  apply_delete (f, d, a) ap u = ((f', d', a'), Ok tt) -> a' = push_deleted a ap.
Proof.
  unfold apply_delete. destruct (with_context _ _); [|done].
  destruct (fs_remove _ _) as [? [[]|]]; [|done]. by intros [= _ _ ->].
Qed.

Lemma apply_update_paths cwd (f : fs) d a ap (u : uri) mv chunks f' d' a' :
  apply_update cwd (f, d, a) ap u mv chunks = ((f', d', a'), Ok tt) -> a' = push_modified a ap.
Proof.
  unfold apply_update. destruct (derive_new_contents_from_chunks _ _ _) as [p|]; [|done].
  destruct mv as [dest|].
  - destruct (uri_join cwd dest) as [u'|]; [|done]. unfold apply_move.
    destruct (read_optional_file_text_for_delta _ _ _).
    destruct (write_file_with_missing_parent_retry _ _ _) as [? [[]|]]; [|done].
    destruct (with_context _ _); [|done].
    destruct (fs_remove _ _) as [? [[]|]]; [|done]. by intros [= _ _ ->].
  - unfold apply_update_in_place. destruct (fs_write_file _ _ _) as [? [[]|]]; [|done].
    by intros [= _ _ ->].
Qed.

Lemma apply_hunk_paths cwd (f : fs) d a h f' d' a' :
  apply_hunk (uri:=uri) cwd (f, d, a) h = ((f', d', a'), Ok tt) ->
  added a' = added a ++ paths_of is_add [h] /\
  modified a' = modified a ++ paths_of is_update [h] /\
  deleted a' = deleted a ++ paths_of is_delete [h].
Proof.
  unfold apply_hunk. destruct (uri_join cwd (hunk_source_path h)) as [u|]; [|done].
  destruct h.
  - intros ->%apply_add_paths. cbn. by rewrite !app_nil_r.
  - intros ->%apply_delete_paths. cbn. by rewrite !app_nil_r.
  - intros ->%apply_update_paths. cbn. by rewrite !app_nil_r.
Qed.

Lemma paths_of_cons p h hs : paths_of p (h :: hs) = paths_of p [h] ++ paths_of p hs.
Proof. unfold paths_of. simpl. by destruct (p h). Qed.

Lemma apply_loop_paths cwd (f : fs) d a hs f' d' a' :
  apply_loop (uri:=uri) cwd (f, d, a) hs = ((f', d', a'), Ok tt) ->
  added a' = added a ++ paths_of is_add hs /\
  modified a' = modified a ++ paths_of is_update hs /\
  deleted a' = deleted a ++ paths_of is_delete hs.
Proof.
  revert f d a. induction hs as [|h hs IH]; intros f d a; simpl.
  - intros; simplify_eq. unfold paths_of. simpl. by rewrite !app_nil_r.
  - destruct (apply_hunk cwd (f, d, a) h) as [[[f1 d1] a1] [[]|e]] eqn:E; [|done].
    apply apply_hunk_paths in E as (Ea & Em & Ed). intros (-> & -> & ->)%IH.
    rewrite Ea, Em, Ed, (paths_of_cons is_add h hs), (paths_of_cons is_update h hs),
      (paths_of_cons is_delete h hs). by rewrite <- !app_assoc.
Qed.

(** On success the summary lists exactly the paths of the added, updated
    (by their destination, if moved) and deleted hunks, each in patch order. *)
Theorem success_reports_hunk_paths cwd (f : fs) d hs f' d' a :
  apply_hunks_to_files (uri:=uri) cwd f d hs = (f', d', Ok a) ->
  added a = paths_of is_add hs /\ modified a = paths_of is_update hs /\
  deleted a = paths_of is_delete hs /\ hs <> [].
Proof.
  unfold apply_hunks_to_files. destruct (is_empty hs) eqn:E; [done|].
  apply is_empty_false in E.
  destruct (apply_loop _ _ _) as [[[f1 d1] a1] [[]|]] eqn:El; [|done].
  intros; simplify_eq. apply apply_loop_paths in El. naive_solver.
Qed.

(** A patch that does not parse touches nothing: the file system is
    unchanged, the delta is empty and exact, and one line goes to stderr. *)
Theorem parse_failure_touches_nothing {w} `{Write w} patch (cwd : uri) (out err : w) (f : fs) e
    out' err' f' r :
  parse_patch patch = Err e ->
  apply_patch patch cwd out err f = (out', err', f', r) ->
  f' = f /\ out' = out /\ err' = (write_line err (msg_stderr_parse e)).1 /\
  exists ape, r = Err (mkFailure ape empty_delta).
Proof.
  intros Hp. unfold apply_patch. rewrite Hp.
  destruct (write_line err _) as [err1 [u|io]]; intros; simplify_eq/=; eauto.
Qed.

End Paths.

(** ** An in-memory file system *)

Module Mem.

Record mem := mkMem { files : gmap str str; dirs : gset str }.

(** The text before the last slash. *)
Definition parent (u : str) : option str :=
  match split_once (lit "/") (reverse u) with
  | Some (_, rest) => Some (reverse rest)
  | None => None
  end.

#[export] Instance mem_uri : PathUriOps str := {|
  uri_join cwd p := Ok (cwd ++ lit "/" ++ p);
  uri_parent := parent;
  uri_native_string u := u;
|}.

Definition not_found : io_error := mkIo NotFound (lit "not found").
Definition is_a_directory : io_error := mkIo (OtherKind 21) (lit "is a directory").

Definition mem_write (m : mem) (u s : str) : mem * result unit io_error :=
  if decide (u ∈ dirs m) then (m, Err is_a_directory)
  else
    match parent u with
    | Some p =>
        if decide (p ∈ dirs m) then (mkMem (<[u := s]> (files m)) (dirs m), Ok tt)
        else (m, Err not_found)
    | None => (mkMem (<[u := s]> (files m)) (dirs m), Ok tt)
    end.

#[export] Instance mem_fs : ExecutorFileSystem mem str := {|
  fs_read_file_text m u := match files m !! u with Some s => Ok s | None => Err not_found end;
  fs_get_metadata m u :=
    match files m !! u with
    | Some _ => Ok (mkMeta false true false)
    | None => if decide (u ∈ dirs m) then Ok (mkMeta true false false) else Err not_found
    end;
  fs_write_file := mem_write;
  fs_create_directory m u :=
    match files m !! u with
    | Some _ => (m, Err is_a_directory)
    | None => (mkMem (files m) ({[u]} ∪ dirs m), Ok tt)
    end;
  fs_remove m u :=
    match files m !! u with
    | Some _ => (mkMem (delete u (files m)) (dirs m), Ok tt)
    | None => (m, Err not_found)
    end;
|}.

Lemma parent_shorter u p : parent u = Some p -> length p < length u.
Proof.
  unfold parent. destruct (split_once _ _) as [[a b]|] eqn:E; [|done].
  intros [= <-]. apply split_once_eq in E. apply (f_equal length) in E.
  rewrite length_reverse, !length_app in E. rewrite length_reverse.
  change (length (lit "/")) with 1 in E. lia.
Qed.

Lemma mem_plain m u : plain (uri:=str) m u <-> is_Some (files m !! u) \/ u ∉ dirs m.
Proof.
  unfold plain. cbn. destruct (files m !! u) eqn:E; [by naive_solver|].
  case_decide; cbn; split.
  - intros [? ?]. done.
  - intros [[? ?]|?]; done.
  - auto.
  - done.
Qed.

#[export] Instance mem_laws : FileSystemLaws mem str.
Proof.
  refine {| fs_text m u := files m !! u |}; cbn [fs_read_file_text fs_write_file
    fs_create_directory fs_remove mem_fs uri_parent mem_uri].
  - intros f u s. destruct (files f !! u); naive_solver.
  - intros f u e. destruct (files f !! u); naive_solver.
  - intros f u s f' Hw _ v. unfold mem_write in Hw.
    repeat case_match; simplify_eq; cbn; by simplify_map_eq.
  - intros f u s f' Hw v. rewrite !mem_plain. unfold mem_write in Hw.
    repeat case_match; simplify_eq; cbn; (intros [?|?]; [left|by right]);
      destruct (decide (u = v)) as [->|]; by simplify_map_eq.
  - intros f u s f' e Hw _ v. unfold mem_write in Hw.
    repeat case_match; simplify_eq; done.
  - intros f u f' r. destruct (files f !! u); intros; by simplify_eq.
  - intros f u f' r Hc v. rewrite !mem_plain.
    destruct (files f !! u); simplify_eq; [done|]. cbn.
    intros [?|Hn] [Hp|?]; auto. right. apply parent_shorter in Hp.
    rewrite elem_of_union, elem_of_singleton. intros [->|?]; [lia|done].
  - intros f u f' Hr _ v. destruct (files f !! u); simplify_eq; cbn.
    case_decide; subst; by simplify_map_eq.
  - intros f u f' e Hr v. destruct (files f !! u); simplify_eq; auto.
Defined.

Lemma mem_path_inj (u v : str) : to_path_buf u = to_path_buf v -> u = v.
Proof. done. Qed.

Definition cwd : str := lit "w".
Definition start : mem :=
  mkMem {[ lit "w/a" := lit "one" ++ [LF]; lit "w/b" := lit "two" ++ [LF] ]} {[ cwd ]}.

Definition hunks : list Hunk :=
  [AddFile (lit "n/x") (lit "new" ++ [LF]); DeleteFile (lit "b");
   UpdateFile (lit "a") (Some (lit "c")) [mkChunk None [lit "one"] [lit "uno"] false]].

(** A writer that keeps what it is given. *)
#[export] Instance list_write : Write (list str) := {| write_line o l := (o ++ [l], Ok tt) |}.

End Mem.

Section Witnesses.
Import Mem.

Definition run := apply_hunks_to_files cwd start empty_delta Mem.hunks.

Lemma exact_delta_accounts_witness :
  (forall v, fs_text run.1.1 v = replay (changes run.1.2) (fs_text start) v) /\
  (forall v, undo (changes run.1.2) (fs_text run.1.1) v = fs_text start v).
Proof.
  apply (exact_delta_accounts mem_path_inj cwd start Mem.hunks run.1.1 run.1.2 run.2);
    by vm_compute.
Defined.

Lemma self_move_deletes_witness :
  fs_text (apply_hunk cwd (start, empty_delta, no_affected)
             (UpdateFile (lit "a") (Some (lit "a")) [mkChunk None [lit "one"] [lit "uno"] false])).1.1.1
    (lit "w/a") = None.
Proof.
  eapply (self_move_deletes cwd start empty_delta no_affected (lit "a") (lit "a")
           [mkChunk None [lit "one"] [lit "uno"] false] (lit "w/a")); by vm_compute.
Defined.

Lemma success_reports_hunk_paths_witness :
  exists a, run.2 = Ok a /\ added a = paths_of is_add Mem.hunks.
Proof.
  exists (mkAffected [lit "n/x"] [lit "c"] [lit "b"]). split; [by vm_compute|].
  apply (success_reports_hunk_paths cwd start empty_delta Mem.hunks run.1.1 run.1.2).
  by vm_compute.
Defined.

Lemma parse_failure_touches_nothing_witness :
  (apply_patch (lit "bad") cwd [] [] start).1.2 = start.
Proof.
  eapply (parse_failure_touches_nothing (lit "bad") cwd [] [] start
            (InvalidPatchError msg_first_line)); by vm_compute.
Defined.

End Witnesses.
End ApplyFacts.
