(* ===== verification/HeadTailBuffer.v ===== *)
(** The capped output buffer of unified exec
    (core/src/unified_exec/head_tail_buffer.rs): it keeps a prefix and a suffix
    of the bytes pushed into it and counts what it dropped in between.
    The abstract specification keeps every byte; the refinement theorem says
    the buffer is observably the specification. *)

From stdpp Require Import base list numbers.
From S2P Require Import Prelude Machine.

Module HeadTail.

Open Scope Z_scope.

Notation byte := N (only parsing).

Record HeadTailBuffer := mkBuffer {
  max_bytes : Z;
  head_budget : Z;
  tail_budget : Z;
  head : list (list byte);
  tail : list (list byte);
  head_bytes : Z;
  tail_bytes : Z;
  omitted_bytes : Z;
}.

Definition UNIFIED_EXEC_OUTPUT_MAX_BYTES : Z := 1024 * 1024.

Definition new (max_bytes : Z) : HeadTailBuffer :=
  let head_budget := max_bytes / 2 in
  let tail_budget := sat_sub max_bytes head_budget in
  mkBuffer max_bytes head_budget tail_budget [] [] 0 0 0.

(** [Default::default]. *)
Definition default : HeadTailBuffer := new UNIFIED_EXEC_OUTPUT_MAX_BYTES.

Definition retained_bytes (b : HeadTailBuffer) : Z := sat_add (head_bytes b) (tail_bytes b).

Definition with_omitted (b : HeadTailBuffer) (o : Z) : HeadTailBuffer :=
  mkBuffer (max_bytes b) (head_budget b) (tail_budget b) (head b) (tail b)
    (head_bytes b) (tail_bytes b) o.

Definition with_tail (b : HeadTailBuffer) (t : list (list byte)) (n o : Z) : HeadTailBuffer :=
  mkBuffer (max_bytes b) (head_budget b) (tail_budget b) (head b) t (head_bytes b) n o.

(** [self.head.push_back(chunk)] with the byte count. *)
Definition push_head (b : HeadTailBuffer) (chunk : list byte) : HeadTailBuffer :=
  mkBuffer (max_bytes b) (head_budget b) (tail_budget b) (head b ++ [chunk]) (tail b)
    (sat_add (head_bytes b) (len chunk)) (tail_bytes b) (omitted_bytes b).

(** The loop of [trim_tail_to_budget] over the tail queue: the new queue, its
    byte count and the omitted count. *)
Fixpoint trim_loop (excess : Z) (tail : list (list byte)) (tail_bytes omitted : Z)
  : list (list byte) * Z * Z :=
  if 0 <? excess then
    match tail with
    | front :: rest =>
        if len front <=? excess then
          trim_loop (excess - len front) rest (sat_sub tail_bytes (len front))
            (sat_add omitted (len front))
        else
          (drop (Z.to_nat excess) front :: rest, sat_sub tail_bytes excess, sat_add omitted excess)
    | [] => (tail, tail_bytes, omitted)
    end
  else (tail, tail_bytes, omitted).

Definition trim_tail_to_budget (b : HeadTailBuffer) : HeadTailBuffer :=
  let excess := sat_sub (tail_bytes b) (tail_budget b) in
  let '(t, n, o) := trim_loop excess (tail b) (tail_bytes b) (omitted_bytes b) in
  with_tail b t n o.

Definition push_to_tail (b : HeadTailBuffer) (chunk : list byte) : HeadTailBuffer :=
  if tail_budget b =? 0 then with_omitted b (sat_add (omitted_bytes b) (len chunk))
  else if tail_budget b <=? len chunk then
    let start := sat_sub (len chunk) (tail_budget b) in
    let kept := drop (Z.to_nat start) chunk in
    let dropped := sat_sub (len chunk) (len kept) in
    with_tail b [kept] (len kept)
      (sat_add (sat_add (omitted_bytes b) (tail_bytes b)) dropped)
  else
    trim_tail_to_budget
      (with_tail b (tail b ++ [chunk]) (sat_add (tail_bytes b) (len chunk)) (omitted_bytes b)).

Definition push_chunk (b : HeadTailBuffer) (chunk : list byte) : HeadTailBuffer :=
  if max_bytes b =? 0 then with_omitted b (sat_add (omitted_bytes b) (len chunk))
  else if head_bytes b <? head_budget b then
    let remaining_head := sat_sub (head_budget b) (head_bytes b) in
    if len chunk <=? remaining_head then push_head b chunk
    else
      let head_part := take (Z.to_nat remaining_head) chunk in
      let tail_part := drop (Z.to_nat remaining_head) chunk in
      let b := if is_empty head_part then b else push_head b head_part in
      push_to_tail b tail_part
  else push_to_tail b chunk.

Definition snapshot_chunks (b : HeadTailBuffer) : list (list byte) := head b ++ tail b.

Definition to_bytes (b : HeadTailBuffer) : list byte := mjoin (head b) ++ mjoin (tail b).

Definition drain_chunks (b : HeadTailBuffer) : HeadTailBuffer * list (list byte) :=
  (mkBuffer (max_bytes b) (head_budget b) (tail_budget b) [] [] 0 0 0, head b ++ tail b).

(** ** Specification

    What the buffer promises in terms of all bytes [all] pushed since it was
    created or drained. *)

(** The last [n] elements of a list. *)
Definition last_n {A} (n : nat) (l : list A) : list A := drop (length l - n) l.

Definition spec_head (max : Z) (all : list byte) : list byte := take (Z.to_nat (max / 2)) all.
Definition spec_tail (max : Z) (all : list byte) : list byte :=
  last_n (Z.to_nat (max - max / 2)) (drop (Z.to_nat (max / 2)) all).
Definition spec_bytes (max : Z) (all : list byte) : list byte := spec_head max all ++ spec_tail max all.
Definition spec_omitted (max : Z) (all : list byte) : Z :=
  Z.min usize_max (len all - len (spec_bytes max all)).

Inductive op := PushChunk (chunk : list byte) | DrainChunks.

(** What a client can see after an operation: the bytes handed out by a drain,
    the retained bytes, and the two counters. *)
Record observation := Observe {
  drained : list byte;
  retained : list byte;
  retained_count : Z;
  omitted_count : Z;
}.

Definition observe (d : list byte) (b : HeadTailBuffer) : observation :=
  Observe d (to_bytes b) (retained_bytes b) (omitted_bytes b).

Fixpoint run (b : HeadTailBuffer) (ops : list op) : list observation :=
  match ops with
  | [] => []
  | PushChunk c :: ops' => let b := push_chunk b c in observe [] b :: run b ops'
  | DrainChunks :: ops' =>
      let '(b, chunks) := drain_chunks b in observe (mjoin chunks) b :: run b ops'
  end.

Definition spec_observe (max : Z) (d all : list byte) : observation :=
  Observe d (spec_bytes max all) (len (spec_bytes max all)) (spec_omitted max all).

Fixpoint spec_run (max : Z) (all : list byte) (ops : list op) : list observation :=
  match ops with
  | [] => []
  | PushChunk c :: ops' => spec_observe max [] (all ++ c) :: spec_run max (all ++ c) ops'
  | DrainChunks :: ops' => spec_observe max (spec_bytes max all) [] :: spec_run max [] ops'
  end.

(** ** Suffixes *)

Lemma length_last_n {A} n (l : list A) : length (last_n n l) = Nat.min n (length l).
Proof. unfold last_n. rewrite length_drop. lia. Qed.

Lemma len_last_n {A} n (l : list A) : len (last_n n l) = Z.min (Z.of_nat n) (len l).
Proof. unfold len. rewrite length_last_n. lia. Qed.

Lemma last_n_all {A} n (l : list A) : (length l <= n)%nat -> last_n n l = l.
Proof. intros ?. unfold last_n. by replace (length l - n)%nat with 0%nat by lia. Qed.

Lemma last_n_0 {A} (l : list A) : last_n 0 l = [].
Proof. apply nil_length_inv. by rewrite length_last_n. Qed.

(** A suffix long enough comes from the right operand alone. *)
Lemma last_n_app_r {A} n (l k : list A) : (n <= length k)%nat -> last_n n (l ++ k) = last_n n k.
Proof.
  intros ?. unfold last_n. rewrite length_app, drop_app_ge by lia. f_equal. lia.
Qed.

Lemma drop_drop_app {A} i m (l k : list A) :
  (i <= length l)%nat -> drop m (drop i l ++ k) = drop (i + m) (l ++ k).
Proof. intros ?. by rewrite <- drop_drop, (drop_app_le l k i). Qed.

(** Trimming incrementally is trimming the whole. *)
Lemma last_n_last_n_app {A} n (l k : list A) : last_n n (last_n n l ++ k) = last_n n (l ++ k).
Proof.
  unfold last_n at 1. rewrite length_app, length_last_n. unfold last_n.
  rewrite drop_drop_app by lia. rewrite length_app. f_equal. lia.
Qed.

(** ** The trimming loop drops exactly the excess, from the front *)
Lemma trim_loop_spec excess tl n om t n' o :
  0 <= excess <= len (mjoin tl) -> n = len (mjoin tl) -> 0 <= om ->
  trim_loop excess tl n (Z.min usize_max om) = (t, n', o) ->
  mjoin t = drop (Z.to_nat excess) (mjoin tl) /\ n' = n - excess /\
  o = Z.min usize_max (om + excess).
Proof.
  revert excess n om. induction tl as [|front rest IH]; intros excess n om Hex -> Hom; simpl.
  - change (0 <= excess <= 0) in Hex. replace excess with 0 by lia. simpl.
    intros; simplify_eq. split_and!; [done|done|lia].
  - simpl in Hex. rewrite len_app in *. pose proof (len_nonneg front).
    destruct (Z.ltb_spec 0 excess).
    + destruct (Z.leb_spec (len front) excess).
      * rewrite sat_add_min, sat_sub_exact by (pose proof (len_nonneg (mjoin rest)); lia).
        intros (-> & -> & ->)%IH; [|lia..]. split_and!; [|lia|f_equal; lia].
        rewrite drop_app_ge by (unfold len in *; lia). f_equal. unfold len in *. lia.
      * intros; simplify_eq/=. rewrite sat_add_min, sat_sub_exact by lia.
        split_and!; [|done|done]. by rewrite drop_app_le by (unfold len in *; lia).
    + replace excess with 0 by lia. intros; simplify_eq. rewrite drop_0.
      split_and!; [done|lia|f_equal; lia].
Qed.

(** ** Invariant *)

(** The tail part of the buffer describes the bytes [r] that reached it. *)
Record tail_ok (b : HeadTailBuffer) (r : list byte) : Prop := mkTailOk {
  tail_eq : mjoin (tail b) = last_n (Z.to_nat (tail_budget b)) r;
  tail_count : tail_bytes b = len (mjoin (tail b));
  tail_omitted : omitted_bytes b = Z.min usize_max (len r - len (mjoin (tail b)));
}.

(** The buffer describes the bytes [all]. *)
Record represents (max : Z) (b : HeadTailBuffer) (all : list byte) : Prop := mkRepresents {
  rep_max : max_bytes b = max;
  rep_head_budget : head_budget b = max / 2;
  rep_tail_budget : tail_budget b = max - max / 2;
  rep_head : mjoin (head b) = spec_head max all;
  rep_head_count : head_bytes b = len (mjoin (head b));
  rep_tail : tail_ok b (drop (Z.to_nat (max / 2)) all);
}.

Lemma push_to_tail_ok b r c :
  0 <= tail_budget b -> 2 * tail_budget b <= usize_max + 1 ->
  tail_ok b r -> tail_ok (push_to_tail b c) (r ++ c).
Proof.
  intros Htb Hmax [Ht Hc Ho]. unfold push_to_tail. pose proof (len_nonneg c).
  assert (Hle : 0 <= len (mjoin (tail b)) <= len r) by (rewrite Ht, len_last_n; unfold len; lia).
  destruct (Z.eqb_spec (tail_budget b) 0) as [E|E].
  { rewrite E, last_n_0 in Ht. split; cbn; rewrite ?E, ?Ht, ?last_n_0; [done|by rewrite Hc, Ht|].
    rewrite Ho, Ht, sat_add_min, len_app by lia. f_equal. lia. }
  destruct (Z.leb_spec (tail_budget b) (len c)) as [Hbig|Hsmall].
  - rewrite (sat_sub_exact (len c)) by lia.
    set (kept := drop _ c).
    assert (Hk : kept = last_n (Z.to_nat (tail_budget b)) c)
      by (unfold kept, last_n; f_equal; unfold len; lia).
    assert (Hlk : len kept = tail_budget b) by (rewrite Hk, len_last_n; lia).
    split; cbn; rewrite ?app_nil_r; [|done|].
    + rewrite last_n_app_r by (unfold len in *; lia). done.
    + rewrite Ho, Hc, sat_add_min, Hlk, sat_sub_exact, sat_add_min, len_app by lia. f_equal. lia.
  - assert (Hl : tail_bytes b <= tail_budget b) by (rewrite Hc, Ht, len_last_n; lia).
    rewrite sat_add_exact by lia. unfold trim_tail_to_budget. cbn.
    destruct (trim_loop _ _ _ _) as [[t n] o] eqn:El. rewrite Ho in El.
    assert (Hj : len (mjoin (tail b ++ [c])) = tail_bytes b + len c)
      by (rewrite join_app; simpl; rewrite app_nil_r, len_app, <- Hc; done).
    apply trim_loop_spec in El as (Ejoin & -> & ->);
      [|unfold sat_sub; lia|by rewrite Hj|lia].
    assert (Ej : mjoin t = last_n (Z.to_nat (tail_budget b)) (r ++ c)).
    { rewrite <- last_n_last_n_app, <- Ht, Ejoin, join_app. simpl. rewrite app_nil_r.
      unfold last_n. f_equal. rewrite length_app. unfold sat_sub, len in *. lia. }
    assert (Elen : len (mjoin t) = tail_bytes b + len c - sat_sub (tail_bytes b + len c) (tail_budget b))
      by (rewrite Ej, len_last_n, len_app; rewrite Hc, Ht, len_last_n; unfold sat_sub; lia).
    split; cbn; [done|by rewrite Elen|]. rewrite Elen, len_app, <- Hc. f_equal. lia.
Qed.

Lemma spec_head_nil max : spec_head max [] = [].
Proof. apply take_nil. Qed.

Lemma tail_ok_nil b n : tail b = [] -> tail_bytes b = 0 -> omitted_bytes b = 0 -> tail_ok b (drop n []).
Proof.
  intros Ht Hc Ho. rewrite drop_nil. split; rewrite Ht, ?Hc, ?Ho; [|done|done].
  unfold last_n. by rewrite drop_nil.
Qed.

Lemma new_represents max : 0 <= max -> represents max (new max) [].
Proof.
  intros Hm. assert (max / 2 <= max) by (apply Z.div_le_upper_bound; lia).
  split; [done|done| |by rewrite spec_head_nil|done|by apply tail_ok_nil].
  cbn. by apply sat_sub_exact.
Qed.

Lemma drain_represents max b all :
  represents max b all -> represents max (drain_chunks b).1 [].
Proof. intros []. split; [done..|by rewrite spec_head_nil|done|by apply tail_ok_nil]. Qed.

Lemma push_head_represents max b all c :
  0 <= max <= usize_max -> len all + len c <= max / 2 ->
  represents max b all -> represents max (push_head b c) (all ++ c).
Proof.
  intros Hm Hfit [? ? ? Hh Hhc [Ht Hc Ho]]. pose proof (len_nonneg c). pose proof (len_nonneg all).
  assert (max / 2 <= max) by (apply Z.div_le_upper_bound; lia).
  unfold spec_head in Hh. rewrite take_ge in Hh by (unfold len in *; lia).
  rewrite drop_ge in Ht, Ho by (unfold len in *; lia).
  split; cbn; try done; rewrite ?join_app, ?Hh; simpl; rewrite ?app_nil_r.
  - unfold spec_head. rewrite take_ge; [done|]. rewrite length_app. unfold len in *. lia.
  - rewrite Hhc, Hh, len_app. by apply sat_add_exact; lia.
  - rewrite drop_ge by (rewrite length_app; unfold len in *; lia). by split.
Qed.

(** [push_to_tail] changes neither the budgets nor the head. *)
Lemma push_to_tail_frame b c :
  max_bytes (push_to_tail b c) = max_bytes b /\
  head_budget (push_to_tail b c) = head_budget b /\
  tail_budget (push_to_tail b c) = tail_budget b /\
  head (push_to_tail b c) = head b /\ head_bytes (push_to_tail b c) = head_bytes b.
Proof.
  unfold push_to_tail, trim_tail_to_budget. destruct (_ =? _); [done|].
  destruct (_ <=? _); [done|]. by destruct (trim_loop _ _ _ _) as [[t n] o].
Qed.

Lemma push_to_tail_represents max b all c :
  0 <= max <= usize_max -> max / 2 <= len all ->
  represents max b all -> represents max (push_to_tail b c) (all ++ c).
Proof.
  intros Hm Hfull [Em Eh Et Hh Hhc Ht].
  pose proof (Z.div_mod max 2). pose proof (Z.mod_pos_bound max 2).
  destruct (push_to_tail_frame b c) as (Fm & Fh & Ft & Ehead & Ebytes).
  split; rewrite ?Fm, ?Fh, ?Ft, ?Ebytes, ?Ehead; try done.
  - rewrite Hh. unfold spec_head. rewrite take_app_le; [done|]. unfold len in *. lia.
  - rewrite drop_app_le by (unfold len in *; lia). apply push_to_tail_ok; [lia..|done].
Qed.

Lemma push_chunk_represents max b all c :
  0 <= max <= usize_max ->
  represents max b all -> represents max (push_chunk b c) (all ++ c).
Proof.
  intros Hm Hr. pose proof Hr as [Em Eh Et Hh Hhc Ht]. unfold push_chunk.
  assert (Hdiv : 0 <= max / 2) by (apply Z.div_pos; lia).
  assert (Hlen : head_bytes b = Z.min (max / 2) (len all)).
  { rewrite Hhc, Hh. unfold spec_head, len. rewrite length_take. lia. }
  destruct (Z.eqb_spec (max_bytes b) 0) as [E|E].
  { assert (max = 0) as -> by lia. change (0 / 2) with 0 in *.
    replace (with_omitted _ _) with (push_to_tail b c)
      by (unfold push_to_tail; by rewrite Et).
    apply push_to_tail_represents; [lia| |done]. pose proof (len_nonneg all). by change (0 / 2) with 0. }
  destruct (Z.ltb_spec (head_bytes b) (head_budget b)) as [Hroom|Hfull].
  2: { apply push_to_tail_represents; [done|lia|done]. }
  rewrite sat_sub_exact by lia. destruct (Z.leb_spec (len c) (head_budget b - head_bytes b)).
  { apply push_head_represents; [done|lia|done]. }
  set (k := Z.to_nat (head_budget b - head_bytes b)).
  assert (Hk : len (take k c) = max / 2 - len all)
    by (unfold len in *; rewrite length_take; unfold k; lia).
  destruct (is_empty (take k c)) eqn:Ee.
  { apply is_empty_true in Ee. rewrite Ee, len_nil in Hk. lia. }
  replace (all ++ c) with ((all ++ take k c) ++ drop k c) by (by rewrite <- app_assoc, take_drop).
  apply push_to_tail_represents; [done|rewrite len_app; lia|].
  apply push_head_represents; [done|lia|done].
Qed.

Lemma len_spec_bytes max all : 0 <= max -> len (spec_bytes max all) = Z.min max (len all).
Proof.
  intros Hm. pose proof (Z.div_mod max 2). pose proof (Z.mod_pos_bound max 2).
  assert (0 <= max / 2) by (apply Z.div_pos; lia).
  unfold spec_bytes, spec_head, spec_tail. rewrite len_app, len_last_n. unfold len.
  rewrite length_take, length_drop. lia.
Qed.

Lemma represents_to_bytes max b all : represents max b all -> to_bytes b = spec_bytes max all.
Proof. intros [_ _ Et Hh _ [Ht _ _]]. unfold to_bytes. by rewrite Hh, Ht, Et. Qed.

Lemma represents_observe max b all d :
  0 <= max <= usize_max -> represents max b all -> observe d b = spec_observe max d all.
Proof.
  intros Hm Hr. pose proof (len_spec_bytes max all). pose proof (represents_to_bytes _ _ _ Hr) as Hb.
  unfold observe, spec_observe. rewrite Hb.
  destruct Hr as [_ _ _ Hh Hhc [_ Hc Ho]].
  assert (Hsum : head_bytes b + tail_bytes b = len (spec_bytes max all))
    by (rewrite Hhc, Hc, <- len_app, <- Hb; done).
  f_equal.
  - unfold retained_bytes. rewrite sat_add_exact by lia. done.
  - rewrite Ho. unfold spec_omitted. f_equal. rewrite <- Hsum, Hhc, Hc, Hh.
    rewrite <- (take_drop (Z.to_nat (max / 2)) all) at 2. rewrite len_app. unfold spec_head. lia.
Qed.

Lemma run_refines max b all ops :
  0 <= max <= usize_max -> represents max b all -> run b ops = spec_run max all ops.
Proof.
  intros Hm. revert b all. induction ops as [|[c|] ops IH]; intros b all Hr; simpl; [done|..].
  - assert (Hp := push_chunk_represents max b all c Hm Hr).
    rewrite (represents_observe max _ (all ++ c)) by done. f_equal. by apply IH.
  - assert (Hd := drain_represents max b all Hr).
    rewrite (represents_observe max (drain_chunks b).1 []) by done. f_equal; [|by apply IH].
    rewrite join_app. fold (to_bytes b). by rewrite (represents_to_bytes _ _ _ Hr).
Qed.

(** C32: for every capacity and every sequence of pushes and drains, the buffer
    is observably the specification that keeps all bytes since the last drain:
    it retains the first half of the budget from the front and the rest of the
    budget from the end, its counters are exact (the omitted count up to
    saturation), and a drain hands out exactly the retained bytes. *)
Theorem head_tail_refines max ops :
  usize max -> run (new max) ops = spec_run max [] ops.
Proof. intros ?. apply run_refines; [done|]. apply new_represents. by destruct H. Qed.

Lemma head_tail_refines_witness :
  let ops := [PushChunk [1; 2; 3]%N; PushChunk [4; 5; 6; 7]%N; DrainChunks; PushChunk [8]%N] in
  run (new 4) ops = spec_run 4 [] ops.
Proof. apply (head_tail_refines 4). by vm_compute. Defined.

Definition pushed (b : HeadTailBuffer) (chunks : list (list byte)) : HeadTailBuffer :=
  foldl push_chunk b chunks.

Lemma pushed_represents max b all chunks :
  0 <= max <= usize_max -> represents max b all -> represents max (pushed b chunks) (all ++ mjoin chunks).
Proof.
  intros Hm. revert b all. induction chunks as [|c cs IH]; intros b all Hr; simpl.
  - by rewrite app_nil_r.
  - rewrite app_assoc. apply IH. by apply push_chunk_represents.
Qed.

(** The buffer never holds more than its capacity and drops nothing while
    the output fits; retained and omitted bytes add up to everything pushed. *)
Theorem head_tail_capacity max chunks :
  usize max ->
  let b := pushed (new max) chunks in
  len (to_bytes b) = Z.min max (len (mjoin chunks)) /\
  (len (mjoin chunks) <= max -> to_bytes b = mjoin chunks /\ omitted_bytes b = 0) /\
  (len (mjoin chunks) <= usize_max -> len (to_bytes b) + omitted_bytes b = len (mjoin chunks)).
Proof.
  intros Hm b.
  assert (Hr : represents max b (mjoin chunks))
    by (apply (pushed_represents max (new max) []), new_represents; apply Hm).
  pose proof (represents_observe max b (mjoin chunks) [] Hm Hr) as [= Hb Hc Ho].
  pose proof (len_spec_bytes max (mjoin chunks) ltac:(apply Hm)) as Hl.
  pose proof (len_nonneg (mjoin chunks)). unfold usize, spec_omitted in *.
  rewrite Hb, Ho, Hl. split_and!; [done| |lia].
  intros Hfit. split; [|lia]. unfold spec_bytes, spec_head, spec_tail.
  rewrite last_n_all; [apply take_drop|]. rewrite length_drop.
  pose proof (Z.div_pos max 2). unfold len in *. lia.
Qed.

Lemma head_tail_capacity_witness :
  let b := pushed (new 3) [[1; 2]; [3; 4; 5]]%N in
  len (to_bytes b) = Z.min 3 (len (mjoin [[1; 2]; [3; 4; 5]]%N)).
Proof. apply (head_tail_capacity 3 [[1; 2]; [3; 4; 5]]%N). by vm_compute. Defined.

Close Scope Z_scope.
End HeadTail.
