(* ===== verification/Truncate.v ===== *)
(** Middle truncation of text (utils/string/src/truncate.rs) and the
    truncation of tool output built on it (utils/output-truncation/src/lib.rs,
    with [TruncationPolicy] of protocol/src/protocol.rs). *)

From stdpp Require Import base list option numbers strings.
From S2P Require Import Prelude Machine RustStr.

Module Truncate.

Open Scope Z_scope.

(** [str::len] as a [usize]; a Rust string never exceeds [isize::MAX] bytes. *)
Definition slen (s : str) : Z := Z.of_nat (str_len s).
Definition allocatable (s : str) : Prop := slen s <= i64_max.

(** [&s[..n]] and [&s[n..]]: [None] where the indexing panics. *)
Definition get_to (s : str) (n : Z) : option str :=
  if is_char_boundary s (Z.to_nat n) then Some (slice_to (Z.to_nat n) s) else None.
Definition get_from (s : str) (n : Z) : option str :=
  if is_char_boundary s (Z.to_nat n) then Some (slice_from (Z.to_nat n) s) else None.

Definition show_u64 (n : Z) : str := show_N (Z.to_N n).

(** ** utils/string/src/truncate.rs *)

Definition APPROX_BYTES_PER_TOKEN : Z := 4.

Definition approx_token_count (text : str) : Z :=
  sat_add (slen text) (sat_sub APPROX_BYTES_PER_TOKEN 1) / APPROX_BYTES_PER_TOKEN.

Definition approx_bytes_for_tokens (tokens : Z) : Z := sat_mul tokens APPROX_BYTES_PER_TOKEN.

Definition approx_tokens_from_byte_count (bytes : Z) : Z :=
  sat_add bytes (sat_sub APPROX_BYTES_PER_TOKEN 1) / APPROX_BYTES_PER_TOKEN.

(** The loop variables of [split_string]. *)
Record split_state := mkSplit {
  prefix_end : Z;
  suffix_start : Z;
  removed_chars : Z;
  suffix_started : bool;
}.

(** The [for] loop over [s.char_indices()], from byte offset [idx]. *)
Fixpoint split_loop (beginning_bytes tail_start_target idx : Z) (st : split_state) (s : str)
  : split_state :=
  match s with
  | [] => st
  | ch :: s' =>
      let char_end := idx + Z.of_nat (len_utf8 ch) in
      let st :=
        if char_end <=? beginning_bytes then
          mkSplit char_end (suffix_start st) (removed_chars st) (suffix_started st)
        else if tail_start_target <=? idx then
          if negb (suffix_started st) then mkSplit (prefix_end st) idx (removed_chars st) true
          else st
        else
          mkSplit (prefix_end st) (suffix_start st) (sat_add (removed_chars st) 1)
            (suffix_started st) in
      split_loop beginning_bytes tail_start_target char_end st s'
  end.

Definition split_string (s : str) (beginning_bytes end_bytes : Z) : option (Z * str * str) :=
  if is_empty s then Some (0, [], [])
  else
    let len := slen s in
    let tail_start_target := sat_sub len end_bytes in
    let st := split_loop beginning_bytes tail_start_target 0 (mkSplit 0 len 0 false) s in
    let suffix_start :=
      if suffix_start st <? prefix_end st then prefix_end st else suffix_start st in
    match get_to s (prefix_end st), get_from s suffix_start with
    | Some before, Some after => Some (removed_chars st, before, after)
    | _, _ => None
    end.

Definition split_budget (budget : Z) : Z * Z :=
  let left_half := budget / 2 in (left_half, budget - left_half).

(** The horizontal ellipsis. *)
Definition ELLIPSIS : char := 0x2026.

Definition format_truncation_marker (use_tokens : bool) (removed_count : Z) : str :=
  if use_tokens then
    [ELLIPSIS] ++ show_u64 removed_count ++ lit " tokens truncated" ++ [ELLIPSIS]
  else [ELLIPSIS] ++ show_u64 removed_count ++ lit " chars truncated" ++ [ELLIPSIS].

Definition removed_units (use_tokens : bool) (removed_bytes removed_chars : Z) : Z :=
  if use_tokens then approx_tokens_from_byte_count removed_bytes
  else Z.min u64_max removed_chars.

Definition assemble_truncated_output (prefix suffix marker : str) : str :=
  prefix ++ marker ++ suffix.

Definition truncate_with_byte_estimate (s : str) (max_bytes : Z) (use_tokens : bool)
  : option str :=
  if is_empty s then Some []
  else
    let total_chars := len s in
    if max_bytes =? 0 then
      Some (format_truncation_marker use_tokens (removed_units use_tokens (slen s) total_chars))
    else if slen s <=? max_bytes then Some s
    else
      let total_bytes := slen s in
      let '(left_budget, right_budget) := split_budget max_bytes in
      match split_string s left_budget right_budget with
      | None => None
      | Some (removed_chars, left_part, right_part) =>
          let marker :=
            format_truncation_marker use_tokens
              (removed_units use_tokens (sat_sub total_bytes max_bytes) removed_chars) in
          Some (assemble_truncated_output left_part right_part marker)
      end.

Definition truncate_middle_chars (s : str) (max_bytes : Z) : option str :=
  truncate_with_byte_estimate s max_bytes false.

Definition truncate_middle_with_token_budget (s : str) (max_tokens : Z)
  : option (str * option Z) :=
  if is_empty s then Some ([], None)
  else if (0 <? max_tokens) && (slen s <=? approx_bytes_for_tokens max_tokens) then Some (s, None)
  else
    match truncate_with_byte_estimate s (approx_bytes_for_tokens max_tokens) true with
    | None => None
    | Some truncated =>
        let total_tokens := Z.min u64_max (approx_token_count s) in
        if truncated == s then Some (truncated, None) else Some (truncated, Some total_tokens)
    end.

(** ** protocol/src/protocol.rs: [TruncationPolicy] *)

Inductive TruncationPolicy := Bytes (bytes : Z) | Tokens (tokens : Z).

Definition token_budget (p : TruncationPolicy) : Z :=
  match p with
  | Bytes bytes => Z.min usize_max (approx_tokens_from_byte_count bytes)
  | Tokens tokens => tokens
  end.

Definition byte_budget (p : TruncationPolicy) : Z :=
  match p with Bytes bytes => bytes | Tokens tokens => approx_bytes_for_tokens tokens end.

(** ** utils/output-truncation/src/lib.rs *)

Definition truncate_text (content : str) (policy : TruncationPolicy) : option str :=
  match policy with
  | Bytes bytes => truncate_middle_chars content bytes
  | Tokens tokens => option_map fst (truncate_middle_with_token_budget content tokens)
  end.

Definition formatted_truncate_text (content : str) (policy : TruncationPolicy) : option str :=
  if slen content <=? byte_budget policy then Some content
  else
    let original_token_count := approx_token_count content in
    let total_lines := len (lines content) in
    match truncate_text content policy with
    | None => None
    | Some result =>
        Some (lit "Warning: truncated output (original token count: "
              ++ show_u64 original_token_count ++ lit ")" ++ [LF]
              ++ lit "Total output lines: " ++ show_u64 total_lines ++ [LF] ++ [LF] ++ result)
    end.

(** [FunctionCallOutputContentItem]; [ImageDetail] is carried along. *)
Inductive ContentItem (detail : Type) :=
| InputText (text : str)
| InputImage (image_url : str) (d : option detail)
| EncryptedContent (encrypted_content : str).
Arguments InputText {detail} text.
Arguments InputImage {detail} image_url d.
Arguments EncryptedContent {detail} encrypted_content.

Section Items.
Context {detail : Type}.
Notation item := (ContentItem detail).

Definition text_of (i : item) : option str :=
  match i with InputText text => Some text | _ => None end.
Definition is_text (i : item) : bool := is_some (text_of i).

(** The loop that joins the text segments with line feeds. *)
Fixpoint combine_loop (combined : str) (segments : list str) : str :=
  match segments with
  | [] => combined
  | text :: rest =>
      let combined := if is_empty combined then combined else combined ++ [LF] in
      combine_loop (combined ++ text) rest
  end.

Definition formatted_truncate_text_content_items_with_policy (items : list item)
    (policy : TruncationPolicy) : option (list item * option Z) :=
  let text_segments := omap text_of items in
  if is_empty text_segments then Some (items, None)
  else
    let combined := combine_loop [] text_segments in
    if slen combined <=? byte_budget policy then Some (items, None)
    else
      let original_token_count := approx_token_count combined in
      match formatted_truncate_text combined policy with
      | None => None
      | Some text =>
          Some (InputText text :: List.filter (fun i => negb (is_text i)) items,
                Some original_token_count)
      end.

Definition cost_of (policy : TruncationPolicy) (text : str) : Z :=
  match policy with Bytes _ => slen text | Tokens _ => approx_token_count text end.

Definition with_budget (policy : TruncationPolicy) (n : Z) : TruncationPolicy :=
  match policy with Bytes _ => Bytes n | Tokens _ => Tokens n end.

(** The loop over the items: output so far, remaining budget, omitted count. *)
Fixpoint items_loop (policy : TruncationPolicy) (items out : list item)
    (remaining_budget omitted : Z) : option (list item * Z) :=
  match items with
  | [] => Some (out, omitted)
  | InputText text :: rest =>
      if remaining_budget =? 0 then items_loop policy rest out remaining_budget (omitted + 1)
      else
        let cost := cost_of policy text in
        if cost <=? remaining_budget then
          items_loop policy rest (out ++ [InputText text]) (sat_sub remaining_budget cost) omitted
        else
          match truncate_text text (with_budget policy remaining_budget) with
          | None => None
          | Some snippet =>
              if is_empty snippet then items_loop policy rest out 0 (omitted + 1)
              else items_loop policy rest (out ++ [InputText snippet]) 0 omitted
          end
  | i :: rest => items_loop policy rest (out ++ [i]) remaining_budget omitted
  end.

Definition initial_budget (policy : TruncationPolicy) : Z :=
  match policy with Bytes _ => byte_budget policy | Tokens _ => token_budget policy end.

Definition truncate_function_output_items_with_policy (items : list item)
    (policy : TruncationPolicy) : option (list item) :=
  match items_loop policy items [] (initial_budget policy) 0 with
  | None => None
  | Some (out, omitted_text_items) =>
      if 0 <? omitted_text_items then
        Some (out ++ [InputText (lit "[omitted " ++ show_u64 omitted_text_items ++ lit " text items ...]")])
      else Some out
  end.

End Items.

Definition approx_tokens_from_byte_count_i64 (bytes : Z) : Z :=
  if bytes <=? 0 then 0
  else Z.min i64_max (approx_tokens_from_byte_count (Z.min usize_max bytes)).

(** ** Splitting *)

Lemma slen_app s t : slen (s ++ t) = slen s + slen t.
Proof. unfold slen. rewrite str_len_app. lia. Qed.

Lemma slen_nonneg s : 0 <= slen s.
Proof. unfold slen. lia. Qed.

Lemma len_le_slen s : len s <= slen s.
Proof. unfold len, slen. pose proof (length_le_str_len s). lia. Qed.

(** Once the prefix is full and the suffix has begun, nothing changes. *)
Lemma split_loop_suffix b target idx st s :
  b < idx -> target <= idx -> suffix_started st = true ->
  split_loop b target idx st s = st.
Proof.
  revert idx. induction s as [|c s IH]; intros idx Hb Ht Hs; simpl; [done|].
  pose proof (len_utf8_pos c).
  destruct (Z.leb_spec (idx + Z.of_nat (len_utf8 c)) b); [lia|].
  destruct (Z.leb_spec target idx); [|lia]. rewrite Hs. simpl. apply IH; [lia..|done].
Qed.

(** After the prefix: the chars before the target are removed, and the suffix
    starts at the first char at or after it. *)
Lemma split_loop_middle b target idx pe ss n s :
  0 <= n -> n + len s <= usize_max -> ss = idx + slen s -> b < idx ->
  exists mid after,
    s = mid ++ after /\
    split_loop b target idx (mkSplit pe ss n false) s =
      mkSplit pe (idx + slen mid) (n + len mid) (negb (is_empty after)) /\
    (after = [] \/ target <= idx + slen mid) /\
    (forall m c, mid = m ++ [c] -> idx + slen m < target).
Proof.
  revert idx n. induction s as [|c s IH]; intros idx n Hn Hmax Hss Hb; simpl.
  - exists [], []. split_and!; [done| |by left|by intros [|??]].
    simpl. f_equal; unfold slen, len in *; simpl in *; lia.
  - pose proof (len_utf8_pos c).
    destruct (Z.leb_spec (idx + Z.of_nat (len_utf8 c)) b); [lia|].
    destruct (Z.leb_spec target idx) as [Ht|Ht]; simpl.
    + exists [], (c :: s). rewrite split_loop_suffix by (try done; lia).
      split_and!; [done| | |by intros [|??]]; unfold slen, len; simpl; [f_equal; lia|right; lia].
    + rewrite sat_add_exact by (unfold len in *; simpl in *; lia).
      destruct (IH (idx + Z.of_nat (len_utf8 c)) (n + 1)) as (mid & after & -> & E & Ha & Hm);
        [unfold slen, len in *; simpl in *; lia..|].
      exists (c :: mid), after. rewrite E.
      replace (slen (c :: mid)) with (Z.of_nat (len_utf8 c) + slen mid) by (unfold slen; simpl; lia).
      split_and!; [done|f_equal; unfold len; simpl; lia|destruct Ha; [by left|right; lia]|].
      intros [|c' m] d Hd; simplify_eq/=; [unfold slen; simpl; lia|].
      specialize (Hm m d eq_refl). unfold slen in *. simpl. lia.
Qed.

(** The whole loop: prefix, removed middle, suffix. *)
Lemma split_loop_spec b target idx ss s :
  len s <= usize_max -> ss = idx + slen s ->
  exists before mid after st,
    s = before ++ mid ++ after /\
    split_loop b target idx (mkSplit idx ss 0 false) s = st /\
    prefix_end st = idx + slen before /\ suffix_start st = idx + slen before + slen mid /\
    removed_chars st = len mid /\
    (before = [] \/ idx + slen before <= b) /\
    (forall c t, mid ++ after = c :: t -> b < idx + slen before + Z.of_nat (len_utf8 c)) /\
    (after = [] \/ target <= idx + slen before + slen mid) /\
    (forall m c, mid = m ++ [c] -> idx + slen before + slen m < target).
Proof.
  revert idx. induction s as [|c s IH]; intros idx Hmax Hss.
  { exists [], [], [], (mkSplit idx ss 0 false). unfold slen in *. simpl in *.
    split_and!; try done; try lia; try (by left). by intros [|??]. }
  pose proof (len_utf8_pos c).
  destruct (Z.leb_spec (idx + Z.of_nat (len_utf8 c)) b) as [Hfit|Hfull].
  - destruct (IH (idx + Z.of_nat (len_utf8 c)))
      as (before & mid & after & st & -> & E & Hp & Hs & Hr & Hb & Hbm & Ha & Hm);
      [unfold len, slen in *; simpl in *; lia..|].
    exists (c :: before), mid, after, st.
    replace (slen (c :: before)) with (Z.of_nat (len_utf8 c) + slen before) by (unfold slen; simpl; lia).
    split_and!; [done| |lia|lia|done| | |destruct Ha; [by left|right; lia]|].
    + simpl. destruct (Z.leb_spec (idx + Z.of_nat (len_utf8 c)) b); [done|lia].
    + right. destruct Hb as [->|]; unfold slen in *; simpl; lia.
    + intros d t Hd. specialize (Hbm d t Hd). lia.
    + intros m d Hd. specialize (Hm m d Hd). lia.
  - assert (Hb : b < idx + Z.of_nat (len_utf8 c)) by lia.
    simpl. destruct (Z.leb_spec (idx + Z.of_nat (len_utf8 c)) b); [lia|].
    destruct (Z.leb_spec target idx) as [Ht|Ht]; simpl.
    + exists [], [], (c :: s). eexists. rewrite split_loop_suffix by (try done; lia).
      split_and!; try done; unfold slen; simpl; try lia; try (by left); [|by intros [|??]].
      intros d t [= <- <-]. lia.
    + rewrite sat_add_exact by done.
      destruct (split_loop_middle b target (idx + Z.of_nat (len_utf8 c)) idx ss 1 s)
        as (mid & after & -> & E & Ha & Hm); [unfold len, slen in *; simpl in *; lia..|].
      exists [], (c :: mid), after. eexists. split_and!; [done|exact E|..]; simpl;
        try (by left); unfold slen, len in *; simpl in *; try lia.
      * intros d t [= <- <-]. lia.
      * destruct Ha; [by left|right; lia].
      * intros [|c' m] d Hd; simplify_eq/=; [lia|]. specialize (Hm m d eq_refl). lia.
Qed.

Lemma get_to_app s t : get_to (s ++ t) (slen s) = Some s.
Proof.
  unfold get_to, slen. rewrite Nat2Z.id, slice_to_app.
  by rewrite (proj2 (is_char_boundary_true _ _)) by eauto.
Qed.

Lemma get_from_app s t : get_from (s ++ t) (slen s) = Some t.
Proof.
  unfold get_from, slen. rewrite Nat2Z.id, slice_from_app.
  by rewrite (proj2 (is_char_boundary_true _ _)) by eauto.
Qed.

(** What the two halves of a split promise: they are the longest prefix and
    the longest disjoint suffix that fit the budgets. *)
Definition is_split (s : str) (b e : Z) (before mid after : str) : Prop :=
  s = before ++ mid ++ after /\ slen before <= b /\ slen after <= e /\
  (forall c t, mid ++ after = c :: t -> b < slen (before ++ [c])) /\
  (forall m c, mid = m ++ [c] -> e < slen (c :: after)).

Lemma slen_singleton c : slen [c] = Z.of_nat (len_utf8 c).
Proof. unfold slen. simpl. lia. Qed.

Lemma split_string_split s b e :
  allocatable s -> 0 <= b -> 0 <= e ->
  exists before mid after,
    split_string s b e = Some (len mid, before, after) /\ is_split s b e before mid after.
Proof.
  intros Hs Hb He. unfold split_string. destruct (is_empty s) eqn:E.
  { apply is_empty_true in E as ->. exists [], [], []. split; [done|].
    split_and!; try done. by intros [|??]. }
  assert (Hl : len s <= usize_max)
    by (pose proof (len_le_slen s); unfold allocatable, usize_max, i64_max in *; lia).
  destruct (split_loop_spec b (sat_sub (slen s) e) 0 (slen s) s)
    as (before & mid & after & st & Es & -> & Hp & Hss & Hr & Hbf & Hbm & Ha & Hm); [done|lia|].
  pose proof (slen_nonneg before). pose proof (slen_nonneg mid). pose proof (slen_nonneg after).
  exists before, mid, after. rewrite Hp, Hss, Hr.
  destruct (Z.ltb_spec (0 + slen before + slen mid) (0 + slen before)); [lia|].
  assert (Hlen : slen s = slen before + slen mid + slen after) by (rewrite Es, !slen_app; lia).
  rewrite !Z.add_0_l, <- slen_app. split.
  - rewrite Es at 1. rewrite get_to_app, Es, app_assoc, get_from_app. done.
  - split_and!; [done| | | |].
    + destruct Hbf as [->|]; [done|lia].
    + destruct Ha as [->|Ha]; [done|]. unfold sat_sub in Ha. lia.
    + intros c t Hc. rewrite slen_app, slen_singleton. specialize (Hbm c t Hc). lia.
    + intros m c ->. specialize (Hm m c eq_refl). unfold sat_sub in Hm.
      rewrite (slen_app [c] after : slen (c :: after) = _).
      pose proof (slen_nonneg m). rewrite (slen_app m [c]) in Hlen. lia.
Qed.

(** Splitting never slices inside a char; it returns the longest prefix and
    the longest disjoint suffix within their byte budgets, with the number of
    chars in between. *)
Theorem split_string_correct s b e :
  allocatable s -> 0 <= b -> 0 <= e ->
  exists before mid after,
    split_string s b e = Some (len mid, before, after) /\ is_split s b e before mid after.
Proof. apply split_string_split. Qed.

Lemma split_string_correct_witness :
  exists before mid after,
    split_string (lit "h" ++ [0xE9; 0x20AC]%N ++ lit "llo") 3 2 = Some (len mid, before, after) /\
    is_split (lit "h" ++ [0xE9; 0x20AC]%N ++ lit "llo") 3 2 before mid after.
Proof. apply split_string_correct; by vm_compute. Defined.

(** Text within the budget is returned unchanged; longer text becomes a
    prefix, a marker with the number of removed chars, and a suffix, the kept
    parts together within the budget. *)
Theorem truncate_middle_chars_correct s max :
  allocatable s -> 0 < max ->
  (slen s <= max /\ truncate_middle_chars s max = Some s) \/
  (max < slen s /\ exists before mid after,
     s = before ++ mid ++ after /\ slen before + slen after <= max /\ mid <> [] /\
     truncate_middle_chars s max = Some (before ++ format_truncation_marker false (len mid) ++ after)).
Proof.
  intros Hs Hm. unfold truncate_middle_chars, truncate_with_byte_estimate.
  destruct (is_empty s) eqn:E.
  { apply is_empty_true in E as ->. left. split; [|done]. change (slen []) with 0. lia. }
  destruct (Z.eqb_spec max 0); [lia|]. destruct (Z.leb_spec (slen s) max) as [|Hlong]; [by left|].
  right. split; [done|]. unfold split_budget.
  assert (0 <= max / 2) by (apply Z.div_pos; lia).
  assert (max / 2 <= max) by (apply Z.div_le_upper_bound; lia).
  destruct (split_string_split s (max / 2) (max - max / 2))
    as (before & mid & after & -> & Es & Hb & Ha & _ & _); [done|lia..|].
  exists before, mid, after. split_and!; [done|lia| |].
  - intros ->. rewrite Es, !slen_app in Hlong. change (slen []) with 0 in Hlong. lia.
  - unfold assemble_truncated_output, removed_units. do 4 f_equal. apply Z.min_r.
    pose proof (len_le_slen mid). pose proof (slen_nonneg before). pose proof (slen_nonneg after).
    unfold allocatable in Hs. rewrite Es, !slen_app in Hs. unfold u64_max, i64_max in *. lia.
Qed.

Lemma truncate_middle_chars_correct_witness :
  (slen (lit "abcdefgh") <= 5 /\ truncate_middle_chars (lit "abcdefgh") 5 = Some (lit "abcdefgh")) \/
  (5 < slen (lit "abcdefgh") /\ exists before mid after,
     lit "abcdefgh" = before ++ mid ++ after /\ slen before + slen after <= 5 /\ mid <> [] /\
     truncate_middle_chars (lit "abcdefgh") 5 =
       Some (before ++ format_truncation_marker false (len mid) ++ after)).
Proof. apply truncate_middle_chars_correct; by vm_compute. Defined.

(** ** Totality *)

Lemma truncate_estimate_total s max ut :
  allocatable s -> 0 <= max -> is_Some (truncate_with_byte_estimate s max ut).
Proof.
  intros Hs Hm. unfold truncate_with_byte_estimate.
  destruct (is_empty s); [eauto|]. destruct (max =? 0); [eauto|].
  destruct (slen s <=? max); [eauto|]. unfold split_budget.
  assert (0 <= max / 2) by (apply Z.div_pos; lia).
  assert (max / 2 <= max) by (apply Z.div_le_upper_bound; lia).
  destruct (split_string_split s (max / 2) (max - max / 2))
    as (before & mid & after & -> & _); [done|lia..|eauto].
Qed.

Definition valid_policy (p : TruncationPolicy) : Prop :=
  match p with Bytes n | Tokens n => usize n end.

Lemma truncate_text_total s p : allocatable s -> valid_policy p -> is_Some (truncate_text s p).
Proof.
  intros Hs Hp. destruct p as [n|n]; simpl in *.
  - apply truncate_estimate_total; [done|apply Hp].
  - unfold truncate_middle_with_token_budget. destruct (is_empty s); [eauto|].
    destruct (_ && _); [eauto|].
    destruct (truncate_estimate_total s (approx_bytes_for_tokens n) true) as [t ->]; [done| |].
    + destruct Hp. unfold approx_bytes_for_tokens, sat_mul, APPROX_BYTES_PER_TOKEN, usize_max. lia.
    + destruct (t == s); eauto.
Qed.

(** ** Tokens and bytes *)

(** The byte budget of [t] tokens admits exactly the texts of at most [t]
    approximate tokens, saturation included. *)
Lemma token_budget_adjoint s t :
  allocatable s -> usize t ->
  (slen s <= approx_bytes_for_tokens t <-> approx_token_count s <= t).
Proof.
  intros Hs Ht. unfold allocatable, usize, approx_bytes_for_tokens, approx_token_count in *.
  pose proof (slen_nonneg s).
  unfold sat_mul, sat_add, sat_sub, APPROX_BYTES_PER_TOKEN, usize_max, i64_max in *.
  change (Z.max 0 (4 - 1)) with 3. rewrite (Z.min_r _ (slen s + 3)) by lia. split; intros ?.
  - apply Z.lt_succ_r, Z.div_lt_upper_bound; lia.
  - pose proof (Z.div_mod (slen s + 3) 4). pose proof (Z.mod_pos_bound (slen s + 3) 4). lia.
Qed.

Section ItemFacts.
Context {detail : Type}.
Notation item := (ContentItem detail).

Definition cost_of_item (p : TruncationPolicy) (i : item) : Z :=
  match i with InputText t => cost_of p t | _ => 0 end.

Definition total_cost (p : TruncationPolicy) (items : list item) : Z :=
  foldr (fun i n => cost_of_item p i + n) 0 items.

Definition non_text : list item -> list item := List.filter (fun i => negb (is_text i)).

Lemma cost_nonneg p t : allocatable t -> 0 <= cost_of p t.
Proof.
  intros _. pose proof (slen_nonneg t). destruct p; simpl; [done|].
  unfold approx_token_count, sat_add, sat_sub, APPROX_BYTES_PER_TOKEN, usize_max.
  apply Z.div_pos; lia.
Qed.

Lemma cost_pos p t : allocatable t -> t <> [] -> 0 < cost_of p t.
Proof.
  intros Ha Hne. assert (Hs : 0 < slen t).
  { unfold slen. destruct (str_len t) eqn:E; [by apply str_len_0 in E|lia]. }
  destruct p; simpl; [done|]. unfold allocatable in Ha.
  unfold approx_token_count, sat_add, sat_sub, APPROX_BYTES_PER_TOKEN, usize_max, i64_max in *.
  apply Z.div_str_pos; lia.
Qed.

Lemma with_budget_valid p n : usize n -> valid_policy (with_budget p n).
Proof. by destruct p. Qed.

Definition good_items (items : list item) : Prop :=
  Forall (fun i => forall t, i = InputText t -> allocatable t) items.

Lemma non_text_app a b : non_text (a ++ b) = non_text a ++ non_text b.
Proof. apply List.filter_app. Qed.

(** The loop terminates without a panic and keeps every non-text item. *)
Lemma items_loop_non_text p items out rem om :
  good_items items -> usize rem -> 0 <= om ->
  exists out' om', items_loop p items out rem om = Some (out', om') /\ om <= om' /\
    non_text out' = non_text out ++ non_text items.
Proof.
  intros Hg. revert out rem om. induction Hg as [|i items Hi Hg IH]; intros out rem om Hr Hom; simpl.
  { exists out, om. split_and!; [done|lia|by rewrite app_nil_r]. }
  assert (H0 : usize 0) by done.
  destruct i as [t|u d|c]; simpl.
  - destruct (rem =? 0); [destruct (IH out rem (om + 1)) as (o & n & -> & ? & Ho); [done|lia|exists o, n; auto with lia]|].
    pose proof (cost_nonneg p t (Hi t eq_refl)).
    destruct (Z.leb_spec (cost_of p t) rem).
    + destruct (IH (out ++ [InputText t]) (sat_sub rem (cost_of p t)) om) as (o & n & -> & ? & Ho);
        [unfold usize, sat_sub in *; lia|done|].
      exists o, n. split_and!; [done..|]. by rewrite Ho, non_text_app, app_nil_r.
    + destruct (truncate_text_total t (with_budget p rem)) as [snip ->];
        [by apply Hi|by apply with_budget_valid|].
      destruct (is_empty snip).
      * destruct (IH out 0 (om + 1)) as (o & n & -> & ? & Ho); [done|lia|exists o, n; auto with lia].
      * destruct (IH (out ++ [InputText snip]) 0 om) as (o & n & -> & ? & Ho); [done..|].
        exists o, n. split_and!; [done..|]. by rewrite Ho, non_text_app, app_nil_r.
  - destruct (IH (out ++ [InputImage u d]) rem om) as (o & n & -> & ? & Ho); [done..|].
    exists o, n. split_and!; [done..|]. by rewrite Ho, non_text_app, <- app_assoc.
  - destruct (IH (out ++ [EncryptedContent c]) rem om) as (o & n & -> & ? & Ho); [done..|].
    exists o, n. split_and!; [done..|]. by rewrite Ho, non_text_app, <- app_assoc.
Qed.

Lemma initial_budget_usize p : valid_policy p -> usize (initial_budget p).
Proof. by destruct p. Qed.

(** Truncating the items of a tool output never panics and never drops,
    reorders or alters an image or encrypted item. *)
Theorem items_keep_non_text (items : list item) p :
  good_items items -> valid_policy p ->
  exists out, truncate_function_output_items_with_policy items p = Some out /\
    non_text out = non_text items.
Proof.
  intros Hg Hp. unfold truncate_function_output_items_with_policy.
  destruct (items_loop_non_text p items [] (initial_budget p) 0) as (out & om & -> & _ & Ho);
    [done|by apply initial_budget_usize|done|].
  destruct (0 <? om); eexists; (split; [done|]); [|done].
  by rewrite non_text_app, app_nil_r, Ho.
Qed.

Lemma items_loop_fits p items out rem om :
  good_items items -> Forall (fun i => i <> InputText []) items ->
  total_cost p items <= rem ->
  items_loop p items out rem om = Some (out ++ items, om).
Proof.
  intros Hg Hne. revert out rem. induction Hg as [|i items Hi Hg IH];
    intros out rem Hc; simpl in *; [by rewrite app_nil_r|].
  apply Forall_cons in Hne as [Hn Hne].
  destruct i as [t|u d|c]; simpl in *; [|rewrite IH, <- app_assoc by (done || lia); done..].
  assert (Hnn : 0 <= total_cost p items).
  { clear -Hg. induction Hg as [|i items Hi _ IH]; simpl; [done|].
    destruct i as [t| |]; simpl; try lia. pose proof (cost_nonneg p t (Hi t eq_refl)). lia. }
  assert (Hpos : 0 < cost_of p t) by (apply cost_pos; [by apply Hi|by intros ->]).
  destruct (Z.eqb_spec rem 0); [lia|]. destruct (Z.leb_spec (cost_of p t) rem); [|lia].
  rewrite IH, <- app_assoc by (try done; unfold sat_sub; lia). done.
Qed.

(** Items whose texts are not empty and fit the budget together pass
    through unchanged, under either policy. *)
Theorem items_within_budget_unchanged (items : list item) p :
  good_items items -> Forall (fun i => i <> InputText []) items ->
  total_cost p items <= initial_budget p ->
  truncate_function_output_items_with_policy items p = Some items.
Proof.
  intros Hg Hne Hc. unfold truncate_function_output_items_with_policy.
  by rewrite items_loop_fits.
Qed.

End ItemFacts.

Definition sample : list (ContentItem unit) :=
  [InputText (lit "hello"); InputImage (lit "u") None; InputText (lit "world!")].

Lemma good_sample : good_items sample.
Proof. repeat constructor; intros ? [=]; subst; by vm_compute. Qed.

Lemma items_keep_non_text_witness :
  exists out, truncate_function_output_items_with_policy sample (Bytes 7) = Some out /\
    non_text out = non_text sample.
Proof. apply items_keep_non_text; [apply good_sample|by vm_compute]. Defined.

Lemma items_within_budget_unchanged_witness :
  truncate_function_output_items_with_policy sample (Tokens 4) = Some sample.
Proof.
  apply items_within_budget_unchanged; [apply good_sample| |by vm_compute].
  repeat constructor; discriminate.
Defined.

(** At the budget boundary an empty text item is not kept: it is replaced
    by an omission note although the texts fit the budget. *)
Theorem empty_text_omitted_at_budget :
  truncate_function_output_items_with_policy
    [InputText (lit "hello"); InputText []] (Bytes 5) =
  Some [@InputText unit (lit "hello"); InputText (lit "[omitted 1 text items ...]")].
Proof. by vm_compute. Qed.

Close Scope Z_scope.
End Truncate.
