(* ===== verification/StreamText.v ===== *)
(** The interface of the streaming text parsers
    (utils/stream-parser/src/stream_text.rs) and what a client may rely on:
    how text is cut into chunks is not observable. *)

From stdpp Require Import base list option numbers strings.
From S2P Require Import Prelude RustStr.

Module StreamText.

Record StreamTextChunk (T : Type) := mkChunkOf { visible_text : str; extracted : list T }.
Arguments mkChunkOf {T} _ _.
Arguments visible_text {T} _.
Arguments extracted {T} _.

(** [StreamTextChunk::default]. *)
Definition chunk_default {T} : StreamTextChunk T := mkChunkOf [] [].

Definition chunk_is_empty {T} (c : StreamTextChunk T) : bool :=
  is_empty (visible_text c) && is_empty (extracted c).

(** Accumulating two results in arrival order. *)
Definition chunk_app {T} (a b : StreamTextChunk T) : StreamTextChunk T :=
  mkChunkOf (visible_text a ++ visible_text b) (extracted a ++ extracted b).

Lemma chunk_app_assoc {T} (a b c : StreamTextChunk T) :
  chunk_app a (chunk_app b c) = chunk_app (chunk_app a b) c.
Proof. unfold chunk_app. simpl. by rewrite !app_assoc. Qed.

Lemma chunk_app_nil_l {T} (a : StreamTextChunk T) : chunk_app chunk_default a = a.
Proof. by destruct a. Qed.

Lemma chunk_app_nil_r {T} (a : StreamTextChunk T) : chunk_app a chunk_default = a.
Proof. destruct a. unfold chunk_app. simpl. by rewrite !app_nil_r. Qed.

(** [trait StreamTextParser]: [P] is the parser state, [T] the payload. *)
Class StreamTextParser (P T : Type) := {
  push_str : P -> str -> P * StreamTextChunk T;
  finish : P -> P * StreamTextChunk T;
}.

(** Feeding a list of chunks. *)
Fixpoint push_all {P T} `{StreamTextParser P T} (p : P) (cs : list str) : P * StreamTextChunk T :=
  match cs with
  | [] => (p, chunk_default)
  | c :: cs' =>
      let '(p, o) := push_str p c in
      let '(p, o') := push_all p cs' in
      (p, chunk_app o o')
  end.

(** The whole life of a parser: the chunks, then the end of the stream. *)
Definition parse_all {P T} `{StreamTextParser P T} (p : P) (cs : list str) : StreamTextChunk T :=
  let '(p, o) := push_all p cs in chunk_app o (finish p).2.

(** When two results mean the same to a client: equal visible text, and
    payload lists that [same_payloads] identifies. *)
Class Payloads (T : Type) := {
  same_payloads : relation (list T);
  same_equiv :: Equivalence same_payloads;
  same_app :: Proper (same_payloads ==> same_payloads ==> same_payloads) app;
}.

Definition same_chunk {T} `{Payloads T} : relation (StreamTextChunk T) := fun a b =>
  visible_text a = visible_text b /\ same_payloads (extracted a) (extracted b).

#[export] Instance same_chunk_equiv {T} `{Payloads T} : Equivalence same_chunk.
Proof.
  split.
  - by intros a.
  - intros a b [E E']. by split.
  - intros a b c [E E'] [F F']. split; [by rewrite E|by rewrite E'].
Qed.

#[export] Instance chunk_app_proper {T} `{Payloads T} :
  Proper (same_chunk ==> same_chunk ==> same_chunk) chunk_app.
Proof. intros a b [E E'] c d [F F']. split; simpl; [by rewrite E, F|by rewrite E', F']. Qed.

(** What the clients of a parser rely on: on the states satisfying [valid],
    two pushes are one push of the concatenation. *)
Class ChunkInvariant (P T : Type) `{StreamTextParser P T} `{Payloads T} := {
  valid : P -> Prop;
  push_valid : forall p c, valid p -> valid (push_str p c).1;
  push_app : forall p a b, valid p ->
    let '(p1, o1) := push_str p a in
    let '(p2, o2) := push_str p1 b in
    (push_str p (a ++ b)).1 = p2 /\ same_chunk (push_str p (a ++ b)).2 (chunk_app o1 o2);
}.

Section Clients.
Context {P T : Type} `{HP : StreamTextParser P T} `{HT : Payloads T} `{HC : !ChunkInvariant P T}.

Lemma push_all_valid p cs : valid p -> valid (push_all p cs).1.
Proof.
  revert p. induction cs as [|c cs IH]; intros p Hp; simpl; [done|].
  pose proof (push_valid p c Hp) as Hv. destruct (push_str p c) as [p1 o1]. simpl in Hv.
  specialize (IH p1 Hv). by destruct (push_all p1 cs).
Qed.

(** A non-empty sequence of pushes is one push. *)
Lemma push_all_join p c cs : valid p ->
  (push_all p (c :: cs)).1 = (push_str p (mjoin (c :: cs))).1 /\
  same_chunk (push_all p (c :: cs)).2 (push_str p (mjoin (c :: cs))).2.
Proof.
  revert p c. induction cs as [|d cs IH]; intros p c Hp.
  - simpl. rewrite app_nil_r. destruct (push_str p c). by rewrite chunk_app_nil_r.
  - change (mjoin (c :: d :: cs)) with (c ++ mjoin (d :: cs)).
    pose proof (push_app p c (mjoin (d :: cs)) Hp) as Ha.
    pose proof (push_valid p c Hp) as Hv. cbn [push_all].
    destruct (push_str p c) as [p1 o1]. simpl in Hv. destruct (IH p1 d Hv) as [E1 E2].
    cbn [push_all] in E1, E2.
    destruct (push_str p1 (mjoin (d :: cs))) as [p2 o2]. destruct Ha as [-> ->].
    destruct (let '(p3, o3) := push_str p1 d in _) as [p4 o4]. simpl in *. by rewrite E1, E2.
Qed.

(** Two ways of cutting the same text give the same result. *)
Lemma chunking_irrelevant p cs cs' :
  valid p -> cs <> [] -> cs' <> [] -> mjoin cs = mjoin cs' ->
  (push_all p cs).1 = (push_all p cs').1 /\ same_chunk (push_all p cs).2 (push_all p cs').2.
Proof.
  intros Hp Hc Hc' E. destruct cs as [|c cs]; [done|]. destruct cs' as [|c' cs']; [done|].
  destruct (push_all_join p c cs Hp) as [-> ->]. destruct (push_all_join p c' cs' Hp) as [-> ->].
  by rewrite E.
Qed.

Lemma parse_all_chunking p cs cs' :
  valid p -> cs <> [] -> cs' <> [] -> mjoin cs = mjoin cs' ->
  same_chunk (parse_all p cs) (parse_all p cs').
Proof.
  intros Hp Hc Hc' E. unfold parse_all.
  destruct (chunking_irrelevant p cs cs') as [E1 E2]; [done..|].
  destruct (push_all p cs), (push_all p cs'). simpl in *. by rewrite E1, E2.
Qed.

End Clients.

(** Payloads compared by equality. *)
Definition eq_payloads T : Payloads T :=
  {| same_payloads := eq; same_equiv := eq_equivalence; same_app := ltac:(by intros ? ? -> ? ? ->) |}.

End StreamText.
