(* ===== verification/InlineTag.v ===== *)
(** Hidden inline tags in streamed text: the generic parser
    (utils/stream-parser/src/inline_hidden_tag.rs) and the citation parser
    built on it (utils/stream-parser/src/citation.rs). *)

From stdpp Require Import base list option numbers strings.
From S2P Require Import Prelude RustStr StreamText.

Module InlineTag.
Import StreamText.

(** ** Data *)

Record ExtractedInlineTag (T : Type) := mkExtracted { tag : T; content : str }.
Arguments mkExtracted {T} _ _.
Arguments tag {T} _.
Arguments content {T} _.

Record InlineTagSpec (T : Type) := mkSpec { spec_tag : T; open : str; close : str }.
Arguments mkSpec {T} _ _ _.
Arguments spec_tag {T} _.
Arguments open {T} _.
Arguments close {T} _.

Record ActiveTag (T : Type) := mkActive { active_tag : T; active_close : str; active_content : str }.
Arguments mkActive {T} _ _ _.
Arguments active_tag {T} _.
Arguments active_close {T} _.
Arguments active_content {T} _.

Record InlineHiddenTagParser (T : Type) := mkParser {
  specs : list (InlineTagSpec T);
  pending : str;
  active : option (ActiveTag T);
}.
Arguments mkParser {T} _ _ _.
Arguments specs {T} _.
Arguments pending {T} _.
Arguments active {T} _.

(** The candidates for the next opening delimiter are compared by position,
    then longest first, then by index. *)
Definition then_with (a b : comparison) : comparison := match a with Eq => b | _ => a end.

Definition candidate_cmp (a b : nat * nat * nat) : comparison :=
  let '(pos_a, len_a, idx_a) := a in
  let '(pos_b, len_b, idx_b) := b in
  then_with (pos_a ?= pos_b)%nat (then_with (len_b ?= len_a)%nat (idx_a ?= idx_b)%nat).

(** [Iterator::min_by]: the first of the minimal elements. *)
Fixpoint min_by {A} (cmp : A -> A -> comparison) (l : list A) : option A :=
  match l with
  | [] => None
  | x :: l' =>
      match min_by cmp l' with
      | None => Some x
      | Some y => match cmp x y with Gt => Some y | _ => Some x end
      end
  end.

(** The reversed loop of [longest_suffix_prefix_len], from [k] down to 1. *)
Fixpoint suffix_prefix_loop (s needle : str) (k : nat) : nat :=
  match k with
  | 0 => 0
  | S k' =>
      if is_char_boundary needle k && ends_with (slice_to k needle) s then k
      else suffix_prefix_loop s needle k'
  end.

Definition longest_suffix_prefix_len (s needle : str) : nat :=
  suffix_prefix_loop s needle (Nat.min (str_len s) (str_len needle - 1)).

Section Parser.
Context {T : Type}.
Notation spec := (InlineTagSpec T).
Notation parser := (InlineHiddenTagParser T).
Notation chunk := (StreamTextChunk (ExtractedInlineTag T)).

(** [InlineHiddenTagParser::new]; [None] where an assertion fails. *)
Definition new (specs : list spec) : option parser :=
  if is_empty specs then None
  else if forallb (fun s => negb (is_empty (open s)) && negb (is_empty (close s))) specs
  then Some (mkParser specs [] None)
  else None.

Definition find_next_open (specs : list spec) (pending : str) : option (nat * nat) :=
  let candidates :=
    omap (fun '(idx, s) =>
            option_map (fun pos => (pos, str_len (open s), idx)) (find (open s) pending))
      (imap pair specs) in
  option_map (fun '(pos, _, idx) => (pos, idx)) (min_by candidate_cmp candidates).

Definition max_open_prefix_suffix_len (specs : list spec) (pending : str) : nat :=
  foldr Nat.max 0 (List.map (fun s => longest_suffix_prefix_len pending (open s)) specs).

(** [drain_visible_to_suffix_match]: the visible text and the new pending. *)
Definition drain_visible_to_suffix_match (pending : str) (keep_suffix_len : nat) : str * str :=
  let take := str_len pending - keep_suffix_len in
  if take =? 0 then ([], pending) else (slice_to take pending, slice_from take pending).

(** The [loop] of [push_str].  Each [continue] consumes a delimiter; [None]
    means the fuel ran out. *)
Fixpoint push_loop (fuel : nat) (specs : list spec) (pending : str) (active : option (ActiveTag T))
    (out : chunk) : option (parser * chunk) :=
  match fuel with
  | 0 => None
  | S fuel =>
      match active with
      | Some a =>
          match find (active_close a) pending with
          | Some close_idx =>
              let out :=
                mkChunkOf (visible_text out)
                  (extracted out ++
                   [mkExtracted (active_tag a) (active_content a ++ slice_to close_idx pending)]) in
              let pending := slice_from (close_idx + str_len (active_close a)) pending in
              push_loop fuel specs pending None out
          | None =>
              let keep := longest_suffix_prefix_len pending (active_close a) in
              let take := str_len pending - keep in
              if 0 <? take then
                Some (mkParser specs (slice_from take pending)
                        (Some (mkActive (active_tag a) (active_close a)
                                 (active_content a ++ slice_to take pending))), out)
              else Some (mkParser specs pending (Some a), out)
          end
      | None =>
          match find_next_open specs pending with
          | Some (open_idx, spec_idx) =>
              match specs !! spec_idx with
              | Some s =>
                  let out :=
                    mkChunkOf (visible_text out ++ slice_to open_idx pending) (extracted out) in
                  let pending := slice_from (open_idx + str_len (open s)) pending in
                  push_loop fuel specs pending (Some (mkActive (spec_tag s) (close s) [])) out
              | None => None
              end
          | None =>
              let '(visible, rest) :=
                drain_visible_to_suffix_match pending (max_open_prefix_suffix_len specs pending) in
              Some (mkParser specs rest None,
                    mkChunkOf (visible_text out ++ visible) (extracted out))
          end
      end
  end.

(** One unit of fuel per pending char and one for the last iteration. *)
Definition push_fuel (p : str) : nat := S (length p).

Definition inline_push_str (p : parser) (text : str) : parser * chunk :=
  let pending := pending p ++ text in
  match push_loop (push_fuel pending) (specs p) pending (active p) chunk_default with
  | Some r => r
  | None => (p, chunk_default)
  end.

Definition inline_finish (p : parser) : parser * chunk :=
  match active p with
  | Some a =>
      (mkParser (specs p) [] None,
       mkChunkOf [] [mkExtracted (active_tag a) (active_content a ++ pending p)])
  | None => (mkParser (specs p) [] None, mkChunkOf (pending p) [])
  end.

#[export] Instance inline_parser : StreamTextParser parser (ExtractedInlineTag T) := {|
  push_str := inline_push_str;
  finish := inline_finish;
|}.

End Parser.

(** ** citation.rs *)

Inductive CitationTag := Citation.

Definition CITATION_OPEN : str := lit "<oai-mem-citation>".
Definition CITATION_CLOSE : str := lit "</oai-mem-citation>".

Record CitationStreamParser := mkCitation { inner : InlineHiddenTagParser CitationTag }.

Definition citation_specs : list (InlineTagSpec CitationTag) :=
  [mkSpec Citation CITATION_OPEN CITATION_CLOSE].

Definition citation_new : CitationStreamParser :=
  mkCitation (default (mkParser [] [] None) (new citation_specs)).

Definition citation_chunk (c : StreamTextChunk (ExtractedInlineTag CitationTag))
  : StreamTextChunk str :=
  mkChunkOf (visible_text c) (List.map content (extracted c)).

Definition citation_push_str (p : CitationStreamParser) (text : str)
  : CitationStreamParser * StreamTextChunk str :=
  let '(i, c) := inline_push_str (inner p) text in (mkCitation i, citation_chunk c).

Definition citation_finish (p : CitationStreamParser) : CitationStreamParser * StreamTextChunk str :=
  let '(i, c) := inline_finish (inner p) in (mkCitation i, citation_chunk c).

#[export] Instance citation_parser : StreamTextParser CitationStreamParser str := {|
  push_str := citation_push_str;
  finish := citation_finish;
|}.

Definition strip_citations (text : str) : str * list str :=
  let '(p, out) := citation_push_str citation_new text in
  let tail := (citation_finish p).2 in
  (visible_text out ++ visible_text tail, extracted out ++ extracted tail).

Example strip_ex : strip_citations (lit "a<oai-mem-citation>b</oai-mem-citation>c<oai-mem-citation>d")
  = (lit "ac", [lit "b"; lit "d"]).
Proof. by vm_compute. Qed.
End InlineTag.
