(* ===== verification/InlineTagFacts.v ===== *)
(** Theorems about hidden inline tags: the streaming parser terminates, how
    the text is cut into chunks is not observable, and the citation parser
    inverts the rendering of text with citations. *)

From stdpp Require Import base list option numbers strings sets.
From S2P Require Import Prelude RustStr StreamText InlineTag.

Module InlineTagFacts.
Import StreamText InlineTag.

(** ** Scanning for delimiters *)

(** [w] is a suffix of [p] and a proper prefix of the delimiter [d]. *)
Definition psuf (d p w : str) : Prop := (exists t, p = t ++ w) /\ exists r, r <> [] /\ d = w ++ r.

Lemma suffix_prefix_loop_spec s d k m :
  suffix_prefix_loop s d k = m ->
  m <= k /\
  (m = 0 \/ is_char_boundary d m = true /\ ends_with (slice_to m d) s = true) /\
  forall j, m < j <= k -> is_char_boundary d j && ends_with (slice_to j d) s = false.
Proof.
  intros <-. induction k as [|k IH]; cbn [suffix_prefix_loop].
  { split_and!; [lia|by left|lia]. }
  destruct (is_char_boundary d (S k) && ends_with (slice_to (S k) d) s) eqn:E.
  - apply andb_true_iff in E as [? ?]. split_and!; [lia|by right|lia].
  - destruct IH as (Hle & Hm & Hj). split_and!; [lia|done|].
    intros j Hj'. destruct (decide (j = S k)) as [->|]; [done|]. apply Hj. lia.
Qed.

Lemma psuf_str_len d p w : psuf d p w -> str_len w <= Nat.min (str_len p) (str_len d - 1).
Proof.
  intros [[t ->] (r & Hr & ->)]. rewrite !str_len_app.
  destruct (str_len r) eqn:E; [by apply str_len_0 in E|lia].
Qed.

Lemma psuf_test d p w :
  psuf d p w -> is_char_boundary d (str_len w) && ends_with (slice_to (str_len w) d) p = true.
Proof.
  intros [[t ->] (r & _ & ->)]. rewrite slice_to_app. apply andb_true_iff. split.
  - apply is_char_boundary_true. eauto.
  - apply ends_with_true. eauto.
Qed.

(** [longest_suffix_prefix_len] measures the longest such suffix. *)
Lemma longest_suffix_prefix_len_spec p d :
  d <> [] ->
  exists w, longest_suffix_prefix_len p d = str_len w /\ psuf d p w /\
    forall w', psuf d p w' -> str_len w' <= str_len w.
Proof.
  intros Hd. unfold longest_suffix_prefix_len. set (k := Nat.min _ _).
  destruct (suffix_prefix_loop_spec p d k _ eq_refl) as (Hle & Hm & Hmax).
  set (m := suffix_prefix_loop p d k) in *. clearbody m.
  assert (Hw : exists w, m = str_len w /\ psuf d p w).
  { destruct Hm as [->|[Hb He]].
    - exists []. split; [done|]. split; [exists p; by rewrite app_nil_r|]. by exists d.
    - apply is_char_boundary_true in Hb as (a & r & -> & ->). rewrite slice_to_app in He.
      apply ends_with_true in He as [t ->]. exists a. split; [done|]. split; [eauto|].
      exists r. split; [|done]. intros ->. unfold k in Hle. rewrite app_nil_r in *.
      assert (a <> []) by (by intros ->).
      destruct (str_len a) eqn:E; [by apply str_len_0 in E|lia]. }
  destruct Hw as (w & -> & Hp). exists w. split_and!; [done..|].
  intros w' Hw'. destruct (decide (str_len w' <= str_len w)); [done|].
  pose proof (psuf_test _ _ _ Hw') as Ht. rewrite Hmax in Ht; [done|].
  pose proof (psuf_str_len _ _ _ Hw'); unfold k; lia.
Qed.

Section Scan.
Context (ds : list str).

Inductive scan_result := Found (x : str) (i : nat) (y : str) | Partial (t w : str).

(** Delimiter [i] occurs in [p], after [x] and before [y]. *)
Definition occ (p x : str) (i : nat) (y : str) : Prop :=
  exists d, ds !! i = Some d /\ p = x ++ d ++ y.

Definition delim (i : nat) : str := default [] (ds !! i).

(** The order in which occurrences are preferred. *)
Definition preferred (x : str) (i : nat) (x' : str) (j : nat) : Prop :=
  length x < length x' \/
  length x = length x' /\
    (str_len (delim j) < str_len (delim i) \/
     str_len (delim j) = str_len (delim i) /\ i <= j).

Definition partial (p w : str) : Prop := exists d, d ∈ ds /\ psuf d p w.

(** What scanning a pending text must report: the preferred occurrence, or the
    longest suffix that may still become one. *)
Definition is_scan (p : str) (r : scan_result) : Prop :=
  match r with
  | Found x i y => occ p x i y /\ forall x' j y', occ p x' j y' -> preferred x i x' j
  | Partial t w =>
      p = t ++ w /\ (forall x i y, ~ occ p x i y) /\ partial p w /\
      forall w', partial p w' -> length w' <= length w
  end.

Lemma is_scan_unique p r r' : is_scan p r -> is_scan p r' -> r = r'.
Proof.
  destruct r as [x i y|t w], r' as [x' j y'|t' w'].
  - intros [Ho Hp] [Ho' Hp']. specialize (Hp _ _ _ Ho'). specialize (Hp' _ _ _ Ho).
    destruct Ho as (d & Hi & ->), Ho' as (d' & Hj & E). unfold preferred in *.
    assert (i = j) as <- by lia. assert (d = d') as <- by congruence.
    apply app_inj_1 in E as [<- E]; [|lia]. apply app_inj_1 in E as [_ <-]; done.
  - intros [Ho _] (_ & Hn & _). by destruct (Hn _ _ _ Ho).
  - intros (_ & Hn & _) [Ho _]. by destruct (Hn _ _ _ Ho).
  - intros (-> & _ & Hp & Hm) (E & _ & Hp' & Hm').
    specialize (Hm _ Hp'). specialize (Hm' _ Hp).
    apply app_inj_2 in E as [<- <-]; [done|lia].
Qed.

Hypothesis delims_nonempty : Forall (fun d => d <> []) ds.

Lemma occ_app p x i y b : occ p x i y -> occ (p ++ b) x i (y ++ b).
Proof. intros (d & Hd & ->). exists d. split; [done|]. by rewrite <- !app_assoc. Qed.

(** An occurrence in [p ++ b] lies in [p] or reaches into [b] across a
    delimiter prefix at the end of [p], or starts in [b]. *)
Lemma occ_app_inv p b x i y :
  occ (p ++ b) x i y ->
  (exists y', occ p x i y' /\ y = y' ++ b) \/
  (exists w r d, ds !! i = Some d /\ p = x ++ w /\ r <> [] /\ d = w ++ r /\ b = r ++ y) \/
  (exists x', x = p ++ x' /\ x' <> [] /\ occ b x' i y).
Proof.
  intros (d & Hd & E). apply app_eq_inv in E as [(k & -> & E)|(k & -> & ->)].
  - apply app_eq_inv in E as [(k' & -> & ->)|(k' & -> & ->)].
    + destruct (decide (k' = [])) as [->|Hk].
      * left. exists []. split; [|done]. exists k. rewrite app_nil_r in *. done.
      * right. left. by exists k, k', (k ++ k').
    + left. exists k'. split; [|done]. exists d. done.
  - destruct (decide (k = [])) as [->|Hk].
    + right. left. exists [], d, d. rewrite !app_nil_r. split_and!; try done.
      by apply (Forall_lookup_1 _ _ _ _ delims_nonempty Hd).
    + right. right. exists k. split_and!; [done|done|]. by exists d.
Qed.

Definition infix_free : Prop :=
  forall i j di dj a b, ds !! i = Some di -> ds !! j = Some dj -> dj = a ++ di ++ b -> di = dj.

(** A found delimiter stays the preferred one when more text arrives. *)
Lemma scan_found_app p x i y b :
  infix_free -> is_scan p (Found x i y) -> is_scan (p ++ b) (Found x i (y ++ b)).
Proof.
  intros Hf [Ho Hp]. split; [by apply occ_app|].
  intros x' j y' [(y'' & Ho' & _)|[(w & r & d & Hd & E & Hr & -> & ->)|(z & -> & Hz & _)]]%occ_app_inv.
  - by eapply Hp.
  - destruct Ho as (di & Hi & ->). left.
    symmetry in E. apply app_eq_inv in E as [(k & -> & E)|(k & -> & E)].
    + rewrite length_app. destruct k as [|c k]; [|simpl; lia].
      simpl in E. exfalso. subst w.
      pose proof (Hf i j di _ [] (y ++ r) Hi Hd ltac:(by rewrite <- app_assoc)) as Heq.
      apply (f_equal length) in Heq. rewrite !length_app in Heq.
      destruct r; [done|]. simpl in Heq. lia.
    + exfalso. subst w.
      pose proof (Hf i j di _ k (y ++ r) Hi Hd ltac:(by rewrite <- !app_assoc)) as Heq.
      apply (f_equal length) in Heq. rewrite !length_app in Heq.
      destruct r; [done|]. simpl in Heq. lia.
  - destruct Ho as (di & Hi & ->). left. rewrite !length_app. destruct z; [done|]. simpl. lia.
Qed.

(** After a partial match only the kept suffix matters. *)
Lemma scan_partial_occ t w b x i y :
  is_scan (t ++ w) (Partial t w) -> occ (t ++ w ++ b) x i y ->
  exists x', x = t ++ x' /\ occ (w ++ b) x' i y.
Proof.
  intros (_ & Hn & _ & Hm) Ho. rewrite app_assoc in Ho.
  apply occ_app_inv in Ho
    as [(y' & Ho & _)|[(v & r & d & Hd & E & Hr & -> & ->)|(x' & -> & _ & d & Hd & ->)]].
  - by destruct (Hn _ _ _ Ho).
  - assert (Hv : length v <= length w).
    { apply Hm. exists (v ++ r). split; [by eapply list_elem_of_lookup_2|].
      split; [by exists x|by exists r]. }
    apply app_eq_inv in E as [(k & -> & ->)|(k & -> & ->)].
    + assert (k = []) as ->.
      { rewrite length_app in Hv. destruct k; [done|]. simpl in Hv. lia. }
      exists []. rewrite !app_nil_r. split; [done|]. exists (w ++ r). split; [done|].
      by rewrite <- app_assoc.
    + exists k. split; [done|]. exists (v ++ r). split; [done|]. by rewrite <- !app_assoc.
  - exists (w ++ x'). rewrite app_assoc. split; [done|]. exists d. by rewrite <- app_assoc.
Qed.

Lemma occ_prepend t p x i y : occ p x i y -> occ (t ++ p) (t ++ x) i y.
Proof. intros (d & Hd & ->). exists d. by rewrite <- app_assoc. Qed.

Lemma preferred_prepend t x i x' j : preferred x i x' j -> preferred (t ++ x) i (t ++ x') j.
Proof. unfold preferred. rewrite !length_app. lia. Qed.

Lemma scan_partial_partial t w b w' :
  is_scan (t ++ w) (Partial t w) -> partial (t ++ w ++ b) w' -> partial (w ++ b) w'.
Proof.
  intros (_ & _ & _ & Hm) (d & Hd & [v E] & r & Hr & ->). exists (w' ++ r). split; [done|].
  split; [|by exists r].
  apply app_eq_inv in E as [(k & -> & E)|(k & -> & E)]; [|by exists k].
  subst w'.
  assert (Hk : length (k ++ w) <= length w).
  { apply Hm. exists ((k ++ w ++ b) ++ r). split; [done|]. split; [exists v; by rewrite app_assoc|].
    exists (b ++ r). split; [by destruct b|]. by rewrite <- !app_assoc. }
  rewrite length_app in Hk. destruct k; [by exists []|]. simpl in Hk. lia.
Qed.

Definition prepend (t : str) (r : scan_result) : scan_result :=
  match r with Found x i y => Found (t ++ x) i y | Partial t' w => Partial (t ++ t') w end.

Lemma scan_partial_app t w b r :
  is_scan (t ++ w) (Partial t w) -> is_scan (w ++ b) r -> is_scan (t ++ w ++ b) (prepend t r).
Proof.
  intros Hs. destruct r as [x i y|t' w']; simpl.
  - intros [Ho Hp]. split; [by apply occ_prepend|].
    intros x' j y' (z & -> & Hz)%(scan_partial_occ t w b x' j y' Hs).
    by eapply preferred_prepend, Hp.
  - intros (E & Hn & (d & Hd & [v Ev] & r & Hr & Er) & Hm). rewrite E, app_assoc.
    rewrite <- app_assoc, <- E. split_and!.
    + by rewrite E, app_assoc.
    + intros x i y Ho. apply scan_partial_occ in Ho as (z & -> & Hz); [|done]. by apply Hn in Hz.
    + exists d. split; [done|]. split; [|by exists r]. rewrite Ev. exists (t ++ v). by rewrite app_assoc.
    + intros u Hu. apply Hm. by eapply scan_partial_partial.
Qed.

End Scan.

Arguments Found x i y : assert.
Arguments Partial t w : assert.

(** ** The code's scans meet the specification *)

Definition key_le (a b : nat * nat * nat) : Prop :=
  let '(pa, la, ia) := a in
  let '(pb, lb, ib) := b in
  pa < pb \/ pa = pb /\ (lb < la \/ lb = la /\ ia <= ib).

Lemma candidate_cmp_spec a b :
  if candidate_cmp a b is Gt then key_le b a else key_le a b.
Proof.
  destruct a as [[pa la] ia], b as [[pb lb] ib]. cbn.
  destruct (Nat.compare_spec pa pb); cbn; [|lia..].
  destruct (Nat.compare_spec lb la); cbn; [|lia..].
  destruct (Nat.compare_spec ia ib); cbn; lia.
Qed.

Lemma key_le_trans a b c : key_le a b -> key_le b c -> key_le a c.
Proof. destruct a as [[??]?], b as [[??]?], c as [[??]?]. cbn. lia. Qed.

Lemma min_by_None l : min_by candidate_cmp l = None -> l = [].
Proof. destruct l; simpl; [done|]. repeat case_match; done. Qed.

Lemma min_by_Some l m :
  min_by candidate_cmp l = Some m -> m ∈ l /\ forall y, y ∈ l -> key_le m y.
Proof.
  assert (Hrefl : forall a, key_le a a) by (intros [[??]?]; cbn; lia).
  revert m. induction l as [|x l IH]; intros m; simpl; [done|].
  destruct (min_by candidate_cmp l) as [y|] eqn:E.
  - destruct (IH y eq_refl) as [Hy Hl]. pose proof (candidate_cmp_spec x y) as Hc.
    destruct (candidate_cmp x y); intros [= <-]; (split; [set_solver|]);
      intros z [->|Hz]%elem_of_cons; eauto using key_le_trans.
  - intros [= <-]. apply min_by_None in E as ->. split; [set_solver|].
    intros z Hz%list_elem_of_singleton. by subst.
Qed.

Lemma str_len_prefix_le (a b c d : str) : a ++ b = c ++ d -> str_len a <= str_len c <-> length a <= length c.
Proof.
  intros [(k & -> & _)|(k & -> & _)]%app_eq_inv; rewrite str_len_app, length_app.
  - assert (str_len k = 0 <-> length k = 0) by (rewrite str_len_0; destruct k; simpl; split; (done || lia)).
    lia.
  - split; lia.
Qed.

(** [find] reports the first occurrence. *)
Lemma find_first_occ d p pos :
  find d p = Some pos ->
  exists x y, p = x ++ d ++ y /\ pos = str_len x /\
    forall x' y', p = x' ++ d ++ y' -> length x <= length x'.
Proof.
  intros (x & y & E & ->)%find_Some. exists x, y.
  pose proof (split_once_eq _ _ _ _ E) as Hp. split_and!; [done..|].
  clear Hp. revert x y E. induction p as [|c p IH]; intros x y E x' y' Hp; simpl in E.
  - destruct (strip_prefix d []) eqn:Es; simplify_eq. simpl. lia.
  - destruct (strip_prefix d (c :: p)) eqn:Es; simplify_eq; [simpl; lia|].
    destruct (split_once d p) as [[a b]|] eqn:E'; simplify_eq. destruct x' as [|c' x']; simplify_eq/=.
    + rewrite Hp, strip_prefix_app in Es. done.
    + apply le_n_S. by eapply IH.
Qed.

Lemma find_None_occ d p x y : find d p = None -> p <> x ++ d ++ y.
Proof.
  unfold find. destruct (split_once d p) as [[??]|] eqn:E; [done|]. intros _.
  by apply split_once_None.
Qed.

Section Link.
Context {T : Type}.
Notation spec := (InlineTagSpec T).

Definition opens (specs : list spec) : list str := List.map open specs.

Lemma opens_lookup specs i : opens specs !! i = open <$> specs !! i.
Proof. apply list_lookup_fmap. Qed.

(** What the inactive branch of the loop computes from the pending text. *)
Definition step_open (specs : list spec) (p : str) : scan_result :=
  match find_next_open specs p with
  | Some (pos, i) => Found (slice_to pos p) i (slice_from (pos + str_len (delim (opens specs) i)) p)
  | None =>
      let '(v, w) := drain_visible_to_suffix_match p (max_open_prefix_suffix_len specs p) in
      Partial v w
  end.

Lemma candidate_elem (specs : list spec) p pos l i :
  (pos, l, i) ∈ omap (fun '(idx, s) =>
      option_map (fun pos => (pos, str_len (open s), idx)) (find (open s) p)) (imap pair specs) <->
  exists s, specs !! i = Some s /\ l = str_len (open s) /\ find (open s) p = Some pos.
Proof.
  rewrite list_elem_of_omap. split.
  - intros ([idx s] & Hin & Hf). apply list_elem_of_lookup in Hin as [k Hk].
    rewrite list_lookup_imap in Hk. destruct (specs !! k) eqn:E; simplify_eq/=.
    destruct (find (open s) p) eqn:Ef; simplify_eq/=. eauto.
  - intros (s & Hs & -> & Hf). exists (i, s). split.
    + apply list_elem_of_lookup. exists i. by rewrite list_lookup_imap, Hs.
    + by rewrite Hf.
Qed.

Lemma slice_found (p x d y : str) pos :
  p = x ++ d ++ y -> pos = str_len x ->
  slice_to pos p = x /\ slice_from (pos + str_len d) p = y.
Proof.
  intros -> ->. rewrite slice_to_app. split; [done|].
  by rewrite <- str_len_app, app_assoc, slice_from_app.
Qed.

Lemma drain_spec (t w : str) : drain_visible_to_suffix_match (t ++ w) (str_len w) = (t, w).
Proof.
  unfold drain_visible_to_suffix_match. rewrite str_len_app.
  replace (str_len t + str_len w - str_len w) with (str_len t) by lia.
  destruct (Nat.eqb_spec (str_len t) 0) as [->%str_len_0|]; [done|].
  by rewrite slice_to_app, slice_from_app.
Qed.

(** The maximum over the specs is attained by the longest partial match. *)
Lemma max_open_spec (specs : list spec) p :
  specs <> [] -> Forall (fun d => d <> []) (opens specs) ->
  exists t w, p = t ++ w /\ max_open_prefix_suffix_len specs p = str_len w /\
    partial (opens specs) p w /\
    forall w', partial (opens specs) p w' -> length w' <= length w.
Proof.
  intros Hne Hd.
  assert (Hx : exists w, max_open_prefix_suffix_len specs p = str_len w /\
    partial (opens specs) p w /\
    forall w', partial (opens specs) p w' -> str_len w' <= str_len w).
  { unfold max_open_prefix_suffix_len. induction specs as [|s specs IH]; [done|].
    simpl in *. apply Forall_cons in Hd as [Hs Hd].
    destruct (longest_suffix_prefix_len_spec p (open s) Hs) as (w & -> & Hp & Hm).
    destruct specs as [|s' specs].
    - exists w. rewrite Nat.max_0_r. split_and!; [done|exists (open s); split; [set_solver|done]|].
      intros w' (d & ->%list_elem_of_singleton & Hw'). auto.
    - destruct IH as (v & Ev & (d & Hd' & Hv) & Hmv); [done..|].
      destruct (decide (str_len v <= str_len w)).
      + exists w. split_and!.
        * simpl in *. lia.
        * exists (open s). split; [set_solver|done].
        * intros w' (d' & [->|Hin]%elem_of_cons & Hw'); [auto|].
          etrans; [apply Hmv; by exists d'|lia].
      + exists v. split_and!.
        * simpl in *. lia.
        * exists d. split; [set_solver|done].
        * intros w' (d' & [->|Hin]%elem_of_cons & Hw').
          -- etrans; [by apply Hm|lia].
          -- apply Hmv. by exists d'. }
  destruct Hx as (w & Hw & Hp & Hm). pose proof Hp as (d & _ & [t E] & _).
  exists t, w. split_and!; [done..|]. intros w' Hw'. specialize (Hm w' Hw').
  destruct Hw' as (d' & _ & [t' E'] & _).
  assert (Htt : t ++ w = t' ++ w') by congruence.
  destruct (app_eq_inv _ _ _ _ Htt) as [(k & -> & ->)|(k & -> & ->)]; rewrite ?length_app; [|lia].
  rewrite str_len_app in Hm. assert (k = []) as -> by (apply str_len_0; lia). simpl. lia.
Qed.

Lemma step_open_is_scan (specs : list spec) p :
  specs <> [] -> Forall (fun d => d <> []) (opens specs) ->
  is_scan (opens specs) p (step_open specs p).
Proof.
  intros Hne Hd. unfold step_open, find_next_open.
  destruct (min_by _ _) as [[[pos l] i]|] eqn:E; simpl.
  - apply min_by_Some in E as [Hin Hmin].
    apply candidate_elem in Hin as (s & Hs & -> & Hf).
    assert (Hdel : delim (opens specs) i = open s) by (unfold delim; by rewrite opens_lookup, Hs).
    destruct (find_first_occ _ _ _ Hf) as (x & y & Ep & -> & Hx). rewrite Hdel.
    destruct (slice_found p x (open s) y _ Ep eq_refl) as [-> ->]. split.
    + exists (open s). by rewrite opens_lookup, Hs.
    + intros x' j y' (d & Hj & Ep'). rewrite opens_lookup in Hj.
      destruct (specs !! j) as [s'|] eqn:Hs'; [|done]. injection Hj as <-.
      destruct (find (open s') p) as [pos'|] eqn:Hf'; [|by apply (find_None_occ _ _ x' y') in Hf'].
      assert (Hk := Hmin (pos', str_len (open s'), j) (proj2 (candidate_elem _ _ _ _ _) ltac:(eauto))).
      destruct (find_first_occ _ _ _ Hf') as (x2 & y2 & Ep2 & -> & Hx2).
      specialize (Hx2 _ _ Ep'). unfold preferred. rewrite Hdel.
      replace (delim (opens specs) j) with (open s') by (unfold delim; by rewrite opens_lookup, Hs').
      rewrite Ep in Ep2. pose proof (str_len_prefix_le _ _ _ _ Ep2).
      symmetry in Ep2. pose proof (str_len_prefix_le _ _ _ _ Ep2). simpl in Hk. lia.
  - apply min_by_None in E.
    destruct (max_open_spec specs p) as (t & w & Ep & -> & Hp & Hm); [done..|].
    rewrite Ep, drain_spec. rewrite Ep in E, Hp, Hm. split_and!; try done.
    intros x i y (d & Hi & Eo). rewrite opens_lookup in Hi.
    destruct (specs !! i) as [s|] eqn:Hs; [|done]. injection Hi as <-.
    destruct (find (open s) (t ++ w)) as [pos|] eqn:Hf; [|by apply (find_None_occ _ _ x y) in Hf].
    assert (Hin := proj2 (candidate_elem specs (t ++ w) pos _ i) ltac:(eauto)).
    rewrite E in Hin. set_solver.
Qed.

(** What the active branch computes. *)
Definition step_close (c : str) (p : str) : scan_result :=
  match find c p with
  | Some pos => Found (slice_to pos p) 0 (slice_from (pos + str_len c) p)
  | None =>
      let '(v, w) := drain_visible_to_suffix_match p (longest_suffix_prefix_len p c) in
      Partial v w
  end.

Lemma step_close_is_scan c p : c <> [] -> is_scan [c] p (step_close c p).
Proof.
  intros Hc. unfold step_close. destruct (find c p) as [pos|] eqn:Hf.
  - destruct (find_first_occ _ _ _ Hf) as (x & y & Ep & -> & Hx).
    destruct (slice_found p x c y _ Ep eq_refl) as [-> ->]. split; [by exists c|].
    intros x' j y' (d & Hj & Ep'). destruct j; [|done]. injection Hj as <-.
    specialize (Hx _ _ Ep'). unfold preferred. lia.
  - destruct (longest_suffix_prefix_len_spec p c Hc) as (w & -> & Hp & Hm).
    destruct Hp as [[t ->] Hr]. rewrite drain_spec. split_and!; [done| | |].
    + intros x [|i] y (d & Hd & E); [|done]. injection Hd as <-. by apply (find_None_occ _ _ x y) in Hf.
    + exists c. split; [set_solver|]. split; [by exists t|done].
    + intros w' (d & ->%list_elem_of_singleton & Hw'). specialize (Hm w' Hw').
      destruct Hw' as [[t' E] _]. apply app_eq_inv in E as [(k & -> & ->)|(k & -> & ->)];
        rewrite ?length_app; [|lia].
      rewrite str_len_app in Hm. assert (k = []) as -> by (apply str_len_0; lia). simpl. lia.
Qed.

(** More text arriving behind a scan. *)
Definition extend (scan : str -> scan_result) (r : scan_result) (b : str) : scan_result :=
  match r with Found x i y => Found x i (y ++ b) | Partial t w => prepend t (scan (w ++ b)) end.

Lemma scan_extend ds scan p b :
  Forall (fun d => d <> []) ds -> infix_free ds -> (forall q, is_scan ds q (scan q)) ->
  scan (p ++ b) = extend scan (scan p) b.
Proof.
  intros Hd Hf Hs. apply (is_scan_unique ds (p ++ b)); [done|].
  pose proof (Hs p) as Hp. destruct (scan p) as [x i y|t w] eqn:E; simpl.
  - by apply scan_found_app.
  - pose proof Hp as (-> & _). rewrite <- app_assoc. by apply scan_partial_app.
Qed.

Lemma infix_free_singleton (c : str) : infix_free [c].
Proof. intros [|?] [|?] ? ? ? ? ? ? ?; by simplify_eq/=. Qed.

(** ** The loop *)

Record specs_ok (specs : list spec) : Prop := mkSpecsOk {
  ok_nonempty : specs <> [];
  ok_opens : Forall (fun d => d <> []) (opens specs);
  ok_closes : Forall (fun s => close s <> []) specs;
}.

Definition active_ok (a : option (ActiveTag T)) : Prop :=
  match a with Some a => active_close a <> [] | None => True end.

Definition visible_more (o : StreamTextChunk (ExtractedInlineTag T)) (x : str) :=
  mkChunkOf (visible_text o ++ x) (extracted o).
Definition extracted_more (o : StreamTextChunk (ExtractedInlineTag T)) (t : T) (x : str) :=
  mkChunkOf (visible_text o) (extracted o ++ [mkExtracted t x]).

Lemma push_loop_active f specs p a out :
  push_loop (S f) specs p (Some a) out =
  match step_close (active_close a) p with
  | Found x _ y => push_loop f specs y None (extracted_more out (active_tag a) (active_content a ++ x))
  | Partial t w =>
      Some (mkParser specs w
              (Some (mkActive (active_tag a) (active_close a) (active_content a ++ t))), out)
  end.
Proof.
  cbn [push_loop]. unfold step_close, drain_visible_to_suffix_match.
  destruct (find (active_close a) p); [done|].
  set (k := str_len p - _). destruct (Nat.eqb_spec k 0) as [->|]; simpl.
  - rewrite app_nil_r. by destruct a.
  - by destruct (Nat.ltb_spec 0 k); [|lia].
Qed.

Lemma push_loop_inactive f specs p out :
  push_loop (S f) specs p None out =
  match step_open specs p with
  | Found x i y =>
      match specs !! i with
      | Some s => push_loop f specs y (Some (mkActive (spec_tag s) (close s) [])) (visible_more out x)
      | None => None
      end
  | Partial t w => Some (mkParser specs w None, visible_more out t)
  end.
Proof.
  cbn [push_loop]. unfold step_open.
  destruct (find_next_open specs p) as [[pos i]|].
  - destruct (specs !! i) as [s|] eqn:Hs; [|done].
    unfold delim. by rewrite opens_lookup, Hs.
  - by destruct (drain_visible_to_suffix_match _ _).
Qed.

(** A found delimiter is consumed. *)
Lemma found_shorter ds p x i y :
  Forall (fun d => d <> []) ds -> is_scan ds p (Found x i y) -> length y < length p.
Proof.
  intros Hd [(d & Hi & ->) _]. rewrite !length_app.
  pose proof (Forall_lookup_1 _ _ _ _ Hd Hi). destruct d; [done|]. simpl. lia.
Qed.

Lemma found_spec specs p x i y :
  is_scan (opens specs) p (Found x i y) -> exists s, specs !! i = Some s.
Proof.
  intros [(d & Hi & _) _]. rewrite opens_lookup in Hi.
  destruct (specs !! i); [eauto|done].
Qed.

Lemma spec_active_ok specs i s t :
  specs_ok specs -> specs !! i = Some s -> active_ok (Some (mkActive t (close s) [])).
Proof. intros [_ _ Hc] Hs. exact (Forall_lookup_1 _ _ _ _ Hc Hs). Qed.

Lemma close_nonempty (c : str) : c <> [] -> Forall (fun d => d <> []) [c].
Proof. by repeat constructor. Qed.

(** What one iteration may do, for proofs by induction on the pending text. *)
Lemma loop_ind specs (Q : str -> option (ActiveTag T) -> Prop) :
  specs_ok specs ->
  (forall p a, active_close a <> [] ->
     (forall x i y, step_close (active_close a) p = Found x i y -> Q y None) -> Q p (Some a)) ->
  (forall p,
     (forall x i y s, step_open specs p = Found x i y -> specs !! i = Some s ->
        Q y (Some (mkActive (spec_tag s) (close s) []))) -> Q p None) ->
  forall p a, active_ok a -> Q p a.
Proof.
  intros Hok Ha Hn p. induction p as [p IH] using (induction_ltof1 _ length).
  unfold ltof in IH. intros [a|] Hact; simpl in Hact.
  - apply Ha; [done|]. intros x i y E. apply IH; [|done].
    eapply found_shorter; [by apply close_nonempty|]. rewrite <- E. by apply step_close_is_scan.
  - apply Hn. intros x i y s E Hs. destruct Hok. apply IH; [|by eapply spec_active_ok].
    eapply found_shorter; [done|]. rewrite <- E. by apply step_open_is_scan.
Qed.

Context (ss : list spec) (Hok : specs_ok ss).

Lemma step_open_shorter p x i y : step_open ss p = Found x i y -> length y < length p.
Proof using Hok.
  intros E. destruct Hok. eapply found_shorter; [done|]. rewrite <- E. by apply step_open_is_scan.
Qed.

Lemma step_close_shorter c p x i y : c <> [] -> step_close c p = Found x i y -> length y < length p.
Proof.
  intros Hc E. eapply found_shorter; [by apply close_nonempty|].
  rewrite <- E. by apply step_close_is_scan.
Qed.

(** Enough fuel always gives a result, and the same one. *)
Lemma push_loop_total p a :
  active_ok a -> forall out, exists r, forall f, length p < f -> push_loop f ss p a out = Some r.
Proof using Hok.
  revert p a. refine (loop_ind ss (fun p a => forall out, exists r, forall f, _ -> _ = _) Hok _ _).
  - intros p a Hc IH out. destruct (step_close (active_close a) p) as [x i y|t w] eqn:E.
    + destruct (IH _ _ _ eq_refl (extracted_more out (active_tag a) (active_content a ++ x)))
        as [r Hr].
      exists r. intros [|f] Hf; [lia|]. rewrite push_loop_active, E. apply Hr.
      apply step_close_shorter in E; [lia|done].
    + eexists. intros [|f] Hf; [lia|]. by rewrite push_loop_active, E.
  - intros p IH out. destruct (step_open ss p) as [x i y|t w] eqn:E.
    + pose proof Hok as [Hne Hd _]. pose proof (step_open_is_scan ss p Hne Hd) as Hs.
      rewrite E in Hs. destruct (found_spec _ _ _ _ _ Hs) as [s Hi].
      destruct (IH x i y s eq_refl Hi (visible_more out x)) as [r Hr].
      exists r. intros [|f] Hf; [lia|]. rewrite push_loop_inactive, E, Hi. apply Hr.
      apply step_open_shorter in E. lia.
    + eexists. intros [|f] Hf; [lia|]. by rewrite push_loop_inactive, E.
Qed.

Lemma push_loop_fuel p a out f f' :
  active_ok a -> length p < f -> length p < f' ->
  push_loop f ss p a out = push_loop f' ss p a out.
Proof using Hok. intros Ha ? ?. destruct (push_loop_total p a Ha out) as [r Hr]. by rewrite !Hr. Qed.

(** The loop keeps the specs and leaves a well-formed active tag. *)
Lemma push_loop_keeps p a :
  active_ok a -> forall out f st o, push_loop f ss p a out = Some (st, o) ->
  specs st = ss /\ active_ok (active st).
Proof using Hok.
  revert p a. refine (loop_ind ss (fun p a => forall out f st o, _ = _ -> _) Hok _ _).
  - intros p a Hc IH out [|f] st o; [done|]. rewrite push_loop_active.
    destruct (step_close (active_close a) p) as [x i y|t w] eqn:E; [by eapply IH|].
    intros; by simplify_eq.
  - intros p IH out [|f] st o; [done|]. rewrite push_loop_inactive.
    destruct (step_open ss p) as [x i y|t w] eqn:E; [|intros; by simplify_eq].
    destruct (ss !! i) eqn:Hi; [|done]. by eapply IH.
Qed.

(** The output is appended to what was there. *)
Lemma push_loop_out p a :
  active_ok a -> forall out f,
  push_loop f ss p a out =
  option_map (fun '(st, o) => (st, chunk_app out o)) (push_loop f ss p a chunk_default).
Proof using Hok.
  revert p a. refine (loop_ind ss (fun p a => forall out f, _ = _) Hok _ _).
  - intros p a Hc IH out [|f]; [done|]. rewrite !push_loop_active.
    destruct (step_close (active_close a) p) as [x i y|t w] eqn:E.
    + rewrite (IH x i y eq_refl (extracted_more out _ _)), (IH x i y eq_refl (extracted_more chunk_default _ _)).
      destruct (push_loop f ss y None chunk_default) as [[st o]|]; simpl; [|done].
      unfold chunk_app. simpl. by rewrite <- app_assoc.
    + simpl. by rewrite chunk_app_nil_r.
  - intros p IH out [|f]; [done|]. rewrite !push_loop_inactive.
    destruct (step_open ss p) as [x i y|t w] eqn:E.
    + destruct (ss !! i) as [s|] eqn:Hi; [|done].
      rewrite (IH x i y s eq_refl Hi (visible_more out _)),
        (IH x i y s eq_refl Hi (visible_more chunk_default _)).
      destruct (push_loop f ss y _ chunk_default) as [[st o]|]; simpl; [|done].
      unfold chunk_app. simpl. by rewrite <- app_assoc.
    + unfold chunk_app, visible_more. simpl. by rewrite app_nil_r.
Qed.

(** Looping over [p ++ b] is looping over [p], then over what it left and [b]. *)
Lemma push_loop_app p a :
  infix_free (opens ss) -> active_ok a -> forall out b f1 f2 f3 st o,
  length (p ++ b) < f2 -> length (pending st ++ b) < f3 ->
  push_loop f1 ss p a out = Some (st, o) ->
  push_loop f2 ss (p ++ b) a out = push_loop f3 ss (pending st ++ b) (active st) o.
Proof using Hok.
  intros Hin. revert p a.
  refine (loop_ind ss (fun p a => forall out b f1 f2 f3 st o, _ -> _ -> _ -> _ = _) Hok _ _).
  - intros p a Hc IH out b [|f1] [|f2] f3 st o Hf2 Hf3; try lia; try done.
    rewrite !push_loop_active, (scan_extend [active_close a] (step_close (active_close a)));
      [|by apply close_nonempty|apply infix_free_singleton|intros; by apply step_close_is_scan].
    destruct (step_close (active_close a) p) as [x i y|t w] eqn:E; cbn [extend].
    + pose proof (step_close_shorter _ _ _ _ _ Hc E). rewrite length_app in Hf2.
      apply (IH x i y eq_refl); [rewrite length_app; lia|done].
    + pose proof (step_close_is_scan _ p Hc) as Hs. rewrite E in Hs. destruct Hs as [-> _].
      intros Hst. simplify_eq. cbn [pending active] in *. destruct f3 as [|f3]; [lia|].
      rewrite push_loop_active. cbn [active_close active_tag active_content].
      destruct (step_close (active_close a) (w ++ b)) as [x i y|t' w'] eqn:E';
        cbn [prepend]; rewrite app_assoc; [|done].
      apply step_close_shorter in E'; [|done]. rewrite !length_app in *.
      apply push_loop_fuel; [done|lia..].
  - intros p IH out b [|f1] [|f2] f3 st o Hf2 Hf3; try lia; try done.
    pose proof Hok as [Hne Hd Hcl].
    rewrite !push_loop_inactive, (scan_extend (opens ss) (step_open ss));
      [|done|done|intros; by apply step_open_is_scan].
    destruct (step_open ss p) as [x i y|t w] eqn:E; cbn [extend].
    + destruct (ss !! i) as [s|] eqn:Hi; [|done].
      pose proof (step_open_shorter _ _ _ _ E). rewrite length_app in Hf2.
      apply (IH x i y s eq_refl Hi); [rewrite length_app; lia|done].
    + pose proof (step_open_is_scan ss p Hne Hd) as Hs. rewrite E in Hs. destruct Hs as [-> _].
      intros Hst. simplify_eq. cbn [pending active] in *. destruct f3 as [|f3]; [lia|].
      rewrite push_loop_inactive. unfold visible_more. cbn [visible_text extracted].
      destruct (step_open ss (w ++ b)) as [x i y|t' w'] eqn:E';
        cbn [prepend]; rewrite app_assoc; [|done].
      destruct (ss !! i) as [s|] eqn:Hi; [|done].
      apply step_open_shorter in E'. rewrite !length_app in *.
      apply push_loop_fuel; [by eapply spec_active_ok|lia..].
Qed.

(** ** Consequences for the parser *)

Definition parser_ok (p : InlineHiddenTagParser T) : Prop := specs p = ss /\ active_ok (active p).

Lemma inline_push_eq p text :
  parser_ok p ->
  push_loop (push_fuel (pending p ++ text)) ss (pending p ++ text) (active p) chunk_default =
  Some (inline_push_str p text).
Proof using Hok.
  intros [Hs Ha]. unfold inline_push_str. rewrite Hs.
  destruct (push_loop_total (pending p ++ text) (active p) Ha chunk_default) as [r Hr].
  rewrite Hr; [done|]. unfold push_fuel. lia.
Qed.

Lemma inline_push_ok p text : parser_ok p -> parser_ok (inline_push_str p text).1.
Proof using Hok.
  intros Hp. pose proof (inline_push_eq p text Hp) as E. destruct Hp as [Hs Ha].
  destruct (inline_push_str p text) as [st o]. by eapply push_loop_keeps in E.
Qed.

Lemma inline_push_app p a b :
  infix_free (opens ss) -> parser_ok p ->
  let '(p1, o1) := inline_push_str p a in
  let '(p2, o2) := inline_push_str p1 b in
  inline_push_str p (a ++ b) = (p2, chunk_app o1 o2).
Proof using Hok.
  intros Hin Hp. pose proof (inline_push_eq p a Hp) as E1. pose proof (inline_push_ok p a Hp) as Hp1.
  pose proof (inline_push_eq p (a ++ b) Hp) as E.
  destruct (inline_push_str p a) as [p1 o1]. simpl in Hp1.
  pose proof (inline_push_eq p1 b Hp1) as E2. destruct (inline_push_str p1 b) as [p2 o2].
  destruct Hp as [Hs Ha], Hp1 as [Hs1 Ha1].
  rewrite app_assoc, (push_loop_app (pending p ++ a) (active p) Hin Ha chunk_default b
    (push_fuel (pending p ++ a)) _ (push_fuel (pending p1 ++ b)) p1 o1) in E
    by (done || unfold push_fuel; lia).
  rewrite push_loop_out, E2 in E by done. simpl in E. congruence.
Qed.

End Link.

(** ** The interface for clients *)

#[export] Instance inline_payloads T : Payloads (ExtractedInlineTag T) := eq_payloads _.

#[export] Instance inline_invariant T :
  ChunkInvariant (InlineHiddenTagParser T) (ExtractedInlineTag T).
Proof.
  refine {| valid := fun p => infix_free (opens (specs p)) /\ specs_ok (specs p) /\ active_ok (active p) |}.
  - intros p c (Hin & Hok & Ha). destruct (inline_push_ok _ Hok p c (conj eq_refl Ha)) as [E Ha'].
    cbn. by rewrite E.
  - intros p a b (Hin & Hok & Ha).
    pose proof (inline_push_app _ Hok p a b Hin (conj eq_refl Ha)) as E. cbn in *.
    destruct (inline_push_str p a) as [p1 o1]. destruct (inline_push_str p1 b) as [p2 o2].
    by rewrite E.
Defined.

Lemma new_ok {T} (specs : list (InlineTagSpec T)) p :
  new specs = Some p -> specs_ok specs /\ p = mkParser specs [] None.
Proof.
  unfold new. destruct (is_empty specs) eqn:E1; [done|]. apply is_empty_false in E1.
  destruct (forallb _ _) eqn:E2; [|done]. intros [= <-].
  rewrite forallb_forall in E2.
  assert (Hd : forall s, s ∈ specs -> open s <> [] /\ close s <> []).
  { intros s Hs. specialize (E2 s ltac:(by apply list_elem_of_In)). bool_to_prop.
    rewrite !is_empty_false in *. done. }
  split; [|done]. split; [done| |].
  - unfold opens. apply Forall_map, Forall_forall. intros s Hs. by apply Hd.
  - apply Forall_forall. intros s Hs. by apply Hd.
Qed.

Lemma new_valid {T} (specs : list (InlineTagSpec T)) p :
  new specs = Some p -> infix_free (opens specs) -> valid p.
Proof. by intros [Hok ->]%new_ok Hf. Qed.

(** The loop of [push_str] terminates for every parser that [new] accepts,
    whatever was fed to it before: one iteration per pending char and one more
    always suffice. *)
Theorem inline_push_terminates {T} (specs : list (InlineTagSpec T)) p0 cs text :
  new specs = Some p0 ->
  let p := (push_all p0 cs).1 in
  is_Some (push_loop (push_fuel (pending p ++ text)) (InlineTag.specs p)
             (pending p ++ text) (active p) chunk_default).
Proof.
  intros [Hok ->]%new_ok. cbn zeta.
  assert (Hp : parser_ok specs (push_all (mkParser specs [] None) cs).1).
  { assert (H0 : parser_ok specs (mkParser specs [] None)) by done. revert H0.
    generalize (mkParser specs [] (@None (ActiveTag T))) as p.
    induction cs as [|c cs IH]; intros p Hp; [done|]. cbn [push_all push_str inline_parser].
    pose proof (inline_push_ok specs Hok p c Hp) as Hp'.
    destruct (inline_push_str p c) as [p1 o1]. specialize (IH p1 Hp').
    by destruct (push_all p1 cs). }
  destruct (push_all _ cs) as [p o]. cbn [fst] in *.
  pose proof Hp as [-> _]. rewrite (inline_push_eq specs Hok p text Hp). done.
Qed.

(** For every list of tag specs that [new] accepts and whose opening
    delimiters do not contain one another, feeding the same text in any two
    non-empty sequences of chunks and finishing gives the same visible text
    and the same extracted tags. *)
Theorem inline_chunking_irrelevant {T} (specs : list (InlineTagSpec T)) p cs cs' :
  new specs = Some p -> infix_free (opens specs) ->
  cs <> [] -> cs' <> [] -> mjoin cs = mjoin cs' ->
  parse_all p cs = parse_all p cs'.
Proof.
  intros Hn Hf Hc Hc' E.
  destruct (parse_all_chunking p cs cs' (new_valid _ _ Hn Hf) Hc Hc' E) as [Ev Ee].
  destruct (parse_all p cs), (parse_all p cs'). simpl in *. by subst.
Qed.

Definition two_specs : list (InlineTagSpec nat) :=
  [mkSpec 1 (lit "<a>") (lit "</a>"); mkSpec 2 (lit "<b>") (lit "</b>")].

Lemma inline_push_terminates_witness :
  let p := (push_all (mkParser two_specs [] None) [lit "x<a>y<"]).1 in
  is_Some (push_loop (push_fuel (pending p ++ lit "/a>z")) (InlineTag.specs p)
             (pending p ++ lit "/a>z") (active p) chunk_default).
Proof. apply (inline_push_terminates two_specs (mkParser two_specs [] None)). done. Defined.

Lemma two_specs_infix_free : infix_free (opens two_specs).
Proof.
  intros [|[|i]] [|[|j]] di dj a b; try done; intros [= <-] [= <-] E; try done;
    destruct a as [|x [|y [|z [|u a]]]]; discriminate E.
Qed.

Lemma inline_chunking_irrelevant_witness :
  parse_all (mkParser two_specs [] None) [lit "x<"; lit "a>1</"; lit "a>y<b"] =
  parse_all (mkParser two_specs [] None) [lit "x<a>1</a>y<b"].
Proof.
  apply (inline_chunking_irrelevant two_specs); [done|apply two_specs_infix_free|done..].
Defined.

(** The condition on the delimiters is needed: with one delimiter inside
    another, what was seen first wins. *)
Example nested_delimiters_depend_on_chunks :
  let p := mkParser [mkSpec 1 (lit "xaby") (lit "!"); mkSpec 2 (lit "ab") (lit "!")] [] None in
  parse_all p [lit "xab"; lit "y"] <> parse_all p [lit "xaby"].
Proof. by vm_compute. Qed.

(** ** Citations *)

#[export] Instance str_payloads : Payloads (list N) := eq_payloads _.

Lemma citation_new_valid : valid (inner citation_new).
Proof. apply (new_valid citation_specs); [done|]. apply infix_free_singleton. Qed.

Lemma citation_chunk_app a b :
  citation_chunk (chunk_app a b) = chunk_app (citation_chunk a) (citation_chunk b).
Proof. unfold citation_chunk, chunk_app. simpl. by rewrite map_app. Qed.

#[export] Instance citation_invariant : ChunkInvariant CitationStreamParser (list N).
Proof.
  refine {| valid := fun p => valid (inner p) |}.
  - intros p c Hp. pose proof (push_valid (inner p) c Hp) as Hv. cbn in *.
    unfold citation_push_str. by destruct (inline_push_str (inner p) c).
  - intros p a b Hp. pose proof (push_app (inner p) a b Hp) as E. cbn in *.
    unfold citation_push_str. destruct (inline_push_str (inner p) a) as [p1 o1].
    destruct (inline_push_str p1 b) as [p2 o2] eqn:E2. simpl. rewrite E2.
    destruct (inline_push_str (inner p) (a ++ b)) as [p3 o3]. simpl in *.
    destruct E as [-> [Ev Ee]]. split; [done|].
    rewrite <- citation_chunk_app. split; simpl; by rewrite ?Ev, ?Ee.
Defined.

(** A text with citations: texts each followed by a closed citation, then a
    last text, possibly followed by a citation that is never closed. *)
Record document := mkDoc { closed : list (str * str); final : str; unclosed : option str }.

Definition render_unclosed (u : option str) : str :=
  match u with Some c => CITATION_OPEN ++ c | None => [] end.

Definition render (d : document) : str :=
  mjoin (List.map (fun '(t, c) => t ++ CITATION_OPEN ++ c ++ CITATION_CLOSE) (closed d))
  ++ final d ++ render_unclosed (unclosed d).

Definition doc_text (d : document) : str := mjoin (List.map fst (closed d)) ++ final d.
Definition doc_citations (d : document) : list str :=
  List.map snd (closed d) ++ match unclosed d with Some c => [c] | None => [] end.

(** The first [d] in [s ++ d] is the one at its end. *)
Definition clean (d s : str) : Prop := split_once d (s ++ d) = Some (s, []).

Definition doc_ok (d : document) : Prop :=
  Forall (fun '(t, c) => clean CITATION_OPEN t /\ clean CITATION_CLOSE c) (closed d) /\
  match unclosed d with
  | Some c => clean CITATION_OPEN (final d) /\ contains CITATION_CLOSE c = false
  | None => contains CITATION_OPEN (final d) = false
  end.

Lemma open_nonempty : CITATION_OPEN <> [].
Proof. done. Qed.

Lemma close_delim_nonempty : CITATION_CLOSE <> [].
Proof. done. Qed.

Lemma citation_specs_ok : specs_ok citation_specs.
Proof. apply citation_new_valid. Qed.

Lemma citation_step p : step_open citation_specs p = step_close CITATION_OPEN p.
Proof.
  apply (is_scan_unique [CITATION_OPEN] p).
  - apply (step_open_is_scan citation_specs); apply citation_specs_ok.
  - apply step_close_is_scan, open_nonempty.
Qed.

Lemma clean_step d s rest : d <> [] -> clean d s -> step_close d (s ++ d ++ rest) = Found s 0 rest.
Proof.
  intros Hd Hc. rewrite app_assoc, (scan_extend [d] (step_close d));
    [|by apply close_nonempty|apply infix_free_singleton|intros; by apply step_close_is_scan].
  unfold step_close, find. rewrite Hc.
  destruct (slice_found (s ++ d) s d [] (str_len s)) as [-> ->]; [by rewrite app_nil_r|done..].
Qed.

Lemma absent_step d s : contains d s = false -> d <> [] ->
  exists t w, step_close d s = Partial t w /\ s = t ++ w.
Proof.
  unfold contains, is_some, step_close, find. intros Hn Hd.
  destruct (split_once d s) as [[??]|] eqn:E; [done|].
  destruct (longest_suffix_prefix_len_spec s d Hd) as (w & -> & [[t ->] _] & _).
  rewrite drain_spec. eauto.
Qed.

Definition finished (r : option (InlineHiddenTagParser CitationTag *
    StreamTextChunk (ExtractedInlineTag CitationTag))) : option (StreamTextChunk str) :=
  match r with Some (st, o) => Some (citation_chunk (chunk_app o (inline_finish st).2)) | None => None end.

Lemma citation_loop_final f t u out :
  match u with
  | Some c => clean CITATION_OPEN t /\ contains CITATION_CLOSE c = false
  | None => contains CITATION_OPEN t = false
  end ->
  length (t ++ render_unclosed u) < f ->
  finished (push_loop f citation_specs (t ++ render_unclosed u) None out) =
  Some (chunk_app (citation_chunk out) (mkChunkOf t (match u with Some c => [c] | None => [] end))).
Proof.
  destruct u as [c|]; cbn [render_unclosed]; [intros [Ht Hc]|intros Ht]; (destruct f as [|f]; [lia|]); intros Hf.
  - rewrite push_loop_inactive, citation_step, (clean_step _ _ c open_nonempty Ht). cbn [lookup].
    rewrite !length_app in Hf. change (length CITATION_OPEN) with 18 in Hf.
    destruct f as [|f]; [lia|]. cbn -[push_loop CITATION_OPEN CITATION_CLOSE].
    rewrite push_loop_active. cbn [active_close close].
    destruct (absent_step _ _ Hc close_delim_nonempty) as (x & w & -> & ->).
    unfold finished, citation_chunk, chunk_app. cbn.
    by rewrite map_app, app_nil_r.
  - rewrite app_nil_r, push_loop_inactive, citation_step.
    destruct (absent_step _ _ Ht open_nonempty) as (x & w & -> & ->).
    unfold finished, citation_chunk, chunk_app. cbn. by rewrite <- app_assoc, !app_nil_r.
Qed.

Lemma citation_loop f d out :
  doc_ok d -> length (render d) < f ->
  finished (push_loop f citation_specs (render d) None out) =
  Some (chunk_app (citation_chunk out) (mkChunkOf (doc_text d) (doc_citations d))).
Proof.
  destruct d as [ps t u]. intros [Hps Hu]. revert f out. unfold render, doc_text, doc_citations.
  cbn [closed final unclosed] in *.
  induction Hps as [|[x c] ps [Hx Hc] Hps IH]; intros f out Hf.
  - cbn. by apply citation_loop_final.
  - cbn [List.map fst snd] in *. rewrite !mjoin_cons in *. rewrite <- !app_assoc.
    rewrite !length_app in Hf. change (length CITATION_OPEN) with 18 in Hf.
    destruct f as [|[|f]]; [lia..|].
    rewrite push_loop_inactive, citation_step, (clean_step _ _ _ open_nonempty Hx). cbn [lookup].
    cbn -[push_loop CITATION_OPEN CITATION_CLOSE].
    rewrite push_loop_active. cbn [active_close active_tag active_content].
    rewrite (clean_step _ _ _ close_delim_nonempty Hc).
    etrans; [apply IH; rewrite ?length_app; lia|].
    unfold citation_chunk, chunk_app, extracted_more, visible_more. cbn.
    by rewrite map_app, <- !app_assoc.
Qed.

Lemma citation_parse_one text :
  finished (push_loop (push_fuel text) citation_specs text None chunk_default) =
  Some (parse_all citation_new [text]).
Proof.
  pose proof (inline_push_eq _ citation_specs_ok (mkParser citation_specs [] None) text) as E.
  cbn [pending active app] in E. rewrite E by done. unfold parse_all, push_all.
  change citation_new with (mkCitation (mkParser citation_specs [] None)).
  cbn [push_str finish citation_parser]. unfold citation_push_str. cbn [inner].
  destruct (inline_push_str _ text) as [st o]. cbn [finished].
  rewrite chunk_app_nil_r, citation_chunk_app. unfold citation_finish. cbn [inner].
  by destruct (inline_finish st).
Qed.

Lemma strip_citations_parse text :
  strip_citations text =
  (visible_text (parse_all citation_new [text]), extracted (parse_all citation_new [text])).
Proof.
  unfold strip_citations, parse_all, push_all. cbn [push_str finish citation_parser].
  destruct (citation_push_str citation_new text) as [p o]. by rewrite chunk_app_nil_r.
Qed.

Lemma citation_document d cs :
  doc_ok d -> cs <> [] -> mjoin cs = render d ->
  parse_all citation_new cs = mkChunkOf (doc_text d) (doc_citations d).
Proof.
  intros Hd Hne E.
  destruct (parse_all_chunking citation_new cs [render d]) as [Ev Ee];
    [apply citation_new_valid|done|done|simpl; by rewrite app_nil_r|].
  pose proof (citation_parse_one (render d)) as Ep.
  rewrite citation_loop in Ep by (done || unfold push_fuel; lia).
  injection Ep as Ep. rewrite <- Ep in Ev, Ee. destruct (parse_all citation_new cs).
  cbn in Ev, Ee. by subst.
Qed.

(** Citation parsing inverts rendering.  Any text with citations, cut into
    chunks in any way, yields exactly its visible text and its citation bodies
    in order; a citation left open at the end of the stream is returned too. *)
Theorem citation_stream_roundtrip d cs :
  doc_ok d -> cs <> [] -> mjoin cs = render d ->
  parse_all citation_new cs = mkChunkOf (doc_text d) (doc_citations d) /\
  strip_citations (render d) = (doc_text d, doc_citations d).
Proof.
  intros Hd Hne E. split; [by apply citation_document|].
  rewrite strip_citations_parse, (citation_document d [render d]); [done|done|done|].
  simpl. by rewrite app_nil_r.
Qed.

Definition sample_doc : document :=
  mkDoc [(lit "see ", lit "doc A"); (lit " and ", lit "<b>")] (lit " or ") (Some (lit "doc C")).

Lemma citation_stream_roundtrip_witness :
  parse_all citation_new
    [lit "see <oai-mem"; lit "-citation>doc A</oai-mem-citation> and <oai-mem-citation><b></";
     lit "oai-mem-citation> or <oai-mem-citation>doc C"] =
  mkChunkOf (doc_text sample_doc) (doc_citations sample_doc) /\
  strip_citations (render sample_doc) = (doc_text sample_doc, doc_citations sample_doc).
Proof.
  apply (citation_stream_roundtrip sample_doc); [|done|by vm_compute].
  split; [repeat constructor; by vm_compute|split; by vm_compute].
Defined.
End InlineTagFacts.
