(* ===== verification/TaggedLine.v ===== *)
(** Line-based tag blocks in streamed text
    (utils/stream-parser/src/tagged_line_parser.rs) and the parser of proposed
    plans built on it (utils/stream-parser/src/proposed_plan.rs). *)

From stdpp Require Import base list option numbers strings.
From S2P Require Import Prelude RustStr StreamText.

Module TaggedLine.
Import StreamText.

(** ** tagged_line_parser.rs *)

Record TagSpec (T : Type) := mkTagSpec { open : str; close : str; tag : T }.
Arguments mkTagSpec {T} _ _ _.
Arguments open {T} _.
Arguments close {T} _.
Arguments tag {T} _.

Inductive TaggedLineSegment (T : Type) :=
| Normal (text : str)
| TagStart (t : T)
| TagDelta (t : T) (text : str)
| TagEnd (t : T).
Arguments Normal {T} text.
Arguments TagStart {T} t.
Arguments TagDelta {T} t text.
Arguments TagEnd {T} t.

#[export] Instance segment_eq_dec T `{EqDecision T} : EqDecision (TaggedLineSegment T).
Proof. solve_decision. Defined.

Record TaggedLineParser (T : Type) := mkLineParser {
  specs : list (TagSpec T);
  active_tag : option T;
  detect_tag : bool;
  line_buffer : str;
}.
Arguments mkLineParser {T} _ _ _ _.
Arguments specs {T} _.
Arguments active_tag {T} _.
Arguments detect_tag {T} _.
Arguments line_buffer {T} _.

Section Parser.
Context {T : Type} `{EqDecision T}.
Notation segment := (TaggedLineSegment T).
Notation parser := (TaggedLineParser T).

Definition new (specs : list (TagSpec T)) : parser := mkLineParser specs None true [].

(** Adjacent texts of the same kind are merged, empty ones dropped. *)
Definition push_segment (segments : list segment) (s : segment) : list segment :=
  match s with
  | Normal delta =>
      if is_empty delta then segments
      else
        match last segments with
        | Some (Normal _) =>
            update_last (fun x => match x with Normal existing => Normal (existing ++ delta) | _ => x end)
              segments
        | _ => segments ++ [Normal delta]
        end
  | TagDelta t delta =>
      if is_empty delta then segments
      else
        match last segments with
        | Some (TagDelta existing_tag _) =>
            if existing_tag == t then
              update_last
                (fun x => match x with TagDelta e existing => TagDelta e (existing ++ delta) | _ => x end)
                segments
            else segments ++ [TagDelta t delta]
        | _ => segments ++ [TagDelta t delta]
        end
  | TagStart t => segments ++ [TagStart t]
  | TagEnd t => segments ++ [TagEnd t]
  end.

Definition push_text (active : option T) (text : str) (segments : list segment) : list segment :=
  match active with
  | Some t => push_segment segments (TagDelta t text)
  | None => push_segment segments (Normal text)
  end.

Definition is_tag_prefix (specs : list (TagSpec T)) (slug : str) : bool :=
  let slug := trim_end slug in
  existsb (fun s => starts_with slug (open s) || starts_with slug (close s)) specs.

Definition match_open (specs : list (TagSpec T)) (slug : str) : option T :=
  option_map tag (find_first (fun s => open s == slug) specs).

Definition match_close (specs : list (TagSpec T)) (slug : str) : option T :=
  option_map tag (find_first (fun s => close s == slug) specs).

(** [line.strip_suffix('\n').unwrap_or(&line)], trimmed on both sides. *)
Definition slug_of (line : str) : str :=
  trim_end (trim_start (default line (strip_suffix [LF] line))).

Definition finish_line (p : parser) (segments : list segment) : parser * list segment :=
  let line := line_buffer p in
  let slug := slug_of line in
  match match_open (specs p) slug, active_tag p with
  | Some t, None => (mkLineParser (specs p) (Some t) true [], push_segment segments (TagStart t))
  | _, _ =>
      match match_close (specs p) slug with
      | Some t =>
          if active_tag p == Some t then
            (mkLineParser (specs p) None true [], push_segment segments (TagEnd t))
          else (mkLineParser (specs p) (active_tag p) true [], push_text (active_tag p) line segments)
      | None => (mkLineParser (specs p) (active_tag p) true [], push_text (active_tag p) line segments)
      end
  end.

(** The [for] loop of [parse]: the run of undecided text and the segments. *)
Fixpoint parse_loop (p : parser) (run : str) (segments : list segment) (delta : str)
  : parser * str * list segment :=
  match delta with
  | [] => (p, run, segments)
  | ch :: delta' =>
      if detect_tag p then
        let '(run, segments) :=
          if is_empty run then (run, segments) else ([], push_text (active_tag p) run segments) in
        let p := mkLineParser (specs p) (active_tag p) (detect_tag p) (line_buffer p ++ [ch]) in
        if (ch =? LF)%N then
          let '(p, segments) := finish_line p segments in
          parse_loop p run segments delta'
        else
          let slug := trim_start (line_buffer p) in
          if is_empty slug || is_tag_prefix (specs p) slug then parse_loop p run segments delta'
          else
            let buffered := line_buffer p in
            let p := mkLineParser (specs p) (active_tag p) false [] in
            parse_loop p run (push_text (active_tag p) buffered segments) delta'
      else
        let run := run ++ [ch] in
        if (ch =? LF)%N then
          parse_loop (mkLineParser (specs p) (active_tag p) true (line_buffer p)) []
            (push_text (active_tag p) run segments) delta'
        else parse_loop p run segments delta'
  end.

Definition parse (p : parser) (delta : str) : parser * list segment :=
  let '(p, run, segments) := parse_loop p [] [] delta in
  (p, if is_empty run then segments else push_text (active_tag p) run segments).

Definition finish_parser (p : parser) : parser * list segment :=
  let '(active, segments) :=
    if is_empty (line_buffer p) then (active_tag p, [])
    else
      let buffered := line_buffer p in
      let slug := slug_of buffered in
      match match_open (specs p) slug, active_tag p with
      | Some t, None => (Some t, push_segment [] (TagStart t))
      | _, _ =>
          match match_close (specs p) slug with
          | Some t =>
              if active_tag p == Some t then (None, push_segment [] (TagEnd t))
              else (active_tag p, push_text (active_tag p) buffered [])
          | None => (active_tag p, push_text (active_tag p) buffered [])
          end
      end in
  let segments :=
    match active with Some t => push_segment segments (TagEnd t) | None => segments end in
  (mkLineParser (specs p) None true [], segments).

End Parser.

(** ** proposed_plan.rs *)

Definition OPEN_TAG : str := lit "<proposed_plan>".
Definition CLOSE_TAG : str := lit "</proposed_plan>".

Inductive PlanTag := ProposedPlan.

#[export] Instance plan_tag_eq_dec : EqDecision PlanTag.
Proof. solve_decision. Defined.

Inductive ProposedPlanSegment :=
| PlanNormal (text : str)
| ProposedPlanStart
| ProposedPlanDelta (text : str)
| ProposedPlanEnd.

Definition ProposedPlanParser : Type := TaggedLineParser PlanTag.

Definition plan_specs : list (TagSpec PlanTag) := [mkTagSpec OPEN_TAG CLOSE_TAG ProposedPlan].

Definition plan_new : ProposedPlanParser := new plan_specs.

Definition map_segment (s : TaggedLineSegment PlanTag) : ProposedPlanSegment :=
  match s with
  | Normal text => PlanNormal text
  | TagStart ProposedPlan => ProposedPlanStart
  | TagDelta ProposedPlan text => ProposedPlanDelta text
  | TagEnd ProposedPlan => ProposedPlanEnd
  end.

(** The loop of [map_segments]. *)
Fixpoint map_segments_loop (out : StreamTextChunk ProposedPlanSegment)
    (segments : list (TaggedLineSegment PlanTag)) : StreamTextChunk ProposedPlanSegment :=
  match segments with
  | [] => out
  | s :: rest =>
      let mapped := map_segment s in
      let visible :=
        match mapped with PlanNormal text => visible_text out ++ text | _ => visible_text out end in
      map_segments_loop (mkChunkOf visible (extracted out ++ [mapped])) rest
  end.

Definition map_segments (segments : list (TaggedLineSegment PlanTag))
  : StreamTextChunk ProposedPlanSegment :=
  map_segments_loop chunk_default segments.

Definition plan_push_str (p : ProposedPlanParser) (chunk : str)
  : ProposedPlanParser * StreamTextChunk ProposedPlanSegment :=
  let '(p, segments) := parse p chunk in (p, map_segments segments).

Definition plan_finish (p : ProposedPlanParser)
  : ProposedPlanParser * StreamTextChunk ProposedPlanSegment :=
  let '(p, segments) := finish_parser p in (p, map_segments segments).

#[export] Instance plan_parser : StreamTextParser ProposedPlanParser ProposedPlanSegment := {|
  push_str := plan_push_str;
  finish := plan_finish;
|}.

Definition strip_proposed_plan_blocks (text : str) : str :=
  let '(p, out) := plan_push_str plan_new text in
  visible_text out ++ visible_text (plan_finish p).2.

(** The loop of [extract_proposed_plan_text]. *)
Fixpoint extract_loop (saw_plan_block : bool) (plan_text : str) (segments : list ProposedPlanSegment)
  : bool * str :=
  match segments with
  | [] => (saw_plan_block, plan_text)
  | ProposedPlanStart :: rest => extract_loop true [] rest
  | ProposedPlanDelta delta :: rest => extract_loop saw_plan_block (plan_text ++ delta) rest
  | ProposedPlanEnd :: rest | PlanNormal _ :: rest => extract_loop saw_plan_block plan_text rest
  end.

Definition extract_proposed_plan_text (text : str) : option str :=
  let '(p, out) := plan_push_str plan_new text in
  let '(saw, plan_text) := extract_loop false [] (extracted out ++ extracted (plan_finish p).2) in
  if saw then Some plan_text else None.

Example extract_ex :
  extract_proposed_plan_text (lit "a" ++ [LF] ++ lit " <proposed_plan>" ++ [LF] ++ lit "b" ++ [LF]
    ++ lit "</proposed_plan>" ++ [LF] ++ lit "c") = Some (lit "b" ++ [LF]).
Proof. by vm_compute. Qed.

End TaggedLine.
