(* ===== verification/TaggedLineFacts.v ===== *)
(** Theorems about line-based tag blocks: the incremental parser, which flushes
    a line as soon as it cannot be a tag line, agrees with a reference that
    looks at whole lines, however the text is cut into chunks. *)

From stdpp Require Import base list option numbers strings sets.
From S2P Require Import Prelude RustStr StreamText TaggedLine.

Module TaggedLineFacts.
Import StreamText TaggedLine.

Section Facts.
Context {T : Type} `{EqDecision T}.
Notation segment := (TaggedLineSegment T).
Notation parser := (TaggedLineParser T).

(** ** Merging segments *)

Definition text_seg (active : option T) (text : str) : segment :=
  match active with Some t => TagDelta t text | None => Normal text end.

Lemma push_text_eq a text segs : push_text a text segs = push_segment segs (text_seg a text).
Proof. by destruct a. Qed.

Lemma push_segment_text_nil a segs : push_segment segs (text_seg a []) = segs.
Proof. by destruct a. Qed.

Lemma push_segment_normal_snoc (segs : list segment) x y :
  y <> [] -> push_segment (segs ++ [Normal x]) (Normal y) = segs ++ [Normal (x ++ y)].
Proof. intros Hy. unfold push_segment. destruct y; [done|]. simpl. by rewrite last_snoc, update_last_snoc. Qed.

Lemma push_segment_delta_snoc (segs : list segment) t x y :
  y <> [] -> push_segment (segs ++ [TagDelta t x]) (TagDelta t y) = segs ++ [TagDelta t (x ++ y)].
Proof.
  intros Hy. unfold push_segment. destruct y; [done|]. simpl.
  by rewrite last_snoc, bool_decide_true, update_last_snoc.
Qed.

(** What pushing a non-empty text does: it is merged or appended. *)
Lemma push_segment_text a x segs :
  x <> [] ->
  (exists segs' z, segs = segs' ++ [text_seg a z] /\
     push_segment segs (text_seg a x) = segs' ++ [text_seg a (z ++ x)]) \/
  push_segment segs (text_seg a x) = segs ++ [text_seg a x].
Proof.
  intros Hx. destruct segs as [|s segs _] using rev_ind.
  { right. destruct a, x; done. }
  destruct a as [t|]; cbn [text_seg].
  - destruct s as [z|u|u z|u]; try (right; unfold push_segment; destruct x; [done|];
      cbn [is_empty]; by rewrite last_snoc).
    destruct (decide (u = t)) as [->|Hne].
    + left. exists segs, z. split; [done|]. by apply push_segment_delta_snoc.
    + right. unfold push_segment. destruct x; [done|]. cbn [is_empty].
      by rewrite last_snoc, bool_decide_false.
  - destruct s as [z|u|u z|u]; try (right; unfold push_segment; destruct x; [done|];
      cbn [is_empty]; by rewrite last_snoc).
    left. exists segs, z. split; [done|]. by apply push_segment_normal_snoc.
Qed.

Lemma push_segment_text_snoc a segs x y :
  push_segment (segs ++ [text_seg a x]) (text_seg a y) = segs ++ [text_seg a (x ++ y)].
Proof.
  destruct (decide (y = [])) as [->|Hy]; [by rewrite push_segment_text_nil, app_nil_r|].
  destruct a; [by apply push_segment_delta_snoc|by apply push_segment_normal_snoc].
Qed.

(** Pushing a text in two pieces. *)
Lemma push_segment_text_app a x y segs :
  push_segment (push_segment segs (text_seg a x)) (text_seg a y) =
  push_segment segs (text_seg a (x ++ y)).
Proof.
  destruct (decide (x = [])) as [->|Hx]; [by rewrite push_segment_text_nil|].
  destruct (decide (y = [])) as [->|Hy]; [by rewrite push_segment_text_nil, app_nil_r|].
  assert (Hxy : x ++ y <> []) by (by destruct x).
  destruct (push_segment_text a x segs Hx) as [(segs' & z & -> & ->)|E].
  - by rewrite !push_segment_text_snoc, app_assoc.
  - rewrite E, push_segment_text_snoc.
    destruct (push_segment_text a (x ++ y) segs Hxy) as [(segs' & z & -> & E')|E']; [|done].
    rewrite push_segment_text_snoc in E. apply app_inj_2 in E as [E _]; [|done].
    apply (f_equal length) in E. rewrite !length_app in E. simpl in E. lia.
Qed.

Definition coalesce (segs : list segment) : list segment := foldl push_segment [] segs.

Lemma segment_cases (s : segment) :
  (exists a x, s = text_seg a x) \/ (forall segs, push_segment segs s = segs ++ [s]).
Proof.
  destruct s as [x|t|t x|t]; [left|by right|left|by right]; [by exists None, x|by exists (Some t), x].
Qed.

(** Merging into a merged list is merging one by one. *)
Lemma foldl_push_segment (segs l : list segment) s :
  foldl push_segment segs (push_segment l s) = push_segment (foldl push_segment segs l) s.
Proof.
  destruct (segment_cases s) as [(a & x & ->)|Hs]; [|by rewrite Hs, foldl_snoc].
  destruct (decide (x = [])) as [->|Hx]; [by rewrite !push_segment_text_nil|].
  destruct (push_segment_text a x l Hx) as [(l' & z & -> & ->)| ->]; rewrite !foldl_snoc; [|done].
  by rewrite push_segment_text_app.
Qed.

Lemma foldl_coalesce (segs l : list segment) : foldl push_segment segs (coalesce l) = foldl push_segment segs l.
Proof.
  unfold coalesce. induction l as [|s l IH] using rev_ind; [done|].
  by rewrite !foldl_snoc, foldl_push_segment, IH.
Qed.

Lemma coalesce_idem l : coalesce (coalesce l) = coalesce l.
Proof. apply foldl_coalesce. Qed.

Definition same_segments : relation (list segment) := fun a b => coalesce a = coalesce b.

#[export] Instance same_segments_equiv : Equivalence same_segments.
Proof. unfold same_segments. split; [done|by intros ??|intros ???; congruence]. Qed.

#[export] Instance same_segments_app : Proper (same_segments ==> same_segments ==> same_segments) app.
Proof.
  intros a b E c d F. unfold same_segments, coalesce in *. rewrite !foldl_app, E.
  rewrite <- (foldl_coalesce _ c), <- (foldl_coalesce _ d). unfold coalesce. by rewrite F.
Qed.

Lemma same_coalesce l : same_segments (coalesce l) l.
Proof. apply coalesce_idem. Qed.

Lemma same_text_app a x y : same_segments [text_seg a x; text_seg a y] [text_seg a (x ++ y)].
Proof. apply (push_segment_text_app a x y []). Qed.

Lemma same_text_nil a : same_segments [text_seg a []] [].
Proof. apply push_segment_text_nil. Qed.

(** ** One char at a time *)

(** What a complete line, or the last partial one, means. *)
Definition classify (specs : list (TagSpec T)) (active : option T) (line : str) : option T * segment :=
  let slug := slug_of line in
  match match_open specs slug, active with
  | Some t, None => (Some t, TagStart t)
  | _, _ =>
      match match_close specs slug with
      | Some t => if active == Some t then (None, TagEnd t) else (active, text_seg active line)
      | None => (active, text_seg active line)
      end
  end.

Lemma finish_line_classify (p : parser) segs :
  finish_line p segs =
  let '(a, s) := classify (specs p) (active_tag p) (line_buffer p) in
  (mkLineParser (specs p) a true [], push_segment segs s).
Proof.
  unfold finish_line, classify.
  destruct (match_open (specs p) (slug_of (line_buffer p))), (active_tag p),
    (match_close (specs p) (slug_of (line_buffer p))); try done;
    rewrite ?push_text_eq; repeat case_bool_decide; done.
Qed.

(** The parser step for one char, with the segments it emits. *)
Definition step (p : parser) (ch : char) : parser * list segment :=
  if detect_tag p then
    let buf := line_buffer p ++ [ch] in
    if (ch =? LF)%N then
      let '(a, s) := classify (specs p) (active_tag p) buf in
      (mkLineParser (specs p) a true [], [s])
    else if is_empty (trim_start buf) || is_tag_prefix (specs p) (trim_start buf) then
      (mkLineParser (specs p) (active_tag p) true buf, [])
    else (mkLineParser (specs p) (active_tag p) false [], [text_seg (active_tag p) buf])
  else
    (mkLineParser (specs p) (active_tag p) (ch =? LF)%N (line_buffer p),
     [text_seg (active_tag p) [ch]]).

Fixpoint steps (p : parser) (delta : str) : parser * list segment :=
  match delta with
  | [] => (p, [])
  | ch :: delta' =>
      let '(p, em) := step p ch in
      let '(p, em') := steps p delta' in
      (p, em ++ em')
  end.

Definition flush (r : parser * str * list segment) : parser * list segment :=
  let '(p, run, segs) := r in (p, push_segment segs (text_seg (active_tag p) run)).

Lemma parse_loop_steps p run segs delta :
  flush (parse_loop p run segs delta) =
  let '(q, em) := steps p delta in
  (q, foldl push_segment (push_segment segs (text_seg (active_tag p) run)) em).
Proof.
  revert p run segs. induction delta as [|ch delta IH]; intros p run segs; [done|].
  cbn [parse_loop steps]. unfold step. destruct p as [sp act det buf]. cbn [detect_tag specs active_tag line_buffer].
  destruct det.
  - replace (if is_empty run then (run, segs) else ([], push_text act run segs))
      with (@nil N, push_segment segs (text_seg act run))
      by (destruct run; simpl; rewrite ?push_text_eq, ?push_segment_text_nil; done).
    destruct (ch =? LF)%N.
    + rewrite finish_line_classify. cbn [specs active_tag line_buffer].
      destruct (classify sp act (buf ++ [ch])) as [a s]. rewrite IH. cbn [active_tag].
      destruct (steps _ delta) as [q em]. by rewrite push_segment_text_nil.
    + destruct (_ || _); rewrite IH; cbn [active_tag]; destruct (steps _ delta) as [q em].
      * by rewrite push_segment_text_nil.
      * by rewrite push_segment_text_nil, push_text_eq.
  - destruct (ch =? LF)%N; rewrite IH; cbn [active_tag]; destruct (steps _ delta) as [q em]; cbn.
    + by rewrite push_segment_text_nil, push_text_eq, push_segment_text_app.
    + by rewrite push_segment_text_app.
Qed.

Lemma parse_steps p delta : parse p delta = let '(q, em) := steps p delta in (q, coalesce em).
Proof.
  pose proof (parse_loop_steps p [] [] delta) as E. unfold parse.
  destruct (parse_loop p [] [] delta) as [[q run] segs]. destruct (steps p delta) as [q' em].
  rewrite push_segment_text_nil in E. cbn in E. injection E as -> E. f_equal. unfold coalesce. rewrite <- E.
  destruct run; cbn [is_empty]; [by rewrite push_segment_text_nil|by rewrite push_text_eq].
Qed.

Lemma steps_app p a b :
  steps p (a ++ b) =
  let '(q, em) := steps p a in
  let '(r, em') := steps q b in
  (r, em ++ em').
Proof.
  revert p. induction a as [|ch a IH]; intros p; simpl; [by destruct (steps p b)|].
  destruct (step p ch) as [p1 em1]. rewrite IH. destruct (steps p1 a) as [q em].
  destruct (steps q b) as [r em']. by rewrite app_assoc.
Qed.

(** How the text is cut matters only for how the segments are cut. *)
Lemma parse_app p a b :
  let '(p1, s1) := parse p a in
  let '(p2, s2) := parse p1 b in
  (parse p (a ++ b)).1 = p2 /\ same_segments (parse p (a ++ b)).2 (s1 ++ s2).
Proof.
  rewrite !parse_steps, steps_app. destruct (steps p a) as [p1 em1]. rewrite parse_steps.
  destruct (steps p1 b) as [p2 em2]. cbn. split; [done|]. by rewrite !same_coalesce.
Qed.

(** ** Whole lines *)

(** [str::split_inclusive('\n')]. *)
Fixpoint split_inclusive (s : str) : list str :=
  match s with
  | [] => []
  | c :: s' =>
      if (c =? LF)%N then [c] :: split_inclusive s'
      else match split_inclusive s' with [] => [[c]] | l :: ls => (c :: l) :: ls end
  end.

Fixpoint classify_all (specs : list (TagSpec T)) (active : option T) (ls : list str)
  : option T * list segment :=
  match ls with
  | [] => (active, [])
  | l :: ls' =>
      let '(a, s) := classify specs active l in
      let '(a, ss) := classify_all specs a ls' in
      (a, s :: ss)
  end.

Definition close_segs (active : option T) : list segment :=
  match active with Some t => [TagEnd t] | None => [] end.

(** The reference: every line is a tag line or text, an open block is closed
    at the end. *)
Definition reference (specs : list (TagSpec T)) (text : str) : list segment :=
  let '(a, segs) := classify_all specs None (split_inclusive text) in segs ++ close_segs a.

Definition no_lf (s : str) : Prop := LF ∉ s.

Lemma split_inclusive_line body rest :
  no_lf body -> split_inclusive (body ++ LF :: rest) = (body ++ [LF]) :: split_inclusive rest.
Proof.
  unfold no_lf. induction body as [|c body IH]; intros Hn; simpl; [done|].
  destruct (N.eqb_spec c LF) as [->|]; [set_solver|]. by rewrite IH by set_solver.
Qed.

Lemma split_inclusive_last body : no_lf body -> body <> [] -> split_inclusive body = [body].
Proof.
  unfold no_lf. induction body as [|c body IH]; intros Hn Hne; simpl; [done|].
  destruct (N.eqb_spec c LF) as [->|]; [set_solver|].
  destruct body as [|d body]; [done|]. by rewrite IH by (done || set_solver).
Qed.

Lemma first_line text : no_lf text \/ exists body rest, no_lf body /\ text = body ++ LF :: rest.
Proof.
  unfold no_lf. induction text as [|c text IH]; [left; set_solver|].
  destruct (decide (c = LF)) as [->|Hc]; [right; exists [], text; set_solver|].
  destruct IH as [IH|(body & rest & Hb & ->)]; [left; set_solver|].
  right. exists (c :: body), rest. set_solver.
Qed.

(** ** A flushed line is not a tag line *)

Lemma slug_of_visible (b r : str) :
  trim_start b <> [] -> exists r', slug_of (b ++ r) = trim_end (trim_start b ++ r').
Proof.
  intros Hb. unfold slug_of. destruct (strip_suffix [LF] (b ++ r)) as [l|] eqn:E; simpl.
  - apply strip_suffix_Some in E. destruct r as [|c r _] using rev_ind.
    + rewrite app_nil_r in E. subst b. exists [].
      rewrite app_nil_r. destruct (trim_start l) eqn:El.
      * destruct (trim_start_by_suffix is_whitespace l) as (w & Hl & Hw).
        unfold trim_start in El. rewrite El, app_nil_r in Hl. subst w.
        exfalso. apply Hb. clear -Hw. unfold trim_start.
        induction Hw as [|c l Hc _ IH]; simpl; [done|]. by rewrite Hc.
      * rewrite <- El. unfold trim_end. rewrite trim_start_app by (by rewrite El).
        by rewrite trim_end_by_snoc_drop.
    + rewrite app_assoc in E. apply app_inj_2 in E as [<- _]; [|done].
      exists r. by rewrite trim_start_app.
  - exists r. by rewrite trim_start_app.
Qed.

Lemma trimmed_prefix (b r o : str) :
  trim_end (b ++ r) = o -> starts_with (trim_end b) o = true.
Proof.
  intros E. apply starts_with_true.
  destruct (trim_end_by_prefix is_whitespace (b ++ r)) as (w & Hw & Hws).
  fold (trim_end (b ++ r)) in Hw. rewrite E in Hw.
  destruct (trim_end_by_prefix is_whitespace b) as (v & Hv & _). fold (trim_end b) in Hv.
  apply app_eq_inv in Hw as [(k & -> & ->)|(k & -> & ->)].
  - apply Forall_app in Hws as [Hk _]. rewrite trim_end_app_ws by done.
    destruct (trim_end_by_prefix is_whitespace o) as (u & Hu & _). by exists u.
  - exists (v ++ k). by rewrite app_assoc, <- Hv.
Qed.

Lemma find_tag_none (sp : list (TagSpec T)) (f : TagSpec T -> str) (slug : str) :
  (forall s, s ∈ sp -> f s <> slug) ->
  option_map tag (find_first (fun s => f s == slug) sp) = None.
Proof.
  intros Hn. destruct (find_first _ sp) as [s|] eqn:E; [|done].
  apply find_first_Some in E as (l1 & l2 & -> & Hs & _). bool_to_prop.
  destruct (Hn s); [set_solver|done].
Qed.

Lemma not_prefix_no_match (sp : list (TagSpec T)) a (b r : str) :
  trim_start b <> [] -> is_tag_prefix sp (trim_start b) = false ->
  classify sp a (b ++ r) = (a, text_seg a (b ++ r)).
Proof.
  intros Hb Hp. destruct (slug_of_visible b r Hb) as [r' Hr].
  assert (Hno : forall s, s ∈ sp -> open s <> slug_of (b ++ r) /\ close s <> slug_of (b ++ r)).
  { intros s Hs. unfold is_tag_prefix in Hp.
    assert (Hq : ~ (starts_with (trim_end (trim_start b)) (open s) = true \/
                    starts_with (trim_end (trim_start b)) (close s) = true)).
    { intros Hq. rewrite <- orb_true_iff in Hq.
      apply not_true_iff_false in Hp. apply Hp, existsb_exists.
      exists s. split; [by apply list_elem_of_In|done]. }
    rewrite Hr. split; intros Ho; apply Hq; [left|right]; by eapply trimmed_prefix. }
  unfold classify, match_open, match_close.
  rewrite !find_tag_none by (intros; by apply Hno). by destruct a.
Qed.

(** ** The incremental parser reads lines *)

Lemma steps_text (sp : list (TagSpec T)) a r :
  no_lf r ->
  exists em, steps (mkLineParser sp a false []) r = (mkLineParser sp a false [], em) /\
    same_segments em [text_seg a r].
Proof.
  unfold no_lf. induction r as [|c r IH]; intros Hn; cbn [steps].
  { exists []. split; [done|]. by rewrite same_text_nil. }
  destruct IH as (em & E & Hs); [set_solver|]. unfold step. cbn [detect_tag specs active_tag line_buffer].
  destruct (N.eqb_spec c LF) as [->|]; [set_solver|]. rewrite E.
  eexists. split; [done|]. rewrite Hs. apply (same_text_app a [c] r).
Qed.

(** Inside a line: still buffering all of it, or flushed as text for good. *)
Lemma steps_line (sp : list (TagSpec T)) a b r :
  no_lf r ->
  (steps (mkLineParser sp a true b) r = (mkLineParser sp a true (b ++ r), [])) \/
  (exists em, steps (mkLineParser sp a true b) r = (mkLineParser sp a false [], em) /\
     same_segments em [text_seg a (b ++ r)] /\
     forall x, classify sp a ((b ++ r) ++ x) = (a, text_seg a ((b ++ r) ++ x))).
Proof.
  unfold no_lf. revert b. induction r as [|c r IH]; intros b Hn; cbn [steps].
  { left. by rewrite app_nil_r. }
  unfold step. cbn [detect_tag specs active_tag line_buffer].
  destruct (N.eqb_spec c LF) as [->|]; [set_solver|].
  destruct (is_empty (trim_start (b ++ [c])) || _) eqn:E.
  - destruct (IH (b ++ [c])) as [->|(em & -> & Hs & Hx)]; [set_solver|left|right];
      rewrite <- ?app_assoc in *; [done|]. exists em. split_and!; try done.
  - apply orb_false_iff in E as [Hv%is_empty_false Hp]. right.
    destruct (steps_text sp a r) as (em & -> & Hs); [unfold no_lf; set_solver|].
    exists ([text_seg a (b ++ [c])] ++ em). split_and!; [done| |].
    + rewrite Hs. rewrite (cons_middle c b r), app_assoc. apply same_text_app.
    + intros x. rewrite (cons_middle c b r), !(app_assoc b), <- (app_assoc (b ++ [c])).
      by apply not_prefix_no_match.
Qed.

Lemma steps_full_line (sp : list (TagSpec T)) a body :
  no_lf body ->
  let '(a', s) := classify sp a (body ++ [LF]) in
  exists em, steps (mkLineParser sp a true []) (body ++ [LF]) = (mkLineParser sp a' true [], em) /\
    same_segments em [s].
Proof.
  intros Hn. rewrite steps_app. destruct (steps_line sp a [] body Hn) as [->|(em & -> & Hs & Hx)].
  - cbn. destruct (classify sp a (body ++ [LF])) as [a' s]. by exists [s].
  - specialize (Hx [LF]). cbn [app] in *. rewrite Hx. cbn.
    eexists. split; [done|]. rewrite Hs. apply (same_text_app a body [LF]).
Qed.

Lemma finish_classify (p : parser) :
  line_buffer p <> [] ->
  let '(a, s) := classify (specs p) (active_tag p) (line_buffer p) in
  same_segments (finish_parser p).2 (s :: close_segs a).
Proof.
  intros Hb. unfold finish_parser. destruct (line_buffer p) as [|c b] eqn:El; [done|].
  cbn [is_empty]. unfold classify. rewrite <- El.
  destruct (match_open (specs p) (slug_of (line_buffer p))), (active_tag p) ,
    (match_close (specs p) (slug_of (line_buffer p))); try done;
    rewrite ?push_text_eq; repeat case_bool_decide; simplify_eq; try done;
    match goal with |- same_segments _ ?l => exact (same_coalesce l) end.
Qed.

Lemma finish_partial (sp : list (TagSpec T)) a body p em :
  no_lf body -> steps (mkLineParser sp a true []) body = (p, em) ->
  let '(a', segs) := classify_all sp a (split_inclusive body) in
  same_segments (em ++ (finish_parser p).2) (segs ++ close_segs a').
Proof.
  intros Hn E. destruct (decide (body = [])) as [->|Hne].
  { cbn in E. simplify_eq. cbn. by destruct a. }
  rewrite split_inclusive_last by done. cbn.
  destruct (steps_line sp a [] body Hn) as [E'|(em' & E' & Hs & Hx)];
    rewrite E in E'; simplify_eq.
  - pose proof (finish_classify (mkLineParser sp a true body) Hne) as Hf. cbn in Hf.
    destruct (classify sp a body) as [a' s]. cbn. done.
  - specialize (Hx []). rewrite app_nil_r in Hx. cbn [app] in Hx. rewrite Hx, Hs. cbn.
    by destruct a.
Qed.

Lemma steps_reference (sp : list (TagSpec T)) a text p em :
  steps (mkLineParser sp a true []) text = (p, em) ->
  let '(a', segs) := classify_all sp a (split_inclusive text) in
  same_segments (em ++ (finish_parser p).2) (segs ++ close_segs a').
Proof.
  revert a p em. induction text as [text IH] using (induction_ltof1 _ length). unfold ltof in IH.
  intros a p em E. destruct (first_line text) as [Hn|(body & rest & Hn & ->)].
  { by apply finish_partial. }
  rewrite split_inclusive_line by done. rewrite (cons_middle LF body rest), app_assoc, steps_app in E.
  pose proof (steps_full_line sp a body Hn) as Hl. cbn [classify_all].
  destruct (classify sp a (body ++ [LF])) as [a1 s]. destruct Hl as (em1 & E1 & Hs).
  rewrite E1 in E. destruct (steps (mkLineParser sp a1 true []) rest) as [q em2] eqn:E2. simplify_eq.
  apply IH in E2; [|rewrite length_app; simpl; lia].
  destruct (classify_all sp a1 (split_inclusive rest)) as [a' segs].
  rewrite <- app_assoc, E2, Hs. done.
Qed.

(** Feeding chunks: the segments of all calls, in order. *)
Fixpoint parse_chunks (p : parser) (cs : list str) : parser * list segment :=
  match cs with
  | [] => (p, [])
  | c :: cs' =>
      let '(p, s) := parse p c in
      let '(p, s') := parse_chunks p cs' in
      (p, s ++ s')
  end.

Lemma parse_chunks_steps p cs :
  let '(q, em) := steps p (mjoin cs) in
  (parse_chunks p cs).1 = q /\ same_segments (parse_chunks p cs).2 em.
Proof.
  revert p. induction cs as [|c cs IH]; intros p; [done|].
  cbn [parse_chunks]. rewrite mjoin_cons, steps_app, parse_steps.
  destruct (steps p c) as [p1 em1]. specialize (IH p1).
  destruct (steps p1 (mjoin cs)) as [p2 em2]. destruct (parse_chunks p1 cs) as [p3 s3].
  cbn in *. destruct IH as [-> Hs]. by rewrite Hs, same_coalesce.
Qed.

Lemma parse_chunks_reference (sp : list (TagSpec T)) cs :
  let '(p, segs) := parse_chunks (new sp) cs in
  same_segments (segs ++ (finish_parser p).2) (reference sp (mjoin cs)).
Proof.
  pose proof (parse_chunks_steps (new sp) cs) as Hs. unfold reference.
  destruct (steps (new sp) (mjoin cs)) as [q em] eqn:E.
  apply (steps_reference sp None) in E. destruct (parse_chunks (new sp) cs) as [p segs]. cbn in Hs.
  destruct Hs as [-> Hs]. destruct (classify_all sp None (split_inclusive (mjoin cs))).
  by rewrite Hs.
Qed.

(** For every list of tag specs, the incremental line parser agrees with
    the reference that classifies whole lines: whatever the chunks, the
    segments of all calls and of the final flush, with adjacent texts merged,
    are those of the reference. *)
Theorem tagged_lines_agree (sp : list (TagSpec T)) cs :
  let '(p, segs) := parse_chunks (new sp) cs in
  coalesce (segs ++ (finish_parser p).2) = coalesce (reference sp (mjoin cs)).
Proof. apply parse_chunks_reference. Qed.

End Facts.

(** ** Plans *)

Definition unmap_segment (s : ProposedPlanSegment) : TaggedLineSegment PlanTag :=
  match s with
  | PlanNormal text => Normal text
  | ProposedPlanStart => TagStart ProposedPlan
  | ProposedPlanDelta text => TagDelta ProposedPlan text
  | ProposedPlanEnd => TagEnd ProposedPlan
  end.

Lemma unmap_map segs : List.map unmap_segment (List.map map_segment segs) = segs.
Proof. induction segs as [|[?|[]|[] ?|[]] segs IH]; simpl; by rewrite ?IH. Qed.

(** Plan segments are the same up to merging adjacent texts. *)
Definition same_plan : relation (list ProposedPlanSegment) := fun a b =>
  same_segments (List.map unmap_segment a) (List.map unmap_segment b).

#[export] Instance same_plan_equiv : Equivalence same_plan.
Proof. unfold same_plan. split; [by intros a|by intros a b ?|intros a b c E F; by rewrite E]. Qed.

#[export] Instance same_plan_app : Proper (same_plan ==> same_plan ==> same_plan) app.
Proof. unfold same_plan. intros a b E c d F. by rewrite !map_app, E, F. Qed.

#[export] Instance plan_payloads : Payloads ProposedPlanSegment := {| same_payloads := same_plan |}.

Definition normal_text (s : TaggedLineSegment PlanTag) : str :=
  match s with Normal t => t | _ => [] end.
Definition normals (segs : list (TaggedLineSegment PlanTag)) : str := mjoin (List.map normal_text segs).

Lemma normals_app a b : normals (a ++ b) = normals a ++ normals b.
Proof. unfold normals. by rewrite map_app, join_app. Qed.

Lemma normals_singleton s : normals [s] = normal_text s.
Proof. unfold normals. simpl. by rewrite app_nil_r. Qed.

Lemma normal_text_seg a x : normal_text (text_seg a x) = match a with Some _ => [] | None => x end.
Proof. by destruct a. Qed.

Lemma normals_cons s l : normals (s :: l) = normal_text s ++ normals l.
Proof. done. Qed.

Lemma normals_push l s : normals (push_segment l s) = normals l ++ normal_text s.
Proof.
  destruct (segment_cases s) as [(a & x & ->)|Hs].
  2: by rewrite Hs, normals_app, normals_singleton.
  destruct (decide (x = [])) as [->|Hx].
  { rewrite push_segment_text_nil, normal_text_seg. destruct a; by rewrite app_nil_r. }
  destruct (push_segment_text a x l Hx) as [(l' & z & -> & ->)| ->];
    rewrite !normals_app, !normals_singleton, !normal_text_seg; [|done].
  destruct a; by rewrite <- app_assoc.
Qed.

Lemma normals_foldl l segs : normals (foldl push_segment l segs) = normals l ++ normals segs.
Proof.
  revert l. induction segs as [|s segs IH]; intros l; simpl; [by rewrite app_nil_r|].
  rewrite IH, normals_push, <- app_assoc. done.
Qed.

#[export] Instance normals_proper : Proper (same_segments ==> eq) normals.
Proof.
  intros a b E. apply (f_equal normals) in E. unfold coalesce in E. by rewrite !normals_foldl in E.
Qed.

Lemma map_segments_loop_eq out segs :
  map_segments_loop out segs = chunk_app out (mkChunkOf (normals segs) (List.map map_segment segs)).
Proof.
  revert out. induction segs as [|s segs IH]; intros out.
  { symmetry. apply chunk_app_nil_r. }
  cbn [map_segments_loop List.map].
  rewrite IH. unfold chunk_app, normals. destruct s as [?|[]|[] ?|[]]; simpl; by rewrite <- !app_assoc.
Qed.

Lemma map_segments_eq segs :
  map_segments segs = mkChunkOf (normals segs) (List.map map_segment segs).
Proof. unfold map_segments. by rewrite map_segments_loop_eq, chunk_app_nil_l. Qed.

#[export] Instance plan_invariant : ChunkInvariant ProposedPlanParser ProposedPlanSegment.
Proof.
  refine {| valid := fun _ => True |}; [done|].
  intros p a b _. pose proof (parse_app p a b) as E. cbn. unfold plan_push_str.
  destruct (parse p a) as [p1 s1]. destruct (parse p1 b) as [p2 s2].
  destruct (parse p (a ++ b)) as [p3 s3]. cbn in *. destruct E as [-> Hs].
  split; [done|]. rewrite !map_segments_eq. split; cbn.
  - by rewrite Hs, normals_app.
  - unfold same_plan. rewrite <- map_app, !unmap_map. done.
Defined.

(** The segments a complete plan text stands for. *)
Lemma plan_parse_reference cs :
  visible_text (parse_all plan_new cs) = normals (reference plan_specs (mjoin cs)) /\
  same_segments (List.map unmap_segment (extracted (parse_all plan_new cs)))
    (reference plan_specs (mjoin cs)).
Proof.
  assert (Hc : forall p, push_all p cs =
    let '(q, segs) := parse_chunks p cs in (q, map_segments segs)).
  { induction cs as [|c cs IH]; intros p; [done|]. cbn [push_all parse_chunks].
    cbn [push_str plan_parser]. unfold plan_push_str. destruct (parse p c) as [p1 s1].
    rewrite IH. destruct (parse_chunks p1 cs) as [p2 s2].
    rewrite !map_segments_eq, normals_app, map_app. done. }
  pose proof (parse_chunks_reference plan_specs cs) as Hr. unfold parse_all. rewrite Hc.
  change plan_new with (new plan_specs). destruct (parse_chunks (new plan_specs) cs) as [p segs].
  cbn [finish plan_parser]. unfold plan_finish. destruct (finish_parser p) as [q segs'].
  cbn in *. rewrite !map_segments_eq. cbn. rewrite <- normals_app, <- map_app, unmap_map.
  split; [by rewrite Hr|done].
Qed.

(** The extraction loop on tagged segments. *)
Definition extract_step (st : bool * str) (segs : list (TaggedLineSegment PlanTag)) : bool * str :=
  extract_loop st.1 st.2 (List.map map_segment segs).

Lemma extract_step_app st a b : extract_step st (a ++ b) = extract_step (extract_step st a) b.
Proof.
  unfold extract_step. rewrite map_app. destruct st as [saw t]. cbn.
  revert saw t. induction a as [|[?|[]|[] ?|[]] a IH]; intros saw t; simpl; auto.
Qed.

Lemma extract_step_cons st s l : extract_step st (s :: l) = extract_step (extract_step st [s]) l.
Proof. apply (extract_step_app st [s]). Qed.

Lemma extract_step_push st l s : extract_step st (push_segment l s) = extract_step st (l ++ [s]).
Proof.
  destruct (segment_cases s) as [(a & x & ->)|Hs]; [|by rewrite Hs].
  destruct (decide (x = [])) as [->|Hx].
  { rewrite push_segment_text_nil, extract_step_app. destruct (extract_step st l) as [saw t].
    destruct a as [[]|]; unfold extract_step; simpl; by rewrite ?app_nil_r. }
  destruct (push_segment_text a x l Hx) as [(l' & z & -> & ->)| ->]; [|done].
  rewrite !extract_step_app. destruct (extract_step st l') as [saw t].
  destruct a as [[]|]; unfold extract_step; simpl; by rewrite ?app_assoc.
Qed.

Lemma extract_step_foldl st l segs :
  extract_step st (foldl push_segment l segs) = extract_step st (l ++ segs).
Proof.
  revert l. induction segs as [|s segs IH]; intros l; simpl; [by rewrite app_nil_r|].
  rewrite IH, extract_step_app, extract_step_push, <- extract_step_app, <- app_assoc. done.
Qed.

#[export] Instance extract_step_proper st : Proper (same_segments ==> eq) (extract_step st).
Proof.
  intros a b E. apply (f_equal (extract_step st)) in E. unfold coalesce in E.
  by rewrite !extract_step_foldl in E.
Qed.

Lemma map_unmap segs : List.map map_segment (List.map unmap_segment segs) = segs.
Proof. induction segs as [|[] segs IH]; simpl; by rewrite ?IH. Qed.

Lemma plan_parse_one text :
  parse_all plan_new [text] =
  let '(p, out) := plan_push_str plan_new text in chunk_app out (plan_finish p).2.
Proof.
  unfold parse_all, push_all. cbn [push_str finish plan_parser].
  destruct (plan_push_str plan_new text) as [p out]. by rewrite chunk_app_nil_r.
Qed.

Lemma extract_reference text :
  extract_proposed_plan_text text =
  let '(saw, t) := extract_step (false, []) (reference plan_specs text) in
  if saw then Some t else None.
Proof.
  destruct (plan_parse_reference [text]) as [_ Hr]. rewrite plan_parse_one in Hr.
  unfold extract_proposed_plan_text.
  destruct (plan_push_str plan_new text) as [p out]. cbn in Hr. rewrite app_nil_r in Hr.
  rewrite <- Hr. unfold extract_step. by rewrite map_unmap.
Qed.

Lemma strip_reference text :
  strip_proposed_plan_blocks text = normals (reference plan_specs text).
Proof.
  destruct (plan_parse_reference [text]) as [Hr _]. rewrite plan_parse_one in Hr.
  unfold strip_proposed_plan_blocks. destruct (plan_push_str plan_new text) as [p out].
  cbn in Hr. by rewrite app_nil_r in Hr.
Qed.

(** ** A document with one plan block *)

(** A complete line whose trimmed text is [slug], and a line that is not. *)
Definition full_line (l : str) : Prop := exists body, no_lf body /\ l = body ++ [LF].
Definition plain_line (tag : str) (l : str) : Prop := full_line l /\ slug_of l <> tag.
Definition tag_line (tag : str) (l : str) : Prop := full_line l /\ slug_of l = tag.

Lemma split_inclusive_lines ls rest :
  Forall full_line ls -> split_inclusive (mjoin ls ++ rest) = ls ++ split_inclusive rest.
Proof.
  induction 1 as [|l ls (body & Hb & ->) _ IH]; [done|].
  rewrite mjoin_cons, <- !app_assoc. cbn [app]. rewrite split_inclusive_line by done.
  by rewrite IH.
Qed.

Lemma classify_all_app {T} `{EqDecision T} (sp : list (TagSpec T)) a l k :
  classify_all sp a (l ++ k) =
  let '(a1, s1) := classify_all sp a l in
  let '(a2, s2) := classify_all sp a1 k in
  (a2, s1 ++ s2).
Proof.
  revert a. induction l as [|x l IH]; intros a; simpl; [by destruct (classify_all sp a k)|].
  destruct (classify sp a x) as [a1 s]. rewrite IH. destruct (classify_all sp a1 l) as [a2 s2].
  by destruct (classify_all sp a2 k).
Qed.

Lemma plan_match_open slug :
  match_open plan_specs slug = if OPEN_TAG == slug then Some ProposedPlan else None.
Proof. unfold match_open, plan_specs. cbn [find_first open]. by destruct (OPEN_TAG == slug). Qed.

Lemma plan_match_close slug :
  match_close plan_specs slug = if CLOSE_TAG == slug then Some ProposedPlan else None.
Proof. unfold match_close, plan_specs. cbn [find_first close]. by destruct (CLOSE_TAG == slug). Qed.

Lemma classify_outside ls :
  Forall (plain_line OPEN_TAG) ls -> classify_all plan_specs None ls = (None, List.map Normal ls).
Proof.
  induction 1 as [|l ls [_ Hl] _ IH]; [done|]. cbn [classify_all List.map]. unfold classify.
  rewrite plan_match_open, plan_match_close, bool_decide_false by done.
  destruct (CLOSE_TAG == slug_of l); [rewrite bool_decide_false by done|]; by rewrite IH.
Qed.

Lemma classify_inside ls :
  Forall (plain_line CLOSE_TAG) ls ->
  classify_all plan_specs (Some ProposedPlan) ls =
  (Some ProposedPlan, List.map (TagDelta ProposedPlan) ls).
Proof.
  induction 1 as [|l ls [_ Hl] _ IH]; [done|]. cbn [classify_all List.map]. unfold classify.
  rewrite plan_match_open, plan_match_close, (bool_decide_false (CLOSE_TAG = _)) by done.
  destruct (OPEN_TAG == slug_of l); by rewrite IH.
Qed.

Lemma plain_full tag ls : Forall (plain_line tag) ls -> Forall full_line ls.
Proof. induction 1 as [|l ls [Hl _] _ IH]; by constructor. Qed.

Definition plan_document (pre : list str) (o : str) (body : list str) (c : str) (post : list str) : str :=
  mjoin pre ++ o ++ mjoin body ++ c ++ mjoin post.

Lemma reference_plan pre o body c post :
  Forall (plain_line OPEN_TAG) pre -> tag_line OPEN_TAG o -> Forall (plain_line CLOSE_TAG) body ->
  tag_line CLOSE_TAG c -> Forall (plain_line OPEN_TAG) post ->
  reference plan_specs (plan_document pre o body c post) =
  List.map Normal pre ++ TagStart ProposedPlan :: List.map (TagDelta ProposedPlan) body
  ++ TagEnd ProposedPlan :: List.map Normal post.
Proof.
  intros Hpre [Ho Ho'] Hbody [Hc Hc'] Hpost. unfold reference, plan_document.
  replace (mjoin pre ++ _) with (mjoin (pre ++ [o] ++ body ++ [c] ++ post) ++ [])
    by (rewrite app_nil_r, !join_app; unfold mjoin; cbn [list_join]; by rewrite !app_nil_r).
  rewrite split_inclusive_lines
    by (rewrite !Forall_app, !Forall_singleton; split_and!; eauto using plain_full).
  cbn [split_inclusive]. rewrite app_nil_r, classify_all_app, classify_outside by done.
  rewrite classify_all_app. cbn [classify_all]. unfold classify at 1.
  rewrite plan_match_open, Ho', bool_decide_true by done.
  rewrite classify_all_app, classify_inside by done. rewrite classify_all_app. cbn [classify_all].
  unfold classify at 1. rewrite plan_match_open, plan_match_close, Hc'.
  rewrite (bool_decide_false (OPEN_TAG = _)), (bool_decide_true (CLOSE_TAG = _)),
    (bool_decide_true (Some _ = _)) by done.
  rewrite classify_outside by done. cbn [close_segs]. by rewrite app_nil_r.
Qed.

Lemma normals_map_normal ls : normals (List.map Normal ls) = mjoin ls.
Proof. unfold normals. rewrite map_map. cbn [normal_text]. by rewrite map_id. Qed.

Lemma normals_map_delta ls : normals (List.map (TagDelta ProposedPlan) ls) = [].
Proof. induction ls; [done|]. by rewrite <- IHls. Qed.

Lemma extract_step_normal st ls : extract_step st (List.map Normal ls) = st.
Proof. unfold extract_step. destruct st. induction ls; simpl; auto. Qed.

Lemma extract_step_delta st ls :
  extract_step st (List.map (TagDelta ProposedPlan) ls) = (st.1, st.2 ++ mjoin ls).
Proof.
  unfold extract_step. destruct st as [saw t]. cbn. revert t.
  induction ls as [|l ls IH]; intros t; simpl; [by rewrite app_nil_r|].
  rewrite IH. by rewrite app_assoc.
Qed.

(** A text made of complete lines with one plan block, an opening tag line,
    a body without a closing tag line, a closing tag line: extraction returns
    exactly the body, and stripping returns exactly the lines around the block. *)
Theorem plan_block_extracted pre o body c post :
  Forall (plain_line OPEN_TAG) pre -> tag_line OPEN_TAG o -> Forall (plain_line CLOSE_TAG) body ->
  tag_line CLOSE_TAG c -> Forall (plain_line OPEN_TAG) post ->
  extract_proposed_plan_text (plan_document pre o body c post) = Some (mjoin body) /\
  strip_proposed_plan_blocks (plan_document pre o body c post) = mjoin pre ++ mjoin post.
Proof.
  intros Hpre Ho Hbody Hc Hpost.
  rewrite extract_reference, strip_reference, reference_plan by done. split.
  - rewrite extract_step_app, extract_step_normal.
    by rewrite extract_step_cons, extract_step_app, extract_step_delta, extract_step_cons,
      extract_step_normal.
  - rewrite normals_app, normals_map_normal.
    by rewrite normals_cons, normals_app, normals_map_delta, normals_cons, normals_map_normal.
Qed.

Definition nl (s : string) : str := lit s ++ [LF].

Lemma full_line_nl s : no_lf (lit s) -> full_line (nl s).
Proof. by exists (lit s). Qed.

Lemma plan_block_extracted_witness :
  extract_proposed_plan_text
    (plan_document [nl "Here:"] (nl " <proposed_plan> ") [nl "1. read"; nl "<proposed_plan>"]
       (nl "</proposed_plan>") [nl "ok?"]) = Some (nl "1. read" ++ nl "<proposed_plan>") /\
  strip_proposed_plan_blocks
    (plan_document [nl "Here:"] (nl " <proposed_plan> ") [nl "1. read"; nl "<proposed_plan>"]
       (nl "</proposed_plan>") [nl "ok?"]) = nl "Here:" ++ nl "ok?".
Proof.
  apply (plan_block_extracted [nl "Here:"] (nl " <proposed_plan> ") [nl "1. read"; nl "<proposed_plan>"]
       (nl "</proposed_plan>") [nl "ok?"]); repeat (apply Forall_cons_2 || apply Forall_nil_2);
    (split; [apply full_line_nl; unfold no_lf; by apply (bool_decide_unpack _)|by vm_compute]).
Defined.

(** How a streamed text is cut into chunks changes neither the visible text
    nor, up to merging adjacent texts, the plan segments. *)
Theorem plan_chunking_irrelevant cs cs' :
  cs <> [] -> cs' <> [] -> mjoin cs = mjoin cs' ->
  same_chunk (parse_all plan_new cs) (parse_all plan_new cs').
Proof. by apply parse_all_chunking. Qed.

Lemma plan_chunking_irrelevant_witness :
  same_chunk (parse_all plan_new [lit "a<prop"; lit "osed_plan>b"]) (parse_all plan_new [lit "a<proposed_plan>b"]).
Proof. by apply plan_chunking_irrelevant. Defined.
End TaggedLineFacts.
