(* ===== verification/Utf8Stream.v ===== *)
(** Raw bytes in front of a streaming text parser
    (utils/stream-parser/src/utf8_stream.rs), with the UTF-8 decoder of the
    standard library it calls.  The theorems are in the module [Utf8Facts]. *)

From stdpp Require Import base list option numbers strings.
From S2P Require Import Prelude RustStr StreamText InlineTag InlineTagFacts.

Module Utf8.
Import StreamText.

Local Open Scope N_scope.

(** ** [std::str::from_utf8] *)

(** [Utf8Error]: [error_len] is [None] when the input ends inside a char. *)
Record Utf8Error := mkUtf8Error { valid_up_to : nat; error_len : option nat }.

(** The outcome of decoding the char at the front of a non-empty input. *)
Inductive decoded :=
| Decoded (c : char) (rest : list N)
| Invalid (len : nat)
| Incomplete.

Definition is_cont (b : N) : bool := (0x80 <=? b) && (b <=? 0xBF).

(** The admissible second bytes of a three-byte and a four-byte sequence. *)
Definition second3 (b0 b1 : N) : bool :=
  if b0 =? 0xE0 then (0xA0 <=? b1) && (b1 <=? 0xBF)
  else if b0 =? 0xED then (0x80 <=? b1) && (b1 <=? 0x9F)
  else is_cont b1.
Definition second4 (b0 b1 : N) : bool :=
  if b0 =? 0xF0 then (0x90 <=? b1) && (b1 <=? 0xBF)
  else if b0 =? 0xF4 then (0x80 <=? b1) && (b1 <=? 0x8F)
  else is_cont b1.

Definition decode1 (b0 : N) (rest : list N) : decoded :=
  if b0 <? 0x80 then Decoded b0 rest
  else if (0xC2 <=? b0) && (b0 <=? 0xDF) then
    match rest with
    | [] => Incomplete
    | b1 :: rest =>
        if is_cont b1 then Decoded ((b0 - 0xC0) * 64 + (b1 - 0x80)) rest else Invalid 1
    end
  else if (0xE0 <=? b0) && (b0 <=? 0xEF) then
    match rest with
    | [] => Incomplete
    | b1 :: rest =>
        if negb (second3 b0 b1) then Invalid 1
        else
          match rest with
          | [] => Incomplete
          | b2 :: rest =>
              if is_cont b2 then
                Decoded ((b0 - 0xE0) * 4096 + (b1 - 0x80) * 64 + (b2 - 0x80)) rest
              else Invalid 2
          end
    end
  else if (0xF0 <=? b0) && (b0 <=? 0xF4) then
    match rest with
    | [] => Incomplete
    | b1 :: rest =>
        if negb (second4 b0 b1) then Invalid 1
        else
          match rest with
          | [] => Incomplete
          | b2 :: rest =>
              if negb (is_cont b2) then Invalid 2
              else
                match rest with
                | [] => Incomplete
                | b3 :: rest =>
                    if is_cont b3 then
                      Decoded ((b0 - 0xF0) * 262144 + (b1 - 0x80) * 4096 + (b2 - 0x80) * 64
                               + (b3 - 0x80)) rest
                    else Invalid 3
                end
          end
    end
  else Invalid 1.

(** Decoding with the input length as fuel: every char takes a byte. *)
Fixpoint from_utf8_loop (fuel : nat) (valid : nat) (bytes : list N) : result str Utf8Error :=
  match bytes, fuel with
  | [], _ => Ok []
  | _ :: _, 0%nat => Err (mkUtf8Error valid None)
  | b0 :: rest, S fuel =>
      match decode1 b0 rest with
      | Decoded c rest' =>
          match from_utf8_loop fuel (valid + (S (length rest) - length rest')) rest' with
          | Ok s => Ok (c :: s)
          | Err e => Err e
          end
      | Invalid n => Err (mkUtf8Error valid (Some n))
      | Incomplete => Err (mkUtf8Error valid None)
      end
  end.

Definition from_utf8 (bytes : list N) : result str Utf8Error :=
  from_utf8_loop (length bytes) 0 bytes.

Local Close Scope N_scope.

(** ** utf8_stream.rs *)

Inductive Utf8StreamParserError :=
| InvalidUtf8 (valid_up_to : nat) (error_len : nat)
| IncompleteUtf8AtEof.

Definition show_utf8_error (e : Utf8StreamParserError) : str :=
  match e with
  | InvalidUtf8 valid_up_to error_len =>
      lit "invalid UTF-8 in streamed bytes at offset " ++ show_nat valid_up_to
      ++ lit " (error length " ++ show_nat error_len ++ lit ")"
  | IncompleteUtf8AtEof => lit "incomplete UTF-8 code point at end of stream"
  end.

Record Utf8StreamParser (P : Type) := mkUtf8Parser { inner : P; pending_utf8 : list N }.
Arguments mkUtf8Parser {P} _ _.
Arguments inner {P} _.
Arguments pending_utf8 {P} _.

Section Parser.
Context {P T : Type} `{StreamTextParser P T}.

Definition new (p : P) : Utf8StreamParser P := mkUtf8Parser p [].

Definition push_bytes (p : Utf8StreamParser P) (chunk : list N)
  : Utf8StreamParser P * result (StreamTextChunk T) Utf8StreamParserError :=
  let old_len := length (pending_utf8 p) in
  let bytes := pending_utf8 p ++ chunk in
  match from_utf8 bytes with
  | Ok text =>
      let '(i, out) := push_str (inner p) text in
      (mkUtf8Parser i [], Ok out)
  | Err err =>
      match error_len err with
      | Some n =>
          (mkUtf8Parser (inner p) (take old_len bytes), Err (InvalidUtf8 (valid_up_to err) n))
      | None =>
          let n := valid_up_to err in
          if n =? 0 then (mkUtf8Parser (inner p) bytes, Ok chunk_default)
          else
            match from_utf8 (take n bytes) with
            | Ok text =>
                let '(i, out) := push_str (inner p) text in
                (mkUtf8Parser i (drop n bytes), Ok out)
            | Err prefix_err =>
                (mkUtf8Parser (inner p) (take old_len bytes),
                 Err (InvalidUtf8 (valid_up_to prefix_err) (default 0 (error_len prefix_err))))
            end
      end
  end.

(** The check that [finish] and [into_inner] share. *)
Definition check_pending (bytes : list N) : result str Utf8StreamParserError :=
  match from_utf8 bytes with
  | Ok text => Ok text
  | Err err =>
      match error_len err with
      | Some n => Err (InvalidUtf8 (valid_up_to err) n)
      | None => Err IncompleteUtf8AtEof
      end
  end.

Definition finish_bytes (p : Utf8StreamParser P)
  : Utf8StreamParser P * result (StreamTextChunk T) Utf8StreamParserError :=
  let finish_with (i : P) (out : StreamTextChunk T) :=
    let '(i, tail) := finish i in (mkUtf8Parser i [], Ok (chunk_app out tail)) in
  if is_empty (pending_utf8 p) then finish_with (inner p) chunk_default
  else
    match check_pending (pending_utf8 p) with
    | Err e => (p, Err e)
    | Ok text => let '(i, out) := push_str (inner p) text in finish_with i out
    end.

Definition into_inner (p : Utf8StreamParser P) : result P Utf8StreamParserError :=
  if is_empty (pending_utf8 p) then Ok (inner p)
  else
    match check_pending (pending_utf8 p) with
    | Ok _ => Ok (inner p)
    | Err e => Err e
    end.

Definition into_inner_lossy (p : Utf8StreamParser P) : P := inner p.

(** Feeding byte chunks until one is rejected. *)
Fixpoint push_bytes_all (p : Utf8StreamParser P) (cs : list (list N))
  : Utf8StreamParser P * result (StreamTextChunk T) Utf8StreamParserError :=
  match cs with
  | [] => (p, Ok chunk_default)
  | c :: cs' =>
      match push_bytes p c with
      | (p, Err e) => (p, Err e)
      | (p, Ok o) =>
          match push_bytes_all p cs' with
          | (p, Err e) => (p, Err e)
          | (p, Ok o') => (p, Ok (chunk_app o o'))
          end
      end
  end.

End Parser.

(** ** Encoding *)

Definition is_scalar (c : char) : bool :=
  ((c <? 0xD800) || (0xE000 <=? c) && (c <? 0x110000))%N.

Definition encode1 (c : char) : list N :=
  (if c <? 0x80 then [c]
   else if c <? 0x800 then [0xC0 + c / 64; 0x80 + c mod 64]
   else if c <? 0x10000 then [0xE0 + c / 4096; 0x80 + c / 64 mod 64; 0x80 + c mod 64]
   else [0xF0 + c / 262144; 0x80 + c / 4096 mod 64; 0x80 + c / 64 mod 64; 0x80 + c mod 64])%N.

Definition encode (s : str) : list N := mjoin (List.map encode1 s).

Definition scalars (s : str) : Prop := Forall (fun c => is_scalar c = true) s.

Example utf8_ex : from_utf8 (encode [0x41; 0xE9; 0x20AC; 0x1F600]%N) = Ok [0x41; 0xE9; 0x20AC; 0x1F600]%N.
Proof. by vm_compute. Qed.
Example utf8_incomplete : from_utf8 [0x41; 0xE2; 0x82]%N = Err (mkUtf8Error 1 None).
Proof. by vm_compute. Qed.
End Utf8.

(** * Theorems about the byte front end: a rejected chunk leaves no trace, and
    for valid UTF-8 the byte boundaries of the chunks are not observable. *)

Module Utf8Facts.
Import StreamText Utf8.

(** ** Decoding what was encoded *)

Section Decode.
Local Open Scope N_scope.

(** The digits of [c] in base 64. *)
Lemma digits c :
  c = c / 64 * 64 + c mod 64 /\ 0 <= c mod 64 < 64 /\
  c / 64 = c / 4096 * 64 + c / 64 mod 64 /\ 0 <= c / 64 mod 64 < 64 /\
  c / 4096 = c / 262144 * 64 + c / 4096 mod 64 /\ 0 <= c / 4096 mod 64 < 64 /\
  0 <= c / 262144.
Proof.
  assert (E1 : c / 4096 = c / 64 / 64) by (by rewrite N.Div0.div_div).
  assert (E2 : c / 262144 = c / 4096 / 64) by (by rewrite N.Div0.div_div).
  rewrite E2, !E1.
  pose proof (N.div_mod c 64). pose proof (N.div_mod (c / 64) 64). pose proof (N.div_mod (c / 64 / 64) 64).
  pose proof (N.mod_lt c 64). pose proof (N.mod_lt (c / 64) 64). pose proof (N.mod_lt (c / 64 / 64) 64).
  split_and!; lia || apply N.le_0_l.
Qed.

(** A boolean combination of comparisons, decided by [lia]. *)
Ltac decide_bool :=
  unfold second3, second4, is_cont;
  repeat match goal with
  | |- context [?x <=? ?y] => destruct (N.leb_spec x y)
  | |- context [?x <? ?y] => destruct (N.ltb_spec x y)
  | |- context [?x =? ?y] => destruct (N.eqb_spec x y)
  end; first [reflexivity|exfalso; lia].

(** Decide the guard of the outermost conditional. *)
Ltac decide_guard :=
  match goal with
  | |- context [if ?b then _ else _] =>
      let E := fresh in
      first [assert (E : b = true) by decide_bool|assert (E : b = false) by decide_bool];
      rewrite E; clear E
  end.

Lemma decode1_encode1 c :
  is_scalar c = true ->
  exists b0 tl, encode1 c = b0 :: tl /\ length (encode1 c) = len_utf8 c /\
    (forall rest, decode1 b0 (tl ++ rest) = Decoded c rest) /\
    (forall tl' x y, tl = tl' ++ x :: y -> decode1 b0 tl' = Incomplete).
Proof.
  unfold is_scalar, encode1, len_utf8. intros Hs.
  assert (Hc : c < 0xD800 \/ 0xE000 <= c < 0x110000).
  { rewrite orb_true_iff, andb_true_iff, !N.ltb_lt, N.leb_le in Hs. done. }
  clear Hs. pose proof (digits c) as Hd.
  destruct (N.ltb_spec c 0x80); [|destruct (N.ltb_spec c 0x800); [|destruct (N.ltb_spec c 0x10000)]].
  - exists c, []. split_and!; [done|done| |by intros [|??]].
    intros rest. unfold decode1. by decide_guard.
  - eexists _, _. split_and!; [done|done| |].
    + intros rest. cbn [app]. unfold decode1. do 3 decide_guard. f_equal. lia.
    + intros [|? [|??]] x y E; simplify_eq/=. unfold decode1. by do 2 decide_guard.
  - eexists _, _. split_and!; [done|done| |].
    + intros rest. cbn [app]. unfold decode1. do 5 decide_guard. f_equal. lia.
    + intros [|? [|? [|??]]] x y E; simplify_eq/=; unfold decode1; [by do 3 decide_guard|by do 4 decide_guard].
  - eexists _, _. split_and!; [done|done| |].
    + intros rest. cbn [app]. unfold decode1. do 7 decide_guard. f_equal. lia.
    + intros [|? [|? [|? [|??]]]] x y E; simplify_eq/=; unfold decode1;
        [by do 4 decide_guard|by do 5 decide_guard|by do 6 decide_guard].
Qed.

End Decode.

(** A proper prefix of the encoding of one char. *)
Definition partial_char (pb : list N) : Prop :=
  pb = [] \/ exists c x y, is_scalar c = true /\ encode1 c = pb ++ x :: y.

Lemma encode_cons c s : encode (c :: s) = encode1 c ++ encode s.
Proof. done. Qed.

Lemma encode_app s t : encode (s ++ t) = encode s ++ encode t.
Proof. unfold encode. by rewrite map_app, join_app. Qed.

Lemma encode1_nonempty c : encode1 c <> [].
Proof. unfold encode1. by repeat case_match. Qed.

Lemma length_encode s : scalars s -> length (encode s) = str_len s.
Proof.
  induction 1 as [|c s Hc _ IH]; [done|]. rewrite encode_cons, length_app, IH. simpl.
  destruct (decode1_encode1 c Hc) as (b0 & tl & _ & -> & _). done.
Qed.

Lemma from_utf8_loop_encode f v s pb :
  scalars s -> partial_char pb -> length (encode s ++ pb) <= f ->
  from_utf8_loop f v (encode s ++ pb) =
  if is_empty pb then Ok s else Err (mkUtf8Error (v + length (encode s)) None).
Proof.
  intros Hs Hpb. revert f v. induction Hs as [|c s Hc Hs IH]; intros f v Hf.
  - cbn [encode List.map mjoin list_join app] in *. rewrite Nat.add_0_r.
    destruct pb as [|b pb]; [by destruct f|]. destruct f as [|f]; [cbn in Hf; lia|].
    destruct Hpb as [|(c & x & y & Hc & E)]; [done|].
    destruct (decode1_encode1 c Hc) as (b0 & tl & Eb & _ & _ & Hi). rewrite Eb in E.
    injection E as -> E. cbn [from_utf8_loop is_empty]. by rewrite (Hi pb x y E).
  - destruct (decode1_encode1 c Hc) as (b0 & tl & Eb & _ & Hd & _).
    rewrite encode_cons, Eb in *. rewrite <- app_assoc in *. cbn [app] in *.
    destruct f as [|f]; [cbn in Hf; lia|]. cbn [from_utf8_loop]. rewrite Hd, IH.
    + destruct pb; cbn [is_empty]; [done|]. do 2 f_equal. rewrite !length_app. cbn [length].
      rewrite !length_app. cbn [length]. lia.
    + cbn in Hf. rewrite length_app in Hf. lia.
Qed.

Lemma from_utf8_encode s pb :
  scalars s -> partial_char pb ->
  from_utf8 (encode s ++ pb) =
  if is_empty pb then Ok s else Err (mkUtf8Error (length (encode s)) None).
Proof. intros Hs Hp. unfold from_utf8. by rewrite from_utf8_loop_encode. Qed.

(** A prefix of an encoded text is some chars and a partial one. *)
Lemma encode_prefix r a b :
  scalars r -> encode r = a ++ b ->
  exists t r' pb, r = t ++ r' /\ a = encode t ++ pb /\ encode r' = pb ++ b /\ partial_char pb.
Proof.
  intros Hr. revert a. induction Hr as [|c r Hc Hr IH]; intros a E.
  - symmetry in E. apply app_eq_nil in E as [-> ->]. exists [], [], []. by split_and!; try left.
  - rewrite encode_cons in E. pose proof E as E0. apply app_eq_inv in E as [(k & E1 & E2)|(k & -> & E2)].
    + destruct k as [|x k].
      * rewrite app_nil_r in E1. subst a. exists [c], r, []. rewrite encode_cons, !app_nil_r.
        split_and!; try done. by left.
      * exists [], (c :: r), a. rewrite encode_cons. split_and!; try done. right. by exists c, x, k.
    + destruct (IH k E2) as (t & r' & pb & -> & -> & E3 & Hp).
      exists (c :: t), r', pb. split_and!; try done. by rewrite encode_cons, app_assoc.
Qed.

Lemma partial_char_all r pb : scalars r -> partial_char pb -> encode r = pb -> r = [].
Proof.
  intros Hr Hp E. destruct r as [|c r]; [done|]. rewrite encode_cons in E.
  apply Forall_cons in Hr as [Hc Hr].
  assert (Hl := from_utf8_encode [] pb ltac:(constructor) Hp).
  assert (Hl' := from_utf8_encode (c :: r) [] ltac:(by constructor) ltac:(by left)).
  rewrite app_nil_r, encode_cons, E in Hl'. cbn [app] in Hl.
  change (encode [] ++ pb) with pb in Hl. rewrite Hl in Hl'.
  destruct pb; [|done]. by destruct (encode1_nonempty c); destruct (encode1 c).
Qed.

Section Stream.
Context {P T : Type} `{HP : StreamTextParser P T} `{HT : Payloads T} `{HC : !ChunkInvariant P T}.
Notation parser := (Utf8StreamParser P).

(** A chunk that makes the buffered bytes invalid UTF-8 is rolled back
    whole: the wrapped parser has seen nothing of it and the buffered bytes
    are those from before the call. *)
Theorem rejected_chunk_rolled_back (p : parser) chunk p' e :
  push_bytes p chunk = (p', Err e) -> p' = p.
Proof using.
  destruct p as [i pb]. unfold push_bytes. cbn [pending_utf8 inner].
  destruct (from_utf8 (pb ++ chunk)) as [text|err]; [by destruct (push_str i text)|].
  assert (Ht : take (length pb) (pb ++ chunk) = pb) by apply take_app_length.
  destruct (error_len err); [rewrite Ht; by intros; simplify_eq|].
  destruct (valid_up_to err =? 0); [done|].
  destruct (from_utf8 (take _ _)) as [text|err']; [by destruct (push_str i text)|].
  rewrite Ht. by intros; simplify_eq.
Qed.

(** Pushing bytes that decode to [t] and a partial char. *)
Lemma push_bytes_partial (i : P) pb0 chunk t pb :
  scalars t -> partial_char pb -> pb0 ++ chunk = encode t ++ pb ->
  exists pieces,
    push_bytes (mkUtf8Parser i pb0) chunk =
      (mkUtf8Parser (push_all i pieces).1 pb, Ok (push_all i pieces).2) /\ mjoin pieces = t.
Proof using.
  intros Ht Hpb E. unfold push_bytes. cbn [pending_utf8 inner]. rewrite E, from_utf8_encode by done.
  assert (Hone : forall q, push_all i [t] = q -> push_str i t = q).
  { cbn. intros q <-. destruct (push_str i t). by rewrite chunk_app_nil_r. }
  destruct pb as [|b pb]; cbn [is_empty].
  - exists [t]. rewrite (Hone _ eq_refl). destruct (push_all i [t]) as [i' o].
    split; [done|]. simpl. by rewrite app_nil_r.
  - cbn [error_len valid_up_to]. destruct (Nat.eqb_spec (length (encode t)) 0) as [E0|E0].
    + exists []. apply nil_length_inv in E0. rewrite E0. split; [done|].
      destruct t as [|c t]; [done|]. rewrite encode_cons in E0.
      by apply app_eq_nil in E0 as [?%encode1_nonempty _].
    + exists [t]. rewrite take_app_length, drop_app_length.
      pose proof (from_utf8_encode t [] Ht ltac:(by left)) as Hd. rewrite app_nil_r in Hd. rewrite Hd.
      cbn [is_empty]. rewrite (Hone _ eq_refl). destruct (push_all i [t]) as [i' o].
      split; [done|]. simpl. by rewrite app_nil_r.
Qed.

Lemma push_all_app i a b :
  push_all i (a ++ b) =
  let '(i1, o1) := push_all i a in
  let '(i2, o2) := push_all i1 b in
  (i2, chunk_app o1 o2).
Proof using.
  revert i. induction a as [|c a IH]; intros i; cbn [app push_all].
  - destruct (push_all i b). by rewrite chunk_app_nil_l.
  - destruct (push_str i c) as [i1 o1]. rewrite IH. destruct (push_all i1 a) as [i2 o2].
    destruct (push_all i2 b). by rewrite chunk_app_assoc.
Qed.

Lemma push_bytes_all_text (i : P) pb0 cs r :
  scalars r -> partial_char pb0 -> encode r = pb0 ++ mjoin cs ->
  exists pieces,
    push_bytes_all (mkUtf8Parser i pb0) cs =
      (mkUtf8Parser (push_all i pieces).1 [], Ok (push_all i pieces).2) /\ mjoin pieces = r.
Proof using.
  revert i pb0 r. induction cs as [|c cs IH]; intros i pb0 r Hr Hpb E.
  - change (encode r = pb0 ++ []) in E. rewrite app_nil_r in E.
    pose proof (partial_char_all r pb0 Hr Hpb E). subst r. exists []. by rewrite <- E.
  - rewrite mjoin_cons, app_assoc in E.
    destruct (encode_prefix r _ _ Hr E) as (t & r' & pb & -> & Ea & Eb & Hp).
    apply Forall_app in Hr as [Ht Hr'].
    destruct (push_bytes_partial i pb0 c t pb Ht Hp Ea) as (ps & E1 & Hps).
    destruct (IH (push_all i ps).1 pb r' Hr' Hp Eb) as (qs & E2 & Hqs).
    exists (ps ++ qs). cbn [push_bytes_all]. rewrite E1, E2, push_all_app.
    destruct (push_all i ps) as [i1 o1]. cbn [fst snd]. destruct (push_all i1 qs) as [i2 o2].
    split; [done|]. by rewrite join_app, Hps, Hqs.
Qed.

(** C37: for valid UTF-8 the front end is transparent: a non-empty text, encoded
    and cut at arbitrary byte positions, even inside a char, is accepted, ends
    with nothing buffered, and gives the result of parsing the text itself. *)
Theorem utf8_stream_transparent (i : P) s cs :
  valid i -> scalars s -> s <> [] -> mjoin cs = encode s ->
  exists q o tail,
    push_bytes_all (new i) cs = (q, Ok o) /\ pending_utf8 q = [] /\
    (finish_bytes q).2 = Ok tail /\ same_chunk (chunk_app o tail) (parse_all i [s]).
Proof.
  intros Hv Hs Hne E.
  destruct (push_bytes_all_text i [] cs s Hs ltac:(by left) (eq_sym E)) as (ps & E1 & Hps).
  destruct (finish (push_all i ps).1) as [i' tail] eqn:Ef.
  exists (mkUtf8Parser (push_all i ps).1 []), (push_all i ps).2, tail.
  split_and!; [done|done| |].
  - unfold finish_bytes. cbn [pending_utf8 is_empty inner]. rewrite Ef. by rewrite chunk_app_nil_l.
  - replace (chunk_app _ tail) with (parse_all i ps)
      by (unfold parse_all; destruct (push_all i ps); cbn in *; by rewrite Ef).
    apply parse_all_chunking; [done| |done|]; [|by rewrite Hps; simpl; rewrite app_nil_r].
    intros ->. cbn in Hps. congruence.
Qed.

End Stream.

(** The citation parser behind the byte front end. *)
Section Witnesses.
Import InlineTag InlineTagFacts.

Lemma rejected_chunk_rolled_back_witness :
  (push_bytes (mkUtf8Parser citation_new [0xE2]%N) [0x82; 0x41]%N).1 =
  mkUtf8Parser citation_new [0xE2]%N.
Proof.
  apply (rejected_chunk_rolled_back (mkUtf8Parser citation_new [0xE2]%N) [0x82; 0x41]%N _
           (InvalidUtf8 0 2)).
  by vm_compute.
Defined.

Lemma utf8_stream_transparent_witness :
  exists q o tail,
    push_bytes_all (Utf8.new citation_new) [[0x61; 0xE2]; [0x82]; [0xAC; 0x3C]]%N = (q, Ok o) /\
    pending_utf8 q = [] /\ (finish_bytes q).2 = Ok tail /\
    same_chunk (chunk_app o tail) (parse_all citation_new [[0x61; 0x20AC; 0x3C]%N]).
Proof.
  apply (utf8_stream_transparent citation_new [0x61; 0x20AC; 0x3C]%N [[0x61; 0xE2]; [0x82]; [0xAC; 0x3C]]%N);
    [apply citation_new_valid|repeat constructor|done|done].
Defined.

End Witnesses.
End Utf8Facts.
