(* ===== verification/AssistantText.v ===== *)
(** The assistant text pipeline
    (utils/stream-parser/src/assistant_text.rs): citations are stripped first,
    then, in plan mode, the proposed plan blocks of what remains. *)

From stdpp Require Import base list option numbers strings.
From S2P Require Import Prelude RustStr StreamText InlineTag InlineTagFacts TaggedLine TaggedLineFacts.

Module AssistantText.
Import StreamText.

Record AssistantTextChunk := mkAssistant {
  visible : str;
  citations : list str;
  plan_segments : list TaggedLine.ProposedPlanSegment;
}.

Definition assistant_default : AssistantTextChunk := mkAssistant [] [] [].

Definition assistant_is_empty (c : AssistantTextChunk) : bool :=
  is_empty (visible c) && is_empty (citations c) && is_empty (plan_segments c).

Record AssistantTextStreamParser := mkAssistantParser {
  plan_mode : bool;
  citation_state : InlineTag.CitationStreamParser;
  plan_state : TaggedLine.ProposedPlanParser;
}.

Definition new (plan_mode : bool) : AssistantTextStreamParser :=
  mkAssistantParser plan_mode InlineTag.citation_new TaggedLine.plan_new.

Definition parse_visible_text (p : AssistantTextStreamParser) (visible_text : str)
  : AssistantTextStreamParser * AssistantTextChunk :=
  if negb (plan_mode p) then (p, mkAssistant visible_text [] [])
  else
    let '(plan, plan_chunk) := TaggedLine.plan_push_str (plan_state p) visible_text in
    (mkAssistantParser (plan_mode p) (citation_state p) plan,
     mkAssistant (StreamText.visible_text plan_chunk) [] (extracted plan_chunk)).

Definition set_citations (c : AssistantTextChunk) (cs : list str) : AssistantTextChunk :=
  mkAssistant (visible c) cs (plan_segments c).

Definition push_str (p : AssistantTextStreamParser) (chunk : str)
  : AssistantTextStreamParser * AssistantTextChunk :=
  let '(cit, citation_chunk) := InlineTag.citation_push_str (citation_state p) chunk in
  let p := mkAssistantParser (plan_mode p) cit (plan_state p) in
  let '(p, out) := parse_visible_text p (visible_text citation_chunk) in
  (p, set_citations out (extracted citation_chunk)).

Definition finish (p : AssistantTextStreamParser) : AssistantTextStreamParser * AssistantTextChunk :=
  let '(cit, citation_chunk) := InlineTag.citation_finish (citation_state p) in
  let p := mkAssistantParser (plan_mode p) cit (plan_state p) in
  let '(p, out) := parse_visible_text p (visible_text citation_chunk) in
  let '(p, out) :=
    if plan_mode p then
      let '(plan, tail) := TaggedLine.plan_finish (plan_state p) in
      let p := mkAssistantParser (plan_mode p) (citation_state p) plan in
      if chunk_is_empty tail then (p, out)
      else
        (p, mkAssistant (visible out ++ visible_text tail) (citations out)
              (plan_segments out ++ extracted tail))
    else (p, out) in
  (p, set_citations out (extracted citation_chunk)).

(** ** The whole life of the parser *)

Definition assistant_app (a b : AssistantTextChunk) : AssistantTextChunk :=
  mkAssistant (visible a ++ visible b) (citations a ++ citations b)
    (plan_segments a ++ plan_segments b).

Fixpoint push_all (p : AssistantTextStreamParser) (cs : list str)
  : AssistantTextStreamParser * AssistantTextChunk :=
  match cs with
  | [] => (p, assistant_default)
  | c :: cs' =>
      let '(p, o) := push_str p c in
      let '(p, o') := push_all p cs' in
      (p, assistant_app o o')
  end.

Definition parse_all (p : AssistantTextStreamParser) (cs : list str) : AssistantTextChunk :=
  let '(p, o) := push_all p cs in assistant_app o (finish p).2.

(** Results are compared with adjacent plan texts merged. *)
Definition same_assistant (a b : AssistantTextChunk) : Prop :=
  visible a = visible b /\ citations a = citations b /\
  TaggedLineFacts.same_plan (plan_segments a) (plan_segments b).

Section Pipeline.
Import InlineTag InlineTagFacts TaggedLine TaggedLineFacts.

(** The visible texts of the citation parser, call by call. *)
Fixpoint citation_outputs (p : CitationStreamParser) (cs : list str)
  : CitationStreamParser * list str :=
  match cs with
  | [] => (p, [])
  | c :: cs' =>
      let '(p, o) := citation_push_str p c in
      let '(p, os) := citation_outputs p cs' in
      (p, visible_text o :: os)
  end.

(** Pushing is two stages run side by side. *)
Lemma push_all_stages m cit plan cs :
  let '(cit', o) := StreamText.push_all cit cs in
  let '(_, vs) := citation_outputs cit cs in
  mjoin vs = visible_text o /\
  push_all (mkAssistantParser m cit plan) cs =
  if m then
    let '(plan', o') := StreamText.push_all plan vs in
    (mkAssistantParser m cit' plan', mkAssistant (visible_text o') (extracted o) (extracted o'))
  else (mkAssistantParser m cit' plan, mkAssistant (visible_text o) (extracted o) []).
Proof.
  revert cit plan. induction cs as [|c cs IH]; intros cit plan.
  { cbn. by destruct m. }
  cbn [StreamText.push_all citation_outputs push_all].
  unfold push_str. cbn [citation_state plan_state plan_mode StreamText.push_str citation_parser].
  destruct (citation_push_str cit c) as [cit1 o1].
  unfold parse_visible_text. cbn [citation_state plan_state plan_mode].
  destruct m; cbn [negb].
  - destruct (plan_push_str plan (visible_text o1)) as [plan1 oo1] eqn:Ep. specialize (IH cit1 plan1).
    destruct (StreamText.push_all cit1 cs) as [cit2 o2].
    destruct (citation_outputs cit1 cs) as [cit3 vs]. destruct IH as [Hv ->].
    rewrite mjoin_cons, Hv. split; [done|].
    cbn [StreamText.push_all StreamText.push_str plan_parser]. rewrite Ep.
    by destruct (StreamText.push_all plan1 vs).
  - specialize (IH cit1 plan). destruct (StreamText.push_all cit1 cs) as [cit2 o2].
    destruct (citation_outputs cit1 cs) as [cit3 vs]. destruct IH as [Hv ->].
    by rewrite mjoin_cons, Hv.
Qed.

Lemma plan_parse_all_snoc plan vs v :
  StreamText.parse_all plan (vs ++ [v]) =
  let '(plan1, o1) := StreamText.push_all plan vs in
  let '(plan2, o2) := plan_push_str plan1 v in
  chunk_app o1 (chunk_app o2 (plan_finish plan2).2).
Proof.
  unfold StreamText.parse_all. revert plan. induction vs as [|x vs IH]; intros plan.
  - cbn [app StreamText.push_all StreamText.push_str StreamText.finish plan_parser].
    destruct (plan_push_str plan v) as [p2 o2]. by rewrite chunk_app_nil_r, chunk_app_nil_l.
  - cbn [app StreamText.push_all StreamText.push_str StreamText.finish plan_parser].
    destruct (plan_push_str plan x) as [p1 o1]. specialize (IH p1).
    destruct (StreamText.push_all p1 (vs ++ [v])) as [p3 o3].
    destruct (StreamText.push_all p1 vs) as [p4 o4].
    destruct (plan_push_str p4 v) as [p5 o5]. by rewrite <- !chunk_app_assoc, <- IH.
Qed.

(** The pipeline as the composition of its two stages. *)
Lemma parse_all_stages m cs :
  exists vs v,
    mjoin (vs ++ [v]) = visible_text (StreamText.parse_all citation_new cs) /\
    parse_all (AssistantText.new m) cs =
    let c := StreamText.parse_all citation_new cs in
    if m then
      let pl := StreamText.parse_all plan_new (vs ++ [v]) in
      mkAssistant (visible_text pl) (extracted c) (extracted pl)
    else mkAssistant (visible_text c) (extracted c) [].
Proof.
  pose proof (push_all_stages m citation_new plan_new cs) as Hs.
  unfold AssistantText.new, parse_all.
  assert (Hc : StreamText.parse_all citation_new cs =
    let '(p, o) := StreamText.push_all citation_new cs in chunk_app o (citation_finish p).2) by done.
  rewrite !Hc. cbn zeta. clear Hc.
  destruct (StreamText.push_all citation_new cs) as [cit o].
  destruct (citation_outputs citation_new cs) as [cit' vs]. destruct Hs as [Hv ->].
  exists vs, (visible_text (citation_finish cit).2). split.
  { rewrite join_app, Hv. unfold mjoin. cbn [list_join]. by rewrite app_nil_r. }
  destruct m.
  - rewrite plan_parse_all_snoc. destruct (StreamText.push_all plan_new vs) as [pl1 o1].
    unfold finish. cbn [citation_state plan_state plan_mode].
    destruct (citation_finish cit) as [cit2 o2]. unfold parse_visible_text.
    cbn [citation_state plan_state plan_mode negb snd].
    destruct (plan_push_str pl1 (visible_text o2)) as [pl2 oo2]. cbn [plan_mode plan_state].
    destruct (plan_finish pl2) as [pl3 t]. destruct t as [tv te]. cbn [snd].
    unfold assistant_app, chunk_app. destruct (chunk_is_empty _) eqn:E.
    + apply andb_true_iff in E as [->%is_empty_true ->%is_empty_true].
      cbn. by rewrite !app_nil_r.
    + cbn. by rewrite !app_assoc.
  - unfold finish. cbn [citation_state plan_state plan_mode].
    by destruct (citation_finish cit) as [cit2 o2].
Qed.

Lemma citation_whole cs :
  cs <> [] -> StreamText.parse_all citation_new cs =
  mkChunkOf (strip_citations (mjoin cs)).1 (strip_citations (mjoin cs)).2.
Proof.
  intros Hne. rewrite strip_citations_parse.
  destruct (parse_all_chunking citation_new cs [mjoin cs]) as [Ev Ee];
    [apply citation_new_valid|done|done|simpl; by rewrite app_nil_r|].
  destruct (StreamText.parse_all citation_new cs). cbn [fst snd] in *. cbn in Ev, Ee. by subst.
Qed.

(** C27: streaming the assistant's text is processing the whole text in two
    passes, however it is cut: the citations are those of the text; without
    plan mode the visible text is the text without citations; in plan mode it
    is that text without its plan blocks, and the plan segments carry exactly
    the plan that extraction finds in it. *)
Theorem assistant_stream_whole_text cs :
  cs <> [] ->
  let text := mjoin cs in
  let stripped := (strip_citations text).1 in
  parse_all (AssistantText.new false) cs = mkAssistant stripped (strip_citations text).2 [] /\
  visible (parse_all (AssistantText.new true) cs) = strip_proposed_plan_blocks stripped /\
  citations (parse_all (AssistantText.new true) cs) = (strip_citations text).2 /\
  (let '(saw, t) := extract_loop false [] (plan_segments (parse_all (AssistantText.new true) cs)) in
   if saw then Some t else None) = extract_proposed_plan_text stripped.
Proof.
  intros Hne text stripped. pose proof (citation_whole cs Hne) as Hc.
  destruct (parse_all_stages false cs) as (vs0 & v0 & _ & ->).
  destruct (parse_all_stages true cs) as (vs & v & Hv & ->).
  rewrite Hc in *. cbn [visible_text extracted] in *. fold text stripped in Hv |- *.
  destruct (plan_parse_reference (vs ++ [v])) as [Hvis Hext]. rewrite Hv in Hvis, Hext.
  split_and!; [done| |done|]; cbn [visible plan_segments].
  - by rewrite strip_reference, Hvis.
  - rewrite extract_reference, <- Hext. unfold extract_step. by rewrite map_unmap.
Qed.

Lemma assistant_stream_whole_text_witness :
  let text := mjoin [lit "a <oai-mem"; lit "-citation>x</oai-mem-citation>b"] in
  let stripped := (strip_citations text).1 in
  parse_all (AssistantText.new false) [lit "a <oai-mem"; lit "-citation>x</oai-mem-citation>b"]
    = mkAssistant stripped (strip_citations text).2 [].
Proof. by apply (assistant_stream_whole_text [lit "a <oai-mem"; lit "-citation>x</oai-mem-citation>b"]). Defined.

End Pipeline.
End AssistantText.
