(* ===== verification/ExecPolicy.v ===== *)
(** The execution policy engine (execpolicy/src): decisions
    (decision.rs), executable names (executable_name.rs), prefix and network
    rules (rule.rs), the policy and its evaluation (policy.rs), and the error
    type (error.rs). *)

From stdpp Require Import base list option numbers strings gmap sorting.
From S2P Require Import Prelude RustStr.

Module ExecPolicy.

(** ** decision.rs *)

Inductive Decision := Allow | Prompt | Forbidden.

#[export] Instance decision_eq_dec : EqDecision Decision.
Proof. solve_decision. Defined.

(** The derived [Ord]: by declaration order. *)
Definition rank (d : Decision) : nat :=
  match d with Allow => 0 | Prompt => 1 | Forbidden => 2 end.

Definition decision_max (a b : Decision) : Decision := if rank a <=? rank b then b else a.

(** ** error.rs *)

Record TextPosition := mkPos { line : nat; column : nat }.
Record TextRange := mkRange { start : TextPosition; stop : TextPosition }.
Record ErrorLocation := mkLocation { loc_path : str; loc_range : TextRange }.

(** [S] stands for the error type of the Starlark interpreter. *)
Inductive Error (S : Type) :=
| InvalidDecision (raw : str)
| InvalidPattern (message : str)
| InvalidExample (message : str)
| InvalidRule (message : str)
| ExampleDidNotMatch (rules examples : list str) (location : option ErrorLocation)
| ExampleDidMatch (rule example : str) (location : option ErrorLocation)
| Starlark (e : S).
Arguments InvalidDecision {S} raw.
Arguments InvalidPattern {S} message.
Arguments InvalidExample {S} message.
Arguments InvalidRule {S} message.
Arguments ExampleDidNotMatch {S} rules examples location.
Arguments ExampleDidMatch {S} rule example location.
Arguments Starlark {S} e.

Section Errors.
Context {S : Type}.

Definition with_location (e : Error S) (location : ErrorLocation) : Error S :=
  match e with
  | ExampleDidNotMatch rules examples None => ExampleDidNotMatch rules examples (Some location)
  | ExampleDidMatch rule example None => ExampleDidMatch rule example (Some location)
  | other => other
  end.

(** The resolved span of a Starlark error, if it has one: file name and the
    zero-based positions of its begin and end. *)
Context (starlark_span : S -> option (str * TextPosition * TextPosition)).

Definition location (e : Error S) : option ErrorLocation :=
  match e with
  | ExampleDidNotMatch _ _ location | ExampleDidMatch _ _ location => location
  | Starlark err =>
      option_map
        (fun '(file, b, e) =>
           mkLocation file
             (mkRange (mkPos (line b + 1) (column b + 1)) (mkPos (line e + 1) (column e + 1))))
        (starlark_span err)
  | _ => None
  end.

Definition decision_parse (raw : str) : result Decision (Error S) :=
  if raw == lit "allow" then Ok Allow
  else if raw == lit "prompt" then Ok Prompt
  else if raw == lit "forbidden" then Ok Forbidden
  else Err (InvalidDecision raw).

End Errors.

(** ** rule.rs *)

Inductive PatternToken := Single (expected : str) | Alts (alternatives : list str).

Definition token_matches (p : PatternToken) (token : str) : bool :=
  match p with
  | Single expected => expected == token
  | Alts alternatives => existsb (fun alt => alt == token) alternatives
  end.

Definition token_alternatives (p : PatternToken) : list str :=
  match p with Single expected => [expected] | Alts alternatives => alternatives end.

Record PrefixPattern := mkPattern { first : str; rest : list PatternToken }.

(** The loop over the zipped tokens. *)
Fixpoint tokens_match (ps : list PatternToken) (ts : list str) : bool :=
  match ps, ts with
  | p :: ps', t :: ts' => if negb (token_matches p t) then false else tokens_match ps' ts'
  | _, _ => true
  end.

Definition matches_prefix (p : PrefixPattern) (cmd : list str) : option (list str) :=
  let pattern_length := length (rest p) + 1 in
  if (length cmd <? pattern_length) || negb (default [] (head cmd) == first p) then None
  else if tokens_match (rest p) (drop 1 (take pattern_length cmd)) then
    Some (take pattern_length cmd)
  else None.

Inductive NetworkRuleProtocol := Http | Https | Socks5Tcp | Socks5Udp.

Definition protocol_parse {S} (raw : str) : result NetworkRuleProtocol (Error S) :=
  if raw == lit "http" then Ok Http
  else if (raw == lit "https") || (raw == lit "https_connect") || (raw == lit "http-connect") then Ok Https
  else if raw == lit "socks5_tcp" then Ok Socks5Tcp
  else if raw == lit "socks5_udp" then Ok Socks5Udp
  else Err (InvalidRule
    (lit "network_rule protocol must be one of http, https, socks5_tcp, socks5_udp (got "
     ++ raw ++ lit ")")).

Definition as_policy_string (p : NetworkRuleProtocol) : str :=
  match p with
  | Http => lit "http"
  | Https => lit "https"
  | Socks5Tcp => lit "socks5_tcp"
  | Socks5Udp => lit "socks5_udp"
  end.

Record NetworkRule := mkNetworkRule {
  host : str;
  protocol : NetworkRuleProtocol;
  net_decision : Decision;
  net_justification : option str;
}.

Definition msg_host_empty : str := lit "network_rule host cannot be empty".
Definition msg_host_scheme : str :=
  lit "network_rule host must be a hostname or IP literal (without scheme or path)".
Definition msg_host_bracket : str := lit "network_rule host has an invalid bracketed IPv6 literal".
Definition msg_host_suffix (raw : str) : str :=
  lit "network_rule host contains an unsupported suffix: " ++ raw.
Definition msg_host_wildcard : str :=
  lit "network_rule host must be a specific host; wildcards are not allowed".
Definition msg_host_whitespace : str := lit "network_rule host cannot contain whitespace".

(** [!port.is_empty() && port.chars().all(|c| c.is_ascii_digit())]. *)
Definition is_port (port : str) : bool := negb (is_empty port) && forallb is_ascii_digit port.

(** [s.rsplit_once(c)]: around the last occurrence. *)
Definition rsplit_once_char (c : char) (s : str) : option (str * str) :=
  match split_once [c] (reverse s) with
  | Some (a, b) => Some (reverse b, reverse a)
  | None => None
  end.

(** [s.matches(c).count()]. *)
Definition count_char (c : char) (s : str) : nat := length (List.filter (fun d => (c =? d)%N) s).

(** The host without brackets or port. *)
Definition strip_port {S} (raw host : str) : result str (Error S) :=
  match strip_prefix (lit "[") host with
  | Some stripped =>
      match split_once (lit "]") stripped with
      | None => Err (InvalidRule msg_host_bracket)
      | Some (inside, rest) =>
          let port_ok := is_some_and (strip_prefix (lit ":") rest) is_port in
          if negb (is_empty rest) && negb port_ok then Err (InvalidRule (msg_host_suffix raw))
          else Ok inside
      end
  | None =>
      if count_char 58 host =? 1 then
        match rsplit_once_char 58 host with
        | Some (candidate, port) =>
            if negb (is_empty candidate) && is_port port then Ok candidate else Ok host
        | None => Ok host
        end
      else Ok host
  end.

Definition normalize_network_rule_host {S} (raw : str) : result str (Error S) :=
  let host := trim raw in
  if is_empty host then Err (InvalidRule msg_host_empty)
  else if contains (lit "://") host || contains_char 47 host || contains_char 63 host
          || contains_char 35 host
  then Err (InvalidRule msg_host_scheme)
  else
    match strip_port raw host with
    | Err e => Err e
    | Ok host =>
        let normalized := to_ascii_lowercase (trim (trim_end_by (N.eqb 46) host)) in
        if is_empty normalized then Err (InvalidRule msg_host_empty)
        else if contains_char 42 normalized then Err (InvalidRule msg_host_wildcard)
        else if existsb is_whitespace normalized then Err (InvalidRule msg_host_whitespace)
        else Ok normalized
    end.

(** ** Absolute paths

    [AbsolutePathBuf] and [Path::file_name], as far as the policy uses them. *)
Class AbsolutePaths (path : Type) := {
  path_eq_dec :: EqDecision path;
  path_try_from : str -> option path;
  path_file_name : path -> option str;
}.

Section Policy.
Context {path : Type} `{AbsolutePaths path} {S : Type}.

Inductive RuleMatch :=
| PrefixRuleMatch (matched_prefix : list str) (d : Decision) (resolved_program : option path)
    (justification : option str)
| HeuristicsRuleMatch (command : list str) (d : Decision).

Definition match_decision (m : RuleMatch) : Decision :=
  match m with PrefixRuleMatch _ d _ _ => d | HeuristicsRuleMatch _ d => d end.

Definition with_resolved_program (m : RuleMatch) (program : path) : RuleMatch :=
  match m with
  | PrefixRuleMatch matched_prefix d _ justification =>
      PrefixRuleMatch matched_prefix d (Some program) justification
  | other => other
  end.

(** [PrefixRule], the only implementation of the trait [Rule]. *)
Record PrefixRule := mkRule {
  pattern : PrefixPattern;
  decision : Decision;
  justification : option str;
}.

Definition rule_program (r : PrefixRule) : str := first (pattern r).

Definition rule_matches (r : PrefixRule) (cmd : list str) : option RuleMatch :=
  option_map (fun matched_prefix => PrefixRuleMatch matched_prefix (decision r) None (justification r))
    (matches_prefix (pattern r) cmd).

(** ** executable_name.rs (on a platform other than Windows) *)

Definition executable_lookup_key (raw : str) : str := raw.

Definition executable_path_lookup_key (p : path) : option str :=
  option_map executable_lookup_key (path_file_name p).

(** ** policy.rs *)

(** [MultiMap<String, RuleRef>]: per key the values in insertion order. *)
Notation multimap := (gmap str (list PrefixRule)) (only parsing).

Definition multimap_insert (k : str) (r : PrefixRule) (m : multimap) : multimap :=
  <[k := default [] (m !! k) ++ [r]]> m.

Record MatchOptions := mkOptions { resolve_host_executables : bool }.

Definition default_options : MatchOptions := mkOptions false.

Record Policy := mkPolicy {
  rules_by_program : multimap;
  network_rules : list NetworkRule;
  host_executables_by_name : gmap str (list path);
}.

Definition from_parts (rules : multimap) (network_rules : list NetworkRule)
    (hosts : gmap str (list path)) : Policy :=
  mkPolicy rules network_rules hosts.

Definition policy_new (rules : multimap) : Policy := from_parts rules [] ∅.

Definition policy_empty : Policy := policy_new ∅.

Definition render_pattern_token (t : PatternToken) : str :=
  match t with
  | Single value => value
  | Alts alternatives => lit "[" ++ join (lit "|") alternatives ++ lit "]"
  end.

Definition render_prefix (r : PrefixRule) : list str :=
  first (pattern r) :: List.map render_pattern_token (rest (pattern r)).

(** The derived lexicographic order on lists of strings. *)
Definition prefix_compare : list str -> list str -> comparison :=
  list_compare str_compare.

Definition prefix_le (a b : list str) : Prop := prefix_compare a b <> Gt.

#[export] Instance prefix_le_dec : RelDecision prefix_le.
Proof. intros a b. unfold prefix_le. apply _. Defined.

(** [Vec::dedup]: drop consecutive repetitions. *)
Fixpoint dedup {A} `{EqDecision A} (l : list A) : list A :=
  match l with
  | x :: l' =>
      match l' with
      | y :: _ => if decide (x = y) then dedup l' else x :: dedup l'
      | [] => [x]
      end
  | [] => []
  end.

Definition collect_allowed (rules : list PrefixRule) : list (list str) :=
  omap (fun r => if decision r == Allow then Some (render_prefix r) else None) rules.

(** The order in which the map is traversed does not survive the sort. *)
Definition get_allowed_prefixes (p : Policy) : list (list str) :=
  let prefixes :=
    map_fold (fun _ rules acc => acc ++ collect_allowed rules) [] (rules_by_program p) in
  dedup (merge_sort prefix_le prefixes).

Definition msg_empty_prefix : str := lit "prefix cannot be empty".

Definition add_prefix_rule (p : Policy) (prefix : list str) (d : Decision)
  : result Policy (Error S) :=
  match prefix with
  | [] => Err (InvalidPattern msg_empty_prefix)
  | first_token :: rest_tokens =>
      let rule := mkRule (mkPattern first_token (List.map Single rest_tokens)) d None in
      Ok (mkPolicy (multimap_insert first_token rule (rules_by_program p)) (network_rules p)
            (host_executables_by_name p))
  end.

Definition msg_empty_justification : str := lit "justification cannot be empty".

Definition add_network_rule (p : Policy) (raw_host : str) (proto : NetworkRuleProtocol) (d : Decision)
    (justification : option str) : result Policy (Error S) :=
  match normalize_network_rule_host raw_host with
  | Err e => Err e
  | Ok h =>
      if is_some_and justification (fun raw => is_empty (trim raw)) then
        Err (InvalidRule msg_empty_justification)
      else
        Ok (mkPolicy (rules_by_program p)
              (network_rules p ++ [mkNetworkRule h proto d justification])
              (host_executables_by_name p))
  end.

Definition set_host_executable_paths (p : Policy) (name : str) (paths : list path) : Policy :=
  mkPolicy (rules_by_program p) (network_rules p) (<[name := paths]> (host_executables_by_name p)).

Definition merge_overlay (p overlay : Policy) : Policy :=
  let combined_rules :=
    map_fold (fun program rules acc => foldl (fun acc r => multimap_insert program r acc) acc rules)
      (rules_by_program p) (rules_by_program overlay) in
  let combined_network_rules := network_rules p ++ network_rules overlay in
  let hosts := host_executables_by_name overlay ∪ host_executables_by_name p in
  from_parts combined_rules combined_network_rules hosts.

Definition retain_other (h : str) (entries : list str) : list str :=
  List.filter (fun entry => negb (entry == h)) entries.

Definition upsert_domain (entries : list str) (h : str) : list str := retain_other h entries ++ [h].

Fixpoint compile_loop (rules : list NetworkRule) (allowed denied : list str) : list str * list str :=
  match rules with
  | [] => (allowed, denied)
  | r :: rules' =>
      match net_decision r with
      | Allow => compile_loop rules' (upsert_domain allowed (host r)) (retain_other (host r) denied)
      | Forbidden => compile_loop rules' (retain_other (host r) allowed) (upsert_domain denied (host r))
      | Prompt => compile_loop rules' allowed denied
      end
  end.

Definition compiled_network_domains (p : Policy) : list str * list str :=
  compile_loop (network_rules p) [] [].

Definition match_exact_rules (p : Policy) (cmd : list str) : option (list RuleMatch) :=
  match head cmd with
  | None => None
  | Some first =>
      Some (omap (fun r => rule_matches r cmd) (default [] (rules_by_program p !! first)))
  end.

Definition match_host_executable_rules (p : Policy) (cmd : list str) : list RuleMatch :=
  match head cmd with
  | None => []
  | Some first =>
      match path_try_from first with
      | None => []
      | Some program =>
          match executable_path_lookup_key program with
          | None => []
          | Some basename =>
              match rules_by_program p !! basename with
              | None => []
              | Some rules =>
                  if is_some_and (host_executables_by_name p !! basename)
                       (fun paths => negb (existsb (fun q => q == program) paths))
                  then []
                  else
                    let basename_command := basename :: drop 1 cmd in
                    List.map (fun m => with_resolved_program m program)
                      (omap (fun r => rule_matches r basename_command) rules)
              end
          end
      end
  end.

Definition non_empty {A} (o : option (list A)) : option (list A) :=
  match o with Some (x :: l) => Some (x :: l) | _ => None end.

Definition matches_for_command_with_options (p : Policy) (cmd : list str)
    (heuristics_fallback : option (list str -> Decision)) (options : MatchOptions)
  : list RuleMatch :=
  let matched_rules :=
    default []
      (match non_empty (match_exact_rules p cmd) with
       | Some ms => Some ms
       | None =>
           if resolve_host_executables options then
             non_empty (Some (match_host_executable_rules p cmd))
           else None
       end) in
  match heuristics_fallback with
  | Some fallback =>
      if is_empty matched_rules then [HeuristicsRuleMatch cmd (fallback cmd)] else matched_rules
  | None => matched_rules
  end.

Definition matches_for_command (p : Policy) (cmd : list str)
    (heuristics_fallback : option (list str -> Decision)) : list RuleMatch :=
  matches_for_command_with_options p cmd heuristics_fallback default_options.

Record Evaluation := mkEvaluation { eval_decision : Decision; matched_rules : list RuleMatch }.

Definition is_match (e : Evaluation) : bool :=
  existsb (fun m => match m with HeuristicsRuleMatch _ _ => false | _ => true end) (matched_rules e).

(** [Iterator::max] of the decisions. *)
Fixpoint max_decision (ds : list Decision) : option Decision :=
  match ds with
  | [] => None
  | d :: ds' =>
      match max_decision ds' with None => Some d | Some e => Some (decision_max d e) end
  end.

(** [None] where the code panics: no match at all. *)
Definition from_matches (ms : list RuleMatch) : option Evaluation :=
  match max_decision (List.map match_decision ms) with
  | None => None
  | Some d => Some (mkEvaluation d ms)
  end.

Definition check_with_options (p : Policy) (cmd : list str) (fallback : list str -> Decision)
    (options : MatchOptions) : option Evaluation :=
  from_matches (matches_for_command_with_options p cmd (Some fallback) options).

Definition check (p : Policy) (cmd : list str) (fallback : list str -> Decision) : option Evaluation :=
  from_matches (matches_for_command_with_options p cmd (Some fallback) default_options).

Definition check_multiple_with_options (p : Policy) (cmds : list (list str))
    (fallback : list str -> Decision) (options : MatchOptions) : option Evaluation :=
  from_matches
    (mjoin (List.map (fun cmd => matches_for_command_with_options p cmd (Some fallback) options) cmds)).

Definition check_multiple (p : Policy) (cmds : list (list str)) (fallback : list str -> Decision)
  : option Evaluation :=
  check_multiple_with_options p cmds fallback default_options.

(** ** Examples of a rule (rule.rs)

    [try_join] is shlex's quoting; [debug_rule] and [debug_match] are the
    derived [Debug] renderings. *)
Context (try_join : list str -> option str) (debug_rule : PrefixRule -> str)
  (debug_match : RuleMatch -> str).

Definition render_example (example : list str) : str :=
  default (lit "unable to render example") (try_join example).

Definition example_options : MatchOptions := mkOptions true.

Definition validate_match_examples (p : Policy) (rules : list PrefixRule) (examples : list (list str))
  : result unit (Error S) :=
  let unmatched :=
    List.map render_example
      (List.filter
         (fun e => is_empty (matches_for_command_with_options p e None example_options)) examples) in
  if is_empty unmatched then Ok tt
  else Err (ExampleDidNotMatch (List.map debug_rule rules) unmatched None).

Fixpoint validate_not_match_examples (p : Policy) (examples : list (list str))
  : result unit (Error S) :=
  match examples with
  | [] => Ok tt
  | e :: examples' =>
      match head (matches_for_command_with_options p e None example_options) with
      | Some m => Err (ExampleDidMatch (debug_match m) (render_example e) None)
      | None => validate_not_match_examples p examples'
      end
  end.

End Policy.
End ExecPolicy.
