(* ===== verification/ExecPolicyFacts.v ===== *)
(** Theorems about the execution policy: what a prefix rule matches, that the
    strictest matching rule decides, that overlays and added rules cannot
    weaken a decision, which domains a list of network rules compiles to, and
    the shape of a normalized host. *)

From stdpp Require Import base list option numbers strings gmap sorting.
From S2P Require Import Prelude RustStr ExecPolicy.

Module ExecPolicyFacts.
Import ExecPolicy.

(** ** Decisions *)

Lemma decision_max_rank a b : rank (decision_max a b) = Nat.max (rank a) (rank b).
Proof. unfold decision_max. destruct (Nat.leb_spec (rank a) (rank b)); lia. Qed.

Lemma rank_inj a b : rank a = rank b -> a = b.
Proof. by destruct a, b. Qed.

Lemma max_decision_None ds : max_decision ds = None <-> ds = [].
Proof. destruct ds as [|d ds]; simpl; [done|]. by destruct (max_decision ds). Qed.

(** The maximum is an element and an upper bound. *)
Lemma max_decision_Some ds d :
  max_decision ds = Some d -> d ∈ ds /\ forall e, e ∈ ds -> rank e <= rank d.
Proof.
  revert d. induction ds as [|x ds IH]; intros d; simpl; [done|].
  destruct (max_decision ds) as [y|] eqn:E; intros [= <-].
  - destruct (IH y eq_refl) as [Hy Hm]. split.
    + unfold decision_max. destruct (rank x <=? rank y); set_solver.
    + intros e [->|He]%elem_of_cons; rewrite decision_max_rank; [lia|]. specialize (Hm e He). lia.
  - apply max_decision_None in E as ->. split; [set_solver|].
    intros e ->%list_elem_of_singleton. done.
Qed.

Lemma max_decision_app a b :
  max_decision (a ++ b) =
  match max_decision a, max_decision b with
  | Some x, Some y => Some (decision_max x y)
  | Some x, None => Some x
  | None, r => r
  end.
Proof.
  induction a as [|d a IH]; simpl; [by destruct (max_decision b)|]. rewrite IH.
  destruct (max_decision a) as [x|], (max_decision b) as [y|]; try done.
  f_equal. apply rank_inj. rewrite !decision_max_rank. lia.
Qed.

Lemma max_decision_ge ds d e : max_decision ds = Some d -> e ∈ ds -> rank e <= rank d.
Proof. intros [_ Hm]%max_decision_Some ?. by apply Hm. Qed.

(** ** Prefix patterns *)

Definition token_ok (p : PatternToken) (t : str) : Prop := t ∈ token_alternatives p.

Lemma token_matches_ok p t : token_matches p t = true <-> token_ok p t.
Proof.
  unfold token_ok. destruct p as [e|alts]; simpl.
  - rewrite bool_decide_eq_true, list_elem_of_singleton. naive_solver.
  - rewrite existsb_exists. setoid_rewrite bool_decide_eq_true. setoid_rewrite list_elem_of_In.
    naive_solver.
Qed.

Lemma tokens_match_Forall2 ps ts :
  length ps = length ts -> tokens_match ps ts = true <-> Forall2 token_ok ps ts.
Proof.
  revert ts. induction ps as [|p ps IH]; intros [|t ts] Hl; simplify_eq/=; [done|].
  rewrite <- negb_involutive with (b := token_matches p t).
  destruct (token_matches p t) eqn:E; simpl.
  - apply token_matches_ok in E. rewrite IH by done. split.
    + intros. by constructor.
    + intros Hf. by inversion Hf.
  - split; [done|]. intros Hf. inversion Hf as [|???? Ht]; subst.
    apply token_matches_ok in Ht. congruence.
Qed.

(** [prefix] starts [cmd] and is an instance of the pattern. *)
Definition instance_of (p : PrefixPattern) (prefix : list str) : Prop :=
  exists ts, prefix = first p :: ts /\ Forall2 token_ok (rest p) ts.

Lemma matches_prefix_spec p cmd prefix :
  matches_prefix p cmd = Some prefix <-> instance_of p prefix /\ exists suffix, cmd = prefix ++ suffix.
Proof.
  unfold matches_prefix. set (n := length (rest p) + 1).
  destruct ((length cmd <? n) || _) eqn:E.
  - split; [done|]. intros [(ts & -> & Hf) [suffix ->]].
    apply Forall2_length in Hf. apply orb_true_iff in E as [E|E].
    + apply Nat.ltb_lt in E. rewrite length_app in E. simpl in E. lia.
    + cbn in E. by rewrite bool_decide_true in E.
  - bool_to_prop. destruct cmd as [|c cmd]; [simpl in *; lia|]. simpl in *. subst c.
    assert (Hl : length (rest p) = length (take (length (rest p)) cmd)) by (rewrite length_take; lia).
    replace n with (S (length (rest p))) by lia. cbn [take drop].
    destruct (tokens_match (rest p) (drop 0 (take (length (rest p)) cmd))) eqn:Et;
      rewrite drop_0 in Et.
    + apply tokens_match_Forall2 in Et; [|done]. split.
      * intros [= <-]. split; [by eexists|]. exists (drop (length (rest p)) cmd).
        simpl. by rewrite take_drop.
      * intros [(ts & -> & Hf) [suffix [= ->]]]. apply Forall2_length in Hf. do 2 f_equal.
        by rewrite Hf, take_app_length.
    + split; [done|]. intros [(ts & -> & Hf) [suffix [= ->]]].
      apply not_true_iff_false in Et. destruct Et. pose proof (Forall2_length _ _ _ Hf) as Hlen.
      rewrite Hlen, take_app_length. by apply tokens_match_Forall2.
Qed.

Section Facts.
Context {path : Type} `{HA : AbsolutePaths path} {S : Type}.
Notation policy := (@Policy path).
Notation rule_match := (@RuleMatch path).

(** ** Matching *)

Definition exact_matches (p : policy) (cmd : list str) : list rule_match :=
  default [] (match_exact_rules p cmd).

Lemma default_non_empty {A} (o : option (list A)) k :
  default k (non_empty o) = match default [] o with [] => k | l => l end.
Proof. destruct o as [[|x l]|]; done. Qed.

Lemma matches_default p cmd fb :
  matches_for_command_with_options p cmd (Some fb) default_options =
  if is_empty (exact_matches p cmd) then [HeuristicsRuleMatch cmd (fb cmd)] else exact_matches p cmd.
Proof.
  unfold matches_for_command_with_options, exact_matches. cbn [resolve_host_executables default_options].
  by destruct (match_exact_rules p cmd) as [[|m ms]|].
Qed.

Lemma matches_non_empty p cmd fb opts :
  matches_for_command_with_options p cmd (Some fb) opts <> [].
Proof.
  unfold matches_for_command_with_options. destruct (is_empty (default [] _)) eqn:E; [done|].
  by apply is_empty_false.
Qed.

Lemma elem_of_exact p cmd m :
  m ∈ exact_matches p cmd <->
  exists r c rs, head cmd = Some c /\ rules_by_program p !! c = Some rs /\ r ∈ rs /\
    rule_matches r cmd = Some m.
Proof.
  unfold exact_matches, match_exact_rules. destruct (head cmd) as [c|]; simpl.
  - rewrite list_elem_of_omap. destruct (rules_by_program p !! c) as [rs|] eqn:E; simpl.
    + split; [intros (r & ? & ?)|]; naive_solver.
    + split; [set_solver|naive_solver].
  - split; [set_solver|naive_solver].
Qed.

Lemma from_matches_Some (ms : list rule_match) : ms <> [] -> exists d, from_matches ms = Some (mkEvaluation d ms).
Proof.
  intros Hne. unfold from_matches. destruct (max_decision _) eqn:E; [eauto|].
  apply max_decision_None in E. by destruct ms.
Qed.

(** The evaluation of a command never panics, and the strictest of the
    matched rules decides: its decision is one of theirs and at least as strict
    as each of them. *)
Theorem strictest_match_decides (p : policy) cmd fb opts :
  exists ev, check_with_options p cmd fb opts = Some ev /\
    matched_rules ev = matches_for_command_with_options p cmd (Some fb) opts /\
    (exists m, m ∈ matched_rules ev /\ match_decision m = eval_decision ev) /\
    (forall m, m ∈ matched_rules ev -> rank (match_decision m) <= rank (eval_decision ev)).
Proof.
  unfold check_with_options. pose proof (matches_non_empty p cmd fb opts) as Hne.
  destruct (from_matches_Some _ Hne) as [d E]. eexists. split; [exact E|]. split; [done|].
  unfold from_matches in E. destruct (max_decision _) as [d'|] eqn:Ed; simplify_eq.
  apply max_decision_Some in Ed as [Hin Hmax]. simpl. split.
  - apply list_elem_of_fmap in Hin as (m & -> & Hm). eauto.
  - intros m Hm. apply Hmax, list_elem_of_fmap. eauto.
Qed.

(** What decides a command under the default options.  With prefix rules
    that match, exactly these: a rule of the command's program matches when the
    command starts with an instance of its pattern.  Without any, the fallback. *)
Theorem check_exact_rules (p : policy) cmd fb :
  exists ev, check p cmd fb = Some ev /\
    (forall pre d prog j, PrefixRuleMatch pre d prog j ∈ matched_rules ev <->
       prog = None /\ exists r c rs suffix,
         head cmd = Some c /\ rules_by_program p !! c = Some rs /\ r ∈ rs /\
         decision r = d /\ justification r = j /\ instance_of (pattern r) pre /\ cmd = pre ++ suffix) /\
    (is_match ev = false -> matched_rules ev = [HeuristicsRuleMatch cmd (fb cmd)] /\
                            eval_decision ev = fb cmd).
Proof.
  unfold check. rewrite matches_default.
  assert (Hpre : forall m, m ∈ exact_matches p cmd -> exists pre d j, m = PrefixRuleMatch pre d None j).
  { intros m (r & c & rs & _ & _ & _ & Hm)%elem_of_exact. unfold rule_matches in Hm.
    destruct (matches_prefix _ _); simplify_eq/=. eauto. }
  assert (Hspec : forall pre d prog j, PrefixRuleMatch pre d prog j ∈ exact_matches p cmd <->
     prog = None /\ exists r c rs suffix,
       head cmd = Some c /\ rules_by_program p !! c = Some rs /\ r ∈ rs /\
       decision r = d /\ justification r = j /\ instance_of (pattern r) pre /\ cmd = pre ++ suffix).
  { intros pre d prog j. rewrite elem_of_exact. unfold rule_matches. split.
    - intros (r & c & rs & Hc & Hrs & Hr & Hm).
      destruct (matches_prefix (pattern r) cmd) as [pre'|] eqn:E; simplify_eq/=.
      apply matches_prefix_spec in E as [Hi [suffix Hs]]. split; [done|]. by exists r, c, rs, suffix.
    - intros [-> (r & c & rs & suffix & Hc & Hrs & Hr & <- & <- & Hi & Hs)].
      exists r, c, rs. split_and!; try done.
      by rewrite (proj2 (matches_prefix_spec (pattern r) cmd pre)) by eauto. }
  destruct (is_empty (exact_matches p cmd)) eqn:E.
  - apply is_empty_true in E. eexists. split; [done|]. split; [|done].
    intros pre d prog j. rewrite <- Hspec, E. cbn. rewrite list_elem_of_singleton. set_solver.
  - apply is_empty_false in E. destruct (from_matches_Some _ E) as [d ->].
    eexists. split; [done|]. split; [done|]. intros Hn. exfalso.
    destruct (exact_matches p cmd) as [|m ms] eqn:Em; [done|].
    destruct (Hpre m ltac:(set_solver)) as (pre & d' & j & ->). done.
Qed.

(** Checking several commands is checking each and taking the strictest;
    it panics exactly on an empty list of commands. *)
Theorem check_multiple_strictest (p : policy) cmds fb opts :
  option_map eval_decision (check_multiple_with_options p cmds fb opts) =
  max_decision (omap (fun cmd => option_map eval_decision (check_with_options p cmd fb opts)) cmds) /\
  (check_multiple_with_options p cmds fb opts = None <-> cmds = []).
Proof.
  assert (Hone : forall cmd, option_map eval_decision (check_with_options p cmd fb opts) =
    max_decision (List.map match_decision (matches_for_command_with_options p cmd (Some fb) opts))).
  { intros cmd. unfold check_with_options, from_matches. by destruct (max_decision _). }
  assert (Hall : option_map eval_decision (check_multiple_with_options p cmds fb opts) =
    max_decision (omap (fun cmd => option_map eval_decision (check_with_options p cmd fb opts)) cmds)).
  { unfold check_multiple_with_options. transitivity (max_decision (List.map match_decision
      (mjoin (List.map (fun cmd => matches_for_command_with_options p cmd (Some fb) opts) cmds)))).
    { unfold from_matches. by destruct (max_decision _). }
    induction cmds as [|cmd cmds IH]; [done|]. cbn [List.map omap list_omap].
    rewrite mjoin_cons, map_app, max_decision_app, IH, Hone. clear IH.
    destruct (max_decision (List.map match_decision
      (matches_for_command_with_options p cmd (Some fb) opts))) as [d|] eqn:Ed; [done|].
    apply max_decision_None, map_eq_nil in Ed. by destruct (matches_non_empty p cmd fb opts). }
  split; [done|]. split.
  - intros E. rewrite E in Hall. cbn in Hall. symmetry in Hall. apply max_decision_None in Hall.
    destruct cmds as [|cmd cmds]; [done|]. cbn in Hall. rewrite Hone in Hall.
    destruct (max_decision (List.map match_decision _)) as [d|] eqn:Ed; [done|].
    apply max_decision_None, map_eq_nil in Ed. by destruct (matches_non_empty p cmd fb opts).
  - by intros ->.
Qed.

(** ** Overlays and added rules *)

Definition rules_for (m : gmap str (list PrefixRule)) (k : str) : list PrefixRule := default [] (m !! k).

Lemma rules_for_insert (k : str) (r : PrefixRule) (m : gmap str (list PrefixRule)) (k' : str) :
  rules_for (multimap_insert k r m) k' = rules_for m k' ++ (if decide (k' = k) then [r] else []).
Proof.
  unfold rules_for, multimap_insert. case_decide; subst.
  - by rewrite lookup_insert_eq.
  - by rewrite lookup_insert_ne, app_nil_r by done.
Qed.

Lemma rules_for_insert_all (k : str) (rs : list PrefixRule) (m : gmap str (list PrefixRule)) (k' : str) :
  rules_for (foldl (fun acc r => multimap_insert k r acc) m rs) k' =
  rules_for m k' ++ (if decide (k' = k) then rs else []).
Proof.
  revert m. induction rs as [|r rs IH]; intros m; simpl.
  - case_decide; by rewrite app_nil_r.
  - rewrite IH, rules_for_insert. case_decide; by rewrite <- app_assoc.
Qed.

Lemma rules_for_merge (a b : gmap str (list PrefixRule)) k :
  rules_for (map_fold (fun k rs acc => foldl (fun acc r => multimap_insert k r acc) acc rs) a b) k =
  rules_for a k ++ rules_for b k.
Proof.
  revert k. apply (map_fold_weak_ind (fun acc m => forall k, rules_for acc k = rules_for a k ++ rules_for m k)).
  - intros k. unfold rules_for at 3. by rewrite lookup_empty, app_nil_r.
  - intros i rs m acc Hi IH k. rewrite rules_for_insert_all, IH, <- app_assoc. f_equal.
    unfold rules_for. case_decide; subst.
    + by rewrite Hi, lookup_insert_eq.
    + by rewrite lookup_insert_ne, app_nil_r by done.
Qed.

Lemma exact_matches_rules (p : policy) cmd :
  exact_matches p cmd =
  match head cmd with
  | None => []
  | Some c => omap (fun r => rule_matches r cmd) (rules_for (rules_by_program p) c)
  end.
Proof. unfold exact_matches, match_exact_rules. by destruct (head cmd). Qed.

Lemma exact_matches_merge (p o : policy) cmd :
  exact_matches (merge_overlay p o) cmd = exact_matches p cmd ++ exact_matches o cmd.
Proof.
  rewrite !exact_matches_rules. destruct (head cmd) as [c|]; [|done].
  cbn [merge_overlay from_parts rules_by_program]. by rewrite rules_for_merge, omap_app.
Qed.

Lemma exact_match_prefix (p : policy) cmd m :
  m ∈ exact_matches p cmd -> exists pre d prog j, m = PrefixRuleMatch pre d prog j.
Proof.
  intros (r & c & rs & _ & _ & _ & Hm)%elem_of_exact. unfold rule_matches in Hm.
  destruct (matches_prefix _ _); simplify_eq/=. eauto.
Qed.

(** The outcome of [check] in terms of the matching rules. *)
Lemma check_spec (p : policy) cmd fb :
  exists ev, check p cmd fb = Some ev /\
    is_match ev = negb (is_empty (exact_matches p cmd)) /\
    Some (eval_decision ev) =
      match max_decision (List.map match_decision (exact_matches p cmd)) with
      | Some d => Some d
      | None => Some (fb cmd)
      end.
Proof.
  unfold check. rewrite matches_default. destruct (is_empty (exact_matches p cmd)) eqn:E.
  - apply is_empty_true in E. rewrite E. by eexists.
  - apply is_empty_false in E. destruct (from_matches_Some _ E) as [d Ed]. rewrite Ed.
    eexists. split; [done|]. split.
    + destruct (exact_matches p cmd) as [|m ms] eqn:Em; [done|].
      destruct (exact_match_prefix p cmd m) as (pre & d' & prog & j & ->); [rewrite Em; set_solver|done].
    + unfold from_matches in Ed. by destruct (max_decision _); simplify_eq/=.
Qed.

(** An overlay composes with the policy under it: where both have a rule
    that matches, the stricter decision wins; where one has, that one decides;
    so an overlay can tighten but never weaken what the base policy decides. *)
Theorem overlay_takes_strictest (p o : policy) cmd fb evp evo :
  check p cmd fb = Some evp -> check o cmd fb = Some evo ->
  exists ev, check (merge_overlay p o) cmd fb = Some ev /\
    eval_decision ev =
      (match is_match evp, is_match evo with
       | true, true => decision_max (eval_decision evp) (eval_decision evo)
       | true, false => eval_decision evp
       | false, _ => eval_decision evo
       end) /\
    (is_match evp = true -> rank (eval_decision evp) <= rank (eval_decision ev)).
Proof.
  intros Hp Ho. destruct (check_spec p cmd fb) as (evp' & Hp' & Mp & Dp).
  destruct (check_spec o cmd fb) as (evo' & Ho' & Mo & Do). simplify_eq.
  destruct (check_spec (merge_overlay p o) cmd fb) as (ev & -> & M & D).
  exists ev. split; [done|]. rewrite exact_matches_merge, map_app, max_decision_app in D.
  rewrite Mp, Mo.
  destruct (max_decision (List.map match_decision (exact_matches p cmd))) as [dp|] eqn:Ep;
    destruct (max_decision (List.map match_decision (exact_matches o cmd))) as [do|] eqn:Eo;
    simplify_eq; rewrite ?D, ?Dp, ?Do.
  - destruct (exact_matches p cmd) eqn:E1; [done|]. destruct (exact_matches o cmd) eqn:E2; [done|].
    cbn. split; [done|]. intros _. rewrite decision_max_rank. lia.
  - apply max_decision_None, map_eq_nil in Eo. rewrite Eo.
    destruct (exact_matches p cmd) eqn:E1; [done|]. cbn. split; [congruence|]. intros _. by replace (eval_decision ev) with (eval_decision evp) by congruence.
  - apply max_decision_None, map_eq_nil in Ep. rewrite Ep. done.
  - apply max_decision_None, map_eq_nil in Ep. rewrite Ep. done.
Qed.

(** A prefix added to the policy takes effect on every command that starts
    with it, at least at its own strictness, and on no command of another
    program. *)
Theorem added_prefix_takes_effect (p p' : policy) c rest_tokens d fb :
  add_prefix_rule (S:=S) p (c :: rest_tokens) d = Ok p' ->
  (forall suffix, exists ev, check p' ((c :: rest_tokens) ++ suffix) fb = Some ev /\
     is_match ev = true /\ rank d <= rank (eval_decision ev)) /\
  (forall cmd, head cmd <> Some c -> check p' cmd fb = check p cmd fb).
Proof.
  cbn [add_prefix_rule]. intros [= <-]. split.
  - intros suffix. set (cmd := (c :: rest_tokens) ++ suffix).
    set (p' := mkPolicy _ _ _). destruct (check_spec p' cmd fb) as (ev & -> & M & D).
    exists ev. split; [done|].
    assert (Hin : PrefixRuleMatch (c :: rest_tokens) d None None ∈ exact_matches p' cmd).
    { rewrite exact_matches_rules. cbn [head cmd app p' rules_by_program].
      rewrite rules_for_insert, decide_True, omap_app by done. apply elem_of_app. right.
      cbn. unfold rule_matches. cbn [pattern decision justification].
      rewrite (proj2 (matches_prefix_spec _ cmd (c :: rest_tokens))); [set_solver|].
      split; [|by exists suffix]. exists rest_tokens. split; [done|]. cbn.
      clear. induction rest_tokens; constructor; [by apply list_elem_of_singleton|done]. }
    split.
    + rewrite M. destruct (exact_matches p' cmd); [set_solver|done].
    + destruct (max_decision _) as [e|] eqn:E.
      * simplify_eq. apply (max_decision_ge _ _ d) in E; [done|].
        apply list_elem_of_fmap. by exists (PrefixRuleMatch (c :: rest_tokens) d None None).
      * apply max_decision_None, map_eq_nil in E. rewrite E in Hin. set_solver.
  - intros cmd Hc. unfold check. rewrite !matches_default.
    assert (E : exact_matches (mkPolicy (multimap_insert c
        (mkRule (mkPattern c (List.map Single rest_tokens)) d None) (rules_by_program p))
        (network_rules p) (host_executables_by_name p)) cmd = exact_matches p cmd).
    { rewrite !exact_matches_rules. destruct (head cmd) as [c'|]; [|done].
      cbn [rules_by_program]. by rewrite rules_for_insert, decide_False, app_nil_r by congruence. }
    by rewrite E.
Qed.

(** ** Network domains *)

(** The last allow or deny rule for a host, starting from [v]. *)
Fixpoint verdict (v : option Decision) (rules : list NetworkRule) (h : str) : option Decision :=
  match rules with
  | [] => v
  | r :: rules' =>
      verdict (if decide (host r = h)
               then match net_decision r with Prompt => v | d => Some d end
               else v) rules' h
  end.

Lemma elem_of_retain h x l : x ∈ retain_other h l <-> x ∈ l /\ x <> h.
Proof.
  unfold retain_other. rewrite !list_elem_of_In, List.filter_In, negb_true_iff, bool_decide_eq_false. done.
Qed.

Lemma elem_of_upsert h x l : x ∈ upsert_domain l h <-> x = h \/ x ∈ l.
Proof.
  unfold upsert_domain. rewrite elem_of_app, elem_of_retain, list_elem_of_singleton.
  destruct (decide (x = h)); naive_solver.
Qed.

Lemma NoDup_retain h (l : list str) : NoDup l -> NoDup (retain_other h l).
Proof. unfold retain_other. rewrite !NoDup_ListNoDup. apply List.NoDup_filter. Qed.

Lemma NoDup_upsert h l : NoDup l -> NoDup (upsert_domain l h).
Proof.
  intros Hl. unfold upsert_domain. apply NoDup_app. split_and!; [by apply NoDup_retain| |apply NoDup_singleton].
  intros x [_ Hx]%elem_of_retain. by rewrite list_elem_of_singleton.
Qed.

Lemma compile_loop_spec rules a d v :
  NoDup a -> NoDup d ->
  (forall h, h ∈ a <-> v h = Some Allow) -> (forall h, h ∈ d <-> v h = Some Forbidden) ->
  let '(a', d') := compile_loop rules a d in
  NoDup a' /\ NoDup d' /\
  forall h, (h ∈ a' <-> verdict (v h) rules h = Some Allow) /\
            (h ∈ d' <-> verdict (v h) rules h = Some Forbidden).
Proof.
  revert a d v. induction rules as [|r rules IH]; intros a d v Na Nd Ha Hd; [done|].
  cbn [compile_loop verdict].
  destruct (net_decision r) eqn:E.
  - apply (IH _ _ (fun h => if decide (host r = h) then Some Allow else v h));
      [by apply NoDup_upsert|by apply NoDup_retain|..]; intros h;
      rewrite ?elem_of_upsert, ?elem_of_retain, ?Ha, ?Hd; case_decide; naive_solver.
  - destruct (compile_loop rules a d) as [a' d'] eqn:Ec. specialize (IH a d v Na Nd Ha Hd).
    rewrite Ec in IH. destruct IH as (? & ? & IH). split_and!; try done.
    intros h. specialize (IH h). by case_decide.
  - apply (IH _ _ (fun h => if decide (host r = h) then Some Forbidden else v h));
      [by apply NoDup_retain|by apply NoDup_upsert|..]; intros h;
      rewrite ?elem_of_upsert, ?elem_of_retain, ?Ha, ?Hd; case_decide; naive_solver.
Qed.

(** Of the network rules for a host the last one that allows or forbids
    wins, prompting rules do not count, and the compiled allow and deny lists
    have no duplicates and no host in common. *)
Theorem network_last_rule_wins (p : policy) :
  let '(allowed, denied) := compiled_network_domains p in
  NoDup allowed /\ NoDup denied /\ (forall h, h ∈ allowed -> h ∈ denied -> False) /\
  forall h, (h ∈ allowed <-> verdict None (network_rules p) h = Some Allow) /\
            (h ∈ denied <-> verdict None (network_rules p) h = Some Forbidden).
Proof.
  unfold compiled_network_domains.
  pose proof (compile_loop_spec (network_rules p) [] [] (fun _ => None)) as Hs.
  destruct (compile_loop _ _ _) as [a d].
  destruct Hs as (Na & Nd & Hv); [constructor|constructor|set_solver|set_solver|].
  split_and!; [done|done| |done]. intros h Ha Hd.
  apply Hv in Ha. apply Hv in Hd. congruence.
Qed.

(** ** Allowed prefixes *)

Lemma collect_elem (m : gmap str (list PrefixRule)) x :
  x ∈ map_fold (fun _ rules acc => acc ++ collect_allowed rules) [] m <->
  exists k rs r, m !! k = Some rs /\ r ∈ rs /\ decision r = Allow /\ x = render_prefix r.
Proof.
  apply (map_fold_weak_ind (fun acc m => x ∈ acc <->
    exists k rs r, m !! k = Some rs /\ r ∈ rs /\ decision r = Allow /\ x = render_prefix r)).
  - split; [set_solver|]. intros (k & rs & r & Hk & _). by rewrite lookup_empty in Hk.
  - intros i rs m' acc Hi IH. rewrite elem_of_app, IH. unfold collect_allowed.
    rewrite list_elem_of_omap. split.
    + intros [(k & rs' & r & Hk & Hr)|(r & Hr & Hx)].
      * exists k, rs', r. split; [|done]. rewrite lookup_insert_ne; [done|congruence].
      * case_bool_decide; simplify_eq. exists i, rs, r. by rewrite lookup_insert_eq.
    + intros (k & rs' & r & Hk & Hr & Hd & ->). destruct (decide (k = i)) as [->|Hne].
      * rewrite lookup_insert_eq in Hk. simplify_eq. right. exists r. by rewrite Hd.
      * left. rewrite lookup_insert_ne in Hk by done. eauto 10.
Qed.

Lemma dedup_elem {A} `{EqDecision A} (l : list A) x : x ∈ dedup l <-> x ∈ l.
Proof.
  induction l as [|y [|z l] IH]; [done|done|].
  cbn [dedup]. case_decide as E; [subst; rewrite IH; set_solver|]. rewrite !elem_of_cons.
  cbn [dedup] in IH. rewrite IH. by rewrite elem_of_cons.
Qed.

#[export] Instance prefix_le_total : Total prefix_le.
Proof.
  intros a b. unfold prefix_le, prefix_compare.
  rewrite (list_compare_antisym str_compare str_compare_antisym a b).
  destruct (list_compare _ a b); simpl; naive_solver.
Qed.

Lemma prefix_compare_eq a b : prefix_compare a b = Eq -> a = b.
Proof. apply list_compare_eq, str_compare_eq. Qed.

Lemma dedup_head {A} `{EqDecision A} (x : A) l : head (dedup (x :: l)) = Some x.
Proof.
  revert x. induction l as [|y l IH]; intros x; [done|]. cbn [dedup].
  case_decide; [subst; apply IH|done].
Qed.

Lemma dedup_sorted l :
  Sorted prefix_le l -> Sorted (fun a b => prefix_compare a b = Lt) (dedup l).
Proof.
  induction 1 as [|x l Hs IH Hx]; [constructor|].
  destruct l as [|y l]; [repeat constructor|].
  change (dedup (x :: y :: l)) with (if decide (x = y) then dedup (y :: l) else x :: dedup (y :: l)).
  case_decide as E; [done|]. constructor; [done|].
  pose proof (dedup_head y l) as Hh. destruct (dedup (y :: l)) as [|z k]; simplify_eq/=.
  constructor. inversion Hx as [|? ? Hle]; subst. unfold prefix_le in Hle.
  destruct (prefix_compare x y) eqn:Ec; [by apply prefix_compare_eq in Ec|done|done].
Qed.

(** The list of allowed prefixes is exactly the rendered patterns of the
    rules that allow, strictly increasing and hence without repetition. *)
Theorem allowed_prefixes_complete (p : policy) :
  (forall x, x ∈ get_allowed_prefixes p <->
     exists k rs r, rules_by_program p !! k = Some rs /\ r ∈ rs /\ decision r = Allow /\
       x = render_prefix r) /\
  Sorted (fun a b => prefix_compare a b = Lt) (get_allowed_prefixes p).
Proof.
  unfold get_allowed_prefixes. split.
  - intros x. rewrite dedup_elem, merge_sort_Permutation. apply collect_elem.
  - apply dedup_sorted, Sorted_merge_sort, _.
Qed.

(** ** Examples *)

Context (try_join : list str -> option str) (debug_rule : PrefixRule -> str)
  (debug_match : rule_match -> str).

(** The positive examples are accepted exactly when each of them is matched
    by some rule, the negative ones exactly when none is. *)
Theorem examples_validated (p : policy) rules examples :
  let matched e := matches_for_command_with_options p e None example_options <> [] in
  (validate_match_examples (S:=S) try_join debug_rule p rules examples = Ok tt <-> Forall matched examples) /\
  (validate_not_match_examples (S:=S) try_join debug_match p examples = Ok tt <->
   Forall (fun e => ~ matched e) examples).
Proof.
  cbn zeta. split.
  - unfold validate_match_examples. split.
    + destruct (is_empty _) eqn:E; [|done]. intros _. apply is_empty_true, map_eq_nil in E.
      induction examples as [|e es IH]; [constructor|]. cbn [List.filter] in E.
      destruct (is_empty (matches_for_command_with_options p e None example_options)) eqn:Em; [done|].
      constructor; [by apply is_empty_false|by apply IH].
    + intros Hf. replace (List.filter _ examples) with (@nil (list str)); [done|].
      induction Hf as [|e es He _ IH]; [done|]. cbn [List.filter].
      apply is_empty_false in He. by rewrite He.
  - induction examples as [|e es IH]; cbn [validate_not_match_examples]; [split; [constructor|done]|].
    rewrite Forall_cons.
    destruct (matches_for_command_with_options p e None example_options) as [|m ms]; cbn [head].
    + rewrite IH. split; [intros ?; split; [by intros []|done]|by intros [_ ?]].
    + split; [done|]. intros [Hm _]. by destruct Hm.
Qed.

End Facts.

(** ** Hosts *)

Lemma elem_of_trim_start_by f c s : c ∈ trim_start_by f s -> c ∈ s.
Proof.
  destruct (trim_start_by_suffix f s) as (w & E & _). intros Hc. rewrite E. set_solver.
Qed.

Lemma elem_of_trim_end_by f c s : c ∈ trim_end_by f s -> c ∈ s.
Proof.
  destruct (trim_end_by_prefix f s) as (w & E & _). intros Hc. rewrite E. set_solver.
Qed.

Lemma elem_of_trim c s : c ∈ trim s -> c ∈ s.
Proof. intros H%elem_of_trim_end_by. by apply elem_of_trim_start_by in H. Qed.

Lemma elem_of_strip_port {S} raw s h c : strip_port (S:=S) raw s = Ok h -> c ∈ h -> c ∈ s.
Proof.
  unfold strip_port. destruct (strip_prefix (lit "[") s) as [t|] eqn:E1.
  - apply strip_prefix_Some in E1 as ->.
    destruct (split_once (lit "]") t) as [[a b]|] eqn:E2; [|done].
    apply split_once_eq in E2 as ->. destruct (_ && _); [done|]. intros [= <-] Hc. set_solver.
  - destruct (count_char 58 s =? 1); [|by intros [= <-]].
    unfold rsplit_once_char. destruct (split_once [58%N] (reverse s)) as [[a b]|] eqn:E2;
      [|by intros [= <-]].
    apply split_once_eq in E2. destruct (_ && _); [|by intros [= <-]]. intros [= <-] Hc.
    apply elem_of_reverse. rewrite E2. rewrite elem_of_reverse in Hc. set_solver.
Qed.

Lemma contains_char_true c s : contains_char c s = true <-> c ∈ s.
Proof.
  unfold contains_char. rewrite existsb_exists. setoid_rewrite N.eqb_eq.
  rewrite list_elem_of_In. naive_solver.
Qed.

Lemma to_ascii_lower_not_upper c : is_ascii_uppercase (to_ascii_lower c) = false.
Proof.
  unfold to_ascii_lower. destruct (is_ascii_uppercase c) eqn:E; [|done].
  unfold is_ascii_uppercase in *. rewrite andb_true_iff, !N.leb_le in E.
  apply andb_false_iff. right. apply N.leb_gt. lia.
Qed.

Lemma to_ascii_lower_low c d : (d < 65)%N -> to_ascii_lower c = d -> c = d.
Proof.
  unfold to_ascii_lower. destruct (is_ascii_uppercase c) eqn:E; [|done].
  unfold is_ascii_uppercase in E. rewrite andb_true_iff, !N.leb_le in E. lia.
Qed.

Lemma normalized_shape {S} raw h :
  normalize_network_rule_host (S:=S) raw = Ok h ->
  h <> [] /\
  Forall (fun c => c <> 47%N /\ c <> 63%N /\ c <> 35%N /\ c <> 42%N /\
                   is_whitespace c = false /\ is_ascii_uppercase c = false) h.
Proof.
  unfold normalize_network_rule_host. destruct (is_empty (trim raw)); [done|].
  destruct (contains (lit "://") (trim raw) || _ || _ || _) eqn:Ec; [done|].
  rewrite !orb_false_iff in Ec. destruct Ec as [[[_ E47] E63] E35].
  destruct (strip_port raw (trim raw)) as [h0|] eqn:Ep; [|done].
  destruct (is_empty (to_ascii_lowercase _)) eqn:Ee; [done|].
  destruct (contains_char 42 _) eqn:E42; [done|]. destruct (existsb _ _) eqn:Ew; [done|].
  intros [= <-]. split; [by apply is_empty_false|]. apply Forall_forall. intros c Hc.
  pose proof Hc as Hc'. unfold to_ascii_lowercase in Hc'. apply list_elem_of_fmap in Hc' as (c0 & -> & H0).
  assert (Hraw : c0 ∈ trim raw).
  { eapply elem_of_strip_port; [exact Ep|]. by eapply elem_of_trim_end_by, elem_of_trim. }
  assert (Hno : forall d, (d < 65)%N -> contains_char d (trim raw) = false -> to_ascii_lower c0 <> d).
  { intros d Hd Hn E. apply to_ascii_lower_low in E as ->; [|done].
    apply contains_char_true in Hraw. congruence. }
  split_and!; [by apply Hno..| | |apply to_ascii_lower_not_upper].
  - intros E. apply not_true_iff_false in E42. apply E42, contains_char_true. by rewrite <- E.
  - apply not_true_iff_false. intros E. apply not_true_iff_false in Ew. apply Ew, existsb_exists.
    exists (to_ascii_lower c0). split; [by apply list_elem_of_In|done].
Qed.

(** An accepted host is a bare host name: not empty, without slash, query,
    fragment, wildcard or white space, and in lower case. *)
Theorem normalized_host_shape {S} raw h :
  normalize_network_rule_host (S:=S) raw = Ok h ->
  h <> [] /\
  Forall (fun c => c <> 47%N /\ c <> 63%N /\ c <> 35%N /\ c <> 42%N /\
                   is_whitespace c = false /\ is_ascii_uppercase c = false) h.
Proof. apply normalized_shape. Qed.

Lemma normalized_host_shape_witness :
  lit "example.com" <> [] /\
  Forall (fun c => c <> 47%N /\ c <> 63%N /\ c <> 35%N /\ c <> 42%N /\
                   is_whitespace c = false /\ is_ascii_uppercase c = false) (lit "example.com").
Proof.
  apply (@normalized_host_shape unit (lit " Example.COM.:443 ") (lit "example.com")).
  by vm_compute.
Defined.

(** The policy file spelling of a protocol parses back to it. *)
Lemma protocol_of_string {S} proto : protocol_parse (S:=S) (as_policy_string proto) = Ok proto.
Proof. by destruct proto. Qed.

(** ** Concrete policies *)

(** Paths as strings that start with a slash. *)
#[local] Instance slash_paths : AbsolutePaths (list N) := {|
  path_try_from s := if starts_with (lit "/") s then Some s else None;
  path_file_name p :=
    match rsplit_once_char 47 p with
    | Some (_, name) => if is_empty name then None else Some name
    | None => None
    end;
|}.

Definition rule_of (c : string) (ts : list PatternToken) (d : Decision) : PrefixRule :=
  mkRule (mkPattern (lit c) ts) d None.

Definition base_policy : @Policy (list N) :=
  policy_new {[ lit "git" := [rule_of "git" [Alts [lit "status"; lit "diff"]] Allow;
                              rule_of "git" [Single (lit "push")] Prompt] ]}.

Definition strict_policy : @Policy (list N) :=
  policy_new {[ lit "git" := [rule_of "git" [Single (lit "push"); Single (lit "--force")] Forbidden] ]}.

Definition force_push : list str := [lit "git"; lit "push"; lit "--force"].
Definition ask (_ : list str) : Decision := Prompt.

Definition base_eval : Evaluation :=
  default (mkEvaluation Allow []) (check base_policy force_push ask).
Definition strict_eval : Evaluation :=
  default (mkEvaluation Allow []) (check strict_policy force_push ask).

Lemma overlay_takes_strictest_witness :
  exists ev, check (merge_overlay base_policy strict_policy) force_push ask = Some ev /\
    eval_decision ev = Forbidden.
Proof.
  destruct (overlay_takes_strictest base_policy strict_policy force_push ask base_eval strict_eval)
    as (ev & E & D & _); [by vm_compute..|].
  exists ev. split; [exact E|]. rewrite D. by vm_compute.
Defined.

Definition extended_policy : @Policy (list N) :=
  match add_prefix_rule (S:=unit) base_policy [lit "rm"; lit "-rf"] Forbidden with
  | Ok p => p
  | Err _ => base_policy
  end.

Lemma added_prefix_takes_effect_witness :
  (forall suffix, exists ev, check extended_policy ([lit "rm"; lit "-rf"] ++ suffix) ask = Some ev /\
     is_match ev = true /\ rank Forbidden <= rank (eval_decision ev)) /\
  (forall cmd, head cmd <> Some (lit "rm") -> check extended_policy cmd ask = check base_policy cmd ask).
Proof.
  apply (added_prefix_takes_effect (S:=unit) base_policy extended_policy (lit "rm") [lit "-rf"] Forbidden ask).
  by vm_compute.
Defined.

(** A program given by its path is matched by the rules of its base name. *)
Example host_executable_rule :
  option_map eval_decision
    (check_with_options base_policy [lit "/usr/bin/git"; lit "diff"] ask (mkOptions true)) = Some Allow.
Proof. by vm_compute. Qed.
End ExecPolicyFacts.
