(* ===== verification/Template.v ===== *)
(** Strict templates (utils/template/src/lib.rs): placeholders in double
    braces, quadruple braces for literal double ones. *)

From stdpp Require Import base list option numbers strings sets.
From S2P Require Import Prelude RustStr.

Module Template.

Definition OPEN : str := lit "{{".
Definition CLOSE : str := lit "}}".
Definition ESC_OPEN : str := lit "{{{{".
Definition ESC_CLOSE : str := lit "}}}}".

Inductive TemplateParseError :=
| EmptyPlaceholder (start : nat)
| NestedPlaceholder (start : nat)
| UnmatchedClosingDelimiter (start : nat)
| UnterminatedPlaceholder (start : nat).

Definition show_parse_error (e : TemplateParseError) : str :=
  match e with
  | EmptyPlaceholder start => lit "template placeholder at byte " ++ show_nat start ++ lit " is empty"
  | NestedPlaceholder start =>
      lit "template placeholder starting at byte " ++ show_nat start ++ lit " contains a nested `{`"
  | UnmatchedClosingDelimiter start =>
      lit "template contains an unmatched `}` at byte " ++ show_nat start
  | UnterminatedPlaceholder start =>
      lit "template placeholder starting at byte " ++ show_nat start ++ lit " is missing `}`"
  end.

Inductive TemplateRenderError :=
| DuplicateValue (name : str)
| ExtraValue (name : str)
| MissingValue (name : str).

Definition show_render_error (e : TemplateRenderError) : str :=
  match e with
  | DuplicateValue name => lit "template value `" ++ name ++ lit "` was provided more than once"
  | ExtraValue name => lit "template value `" ++ name ++ lit "` is not used by this template"
  | MissingValue name => lit "template placeholder `" ++ name ++ lit "` is missing a value"
  end.

Inductive TemplateError := ParseE (e : TemplateParseError) | RenderE (e : TemplateRenderError).

Definition show_template_error (e : TemplateError) : str :=
  match e with ParseE e => show_parse_error e | RenderE e => show_render_error e end.

Inductive Segment := Literal (text : str) | Placeholder (name : str).

#[export] Instance segment_eq_dec : EqDecision Segment.
Proof. solve_decision. Defined.

(** [BTreeSet<String>] and [BTreeMap<String, String>] as their ascending
    contents. *)
Fixpoint btree_insert (k : str) (l : list str) : list str :=
  match l with
  | [] => [k]
  | x :: l' =>
      match str_compare k x with
      | Lt => k :: l
      | Eq => l
      | Gt => x :: btree_insert k l'
      end
  end.

(** The new map and the replaced value. *)
Fixpoint btree_map_insert (k v : str) (m : list (str * str)) : list (str * str) * option str :=
  match m with
  | [] => ([(k, v)], None)
  | (k', v') :: m' =>
      match str_compare k k' with
      | Lt => ((k, v) :: m, None)
      | Eq => ((k, v) :: m', Some v')
      | Gt => let '(m'', old) := btree_map_insert k v m' in ((k', v') :: m'', old)
      end
  end.

Fixpoint btree_map_get (k : str) (m : list (str * str)) : option str :=
  match m with
  | [] => None
  | (k', v') :: m' => if k == k' then Some v' else btree_map_get k m'
  end.

Record Template := mkTemplate { placeholders : list str; segments : list Segment }.

Definition push_literal (segments : list Segment) (literal : str) : list Segment :=
  if is_empty literal then segments
  else
    match last segments with
    | Some (Literal _) =>
        update_last (fun s => match s with Literal existing => Literal (existing ++ literal) | _ => s end)
          segments
    | _ => segments ++ [Literal literal]
    end.

(** The loop of [parse_placeholder] from byte [cursor]: [name] is the text
    since the opening braces, [rest] what follows; the result is the name, the
    next cursor and the text there. *)
Fixpoint placeholder_loop (start : nat) (name : str) (cursor : nat) (rest : str)
  : result (str * nat * str) TemplateParseError :=
  match strip_prefix OPEN rest with
  | Some _ => Err (NestedPlaceholder start)
  | None =>
      match strip_prefix CLOSE rest with
      | Some rest' =>
          let placeholder := trim name in
          if is_empty placeholder then Err (EmptyPlaceholder start)
          else Ok (placeholder, cursor + str_len CLOSE, rest')
      | None =>
          match rest with
          | [] => Err (UnterminatedPlaceholder start)
          | ch :: rest' => placeholder_loop start (name ++ [ch]) (cursor + len_utf8 ch) rest'
          end
      end
  end.

Definition parse_placeholder (start : nat) (rest : str) : result (str * nat * str) TemplateParseError :=
  placeholder_loop start [] (start + str_len OPEN) rest.

(** The loop of [Template::parse]: [literal] is [source[literal_start..cursor]]
    and [rest] is [source[cursor..]].  [None] means the fuel ran out. *)
Fixpoint parse_loop (fuel : nat) (phs : list str) (segs : list Segment) (literal : str) (cursor : nat)
    (rest : str) : option (result Template TemplateParseError) :=
  match fuel with
  | 0 => None
  | S fuel =>
      match rest with
      | [] => Some (Ok (mkTemplate phs (push_literal segs literal)))
      | ch :: rest' =>
          match strip_prefix ESC_OPEN rest with
          | Some after =>
              parse_loop fuel phs (push_literal (push_literal segs literal) OPEN) []
                (cursor + str_len ESC_OPEN) after
          | None =>
          match strip_prefix ESC_CLOSE rest with
          | Some after =>
              parse_loop fuel phs (push_literal (push_literal segs literal) CLOSE) []
                (cursor + str_len ESC_CLOSE) after
          | None =>
          match strip_prefix OPEN rest with
          | Some after =>
              match parse_placeholder cursor after with
              | Err e => Some (Err e)
              | Ok (placeholder, next_cursor, after') =>
                  parse_loop fuel (btree_insert placeholder phs)
                    (push_literal segs literal ++ [Placeholder placeholder]) [] next_cursor after'
              end
          | None =>
          match strip_prefix CLOSE rest with
          | Some _ => Some (Err (UnmatchedClosingDelimiter cursor))
          | None => parse_loop fuel phs segs (literal ++ [ch]) (cursor + len_utf8 ch) rest'
          end end end end
      end
  end.

(** One iteration per char and one at the end always suffice
    ([parse_loop_total]). *)
Definition parse (source : str) : result Template TemplateParseError :=
  default (Err (UnterminatedPlaceholder 0)) (parse_loop (S (length source)) [] [] [] 0 source).

(** The loop of [build_variable_map]. *)
Fixpoint build_loop (m : list (str * str)) (variables : list (str * str))
  : result (list (str * str)) TemplateRenderError :=
  match variables with
  | [] => Ok m
  | (name, value) :: rest =>
      match btree_map_insert name value m with
      | (_, Some _) => Err (DuplicateValue name)
      | (m, None) => build_loop m rest
      end
  end.

Definition build_variable_map (variables : list (str * str))
  : result (list (str * str)) TemplateRenderError := build_loop [] variables.

(** The loop over the segments of [render]. *)
Fixpoint render_loop (vars : list (str * str)) (rendered : str) (segs : list Segment)
  : result str TemplateRenderError :=
  match segs with
  | [] => Ok rendered
  | Literal literal :: rest => render_loop vars (rendered ++ literal) rest
  | Placeholder name :: rest =>
      match btree_map_get name vars with
      | Some value => render_loop vars (rendered ++ value) rest
      | None => Err (MissingValue name)
      end
  end.

Definition render_template (t : Template) (variables : list (str * str))
  : result str TemplateRenderError :=
  let? vars := build_variable_map variables in
  match find_first (fun ph => negb (is_some (btree_map_get ph vars))) (placeholders t) with
  | Some ph => Err (MissingValue ph)
  | None =>
      match find_first (fun name => negb (bool_decide (name ∈ placeholders t))) (List.map fst vars) with
      | Some name => Err (ExtraValue name)
      | None => render_loop vars [] (segments t)
      end
  end.

Definition render (template : str) (variables : list (str * str)) : result str TemplateError :=
  match parse template with
  | Err e => Err (ParseE e)
  | Ok t => map_err RenderE (render_template t variables)
  end.

Example render_ex :
  render (lit "Hi {{ name }}, {{{{literal}}}} {{x}}!") [(lit "x", lit "1"); (lit "name", lit "Ann")]
  = Ok (lit "Hi Ann, {{literal}} 1!").
Proof. by vm_compute. Qed.
End Template.
