(* ===== verification/TemplateFacts.v ===== *)
(** Correctness of the template language: printing and parsing are inverse,
    any text can be quoted, and rendering succeeds exactly when the values
    provided are the placeholders used. *)

From Stdlib Require Import Sorting.Sorted.
From stdpp Require Import base list option numbers strings sets.
From S2P Require Import Prelude RustStr Template.

Module TemplateFacts.
Import Template.

(** ** The concrete syntax of a template *)

Definition LBRACE : char := 123.
Definition RBRACE : char := 125.

(** Literal text, its double braces doubled. *)
Fixpoint escape (s : str) : str :=
  match s with
  | c :: (d :: s') as t =>
      if (c =? LBRACE)%N && (d =? LBRACE)%N then ESC_OPEN ++ escape s'
      else if (c =? RBRACE)%N && (d =? RBRACE)%N then ESC_CLOSE ++ escape s'
      else c :: escape t
  | _ => s
  end.

Definition print_segment (s : Segment) : str :=
  match s with
  | Literal t => escape t
  | Placeholder n => OPEN ++ [SPACE] ++ n ++ [SPACE] ++ CLOSE
  end.

Definition print (segs : list Segment) : str := concat (List.map print_segment segs).

(** Pairing the opening braces of a literal from the left leaves its last char,
    an opening brace, alone. *)
Fixpoint lone_open (s : str) : bool :=
  match s with
  | [] => false
  | [c] => (c =? LBRACE)%N
  | c :: (d :: s') as t => if (c =? LBRACE)%N && (d =? LBRACE)%N then lone_open s' else lone_open t
  end.

Definition valid_name (n : str) : Prop :=
  n <> [] /\ trim n = n /\ contains OPEN n = false /\ contains CLOSE n = false.

(** A literal is not empty and is not followed by another one; before a
    placeholder its opening braces are paired. *)
Fixpoint wf_segments (segs : list Segment) : Prop :=
  match segs with
  | [] => True
  | Literal t :: rest =>
      t <> [] /\
      match rest with
      | [] => True
      | Literal _ :: _ => False
      | Placeholder _ :: _ => lone_open t = false
      end /\ wf_segments rest
  | Placeholder n :: rest => valid_name n /\ wf_segments rest
  end.

Definition names (segs : list Segment) : list str :=
  omap (fun s => match s with Placeholder n => Some n | Literal _ => None end) segs.

(** ** Literals *)

Lemma push_literal_nil segs : push_literal segs [] = segs.
Proof. done. Qed.

Lemma push_literal_after_literal segs t u : push_literal (segs ++ [Literal t]) u = segs ++ [Literal (t ++ u)].
Proof.
  unfold push_literal. destruct u as [|c u]; simpl; [by rewrite app_nil_r|].
  by rewrite last_snoc, update_last_snoc.
Qed.

Definition ends_literal (segs : list Segment) : bool :=
  match last segs with Some (Literal _) => true | _ => false end.

Lemma push_literal_fresh segs u :
  ends_literal segs = false -> u <> [] -> push_literal segs u = segs ++ [Literal u].
Proof.
  unfold push_literal, ends_literal. destruct u as [|c u]; simpl; [done|].
  destruct (last segs) as [[?|?]|]; done.
Qed.

Lemma ends_literal_true segs : ends_literal segs = true -> exists segs' t, segs = segs' ++ [Literal t].
Proof.
  unfold ends_literal. destruct (last segs) as [[t|?]|] eqn:E; try done. intros _.
  apply last_Some_snoc in E as (l & ->). eauto.
Qed.

Lemma push_literal_app segs t u :
  push_literal segs (t ++ u) = push_literal (push_literal segs t) u.
Proof.
  destruct t as [|c t]; [done|]. destruct (ends_literal segs) eqn:E.
  - apply ends_literal_true in E as (segs' & v & ->).
    rewrite !push_literal_after_literal. by rewrite app_assoc.
  - rewrite !(push_literal_fresh segs) by done. by rewrite push_literal_after_literal.
Qed.

(** The pending literal may be flushed at any point of the loop. *)
Lemma parse_loop_flush fuel phs segs literal cursor rest :
  parse_loop fuel phs segs literal cursor rest = parse_loop fuel phs (push_literal segs literal) [] cursor rest.
Proof.
  revert segs literal cursor rest.
  induction fuel as [|fuel IH]; intros segs literal cursor rest; [done|].
  cbn [parse_loop]. rewrite push_literal_nil. destruct rest as [|ch rest]; [done|].
  repeat case_goal; try done.
  rewrite (IH segs), (IH (push_literal segs literal) ([] ++ _)). by rewrite push_literal_app.
Qed.

(** ** Placeholders *)

Lemma contains_cons_false p c s t :
  strip_prefix p (c :: s ++ t) = None -> contains p s = false -> contains p (c :: s) = false.
Proof.
  intros Hp Hs. destruct (contains p (c :: s)) eqn:E; [|done].
  apply contains_true in E as ([|x a] & b & E); simpl in E.
  - rewrite strip_prefix_None in Hp. destruct (Hp (b ++ t)).
    change (c :: s ++ t) with ((c :: s) ++ t). by rewrite E, app_assoc.
  - injection E as -> E. enough (contains p s = true) by congruence. apply contains_true. eauto.
Qed.

Lemma contains_tail p c s : contains p (c :: s) = false -> contains p s = false.
Proof.
  intros H. destruct (contains p s) eqn:E; [|done]. apply contains_true in E as (a & b & ->).
  enough (contains p (c :: a ++ p ++ b) = true) by congruence.
  apply contains_true. by exists (c :: a), b.
Qed.

Lemma strip_prefix_shorter p s r : strip_prefix p s = Some r -> p <> [] -> length r < length s.
Proof. intros ->%strip_prefix_Some Hp. rewrite length_app. destruct p; [done|]. simpl. lia. Qed.

Lemma strip_prefix_None_app p q s : strip_prefix p s = None -> strip_prefix (p ++ q) s = None.
Proof.
  rewrite !strip_prefix_None. intros H r ->. destruct (H (q ++ r)). by rewrite <- app_assoc.
Qed.

(** A pair of braces that starts inside a text ends inside it too, unless the
    text ends with such a brace. *)
Lemma strip_prefix_inside b c s t :
  contains [b; b] (c :: s) = false -> last (c :: s) <> Some b -> strip_prefix [b; b] ((c :: s) ++ t) = None.
Proof.
  intros Hc Hl. apply strip_prefix_None. intros r Hr. destruct s as [|d s]; simpl in *.
  - by injection Hr as -> _.
  - injection Hr as -> -> _. enough (contains [b; b] (b :: b :: s) = true) by congruence.
    apply contains_true. by exists [], s.
Qed.

(** What a successful scan consumed: the raw name has no delimiter in it. *)
Lemma placeholder_loop_Ok start name cursor rest p next after :
  placeholder_loop start name cursor rest = Ok (p, next, after) ->
  exists raw, rest = raw ++ CLOSE ++ after /\ p = trim (name ++ raw) /\ p <> [] /\
    contains OPEN raw = false /\ contains CLOSE raw = false.
Proof.
  revert name cursor. induction rest as [|ch rest IH]; intros name cursor; [done|]. cbn [placeholder_loop].
  destruct (strip_prefix OPEN _) eqn:Eo; [done|].
  destruct (strip_prefix CLOSE _) as [r|] eqn:Ec.
  - apply strip_prefix_Some in Ec.
    destruct (is_empty (trim name)) eqn:E; [done|]. intros [= <- _ <-].
    exists []. rewrite app_nil_r. apply is_empty_false in E. done.
  - intros (raw & -> & -> & Hne & H1 & H2)%IH. exists (ch :: raw).
    rewrite <- app_assoc in *. split_and!; [done..| |].
    + by apply (contains_cons_false _ _ _ (CLOSE ++ after)).
    + by apply (contains_cons_false _ _ _ (CLOSE ++ after)).
Qed.

Lemma placeholder_loop_shorter start name cursor rest p next after :
  placeholder_loop start name cursor rest = Ok (p, next, after) -> length after < length rest.
Proof.
  intros (raw & -> & _)%placeholder_loop_Ok. rewrite !length_app.
  change (length CLOSE) with 2. lia.
Qed.

Lemma placeholder_loop_close start name cursor after :
  placeholder_loop start name cursor (CLOSE ++ after) =
  if is_empty (trim name) then Err (EmptyPlaceholder start)
  else Ok (trim name, cursor + str_len CLOSE, after).
Proof. reflexivity. Qed.

Lemma placeholder_loop_run start name cursor raw after :
  contains OPEN raw = false -> contains CLOSE raw = false -> last raw <> Some RBRACE ->
  last raw <> Some LBRACE -> trim (name ++ raw) <> [] ->
  exists next, placeholder_loop start name cursor (raw ++ CLOSE ++ after)
               = Ok (trim (name ++ raw), next, after).
Proof.
  revert name cursor. induction raw as [|ch raw IH]; intros name cursor Ho Hc Hr Hl Hne.
  - rewrite app_nil_r in *. cbn [app]. destruct (is_empty (trim name)) eqn:E.
    { by apply is_empty_true in E. }
    exists (cursor + str_len CLOSE). rewrite placeholder_loop_close. by rewrite E.
  - cbn [app placeholder_loop].
    change (ch :: raw ++ CLOSE ++ after) with ((ch :: raw) ++ CLOSE ++ after).
    rewrite (strip_prefix_inside LBRACE), (strip_prefix_inside RBRACE) by done.
    rewrite (app_cons_shift name ch raw) in Hne |- *.
    apply IH; [by apply (contains_tail _ ch)..| | |done].
    + by destruct raw.
    + by destruct raw.
Qed.

Lemma valid_name_trim n : valid_name n -> trim ([SPACE] ++ n ++ [SPACE]) = n.
Proof.
  intros (Hne & Ht & _). unfold trim, trim_start in *. cbn [app trim_start_by].
  change (is_whitespace SPACE) with true. cbn iota.
  assert (Hs : trim_start_by is_whitespace n <> []) by (intros E; rewrite E in Ht; by subst).
  fold trim_start in *. rewrite trim_start_app by done.
  rewrite trim_end_app_ws by (repeat constructor). done.
Qed.

Lemma contains_pad b n :
  contains [b; b] n = false -> b <> SPACE -> contains [b; b] ([SPACE] ++ n ++ [SPACE]) = false.
Proof.
  intros Hn Hb. destruct (contains _ (_ ++ _)) eqn:E; [|done].
  apply contains_true in E as ([|x a] & y & E); simpl in E; [injection E as E _; congruence|].
  injection E as <- E. destruct y as [|z y _] using rev_ind.
  - change [b; b] with ([b] ++ [b]) in E. rewrite app_assoc in E.
    by apply app_inj_tail in E as [_ ?].
  - change (a ++ b :: b :: y ++ [z]) with (a ++ ([b; b] ++ y) ++ [z]) in E. rewrite app_assoc in E.
    apply app_inj_tail in E as [-> _]. enough (contains [b; b] (a ++ [b; b] ++ y) = true) by congruence.
    apply contains_true. eauto.
Qed.

Lemma parse_placeholder_name start n rest :
  valid_name n ->
  exists next, parse_placeholder start ([SPACE] ++ n ++ [SPACE] ++ CLOSE ++ rest) = Ok (n, next, rest).
Proof.
  intros Hv. pose proof (valid_name_trim n Hv) as Ht. destruct Hv as (Hne & _ & Ho & Hc).
  unfold parse_placeholder.
  replace ([SPACE] ++ n ++ [SPACE] ++ CLOSE ++ rest) with (([SPACE] ++ n ++ [SPACE]) ++ CLOSE ++ rest)
    by (by rewrite <- !app_assoc).
  destruct (placeholder_loop_run start [] (start + str_len OPEN) ([SPACE] ++ n ++ [SPACE]) rest)
    as (next & E); [..|exists next; rewrite E, app_nil_l, Ht; done].
  - by apply (contains_pad LBRACE).
  - by apply (contains_pad RBRACE).
  - rewrite app_assoc, last_snoc. done.
  - rewrite app_assoc, last_snoc. done.
  - by rewrite app_nil_l, Ht.
Qed.

(** ** The parsing loop *)

(** One iteration per char suffices: the loop always returns. *)
Lemma parse_loop_total fuel phs segs literal cursor rest :
  length rest < fuel -> is_Some (parse_loop fuel phs segs literal cursor rest).
Proof.
  revert phs segs literal cursor rest.
  induction fuel as [|fuel IH]; intros phs segs literal cursor rest Hf; [lia|]. cbn [parse_loop].
  destruct rest as [|ch rest]; [eauto|].
  destruct (strip_prefix ESC_OPEN _) as [r|] eqn:E1;
    [apply IH; apply strip_prefix_shorter in E1; [lia|done]|].
  destruct (strip_prefix ESC_CLOSE _) as [r|] eqn:E2;
    [apply IH; apply strip_prefix_shorter in E2; [lia|done]|].
  destruct (strip_prefix OPEN _) as [r|] eqn:E3.
  - destruct (parse_placeholder _ _) as [[[p n] a]|] eqn:E; [|eauto].
    apply IH. apply placeholder_loop_shorter in E. apply strip_prefix_shorter in E3; [lia|done].
  - destruct (strip_prefix CLOSE _); [eauto|]. apply IH. simpl in Hf. lia.
Qed.

(** [T] is what the loop makes of [rest] from the given segments. *)
Definition Parses (phs : list str) (segs : list Segment) (rest : str) (T : Template) : Prop :=
  forall fuel cursor, length rest < fuel -> parse_loop fuel phs segs [] cursor rest = Some (Ok T).

Lemma Parses_nil phs segs : Parses phs segs [] (mkTemplate phs segs).
Proof. intros [|fuel] cursor Hf; [simpl in Hf; lia|done]. Qed.

Lemma Parses_escaped_open phs segs rest T :
  Parses phs (push_literal segs OPEN) rest T -> Parses phs segs (ESC_OPEN ++ rest) T.
Proof.
  intros H [|fuel] cursor Hf; rewrite length_app in Hf; [lia|].
  change (parse_loop (S fuel) phs segs [] cursor (ESC_OPEN ++ rest))
    with (parse_loop fuel phs (push_literal segs OPEN) [] (cursor + str_len ESC_OPEN) rest).
  apply H. change (length ESC_OPEN) with 4 in Hf. lia.
Qed.

Lemma Parses_escaped_close phs segs rest T :
  Parses phs (push_literal segs CLOSE) rest T -> Parses phs segs (ESC_CLOSE ++ rest) T.
Proof.
  intros H [|fuel] cursor Hf; rewrite length_app in Hf; [lia|].
  change (parse_loop (S fuel) phs segs [] cursor (ESC_CLOSE ++ rest))
    with (parse_loop fuel phs (push_literal segs CLOSE) [] (cursor + str_len ESC_CLOSE) rest).
  apply H. change (length ESC_CLOSE) with 4 in Hf. lia.
Qed.

Lemma Parses_char phs segs c rest T :
  strip_prefix OPEN (c :: rest) = None -> strip_prefix CLOSE (c :: rest) = None ->
  Parses phs (push_literal segs [c]) rest T -> Parses phs segs (c :: rest) T.
Proof.
  intros Ho Hc H [|fuel] cursor Hf; [simpl in Hf; lia|]. cbn [parse_loop].
  change ESC_OPEN with (OPEN ++ OPEN). change ESC_CLOSE with (CLOSE ++ CLOSE).
  rewrite !strip_prefix_None_app, Ho, Hc by done.
  rewrite parse_loop_flush. apply H. simpl in Hf. lia.
Qed.

Lemma Parses_placeholder phs segs n rest T :
  valid_name n ->
  Parses (btree_insert n phs) (segs ++ [Placeholder n]) rest T ->
  Parses phs segs (print_segment (Placeholder n) ++ rest) T.
Proof.
  intros Hn H [|fuel] cursor Hf; [lia|]. cbn [print_segment] in *. rewrite <- !app_assoc in *.
  destruct (parse_placeholder_name cursor n rest Hn) as (next & E).
  change (match parse_placeholder cursor ([SPACE] ++ n ++ [SPACE] ++ CLOSE ++ rest) with
    | Err e => Some (Err e)
    | Ok (p, next_cursor, after') =>
        parse_loop fuel (btree_insert p phs) (segs ++ [Placeholder p]) [] next_cursor after'
    end = Some (Ok T)).
  rewrite E. apply H. rewrite !length_app in Hf. change (length OPEN) with 2 in Hf. lia.
Qed.

(** ** Printing and parsing *)

(** Recursion on the pairs of a literal. *)
Lemma pairs_ind (P : str -> Prop) :
  P [] -> (forall c, P [c]) ->
  (forall s, P s -> P (LBRACE :: LBRACE :: s)) -> (forall s, P s -> P (RBRACE :: RBRACE :: s)) ->
  (forall c d s, ~ (c = LBRACE /\ d = LBRACE) -> ~ (c = RBRACE /\ d = RBRACE) -> P (d :: s) -> P (c :: d :: s)) ->
  forall s, P s.
Proof.
  intros H0 H1 Ho Hc Hs s. remember (length s) as n eqn:Hn.
  assert (Hle : length s <= n) by lia. clear Hn. revert s Hle.
  induction n as [|n IH]; intros [|c [|d s]] Hle; simpl in Hle; try (done || lia).
  destruct (decide (c = LBRACE /\ d = LBRACE)) as [[-> ->]|]; [apply Ho, IH; lia|].
  destruct (decide (c = RBRACE /\ d = RBRACE)) as [[-> ->]|]; [apply Hc, IH; lia|].
  apply Hs; [done..|]. apply IH. simpl. lia.
Qed.

Lemma both_braces_false (b c d : char) : ~ (c = b /\ d = b) -> ((c =? b)%N && (d =? b)%N) = false.
Proof. intros H. apply andb_false_iff. rewrite !N.eqb_neq. destruct (decide (c = b)); naive_solver. Qed.

Lemma escape_step c d s :
  ~ (c = LBRACE /\ d = LBRACE) -> ~ (c = RBRACE /\ d = RBRACE) ->
  escape (c :: d :: s) = c :: escape (d :: s).
Proof. intros Ho Hc. cbn [escape]. by rewrite !both_braces_false. Qed.

Lemma lone_open_step c d s : ~ (c = LBRACE /\ d = LBRACE) -> lone_open (c :: d :: s) = lone_open (d :: s).
Proof. intros Ho. cbn [lone_open]. by rewrite both_braces_false. Qed.

Lemma lone_open_close s : lone_open (RBRACE :: RBRACE :: s) = lone_open s.
Proof. by destruct s as [|c s]. Qed.

(** What follows a literal: nothing, or a placeholder if no brace is left alone. *)
Definition boundary (t rest : str) : Prop :=
  rest = [] \/ (exists r, rest = OPEN ++ SPACE :: r) /\ lone_open t = false.

Lemma escape_head c s : exists r, escape (c :: s) = c :: r.
Proof.
  destruct s as [|d s]; [by exists []|]. cbn [escape].
  destruct (decide (c = LBRACE /\ d = LBRACE)) as [[-> ->]|Ho]; [by eexists|].
  destruct (decide (c = RBRACE /\ d = RBRACE)) as [[-> ->]|Hc]; [by eexists|].
  rewrite !both_braces_false by done. by eexists.
Qed.

Lemma strip_pair_None (b c d : char) s : ~ (c = b /\ d = b) -> strip_prefix [b; b] (c :: d :: s) = None.
Proof. intros H. apply strip_prefix_None. intros r [= -> -> _]. by apply H. Qed.

Lemma Parses_literal phs segs t rest T :
  boundary t rest ->
  Parses phs (push_literal segs t) rest T -> Parses phs segs (escape t ++ rest) T.
Proof.
  revert segs. induction t as [|c|t IH|t IH|c d t Ho Hc IH] using pairs_ind; intros segs Hb H.
  - done.
  - cbn [escape app]. apply Parses_char; [..|done].
    + destruct Hb as [->|[(r & ->) Hl]]; [by apply strip_prefix_None|].
      cbn [lone_open] in Hl. apply N.eqb_neq in Hl. apply (strip_pair_None LBRACE). naive_solver.
    + destruct Hb as [->|[(r & ->) Hl]]; [by apply strip_prefix_None|].
      apply (strip_pair_None RBRACE). naive_solver.
  - change (escape (LBRACE :: LBRACE :: t)) with (ESC_OPEN ++ escape t). rewrite <- app_assoc.
    apply Parses_escaped_open, IH; [done|]. by rewrite <- push_literal_app.
  - change (escape (RBRACE :: RBRACE :: t)) with (ESC_CLOSE ++ escape t). rewrite <- app_assoc.
    apply Parses_escaped_close, IH; [|by rewrite <- push_literal_app].
    unfold boundary in *. by rewrite lone_open_close in Hb.
  - rewrite escape_step by done. destruct (escape_head d t) as (r & E). cbn [app].
    apply Parses_char.
    + rewrite E. by apply (strip_pair_None LBRACE).
    + rewrite E. by apply (strip_pair_None RBRACE).
    + apply IH; [|by rewrite <- push_literal_app].
      unfold boundary in *. by rewrite lone_open_step in Hb.
Qed.

Lemma Parses_print phs segs rest :
  wf_segments rest ->
  (ends_literal segs = true -> match rest with Literal _ :: _ => False | _ => True end) ->
  Parses phs segs (print rest)
    (mkTemplate (fold_left (fun acc n => btree_insert n acc) (names rest) phs) (segs ++ rest)).
Proof.
  revert phs segs. induction rest as [|[t|n] rest IH]; intros phs segs Hwf Hl.
  - rewrite app_nil_r. apply Parses_nil.
  - destruct Hwf as (Hne & Hnext & Hwf).
    assert (El : ends_literal segs = false) by (destruct (ends_literal segs); naive_solver).
    change (print (Literal t :: rest)) with (escape t ++ print rest). apply Parses_literal.
    + destruct rest as [|[?|n] rest]; [by left|done|right]. split; [|done]. by eexists.
    + rewrite push_literal_fresh, (app_cons_shift segs (Literal t) rest) by done. apply IH; [done|].
      intros _. by destruct rest as [|[?|?] ?].
  - destruct Hwf as [Hn Hwf].
    change (print (Placeholder n :: rest)) with (print_segment (Placeholder n) ++ print rest).
    apply Parses_placeholder; [done|]. rewrite (app_cons_shift segs (Placeholder n) rest). apply IH; [done|].
    unfold ends_literal. by rewrite last_snoc.
Qed.

Lemma parse_Parses source T : Parses [] [] source T -> parse source = Ok T.
Proof. intros H. unfold parse. by rewrite H by lia. Qed.

Lemma parse_print segs :
  wf_segments segs ->
  parse (print segs) = Ok (mkTemplate (fold_left (fun acc n => btree_insert n acc) (names segs) []) segs).
Proof. intros H. by apply parse_Parses, (Parses_print [] []). Qed.

(** ** What parsing returns *)

Lemma lone_open_app t u : lone_open t = false -> lone_open (t ++ u) = lone_open u.
Proof.
  induction t as [|c|t IH|t IH|c d t Ho Hc IH] using pairs_ind; intros H.
  - done.
  - cbn [lone_open] in H. destruct u as [|d u]; [done|]. apply N.eqb_neq in H.
    cbn [app]. rewrite lone_open_step; naive_solver.
  - by apply IH.
  - rewrite lone_open_close in H. cbn [app]. rewrite lone_open_close. by apply IH.
  - rewrite lone_open_step in H by done. cbn [app]. rewrite lone_open_step by done. by apply IH.
Qed.

Lemma lone_open_last t : lone_open t = true -> last t = Some LBRACE.
Proof.
  induction t as [|c|t IH|t IH|c d t Ho Hc IH] using pairs_ind; intros H.
  - done.
  - apply N.eqb_eq in H. by subst.
  - specialize (IH H). by destruct t.
  - rewrite lone_open_close in H. specialize (IH H). by destruct t.
  - rewrite lone_open_step in H by done. by apply IH.
Qed.

Lemma lone_open_snoc_false t c : c <> LBRACE -> lone_open (t ++ [c]) = false.
Proof.
  intros Hc. destruct (lone_open _) eqn:E; [|done]. apply lone_open_last in E.
  rewrite last_snoc in E. congruence.
Qed.

Definition tail_literal (segs : list Segment) : str :=
  match last segs with Some (Literal t) => t | _ => [] end.

Lemma wf_segments_snoc segs x :
  wf_segments (segs ++ [x]) <->
  wf_segments segs /\
  match x with
  | Literal u => u <> [] /\ ends_literal segs = false
  | Placeholder n => valid_name n /\ lone_open (tail_literal segs) = false
  end.
Proof.
  induction segs as [|s segs IH].
  - destruct x; simpl; naive_solver.
  - cbn [app wf_segments]. destruct segs as [|s' segs].
    + destruct s, x; simpl; naive_solver.
    + change (ends_literal (s :: s' :: segs)) with (ends_literal (s' :: segs)).
      change (tail_literal (s :: s' :: segs)) with (tail_literal (s' :: segs)).
      destruct s; rewrite IH; destruct s'; cbn [app]; tauto.
Qed.

Lemma wf_push_literal segs u : wf_segments segs -> wf_segments (push_literal segs u).
Proof.
  intros H. destruct u as [|c u]; [done|]. destruct (ends_literal segs) eqn:E.
  - apply ends_literal_true in E as (segs' & t & ->). rewrite push_literal_after_literal.
    rewrite wf_segments_snoc in *. destruct H as (? & ? & ?). split_and!; [done| |done]. by destruct t.
  - rewrite push_literal_fresh by done. by rewrite wf_segments_snoc.
Qed.

Lemma tail_push_literal segs u : tail_literal (push_literal segs u) = tail_literal segs ++ u.
Proof.
  destruct u as [|c u]; [by rewrite push_literal_nil, app_nil_r|]. destruct (ends_literal segs) eqn:E.
  - apply ends_literal_true in E as (segs' & t & ->). rewrite push_literal_after_literal.
    unfold tail_literal. by rewrite !last_snoc.
  - rewrite push_literal_fresh by done. unfold tail_literal, ends_literal in *. rewrite last_snoc.
    by destruct (last segs) as [[?|?]|].
Qed.

Lemma names_push_literal segs u : names (push_literal segs u) = names segs.
Proof.
  destruct u as [|c u]; [done|]. destruct (ends_literal segs) eqn:E.
  - apply ends_literal_true in E as (segs' & t & ->). rewrite push_literal_after_literal.
    unfold names. by rewrite !omap_app.
  - rewrite push_literal_fresh by done. unfold names. rewrite omap_app. apply app_nil_r.
Qed.

Definition placeholder_set (segs : list Segment) : list str :=
  fold_left (fun acc n => btree_insert n acc) (names segs) [].

Definition wf_template (T : Template) : Prop :=
  wf_segments (segments T) /\ placeholders T = placeholder_set (segments T).

(** A brace left alone at the end of the pending literal is not continued. *)
Definition loop_inv (phs : list str) (segs : list Segment) (rest : str) : Prop :=
  wf_template (mkTemplate phs segs) /\
  (lone_open (tail_literal segs) = true -> head rest <> Some LBRACE).

Lemma loop_inv_literal phs segs rest u rest' :
  loop_inv phs segs rest ->
  (lone_open (tail_literal segs ++ u) = true -> head rest' <> Some LBRACE) ->
  loop_inv phs (push_literal segs u) rest'.
Proof.
  intros [[Hwf Hp] _] Hl. repeat split; simpl in *.
  - by apply wf_push_literal.
  - unfold placeholder_set. by rewrite names_push_literal.
  - by rewrite tail_push_literal.
Qed.

Lemma contains_infix p a b c : contains p (a ++ b ++ c) = false -> contains p b = false.
Proof.
  intros H. destruct (contains p b) eqn:E; [|done]. apply contains_true in E as (x & y & ->).
  enough (contains p (a ++ (x ++ p ++ y) ++ c) = true) by congruence.
  apply contains_true. exists (a ++ x), (y ++ c). by rewrite <- !app_assoc.
Qed.

Lemma trim_trim s : trim (trim s) = trim s.
Proof.
  unfold trim. set (t := trim_start s).
  assert (Ht : trim_start t = t) by apply trim_start_by_idem. clearbody t.
  destruct (trim_end_by_prefix is_whitespace t) as (w & Hw & _). fold trim_end in Hw.
  assert (Hs : trim_start (trim_end t) = trim_end t).
  { destruct (trim_end t) as [|c u] eqn:E; [done|]. rewrite Hw in Ht. unfold trim_start in *. simpl in *.
    destruct (is_whitespace c); [|done].
    destruct (trim_start_by_suffix is_whitespace (u ++ w)) as (v & Hv & _).
    apply (f_equal length) in Hv. rewrite Ht in Hv. rewrite !length_app in Hv. simpl in Hv. rewrite ?length_app in Hv. lia. }
  rewrite Hs. apply trim_end_by_idem.
Qed.

Lemma trim_infix s : exists a b, s = a ++ trim s ++ b.
Proof.
  destruct (trim_start_by_suffix is_whitespace s) as (a & Ha & _).
  destruct (trim_end_by_prefix is_whitespace (trim_start s)) as (b & Hb & _).
  exists a, b. unfold trim, trim_end. by rewrite <- Hb.
Qed.

Lemma parse_placeholder_valid start rest n next after :
  parse_placeholder start rest = Ok (n, next, after) -> valid_name n.
Proof.
  intros (raw & _ & -> & Hne & Ho & Hc)%placeholder_loop_Ok. cbn [app] in *.
  destruct (trim_infix raw) as (a & b & E).
  repeat split; [done|apply trim_trim|..]; apply (contains_infix _ a _ b); by rewrite <- E.
Qed.

Lemma loop_inv_placeholder phs segs rest n rest' :
  loop_inv phs segs rest -> head rest = Some LBRACE -> valid_name n ->
  loop_inv (btree_insert n phs) (segs ++ [Placeholder n]) rest'.
Proof.
  intros [[Hwf Hp] Hl] Hh Hn. repeat split; simpl in *.
  - apply wf_segments_snoc. split_and!; [done..|]. destruct (lone_open _); [|done]. by destruct Hl.
  - unfold placeholder_set, names. rewrite omap_app, fold_left_app. simpl. by rewrite Hp.
  - unfold tail_literal. by rewrite last_snoc.
Qed.

Lemma parse_loop_wf fuel phs segs cursor rest T :
  loop_inv phs segs rest -> parse_loop fuel phs segs [] cursor rest = Some (Ok T) -> wf_template T.
Proof.
  revert phs segs cursor rest.
  induction fuel as [|fuel IH]; intros phs segs cursor rest HI; [done|]. cbn [parse_loop].
  destruct rest as [|ch rest]; [intros [= <-]; apply HI|].
  destruct (strip_prefix ESC_OPEN _) as [r|] eqn:E1.
  { apply IH. apply (loop_inv_literal _ _ (ch :: rest)); [done|].
    apply strip_prefix_Some in E1. injection E1 as -> _. destruct HI as [_ Hl].
    rewrite push_literal_nil, lone_open_app; [done|]. destruct (lone_open _); [|done]. by destruct Hl. }
  destruct (strip_prefix ESC_CLOSE _) as [r|] eqn:E2.
  { apply IH. apply (loop_inv_literal _ _ (ch :: rest)); [done|].
    change CLOSE with ([RBRACE] ++ [RBRACE]).
    rewrite app_assoc, lone_open_snoc_false; done. }
  destruct (strip_prefix OPEN _) as [r|] eqn:E3.
  { destruct (parse_placeholder _ _) as [[[n next] a]|] eqn:E; [|done]. apply IH.
    apply (loop_inv_placeholder _ _ (ch :: rest)); [done| |by eapply parse_placeholder_valid].
    apply strip_prefix_Some in E3. by injection E3 as -> _. }
  destruct (strip_prefix CLOSE _) as [r|] eqn:E4; [done|].
  rewrite parse_loop_flush. apply IH. apply (loop_inv_literal _ _ (ch :: rest)); [done|].
  intros Hl%lone_open_last. rewrite app_nil_l, last_snoc in Hl. injection Hl as ->.
  rewrite strip_prefix_None in E3. destruct rest as [|d rest]; [done|]. intros [= ->]. by destruct (E3 rest).
Qed.

Lemma parse_wf source T : parse source = Ok T -> wf_template T.
Proof.
  unfold parse. destruct (parse_loop_total (S (length source)) [] [] [] 0 source) as ([t|e] & E); [lia|..];
    rewrite E; [|done].
  intros [= <-]. refine (parse_loop_wf _ _ _ _ _ _ _ E). repeat split. discriminate.
Qed.

(** ** Ordered sets and maps *)

Lemma elem_of_btree_insert x k l : x ∈ btree_insert k l <-> x = k \/ x ∈ l.
Proof.
  induction l as [|y l IH]; cbn [btree_insert]; [set_solver|].
  destruct (str_compare k y) eqn:E; [apply str_compare_eq in E|..]; set_solver.
Qed.

Lemma elem_of_placeholder_set n segs : n ∈ placeholder_set segs <-> n ∈ names segs.
Proof.
  unfold placeholder_set. generalize (names segs). intros ns.
  enough (H : forall acc, n ∈ fold_left (fun acc n => btree_insert n acc) ns acc <-> n ∈ acc \/ n ∈ ns)
    by (rewrite H; set_solver).
  induction ns as [|m ns IH]; intros acc; cbn [fold_left]; [set_solver|].
  rewrite IH, elem_of_btree_insert. set_solver.
Qed.

Definition ascending (m : list (str * str)) : Prop :=
  StronglySorted (fun a b => str_compare a.1 b.1 = Lt) m.

Lemma btree_map_get_elem k m : is_Some (btree_map_get k m) <-> k ∈ m.*1.
Proof.
  induction m as [|[k' v'] m IH]; cbn [btree_map_get]; simpl.
  - split; [by intros [? ?]|set_solver].
  - case_bool_decide; [|rewrite IH]; set_solver.
Qed.

Lemma btree_map_get_below k m :
  Forall (fun e => str_compare k e.1 = Lt) m -> btree_map_get k m = None.
Proof.
  induction 1 as [|[k' v'] m Hk _ IH]; cbn [btree_map_get]; [done|].
  case_bool_decide as E; [|done]. subst. simpl in Hk. by rewrite str_compare_refl in Hk.
Qed.

Lemma btree_map_insert_spec k v m m' old :
  ascending m -> btree_map_insert k v m = (m', old) ->
  ascending m' /\ old = btree_map_get k m /\
  (forall x, btree_map_get x m' = if x == k then Some v else btree_map_get x m) /\
  forall P : str -> Prop, P k -> Forall (fun e => P e.1) m -> Forall (fun e => P e.1) m'.
Proof.
  intros Hm. revert m' old. induction Hm as [|[k' v'] m Hs IH Hk]; cbn [btree_map_insert]; intros m' old.
  - intros [= <- <-]. split_and!; [repeat constructor|done|done|]. intros P ??. by repeat constructor.
  - destruct (str_compare k k') eqn:E.
    + apply str_compare_eq in E as <-. intros [= <- <-]. split_and!.
      * by constructor.
      * cbn [btree_map_get]. by rewrite bool_decide_true.
      * intros x. cbn [btree_map_get]. by case_bool_decide.
      * intros P ? [_ ?]%Forall_cons. by constructor.
    + intros [= <- <-].
      assert (Hb : Forall (fun e => str_compare k e.1 = Lt) ((k', v') :: m)).
      { constructor; [done|]. eapply Forall_impl; [exact Hk|]. intros e He. by eapply str_compare_lt_trans. }
      split_and!; [constructor; [by constructor|done]|by rewrite btree_map_get_below|done|].
      intros P ??. by constructor.
    + destruct (btree_map_insert k v m) as [m1 o1] eqn:Ei. intros [= <- <-].
      destruct (IH _ _ eq_refl) as (Hs1 & Ho & Hg & HP). split_and!.
      * constructor; [done|]. apply (HP (fun x => str_compare k' x = Lt)); [|done].
        by rewrite str_compare_antisym, E.
      * cbn [btree_map_get]. rewrite bool_decide_false; [done|]. intros ->. by rewrite str_compare_refl in E.
      * intros x. cbn [btree_map_get]. rewrite Hg. case_bool_decide; [|done]. subst.
        rewrite bool_decide_false; [done|]. intros ->. by rewrite str_compare_refl in E.
      * intros P Hk' [? ?]%Forall_cons. constructor; auto.
Qed.

(** ** Rendering *)

Lemma build_loop_Ok m vars m' :
  ascending m -> build_loop m vars = Ok m' ->
  NoDup vars.*1 /\ (forall n, n ∈ vars.*1 -> btree_map_get n m = None) /\
  forall n, btree_map_get n m' = match btree_map_get n vars with Some v => Some v | None => btree_map_get n m end.
Proof.
  revert m. induction vars as [|[n v] vars IH]; intros m Hm; cbn [build_loop].
  - intros [= ->]. split_and!; [constructor|set_solver|done].
  - destruct (btree_map_insert n v m) as [m1 [o|]] eqn:Ei; [done|].
    destruct (btree_map_insert_spec _ _ _ _ _ Hm Ei) as (Hm1 & Ho & Hg & _).
    intros (Hnd & Hnew & Hget)%IH; [|done].
    assert (Hn : n ∉ vars.*1).
    { intros Hin. specialize (Hnew n Hin). by rewrite Hg, bool_decide_true in Hnew. }
    split_and!.
    + simpl. by constructor.
    + intros x. rewrite fmap_cons, elem_of_cons. intros [->|Hx]; [done|].
      specialize (Hnew x Hx). rewrite Hg in Hnew. by case_bool_decide.
    + intros x. rewrite Hget, Hg. cbn [btree_map_get]. case_bool_decide as E; [|done]. subst x.
      destruct (btree_map_get n vars) eqn:E; [|done]. destruct Hn. apply btree_map_get_elem. eauto.
Qed.

Definition first_repeated (n : str) (vars : list (str * str)) : Prop :=
  exists l1 v l2, vars = l1 ++ (n, v) :: l2 /\ n ∈ l1.*1 /\ NoDup l1.*1.

Lemma build_loop_Err m vars e :
  ascending m -> build_loop m vars = Err e ->
  exists n l1 v l2, e = DuplicateValue n /\ vars = l1 ++ (n, v) :: l2 /\ NoDup l1.*1 /\
    (n ∈ l1.*1 \/ is_Some (btree_map_get n m)) /\ (forall x, x ∈ l1.*1 -> btree_map_get x m = None).
Proof.
  revert m. induction vars as [|[n v] vars IH]; intros m Hm; cbn [build_loop]; [done|].
  destruct (btree_map_insert n v m) as [m1 o] eqn:Ei.
  destruct (btree_map_insert_spec _ _ _ _ _ Hm Ei) as (Hm1 & -> & Hg & _).
  destruct (btree_map_get n m) as [o|] eqn:Eo.
  - intros [= <-]. exists n, [], v, vars. split_and!; [done..|constructor|eauto|set_solver].
  - intros (n' & l1 & v' & l2 & -> & -> & Hnd & Hin & Hnew)%IH; [|done].
    assert (Hn : n ∉ l1.*1).
    { intros Hx. specialize (Hnew n Hx). by rewrite Hg, bool_decide_true in Hnew. }
    rewrite Hg in Hin. exists n', ((n, v) :: l1), v', l2. rewrite fmap_cons. split_and!; [done..| | |].
    + by constructor.
    + case_bool_decide; set_solver.
    + intros x. rewrite elem_of_cons. intros [->|Hx]; [done|].
      specialize (Hnew x Hx). rewrite Hg in Hnew. by case_bool_decide.
Qed.

Lemma build_variable_map_spec vars :
  match build_variable_map vars with
  | Ok m => NoDup vars.*1 /\ forall n, btree_map_get n m = btree_map_get n vars
  | Err e => exists n, e = DuplicateValue n /\ first_repeated n vars
  end.
Proof.
  unfold build_variable_map. destruct (build_loop [] vars) as [m|e] eqn:E.
  - apply build_loop_Ok in E as (? & _ & H); [|constructor]. split; [done|].
    intros n. rewrite H. by destruct (btree_map_get n vars).
  - apply build_loop_Err in E as (n & l1 & v & l2 & -> & -> & ? & [?|[? ?]] & _); [|done|constructor].
    exists n. split; [done|]. by exists l1, v, l2.
Qed.

(** The text of a segment under an assignment. *)
Definition subst_segment (vars : list (str * str)) (s : Segment) : str :=
  match s with
  | Literal t => t
  | Placeholder n => default [] (btree_map_get n vars)
  end.

Lemma render_loop_spec vars acc segs :
  (forall n, n ∈ names segs -> is_Some (btree_map_get n vars)) ->
  render_loop vars acc segs = Ok (acc ++ concat (List.map (subst_segment vars) segs)).
Proof.
  revert acc. induction segs as [|[t|n] segs IH]; intros acc H; cbn [render_loop List.map concat].
  - by rewrite app_nil_r.
  - rewrite IH by done. by rewrite <- app_assoc.
  - destruct (H n) as [v Hv]; [set_solver|]. rewrite Hv, IH by set_solver.
    cbn [subst_segment]. rewrite Hv. by rewrite <- app_assoc.
Qed.

Lemma render_template_spec T vars :
  placeholders T = placeholder_set (segments T) ->
  match render_template T vars with
  | Ok out => NoDup vars.*1 /\ (forall n, n ∈ vars.*1 <-> n ∈ names (segments T)) /\
              out = concat (List.map (subst_segment vars) (segments T))
  | Err (DuplicateValue n) => first_repeated n vars
  | Err (MissingValue n) => NoDup vars.*1 /\ n ∈ names (segments T) /\ n ∉ vars.*1
  | Err (ExtraValue n) =>
      NoDup vars.*1 /\ names (segments T) ⊆ vars.*1 /\ n ∈ vars.*1 /\ n ∉ names (segments T)
  end.
Proof.
  intros Hp. unfold render_template. pose proof (build_variable_map_spec vars) as Hb.
  destruct (build_variable_map vars) as [m|e]; [|by destruct Hb as (n & -> & H)].
  destruct Hb as [Hnd Hget].
  assert (Hkeys : forall n, n ∈ m.*1 <-> n ∈ vars.*1).
  { intros n. by rewrite <- !btree_map_get_elem, Hget. }
  assert (Hph : forall n, n ∈ placeholders T <-> n ∈ names (segments T)).
  { intros n. by rewrite Hp, elem_of_placeholder_set. }
  destruct (find_first _ (placeholders T)) as [n|] eqn:E1.
  { apply find_first_Some in E1 as (l1 & l2 & E1 & Hn & _). split_and!; [done| |].
    - rewrite <- Hph, E1. set_solver.
    - rewrite <- btree_map_get_elem, <- Hget. intros [v Hv]. by rewrite Hv in Hn. }
  rewrite find_first_None in E1.
  assert (Hall : forall n, n ∈ names (segments T) -> is_Some (btree_map_get n m)).
  { intros n Hn%Hph%E1. destruct (btree_map_get n m); [eauto|done]. }
  assert (Hsub : names (segments T) ⊆ vars.*1).
  { intros n Hn. apply Hkeys, btree_map_get_elem. auto. }
  destruct (find_first _ (List.map fst m)) as [n|] eqn:E2.
  - apply find_first_Some in E2 as (l1 & l2 & E2 & Hn & _). bool_to_prop. rewrite Hph in Hn.
    split_and!; [done..| |done]. rewrite <- Hkeys. change (m.*1) with (List.map fst m). rewrite E2. set_solver.
  - rewrite find_first_None in E2. rewrite render_loop_spec by done. split_and!; [done| |].
    + intros n. split; [|apply Hsub]. intros Hn%Hkeys%E2. bool_to_prop. by apply Hph.
    + cbn [app]. f_equal. apply map_ext. intros [t|n]; [done|]. simpl. by rewrite Hget.
Qed.

(** Printing and parsing are inverse: a well-formed template prints to a
    source that parses to exactly that template, every source that parses gives
    a well-formed template, and parsing its printed form gives it back. *)
Theorem template_roundtrip T :
  (wf_template T -> parse (print (segments T)) = Ok T) /\
  (forall source, parse source = Ok T -> wf_template T /\ parse (print (segments T)) = Ok T).
Proof.
  assert (Hp : wf_template T -> parse (print (segments T)) = Ok T).
  { intros [Hwf Hs]. rewrite parse_print by done. fold (placeholder_set (segments T)).
    rewrite <- Hs. by destruct T. }
  split; [done|]. intros source H%parse_wf. auto.
Qed.

Lemma template_roundtrip_witness :
  let T := mkTemplate [lit "a{"; lit "b"]
             [Placeholder (lit "b"); Literal (lit "x}} {{{{"); Placeholder (lit "a{"); Literal (lit "}")] in
  parse (lit "{{ b }}x}}}} {{{{{{{{{{ a{ }}}") = Ok T /\ parse (print (segments T)) = Ok T.
Proof.
  intros T. assert (E : parse (lit "{{ b }}x}}}} {{{{{{{{{{ a{ }}}") = Ok T) by (vm_compute; reflexivity).
  split; [exact E|]. exact (proj2 (proj2 (template_roundtrip T) _ E)).
Defined.

(** Rendering a template: with a value for every placeholder used, none
    given twice and none unused, the result is the text with the values in
    place; otherwise the error names a repeated name, a placeholder without a
    value or a value without a placeholder, in this order of precedence. *)
Theorem render_correct source vars :
  match render source vars with
  | Err (ParseE e) => parse source = Err e
  | r => exists T, parse source = Ok T /\
      match r with
      | Ok out => NoDup vars.*1 /\ (forall n, n ∈ vars.*1 <-> n ∈ names (segments T)) /\
                  out = concat (List.map (subst_segment vars) (segments T))
      | Err (RenderE (DuplicateValue n)) => first_repeated n vars
      | Err (RenderE (MissingValue n)) => NoDup vars.*1 /\ n ∈ names (segments T) /\ n ∉ vars.*1
      | Err (RenderE (ExtraValue n)) =>
          NoDup vars.*1 /\ names (segments T) ⊆ vars.*1 /\ n ∈ vars.*1 /\ n ∉ names (segments T)
      | Err (ParseE _) => False
      end
  end.
Proof.
  unfold render. destruct (parse source) as [T|e] eqn:Ep; [|done].
  pose proof (render_template_spec T vars (proj2 (parse_wf _ _ Ep))) as H.
  destruct (render_template T vars) as [out|[n|n|n]]; by exists T.
Qed.

(** Any text can be quoted: with its double braces doubled it is a template
    without placeholders that renders to exactly the text. *)
Theorem render_escaped s : render (escape s) [] = Ok s.
Proof.
  assert (E : parse (escape s) = Ok (mkTemplate [] (push_literal [] s))).
  { apply parse_Parses. rewrite <- (app_nil_r (escape s)).
    apply Parses_literal; [by left|apply Parses_nil]. }
  unfold render. rewrite E. by destruct s.
Qed.
End TemplateFacts.
