(* ===== verification/ResponseItems.v ===== *)
(** The history items exchanged with the model (protocol/src/models.rs):
    messages, reasoning, tool calls and their outputs.  [Json] stands for
    [serde_json::Value]; the items only carry such values along. *)

From stdpp Require Import base list option numbers strings gmap.
From S2P Require Import Prelude RustStr Truncate.

Inductive ImageDetail := Auto | Low | High | Original.

#[export] Instance image_detail_eq_dec : EqDecision ImageDetail.
Proof. solve_decision. Defined.

(** Content of a message; its constructors share names with those of tool
    output items, hence the module. *)
Module Msg.
Inductive ContentItem :=
| InputText (text : str)
| InputImage (image_url : str) (detail : option ImageDetail)
| OutputText (text : str).
End Msg.

Inductive AgentMessageInputContent :=
| AgentInputText (text : str)
| AgentEncryptedContent (encrypted_content : str).

Inductive MessagePhase := Commentary | FinalAnswer.

Record InternalChatMessageMetadataPassthrough := mkMetadata { turn_id : option str }.

Inductive LocalShellStatus := Completed | InProgress | Incomplete.

Record LocalShellExecAction := mkLocalShellExecAction {
  command : list str;
  timeout_ms : option N;
  working_directory : option str;
  env : option (gmap str str);
  user : option str;
}.

Inductive LocalShellAction := Exec (a : LocalShellExecAction).

Inductive WebSearchAction :=
| Search (query : option str) (queries : option (list str))
| OpenPage (url : option str)
| FindInPage (url pattern : option str)
| OtherAction.

Inductive ReasoningItemReasoningSummary := SummaryText (text : str).

Inductive ReasoningItemContent := ReasoningText (text : str) | ReasoningPlain (text : str).

Notation FunctionCallOutputContentItem := (Truncate.ContentItem ImageDetail).

Inductive FunctionCallOutputBody :=
| Text (content : str)
| ContentItems (items : list FunctionCallOutputContentItem).

Record FunctionCallOutputPayload := mkPayload {
  body : FunctionCallOutputBody;
  success : option bool;
}.

Definition from_text (content : str) : FunctionCallOutputPayload := mkPayload (Text content) None.

Section ResponseItem.
Context (Json : Type).
Notation metadata := (option InternalChatMessageMetadataPassthrough).

Inductive ResponseItem :=
| AdditionalTools (id : option str) (role : str) (tools : list Json)
| Message (id : option str) (role : str) (content : list Msg.ContentItem) (phase : option MessagePhase)
    (meta : metadata)
| AgentMessage (id : option str) (author recipient : str) (content : list AgentMessageInputContent)
    (meta : metadata)
| Reasoning (id : option str) (summary : list ReasoningItemReasoningSummary)
    (content : option (list ReasoningItemContent)) (encrypted_content : option str) (meta : metadata)
| LocalShellCall (id call_id : option str) (status : LocalShellStatus) (action : LocalShellAction)
    (meta : metadata)
| FunctionCall (id : option str) (name : str) (namespace : option str) (arguments call_id : str)
    (meta : metadata)
| ToolSearchCall (id call_id status : option str) (execution : str) (arguments : Json) (meta : metadata)
| FunctionCallOutput (id : option str) (call_id : str) (output : FunctionCallOutputPayload)
    (meta : metadata)
| CustomToolCall (id status : option str) (call_id name : str) (namespace : option str) (input : str)
    (meta : metadata)
| CustomToolCallOutput (id : option str) (call_id : str) (name : option str)
    (output : FunctionCallOutputPayload) (meta : metadata)
| ToolSearchOutput (id call_id : option str) (status execution : str) (tools : list Json)
    (meta : metadata)
| WebSearchCall (id status : option str) (action : option WebSearchAction) (meta : metadata)
| ImageGenerationCall (id : option str) (status : str) (revised_prompt : option str) (result : str)
    (meta : metadata)
| Compaction (id : option str) (encrypted_content : str) (meta : metadata)
| CompactionTrigger
| ContextCompaction (id encrypted_content : option str) (meta : metadata)
| Other.
End ResponseItem.

Arguments AdditionalTools {Json} id role tools.
Arguments Message {Json} id role content phase meta.
Arguments AgentMessage {Json} id author recipient content meta.
Arguments Reasoning {Json} id summary content encrypted_content meta.
Arguments LocalShellCall {Json} id call_id status action meta.
Arguments FunctionCall {Json} id name namespace arguments call_id meta.
Arguments ToolSearchCall {Json} id call_id status execution arguments meta.
Arguments FunctionCallOutput {Json} id call_id output meta.
Arguments CustomToolCall {Json} id status call_id name namespace input meta.
Arguments CustomToolCallOutput {Json} id call_id name output meta.
Arguments ToolSearchOutput {Json} id call_id status execution tools meta.
Arguments WebSearchCall {Json} id status action meta.
Arguments ImageGenerationCall {Json} id status revised_prompt result meta.
Arguments Compaction {Json} id encrypted_content meta.
Arguments CompactionTrigger {Json}.
Arguments ContextCompaction {Json} id encrypted_content meta.
Arguments Other {Json}.

(** protocol/src/openai_models.rs *)
Inductive InputModality := TextModality | ImageModality.

#[export] Instance input_modality_eq_dec : EqDecision InputModality.
Proof. solve_decision. Defined.
