(* ===== verification/Normalize.v ===== *)
(** Normalisation of the prompt history
    (core/src/context_manager/normalize.rs): every call gets an output, every
    output has a call, images are removed for models that take none. *)

From stdpp Require Import base list option numbers strings.
From S2P Require Import Prelude RustStr Truncate Utf8Stream ResponseItems.

Module Normalize.

Definition IMAGE_CONTENT_OMITTED_PLACEHOLDER : str :=
  lit "image content omitted because you do not support image input".

Definition SYNTHETIC_OUTPUT_ID_NAMESPACE : N := 0x90d38d3e6a5b4d52bfe22f1e634bfac4.

(** [Vec::insert] and [Vec::remove]: [None] where they panic. *)
Definition vec_insert {A} (l : list A) (idx : nat) (x : A) : option (list A) :=
  if idx <=? length l then Some (take idx l ++ x :: drop idx l) else None.
Definition vec_remove {A} (l : list A) (idx : nat) : option (list A) :=
  if idx <? length l then Some (take idx l ++ drop (S idx) l) else None.

(** [Iterator::position]. *)
Fixpoint position {A} (p : A -> bool) (l : list A) : option nat :=
  match l with
  | [] => None
  | x :: l' => if p x then Some 0 else S <$> position p l'
  end.

Section Normalize.
Context {Json : Type}.
(** [cfg!(debug_assertions)] of the build. *)
Context (debug_assertions : bool).
(** The text of [Uuid::new_v5(&namespace, name)]. *)
Context (uuid_v5 : N -> list N -> str).
Notation ResponseItem := (ResponseItem Json).

(** core/src/util.rs: [None] where the debug build panics. *)
Definition error_or_panic : option unit := if debug_assertions then None else Some tt.

Definition synthetic_output_id (prefix : str) (item_id : option str) : option str :=
  match item_id with
  | Some source_id =>
      if is_empty source_id then None
      else
        let name := prefix ++ lit ":" ++ source_id in
        Some (prefix ++ lit "_" ++ uuid_v5 SYNTHETIC_OUTPUT_ID_NAMESPACE (Utf8.encode name))
  | None => None
  end.

(** ** [ensure_call_outputs_present] *)

(** The three [HashSet]s of output ids. *)
Definition function_output_ids (items : list ResponseItem) : list str :=
  omap (fun i => match i with FunctionCallOutput _ call_id _ _ => Some call_id | _ => None end) items.
Definition tool_search_output_ids (items : list ResponseItem) : list str :=
  omap (fun i => match i with ToolSearchOutput _ call_id _ _ _ _ => call_id | _ => None end) items.
Definition custom_tool_output_ids (items : list ResponseItem) : list str :=
  omap (fun i => match i with CustomToolCallOutput _ call_id _ _ _ => Some call_id | _ => None end) items.

Definition has_id (call_id : str) (ids : list str) : bool := bool_decide (call_id ∈ ids).

(** One iteration of the collecting loop: the output to insert, if any. *)
Definition missing_output (fn search custom : list str) (item : ResponseItem) : option (option ResponseItem) :=
  match item with
  | FunctionCall id _ _ _ call_id _ =>
      if negb (has_id call_id fn) then
        Some (Some (FunctionCallOutput (synthetic_output_id (lit "fco") id) call_id
                      (from_text (lit "aborted")) None))
      else Some None
  | ToolSearchCall id (Some call_id) _ _ _ _ =>
      if negb (has_id call_id search) then
        Some (Some (ToolSearchOutput (synthetic_output_id (lit "tso") id) (Some call_id)
                      (lit "completed") (lit "client") [] None))
      else Some None
  | CustomToolCall id _ call_id _ _ _ _ =>
      if negb (has_id call_id custom) then
        _ ← error_or_panic;
        Some (Some (CustomToolCallOutput (synthetic_output_id (lit "ctco") id) call_id None
                      (from_text (lit "aborted")) None))
      else Some None
  | LocalShellCall id (Some call_id) _ _ _ =>
      if negb (has_id call_id fn) then
        _ ← error_or_panic;
        Some (Some (FunctionCallOutput (synthetic_output_id (lit "fco") id) call_id
                      (from_text (lit "aborted")) None))
      else Some None
  | _ => Some None
  end.

Fixpoint collect_missing (fn search custom : list str) (idx : nat) (items : list ResponseItem)
  : option (list (nat * ResponseItem)) :=
  match items with
  | [] => Some []
  | item :: rest =>
      m ← missing_output fn search custom item;
      ms ← collect_missing fn search custom (S idx) rest;
      Some (match m with Some output_item => (idx, output_item) :: ms | None => ms end)
  end.

(** The insertions, last index first. *)
Definition insert_missing (items : list ResponseItem) (missing : list (nat * ResponseItem))
  : option (list ResponseItem) :=
  foldr (fun m acc => items ← acc; vec_insert items (m.1 + 1) m.2) (Some items) missing.

Definition ensure_call_outputs_present (items : list ResponseItem) : option (list ResponseItem) :=
  missing_outputs_to_insert ←
    collect_missing (function_output_ids items) (tool_search_output_ids items)
      (custom_tool_output_ids items) 0 items;
  insert_missing items missing_outputs_to_insert.

(** ** [remove_orphan_outputs] *)

Definition function_call_ids (items : list ResponseItem) : list str :=
  omap (fun i => match i with FunctionCall _ _ _ _ call_id _ => Some call_id | _ => None end) items.
Definition tool_search_call_ids (items : list ResponseItem) : list str :=
  omap (fun i => match i with ToolSearchCall _ call_id _ _ _ _ => call_id | _ => None end) items.
Definition local_shell_call_ids (items : list ResponseItem) : list str :=
  omap (fun i => match i with LocalShellCall _ call_id _ _ _ => call_id | _ => None end) items.
Definition custom_tool_call_ids (items : list ResponseItem) : list str :=
  omap (fun i => match i with CustomToolCall _ _ call_id _ _ _ _ => Some call_id | _ => None end) items.

Definition keep_if_matched (has_match : bool) : option bool :=
  _ ← (if has_match then Some tt else error_or_panic); Some has_match.

(** The predicate of [items.retain]. *)
Definition retained (fn search local custom : list str) (item : ResponseItem) : option bool :=
  match item with
  | FunctionCallOutput _ call_id _ _ => keep_if_matched (has_id call_id fn || has_id call_id local)
  | CustomToolCallOutput _ call_id _ _ _ => keep_if_matched (has_id call_id custom)
  | ToolSearchOutput _ call_id _ execution _ _ =>
      if execution == lit "server" then Some true
      else match call_id with
           | Some call_id => keep_if_matched (has_id call_id search)
           | None => Some true
           end
  | _ => Some true
  end.

Fixpoint vec_retain (p : ResponseItem -> option bool) (items : list ResponseItem)
  : option (list ResponseItem) :=
  match items with
  | [] => Some []
  | item :: rest => b ← p item; rest ← vec_retain p rest; Some (if b : bool then item :: rest else rest)
  end.

Definition remove_orphan_outputs (items : list ResponseItem) : option (list ResponseItem) :=
  vec_retain (retained (function_call_ids items) (tool_search_call_ids items)
                (local_shell_call_ids items) (custom_tool_call_ids items)) items.

(** ** [remove_corresponding_for] *)

Definition is_function_output (id : str) (i : ResponseItem) : bool :=
  match i with FunctionCallOutput _ existing _ _ => existing == id | _ => false end.
Definition is_function_call (id : str) (i : ResponseItem) : bool :=
  match i with FunctionCall _ _ _ _ existing _ => existing == id | _ => false end.
Definition is_local_shell_call (id : str) (i : ResponseItem) : bool :=
  match i with LocalShellCall _ (Some existing) _ _ _ => existing == id | _ => false end.
Definition is_tool_search_output (id : str) (i : ResponseItem) : bool :=
  match i with ToolSearchOutput _ (Some existing) _ _ _ _ => existing == id | _ => false end.
Definition is_tool_search_call (id : str) (i : ResponseItem) : bool :=
  match i with ToolSearchCall _ (Some existing) _ _ _ _ => existing == id | _ => false end.
Definition is_custom_output (id : str) (i : ResponseItem) : bool :=
  match i with CustomToolCallOutput _ existing _ _ _ => existing == id | _ => false end.
Definition is_custom_call (id : str) (i : ResponseItem) : bool :=
  match i with CustomToolCall _ _ existing _ _ _ _ => existing == id | _ => false end.

Definition remove_first_matching (items : list ResponseItem) (predicate : ResponseItem -> bool)
  : option (list ResponseItem) :=
  match position predicate items with Some pos => vec_remove items pos | None => Some items end.

Definition remove_corresponding_for (items : list ResponseItem) (item : ResponseItem)
  : option (list ResponseItem) :=
  match item with
  | FunctionCall _ _ _ _ call_id _ => remove_first_matching items (is_function_output call_id)
  | FunctionCallOutput _ call_id _ _ =>
      match position (is_function_call call_id) items with
      | Some pos => vec_remove items pos
      | None =>
          match position (is_local_shell_call call_id) items with
          | Some pos => vec_remove items pos
          | None => Some items
          end
      end
  | ToolSearchCall _ (Some call_id) _ _ _ _ => remove_first_matching items (is_tool_search_output call_id)
  | ToolSearchOutput _ (Some call_id) _ _ _ _ => remove_first_matching items (is_tool_search_call call_id)
  | CustomToolCall _ _ call_id _ _ _ _ => remove_first_matching items (is_custom_output call_id)
  | CustomToolCallOutput _ call_id _ _ _ => remove_first_matching items (is_custom_call call_id)
  | LocalShellCall _ (Some call_id) _ _ _ => remove_first_matching items (is_function_output call_id)
  | _ => Some items
  end.

(** ** [strip_images_when_unsupported] *)

Definition strip_content (c : Msg.ContentItem) : Msg.ContentItem :=
  match c with
  | Msg.InputImage _ _ => Msg.InputText IMAGE_CONTENT_OMITTED_PLACEHOLDER
  | _ => c
  end.

Definition strip_output_content (c : FunctionCallOutputContentItem) : FunctionCallOutputContentItem :=
  match c with
  | Truncate.InputImage _ _ => Truncate.InputText IMAGE_CONTENT_OMITTED_PLACEHOLDER
  | _ => c
  end.

Definition strip_payload (output : FunctionCallOutputPayload) : FunctionCallOutputPayload :=
  match body output with
  | Text _ => output
  | ContentItems items => mkPayload (ContentItems (List.map strip_output_content items)) (success output)
  end.

Definition strip_item (item : ResponseItem) : ResponseItem :=
  match item with
  | Message id role content phase meta => Message id role (List.map strip_content content) phase meta
  | FunctionCallOutput id call_id output meta => FunctionCallOutput id call_id (strip_payload output) meta
  | CustomToolCallOutput id call_id name output meta =>
      CustomToolCallOutput id call_id name (strip_payload output) meta
  | ImageGenerationCall id status revised_prompt _ meta =>
      ImageGenerationCall id status revised_prompt [] meta
  | _ => item
  end.

Definition strip_images_when_unsupported (input_modalities : list InputModality)
    (items : list ResponseItem) : list ResponseItem :=
  if bool_decide (ImageModality ∈ input_modalities) then items else List.map strip_item items.

(** [ContextManager::normalize_history] of core/src/context_manager/history.rs. *)
Definition normalize_history (input_modalities : list InputModality) (items : list ResponseItem)
  : option (list ResponseItem) :=
  items ← ensure_call_outputs_present items;
  items ← remove_orphan_outputs items;
  Some (strip_images_when_unsupported input_modalities items).

End Normalize.
End Normalize.
