(* ===== verification/NormalizeFacts.v ===== *)
(** Normalisation pairs calls and outputs: the passes over the history are one
    reference pass, the result is well formed and a fixed point, and dropping
    the oldest item keeps a well-formed history well formed. *)

From stdpp Require Import base list option numbers strings sets.
From S2P Require Import Prelude RustStr Truncate Utf8Stream ResponseItems Normalize.

Module NormalizeFacts.
Import Normalize.

(** The three independent name spaces of call ids. *)
Inductive kind := Fn | Tool_search | Custom.

#[export] Instance kind_eq_dec : EqDecision kind.
Proof. solve_decision. Defined.

Section Facts.
Context {Json : Type}.
Context (uuid_v5 : N -> list N -> str).
Notation ResponseItem := (ResponseItem Json).
Implicit Types (items : list ResponseItem) (i : ResponseItem) (k : kind * str).

Definition call_key i : option (kind * str) :=
  match i with
  | FunctionCall _ _ _ _ c _ => Some (Fn, c)
  | LocalShellCall _ (Some c) _ _ _ => Some (Fn, c)
  | ToolSearchCall _ (Some c) _ _ _ _ => Some (Tool_search, c)
  | CustomToolCall _ _ c _ _ _ _ => Some (Custom, c)
  | _ => None
  end.

Definition output_key i : option (kind * str) :=
  match i with
  | FunctionCallOutput _ c _ _ => Some (Fn, c)
  | ToolSearchOutput _ (Some c) _ _ _ _ => Some (Tool_search, c)
  | CustomToolCallOutput _ c _ _ _ => Some (Custom, c)
  | _ => None
  end.

(** Results of searches run by the server need no call. *)
Definition served i : bool :=
  match i with ToolSearchOutput _ _ _ execution _ _ => execution == lit "server" | _ => false end.

Definition needs_call i : option (kind * str) := if served i then None else output_key i.

Definition calls items : list (kind * str) := omap call_key items.
Definition outputs items : list (kind * str) := omap output_key items.

(** Every call has an output and every output that needs one has a call. *)
Definition paired items : Prop :=
  (forall k, k ∈ calls items -> k ∈ outputs items) /\
  (forall i k, i ∈ items -> needs_call i = Some k -> k ∈ calls items).

(** ** The reference pass *)

Definition has_key k (ks : list (kind * str)) : bool := bool_decide (k ∈ ks).

(** The output inserted after a call that has none. *)
Definition aborted_output (outs : list (kind * str)) i : option ResponseItem :=
  match call_key i with
  | Some k =>
      if has_key k outs then None
      else match i with
           | FunctionCall id _ _ _ c _ | LocalShellCall id (Some c) _ _ _ =>
               Some (FunctionCallOutput (synthetic_output_id uuid_v5 (lit "fco") id) c
                       (from_text (lit "aborted")) None)
           | ToolSearchCall id (Some c) _ _ _ _ =>
               Some (ToolSearchOutput (synthetic_output_id uuid_v5 (lit "tso") id) (Some c)
                       (lit "completed") (lit "client") [] None)
           | CustomToolCall id _ c _ _ _ _ =>
               Some (CustomToolCallOutput (synthetic_output_id uuid_v5 (lit "ctco") id) c None
                       (from_text (lit "aborted")) None)
           | _ => None
           end
  | None => None
  end.

Definition with_aborted (outs : list (kind * str)) items : list ResponseItem :=
  mjoin (List.map (fun i => i :: option_list (aborted_output outs i)) items).

(** An output is an orphan if the call it needs is not there. *)
Definition keeps (ks : list (kind * str)) i : bool :=
  match needs_call i with Some k => has_key k ks | None => true end.

(** Drop the orphans, answer the open calls, strip the images. *)
Definition normal_form (mods : list InputModality) items : list ResponseItem :=
  strip_images_when_unsupported mods
    (with_aborted (outputs items) (List.filter (keeps (calls items)) items)).

(** ** Ids and keys *)

Lemma elem_of_omap_key {A} (f : ResponseItem -> option A) items x :
  x ∈ omap f items <-> exists i, i ∈ items /\ f i = Some x.
Proof. apply list_elem_of_omap. Qed.

(** An id list read off the items is a slice of their keys. *)
Ltac ids_by_cases :=
  intros; unfold function_output_ids, tool_search_output_ids, custom_tool_output_ids, function_call_ids,
    local_shell_call_ids, tool_search_call_ids, custom_tool_call_ids, outputs, calls;
  rewrite !elem_of_omap_key;
  split;
  [ intros H; repeat destruct H as [H|H]; destruct H as (i & Hi & E); exists i; (split; [done|]);
    destruct i; simplify_eq/=; try done; case_hyp E; done
  | intros (i & Hi & E); destruct i; simplify_eq/=; try done; try case_hyp E;
    solve [eexists; split; [exact Hi|done] | left; eexists; split; [exact Hi|done]
          | right; eexists; split; [exact Hi|done]] ].

Lemma function_output_ids_key items c : c ∈ function_output_ids items <-> (Fn, c) ∈ outputs items.
Proof. ids_by_cases. Qed.

Lemma tool_search_output_ids_key items c : c ∈ tool_search_output_ids items <-> (Tool_search, c) ∈ outputs items.
Proof. ids_by_cases. Qed.

Lemma custom_tool_output_ids_key items c : c ∈ custom_tool_output_ids items <-> (Custom, c) ∈ outputs items.
Proof. ids_by_cases. Qed.

Lemma function_call_ids_key items c :
  c ∈ function_call_ids items \/ c ∈ local_shell_call_ids items <-> (Fn, c) ∈ calls items.
Proof. ids_by_cases. Qed.

Lemma tool_search_call_ids_key items c : c ∈ tool_search_call_ids items <-> (Tool_search, c) ∈ calls items.
Proof. ids_by_cases. Qed.

Lemma custom_tool_call_ids_key items c : c ∈ custom_tool_call_ids items <-> (Custom, c) ∈ calls items.
Proof. ids_by_cases. Qed.

(** ** The passes *)


(** The calls whose missing output is an error of the debug build. *)
Definition strict i : bool :=
  match i with CustomToolCall _ _ _ _ _ _ _ | LocalShellCall _ _ _ _ _ => true | _ => false end.

Lemma has_id_key c ids k ks : (c ∈ ids <-> k ∈ ks) -> has_id c ids = has_key k ks.
Proof. intros H. by apply bool_decide_ext. Qed.

Lemma missing_output_spec d items i :
  missing_output d uuid_v5 (function_output_ids items) (tool_search_output_ids items)
    (custom_tool_output_ids items) i =
  match aborted_output (outputs items) i with
  | Some o => if d && strict i then None else Some (Some o)
  | None => Some None
  end.
Proof.
  unfold aborted_output, missing_output.
  destruct i as [| | | |? [c|]| |? [c|]| | | | | | | | | |]; cbn [call_key]; try done;
    first [ rewrite (has_id_key _ _ _ _ (function_output_ids_key items _))
          | rewrite (has_id_key _ _ _ _ (tool_search_output_ids_key items _))
          | rewrite (has_id_key _ _ _ _ (custom_tool_output_ids_key items _)) ];
    destruct (has_key _ _); try done; destruct d; done.
Qed.

Lemma insert_collected d fn search custom (g : ResponseItem -> option ResponseItem) pre items :
  (forall i, i ∈ items -> missing_output d uuid_v5 fn search custom i = Some (g i)) ->
  exists ms, collect_missing d uuid_v5 fn search custom (length pre) items = Some ms /\
    insert_missing (pre ++ items) ms =
      Some (pre ++ mjoin (List.map (fun i => i :: option_list (g i)) items)).
Proof.
  revert pre. induction items as [|i items IH]; intros pre Hf; [by exists []|].
  destruct (IH (pre ++ [i])) as (ms & E & Hi); [set_solver|].
  rewrite length_app, Nat.add_comm in E. cbn [collect_missing]. rewrite Hf by set_solver. simpl in *.
  rewrite E. simpl. eexists. split; [done|]. rewrite <- !app_assoc in Hi. simpl in Hi.
  destruct (g i) as [o|]; [|by rewrite Hi]. simpl. rewrite Hi. simpl.
  set (r := mjoin _). replace (length pre + 1) with (length (pre ++ [i])) by (by rewrite length_app).
  rewrite (app_cons_shift pre i r). unfold vec_insert.
  rewrite take_app_length, drop_app_length, (length_app (pre ++ [i]) r).
  destruct (Nat.leb_spec (length (pre ++ [i])) (length (pre ++ [i]) + length r)); [|lia].
  by rewrite <- !app_assoc.
Qed.

Lemma ensure_spec d items :
  (forall i, i ∈ items -> d && strict i = true -> aborted_output (outputs items) i = None) ->
  ensure_call_outputs_present d uuid_v5 items = Some (with_aborted (outputs items) items).
Proof.
  intros Hd. unfold ensure_call_outputs_present.
  destruct (insert_collected d (function_output_ids items) (tool_search_output_ids items)
    (custom_tool_output_ids items) (aborted_output (outputs items)) [] items) as (ms & E & Hi);
    [|simpl in E, Hi; rewrite E; simpl; exact Hi].
  intros i Hin. rewrite missing_output_spec. destruct (aborted_output (outputs items) i) eqn:Ea; [|done].
  destruct (d && strict i) eqn:Es; [|done]. by rewrite Hd in Ea.
Qed.

Lemma keep_if_matched_spec d b : keep_if_matched d b = if b then Some true else if d then None else Some false.
Proof. by destruct b, d. Qed.

Lemma retained_spec d items i :
  retained d (function_call_ids items) (tool_search_call_ids items) (local_shell_call_ids items)
    (custom_tool_call_ids items) i =
  if keeps (calls items) i then Some true else if d then None else Some false.
Proof.
  unfold retained, keeps, needs_call.
  destruct i as [| | | | | | | | | |? [c|] ? ex| | | | | |]; cbn [served output_key]; try done.
  - rewrite keep_if_matched_spec. unfold has_id, has_key. rewrite <- bool_decide_or.
    by rewrite (bool_decide_ext _ _ (function_call_ids_key items _)).
  - by rewrite keep_if_matched_spec, (has_id_key _ _ _ _ (custom_tool_call_ids_key items _)).
  - case_bool_decide; [done|].
    by rewrite keep_if_matched_spec, (has_id_key _ _ _ _ (tool_search_call_ids_key items _)).
  - by case_bool_decide.
Qed.

Lemma remove_orphans_spec d items :
  (d = true -> forall i, i ∈ items -> keeps (calls items) i = true) ->
  remove_orphan_outputs d items = Some (List.filter (keeps (calls items)) items).
Proof.
  intros Hd. unfold remove_orphan_outputs.
  set (p := retained _ _ _ _ _).
  assert (Hp : forall i, i ∈ items -> p i = Some (keeps (calls items) i)).
  { intros i Hi. unfold p. rewrite retained_spec. destruct (keeps (calls items) i) eqn:E; [done|].
    destruct d; [|done]. by rewrite Hd in E. }
  clearbody p. generalize (keeps (calls items)) Hp. clear. intros q Hp. induction items as [|i items IH]; [done|].
  cbn [vec_retain List.filter]. rewrite Hp by set_solver. simpl. rewrite IH by set_solver. by destruct (q i).
Qed.

(** ** Keys through the passes *)

Lemma aborted_output_Some outs i o :
  aborted_output outs i = Some o ->
  exists k, call_key i = Some k /\ k ∉ outs /\ output_key o = Some k /\ call_key o = None /\ served o = false.
Proof.
  unfold aborted_output. destruct (call_key i) as [k|] eqn:E; [|done].
  unfold has_key. case_bool_decide as Ho; [done|]. intros H. exists k.
  destruct i as [| | | |? [c|]| |? [c|]| | | | | | | | | |]; simplify_eq/=; done.
Qed.

Lemma aborted_output_None outs i :
  aborted_output outs i = None <-> forall k, call_key i = Some k -> k ∈ outs.
Proof.
  split.
  - unfold aborted_output, has_key. intros H k E. rewrite E in H. case_bool_decide; [done|].
    destruct i as [| | | |? [c|]| |? [c|]| | | | | | | | | |]; simplify_eq/=.
  - intros H. destruct (aborted_output outs i) eqn:E; [|done].
    apply aborted_output_Some in E as (k & Hk & Hn & _). by apply H in Hk.
Qed.

Lemma elem_of_with_aborted outs items i :
  i ∈ with_aborted outs items <-> i ∈ items \/ exists j, j ∈ items /\ aborted_output outs j = Some i.
Proof.
  unfold with_aborted. induction items as [|j items IH]; cbn [List.map].
  - simpl. set_solver.
  - rewrite mjoin_cons, elem_of_app, IH, elem_of_cons, elem_of_cons.
    destruct (aborted_output outs j) as [o|] eqn:E; simpl; set_solver.
Qed.

Lemma calls_cons i items : calls (i :: items) = option_list (call_key i) ++ calls items.
Proof. unfold calls. simpl. by destruct (call_key i). Qed.

Lemma calls_with_aborted outs items : calls (with_aborted outs items) = calls items.
Proof.
  unfold with_aborted, calls. induction items as [|i items IH]; [done|]. cbn [List.map].
  rewrite mjoin_cons, omap_app, IH. simpl.
  destruct (aborted_output outs i) as [o|] eqn:E; simpl; [|by destruct (call_key i)].
  apply aborted_output_Some in E as (k & -> & _ & _ & -> & _). done.
Qed.

Lemma call_needs_no_call i k : call_key i = Some k -> needs_call i = None.
Proof. by destruct i. Qed.

Lemma needs_call_output i k : needs_call i = Some k -> output_key i = Some k.
Proof. unfold needs_call. by destruct (served i). Qed.

Lemma calls_filter_keeps ks items : calls (List.filter (keeps ks) items) = calls items.
Proof.
  induction items as [|i items IH]; [done|]. cbn [List.filter].
  destruct (keeps ks i) eqn:E; rewrite !calls_cons; rewrite IH; [done|].
  destruct (call_key i) eqn:Ec; [|done]. apply call_needs_no_call in Ec. unfold keeps in E. by rewrite Ec in E.
Qed.

Lemma filter_with_aborted outs items :
  List.filter (keeps (calls items)) (with_aborted outs items)
  = with_aborted outs (List.filter (keeps (calls items)) items).
Proof.
  assert (H : forall i, i ∈ items -> forall k, call_key i = Some k -> k ∈ calls items).
  { intros i Hi k Hk. apply elem_of_omap_key. eauto. }
  revert H. generalize (calls items) as ks. intros ks H. unfold with_aborted.
  induction items as [|i items IH]; [done|]. cbn [List.map List.filter]. rewrite mjoin_cons, List.filter_app, IH
    by set_solver. cbn [List.filter]. destruct (aborted_output outs i) as [o|] eqn:E.
  - destruct (aborted_output_Some _ _ _ E) as (k & Hk & _ & Ho & _ & Hs).
    assert (Eo : keeps ks o = true).
    { unfold keeps, needs_call. rewrite Hs, Ho. apply bool_decide_eq_true_2. apply (H i); [set_solver|done]. }
    assert (Ei : keeps ks i = true) by (unfold keeps; by rewrite (call_needs_no_call _ _ Hk)).
    rewrite Ei. simpl. rewrite Eo, E. done.
  - simpl. destruct (keeps ks i); simpl; [by rewrite E|done].
Qed.

(** ** Images *)

Definition output_item_images (c : FunctionCallOutputContentItem) : bool :=
  match c with Truncate.InputImage _ _ => true | _ => false end.
Definition payload_images (p : FunctionCallOutputPayload) : bool :=
  match body p with Text _ => false | ContentItems l => existsb output_item_images l end.

(** The item shows an image to the model. *)
Definition has_image i : bool :=
  match i with
  | Message _ _ content _ _ => existsb (fun c => match c with Msg.InputImage _ _ => true | _ => false end) content
  | FunctionCallOutput _ _ p _ | CustomToolCallOutput _ _ _ p _ => payload_images p
  | ImageGenerationCall _ _ _ result _ => negb (is_empty result)
  | _ => false
  end.

Lemma strip_item_no_image i : has_image (strip_item i) = false.
Proof.
  assert (Hp : forall p, payload_images (strip_payload p) = false).
  { intros [[t|l] ok]; [done|]. unfold payload_images, strip_payload. simpl.
    induction l as [|[| |] l IH]; simpl; done. }
  destruct i; simpl; try done. induction content as [|[| |] l IH]; simpl; done.
Qed.

Lemma strip_item_id i : has_image i = false -> strip_item i = i.
Proof.
  assert (Hp : forall p, payload_images p = false -> strip_payload p = p).
  { intros [[t|l] ok]; [done|]. unfold payload_images, strip_payload. simpl. intros H. do 2 f_equal.
    induction l as [|[| |] l IH]; simpl in *; [done|f_equal; auto..|f_equal; auto]; done. }
  destruct i; simpl; try done; intros H.
  - f_equal. induction content as [|[| |] l IH]; simpl in *; [done|f_equal; auto..|f_equal; auto]; done.
  - f_equal. by apply Hp.
  - f_equal. by apply Hp.
  - by destruct result.
Qed.

Lemma strip_item_keys i :
  call_key (strip_item i) = call_key i /\ output_key (strip_item i) = output_key i /\ served (strip_item i) = served i.
Proof. by destruct i. Qed.

Lemma paired_strip mods items : paired items -> paired (strip_images_when_unsupported mods items).
Proof.
  unfold strip_images_when_unsupported. case_bool_decide; [done|]. intros [H1 H2].
  assert (Hc : calls (List.map strip_item items) = calls items).
  { clear. unfold calls. induction items as [|i items IH]; [done|]. simpl.
    destruct (strip_item_keys i) as (-> & _). destruct (call_key i); [f_equal|]; done. }
  assert (Ho : outputs (List.map strip_item items) = outputs items).
  { clear. unfold outputs. induction items as [|i items IH]; [done|]. simpl.
    destruct (strip_item_keys i) as (_ & -> & _). destruct (output_key i); [f_equal|]; done. }
  split; rewrite Hc, ?Ho; [done|]. intros i k (j & -> & Hj)%list_elem_of_fmap.
  unfold needs_call. destruct (strip_item_keys j) as (_ & -> & ->). by apply H2.
Qed.

(** ** Normal forms *)

Lemma paired_normal items :
  paired (with_aborted (outputs items) (List.filter (keeps (calls items)) items)).
Proof.
  split.
  - intros k. rewrite calls_with_aborted, calls_filter_keeps. intros Hk.
    apply elem_of_omap_key. destruct (decide (k ∈ outputs items)) as [Ho|Ho].
    + apply elem_of_omap_key in Ho as (i & Hi & E). exists i. split; [|done].
      apply elem_of_with_aborted. left. apply list_elem_of_In, List.filter_In. split; [by apply list_elem_of_In|].
      unfold keeps. destruct (needs_call i) as [k'|] eqn:En; [|done].
      apply needs_call_output in En. simplify_eq. by apply bool_decide_eq_true_2.
    + apply elem_of_omap_key in Hk as (i & Hi & E).
      destruct (aborted_output (outputs items) i) as [o|] eqn:Ea.
      * destruct (aborted_output_Some _ _ _ Ea) as (k' & Hk' & _ & Hout & _). simplify_eq.
        exists o. split; [|done]. apply elem_of_with_aborted. right. exists i. split; [|done].
        apply list_elem_of_In, List.filter_In. split; [by apply list_elem_of_In|].
        unfold keeps. by rewrite (call_needs_no_call _ _ E).
      * rewrite aborted_output_None in Ea. by destruct Ho; apply Ea.
  - intros i k. rewrite calls_with_aborted, calls_filter_keeps, elem_of_with_aborted.
    intros [Hi|(j & Hj & Ea)] Hn.
    + apply list_elem_of_In, List.filter_In in Hi as [_ Hi]. unfold keeps in Hi. rewrite Hn in Hi.
      by apply bool_decide_eq_true_1 in Hi.
    + apply aborted_output_Some in Ea as (k' & Hk' & _ & Ho & _). apply needs_call_output in Hn. simplify_eq.
      apply list_elem_of_In, List.filter_In in Hj as [Hj%list_elem_of_In _]. apply elem_of_omap_key. eauto.
Qed.

Lemma with_aborted_id outs items :
  (forall i, i ∈ items -> aborted_output outs i = None) -> with_aborted outs items = items.
Proof.
  unfold with_aborted. induction items as [|i items IH]; intros H; [done|]. cbn [List.map].
  rewrite mjoin_cons, H, IH by set_solver. done.
Qed.

Lemma normalize_spec mods items :
  normalize_history false uuid_v5 mods items = Some (normal_form mods items).
Proof.
  unfold normalize_history. rewrite ensure_spec by done. simpl. rewrite remove_orphans_spec by done. simpl.
  f_equal. unfold normal_form. by rewrite calls_with_aborted, filter_with_aborted.
Qed.

Lemma normalize_paired d mods items :
  paired items -> (ImageModality ∈ mods \/ forall i, i ∈ items -> has_image i = false) ->
  normalize_history d uuid_v5 mods items = Some items.
Proof.
  intros [Hco Hoc] Him.
  assert (Ha : forall i, i ∈ items -> aborted_output (outputs items) i = None).
  { intros i Hi. apply aborted_output_None. intros k Hk. apply Hco, elem_of_omap_key. eauto. }
  assert (Hk : forall i, i ∈ items -> keeps (calls items) i = true).
  { intros i Hi. unfold keeps. destruct (needs_call i) eqn:E; [|done]. apply bool_decide_eq_true_2. eauto. }
  unfold normalize_history. rewrite ensure_spec by auto. simpl. rewrite with_aborted_id by done.
  rewrite remove_orphans_spec by done. simpl. rewrite filter_all_id by done. f_equal.
  unfold strip_images_when_unsupported. case_bool_decide as Hm; [done|]. destruct Him as [?|Him]; [done|].
  rewrite <- (map_id items) at 2. apply map_ext_in. intros i Hi. apply strip_item_id, Him. by apply list_elem_of_In.
Qed.

(** C34: preparing the history for a prompt never fails in a release build and
    is one pass over it: outputs without a call are dropped, every call without
    an output is followed by an aborted one, and images are replaced for a model
    that takes none.  Then every call has an output and every output its call,
    and normalising again, in a debug build too, changes nothing. *)
Theorem normalized_history mods items :
  let r := normal_form mods items in
  normalize_history false uuid_v5 mods items = Some r /\ paired r /\
  (ImageModality ∉ mods -> forall i, i ∈ r -> has_image i = false) /\
  forall debug_assertions, normalize_history debug_assertions uuid_v5 mods r = Some r.
Proof.
  intros r. assert (Hp : paired r) by apply paired_strip, paired_normal.
  assert (Hi : ImageModality ∉ mods -> forall i, i ∈ r -> has_image i = false).
  { intros Hm i. unfold r, normal_form, strip_images_when_unsupported. rewrite bool_decide_false by done.
    intros (j & -> & _)%list_elem_of_fmap. apply strip_item_no_image. }
  split_and!; [apply normalize_spec|done|done|]. intros d. apply normalize_paired; [done|].
  destruct (decide (ImageModality ∈ mods)); auto.
Qed.

(** ** The debug build *)

Definition orphan items i : bool := negb (keeps (calls items) i).
Definition unanswered items i : bool := strict i && is_some (aborted_output (outputs items) i).

Lemma collect_missing_panics items pre post i idx :
  items = pre ++ i :: post -> unanswered items i = true ->
  collect_missing true uuid_v5 (function_output_ids items) (tool_search_output_ids items)
    (custom_tool_output_ids items) idx items = None.
Proof.
  intros E Hu. rewrite E at 4. clear E. revert idx. induction pre as [|j pre IH]; intros idx; cbn [app collect_missing].
  - rewrite missing_output_spec. unfold unanswered in Hu. bool_to_prop.
    destruct (aborted_output (outputs items) i); [|done]. simpl. by rewrite H.
  - destruct (missing_output _ _ _ _ _ j); [|done]. simpl. by rewrite IH.
Qed.

Lemma vec_retain_panics (p : ResponseItem -> option bool) pre i post :
  p i = None -> vec_retain p (pre ++ i :: post) = None.
Proof.
  intros Hi. induction pre as [|j pre IH]; cbn [app vec_retain]; [by rewrite Hi|].
  destruct (p j); [|done]. simpl. by rewrite IH.
Qed.

(** A debug build panics exactly on histories that are not supposed to
    occur, those with an output whose call is gone or with a custom tool call or
    local shell call without an output; on all others it agrees with the
    release build. *)
Theorem normalize_debug mods items :
  normalize_history true uuid_v5 mods items =
  if existsb (orphan items) items || existsb (unanswered items) items then None
  else normalize_history false uuid_v5 mods items.
Proof.
  destruct (existsb (unanswered items) items) eqn:Eu.
  { rewrite orb_true_r. apply existsb_exists in Eu as (i & Hi%list_elem_of_In & Hu).
    apply list_elem_of_split in Hi as (pre & post & E).
    unfold normalize_history, ensure_call_outputs_present. by erewrite collect_missing_panics. }
  assert (Hu : forall i, i ∈ items -> strict i = true -> aborted_output (outputs items) i = None).
  { intros i Hi Hs. destruct (aborted_output (outputs items) i) eqn:E; [|done].
    enough (existsb (unanswered items) items = true) by congruence.
    apply existsb_exists. exists i. rewrite <- list_elem_of_In. unfold unanswered. by rewrite Hs, E. }
  rewrite orb_false_r, normalize_spec. unfold normalize_history. rewrite ensure_spec by auto. simpl.
  destruct (existsb (orphan items) items) eqn:Eo.
  - apply existsb_exists in Eo as (i & Hi%list_elem_of_In & Ho).
    assert (Hi' : i ∈ with_aborted (outputs items) items) by (apply elem_of_with_aborted; auto).
    apply list_elem_of_split in Hi' as (pre & post & E). unfold remove_orphan_outputs. rewrite E at 5.
    rewrite vec_retain_panics; [done|]. rewrite retained_spec, calls_with_aborted. unfold orphan in Ho.
    bool_to_prop. by rewrite Ho.
  - rewrite remove_orphans_spec; [simpl; f_equal; unfold normal_form; by rewrite calls_with_aborted, filter_with_aborted|].
    intros _ i. rewrite calls_with_aborted, elem_of_with_aborted. intros [Hi|(j & Hj & Ea)].
    + destruct (keeps (calls items) i) eqn:E; [done|]. enough (existsb (orphan items) items = true) by congruence.
      apply existsb_exists. exists i. rewrite <- list_elem_of_In. unfold orphan. by rewrite E.
    + apply aborted_output_Some in Ea as (k & Hk & _ & Hout & _ & Hs). unfold keeps, needs_call.
      rewrite Hs, Hout. apply bool_decide_eq_true_2, elem_of_omap_key. eauto.
Qed.

(** ** Removing a pair *)

(** [r] is [items] without one item of key [k], or [items] if there is none. *)
Definition removes (key : ResponseItem -> option (kind * str)) k items r : Prop :=
  (exists l1 j l2, items = l1 ++ j :: l2 /\ r = l1 ++ l2 /\ key j = Some k) \/
  (r = items /\ k ∉ omap key items).

Lemma position_Some {A} (p : A -> bool) l n :
  position p l = Some n -> exists l1 x l2, l = l1 ++ x :: l2 /\ n = length l1 /\ p x = true.
Proof.
  revert n. induction l as [|x l IH]; intros n; simpl; [done|]. destruct (p x) eqn:E.
  - intros [= <-]. by exists [], x, l.
  - intros (m & (l1 & y & l2 & -> & -> & Hy)%IH & ->)%fmap_Some. by exists (x :: l1), y, l2.
Qed.

Lemma position_None {A} (p : A -> bool) l : position p l = None -> forall x, x ∈ l -> p x = false.
Proof.
  induction l as [|x l IH]; simpl; [set_solver|]. destruct (p x) eqn:E; [done|].
  intros H%fmap_None y [->|Hy]%elem_of_cons; auto.
Qed.

Lemma vec_remove_mid {A} (l1 : list A) x l2 : vec_remove (l1 ++ x :: l2) (length l1) = Some (l1 ++ l2).
Proof.
  unfold vec_remove. rewrite length_app. simpl. destruct (Nat.ltb_spec (length l1) (length l1 + S (length l2))); [|lia].
  rewrite take_app_length, (app_cons_shift l1 x l2).
  replace (S (length l1)) with (length (l1 ++ [x])) by (rewrite length_app; simpl; lia).
  by rewrite drop_app_length.
Qed.

Lemma remove_first_matching_removes (key : ResponseItem -> option (kind * str)) p k items :
  (forall j, p j = true <-> key j = Some k) ->
  exists r, remove_first_matching items p = Some r /\ removes key k items r.
Proof.
  intros Hp. unfold remove_first_matching. destruct (position p items) as [n|] eqn:E.
  - apply position_Some in E as (l1 & j & l2 & -> & -> & Hj). exists (l1 ++ l2).
    split; [apply vec_remove_mid|]. left. exists l1, j, l2. by rewrite <- Hp.
  - exists items. split; [done|]. right. split; [done|].
    intros (j & Hj & Hk)%elem_of_omap_key. apply Hp in Hk. by rewrite (position_None _ _ E) in Hk.
Qed.

Ltac key_cases :=
  intros j; destruct j as [| | | |? [?|]| |? [?|]| | | |? [?|]| | | | | |]; simpl;
  rewrite ?bool_decide_eq_true; naive_solver.

Lemma remove_for_call items i k :
  call_key i = Some k -> exists r, remove_corresponding_for items i = Some r /\ removes output_key k items r.
Proof.
  intros E. destruct i as [| | | |? [c|]| |? [c|]| | | | | | | | | |]; simplify_eq/=;
    apply remove_first_matching_removes; key_cases.
Qed.

Lemma remove_for_output items i k :
  output_key i = Some k -> exists r, remove_corresponding_for items i = Some r /\ removes call_key k items r.
Proof.
  intros E. destruct i as [| | | | | | |? c| | |? [c|]| | | | | |]; simplify_eq/=;
    [|apply remove_first_matching_removes; key_cases..].
  destruct (position (is_function_call c) items) as [n|] eqn:E1.
  - apply position_Some in E1 as (l1 & j & l2 & -> & -> & Hj). exists (l1 ++ l2). split; [apply vec_remove_mid|].
    left. exists l1, j, l2. split_and!; [done..|]. destruct j; simplify_eq/=. by apply bool_decide_eq_true_1 in Hj as ->.
  - pose proof (position_None _ _ E1) as H1. destruct (position (is_local_shell_call c) items) as [n|] eqn:E2.
    + apply position_Some in E2 as (l1 & j & l2 & -> & -> & Hj). exists (l1 ++ l2). split; [apply vec_remove_mid|].
      left. exists l1, j, l2. split_and!; [done..|]. destruct j as [| | | |? [?|]| | | | | | | | | | | |]; simplify_eq/=.
      by apply bool_decide_eq_true_1 in Hj as ->.
    + exists items. split; [done|]. right. split; [done|].
      intros (j & Hj & Hk)%elem_of_omap_key. specialize (H1 j Hj). pose proof (position_None _ _ E2 j Hj) as H2.
      destruct j as [| | | |? [?|]| |? [?|]| | | | | | | | | |]; simplify_eq/=; by case_bool_decide.
Qed.

(** Every call id is used by at most one call and one output. *)
Definition distinct_ids items : Prop := NoDup (calls items) /\ NoDup (outputs items).

Lemma outputs_cons i items : outputs (i :: items) = option_list (output_key i) ++ outputs items.
Proof. unfold outputs. simpl. by destruct (output_key i). Qed.

Lemma calls_app l1 l2 : calls (l1 ++ l2) = calls l1 ++ calls l2.
Proof. apply omap_app. Qed.

Lemma outputs_app l1 l2 : outputs (l1 ++ l2) = outputs l1 ++ outputs l2.
Proof. apply omap_app. Qed.

Lemma call_not_output i k : call_key i = Some k -> output_key i = None.
Proof. by destruct i. Qed.

Lemma output_not_call i k : output_key i = Some k -> call_key i = None.
Proof. by destruct i. Qed.

Lemma removes_output k items r :
  removes output_key k items r -> NoDup (outputs items) ->
  calls r = calls items /\ NoDup (outputs r) /\ (forall k', k' ∈ outputs r <-> k' ∈ outputs items /\ k' <> k) /\
  forall i, i ∈ r -> i ∈ items.
Proof.
  intros [(l1 & j & l2 & -> & -> & E)|[-> Hk]] Hnd.
  - rewrite !calls_app, !outputs_app, calls_cons, outputs_cons, E in *.
    rewrite (output_not_call _ _ E). simpl in *. apply NoDup_app in Hnd as (H1 & H2 & H3%NoDup_cons).
    destruct H3 as [H3 H4]. split_and!; [done| |set_solver|set_solver].
    apply NoDup_app. split_and!; [done|set_solver|done].
  - split_and!; [done..| |done]. intros k'. split; [|by intros [? _]]. intros H. split; [done|]. by intros ->.
Qed.

Lemma removes_call k items r :
  removes call_key k items r -> NoDup (calls items) ->
  outputs r = outputs items /\ NoDup (calls r) /\ (forall k', k' ∈ calls r <-> k' ∈ calls items /\ k' <> k) /\
  forall i, i ∈ r -> i ∈ items.
Proof.
  intros [(l1 & j & l2 & -> & -> & E)|[-> Hk]] Hnd.
  - rewrite !calls_app, !outputs_app, calls_cons, outputs_cons, E in *.
    rewrite (call_not_output _ _ E). simpl in *. apply NoDup_app in Hnd as (H1 & H2 & H3%NoDup_cons).
    destruct H3 as [H3 H4]. split_and!; [done| |set_solver|set_solver].
    apply NoDup_app. split_and!; [done|set_solver|done].
  - split_and!; [done..| |done]. intros k'. split; [|by intros [? _]]. intros H. split; [done|]. by intros ->.
Qed.

Lemma needs_call_elem items i k : i ∈ items -> needs_call i = Some k -> k ∈ outputs items.
Proof. intros Hi Hn%needs_call_output. apply elem_of_omap_key. eauto. Qed.

(** Removing an item together with its counterpart keeps the rest paired. *)
Lemma remove_pair i items :
  paired (i :: items) -> distinct_ids (i :: items) ->
  exists r, remove_corresponding_for items i = Some r /\ paired r /\ distinct_ids r /\
    (forall j, j ∈ r -> j ∈ items) /\ length r <= length items <= S (length r).
Proof.
  intros [Hco Hoc] [Hc Ho]. rewrite calls_cons, outputs_cons in *.
  assert (Hlen : forall key k r, removes key k items r -> length r <= length items <= S (length r)).
  { intros key k r [(l1 & j & l2 & -> & -> & _)|[-> _]]; [rewrite !length_app; simpl|]; lia. }
  destruct (call_key i) as [k|] eqn:Ek; [|destruct (output_key i) as [k|] eqn:Eo].
  - rewrite (call_not_output _ _ Ek) in *. simpl in *. apply NoDup_cons in Hc as [Hk Hc].
    destruct (remove_for_call items i k Ek) as (r & Er & Hr). exists r. split; [done|]. destruct (Hlen _ _ _ Hr) as [? ?].
    destruct (removes_output _ _ _ Hr Ho) as (Ec & Hn & Hout & Hsub).
    split_and!; [|split; [by rewrite Ec|done]|done..].
    split; rewrite Ec.
    + intros k' Hk'. apply Hout. split; [apply Hco; set_solver|]. by intros ->.
    + intros j k' Hj Hnc. pose proof (needs_call_elem _ _ _ Hj Hnc) as [_ Hne]%Hout.
      specialize (Hoc j k' ltac:(set_solver) Hnc). set_solver.
  - simpl in *. apply NoDup_cons in Ho as [Hk Ho].
    destruct (remove_for_output items i k Eo) as (r & Er & Hr). exists r. split; [done|]. destruct (Hlen _ _ _ Hr) as [? ?].
    destruct (removes_call _ _ _ Hr Hc) as (Eo' & Hn & Hcall & Hsub).
    split_and!; [|split; [done|by rewrite Eo']|done..].
    split; rewrite ?Eo'.
    + intros k' [Hk' Hne]%Hcall. specialize (Hco k' Hk'). set_solver.
    + intros j k' Hj Hnc. apply Hcall. split; [apply (Hoc j); set_solver|].
      intros ->. apply Hk. rewrite <- Eo'. by eapply needs_call_elem.
  - simpl in *. exists items. split_and!; [|split; [done|]|done|done|lia..].
    + by destruct i as [| | | |? [?|]| |? [?|]| | | |? [?|]| | | | | |].
    + intros j k Hj. apply Hoc. set_solver.
Qed.
End Facts.
End NormalizeFacts.
