(* ===== verification/ContextFragments.v ===== *)
(** Context that the agent injects into the conversation as marked message
    fragments (context-fragments/src and core/src/context), and how it is told
    apart from what the user wrote (core/src/event_mapping.rs). *)

From stdpp Require Import base list option numbers strings.
From S2P Require Import Prelude Machine RustStr Truncate ResponseItems.

(** [str::get] with a range to or from a byte offset. *)
Definition str_get_to (s : str) (n : nat) : option str :=
  if is_char_boundary s n then Some (slice_to n s) else None.
Definition str_get_from (s : str) (n : nat) : option str :=
  if is_char_boundary s n then Some (slice_from n s) else None.

(** ** context-fragments/src/fragment.rs *)

Definition matches_marked_text (start_marker end_marker text : str) : bool :=
  if is_empty start_marker || is_empty end_marker then false
  else
    let trimmed := trim_start text in
    let starts_with_marker :=
      is_some_and (str_get_to trimmed (str_len start_marker))
        (fun candidate => eq_ignore_ascii_case candidate start_marker) in
    let trimmed := trim_end trimmed in
    let ends_with_marker :=
      is_some_and (str_get_from trimmed (str_len trimmed - str_len end_marker))
        (fun candidate => eq_ignore_ascii_case candidate end_marker) in
    starts_with_marker && ends_with_marker.

(** The trait; [frag_body] is [None] where it would panic. *)
Class ContextualUserFragment (T : Type) := {
  frag_role : T -> str;
  markers : T -> str * str;
  frag_body : T -> option str;
  type_markers : str * str;
  matches_text : str -> bool;
}.
Arguments type_markers T {_}.
Arguments matches_text T {_} text.

(** The default method. *)
Definition default_matches_text (tm : str * str) (text : str) : bool :=
  matches_marked_text tm.1 tm.2 text.

Definition render_fragment `{ContextualUserFragment T} (f : T) : option str :=
  let '(start_marker, end_marker) := markers f in
  body ← frag_body f;
  if is_empty start_marker && is_empty end_marker then Some body
  else Some (start_marker ++ body ++ end_marker).

Definition into_response_item {Json} `{ContextualUserFragment T} (f : T) : option (ResponseItem Json) :=
  text ← render_fragment f;
  Some (Message None (frag_role f) [Msg.InputText text] None None).

(** ** The fragments *)

(** core/src/context/user_instructions.rs *)
Record UserInstructions := mkUserInstructions { ui_directory : option str; ui_text : str }.

#[export] Instance user_instructions_fragment : ContextualUserFragment UserInstructions := {
  frag_role _ := lit "user";
  type_markers := (lit "# AGENTS.md instructions", lit "</INSTRUCTIONS>");
  markers _ := (lit "# AGENTS.md instructions", lit "</INSTRUCTIONS>");
  frag_body f :=
    Some (match ui_directory f with Some directory => lit " for " ++ directory | None => [] end
          ++ [LF] ++ [LF] ++ lit "<INSTRUCTIONS>" ++ [LF] ++ ui_text f ++ [LF]);
  matches_text := default_matches_text (lit "# AGENTS.md instructions", lit "</INSTRUCTIONS>");
}.

(** core/src/context/turn_aborted.rs *)
Record TurnAborted := mkTurnAborted { guidance : str }.

#[export] Instance turn_aborted_fragment : ContextualUserFragment TurnAborted := {
  frag_role _ := lit "user";
  type_markers := (lit "<turn_aborted>", lit "</turn_aborted>");
  markers _ := (lit "<turn_aborted>", lit "</turn_aborted>");
  frag_body f := Some ([LF] ++ guidance f ++ [LF]);
  matches_text := default_matches_text (lit "<turn_aborted>", lit "</turn_aborted>");
}.

(** core-skills/src/skill_instructions.rs *)
Record SkillInstructions := mkSkillInstructions { skill_name : str; skill_path : str; skill_contents : str }.

#[export] Instance skill_instructions_fragment : ContextualUserFragment SkillInstructions := {
  frag_role _ := lit "user";
  type_markers := (lit "<skill>", lit "</skill>");
  markers _ := (lit "<skill>", lit "</skill>");
  frag_body f :=
    Some ([LF] ++ lit "<name>" ++ skill_name f ++ lit "</name>" ++ [LF] ++ lit "<path>" ++ skill_path f
          ++ lit "</path>" ++ [LF] ++ skill_contents f ++ [LF]);
  matches_text := default_matches_text (lit "<skill>", lit "</skill>");
}.

(** core/src/context/internal_model_context.rs *)
Definition QUOTE : char := 34.
Definition CONTEXT_START_MARKER : str := lit "<codex_internal_context".
Definition CONTEXT_END_MARKER : str := lit "</codex_internal_context>".
Definition LEGACY_GOAL_CONTEXT_START_MARKER : str := lit "<goal_context>".
Definition LEGACY_GOAL_CONTEXT_END_MARKER : str := lit "</goal_context>".
Definition SOURCE_ATTR_START : str := lit " source=" ++ [QUOTE].
Definition SOURCE_ATTR_END : str := [QUOTE] ++ lit ">".

Definition is_ascii_lowercase (c : char) : bool := ((97 <=? c) && (c <=? 122))%N.

Definition is_valid_source (source : str) : bool :=
  match source with
  | [] => false
  | first :: chars =>
      is_ascii_lowercase first
      && forallb (fun ch => is_ascii_lowercase ch || is_ascii_digit ch || (ch =? 95)%N) chars
  end.

(** [InternalContextSource::new]; the error carries the source. *)
Definition internal_context_source_new (source : str) : result str str :=
  if is_valid_source source then Ok source else Err source.

Definition matches_legacy_goal_context (text : str) : bool :=
  starts_with LEGACY_GOAL_CONTEXT_START_MARKER text && ends_with LEGACY_GOAL_CONTEXT_END_MARKER text.

Definition internal_matches_text (text : str) : bool :=
  let trimmed := trim text in
  if matches_legacy_goal_context trimmed then true
  else
    match strip_prefix CONTEXT_START_MARKER trimmed with
    | None => false
    | Some rest =>
        match strip_prefix SOURCE_ATTR_START rest with
        | None => false
        | Some rest =>
            match split_once SOURCE_ATTR_END rest with
            | None => false
            | Some (source, body_and_close) =>
                is_valid_source source && ends_with CONTEXT_END_MARKER body_and_close
            end
        end
    end.

Record InternalModelContextFragment := mkInternalContext { ic_source : str; ic_body : str }.

#[export] Instance internal_context_fragment : ContextualUserFragment InternalModelContextFragment := {
  frag_role _ := lit "user";
  type_markers := (CONTEXT_START_MARKER, CONTEXT_END_MARKER);
  markers _ := (CONTEXT_START_MARKER, CONTEXT_END_MARKER);
  frag_body f := Some (SOURCE_ATTR_START ++ ic_source f ++ SOURCE_ATTR_END ++ [LF] ++ ic_body f ++ [LF]);
  matches_text := internal_matches_text;
}.

(** context-fragments/src/additional_context.rs *)
Definition MAX_ADDITIONAL_CONTEXT_VALUE_TOKENS : Z := 1000.
Definition ADDITIONAL_CONTEXT_END_MARKER_SUFFIX : str := lit ">".
Definition ADDITIONAL_CONTEXT_START_MARKER_PREFIX : str := lit "<external_".

Definition additional_context_body (key value : str) : option str :=
  value ← option_map fst (Truncate.truncate_middle_with_token_budget value MAX_ADDITIONAL_CONTEXT_VALUE_TOKENS);
  Some (key ++ lit ">" ++ value ++ lit "</external_" ++ key).

Definition additional_context_developer_body (key value : str) : option str :=
  value ← option_map fst (Truncate.truncate_middle_with_token_budget value MAX_ADDITIONAL_CONTEXT_VALUE_TOKENS);
  Some (lit "<" ++ key ++ lit ">" ++ value ++ lit "</" ++ key ++ lit ">").

Definition additional_matches_text (text : str) : bool :=
  let trimmed := trim text in
  match strip_prefix ADDITIONAL_CONTEXT_START_MARKER_PREFIX trimmed with
  | None => false
  | Some rest =>
      match split_once ADDITIONAL_CONTEXT_END_MARKER_SUFFIX rest with
      | None => false
      | Some (key, value_and_close) => ends_with (lit "</external_" ++ key ++ lit ">") value_and_close
      end
  end.

Record AdditionalContextUserFragment := mkAdditionalUser { acu_key : str; acu_value : str }.

#[export] Instance additional_user_fragment : ContextualUserFragment AdditionalContextUserFragment := {
  frag_role _ := lit "user";
  type_markers := (ADDITIONAL_CONTEXT_START_MARKER_PREFIX, ADDITIONAL_CONTEXT_END_MARKER_SUFFIX);
  markers _ := (ADDITIONAL_CONTEXT_START_MARKER_PREFIX, ADDITIONAL_CONTEXT_END_MARKER_SUFFIX);
  frag_body f := additional_context_body (acu_key f) (acu_value f);
  matches_text := additional_matches_text;
}.

Record AdditionalContextDeveloperFragment := mkAdditionalDev { acd_key : str; acd_value : str }.

#[export] Instance additional_developer_fragment : ContextualUserFragment AdditionalContextDeveloperFragment := {
  frag_role _ := lit "developer";
  type_markers := ([], []);
  markers _ := ([], []);
  frag_body f := additional_context_developer_body (acd_key f) (acd_value f);
  matches_text := default_matches_text ([], []);
}.

(** Fragments of old sessions, recognised only. *)
Definition legacy_process_limit_matches_text (text : str) : bool :=
  starts_with (lit "Warning: The maximum number of unified exec processes you can keep open is") (trim text).
Definition legacy_apply_patch_matches_text (text : str) : bool :=
  let trimmed := trim text in
  starts_with (lit "Warning: apply_patch was requested via ") trimmed
  && ends_with (lit "Use the apply_patch tool instead of exec_command.") trimmed.
Definition legacy_model_mismatch_matches_text (text : str) : bool :=
  starts_with (lit "Warning: Your account was flagged for potentially high-risk cyber activity") (trim text).

(** ** core/src/context/contextual_user_message.rs *)

(** The registered recognisers; environment states, shell commands, subagent
    notifications and plugin recommendations match by their markers. *)
Definition CONTEXTUAL_USER_FRAGMENTS : list (str -> bool) :=
  [ matches_text UserInstructions;
    default_matches_text (lit "<environment_context>", lit "</environment_context>");
    matches_text AdditionalContextUserFragment;
    matches_text SkillInstructions;
    default_matches_text (lit "<user_shell_command>", lit "</user_shell_command>");
    matches_text TurnAborted;
    default_matches_text (lit "<subagent_notification>", lit "</subagent_notification>");
    matches_text InternalModelContextFragment;
    default_matches_text (lit "<recommended_plugins>", lit "</recommended_plugins>");
    legacy_process_limit_matches_text;
    legacy_apply_patch_matches_text;
    legacy_model_mismatch_matches_text ].

Definition is_standard_contextual_user_text (text : str) : bool :=
  existsb (fun fragment => fragment text) CONTEXTUAL_USER_FRAGMENTS.

(** ** core/src/event_mapping.rs *)

Definition CONTEXTUAL_DEVELOPER_PREFIXES : list str :=
  [ lit "<permissions instructions>"; lit "<model_switch>"; lit "<collaboration_mode>";
    lit "<multi_agent_mode>"; lit "<realtime_conversation>"; lit "<skills_instructions>";
    lit "<personality_spec>"; lit "<token_budget>"; lit "<context_window>";
    lit "<context_window_guidance>"; lit "<rollout_budget>" ].

Definition is_contextual_dev_fragment (content_item : Msg.ContentItem) : bool :=
  match content_item with
  | Msg.InputText text =>
      let trimmed := trim_start text in
      existsb (fun prefix =>
        is_some_and (str_get_to trimmed (str_len prefix))
          (fun candidate => eq_ignore_ascii_case candidate prefix)) CONTEXTUAL_DEVELOPER_PREFIXES
  | _ => false
  end.

Definition is_contextual_dev_message_content (message : list Msg.ContentItem) : bool :=
  existsb is_contextual_dev_fragment message.

Definition has_non_contextual_dev_message_content (message : list Msg.ContentItem) : bool :=
  existsb (fun content_item => negb (is_contextual_dev_fragment content_item)) message.

Section HookPrompts.
(** The XML reading of a hook prompt: its text and hook run id. *)
Context (hook_prompt_xml : str -> option (str * str)).

Definition parse_hook_prompt_fragment (text : str) : option (str * str) :=
  match hook_prompt_xml (trim text) with
  | Some (text, hook_run_id) => if is_empty (trim hook_run_id) then None else Some (text, hook_run_id)
  | None => None
  end.

Definition is_contextual_user_fragment (content_item : Msg.ContentItem) : bool :=
  match content_item with
  | Msg.InputText text =>
      is_some (parse_hook_prompt_fragment text) || is_standard_contextual_user_text text
  | _ => false
  end.

Definition is_contextual_user_message_content (message : list Msg.ContentItem) : bool :=
  existsb is_contextual_user_fragment message.
End HookPrompts.

(** ** Recognition of what was rendered *)

(** Fragments of a kind, those satisfying [valid], are recognised once rendered. *)
Class Recognised (T : Type) `{ContextualUserFragment T} (valid : T -> Prop) :=
  recognised : forall f text, valid f -> render_fragment f = Some text -> matches_text T text = true.

Lemma eq_ignore_ascii_case_refl s : eq_ignore_ascii_case s s = true.
Proof. by apply bool_decide_eq_true_2. Qed.

Lemma str_get_to_app s t : str_get_to (s ++ t) (str_len s) = Some s.
Proof.
  unfold str_get_to. rewrite slice_to_app.
  by rewrite (proj2 (is_char_boundary_true (s ++ t) (str_len s)) (ex_intro _ s (ex_intro _ t (conj eq_refl eq_refl)))).
Qed.

Lemma str_get_from_app s t : str_get_from (s ++ t) (str_len s) = Some t.
Proof.
  unfold str_get_from. rewrite slice_from_app.
  by rewrite (proj2 (is_char_boundary_true (s ++ t) (str_len s)) (ex_intro _ s (ex_intro _ t (conj eq_refl eq_refl)))).
Qed.

(** A text between visible chars is its own trim. *)
Definition visible_ends (s e : str) : Prop :=
  exists a b, head s = Some a /\ last e = Some b /\ is_whitespace a = false /\ is_whitespace b = false.

Lemma trim_between s body e :
  visible_ends s e -> trim_start (s ++ body ++ e) = s ++ body ++ e /\ trim_end (s ++ body ++ e) = s ++ body ++ e.
Proof.
  intros (a & b & Ha & Hb & Hwa & Hwb). split.
  - destruct s as [|c s]; [done|]. simplify_eq/=. unfold trim_start. simpl. by rewrite Hwa.
  - apply (trim_end_id _ b); [|done]. apply last_Some_snoc in Hb as (e' & ->).
    by rewrite !app_assoc, last_snoc.
Qed.

Lemma trim_between_eq s body e : visible_ends s e -> trim (s ++ body ++ e) = s ++ body ++ e.
Proof. intros H. unfold trim. by rewrite (proj1 (trim_between s body e H)), (proj2 (trim_between s body e H)). Qed.

Lemma matches_marked_rendered s body e :
  visible_ends s e -> matches_marked_text s e (s ++ body ++ e) = true.
Proof.
  intros H. destruct (trim_between s body e H) as [Hs He]. unfold matches_marked_text.
  destruct H as (a & b & Ha & Hb & _). rewrite Hs, He.
  destruct (is_empty s) eqn:Es; [apply is_empty_true in Es; by subst|].
  destruct (is_empty e) eqn:Ee; [apply is_empty_true in Ee; by subst|]. simpl.
  rewrite str_get_to_app. simpl. rewrite eq_ignore_ascii_case_refl. simpl.
  replace (str_len (s ++ body ++ e) - str_len e) with (str_len (s ++ body))
    by (rewrite app_assoc, (str_len_app (s ++ body)); lia).
  rewrite app_assoc, str_get_from_app. simpl. apply eq_ignore_ascii_case_refl.
Qed.

Lemma split_once_first c p a b :
  Forall (fun x => x <> c) a -> split_once (c :: p) (a ++ (c :: p) ++ b) = Some (a, b).
Proof.
  induction 1 as [|x a Hx _ IH]; cbn [app split_once strip_prefix].
  - rewrite N.eqb_refl. by rewrite (proj2 (strip_prefix_Some p (p ++ b) b)).
  - destruct (N.eqb_spec c x); [congruence|]. cbn [app] in IH. by rewrite IH.
Qed.

Lemma ends_with_app a e : ends_with e (a ++ e) = true.
Proof. apply ends_with_true. eauto. Qed.

Lemma render_marked `{ContextualUserFragment T} (f : T) s e body text :
  markers f = (s, e) -> is_empty s = false -> frag_body f = Some body -> render_fragment f = Some text ->
  text = s ++ body ++ e.
Proof. unfold render_fragment. intros -> Hs ->. simpl. rewrite Hs. by intros [= <-]. Qed.

(** Fragments that match by their own, visible, markers. *)
Lemma marked_recognised `{ContextualUserFragment T} :
  (forall f : T, markers f = type_markers T) ->
  (forall text, matches_text T text = default_matches_text (type_markers T) text) ->
  visible_ends (type_markers T).1 (type_markers T).2 -> Recognised T (fun _ => True).
Proof.
  intros Hm Ht Hv f text _. rewrite Ht. unfold render_fragment, default_matches_text. rewrite Hm.
  destruct (type_markers T) as [s e]. simpl in *. destruct (frag_body f) as [body|]; [|done]. simpl.
  destruct (is_empty s && is_empty e) eqn:E.
  - apply andb_true_iff in E as [->%is_empty_true _]. by destruct Hv as (? & ? & ? & _).
  - intros [= <-]. by apply matches_marked_rendered.
Qed.

#[export] Instance user_instructions_recognised : Recognised UserInstructions (fun _ => True).
Proof. apply marked_recognised; [done..|]. by exists 35%N, 62%N. Qed.

#[export] Instance turn_aborted_recognised : Recognised TurnAborted (fun _ => True).
Proof. apply marked_recognised; [done..|]. by exists 60%N, 62%N. Qed.

#[export] Instance skill_instructions_recognised : Recognised SkillInstructions (fun _ => True).
Proof. apply marked_recognised; [done..|]. by exists 60%N, 62%N. Qed.

Lemma valid_source_no_quote source : is_valid_source source = true -> Forall (fun x => x <> QUOTE) source.
Proof.
  destruct source as [|c source]; [done|]. cbn [is_valid_source]. intros [Hc Hs]%andb_true_iff. constructor.
  - by intros ->.
  - apply Is_true_true, forallb_True in Hs. eapply Forall_impl; [exact Hs|]. intros x Hx ->. by vm_compute in Hx.
Qed.

#[export] Instance internal_context_recognised :
  Recognised InternalModelContextFragment (fun f => is_valid_source (ic_source f) = true).
Proof.
  intros f text Hv Hr. rewrite (@render_marked _ internal_context_fragment f CONTEXT_START_MARKER CONTEXT_END_MARKER
    (SOURCE_ATTR_START ++ ic_source f ++ SOURCE_ATTR_END ++ [LF] ++ ic_body f ++ [LF]) text eq_refl eq_refl eq_refl Hr).
  cbn [matches_text internal_context_fragment]. unfold internal_matches_text.
  rewrite trim_between_eq by (by exists 60%N, 62%N).
  destruct (matches_legacy_goal_context _); [done|].
  rewrite strip_prefix_app, <- !app_assoc, strip_prefix_app.
  rewrite (split_once_first QUOTE (lit ">")) by (by apply valid_source_no_quote).
  rewrite Hv, andb_true_l, !app_assoc. apply ends_with_app.
Qed.

#[export] Instance additional_context_recognised :
  Recognised AdditionalContextUserFragment (fun f => Forall (fun c => c <> 62%N) (acu_key f)).
Proof.
  intros [key value] text Hk Hr. simpl in Hk.
  destruct (additional_context_body key value) as [body|] eqn:E;
    [|unfold render_fragment in Hr; simpl in Hr; by rewrite E in Hr].
  rewrite (@render_marked _ additional_user_fragment (mkAdditionalUser key value) ADDITIONAL_CONTEXT_START_MARKER_PREFIX
    ADDITIONAL_CONTEXT_END_MARKER_SUFFIX body text eq_refl eq_refl E Hr).
  unfold additional_context_body in E. destruct (option_map _ _) as [v|]; [|done]. apply (inj Some) in E. subst body.
  cbn [matches_text additional_user_fragment]. unfold additional_matches_text.
  rewrite trim_between_eq by (by exists 60%N, 62%N).
  rewrite strip_prefix_app, <- !app_assoc.
  change ADDITIONAL_CONTEXT_END_MARKER_SUFFIX with [62%N]. change (lit ">") with [62%N].
  rewrite (split_once_first 62%N []) by done. apply ends_with_app.
Qed.

Lemma recognised_contextual hook_prompt_xml {T} `{ContextualUserFragment T} {valid} `{!Recognised T valid} f text :
  List.In (matches_text T) CONTEXTUAL_USER_FRAGMENTS -> valid f -> render_fragment f = Some text ->
  is_contextual_user_fragment hook_prompt_xml (Msg.InputText text) = true.
Proof.
  intros Hin Hok Hr. simpl. apply orb_true_iff. right. apply existsb_exists.
  exists (matches_text T). split; [done|]. by apply (recognised f).
Qed.
