(* ===== verification/History.v ===== *)
(** The conversation history (core/src/context_manager/history.rs), with the
    token accounting of protocol/src/protocol.rs. *)

From stdpp Require Import base list option numbers strings.
From Stdlib Require Import Floats.SpecFloat.
From S2P Require Import Prelude Machine RustStr Truncate ResponseItems Normalize ContextFragments.

Module History.
Import Normalize.

Local Open Scope Z_scope.

(** ** protocol/src/protocol.rs: token usage *)

Record TokenUsage := mkUsage {
  input_tokens : Z;
  cached_input_tokens : Z;
  output_tokens : Z;
  reasoning_output_tokens : Z;
  total_tokens : Z;
}.

Definition default_usage : TokenUsage := mkUsage 0 0 0 0 0.

Record TokenUsageInfo := mkUsageInfo {
  total_token_usage : TokenUsage;
  last_token_usage : TokenUsage;
  model_context_window : option Z;
}.

(** ** Floating point: [policy * 1.2] *)

(** [n as f64], in round to nearest even. *)
Definition f64_of_usize (n : Z) : spec_float := binary_normalize 53 1024 n 0 false.

(** The [f64] nearest to 1.2. *)
Definition F64_1_2 : spec_float := S754_finite false 5404319552844595 (-52).

(** [f.ceil() as usize] for a non-negative [f]; the cast saturates. *)
Definition ceil_as_usize (f : spec_float) : Z :=
  match f with
  | S754_finite false m e =>
      Z.min usize_max (if 0 <=? e then Zpos m * 2 ^ e else (Zpos m + 2 ^ (- e) - 1) / 2 ^ (- e))
  | S754_infinity false => usize_max
  | _ => 0
  end.

Definition policy_mul (p : Truncate.TruncationPolicy) (multiplier : spec_float) : Truncate.TruncationPolicy :=
  match p with
  | Truncate.Bytes bytes => Truncate.Bytes (ceil_as_usize (SFmul 53 1024 (f64_of_usize bytes) multiplier))
  | Truncate.Tokens tokens => Truncate.Tokens (ceil_as_usize (SFmul 53 1024 (f64_of_usize tokens) multiplier))
  end.

(** [Iterator::rposition]. *)
Fixpoint rposition {A} (p : A -> bool) (l : list A) : option nat :=
  match l with
  | [] => None
  | x :: l' => match rposition p l' with Some n => Some (S n) | None => if p x then Some 0%nat else None end
  end.

Section History.
Context {Json TurnContextItem WorldStateSnapshot : Type}.
Context (debug_assertions : bool) (uuid_v5 : N -> list N -> str).
Notation ResponseItem := (ResponseItem Json).

(** [TokenUsage::add_assign], whose additions may overflow. *)
Definition add_assign (self other : TokenUsage) : option TokenUsage :=
  i ← i64_add debug_assertions (input_tokens self) (input_tokens other);
  c ← i64_add debug_assertions (cached_input_tokens self) (cached_input_tokens other);
  o ← i64_add debug_assertions (output_tokens self) (output_tokens other);
  r ← i64_add debug_assertions (reasoning_output_tokens self) (reasoning_output_tokens other);
  t ← i64_add debug_assertions (total_tokens self) (total_tokens other);
  Some (mkUsage i c o r t).

Definition append_last_usage (info : TokenUsageInfo) (last : TokenUsage) : option TokenUsageInfo :=
  total ← add_assign (total_token_usage info) last;
  Some (mkUsageInfo total last (model_context_window info)).

Definition new_or_append (info : option TokenUsageInfo) (last : option TokenUsage) (window : option Z)
  : option (option TokenUsageInfo) :=
  match info, last with
  | None, None => Some None
  | _, _ =>
      let info := match info with
                  | Some info => info
                  | None => mkUsageInfo default_usage default_usage window
                  end in
      info ← match last with Some last => append_last_usage info last | None => Some info end;
      Some (Some (match window with
                  | Some w => mkUsageInfo (total_token_usage info) (last_token_usage info) (Some w)
                  | None => info
                  end))
  end.

Definition fill_to_context_window (info : TokenUsageInfo) (context_window : Z) : option TokenUsageInfo :=
  let previous_total := total_tokens (total_token_usage info) in
  diff ← i64_sub debug_assertions context_window previous_total;
  let delta := Z.max diff 0 in
  Some (mkUsageInfo (mkUsage 0 0 0 0 context_window) (mkUsage 0 0 0 0 delta) (Some context_window)).

Definition full_context_window (context_window : Z) : option TokenUsageInfo :=
  fill_to_context_window (mkUsageInfo default_usage default_usage (Some context_window)) context_window.

(** ** Classification of items *)

(** The XML reading of hook prompts and whether a text is the JSON of an
    inter-agent communication. *)
Context (hook_prompt_xml : str -> option (str * str)) (is_inter_agent_json : str -> bool).

Definition is_inter_agent_instruction_content (content : list Msg.ContentItem) : bool :=
  match content with
  | [Msg.InputText text] | [Msg.OutputText text] => is_inter_agent_json text
  | _ => false
  end.

Definition is_user_turn_boundary (item : ResponseItem) : bool :=
  match item with
  | AgentMessage _ _ _ _ _ => true
  | Message _ role content _ _ =>
      (role == lit "user") && negb (is_contextual_user_message_content hook_prompt_xml content)
      || (role == lit "assistant") && is_inter_agent_instruction_content content
  | _ => false
  end.

Fixpoint user_message_positions_from (idx : nat) (items : list ResponseItem) : list nat :=
  match items with
  | [] => []
  | item :: rest =>
      if is_user_turn_boundary item then idx :: user_message_positions_from (S idx) rest
      else user_message_positions_from (S idx) rest
  end.

Definition user_message_positions (items : list ResponseItem) : list nat :=
  user_message_positions_from 0 items.

Definition is_api_message (message : ResponseItem) : bool :=
  match message with
  | Message _ role _ _ _ => negb (role == lit "system")
  | CompactionTrigger | Other => false
  | _ => true
  end.

Definition is_model_generated_item (item : ResponseItem) : bool :=
  match item with
  | Message _ role _ _ _ => role == lit "assistant"
  | Reasoning _ _ _ _ _ | FunctionCall _ _ _ _ _ _ | ToolSearchCall _ _ _ _ _ _ | WebSearchCall _ _ _ _
  | ImageGenerationCall _ _ _ _ _ | CustomToolCall _ _ _ _ _ _ _ | LocalShellCall _ _ _ _ _
  | Compaction _ _ _ | ContextCompaction _ _ _ => true
  | _ => false
  end.

(** ** The state *)

Record ContextManager := mkManager {
  items : list ResponseItem;
  history_version : Z;
  token_info : option TokenUsageInfo;
  reference_context_item : option TurnContextItem;
  world_state_baseline : option WorldStateSnapshot;
}.

Definition new : ContextManager := mkManager [] 0 None None None.

Definition set_items (m : ContextManager) (l : list ResponseItem) : ContextManager :=
  mkManager l (history_version m) (token_info m) (reference_context_item m) (world_state_baseline m).

Definition set_token_info (m : ContextManager) (info : option TokenUsageInfo) : ContextManager :=
  mkManager (items m) (history_version m) info (reference_context_item m) (world_state_baseline m).

Definition set_reference_context_item (m : ContextManager) (item : option TurnContextItem) : ContextManager :=
  mkManager (items m) (history_version m) (token_info m) item (world_state_baseline m).

Definition set_world_state_baseline (m : ContextManager) (snapshot : WorldStateSnapshot) : ContextManager :=
  mkManager (items m) (history_version m) (token_info m) (reference_context_item m) (Some snapshot).

Definition set_token_usage_full (m : ContextManager) (context_window : Z) : option ContextManager :=
  info ← match token_info m with
         | Some info => fill_to_context_window info context_window
         | None => full_context_window context_window
         end;
  Some (set_token_info m (Some info)).

Definition update_token_info (m : ContextManager) (usage : TokenUsage) (window : option Z) : option ContextManager :=
  info ← new_or_append (token_info m) (Some usage) window;
  Some (set_token_info m info).

(** ** Recording *)

Definition truncate_function_output_payload (output : FunctionCallOutputPayload)
    (policy : Truncate.TruncationPolicy) : option FunctionCallOutputPayload :=
  body ← match body output with
         | Text content => option_map Text (Truncate.truncate_text content policy)
         | ContentItems l => option_map ContentItems (Truncate.truncate_function_output_items_with_policy l policy)
         end;
  Some (mkPayload body (success output)).

Definition process_item (item : ResponseItem) (policy : Truncate.TruncationPolicy) : option ResponseItem :=
  let policy_with_serialization_budget := policy_mul policy F64_1_2 in
  match item with
  | FunctionCallOutput id call_id output meta =>
      output ← truncate_function_output_payload output policy_with_serialization_budget;
      Some (FunctionCallOutput id call_id output meta)
  | CustomToolCallOutput id call_id name output meta =>
      output ← truncate_function_output_payload output policy_with_serialization_budget;
      Some (CustomToolCallOutput id call_id name output meta)
  | _ => Some item
  end.

Fixpoint record_items (m : ContextManager) (new_items : list ResponseItem)
    (policy : Truncate.TruncationPolicy) : option ContextManager :=
  match new_items with
  | [] => Some m
  | item :: rest =>
      if negb (is_api_message item) then record_items m rest policy
      else
        processed ← process_item item policy;
        record_items (set_items m (items m ++ [processed])) rest policy
  end.

(** ** Rewriting *)

Definition for_prompt (m : ContextManager) (input_modalities : list InputModality) : option (list ResponseItem) :=
  normalize_history debug_assertions uuid_v5 input_modalities (items m).

Definition remove_first_item (m : ContextManager) : option ContextManager :=
  match items m with
  | [] => Some m
  | removed :: rest =>
      rest ← remove_corresponding_for rest removed;
      Some (mkManager rest (history_version m) (token_info m) (reference_context_item m) None)
  end.

Definition replace (m : ContextManager) (l : list ResponseItem) : ContextManager :=
  mkManager l (sat_add (history_version m) 1) (token_info m) (reference_context_item m) None.

Definition is_output_image (item : FunctionCallOutputContentItem) : bool :=
  match item with Truncate.InputImage _ _ => true | _ => false end.

Definition replace_last_turn_images (m : ContextManager) (placeholder : str) : ContextManager * bool :=
  match rposition (fun item => match item with FunctionCallOutput _ _ _ _ => true | _ => is_user_turn_boundary item end)
          (items m) with
  | None => (m, false)
  | Some index =>
      match items m !! index with
      | Some (FunctionCallOutput id call_id (mkPayload (ContentItems content_items) ok) meta) =>
          let content_items' :=
            List.map (fun item => if is_output_image item then Truncate.InputText placeholder else item)
              content_items in
          if existsb is_output_image content_items then
            (mkManager
               (<[index := FunctionCallOutput id call_id (mkPayload (ContentItems content_items') ok) meta]> (items m))
               (sat_add (history_version m) 1) (token_info m) (reference_context_item m)
               (world_state_baseline m), true)
          else (m, false)
      | _ => (m, false)
      end
  end.

(** The [while] loop of [trim_pre_turn_context_updates]: the baseline kept and
    the adjusted cut; [None] where indexing the snapshot panics. *)
Fixpoint trim_pre_turn_context_updates (snapshot : list ResponseItem) (first_instruction_turn_idx : nat)
    (reference : option TurnContextItem) (cut_idx : nat) : option (option TurnContextItem * nat) :=
  match cut_idx with
  | O => Some (reference, cut_idx)
  | S prev =>
      if (first_instruction_turn_idx <? cut_idx)%nat then
        item ← snapshot !! prev;
        match item with
        | Message _ role content _ _ =>
            if (role == lit "developer") && is_contextual_dev_message_content content then
              trim_pre_turn_context_updates snapshot first_instruction_turn_idx
                (if has_non_contextual_dev_message_content content then None else reference) prev
            else if (role == lit "user") && is_contextual_user_message_content hook_prompt_xml content then
              trim_pre_turn_context_updates snapshot first_instruction_turn_idx reference prev
            else Some (reference, cut_idx)
        | _ => Some (reference, cut_idx)
        end
      else Some (reference, cut_idx)
  end.

(** [num_turns] is a [u32]. *)
Definition drop_last_n_user_turns (m : ContextManager) (num_turns : nat) : option ContextManager :=
  if (num_turns =? 0)%nat then Some m
  else
    let snapshot := items m in
    let user_positions := user_message_positions snapshot in
    match user_positions with
    | [] => Some (replace m snapshot)
    | first_instruction_turn_idx :: _ =>
        cut_idx ←
          (if (length user_positions <=? num_turns)%nat then Some first_instruction_turn_idx
           else user_positions !! (length user_positions - num_turns)%nat);
        '(reference, cut_idx) ←
          trim_pre_turn_context_updates snapshot first_instruction_turn_idx (reference_context_item m) cut_idx;
        Some (replace (set_reference_context_item m reference) (take cut_idx snapshot))
    end.
End History.
End History.
