(* ===== verification/HistoryTokens.v ===== *)
(** Token estimates of the history (the second half of
    core/src/context_manager/history.rs): byte-based, in saturating 64-bit
    arithmetic. *)

From stdpp Require Import base list option numbers strings.
From S2P Require Import Prelude Machine RustStr Truncate Utf8Stream ResponseItems Normalize ContextFragments History.

Module HistoryTokens.
Import History.

Local Open Scope Z_scope.

Definition RESIZED_IMAGE_BYTES_ESTIMATE : Z := 7373.
Definition ORIGINAL_IMAGE_PATCH_SIZE : Z := 32.
Definition ORIGINAL_IMAGE_MAX_PATCHES : Z := 10000.

Definition estimate_reasoning_length (encoded_len : Z) : Z := sat_sub (sat_mul encoded_len 3 / 4) 650.

(** [usize::div_ceil]. *)
Definition div_ceil (a b : Z) : Z := (a + b - 1) / b.

Definition estimate_encrypted_function_output_length (encoded_len : Z) : Z :=
  div_ceil (sat_mul encoded_len 9) 16.

Definition SEMICOLON : char := 59.
Definition COMMA : char := 44.

(** The comma found is never inside ["data:"], so the slices are in range
    ([data_url_slice]). *)
Definition parse_base64_image_data_url (url : str) : option str :=
  if negb (is_some_and (str_get_to url (str_len (lit "data:")))
             (fun prefix => eq_ignore_ascii_case prefix (lit "data:"))) then None
  else
    match split_once [COMMA] url with
    | None => None
    | Some (metadata, payload) =>
        let metadata_without_scheme := slice_from (str_len (lit "data:")) metadata in
        let metadata_parts := split_on SEMICOLON metadata_without_scheme in
        let mime_type := default [] (head metadata_parts) in
        let has_base64_marker :=
          existsb (fun part => eq_ignore_ascii_case part (lit "base64")) (tail metadata_parts) in
        if negb (is_some_and (str_get_to mime_type (str_len (lit "image/")))
                   (fun prefix => eq_ignore_ascii_case prefix (lit "image/"))) then None
        else if negb has_base64_marker then None
        else Some payload
    end.

Section Estimates.
Context {Json TurnContextItem WorldStateSnapshot : Type}.
Context (hook_prompt_xml : str -> option (str * str)) (is_inter_agent_json : str -> bool).
(** [serde_json::to_string], base64 decoding, and the width and height of a
    decoded image. *)
Context (to_json : ResponseItem Json -> option str).
Context (base64_decode : str -> option (list N)) (image_size : list N -> option (Z * Z)).
Notation ResponseItem := (ResponseItem Json).
Notation ContextManager := (@ContextManager Json TurnContextItem WorldStateSnapshot).

(** The computation that [estimate_original_image_bytes] caches per image. *)
Definition original_image_estimate (image_url : str) : option Z :=
  payload ← parse_base64_image_data_url image_url;
  bytes ← base64_decode payload;
  '(width, height) ← image_size bytes;
  let patch_size := ORIGINAL_IMAGE_PATCH_SIZE in
  let patches_wide := Z.quot (i64_sat_add width (i64_sat_sub patch_size 1)) patch_size in
  let patches_high := Z.quot (i64_sat_add height (i64_sat_sub patch_size 1)) patch_size in
  let patch_count := i64_sat_mul patches_wide patches_high in
  let patch_count := if 0 <=? patch_count then patch_count else usize_max in
  let patch_count := Z.min patch_count ORIGINAL_IMAGE_MAX_PATCHES in
  Some (i64_of_usize (Truncate.approx_bytes_for_tokens patch_count)).

(** The closure [accumulate]. *)
Definition accumulate (acc : Z * Z) (image_url : str) (detail : option ImageDetail) : Z * Z :=
  match parse_base64_image_data_url image_url with
  | Some payload =>
      (i64_sat_add acc.1 (i64_of_usize (Truncate.slen payload)),
       i64_sat_add acc.2
         (match detail with
          | Some Original => default RESIZED_IMAGE_BYTES_ESTIMATE (original_image_estimate image_url)
          | _ => RESIZED_IMAGE_BYTES_ESTIMATE
          end))
  | None => acc
  end.

Definition message_images (content : list Msg.ContentItem) : list (str * option ImageDetail) :=
  omap (fun c => match c with Msg.InputImage url detail => Some (url, detail) | _ => None end) content.

Definition output_images (p : FunctionCallOutputPayload) : list (str * option ImageDetail) :=
  match body p with
  | ContentItems l => omap (fun c => match c with Truncate.InputImage url detail => Some (url, detail) | _ => None end) l
  | Text _ => []
  end.

Definition image_data_url_estimate_adjustment (item : ResponseItem) : Z * Z :=
  let images :=
    match item with
    | Message _ _ content _ _ => message_images content
    | FunctionCallOutput _ _ output _ | CustomToolCallOutput _ _ _ output _ => output_images output
    | _ => []
    end in
  foldl (fun acc image => accumulate acc image.1 image.2) (0, 0) images.

Definition encrypted_function_output_estimate_adjustment (item : ResponseItem) : Z * Z :=
  match item with
  | FunctionCallOutput _ _ (mkPayload (ContentItems l) _) _ =>
      foldl (fun acc c =>
        match c with
        | Truncate.EncryptedContent encrypted_content =>
            (i64_sat_add acc.1 (i64_of_usize (Truncate.slen encrypted_content)),
             i64_sat_add acc.2
               (i64_of_usize (estimate_encrypted_function_output_length (Truncate.slen encrypted_content))))
        | _ => acc
        end) (0, 0) l
  | _ => (0, 0)
  end.

Definition estimate_response_item_model_visible_bytes (item : ResponseItem) : Z :=
  match item with
  | Reasoning _ _ _ (Some content) _ | Compaction _ content _ | ContextCompaction _ (Some content) _ =>
      i64_of_usize (estimate_reasoning_length (Truncate.slen content))
  | item =>
      let raw := match to_json item with
                 | Some serialized => i64_of_usize (Truncate.slen serialized)
                 | None => 0
                 end in
      let '(image_payload_bytes, image_replacement_bytes) := image_data_url_estimate_adjustment item in
      let '(encrypted_payload_bytes, encrypted_replacement_bytes) :=
        encrypted_function_output_estimate_adjustment item in
      let raw := i64_sat_add (i64_sat_sub raw image_payload_bytes) image_replacement_bytes in
      i64_sat_add (i64_sat_sub raw encrypted_payload_bytes) encrypted_replacement_bytes
  end.

Definition estimate_item_token_count (item : ResponseItem) : Z :=
  Truncate.approx_tokens_from_byte_count_i64 (estimate_response_item_model_visible_bytes item).

(** [.map(estimate_item_token_count).fold(0, i64::saturating_add)]. *)
Definition total_estimate (l : list ResponseItem) : Z :=
  foldl i64_sat_add 0 (List.map estimate_item_token_count l).

Definition estimate_token_count_with_base_instructions (m : ContextManager) (base_instructions : str) : option Z :=
  let base_tokens := i64_of_usize (Truncate.approx_token_count base_instructions) in
  Some (i64_sat_add base_tokens (total_estimate (items m))).

Definition is_encrypted_reasoning (item : ResponseItem) : bool :=
  match item with Reasoning _ _ _ (Some _) _ => true | _ => false end.

Definition get_non_last_reasoning_items_tokens (m : ContextManager) : Z :=
  match rposition (is_user_turn_boundary hook_prompt_xml is_inter_agent_json) (items m) with
  | None => 0
  | Some last_user_index =>
      total_estimate (List.filter is_encrypted_reasoning (take last_user_index (items m)))
  end.

Definition items_after_last_model_generated_item (m : ContextManager) : list ResponseItem :=
  let start := match rposition is_model_generated_item (items m) with
               | Some index => S index
               | None => length (items m)
               end in
  drop start (items m).

Definition estimated_tokens_after_last_model_generated_item (m : ContextManager) : Z :=
  total_estimate (items_after_last_model_generated_item m).

Definition get_total_token_usage (m : ContextManager) (server_reasoning_included : bool) : Z :=
  let last_tokens :=
    match token_info m with Some info => total_tokens (last_token_usage info) | None => 0 end in
  let items_after_last_model_generated_tokens := total_estimate (items_after_last_model_generated_item m) in
  if server_reasoning_included then i64_sat_add last_tokens items_after_last_model_generated_tokens
  else
    i64_sat_add (i64_sat_add last_tokens (get_non_last_reasoning_items_tokens m))
      items_after_last_model_generated_tokens.

(** ** Estimates never overflow *)

Lemma estimate_item_range item : 0 <= estimate_item_token_count item <= i64_max.
Proof.
  unfold estimate_item_token_count, Truncate.approx_tokens_from_byte_count_i64.
  destruct (Z.leb_spec (estimate_response_item_model_visible_bytes item) 0) as [|H]; [done|].
  split; [|lia]. apply Z.min_glb; [done|].
  unfold Truncate.approx_tokens_from_byte_count, sat_add, sat_sub, Truncate.APPROX_BYTES_PER_TOKEN.
  apply Z.div_pos; [|done]. assert (0 <= usize_max) by done. lia.
Qed.

Definition sum_estimates (l : list ResponseItem) : Z := foldr Z.add 0 (List.map estimate_item_token_count l).

Lemma sum_estimates_nonneg l : 0 <= sum_estimates l.
Proof.
  unfold sum_estimates. induction l as [|i l IH]; simpl; [done|]. pose proof (estimate_item_range i). lia.
Qed.

Lemma sat_fold_sum acc l :
  0 <= acc <= i64_max ->
  foldl i64_sat_add acc (List.map estimate_item_token_count l) = Z.min i64_max (acc + sum_estimates l).
Proof.
  revert acc. induction l as [|i l IH]; intros acc Hacc; cbn [List.map foldl].
  - unfold sum_estimates. simpl. lia.
  - pose proof (estimate_item_range i) as Hi. pose proof (sum_estimates_nonneg l) as Hl.
    assert (Hmin : i64_min <= 0) by done.
    assert (Hs : i64_sat_add acc (estimate_item_token_count i) = Z.min i64_max (acc + estimate_item_token_count i))
      by (unfold i64_sat_add, sat_i64; lia).
    rewrite IH by (rewrite Hs; lia). rewrite Hs.
    change (sum_estimates (i :: l)) with (estimate_item_token_count i + sum_estimates l). lia.
Qed.

Lemma total_estimate_sum l : total_estimate l = Z.min i64_max (sum_estimates l).
Proof. unfold total_estimate. by rewrite sat_fold_sum. Qed.

(** The estimated size of a history is the exact sum of the instruction and
    item estimates, cut off only at the largest 64-bit value: no order of
    additions, no large image or encrypted payload makes it overflow, and an
    item never lowers it. *)
Theorem estimate_is_sum m base_instructions :
  estimate_token_count_with_base_instructions m base_instructions =
    Some (Z.min i64_max (Truncate.approx_token_count base_instructions + sum_estimates (items m))) /\
  Forall (fun item => 0 <= estimate_item_token_count item <= i64_max) (items m).
Proof.
  split; [|apply Forall_true; apply estimate_item_range].
  unfold estimate_token_count_with_base_instructions. f_equal. rewrite total_estimate_sum.
  pose proof (sum_estimates_nonneg (items m)). assert (Hmin : i64_min <= 0) by done.
  assert (0 <= Truncate.approx_token_count base_instructions).
  { unfold Truncate.approx_token_count. apply Z.div_pos; [|done].
    unfold sat_add, sat_sub, Truncate.APPROX_BYTES_PER_TOKEN. pose proof (Truncate.slen_nonneg base_instructions).
    assert (0 <= usize_max) by done. lia. }
  assert (0 <= i64_max) by done. unfold i64_sat_add, sat_i64, i64_of_usize. lia.
Qed.
End Estimates.

(** The scheme precedes the comma, so that the slice of the metadata is in
    range. *)
Lemma data_url_slice url prefix metadata payload :
  str_get_to url (str_len (lit "data:")) = Some prefix -> eq_ignore_ascii_case prefix (lit "data:") = true ->
  split_once [COMMA] url = Some (metadata, payload) ->
  is_char_boundary metadata (str_len (lit "data:")) = true.
Proof.
  unfold str_get_to. destruct (is_char_boundary url _) eqn:E; [|done]. intros Hpre Hp Hs. apply (inj Some) in Hpre. subst prefix.
  apply is_char_boundary_true in E as (a & b & -> & Ha). rewrite Ha, slice_to_app in Hp.
  apply split_once_eq in Hs. apply bool_decide_eq_true_1 in Hp.
  assert (Hc : Forall (fun c => c <> COMMA) a).
  { apply Forall_forall. intros c Hc ->. assert (Hin : to_ascii_lower COMMA ∈ to_ascii_lowercase a)
      by (apply list_elem_of_fmap; eauto). rewrite Hp in Hin. vm_compute in Hin.
    repeat (apply elem_of_cons in Hin as [Hin|Hin]; [discriminate Hin|]). by apply not_elem_of_nil in Hin. }
  rewrite Ha. apply is_char_boundary_true. apply app_eq_inv in Hs as [(k & -> & Hk)|(k & -> & Hk)].
  - destruct k as [|c k]; [exists metadata, []; by rewrite !app_nil_r|]. simpl in Hk. injection Hk as <- _.
    apply Forall_app in Hc as [_ Hc]. apply Forall_cons in Hc as [Hc _]. done.
  - by exists a, k.
Qed.
End HistoryTokens.
