(* ===== verification/HistoryFacts.v ===== *)
(** The history under its operations: what rollback drops, that evicting the
    oldest item keeps calls and outputs paired, that recording is total and
    keeps every item but for truncation. *)

From stdpp Require Import base list option numbers strings sets.
From S2P Require Import Prelude Machine RustStr Truncate Utf8Stream ResponseItems.
From S2P Require Import Normalize NormalizeFacts ContextFragments History.

Module HistoryFacts.
Import Normalize NormalizeFacts History.

Section Rollback.
Context {Json TurnContextItem WorldStateSnapshot : Type}.
Context (hook_prompt_xml : str -> option (str * str)) (is_inter_agent_json : str -> bool).
Notation ResponseItem := (ResponseItem Json).
Notation ContextManager := (@ContextManager Json TurnContextItem WorldStateSnapshot).
Notation boundary := (is_user_turn_boundary hook_prompt_xml is_inter_agent_json).
Implicit Types (l : list ResponseItem) (m : ContextManager).

(** ** Turns *)

(** The number of instruction turns. *)
Definition turns l : nat := length (List.filter boundary l).

Lemma turns_app l1 l2 : turns (l1 ++ l2) = turns l1 + turns l2.
Proof. unfold turns. by rewrite List.filter_app, length_app. Qed.

Lemma turns_cons i l : turns (i :: l) = (if boundary i then 1 else 0) + turns l.
Proof. unfold turns. simpl. by destruct (boundary i). Qed.

Lemma positions_length idx l :
  length (user_message_positions_from hook_prompt_xml is_inter_agent_json idx l) = turns l.
Proof.
  revert idx. induction l as [|i l IH]; intros idx; [done|]. rewrite turns_cons. cbn [user_message_positions_from].
  destruct (boundary i); simpl; by rewrite IH.
Qed.

(** The [j]-th position is that of the turn preceded by [j] others. *)
Lemma positions_lookup idx l j p :
  user_message_positions_from hook_prompt_xml is_inter_agent_json idx l !! j = Some p ->
  exists l1 i l2, l = l1 ++ i :: l2 /\ p = idx + length l1 /\ boundary i = true /\ turns l1 = j.
Proof.
  revert idx j. induction l as [|i l IH]; intros idx j; [done|]. cbn [user_message_positions_from].
  destruct (boundary i) eqn:E.
  - destruct j as [|j]; simpl.
    + intros [= <-]. exists [], i, l. split_and!; [done|simpl; lia|done|done].
    + intros (l1 & x & l2 & -> & -> & Hx & <-)%IH. exists (i :: l1), x, l2.
      split_and!; [done|simpl; lia|done|]. by rewrite turns_cons, E.
  - intros (l1 & x & l2 & -> & -> & Hx & <-)%IH. exists (i :: l1), x, l2.
    split_and!; [done|simpl; lia|done|]. by rewrite turns_cons, E.
Qed.

(** ** Context updates *)

(** A message of injected context, as opposed to a turn. *)
Definition contextual (i : ResponseItem) : bool :=
  match i with
  | Message _ role content _ _ =>
      (role == lit "developer") && is_contextual_dev_message_content content
      || (role == lit "user") && is_contextual_user_message_content hook_prompt_xml content
  | _ => false
  end.

(** A developer message that carries persistent text too. *)
Definition mixed (i : ResponseItem) : bool :=
  match i with
  | Message _ role content _ _ =>
      (role == lit "developer") && is_contextual_dev_message_content content
      && has_non_contextual_dev_message_content content
  | _ => false
  end.

Lemma contextual_not_turn i : contextual i = true -> boundary i = false.
Proof.
  destruct i; try done. cbn [contextual is_user_turn_boundary]. rewrite orb_true_iff, !andb_true_iff, !bool_decide_eq_true.
  intros [[-> _]|[-> ->]]; done.
Qed.

Lemma contextual_no_turns l : Forall (fun i => contextual i = true) l -> turns l = 0.
Proof. induction 1 as [|i l Hi _ IH]; [done|]. by rewrite turns_cons, contextual_not_turn. Qed.

(** What the trimming walk returns from a cut: only context is trimmed, never
    past the first turn, and a trimmed mixed message drops the baseline. *)
Definition trimmed (snapshot : list ResponseItem) (first : nat) (reference : option TurnContextItem) (cut : nat)
    (r : option (option TurnContextItem * nat)) : Prop :=
  exists reference' cut' ctx,
    r = Some (reference', cut') /\
    take cut snapshot = take cut' snapshot ++ ctx /\ cut' <= cut /\ (first <= cut -> first <= cut') /\
    Forall (fun i => contextual i = true) ctx /\
    reference' = (if existsb mixed ctx then None else reference) /\
    (cut' <= first \/ forall i, last (take cut' snapshot) = Some i -> contextual i = false).

Lemma trimmed_stop snapshot first reference cut :
  cut <= first \/ (forall i, last (take cut snapshot) = Some i -> contextual i = false) ->
  trimmed snapshot first reference cut (Some (reference, cut)).
Proof. intros H. exists reference, cut, []. rewrite app_nil_r. by split_and!. Qed.

Lemma trimmed_step snapshot first reference cut i r :
  snapshot !! cut = Some i -> first <= cut -> contextual i = true ->
  trimmed snapshot first (if mixed i then None else reference) cut r ->
  trimmed snapshot first reference (S cut) r.
Proof.
  intros Hi Hf Hc (reference' & cut' & ctx & -> & Ht & Hle & Hfirst & Hctx & -> & Hstop).
  exists (if existsb mixed ctx then None else if mixed i then None else reference), cut', (ctx ++ [i]).
  rewrite (take_S_r _ _ _ Hi), Ht, <- app_assoc. split_and!; [done|done|lia|auto| |..|done].
  - apply Forall_app. by repeat constructor.
  - rewrite existsb_app. simpl. rewrite orb_false_r. by destruct (existsb mixed ctx), (mixed i).
Qed.

Lemma trim_spec snapshot first reference cut :
  cut <= length snapshot ->
  trimmed snapshot first reference cut
    (trim_pre_turn_context_updates hook_prompt_xml snapshot first reference cut).
Proof.
  revert reference. induction cut as [|cut IH]; intros reference Hle; cbn [trim_pre_turn_context_updates].
  { apply trimmed_stop. left. lia. }
  destruct (Nat.ltb_spec first (S cut)) as [Hf|Hf]; [|by apply trimmed_stop; auto].
  destruct (lookup_lt_is_Some_2 snapshot cut) as [i Hi]; [lia|]. rewrite Hi. simpl.
  assert (Hstop : contextual i = false -> trimmed snapshot first reference (S cut) (Some (reference, S cut))).
  { intros Hc. apply trimmed_stop. right. intros j. rewrite (take_S_r _ _ _ Hi), last_snoc. by intros [= <-]. }
  destruct i; try (by apply Hstop). cbn [contextual] in Hstop.
  destruct (bool_decide (role = lit "developer") && _) eqn:Ed.
  - apply (trimmed_step _ _ _ _ _ _ Hi); [lia|by cbn [contextual]; rewrite Ed|]. cbn [mixed]. rewrite Ed.
    apply IH. lia.
  - destruct (bool_decide (role = lit "user") && _) eqn:Eu; [|by apply Hstop].
    apply (trimmed_step _ _ _ _ _ _ Hi); [lia|by cbn [contextual]; rewrite Ed, Eu|]. cbn [mixed]. rewrite Ed.
    apply IH. lia.
Qed.

(** ** Rollback *)

Lemma cut_at_turn l n p :
  n < turns l -> user_message_positions hook_prompt_xml is_inter_agent_json l !! n = Some p ->
  exists i l2, drop p l = i :: l2 /\ boundary i = true /\ turns (take p l) = n /\ p <= length l.
Proof.
  intros Hn (l1 & i & l2 & -> & -> & Hi & Ht)%positions_lookup. exists i, l2. simpl.
  rewrite drop_app_length, take_app_length, length_app. split_and!; [done..|lia].
Qed.

(** The cut found at the [n]-th turn from the end, after trimming. *)
Lemma rollback_cut m n first p :
  user_message_positions hook_prompt_xml is_inter_agent_json (items m) !! 0 = Some first ->
  user_message_positions hook_prompt_xml is_inter_agent_json (items m) !! (turns (items m) - n) = Some p ->
  0 < turns (items m) -> n <> 0 ->
  exists reference' cut' ctx,
    trim_pre_turn_context_updates hook_prompt_xml (items m) first (reference_context_item m) p
      = Some (reference', cut') /\
    items m = take cut' (items m) ++ ctx ++ drop p (items m) /\
    turns (drop p (items m)) = Nat.min n (turns (items m)) /\
    turns (take cut' (items m)) = turns (items m) - n /\
    (exists i rest, drop p (items m) = i :: rest /\ boundary i = true) /\
    Forall (fun i => contextual i = true) ctx /\
    (turns (take cut' (items m)) = 0 -> ctx = []) /\
    (ctx <> [] -> forall i, last (take cut' (items m)) = Some i -> contextual i = false) /\
    reference' = (if existsb mixed ctx then None else reference_context_item m).
Proof.
  set (l := items m). intros Hfirst Hp Ht Hn.
  destruct (cut_at_turn l (turns l - n) p ltac:(lia) Hp) as (i & l2 & Hd & Hi & Hturn & Hpl).
  destruct (trim_spec l first (reference_context_item m) p Hpl)
    as (reference' & cut' & ctx & E & Htake & Hle & Hge & Hctx & Href & Hstop).
  assert (Hc : turns (take cut' l) = turns l - n).
  { rewrite <- Hturn, Htake, turns_app, (contextual_no_turns ctx) by done. lia. }
  assert (H0 : turns (take cut' l) = 0 -> ctx = []).
  { intros H0. assert (p = first) as -> by (rewrite Hc in H0; rewrite H0 in Hp; congruence).
    assert (cut' = first) as -> by (specialize (Hge ltac:(lia)); lia).
    rewrite <- (app_nil_r (take first l)) in Htake at 1. by apply app_inv_head in Htake. }
  assert (Hfp : first <= p).
  { destruct (cut_at_turn l _ _ Ht Hfirst) as (_ & _ & _ & _ & Hf0 & _).
    destruct (decide (first <= p)) as [|Hlt]; [done|].
    assert (Hsplit : take first l = take p l ++ i :: take (first - p - 1) l2).
    { rewrite <- (take_drop p l) at 1. rewrite take_app, Hd, length_take_le by done.
      rewrite take_take. replace (Nat.min first p) with p by lia.
      destruct (first - p) as [|k] eqn:Ek; [lia|]. simpl. by rewrite Nat.sub_0_r. }
    rewrite Hsplit, turns_app, turns_cons, Hi in Hf0. lia. }
  exists reference', cut', ctx. split_and!; [done| | |done|eauto|done|done| |done].
  - by rewrite app_assoc, <- Htake, take_drop.
  - pose proof (turns_app (take p l) (drop p l)) as H. rewrite take_drop in H. lia.
  - intros Hne. destruct Hstop as [Hs|Hs]; [|done]. destruct Hne. apply H0.
    destruct (cut_at_turn l _ _ Ht Hfirst) as (_ & _ & _ & _ & Hf0 & _).
    assert (cut' = first) as -> by (specialize (Hge Hfp); lia). done.
Qed.

(** C35: rolling back turns always succeeds and splits the history into what is
    kept, the injected context right before the cut and the dropped turns.  The
    dropped part starts with a turn and holds exactly the requested number of
    turns, or all; what precedes the first turn is kept; the baseline for
    settings is cleared exactly when a trimmed message carried persistent text;
    the version is bumped unless nothing was asked for. *)
Theorem rollback_drops_turns m n :
  exists m' ctx dropped,
    drop_last_n_user_turns hook_prompt_xml is_inter_agent_json m n = Some m' /\
    items m = items m' ++ ctx ++ dropped /\
    turns dropped = Nat.min n (turns (items m)) /\ turns (items m') = turns (items m) - n /\
    (dropped = [] \/ exists i rest, dropped = i :: rest /\ boundary i = true) /\
    Forall (fun i => contextual i = true) ctx /\
    (turns (items m') = 0 -> ctx = []) /\
    (ctx <> [] -> forall i, last (items m') = Some i -> contextual i = false) /\
    reference_context_item m' = (if existsb mixed ctx then None else reference_context_item m) /\
    history_version m' = (if n =? 0 then history_version m else sat_add (history_version m) 1) /\
    world_state_baseline m' = (if n =? 0 then world_state_baseline m else None).
Proof.
  unfold drop_last_n_user_turns. destruct (Nat.eqb_spec n 0) as [->|Hn].
  { exists m, [], []. rewrite !app_nil_r. split_and!; first [done | lia | by left | constructor]. }
  pose proof (positions_length 0 (items m)) as Hlen. fold (user_message_positions hook_prompt_xml is_inter_agent_json (items m)) in Hlen.
  destruct (user_message_positions _ _ (items m)) as [|first ps] eqn:Eps.
  { simpl in Hlen. exists (replace m (items m)), [], []. simpl. rewrite app_nil_r, <- Hlen.
    split_and!; first [done | by rewrite Nat.min_0_r | by left | constructor]. }
  assert (Ht : 0 < turns (items m)) by (rewrite <- Hlen; simpl; lia).
  assert (Ecut : exists p, (if length (first :: ps) <=? n then Some first
      else (first :: ps) !! (length (first :: ps) - n)) = Some p /\ (first :: ps) !! (turns (items m) - n) = Some p).
  { rewrite Hlen. destruct (Nat.leb_spec (turns (items m)) n) as [Hle|Hlt].
    - exists first. by replace (turns (items m) - n) with 0 by lia.
    - destruct (lookup_lt_is_Some_2 (first :: ps) (turns (items m) - n)) as [p Hp]; [rewrite Hlen; lia|]. eauto. }
  destruct Ecut as (p & -> & Hp). simpl.
  destruct (rollback_cut m n first p) as (reference' & cut' & ctx & -> & H); [by rewrite Eps|by rewrite Eps|lia|done|].
  simpl. exists (replace (set_reference_context_item m reference') (take cut' (items m))), ctx, (drop p (items m)).
  simpl. destruct H as (H1 & H2 & H3 & H4 & H5 & H6 & H7 & H8). split_and!; auto.
Qed.

(** ** Injected context *)

(** Context that the agent injects is never taken for a turn of the user: a
    rendered fragment of a registered kind, as the message it is recorded as, is
    recognised as context whatever text it carries, and is no turn boundary. *)
Theorem injected_context_no_turn {T} `{ContextualUserFragment T} {valid} `{!Recognised T valid} (f : T) item :
  List.In (matches_text T) CONTEXTUAL_USER_FRAGMENTS -> frag_role f = lit "user" -> valid f ->
  into_response_item f = Some item -> contextual item = true /\ boundary item = false.
Proof.
  intros Hin Hrole Hv. unfold into_response_item. destruct (render_fragment f) as [text|] eqn:E; [|done].
  intros [= <-]. assert (Hc : contextual (Message None (frag_role f) [Msg.InputText text] None None) = true).
  { cbn [contextual]. rewrite Hrole. unfold is_contextual_user_message_content. cbn [existsb].
    rewrite (recognised_contextual hook_prompt_xml f text Hin Hv E). done. }
  split; [done|]. by apply contextual_not_turn.
Qed.

(** ** Eviction *)

(** Dropping the oldest item of a history whose calls and outputs are
    paired under distinct ids, together with its counterpart, leaves a history
    with the same property and no new item, and shrinks it. *)
Theorem eviction_keeps_pairs m :
  paired (items m) -> distinct_ids (items m) ->
  exists m', remove_first_item m = Some m' /\ paired (items m') /\ distinct_ids (items m') /\
    (forall i, i ∈ items m' -> i ∈ items m) /\
    (items m <> [] -> length (items m') < length (items m) /\ world_state_baseline m' = None) /\
    length (items m) <= length (items m') + 2.
Proof.
  intros Hp Hd. unfold remove_first_item. destruct (items m) as [|i l] eqn:E.
  { exists m. rewrite E. split_and!; [done..|lia]. }
  destruct (remove_pair i l Hp Hd) as (r & -> & Hpr & Hdr & Hsub & Hlen). simpl.
  eexists. split; [done|]. simpl. split_and!; [done..|set_solver|intros _; split; [lia|done]|lia].
Qed.

(** ** Recording *)

(** Texts a Rust string can hold. *)
Definition payload_fits (p : FunctionCallOutputPayload) : Prop :=
  match body p with Text t => Truncate.allocatable t | ContentItems l => Truncate.good_items l end.
Definition recordable (i : ResponseItem) : Prop :=
  match i with FunctionCallOutput _ _ p _ | CustomToolCallOutput _ _ _ p _ => payload_fits p | _ => True end.

(** The recorded payload: texts may be shortened, the rest is kept. *)
Definition kept_payload (p q : FunctionCallOutputPayload) : Prop :=
  success q = success p /\
  match body p, body q with
  | Text _, Text _ => True
  | ContentItems l, ContentItems l' => Truncate.non_text l' = Truncate.non_text l
  | _, _ => False
  end.

Definition kept (i j : ResponseItem) : Prop :=
  match i, j with
  | FunctionCallOutput id c p meta, FunctionCallOutput id' c' p' meta' =>
      id' = id /\ c' = c /\ kept_payload p p' /\ meta' = meta
  | CustomToolCallOutput id c name p meta, CustomToolCallOutput id' c' name' p' meta' =>
      id' = id /\ c' = c /\ name' = name /\ kept_payload p p' /\ meta' = meta
  | FunctionCallOutput _ _ _ _, _ | CustomToolCallOutput _ _ _ _ _, _ => False
  | _, _ => j = i
  end.

Lemma ceil_as_usize_range f : usize (ceil_as_usize f).
Proof.
  unfold usize. destruct f as [|[]| |[] m e]; cbn [ceil_as_usize]; try done.
  split; [|apply Z.le_min_l]. apply Z.min_glb; [done|]. destruct (Z.leb_spec 0 e).
  - assert (0 <= 2 ^ e)%Z by (apply Z.pow_nonneg; lia). nia.
  - assert (0 < 2 ^ (- e))%Z by (apply Z.pow_pos_nonneg; lia). apply Z.div_pos; lia.
Qed.

Lemma policy_mul_valid p f : Truncate.valid_policy (policy_mul p f).
Proof. destruct p; apply ceil_as_usize_range. Qed.

Lemma truncate_payload_kept p policy :
  payload_fits p -> Truncate.valid_policy policy ->
  exists q, truncate_function_output_payload p policy = Some q /\ kept_payload p q.
Proof.
  destruct p as [[t|l] ok]; unfold payload_fits, truncate_function_output_payload; simpl; intros Hf Hv.
  - destruct (Truncate.truncate_text_total t policy Hf Hv) as [u ->]. simpl. eexists. by split.
  - destruct (Truncate.items_keep_non_text l policy Hf Hv) as (out & -> & Ho). simpl. eexists. by split.
Qed.

Lemma process_item_kept i policy :
  recordable i -> exists j, process_item i policy = Some j /\ kept i j.
Proof.
  intros Hr. destruct i; try (eexists; split; [done|]; done).
  - destruct (truncate_payload_kept output (policy_mul policy F64_1_2) Hr (policy_mul_valid _ _)) as (q & Hq & Hk).
    cbn [process_item]. rewrite Hq. simpl. eexists. by split.
  - destruct (truncate_payload_kept output (policy_mul policy F64_1_2) Hr (policy_mul_valid _ _)) as (q & Hq & Hk).
    cbn [process_item]. rewrite Hq. simpl. eexists. by split.
Qed.

Lemma kept_keys i j : kept i j -> call_key j = call_key i /\ output_key j = output_key i.
Proof. destruct i, j; cbn [kept]; intros H; try done; first [by inversion H; subst | destruct_and!; by subst]. Qed.

Lemma kept_calls l r : Forall2 kept l r -> calls r = calls l /\ outputs r = outputs l.
Proof.
  induction 1 as [|i j l r Hk _ [IHc IHo]]; [done|]. apply kept_keys in Hk as [Hc Ho].
  rewrite !calls_cons, !outputs_cons. by rewrite Hc, Ho, IHc, IHo.
Qed.

(** Recording never panics for texts a string can hold, whatever the
    truncation policy: exactly the API messages are appended, in order, each
    unchanged but for shortened texts of tool outputs, so that the calls and
    outputs recorded are those received. *)
Theorem record_keeps_items m new_items policy :
  Forall recordable new_items ->
  exists recorded, record_items m new_items policy = Some (set_items m (items m ++ recorded)) /\
    Forall2 kept (List.filter is_api_message new_items) recorded /\
    calls recorded = calls (List.filter is_api_message new_items) /\
    outputs recorded = outputs (List.filter is_api_message new_items).
Proof.
  intros Hr. enough (exists recorded, record_items m new_items policy = Some (set_items m (items m ++ recorded)) /\
    Forall2 kept (List.filter is_api_message new_items) recorded) as (r & E & Hk)
    by (exists r; destruct (kept_calls _ _ Hk); by split_and!).
  revert m. induction Hr as [|i l Hi _ IH]; intros m; cbn [record_items List.filter].
  { exists []. rewrite app_nil_r. split; [by destruct m|constructor]. }
  destruct (is_api_message i); simpl; [|apply IH].
  destruct (process_item_kept i policy Hi) as (j & -> & Hk). simpl.
  destruct (IH (set_items m (items m ++ [j]))) as (r & -> & Hrest). exists (j :: r).
  split; [simpl; by rewrite <- app_assoc|by constructor].
Qed.
End Rollback.

(** ** Examples *)

Definition sample_history : list (ResponseItem unit) :=
  [ FunctionCall (Some (lit "a")) (lit "shell") None (lit "{}") (lit "c1") None;
    CustomToolCall None None (lit "c1") (lit "apply_patch") None (lit "x") None;
    Message None (lit "user") [Msg.InputText (lit "hi")] None None;
    FunctionCallOutput None (lit "c1") (from_text (lit "done")) None;
    CustomToolCallOutput None (lit "c1") None (mkPayload (ContentItems [Truncate.InputImage (lit "u") None]) None) None ].

Definition sample_manager : @ContextManager unit unit unit := mkManager sample_history 0%Z None None (Some tt).

Lemma injected_context_no_turn_witness :
  let f := mkAdditionalUser (lit "editor") (lit "line 3") in
  exists item : ResponseItem unit, into_response_item f = Some item /\
    is_user_turn_boundary (fun _ => None) (fun _ => true) item = false.
Proof.
  intros f.
  destruct (into_response_item (Json:=unit) f) as [item|] eqn:E; [|vm_compute in E; discriminate E].
  exists item. split; [reflexivity|].
  refine (proj2 (injected_context_no_turn (fun _ => None) (fun _ => true) f item _ _ _ E)).
  - right. right. left. reflexivity.
  - reflexivity.
  - repeat constructor; discriminate.
Defined.

Lemma eviction_keeps_pairs_witness :
  paired (items sample_manager) /\ distinct_ids (items sample_manager) /\
  exists m', remove_first_item sample_manager = Some m' /\ paired (items m') /\ length (items m') = 3.
Proof.
  assert (Hp : paired (items sample_manager)).
  { split.
    - intros k Hk. assert (Hin : Forall (fun k => bool_decide (k ∈ outputs sample_history) = true) (calls sample_history))
        by (vm_compute; repeat constructor).
      rewrite Forall_forall in Hin. exact (bool_decide_eq_true_1 _ (Hin k Hk)).
    - intros i k Hi Hk.
      assert (Hin : Forall (fun i => keeps (calls sample_history) i = true) sample_history)
        by (vm_compute; repeat constructor).
      rewrite Forall_forall in Hin. specialize (Hin i Hi). unfold keeps in Hin. rewrite Hk in Hin.
      by apply bool_decide_eq_true_1 in Hin. }
  assert (Hd : distinct_ids (items sample_manager)).
  { split; [apply (bool_decide_eq_true_1 (NoDup (calls sample_history)))
            |apply (bool_decide_eq_true_1 (NoDup (outputs sample_history)))]; vm_compute; reflexivity. }
  split; [exact Hp|]. split; [exact Hd|].
  destruct (eviction_keeps_pairs sample_manager Hp Hd) as (m' & E & Hp' & _).
  exists m'. split; [exact E|]. split; [exact Hp'|]. vm_compute in E. by injection E as <-.
Defined.

Lemma record_keeps_items_witness :
  Forall recordable sample_history /\
  exists recorded, record_items sample_manager sample_history (Truncate.Bytes 2)
    = Some (set_items sample_manager (items sample_manager ++ recorded)) /\ outputs recorded = outputs sample_history.
Proof.
  assert (Hr : Forall recordable sample_history).
  { repeat constructor; try done; intros ? [=]. }
  split; [exact Hr|].
  destruct (record_keeps_items sample_manager sample_history (Truncate.Bytes 2) Hr) as (r & E & _ & _ & Ho).
  exists r. split; [exact E|exact Ho].
Defined.
End HistoryFacts.
