(* ===== verification/ShellTree.v ===== *)
(** Reading shell scripts (shell-command/src/bash.rs): the commands of a
    [bash -lc] invocation, when the script is made of plain commands only; and
    which shell a path names (shell-command/src/shell_detect.rs).  The syntax
    tree is the one the grammar library returns for the script; the walk over it
    is the code modelled here. *)

From stdpp Require Import base list option numbers strings.
From S2P Require Import Prelude RustStr.

Module Shell.

(** ** [std::path::Path] on Unix *)

Inductive Component := RootDir | CurDir | ParentDir | Normal (name : str).

#[export] Instance component_eq_dec : EqDecision Component.
Proof. solve_decision. Defined.

Definition SLASH : char := 47.
Definition DOT : char := 46.

(** [Path::components]: empty parts and inner [.] parts are skipped. *)
Definition components (path : str) : list Component :=
  let parts := split_on SLASH path in
  let has_root := match path with c :: _ => (c =? SLASH)%N | [] => false end in
  let leading := if has_root then [RootDir]
                 else match parts with p :: _ => if p == [DOT] then [CurDir] else [] | [] => [] end in
  leading ++ omap (fun p => if is_empty p || (p == [DOT]) then None
                            else if p == [DOT; DOT] then Some ParentDir else Some (Normal p)) parts.

Definition file_name (path : str) : option str :=
  match last (components path) with Some (Normal name) => Some name | _ => None end.

(** The text before the last dot of a file name, unless that is its first char. *)
Definition stem_of (name : str) : str :=
  match split_once [DOT] (reverse name) with
  | Some (_, []) => name
  | Some (_, before) => reverse before
  | None => name
  end.

Definition file_stem (path : str) : option str := option_map stem_of (file_name path).

(** ** shell_detect.rs *)

Inductive ShellType := Zsh | Bash | PowerShell | Sh | Cmd.

(** The calls of the recursion shrink the path ([detect_shell_type_total]);
    [None] means the fuel ran out. *)
Fixpoint detect_fuel (fuel : nat) (shell_path : str) : option (option ShellType) :=
  match fuel with
  | 0 => None
  | S fuel =>
      if shell_path == lit "zsh" then Some (Some Zsh)
      else if shell_path == lit "sh" then Some (Some Sh)
      else if shell_path == lit "cmd" then Some (Some Cmd)
      else if shell_path == lit "bash" then Some (Some Bash)
      else if shell_path == lit "pwsh" then Some (Some PowerShell)
      else if shell_path == lit "powershell" then Some (Some PowerShell)
      else
        match file_stem shell_path with
        | Some shell_name =>
            if bool_decide (components shell_name <> components shell_path) then detect_fuel fuel shell_name
            else Some None
        | None => Some None
        end
  end.

Definition detect_shell_type (shell_path : str) : option ShellType :=
  default None (detect_fuel (S (length shell_path)) shell_path).

(** ** Syntax trees *)

(** A node: its kind, whether it is named, where it starts, its source text
    (if it is UTF-8) and its children. *)
Inductive Node := mkNode (kind : str) (named : bool) (start_byte : nat) (text : option str) (children : list Node).

Definition kind (n : Node) : str := let 'mkNode k _ _ _ _ := n in k.
Definition is_named (n : Node) : bool := let 'mkNode _ b _ _ _ := n in b.
Definition start_byte (n : Node) : nat := let 'mkNode _ _ s _ _ := n in s.
Definition utf8_text (n : Node) : option str := let 'mkNode _ _ _ t _ := n in t.
Definition children (n : Node) : list Node := let 'mkNode _ _ _ _ c := n in c.
Definition named_children (n : Node) : list Node := List.filter is_named (children n).

Record Tree := mkTree { root_node : Node; has_error : bool }.

Fixpoint size (n : Node) : nat := let 'mkNode _ _ _ _ c := n in S (list_sum (List.map size c)).

(** ** Words *)

Definition DQUOTE : char := 34.
Definition SQUOTE : char := 39.

Definition parse_double_quoted_string (node : Node) : option str :=
  if negb (kind node == lit "string") then None
  else if existsb (fun part => negb (kind part == lit "string_content")) (named_children node) then None
  else
    raw ← utf8_text node;
    text ← strip_prefix [DQUOTE] raw;
    strip_suffix [DQUOTE] text.

Definition parse_raw_string (node : Node) : option str :=
  if negb (kind node == lit "raw_string") then None
  else
    raw_string ← utf8_text node;
    s ← strip_prefix [SQUOTE] raw_string;
    strip_suffix [SQUOTE] s.

Definition is_word_or_number (node : Node) : bool := (kind node == lit "word") || (kind node == lit "number").

(** The parts of a concatenated argument. *)
Fixpoint concat_parts (concatenated : str) (parts : list Node) : option str :=
  match parts with
  | [] => Some concatenated
  | part :: rest =>
      text ← (if is_word_or_number part then utf8_text part
              else if kind part == lit "string" then parse_double_quoted_string part
              else if kind part == lit "raw_string" then parse_raw_string part
              else None);
      concat_parts (concatenated ++ text) rest
  end.

(** One child of a command node. *)
Definition plain_word (child : Node) : option str :=
  if kind child == lit "command_name" then
    word_node ← named_children child !! 0;
    if negb (kind word_node == lit "word") then None else utf8_text word_node
  else if is_word_or_number child then utf8_text child
  else if kind child == lit "string" then parse_double_quoted_string child
  else if kind child == lit "raw_string" then parse_raw_string child
  else if kind child == lit "concatenation" then
    concatenated ← concat_parts [] (named_children child);
    if is_empty concatenated then None else Some concatenated
  else None.

Definition parse_plain_command_from_node (cmd : Node) : option (list str) :=
  if negb (kind cmd == lit "command") then None else mapM plain_word (named_children cmd).

(** ** Scripts of plain commands *)

Definition ALLOWED_KINDS : list str :=
  [ lit "program"; lit "list"; lit "pipeline"; lit "command"; lit "command_name"; lit "word"; lit "string";
    lit "string_content"; lit "raw_string"; lit "number"; lit "concatenation" ].

Definition ALLOWED_PUNCT_TOKENS : list str :=
  [ lit "&&"; lit "||"; lit ";"; lit "|"; [DQUOTE]; [SQUOTE] ].

(** Whether the walk goes past a node. *)
Definition node_allowed (node : Node) : bool :=
  if is_named node then bool_decide (kind node ∈ ALLOWED_KINDS)
  else if existsb (fun c => contains_char c (lit "&;|")) (kind node)
          && negb (bool_decide (kind node ∈ ALLOWED_PUNCT_TOKENS)) then false
  else bool_decide (kind node ∈ ALLOWED_PUNCT_TOKENS) || is_empty (trim (kind node)).

Definition is_command_node (node : Node) : bool := is_named node && (kind node == lit "command").

(** The loop over the stack, its top first; the outer [None] means the fuel ran
    out, the inner one that the script was rejected. *)
Fixpoint walk (fuel : nat) (stack command_nodes : list Node) : option (option (list Node)) :=
  match stack with
  | [] => Some (Some command_nodes)
  | node :: rest =>
      match fuel with
      | 0 => None
      | S fuel =>
          if node_allowed node then
            walk fuel (reverse (children node) ++ rest)
              (if is_command_node node then command_nodes ++ [node] else command_nodes)
          else Some None
      end
  end.

(** [sort_by_key(Node::start_byte)], which is stable. *)
Fixpoint insert_by_start (n : Node) (l : list Node) : list Node :=
  match l with
  | [] => [n]
  | x :: l' => if start_byte n <=? start_byte x then n :: l else x :: insert_by_start n l'
  end.

Definition sort_by_start_byte (l : list Node) : list Node := foldr insert_by_start [] l.

Definition try_parse_word_only_commands_sequence (tree : Tree) : option (list (list str)) :=
  if has_error tree then None
  else
    command_nodes ← default None (walk (size (root_node tree)) [root_node tree] []);
    mapM parse_plain_command_from_node (sort_by_start_byte command_nodes).

(** ** Commands *)

Definition extract_bash_command (command : list str) : option (str * str) :=
  match command with
  | [shell; flag; script] =>
      if negb ((flag == lit "-lc") || (flag == lit "-c"))
         || negb (match detect_shell_type shell with Some Zsh | Some Bash | Some Sh => true | _ => false end)
      then None else Some (shell, script)
  | _ => None
  end.

(** ** Here documents *)

Definition is_literal_word_or_number (node : Node) : bool :=
  is_word_or_number node && is_empty (named_children node).

Definition is_allowed_heredoc_attachment_kind (k : str) : bool :=
  (k == lit "heredoc_body") || (k == lit "simple_heredoc_body") || (k == lit "heredoc_redirect")
  || (k == lit "herestring_redirect") || (k == lit "redirected_statement").

(** The loop of [find_single_command_node]. *)
Fixpoint find_single_loop (fuel : nat) (stack : list Node) (single_command : option Node) : option (option Node) :=
  match stack with
  | [] => Some single_command
  | node :: rest =>
      match fuel with
      | 0 => None
      | S fuel =>
          let next := reverse (named_children node) ++ rest in
          if kind node == lit "command" then
            match single_command with Some _ => Some None | None => find_single_loop fuel next (Some node) end
          else find_single_loop fuel next single_command
      end
  end.

Definition find_single_command_node (root : Node) : option Node :=
  default None (find_single_loop (size root) [root] None).

(** The loop of [has_named_descendant_kind]. *)
Fixpoint has_kind_loop (fuel : nat) (stack : list Node) (k : str) : option bool :=
  match stack with
  | [] => Some false
  | current :: rest =>
      match fuel with
      | 0 => None
      | S fuel => if kind current == k then Some true else has_kind_loop fuel (reverse (named_children current) ++ rest) k
      end
  end.

Definition has_named_descendant_kind (node : Node) (k : str) : bool :=
  default false (has_kind_loop (size node) [node] k).

(** The children of the command, in the loop of [parse_heredoc_command_words]. *)
Fixpoint heredoc_words (words : list str) (l : list Node) : option (list str) :=
  match l with
  | [] => Some words
  | child :: rest =>
      if kind child == lit "command_name" then
        word_node ← named_children child !! 0;
        if negb (is_word_or_number word_node) || negb (is_literal_word_or_number word_node) then None
        else text ← utf8_text word_node; heredoc_words (words ++ [text]) rest
      else if is_word_or_number child then
        if negb (is_literal_word_or_number child) then None
        else text ← utf8_text child; heredoc_words (words ++ [text]) rest
      else if kind child == lit "comment" then heredoc_words words rest
      else if is_allowed_heredoc_attachment_kind (kind child) then heredoc_words words rest
      else None
  end.

Definition parse_heredoc_command_words (cmd : Node) : option (list str) :=
  if negb (kind cmd == lit "command") then None
  else
    words ← heredoc_words [] (named_children cmd);
    if is_empty words then None else Some words.

Section Commands.
(** The grammar: the syntax tree of a script. *)
Context (try_parse_shell : str -> option Tree).

Definition parse_shell_script_into_commands (script : str) : option (list (list str)) :=
  tree ← try_parse_shell script;
  try_parse_word_only_commands_sequence tree.

Definition parse_shell_lc_plain_commands (command : list str) : option (list (list str)) :=
  '(_, script) ← extract_bash_command command;
  parse_shell_script_into_commands script.

Definition parse_shell_lc_single_command_prefix (command : list str) : option (list str) :=
  '(_, script) ← extract_bash_command command;
  tree ← try_parse_shell script;
  let root := root_node tree in
  if has_error tree then None
  else if negb (has_named_descendant_kind root (lit "heredoc_redirect")) then None
  else if has_named_descendant_kind root (lit "file_redirect") then None
  else
    command_node ← find_single_command_node root;
    parse_heredoc_command_words command_node.
End Commands.
End Shell.
