(* ===== verification/CommandSafety.v ===== *)
(** Which commands run without asking
    (shell-command/src/command_safety/is_safe_command.rs) and which are flagged
    (is_dangerous_command.rs), on a platform other than Windows. *)

From stdpp Require Import base list option numbers strings.
From S2P Require Import Prelude RustStr ShellTree.

Module CommandSafety.
Import Shell.

(** ** is_dangerous_command.rs *)

Definition executable_name_lookup_key (raw : str) : option str := file_name raw.

Definition is_git_global_option_with_value (arg : str) : bool :=
  bool_decide (arg ∈ [ lit "-C"; lit "-c"; lit "--config-env"; lit "--exec-path"; lit "--git-dir";
                       lit "--namespace"; lit "--super-prefix"; lit "--work-tree" ]).

Definition is_git_global_option_with_inline_value (arg : str) : bool :=
  existsb (fun p => starts_with p arg)
    [ lit "--config-env="; lit "--exec-path="; lit "--git-dir="; lit "--namespace="; lit "--super-prefix=";
      lit "--work-tree=" ]
  || (starts_with (lit "-C") arg || starts_with (lit "-c") arg) && (2 <? str_len arg).

(** The loop over the words from index [idx]. *)
Fixpoint find_git_loop (subcommands : list str) (idx : nat) (skip_next : bool) (args : list str)
  : option (nat * str) :=
  match args with
  | [] => None
  | arg :: rest =>
      if skip_next then find_git_loop subcommands (S idx) false rest
      else if is_git_global_option_with_inline_value arg then find_git_loop subcommands (S idx) false rest
      else if is_git_global_option_with_value arg then find_git_loop subcommands (S idx) true rest
      else if (arg == lit "--") || starts_with (lit "-") arg then find_git_loop subcommands (S idx) false rest
      else if bool_decide (arg ∈ subcommands) then Some (idx, arg)
      else None
  end.

Definition find_git_subcommand (command subcommands : list str) : option (nat * str) :=
  match command with
  | [] => None
  | cmd0 :: args =>
      if negb (executable_name_lookup_key cmd0 == Some (lit "git")) then None
      else find_git_loop subcommands 1 false args
  end.

Fixpoint is_dangerous_to_call_with_exec (command : list str) : bool :=
  match command with
  | [] => false
  | cmd0 :: rest =>
      if cmd0 == lit "rm" then
        match rest with arg :: _ => (arg == lit "-f") || (arg == lit "-rf") | [] => false end
      else if cmd0 == lit "sudo" then is_dangerous_to_call_with_exec rest
      else false
  end.

(** ** is_safe_command.rs *)

Inductive GitOptionPattern := Exact (option : str) | ShortWithInlineValue (option : str) | Prefix (prefix : str).

Definition UNSAFE_GIT_GLOBAL_OPTIONS : list GitOptionPattern :=
  [ Exact (lit "-C"); ShortWithInlineValue (lit "-C"); Exact (lit "-c"); ShortWithInlineValue (lit "-c");
    Exact (lit "-p"); Exact (lit "--config-env"); Prefix (lit "--config-env="); Exact (lit "--exec-path");
    Prefix (lit "--exec-path="); Exact (lit "--git-dir"); Prefix (lit "--git-dir="); Exact (lit "--namespace");
    Prefix (lit "--namespace="); Exact (lit "--paginate"); Exact (lit "--super-prefix");
    Prefix (lit "--super-prefix="); Exact (lit "--work-tree"); Prefix (lit "--work-tree=") ].

Definition UNSAFE_GIT_SUBCOMMAND_OPTIONS : list GitOptionPattern :=
  [ Exact (lit "--output"); Prefix (lit "--output="); Exact (lit "--ext-diff"); Exact (lit "--textconv");
    Exact (lit "--exec"); Prefix (lit "--exec=") ].

Definition pattern_matches (p : GitOptionPattern) (arg : str) : bool :=
  match p with
  | Exact option => arg == option
  | ShortWithInlineValue option => starts_with option arg && (str_len option <? str_len arg)
  | Prefix prefix => starts_with prefix arg
  end.

Definition git_matches_option_pattern (arg : str) (patterns : list GitOptionPattern) : bool :=
  existsb (fun pattern => pattern_matches pattern arg) patterns.

Definition git_has_unsafe_global_option (global_args : list str) : bool :=
  existsb (fun arg => git_matches_option_pattern arg UNSAFE_GIT_GLOBAL_OPTIONS) global_args.

Definition git_subcommand_args_are_read_only (args : list str) : bool :=
  negb (existsb (fun arg => git_matches_option_pattern arg UNSAFE_GIT_SUBCOMMAND_OPTIONS) args).

Definition branch_read_only_flag (arg : str) : bool :=
  bool_decide (arg ∈ [ lit "--list"; lit "-l"; lit "--show-current"; lit "-a"; lit "--all"; lit "-r";
                       lit "--remotes"; lit "-v"; lit "-vv"; lit "--verbose" ])
  || starts_with (lit "--format=") arg.

(** The loop of [git_branch_is_read_only]. *)
Fixpoint branch_loop (saw_read_only_flag : bool) (args : list str) : bool :=
  match args with
  | [] => saw_read_only_flag
  | arg :: rest => if branch_read_only_flag arg then branch_loop true rest else false
  end.

Definition git_branch_is_read_only (branch_args : list str) : bool :=
  if is_empty branch_args then true else branch_loop false branch_args.

Definition GIT_READ_ONLY : list str := [ lit "status"; lit "log"; lit "diff"; lit "show"; lit "branch" ].

Definition is_safe_git_command (command : list str) : bool :=
  match find_git_subcommand command GIT_READ_ONLY with
  | None => false
  | Some (subcommand_idx, subcommand) =>
      let global_args := take (subcommand_idx - 1) (drop 1 command) in
      if git_has_unsafe_global_option global_args then false
      else
        let subcommand_args := drop (S subcommand_idx) command in
        if bool_decide (subcommand ∈ [ lit "status"; lit "log"; lit "diff"; lit "show" ]) then
          git_subcommand_args_are_read_only subcommand_args
        else if subcommand == lit "branch" then
          git_subcommand_args_are_read_only subcommand_args && git_branch_is_read_only subcommand_args
        else false
  end.

Definition all_digits (s : str) : bool := negb (is_empty s) && forallb is_ascii_digit s.

Definition is_valid_sed_n_arg (arg : option str) : bool :=
  match arg with
  | None => false
  | Some s =>
      match strip_suffix (lit "p") s with
      | None => false
      | Some core =>
          match split_on 44 core with
          | [num] => all_digits num
          | [a; b] => all_digits a && all_digits b
          | _ => false
          end
      end
  end.

Definition SAFE_PROGRAMS : list str :=
  [ lit "cat"; lit "cd"; lit "cut"; lit "echo"; lit "expr"; lit "false"; lit "grep"; lit "head"; lit "id";
    lit "ls"; lit "nl"; lit "paste"; lit "pwd"; lit "rev"; lit "seq"; lit "stat"; lit "tail"; lit "tr";
    lit "true"; lit "uname"; lit "uniq"; lit "wc"; lit "which"; lit "whoami" ].

Definition unsafe_base64_option (arg : str) : bool :=
  bool_decide (arg ∈ [ lit "-o"; lit "--output" ]) || starts_with (lit "--output=") arg
  || starts_with (lit "-o") arg && negb (arg == lit "-o").

Definition UNSAFE_FIND_OPTIONS : list str :=
  [ lit "-exec"; lit "-execdir"; lit "-ok"; lit "-okdir"; lit "-delete"; lit "-fls"; lit "-fprint"; lit "-fprint0";
    lit "-fprintf" ].

Definition unsafe_ripgrep_option (arg : str) : bool :=
  bool_decide (arg ∈ [ lit "--search-zip"; lit "-z" ])
  || existsb (fun opt => (arg == opt) || starts_with (opt ++ lit "=") arg) [ lit "--pre"; lit "--hostname-bin" ].

Section Safety.
(** [cfg!(target_os = "linux")] and the grammar of shell scripts. *)
Context (linux : bool) (try_parse_shell : str -> option Tree).

Definition is_safe_to_call_with_exec (command : list str) : bool :=
  match command with
  | [] => false
  | cmd0 :: args =>
      match executable_name_lookup_key cmd0 with
      | None => false
      | Some cmd =>
          if linux && bool_decide (cmd ∈ [ lit "numfmt"; lit "tac" ]) then true
          else if bool_decide (cmd ∈ SAFE_PROGRAMS) then true
          else if cmd == lit "base64" then negb (existsb unsafe_base64_option args)
          else if cmd == lit "find" then negb (existsb (fun arg => bool_decide (arg ∈ UNSAFE_FIND_OPTIONS)) command)
          else if cmd == lit "rg" then negb (existsb unsafe_ripgrep_option command)
          else if cmd == lit "git" then is_safe_git_command command
          else if cmd == lit "sed" then
            (length command <=? 4) && (command !! 1 == Some (lit "-n")) && is_valid_sed_n_arg (command !! 2)
          else false
      end
  end.

Definition zsh_as_bash (command : list str) : list str :=
  List.map (fun s => if s == lit "zsh" then lit "bash" else s) command.

Definition is_known_safe_command (command : list str) : bool :=
  let command := zsh_as_bash command in
  if is_safe_to_call_with_exec command then true
  else
    match parse_shell_lc_plain_commands try_parse_shell command with
    | Some all_commands => negb (is_empty all_commands) && forallb is_safe_to_call_with_exec all_commands
    | None => false
    end.

Definition command_might_be_dangerous (command : list str) : bool :=
  if is_dangerous_to_call_with_exec command then true
  else
    match parse_shell_lc_plain_commands try_parse_shell command with
    | Some all_commands => existsb is_dangerous_to_call_with_exec all_commands
    | None => false
    end.
End Safety.
End CommandSafety.
