(* ===== verification/CommandSafetyFacts.v ===== *)
(** What an automatic approval means: every command of an approved script is on
    the safe list, an approved git call has no way to smuggle an option before
    its subcommand, and nothing approved is also flagged as dangerous. *)

From stdpp Require Import base list option numbers strings sets.
From S2P Require Import Prelude RustStr ShellTree CommandSafety.

Module CommandSafetyFacts.
Import Shell CommandSafety.

(** ** The walk over a syntax tree *)

(** All nodes of a tree, in the order of the walk. *)
Fixpoint nodes (n : Node) : list Node :=
  let 'mkNode _ _ _ _ c := n in n :: mjoin (reverse (List.map nodes c)).

Definition nodes_of (stack : list Node) : list Node := mjoin (List.map nodes stack).

Lemma mjoin_app {A} (l k : list (list A)) : mjoin (l ++ k) = mjoin l ++ mjoin k.
Proof. induction l as [|x l IH]; [done|]. cbn [app]. by rewrite !mjoin_cons, IH, app_assoc. Qed.

Lemma map_reverse {A B} (f : A -> B) l : List.map f (reverse l) = reverse (List.map f l).
Proof. induction l as [|x l IH]; [done|]. rewrite reverse_cons, map_app, IH. simpl. by rewrite reverse_cons. Qed.

Lemma nodes_unfold n : nodes n = n :: nodes_of (reverse (children n)).
Proof. destruct n. unfold nodes_of. simpl. by rewrite map_reverse. Qed.

Lemma nodes_of_app l k : nodes_of (l ++ k) = nodes_of l ++ nodes_of k.
Proof. unfold nodes_of. by rewrite map_app, mjoin_app. Qed.

Lemma size_unfold n : size n = S (list_sum (List.map size (reverse (children n)))).
Proof.
  destruct n as [k b s t c]. cbn [size children]. f_equal. rewrite map_reverse.
  induction (List.map size c) as [|x l IH]; [done|]. rewrite reverse_cons, list_sum_app, <- IH. simpl. lia.
Qed.

Lemma walk_spec fuel stack cmds :
  list_sum (List.map size stack) <= fuel ->
  walk fuel stack cmds =
  Some (if forallb node_allowed (nodes_of stack) then Some (cmds ++ List.filter is_command_node (nodes_of stack))
        else None).
Proof.
  revert stack cmds. induction fuel as [|fuel IH]; intros [|n stack] cmds Hf; cbn [walk].
  - unfold nodes_of. simpl. by rewrite app_nil_r.
  - cbn [List.map list_sum] in Hf. rewrite size_unfold in Hf. simpl in Hf. lia.
  - unfold nodes_of. simpl. by rewrite app_nil_r.
  - change (nodes_of (n :: stack)) with (nodes n ++ nodes_of stack). rewrite nodes_unfold. cbn [app forallb].
    destruct (node_allowed n); [|done]. rewrite IH.
    + rewrite nodes_of_app. cbn [andb List.filter]. destruct (is_command_node n); [|done].
      by rewrite <- app_assoc.
    + cbn [List.map] in Hf. change (list_sum (size n :: List.map size stack)) with (size n + list_sum (List.map size stack)) in Hf.
      rewrite size_unfold in Hf. rewrite map_app, list_sum_app. lia.
Qed.

Lemma insert_node_perm n l : insert_by_start n l ≡ₚ n :: l.
Proof.
  induction l as [|x l IH]; cbn [insert_by_start]; [done|]. destruct (_ <=? _); [done|]. rewrite IH. constructor.
Qed.

Lemma sort_by_start_byte_perm l : sort_by_start_byte l ≡ₚ l.
Proof.
  induction l as [|n l IH]; [done|]. change (sort_by_start_byte (n :: l)) with (insert_by_start n (sort_by_start_byte l)).
  by rewrite insert_node_perm, IH.
Qed.

(** The commands of an accepted tree: no node is disallowed, and each command
    node contributes its words. *)
Lemma word_only_commands tree cmds :
  try_parse_word_only_commands_sequence tree = Some cmds ->
  has_error tree = false /\ Forall (fun n => node_allowed n = true) (nodes (root_node tree)) /\
  (forall n, n ∈ nodes (root_node tree) -> is_command_node n = true ->
     exists words, parse_plain_command_from_node n = Some words /\ words ∈ cmds) /\
  length cmds = length (List.filter is_command_node (nodes (root_node tree))).
Proof.
  unfold try_parse_word_only_commands_sequence. destruct (has_error tree); [done|].
  rewrite walk_spec by (simpl; lia). unfold nodes_of. simpl. rewrite app_nil_r.
  destruct (forallb _ _) eqn:E; [|done]. simpl. intros Hm. split_and!; [done|..].
  - apply Is_true_true, forallb_True in E. eapply Forall_impl; [exact E|]. intros n. apply Is_true_true.
  - apply mapM_Some in Hm. intros n Hn Hc.
    assert (Hs : n ∈ sort_by_start_byte (List.filter is_command_node (nodes (root_node tree)))).
    { rewrite sort_by_start_byte_perm. apply list_elem_of_In, List.filter_In. by rewrite <- list_elem_of_In. }
    apply list_elem_of_lookup in Hs as [i Hi]. destruct (Forall2_lookup_l _ _ _ _ _ Hm Hi) as (w & Hw & E').
    exists w. split; [done|]. by apply list_elem_of_lookup_2 in Hw.
  - apply mapM_Some, Forall2_length in Hm. by rewrite <- Hm, sort_by_start_byte_perm.
Qed.

(** ** The other loops return *)

Lemma size_named n : list_sum (List.map size (reverse (named_children n))) < size n.
Proof.
  rewrite size_unfold, !map_reverse. unfold named_children.
  assert (Hr : forall l, list_sum (reverse l) = list_sum l).
  { intros l. induction l as [|x l IH]; [done|]. rewrite reverse_cons, list_sum_app, IH. simpl. lia. }
  rewrite !Hr. induction (children n) as [|c l IH]; simpl; [lia|]. destruct (is_named c); simpl; lia.
Qed.

Lemma pushed_size n stack fuel :
  list_sum (List.map size (n :: stack)) <= S fuel ->
  list_sum (List.map size (reverse (named_children n) ++ stack)) <= fuel.
Proof. rewrite map_app, list_sum_app. pose proof (size_named n). simpl. lia. Qed.

Lemma find_single_total fuel stack o :
  list_sum (List.map size stack) <= fuel -> is_Some (find_single_loop fuel stack o).
Proof.
  revert stack o. induction fuel as [|fuel IH]; intros [|n stack] o Hf; cbn [find_single_loop]; [eauto| |eauto|].
  - cbn [List.map list_sum] in Hf. rewrite size_unfold in Hf. simpl in Hf. lia.
  - apply pushed_size in Hf. destruct (_ == _); [destruct o; [eauto|]|]; by apply IH.
Qed.

Lemma has_kind_total fuel stack k :
  list_sum (List.map size stack) <= fuel -> is_Some (has_kind_loop fuel stack k).
Proof.
  revert stack. induction fuel as [|fuel IH]; intros [|n stack] Hf; cbn [has_kind_loop]; [eauto| |eauto|].
  - cbn [List.map list_sum] in Hf. rewrite size_unfold in Hf. simpl in Hf. lia.
  - apply pushed_size in Hf. destruct (_ == _); [eauto|]. by apply IH.
Qed.

Lemma split_on_shorter sep s l : l ∈ split_on sep s -> l = s \/ length l < length s.
Proof.
  revert l. induction s as [|c s IH]; intros l; [simpl; set_solver|]. cbn [split_on].
  destruct (split_on sep s) as [|p ps] eqn:E; [by apply split_on_not_nil in E|].
  destruct (c =? sep)%N; rewrite !elem_of_cons.
  - intros [->|H]; [right; simpl; lia|]. destruct (IH l) as [->|]; [set_solver|..]; right; simpl; lia.
  - intros [->|H]; [destruct (IH p) as [->|]; [set_solver|by left|right; simpl; lia]|].
    destruct (IH l) as [->|]; [set_solver|..]; right; simpl; lia.
Qed.

Lemma file_name_part path name : file_name path = Some name -> name ∈ split_on SLASH path.
Proof.
  unfold file_name, components. destruct (last _) as [[| | |n]|] eqn:E; try done. intros [= ->].
  apply last_Some_elem_of in E. apply elem_of_app in E as [E|E].
  - repeat case_match; set_solver.
  - apply list_elem_of_omap in E as (p & Hp & E). destruct (_ || _); [done|]. case_bool_decide; by simplify_eq.
Qed.

Lemma stem_shorter name : stem_of name = name \/ length (stem_of name) < length name.
Proof.
  unfold stem_of. destruct (split_once [DOT] (reverse name)) as [[a [|c b]]|] eqn:E; [by left|right|by left].
  apply split_once_eq in E. apply (f_equal length) in E. rewrite length_reverse in E. rewrite length_reverse, E.
  rewrite !length_app. simpl. lia.
Qed.

(** The recursion on the stem of a path ends. *)
Lemma detect_shell_type_total fuel path : length path < fuel -> is_Some (detect_fuel fuel path).
Proof.
  revert path. induction fuel as [|fuel IH]; intros path Hf; [lia|]. cbn [detect_fuel].
  repeat (destruct (_ == _); [eauto|]).
  unfold file_stem. destruct (file_name path) as [name|] eqn:E; [|simpl; eauto]. cbn [option_map].
  case_bool_decide as Hc; [|eauto]. apply IH.
  apply file_name_part, split_on_shorter in E. destruct (stem_shorter name) as [Hs|Hs].
  - rewrite Hs in Hc |- *. destruct E as [->|]; [done|lia].
  - destruct E as [->|]; lia.
Qed.

(** ** Git *)

Lemma option_with_value_unsafe arg :
  is_git_global_option_with_value arg = true -> git_matches_option_pattern arg UNSAFE_GIT_GLOBAL_OPTIONS = true.
Proof.
  unfold is_git_global_option_with_value. intros H%bool_decide_eq_true_1.
  repeat (apply elem_of_cons in H as [->|H]; [reflexivity|]). by apply not_elem_of_nil in H.
Qed.

Lemma pattern_in p arg l : List.In p l -> pattern_matches p arg = true -> git_matches_option_pattern arg l = true.
Proof. intros Hin Hp. apply existsb_exists. eauto. Qed.

Lemma option_inline_value_unsafe arg :
  is_git_global_option_with_inline_value arg = true -> git_matches_option_pattern arg UNSAFE_GIT_GLOBAL_OPTIONS = true.
Proof.
  unfold is_git_global_option_with_inline_value. intros [H|H]%orb_true_iff.
  - apply existsb_exists in H as (p & Hin & Hp).
    apply (pattern_in (Prefix p)); [|done]. cbn [List.In] in Hin.
    repeat (destruct Hin as [<-|Hin]; [unfold UNSAFE_GIT_GLOBAL_OPTIONS; simpl; tauto|]). done.
  - apply andb_true_iff in H as [[H|H]%orb_true_iff Hlen].
    + apply (pattern_in (ShortWithInlineValue (lit "-C"))); [unfold UNSAFE_GIT_GLOBAL_OPTIONS; simpl; tauto|].
      cbn [pattern_matches]. rewrite H. exact Hlen.
    + apply (pattern_in (ShortWithInlineValue (lit "-c"))); [unfold UNSAFE_GIT_GLOBAL_OPTIONS; simpl; tauto|].
      cbn [pattern_matches]. rewrite H. exact Hlen.
Qed.

(** Where the scan stops: what it skipped, if no unsafe option is among it,
    are options only. *)
Lemma find_git_loop_spec subs idx args i sub :
  find_git_loop subs idx false args = Some (i, sub) ->
  exists pre post, args = pre ++ sub :: post /\ i = idx + length pre /\ sub ∈ subs /\
    (git_has_unsafe_global_option pre = false -> Forall (fun arg => starts_with (lit "-") arg = true) pre).
Proof.
  enough (H : forall skip, find_git_loop subs idx skip args = Some (i, sub) ->
    exists pre post, args = pre ++ sub :: post /\ i = idx + length pre /\ sub ∈ subs /\
    (skip = false -> git_has_unsafe_global_option pre = false ->
     Forall (fun arg => starts_with (lit "-") arg = true) pre)).
  { intros (pre & post & ? & ? & ? & Hp)%H. exists pre, post. auto. }
  revert idx. induction args as [|arg args IH]; intros idx skip; [done|]. cbn [find_git_loop].
  assert (Hskip : forall skip', find_git_loop subs (S idx) skip' args = Some (i, sub) ->
    (skip = false -> git_matches_option_pattern arg UNSAFE_GIT_GLOBAL_OPTIONS = true \/
      skip' = false /\ starts_with (lit "-") arg = true) ->
    exists pre post, arg :: args = pre ++ sub :: post /\ i = idx + length pre /\ sub ∈ subs /\
    (skip = false -> git_has_unsafe_global_option pre = false ->
     Forall (fun arg => starts_with (lit "-") arg = true) pre)).
  { intros skip' (pre & post & -> & -> & Hs & Hp)%IH Harg. exists (arg :: pre), post.
    split_and!; [done|simpl; lia|done|]. intros Hk Hu. unfold git_has_unsafe_global_option in Hu. cbn [existsb] in Hu.
    apply orb_false_iff in Hu as [Hu1 Hu2]. destruct (Harg Hk) as [?|[-> ?]]; [congruence|]. constructor; auto. }
  destruct skip; [intros H; by apply (Hskip false)|].
  destruct (is_git_global_option_with_inline_value arg) eqn:E1.
  { intros H. apply (Hskip false); [done|]. intros _. left. by apply option_inline_value_unsafe. }
  destruct (is_git_global_option_with_value arg) eqn:E2.
  { intros H. apply (Hskip true); [done|]. intros _. left. by apply option_with_value_unsafe. }
  destruct (_ || _) eqn:E3.
  { intros H. apply (Hskip false); [done|]. intros _. right. split; [done|].
    apply orb_true_iff in E3 as [->%bool_decide_eq_true_1|H3]; [reflexivity|exact H3]. }
  destruct (bool_decide (arg ∈ subs)) eqn:E4; [|done]. apply bool_decide_eq_true_1 in E4.
  intros [= <- <-]. exists [], args. split_and!; [done|simpl; lia|done|]. by constructor.
Qed.

(** A flag of [git branch] that only lists. *)
Lemma branch_loop_spec saw args : branch_loop saw args = true -> Forall (fun arg => branch_read_only_flag arg = true) args.
Proof.
  revert saw. induction args as [|arg args IH]; intros saw; [constructor|]. cbn [branch_loop].
  destruct (branch_read_only_flag arg) eqn:E; [|done]. intros H. constructor; [done|by eapply IH].
Qed.

(** An approved git call is the git executable, options that do not
    redirect git (no configuration, directory, namespace or pager), one of the
    read-only subcommands, and arguments that neither write a file nor run a
    program; for branches only listing flags.  In particular the first word that
    is not an option is the subcommand: nothing before it can be the value of an
    option. *)
Theorem safe_git_shape command :
  is_safe_git_command command = true ->
  exists cmd0 options subcommand args,
    command = cmd0 :: options ++ subcommand :: args /\
    file_name cmd0 = Some (lit "git") /\ subcommand ∈ GIT_READ_ONLY /\
    Forall (fun o => starts_with (lit "-") o = true /\ is_git_global_option_with_value o = false /\
                     git_matches_option_pattern o UNSAFE_GIT_GLOBAL_OPTIONS = false) options /\
    Forall (fun a => git_matches_option_pattern a UNSAFE_GIT_SUBCOMMAND_OPTIONS = false) args /\
    (subcommand = lit "branch" -> Forall (fun a => branch_read_only_flag a = true) args).
Proof.
  unfold is_safe_git_command, find_git_subcommand. destruct command as [|cmd0 words]; [done|].
  destruct (negb _) eqn:Eg; [done|]. apply negb_false_iff, bool_decide_eq_true_1 in Eg.
  destruct (find_git_loop _ _ _ _) as [[i sub]|] eqn:E; [|done].
  apply find_git_loop_spec in E as (pre & post & -> & -> & Hsub & Hpre).
  replace (take (1 + length pre - 1) (drop 1 (cmd0 :: pre ++ sub :: post))) with pre
    by (replace (1 + length pre - 1) with (length pre) by lia; cbn [drop]; by rewrite ?drop_0, take_app_length).
  replace (drop (S (1 + length pre)) (cmd0 :: pre ++ sub :: post)) with post
    by (simpl; rewrite (app_cons_shift pre sub post);
        replace (S (length pre)) with (length (pre ++ [sub])) by (rewrite length_app; simpl; lia);
        by rewrite drop_app_length).
  destruct (git_has_unsafe_global_option pre) eqn:Eu; [done|]. specialize (Hpre eq_refl). intros H.
  exists cmd0, pre, sub, post. split_and!; [done..| | |].
  - apply Forall_forall. intros o Ho. rewrite Forall_forall in Hpre. split; [by apply Hpre|].
    assert (Hm : git_matches_option_pattern o UNSAFE_GIT_GLOBAL_OPTIONS = false).
    { destruct (git_matches_option_pattern o _) eqn:Em; [|done].
      enough (git_has_unsafe_global_option pre = true) by congruence. apply existsb_exists.
      exists o. by rewrite <- list_elem_of_In. }
    split; [|done]. destruct (is_git_global_option_with_value o) eqn:Ev; [|done].
    apply option_with_value_unsafe in Ev. congruence.
  - assert (Hr : git_subcommand_args_are_read_only post = true) by (by repeat case_hyp H; bool_to_prop).
    apply negb_true_iff in Hr. apply Forall_forall. intros a Ha.
    destruct (git_matches_option_pattern a _) eqn:Em; [|done].
    enough (existsb (fun arg => git_matches_option_pattern arg UNSAFE_GIT_SUBCOMMAND_OPTIONS) post = true) by congruence.
    apply existsb_exists. exists a. by rewrite <- list_elem_of_In.
  - intros ->. cbn in H. apply andb_true_iff in H as [_ H]. unfold git_branch_is_read_only in H.
    destruct (is_empty post) eqn:Ee; [apply is_empty_true in Ee as ->; constructor|]. by eapply branch_loop_spec.
Qed.

(** ** The argument of [sed -n] *)

Lemma all_digits_no_comma s : all_digits s = true -> Forall (fun c => c <> 44%N) s.
Proof.
  unfold all_digits. intros [_ H]%andb_true_iff. apply Is_true_true, forallb_True in H.
  eapply Forall_impl; [exact H|]. intros c Hc ->. by vm_compute in Hc.
Qed.

(** The only sed programs approved are a line number or a range of two line
    numbers, followed by the print command. *)
Theorem sed_argument_shape s :
  is_valid_sed_n_arg (Some s) = true <->
  exists b, all_digits b = true /\
    (s = b ++ lit "p" \/ exists a, all_digits a = true /\ s = a ++ lit "," ++ b ++ lit "p").
Proof.
  unfold is_valid_sed_n_arg. destruct (strip_suffix (lit "p") s) as [core|] eqn:E.
  - apply strip_suffix_Some in E as ->. split.
    + destruct (split_on 44 core) as [|a [|b [|? ?]]] eqn:Es; try done; intros H;
        pose proof (join_split_on 44 core) as Hj; rewrite Es in Hj; simpl in Hj; subst core.
      * exists a. auto.
      * apply andb_true_iff in H as [Ha Hb]. exists b. split; [done|]. right. exists a. split; [done|].
        by rewrite <- app_assoc.
    + intros (b & Hb & [Heq|(a & Ha & Heq)]).
      * apply app_inv_tail in Heq as ->. by rewrite split_on_none by (by apply all_digits_no_comma).
      * rewrite !app_assoc in Heq. apply app_inv_tail in Heq as ->. rewrite <- app_assoc.
        change (lit "," ++ b) with (44%N :: b). rewrite split_on_app by (by apply all_digits_no_comma).
        rewrite split_on_none by (by apply all_digits_no_comma). by rewrite Ha, Hb.
  - split; [done|]. intros (b & _ & [Heq|(a & _ & Heq)]).
    + assert (strip_suffix (lit "p") s = Some b) by (by apply strip_suffix_Some). congruence.
    + assert (strip_suffix (lit "p") s = Some (a ++ lit "," ++ b)) by (apply strip_suffix_Some; by rewrite <- !app_assoc).
      congruence.
Qed.

(** ** Approval *)

(** What may occur in an approved script. *)
Definition plain_syntax (n : Node) : Prop :=
  if is_named n then kind n ∈ ALLOWED_KINDS else kind n ∈ ALLOWED_PUNCT_TOKENS \/ trim (kind n) = [].

Lemma node_allowed_plain n : node_allowed n = true -> plain_syntax n.
Proof.
  unfold node_allowed, plain_syntax. destruct (is_named n); [by intros ?%bool_decide_eq_true_1|].
  destruct (_ && _); [done|]. intros [H|H]%orb_true_iff; [left; by apply bool_decide_eq_true_1 in H|right].
  by apply is_empty_true.
Qed.

Section Approval.
Context (linux : bool) (try_parse_shell : str -> option Tree).
Notation safe_exec := (is_safe_to_call_with_exec linux).

(** C36: an approved command is itself on the safe list, or it runs a shell on a
    script that parses without an error, consists only of plain commands, quoted
    words and the operators for sequences and pipelines, and holds at least one
    command; then every command of the script is on the safe list. *)
Theorem approved_script_commands_safe command :
  is_known_safe_command linux try_parse_shell command = true ->
  safe_exec (zsh_as_bash command) = true \/
  exists shell flag script tree,
    zsh_as_bash command = [shell; flag; script] /\ try_parse_shell script = Some tree /\ has_error tree = false /\
    Forall plain_syntax (nodes (root_node tree)) /\
    (exists n, n ∈ nodes (root_node tree) /\ is_command_node n = true) /\
    forall n, n ∈ nodes (root_node tree) -> is_command_node n = true ->
      exists words, parse_plain_command_from_node n = Some words /\ safe_exec words = true.
Proof.
  unfold is_known_safe_command. destruct (safe_exec (zsh_as_bash command)); [auto|]. intros H. right.
  unfold parse_shell_lc_plain_commands, extract_bash_command in *.
  destruct (zsh_as_bash command) as [|shell [|flag [|script [|? ?]]]]; simpl in *; try done.
  destruct (_ || _); simpl in *; [done|]. unfold parse_shell_script_into_commands in *.
  destruct (try_parse_shell script) as [tree|] eqn:Et; simpl in *; [|done].
  destruct (try_parse_word_only_commands_sequence tree) as [cmds|] eqn:Ec; [|done].
  apply andb_true_iff in H as [Hne Hall]. apply word_only_commands in Ec as (He & Hn & Hc & Hlen).
  exists shell, flag, script, tree. split_and!; [done..|by eapply Forall_impl, node_allowed_plain| |].
  - destruct (List.filter is_command_node (nodes (root_node tree))) as [|n l] eqn:Ef; [by destruct cmds|].
    exists n. assert (Hin : List.In n (List.filter is_command_node (nodes (root_node tree)))) by (rewrite Ef; by left).
    apply List.filter_In in Hin. by rewrite list_elem_of_In.
  - intros n Hnode Hcmd. destruct (Hc n Hnode Hcmd) as (w & Hw & Hin). exists w. split; [done|].
    rewrite forallb_forall in Hall. apply Hall. by apply list_elem_of_In.
Qed.

(** Programs with a rule of their own. *)
Definition KNOWN_PROGRAMS : list str :=
  [ lit "numfmt"; lit "tac" ] ++ SAFE_PROGRAMS ++ [ lit "base64"; lit "find"; lit "rg"; lit "git"; lit "sed" ].

Lemma safe_exec_known cmd0 args :
  safe_exec (cmd0 :: args) = true -> exists name, file_name cmd0 = Some name /\ name ∈ KNOWN_PROGRAMS.
Proof.
  cbn [is_safe_to_call_with_exec]. unfold executable_name_lookup_key.
  destruct (file_name cmd0) as [name|]; [|done]. intros H. exists name. split; [done|].
  unfold KNOWN_PROGRAMS. rewrite !elem_of_app.
  destruct (linux && bool_decide (name ∈ [lit "numfmt"; lit "tac"])) eqn:E1; [bool_to_prop; auto|].
  destruct (bool_decide (name ∈ SAFE_PROGRAMS)) eqn:E2; [bool_to_prop; auto|]. right. right.
  destruct (bool_decide (name = lit "base64")) eqn:E3; [apply bool_decide_eq_true_1 in E3 as ->; set_solver|].
  destruct (bool_decide (name = lit "find")) eqn:E4; [apply bool_decide_eq_true_1 in E4 as ->; set_solver|].
  destruct (bool_decide (name = lit "rg")) eqn:E5; [apply bool_decide_eq_true_1 in E5 as ->; set_solver|].
  destruct (bool_decide (name = lit "git")) eqn:E6; [apply bool_decide_eq_true_1 in E6 as ->; set_solver|].
  destruct (bool_decide (name = lit "sed")) eqn:E7; [apply bool_decide_eq_true_1 in E7 as ->; set_solver|done].
Qed.

(** What matters of such a name: it is not a flagged program, not a shell, and
    has no extension. *)
Definition plain_program (name : str) : bool :=
  negb (bool_decide (name ∈ [ lit "rm"; lit "sudo"; lit "zsh"; lit "sh"; lit "cmd"; lit "bash"; lit "pwsh"; lit "powershell" ]))
  && (stem_of name == name) && (file_name name == Some name).

Lemma known_plain : forallb plain_program KNOWN_PROGRAMS = true.
Proof. by vm_compute. Qed.

Lemma plain_known name : name ∈ KNOWN_PROGRAMS -> plain_program name = true.
Proof. intros H. pose proof known_plain as Hk. rewrite forallb_forall in Hk. apply Hk. by apply list_elem_of_In. Qed.

Lemma detect_plain fuel name : plain_program name = true -> detect_fuel (S fuel) name = Some None.
Proof.
  unfold plain_program. rewrite !andb_true_iff, negb_true_iff, bool_decide_eq_false, !bool_decide_eq_true.
  intros [[Hn Hs] Hf]. cbn [detect_fuel]. rewrite !(bool_decide_false (name = _)) by (intros ->; apply Hn; set_solver).
  unfold file_stem. rewrite Hf. simpl. rewrite Hs. by rewrite bool_decide_false by naive_solver.
Qed.

Lemma detect_program path name :
  file_name path = Some name -> plain_program name = true -> detect_shell_type path = None.
Proof.
  intros Hf Hp. pose proof Hp as Hp'. unfold plain_program in Hp'.
  rewrite !andb_true_iff, negb_true_iff, bool_decide_eq_false, !bool_decide_eq_true in Hp'.
  destruct Hp' as [[Hn Hs] _]. unfold detect_shell_type.
  destruct path as [|c path]; [done|]. cbn [length]. remember (S (length path)) as f eqn:Ef. cbn [detect_fuel].
  assert (Hne : forall s, s ∈ [ lit "zsh"; lit "sh"; lit "cmd"; lit "bash"; lit "pwsh"; lit "powershell" ] -> c :: path <> s).
  { intros s Hin E. rewrite E in Hf. apply Hn.
    assert (Hs' : file_name s = Some s)
      by (repeat (apply elem_of_cons in Hin as [->|Hin]; [reflexivity|]); by apply not_elem_of_nil in Hin).
    rewrite Hs' in Hf. injection Hf as <-. set_solver. }
  rewrite !(bool_decide_false (c :: path = _)) by (apply Hne; set_solver).
  unfold file_stem. rewrite Hf. cbn [option_map]. rewrite Hs. case_bool_decide; [|done].
  subst f. by rewrite detect_plain.
Qed.

Lemma safe_exec_not_dangerous command : safe_exec command = true -> is_dangerous_to_call_with_exec command = false.
Proof.
  destruct command as [|cmd0 args]; [done|]. intros (name & Hf & Hp%plain_known)%safe_exec_known.
  unfold plain_program in Hp. rewrite !andb_true_iff, negb_true_iff, bool_decide_eq_false in Hp.
  destruct Hp as [[Hn _] _]. cbn [is_dangerous_to_call_with_exec].
  rewrite (bool_decide_false (cmd0 = lit "rm")) by (intros ->; injection Hf as <-; apply Hn; set_solver).
  by rewrite (bool_decide_false (cmd0 = lit "sudo")) by (intros ->; injection Hf as <-; apply Hn; set_solver).
Qed.

Lemma shell_not_dangerous command p :
  extract_bash_command command = Some p -> is_dangerous_to_call_with_exec command = false.
Proof.
  destruct command as [|shell [|flag [|script [|? ?]]]]; try done. cbn [extract_bash_command].
  destruct (_ || _) eqn:E; [done|]. intros _. apply orb_false_iff in E as [_ E]. cbn [is_dangerous_to_call_with_exec].
  rewrite (bool_decide_false (shell = lit "rm")) by (by intros ->).
  by rewrite (bool_decide_false (shell = lit "sudo")) by (by intros ->).
Qed.

(** Nothing is approved and flagged at once: no approved command, read with
    bash for zsh as the approval does, is flagged as dangerous, neither directly
    nor through a command of its script. *)
Theorem approved_not_dangerous command :
  is_known_safe_command linux try_parse_shell command = true ->
  command_might_be_dangerous try_parse_shell (zsh_as_bash command) = false.
Proof.
  unfold is_known_safe_command, command_might_be_dangerous. set (c := zsh_as_bash command).
  destruct (safe_exec c) eqn:Es; intros H.
  - rewrite safe_exec_not_dangerous by done. unfold parse_shell_lc_plain_commands.
    destruct (extract_bash_command c) as [[shell script]|] eqn:Ex; [|done].
    destruct c as [|cmd0 [|flag [|s [|? ?]]]]; try done.
    destruct (safe_exec_known _ _ Es) as (name & Hf & Hp%plain_known).
    cbn [extract_bash_command] in Ex. rewrite (detect_program cmd0 name Hf Hp) in Ex. by rewrite orb_true_r in Ex.
  - unfold parse_shell_lc_plain_commands in *. destruct (extract_bash_command c) as [[shell script]|] eqn:Ex; [|done].
    rewrite (shell_not_dangerous c _ Ex). simpl in *.
    destruct (parse_shell_script_into_commands try_parse_shell script) as [cmds|]; [|done].
    apply andb_true_iff in H as [_ Hall]. rewrite forallb_forall in Hall.
    destruct (existsb _ cmds) eqn:Ed; [|done]. apply existsb_exists in Ed as (w & Hw & Hd).
    by rewrite safe_exec_not_dangerous in Hd by (by apply Hall).
Qed.
End Approval.

(** ** Examples *)

(** The tree of a script that is one word. *)
Definition one_word_tree (script : str) : option Tree :=
  let word := mkNode (lit "word") true 0 (Some script) [] in
  let name := mkNode (lit "command_name") true 0 (Some script) [word] in
  Some (mkTree (mkNode (lit "program") true 0 (Some script) [mkNode (lit "command") true 0 (Some script) [name]]) false).

Definition sample_command : list str := [ lit "/bin/zsh"; lit "-lc"; lit "ls" ].

Lemma safe_git_shape_witness :
  exists cmd0 options subcommand args,
    [ lit "/usr/bin/git"; lit "--no-pager"; lit "branch"; lit "-vv" ] = cmd0 :: options ++ subcommand :: args /\
    subcommand ∈ GIT_READ_ONLY.
Proof.
  destruct (safe_git_shape [ lit "/usr/bin/git"; lit "--no-pager"; lit "branch"; lit "-vv" ])
    as (c & o & s & a & E & _ & Hs & _); [vm_compute; reflexivity|].
  exists c, o, s, a. split; [exact E|exact Hs].
Defined.

Lemma approved_script_commands_safe_witness :
  is_known_safe_command false one_word_tree sample_command = true /\
  exists tree, one_word_tree (lit "ls") = Some tree /\
    forall n, n ∈ nodes (root_node tree) -> is_command_node n = true ->
      exists words, parse_plain_command_from_node n = Some words /\ is_safe_to_call_with_exec false words = true.
Proof.
  assert (H : is_known_safe_command false one_word_tree sample_command = true) by (vm_compute; reflexivity).
  split; [exact H|]. eexists. split; [reflexivity|].
  destruct (approved_script_commands_safe false one_word_tree sample_command H)
    as [Hs|(sh & fl & sc & tree & E & Ht & _ & _ & _ & Hall)]; [vm_compute in Hs; discriminate Hs|].
  vm_compute in E. injection E as <- <- <-. injection Ht as <-. exact Hall.
Defined.

Lemma approved_not_dangerous_witness :
  is_known_safe_command true one_word_tree sample_command = true /\
  command_might_be_dangerous one_word_tree (zsh_as_bash sample_command) = false.
Proof.
  assert (H : is_known_safe_command true one_word_tree sample_command = true) by (vm_compute; reflexivity).
  split; [exact H|]. exact (approved_not_dangerous true one_word_tree sample_command H).
Defined.
End CommandSafetyFacts.
