(* ===== verification/PolicyFiles.v ===== *)
(** Policy files of the execution policy: the parser with the builtins that a
    file calls (execpolicy/src/parser.rs) and the functions that append a rule
    to a file (execpolicy/src/amend.rs).

    Evaluating a file is the work of the Starlark interpreter, a library.  The
    builtins return nothing to the file and an error of one ends the
    evaluation, so what a file does is a sequence of calls that does not depend
    on the builder: [eval_module] gives it, with the error of the interpreter
    if the file ends with one. *)

From stdpp Require Import base list option numbers strings gmap.
From S2P Require Import Prelude RustStr ShellTree ExecPolicy.

Module PolicyFiles.
Import ExecPolicy.
Open Scope rust_scope.

(** What the builtins see of a Starlark value. *)
Class StarlarkValues (V : Type) := {
  unpack_str : V -> option str;
  list_content : V -> option (list V);
  get_type : V -> str;
}.

(** [iter().map(f).collect::<Result<Vec<_>, _>>()]: up to the first error. *)
Fixpoint try_map {A B E} (f : A -> result B E) (l : list A) : result (list B) E :=
  match l with
  | [] => Ok []
  | x :: l' =>
      let? y := f x in
      let? ys := try_map f l' in
      Ok (y :: ys)
  end.

(** File name and zero-based positions of a span. *)
Definition FileSpan : Type := str * TextPosition * TextPosition.

Definition error_location_from_file_span (span : FileSpan) : ErrorLocation :=
  let '(file, b, e) := span in
  mkLocation file (mkRange (mkPos (line b + 1) (column b + 1)) (mkPos (line e + 1) (column e + 1))).

Definition msg_pattern_empty : str := lit "pattern cannot be empty".

Section Parser.
Context {path : Type} `{AbsolutePaths path} {V : Type} `{StarlarkValues V} {S : Type}.
(** [shlex::split], and the text of the error of [AbsolutePathBuf::try_from]. *)
Context (shlex_split : str -> option (list str)) (path_error : str -> str).

Record PendingExampleValidation := mkPending {
  pending_rules : list PrefixRule;
  matches : list (list str);
  not_matches : list (list str);
  pending_location : option ErrorLocation;
}.

Record PolicyBuilder := mkBuilder {
  builder_rules : gmap str (list PrefixRule);
  builder_network_rules : list NetworkRule;
  builder_hosts : gmap str (list path);
  pending_example_validations : list PendingExampleValidation;
}.

Definition builder_new : PolicyBuilder := mkBuilder ∅ [] ∅ [].

Definition add_rule (b : PolicyBuilder) (rule : PrefixRule) : PolicyBuilder :=
  mkBuilder (multimap_insert (rule_program rule) rule (builder_rules b)) (builder_network_rules b) (builder_hosts b)
    (pending_example_validations b).

Definition builder_add_network_rule (b : PolicyBuilder) (rule : NetworkRule) : PolicyBuilder :=
  mkBuilder (builder_rules b) (builder_network_rules b ++ [rule]) (builder_hosts b) (pending_example_validations b).

Definition add_host_executable (b : PolicyBuilder) (name : str) (paths : list path) : PolicyBuilder :=
  mkBuilder (builder_rules b) (builder_network_rules b) (<[name := paths]> (builder_hosts b))
    (pending_example_validations b).

Definition add_pending_example_validation (b : PolicyBuilder) (rules : list PrefixRule) (ms ns : list (list str))
    (location : option ErrorLocation) : PolicyBuilder :=
  mkBuilder (builder_rules b) (builder_network_rules b) (builder_hosts b)
    (pending_example_validations b ++ [mkPending rules ms ns location]).

Definition build (b : PolicyBuilder) : Policy := from_parts (builder_rules b) (builder_network_rules b) (builder_hosts b).

(** ** Reading the arguments *)

Definition parse_pattern_token (value : V) : result PatternToken (Error S) :=
  match unpack_str value with
  | Some s => Ok (Single s)
  | None =>
      match list_content value with
      | Some content =>
          let? tokens := try_map (fun v =>
            match unpack_str v with
            | Some s => Ok s
            | None => Err (InvalidPattern (lit "pattern alternative must be a string (got " ++ get_type v ++ lit ")"))
            end) content in
          match tokens with
          | [] => Err (InvalidPattern (lit "pattern alternatives cannot be empty"))
          | [single] => Ok (Single single)
          | _ => Ok (Alts tokens)
          end
      | None =>
          Err (InvalidPattern (lit "pattern element must be a string or list of strings (got " ++ get_type value ++ lit ")"))
      end
  end.

Definition parse_pattern (pattern : list V) : result (list PatternToken) (Error S) :=
  let? tokens := try_map parse_pattern_token pattern in
  if is_empty tokens then Err (InvalidPattern msg_pattern_empty) else Ok tokens.

Definition parse_string_example (raw : str) : result (list str) (Error S) :=
  match shlex_split raw with
  | None => Err (InvalidExample (lit "example string has invalid shell syntax"))
  | Some tokens => if is_empty tokens then Err (InvalidExample (lit "example cannot be an empty string")) else Ok tokens
  end.

Definition parse_list_example (content : list V) : result (list str) (Error S) :=
  let? tokens := try_map (fun v =>
    match unpack_str v with
    | Some s => Ok s
    | None => Err (InvalidExample (lit "example tokens must be strings (got " ++ get_type v ++ lit ")"))
    end) content in
  if is_empty tokens then Err (InvalidExample (lit "example cannot be an empty list")) else Ok tokens.

Definition parse_example (value : V) : result (list str) (Error S) :=
  match unpack_str value with
  | Some raw => parse_string_example raw
  | None =>
      match list_content value with
      | Some content => parse_list_example content
      | None => Err (InvalidExample (lit "example must be a string or list of strings (got " ++ get_type value ++ lit ")"))
      end
  end.

Definition parse_examples (examples : list V) : result (list (list str)) (Error S) := try_map parse_example examples.

(** [examples.map(parse_examples).transpose()?.unwrap_or_default()]. *)
Definition parse_optional_examples (examples : option (list V)) : result (list (list str)) (Error S) :=
  match examples with Some es => parse_examples es | None => Ok [] end.

Definition parse_literal_absolute_path (raw : str) : result path (Error S) :=
  if negb (starts_with [Shell.SLASH] raw) then
    Err (InvalidRule (lit "host_executable paths must be absolute (got " ++ raw ++ lit ")"))
  else
    match path_try_from raw with
    | Some p => Ok p
    | None => Err (InvalidRule (lit "invalid absolute path `" ++ raw ++ lit "`: " ++ path_error raw))
    end.

Definition validate_host_executable_name (name : str) : result unit (Error S) :=
  if is_empty name then Err (InvalidRule (lit "host_executable name cannot be empty"))
  else if negb (length (Shell.components name) =? 1) || negb (Shell.file_name name == Some name) then
    Err (InvalidRule (lit "host_executable name must be a bare executable name (got " ++ name ++ lit ")"))
  else Ok tt.

Definition parse_network_rule_decision (raw : str) : result Decision (Error S) :=
  if raw == lit "deny" then Ok Forbidden else decision_parse raw.

Definition attach_validation_location (e : Error S) (location : option ErrorLocation) : Error S :=
  match location with Some l => with_location e l | None => e end.

(** ** The builtins *)

Inductive Call :=
| PrefixRuleCall (pattern : list V) (decision : option str) (match_ not_match : option (list V)) (justification : option str)
| NetworkRuleCall (host protocol decision : str) (justification : option str)
| HostExecutableCall (name : str) (paths : list V).

Definition checked_justification (justification : option str) : result (option str) (Error S) :=
  if is_some_and justification (fun raw => is_empty (trim raw)) then Err (InvalidRule msg_empty_justification)
  else Ok justification.

(** The rules of a call: one per alternative of the first token. *)
Definition rules_of_tokens (first_token : PatternToken) (rest : list PatternToken) (d : Decision) (justification : option str)
    : list PrefixRule :=
  List.map (fun head => mkRule (mkPattern head rest) d justification) (token_alternatives first_token).

Definition prefix_rule (pattern : list V) (decision : option str) (match_ not_match : option (list V))
    (justification : option str) (location : option FileSpan) (b : PolicyBuilder) : result PolicyBuilder (Error S) :=
  let? d := match decision with Some raw => decision_parse raw | None => Ok Allow end in
  let? justification := checked_justification justification in
  let? pattern_tokens := parse_pattern pattern in
  let? ms := parse_optional_examples match_ in
  let? ns := parse_optional_examples not_match in
  match pattern_tokens with
  | [] => Err (InvalidPattern msg_pattern_empty)
  | first_token :: remaining_tokens =>
      let rules := rules_of_tokens first_token remaining_tokens d justification in
      Ok (fold_left add_rule rules
            (add_pending_example_validation b rules ms ns (option_map error_location_from_file_span location)))
  end.

Definition network_rule (host protocol decision : str) (justification : option str) (b : PolicyBuilder)
    : result PolicyBuilder (Error S) :=
  let? protocol := protocol_parse protocol in
  let? d := parse_network_rule_decision decision in
  let? justification := checked_justification justification in
  let? host := normalize_network_rule_host host in
  Ok (builder_add_network_rule b (mkNetworkRule host protocol d justification)).

Definition msg_basename (raw name : str) : str :=
  lit "host_executable path `" ++ raw ++ lit "` must have basename `" ++ name ++ lit "`".

Fixpoint parse_paths (name : str) (values : list V) (parsed : list path) : result (list path) (Error S) :=
  match values with
  | [] => Ok parsed
  | value :: values' =>
      match unpack_str value with
      | None => Err (InvalidRule (lit "host_executable paths must be strings (got " ++ get_type value ++ lit ")"))
      | Some raw =>
          let? p := parse_literal_absolute_path raw in
          match executable_path_lookup_key p with
          | None => Err (InvalidRule (msg_basename raw name))
          | Some path_name =>
              if negb (path_name == executable_lookup_key name) then Err (InvalidRule (msg_basename raw name))
              else parse_paths name values' (if existsb (fun existing => existing == p) parsed then parsed else parsed ++ [p])
          end
      end
  end.

Definition host_executable (name : str) (paths : list V) (b : PolicyBuilder) : result PolicyBuilder (Error S) :=
  let? _ := validate_host_executable_name name in
  let? parsed_paths := parse_paths name paths [] in
  Ok (add_host_executable b (executable_lookup_key name) parsed_paths).

Definition builtin (c : Call) (location : option FileSpan) (b : PolicyBuilder) : result PolicyBuilder (Error S) :=
  match c with
  | PrefixRuleCall pattern decision match_ not_match justification =>
      prefix_rule pattern decision match_ not_match justification location b
  | NetworkRuleCall host protocol decision justification => network_rule host protocol decision justification b
  | HostExecutableCall name paths => host_executable name paths b
  end.

(** ** The parser *)

(** [try_join] is shlex's quoting; the [Debug] renderings are the derived ones. *)
Context (try_join : list str -> option str) (debug_rule : PrefixRule -> str) (debug_match : RuleMatch (path:=path) -> str).

Definition validation_policy (b : PolicyBuilder) (v : PendingExampleValidation) : Policy :=
  from_parts (fold_left (fun m rule => multimap_insert (rule_program rule) rule m) (pending_rules v) ∅) [] (builder_hosts b).

Definition validate_pending (b : PolicyBuilder) (v : PendingExampleValidation) : result unit (Error S) :=
  let policy := validation_policy b v in
  let? _ := map_err (fun e => attach_validation_location e (pending_location v))
              (validate_not_match_examples try_join debug_match policy (not_matches v)) in
  map_err (fun e => attach_validation_location e (pending_location v))
    (validate_match_examples try_join debug_rule policy (pending_rules v) (matches v)).

Fixpoint validate_all (b : PolicyBuilder) (vs : list PendingExampleValidation) : result unit (Error S) :=
  match vs with
  | [] => Ok tt
  | v :: vs' => let? _ := validate_pending b v in validate_all b vs'
  end.

Definition validate_pending_examples_from (b : PolicyBuilder) (start : nat) : result unit (Error S) :=
  validate_all b (drop start (pending_example_validations b)).

(** [Err] of [eval_module] is a syntax error; [builtin_error] makes an error of
    the interpreter from one of a builtin. *)
Context (eval_module : str -> str -> result (list (Call * option FileSpan) * option S) S) (builtin_error : Error S -> S).

(** The calls of a file, up to the first that fails. *)
Fixpoint run_calls (calls : list (Call * option FileSpan)) (b : PolicyBuilder) : PolicyBuilder * result unit (Error S) :=
  match calls with
  | [] => (b, Ok tt)
  | (c, location) :: calls' =>
      match builtin c location b with
      | Err e => (b, Err (Starlark (builtin_error e)))
      | Ok b => run_calls calls' b
      end
  end.

Definition parse (b : PolicyBuilder) (policy_identifier policy_file_contents : str) : PolicyBuilder * result unit (Error S) :=
  let pending_validation_count := length (pending_example_validations b) in
  match eval_module policy_identifier policy_file_contents with
  | Err e => (b, Err (Starlark e))
  | Ok (calls, failure) =>
      match run_calls calls b with
      | (b, Err e) => (b, Err e)
      | (b, Ok _) =>
          match failure with
          | Some e => (b, Err (Starlark e))
          | None => (b, validate_pending_examples_from b pending_validation_count)
          end
      end
  end.

End Parser.
Arguments PolicyBuilder : clear implicits.
Arguments Call : clear implicits.

(** ** Appending rules (amend.rs) *)

(** The file system of the policy file.  [write_all] is a write on a file that
    was opened to append. *)
Class RulesFs (F IoError : Type) := {
  already_exists : IoError -> bool;
  create_dir : F -> str -> result F IoError;
  open_append : F -> str -> result F IoError;
  lock_file : F -> str -> result unit IoError;
  seek_start : F -> str -> result unit IoError;
  read_to_string : F -> str -> result str IoError;
  write_all : F -> str -> str -> F * result unit IoError;
}.

Inductive AmendError (IoError : Type) :=
| EmptyPrefix
| InvalidNetworkRule (message : str)
| MissingParent (path : str)
| CreatePolicyDir (dir : str) (source : IoError)
| SerializePrefix
| SerializeNetworkRule
| OpenPolicyFile (path : str) (source : IoError)
| WritePolicyFile (path : str) (source : IoError)
| LockPolicyFile (path : str) (source : IoError)
| SeekPolicyFile (path : str) (source : IoError)
| ReadPolicyFile (path : str) (source : IoError).
Arguments EmptyPrefix {IoError}.
Arguments InvalidNetworkRule {IoError} message.
Arguments MissingParent {IoError} path.
Arguments CreatePolicyDir {IoError} dir source.
Arguments SerializePrefix {IoError}.
Arguments SerializeNetworkRule {IoError}.
Arguments OpenPolicyFile {IoError} path source.
Arguments WritePolicyFile {IoError} path source.
Arguments LockPolicyFile {IoError} path source.
Arguments SeekPolicyFile {IoError} path source.
Arguments ReadPolicyFile {IoError} path source.

Section Amend.
Context {F IoError : Type} `{RulesFs F IoError} {S : Type}.
(** [Path::parent], [serde_json::to_string] of a string, the [Display] of an error. *)
Context (parent : str -> option str) (json_string : str -> option str) (show_error : Error S -> str).

(** What to write into a file with these contents: nothing when the line is
    there, else the line, after an end of line if the last one lacks it. *)
Definition pieces_to_write (contents line : str) : list str :=
  if existsb (fun existing => existing == line) (lines contents) then []
  else (if negb (is_empty contents) && negb (ends_with [LF] contents) then [[LF]] else []) ++ [line ++ [LF]].

Fixpoint write_pieces (fs : F) (policy_path : str) (pieces : list str) : F * result unit (AmendError IoError) :=
  match pieces with
  | [] => (fs, Ok tt)
  | piece :: pieces' =>
      match write_all fs policy_path piece with
      | (fs, Err e) => (fs, Err (WritePolicyFile policy_path e))
      | (fs, Ok _) => write_pieces fs policy_path pieces'
      end
  end.

Definition append_locked_line (fs : F) (policy_path line : str) : F * result unit (AmendError IoError) :=
  match open_append fs policy_path with
  | Err e => (fs, Err (OpenPolicyFile policy_path e))
  | Ok fs =>
      match lock_file fs policy_path with
      | Err e => (fs, Err (LockPolicyFile policy_path e))
      | Ok _ =>
          match seek_start fs policy_path with
          | Err e => (fs, Err (SeekPolicyFile policy_path e))
          | Ok _ =>
              match read_to_string fs policy_path with
              | Err e => (fs, Err (ReadPolicyFile policy_path e))
              | Ok contents => write_pieces fs policy_path (pieces_to_write contents line)
              end
          end
      end
  end.

Definition append_rule_line (fs : F) (policy_path rule : str) : F * result unit (AmendError IoError) :=
  match parent policy_path with
  | None => (fs, Err (MissingParent policy_path))
  | Some dir =>
      match create_dir fs dir with
      | Ok fs => append_locked_line fs policy_path rule
      | Err e => if already_exists e then append_locked_line fs policy_path rule else (fs, Err (CreatePolicyDir dir e))
      end
  end.

Definition QUOTE : str := [34%N].

Definition to_json (s : str) (e : AmendError IoError) : result str (AmendError IoError) :=
  match json_string s with Some text => Ok text | None => Err e end.

Definition allow_prefix_rule_line (prefix : list str) : result str (AmendError IoError) :=
  let? tokens := try_map (fun t => to_json t SerializePrefix) prefix in
  let pattern := lit "[" ++ join (lit ", ") tokens ++ lit "]" in
  Ok (lit "prefix_rule(pattern=" ++ pattern ++ lit ", decision=" ++ QUOTE ++ lit "allow" ++ QUOTE ++ lit ")").

Definition blocking_append_allow_prefix_rule (fs : F) (policy_path : str) (prefix : list str)
    : F * result unit (AmendError IoError) :=
  if is_empty prefix then (fs, Err EmptyPrefix)
  else
    match allow_prefix_rule_line prefix with
    | Err e => (fs, Err e)
    | Ok rule => append_rule_line fs policy_path rule
    end.

Definition decision_word (d : Decision) : str :=
  match d with Allow => lit "allow" | Prompt => lit "prompt" | Forbidden => lit "deny" end.

Definition network_rule_line (host : str) (protocol : NetworkRuleProtocol) (d : Decision) (justification : option str)
    : result str (AmendError IoError) :=
  let? host := map_err (fun e => InvalidNetworkRule (show_error e)) (normalize_network_rule_host (S:=S) host) in
  let? _ := if is_some_and justification (fun raw => is_empty (trim raw)) then
              Err (InvalidNetworkRule msg_empty_justification) else Ok tt in
  let? host := to_json host SerializeNetworkRule in
  let? protocol := to_json (as_policy_string protocol) SerializeNetworkRule in
  let? word := to_json (decision_word d) SerializeNetworkRule in
  let? tail := match justification with
               | None => Ok []
               | Some j => let? text := to_json j SerializeNetworkRule in Ok [lit "justification=" ++ text]
               end in
  let args := [lit "host=" ++ host; lit "protocol=" ++ protocol; lit "decision=" ++ word] ++ tail in
  Ok (lit "network_rule(" ++ join (lit ", ") args ++ lit ")").

Definition blocking_append_network_rule (fs : F) (policy_path host : str) (protocol : NetworkRuleProtocol) (d : Decision)
    (justification : option str) : F * result unit (AmendError IoError) :=
  match network_rule_line host protocol d justification with
  | Err e => (fs, Err e)
  | Ok rule => append_rule_line fs policy_path rule
  end.

End Amend.
End PolicyFiles.
