(* ===== verification/PolicyFilesFacts.v ===== *)
(** Theorems on policy files: what a file that loads has been checked for, what
    appending a rule does to the file, and that the file, loaded again, has the
    rule that the running policy has. *)

From stdpp Require Import base list option numbers strings gmap.
From S2P Require Import Prelude RustStr ShellTree ExecPolicy ExecPolicyFacts PolicyFiles.

Module PolicyFilesFacts.
Import ExecPolicy ExecPolicyFacts PolicyFiles.
Open Scope rust_scope.

(** ** The text of the file *)

(** What follows an end of line are lines of their own. *)
Lemma split_on_after sep s t : split_on sep ((s ++ [sep]) ++ t) = split_on sep s ++ split_on sep t.
Proof.
  induction s as [|c s IH].
  - cbn [app]. by rewrite split_on_cons_sep.
  - change ((c :: s) ++ [sep]) with (c :: (s ++ [sep])). cbn [app]. cbn [split_on]. rewrite IH.
    destruct (split_on sep s) eqn:E; [by apply split_on_not_nil in E|]. cbn. by destruct (c =? sep)%N.
Qed.

Lemma split_on_snoc_sep sep s : split_on sep (s ++ [sep]) = split_on sep s ++ [[]].
Proof. rewrite <- (app_nil_r (s ++ [sep])). by rewrite split_on_after. Qed.

Lemma removelast_snoc {A} (l : list A) x : List.removelast (l ++ [x]) = l.
Proof. by rewrite List.removelast_last. Qed.

Lemma lines_terminated s : lines (s ++ [LF]) = List.map strip_cr (split_on LF s).
Proof. unfold lines. by rewrite split_on_snoc_sep, removelast_snoc, List.last_last, app_nil_r. Qed.

Lemma split_on_snoc_last s : exists front final, split_on LF s = front ++ [final].
Proof. destruct (exists_last (split_on_not_nil LF s)) as (f & x & ->). eauto. Qed.

(** The last part of a text ends as the text does. *)
Lemma split_on_last_end s front final c :
  split_on LF s = front ++ [final] -> last final = Some c -> last s = Some c.
Proof.
  intros E. pose proof (join_split_on LF s) as J. rewrite E in J. intros Hl. rewrite <- J. clear E J.
  induction front as [|x front IH]; [done|]. cbn [app]. rewrite join_cons by (by destruct front).
  rewrite !last_app, IH. done.
Qed.

Lemma strip_cr_id l : last l <> Some CR -> strip_cr l = l.
Proof.
  intros Hl. unfold strip_cr. destruct (strip_suffix [CR] l) as [r|] eqn:E; [|done].
  apply strip_suffix_Some in E as ->. by rewrite last_snoc in Hl.
Qed.

(** Terminating the last line changes no line, unless the text ends in a carriage return. *)
Lemma lines_terminate s : s <> [] -> ends_with [LF] s = false -> last s <> Some CR -> lines (s ++ [LF]) = lines s.
Proof.
  intros Hne Hlf Hcr. rewrite lines_terminated. unfold lines. destruct (split_on_snoc_last s) as (front & final & E).
  rewrite E, removelast_snoc, List.last_last, map_app. cbn [List.map].
  assert (final <> []) as Hf.
  { intros ->. pose proof (join_split_on LF s) as J. rewrite E in J.
    apply not_true_iff_false in Hlf. apply Hlf, ends_with_true. destruct front as [|x front]; [by subst|].
    exists (join [LF] (x :: front)). rewrite <- J. clear E J Hlf. revert x. induction front as [|y front IH]; intros x; [done|].
    cbn [app]. rewrite !(join_cons _ x) by done. cbn [app] in IH. rewrite IH, <- !app_assoc. done. }
  rewrite (proj2 (is_empty_false final)) by done. rewrite strip_cr_id; [done|].
  destruct (last final) as [c|] eqn:El; [|done]. by rewrite <- (split_on_last_end _ _ _ _ E El).
Qed.

Definition text_of (pieces : list str) : str := List.concat pieces.

(** Appending keeps every line and adds the given one at the end, once. *)
Lemma appended_lines contents line :
  Forall (fun c => c <> LF) line -> last line <> Some CR -> last contents <> Some CR ->
  let after := contents ++ text_of (pieces_to_write contents line) in
  line ∈ lines after /\
  lines after = (if existsb (fun l => l == line) (lines contents) then lines contents else lines contents ++ [line]) /\
  pieces_to_write after line = [].
Proof.
  intros Hl Hc Hcr. cbn zeta. unfold pieces_to_write at 1 2 4.
  assert (Hin : forall s, existsb (fun l => l == line) (lines s) = true <-> line ∈ lines s).
  { intros s. rewrite existsb_exists. setoid_rewrite <- list_elem_of_In. split.
    - by intros (l & ? & ->%bool_decide_eq_true).
    - intros ?. exists line. split; [done|]. by apply bool_decide_eq_true. }
  assert (Hw : forall s, line ∈ lines s -> pieces_to_write s line = []).
  { intros s Hs%Hin. unfold pieces_to_write. by rewrite Hs. }
  destruct (existsb _ (lines contents)) eqn:Ex.
  - cbn [text_of List.concat]. rewrite app_nil_r. apply Hin in Ex. split; [done|]. split; [done|]. by apply Hw.
  - enough (E : lines (contents ++ text_of ((if negb (is_empty contents) && negb (ends_with [LF] contents) then [[LF]] else [])
        ++ [line ++ [LF]])) = lines contents ++ [line]).
    { rewrite E. split; [set_solver|]. split; [done|]. apply Hw. rewrite E. set_solver. }
    assert (Hend : forall s, lines ((s ++ [LF]) ++ line ++ [LF]) = lines (s ++ [LF]) ++ [line]).
    { intros s. rewrite app_assoc, lines_terminated, split_on_after, map_app, lines_terminated.
      rewrite (split_on_none LF line) by done. cbn. by rewrite strip_cr_id. }
    destruct contents as [|c0 contents0].
    + cbn -[lines]. rewrite app_nil_r, lines_terminated, split_on_none by done. cbn. by rewrite strip_cr_id.
    + remember (c0 :: contents0) as s eqn:Es. assert (is_empty s = false) as -> by (by subst).
      cbn [negb andb]. destruct (ends_with [LF] s) eqn:Ee; cbn [negb app text_of List.concat].
      * rewrite app_nil_r. apply ends_with_true in Ee as [r ->]. apply Hend.
      * rewrite app_nil_r. change (LF :: line ++ [LF]) with ([LF] ++ line ++ [LF]). rewrite app_assoc.
        rewrite Hend, lines_terminate; [done| |done|done]. by subst.
Qed.

(** ** The file *)

(** Documented behaviour of files opened to append: opening creates an empty
    file, reading gives the contents, a write that succeeds adds its text at the
    end; making the directory leaves the file alone. *)
Class RulesFsLaws (F IoError : Type) `{RulesFs F IoError} (file : F -> str -> option str) := {
  create_dir_file fs dir fs' p : create_dir fs dir = Ok fs' -> file fs' p = file fs p;
  open_append_file fs p fs' : open_append fs p = Ok fs' -> file fs' p = Some (default [] (file fs p));
  read_to_string_file fs p contents : read_to_string fs p = Ok contents -> file fs p = Some contents;
  write_all_file fs p text fs' contents :
    file fs p = Some contents -> write_all fs p text = (fs', Ok tt) -> file fs' p = Some (contents ++ text);
}.

Section Files.
Context {F IoError : Type} `{RulesFsLaws F IoError file} {S : Type}.
Context (parent : str -> option str) (json_string : str -> option str) (show_error : Error S -> str).

Lemma write_pieces_file fs p pieces fs' contents :
  file fs p = Some contents -> write_pieces fs p pieces = (fs', Ok tt) -> file fs' p = Some (contents ++ text_of pieces).
Proof.
  revert fs contents. induction pieces as [|t ts IH]; intros fs contents Hf; cbn [write_pieces text_of List.concat].
  - intros [= <-]. by rewrite app_nil_r.
  - destruct (write_all fs p t) as [fs1 [[]|e]] eqn:E; [|done]. intros Hw.
    rewrite (IH fs1 (contents ++ t)); [by rewrite <- app_assoc| |done]. by eapply write_all_file.
Qed.

Lemma append_locked_line_file fs p line fs' :
  append_locked_line fs p line = (fs', Ok tt) ->
  file fs' p = Some (default [] (file fs p) ++ text_of (pieces_to_write (default [] (file fs p)) line)).
Proof.
  unfold append_locked_line. destruct (open_append fs p) as [fs1|] eqn:Eo; [|done].
  destruct (lock_file fs1 p); [|done]. destruct (seek_start fs1 p); [|done].
  destruct (read_to_string fs1 p) as [contents|] eqn:Er; [|done].
  apply open_append_file in Eo. apply read_to_string_file in Er. rewrite Er in Eo. injection Eo as <-.
  intros Hw. by eapply write_pieces_file.
Qed.

Lemma append_rule_line_file fs p rule fs' :
  append_rule_line parent fs p rule = (fs', Ok tt) ->
  file fs' p = Some (default [] (file fs p) ++ text_of (pieces_to_write (default [] (file fs p)) rule)).
Proof.
  unfold append_rule_line. destruct (parent p) as [dir|]; [|done].
  destruct (create_dir fs dir) as [fs1|e] eqn:Ec.
  - intros ->%append_locked_line_file. by rewrite (create_dir_file _ _ _ p Ec).
  - destruct (already_exists e); [|done]. apply append_locked_line_file.
Qed.

End Files.

(** ** Loading a file *)

Section Loading.
Context {path : Type} `{AbsolutePaths path} {V : Type} `{StarlarkValues V} {S : Type}.
Context (shlex_split : str -> option (list str)) (path_error : str -> str).
Context (try_join : list str -> option str) (debug_rule : PrefixRule -> str) (debug_match : RuleMatch (path:=path) -> str).
Context (eval_module : str -> str -> result (list (Call V * option FileSpan) * option S) S) (builtin_error : Error S -> S).
Notation builder := (PolicyBuilder path).
Notation builtin := (builtin (S:=S) shlex_split path_error).
Notation run_calls := (run_calls shlex_split path_error builtin_error).
Notation validate_all := (validate_all (S:=S) try_join debug_rule debug_match).
Notation parse := (parse shlex_split path_error try_join debug_rule debug_match eval_module builtin_error).

Lemma run_calls_app calls calls' (b : builder) :
  run_calls (calls ++ calls') b =
  match run_calls calls b with (b', Ok _) => run_calls calls' b' | failed => failed end.
Proof.
  revert b. induction calls as [|[c l] calls IH]; intros b; cbn [app PolicyFiles.run_calls]; [done|].
  destruct (builtin c l b); [apply IH|done].
Qed.

(** The examples of a call, against the rules of that call alone. *)
Definition examples_hold (b : builder) (v : PendingExampleValidation) : Prop :=
  let matched e := matches_for_command_with_options (validation_policy b v) e None example_options <> [] in
  Forall matched (matches v) /\ Forall (fun e => ~ matched e) (not_matches v).

Lemma map_err_Ok {A E E'} (f : E -> E') (r : result A E) a : map_err f r = Ok a <-> r = Ok a.
Proof. by destruct r; split; intros [=]; subst. Qed.

Lemma validate_pending_ok (b : builder) v :
  validate_pending (S:=S) try_join debug_rule debug_match b v = Ok tt <-> examples_hold b v.
Proof.
  unfold validate_pending, examples_hold. destruct (examples_validated (S:=S) try_join debug_rule debug_match
    (validation_policy b v) (pending_rules v) (matches v)) as [Hm _].
  destruct (examples_validated (S:=S) try_join debug_rule debug_match
    (validation_policy b v) (pending_rules v) (not_matches v)) as [_ Hn].
  rewrite <- Hm, <- Hn. destruct (validate_not_match_examples _ _ _ _) as [[]|]; cbn [map_err]; [|naive_solver].
  rewrite map_err_Ok. naive_solver.
Qed.

Lemma validate_all_ok (b : builder) vs : validate_all b vs = Ok tt <-> Forall (examples_hold b) vs.
Proof.
  induction vs as [|v vs IH]; cbn [PolicyFiles.validate_all]; [split; [constructor|done]|].
  rewrite Forall_cons, <- validate_pending_ok, <- IH.
  destruct (validate_pending _ _ _ b v) as [[]|]; naive_solver.
Qed.

(** What a file that loads has been checked for. *)
Lemma parse_ok (b b' : builder) id contents :
  parse b id contents = (b', Ok tt) <->
  exists calls, eval_module id contents = Ok (calls, None) /\ run_calls calls b = (b', Ok tt) /\
    Forall (examples_hold b') (drop (length (pending_example_validations b)) (pending_example_validations b')).
Proof.
  unfold PolicyFiles.parse. destruct (eval_module id contents) as [[calls failure]|].
  2: { split; [done|]. by intros (? & ? & _). }
  destruct (run_calls calls b) as [b1 [[]|]] eqn:E.
  2: { split; [done|]. intros (? & [= <- _] & E' & _). congruence. }
  destruct failure; [split; [done|by intros (? & ? & _)]|].
  unfold validate_pending_examples_from. split.
  - intros [= -> Hv]. apply validate_all_ok in Hv. eauto.
  - intros (? & [= <-] & E' & Hv%validate_all_ok). rewrite E in E'. injection E' as ->. by rewrite Hv.
Qed.

(** ** The call of an amendment *)

Lemma parse_pattern_strings (vals : list V) (prefix : list str) :
  List.map unpack_str vals = List.map Some prefix -> prefix <> [] ->
  parse_pattern (S:=S) vals = Ok (List.map Single prefix).
Proof.
  intros Hv Hne. unfold parse_pattern. enough (try_map (parse_pattern_token (S:=S)) vals = Ok (List.map Single prefix)) as ->.
  { by destruct prefix. }
  clear Hne. revert prefix Hv. induction vals as [|v vals IH]; intros [|t prefix] Hv; cbn in Hv; simplify_eq; [done|].
  cbn [try_map List.map]. unfold parse_pattern_token at 1. rewrite H1. by rewrite (IH prefix).
Qed.

Definition allow_call (vals : list V) : Call V := PrefixRuleCall vals (Some (lit "allow")) None None None.

Lemma builtin_allow (vals : list V) c rest span (b : builder) :
  List.map unpack_str vals = List.map Some (c :: rest) ->
  builtin (allow_call vals) span b =
  Ok (add_rule (add_pending_example_validation b [mkRule (mkPattern c (List.map Single rest)) Allow None] [] []
        (option_map error_location_from_file_span span)) (mkRule (mkPattern c (List.map Single rest)) Allow None)).
Proof.
  intros Hv. unfold allow_call, PolicyFiles.builtin, prefix_rule.
  assert (decision_parse (S:=S) (lit "allow") = Ok Allow) as -> by done. cbn [checked_justification is_some_and].
  by rewrite (parse_pattern_strings vals (c :: rest)) by done.
Qed.

(** Adding such a call to a file that loads adds the rule, and nothing fails. *)
Lemma parse_extended id before after calls vals span c rest (b : builder) :
  List.map unpack_str vals = List.map Some (c :: rest) ->
  eval_module id before = Ok (calls, None) ->
  eval_module id after = Ok (calls ++ [(allow_call vals, span)], None) ->
  parse builder_new id before = (b, Ok tt) ->
  exists b', parse builder_new id after = (b', Ok tt) /\ add_prefix_rule (S:=S) (build b) (c :: rest) Allow = Ok (build b').
Proof.
  intros Hv Hb Ha (calls0 & Hb' & Hrun & Hex)%parse_ok. rewrite Hb in Hb'. injection Hb' as <-. rewrite drop_0 in Hex.
  eexists. split.
  - apply parse_ok. exists (calls ++ [(allow_call vals, span)]). split; [done|]. split.
    + rewrite run_calls_app, Hrun. cbn [PolicyFiles.run_calls]. by rewrite (builtin_allow _ c rest).
    + cbn. apply Forall_app. split; [exact Hex|]. repeat constructor.
  - done.
Qed.

End Loading.

(** ** Amendments reload *)

Section Reload.
Context {F IoError : Type} `{RulesFsLaws F IoError file}.
Context {path : Type} `{AbsolutePaths path} {V : Type} `{StarlarkValues V} {S : Type}.
Context (parent : str -> option str) (json_string : str -> option str).
Context (shlex_split : str -> option (list str)) (path_error : str -> str).
Context (try_join : list str -> option str) (debug_rule : PrefixRule -> str) (debug_match : RuleMatch (path:=path) -> str).
Context (eval_module : str -> str -> result (list (Call V * option FileSpan) * option S) S) (builtin_error : Error S -> S).
Notation parse := (parse shlex_split path_error try_join debug_rule debug_match eval_module builtin_error).

(** C30: What an accepted amendment leaves in the policy file is what the running
    policy has.  When appending the prefix succeeds, either its line was in the
    file and the file is as before, or the file is the old one with that line at
    its end; and if the interpreter runs the new file as the old one followed by
    the call of the line, then loading it succeeds and gives the policy that
    adding the prefix to the old policy gives in memory. *)
Theorem amended_file_reloads fs fs' p prefix id calls vals span (b : PolicyBuilder path) :
  let before := default [] (file fs p) in
  blocking_append_allow_prefix_rule parent json_string fs p prefix = (fs', Ok tt) ->
  eval_module id before = Ok (calls, None) ->
  parse builder_new id before = (b, Ok tt) ->
  exists line after, allow_prefix_rule_line (IoError:=IoError) json_string prefix = Ok line /\ file fs' p = Some after /\
    (line ∈ lines before /\ after = before \/
     after = before ++ text_of (pieces_to_write before line) /\ (exists text, after = text ++ line ++ [LF]) /\
     (List.map unpack_str vals = List.map Some prefix ->
      eval_module id after = Ok (calls ++ [(allow_call vals, span)], None) ->
      exists b', parse builder_new id after = (b', Ok tt) /\ add_prefix_rule (S:=S) (build b) prefix Allow = Ok (build b'))).
Proof.
  cbn zeta. unfold blocking_append_allow_prefix_rule. destruct prefix as [|c rest]; [done|]. cbn [is_empty].
  destruct (allow_prefix_rule_line json_string (c :: rest)) as [line|] eqn:El; [|done].
  intros Hw%append_rule_line_file He Hp. exists line, (default [] (file fs p) ++ text_of (pieces_to_write (default [] (file fs p)) line)).
  split; [done|]. split; [done|]. destruct (existsb (fun l => l == line) (lines (default [] (file fs p)))) eqn:Ex.
  - left. apply existsb_exists in Ex as Ex'. destruct Ex' as (l & Hl & ->%bool_decide_eq_true).
    split; [by apply list_elem_of_In|]. unfold pieces_to_write. rewrite Ex. apply app_nil_r.
  - right. split; [done|]. split.
    + unfold pieces_to_write. rewrite Ex. unfold text_of. rewrite List.concat_app. cbn [List.concat].
      rewrite app_nil_r, app_assoc. eauto.
    + intros Hv Ha. exact (parse_extended _ _ _ _ _ _ _ _ _ _ _ _ _ _ _ _ Hv He Ha Hp).
Qed.

End Reload.

(** ** Network rules *)

(** A host that the normalisation leaves alone: no bracket at its start, no dot
    at its end, and not a name with a port. *)
Definition stable_host (h : str) : bool :=
  negb (starts_with (lit "[") h) && negb (ends_with (lit ".") h)
  && negb ((count_char 58 h =? 1) && is_some_and (rsplit_once_char 58 h) (fun '(c, port) => negb (is_empty c) && is_port port)).

Lemma contains_scheme (h : str) : contains_char 47 h = false -> contains (lit "://") h = false.
Proof.
  intros Hc. apply not_true_iff_false. intros (a & b & ->)%contains_true. apply not_true_iff_false in Hc. apply Hc.
  apply contains_char_true. apply elem_of_app. right. set_solver.
Qed.

Lemma lower_id (h : str) : Forall (fun c => is_ascii_uppercase c = false) h -> to_ascii_lowercase h = h.
Proof.
  induction 1 as [|c h Hc _ IH]; [done|]. unfold to_ascii_lowercase in *. cbn. rewrite IH. f_equal.
  unfold to_ascii_lower. by rewrite Hc.
Qed.

Lemma strip_port_stable {S} (raw h : str) : stable_host h = true -> strip_port (S:=S) raw h = Ok h.
Proof.
  unfold stable_host, starts_with, strip_port. destruct (strip_prefix (lit "[") h); [done|]. cbn [is_some negb andb].
  destruct (count_char 58 h =? 1); [|done]. destruct (rsplit_once_char 58 h) as [[c port]|]; [|done].
  cbn. destruct (negb (is_empty c) && is_port port); [|done]. by rewrite andb_false_r.
Qed.

(** Normalising a normalised host again changes nothing, if it is stable. *)
Lemma normalize_stable {S} raw h :
  normalize_network_rule_host (S:=S) raw = Ok h -> stable_host h = true -> normalize_network_rule_host (S:=S) h = Ok h.
Proof.
  intros Hn Hs. destruct (normalized_shape raw h Hn) as [Hne Hf].
  assert (Hno : forall d, (d = 47 \/ d = 63 \/ d = 35 \/ d = 42)%N -> contains_char d h = false).
  { intros d Hd. apply not_true_iff_false. intros Hc%contains_char_true. rewrite Forall_forall in Hf.
    destruct (Hf d Hc) as (? & ? & ? & ? & _). intuition. }
  assert (Hws : existsb is_whitespace h = false).
  { apply not_true_iff_false. intros (c & Hc%list_elem_of_In & Hw)%existsb_exists. rewrite Forall_forall in Hf.
    destruct (Hf c Hc) as (_ & _ & _ & _ & ? & _). congruence. }
  assert (Ht : trim h = h).
  { destruct h as [|a h']; [done|]. destruct (last (a :: h')) as [z|] eqn:El; [|by apply last_None in El].
    rewrite Forall_forall in Hf. assert (z ∈ a :: h') by (apply last_Some_snoc in El as [k ->]; set_solver).
    eapply (trim_id _ a z); [done|apply Hf; set_solver|exact El|by apply Hf]. }
  unfold normalize_network_rule_host. rewrite Ht, (proj2 (is_empty_false h) Hne), contains_scheme by auto.
  rewrite !Hno by auto. cbn [orb]. rewrite strip_port_stable by done.
  assert (Hd : trim_end_by (N.eqb 46) h = h).
  { destruct (last h) as [z|] eqn:El; [|by apply last_None in El]. apply last_Some_snoc in El as [k ->].
    apply trim_end_by_snoc. apply not_true_iff_false. intros <-%N.eqb_eq. unfold stable_host in Hs.
    rewrite (proj2 (ends_with_true (lit ".") (k ++ [46%N]))) in Hs by (by exists k). by rewrite andb_false_r in Hs. }
  rewrite Hd, Ht, lower_id by (eapply Forall_impl; [exact Hf|naive_solver]).
  by rewrite (proj2 (is_empty_false h) Hne), Hno, Hws by auto.
Qed.

Section Network.
Context {path : Type} {S : Type}.

Lemma decision_word_parse (d : Decision) : parse_network_rule_decision (S:=S) (decision_word d) = Ok d.
Proof. by destruct d. Qed.

(** A network rule that was added to the running policy and written to the
    file is, when the file is loaded, the same rule, provided its host is
    stable; for other hosts the two policies differ ([network_rule_drifts]). *)
Theorem network_rule_reloads (b : PolicyBuilder path) (p : Policy) raw h proto d j :
  normalize_network_rule_host (S:=S) raw = Ok h -> stable_host h = true ->
  add_network_rule (S:=S) (build b) raw proto d j = Ok p ->
  exists b', network_rule (S:=S) h (as_policy_string proto) (decision_word d) j b = Ok b' /\ build b' = p.
Proof.
  intros Hn Hs. unfold add_network_rule. rewrite Hn. unfold network_rule, checked_justification.
  destruct (is_some_and j _); [done|]. intros [= <-].
  rewrite protocol_of_string, decision_word_parse, (normalize_stable raw h) by done. by eexists.
Qed.

End Network.

(** A host that is written as it was normalised and read back as another. *)
Example network_rule_drifts :
  normalize_network_rule_host (S:=unit) (lit "internal:8080.") = Ok (lit "internal:8080") /\
  normalize_network_rule_host (S:=unit) (lit "internal:8080") = Ok (lit "internal").
Proof. by vm_compute. Qed.

(** ** Concrete files *)

(** One file, whose directory exists. *)
#[local] Instance one_file : RulesFs (option str) unit := {|
  already_exists _ := true;
  create_dir _ _ := Err tt;
  open_append fs _ := Ok (Some (default [] fs));
  lock_file _ _ := Ok tt;
  seek_start _ _ := Ok tt;
  read_to_string fs _ := match fs with Some contents => Ok contents | None => Err tt end;
  write_all fs _ text := (option_map (fun contents => contents ++ text) fs, Ok tt);
|}.

#[local] Instance one_file_laws : RulesFsLaws (option str) unit (fun fs _ => fs).
Proof.
  split.
  - done.
  - by intros fs p fs' [= <-].
  - intros [?|] p contents; [by intros [= <-]|done].
  - by intros fs p text fs' contents -> [= <-].
Qed.

#[local] Instance string_values : StarlarkValues str := {| unpack_str v := Some v; list_content _ := None; get_type _ := lit "string" |}.

Definition quoted (s : str) : option str := Some (QUOTE ++ s ++ QUOTE).
Definition git_status : list str := [lit "git"; lit "status"].
Definition git_status_line : str :=
  lit "prefix_rule(pattern=[" ++ QUOTE ++ lit "git" ++ QUOTE ++ lit ", " ++ QUOTE ++ lit "status" ++ QUOTE
  ++ lit "], decision=" ++ QUOTE ++ lit "allow" ++ QUOTE ++ lit ")" ++ [LF].

(** An interpreter that knows the empty file and the one with the line. *)
Definition two_files (_ contents : str) : result (list (Call str * option FileSpan) * option unit) unit :=
  if contents == [] then Ok ([], None)
  else if contents == git_status_line then Ok ([(allow_call git_status, None)], None)
  else Err tt.

Notation parse_two := (parse (path:=list N) (H:=slash_paths) (fun _ => None) (fun s => s) (fun _ => None) (fun _ => [])
                         (fun _ => []) two_files (fun _ => tt)).

Lemma amended_file_reloads_witness :
  exists b' : PolicyBuilder (list N), parse_two builder_new (lit "default.rules") git_status_line = (b', Ok tt) /\
    add_prefix_rule (S:=unit) policy_empty git_status Allow = Ok (build b').
Proof.
  destruct (amended_file_reloads (H1:=slash_paths) (fun _ => Some (lit "rules")) quoted (fun _ => None) (fun s => s) (fun _ => None) (fun _ => [])
    (fun _ => []) two_files (fun _ => tt) None (Some git_status_line) (lit "rules/default.rules") git_status
    (lit "default.rules") [] git_status None builder_new) as (line & after & El & Ea & Hcase); [by vm_compute..|].
  injection Ea as <-. destruct Hcase as [[_ Hc]|(_ & _ & Hload)]; [discriminate Hc|]. apply Hload; by vm_compute.
Defined.

Lemma network_rule_reloads_witness :
  exists b' : PolicyBuilder (list N),
    network_rule (S:=unit) (lit "example.com") (lit "https") (lit "deny") None builder_new = Ok b' /\
    build b' = mkPolicy ∅ [mkNetworkRule (lit "example.com") Https Forbidden None] ∅.
Proof.
  apply (network_rule_reloads (S:=unit) builder_new (mkPolicy ∅ [mkNetworkRule (lit "example.com") Https Forbidden None] ∅)
    (lit "Example.com.") (lit "example.com") Https Forbidden None); by vm_compute.
Defined.

End PolicyFilesFacts.
