(* ===== verification/Readiness.v ===== *)
(** The readiness flag ([utils/readiness/src/lib.rs]): a flag that tasks subscribe
    to with tokens, that one authorised token marks ready and that others wait
    for.  Tasks share the flag, so the model is a machine of interleaved tasks: a
    program counter per task, one transition per access to shared state (an
    atomic load, store or swap, taking or releasing the token lock, a broadcast),
    and a log of the values the calls returned.  Accesses to the atomics are
    sequentially consistent here; the source uses acquire and release orderings.

    The broadcast channel is tokio's [watch], which is outside the repository: the
    class [Watch] has the operations the code calls and, as laws, what their
    documentation promises, among them that sending without a receiver fails and
    leaves the value as it was. *)

From stdpp Require Import base list option numbers gmap sets relations.
From S2P Require Import Prelude Machine.

Module Readiness.

Local Open Scope Z_scope.

(** ** The watch channel *)

(** A receiver is its last seen version; [changed] resolves when the version of
    the channel is another one. *)
Class Watch (W : Type) := {
  channel : bool -> W;
  send : bool -> W -> W;
  subscribe_rx : W -> W;
  drop_rx : W -> W;
  value : W -> bool;
  version : W -> Z;
  receivers : W -> nat }.

Class WatchLaws (W : Type) `{Watch W} := {
  channel_value b : value (channel b) = b;
  channel_receivers b : receivers (channel b) = 1%nat;
  subscribe_value w : value (subscribe_rx w) = value w;
  subscribe_version w : version (subscribe_rx w) = version w;
  subscribe_receivers w : receivers (subscribe_rx w) = S (receivers w);
  drop_value w : value (drop_rx w) = value w;
  drop_version w : version (drop_rx w) = version w;
  drop_receivers w : receivers (drop_rx w) = pred (receivers w);
  send_fails b w : receivers w = 0%nat -> send b w = w;
  send_value b w : receivers w <> 0%nat -> value (send b w) = b;
  send_version b w : receivers w <> 0%nat -> version w < version (send b w);
  send_receivers b w : receivers (send b w) = receivers w }.

(** ** The flag *)

(** [Token(i32)]. *)
Definition Token := Z.

Definition i32_max : Z := 2 ^ 31 - 1.

(** [AtomicI32::fetch_add(1)] wraps around. *)
Definition wrap_i32 (a : Z) : Z := (a + 2 ^ 31) mod 2 ^ 32 - 2 ^ 31.

Inductive ReadinessError := TokenLockFailed | FlagAlreadyReady.

Record ReadinessFlag (W : Type) := mkFlag {
  ready : bool;
  next_id : Z;
  tokens : gset Token;
  tx : W }.
Arguments mkFlag {W} _ _ _ _.
Arguments ready {W} _.
Arguments next_id {W} _.
Arguments tokens {W} _.
Arguments tx {W} _.

(** The loop of [subscribe] that draws ids until one is non-zero and new; [None]
    when the fuel runs out. *)
Fixpoint fresh_token (fuel : nat) (next : Z) (tokens : gset Token) : option (Token * Z) :=
  match fuel with
  | O => None
  | S fuel =>
      let token := next in
      let next := wrap_i32 (next + 1) in
      if negb (bool_decide (token = 0)) && bool_decide (token ∉ tokens)
      then Some (token, next)
      else fresh_token fuel next tokens
  end.

(** ** Tasks *)

Inductive Op :=
| IsReady
| Subscribe
| MarkReady (token : Token)
| WaitReady.

Inductive Ret :=
| RBool (b : bool)
| RToken (r : result Token ReadinessError)
| RMarked (r : result bool ReadinessError)
| RUnit.

(** Program counters.  [is_ready] is called on its own or by [wait_ready]
    ([waiting = true]); [seen] is the receiver of a waiter. *)
Inductive Pc :=
| Idle
| IrLoad (waiting : bool)
| IrTryLock (waiting : bool)
| IrSwap (waiting : bool)
| IrDrop (waiting : bool) (was_ready : bool)
| IrSend (waiting : bool)
| IrReload (waiting : bool)
| SubLoad
| SubLock
| SubRecheck
| SubDraw
| MarkLoad (token : Token)
| MarkLock (token : Token)
| MarkRemove (token : Token)
| MarkStore (token : Token)
| MarkClear (token : Token)
| MarkSend (token : Token)
| WaitSubscribe
| WaitBorrow (seen : Z)
| WaitChanged (seen : Z)
| WaitCheck (seen : Z).

Definition Task := nat.

Inductive Action := Call (op : Op) | Run | Timeout.

Record State (W : Type) := mkState {
  flag : ReadinessFlag W;
  lock : option Task;
  pcs : Task -> Pc;
  log : list (Task * Op * Ret) }.
Arguments mkState {W} _ _ _ _.
Arguments flag {W} _.
Arguments lock {W} _.
Arguments pcs {W} _ _.
Arguments log {W} _.

Definition goto {A} (f : Task -> A) (t : Task) (p : A) : Task -> A :=
  fun u => if decide (u = t) then p else f u.

Section machine.
Context {W : Type} `{Watch W}.
Implicit Types (f : ReadinessFlag W) (s : State W).

(** [ReadinessFlag::new]: the receiver of the channel is dropped on return. *)
Definition new : ReadinessFlag W := mkFlag false 1 ∅ (drop_rx (channel false)).

Definition set_ready f : ReadinessFlag W := mkFlag true (next_id f) (tokens f) (tx f).
Definition set_tokens (ts : gset Token) f : ReadinessFlag W := mkFlag (ready f) (next_id f) ts (tx f).
Definition set_tx (w : W) f : ReadinessFlag W := mkFlag (ready f) (next_id f) (tokens f) w.
Definition broadcast f : ReadinessFlag W := set_tx (send true (tx f)) f.

Definition start : State W := mkState new None (fun _ => Idle) [].

(** Moves of task [t]: to the next counter, with a new flag, and to a return. *)
Definition move (t : Task) (p : Pc) s : State W := mkState (flag s) (lock s) (goto (pcs s) t p) (log s).
Definition update (t : Task) (f : ReadinessFlag W) (p : Pc) s : State W := mkState f (lock s) (goto (pcs s) t p) (log s).
Definition acquire (t : Task) (p : Pc) s : State W := mkState (flag s) (Some t) (goto (pcs s) t p) (log s).
Definition release (t : Task) (f : ReadinessFlag W) (p : Pc) s : State W := mkState f None (goto (pcs s) t p) (log s).
Definition return_ (t : Task) (op : Op) (r : Ret) s : State W :=
  mkState (flag s) (lock s) (goto (pcs s) t Idle) (log s ++ [(t, op, r)]).

(** [is_ready] answers [b]: to its caller, or to [wait_ready]. *)
Definition is_ready_returns (t : Task) (waiting b : bool) s : State W :=
  match waiting, b with
  | false, _ => return_ t IsReady (RBool b) s
  | true, true => return_ t WaitReady RUnit s
  | true, false => move t WaitSubscribe s
  end.

(** A call enters a method. *)
Definition enter (op : Op) : Pc :=
  match op with
  | IsReady => IrLoad false
  | Subscribe => SubLoad
  | MarkReady token => MarkLoad token
  | WaitReady => IrLoad true
  end.

(** [wait_ready] returns and its receiver is dropped. *)
Definition wait_returns (t : Task) s : State W :=
  return_ t WaitReady RUnit (mkState (set_tx (drop_rx (tx (flag s))) (flag s)) (lock s) (pcs s) (log s)).

(** One transition of [is_ready]. *)
Definition step_is_ready (t : Task) s : option (State W) :=
  let f := flag s in
  match pcs s t with
  | IrLoad w => Some (if ready f then is_ready_returns t w true s else move t (IrTryLock w) s)
  | IrTryLock w =>
      match lock s with
      | None => Some (if bool_decide (tokens f = ∅) then acquire t (IrSwap w) s else move t (IrReload w) s)
      | Some _ => Some (move t (IrReload w) s)
      end
  | IrSwap w => Some (update t (set_ready f) (IrDrop w (ready f)) s)
  | IrDrop w was_ready =>
      let s := release t f (IrSend w) s in
      Some (if was_ready then is_ready_returns t w true s else s)
  | IrSend w => Some (is_ready_returns t w true (update t (broadcast f) (IrSend w) s))
  | IrReload w => Some (is_ready_returns t w (ready f) s)
  | _ => None
  end.

(** One transition of [subscribe]; the fuel of the draw exceeds what it can need. *)
Definition step_subscribe (t : Task) s : option (State W) :=
  let f := flag s in
  match pcs s t with
  | SubLoad => Some (if ready f then return_ t Subscribe (RToken (Err FlagAlreadyReady)) s else move t SubLock s)
  | SubLock => match lock s with None => Some (acquire t SubRecheck s) | Some _ => None end
  | SubRecheck =>
      Some (if ready f then return_ t Subscribe (RToken (Err FlagAlreadyReady)) (release t f Idle s)
            else move t SubDraw s)
  | SubDraw =>
      match fresh_token (size (tokens f) + 2) (next_id f) (tokens f) with
      | Some (token, next) =>
          Some (return_ t Subscribe (RToken (Ok token))
                  (release t (mkFlag (ready f) next ({[token]} ∪ tokens f) (tx f)) Idle s))
      | None => None
      end
  | _ => None
  end.

(** One transition of [mark_ready]. *)
Definition step_mark_ready (t : Task) s : option (State W) :=
  let f := flag s in
  match pcs s t with
  | MarkLoad token =>
      Some (if ready f then return_ t (MarkReady token) (RMarked (Ok false)) s
            else if bool_decide (token = 0) then return_ t (MarkReady token) (RMarked (Ok false)) s
            else move t (MarkLock token) s)
  | MarkLock token => match lock s with None => Some (acquire t (MarkRemove token) s) | Some _ => None end
  | MarkRemove token =>
      Some (if bool_decide (token ∈ tokens f)
            then update t (set_tokens (tokens f ∖ {[token]}) f) (MarkStore token) s
            else return_ t (MarkReady token) (RMarked (Ok false)) (release t f Idle s))
  | MarkStore token => Some (update t (set_ready f) (MarkClear token) s)
  | MarkClear token => Some (release t (set_tokens ∅ f) (MarkSend token) s)
  | MarkSend token =>
      Some (return_ t (MarkReady token) (RMarked (Ok true)) (update t (broadcast f) (MarkSend token) s))
  | _ => None
  end.

(** One transition of [wait_ready] once [is_ready] said no. *)
Definition step_wait_ready (t : Task) s : option (State W) :=
  let f := flag s in
  match pcs s t with
  | WaitSubscribe => Some (update t (set_tx (subscribe_rx (tx f)) f) (WaitBorrow (version (tx f))) s)
  | WaitBorrow seen => Some (if value (tx f) then wait_returns t s else move t (WaitChanged seen) s)
  | WaitChanged seen =>
      if bool_decide (version (tx f) = seen) then None else Some (move t (WaitCheck (version (tx f))) s)
  | WaitCheck seen => Some (if value (tx f) then wait_returns t s else move t (WaitChanged seen) s)
  | _ => None
  end.

(** [time::timeout] on the lock elapses. *)
Definition step_timeout (t : Task) s : option (State W) :=
  match pcs s t with
  | SubLock => Some (return_ t Subscribe (RToken (Err TokenLockFailed)) s)
  | MarkLock token => Some (return_ t (MarkReady token) (RMarked (Err TokenLockFailed)) s)
  | _ => None
  end.

(** What task [t] does on an action; [None] when it cannot. *)
Definition step (t : Task) (a : Action) s : option (State W) :=
  match a with
  | Call op => match pcs s t with Idle => Some (move t (enter op) s) | _ => None end
  | Timeout => step_timeout t s
  | Run =>
      match pcs s t with
      | Idle => None
      | IrLoad _ | IrTryLock _ | IrSwap _ | IrDrop _ _ | IrSend _ | IrReload _ => step_is_ready t s
      | SubLoad | SubLock | SubRecheck | SubDraw => step_subscribe t s
      | MarkLoad _ | MarkLock _ | MarkRemove _ | MarkStore _ | MarkClear _ | MarkSend _ => step_mark_ready t s
      | WaitSubscribe | WaitBorrow _ | WaitChanged _ | WaitCheck _ => step_wait_ready t s
      end
  end.

(** A schedule: who acts next; a task that cannot act is passed over. *)
Fixpoint exec (sched : list (Task * Action)) s : State W :=
  match sched with
  | [] => s
  | (t, a) :: sched => exec sched (default s (step t a s))
  end.

Inductive reachable : State W -> Prop :=
| reachable_start : reachable start
| reachable_step s t a s' : reachable s -> step t a s = Some s' -> reachable s'.

End machine.

End Readiness.
