(* ===== verification/ReadinessFacts.v ===== *)
(** Theorems on the readiness flag: the invariant of the machine, that readiness is
    never taken back and granted at most once, that drawing a token terminates,
    and when a waiter is woken. *)

From stdpp Require Import base list option numbers gmap sets fin_sets.
From S2P Require Import Prelude Machine Readiness.

Module ReadinessFacts.
Import Readiness.

Local Open Scope Z_scope.

(** ** Drawing a token *)

Lemma wrap_i32_range a : - 2 ^ 31 <= wrap_i32 a <= i32_max.
Proof. unfold wrap_i32, i32_max. pose proof (Z.mod_pos_bound (a + 2 ^ 31) (2 ^ 32) eq_refl). lia. Qed.

Lemma wrap_i32_id a : - 2 ^ 31 <= a <= i32_max -> wrap_i32 a = a.
Proof. unfold wrap_i32, i32_max. intros. rewrite Z.mod_small; lia. Qed.

Lemma wrap_i32_add a b : wrap_i32 (wrap_i32 a + b) = wrap_i32 (a + b).
Proof.
  unfold wrap_i32. f_equal.
  replace ((a + 2 ^ 31) mod 2 ^ 32 - 2 ^ 31 + b + 2 ^ 31) with ((a + 2 ^ 31) mod 2 ^ 32 + b) by lia.
  rewrite Zplus_mod_idemp_l. f_equal. lia.
Qed.

(** Ids less than [2^32] draws apart differ. *)
Lemma wrap_i32_inj n i j :
  0 <= i < 2 ^ 32 -> 0 <= j < 2 ^ 32 -> wrap_i32 (n + i) = wrap_i32 (n + j) -> i = j.
Proof.
  unfold wrap_i32. intros Hi Hj E.
  assert (E' : (n + i + 2 ^ 31) mod 2 ^ 32 = (n + j + 2 ^ 31) mod 2 ^ 32) by lia.
  pose proof (Z.div_mod (n + i + 2 ^ 31) (2 ^ 32)).
  pose proof (Z.div_mod (n + j + 2 ^ 31) (2 ^ 32)). nia.
Qed.

Lemma fresh_token_Some fuel next ts token next' :
  fresh_token fuel next ts = Some (token, next') ->
  token <> 0 /\ token ∉ ts /\ exists i : nat, (i < fuel)%nat /\ next' = wrap_i32 (next + 1 + Z.of_nat i).
Proof.
  revert next. induction fuel as [|fuel IH]; intros next; cbn [fresh_token]; [done|].
  destruct (_ && _) eqn:E.
  - intros [= <- <-]. bool_to_prop. split_and!; [done..|]. exists 0%nat. split; [lia|]. f_equal. lia.
  - intros (? & ? & i & ? & ->)%IH. split_and!; [done..|]. exists (S i). split; [lia|].
    rewrite <- Z.add_assoc, wrap_i32_add. f_equal. lia.
Qed.

(** The ids a draw that runs out of fuel has gone through. *)
Definition drawn (fuel : nat) (next : Z) : list Z :=
  (fun i => wrap_i32 (next + Z.of_nat i)) <$> seq 0 fuel.

Lemma fresh_token_None fuel next ts :
  - 2 ^ 31 <= next <= i32_max -> fresh_token fuel next ts = None -> forall x, x ∈ drawn fuel next -> x = 0 \/ x ∈ ts.
Proof.
  intros Hr. assert (Hn : wrap_i32 next = next) by (by apply wrap_i32_id). clear Hr. revert next Hn.
  induction fuel as [|fuel IH]; intros next Hn; cbn [fresh_token]; [intros _ x Hx; by apply elem_of_nil in Hx|].
  destruct (_ && _) eqn:E; [done|]. intros H x. unfold drawn. cbn [seq fmap list_fmap].
  rewrite <- seq_shift, elem_of_cons. intros [->|Hx].
  - replace (next + Z.of_nat 0) with next by lia. rewrite Hn.
    apply andb_false_iff in E as [E|E]; bool_to_prop; [by left|right]. by apply dec_stable.
  - eapply (IH (wrap_i32 (next + 1))); [|exact H|].
    + apply wrap_i32_id, wrap_i32_range.
    + apply list_elem_of_fmap in Hx as (i & -> & Hi). apply list_elem_of_In, in_map_iff in Hi as (k & <- & Hk).
      apply list_elem_of_fmap. exists k. split; [|by apply list_elem_of_In].
      rewrite wrap_i32_add. f_equal. lia.
Qed.

Lemma drawn_NoDup fuel next : Z.of_nat fuel <= 2 ^ 32 -> NoDup (drawn fuel next).
Proof.
  intros Hf. unfold drawn. apply NoDup_fmap_2_strong; [|apply NoDup_seq].
  intros i j Hi Hj E. apply elem_of_seq in Hi, Hj. apply wrap_i32_inj in E; lia.
Qed.

(** [subscribe]'s loop draws ids with wrap-around until one is non-zero and
    unused, and it terminates: with fewer than 2^32 - 1 tokens out, at most one
    more draw than the tokens and the reserved zero can spoil is needed. *)
Theorem fresh_token_total next ts :
  - 2 ^ 31 <= next <= i32_max -> Z.of_nat (size ts) + 2 <= 2 ^ 32 ->
  exists token next', fresh_token (size ts + 2) next ts = Some (token, next') /\
    token <> 0 /\ token ∉ ts /\ - 2 ^ 31 <= next' <= i32_max.
Proof.
  intros Hn Hs. destruct (fresh_token _ _ _) as [[token next']|] eqn:E.
  - exists token, next'. split; [done|]. apply fresh_token_Some in E as (? & ? & i & _ & ->).
    split_and!; [done..|apply wrap_i32_range|apply wrap_i32_range].
  - exfalso. pose proof (fresh_token_None _ _ _ Hn E) as Hin.
    pose proof (drawn_NoDup (size ts + 2) next ltac:(lia)) as Hd.
    assert (Hle : (size (list_to_set (C := gset Z) (drawn (size ts + 2) next)) <= size ({[0%Z]} ∪ ts))%nat).
    { apply subseteq_size. intros x Hx%elem_of_list_to_set. apply Hin in Hx. set_solver. }
    rewrite size_list_to_set in Hle by done. unfold drawn in Hle. rewrite length_fmap, length_seq in Hle.
    pose proof (size_union_alt {[0%Z]} ts). rewrite size_singleton in *.
    pose proof (subseteq_size (ts ∖ {[0%Z]}) ts ltac:(set_solver)). lia.
Qed.

Lemma fresh_token_total_witness :
  exists token next', fresh_token (size ({[i32_max]} : gset Z) + 2) i32_max {[i32_max]} = Some (token, next') /\
    token <> 0 /\ token ∉ ({[i32_max]} : gset Z) /\ - 2 ^ 31 <= next' <= i32_max.
Proof. apply (fresh_token_total i32_max {[i32_max]}); [by vm_compute|rewrite size_singleton; by vm_compute]. Defined.

(** ** The invariant *)

Lemma goto_eq {A} (f : Task -> A) t p : goto f t p t = p.
Proof. unfold goto. by rewrite decide_True. Qed.

Lemma goto_ne {A} (f : Task -> A) t p u : u <> t -> goto f t p u = f u.
Proof. unfold goto. intros. by rewrite decide_False. Qed.

(** The counters inside the critical section of the token lock. *)
Definition critical (p : Pc) : bool :=
  match p with
  | IrSwap _ | IrDrop _ _ | SubRecheck | SubDraw | MarkRemove _ | MarkStore _ | MarkClear _ => true
  | _ => false
  end.

(** The counters of a [mark_ready] that has consumed its token. *)
Definition marking (p : Pc) : option Token :=
  match p with MarkStore k | MarkClear k | MarkSend k => Some k | _ => None end.

(** The counters of a waiter that holds a receiver, with what it has seen. *)
Definition receiving (p : Pc) : option Z :=
  match p with WaitBorrow v | WaitChanged v | WaitCheck v => Some v | _ => None end.

(** What a counter says about the flag. *)
Definition pc_ok {W} (f : ReadinessFlag W) (p : Pc) : Prop :=
  match p with
  | IrSwap _ => tokens f = ∅
  | IrDrop _ _ | MarkClear _ | MarkSend _ => ready f = true
  | SubDraw | MarkStore _ => ready f = false
  | _ => True
  end.

(** A successful [mark_ready] in the log. *)
Definition marked (e : Task * Op * Ret) : option Token :=
  match e with (_, MarkReady k, RMarked (Ok true)) => Some k | _ => None end.

Definition granted (l : list (Task * Op * Ret)) (k : Token) : Prop :=
  exists t, (t, Subscribe, RToken (Ok k)) ∈ l.

Section machine.
Context {W : Type} `{WatchLaws W}.
Implicit Types (s : State W).

Record inv s : Prop := {
  inv_lock t : critical (pcs s t) = true <-> lock s = Some t;
  inv_next : - 2 ^ 31 <= next_id (flag s) <= i32_max;
  inv_tokens k : k ∈ tokens (flag s) -> k <> 0 /\ granted (log s) k;
  inv_empty : ready (flag s) = true -> tokens (flag s) = ∅ \/ exists t k, pcs s t = MarkClear k;
  inv_pc t : pc_ok (flag s) (pcs s t);
  inv_marking t k : marking (pcs s t) = Some k -> granted (log s) k /\ omap marked (log s) = [];
  inv_marking_one t u : is_Some (marking (pcs s t)) -> is_Some (marking (pcs s u)) -> t = u;
  inv_log : (length (omap marked (log s)) <= 1)%nat;
  inv_log_granted k : k ∈ omap marked (log s) -> granted (log s) k;
  inv_log_ready : omap marked (log s) <> [] -> ready (flag s) = true }.

Lemma inv_start : inv start.
Proof. split; simpl; try done; set_solver. Qed.

Lemma granted_mono l k x : granted l k -> granted (l ++ [x]) k.
Proof. intros [t Ht]. exists t. set_solver. Qed.

(** The transitions, one goal each, with the counter of the acting task known. *)
Ltac step_cases Hs :=
  match type of Hs with
  | step ?t ?a ?s = Some _ =>
      unfold step, step_is_ready, is_ready_returns in Hs;
      destruct a; cbn [step] in Hs; unfold step_timeout in Hs;
      let E := fresh "Epc" in
      destruct (pcs s t) eqn:E; try discriminate Hs;
      unfold step_is_ready, step_subscribe, step_mark_ready, step_wait_ready in Hs; rewrite ?E in Hs;
      repeat match type of Hs with
             | context [match ?x with _ => _ end] =>
                 lazymatch x with
                 | context [match _ with _ => _ end] => fail
                 | _ => destruct x eqn:?
                 end
             end; try discriminate Hs; apply (inj Some) in Hs
  end; unfold is_ready_returns, wait_returns, return_, update, acquire, release, move, broadcast, set_tx,
         set_tokens, set_ready in *; simpl in *; subst; simpl in *; bool_to_prop;
  repeat match goal with E : lock _ = _ |- _ => rewrite E in * end.

Lemma inv_lock_step s t a s' : inv s -> step t a s = Some s' -> forall u, critical (pcs s' u) = true <-> lock s' = Some u.
Proof.
  intros I Hs u. pose proof (inv_lock _ I t) as It. pose proof (inv_lock _ I u) as Iu.
  step_cases Hs; destruct (decide (u = t)) as [->|]; rewrite ?goto_eq, ?goto_ne by done; simpl in *;
    try destruct op; simpl in *; intuition congruence.
Qed.

(** The log only grows, by what the acting task returns. *)
Lemma step_log s t a s' : step t a s = Some s' -> exists l, log s' = log s ++ l.
Proof. intros Hs. step_cases Hs; try (by exists []; rewrite app_nil_r); eauto. Qed.

Lemma granted_step s t a s' k : step t a s = Some s' -> granted (log s) k -> granted (log s') k.
Proof. intros [l ->]%step_log [u Hu]. exists u. set_solver. Qed.

Lemma inv_next_step s t a s' : inv s -> step t a s = Some s' -> - 2 ^ 31 <= next_id (flag s') <= i32_max.
Proof.
  intros I Hs. pose proof (inv_next _ I) as In. step_cases Hs; try done.
  match goal with E : fresh_token _ _ _ = _ |- _ => apply fresh_token_Some in E as (_ & _ & i & _ & ->) end. apply wrap_i32_range.
Qed.

Lemma inv_tokens_step s t a s' k :
  inv s -> step t a s = Some s' -> k ∈ tokens (flag s') -> k <> 0 /\ granted (log s') k.
Proof.
  intros I Hs Hk.
  assert (Hnew : k ∈ tokens (flag s) \/ k <> 0 /\ granted (log s') k).
  { step_cases Hs; try (left; set_solver).
    apply elem_of_union in Hk as [Hk|Hk]; [right|by left]. apply elem_of_singleton in Hk as ->.
    match goal with E : fresh_token _ _ _ = _ |- _ => apply fresh_token_Some in E as (? & _ & _) end. split; [done|]. exists t. set_solver. }
  destruct Hnew as [Hk'|]; [|done]. destruct (inv_tokens _ I _ Hk'). eauto using granted_step.
Qed.

Lemma others_outside s t u : inv s -> critical (pcs s t) = true -> u <> t -> critical (pcs s u) = false.
Proof.
  intros I Ht%(inv_lock _ I) Hne. destruct (critical (pcs s u)) eqn:E; [|done].
  apply (inv_lock _ I) in E. congruence.
Qed.

Lemma pc_ok_outside (f f' : ReadinessFlag W) p :
  critical p = false -> (ready f = true -> ready f' = true) -> pc_ok f p -> pc_ok f' p.
Proof. destruct p; simpl; auto; done. Qed.

(** Inside the lock, a flag that is ready has no token. *)
Lemma ready_no_tokens s t : inv s -> lock s = Some t ->
  (forall k, pcs s t <> MarkClear k) -> ready (flag s) = true -> tokens (flag s) = ∅.
Proof.
  intros I Hl Hc Hr. destruct (inv_empty _ I Hr) as [|(u & k & E)]; [done|].
  assert (Hu : lock s = Some u) by (apply (inv_lock _ I); by rewrite E).
  destruct (Hc k). congruence.
Qed.

Lemma inv_pc_step s t a s' u : inv s -> step t a s = Some s' -> pc_ok (flag s') (pcs s' u).
Proof.
  intros I Hs. pose proof (inv_pc _ I u) as Iu. pose proof (inv_pc _ I t) as It.
  pose proof (others_outside _ t u I) as Ho.
  pose proof (proj1 (inv_lock _ I t)) as Lt.
  step_cases Hs; destruct (decide (u = t)) as [->|]; rewrite ?goto_eq, ?goto_ne by done; simpl in *; try done;
    try (by destruct op); try (by apply (pc_ok_outside (flag s)); auto).
  destruct (ready (flag s)) eqn:Er; [|done]. exfalso.
  pose proof (ready_no_tokens s t I ltac:(auto)) as Hn. rewrite Epc, Er in Hn.
  specialize (Hn ltac:(done) eq_refl). set_solver.
Qed.

Lemma inv_empty_step s t a s' :
  inv s -> step t a s = Some s' -> ready (flag s') = true ->
  tokens (flag s') = ∅ \/ exists u k, pcs s' u = MarkClear k.
Proof.
  intros I Hs Hr. pose proof (inv_empty _ I) as Ie. pose proof (inv_pc _ I t) as It.
  assert (Hkeep : (exists u k, pcs s u = MarkClear k) -> (forall k, pcs s t <> MarkClear k) ->
            exists u k, u <> t /\ pcs s u = MarkClear k).
  { intros (u & k & E) Hne. exists u, k. split; [|done]. intros ->. by destruct (Hne k). }
  step_cases Hs; auto; try congruence;
    try (destruct (Ie ltac:(auto)) as [|Ht]; [left; set_solver|]; destruct (Hkeep Ht ltac:(done)) as (u & k & Hu & E);
         right; exists u, k; by rewrite !goto_ne).
  right. exists t, token. by rewrite goto_eq.
Qed.

(** A task is marking because it was, or because it has just consumed a token. *)
Lemma step_marking s t a s' u k :
  step t a s = Some s' -> marking (pcs s' u) = Some k ->
  marking (pcs s u) = Some k \/
  (u = t /\ pcs s t = MarkRemove k /\ k ∈ tokens (flag s)).
Proof.
  intros Hs. step_cases Hs; destruct (decide (u = t)) as [->|]; rewrite ?goto_eq, ?goto_ne by done; simpl;
    try (by destruct op); rewrite ?Epc; simpl; naive_solver.
Qed.

(** The log of successes grows when a marking task returns, and only then. *)
Lemma step_marked s t a s' :
  step t a s = Some s' ->
  omap marked (log s') = omap marked (log s) \/
  exists k, pcs s t = MarkSend k /\ pcs s' t = Idle /\ omap marked (log s') = omap marked (log s) ++ [k].
Proof.
  intros Hs. step_cases Hs; rewrite ?omap_app; simpl; rewrite ?app_nil_r; auto.
  right. exists token. by rewrite goto_eq.
Qed.

(** Readiness is not reversible. *)
Lemma step_ready s t a s' : step t a s = Some s' -> ready (flag s) = true -> ready (flag s') = true.
Proof. intros Hs. step_cases Hs; auto; congruence. Qed.

Lemma inv_marking_step s t a s' u k :
  inv s -> step t a s = Some s' -> marking (pcs s' u) = Some k -> granted (log s') k /\ omap marked (log s') = [].
Proof.
  intros I Hs Hm. pose proof (step_marked _ _ _ _ Hs) as Hlog.
  assert (Hno : omap marked (log s) = [] /\ granted (log s) k).
  { destruct (step_marking _ _ _ _ _ _ Hs Hm) as [Hm'|(-> & Epc & Hk)].
    - destruct (inv_marking _ I _ _ Hm'). done.
    - split; [|by apply (inv_tokens _ I)]. destruct (omap marked (log s)) eqn:E; [done|exfalso].
      pose proof (inv_log_ready _ I ltac:(by rewrite E)) as Hr.
      assert (Hl : lock s = Some t) by (apply (inv_lock _ I); by rewrite Epc).
      pose proof (ready_no_tokens s t I Hl ltac:(by rewrite Epc) Hr). set_solver. }
  destruct Hno as [Hno Hg]. split; [by eapply granted_step|].
  destruct Hlog as [->|(k' & Epc & Epc' & _)]; [done|].
  assert (t = u) as ->.
  { apply (inv_marking_one _ I); [by rewrite Epc|].
    destruct (step_marking _ _ _ _ _ _ Hs Hm) as [->|(_ & E & _)]; [done|congruence]. }
  by rewrite Epc' in Hm.
Qed.

(** Nobody is marking when a token is about to be consumed. *)
Lemma marking_excludes s t u k :
  inv s -> pcs s t = MarkRemove k -> k ∈ tokens (flag s) -> marking (pcs s u) = None.
Proof.
  intros I Et Hk. assert (Hl : lock s = Some t) by (apply (inv_lock _ I); by rewrite Et).
  pose proof (inv_pc _ I u) as Iu. pose proof (proj1 (inv_lock _ I u)) as Lu.
  destruct (pcs s u) eqn:Eu; simpl in *; try done.
  1,2: specialize (Lu eq_refl); congruence.
  pose proof (ready_no_tokens s t I Hl ltac:(by rewrite Et) Iu). set_solver.
Qed.

Lemma inv_marking_one_step s t a s' u v :
  inv s -> step t a s = Some s' -> is_Some (marking (pcs s' u)) -> is_Some (marking (pcs s' v)) -> u = v.
Proof.
  intros I Hs [k Hu] [l Hv].
  destruct (step_marking _ _ _ _ _ _ Hs Hu) as [Hu'|(-> & Et & Hk)],
    (step_marking _ _ _ _ _ _ Hs Hv) as [Hv'|(-> & Et' & Hl)]; [by eapply (inv_marking_one _ I)| | |done].
  - by rewrite (marking_excludes _ _ _ _ I Et' Hl) in Hu'.
  - by rewrite (marking_excludes _ _ _ _ I Et Hk) in Hv'.
Qed.

Lemma inv_step s t a s' : inv s -> step t a s = Some s' -> inv s'.
Proof.
  intros I Hs.
  assert (Hlog : omap marked (log s') = omap marked (log s) \/
            exists k, omap marked (log s') = [k] /\ ready (flag s) = true /\ granted (log s) k).
  { destruct (step_marked _ _ _ _ Hs) as [?|(k & E & _ & Hl)]; [by left|right]. exists k.
    destruct (inv_marking _ I t k ltac:(by rewrite E)) as [Hg Hn]. pose proof (inv_pc _ I t) as It.
    rewrite E in It. by rewrite Hl, Hn. }
  split.
  - eapply inv_lock_step; eauto.
  - eapply inv_next_step; eauto.
  - intros k. eapply inv_tokens_step; eauto.
  - eapply inv_empty_step; eauto.
  - intros u. eapply inv_pc_step; eauto.
  - intros u k. eapply inv_marking_step; eauto.
  - intros u v. eapply inv_marking_one_step; eauto.
  - destruct Hlog as [->|(k & -> & _)]; [apply (inv_log _ I)|done].
  - intros k Hk. eapply granted_step; [exact Hs|].
    destruct Hlog as [E|(k' & E & _ & Hg)]; rewrite E in Hk; [by apply (inv_log_granted _ I)|].
    by apply list_elem_of_singleton in Hk as ->.
  - intros Hn. eapply step_ready; [exact Hs|]. destruct Hlog as [E|(k & _ & Hr & _)]; [|done].
    apply (inv_log_ready _ I). by rewrite <- E.
Qed.

Lemma reachable_inv s : reachable s -> inv s.
Proof. induction 1; eauto using inv_start, inv_step. Qed.

(** However the tasks interleave, [mark_ready] grants readiness at most once
    over the life of the flag: at most one call ever returns [Ok(true)], its token
    was issued by a [subscribe] that succeeded, and from then on the flag is
    ready. *)
Theorem mark_ready_once s :
  reachable s ->
  match omap marked (log s) with
  | [] => True
  | k :: l => l = [] /\ ready (flag s) = true /\ exists t, (t, Subscribe, RToken (Ok k)) ∈ log s
  end.
Proof.
  intros I%reachable_inv. pose proof (inv_log _ I) as Hl. pose proof (inv_log_ready _ I) as Hr.
  pose proof (inv_log_granted _ I) as Hg. destruct (omap marked (log s)) as [|k l]; [done|].
  destruct l; [|simpl in Hl; lia]. split_and!; auto. apply Hg. set_solver.
Qed.

(** ** Waiting *)

(** The number of times a schedule lets task [t] run. *)
Fixpoint runs (t : Task) (sched : list (Task * Action)) : nat :=
  match sched with
  | [] => 0
  | (u, Run) :: sched => if decide (u = t) then S (runs t sched) else runs t sched
  | _ :: sched => runs t sched
  end.

Lemma exec_log sched s : exists l, log (exec sched s) = log s ++ l.
Proof.
  revert s. induction sched as [|[t a] sched IH]; intros s; simpl; [by exists []; rewrite app_nil_r|].
  destruct (step t a s) as [s'|] eqn:E; simpl; [|done].
  destruct (IH s') as [l ->]. destruct (step_log _ _ _ _ E) as [k ->]. exists (k ++ l). by rewrite app_assoc.
Qed.

Lemma exec_app sched1 sched2 s : exec (sched1 ++ sched2) s = exec sched2 (exec sched1 s).
Proof. revert s. induction sched1 as [|[t a] sched1 IH]; intros s; simpl; auto. Qed.

(** The channel counts the tasks that hold a receiver, which have seen no version
    that is still to come. *)
Definition rx_inv s : Prop :=
  (exists X : gset Task, receivers (tx (flag s)) = size X /\ forall t, t ∈ X <-> is_Some (receiving (pcs s t))) /\
  forall t v, receiving (pcs s t) = Some v -> v <= version (tx (flag s)).

(** Other steps broadcast [true] or leave the channel alone. *)
Lemma step_tx s t a s' :
  step t a s = Some s' ->
  (receiving (pcs s' t) = receiving (pcs s t) \/
     exists v, pcs s t = WaitChanged v /\ receiving (pcs s' t) = Some (version (tx (flag s)))) /\
    (tx (flag s') = tx (flag s) \/ tx (flag s') = send true (tx (flag s))) \/
  pcs s t = WaitSubscribe /\ pcs s' t = WaitBorrow (version (tx (flag s))) /\ tx (flag s') = subscribe_rx (tx (flag s)) \/
  is_Some (receiving (pcs s t)) /\ pcs s' t = Idle /\ tx (flag s') = drop_rx (tx (flag s)) /\
    log s' = log s ++ [(t, WaitReady, RUnit)].
Proof.
  intros Hs. step_cases Hs; rewrite ?goto_eq; simpl; rewrite ?Epc; simpl; eauto 10; destruct op; simpl; eauto.
Qed.

Lemma step_other s t a s' u : step t a s = Some s' -> u <> t -> pcs s' u = pcs s u.
Proof. intros Hs Hu. step_cases Hs; by rewrite ?goto_ne. Qed.

Lemma send_mono b w : version w <= version (send b w).
Proof.
  destruct (decide (receivers w = 0%nat)) as [E|E]; [by rewrite send_fails|].
  pose proof (send_version b w E). lia.
Qed.

Lemma step_version s t a s' : step t a s = Some s' -> version (tx (flag s)) <= version (tx (flag s')).
Proof.
  intros [[_ [->| ->]]|[(_ & _ & ->)|(_ & _ & -> & _)]]%step_tx;
    rewrite ?subscribe_version, ?drop_version; try lia. apply send_mono.
Qed.

Lemma rx_inv_step s t a s' : rx_inv s -> step t a s = Some s' -> rx_inv s'.
Proof.
  intros [(X & Hsz & HX) Hv] Hs. pose proof (step_version _ _ _ _ Hs) as Hver.
  assert (Ho : forall u, u <> t -> pcs s' u = pcs s u) by (intros u; by eapply step_other).
  split.
  - destruct (step_tx _ _ _ _ Hs) as [[Hr Htx]|[(Hp & Hp' & Htx)|(Hp & Hp' & Htx & _)]].
    + exists X. split; [destruct Htx as [-> | ->]; by rewrite ?send_receivers|].
      intros u. rewrite HX. destruct (decide (u = t)) as [->|Hu]; [|by rewrite Ho].
      destruct Hr as [->|(v & -> & ->)]; [done|]. simpl. rewrite !is_Some_alt. done.
    + exists ({[t]} ∪ X). assert (t ∉ X) by (rewrite HX, Hp; by intros [? ?]).
      split; [rewrite Htx, subscribe_receivers, size_union, size_singleton by set_solver; lia|].
      intros u. destruct (decide (u = t)) as [->|Hu].
      * rewrite Hp'. split; [by eexists|set_solver].
      * rewrite Ho, <- HX by done. set_solver.
    + exists (X ∖ {[t]}). assert (t ∈ X) by (by rewrite HX).
      split; [rewrite Htx, drop_receivers, size_difference, size_singleton by set_solver; lia|].
      intros u. destruct (decide (u = t)) as [->|Hu].
      * rewrite Hp'. split; [set_solver|by intros [? ?]].
      * rewrite Ho, <- HX by done. set_solver.
  - intros u v. destruct (decide (u = t)) as [->|Hu]; [|rewrite Ho by done; intros ?%Hv; lia].
    destruct (step_tx _ _ _ _ Hs) as [[[->|(? & _ & ->)] _]|[(_ & -> & _)|(_ & -> & _)]]; simpl; [intros ?%Hv; lia| | |done];
      intros [= <-]; lia.
Qed.

Lemma rx_inv_start : rx_inv start.
Proof.
  split; [exists ∅; split|done].
  - simpl. by rewrite drop_receivers, channel_receivers.
  - intros t. split; [set_solver|by intros [? ?]].
Qed.

Lemma reachable_rx_inv s : reachable s -> rx_inv s.
Proof. induction 1; eauto using rx_inv_start, rx_inv_step. Qed.

(** The counters from which a task is about to broadcast. *)
Definition broadcasting (p : Pc) : bool :=
  match p with IrSend _ | MarkSend _ => true | _ => false end.

(** A waiter that will find the flag ready when it runs. *)
Definition woken (t : Task) s : Prop :=
  is_Some (receiving (pcs s t)) /\ value (tx (flag s)) = true /\
  forall v, pcs s t = WaitChanged v -> v < version (tx (flag s)).

(** How often it has to run. *)
Definition rank (p : Pc) : nat :=
  match p with WaitChanged _ => 2 | WaitBorrow _ | WaitCheck _ => 1 | _ => 0 end.

Lemma step_value s t a s' : step t a s = Some s' -> value (tx (flag s)) = true -> value (tx (flag s')) = true.
Proof.
  intros [[_ [->| ->]]|[(_ & _ & ->)|(_ & _ & -> & _)]]%step_tx; rewrite ?subscribe_value, ?drop_value; auto.
  destruct (decide (receivers (tx (flag s)) = 0%nat)) as [E|E]; [by rewrite send_fails|by rewrite send_value].
Qed.

Lemma woken_other t u a s s' : woken t s -> step u a s = Some s' -> t <> u -> woken t s' /\ pcs s' t = pcs s t.
Proof.
  intros (Hr & Hval & Hv) Hs Hne. pose proof (step_other _ _ _ _ t Hs Hne) as E.
  pose proof (step_version _ _ _ _ Hs). split; [|done]. split_and!; rewrite ?E; [done|by eapply step_value|].
  intros v ?%Hv. lia.
Qed.

Lemma woken_own t s :
  woken t s ->
  exists s', step t Run s = Some s' /\
    (woken t s' /\ rank (pcs s t) = S (rank (pcs s' t)) \/ log s' = log s ++ [(t, WaitReady, RUnit)]).
Proof.
  intros (Hr & Hval & Hv). cbn [step]. unfold step_wait_ready.
  destruct (pcs s t) eqn:Ep; simpl in Hr; try by destruct Hr.
  - rewrite Hval. eauto.
  - specialize (Hv _ eq_refl). rewrite bool_decide_eq_false_2 by lia. eexists; split; [done|left].
    unfold woken, move; simpl. rewrite goto_eq; simpl.
    split; [split_and!; [by eexists|done|by intros]|done].
  - rewrite Hval. eauto.
Qed.

Lemma receiving_blocked t a s : is_Some (receiving (pcs s t)) -> a <> Run -> step t a s = None.
Proof. intros [v Hr] Ha. destruct a; simpl; unfold step_timeout; by destruct (pcs s t). Qed.

(** Under the schedule, a [wait_ready] of task [t] returns. *)
Definition finishes (t : Task) (sched : list (Task * Action)) s : Prop :=
  exists l, log (exec sched s) = log s ++ l /\ (t, WaitReady, RUnit) ∈ l.

Lemma finishes_now t u a sched s s' :
  step u a s = Some s' -> log s' = log s ++ [(t, WaitReady, RUnit)] -> finishes t ((u, a) :: sched) s.
Proof.
  intros Hs Hl. unfold finishes. cbn [exec]. rewrite Hs. simpl. destruct (exec_log sched s') as [l ->].
  rewrite Hl, <- app_assoc. eexists; split; [done|]. set_solver.
Qed.

Lemma finishes_later t u a sched s : finishes t sched (default s (step u a s)) -> finishes t ((u, a) :: sched) s.
Proof.
  intros (l & Hl & Hin). unfold finishes. cbn [exec]. rewrite Hl.
  destruct (step u a s) as [s'|] eqn:E; simpl; [|eauto].
  destruct (step_log _ _ _ _ E) as [k ->]. exists (k ++ l). rewrite app_assoc. set_solver.
Qed.

Lemma finishes_app t sched1 sched2 s : finishes t sched1 s -> finishes t (sched1 ++ sched2) s.
Proof.
  intros (l & Hl & Hin). unfold finishes. rewrite exec_app. destruct (exec_log sched2 (exec sched1 s)) as [k ->].
  exists (l ++ k). rewrite Hl, app_assoc. set_solver.
Qed.

Lemma action_is_run (a : Action) : a = Run \/ a <> Run.
Proof. destruct a; auto; by right. Qed.

Lemma woken_exec t sched s : woken t s -> (rank (pcs s t) <= runs t sched)%nat -> finishes t sched s.
Proof.
  revert s. induction sched as [|[u a] sched IH]; intros s Hw Hrk.
  { destruct Hw as ([v Hr] & _). simpl in Hrk. by destruct (pcs s t); simpl in *; try lia. }
  destruct (decide (u = t)) as [->|Hne].
  - destruct (action_is_run a) as [->|Ha].
    + destruct (woken_own t s Hw) as (s' & Hs & [[Hw' Hr']|Hl]); [|by eapply finishes_now].
      apply finishes_later. rewrite Hs. simpl. apply IH; [done|].
      simpl in Hrk. rewrite decide_True in Hrk by done. lia.
    + apply finishes_later. rewrite receiving_blocked; [|by destruct Hw|done].
      apply IH; [done|]. by destruct a.
  - apply finishes_later. destruct (step u a s) as [s'|] eqn:E; simpl.
    + destruct (woken_other t u a s s' Hw E ltac:(done)) as [Hw' Hp]. apply IH; [done|]. rewrite Hp.
      destruct a; simpl in Hrk; rewrite ?decide_False in Hrk by done; done.
    + apply IH; [done|]. destruct a; simpl in Hrk; rewrite ?decide_False in Hrk by done; done.
Qed.

(** The broadcast wakes every waiter that holds a receiver. *)
Lemma broadcast_run t u s :
  rx_inv s -> is_Some (receiving (pcs s t)) -> broadcasting (pcs s u) = true ->
  exists s', step u Run s = Some s' /\ woken t s'.
Proof.
  intros [(X & Hsz & HX) Hv] Hr Hb. assert (Hne : t <> u) by (intros ->; destruct (pcs s u); try done; by destruct Hr).
  assert (Hrx : receivers (tx (flag s)) <> 0%nat).
  { rewrite Hsz. intros E%size_empty_inv. assert (t ∈ X) by (by rewrite HX). set_solver. }
  assert (Hgo : exists s', step u Run s = Some s' /\ tx (flag s') = send true (tx (flag s))).
  { cbn [step]. destruct (pcs s u) eqn:Ep; try done.
    - unfold step_is_ready. rewrite Ep. destruct waiting; eauto.
    - unfold step_mark_ready. rewrite Ep. eauto. }
  destruct Hgo as (s' & Hs & Htx). exists s'. split; [done|].
  pose proof (step_other _ _ _ _ t Hs Hne) as Ep. split_and!; rewrite ?Ep, ?Htx; [done|by apply send_value|].
  intros v E. pose proof (send_version true _ Hrx). pose proof (Hv t v ltac:(by rewrite E)). lia.
Qed.

(** Until it runs, a task about to broadcast stays there, and a waiter with a
    receiver keeps it or returns. *)
Lemma broadcast_wait t u v a s s' :
  is_Some (receiving (pcs s t)) -> broadcasting (pcs s u) = true -> (v, a) <> (u, Run) ->
  step v a s = Some s' ->
  broadcasting (pcs s' u) = true /\
  (is_Some (receiving (pcs s' t)) \/ log s' = log s ++ [(t, WaitReady, RUnit)]).
Proof.
  intros Hr Hb Hne Hs. assert (Hvu : v <> u).
  { intros ->. unfold step, step_timeout in Hs. destruct (action_is_run a) as [->|Ha]; [done|].
    destruct a; [|done|]; revert Hb Hs; by destruct (pcs s u). }
  rewrite (step_other _ _ _ _ u Hs) by done. split; [done|].
  destruct (decide (t = v)) as [<-|Htv]; [|left; by rewrite (step_other _ _ _ _ t Hs)].
  destruct (step_tx _ _ _ _ Hs) as [[[E|(? & _ & E)] _]|[(_ & E & _)|(_ & _ & _ & E)]].
  - left. by rewrite E.
  - left. by rewrite E.
  - left. by rewrite E; eexists.
  - by right.
Qed.

Lemma broadcast_exec t u sched1 sched2 s :
  rx_inv s -> is_Some (receiving (pcs s t)) -> broadcasting (pcs s u) = true ->
  (1 <= runs u sched1)%nat -> (2 <= runs t sched2)%nat -> finishes t (sched1 ++ sched2) s.
Proof.
  revert s. induction sched1 as [|[v a] sched1 IH]; intros s Hrx Hr Hb H1 H2; [simpl in H1; lia|].
  assert (Hrun : (v, a) = (u, Run) \/ (v, a) <> (u, Run)).
  { destruct (decide (v = u)) as [->|]; [|right; congruence].
    destruct (action_is_run a) as [->|]; [by left|right; congruence]. }
  destruct Hrun as [[= -> ->]|Hne]; cbn [app].
  - destruct (broadcast_run t u s Hrx Hr Hb) as (s' & Hs & Hw). apply finishes_later. rewrite Hs. simpl.
    apply woken_exec; [done|]. assert (rank (pcs s' t) <= 2)%nat by (destruct (pcs s' t); simpl; lia).
    assert (Happ : forall l, (runs t sched2 <= runs t (l ++ sched2))%nat); [|specialize (Happ sched1); lia].
    induction l as [|[w []] l IHl]; simpl; repeat case_decide; lia.
  - assert (H1' : (1 <= runs u sched1)%nat).
    { cbn [runs] in H1. destruct a; try done. destruct (decide (v = u)) as [->|]; done. }
    destruct (step v a s) as [s'|] eqn:E; [|apply finishes_later; rewrite E; by apply IH].
    destruct (broadcast_wait t u v a s s' Hr Hb Hne E) as [Hb' [Hr'|Hl]]; [|by eapply finishes_now].
    apply finishes_later. rewrite E. apply IH; eauto using rx_inv_step.
Qed.

(** A waiter that holds a receiver is woken by the broadcast: once some task
    is about to broadcast readiness, every schedule that lets it run, and after
    that lets the waiter run twice, makes [wait_ready] return, whatever else the
    schedule does. *)
Theorem wait_ready_wakes s t u sched1 sched2 :
  reachable s ->
  is_Some (receiving (pcs s t)) -> broadcasting (pcs s u) = true ->
  (1 <= runs u sched1)%nat -> (2 <= runs t sched2)%nat ->
  exists l, log (exec (sched1 ++ sched2) s) = log s ++ l /\ (t, WaitReady, RUnit) ∈ l.
Proof. intros Hs%reachable_rx_inv. apply broadcast_exec. done. Qed.

(** The counters from which no broadcast follows any more. *)
Definition quiet (p : Pc) : bool :=
  match p with
  | IrDrop _ false | IrSend _ | SubDraw | MarkStore _ | MarkClear _ | MarkSend _ => false
  | _ => true
  end.

(** A waiter that waits for a broadcast that will not come. *)
Definition stuck (t : Task) s : Prop :=
  ready (flag s) = true /\ tokens (flag s) = ∅ /\ pcs s t = WaitChanged (version (tx (flag s))) /\
  forall u, quiet (pcs s u) = true.

Lemma stuck_step t s u a s' : stuck t s -> step u a s = Some s' -> stuck t s'.
Proof.
  intros (Hr & Ht & Hp & Hq) Hs. pose proof (Hq u) as Hu.
  assert (Hne : t <> u).
  { intros <-. unfold step, step_wait_ready, step_timeout in Hs. rewrite Hp in Hs.
    rewrite bool_decide_eq_true_2 in Hs by done. by destruct a. }
  split_and!; [by eapply step_ready| | |].
  - step_cases Hs; try done. set_solver.
  - rewrite (step_other _ _ _ _ t Hs) by done. rewrite Hp. f_equal.
    step_cases Hs; by rewrite ?subscribe_version, ?drop_version.
  - intros v. pose proof (Hq v) as Hv. destruct (decide (v = u)) as [->|Hvu]; [|by rewrite (step_other _ _ _ _ v Hs)].
    step_cases Hs; rewrite ?goto_eq; try done; try congruence; [by destruct op|by rewrite Hr|set_solver].
Qed.

Lemma stuck_exec t sched s : stuck t s -> pcs (exec sched s) t = pcs s t.
Proof.
  revert s. induction sched as [|[u a] sched IH]; intros s Hs; cbn [exec]; [done|].
  destruct (step u a s) as [s'|] eqn:E; simpl; [|by apply IH].
  rewrite IH by (by eapply stuck_step). destruct (decide (t = u)) as [<-|]; [|by eapply step_other].
  destruct Hs as (_ & _ & Hp & _). unfold step, step_wait_ready, step_timeout in E. rewrite Hp in E.
  rewrite bool_decide_eq_true_2 in E by done. by destruct a.
Qed.

Lemma reachable_exec sched s : reachable s -> reachable (exec sched s).
Proof.
  revert s. induction sched as [|[u a] sched IH]; intros s Hs; cbn [exec]; [done|].
  apply IH. destruct (step u a s) eqn:E; simpl; [by eapply reachable_step|done].
Qed.

End machine.

(** A channel with the documented behaviour. *)
Record Chan := mkChan { chan_value : bool; chan_version : Z; chan_receivers : nat }.

#[export] Instance Chan_Watch : Watch Chan := {
  channel b := mkChan b 0 1;
  send b c :=
    match chan_receivers c with
    | O => c
    | S _ => mkChan b (chan_version c + 1) (chan_receivers c)
    end;
  subscribe_rx c := mkChan (chan_value c) (chan_version c) (S (chan_receivers c));
  drop_rx c := mkChan (chan_value c) (chan_version c) (pred (chan_receivers c));
  value := chan_value;
  version := chan_version;
  receivers := chan_receivers }.

#[export] Instance Chan_WatchLaws : WatchLaws Chan.
Proof. split; try done; intros b [v n [|r]]; simpl; done || lia. Qed.

(** Task 0 subscribes; task 1 starts to wait, finds the flag not ready and pauses
    before it takes a receiver. *)
Definition wait_begins : list (Task * Action) :=
  (0%nat, Call Subscribe) :: replicate 4 (0%nat, Run) ++
  (1%nat, Call WaitReady) :: replicate 3 (1%nat, Run).

(** Task 0 marks the flag ready. *)
Definition mark : list (Task * Action) := (0%nat, Call (MarkReady 1)) :: replicate 6 (0%nat, Run).

(** Task 1 takes its receiver and looks at the channel. *)
Definition wait_parks : list (Task * Action) := replicate 2 (1%nat, Run).

Lemma wait_ready_wakes_witness :
  let s := exec (wait_begins ++ wait_parks ++ (0%nat, Call (MarkReady 1)) :: replicate 5 (0%nat, Run)) (start (W := Chan)) in
  exists l, log (exec ([(0%nat, Run)] ++ wait_parks) s) = log s ++ l /\ (1%nat, WaitReady, RUnit) ∈ l.
Proof.
  apply (wait_ready_wakes _ 1%nat 0%nat); [apply reachable_exec, reachable_start|vm_compute; by eexists|by vm_compute..].
Defined.

Lemma mark_ready_once_witness :
  match omap marked (log (exec (wait_begins ++ mark) (start (W := Chan)))) with
  | [] => True
  | k :: l => l = [] /\ ready (flag (exec (wait_begins ++ mark) (start (W := Chan)))) = true /\
      exists t, (t, Subscribe, RToken (Ok k)) ∈ log (exec (wait_begins ++ mark) (start (W := Chan)))
  end.
Proof. apply (mark_ready_once (exec (wait_begins ++ mark) start)), reachable_exec, reachable_start. Defined.

Section lost_wakeup.
Context {W : Type} `{WatchLaws W}.

Definition lost : State W := exec (wait_begins ++ mark ++ wait_parks) start.

Lemma lost_eq : exec (wait_begins ++ mark ++ wait_parks) start = lost.
Proof. unfold lost. exact eq_refl. Qed.

(** The channel of that state, whose send had no receiver. *)
Definition lost_tx : W := subscribe_rx (send true (drop_rx (channel false))).

Lemma lost_unfold :
  exists s : State W, lost = exec [(1%nat, Run)] s /\ flag s = mkFlag true 2 ∅ lost_tx /\
    pcs s 1%nat = WaitBorrow (version (send true (drop_rx (channel false)))) /\
    (forall u, u <> 1%nat -> pcs s u = Idle) /\ (0%nat, MarkReady 1, RMarked (Ok true)) ∈ log s.
Proof.
  exists (exec (wait_begins ++ mark ++ [(1%nat, Run)]) start). split_and!.
  - unfold lost. by rewrite <- exec_app, <- !app_assoc.
  - by vm_compute.
  - by vm_compute.
  - intros [|[|[|u]]] Hu; [by vm_compute|done|by vm_compute..].
  - apply list_elem_of_In. vm_compute. tauto.
Qed.

Lemma lost_value : value lost_tx = false /\ version lost_tx = version (send true (drop_rx (channel false))).
Proof.
  unfold lost_tx. rewrite subscribe_value, subscribe_version. split; [|done].
  rewrite send_fails; [by rewrite drop_value, channel_value|by rewrite drop_receivers, channel_receivers].
Qed.

Lemma lost_stuck :
  stuck 1%nat lost /\ flag lost = mkFlag true 2 ∅ lost_tx /\ (0%nat, MarkReady 1, RMarked (Ok true)) ∈ log lost.
Proof.
  destruct lost_unfold as (s & -> & Hf & Hp & Hi & Hl). destruct lost_value as [Hv Hver].
  cbn [exec]. unfold step. rewrite Hp. unfold step_wait_ready. rewrite Hp, Hf. cbn [tx]. rewrite Hv. simpl.
  split_and!; [|done..]. unfold stuck, move; simpl. rewrite goto_eq, Hf. cbn [ready tokens tx].
  split_and!; [done..|by rewrite Hver|]. intros u. destruct (decide (u = 1%nat)) as [->|]; [by rewrite goto_eq|].
  by rewrite goto_ne, Hi.
Qed.

(** A wake-up can be lost.  A task that called [wait_ready] while a token was
    out, and had not yet taken its receiver when [mark_ready] broadcast, waits for
    a change although the flag is ready and [mark_ready] returned [Ok(true)]: the
    broadcast found no receiver and left no value behind, nobody broadcasts again,
    and under no continuation does the task ever move. *)
Theorem wait_ready_lost_wakeup :
  exists sched, let s := exec sched (start (W := W)) in
    ready (flag s) = true /\ (0%nat, MarkReady 1, RMarked (Ok true)) ∈ log s /\
    exists v, forall sched', pcs (exec sched' s) 1%nat = WaitChanged v.
Proof.
  exists (wait_begins ++ mark ++ wait_parks). destruct lost_stuck as (Hs & _ & Hl).
  cbv zeta. rewrite lost_eq. pose proof Hs as (Hr & _ & Hp & _). split; [exact Hr|split; [exact Hl|]].
  exists (version (tx (flag lost))). intros sched'. by rewrite (stuck_exec 1%nat sched' lost Hs).
Qed.

End lost_wakeup.

Lemma wait_ready_lost_wakeup_witness :
  exists sched, let s := exec sched (start (W := Chan)) in
    ready (flag s) = true /\ (0%nat, MarkReady 1, RMarked (Ok true)) ∈ log s /\
    exists v, forall sched', pcs (exec sched' s) 1%nat = WaitChanged v.
Proof. apply wait_ready_lost_wakeup. Defined.

End ReadinessFacts.
