(* ===== verification/LegacyArgs.v ===== *)
(** Arguments in the legacy execution policy ([execpolicy-legacy/src]): argument
    types and matchers ([arg_type.rs], [arg_matcher.rs], [sed_command.rs]), the
    values they match ([valid_exec.rs]), the errors ([error.rs]) and the resolver
    that assigns positional arguments to patterns ([arg_resolver.rs]). *)

From stdpp Require Import base list option numbers strings.
From S2P Require Import Prelude RustStr.

Module LegacyArgs.

Open Scope rust_scope.

(** The option in front of a result: [None] is a panic. *)
Notation "'let??' x ':=' c 'in' k" :=
  (match c with Some (Ok x) => k | Some (Err e) => Some (Err e) | None => None end)
  (at level 10, x pattern, c at level 200, k at level 200) : rust_scope.

(** ** [str::parse::<u64>] *)

Definition u64_limit : N := 2 ^ 64.

(** The digits, from the most significant one; [None] on another char or on
    overflow. *)
Fixpoint parse_digits (acc : N) (s : str) : option N :=
  match s with
  | [] => Some acc
  | c :: s =>
      if is_ascii_digit c then
        let acc := (acc * 10 + (c - 48))%N in
        if (acc <? u64_limit)%N then parse_digits acc s else None
      else None
  end.

(** A leading plus sign is accepted, an empty string or a lone sign is not. *)
Definition parse_u64 (s : str) : option N :=
  let digits := match s with 43%N :: rest => rest | _ => s end in
  if is_empty digits then None else parse_digits 0 digits.

(** ** arg_type.rs, arg_matcher.rs *)

Inductive ArgType :=
| TLiteral (value : str)
| TOpaqueNonFile
| TReadableFile
| TWriteableFile
| TPositiveInteger
| TSedCommand
| TUnknown.

#[export] Instance arg_type_eq_dec : EqDecision ArgType.
Proof. solve_decision. Defined.

Inductive ArgMatcher :=
| Literal (value : str)
| OpaqueNonFile
| ReadableFile
| WriteableFile
| ReadableFiles
| ReadableFilesOrCwd
| PositiveInteger
| SedCommand
| UnverifiedVarargs.

#[export] Instance arg_matcher_eq_dec : EqDecision ArgMatcher.
Proof. solve_decision. Defined.

Inductive ArgMatcherCardinality := One | AtLeastOne | ZeroOrMore.

Definition cardinality (m : ArgMatcher) : ArgMatcherCardinality :=
  match m with
  | Literal _ | OpaqueNonFile | ReadableFile | WriteableFile | PositiveInteger | SedCommand => One
  | ReadableFiles => AtLeastOne
  | ReadableFilesOrCwd | UnverifiedVarargs => ZeroOrMore
  end.

Definition arg_type (m : ArgMatcher) : ArgType :=
  match m with
  | Literal value => TLiteral value
  | OpaqueNonFile => TOpaqueNonFile
  | ReadableFile => TReadableFile
  | WriteableFile => TWriteableFile
  | ReadableFiles => TReadableFile
  | ReadableFilesOrCwd => TReadableFile
  | PositiveInteger => TPositiveInteger
  | SedCommand => TSedCommand
  | UnverifiedVarargs => TUnknown
  end.

Definition is_exact (c : ArgMatcherCardinality) : option nat :=
  match c with One => Some 1 | AtLeastOne => None | ZeroOrMore => None end.

(** ** error.rs *)

Record PositionalArg := mkPositional { index : nat; value : str }.

#[export] Instance positional_arg_eq_dec : EqDecision PositionalArg.
Proof. solve_decision. Defined.

(** [K] is [std::io::ErrorKind]. *)
Inductive Error {K : Type} :=
| NoSpecForProgram (program : str)
| OptionMissingValue (program option : str)
| OptionFollowedByOptionInsteadOfValue (program option value : str)
| UnknownOption (program option : str)
| UnexpectedArguments (program : str) (args : list PositionalArg)
| DoubleDashNotSupportedYet (program : str)
| MultipleVarargPatterns (program : str) (first second : ArgMatcher)
| RangeStartExceedsEnd (start stop : nat)
| RangeEndOutOfBounds (stop len : nat)
| PrefixOverlapsSuffix
| NotEnoughArgs (program : str) (args : list PositionalArg) (arg_patterns : list ArgMatcher)
| InternalInvariantViolation (message : str)
| VarargMatcherDidNotMatchAnything (program : str) (matcher : ArgMatcher)
| EmptyFileName
| LiteralValueDidNotMatch (expected actual : str)
| InvalidPositiveInteger (value : str)
| MissingRequiredOptions (program : str) (options : list str)
| SedCommandNotProvablySafe (command : str)
| ReadablePathNotInReadableFolders (file : str) (folders : list str)
| WriteablePathNotInWriteableFolders (file : str) (folders : list str)
| CannotCheckRelativePath (file : str)
| CannotCanonicalizePath (file : str) (error : K).
Arguments Error : clear implicits.

Section errors.
Context {K : Type}.

(** ** sed_command.rs *)

Definition COMMA : char := 44.

Definition parse_sed_command (sed_command : str) : result unit (Error K) :=
  match strip_suffix (lit "p") sed_command with
  | Some stripped =>
      match split_once [COMMA] stripped with
      | Some (first, rest) =>
          if is_some (parse_u64 first) && is_some (parse_u64 rest) then Ok ()
          else Err (SedCommandNotProvablySafe sed_command)
      | None => Err (SedCommandNotProvablySafe sed_command)
      end
  | None => Err (SedCommandNotProvablySafe sed_command)
  end.

Definition validate (t : ArgType) (value : str) : result unit (Error K) :=
  match t with
  | TLiteral literal_value =>
      if negb (value == literal_value) then Err (LiteralValueDidNotMatch literal_value value) else Ok ()
  | TReadableFile => if is_empty value then Err EmptyFileName else Ok ()
  | TWriteableFile => if is_empty value then Err EmptyFileName else Ok ()
  | TOpaqueNonFile | TUnknown => Ok ()
  | TPositiveInteger =>
      match parse_u64 value with
      | Some 0%N => Err (InvalidPositiveInteger value)
      | Some _ => Ok ()
      | None => Err (InvalidPositiveInteger value)
      end
  | TSedCommand => parse_sed_command value
  end.

Definition might_write_file (t : ArgType) : bool :=
  match t with
  | TWriteableFile | TUnknown => true
  | TLiteral _ | TOpaqueNonFile | TPositiveInteger | TReadableFile | TSedCommand => false
  end.

(** ** valid_exec.rs *)

Record MatchedArg := mkMatchedArg { arg_index : nat; arg_ty : ArgType; arg_value : str }.
Record MatchedOpt := mkMatchedOpt { opt_name : str; opt_value : str; opt_type : ArgType }.
Record MatchedFlag := mkMatchedFlag { flag_name : str }.

Record ValidExec := mkValidExec {
  program : str;
  flags : list MatchedFlag;
  opts : list MatchedOpt;
  args : list MatchedArg;
  system_path : list str }.

Definition MatchedArg_new (index : nat) (type : ArgType) (value : str) : result MatchedArg (Error K) :=
  let? _ := validate type value in Ok (mkMatchedArg index type value).

Definition MatchedOpt_new (name value : str) (type : ArgType) : result MatchedOpt (Error K) :=
  let? _ := validate type value in Ok (mkMatchedOpt name value type).

Definition might_write_files (e : ValidExec) : bool :=
  existsb (fun opt => might_write_file (opt_type opt)) (opts e)
  || existsb (fun arg => might_write_file (arg_ty arg)) (args e).

(** ** arg_resolver.rs *)

Record ParitionedArgs := mkPartitioned {
  num_prefix_args : nat;
  num_suffix_args : nat;
  prefix_patterns : list ArgMatcher;
  suffix_patterns : list ArgMatcher;
  vararg_pattern : option ArgMatcher }.

Fixpoint partition_loop (program : str) (in_prefix : bool) (p : ParitionedArgs) (arg_patterns : list ArgMatcher)
    : result ParitionedArgs (Error K) :=
  match arg_patterns with
  | [] => Ok p
  | pattern :: arg_patterns =>
      match is_exact (cardinality pattern) with
      | Some n =>
          if in_prefix then
            partition_loop program in_prefix
              (mkPartitioned (num_prefix_args p + n) (num_suffix_args p) (prefix_patterns p ++ [pattern])
                 (suffix_patterns p) (vararg_pattern p)) arg_patterns
          else
            partition_loop program in_prefix
              (mkPartitioned (num_prefix_args p) (num_suffix_args p + n) (prefix_patterns p)
                 (suffix_patterns p ++ [pattern]) (vararg_pattern p)) arg_patterns
      | None =>
          match vararg_pattern p with
          | None =>
              partition_loop program false
                (mkPartitioned (num_prefix_args p) (num_suffix_args p) (prefix_patterns p) (suffix_patterns p)
                   (Some pattern)) arg_patterns
          | Some existing_pattern => Err (MultipleVarargPatterns program existing_pattern pattern)
          end
      end
  end.

Definition partition_args (program : str) (arg_patterns : list ArgMatcher) : result ParitionedArgs (Error K) :=
  partition_loop program true (mkPartitioned 0 0 [] [] None) arg_patterns.

(** [&vec[start..stop]], which panics out of range. *)
Definition slice {A} (start stop : nat) (l : list A) : option (list A) :=
  if (start <=? stop) && (stop <=? length l) then Some (firstn (stop - start) (skipn start l)) else None.

Definition get_range_checked {A} (vec : list A) (start stop : nat) : option (result (list A) (Error K)) :=
  if stop <? start then Some (Err (RangeStartExceedsEnd start stop))
  else if length vec <? stop then Some (Err (RangeEndOutOfBounds stop (length vec)))
  else match slice start stop vec with Some l => Some (Ok l) | None => None end.

(** The loop that types the arguments of one pattern. *)
Fixpoint match_args (pattern : ArgMatcher) (positional : list PositionalArg) (matched_args : list MatchedArg)
    : result (list MatchedArg) (Error K) :=
  match positional with
  | [] => Ok matched_args
  | positional_arg :: positional =>
      let? matched_arg := MatchedArg_new (index positional_arg) (arg_type pattern) (value positional_arg) in
      match_args pattern positional (matched_args ++ [matched_arg])
  end.

(** The loop over the prefix (and the suffix) patterns. *)
Fixpoint match_exact (patterns : list ArgMatcher) (region : list PositionalArg) (arg_index : nat)
    (matched_args : list MatchedArg) : option (result (list MatchedArg * nat) (Error K)) :=
  match patterns with
  | [] => Some (Ok (matched_args, arg_index))
  | pattern :: patterns =>
      match is_exact (cardinality pattern) with
      | None => Some (Err (InternalInvariantViolation (lit "expected exact cardinality")))
      | Some n =>
          match slice arg_index (arg_index + n) region with
          | None => None
          | Some positional =>
              match match_args pattern positional matched_args with
              | Ok matched_args => match_exact patterns region (arg_index + n) matched_args
              | Err e => Some (Err e)
              end
          end
      end
  end.

(** The vararg pattern takes what lies between prefix and suffix. *)
Definition match_vararg (program : str) (pattern : ArgMatcher) (vararg : list PositionalArg)
    (matched_args : list MatchedArg) : result (list MatchedArg) (Error K) :=
  match cardinality pattern with
  | One => Err (InternalInvariantViolation (lit "vararg pattern should not have cardinality of one"))
  | AtLeastOne =>
      if is_empty vararg then Err (VarargMatcherDidNotMatchAnything program pattern)
      else match_args pattern vararg matched_args
  | ZeroOrMore => match_args pattern vararg matched_args
  end.

Definition resolve_observed_args_with_patterns (program : str) (args : list PositionalArg)
    (arg_patterns : list ArgMatcher) : option (result (list MatchedArg) (Error K)) :=
  let?? p := Some (partition_args program arg_patterns) in
  let?? prefix := get_range_checked args 0 (num_prefix_args p) in
  let?? r := match_exact (prefix_patterns p) prefix 0 [] in
  let '(matched_args, prefix_arg_index) := r in
  if length args <? num_suffix_args p then Some (Err (NotEnoughArgs program args arg_patterns)) else
  let initial_suffix_args_index := length args - num_suffix_args p in
  if initial_suffix_args_index <? prefix_arg_index then Some (Err PrefixOverlapsSuffix) else
  let?? matched_args :=
    match vararg_pattern p with
    | None => Some (Ok matched_args)
    | Some pattern =>
        let?? vararg := get_range_checked args prefix_arg_index initial_suffix_args_index in
        Some (match_vararg program pattern vararg matched_args)
    end in
  let?? suffix := get_range_checked args initial_suffix_args_index (length args) in
  let?? r := match_exact (suffix_patterns p) suffix 0 matched_args in
  let '(matched_args, _) := r in
  if length matched_args <? length args then
    let?? extra_args := get_range_checked args (length matched_args) (length args) in
    Some (Err (UnexpectedArguments program extra_args))
  else Some (Ok matched_args).

End errors.

End LegacyArgs.
