(* ===== verification/LegacyArgsFacts.v ===== *)
(** Theorems on the argument resolver of the legacy policy: it never panics, and it
    accepts exactly the arguments that can be dealt out to the patterns in order. *)

From stdpp Require Import base list option numbers strings.
From S2P Require Import Prelude RustStr LegacyArgs.

Module LegacyArgsFacts.
Import LegacyArgs.

Open Scope rust_scope.

Section resolver.
Context {K : Type}.

Definition exact (m : ArgMatcher) : bool := is_some (is_exact (cardinality m)).

Lemma exact_One m : exact m = true -> cardinality m = One.
Proof. unfold exact. by destruct (cardinality m). Qed.

(** ** Specification *)

(** How many arguments a pattern takes. *)
Definition admits (m : ArgMatcher) (g : list PositionalArg) : Prop :=
  match cardinality m with One => length g = 1 | AtLeastOne => g <> [] | ZeroOrMore => True end.

Definition valid (m : ArgMatcher) (a : PositionalArg) : Prop :=
  validate (K := K) (arg_type m) (value a) = Ok ().

Definition typed (m : ArgMatcher) (a : PositionalArg) : MatchedArg :=
  mkMatchedArg (index a) (arg_type m) (value a).

(** The arguments are dealt out in order: one group of valid values per pattern. *)
Definition dealt (pats : list ArgMatcher) (args : list PositionalArg) (ms : list MatchedArg) : Prop :=
  exists groups,
    Forall2 (fun m g => admits m g /\ Forall (valid m) g) pats groups /\
    args = mjoin groups /\ ms = mjoin (zip_with (fun m g => typed m <$> g) pats groups).

Definition varargs (pats : list ArgMatcher) : nat := length (List.filter (fun m => negb (exact m)) pats).

Lemma dealt_nil args ms : dealt [] args ms <-> args = [] /\ ms = [].
Proof.
  split.
  - by intros (groups & ->%Forall2_nil_inv_l & -> & ->).
  - intros [-> ->]. by exists [].
Qed.

Lemma dealt_cons m pats args ms :
  dealt (m :: pats) args ms <->
  exists g args' ms', args = g ++ args' /\ ms = (typed m <$> g) ++ ms' /\
    admits m g /\ Forall (valid m) g /\ dealt pats args' ms'.
Proof.
  split.
  - intros (groups & (g & groups' & [Ha Hv] & H & ->)%Forall2_cons_inv_l & -> & ->).
    exists g, (mjoin groups'), (mjoin (zip_with (fun m g => typed m <$> g) pats groups')).
    split_and!; [done..|]. by exists groups'.
  - intros (g & args' & ms' & -> & -> & Ha & Hv & groups & H & -> & ->).
    exists (g :: groups). split_and!; [by constructor|done..].
Qed.

Lemma dealt_app pats1 pats2 args ms :
  dealt (pats1 ++ pats2) args ms <->
  exists args1 args2 ms1 ms2, args = args1 ++ args2 /\ ms = ms1 ++ ms2 /\
    dealt pats1 args1 ms1 /\ dealt pats2 args2 ms2.
Proof.
  revert args ms. induction pats1 as [|m pats1 IH]; intros args ms; cbn [app].
  - split.
    + intros H. exists [], args, [], ms. by rewrite dealt_nil.
    + by intros (args1 & args2 & ms1 & ms2 & -> & -> & [-> ->]%dealt_nil & H).
  - rewrite dealt_cons. split.
    + intros (g & args' & ms' & -> & -> & Ha & Hv & (args1 & args2 & ms1 & ms2 & -> & -> & H1 & H2)%IH).
      exists (g ++ args1), args2, ((typed m <$> g) ++ ms1), ms2. rewrite !app_assoc. split_and!; [done..| |done].
      apply dealt_cons. eauto 10.
    + intros (args1 & args2 & ms1 & ms2 & -> & -> & (g & args' & ms' & -> & -> & Ha & Hv & H1)%dealt_cons & H2).
      exists g, (args' ++ args2), (ms' ++ ms2). rewrite <- !app_assoc. split_and!; [done..|].
      apply IH. eauto 10.
Qed.

(** Exact patterns take one argument each. *)
Lemma dealt_exact pats args ms :
  Forall (fun m => exact m = true) pats ->
  dealt pats args ms <-> Forall2 valid pats args /\ ms = zip_with typed pats args.
Proof.
  intros He. revert args ms. induction He as [|m pats Hm He IH]; intros args ms.
  - rewrite dealt_nil. split; [intros [-> ->]; by constructor|intros [->%Forall2_nil_inv_l ->]; done].
  - rewrite dealt_cons. unfold admits. rewrite exact_One by done. split.
    + intros (g & args' & ms' & -> & -> & Hl & Hv & [Hf ->]%IH). destruct g as [|a [|]]; try done.
      split; [|done]. constructor; [by inversion Hv|done].
    + intros [Hf ->]. apply Forall2_cons_inv_l in Hf as (a & args' & Hv & Hf & ->).
      exists [a], args', (zip_with typed pats args'). split_and!; [done..|by repeat constructor|by apply IH].
Qed.

(** ** The loops *)

Lemma slice_Some {A} (l : list A) i n : i + n <= length l -> slice i (i + n) l = Some (firstn n (skipn i l)).
Proof.
  intros H. unfold slice. rewrite (proj2 (Nat.leb_le i (i + n))), (proj2 (Nat.leb_le _ _) H) by lia.
  simpl. by replace (i + n - i) with n by lia.
Qed.

Lemma match_args_spec pattern positional acc :
  exists r, match_args (K := K) pattern positional acc = r /\
  (Forall (valid pattern) positional /\ r = Ok (acc ++ (typed pattern <$> positional)) \/
   ~ Forall (valid pattern) positional /\ is_ok r = false).
Proof.
  eexists. split; [done|]. revert acc. induction positional as [|a l IH]; intros acc; cbn [match_args].
  - left. by rewrite app_nil_r.
  - unfold MatchedArg_new. destruct (validate (arg_type pattern) (value a)) as [[]|e] eqn:E.
    + destruct (IH (acc ++ [typed pattern a])) as [[Hv Heq]|[Hv Heq]].
      * left. split; [by constructor|]. unfold typed in *. rewrite Heq. by rewrite <- app_assoc.
      * right. split; [|done]. intros Hf. by inversion Hf.
    + right. split; [|done]. intros Hf. inversion Hf as [|? ? Hb]. unfold valid in Hb. congruence.
Qed.

Lemma match_exact_spec patterns region i acc :
  Forall (fun m => exact m = true) patterns -> i + length patterns <= length region ->
  exists r, match_exact (K := K) patterns region i acc = Some r /\
  let args := firstn (length patterns) (skipn i region) in
  (Forall2 valid patterns args /\ r = Ok (acc ++ zip_with typed patterns args, i + length patterns) \/
   ~ Forall2 valid patterns args /\ is_ok r = false).
Proof.
  intros He. revert i acc. induction He as [|m patterns Hm He IH]; intros i acc Hi; cbn [match_exact length].
  - eexists. split; [done|]. left. split; [constructor|]. by rewrite app_nil_r, Nat.add_0_r.
  - rewrite exact_One by done. cbn [is_exact length] in *. rewrite slice_Some by lia.
    destruct (lookup_lt_is_Some_2 region i) as [a Ha]; [lia|].
    assert (Hs : skipn i region = a :: skipn (S i) region) by (by apply drop_S).
    rewrite Hs. cbn [firstn]. rewrite take_0.
    destruct (match_args_spec m [a] acc) as (r & -> & [[Hv ->]|[Hv Hr]]).
    + destruct (IH (i + 1) (acc ++ [typed m a])) as (r & Hr & Hc); [lia|]. exists r. split; [exact Hr|].
      replace (i + 1) with (S i) in Hc by lia. cbv zeta in *.
      destruct Hc as [[Hf ->]|[Hf Hr']]; [left|right]; (split; [|try done]).
      * constructor; [by inversion Hv|done].
      * f_equal. f_equal; [by rewrite <- app_assoc|lia].
      * intros Hf'. by inversion Hf'.
    + destruct r as [?|e]; [done|]. exists (Err e). split; [done|right]. split; [|done].
      intros Hf. inversion Hf; subst. destruct Hv. by repeat constructor.
Qed.

(** ** Partitioning *)

Lemma partition_loop_spec program pats p :
  (vararg_pattern p = None -> suffix_patterns p = []) ->
  match partition_loop (K := K) program (negb (is_some (vararg_pattern p))) p pats with
  | Ok q =>
      varargs pats + (if vararg_pattern p then 1 else 0) <= 1 /\
      exists pre suf, Forall (fun m => exact m = true) pre /\ Forall (fun m => exact m = true) suf /\
        prefix_patterns q = prefix_patterns p ++ pre /\ suffix_patterns q = suffix_patterns p ++ suf /\
        num_prefix_args q = num_prefix_args p + length pre /\ num_suffix_args q = num_suffix_args p + length suf /\
        match vararg_pattern p, vararg_pattern q with
        | None, None => pats = pre /\ suf = []
        | None, Some v => pats = pre ++ v :: suf /\ exact v = false
        | Some v, Some w => v = w /\ pats = suf /\ pre = []
        | Some _, None => False
        end
  | Err e => 1 < varargs pats + (if vararg_pattern p then 1 else 0)
  end.
Proof.
  revert p. induction pats as [|m pats IH]; intros p Hp; cbn [partition_loop].
  - split; [destruct (vararg_pattern p); simpl; lia|]. exists [], []. rewrite !app_nil_r, !Nat.add_0_r.
    split_and!; try done. by destruct (vararg_pattern p).
  - assert (Hv : varargs (m :: pats) = (if exact m then 0 else 1) + varargs pats)
      by (unfold varargs; cbn [List.filter]; by destruct (exact m)).
    destruct (is_exact (cardinality m)) as [n|] eqn:En.
    + assert (n = 1) as -> by (by destruct (cardinality m); simplify_eq/=).
      assert (Hm : exact m = true) by (unfold exact; by rewrite En).
      rewrite Hv, Hm. destruct (vararg_pattern p) as [v|] eqn:Ev; cbn [is_some negb] in *.
      * specialize (IH (mkPartitioned (num_prefix_args p) (num_suffix_args p + 1) (prefix_patterns p)
          (suffix_patterns p ++ [m]) (Some v)) ltac:(done)). cbn [vararg_pattern is_some negb] in IH.
        destruct (partition_loop _ _ _ _) as [q|e]; [|lia]. cbn in IH.
        destruct IH as [Hl (pre & suf & H1 & H2 & H3 & H4 & H5 & H6 & H7)]. split; [lia|].
        exists pre, (m :: suf). rewrite H4, <- app_assoc, H6. cbn [length].
        split_and!; [done|by constructor|done|done|done|lia|].
        destruct (vararg_pattern q); [|done]. destruct H7 as (-> & -> & ->). done.
      * specialize (IH (mkPartitioned (num_prefix_args p + 1) (num_suffix_args p) (prefix_patterns p ++ [m])
          (suffix_patterns p) None) ltac:(auto)). cbn [vararg_pattern is_some negb] in IH.
        destruct (partition_loop _ _ _ _) as [q|e]; [|lia]. cbn in IH.
        destruct IH as [Hl (pre & suf & H1 & H2 & H3 & H4 & H5 & H6 & H7)]. split; [lia|].
        exists (m :: pre), suf. rewrite H3, <- app_assoc, H5. cbn [length].
        split_and!; [by constructor|done|done|done|lia|done|].
        destruct (vararg_pattern q); destruct H7 as [-> ?]; done.
    + assert (Hm : exact m = false) by (unfold exact; by rewrite En).
      rewrite Hv, Hm. destruct (vararg_pattern p) as [v|] eqn:Ev; [lia|].
      specialize (IH (mkPartitioned (num_prefix_args p) (num_suffix_args p) (prefix_patterns p)
        (suffix_patterns p) (Some m)) ltac:(done)). cbn [vararg_pattern is_some negb] in IH.
      destruct (partition_loop _ _ _ _) as [q|e]; [|lia]. cbn in IH.
      destruct IH as [Hl (pre & suf & H1 & H2 & H3 & H4 & H5 & H6 & H7)]. split; [lia|].
      exists pre, suf. split_and!; try done.
      destruct (vararg_pattern q) as [w|]; [|done]. by destruct H7 as (<- & -> & ->).
Qed.

(** The patterns are a prefix of exact ones, at most one vararg, and a suffix. *)
Definition partitions (pats : list ArgMatcher) (q : ParitionedArgs) : Prop :=
  pats = prefix_patterns q ++ option_list (vararg_pattern q) ++ suffix_patterns q /\
  Forall (fun m => exact m = true) (prefix_patterns q) /\ Forall (fun m => exact m = true) (suffix_patterns q) /\
  num_prefix_args q = length (prefix_patterns q) /\ num_suffix_args q = length (suffix_patterns q) /\
  match vararg_pattern q with Some v => exact v = false | None => suffix_patterns q = [] end.

Lemma partition_args_spec program pats :
  match partition_args (K := K) program pats with
  | Ok q => varargs pats <= 1 /\ partitions pats q
  | Err e => 1 < varargs pats
  end.
Proof.
  pose proof (partition_loop_spec program pats (mkPartitioned 0 0 [] [] None) ltac:(done)) as H.
  unfold partition_args. cbn [vararg_pattern is_some negb] in H. destruct (partition_loop _ _ _ _) as [q|e]; [|simpl in H; lia].
  simpl in H. destruct H as [Hl (pre & suf & H1 & H2 & H3 & H4 & H5 & H6 & H7)]. split; [lia|].
  unfold partitions. rewrite H3, H4, H5, H6. destruct (vararg_pattern q) as [v|]; destruct H7 as [-> ?]; simpl.
  - done.
  - subst. simpl. rewrite H. by rewrite app_nil_r.
Qed.

(** ** The resolver *)

Lemma get_range_checked_in {A} (l : list A) i j :
  i <= j <= length l -> get_range_checked (K := K) l i j = Some (Ok (firstn (j - i) (skipn i l))).
Proof.
  intros H. unfold get_range_checked. rewrite (proj2 (Nat.ltb_ge j i)), (proj2 (Nat.ltb_ge (length l) j)) by lia.
  replace j with (i + (j - i)) at 1 by lia. rewrite slice_Some by lia. done.
Qed.

Lemma get_range_checked_out {A} (l : list A) j :
  length l < j -> get_range_checked (K := K) l 0 j = Some (Err (RangeEndOutOfBounds j (length l))).
Proof. intros H. unfold get_range_checked. by rewrite (proj2 (Nat.ltb_lt (length l) j)). Qed.

Lemma match_vararg_spec program v vararg acc :
  exact v = false ->
  (admits v vararg /\ Forall (valid v) vararg /\
     match_vararg (K := K) program v vararg acc = Ok (acc ++ (typed v <$> vararg))) \/
  (~ (admits v vararg /\ Forall (valid v) vararg) /\ is_ok (match_vararg (K := K) program v vararg acc) = false).
Proof.
  unfold exact, match_vararg, admits. intros Hv.
  destruct (match_args_spec v vararg acc) as (r & Hr & [[Hf ->]|[Hf Hb]]);
    destruct (cardinality v); try done; rewrite ?Hr; destruct vararg as [|a l]; simpl;
    (left; by split_and!) || (right; split; [naive_solver|try done; by rewrite Hr]).
Qed.

(** What dealing arguments to partitioned patterns amounts to. *)
Lemma dealt_partitions pats q args ms :
  partitions pats q ->
  dealt pats args ms <->
  exists a1 a2 a3,
    args = a1 ++ a2 ++ a3 /\ Forall2 valid (prefix_patterns q) a1 /\ Forall2 valid (suffix_patterns q) a3 /\
    match vararg_pattern q with Some v => admits v a2 /\ Forall (valid v) a2 | None => a2 = [] end /\
    ms = zip_with typed (prefix_patterns q) a1 ++
         match vararg_pattern q with Some v => typed v <$> a2 | None => [] end ++
         zip_with typed (suffix_patterns q) a3.
Proof.
  intros (-> & Hp & Hs & _ & _ & Hv). rewrite dealt_app. setoid_rewrite dealt_app.
  split.
  - intros (a1 & ? & m1 & ? & -> & -> & [Hf1 ->]%dealt_exact & a2 & a3 & m2 & m3 & -> & -> & Hd & [Hf3 ->]%dealt_exact); [|done..].
    exists a1, a2, a3. destruct (vararg_pattern q) as [v|]; simpl in Hd.
    + apply dealt_cons in Hd as (g & ? & ? & -> & -> & Ha & Hva & [-> ->]%dealt_nil). by rewrite !app_nil_r.
    + apply dealt_nil in Hd as [-> ->]. done.
  - intros (a1 & a2 & a3 & -> & H1 & H3 & H2 & ->).
    do 4 eexists. split_and!; [done|done|by apply dealt_exact|]. do 4 eexists.
    split_and!; [done|done| |by apply dealt_exact].
    destruct (vararg_pattern q) as [v|]; simpl; [|by apply dealt_nil]. apply dealt_cons.
    exists a2, [], []. rewrite !app_nil_r. split_and!; [done..|by apply H2|by apply H2|by apply dealt_nil].
Qed.

(** The regions of the arguments that prefix, vararg and suffix take. *)
Definition prefix_region (q : ParitionedArgs) (args : list PositionalArg) := firstn (num_prefix_args q) args.
Definition vararg_region (q : ParitionedArgs) (args : list PositionalArg) :=
  firstn (length args - num_suffix_args q - num_prefix_args q) (skipn (num_prefix_args q) args).
Definition suffix_region (q : ParitionedArgs) (args : list PositionalArg) :=
  skipn (length args - num_suffix_args q) args.

Lemma regions_app q args :
  num_prefix_args q + num_suffix_args q <= length args ->
  args = prefix_region q args ++ vararg_region q args ++ suffix_region q args.
Proof.
  intros H. unfold prefix_region, vararg_region, suffix_region.
  rewrite <- (take_drop (num_prefix_args q) args) at 1. f_equal.
  set (n := length args - num_suffix_args q - num_prefix_args q).
  rewrite <- (take_drop n (drop (num_prefix_args q) args)) at 1. f_equal. rewrite drop_drop. f_equal. lia.
Qed.

Lemma regions_unique q a1 a2 a3 :
  length a1 = num_prefix_args q -> length a3 = num_suffix_args q ->
  let args := a1 ++ a2 ++ a3 in
  prefix_region q args = a1 /\ vararg_region q args = a2 /\ suffix_region q args = a3.
Proof.
  intros H1 H3. cbv zeta. unfold prefix_region, vararg_region, suffix_region. rewrite !length_app, <- H1, <- H3.
  split_and!.
  - by rewrite take_app_length.
  - rewrite drop_app_length. replace (length a1 + (length a2 + length a3) - length a3 - length a1) with (length a2) by lia.
    by rewrite take_app_length.
  - replace (length a1 + (length a2 + length a3) - length a3) with (length (a1 ++ a2)) by (rewrite length_app; lia).
    by rewrite app_assoc, drop_app_length.
Qed.

Lemma dealt_regions pats q args ms :
  partitions pats q ->
  dealt pats args ms <->
  num_prefix_args q + num_suffix_args q <= length args /\
  Forall2 valid (prefix_patterns q) (prefix_region q args) /\
  Forall2 valid (suffix_patterns q) (suffix_region q args) /\
  match vararg_pattern q with
  | Some v => admits v (vararg_region q args) /\ Forall (valid v) (vararg_region q args)
  | None => vararg_region q args = []
  end /\
  ms = zip_with typed (prefix_patterns q) (prefix_region q args) ++
       match vararg_pattern q with Some v => typed v <$> vararg_region q args | None => [] end ++
       zip_with typed (suffix_patterns q) (suffix_region q args).
Proof.
  intros Hq. rewrite dealt_partitions by exact Hq. destruct Hq as (_ & _ & _ & Hnp & Hns & _). split.
  - intros (a1 & a2 & a3 & -> & H1 & H3 & H2 & ->).
    pose proof (Forall2_length _ _ _ H1) as Hl1. pose proof (Forall2_length _ _ _ H3) as Hl3.
    destruct (regions_unique q a1 a2 a3) as (-> & -> & ->); [congruence..|].
    split_and!; [|done..]. rewrite !length_app. lia.
  - intros (Hl & H1 & H3 & H2 & ->). do 3 eexists. split_and!; [by apply regions_app|done..].
Qed.

Lemma rejected {A E} (r : result A E) (P : A -> Prop) :
  is_ok r = false -> (forall a, ~ P a) -> exists r', Some r = Some r' /\ forall a, r' = Ok a <-> P a.
Proof. intros Hr HP. exists r. split; [done|]. intros a. split; [by intros ->|intros []%HP]. Qed.

(** The last part: the suffix patterns, and whether an argument is left. *)
Lemma resolve_suffix program args q acc :
  Forall (fun m => exact m = true) (suffix_patterns q) ->
  num_suffix_args q = length (suffix_patterns q) -> num_suffix_args q <= length args ->
  exists r,
    (let?? suffix := get_range_checked (K := K) args (length args - num_suffix_args q) (length args) in
     let?? r := match_exact (suffix_patterns q) suffix 0 acc in
     let '(matched_args, _) := r in
     if length matched_args <? length args then
       let?? extra_args := get_range_checked args (length matched_args) (length args) in
       Some (Err (UnexpectedArguments program extra_args))
     else Some (Ok matched_args)) = Some r /\
    forall ms, r = Ok ms <->
      Forall2 valid (suffix_patterns q) (suffix_region q args) /\
      length args <= length acc + num_suffix_args q /\
      ms = acc ++ zip_with typed (suffix_patterns q) (suffix_region q args).
Proof.
  intros Hsuf Hns Hle. rewrite get_range_checked_in by lia.
  assert (Hlen : length (suffix_region q args) = num_suffix_args q) by (unfold suffix_region; rewrite length_drop; lia).
  replace (length args - (length args - num_suffix_args q)) with (length (suffix_region q args)) by lia.
  change (skipn (length args - num_suffix_args q) args) with (suffix_region q args). rewrite take_ge by lia.
  destruct (match_exact_spec (suffix_patterns q) (suffix_region q args) 0 acc Hsuf) as (r & -> & Hr); [lia|].
  cbv zeta in Hr. rewrite drop_0, take_ge in Hr by lia. destruct Hr as [[Hf ->]|[Hf Hr]].
  2:{ destruct r; [done|]. apply rejected; [done|]. tauto. }
  assert (Hz : length (acc ++ zip_with typed (suffix_patterns q) (suffix_region q args)) = length acc + num_suffix_args q).
  { rewrite length_app, length_zip_with. lia. }
  destruct (Nat.ltb_spec (length (acc ++ zip_with typed (suffix_patterns q) (suffix_region q args))) (length args)) as [Hlt|Hge].
  - rewrite get_range_checked_in by lia. apply rejected; [done|]. intros ms. lia.
  - eexists. split; [done|]. intros ms. split; [intros [= <-]; split_and!; [done|lia|done]|by intros (_ & _ & ->)].
Qed.

Lemma resolve_dealt program args pats :
  exists r, resolve_observed_args_with_patterns (K := K) program args pats = Some r /\
  forall ms, r = Ok ms <-> varargs pats <= 1 /\ dealt pats args ms.
Proof.
  unfold resolve_observed_args_with_patterns.
  pose proof (partition_args_spec program pats) as Hp. destruct (partition_args program pats) as [q|e].
  2:{ apply rejected; [done|]. intros ms [? _]. lia. }
  destruct Hp as [Hv Hq]. assert (HD : forall ms, varargs pats <= 1 /\ dealt pats args ms <-> _)
    by (intros ms; rewrite (dealt_regions pats q args ms Hq); reflexivity).
  destruct Hq as (_ & Hpre & Hsuf & Hnp & Hns & Hvar).
  destruct (decide (num_prefix_args q <= length args)) as [Hle|Hgt].
  2:{ rewrite get_range_checked_out by lia. apply rejected; [done|]. intros ms. rewrite HD. lia. }
  rewrite get_range_checked_in by lia. rewrite Nat.sub_0_r. cbn [skipn]. rewrite drop_0.
  destruct (match_exact_spec (prefix_patterns q) (firstn (num_prefix_args q) args) 0 [] Hpre) as (r & -> & Hr).
  { rewrite length_take. lia. }
  cbv zeta in Hr. rewrite drop_0, take_take, Hnp, Nat.min_id, <- Hnp in Hr. fold (prefix_region q args) in *.
  destruct Hr as [[Hf1 ->]|[Hf1 Hr]].
  2:{ destruct r; [done|]. apply rejected; [done|]. intros ms. rewrite HD. tauto. }
  destruct (Nat.ltb_spec (length args) (num_suffix_args q)) as [|Hs1].
  { apply rejected; [done|]. intros ms. rewrite HD. lia. }
  destruct (Nat.ltb_spec (length args - num_suffix_args q) (0 + num_prefix_args q)) as [|Hs2].
  { apply rejected; [done|]. intros ms. rewrite HD. lia. }
  cbn [app Nat.add] in *.
  assert (Hl1 : length (zip_with typed (prefix_patterns q) (prefix_region q args)) = num_prefix_args q).
  { rewrite length_zip_with, <- (Forall2_length _ _ _ Hf1). lia. }
  destruct (vararg_pattern q) as [v|].
  - rewrite get_range_checked_in by lia. fold (vararg_region q args).
    assert (Hl2 : length (vararg_region q args) = length args - num_suffix_args q - num_prefix_args q).
    { unfold vararg_region. rewrite length_take, length_drop. lia. }
    destruct (match_vararg_spec program v (vararg_region q args)
                (zip_with typed (prefix_patterns q) (prefix_region q args)) Hvar) as [(Ha & Hf2 & ->)|[Hn Hr]].
    2:{ destruct (match_vararg _ _ _ _); [done|]. apply rejected; [done|]. intros ms. rewrite HD. tauto. }
    destruct (resolve_suffix program args q
                (zip_with typed (prefix_patterns q) (prefix_region q args) ++ (typed v <$> vararg_region q args))
                Hsuf Hns Hs1) as (r & Hr & Hspec).
    exists r. split; [exact Hr|]. intros ms. rewrite Hspec, HD, length_app, length_fmap, <- app_assoc.
    intuition (auto; lia).
  - destruct (resolve_suffix program args q (zip_with typed (prefix_patterns q) (prefix_region q args)) Hsuf Hns Hs1)
      as (r & Hr & Hspec).
    exists r. split; [exact Hr|]. intros ms. rewrite Hspec, HD. simpl.
    assert (Hl2 : length args <= num_prefix_args q + num_suffix_args q <-> vararg_region q args = []).
    { rewrite <- length_zero_iff_nil. unfold vararg_region. rewrite length_take, length_drop. lia. }
    rewrite <- Hl2, Hl1. intuition (auto; lia).
Qed.

(** The resolver of the legacy policy never panics, and it accepts exactly when
    the patterns have at most one vararg and the positional arguments can be dealt
    out to them in order, one to each exact pattern, the rest to the vararg, every
    value valid for its type; the result types each argument with its pattern. *)
Theorem resolve_spec program args pats :
  exists r, resolve_observed_args_with_patterns (K := K) program args pats = Some r /\
  forall ms, r = Ok ms <-> varargs pats <= 1 /\ dealt pats args ms.
Proof. apply resolve_dealt. Qed.

End resolver.
End LegacyArgsFacts.
