(* ===== verification/LegacyPolicy.v ===== *)
(** The legacy execution policy ([execpolicy-legacy/src]): program specifications
    and how a call is checked against one ([opt.rs], [exec_call.rs],
    [program.rs]), the policy ([policy.rs]) and the builder the policy file's
    functions fill ([policy_parser.rs]), the check of the files a call touches
    ([execv_checker.rs]) and the verdict of the command line tool ([main.rs]).

    Outside the repository, and parameters here: regular expressions
    ([regex_lite]), making paths absolute ([path_absolutize]) and the executable
    bit of files.  Evaluating the policy file is Starlark's work; its builtins are
    modelled on the values they receive. *)

From stdpp Require Import base list option numbers strings gmap fin_sets.
From S2P Require Import Prelude RustStr ShellTree LegacyArgs.

Module LegacyPolicy.
Import LegacyArgs.

Open Scope rust_scope.

#[local] Existing Instance Shell.component_eq_dec.

(** ** opt.rs, exec_call.rs *)

Inductive OptMeta := Flag | Value (type : ArgType).

Record Opt := mkOpt { opt : str; meta : OptMeta; required : bool }.

Record ExecCall := mkExecCall { call_program : str; call_args : list str }.

(** ** program.rs *)

Record ProgramSpec := mkProgramSpec {
  spec_program : str;
  spec_system_path : list str;
  option_bundling : bool;
  combined_format : bool;
  allowed_options : gmap str Opt;
  arg_patterns : list ArgMatcher;
  forbidden : option str;
  required_options : gset str;
  should_match : list (list str);
  should_not_match : list (list str) }.

Definition ProgramSpec_new (program : str) (system_path : list str) (option_bundling combined_format : bool)
    (allowed_options : gmap str Opt) (arg_patterns : list ArgMatcher) (forbidden : option str)
    (should_match should_not_match : list (list str)) : ProgramSpec :=
  mkProgramSpec program system_path option_bundling combined_format allowed_options arg_patterns forbidden
    (dom (filter (fun p => required p.2 = true) allowed_options)) should_match should_not_match.

Inductive Forbidden :=
| ForbiddenProgram (program : str) (exec_call : ExecCall)
| ForbiddenArg (arg : str) (exec_call : ExecCall)
| ForbiddenExec (exec : ValidExec).

Inductive MatchedExec :=
| Match (exec : ValidExec)
| MatchForbidden (cause : Forbidden) (reason : str).

(** [Vec::sort] of strings. *)
Fixpoint insert_str (s : str) (l : list str) : list str :=
  match l with
  | [] => [s]
  | t :: l' => match str_compare s t with Gt => t :: insert_str s l' | _ => s :: l end
  end.

Definition sort_strs (l : list str) : list str := foldr insert_str [] l.

Definition DASH : str := lit "-".

Section policy.
Context {K : Type}.
Notation Result A := (result A (Error K)).

(** What the loop over the arguments keeps. *)
Record Scan := mkScan {
  expecting_option_value : option (str * ArgType);
  scan_args : list PositionalArg;
  matched_flags : list MatchedFlag;
  matched_opts : list MatchedOpt }.

(** One iteration on argument [arg] at position [index]. *)
Definition scan_arg (spec : ProgramSpec) (st : Scan) (index : nat) (arg : str) : Result Scan :=
  match expecting_option_value st with
  | Some (name, type) =>
      if starts_with DASH arg then Err (OptionFollowedByOptionInsteadOfValue (spec_program spec) name arg)
      else let? o := MatchedOpt_new name arg type in
           Ok (mkScan None (scan_args st) (matched_flags st) (matched_opts st ++ [o]))
  | None =>
      if arg == lit "--" then Err (DoubleDashNotSupportedYet (spec_program spec))
      else if starts_with DASH arg then
        match allowed_options spec !! arg with
        | Some o =>
            match meta o with
            | Flag => Ok (mkScan None (scan_args st) (matched_flags st ++ [mkMatchedFlag arg]) (matched_opts st))
            | Value type => Ok (mkScan (Some (arg, type)) (scan_args st) (matched_flags st) (matched_opts st))
            end
        | None => Err (UnknownOption (spec_program spec) arg)
        end
      else Ok (mkScan None (scan_args st ++ [mkPositional index arg]) (matched_flags st) (matched_opts st))
  end.

Fixpoint scan_loop (spec : ProgramSpec) (st : Scan) (index : nat) (args : list str) : Result Scan :=
  match args with
  | [] => Ok st
  | arg :: args => let? st := scan_arg spec st index arg in scan_loop spec st (S index) args
  end.

(** [ProgramSpec::check]; [None] is a panic. *)
Definition spec_check (spec : ProgramSpec) (exec_call : ExecCall) : option (Result MatchedExec) :=
  let?? st := Some (scan_loop spec (mkScan None [] [] []) 0 (call_args exec_call)) in
  match expecting_option_value st with
  | Some (name, _) => Some (Err (OptionMissingValue (spec_program spec) name))
  | None =>
      let?? matched_args := resolve_observed_args_with_patterns (spec_program spec) (scan_args st) (arg_patterns spec) in
      let matched_opt_names : gset str := list_to_set (opt_name <$> matched_opts st) in
      if negb (bool_decide (required_options spec ⊆ matched_opt_names)) then
        let options := sort_strs (elements (required_options spec ∖ matched_opt_names)) in
        Some (Err (MissingRequiredOptions (spec_program spec) options))
      else
        let exec := mkValidExec (spec_program spec) (matched_flags st) (matched_opts st) matched_args
                      (spec_system_path spec) in
        match forbidden spec with
        | Some reason => Some (Ok (MatchForbidden (ForbiddenExec exec) reason))
        | None => Some (Ok (Match exec))
        end
  end.

Record PositiveExampleFailedCheck := mkPositiveFailed { pos_program : str; pos_args : list str; pos_error : Error K }.
Record NegativeExamplePassedCheck := mkNegativePassed { neg_program : str; neg_args : list str }.

Definition verify_should_match_list (spec : ProgramSpec) : list PositiveExampleFailedCheck :=
  omap (fun good =>
          match spec_check spec (mkExecCall (spec_program spec) good) with
          | Some (Err error) => Some (mkPositiveFailed (spec_program spec) good error)
          | _ => None
          end) (should_match spec).

Definition verify_should_not_match_list (spec : ProgramSpec) : list NegativeExamplePassedCheck :=
  omap (fun bad =>
          match spec_check spec (mkExecCall (spec_program spec) bad) with
          | Some (Ok _) => Some (mkNegativePassed (spec_program spec) bad)
          | _ => None
          end) (should_not_match spec).

(** ** policy.rs *)

(** Regular expressions of [regex_lite]. *)
Context {Regex RegexError : Type}.
Context (regex_new : str -> result Regex RegexError) (regex_escape : str -> str) (is_match : Regex -> str -> bool).

Record ForbiddenProgramRegex := mkForbiddenRegex { regex : Regex; reason : str }.

Record Policy := mkPolicy {
  programs : gmap str (list ProgramSpec);
  forbidden_program_regexes : list ForbiddenProgramRegex;
  forbidden_substrings_pattern : option Regex }.

Definition Policy_new (programs : gmap str (list ProgramSpec)) (forbidden_program_regexes : list ForbiddenProgramRegex)
    (forbidden_substrings : list str) : result Policy RegexError :=
  if is_empty forbidden_substrings then Ok (mkPolicy programs forbidden_program_regexes None)
  else
    let escaped_substrings := join (lit "|") (regex_escape <$> forbidden_substrings) in
    let? pattern := regex_new (lit "(" ++ escaped_substrings ++ lit ")") in
    Ok (mkPolicy programs forbidden_program_regexes (Some pattern)).

(** The specifications of the program in order: the first that accepts decides,
    otherwise the last error. *)
Fixpoint check_specs (specs : list ProgramSpec) (exec_call : ExecCall) (last_err : Error K) : option (Result MatchedExec) :=
  match specs with
  | [] => Some (Err last_err)
  | spec :: specs =>
      match spec_check spec exec_call with
      | Some (Ok matched_exec) => Some (Ok matched_exec)
      | Some (Err err) => check_specs specs exec_call err
      | None => None
      end
  end.

(** [Policy::check]. *)
Definition check (policy : Policy) (exec_call : ExecCall) : option (Result MatchedExec) :=
  match find_first (fun r => is_match (regex r) (call_program exec_call)) (forbidden_program_regexes policy) with
  | Some r => Some (Ok (MatchForbidden (ForbiddenProgram (call_program exec_call) exec_call) (reason r)))
  | None =>
      match find_first (fun arg => is_some_and (forbidden_substrings_pattern policy) (fun r => is_match r arg))
              (call_args exec_call) with
      | Some arg =>
          Some (Ok (MatchForbidden (ForbiddenArg arg exec_call)
                      (lit "arg `" ++ arg ++ lit "` contains forbidden substring")))
      | None =>
          check_specs (default [] (programs policy !! call_program exec_call)) exec_call
            (NoSpecForProgram (call_program exec_call))
      end
  end.

(** [flat_iter], in the order of the map. *)
Definition flat_iter (policy : Policy) : list ProgramSpec := mjoin (snd <$> map_to_list (programs policy)).

Definition check_each_good_list_individually (policy : Policy) : list PositiveExampleFailedCheck :=
  mjoin (verify_should_match_list <$> flat_iter policy).

Definition check_each_bad_list_individually (policy : Policy) : list NegativeExamplePassedCheck :=
  mjoin (verify_should_not_match_list <$> flat_iter policy).

(** ** policy_parser.rs *)

Record PolicyBuilder := mkBuilder {
  b_programs : gmap str (list ProgramSpec);
  b_forbidden_program_regexes : list ForbiddenProgramRegex;
  b_forbidden_substrings : list str }.

Definition PolicyBuilder_new : PolicyBuilder := mkBuilder ∅ [] [].

Definition build (b : PolicyBuilder) : result Policy RegexError :=
  Policy_new (b_programs b) (b_forbidden_program_regexes b) (b_forbidden_substrings b).

Definition add_program_spec (b : PolicyBuilder) (program_spec : ProgramSpec) : PolicyBuilder :=
  let name := spec_program program_spec in
  mkBuilder (<[name := default [] (b_programs b !! name) ++ [program_spec]]> (b_programs b))
    (b_forbidden_program_regexes b) (b_forbidden_substrings b).

Definition add_forbidden_substrings (b : PolicyBuilder) (substrings : list str) : PolicyBuilder :=
  mkBuilder (b_programs b) (b_forbidden_program_regexes b) (b_forbidden_substrings b ++ substrings).

Definition add_forbidden_program_regex (b : PolicyBuilder) (regex : Regex) (reason : str) : PolicyBuilder :=
  mkBuilder (b_programs b) (b_forbidden_program_regexes b ++ [mkForbiddenRegex regex reason]) (b_forbidden_substrings b).

(** The options by name; a second one of the same name is an error. *)
Fixpoint collect_options (options : list Opt) (allowed_options : gmap str Opt) : result (gmap str Opt) str :=
  match options with
  | [] => Ok allowed_options
  | o :: options =>
      match allowed_options !! opt o with
      | Some _ => Err (lit "duplicate flag: " ++ opt o)
      | None => collect_options options (<[opt o := o]> allowed_options)
      end
  end.

Definition define_program (b : PolicyBuilder) (program : str) (system_path : option (list str))
    (option_bundling combined_format : option bool) (options : option (list Opt)) (args : option (list ArgMatcher))
    (forbidden : option str) (should_match should_not_match : option (list (list str))) : result PolicyBuilder str :=
  let? allowed_options := collect_options (default [] options) ∅ in
  Ok (add_program_spec b
        (ProgramSpec_new program (default [] system_path) (default false option_bundling) (default false combined_format)
           allowed_options (default [] args) forbidden (default [] should_match) (default [] should_not_match))).

Definition forbid_substrings (b : PolicyBuilder) (strings : list str) : PolicyBuilder := add_forbidden_substrings b strings.

Definition forbid_program_regex (b : PolicyBuilder) (regex reason : str) : result PolicyBuilder RegexError :=
  let? compiled_regex := regex_new regex in Ok (add_forbidden_program_regex b compiled_regex reason).

Definition opt_builtin (name : str) (type : ArgMatcher) (required : option bool) : Opt :=
  mkOpt name (Value (arg_type type)) (default false required).

Definition flag_builtin (name : str) : Opt := mkOpt name Flag false.

(** ** main.rs *)

Inductive Output :=
| OutputSafe (exec : ValidExec)
| OutputMatch (exec : ValidExec)
| OutputForbidden (reason : str) (cause : Forbidden)
| OutputUnverified (error : Error K).

Definition MATCHED_BUT_WRITES_FILES_EXIT_CODE : nat := 12.
Definition MIGHT_BE_SAFE_EXIT_CODE : nat := 13.
Definition FORBIDDEN_EXIT_CODE : nat := 14.

Definition check_command (policy : Policy) (exec_call : ExecCall) (require_safe : bool) : option (Output * nat) :=
  match check policy exec_call with
  | Some (Ok (Match exec)) =>
      if might_write_files exec then
        Some (OutputMatch exec, if require_safe then MATCHED_BUT_WRITES_FILES_EXIT_CODE else 0)
      else Some (OutputSafe exec, 0)
  | Some (Ok (MatchForbidden cause reason)) =>
      Some (OutputForbidden reason cause, if require_safe then FORBIDDEN_EXIT_CODE else 0)
  | Some (Err err) => Some (OutputUnverified err, if require_safe then MIGHT_BE_SAFE_EXIT_CODE else 0)
  | None => None
  end.

(** ** execv_checker.rs *)

(** [absolutize_from(cwd)] and [absolutize()] of [path_absolutize], and the
    executable test of the file system. *)
Context (absolutize_from : str -> str -> result str K) (absolutize : str -> result str K).
Context (is_executable_file : str -> bool).

(** [Path::is_relative] and [Path::starts_with] on Unix. *)
Definition is_relative (path : str) : bool :=
  match path with c :: _ => negb (c =? Shell.SLASH)%N | [] => true end.

Definition path_starts_with (path base : str) : bool :=
  bool_decide (firstn (length (Shell.components base)) (Shell.components path) = Shell.components base).

Definition ensure_absolute_path (path : str) (cwd : option str) : Result str :=
  let? r :=
    (if is_relative path then
       match cwd with
       | Some cwd => Ok (absolutize_from cwd path)
       | None => Err (CannotCheckRelativePath path)
       end
     else Ok (absolutize path)) in
  map_err (fun kind => CannotCanonicalizePath path kind) r.

(** The check of one argument or option value. *)
Definition check_value (cwd : option str) (readable_folders writeable_folders : list str) (arg_type : ArgType) (value : str)
    : Result unit :=
  match arg_type with
  | TReadableFile =>
      let? readable_file := ensure_absolute_path value cwd in
      if negb (existsb (fun folder => path_starts_with readable_file folder) readable_folders)
      then Err (ReadablePathNotInReadableFolders readable_file readable_folders) else Ok ()
  | TWriteableFile =>
      let? writeable_file := ensure_absolute_path value cwd in
      if negb (existsb (fun folder => path_starts_with writeable_file folder) writeable_folders)
      then Err (WriteablePathNotInWriteableFolders writeable_file writeable_folders) else Ok ()
  | TOpaqueNonFile | TUnknown | TPositiveInteger | TSedCommand | TLiteral _ => Ok ()
  end.

Fixpoint check_values (cwd : option str) (readable_folders writeable_folders : list str) (l : list (ArgType * str))
    : Result unit :=
  match l with
  | [] => Ok ()
  | (arg_type, value) :: l =>
      let? _ := check_value cwd readable_folders writeable_folders arg_type value in
      check_values cwd readable_folders writeable_folders l
  end.

(** [ExecvChecker::check]. *)
Definition execv_check (valid_exec : ValidExec) (cwd : option str) (readable_folders writeable_folders : list str)
    : Result str :=
  let? _ := check_values cwd readable_folders writeable_folders
              (((fun a => (arg_ty a, arg_value a)) <$> args valid_exec) ++
               ((fun o => (opt_type o, opt_value o)) <$> opts valid_exec)) in
  Ok (default (program valid_exec) (find_first is_executable_file (system_path valid_exec))).

End policy.

End LegacyPolicy.
