(* ===== verification/LegacyPolicyFacts.v ===== *)
(** Theorems on the legacy policy: a call is accepted exactly when it is a sequence
    of known flags, options with valid values and positional arguments that fit the
    patterns; forbidden programs and substrings decide before any specification;
    the tool reports a safe exit only for calls that write no file; and the file
    check keeps every file argument inside the given folders. *)

From stdpp Require Import base list option numbers strings gmap fin_sets.
From S2P Require Import Prelude RustStr ShellTree LegacyArgs LegacyArgsFacts LegacyPolicy.

Module LegacyPolicyFacts.
Import LegacyArgs LegacyArgsFacts LegacyPolicy.

Open Scope rust_scope.

(** ** The grammar of accepted calls *)

Inductive Item :=
| IFlag (name : str)
| IOpt (name value : str) (type : ArgType)
| IPositional (value : str).

Definition flatten (i : Item) : list str :=
  match i with IFlag name => [name] | IOpt name value _ => [name; value] | IPositional value => [value] end.

Definition flags_of (items : list Item) : list MatchedFlag :=
  omap (fun i => match i with IFlag name => Some (mkMatchedFlag name) | _ => None end) items.

Definition opts_of (items : list Item) : list MatchedOpt :=
  omap (fun i => match i with IOpt name value type => Some (mkMatchedOpt name value type) | _ => None end) items.

(** The positional arguments with their position among all arguments. *)
Fixpoint positional_of (index : nat) (items : list Item) : list PositionalArg :=
  match items with
  | [] => []
  | IPositional value :: items => mkPositional index value :: positional_of (S index) items
  | i :: items => positional_of (length (flatten i) + index) items
  end.

Section policy.
Context {K : Type}.

(** A known flag, a known option with a valid value, or an argument without a dash. *)
Definition item_ok (spec : ProgramSpec) (i : Item) : Prop :=
  match i with
  | IFlag name =>
      starts_with DASH name = true /\ name <> lit "--" /\
      exists o, allowed_options spec !! name = Some o /\ meta o = Flag
  | IOpt name value type =>
      starts_with DASH name = true /\ name <> lit "--" /\
      (exists o, allowed_options spec !! name = Some o /\ meta o = Value type) /\
      starts_with DASH value = false /\ validate (K := K) type value = Ok ()
  | IPositional value => starts_with DASH value = false
  end.

Definition append (st : Scan) (index : nat) (items : list Item) : Scan :=
  mkScan None (scan_args st ++ positional_of index items) (matched_flags st ++ flags_of items)
    (matched_opts st ++ opts_of items).

Lemma append_nil st index : expecting_option_value st = None -> append st index [] = st.
Proof. destruct st. simpl. intros ->. unfold append. simpl. by rewrite !app_nil_r. Qed.

Lemma append_cons st index i items :
  append st index (i :: items) = append (append st index [i]) (length (flatten i) + index) items.
Proof. destruct i; unfold append; simpl; by rewrite ?app_nil_r, <- ?app_assoc. Qed.

(** The scan of one item. *)
Lemma scan_item spec st index i rest :
  expecting_option_value st = None -> item_ok spec i ->
  scan_loop (K := K) spec st index (flatten i ++ rest) =
  scan_loop spec (append st index [i]) (length (flatten i) + index) rest.
Proof.
  intros He Hi. destruct i as [name|name value type|value]; cbn [flatten app scan_loop length]; unfold scan_arg at 1; rewrite He.
  - destruct Hi as (Hd & Hn & o & Ho & Hm). rewrite bool_decide_eq_false_2, Hd, Ho, Hm by done.
    unfold append. simpl. by rewrite !app_nil_r.
  - destruct Hi as (Hd & Hn & (o & Ho & Hm) & Hv & Hval). rewrite bool_decide_eq_false_2, Hd, Ho, Hm by done.
    cbn [scan_loop]. unfold scan_arg at 1. cbn [expecting_option_value]. rewrite Hv. unfold MatchedOpt_new. rewrite Hval.
    unfold append. simpl. by rewrite !app_nil_r.
  - simpl in Hi. rewrite bool_decide_eq_false_2, Hi; [unfold append; simpl; by rewrite !app_nil_r|].
    intros ->. done.
Qed.

Lemma scan_items spec st index items :
  expecting_option_value st = None -> Forall (item_ok spec) items ->
  scan_loop (K := K) spec st index (mjoin (flatten <$> items)) = Ok (append st index items).
Proof.
  intros He Hi. revert st index He. induction Hi as [|i items Hi Hall IH]; intros st index He.
  - simpl. by rewrite append_nil.
  - rewrite fmap_cons, mjoin_cons, scan_item, (append_cons st index i items) by done. by apply IH.
Qed.

(** A scan that ends without a pending option has read a sequence of items. *)
Lemma scan_loop_items spec args st index st' :
  scan_loop (K := K) spec st index args = Ok st' -> expecting_option_value st' = None ->
  match expecting_option_value st with
  | None => exists items, args = mjoin (flatten <$> items) /\ Forall (item_ok spec) items /\ st' = append st index items
  | Some (name, type) =>
      exists value items, args = value :: mjoin (flatten <$> items) /\
        starts_with DASH value = false /\ validate (K := K) type value = Ok () /\ Forall (item_ok spec) items /\
        st' = append (mkScan None (scan_args st) (matched_flags st) (matched_opts st ++ [mkMatchedOpt name value type]))
                (S index) items
  end.
Proof.
  revert st index. induction args as [|arg args IH]; intros st index Hs He; cbn [scan_loop] in Hs.
  - simplify_eq. rewrite He. exists []. by rewrite append_nil.
  - destruct (scan_arg spec st index arg) as [st1|] eqn:E; [|done]. unfold scan_arg in E.
    destruct (expecting_option_value st) as [[name type]|] eqn:Es.
    + destruct (starts_with DASH arg) eqn:Ed; [done|]. unfold MatchedOpt_new in E.
      destruct (validate type arg) as [[]|] eqn:Ev; [|done]. injection E as <-.
      destruct (IH _ _ Hs He) as (items & -> & Hi & ->). eauto 10.
    + destruct (bool_decide (arg = lit "--")) eqn:Edd; [done|]. apply bool_decide_eq_false in Edd.
      destruct (starts_with DASH arg) eqn:Ed.
      * destruct (allowed_options spec !! arg) as [o|] eqn:Eo; [|done].
        destruct (meta o) as [|type] eqn:Em; injection E as <-; specialize (IH _ _ Hs He); simpl in IH.
        -- destruct IH as (items & -> & Hi & ->). exists (IFlag arg :: items).
           split_and!; [done|constructor; [simpl; eauto 10|done]|].
           rewrite append_cons. f_equal. unfold append. simpl. by rewrite !app_nil_r.
        -- destruct IH as (value & items & -> & Hd & Hv & Hi & ->). exists (IOpt arg value type :: items).
           split_and!; [done|constructor; [simpl; eauto 10|done]|].
           rewrite append_cons. simpl. f_equal. unfold append. simpl. by rewrite !app_nil_r.
      * injection E as <-. destruct (IH _ _ Hs He) as (items & -> & Hi & ->).
        exists (IPositional arg :: items). split_and!; [done|by constructor|].
        rewrite append_cons. f_equal. unfold append. simpl. by rewrite !app_nil_r.
Qed.

(** What a specification makes of a sequence of items. *)
Definition exec_of (spec : ProgramSpec) (items : list Item) (ms : list MatchedArg) : ValidExec :=
  mkValidExec (spec_program spec) (flags_of items) (opts_of items) ms (spec_system_path spec).

Definition verdict (spec : ProgramSpec) (exec : ValidExec) : MatchedExec :=
  match forbidden spec with
  | Some reason => MatchForbidden (ForbiddenExec exec) reason
  | None => Match exec
  end.

Lemma spec_check_items spec call :
  exists r, spec_check (K := K) spec call = Some r /\
  forall m, r = Ok m <->
    exists items ms,
      call_args call = mjoin (flatten <$> items) /\ Forall (item_ok spec) items /\
      varargs (arg_patterns spec) <= 1 /\
      dealt (K := K) (arg_patterns spec) (positional_of 0 items) ms /\
      (forall name, name ∈ required_options spec -> name ∈ opt_name <$> opts_of items) /\
      m = verdict spec (exec_of spec items ms).
Proof.
  unfold spec_check. set (init := mkScan None [] [] []).
  assert (Hinit : forall items, append init 0 items = mkScan None (positional_of 0 items) (flags_of items) (opts_of items)) by done.
  destruct (scan_loop spec init 0 (call_args call)) as [st|e] eqn:E.
  2:{ apply rejected; [done|]. intros m (items & ms & Hc & Hi & _). rewrite Hc, scan_items in E by done. done. }
  destruct (expecting_option_value st) as [[name type]|] eqn:Es.
  { apply rejected; [done|]. intros m (items & ms & Hc & Hi & _). rewrite Hc, scan_items in E by done. by simplify_eq. }
  destruct (resolve_dealt (K := K) (spec_program spec) (scan_args st) (arg_patterns spec)) as (r & -> & Hr).
  destruct (scan_loop_items spec _ init 0 st E Es) as (items & Hc & Hi & ->).
  assert (Hun : forall items', call_args call = mjoin (flatten <$> items') -> Forall (item_ok spec) items' ->
            append init 0 items' = append init 0 items).
  { intros items' Hc' Hi'. rewrite Hc', scan_items in E by done. congruence. }
  rewrite Hinit in *. cbn [scan_args matched_flags matched_opts] in *.
  destruct r as [ms|e].
  2:{ apply rejected; [done|]. intros m (items' & ms & Hc' & Hi' & Hv & Hd & _).
      specialize (Hun _ Hc' Hi'). rewrite Hinit in Hun. injection Hun as H1 H2 H3. rewrite H1 in Hd.
      by pose proof (proj2 (Hr ms) (conj Hv Hd)). }
  destruct (proj1 (Hr ms) eq_refl) as [Hv Hd].
  assert (Hreq : required_options spec ⊆ (list_to_set (opt_name <$> opts_of items) : gset str) <->
            forall name, name ∈ required_options spec -> name ∈ opt_name <$> opts_of items) by set_solver.
  case_bool_decide as Hb; cbn [negb].
  - exists (Ok (verdict spec (exec_of spec items ms))). split; [unfold verdict; by destruct (forbidden spec)|].
    intros m. split.
    + intros [= <-]. exists items, ms. split_and!; try done. by apply Hreq.
    + intros (items' & ms' & Hc' & Hi' & _ & Hd' & _ & ->). specialize (Hun _ Hc' Hi'). rewrite Hinit in Hun.
      injection Hun as H1 H2 H3. rewrite H1 in Hd'. assert (ms' = ms) as ->.
      { pose proof (proj2 (Hr ms') (conj Hv Hd')). by simplify_eq. }
      unfold exec_of. by rewrite H2, H3.
  - apply rejected; [done|]. intros m (items' & ms' & Hc' & Hi' & _ & _ & Hq & _).
    specialize (Hun _ Hc' Hi'). rewrite Hinit in Hun. injection Hun as _ _ H3. rewrite H3 in Hq. by apply Hb, Hreq.
Qed.

(** A program specification of the legacy policy accepts exactly the calls whose
    arguments are, in order, known flags, known options each followed by a valid
    value that is not an option, and positional arguments that can be dealt out to
    the patterns, with every required option present: nothing in an accepted call
    is left unchecked.  The check never panics. *)
Theorem spec_check_spec spec call :
  exists r, spec_check (K := K) spec call = Some r /\
  forall m, r = Ok m <->
    exists items ms,
      call_args call = mjoin (flatten <$> items) /\ Forall (item_ok spec) items /\
      varargs (arg_patterns spec) <= 1 /\
      dealt (K := K) (arg_patterns spec) (positional_of 0 items) ms /\
      (forall name, name ∈ required_options spec -> name ∈ opt_name <$> opts_of items) /\
      m = verdict spec (exec_of spec items ms).
Proof. apply spec_check_items. Qed.

(** ** The policy *)

Context {Regex RegexError : Type}.
Context (regex_new : str -> result Regex RegexError) (regex_escape : str -> str) (is_match : Regex -> str -> bool).

(** What the documentation of [regex_lite] says of [escape] and alternatives: the
    group of the escaped strings is a regex and finds each of them literally. *)
Hypothesis regex_alternatives : forall l, l <> [] ->
  exists r, regex_new (lit "(" ++ join (lit "|") (regex_escape <$> l) ++ lit ")") = Ok r /\
  forall s, is_match r s = existsb (fun x => contains x s) l.

Notation check := (check (K := K) is_match).
Notation build := (build regex_new regex_escape).

Lemma build_ok b : exists p,
  build b = Ok p /\ programs p = b_programs b /\ forbidden_program_regexes p = b_forbidden_program_regexes b /\
  forall s, is_some_and (forbidden_substrings_pattern p) (fun r => is_match r s) =
            existsb (fun x => contains x s) (b_forbidden_substrings b).
Proof.
  unfold LegacyPolicy.build, Policy_new. destruct (is_empty (b_forbidden_substrings b)) eqn:E.
  - apply is_empty_true in E. rewrite E. by eexists.
  - apply is_empty_false in E. destruct (regex_alternatives _ E) as (r & -> & Hr). by eexists.
Qed.

Lemma check_specs_total specs call e : exists r, check_specs (K := K) specs call e = Some r.
Proof.
  revert e. induction specs as [|spec specs IH]; intros e; cbn [check_specs]; [eauto|].
  destruct (spec_check_items spec call) as ([m|err] & -> & _); eauto.
Qed.

Lemma check_specs_ok specs call e m :
  check_specs (K := K) specs call e = Some (Ok m) ->
  exists pre spec post, specs = pre ++ spec :: post /\ spec_check (K := K) spec call = Some (Ok m) /\
    Forall (fun s => exists err, spec_check (K := K) s call = Some (Err err)) pre.
Proof.
  revert e. induction specs as [|spec specs IH]; intros e; cbn [check_specs]; [done|].
  destruct (spec_check spec call) as [[m'|err]|] eqn:E; [|intros Hs|done].
  - intros [= ->]. by exists [], spec, specs.
  - destruct (IH _ Hs) as (pre & s & post & -> & Hm & Hf). exists (spec :: pre), s, post.
    split_and!; [done..|]. constructor; eauto.
Qed.

Lemma check_total p call : exists r, check p call = Some r.
Proof. unfold LegacyPolicy.check. destruct (find_first _ _); [eauto|]. destruct (find_first _ _); [eauto|]. apply check_specs_total. Qed.

Lemma verdict_match spec exec m : verdict spec exec = Match m -> forbidden spec = None /\ m = exec.
Proof. unfold verdict. destruct (forbidden spec); [done|]. by intros [= ->]. Qed.

(** A policy accepts a call as a match only if no forbidden program regex
    matches its program, no argument contains a forbidden substring, and the first
    specification of the program that takes the arguments is one that does not
    forbid it. *)
Theorem policy_match_sound b p call exec :
  build b = Ok p -> check p call = Some (Ok (Match exec)) ->
  (forall r, r ∈ b_forbidden_program_regexes b -> is_match (regex r) (call_program call) = false) /\
  (forall arg sub, arg ∈ call_args call -> sub ∈ b_forbidden_substrings b -> contains sub arg = false) /\
  exists pre spec post, b_programs b !! call_program call = Some (pre ++ spec :: post) /\
    forbidden spec = None /\ spec_check (K := K) spec call = Some (Ok (Match exec)) /\
    Forall (fun s => exists err, spec_check (K := K) s call = Some (Err err)) pre.
Proof.
  intros Hb Hc. destruct (build_ok b) as (p' & Hb' & Hp & Hr & Hs). rewrite Hb in Hb'. injection Hb' as <-.
  unfold LegacyPolicy.check in Hc. rewrite Hr in Hc.
  destruct (find_first _ (b_forbidden_program_regexes b)) eqn:E1; [done|].
  destruct (find_first _ (call_args call)) eqn:E2; [done|].
  rewrite find_first_None in E1. rewrite find_first_None in E2. split_and!; [by auto| |].
  - intros arg sub Ha Hsub. specialize (E2 arg Ha). rewrite Hs in E2.
    apply not_true_is_false. intros Hc'. apply not_true_iff_false in E2. apply E2, existsb_exists.
    exists sub. by rewrite <- list_elem_of_In.
  - destruct (check_specs_ok _ _ _ _ Hc) as (pre & spec & post & Hl & Hm & Hf).
    exists pre, spec, post. rewrite <- Hp. destruct (programs p !! call_program call); [|by destruct pre].
    simpl in Hl. subst. split_and!; [done| |done..].
    destruct (spec_check_items spec call) as (r & Hr' & Hi). rewrite Hm in Hr'. injection Hr' as <-.
    destruct (proj1 (Hi _) eq_refl) as (items & ms & _ & _ & _ & _ & _ & Hv). symmetry in Hv.
    by apply verdict_match in Hv as [? _].
Qed.

(** With [--require-safe], the tool exits with 0 exactly when it reports the
    call as safe, and then the policy matched the call and none of its options and
    arguments is a writeable file or of unknown type. *)
Theorem check_command_safe_exit p call out :
  check_command (K := K) is_match p call true = Some (out, 0) <->
  exists exec, out = OutputSafe exec /\ check p call = Some (Ok (Match exec)) /\
    (forall o, o ∈ opts exec -> opt_type o <> TWriteableFile /\ opt_type o <> TUnknown) /\
    (forall a, a ∈ args exec -> arg_ty a <> TWriteableFile /\ arg_ty a <> TUnknown).
Proof.
  unfold check_command. destruct (check_total p call) as ([[exec|cause reason]|err] & ->); [|naive_solver..].
  assert (Hw : forall t, might_write_file t = false <-> t <> TWriteableFile /\ t <> TUnknown)
    by (intros []; simpl; naive_solver).
  assert (Hm : might_write_files exec = false <->
    (forall o, o ∈ opts exec -> opt_type o <> TWriteableFile /\ opt_type o <> TUnknown) /\
    (forall a, a ∈ args exec -> arg_ty a <> TWriteableFile /\ arg_ty a <> TUnknown)).
  { unfold might_write_files. rewrite orb_false_iff, <- !not_true_iff_false, !existsb_exists.
    setoid_rewrite <- Hw. setoid_rewrite <- not_true_iff_false. setoid_rewrite <- list_elem_of_In. naive_solver. }
  destruct (might_write_files exec) eqn:E.
  - split; [done|]. intros (exec' & -> & [= <-] & H). by apply Hm in H.
  - split; [intros [= <-]; exists exec; split_and!; try done; apply Hm; done|]. by intros (exec' & -> & [= <-] & _).
Qed.

(** ** The file check *)

Context (absolutize_from : str -> str -> result str K) (absolutize : str -> result str K).
Context (is_executable_file : str -> bool).

Notation execv_check := (execv_check absolutize_from absolutize is_executable_file).
Notation ensure_absolute_path := (ensure_absolute_path absolutize_from absolutize).

(** A value of a file type names a file below one of the folders. *)
Definition contained (cwd : option str) (readable writeable : list str) (type : ArgType) (value : str) : Prop :=
  match type with
  | TReadableFile => exists file folder, ensure_absolute_path value cwd = Ok file /\ folder ∈ readable /\
      Shell.components folder `prefix_of` Shell.components file
  | TWriteableFile => exists file folder, ensure_absolute_path value cwd = Ok file /\ folder ∈ writeable /\
      Shell.components folder `prefix_of` Shell.components file
  | _ => True
  end.

Lemma path_starts_with_true path base :
  path_starts_with path base = true <-> Shell.components base `prefix_of` Shell.components path.
Proof.
  unfold path_starts_with. rewrite bool_decide_eq_true. split.
  - intros <-. apply prefix_take.
  - intros [k ->]. by rewrite take_app_length.
Qed.

Lemma below_folder file folders :
  negb (existsb (fun folder => path_starts_with file folder) folders) = false <->
  exists folder, folder ∈ folders /\ Shell.components folder `prefix_of` Shell.components file.
Proof.
  rewrite negb_false_iff, existsb_exists. setoid_rewrite path_starts_with_true. by setoid_rewrite list_elem_of_In.
Qed.

Lemma check_value_ok cwd readable writeable type value :
  check_value absolutize_from absolutize cwd readable writeable type value = Ok () <->
  contained cwd readable writeable type value.
Proof.
  unfold check_value, contained. destruct type; try done;
    (destruct (ensure_absolute_path value cwd) as [file|e]; [|naive_solver]);
    (destruct (negb _) eqn:E; [rewrite <- not_false_iff_true, below_folder in E|rewrite below_folder in E]);
    naive_solver.
Qed.

Lemma check_values_ok cwd readable writeable l :
  check_values absolutize_from absolutize cwd readable writeable l = Ok () <->
  Forall (fun tv => contained cwd readable writeable tv.1 tv.2) l.
Proof.
  induction l as [|[type value] l IH]; cbn [check_values]; [split; constructor|].
  rewrite Forall_cons, <- IH. cbn [fst snd]. rewrite <- check_value_ok.
  destruct (check_value _ _ _ _ _ _ _) as [[]|e]; naive_solver.
Qed.

(** The file check passes exactly when every argument and every option value
    of a file type resolves, against the working directory, to a path that lies
    component by component below one of the folders for its kind; the program it
    then names is the first executable of the trusted paths, or the program
    itself. *)
Theorem execv_check_spec exec cwd readable writeable prog :
  execv_check exec cwd readable writeable = Ok prog <->
  (forall a, a ∈ args exec -> contained cwd readable writeable (arg_ty a) (arg_value a)) /\
  (forall o, o ∈ opts exec -> contained cwd readable writeable (opt_type o) (opt_value o)) /\
  (prog = program exec /\ (forall f, f ∈ system_path exec -> is_executable_file f = false) \/
   exists pre post, system_path exec = pre ++ prog :: post /\ is_executable_file prog = true /\
     forall f, f ∈ pre -> is_executable_file f = false).
Proof.
  unfold LegacyPolicy.execv_check.
  assert (Hprog : default (program exec) (find_first is_executable_file (system_path exec)) = prog <->
    (prog = program exec /\ (forall f, f ∈ system_path exec -> is_executable_file f = false) \/
     exists pre post, system_path exec = pre ++ prog :: post /\ is_executable_file prog = true /\
       forall f, f ∈ pre -> is_executable_file f = false)).
  { rewrite <- find_first_None, <- find_first_Some. destruct (find_first _ _); simpl; naive_solver. }
  rewrite <- Hprog. clear Hprog.
  assert (Hval : check_values absolutize_from absolutize cwd readable writeable
      (((fun a => (arg_ty a, arg_value a)) <$> args exec) ++ ((fun o => (opt_type o, opt_value o)) <$> opts exec)) = Ok () <->
    (forall a, a ∈ args exec -> contained cwd readable writeable (arg_ty a) (arg_value a)) /\
    (forall o, o ∈ opts exec -> contained cwd readable writeable (opt_type o) (opt_value o))).
  { by rewrite check_values_ok, Forall_app, !Forall_fmap, !Forall_forall. }
  destruct (check_values _ _ _ _ _ _) as [[]|e]; naive_solver.
Qed.

End policy.

(** ** A concrete policy *)

(** Groups of escaped alternatives, as a regex that finds any of them. *)
Definition toy_escape (s : str) : str := mjoin ((fun c => [92%N; c]) <$> s).

Fixpoint toy_alternatives (acc s : str) : option (list str) :=
  match s with
  | [41%N] => Some [acc]
  | 92%N :: c :: s => toy_alternatives (acc ++ [c]) s
  | 124%N :: s => cons acc <$> toy_alternatives [] s
  | _ => None
  end.

Definition toy_regex_new (s : str) : result (list str) unit :=
  match s with
  | 40%N :: s => match toy_alternatives [] s with Some l => Ok l | None => Err () end
  | _ => Err ()
  end.

Definition toy_is_match (r : list str) (s : str) : bool := existsb (fun x => contains x s) r.

Lemma toy_alternatives_escape x acc rest :
  toy_alternatives acc (toy_escape x ++ rest) = toy_alternatives (acc ++ x) rest.
Proof.
  revert acc. induction x as [|c x IH]; intros acc; [by rewrite app_nil_r|].
  change (toy_alternatives (acc ++ [c]) (toy_escape x ++ rest) = toy_alternatives (acc ++ c :: x) rest).
  by rewrite IH, <- app_assoc.
Qed.

Lemma toy_regex_alternatives l : l <> [] ->
  exists r, toy_regex_new (lit "(" ++ join (lit "|") (toy_escape <$> l) ++ lit ")") = Ok r /\
  forall s, toy_is_match r s = existsb (fun x => contains x s) l.
Proof.
  intros Hl. exists l. split; [|done].
  assert (H : toy_alternatives [] (join (lit "|") (toy_escape <$> l) ++ lit ")") = Some l).
  { induction l as [|x l IH]; [done|]. destruct l as [|y l].
    - cbn [fmap list_fmap join]. by rewrite toy_alternatives_escape.
    - rewrite fmap_cons, join_cons, <- !app_assoc, toy_alternatives_escape by done.
      change (cons x <$> toy_alternatives [] (join (lit "|") (toy_escape <$> y :: l) ++ lit ")") = Some (x :: y :: l)).
      by rewrite IH. }
  change (toy_regex_new (40%N :: join (lit "|") (toy_escape <$> l) ++ lit ")") = Ok l). cbn [toy_regex_new]. by rewrite H.
Qed.

(** [head -n 100 file] under a specification of head. *)
Definition head_builder : PolicyBuilder (Regex := list str) :=
  match define_program (forbid_substrings PolicyBuilder_new [lit "$("; lit ";"]) (lit "head") (Some [lit "/bin/head"]) None None
          (Some [opt_builtin (lit "-n") PositiveInteger None; flag_builtin (lit "-q")]) (Some [ReadableFiles]) None None None with
  | Ok b => b
  | Err _ => PolicyBuilder_new
  end.

Definition head_policy : Policy :=
  match build toy_regex_new toy_escape head_builder with Ok p => p | Err _ => mkPolicy ∅ [] None end.

Definition head_call : ExecCall := mkExecCall (lit "head") [lit "-q"; lit "-n"; lit "100"; lit "a.txt"; lit "b.txt"].

Definition head_exec : ValidExec :=
  mkValidExec (lit "head") [mkMatchedFlag (lit "-q")] [mkMatchedOpt (lit "-n") (lit "100") TPositiveInteger]
    [mkMatchedArg 3 TReadableFile (lit "a.txt"); mkMatchedArg 4 TReadableFile (lit "b.txt")] [lit "/bin/head"].

Lemma policy_match_sound_witness :
  (forall r, r ∈ b_forbidden_program_regexes head_builder -> toy_is_match (regex r) (lit "head") = false) /\
  (forall arg sub, arg ∈ call_args head_call -> sub ∈ b_forbidden_substrings head_builder -> contains sub arg = false) /\
  exists pre spec post, b_programs head_builder !! lit "head" = Some (pre ++ spec :: post) /\
    forbidden spec = None /\ spec_check (K := unit) spec head_call = Some (Ok (Match head_exec)) /\
    Forall (fun s => exists err, spec_check (K := unit) s head_call = Some (Err err)) pre.
Proof.
  apply (policy_match_sound (K := unit) toy_regex_new toy_escape toy_is_match toy_regex_alternatives
           head_builder head_policy head_call head_exec); by vm_compute.
Defined.

End LegacyPolicyFacts.
