(* ===== verification/Invocation.v ===== *)
(** [apply-patch/src/invocation.rs]: recognising a patch in a command line, as a
    direct call or in a shell script, and working out the changes it would make
    before it is applied; with the parts of [utils/path-uri/src/lib.rs] that say how
    a path splits into segments.

    The shell grammar and the query over the syntax tree belong to tree-sitter: the
    matches of the query, with the nodes it captured by name, are a parameter.  So
    are the diff library and the path URIs.  The theorems are in the module
    [InvocationFacts]. *)

From stdpp Require Import base list option numbers strings gmap.
From S2P Require Import Prelude RustStr ShellTree PatchParser Replacements PatchApply PatchApplyFacts.

Module Invocation.
Import Patch Apply.

Open Scope rust_scope.

(** ** Paths *)

Inductive PathConvention := Posix | Windows.

#[export] Instance path_convention_eq_dec : EqDecision PathConvention.
Proof. solve_decision. Defined.

(** [str::split] on a predicate. *)
Fixpoint split_by (p : char -> bool) (s : str) : list str :=
  match s with
  | [] => [[]]
  | c :: s =>
      if p c then [] :: split_by p s
      else match split_by p s with [] => [[c]] | l :: ls => (c :: l) :: ls end
  end.

Definition BACKSLASH : char := 92.

Definition is_separator (convention : PathConvention) (c : char) : bool :=
  match convention with
  | Posix => (c =? Shell.SLASH)%N
  | Windows => (c =? Shell.SLASH)%N || (c =? BACKSLASH)%N
  end.

Definition path_segments (convention : PathConvention) (path : str) : list str :=
  split_by (is_separator convention) path.

(** [str::rsplit_once] on a char. *)
Definition rsplit_once (c : char) (s : str) : option (str * str) :=
  match split_once [c] (reverse s) with
  | Some (after, before) => Some (reverse before, reverse after)
  | None => None
  end.

(** ** Shells *)

Definition APPLY_PATCH_COMMANDS : list str := [lit "apply_patch"; lit "applypatch"].

Inductive ApplyPatchShell := Unix | PowerShell | Cmd.

Inductive ExtractHeredocError :=
| CommandDidNotStartWithApplyPatch
| FailedToLoadBashGrammar
| HeredocNotUtf8
| FailedToParsePatchIntoAst
| FailedToFindHeredocBody.

Inductive MaybeApplyPatch :=
| Body (args : ApplyPatchArgs)
| ShellParseError (e : ExtractHeredocError)
| PatchParseError (e : ParseError)
| NotApplyPatch.

Definition classify_shell_name (shell : str) (convention : PathConvention) : option str :=
  match last (path_segments convention shell) with
  | None => None
  | Some basename =>
      let stem :=
        match rsplit_once Shell.DOT basename with
        | Some (stem, _) => if is_empty stem then basename else stem
        | None => basename
        end in
      Some (to_ascii_lowercase stem)
  end.

Definition classify_shell (shell flag : str) (convention : PathConvention) : option ApplyPatchShell :=
  match classify_shell_name shell convention with
  | None => None
  | Some name =>
      if ((name == lit "bash") || (name == lit "zsh") || (name == lit "sh"))
         && ((flag == lit "-lc") || (flag == lit "-c")) then Some Unix
      else if ((name == lit "pwsh") || (name == lit "powershell"))
              && eq_ignore_ascii_case flag (lit "-command") then Some PowerShell
      else if (name == lit "cmd") && eq_ignore_ascii_case flag (lit "/c") then Some Cmd
      else None
  end.

Definition can_skip_flag (shell flag : str) (convention : PathConvention) : bool :=
  is_some_and (classify_shell_name shell convention) (fun name =>
    ((name == lit "pwsh") || (name == lit "powershell")) && eq_ignore_ascii_case flag (lit "-noprofile")).

Section invocation.
Context {uri fs : Type} `{PathUriOps uri} `{ExecutorFileSystem fs uri} `{Countable uri}.
Context (infer_path_convention : uri -> option PathConvention).

(** Tree-sitter on a script: the matches of the query, in order, each with its
    captured nodes; or that the grammar or the parse failed. *)
Context (query_matches : str -> result (list (list (str * Shell.Node))) ExtractHeredocError).

(** [TextDiff::from_lines(old, new).unified_diff().context_radius(n)]. *)
Context (unified_diff : nat -> str -> str -> str).

Definition parse_shell_script (argv : list str) (cwd : uri) : option (ApplyPatchShell * str) :=
  match infer_path_convention cwd with
  | None => None
  | Some convention =>
      match argv with
      | [shell; flag; script] => option_map (fun shell_type => (shell_type, script)) (classify_shell shell flag convention)
      | [shell; skip_flag; flag; script] =>
          if negb (can_skip_flag shell skip_flag convention) then None
          else option_map (fun shell_type => (shell_type, script)) (classify_shell shell flag convention)
      | _ => None
      end
  end.

(** ** The heredoc *)

(** [trim_end_matches] on newlines. *)
Definition trim_end_newlines (s : str) : str := trim_end_by (fun c => (c =? LF)%N) s.

(** The loop over the captures of one match: the heredoc and the [cd] path. *)
Fixpoint read_captures (captures : list (str * Shell.Node)) (heredoc_text cd_path : option str)
    : result (option str * option str) ExtractHeredocError :=
  match captures with
  | [] => Ok (heredoc_text, cd_path)
  | (name, node) :: captures =>
      if name == lit "heredoc" then
        match Shell.utf8_text node with
        | None => Err HeredocNotUtf8
        | Some text => read_captures captures (Some (trim_end_newlines text)) cd_path
        end
      else if name == lit "cd_path" then
        match Shell.utf8_text node with
        | None => Err HeredocNotUtf8
        | Some text => read_captures captures heredoc_text (Some text)
        end
      else if name == lit "cd_raw_string" then
        match Shell.utf8_text node with
        | None => Err HeredocNotUtf8
        | Some raw =>
            let trimmed :=
              default raw
                (match strip_prefix [Shell.SQUOTE] raw with
                 | Some s => strip_suffix [Shell.SQUOTE] s
                 | None => None
                 end) in
            read_captures captures heredoc_text (Some trimmed)
        end
      else read_captures captures heredoc_text cd_path
  end.

(** The loop over the matches: the first one with a heredoc. *)
Fixpoint first_heredoc (matches : list (list (str * Shell.Node)))
    : result (str * option str) ExtractHeredocError :=
  match matches with
  | [] => Err CommandDidNotStartWithApplyPatch
  | m :: matches =>
      let? r := read_captures m None None in
      match r with
      | (Some heredoc, cd_path) => Ok (heredoc, cd_path)
      | (None, _) => first_heredoc matches
      end
  end.

Definition extract_apply_patch_from_bash (src : str) : result (str * option str) ExtractHeredocError :=
  let? matches := query_matches src in first_heredoc matches.

Definition extract_apply_patch_from_shell (shell : ApplyPatchShell) (script : str)
    : result (str * option str) ExtractHeredocError :=
  match shell with Unix | PowerShell | Cmd => extract_apply_patch_from_bash script end.

(** ** maybe_parse_apply_patch *)

(** The shell heredoc form. *)
Definition parse_heredoc_form (argv : list str) (cwd : uri) : MaybeApplyPatch :=
  match parse_shell_script argv cwd with
  | Some (shell, script) =>
      match extract_apply_patch_from_shell shell script with
      | Ok (body, workdir) =>
          match parse_patch body with
          | Ok source => Body (mkArgs (args_patch source) (args_hunks source) workdir (args_environment_id source))
          | Err e => PatchParseError e
          end
      | Err CommandDidNotStartWithApplyPatch => NotApplyPatch
      | Err e => ShellParseError e
      end
  | None => NotApplyPatch
  end.

Definition maybe_parse_apply_patch (argv : list str) (cwd : uri) : MaybeApplyPatch :=
  match argv with
  | [cmd; body] =>
      if existsb (fun c => cmd == c) APPLY_PATCH_COMMANDS then
        match parse_patch body with
        | Ok source => Body source
        | Err e => PatchParseError e
        end
      else parse_heredoc_form argv cwd
  | _ => parse_heredoc_form argv cwd
  end.

(** ** The changes a patch would make *)

Inductive ApplyPatchFileChange :=
| Add (content : str)
| Delete (content : str)
| Update (diff : str) (move_path : option uri) (new_content : str).

Record ApplyPatchAction := mkAction { action_changes : gmap uri ApplyPatchFileChange; action_patch : str; action_cwd : uri }.

Inductive MaybeApplyPatchVerified :=
| VerifiedBody (action : ApplyPatchAction)
| VerifiedShellParseError (e : ExtractHeredocError)
| CorrectnessError (e : ApplyPatchError)
| VerifiedNotApplyPatch.

Record ApplyPatchFileUpdate := mkFileUpdate { update_diff : str; original_content : str; update_content : str }.

Definition unified_diff_from_chunks_with_context (f : fs) (path : uri) (chunks : list UpdateFileChunk) (context : nat)
    : result ApplyPatchFileUpdate ApplyPatchError :=
  let? p := derive_new_contents_from_chunks f path chunks in
  Ok (mkFileUpdate (unified_diff context (original_contents p) (new_contents p)) (original_contents p) (new_contents p)).

Definition unified_diff_from_chunks (f : fs) (path : uri) (chunks : list UpdateFileChunk)
    : result ApplyPatchFileUpdate ApplyPatchError :=
  unified_diff_from_chunks_with_context f path chunks 1.

(** [join], with its error as one of the crate's. *)
Definition join_path (cwd : uri) (path : str) : result uri ApplyPatchError := map_err ApplyPathUri (uri_join cwd path).

Definition join_opt (cwd : uri) (path : option str) : result (option uri) ApplyPatchError :=
  match path with
  | None => Ok None
  | Some p => let? u := join_path cwd p in Ok (Some u)
  end.

(** The change of one hunk, worked out on the current files. *)
Definition verify_hunk (effective_cwd : uri) (f : fs) (path : uri) (hunk : Hunk)
    : result ApplyPatchFileChange ApplyPatchError :=
  match hunk with
  | AddFile _ contents => Ok (Add contents)
  | DeleteFile _ =>
      let? content := map_err (ApplyIoError (lit "Failed to read " ++ uri_native_string path)) (fs_read_file_text f path) in
      Ok (Delete content)
  | UpdateFile _ move_path chunks =>
      let? u := unified_diff_from_chunks f path chunks in
      let? dest := join_opt effective_cwd move_path in
      Ok (Update (update_diff u) dest (update_content u))
  end.

Fixpoint verify_hunks (effective_cwd : uri) (f : fs) (hunks : list Hunk) (changes : gmap uri ApplyPatchFileChange)
    : result (gmap uri ApplyPatchFileChange) ApplyPatchError :=
  match hunks with
  | [] => Ok changes
  | hunk :: hunks =>
      let? path := join_path effective_cwd (hunk_source_path hunk) in
      let? change := verify_hunk effective_cwd f path hunk in
      verify_hunks effective_cwd f hunks (<[path := change]> changes)
  end.

Definition try_verify_apply_patch_args (args : ApplyPatchArgs) (cwd : uri) (f : fs)
    : result ApplyPatchAction ApplyPatchError :=
  let? workdir := join_opt cwd (args_workdir args) in
  let effective_cwd := default cwd workdir in
  let? changes := verify_hunks effective_cwd f (args_hunks args) ∅ in
  Ok (mkAction changes (args_patch args) effective_cwd).

Definition verify_apply_patch_args (args : ApplyPatchArgs) (cwd : uri) (f : fs) : MaybeApplyPatchVerified :=
  match try_verify_apply_patch_args args cwd f with
  | Ok action => VerifiedBody action
  | Err err => CorrectnessError err
  end.

Definition maybe_parse_apply_patch_verified (argv : list str) (cwd : uri) (f : fs) : MaybeApplyPatchVerified :=
  let raw_body := match argv with [body] => is_ok (parse_patch body) | _ => false end in
  if raw_body then CorrectnessError ImplicitInvocation else
  if is_some_and (parse_shell_script argv cwd) (fun p => is_ok (parse_patch p.2)) then CorrectnessError ImplicitInvocation else
  match maybe_parse_apply_patch argv cwd with
  | Body args => verify_apply_patch_args args cwd f
  | ShellParseError e => VerifiedShellParseError e
  | PatchParseError e => CorrectnessError (ApplyParseError e)
  | NotApplyPatch => VerifiedNotApplyPatch
  end.

End invocation.

End Invocation.

(** * Theorems

    Theorems on recognising and verifying patch invocations: a patch is only taken
    from an explicit call, and the changes that are shown before it is applied are
    the ones that applying it makes, as long as its hunks name different files. *)

Module InvocationFacts.
Import Patch Apply ApplyFacts Invocation.

Section facts.
Context {uri fs : Type} {HU : PathUriOps uri} {HF : ExecutorFileSystem fs uri}
  {HD : EqDecision uri} {HC : Countable uri} {HL : FileSystemLaws fs uri}.
Context (path_inj : forall u v : uri, to_path_buf u = to_path_buf v -> u = v).
Context (unified_diff : nat -> str -> str -> str).
Notation verify_hunks := (verify_hunks unified_diff).
Notation try_verify := (try_verify_apply_patch_args unified_diff).

(** ** What a successful hunk does to the texts *)

Definition new_text (u : uri) (chunks : list UpdateFileChunk) (s n : str) : Prop :=
  Replace.derive_new_contents s (uri_native_string u) chunks = Ok n.

Definition hunk_effect (cwd : uri) (h : Hunk) (g g' : uri -> option str) : Prop :=
  exists u, uri_join cwd (hunk_source_path h) = Ok u /\
  match h with
  | AddFile _ contents => forall v, g' v = if decide (v = u) then Some contents else g v
  | DeleteFile _ => forall v, g' v = if decide (v = u) then None else g v
  | UpdateFile _ None chunks =>
      exists s n, g u = Some s /\ new_text u chunks s n /\ forall v, g' v = if decide (v = u) then Some n else g v
  | UpdateFile _ (Some dest) chunks =>
      exists du s n, uri_join cwd dest = Ok du /\ g u = Some s /\ new_text u chunks s n /\
        forall v, g' v = if decide (v = u) then None else if decide (v = du) then Some n else g v
  end.

Lemma derive_text (f : fs) u chunks p :
  derive_new_contents_from_chunks f u chunks = Ok p ->
  fs_text f u = Some (original_contents p) /\ new_text u chunks (original_contents p) (new_contents p).
Proof.
  unfold derive_new_contents_from_chunks, new_text. destruct (fs_read_file_text f u) as [s|] eqn:Er; [|done]. cbn [map_err].
  destruct (Replace.derive_new_contents _ _ _) as [n|] eqn:En; [|done]. intros [= <-]. split; [by apply law_read_ok|done].
Qed.

Lemma apply_add_effect f d a ap (u : uri) contents f' d' a' :
  apply_add (f, d, a) ap u contents = ((f', d', a'), Ok tt) -> exact d' = true ->
  forall v, fs_text f' v = if decide (v = u) then Some contents else fs_text f v.
Proof.
  unfold apply_add. destruct (read_optional_file_text_for_delta f u (exact d)) as [ow ex] eqn:Er.
  destruct (write_file_with_missing_parent_retry f u contents) as [f1 [[]|e]] eqn:Ew; intros; simplify_eq/=.
  apply read_optional_true in Er as (_ & Hp & _). by apply (write_retry_ok _ _ _ _ Ew Hp).
Qed.

Lemma apply_delete_effect f d a ap (u : uri) f' d' a' :
  apply_delete (f, d, a) ap u = ((f', d', a'), Ok tt) -> exact d' = true ->
  forall v, fs_text f' v = if decide (v = u) then None else fs_text f v.
Proof.
  unfold apply_delete. destruct (with_context (ensure_not_directory f u) _); [|done].
  destruct (fs_remove f u) as [f1 [[]|e]] eqn:Em; intros Heq; simplify_eq/=.
  destruct (fs_read_file_text f u) as [s|] eqn:Er; simpl; [|done].
  intros [_ Hp]%note_existing_true. by apply (law_remove_ok _ _ _ Em Hp).
Qed.

Lemma apply_move_effect f d a ap (u dest : uri) p f' d' a' :
  fs_text f u = Some (original_contents p) ->
  plain f u -> apply_move (f, d, a) ap u dest p = ((f', d', a'), Ok tt) -> exact d' = true ->
  forall v, fs_text f' v = if decide (v = u) then None else if decide (v = dest) then Some (new_contents p) else fs_text f v.
Proof.
  intros Ht Hp. unfold apply_move. destruct (read_optional_file_text_for_delta f dest (exact d)) as [ow ex] eqn:Er.
  destruct (write_file_with_missing_parent_retry f dest (new_contents p)) as [f1 [[]|e]] eqn:Ew; [|done].
  destruct (with_context (ensure_not_directory f1 u) _); [|done].
  destruct (fs_remove f1 u) as [f2 [[]|e]] eqn:Em; intros Heq; simplify_eq/=. intros ->.
  apply read_optional_true in Er as (_ & Hpd & _). destruct (write_retry_ok _ _ _ _ Ew Hpd) as [Hw Hwp].
  intros v. rewrite (law_remove_ok _ _ _ Em) by (apply Hwp; [done|right; by rewrite Ht]). by rewrite Hw.
Qed.

Lemma apply_update_effect cwd f d a ap (u : uri) mv chunks f' d' a' :
  apply_update cwd (f, d, a) ap u mv chunks = ((f', d', a'), Ok tt) -> exact d' = true ->
  exists s n, fs_text f u = Some s /\ new_text u chunks s n /\
  match mv with
  | None => forall v, fs_text f' v = if decide (v = u) then Some n else fs_text f v
  | Some dest => exists du, uri_join cwd dest = Ok du /\
      forall v, fs_text f' v = if decide (v = u) then None else if decide (v = du) then Some n else fs_text f v
  end.
Proof.
  unfold apply_update. destruct (derive_new_contents_from_chunks f u chunks) as [p|] eqn:Ed; [|done].
  destruct (derive_text _ _ _ _ Ed) as [Ht Hn]. intros Ha Hex. exists (original_contents p), (new_contents p).
  split_and!; [done..|]. destruct mv as [dest|].
  - destruct (uri_join cwd dest) as [du|]; [|done]. exists du. split; [done|].
    eapply apply_move_effect; [done| |exact Ha|exact Hex].
    revert Ha. unfold apply_move. destruct (read_optional_file_text_for_delta f du _) as [ow ex] eqn:Er.
    assert (Hx : ex = true -> plain f u).
    { intros ->. apply read_optional_true in Er as (Hx & _). by apply note_existing_true in Hx as [_ ?]. }
    repeat case_goal; intros; simplify_eq/=; auto.
  - revert Ha. unfold apply_update_in_place. destruct (fs_write_file f u (new_contents p)) as [f1 [[]|e]] eqn:Ew; intros; simplify_eq/=.
    apply note_existing_true in Hex as [_ Hp]. by apply (law_write_ok _ _ _ _ Ew Hp).
Qed.

Lemma apply_hunk_effect cwd f d a h f' d' a' :
  apply_hunk cwd (f, d, a) h = ((f', d', a'), Ok tt) -> exact d' = true -> hunk_effect cwd h (fs_text f) (fs_text f').
Proof.
  unfold apply_hunk. destruct (uri_join cwd (hunk_source_path h)) as [u|] eqn:Ej; [|done]. intros Ha Hex.
  exists u. split; [done|]. destruct h as [p c|p|p [dest|] chunks].
  - by eapply apply_add_effect.
  - by eapply apply_delete_effect.
  - destruct (apply_update_effect _ _ _ _ _ _ _ _ _ _ _ Ha Hex) as (s & n & Ht & Hn & du & Hd & Hv). eauto 10.
  - destruct (apply_update_effect _ _ _ _ _ _ _ _ _ _ _ Ha Hex) as (s & n & Ht & Hn & Hv). eauto 10.
Qed.

(** ** Verified changes and applied hunks *)

Definition resolved (cwd : uri) (path : str) : list uri :=
  match uri_join cwd path with Ok u => [u] | Err _ => [] end.

(** The files a hunk writes or removes. *)
Definition hunk_targets (cwd : uri) (h : Hunk) : list uri :=
  resolved cwd (hunk_source_path h) ++
  match h with UpdateFile _ (Some dest) _ => resolved cwd dest | _ => [] end.

Definition targets (cwd : uri) (hs : list Hunk) : list uri := mjoin (hunk_targets cwd <$> hs).

(** The texts [g] are as the change of file [u] says. *)
Definition shown (c : ApplyPatchFileChange (uri := uri)) (u : uri) (g : uri -> option str) : Prop :=
  match c with
  | Add content => g u = Some content
  | Delete _ => g u = None
  | Update _ None n => g u = Some n
  | Update _ (Some dest) n => g u = None /\ g dest = Some n
  end.

(** The files a change speaks of. *)
Definition change_targets (u : uri) (c : ApplyPatchFileChange (uri := uri)) : list uri :=
  match c with Update _ (Some dest) _ => [u; dest] | _ => [u] end.

Lemma shown_ext c u g g' : (forall v, v ∈ change_targets u c -> g' v = g v) -> shown c u g -> shown c u g'.
Proof. intros Hg. destruct c as [?|?|? [dest|] ?]; simpl in *; rewrite !Hg by set_solver; done. Qed.

Lemma verify_hunk_shown cwd (f0 : fs) h u c g g' :
  uri_join cwd (hunk_source_path h) = Ok u -> verify_hunk unified_diff cwd f0 u h = Ok c ->
  hunk_effect cwd h g g' -> g u = fs_text f0 u -> NoDup (hunk_targets cwd h) ->
  shown c u g' /\ change_targets u c = hunk_targets cwd h /\ forall v, v ∉ hunk_targets cwd h -> g' v = g v.
Proof.
  intros Hu Hv (u' & Hu' & He) Hg. rewrite Hu in Hu'. injection Hu' as <-. unfold hunk_targets, resolved. rewrite Hu.
  destruct h as [p contents|p|p mv chunks]; simpl in Hv.
  - injection Hv as <-. intros _. split_and!; [by simpl; rewrite (He u), decide_True|done|]. intros v Hv. rewrite He, decide_False; set_solver.
  - destruct (fs_read_file_text f0 u); [|done]. injection Hv as <-. intros _.
    split_and!; [by simpl; rewrite (He u), decide_True|done|]. intros v Hv. rewrite He, decide_False; set_solver.
  - unfold unified_diff_from_chunks, unified_diff_from_chunks_with_context in Hv.
    destruct (derive_new_contents_from_chunks f0 u chunks) as [q|] eqn:Ed; [|done]. cbn [update_diff update_content] in Hv.
    destruct (derive_text _ _ _ _ Ed) as [Ht Hn]. destruct mv as [dest|]; cbn [join_opt] in Hv.
    + unfold join_path in Hv. destruct He as (du & s & n & Hdu & Hs & Hn' & He). rewrite Hdu in *. cbn [map_err] in Hv.
      injection Hv as <-. assert (s = original_contents q) as -> by congruence.
      assert (n = new_contents q) as -> by (unfold new_text in *; congruence).
      intros Hnd%NoDup_cons. destruct Hnd as [Hnd _]. simpl. split; [|split; [done|]].
      * rewrite !He, decide_True by done. rewrite decide_False, decide_True by set_solver. done.
      * intros v Hv. rewrite He, !decide_False; set_solver.
    + injection Hv as <-. destruct He as (s & n & Hs & Hn' & He). assert (s = original_contents q) as -> by congruence.
      assert (n = new_contents q) as -> by (unfold new_text in *; congruence). intros _.
      split_and!; [by simpl; rewrite (He u), decide_True|done|]. intros v Hv. rewrite He, decide_False; set_solver.
Qed.

Lemma apply_loop_exact cwd st hs f' d' a' r :
  apply_loop cwd st hs = ((f', d', a'), r) -> exact d' = true -> exact st.1.2 = true.
Proof using path_inj HL.
  revert st. induction hs as [|h hs IH]; intros [[f d] a]; simpl; [by intros; simplify_eq|].
  destruct (apply_hunk cwd (f, d, a) h) as [[[f1 d1] a1] [[]|e]] eqn:Eh; intros Hl Hex.
  - by destruct (apply_hunk_recorded path_inj _ _ _ _ _ _ _ _ _ Eh (IH _ Hl Hex)).
  - simplify_eq. by destruct (apply_hunk_recorded path_inj _ _ _ _ _ _ _ _ _ Eh Hex).
Qed.

Lemma verify_predicts cwd (f0 : fs) hs f d a f' d' a' cs cs' :
  apply_loop cwd (f, d, a) hs = ((f', d', a'), Ok tt) -> exact d' = true ->
  verify_hunks cwd f0 hs cs = Ok cs' -> NoDup (targets cwd hs) ->
  (forall v, v ∈ targets cwd hs -> fs_text f v = fs_text f0 v /\ cs !! v = None) ->
  (forall v, v ∉ targets cwd hs -> fs_text f' v = fs_text f v /\ cs' !! v = cs !! v) /\
  (forall v c, v ∈ targets cwd hs -> cs' !! v = Some c ->
     shown c v (fs_text f') /\ forall w, w ∈ change_targets v c -> w ∈ targets cwd hs).
Proof using path_inj HL.
  revert f d a cs. induction hs as [|h hs IH]; intros f d a cs; cbn [apply_loop Invocation.verify_hunks].
  { intros Ha Hex Hv _ _. simplify_eq. split; [done|]. intros v c Hin. set_solver. }
  destruct (apply_hunk cwd (f, d, a) h) as [[[f1 d1] a1] [[]|e]] eqn:Eh; [|done]. intros Hl Hex.
  unfold join_path. destruct (uri_join cwd (hunk_source_path h)) as [u|] eqn:Eu; [|done]. cbn [map_err].
  destruct (verify_hunk unified_diff cwd f0 u h) as [c|] eqn:Ec; [|done]. intros Hv Hnd Hin.
  unfold targets in *. rewrite fmap_cons, mjoin_cons in *. fold (targets cwd hs) in *.
  apply NoDup_app in Hnd as (Hnd1 & Hdis & Hnd2).
  assert (Hu : u ∈ hunk_targets cwd h) by (unfold hunk_targets, resolved; rewrite Eu; set_solver).
  destruct (verify_hunk_shown cwd f0 h u c (fs_text f) (fs_text f1)) as (Hs & Hct & Ho); auto.
  { eapply apply_hunk_effect; [done|]. by apply (apply_loop_exact _ _ _ _ _ _ _ Hl). }
  { apply Hin. set_solver. }
  destruct (IH f1 d1 a1 (<[u := c]> cs) Hl Hex Hv Hnd2) as [IH1 IH2].
  { intros v Hv'. rewrite Ho by (intros ?; by apply (Hdis v)). rewrite lookup_insert_ne by (intros ->; by apply (Hdis v)).
    apply Hin. set_solver. }
  split.
  - intros v Hv'. destruct (IH1 v) as [-> ->]; [set_solver|]. rewrite Ho by set_solver.
    rewrite lookup_insert_ne by set_solver. done.
  - intros v c' Hv' Hc'. destruct (decide (v ∈ targets cwd hs)) as [Hin'|Hnin].
    + destruct (IH2 v c' Hin' Hc') as [? Hw]. split; [done|]. intros w ?%Hw. set_solver.
    + destruct (IH1 v Hnin) as [_ Hcs]. rewrite Hc' in Hcs. destruct (decide (v = u)) as [->|Hne].
      * rewrite lookup_insert_eq in Hcs. simplify_eq. rewrite Hct. split; [|set_solver].
        eapply shown_ext; [|exact Hs]. intros w. rewrite Hct. intros Hw. apply IH1. by apply Hdis.
      * rewrite lookup_insert_ne in Hcs by done. destruct (Hin v) as [_ Hn]; [set_solver|]. congruence.
Qed.

(** C31: When the hunks of a patch write and remove pairwise different files, the
    changes worked out before applying are the ones applying makes: after a
    successful run whose delta is exact, every file in the list of changes has the
    announced text, a removed or renamed file is gone and its new name has the
    announced text, and no file outside the patch has changed. *)
Theorem verify_predicts_apply args cwd (f : fs) action f' d a :
  try_verify args cwd f = Ok action ->
  apply_hunks_to_files (action_cwd action) f empty_delta (args_hunks args) = (f', d, Ok a) -> exact d = true ->
  NoDup (targets (action_cwd action) (args_hunks args)) ->
  (forall v c, action_changes action !! v = Some c -> shown c v (fs_text f')) /\
  (forall v, v ∉ targets (action_cwd action) (args_hunks args) ->
     fs_text f' v = fs_text f v /\ action_changes action !! v = None).
Proof using path_inj HL.
  unfold try_verify_apply_patch_args. destruct (join_opt cwd (args_workdir args)) as [wd|]; [|done].
  destruct (verify_hunks _ f (args_hunks args) ∅) as [cs|] eqn:Ev; [|done]. intros [= <-]. cbn [action_cwd action_changes].
  unfold apply_hunks_to_files. destruct (is_empty (args_hunks args)); [done|].
  destruct (apply_loop _ _ _) as [[[f1 d1] a1] [[]|e]] eqn:El; intros Heq Hex Hnd; simplify_eq.
  destruct (verify_predicts _ f _ _ _ _ _ _ _ _ _ El Hex Ev Hnd) as [Ho Hs].
  { intros v _. by rewrite lookup_empty. }
  split.
  - intros v c Hc. destruct (decide (v ∈ targets (default cwd wd) (args_hunks args))) as [Hin|Hout].
    + by apply Hs.
    + destruct (Ho v Hout) as [_ Hn]. rewrite lookup_empty in Hn. congruence.
  - intros v Hv. destruct (Ho v Hv) as [-> ->]. by rewrite lookup_empty.
Qed.

(** ** Explicit invocations *)

Context (infer_path_convention : uri -> option PathConvention).
Context (query_matches : str -> result (list (list (str * Shell.Node))) ExtractHeredocError).
Notation parse_shell_script := (parse_shell_script infer_path_convention).
Notation verified := (maybe_parse_apply_patch_verified infer_path_convention query_matches unified_diff).

(** The patch a command line calls for, and the directory it asks for. *)
Inductive invokes (argv : list str) (cwd : uri) : ApplyPatchArgs -> Prop :=
| invokes_direct cmd body source :
    argv = [cmd; body] -> cmd = lit "apply_patch" \/ cmd = lit "applypatch" -> parse_patch body = Ok source ->
    invokes argv cwd source
| invokes_heredoc shell script matches pre m post body workdir source :
    parse_shell_script argv cwd = Some (shell, script) ->
    query_matches script = Ok matches -> matches = pre ++ m :: post ->
    read_captures m None None = Ok (Some body, workdir) ->
    Forall (fun m' => exists wd, read_captures m' None None = Ok (None, wd)) pre ->
    parse_patch body = Ok source ->
    invokes argv cwd (mkArgs (args_patch source) (args_hunks source) workdir (args_environment_id source)).

Lemma first_heredoc_Ok matches body workdir :
  first_heredoc matches = Ok (body, workdir) ->
  exists pre m post, matches = pre ++ m :: post /\ read_captures m None None = Ok (Some body, workdir) /\
    Forall (fun m' => exists wd, read_captures m' None None = Ok (None, wd)) pre.
Proof.
  induction matches as [|m matches IH]; cbn [first_heredoc]; [done|].
  destruct (read_captures m None None) as [[[heredoc|] wd]|] eqn:E; [|intros Hh|done].
  - intros [= -> ->]. by exists [], m, matches.
  - destruct (IH Hh) as (pre & m' & post & -> & Hm & Hf). exists (m :: pre), m', post.
    split_and!; [done..|]. constructor; eauto.
Qed.

Lemma maybe_parse_Body argv cwd args :
  maybe_parse_apply_patch infer_path_convention query_matches argv cwd = Body args -> invokes argv cwd args.
Proof.
  assert (Hh : parse_heredoc_form infer_path_convention query_matches argv cwd = Body args -> invokes argv cwd args).
  { unfold parse_heredoc_form. destruct (parse_shell_script argv cwd) as [[shell script]|] eqn:Es; [|done].
    assert (Hx : extract_apply_patch_from_shell query_matches shell script = extract_apply_patch_from_bash query_matches script)
      by (by destruct shell).
    rewrite Hx. unfold extract_apply_patch_from_bash. destruct (query_matches script) as [matches|[]] eqn:Eq; try done.
    destruct (first_heredoc matches) as [[body wd]|[]] eqn:Eh; try done.
    destruct (parse_patch body) as [source|] eqn:Ep; [|done]. intros [= <-].
    destruct (first_heredoc_Ok _ _ _ Eh) as (pre & m & post & Hm & Hr & Hf). by eapply invokes_heredoc. }
  unfold maybe_parse_apply_patch. destruct argv as [|cmd [|body [|? ?]]]; try exact Hh.
  destruct (existsb _ _) eqn:Ec; [|exact Hh]. destruct (parse_patch body) as [source|] eqn:Ep; [|done]. intros [= <-].
  eapply invokes_direct; [done| |done]. apply existsb_exists in Ec as (c & Hin & Hc).
  apply bool_decide_eq_true in Hc. subst c. destruct Hin as [<-|[<-|[]]]; auto.
Qed.

(** A command line yields changes to apply only if it calls apply_patch
    explicitly, with the patch as its argument or in the heredoc of a recognised
    shell script; a patch that stands in the place of the command, or of the whole
    script, is refused as an implicit invocation, whatever it contains. *)
Theorem verified_needs_invocation argv cwd (f : fs) :
  match verified argv cwd f with
  | VerifiedBody action =>
      (exists args, invokes argv cwd args /\ try_verify args cwd f = Ok action) /\
      (forall body, argv = [body] -> is_ok (parse_patch body) = false) /\
      (forall shell script, parse_shell_script argv cwd = Some (shell, script) -> is_ok (parse_patch script) = false)
  | _ =>
      forall body, (argv = [body] \/ exists shell, parse_shell_script argv cwd = Some (shell, body)) ->
        is_ok (parse_patch body) = true -> verified argv cwd f = CorrectnessError ImplicitInvocation
  end.
Proof.
  unfold maybe_parse_apply_patch_verified at 1.
  destruct (match argv with [body] => is_ok (parse_patch body) | _ => false end) eqn:Eraw.
  { intros body _ _. unfold maybe_parse_apply_patch_verified. by rewrite Eraw. }
  destruct (is_some_and (parse_shell_script argv cwd) _) eqn:Es.
  { intros body _ _. unfold maybe_parse_apply_patch_verified. by rewrite Eraw, Es. }
  assert (Hraw : forall body, argv = [body] -> is_ok (parse_patch body) = false) by (by intros body ->).
  assert (Hsh : forall shell script, parse_shell_script argv cwd = Some (shell, script) -> is_ok (parse_patch script) = false)
    by (intros shell script E; by rewrite E in Es).
  assert (Hno : forall body, (argv = [body] \/ exists shell, parse_shell_script argv cwd = Some (shell, body)) ->
    is_ok (parse_patch body) = true -> verified argv cwd f = CorrectnessError ImplicitInvocation).
  { intros body [E|[shell E]] Hok; [rewrite (Hraw _ E) in Hok|rewrite (Hsh _ _ E) in Hok]; done. }
  destruct (maybe_parse_apply_patch _ _ argv cwd) as [args|e|e|] eqn:Em; try exact Hno.
  unfold verify_apply_patch_args. destruct (try_verify args cwd f) as [action|err] eqn:Et; [|exact Hno].
  split_and!; [|done..]. exists args. split; [by apply maybe_parse_Body|done].
Qed.

End facts.

(** ** On the in-memory file system *)

Section Examples.
Import ApplyFacts.Mem.

Definition no_diff (context : nat) (old new : str) : str := [].

(** A patch with an addition, a removal and a renaming update. *)
Definition example_args : ApplyPatchArgs := mkArgs [] Mem.hunks None None.

Definition example_action : ApplyPatchAction (uri := str) :=
  match try_verify_apply_patch_args no_diff example_args cwd start with
  | Ok action => action
  | Err _ => mkAction ∅ [] cwd
  end.

Definition example_run := apply_hunks_to_files cwd start empty_delta Mem.hunks.

Lemma verify_predicts_apply_witness :
  (forall v c, action_changes example_action !! v = Some c -> shown c v (fs_text example_run.1.1)) /\
  (forall v, v ∉ targets cwd Mem.hunks ->
     fs_text example_run.1.1 v = fs_text start v /\ action_changes example_action !! v = None).
Proof.
  apply (verify_predicts_apply mem_path_inj no_diff example_args cwd start example_action example_run.1.1 example_run.1.2
           (mkAffected [lit "n/x"] [lit "c"] [lit "b"])); [by vm_compute..|].
  apply (bool_decide_unpack _). by vm_compute.
Defined.

(** Two updates of one file. *)
Definition twice : list Hunk :=
  [UpdateFile (lit "a") None [mkChunk None [lit "one"] [lit "uno"] false];
   UpdateFile (lit "a") None [mkChunk None [lit "two"] [lit "due"] false]].

Definition two_lines (x y : str) : str := x ++ [LF] ++ y ++ [LF].

(** Two hunks that update the same file: the changes shown for the patch keep
    only the second, worked out on the file as it was, while applying the patch
    makes both; the text announced for the file is not the text it ends up with. *)
Theorem verify_shows_last_hunk_only :
  let f := mkMem {[ lit "w/a" := two_lines (lit "one") (lit "two") ]} {[ cwd ]} in
  exists action f' d a,
    try_verify_apply_patch_args no_diff (mkArgs [] twice None None) cwd f = Ok action /\
    apply_hunks_to_files cwd f empty_delta twice = (f', d, Ok a) /\ exact d = true /\
    action_changes action !! lit "w/a" = Some (Update [] None (two_lines (lit "one") (lit "due"))) /\
    fs_text f' (lit "w/a") = Some (two_lines (lit "uno") (lit "due")).
Proof.
  do 4 eexists. split_and!; by vm_compute.
Qed.

End Examples.

End InvocationFacts.
