(* ===== verification/ParseCommand.v ===== *)
(** Summaries of commands ([shell-command/src/parse_command.rs]): what a command
    reads, lists or searches, for display; and unwrapping PowerShell calls
    ([shell-command/src/powershell.rs]).  Splitting and joining words in shell
    syntax is the library shlex, and syntax trees come from the shell grammar: both
    are parameters.  Paths are those of Unix. *)

From stdpp Require Import base list option numbers strings.
From S2P Require Import Prelude RustStr ShellTree.

Module ParseCommand.

Open Scope rust_scope.

(** ** protocol/src/parse_command.rs *)

Inductive ParsedCommand :=
| Read (cmd name path : str)
| ListFiles (cmd : str) (path : option str)
| Search (cmd : str) (query path : option str)
| Unknown (cmd : str).

#[export] Instance parsed_command_eq_dec : EqDecision ParsedCommand.
Proof. solve_decision. Defined.

(** [matches!(a, "x" | "y" | ..)]. *)
Definition one_of (a : str) (l : list string) : bool := existsb (fun s => a == lit s) l.

Definition dashed (a : str) : bool := starts_with (lit "-") a.
Definition all_ascii_digits (s : str) : bool := forallb is_ascii_digit s.

(** ** powershell.rs *)

Definition POWERSHELL_FLAGS : list string := ["-nologo"; "-noprofile"; "-command"; "-c"]%string.

Definition UTF8_OUTPUT_PREFIX : str :=
  lit "try { [Console]::OutputEncoding=[System.Text.Encoding]::UTF8 } catch {}" ++ [LF].

(** The loop over the flags from position [i]. *)
Fixpoint find_powershell_script (args : list str) : option str :=
  match args with
  | flag :: (script :: _) as rest =>
      if negb (one_of (to_ascii_lowercase flag) POWERSHELL_FLAGS) then None
      else if eq_ignore_ascii_case flag (lit "-Command") || eq_ignore_ascii_case flag (lit "-c") then Some script
      else find_powershell_script rest
  | _ => None
  end.

Definition extract_powershell_command (command : list str) : option (str * str) :=
  if length command <? 3 then None
  else
    match command with
    | [] => None
    | shell :: args =>
        match Shell.detect_shell_type shell with
        | Some Shell.PowerShell => option_map (fun script => (shell, script)) (find_powershell_script args)
        | _ => None
        end
    end.

Definition prefix_powershell_script_with_utf8 (command : list str) : list str :=
  match extract_powershell_command command with
  | None => command
  | Some (_, script) =>
      let trimmed := trim_start script in
      let script := if starts_with UTF8_OUTPUT_PREFIX trimmed then script else UTF8_OUTPUT_PREFIX ++ script in
      firstn (length command - 1) command ++ [script]
  end.

(** ** Connectors and operands *)

Definition is_connector (t : str) : bool := one_of t ["&&"; "||"; "|"; ";"]%string.

Definition contains_connectors (tokens : list str) : bool := existsb is_connector tokens.

Fixpoint split_loop (tokens : list str) (out : list (list str)) (cur : list str) : list (list str) :=
  match tokens with
  | [] => if is_empty cur then out else out ++ [cur]
  | t :: tokens =>
      if is_connector t then
        if is_empty cur then split_loop tokens out cur else split_loop tokens (out ++ [cur]) []
      else split_loop tokens out (cur ++ [t])
  end.

Definition split_on_connectors (tokens : list str) : list (list str) := split_loop tokens [] [].

Fixpoint trim_at_connector (tokens : list str) : list str :=
  match tokens with
  | [] => []
  | t :: tokens => if is_connector t then [] else t :: trim_at_connector tokens
  end.

Definition BACKSLASH : char := 92.

Definition short_display_path (path : str) : str :=
  let normalized := List.map (fun c => if (c =? BACKSLASH)%N then Shell.SLASH else c) path in
  let trimmed := trim_end_by (fun c => (c =? Shell.SLASH)%N) normalized in
  default trimmed
    (find_first (fun p => negb (is_empty p) && negb (one_of p ["build"; "dist"; "node_modules"; "src"]%string))
       (reverse (split_on Shell.SLASH trimmed))).

(** [--flag=value]. *)
Definition is_assignment (a : str) : bool := starts_with (lit "--") a && contains_char 61 a.

Fixpoint skip_flag_values (args : list str) (flags_with_vals : list string) : list str :=
  match args with
  | [] => []
  | a :: rest =>
      if a == lit "--" then rest
      else if is_assignment a then skip_flag_values rest flags_with_vals
      else if one_of a flags_with_vals then
        match rest with [] => [] | _ :: rest => skip_flag_values rest flags_with_vals end
      else a :: skip_flag_values rest flags_with_vals
  end.

Fixpoint positional_operands (args : list str) (flags_with_vals : list string) : list str :=
  match args with
  | [] => []
  | arg :: rest =>
      if arg == lit "--" then rest
      else if is_assignment arg then positional_operands rest flags_with_vals
      else if one_of arg flags_with_vals then
        match rest with [] => [] | _ :: rest => positional_operands rest flags_with_vals end
      else if dashed arg then positional_operands rest flags_with_vals
      else arg :: positional_operands rest flags_with_vals
  end.

Definition first_non_flag_operand (args : list str) (flags_with_vals : list string) : option str :=
  head (positional_operands args flags_with_vals).

Definition single_non_flag_operand (args : list str) (flags_with_vals : list string) : option str :=
  match positional_operands args flags_with_vals with [first] => Some first | _ => None end.

Definition non_flags (l : list str) : list str := List.filter (fun a => negb (dashed a)) l.

(** ** sed and awk *)

Definition is_valid_sed_n_arg (arg : option str) : bool :=
  match arg with
  | None => false
  | Some s =>
      match strip_suffix (lit "p") s with
      | None => false
      | Some core =>
          match split_on 44 core with
          | [num] => negb (is_empty num) && all_ascii_digits num
          | [a; b] => negb (is_empty a) && negb (is_empty b) && all_ascii_digits a && all_ascii_digits b
          | _ => false
          end
      end
  end.

(** The loop over the options that carry a script. *)
Fixpoint has_range_option (args : list str) : bool :=
  match args with
  | [] => false
  | arg :: rest =>
      if one_of arg ["-e"; "--expression"]%string then
        match rest with
        | [] => false
        | next :: rest => is_valid_sed_n_arg (Some next) || has_range_option rest
        end
      else if one_of arg ["-f"; "--file"]%string then
        match rest with [] => false | _ :: rest => has_range_option rest end
      else has_range_option rest
  end.

Definition sed_read_path (args : list str) : option str :=
  let args_no_connector := trim_at_connector args in
  if negb (existsb (fun arg => arg == lit "-n") args_no_connector) then None else
  let has_range_script :=
    has_range_option args_no_connector
    || existsb (fun arg => negb (dashed arg) && is_valid_sed_n_arg (Some arg)) args_no_connector in
  if negb has_range_script then None else
  match non_flags (skip_flag_values args_no_connector ["-e"; "-f"; "--expression"; "--file"]%string) with
  | [] => None
  | first :: rest => if is_valid_sed_n_arg (Some first) then head rest else Some first
  end.

Definition awk_data_file_operand (args : list str) : option str :=
  if is_empty args then None else
  let args_no_connector := trim_at_connector args in
  let has_script_file := existsb (fun arg => one_of arg ["-f"; "--file"]%string) args_no_connector in
  let candidates :=
    skip_flag_values args_no_connector ["-F"; "-v"; "-f"; "--field-separator"; "--assign"; "--file"]%string in
  let operands := non_flags candidates in
  if has_script_file then head operands
  else operands !! 1.

(** ** Formatting helpers *)

Fixpoint xargs_subcommand_loop (tokens : list str) : option (list str) :=
  match tokens with
  | [] => None
  | token :: rest =>
      if token == lit "--" then if is_empty rest then None else Some rest
      else if negb (dashed token) then Some tokens
      else if one_of token ["-E"; "-e"; "-I"; "-L"; "-n"; "-P"; "-s"]%string then
        match rest with [] => None | _ :: rest => xargs_subcommand_loop rest end
      else xargs_subcommand_loop rest
  end.

Definition xargs_subcommand (tokens : list str) : option (list str) :=
  match tokens with
  | first :: rest => if first == lit "xargs" then xargs_subcommand_loop rest else None
  | [] => None
  end.

Definition xargs_has_in_place_flag (tokens : list str) : bool :=
  existsb (fun token => (token == lit "-i") || starts_with (lit "-i") token || (token == lit "-pi")
                        || starts_with (lit "-pi") token) tokens.

Definition xargs_is_mutating_subcommand (tokens : list str) : bool :=
  match tokens with
  | [] => false
  | hd :: tail =>
      if one_of hd ["perl"; "ruby"]%string then xargs_has_in_place_flag tail
      else if hd == lit "sed" then xargs_has_in_place_flag tail || existsb (fun t => t == lit "--in-place") tail
      else if hd == lit "rg" then existsb (fun t => t == lit "--replace") tail
      else false
  end.

Definition is_mutating_xargs_command (tokens : list str) : bool :=
  is_some_and (xargs_subcommand tokens) xargs_is_mutating_subcommand.

(** A count, with an optional plus sign in front. *)
Definition is_offset (count : str) : bool :=
  all_ascii_digits count
  || match count with c :: rest => (c =? 43)%N && all_ascii_digits rest | [] => false end.

Definition is_small_formatting_command (tokens : list str) : bool :=
  match tokens with
  | [] => false
  | cmd :: args =>
      if one_of cmd ["wc"; "tr"; "cut"; "sort"; "uniq"; "tee"; "column"; "yes"; "printf"]%string then true
      else if cmd == lit "xargs" then negb (is_mutating_xargs_command tokens)
      else if cmd == lit "awk" then negb (is_some (awk_data_file_operand args))
      else if cmd == lit "head" then
        match args with
        | [] => true
        | [arg] => dashed arg
        | [flag; count] => one_of flag ["-n"; "-c"]%string && all_ascii_digits count
        | _ => false
        end
      else if cmd == lit "tail" then
        match args with
        | [] => true
        | [arg] => dashed arg
        | [flag; count] => one_of flag ["-n"; "-c"]%string && is_offset count
        | _ => false
        end
      else if cmd == lit "sed" then negb (is_some (sed_read_path args))
      else false
  end.

Definition drop_small_formatting_commands (commands : list (list str)) : list (list str) :=
  List.filter (fun tokens => negb (is_small_formatting_command tokens)) commands.

(** ** cd, fd, find and python *)

Fixpoint cd_target_loop (args : list str) (target : option str) : option str :=
  match args with
  | [] => target
  | arg :: rest =>
      if arg == lit "--" then head rest
      else if one_of arg ["-L"; "-P"]%string then cd_target_loop rest target
      else if dashed arg then cd_target_loop rest target
      else cd_target_loop rest (Some arg)
  end.

Definition cd_target (args : list str) : option str :=
  if is_empty args then None else cd_target_loop args None.

Definition is_pathish (s : str) : bool :=
  one_of s ["."; ".."]%string || starts_with (lit "./") s || starts_with (lit "../") s
  || contains_char Shell.SLASH s || contains_char BACKSLASH s.

Definition parse_fd_query_and_path (tail : list str) : option str * option str :=
  let args_no_connector := trim_at_connector tail in
  let candidates :=
    skip_flag_values args_no_connector
      ["-t"; "--type"; "-e"; "--extension"; "-E"; "--exclude"; "--search-path"]%string in
  match non_flags candidates with
  | [one] => if is_pathish one then (None, Some (short_display_path one)) else (Some one, None)
  | q :: p :: _ => (Some q, Some (short_display_path p))
  | [] => (None, None)
  end.

(** The value after the first name filter. *)
Fixpoint find_query (args : list str) : option str :=
  match args with
  | [] => None
  | a :: rest => if one_of a ["-name"; "-iname"; "-path"; "-regex"]%string then head rest else find_query rest
  end.

Definition parse_find_query_and_path (tail : list str) : option str * option str :=
  let args_no_connector := trim_at_connector tail in
  let path :=
    option_map short_display_path
      (find_first (fun a => negb (dashed a) && negb (one_of a ["!"; "("; ")"]%string)) args_no_connector) in
  (find_query args_no_connector, path).

Fixpoint python_script (args : list str) : option str :=
  match args with
  | arg :: (script :: rest') as rest => if arg == lit "-c" then Some script else python_script rest
  | _ => None
  end.

Definition WALKS : list string :=
  ["os.walk"; "os.listdir"; "os.scandir"; "glob.glob"; "glob.iglob"; "pathlib.Path"; ".rglob("]%string.

Definition python_walks_files (args : list str) : bool :=
  is_some_and (python_script (trim_at_connector args)) (fun script => existsb (fun w => contains (lit w) script) WALKS).

Definition is_python_command (cmd : str) : bool :=
  one_of cmd ["python"; "python2"; "python3"]%string
  || starts_with (lit "python2.") cmd || starts_with (lit "python3.") cmd.

(** ** Joining paths *)

Definition is_ascii_alphabetic (c : char) : bool :=
  ((65 <=? c) && (c <=? 90))%N || ((97 <=? c) && (c <=? 122))%N.

Definition is_abs_like (path : str) : bool :=
  match path with
  | c :: _ => (c =? Shell.SLASH)%N
  | [] => false
  end
  || match path with
     | d :: colon :: slash :: _ => is_ascii_alphabetic d && (colon =? 58)%N && (slash =? BACKSLASH)%N
     | _ => false
     end
  || match path with
     | a :: b :: _ => (a =? BACKSLASH)%N && (b =? BACKSLASH)%N
     | _ => false
     end.

(** [PathBuf::push] of a relative path on a non-empty base. *)
Definition push_path (base rel : str) : str :=
  (if ends_with [Shell.SLASH] base then base else base ++ [Shell.SLASH]) ++ rel.

Definition join_paths (base rel : str) : str :=
  if is_abs_like rel then rel
  else if is_empty base then rel
  else push_path base rel.

(** ** Summaries *)

Section shlex.
Context (shlex_split : str -> option (list str)) (shlex_try_join : list str -> option str).
Context (try_parse_shell : str -> option Shell.Tree).

Definition shlex_join (tokens : list str) : str := default (lit "<command included NUL byte>") (shlex_try_join tokens).

Definition extract_shell_command (command : list str) : option (str * str) :=
  match Shell.extract_bash_command command with
  | Some r => Some r
  | None => extract_powershell_command command
  end.

(** A summary of a read of [path], if there is one. *)
Definition read_or_unknown (main_cmd : list str) (path : option str) : ParsedCommand :=
  match path with
  | Some path => Read (shlex_join main_cmd) (short_display_path path) path
  | None => Unknown (shlex_join main_cmd)
  end.

Definition list_operand (main_cmd : list str) (path : option str) : ParsedCommand :=
  ListFiles (shlex_join main_cmd) (option_map short_display_path path).

Definition search_or_list (main_cmd : list str) (qp : option str * option str) : ParsedCommand :=
  if is_some qp.1 then Search (shlex_join main_cmd) qp.1 qp.2 else ListFiles (shlex_join main_cmd) qp.2.

Record GrepState := mkGrep { operands : list str; pattern : option str }.

Definition set_pattern (st : GrepState) (p : str) : GrepState :=
  mkGrep (operands st) (match pattern st with Some q => Some q | None => Some p end).

(** The loop of [parse_grep_like]. *)
Fixpoint grep_loop (args : list str) (st : GrepState) : GrepState :=
  match args with
  | [] => st
  | arg :: rest =>
      if arg == lit "--" then mkGrep (operands st ++ rest) (pattern st)
      else if one_of arg ["-e"; "--regexp"; "-f"; "--file"]%string then
        match rest with [] => st | p :: rest => grep_loop rest (set_pattern st p) end
      else if one_of arg ["-m"; "--max-count"; "-C"; "--context"; "-A"; "--after-context"; "-B"; "--before-context"]%string then
        match rest with [] => st | _ :: rest => grep_loop rest st end
      else if dashed arg then grep_loop rest st
      else grep_loop rest (mkGrep (operands st ++ [arg]) (pattern st))
  end.

Definition parse_grep_like (main_cmd args : list str) : ParsedCommand :=
  let st := grep_loop (trim_at_connector args) (mkGrep [] None) in
  let query := match pattern st with Some p => Some p | None => head (operands st) end in
  let path_index := if is_some (pattern st) then 0 else 1 in
  Search (shlex_join main_cmd) query (option_map short_display_path (operands st !! path_index)).

(** [head -n N file]: whether the count is valid, and the operands without it. *)
Definition has_count (valid : str -> bool) (tail : list str) : bool :=
  match tail with
  | first :: rest =>
      if first == lit "-n" then match rest with n :: _ => valid n | [] => false end
      else match strip_prefix (lit "-n") first with Some v => valid v | None => false end
  | [] => false
  end.

Definition without_count (valid : str -> bool) (tail : list str) : list str :=
  match tail with
  | first :: n :: rest => if (first == lit "-n") && valid n then rest else tail
  | _ => tail
  end.

Definition first_lines_operand (valid : str -> bool) (tail : list str) : option str :=
  match (if has_count valid tail then find_first (fun p => negb (dashed p)) (without_count valid tail) else None) with
  | Some p => Some p
  | None => match tail with [path] => if dashed path then None else Some path | _ => None end
  end.

(** The counts of head and of tail. *)
Definition head_count (n : str) : bool := all_ascii_digits n.
Definition tail_count (n : str) : bool :=
  let s := default n (strip_prefix (lit "+") n) in negb (is_empty s) && all_ascii_digits s.

Definition summarize_rg (main_cmd tail : list str) : ParsedCommand :=
  let args_no_connector := trim_at_connector tail in
  let has_files_flag := existsb (fun a => a == lit "--files") args_no_connector in
  let candidates :=
    skip_flag_values args_no_connector
      ["-g"; "--glob"; "--iglob"; "-t"; "--type"; "--type-add"; "--type-not"; "-m"; "--max-count"; "-A"; "-B"; "-C";
       "--context"; "--max-depth"]%string in
  let operands := non_flags candidates in
  if has_files_flag then ListFiles (shlex_join main_cmd) (option_map short_display_path (head operands))
  else Search (shlex_join main_cmd) (head operands) (option_map short_display_path (operands !! 1)).

Definition summarize_git (main_cmd tail : list str) : ParsedCommand :=
  match tail with
  | subcmd :: sub_tail =>
      if subcmd == lit "grep" then parse_grep_like main_cmd sub_tail
      else if subcmd == lit "ls-files" then
        list_operand main_cmd
          (first_non_flag_operand sub_tail ["--exclude"; "--exclude-from"; "--pathspec-from-file"]%string)
      else Unknown (shlex_join main_cmd)
  | [] => Unknown (shlex_join main_cmd)
  end.

Definition summarize_ag (main_cmd tail : list str) : ParsedCommand :=
  let candidates :=
    skip_flag_values (trim_at_connector tail)
      ["-G"; "-g"; "--file-search-regex"; "--ignore-dir"; "--ignore-file"; "--path-to-ignore"]%string in
  let operands := non_flags candidates in
  Search (shlex_join main_cmd) (head operands) (option_map short_display_path (operands !! 1)).

Definition LS_FLAGS : list string :=
  ["-I"; "-w"; "--block-size"; "--format"; "--time-style"; "--color"; "--quoting-style"]%string.
Definition EZA_FLAGS : list string := ["-I"; "--ignore-glob"; "--color"; "--sort"; "--time-style"; "--time"]%string.
Definition TREE_FLAGS : list string := ["-L"; "-P"; "-I"; "--charset"; "--filelimit"; "--sort"]%string.
Definition DU_FLAGS : list string := ["-d"; "--max-depth"; "-B"; "--block-size"; "--exclude"; "--time-style"]%string.
Definition BAT_FLAGS : list string :=
  ["--theme"; "--language"; "--style"; "--terminal-width"; "--tabs"; "--line-range"; "--map-syntax"]%string.
Definition LESS_FLAGS : list string :=
  ["-p"; "-P"; "-x"; "-y"; "-z"; "-j"; "--pattern"; "--prompt"; "--tabs"; "--shift"; "--jump-target"]%string.
Definition NL_FLAGS : list string := ["-s"; "-w"; "-v"; "-i"; "-b"]%string.

Definition summarize_main_tokens (main_cmd : list str) : ParsedCommand :=
  match main_cmd with
  | [] => Unknown (shlex_join main_cmd)
  | hd :: tail =>
      if hd == lit "ls" then list_operand main_cmd (first_non_flag_operand tail LS_FLAGS)
      else if one_of hd ["eza"; "exa"]%string then list_operand main_cmd (first_non_flag_operand tail EZA_FLAGS)
      else if hd == lit "tree" then list_operand main_cmd (first_non_flag_operand tail TREE_FLAGS)
      else if hd == lit "du" then list_operand main_cmd (first_non_flag_operand tail DU_FLAGS)
      else if one_of hd ["rg"; "rga"; "ripgrep-all"]%string then summarize_rg main_cmd tail
      else if hd == lit "git" then summarize_git main_cmd tail
      else if hd == lit "fd" then search_or_list main_cmd (parse_fd_query_and_path tail)
      else if hd == lit "find" then search_or_list main_cmd (parse_find_query_and_path tail)
      else if one_of hd ["grep"; "egrep"; "fgrep"]%string then parse_grep_like main_cmd tail
      else if one_of hd ["ag"; "ack"; "pt"]%string then summarize_ag main_cmd tail
      else if hd == lit "cat" then read_or_unknown main_cmd (single_non_flag_operand tail [])
      else if one_of hd ["bat"; "batcat"]%string then read_or_unknown main_cmd (single_non_flag_operand tail BAT_FLAGS)
      else if hd == lit "less" then read_or_unknown main_cmd (single_non_flag_operand tail LESS_FLAGS)
      else if hd == lit "more" then read_or_unknown main_cmd (single_non_flag_operand tail [])
      else if hd == lit "head" then read_or_unknown main_cmd (first_lines_operand head_count tail)
      else if hd == lit "tail" then read_or_unknown main_cmd (first_lines_operand tail_count tail)
      else if hd == lit "awk" then read_or_unknown main_cmd (awk_data_file_operand tail)
      else if hd == lit "nl" then
        read_or_unknown main_cmd (find_first (fun p => negb (dashed p)) (skip_flag_values tail NL_FLAGS))
      else if hd == lit "sed" then read_or_unknown main_cmd (sed_read_path tail)
      else if is_python_command hd then
        if python_walks_files tail then ListFiles (shlex_join main_cmd) None else Unknown (shlex_join main_cmd)
      else Unknown (shlex_join main_cmd)
  end.

(** ** Sequences *)

(** A relative file that is read is relative to the directory changed to. *)
Definition in_directory (cwd : option str) (parsed : ParsedCommand) : ParsedCommand :=
  match parsed, cwd with
  | Read cmd name path, Some base => Read cmd name (join_paths base path)
  | _, _ => parsed
  end.

(** The loop over the commands, which follows [cd]. *)
Fixpoint summarize_loop (parts : list (list str)) (cwd : option str) : list ParsedCommand :=
  match parts with
  | [] => []
  | tokens :: parts =>
      match tokens with
      | hd :: tail =>
          if hd == lit "cd" then
            summarize_loop parts
              (match cd_target tail with
               | Some dir => Some (match cwd with Some base => join_paths base dir | None => dir end)
               | None => cwd
               end)
          else in_directory cwd (summarize_main_tokens tokens) :: summarize_loop parts cwd
      | [] => in_directory cwd (summarize_main_tokens tokens) :: summarize_loop parts cwd
      end
  end.

(** [commands.iter().position(p)], and the list without that element. *)
Fixpoint position {A} (p : A -> bool) (l : list A) : option nat :=
  match l with
  | [] => None
  | x :: l => if p x then Some 0 else option_map S (position p l)
  end.

Definition without {A} (idx : nat) (l : list A) : list A := firstn idx l ++ skipn (S idx) l.

Definition unknown_program (name : string) (pc : ParsedCommand) : bool :=
  match pc with
  | Unknown cmd => is_some_and (shlex_split cmd) (fun t => is_some_and (head t) (fun w => w == lit name))
  | _ => false
  end.

Definition is_unknown_true (pc : ParsedCommand) : bool :=
  match pc with Unknown cmd => cmd == lit "true" | _ => false end.

Definition is_unknown_nl (pc : ParsedCommand) : bool :=
  match pc with
  | Unknown cmd =>
      match shlex_split cmd with
      | Some (first :: rest) => (first == lit "nl") && forallb dashed rest
      | _ => false
      end
  | _ => false
  end.

Definition simplify_once (commands : list ParsedCommand) : option (list ParsedCommand) :=
  if length commands <=? 1 then None else
  match commands with
  | [] => None
  | first :: rest =>
      if unknown_program "echo" first then Some rest
      else
        let drop_true_or_nl :=
          match position is_unknown_true commands with
          | Some idx => Some (without idx commands)
          | None =>
              match position is_unknown_nl commands with
              | Some idx => Some (without idx commands)
              | None => None
              end
          end in
        match position (unknown_program "cd") commands with
        | Some idx => if idx + 1 <? length commands then Some (without idx commands) else drop_true_or_nl
        | None => drop_true_or_nl
        end
  end.

(** [while let Some(next) = simplify_once(..)]; every round drops a command. *)
Fixpoint simplify_loop (fuel : nat) (commands : list ParsedCommand) : option (list ParsedCommand) :=
  match simplify_once commands with
  | None => Some commands
  | Some next => match fuel with O => None | S fuel => simplify_loop fuel next end
  end.

Definition simplify (commands : list ParsedCommand) : list ParsedCommand :=
  default commands (simplify_loop (length commands) commands).

Definition has_pipe_to_sed (script_tokens : list str) : bool :=
  existsb (fun t => t == lit "|") script_tokens
  && existsb (fun w => (w.1 == lit "sed") && (w.2 == lit "-n")) (zip script_tokens (List.tl script_tokens)).

(** A script that comes down to one command is shown as a whole where that is
    clearer. *)
Definition attribute_script (script : str) (script_tokens : list str) (had_connectors : bool) (pc : ParsedCommand)
    : ParsedCommand :=
  match pc with
  | Read cmd name path =>
      if had_connectors then
        if has_pipe_to_sed script_tokens then Read script name path else Read cmd name path
      else Read (shlex_join script_tokens) name path
  | ListFiles cmd path => if had_connectors then ListFiles cmd path else ListFiles (shlex_join script_tokens) path
  | Search cmd query path =>
      if had_connectors then Search cmd query path else Search (shlex_join script_tokens) query path
  | Unknown cmd => Unknown cmd
  end.

(** The summaries of a script of plain commands. *)
Definition summarize_script (script : str) (all_commands : list (list str)) : list ParsedCommand :=
  let script_tokens := default [script] (shlex_split script) in
  let had_multiple_commands := 1 <? length all_commands in
  let filtered_commands := drop_small_formatting_commands all_commands in
  if is_empty filtered_commands then [Unknown script] else
  let commands := summarize_loop filtered_commands None in
  let commands :=
    if 1 <? length commands then simplify (List.filter (fun pc => negb (is_unknown_true pc)) commands) else commands in
  match commands with
  | [pc] => [attribute_script script script_tokens (had_multiple_commands || contains_connectors script_tokens) pc]
  | _ => commands
  end.

Definition parse_shell_script (script : str) : list ParsedCommand :=
  match try_parse_shell script with
  | Some tree =>
      match Shell.try_parse_word_only_commands_sequence tree with
      | Some all_commands => if is_empty all_commands then [Unknown script] else summarize_script script all_commands
      | None => [Unknown script]
      end
  | None => [Unknown script]
  end.

Definition parse_shell_lc_commands (original : list str) : option (list ParsedCommand) :=
  match Shell.extract_bash_command original with
  | Some (_, script) => Some (parse_shell_script script)
  | None => None
  end.

Definition normalize_tokens (cmd : list str) : list str :=
  match cmd with
  | [shell; flag; script] =>
      if one_of shell ["yes"; "y"; "no"; "n"]%string && (flag == lit "|") then [script]
      else if one_of shell ["bash"; "zsh"]%string && one_of flag ["-c"; "-lc"]%string then
        default [shell; flag; script] (shlex_split script)
      else cmd
  | first :: pipe :: rest => if one_of first ["yes"; "y"; "no"; "n"]%string && (pipe == lit "|") then rest else cmd
  | _ => cmd
  end.

Definition parse_command_impl (command : list str) : list ParsedCommand :=
  match parse_shell_lc_commands command with
  | Some commands => commands
  | None =>
      match extract_powershell_command command with
      | Some (_, script) => [Unknown script]
      | None =>
          let normalized := normalize_tokens command in
          let parts := if contains_connectors normalized then split_on_connectors normalized else [normalized] in
          simplify (summarize_loop parts None)
      end
  end.

Definition single_unknown_for_command (command : list str) : ParsedCommand :=
  match extract_shell_command command with
  | Some (_, shell_command) => Unknown shell_command
  | None => Unknown (shlex_join command)
  end.

(** Consecutive duplicates collapse. *)
Fixpoint dedup_loop (deduped parsed : list ParsedCommand) : list ParsedCommand :=
  match parsed with
  | [] => deduped
  | cmd :: parsed =>
      if is_some_and (last deduped) (fun prev => prev == cmd) then dedup_loop deduped parsed
      else dedup_loop (deduped ++ [cmd]) parsed
  end.

Definition is_unknown (pc : ParsedCommand) : bool := match pc with Unknown _ => true | _ => false end.

Definition parse_command (command : list str) : list ParsedCommand :=
  let deduped := dedup_loop [] (parse_command_impl command) in
  if existsb is_unknown deduped then [single_unknown_for_command command] else deduped.

End shlex.

End ParseCommand.
