(* ===== verification/ParseCommandFacts.v ===== *)
(** Theorems on command summaries: the shape of the result, that simplification
    terminates, that a file shown as read is an operand of the command resolved
    against the preceding [cd]s, what the filter for formatting helpers hides, and
    the UTF-8 prefix of PowerShell scripts. *)

From stdpp Require Import base list option numbers strings sets.
From S2P Require Import Prelude RustStr ShellTree ParseCommand.

Module ParseCommandFacts.
Import ParseCommand.

(** ** Operands are arguments *)

Lemma trim_at_connector_elem x l : x ∈ trim_at_connector l -> x ∈ l.
Proof. induction l as [|t l IH]; cbn [trim_at_connector]; [done|]. destruct (is_connector t); set_solver. Qed.

Lemma non_flags_elem x l : x ∈ non_flags l -> x ∈ l.
Proof. unfold non_flags. rewrite !list_elem_of_In, List.filter_In. tauto. Qed.

(** Both operand scans skip one argument or two, and return the rest after [--]. *)
Lemma skip_flag_values_elem x l flags : x ∈ skip_flag_values l flags -> x ∈ l.
Proof.
  induction l as [l IH] using (induction_ltof1 _ length). unfold ltof in IH.
  destruct l as [|a rest]; cbn [skip_flag_values]; [done|].
  destruct (bool_decide _); [set_solver|]. destruct (is_assignment a); [intros ?%IH; [set_solver|simpl; lia]|].
  destruct (one_of a flags).
  - destruct rest as [|b rest]; [set_solver|]. intros ?%IH; [set_solver|simpl; lia].
  - intros [->|Hx]%elem_of_cons; [set_solver|]. apply IH in Hx; [set_solver|simpl; lia].
Qed.

Lemma positional_operands_elem x l flags : x ∈ positional_operands l flags -> x ∈ l.
Proof.
  induction l as [l IH] using (induction_ltof1 _ length). unfold ltof in IH.
  destruct l as [|a rest]; cbn [positional_operands]; [done|].
  destruct (bool_decide _); [set_solver|]. destruct (is_assignment a); [intros ?%IH; [set_solver|simpl; lia]|].
  destruct (one_of a flags).
  - destruct rest as [|b rest]; [set_solver|]. intros ?%IH; [set_solver|simpl; lia].
  - destruct (dashed a); [intros ?%IH; [set_solver|simpl; lia]|].
    intros [->|Hx]%elem_of_cons; [set_solver|]. apply IH in Hx; [set_solver|simpl; lia].
Qed.

Lemma head_elem {A} (l : list A) x : head l = Some x -> x ∈ l.
Proof. destruct l; [done|]. intros [= ->]. set_solver. Qed.

Lemma single_operand_elem l flags x : single_non_flag_operand l flags = Some x -> x ∈ l.
Proof.
  unfold single_non_flag_operand. intros H. apply (positional_operands_elem _ _ flags).
  destruct (positional_operands l flags) as [|y [|? ?]]; simplify_eq. set_solver.
Qed.

Lemma find_first_elem {A} (q : A -> bool) l x : find_first q l = Some x -> x ∈ l.
Proof. intros (l1 & l2 & -> & _)%find_first_Some. set_solver. Qed.

Lemma first_lines_elem valid l x : first_lines_operand valid l = Some x -> x ∈ l.
Proof.
  unfold first_lines_operand. destruct (if has_count valid l then _ else _) as [q|] eqn:E.
  - intros [= ->]. destruct (has_count valid l); [|done]. apply find_first_elem in E.
    unfold without_count in E. destruct l as [|a [|n rest]]; [done..|]. destruct (_ && _); set_solver.
  - destruct l as [|path [|]]; try done. destruct (dashed path); [done|]. intros [= ->]. set_solver.
Qed.

Lemma awk_operand_elem l x : awk_data_file_operand l = Some x -> x ∈ l.
Proof.
  unfold awk_data_file_operand. destruct (is_empty l); [done|]. set (os := non_flags _). intros H.
  apply trim_at_connector_elem, (skip_flag_values_elem _ _ ["-F"; "-v"; "-f"; "--field-separator"; "--assign"; "--file"]%string), non_flags_elem.
  change (x ∈ os). destruct (existsb _ _); [by apply head_elem|by eapply list_elem_of_lookup_2].
Qed.

Lemma sed_path_elem l x : sed_read_path l = Some x -> x ∈ l.
Proof.
  unfold sed_read_path. destruct (negb (existsb _ _)); [done|]. destruct (negb (_ || _)); [done|]. set (os := non_flags _). intros H.
  apply trim_at_connector_elem, (skip_flag_values_elem _ _ ["-e"; "-f"; "--expression"; "--file"]%string), non_flags_elem.
  change (x ∈ os). destruct os as [|a os]; [done|]. destruct (is_valid_sed_n_arg (Some a)).
  - apply head_elem in H. set_solver.
  - simplify_eq. set_solver.
Qed.

Section summaries.
Context (shlex_split : str -> option (list str)) (shlex_try_join : list str -> option str).
Context (try_parse_shell : str -> option Shell.Tree).
Notation shlex_join := (shlex_join shlex_try_join).
Notation summarize_main_tokens := (summarize_main_tokens shlex_try_join).
Notation summarize_loop := (summarize_loop shlex_try_join).
Notation simplify_once := (simplify_once shlex_split).
Notation simplify_loop := (simplify_loop shlex_split).
Notation simplify := (simplify shlex_split).
Notation parse_command := (parse_command shlex_split shlex_try_join try_parse_shell).
Notation parse_shell_script := (parse_shell_script shlex_split shlex_try_join try_parse_shell).
Notation summarize_script := (summarize_script shlex_split shlex_try_join).

(** ** Simplification *)

Lemma without_app {A} (l1 : list A) x l2 : without (length l1) (l1 ++ x :: l2) = l1 ++ l2.
Proof. unfold without. rewrite take_app_length, drop_app_ge by lia. by replace (S (length l1) - length l1) with 1 by lia. Qed.

Lemma first_position_Some {A} (p : A -> bool) l i :
  position p l = Some i -> exists l1 x l2, l = l1 ++ x :: l2 /\ length l1 = i /\ p x = true.
Proof.
  revert i. induction l as [|x l IH]; intros i; cbn [position]; [done|].
  destruct (p x) eqn:E; [intros [= <-]; by exists [], x, l|].
  destruct (position p l) as [j|]; [|done]. intros [= <-].
  destruct (IH j eq_refl) as (l1 & y & l2 & -> & <- & Hy). by exists (x :: l1), y, l2.
Qed.

(** One round drops one summary, and only an unknown one. *)
Lemma simplify_once_Some cs cs' :
  simplify_once cs = Some cs' ->
  exists l1 x l2, cs = l1 ++ x :: l2 /\ cs' = l1 ++ l2 /\ is_unknown x = true /\ l1 ++ l2 <> [].
Proof.
  assert (Hpos : forall p idx, position p cs = Some idx -> (forall x, p x = true -> is_unknown x = true) -> 1 < length cs ->
    exists l1 x l2, cs = l1 ++ x :: l2 /\ without idx cs = l1 ++ l2 /\ is_unknown x = true /\ l1 ++ l2 <> []).
  { intros p idx (l1 & x & l2 & -> & <- & Hx)%first_position_Some Hp Hl. exists l1, x, l2. rewrite without_app.
    split_and!; auto. rewrite length_app in Hl. simpl in Hl. destruct l1, l2; simpl in *; (done || lia). }
  unfold ParseCommand.simplify_once. destruct (Nat.leb_spec (length cs) 1) as [|Hl]; [done|].
  destruct cs as [|first rest]; [done|]. destruct (unknown_program shlex_split "echo" first) eqn:Ee.
  { intros [= <-]. exists [], first, rest. split_and!; [done..|by destruct first|by destruct rest; simpl in *; [lia|]]. }
  assert (Hcd : forall n x, unknown_program shlex_split n x = true -> is_unknown x = true) by (by intros n []).
  assert (Htrue : forall x, is_unknown_true x = true -> is_unknown x = true) by (by intros []).
  assert (Hnl : forall x, is_unknown_nl shlex_split x = true -> is_unknown x = true) by (by intros []).
  set (rest_rules := match position is_unknown_true _ with Some _ => _ | None => _ end).
  assert (Hrest : rest_rules = Some cs' -> exists l1 x l2, first :: rest = l1 ++ x :: l2 /\ cs' = l1 ++ l2 /\ is_unknown x = true /\ l1 ++ l2 <> []).
  { unfold rest_rules. destruct (position is_unknown_true (first :: rest)) as [i|] eqn:Et; [intros [= <-]; eapply Hpos; eauto|].
    destruct (position (is_unknown_nl shlex_split) (first :: rest)) as [i|] eqn:En; [intros [= <-]; eapply Hpos; eauto|done]. }
  destruct (position (unknown_program shlex_split "cd") (first :: rest)) as [i|] eqn:Ec; [|exact Hrest].
  destruct (i + 1 <? length (first :: rest)); [|exact Hrest]. intros [= <-]. eapply Hpos; eauto.
Qed.

Lemma simplify_loop_ok fuel cs :
  length cs <= fuel -> exists cs', simplify_loop fuel cs = Some cs' /\ simplify_once cs' = None /\ cs' `sublist_of` cs /\
    List.filter (fun pc => negb (is_unknown pc)) cs' = List.filter (fun pc => negb (is_unknown pc)) cs /\
    (cs <> [] -> cs' <> []).
Proof.
  revert cs. induction fuel as [|fuel IH]; intros cs Hl; cbn [ParseCommand.simplify_loop];
    destruct (simplify_once cs) as [next|] eqn:E; try (by exists cs).
  - apply simplify_once_Some in E as (l1 & x & l2 & -> & _). rewrite length_app in Hl. simpl in Hl. lia.
  - apply simplify_once_Some in E as (l1 & x & l2 & -> & -> & Hx & Hne). rewrite length_app in Hl. simpl in Hl.
    destruct (IH (l1 ++ l2)) as (cs' & -> & H1 & H2 & H3 & H4); [rewrite length_app; lia|]. exists cs'.
    split_and!; auto.
    + etrans; [exact H2|]. apply sublist_app; [done|]. by constructor.
    + rewrite H3, !List.filter_app. cbn [List.filter]. by rewrite Hx.
Qed.

(** C39: The loop that simplifies a sequence of summaries terminates within one round
    per summary; its result cannot be simplified further, keeps every summary that
    is not an unknown command, in order, and is empty only if the input was. *)
Theorem simplify_terminates cs :
  exists cs', simplify_loop (length cs) cs = Some cs' /\ simplify cs = cs' /\ simplify_once cs' = None /\
    cs' `sublist_of` cs /\
    List.filter (fun pc => negb (is_unknown pc)) cs' = List.filter (fun pc => negb (is_unknown pc)) cs /\
    (cs <> [] -> cs' <> []).
Proof.
  destruct (simplify_loop_ok (length cs) cs) as (cs' & E & H); [done|]. exists cs'.
  split; [done|]. split; [|done]. unfold ParseCommand.simplify. by rewrite E.
Qed.

Lemma simplify_sublist cs : simplify cs `sublist_of` cs.
Proof. destruct (simplify_loop_ok (length cs) cs) as (cs' & E & _ & H & _); [done|]. unfold ParseCommand.simplify. by rewrite E. Qed.

(** ** The shape of the result *)

(** No summary is repeated right after itself. *)
Fixpoint no_repeats (l : list ParsedCommand) : Prop :=
  match l with
  | a :: (b :: _) as rest => a <> b /\ no_repeats rest
  | _ => True
  end.

Lemma no_repeats_snoc l a : no_repeats l -> (forall b, last l = Some b -> b <> a) -> no_repeats (l ++ [a]).
Proof.
  induction l as [|x [|y l] IH]; simpl; [done| |].
  - intros _ H. split; [by apply H|done].
  - intros [Hxy Hl] H. split; [done|]. apply IH; [done|]. apply H.
Qed.

Lemma dedup_loop_no_repeats l acc : no_repeats acc -> no_repeats (dedup_loop acc l).
Proof.
  revert acc. induction l as [|a l IH]; intros acc Ha; cbn [dedup_loop]; [done|].
  destruct (is_some_and _ _) eqn:E; [by apply IH|]. apply IH, no_repeats_snoc; [done|].
  intros b Hb. rewrite Hb in E. simpl in E. by apply bool_decide_eq_false in E.
Qed.

Lemma dedup_loop_elem l acc x : x ∈ dedup_loop acc l <-> x ∈ acc \/ x ∈ l.
Proof.
  revert acc. induction l as [|a l IH]; intros acc; cbn [dedup_loop]; [set_solver|].
  destruct (is_some_and _ _) eqn:E; rewrite IH; [|set_solver].
  destruct (last acc) as [b|] eqn:El; [|done]. simpl in E. apply bool_decide_eq_true in E as ->.
  apply last_Some_elem_of in El. set_solver.
Qed.

(** The summary of a command is either one unknown entry that stands for the
    whole command, or a list without any unknown entry in which no entry repeats
    the one before it. *)
Theorem parse_command_shape command :
  parse_command command = [single_unknown_for_command shlex_try_join command] \/
  Forall (fun pc => is_unknown pc = false) (parse_command command) /\ no_repeats (parse_command command).
Proof.
  unfold ParseCommand.parse_command. destruct (existsb is_unknown _) eqn:E; [by left|right].
  split; [|by apply dedup_loop_no_repeats]. apply Forall_forall. intros x Hx.
  apply not_true_is_false. intros Hu. apply not_true_iff_false in E. apply E, existsb_exists.
  exists x. by rewrite <- list_elem_of_In.
Qed.

(** ** The files that are read *)

Lemma read_or_unknown_Read main_cmd o c n x :
  read_or_unknown shlex_try_join main_cmd o = Read c n x -> o = Some x /\ n = short_display_path x /\ c = shlex_join main_cmd.
Proof. destruct o; cbn [read_or_unknown]; [|done]. by intros [= <- <- <-]. Qed.

Lemma summarize_rg_not_read main_cmd tail c n x : summarize_rg shlex_try_join main_cmd tail <> Read c n x.
Proof. unfold summarize_rg. by destruct (existsb _ _). Qed.

Lemma search_or_list_not_read main_cmd qp c n x : search_or_list shlex_try_join main_cmd qp <> Read c n x.
Proof. unfold search_or_list. by destruct (is_some _). Qed.

Lemma summarize_git_not_read main_cmd tail c n x : summarize_git shlex_try_join main_cmd tail <> Read c n x.
Proof. unfold summarize_git. destruct tail; [done|]. by repeat destruct (bool_decide _). Qed.

(** A file is shown as read only if it is an argument of the command. *)
Lemma summarize_Read tokens c n x :
  summarize_main_tokens tokens = Read c n x -> x ∈ List.tl tokens /\ n = short_display_path x /\ c = shlex_join tokens.
Proof.
  destruct tokens as [|hd tail]; [done|]. cbn [ParseCommand.summarize_main_tokens List.tl]. intros H.
  repeat match type of H with
  | (if ?b then _ else _) = _ => destruct b
  end; try done;
    try (by apply summarize_rg_not_read in H); try (by apply search_or_list_not_read in H);
    try (by apply summarize_git_not_read in H);
    apply read_or_unknown_Read in H as (Ho & -> & ->); (split; [|done]).
  all: eauto using single_operand_elem, first_lines_elem, awk_operand_elem, sed_path_elem.
  apply find_first_elem in Ho. by eapply skip_flag_values_elem.
Qed.

(** The directory the commands [before] lead to from [cwd]: every [cd] with a
    target moves there, and nothing else does. *)
Definition cd_step (cwd : option str) (tokens : list str) : option str :=
  match tokens with
  | hd :: tail =>
      if hd == lit "cd" then
        match cd_target tail with
        | Some dir => Some (match cwd with Some base => join_paths base dir | None => dir end)
        | None => cwd
        end
      else cwd
  | [] => cwd
  end.

Lemma summarize_loop_elem pc parts cwd :
  pc ∈ summarize_loop parts cwd ->
  exists before tokens after, parts = before ++ tokens :: after /\
    pc = in_directory (fold_left cd_step before cwd) (summarize_main_tokens tokens).
Proof.
  assert (Hhere : forall tokens parts' cwd', pc = in_directory cwd' (summarize_main_tokens tokens) ->
    exists before t after, tokens :: parts' = before ++ t :: after /\
      pc = in_directory (fold_left cd_step before cwd') (summarize_main_tokens t)).
  { intros tokens parts' cwd' ->. by exists [], tokens, parts'. }
  revert cwd. induction parts as [|tokens parts IH]; intros cwd; cbn [ParseCommand.summarize_loop]; [set_solver|].
  assert (Hnext : pc ∈ summarize_loop parts (cd_step cwd tokens) ->
    exists before t after, tokens :: parts = before ++ t :: after /\
      pc = in_directory (fold_left cd_step before cwd) (summarize_main_tokens t)).
  { intros (before & t & after & -> & ->)%IH. by exists (tokens :: before), t, after. }
  destruct tokens as [|hd tail]; [|unfold cd_step in Hnext; destruct (hd == lit "cd"); [exact Hnext|]];
    (intros [->|H]%elem_of_cons; [by apply Hhere|by apply Hnext]).
Qed.

(** The file a summary of a read names, seen from the directory of the read. *)
Definition reads (parts : list (list str)) (name path : str) : Prop :=
  exists before tokens after x, parts = before ++ tokens :: after /\ x ∈ List.tl tokens /\
    name = short_display_path x /\
    path = match fold_left cd_step before None with Some base => join_paths base x | None => x end.

Lemma summarize_loop_reads c n p parts : Read c n p ∈ summarize_loop parts None -> reads parts n p.
Proof.
  intros (before & tokens & after & -> & E)%summarize_loop_elem.
  destruct (summarize_main_tokens tokens) as [c' n' x| | |] eqn:Es; try done.
  apply summarize_Read in Es as (Hx & -> & _). exists before, tokens, after, x.
  destruct (fold_left cd_step before None); cbn [in_directory] in E; injection E as -> -> ->; done.
Qed.

Lemma attribute_script_Read script tokens conn pc c n p :
  attribute_script shlex_try_join script tokens conn pc = Read c n p -> exists c', pc = Read c' n p.
Proof. destruct pc, conn; cbn [attribute_script]; try destruct (has_pipe_to_sed _); try done; intros [= _ <- <-]; eauto. Qed.

Lemma summarize_script_reads script cmds c n p :
  Read c n p ∈ summarize_script script cmds -> reads (drop_small_formatting_commands cmds) n p.
Proof.
  unfold ParseCommand.summarize_script. destruct (is_empty _); [set_solver|]. set (parts := drop_small_formatting_commands cmds).
  set (pcs := summarize_loop parts None). set (kept := if 1 <? length pcs then _ else _).
  assert (Hk : forall pc, pc ∈ kept -> pc ∈ pcs).
  { intros pc Hpc. unfold kept in Hpc. destruct (1 <? length pcs); [|done].
    apply (sublist_subseteq _ _ (simplify_sublist _)) in Hpc. rewrite !list_elem_of_In, List.filter_In in *. tauto. }
  assert (Hr : forall c', Read c' n p ∈ kept -> reads parts n p) by (intros c' H%Hk; by eapply summarize_loop_reads).
  destruct kept as [|pc [|pc' rest]]; [set_solver| |apply Hr].
  intros (c' & ->)%list_elem_of_singleton%eq_sym%attribute_script_Read. by eapply Hr, list_elem_of_singleton.
Qed.

(** The plain commands the summary of [command] is made from. *)
Inductive commands_of (command : list str) : list (list str) -> Prop :=
| of_script shell script tree cmds :
    Shell.extract_bash_command command = Some (shell, script) -> try_parse_shell script = Some tree ->
    Shell.try_parse_word_only_commands_sequence tree = Some cmds ->
    commands_of command (drop_small_formatting_commands cmds)
| of_words : Shell.extract_bash_command command = None ->
    commands_of command (let ts := normalize_tokens shlex_split command in
                         if contains_connectors ts then split_on_connectors ts else [ts]).

(** A file that the summary of a command shows as read is an argument of one of
    the plain commands that the command consists of (the formatting helpers of a
    script left out); its path is that argument resolved against the directories of
    the [cd]s before, in order, and its name is the short form of the argument. *)
Theorem read_summary_faithful command c n p :
  Read c n p ∈ parse_command command -> exists parts, commands_of command parts /\ reads parts n p.
Proof.
  unfold ParseCommand.parse_command. destruct (existsb is_unknown _).
  { unfold single_unknown_for_command. destruct (extract_shell_command _) as [[]|]; intros ?%list_elem_of_singleton; done. }
  intros [?%not_elem_of_nil|H]%dedup_loop_elem; [done|]. revert H.
  unfold ParseCommand.parse_command_impl, ParseCommand.parse_shell_lc_commands.
  destruct (Shell.extract_bash_command command) as [[shell script]|] eqn:Eb.
  - unfold ParseCommand.parse_shell_script. destruct (try_parse_shell script) as [tree|] eqn:Et; [|set_solver].
    destruct (Shell.try_parse_word_only_commands_sequence tree) as [cmds|] eqn:Ec; [|set_solver].
    destruct (is_empty cmds); [set_solver|]. intros H%summarize_script_reads. eauto using commands_of.
  - destruct (extract_powershell_command command) as [[]|]; [set_solver|].
    intros H%(sublist_subseteq _ _ (simplify_sublist _))%summarize_loop_reads. eauto using commands_of.
Qed.

End summaries.

(** ** What the filter hides *)

Lemma existsb_eqb_false (x : str) l : x ∉ l -> existsb (fun a => a == x) l = false.
Proof.
  intros H. apply not_true_is_false. intros (y & Hy & E)%existsb_exists. apply bool_decide_eq_true in E as ->.
  by rewrite <- list_elem_of_In in Hy.
Qed.

(** The filter for formatting helpers also hides commands that name and change
    files: [tee] with any operands, and [sed] without [-n], which includes [sed -i];
    next to a read, nothing of them is left in the summary. *)
Theorem formatting_filter_hides_writes cmds args :
  lit "-n" ∉ args ->
  drop_small_formatting_commands (cmds ++ [lit "sed" :: args]) = drop_small_formatting_commands cmds /\
  drop_small_formatting_commands (cmds ++ [lit "tee" :: args]) = drop_small_formatting_commands cmds.
Proof.
  intros H. unfold drop_small_formatting_commands. rewrite !List.filter_app.
  assert (Es : is_small_formatting_command (lit "sed" :: args) = true).
  { change (negb (is_some (sed_read_path args)) = true). unfold sed_read_path. rewrite existsb_eqb_false; [done|].
    intros Hn%trim_at_connector_elem. by apply H. }
  assert (Et : is_small_formatting_command (lit "tee" :: args) = true) by done.
  cbn [List.filter]. by rewrite Es, Et, !app_nil_r.
Qed.

Lemma formatting_filter_hides_writes_witness :
  let cmds := [[lit "cat"; lit "a"]] in
  let sed := [lit "sed"; lit "-i"; lit "s/x/y/"; lit "b"] in
  drop_small_formatting_commands (cmds ++ [sed]) = cmds /\
  summarize_script (fun _ => None) (fun _ => None) (lit "cat a; sed -i s/x/y/ b") (cmds ++ [sed]) =
    [Read (lit "<command included NUL byte>") (lit "a") (lit "a")].
Proof.
  split; [|reflexivity].
  refine (eq_trans (proj1 (formatting_filter_hides_writes [[lit "cat"; lit "a"]] [lit "-i"; lit "s/x/y/"; lit "b"] _)) _); [|reflexivity].
  rewrite !elem_of_cons. intros [E|[E|[E|E]]]; try discriminate E. by apply not_elem_of_nil in E.
Defined.

Lemma read_summary_faithful_witness :
  let command := List.map lit ["cd"; "dir"; "&&"; "cat"; "src/a"]%string in
  let parse := parse_command (fun _ => None) (fun ts => Some (List.concat ts)) (fun _ => None) in
  parse command = [Read (lit "catsrc/a") (lit "a") (lit "dir/src/a")] /\
  exists parts, commands_of (fun _ => None) (fun _ => None) command parts /\ reads parts (lit "a") (lit "dir/src/a").
Proof.
  split; [reflexivity|]. eapply (read_summary_faithful _ (fun ts => Some (List.concat ts))).
  cbv zeta. apply list_elem_of_singleton. reflexivity.
Defined.

(** ** The UTF-8 prefix of PowerShell scripts *)

(** A flag that takes no script, and one that does. *)
Definition plain_flag (f : str) : bool :=
  one_of (to_ascii_lowercase f) POWERSHELL_FLAGS
  && negb (eq_ignore_ascii_case f (lit "-Command") || eq_ignore_ascii_case f (lit "-c")).

Definition script_flag (f : str) : bool :=
  one_of (to_ascii_lowercase f) POWERSHELL_FLAGS
  && (eq_ignore_ascii_case f (lit "-Command") || eq_ignore_ascii_case f (lit "-c")).

Definition with_utf8 (script : str) : str :=
  if starts_with UTF8_OUTPUT_PREFIX (trim_start script) then script else UTF8_OUTPUT_PREFIX ++ script.

Lemma with_utf8_starts script : starts_with UTF8_OUTPUT_PREFIX (trim_start (with_utf8 script)) = true.
Proof.
  unfold with_utf8. destruct (starts_with _ (trim_start script)) eqn:E; [done|]. apply starts_with_true. exists script.
  apply trim_start_by_head. reflexivity.
Qed.

Lemma with_utf8_idem script : with_utf8 (with_utf8 script) = with_utf8 script.
Proof. unfold with_utf8 at 1. by rewrite with_utf8_starts. Qed.

Lemma firstn_snoc {A} (l : list A) x : firstn (length (l ++ [x]) - 1) (l ++ [x]) = l.
Proof. by rewrite length_app, Nat.add_sub, take_app_length. Qed.

Section powershell.
Context (shell : str) (flags : list str) (flag : str).
Context (Hshell : Shell.detect_shell_type shell = Some Shell.PowerShell).
Context (Hflags : Forall (fun f => plain_flag f = true) flags) (Hflag : script_flag flag = true).

Lemma extract_powershell_at script rest :
  extract_powershell_command (shell :: flags ++ flag :: script :: rest) = Some (shell, script).
Proof.
  unfold extract_powershell_command.
  destruct (Nat.ltb_spec (length (shell :: flags ++ flag :: script :: rest)) 3) as [Hl|_].
  { cbn [length] in Hl. rewrite length_app in Hl. cbn [length] in Hl. lia. }
  rewrite Hshell. assert (find_powershell_script (flags ++ flag :: script :: rest) = Some script) as ->; [|done].
  clear Hshell. apply andb_true_iff in Hflag as [Hf1 Hf2]. induction Hflags as [|f fs [Hp1 Hp2]%andb_true_iff Hfs IH].
  - cbn [app find_powershell_script]. by rewrite Hf1, Hf2.
  - apply negb_true_iff in Hp2. specialize (IH Hfs). cbn [app]. destruct (fs ++ flag :: script :: rest) as [|a as'] eqn:E; [by destruct fs|].
    cbn [find_powershell_script]. by rewrite Hp1, Hp2.
Qed.

Lemma prefix_at script rest last :
  prefix_powershell_script_with_utf8 (shell :: flags ++ flag :: script :: rest ++ [last]) =
    shell :: flags ++ flag :: script :: rest ++ [with_utf8 script].
Proof.
  unfold prefix_powershell_script_with_utf8. rewrite extract_powershell_at. fold (with_utf8 script).
  replace (shell :: flags ++ flag :: script :: rest ++ [last]) with ((shell :: flags ++ flag :: script :: rest) ++ [last])
    by (cbn [app]; by rewrite <- (app_assoc flags)).
  rewrite firstn_snoc. cbn [app]. by rewrite <- (app_assoc flags).
Qed.

Lemma prefix_at_end script :
  prefix_powershell_script_with_utf8 (shell :: flags ++ [flag; script]) = shell :: flags ++ [flag; with_utf8 script].
Proof.
  unfold prefix_powershell_script_with_utf8. rewrite extract_powershell_at. fold (with_utf8 script).
  replace (shell :: flags ++ [flag; script]) with ((shell :: flags ++ [flag]) ++ [script])
    by (cbn [app]; by rewrite <- (app_assoc flags)).
  rewrite firstn_snoc. cbn [app]. by rewrite <- (app_assoc flags).
Qed.

(** The UTF-8 prefix of a PowerShell command whose last argument is the script
    goes in front of the script, once however often it is added; but with arguments
    after the script the last of them is replaced by a prefixed copy of the script,
    and the script that runs is still the one without the prefix. *)
Theorem utf8_prefix_effect script rest last :
  let prefixed := shell :: flags ++ [flag; with_utf8 script] in
  let clobbered := shell :: flags ++ flag :: script :: rest ++ [with_utf8 script] in
  prefix_powershell_script_with_utf8 (shell :: flags ++ [flag; script]) = prefixed /\
  prefix_powershell_script_with_utf8 prefixed = prefixed /\
  extract_powershell_command prefixed = Some (shell, with_utf8 script) /\
  prefix_powershell_script_with_utf8 (shell :: flags ++ flag :: script :: rest ++ [last]) = clobbered /\
  extract_powershell_command clobbered = Some (shell, script).
Proof.
  intros prefixed clobbered. split_and!.
  - apply prefix_at_end.
  - unfold prefixed. rewrite prefix_at_end. by rewrite with_utf8_idem.
  - apply extract_powershell_at.
  - apply prefix_at.
  - apply extract_powershell_at.
Qed.

End powershell.

Lemma utf8_prefix_effect_witness :
  prefix_powershell_script_with_utf8 (List.map lit ["pwsh"; "-NoProfile"; "-c"; "Write-Host $args[0]"; "x"]%string) =
    List.map lit ["pwsh"; "-NoProfile"; "-c"; "Write-Host $args[0]"]%string ++ [UTF8_OUTPUT_PREFIX ++ lit "Write-Host $args[0]"].
Proof.
  refine (proj1 (proj2 (proj2 (proj2 (utf8_prefix_effect (lit "pwsh") [lit "-NoProfile"] (lit "-c") _ _ _ (lit "Write-Host $args[0]") [] (lit "x")))))).
  - vm_compute. reflexivity.
  - by repeat constructor.
  - reflexivity.
Defined.

End ParseCommandFacts.
