(* ===== verification/AbsolutePath.v ===== *)
(** Absolute paths ([utils/absolute-path]): home expansion, normalisation of [.]
    and [..], resolution against a base and canonicalisation that keeps nested
    symlinks.  A [PathBuf] of Unix is its list of components, which is what
    [Path]'s equality, prefixes and iteration look at; the operating system is the
    class [Os]. *)

From stdpp Require Import base list option numbers strings.
From S2P Require Import Prelude RustStr ShellTree.

Module AbsolutePath.

#[export] Existing Instance Shell.component_eq_dec.

Notation PathBuf := (list Shell.Component) (only parsing).
Notation AbsolutePathBuf := (list Shell.Component) (only parsing).

Open Scope rust_scope.

(** ** [std::path] *)

Definition is_absolute (p : PathBuf) : bool :=
  match p with Shell.RootDir :: _ => true | _ => false end.

Definition parent (p : PathBuf) : option PathBuf :=
  match last p with
  | None | Some Shell.RootDir => None
  | Some _ => Some (List.removelast p)
  end.

(** [PathBuf::push] of a component, and [PathBuf::pop]. *)
Definition push_component (p : PathBuf) (c : Shell.Component) : PathBuf :=
  match c with Shell.RootDir => [Shell.RootDir] | _ => p ++ [c] end.

Definition pop (p : PathBuf) : PathBuf := default p (parent p).

(** [Path::join]; an inner [.] is no component. *)
Definition path_join (base path : PathBuf) : PathBuf :=
  if is_absolute path then path
  else match base with
       | [] => path
       | _ => base ++ match path with Shell.CurDir :: rest => rest | _ => path end
       end.

(** [Path::strip_prefix] and [Path::starts_with]. *)
Fixpoint path_strip_prefix (path base : PathBuf) : option PathBuf :=
  match base, path with
  | [], _ => Some path
  | b :: base, c :: path => if c == b then path_strip_prefix path base else None
  | _ :: _, [] => None
  end.

Definition path_starts_with (path base : PathBuf) : bool := is_some (path_strip_prefix path base).

(** [Path::ancestors]: the path and its parents; each is one component shorter. *)
Fixpoint ancestors_fuel (fuel : nat) (p : PathBuf) : list PathBuf :=
  p :: match fuel, parent p with
       | S fuel, Some q => ancestors_fuel fuel q
       | _, _ => []
       end.

Definition ancestors (p : PathBuf) : list PathBuf := ancestors_fuel (length p) p.

Definition component_str (c : Shell.Component) : str :=
  match c with
  | Shell.RootDir => [Shell.SLASH]
  | Shell.CurDir => [Shell.DOT]
  | Shell.ParentDir => [Shell.DOT; Shell.DOT]
  | Shell.Normal name => name
  end.

(** The text of a path that was put together with [push]. *)
Definition to_string_lossy (p : PathBuf) : str :=
  match p with
  | Shell.RootDir :: rest => Shell.SLASH :: join [Shell.SLASH] (List.map component_str rest)
  | _ => join [Shell.SLASH] (List.map component_str p)
  end.

Definition component_rank (c : Shell.Component) : N :=
  match c with Shell.RootDir => 0 | Shell.CurDir => 1 | Shell.ParentDir => 2 | Shell.Normal _ => 3 end%N.

Definition component_compare (a b : Shell.Component) : comparison :=
  match a, b with
  | Shell.Normal x, Shell.Normal y => str_compare x y
  | _, _ => N.compare (component_rank a) (component_rank b)
  end.

Definition path_compare : PathBuf -> PathBuf -> comparison := list_compare component_compare.

(** ** absolutize.rs *)

Definition normalize_step (normalized : PathBuf) (c : Shell.Component) : PathBuf :=
  match c with
  | Shell.CurDir => normalized
  | Shell.ParentDir => pop normalized
  | _ => push_component normalized c
  end.

Definition normalize_path (path : PathBuf) : PathBuf :=
  let normalized := fold_left normalize_step path [] in
  if is_empty normalized then [Shell.CurDir] else normalized.

Definition path_with_base (path base_path : PathBuf) : PathBuf :=
  if is_absolute path then path else path_join base_path path.

Definition absolutize_from (path base_path : PathBuf) : PathBuf := normalize_path (path_with_base path base_path).

(** ** The operating system *)

(** What the code asks of the process environment and the file system.
    [symlink_metadata] tells whether the path itself is a symlink. *)
Class Os := {
  home_dir : option PathBuf;
  current_dir : option PathBuf;
  tmpdir_var : option PathBuf;
  symlink_metadata : PathBuf -> option bool;
  fs_canonicalize : PathBuf -> option PathBuf;
  is_dir : PathBuf -> bool;
  is_file : PathBuf -> bool;
  exists_path : PathBuf -> bool;
  read_to_string : PathBuf -> option str }.

(** The current directory is absolute, if it is known. *)
Class OsLaws `(Os) : Prop := current_absolute cwd : current_dir = Some cwd -> is_absolute cwd = true.

(** ** lib.rs *)

Section os.
Context `{Os}.

Definition absolutize (path : PathBuf) : option PathBuf :=
  if is_absolute path then Some (normalize_path path)
  else option_map (absolutize_from path) current_dir.

Definition maybe_expand_home_directory (path : PathBuf) : PathBuf :=
  match home_dir, path with
  | Some home, Shell.Normal name :: rest =>
      if name == lit "~" then match rest with [] => home | _ => path_join home rest end else path
  | _, _ => path
  end.

Definition resolve_path_against_base (path base_path : PathBuf) : AbsolutePathBuf :=
  absolutize_from (maybe_expand_home_directory path) base_path.

Definition from_absolute_path (path : PathBuf) : option AbsolutePathBuf :=
  absolutize (maybe_expand_home_directory path).

Definition from_absolute_path_checked (path : PathBuf) : option AbsolutePathBuf :=
  let expanded := maybe_expand_home_directory path in
  if negb (is_absolute expanded) then None else Some (absolutize_from expanded [Shell.RootDir]).

Definition relative_to_current_dir (path : PathBuf) : option AbsolutePathBuf :=
  option_map (resolve_path_against_base path) current_dir.

Definition abs_join (self path : PathBuf) : AbsolutePathBuf := resolve_path_against_base path self.

Definition should_preserve_logical_path (logical : PathBuf) : bool :=
  existsb (fun ancestor =>
    match symlink_metadata ancestor with
    | None => false
    | Some is_symlink => is_symlink && is_some (parent ancestor ≫= parent)
    end) (ancestors logical).

Definition canonicalize_preserving_symlinks (path : PathBuf) : option PathBuf :=
  match from_absolute_path path with
  | None => None
  | Some logical =>
      let preserve_logical_path := should_preserve_logical_path logical in
      Some (match fs_canonicalize path with
            | Some canonical => if preserve_logical_path && negb (canonical == logical) then logical else canonical
            | None => logical
            end)
  end.

Definition canonicalize_existing_preserving_symlinks (path : PathBuf) : option PathBuf :=
  match from_absolute_path path with
  | None => None
  | Some logical =>
      match fs_canonicalize path with
      | None => None
      | Some canonical =>
          Some (if should_preserve_logical_path logical && negb (canonical == logical) then logical else canonical)
      end
  end.

(** [Deserialize]: against the base of the guard, if one is held. *)
Definition deserialize (guard : option PathBuf) (path : PathBuf) : option AbsolutePathBuf :=
  match guard with
  | Some base => Some (resolve_path_against_base path base)
  | None => if is_absolute path then from_absolute_path path else None
  end.

End os.

(** ** Facts *)

Lemma path_strip_prefix_Some path base rest : path_strip_prefix path base = Some rest <-> path = base ++ rest.
Proof.
  revert path. induction base as [|b base IH]; intros [|c path]; cbn [path_strip_prefix app]; try naive_solver.
  case_bool_decide; [subst; rewrite IH; naive_solver|naive_solver].
Qed.

Lemma path_starts_with_prefix path base : path_starts_with path base = true <-> base `prefix_of` path.
Proof.
  unfold path_starts_with, is_some, prefix. destruct (path_strip_prefix path base) as [rest|] eqn:E.
  - apply path_strip_prefix_Some in E as ->. split; [by exists rest|done].
  - split; [done|]. intros [rest ->]. by rewrite (proj2 (path_strip_prefix_Some _ base rest) eq_refl) in E.
Qed.

(** A normalised absolute path: the root and names. *)
Definition normalized (p : PathBuf) : Prop := exists names, p = Shell.RootDir :: List.map Shell.Normal names.

Lemma normalized_root : normalized [Shell.RootDir].
Proof. by exists []. Qed.

Lemma normalized_snoc p name : normalized p -> normalized (p ++ [Shell.Normal name]).
Proof. intros [names ->]. exists (names ++ [name]). by rewrite List.map_app. Qed.

Lemma normalized_snoc_inv p c : normalized (p ++ [c]) -> p <> [] -> normalized p /\ exists name, c = Shell.Normal name.
Proof.
  intros [names E] Hp. destruct p as [|r p]; [done|]. injection E as -> E.
  destruct (List.map_eq_app _ _ _ _ (eq_sym E)) as (l1 & l2 & -> & <- & E2).
  destruct l2 as [|name [|]]; try done. injection E2 as <-. split; [by exists l1|by exists name].
Qed.

Lemma normalized_prefix p q : normalized p -> q `prefix_of` p -> q <> [] -> normalized q.
Proof.
  intros Hp [k ->] Hq. induction k as [|c k IH] using rev_ind; [by rewrite app_nil_r in Hp|].
  apply IH. rewrite app_assoc in Hp. eapply normalized_snoc_inv; [exact Hp|]. by destruct q.
Qed.

Lemma normalized_absolute p : normalized p -> is_absolute p = true.
Proof. by intros [names ->]. Qed.

Lemma pop_normalized p : normalized p -> normalized (pop p).
Proof.
  intros Hp. destruct p as [|c p _] using rev_ind; [done|]. unfold pop, parent. rewrite last_snoc.
  destruct c; cbn; try done; rewrite List.removelast_last;
    (destruct p as [|r p]; [by destruct Hp as [[|] ?]|by eapply normalized_snoc_inv]).
Qed.

Lemma normalize_step_normalized p c : normalized p -> normalized (normalize_step p c).
Proof. intros Hp. destruct c; cbn; auto using normalized_root, pop_normalized, normalized_snoc. Qed.

Lemma fold_normalized path p : normalized p -> normalized (fold_left normalize_step path p).
Proof. revert p. induction path as [|c path IH]; intros p Hp; cbn; auto using normalize_step_normalized. Qed.

Lemma normalize_path_absolute path : is_absolute path = true -> normalized (normalize_path path).
Proof.
  destruct path as [|[] path]; try done. intros _. unfold normalize_path. cbn [fold_left normalize_step push_component].
  assert (Hn : normalized (fold_left normalize_step path [Shell.RootDir])) by apply fold_normalized, normalized_root.
  destruct (is_empty _) eqn:E; [|done]. apply is_empty_true in E. rewrite E in Hn. by destruct Hn.
Qed.

Lemma fold_names names p : p <> [] -> fold_left normalize_step (List.map Shell.Normal names) p = p ++ List.map Shell.Normal names.
Proof.
  revert p. induction names as [|n names IH]; intros p Hp; cbn [List.map fold_left normalize_step push_component].
  - by rewrite app_nil_r.
  - rewrite IH by (by destruct p). by rewrite <- app_assoc.
Qed.

Lemma normalize_path_id p : normalized p -> normalize_path p = p.
Proof.
  intros [names ->]. unfold normalize_path. cbn [fold_left normalize_step push_component].
  by rewrite fold_names.
Qed.

Lemma is_absolute_join base path : is_absolute base = true -> is_absolute (path_join base path) = true.
Proof. intros Hb. unfold path_join. destruct (is_absolute path) eqn:E; [done|]. by destruct base as [|[]]. Qed.

Section os_facts.
Context `{Ho : Os} `{!OsLaws Ho}.

Lemma expand_absolute path : is_absolute path = true -> maybe_expand_home_directory path = path.
Proof. unfold maybe_expand_home_directory. destruct path as [|[] path]; try done. by destruct home_dir. Qed.

Lemma resolve_normalized path base : is_absolute base = true -> normalized (resolve_path_against_base path base).
Proof.
  intros Hb. unfold resolve_path_against_base, absolutize_from, path_with_base. apply normalize_path_absolute.
  destruct (is_absolute (maybe_expand_home_directory path)) eqn:E; [done|]. by apply is_absolute_join.
Qed.

Lemma abs_join_normalized p path : normalized p -> normalized (abs_join p path).
Proof. intros Hp. by apply resolve_normalized, normalized_absolute. Qed.

Lemma from_absolute_path_absolute path : is_absolute path = true -> from_absolute_path path = Some (normalize_path path).
Proof. intros Hp. unfold from_absolute_path, absolutize. by rewrite expand_absolute, Hp. Qed.

Lemma from_absolute_path_normalized path p : from_absolute_path path = Some p -> normalized p.
Proof.
  unfold from_absolute_path, absolutize. destruct (is_absolute _) eqn:E; [intros [= <-]; by apply normalize_path_absolute|].
  destruct current_dir as [cwd|] eqn:Ec; [|done]. intros [= <-]. apply normalize_path_absolute. unfold path_with_base.
  rewrite E. apply is_absolute_join. by apply current_absolute.
Qed.

Lemma from_absolute_path_id p : normalized p -> from_absolute_path p = Some p.
Proof. intros Hp. rewrite from_absolute_path_absolute by by apply normalized_absolute. by rewrite normalize_path_id. Qed.

(** Joining a name appends it. *)
Lemma abs_join_name p name : normalized p -> name <> lit "~" -> abs_join p [Shell.Normal name] = p ++ [Shell.Normal name].
Proof.
  intros Hp Hn. unfold abs_join, resolve_path_against_base. 
  assert (maybe_expand_home_directory [Shell.Normal name] = [Shell.Normal name]) as ->.
  { unfold maybe_expand_home_directory. destruct home_dir; [|done]. by rewrite bool_decide_eq_false_2. }
  unfold absolutize_from, path_with_base, path_join. cbn [is_absolute]. destruct p as [|c p]; [by destruct Hp|].
  by apply normalize_path_id, normalized_snoc.
Qed.

End os_facts.

End AbsolutePath.
