(* ===== verification/Permissions.v ===== *)
(** Permissions ([protocol/src/permissions.rs]): filesystem sandbox policies, what
    they grant on a path, the roots that sandboxes enforce, the deny-read matcher
    and the conversions from and to the legacy [SandboxPolicy] of
    [protocol/src/protocol.rs].  Globs are compiled by the library globset. *)

From stdpp Require Import base list option numbers strings.
From S2P Require Import Prelude RustStr ShellTree AbsolutePath.

Module Permissions.
Import AbsolutePath.

Open Scope rust_scope.

(** ** Data *)

Inductive NetworkSandboxPolicy := NetRestricted | NetEnabled.

Definition is_enabled (n : NetworkSandboxPolicy) : bool := match n with NetEnabled => true | NetRestricted => false end.

Inductive FileSystemAccessMode := Read | Write | Deny.

#[export] Instance access_eq_dec : EqDecision FileSystemAccessMode.
Proof. solve_decision. Defined.

(** The derived order. *)
Definition access_rank (a : FileSystemAccessMode) : nat := match a with Read => 0 | Write => 1 | Deny => 2 end.

Definition can_read (a : FileSystemAccessMode) : bool := match a with Deny => false | _ => true end.
Definition can_write (a : FileSystemAccessMode) : bool := match a with Write => true | _ => false end.

Inductive FileSystemSpecialPath :=
| Root
| Minimal
| ProjectRoots (subpath : option PathBuf)
| Tmpdir
| SlashTmp
| Unknown (path : str) (subpath : option PathBuf).

Inductive FileSystemPath :=
| Path (path : AbsolutePathBuf)
| GlobPattern (pattern : str)
| Special (value : FileSystemSpecialPath).

#[export] Instance special_path_eq_dec : EqDecision FileSystemSpecialPath.
Proof. solve_decision. Defined.

#[export] Instance file_system_path_eq_dec : EqDecision FileSystemPath.
Proof. solve_decision. Defined.

Record FileSystemSandboxEntry := mkEntry { entry_path : FileSystemPath; entry_access : FileSystemAccessMode }.

#[export] Instance entry_eq_dec : EqDecision FileSystemSandboxEntry.
Proof. solve_decision. Defined.

Inductive FileSystemSandboxKind := Restricted | Unrestricted | ExternalSandboxKind.

#[export] Instance kind_eq_dec : EqDecision FileSystemSandboxKind.
Proof. solve_decision. Defined.

Record FileSystemSandboxPolicy := mkPolicy {
  kind : FileSystemSandboxKind;
  glob_scan_max_depth : option nat;
  entries : list FileSystemSandboxEntry }.

Record ResolvedFileSystemEntry := mkResolved { res_path : AbsolutePathBuf; res_access : FileSystemAccessMode }.

(** [SandboxPolicy] and [WritableRoot] of protocol.rs. *)
Inductive NetworkAccess := NetAccessRestricted | NetAccessEnabled.

Inductive SandboxPolicy :=
| DangerFullAccess
| ReadOnly (network_access : bool)
| ExternalSandbox (network_access : NetworkAccess)
| WorkspaceWrite (writable_roots : list AbsolutePathBuf) (network_access exclude_tmpdir_env_var exclude_slash_tmp : bool).

Record WritableRoot := mkRoot {
  root : AbsolutePathBuf;
  read_only_subpaths : list AbsolutePathBuf;
  protected_metadata_names : list str }.

#[export] Instance writable_root_eq_dec : EqDecision WritableRoot.
Proof. solve_decision. Defined.

(** ** Metadata names *)

Definition GIT : str := lit ".git".
Definition AGENTS : str := lit ".agents".
Definition CODEX : str := lit ".tokencode".

Definition PROTECTED_METADATA_PATH_NAMES : list str := [GIT; AGENTS; CODEX].

Definition is_protected_metadata_name (name : str) : bool :=
  existsb (fun metadata_name => name == metadata_name) PROTECTED_METADATA_PATH_NAMES.

Definition is_protected_metadata_directory_name (name : str) : bool := (name == AGENTS) || (name == CODEX).

Definition metadata_path_name (name : str) : option str :=
  find_first (fun metadata_name => name == metadata_name) PROTECTED_METADATA_PATH_NAMES.

(** ** Policies *)

Definition restricted (es : list FileSystemSandboxEntry) : FileSystemSandboxPolicy := mkPolicy Restricted None es.
Definition unrestricted : FileSystemSandboxPolicy := mkPolicy Unrestricted None [].
Definition external_sandbox : FileSystemSandboxPolicy := mkPolicy ExternalSandboxKind None [].

Definition read_only_file_system_entries : list FileSystemSandboxEntry := [mkEntry (Special Root) Read].
Definition read_only : FileSystemSandboxPolicy := restricted read_only_file_system_entries.

Definition is_restricted (p : FileSystemSandboxPolicy) : bool := kind p == Restricted.

Definition has_root_access (p : FileSystemSandboxPolicy) (predicate : FileSystemAccessMode -> bool) : bool :=
  is_restricted p
  && existsb (fun e => match entry_path e with Special Root => predicate (entry_access e) | _ => false end) (entries p).

Definition is_deny (e : FileSystemSandboxEntry) : bool := entry_access e == Deny.

Definition has_denied_read_restrictions (p : FileSystemSandboxPolicy) : bool :=
  is_restricted p && existsb is_deny (entries p).

(** Push each of [new] that is not there yet. *)
Definition push_missing (es new : list FileSystemSandboxEntry) : list FileSystemSandboxEntry :=
  fold_left (fun es e => if existsb (fun entry => entry == e) es then es else es ++ [e]) new es.

Definition preserve_deny_read_restrictions_from (p existing : FileSystemSandboxPolicy) : FileSystemSandboxPolicy :=
  let has_deny_read_entries := existsb is_deny (entries existing) in
  let p := if (kind p == Unrestricted) && has_deny_read_entries then restricted [mkEntry (Special Root) Write] else p in
  if negb (is_restricted p) then p
  else
    mkPolicy (kind p)
      (match glob_scan_max_depth p with None => glob_scan_max_depth existing | d => d end)
      (push_missing (entries p) (List.filter is_deny (entries existing))).

(** ** Targets of entries *)

Definition special_paths_share_target (l r : FileSystemSpecialPath) : bool :=
  match l, r with
  | Root, Root | Minimal, Minimal | Tmpdir, Tmpdir | SlashTmp, SlashTmp => true
  | ProjectRoots l, ProjectRoots r => l == r
  | Unknown l lsub, Unknown r rsub => (l == r) && (lsub == rsub)
  | _, _ => false
  end.

Definition SLASH_TMP : PathBuf := [Shell.RootDir; Shell.Normal (lit "tmp")].

Definition special_path_matches_absolute_path (value : FileSystemSpecialPath) (path : AbsolutePathBuf) : bool :=
  match value with
  | Root => negb (is_some (parent path))
  | SlashTmp => path == SLASH_TMP
  | _ => false
  end.

Definition file_system_paths_share_target (l r : FileSystemPath) : bool :=
  match l, r with
  | Path l, Path r => l == r
  | Special l, Special r => special_paths_share_target l r
  | Path path, Special value | Special value, Path path => special_path_matches_absolute_path value path
  | GlobPattern l, GlobPattern r => l == r
  | GlobPattern _, _ | _, GlobPattern _ => false
  end.

Definition has_same_target_write_override (p : FileSystemSandboxPolicy) (e : FileSystemSandboxEntry) : bool :=
  existsb (fun candidate =>
    can_write (entry_access candidate)
    && (access_rank (entry_access e) <? access_rank (entry_access candidate))
    && file_system_paths_share_target (entry_path candidate) (entry_path e)) (entries p).

Definition narrows_write (p : FileSystemSandboxPolicy) (e : FileSystemSandboxEntry) : bool :=
  if can_write (entry_access e) then false
  else match entry_path e with
       | Path _ => negb (has_same_target_write_override p e)
       | GlobPattern _ => true
       | Special Root => is_deny e
       | Special Minimal | Special (Unknown _ _) => false
       | Special _ => negb (has_same_target_write_override p e)
       end.

Definition has_write_narrowing_entries (p : FileSystemSandboxPolicy) : bool :=
  is_restricted p && existsb (narrows_write p) (entries p).

Definition has_full_disk_read_access (p : FileSystemSandboxPolicy) : bool :=
  match kind p with
  | Restricted => has_root_access p can_read && negb (has_denied_read_restrictions p)
  | _ => true
  end.

Definition has_full_disk_write_access (p : FileSystemSandboxPolicy) : bool :=
  match kind p with
  | Restricted => has_root_access p can_write && negb (has_write_narrowing_entries p)
  | _ => true
  end.

Definition include_platform_defaults (p : FileSystemSandboxPolicy) : bool :=
  negb (has_full_disk_read_access p) && is_restricted p
  && existsb (fun e => match entry_path e with Special Minimal => can_read (entry_access e) | _ => false end) (entries p).

(** ** Default entries *)

Definition append_default_read_only_entry_if_no_explicit_rule (es : list FileSystemSandboxEntry) (path : FileSystemPath)
    : list FileSystemSandboxEntry :=
  if existsb (fun e => file_system_paths_share_target (entry_path e) path) es then es
  else es ++ [mkEntry path Read].

Definition append_default_read_only_path_if_no_explicit_rule (es : list FileSystemSandboxEntry) (path : AbsolutePathBuf)
    : list FileSystemSandboxEntry :=
  append_default_read_only_entry_if_no_explicit_rule es (Path path).

Definition append_default_read_only_project_root_subpath_if_no_explicit_rule (es : list FileSystemSandboxEntry) (subpath : PathBuf)
    : list FileSystemSandboxEntry :=
  append_default_read_only_entry_if_no_explicit_rule es (Special (ProjectRoots (Some subpath))).

Definition PROJECT_ROOTS_GLOB_PATTERN_PREFIX : str := lit "codex-project-roots://".

Definition project_roots_glob_pattern (subpath : str) : str := PROJECT_ROOTS_GLOB_PATTERN_PREFIX ++ subpath.

Definition parse_project_roots_glob_pattern (pattern : str) : option PathBuf :=
  option_map Shell.components (strip_prefix PROJECT_ROOTS_GLOB_PATTERN_PREFIX pattern).

(** ** Sorting *)

Fixpoint insert_sorted {A} (cmp : A -> A -> comparison) (x : A) (l : list A) : list A :=
  match l with
  | [] => [x]
  | y :: l' => match cmp x y with Gt => y :: insert_sorted cmp x l' | _ => x :: l end
  end.

Definition sort_by {A} (cmp : A -> A -> comparison) (l : list A) : list A := foldr (insert_sorted cmp) [] l.

(** [Vec::dedup]. *)
Fixpoint dedup (l : list str) : list str :=
  match l with
  | a :: (b :: _) as rest => if a == b then dedup rest else a :: dedup rest
  | _ => l
  end.

Definition sorted_absolute_paths (paths : list AbsolutePathBuf) : list AbsolutePathBuf := sort_by path_compare paths.

Definition sorted_writable_roots (roots : list WritableRoot) : list WritableRoot :=
  sort_by (fun l r => path_compare (root l) (root r))
    (List.map (fun r => mkRoot (root r) (sorted_absolute_paths (read_only_subpaths r))
                          (dedup (sort_by str_compare (protected_metadata_names r)))) roots).

(** ** Resolution *)

Section os.
Context `{Os}.

Definition absolute_root_path_for_cwd (cwd : AbsolutePathBuf) : AbsolutePathBuf :=
  default cwd (last (ancestors cwd) ≫= from_absolute_path).

Definition resolve_candidate_path (path cwd : PathBuf) : option AbsolutePathBuf :=
  if is_absolute path then from_absolute_path path
  else option_map (fun cwd => abs_join cwd path) (from_absolute_path cwd).

Definition resolve_file_system_special_path (value : FileSystemSpecialPath) (cwd : option AbsolutePathBuf)
    : option AbsolutePathBuf :=
  match value with
  | Root | Minimal | Unknown _ _ => None
  | ProjectRoots subpath =>
      option_map (fun cwd => match subpath with Some subpath => resolve_path_against_base subpath cwd | None => cwd end) cwd
  | Tmpdir =>
      match tmpdir_var with
      | None => None
      | Some tmpdir => if is_empty tmpdir then None else from_absolute_path tmpdir
      end
  | SlashTmp => if negb (is_dir SLASH_TMP) then None else Some SLASH_TMP
  end.

Definition resolve_file_system_path (path : FileSystemPath) (cwd : option AbsolutePathBuf) : option AbsolutePathBuf :=
  match path with
  | Path path => Some path
  | GlobPattern _ => None
  | Special value => resolve_file_system_special_path value cwd
  end.

Definition resolve_entry_path (path : FileSystemPath) (cwd : option AbsolutePathBuf) : option AbsolutePathBuf :=
  match path with
  | Special Root => option_map absolute_root_path_for_cwd cwd
  | _ => resolve_file_system_path path cwd
  end.

Definition resolve_project_roots_glob_pattern (subpath : PathBuf) (root : AbsolutePathBuf) : str :=
  to_string_lossy (resolve_path_against_base subpath root).

Definition resolve_entry (cwd : option AbsolutePathBuf) (e : FileSystemSandboxEntry) : option ResolvedFileSystemEntry :=
  option_map (fun path => mkResolved path (entry_access e)) (resolve_entry_path (entry_path e) cwd).

Definition resolved_entries_with_cwd (p : FileSystemSandboxPolicy) (cwd : PathBuf) : list ResolvedFileSystemEntry :=
  omap (resolve_entry (from_absolute_path cwd)) (entries p).

Definition resolved_entry_precedence (e : ResolvedFileSystemEntry) : nat * FileSystemAccessMode :=
  (length (res_path e), res_access e).

Definition precedence_le (a b : nat * FileSystemAccessMode) : bool :=
  (a.1 <? b.1) || ((a.1 =? b.1) && (access_rank a.2 <=? access_rank b.2)).

(** [Iterator::max_by_key]: the last of the greatest. *)
Fixpoint max_by_precedence (best : option ResolvedFileSystemEntry) (l : list ResolvedFileSystemEntry)
    : option ResolvedFileSystemEntry :=
  match l with
  | [] => best
  | e :: l =>
      max_by_precedence
        (match best with
         | None => Some e
         | Some b => if precedence_le (resolved_entry_precedence b) (resolved_entry_precedence e) then Some e else Some b
         end) l
  end.

Definition resolve_access_with_cwd (p : FileSystemSandboxPolicy) (path cwd : PathBuf) : FileSystemAccessMode :=
  match kind p with
  | Restricted =>
      match resolve_candidate_path path cwd with
      | None => Deny
      | Some path =>
          default Deny
            (option_map res_access
               (max_by_precedence None
                  (List.filter (fun e => path_starts_with path (res_path e)) (resolved_entries_with_cwd p cwd))))
      end
  | _ => Write
  end.

Definition can_read_path_with_cwd (p : FileSystemSandboxPolicy) (path cwd : PathBuf) : bool :=
  can_read (resolve_access_with_cwd p path cwd).

(** ** Metadata of writable roots *)

(** The metadata directory of the writable root [e] that [target] is in. *)
Definition metadata_child (target : PathBuf) (e : ResolvedFileSystemEntry) : option (AbsolutePathBuf * str) :=
  match path_strip_prefix target (res_path e) with
  | Some (first_component :: _) =>
      option_map (fun metadata_name => (abs_join (res_path e) [Shell.Normal metadata_name], metadata_name))
        (metadata_path_name (component_str first_component))
  | _ => None
  end.

Definition metadata_child_of_writable_root (p : FileSystemSandboxPolicy) (target cwd : PathBuf)
    : option (AbsolutePathBuf * str) :=
  head (omap (metadata_child target) (List.filter (fun e => can_write (res_access e)) (resolved_entries_with_cwd p cwd))).

Definition has_explicit_write_entry_for_metadata_path (p : FileSystemSandboxPolicy) (protected_metadata_path : AbsolutePathBuf)
    (target cwd : PathBuf) : bool :=
  existsb (fun e => can_write (res_access e) && path_starts_with target (res_path e)
                    && path_starts_with (res_path e) protected_metadata_path)
    (resolved_entries_with_cwd p cwd).

Definition is_metadata_write_denied (p : FileSystemSandboxPolicy) (path cwd : PathBuf) : bool :=
  if negb (is_restricted p) then false
  else match resolve_candidate_path path cwd with
       | None => true
       | Some target =>
           match metadata_child_of_writable_root p target cwd with
           | None => false
           | Some (protected_metadata_path, _) =>
               negb (has_explicit_write_entry_for_metadata_path p protected_metadata_path target cwd)
           end
       end.

Definition can_write_path_with_cwd (p : FileSystemSandboxPolicy) (path cwd : PathBuf) : bool :=
  if negb (can_write (resolve_access_with_cwd p path cwd)) then false
  else if has_full_disk_write_access p then true
  else negb (is_metadata_write_denied p path cwd).

Definition forbidden_agent_metadata_write (path cwd : PathBuf) (p : FileSystemSandboxPolicy) : option str :=
  if negb (is_restricted p) then None
  else
    match resolve_candidate_path path cwd with
    | None => None
    | Some target =>
        match metadata_child_of_writable_root p target cwd with
        | None => None
        | Some (protected_metadata_path, metadata_name) =>
            if has_explicit_write_entry_for_metadata_path p protected_metadata_path target cwd then None
            else if negb (can_write_path_with_cwd p target cwd) then Some metadata_name else None
        end
    end.

(** ** Effective paths *)

Definition effective_at (raw_path ancestor : PathBuf) : option AbsolutePathBuf :=
  if negb (is_some (symlink_metadata ancestor)) then None
  else match canonicalize_preserving_symlinks ancestor with
       | None => None
       | Some normalized_ancestor =>
           match path_strip_prefix raw_path ancestor with
           | None => None
           | Some suffix => from_absolute_path (path_join normalized_ancestor suffix)
           end
       end.

(** The first existing ancestor that can be canonicalised is. *)
Definition normalize_effective_absolute_path (path : AbsolutePathBuf) : AbsolutePathBuf :=
  default path (head (omap (effective_at path) (ancestors path))).

Fixpoint dedup_paths (f : AbsolutePathBuf -> AbsolutePathBuf) (seen deduped paths : list AbsolutePathBuf)
    : list AbsolutePathBuf :=
  match paths with
  | [] => deduped
  | path :: paths =>
      let dedup_path := f path in
      if existsb (fun s => s == dedup_path) seen then dedup_paths f seen deduped paths
      else dedup_paths f (dedup_path :: seen) (deduped ++ [dedup_path]) paths
  end.

Definition dedup_absolute_paths (paths : list AbsolutePathBuf) (normalize_effective_paths : bool) : list AbsolutePathBuf :=
  dedup_paths (fun p => if normalize_effective_paths then normalize_effective_absolute_path p else p) [] [] paths.

(** ** Protected subpaths *)

Definition COLON : char := 58.

Definition is_git_pointer_file (path : AbsolutePathBuf) : bool :=
  is_file path && match last path with Some (Shell.Normal name) => name == GIT | _ => false end.

Definition resolve_gitdir_from_file (dot_git : AbsolutePathBuf) : option AbsolutePathBuf :=
  match read_to_string dot_git with
  | None => None
  | Some contents =>
      match split_once [COLON] (trim contents) with
      | None => None
      | Some (prefix, gitdir_raw) =>
          if negb (trim prefix == lit "gitdir") then None
          else
            let gitdir_raw := trim gitdir_raw in
            if is_empty gitdir_raw then None
            else match parent dot_git with
                 | None => None
                 | Some base =>
                     let gitdir_path := resolve_path_against_base (Shell.components gitdir_raw) base in
                     if negb (exists_path gitdir_path) then None else Some gitdir_path
                 end
      end
  end.

Definition default_read_only_subpaths_for_writable_root (writable_root : AbsolutePathBuf) (protect_missing_dot_codex : bool)
    : list AbsolutePathBuf :=
  let top_level_git := abs_join writable_root [Shell.Normal GIT] in
  let top_level_git_is_file := is_file top_level_git in
  let should_protect_top_level := is_dir top_level_git || top_level_git_is_file in
  let git_subpaths :=
    if should_protect_top_level then
      (if top_level_git_is_file && is_git_pointer_file top_level_git then
         match resolve_gitdir_from_file top_level_git with Some gitdir => [gitdir] | None => [] end
       else []) ++ [top_level_git]
    else [] in
  let top_level_agents := abs_join writable_root [Shell.Normal AGENTS] in
  let agents_subpaths := if is_dir top_level_agents then [top_level_agents] else [] in
  let top_level_codex := abs_join writable_root [Shell.Normal CODEX] in
  let codex_subpaths := if protect_missing_dot_codex || is_dir top_level_codex then [top_level_codex] else [] in
  dedup_absolute_paths (git_subpaths ++ agents_subpaths ++ codex_subpaths) false.

(** The default read-only entries of one writable root. *)
Definition append_default_read_only_subpaths (es : list FileSystemSandboxEntry) (writable_root : AbsolutePathBuf)
    (protect_missing_dot_codex : bool) : list FileSystemSandboxEntry :=
  fold_left append_default_read_only_path_if_no_explicit_rule
    (default_read_only_subpaths_for_writable_root writable_root protect_missing_dot_codex) es.

(** ** Building policies *)

Definition workspace_entries (writable_roots : list AbsolutePathBuf) (exclude_tmpdir_env_var exclude_slash_tmp : bool)
    : list FileSystemSandboxEntry :=
  [mkEntry (Special Root) Read; mkEntry (Special (ProjectRoots None)) Write]
  ++ (if negb exclude_slash_tmp then [mkEntry (Special SlashTmp) Write] else [])
  ++ (if negb exclude_tmpdir_env_var then [mkEntry (Special Tmpdir) Write] else [])
  ++ List.map (fun path => mkEntry (Path path) Write) writable_roots.

Definition workspace_write (writable_roots : list AbsolutePathBuf) (exclude_tmpdir_env_var exclude_slash_tmp : bool)
    : FileSystemSandboxPolicy :=
  let es := workspace_entries writable_roots exclude_tmpdir_env_var exclude_slash_tmp in
  let es := append_default_read_only_project_root_subpath_if_no_explicit_rule es [Shell.Normal GIT] in
  let es := append_default_read_only_project_root_subpath_if_no_explicit_rule es [Shell.Normal AGENTS] in
  let es := append_default_read_only_project_root_subpath_if_no_explicit_rule es [Shell.Normal CODEX] in
  restricted (fold_left (fun es writable_root => append_default_read_only_subpaths es writable_root false) writable_roots es).

Definition from_sandbox_policy (value : SandboxPolicy) : FileSystemSandboxPolicy :=
  match value with
  | DangerFullAccess => unrestricted
  | ExternalSandbox _ => external_sandbox
  | ReadOnly _ => restricted [mkEntry (Special Root) Read]
  | WorkspaceWrite writable_roots _ exclude_tmpdir_env_var exclude_slash_tmp =>
      workspace_write writable_roots exclude_tmpdir_env_var exclude_slash_tmp
  end.

(** The protected subpaths of the working directory and of each root. *)
Definition append_for_cwd (es : list FileSystemSandboxEntry) (writable_roots : list AbsolutePathBuf) (cwd : PathBuf)
    : list FileSystemSandboxEntry :=
  let es :=
    match from_absolute_path cwd with
    | Some cwd_root => append_default_read_only_subpaths es cwd_root true
    | None => es
    end in
  fold_left (fun es writable_root => append_default_read_only_subpaths es writable_root false) writable_roots es.

Definition from_legacy_sandbox_policy_for_cwd (sandbox_policy : SandboxPolicy) (cwd : PathBuf) : FileSystemSandboxPolicy :=
  let file_system_policy := from_sandbox_policy sandbox_policy in
  match sandbox_policy with
  | WorkspaceWrite writable_roots _ _ _ =>
      mkPolicy (kind file_system_policy) (glob_scan_max_depth file_system_policy)
        (append_for_cwd (entries file_system_policy) writable_roots cwd)
  | _ => file_system_policy
  end.

Definition from_legacy_sandbox_policy_preserving_deny_entries (sandbox_policy : SandboxPolicy) (cwd : PathBuf)
    (existing : FileSystemSandboxPolicy) : FileSystemSandboxPolicy :=
  let rebuilt := from_legacy_sandbox_policy_for_cwd sandbox_policy cwd in
  if negb (is_restricted rebuilt) then rebuilt
  else mkPolicy (kind rebuilt) (glob_scan_max_depth existing)
         (push_missing (entries rebuilt) (List.filter is_deny (entries existing))).

Definition legacy_runtime_file_system_policy_for_cwd (sandbox_policy : SandboxPolicy) (cwd : PathBuf) : FileSystemSandboxPolicy :=
  match sandbox_policy with
  | WorkspaceWrite writable_roots _ exclude_tmpdir_env_var exclude_slash_tmp =>
      restricted (append_for_cwd (workspace_entries writable_roots exclude_tmpdir_env_var exclude_slash_tmp) writable_roots cwd)
  | _ => from_sandbox_policy sandbox_policy
  end.

(** ** Materialising and extending *)

Definition materialize_entry (cwd : option AbsolutePathBuf) (e : FileSystemSandboxEntry) : FileSystemSandboxEntry :=
  match entry_path e with
  | Special (ProjectRoots _) =>
      match resolve_file_system_path (entry_path e) cwd with
      | Some path => mkEntry (Path path) (entry_access e)
      | None => e
      end
  | GlobPattern pattern =>
      match cwd, parse_project_roots_glob_pattern pattern with
      | Some cwd, Some subpath => mkEntry (GlobPattern (resolve_project_roots_glob_pattern subpath cwd)) (entry_access e)
      | _, _ => e
      end
  | _ => e
  end.

Definition materialize_project_roots_with_cwd (p : FileSystemSandboxPolicy) (cwd : PathBuf) : FileSystemSandboxPolicy :=
  mkPolicy (kind p) (glob_scan_max_depth p) (List.map (materialize_entry (from_absolute_path cwd)) (entries p)).

Definition materialize_for_roots (workspace_roots : list AbsolutePathBuf) (e : FileSystemSandboxEntry)
    : list FileSystemSandboxEntry :=
  match entry_path e with
  | Special (ProjectRoots subpath) =>
      List.map (fun root =>
        mkEntry (Path (match subpath with Some subpath => resolve_path_against_base subpath root | None => root end))
          (entry_access e)) workspace_roots
  | GlobPattern pattern =>
      match parse_project_roots_glob_pattern pattern with
      | Some subpath =>
          List.map (fun root => mkEntry (GlobPattern (resolve_project_roots_glob_pattern subpath root)) (entry_access e))
            workspace_roots
      | None => [e]
      end
  | _ => [e]
  end.

Definition materialize_project_roots_with_workspace_roots (p : FileSystemSandboxPolicy) (workspace_roots : list AbsolutePathBuf)
    : FileSystemSandboxPolicy :=
  mkPolicy (kind p) (glob_scan_max_depth p) (List.flat_map (materialize_for_roots workspace_roots) (entries p)).

Definition with_materialized_project_roots_for_workspace_roots (p : FileSystemSandboxPolicy)
    (workspace_roots : list AbsolutePathBuf) : FileSystemSandboxPolicy :=
  mkPolicy (kind p) (glob_scan_max_depth p)
    (push_missing (entries p) (entries (materialize_project_roots_with_workspace_roots p workspace_roots))).

Definition push_entry (p : FileSystemSandboxPolicy) (e : FileSystemSandboxEntry) : FileSystemSandboxPolicy :=
  mkPolicy (kind p) (glob_scan_max_depth p) (entries p ++ [e]).

Definition with_additional_readable_roots (p : FileSystemSandboxPolicy) (cwd : PathBuf)
    (additional_readable_roots : list AbsolutePathBuf) : FileSystemSandboxPolicy :=
  if has_full_disk_read_access p then p
  else fold_left (fun p path => if can_read_path_with_cwd p path cwd then p else push_entry p (mkEntry (Path path) Read))
         additional_readable_roots p.

Definition with_additional_writable_roots (p : FileSystemSandboxPolicy) (cwd : PathBuf)
    (additional_writable_roots : list AbsolutePathBuf) : FileSystemSandboxPolicy :=
  fold_left (fun p path => if can_write_path_with_cwd p path cwd then p else push_entry p (mkEntry (Path path) Write))
    additional_writable_roots p.

Definition with_additional_legacy_workspace_writable_roots (p : FileSystemSandboxPolicy)
    (additional_writable_roots : list AbsolutePathBuf) : FileSystemSandboxPolicy :=
  if negb (is_restricted p) then p
  else
    fold_left (fun p path =>
      let p :=
        if existsb (fun e => can_write (entry_access e) && match entry_path e with Path existing => existing == path | _ => false end)
             (entries p)
        then p else push_entry p (mkEntry (Path path) Write) in
      mkPolicy (kind p) (glob_scan_max_depth p) (append_default_read_only_subpaths (entries p) path false))
      additional_writable_roots p.

(** ** What sandboxes enforce *)

Definition has_explicit_resolved_path_entry (es : list ResolvedFileSystemEntry) (path : AbsolutePathBuf) : bool :=
  existsb (fun e => res_path e == path) es.

Definition get_readable_roots_with_cwd (p : FileSystemSandboxPolicy) (cwd : PathBuf) : list AbsolutePathBuf :=
  if has_full_disk_read_access p then []
  else
    dedup_absolute_paths
      (List.map res_path
         (List.filter (fun e => can_read_path_with_cwd p (res_path e) cwd)
            (List.filter (fun e => can_read (res_access e)) (resolved_entries_with_cwd p cwd))))
      true.

Definition protected_metadata_names_for_writable_root (p : FileSystemSandboxPolicy) (root : AbsolutePathBuf)
    (raw_writable_roots : list AbsolutePathBuf) (cwd : PathBuf) : list str :=
  List.filter (fun metadata_name =>
    forallb (fun metadata_path => negb (can_write_path_with_cwd p metadata_path cwd))
      (abs_join root [Shell.Normal metadata_name]
       :: List.map (fun raw_root => abs_join raw_root [Shell.Normal metadata_name]) raw_writable_roots))
    PROTECTED_METADATA_PATH_NAMES.

(** The literal path of a carveout under the writable root [root]. *)
Definition raw_carveout (root : AbsolutePathBuf) (raw_writable_roots : list AbsolutePathBuf) (entry_path : AbsolutePathBuf)
    : option AbsolutePathBuf :=
  if negb (is_some (parent root)) then None
  else if entry_path == root then None
  else if path_starts_with entry_path root then Some entry_path
  else
    head (omap (fun raw_root =>
      match path_strip_prefix entry_path raw_root with
      | Some (c :: suffix) => Some (abs_join root (c :: suffix))
      | _ => None
      end) raw_writable_roots).

Definition carveout (root : AbsolutePathBuf) (raw_writable_roots : list AbsolutePathBuf) (e : ResolvedFileSystemEntry)
    : option AbsolutePathBuf :=
  let effective_path := normalize_effective_absolute_path (res_path e) in
  match raw_carveout root raw_writable_roots (res_path e) with
  | Some raw_carveout_path => Some raw_carveout_path
  | None => if (effective_path == root) || negb (path_starts_with effective_path root) then None else Some effective_path
  end.

Definition writable_root_of (p : FileSystemSandboxPolicy) (cwd : PathBuf) (resolved_entries : list ResolvedFileSystemEntry)
    (writable_entries : list AbsolutePathBuf) (root : AbsolutePathBuf) : WritableRoot :=
  let raw_writable_roots := List.filter (fun path => normalize_effective_absolute_path path == root) writable_entries in
  let protect_missing_dot_codex :=
    is_some_and (from_absolute_path cwd) (fun cwd => normalize_effective_absolute_path cwd == root) in
  let read_only_subpaths :=
    List.filter (fun path => negb (has_explicit_resolved_path_entry resolved_entries path))
      (default_read_only_subpaths_for_writable_root root protect_missing_dot_codex)
    ++ omap (carveout root raw_writable_roots)
         (List.filter (fun e => negb (can_write_path_with_cwd p (res_path e) cwd))
            (List.filter (fun e => negb (can_write (res_access e))) resolved_entries)) in
  mkRoot root (dedup_absolute_paths read_only_subpaths false)
    (protected_metadata_names_for_writable_root p root raw_writable_roots cwd).

Definition writable_entries_with_cwd (p : FileSystemSandboxPolicy) (cwd : PathBuf) : list AbsolutePathBuf :=
  List.map res_path
    (List.filter (fun e => can_write_path_with_cwd p (res_path e) cwd)
       (List.filter (fun e => can_write (res_access e)) (resolved_entries_with_cwd p cwd))).

Definition get_writable_roots_with_cwd (p : FileSystemSandboxPolicy) (cwd : PathBuf) : list WritableRoot :=
  if has_full_disk_write_access p then []
  else
    let resolved_entries := resolved_entries_with_cwd p cwd in
    let writable_entries := writable_entries_with_cwd p cwd in
    List.map (writable_root_of p cwd resolved_entries writable_entries) (dedup_absolute_paths writable_entries true).

Definition get_unreadable_roots_with_cwd (p : FileSystemSandboxPolicy) (cwd : PathBuf) : list AbsolutePathBuf :=
  if negb (is_restricted p) then []
  else
    let root := option_map absolute_root_path_for_cwd (from_absolute_path cwd) in
    dedup_absolute_paths
      (List.map res_path
         (List.filter (fun e => negb (root == Some (res_path e)))
            (List.filter (fun e => negb (can_read_path_with_cwd p (res_path e) cwd))
               (List.filter (fun e => res_access e == Deny) (resolved_entries_with_cwd p cwd)))))
      true.

Definition get_unreadable_globs_with_cwd (p : FileSystemSandboxPolicy) (cwd : PathBuf) : list str :=
  if negb (is_restricted p) then []
  else
    dedup (sort_by str_compare
      (omap (fun e => match entry_path e with
                      | GlobPattern pattern => Some (to_string_lossy (resolve_path_against_base (Shell.components pattern) cwd))
                      | _ => None
                      end) (List.filter is_deny (entries p)))).

Record FileSystemSemanticSignature := mkSignature {
  sig_full_disk_read : bool;
  sig_full_disk_write : bool;
  sig_platform_defaults : bool;
  sig_readable_roots : list AbsolutePathBuf;
  sig_writable_roots : list WritableRoot;
  sig_unreadable_roots : list AbsolutePathBuf;
  sig_unreadable_globs : list str }.

#[global] Instance signature_eq_dec : EqDecision FileSystemSemanticSignature.
Proof. solve_decision. Defined.

Definition semantic_signature (p : FileSystemSandboxPolicy) (cwd : PathBuf) : FileSystemSemanticSignature :=
  mkSignature (has_full_disk_read_access p) (has_full_disk_write_access p) (include_platform_defaults p)
    (sorted_absolute_paths (get_readable_roots_with_cwd p cwd))
    (sorted_writable_roots (get_writable_roots_with_cwd p cwd))
    (sorted_absolute_paths (get_unreadable_roots_with_cwd p cwd))
    (get_unreadable_globs_with_cwd p cwd).

Definition is_semantically_equivalent_to (p other : FileSystemSandboxPolicy) (cwd : PathBuf) : bool :=
  semantic_signature p cwd == semantic_signature other cwd.

(** ** protocol.rs: what a sandbox allows under a writable root *)

Definition path_contains_protected_metadata_name (self : WritableRoot) (path : PathBuf) : bool :=
  match path_strip_prefix path (root self) with
  | Some (first_component :: _) => existsb (fun name => component_str first_component == name) (protected_metadata_names self)
  | _ => false
  end.

Definition is_path_writable (self : WritableRoot) (path : PathBuf) : bool :=
  if negb (path_starts_with path (root self)) then false
  else if existsb (fun subpath => path_starts_with path subpath) (read_only_subpaths self) then false
  else negb (path_contains_protected_metadata_name self path).

Definition sandbox_has_full_disk_write_access (policy : SandboxPolicy) : bool :=
  match policy with DangerFullAccess | ExternalSandbox _ => true | _ => false end.

Definition has_full_network_access (policy : SandboxPolicy) : bool :=
  match policy with
  | DangerFullAccess => true
  | ExternalSandbox network_access => match network_access with NetAccessEnabled => true | _ => false end
  | ReadOnly network_access => network_access
  | WorkspaceWrite _ network_access _ _ => network_access
  end.

Definition sandbox_get_writable_roots_with_cwd (policy : SandboxPolicy) (cwd : PathBuf) : list WritableRoot :=
  match policy with
  | WorkspaceWrite writable_roots _ exclude_tmpdir_env_var exclude_slash_tmp =>
      let cwd_root := from_absolute_path cwd in
      let roots :=
        writable_roots
        ++ match cwd_root with Some cwd => [cwd] | None => [] end
        ++ (if negb exclude_slash_tmp && is_dir SLASH_TMP then [SLASH_TMP] else [])
        ++ (if negb exclude_tmpdir_env_var then
              match tmpdir_var with
              | Some tmpdir =>
                  if is_empty tmpdir then [] else match from_absolute_path tmpdir with Some t => [t] | None => [] end
              | None => []
              end
            else []) in
      List.map (fun writable_root =>
        mkRoot writable_root
          (default_read_only_subpaths_for_writable_root writable_root
             (is_some_and cwd_root (fun cwd_root => cwd_root == writable_root)))
          []) roots
  | _ => []
  end.

(** ** Legacy policies *)

Definition network_from_sandbox_policy (value : SandboxPolicy) : NetworkSandboxPolicy :=
  if has_full_network_access value then NetEnabled else NetRestricted.

Record LegacyScan := mkScan {
  workspace_root_writable : bool;
  scan_writable_roots : list AbsolutePathBuf;
  tmpdir_writable : bool;
  slash_tmp_writable : bool;
  unbridgeable_root_write : bool }.

Definition scan_entry (cwd_absolute : option AbsolutePathBuf) (s : LegacyScan) (e : FileSystemSandboxEntry) : LegacyScan :=
  let '(mkScan w roots tmp slash unb) := s in
  match entry_path e with
  | GlobPattern _ => s
  | Path path =>
      if can_write (entry_access e) then
        if is_some_and cwd_absolute (fun cwd => cwd == path) then mkScan true roots tmp slash unb
        else mkScan w (roots ++ [path]) tmp slash unb
      else s
  | Special value =>
      match value with
      | Root => match entry_access e with Write => mkScan w roots tmp slash true | _ => s end
      | Minimal => s
      | ProjectRoots subpath =>
          if negb (is_some subpath) && can_write (entry_access e) then mkScan true roots tmp slash unb
          else match resolve_file_system_special_path value cwd_absolute with
               | Some path => if can_write (entry_access e) then mkScan w (roots ++ [path]) tmp slash unb else s
               | None => s
               end
      | Tmpdir => if can_write (entry_access e) then mkScan w roots true slash unb else s
      | SlashTmp => if can_write (entry_access e) then mkScan w roots tmp true unb else s
      | Unknown _ _ => s
      end
  end.

Inductive LegacyError := InvalidInput.

Definition to_legacy_sandbox_policy (p : FileSystemSandboxPolicy) (network_policy : NetworkSandboxPolicy) (cwd : PathBuf)
    : result SandboxPolicy LegacyError :=
  match kind p with
  | ExternalSandboxKind =>
      Ok (ExternalSandbox (if is_enabled network_policy then NetAccessEnabled else NetAccessRestricted))
  | Unrestricted =>
      Ok (if is_enabled network_policy then DangerFullAccess else ExternalSandbox NetAccessRestricted)
  | Restricted =>
      let s := fold_left (scan_entry (from_absolute_path cwd)) (entries p) (mkScan false [] false false false) in
      if has_full_disk_write_access p then
        Ok (if is_enabled network_policy then DangerFullAccess else ExternalSandbox NetAccessRestricted)
      else if workspace_root_writable s then
        Ok (WorkspaceWrite (dedup_absolute_paths (scan_writable_roots s) false) (is_enabled network_policy)
              (negb (tmpdir_writable s)) (negb (slash_tmp_writable s)))
      else if unbridgeable_root_write s || negb (is_empty (scan_writable_roots s)) || tmpdir_writable s || slash_tmp_writable s
      then Err InvalidInput
      else Ok (ReadOnly (is_enabled network_policy))
  end.

Definition protected_metadata_names_need_direct_runtime_enforcement (p : FileSystemSandboxPolicy) (legacy_policy : SandboxPolicy)
    (cwd : PathBuf) : bool :=
  let legacy_roots := sandbox_get_writable_roots_with_cwd legacy_policy cwd in
  existsb (fun writable_root =>
    match find_first (fun candidate => root candidate == root writable_root) legacy_roots with
    | None => negb (is_empty (protected_metadata_names writable_root))
    | Some legacy_root =>
        existsb (fun metadata_name =>
          let metadata_path := abs_join (root writable_root) [Shell.Normal metadata_name] in
          negb (existsb (fun subpath => subpath == metadata_path) (read_only_subpaths legacy_root)))
          (protected_metadata_names writable_root)
    end) (get_writable_roots_with_cwd p cwd).

Definition needs_direct_runtime_enforcement (p : FileSystemSandboxPolicy) (network_policy : NetworkSandboxPolicy) (cwd : PathBuf)
    : bool :=
  if negb (is_restricted p) then false
  else match to_legacy_sandbox_policy p network_policy cwd with
       | Err _ => true
       | Ok legacy_policy =>
           if protected_metadata_names_need_direct_runtime_enforcement p legacy_policy cwd then true
           else negb (semantic_signature p cwd == semantic_signature (legacy_runtime_file_system_policy_for_cwd legacy_policy cwd) cwd)
       end.

(** ** The deny-read matcher *)

Definition push_unique (candidates : list PathBuf) (candidate : PathBuf) : list PathBuf :=
  if existsb (fun existing => existing == candidate) candidates then candidates else candidates ++ [candidate].

Definition normalized_and_canonical_candidates (path : PathBuf) : list PathBuf :=
  let candidates := push_unique [] (default path (from_absolute_path path)) in
  match fs_canonicalize path ≫= from_absolute_path with
  | Some canonical_absolute => push_unique candidates canonical_absolute
  | None => candidates
  end.

Section globs.
Context (build_glob_matcher : str -> result (PathBuf -> bool) str).

Record ReadDenyMatcher := mkMatcher {
  denied_candidates : list (list PathBuf);
  deny_read_matchers : list (PathBuf -> bool);
  invalid_pattern : bool }.

Inductive InvalidDenyReadGlobBehavior := FailClosed | ReturnError.

(** The loop over the patterns. *)
Fixpoint build_matchers (behavior : InvalidDenyReadGlobBehavior) (patterns : list str) (matchers : list (PathBuf -> bool))
    (invalid : bool) : result (list (PathBuf -> bool) * bool) (str * str) :=
  match patterns with
  | [] => Ok (matchers, invalid)
  | pattern :: patterns =>
      match build_glob_matcher pattern with
      | Ok matcher => build_matchers behavior patterns (matchers ++ [matcher]) invalid
      | Err err =>
          match behavior with
          | FailClosed => build_matchers behavior patterns matchers true
          | ReturnError => Err (pattern, err)
          end
      end
  end.

Definition build_matcher (p : FileSystemSandboxPolicy) (cwd : PathBuf) (behavior : InvalidDenyReadGlobBehavior)
    : result (option ReadDenyMatcher) (str * str) :=
  if negb (has_denied_read_restrictions p) then Ok None
  else
    let denied := List.map normalized_and_canonical_candidates (get_unreadable_roots_with_cwd p cwd) in
    let? r := build_matchers behavior (get_unreadable_globs_with_cwd p cwd) [] false in
    Ok (Some (mkMatcher denied r.1 r.2)).

(** [None] of the outer option: [new] would reach its [unreachable!]. *)
Definition matcher_new (p : FileSystemSandboxPolicy) (cwd : PathBuf) : option (option ReadDenyMatcher) :=
  match build_matcher p cwd FailClosed with Ok matcher => Some matcher | Err _ => None end.

Definition matcher_try_new (p : FileSystemSandboxPolicy) (cwd : PathBuf) : result (option ReadDenyMatcher) (str * str) :=
  build_matcher p cwd ReturnError.

Definition is_read_denied (self : ReadDenyMatcher) (path : PathBuf) : bool :=
  if invalid_pattern self then true
  else
    let path_candidates := normalized_and_canonical_candidates path in
    if existsb (fun denied => existsb (fun candidate =>
         existsb (fun denied_candidate => (candidate == denied_candidate) || path_starts_with candidate denied_candidate) denied)
         path_candidates) (denied_candidates self)
    then true
    else existsb (fun matcher => existsb matcher path_candidates) (deny_read_matchers self).

End globs.
End os.
End Permissions.
