(* ===== verification/PermissionsFacts.v ===== *)
(** Theorems on permissions: the most specific entry decides whatever the order of
    the entries; full-disk access is what it says; the roots that sandboxes enforce
    refine the policy; deny-read rules are enforced and fail closed; conversions
    keep what they must. *)

From stdpp Require Import base list option numbers strings sets.
From S2P Require Import Prelude RustStr ShellTree AbsolutePath Permissions.

Module PermissionsFacts.
Import AbsolutePath Permissions.

(** ** Which entry decides *)

Definition access_at (es : list ResolvedFileSystemEntry) (target : PathBuf) : FileSystemAccessMode :=
  default Deny (option_map res_access (max_by_precedence None (List.filter (fun e => path_starts_with target (res_path e)) es))).

(** Reference: among the entries for [target] and its ancestors, the deepest decide,
    and of these the one of highest rank; without any, access is denied. *)
Definition access_spec (es : list ResolvedFileSystemEntry) (target : PathBuf) (a : FileSystemAccessMode) : Prop :=
  (a = Deny /\ forall e, e ∈ es -> ~ res_path e `prefix_of` target) \/
  exists q, q `prefix_of` target /\ mkResolved q a ∈ es /\
    forall e, e ∈ es -> res_path e `prefix_of` target ->
      res_path e `prefix_of` q /\ (res_path e = q -> access_rank (res_access e) <= access_rank a).

Definition precedence (e : ResolvedFileSystemEntry) : nat := 3 * length (res_path e) + access_rank (res_access e).

Lemma access_rank_inj a b : access_rank a = access_rank b -> a = b.
Proof. by destruct a, b. Qed.

Lemma access_rank_le a : access_rank a <= 2.
Proof. destruct a; simpl; lia. Qed.

Lemma precedence_le_spec a b :
  precedence_le (resolved_entry_precedence a) (resolved_entry_precedence b) = true <-> precedence a <= precedence b.
Proof.
  unfold precedence_le, resolved_entry_precedence, precedence. cbn [fst snd].
  pose proof (access_rank_le (res_access a)). pose proof (access_rank_le (res_access b)).
  rewrite orb_true_iff, andb_true_iff, Nat.ltb_lt, Nat.eqb_eq, Nat.leb_le. lia.
Qed.

Lemma max_by_precedence_spec best l :
  match max_by_precedence best l with
  | None => best = None /\ l = []
  | Some e => (best = Some e \/ e ∈ l) /\ (forall e', e' ∈ l -> precedence e' <= precedence e) /\
              (forall b, best = Some b -> precedence b <= precedence e)
  end.
Proof.
  revert best. induction l as [|e l IH]; intros best; cbn [max_by_precedence].
  { destruct best as [b|]; [|done]. split_and!; [by left|set_solver|naive_solver]. }
  destruct best as [b|].
  - destruct (precedence_le _ _) eqn:E; [apply precedence_le_spec in E|apply not_true_iff_false in E; rewrite precedence_le_spec in E].
    + specialize (IH (Some e)). destruct (max_by_precedence (Some e) l) as [m|]; [|by destruct IH].
      destruct IH as (H1 & H2 & H3). specialize (H3 _ eq_refl). split_and!; [set_solver| |intros ? [= <-]; lia].
      intros e' [->|He']%elem_of_cons; auto.
    + specialize (IH (Some b)). destruct (max_by_precedence (Some b) l) as [m|]; [|by destruct IH].
      destruct IH as (H1 & H2 & H3). specialize (H3 _ eq_refl). split_and!; [set_solver| |intros ? [= <-]; lia].
      intros e' [->|He']%elem_of_cons; [lia|auto].
  - specialize (IH (Some e)). destruct (max_by_precedence (Some e) l) as [m|]; [|by destruct IH].
    destruct IH as (H1 & H2 & H3). specialize (H3 _ eq_refl). split_and!; [set_solver| |done].
    intros e' [->|He']%elem_of_cons; auto.
Qed.

Lemma filter_elem {A} (f : A -> bool) l x : x ∈ List.filter f l <-> x ∈ l /\ f x = true.
Proof. by rewrite !list_elem_of_In, List.filter_In. Qed.

Lemma prefix_same_length {A} (k l m : list A) : k `prefix_of` m -> l `prefix_of` m -> length k = length l -> k = l.
Proof.
  intros [k' ->] [l' E] Hl. by apply (app_inj_1 k l k' l' Hl) in E as [-> _].
Qed.

Lemma prefix_shorter {A} (k l m : list A) : k `prefix_of` m -> l `prefix_of` m -> length k <= length l -> k `prefix_of` l.
Proof.
  intros Hk Hl Hle. destruct (prefix_weak_total k l m Hk Hl) as [|Hlk]; [done|].
  pose proof (prefix_length _ _ Hlk). rewrite (prefix_same_length l k m Hl Hk); [done|lia].
Qed.

Lemma prefix_strict_length {A} (k l : list A) : k `prefix_of` l -> k <> l -> length k + 1 <= length l.
Proof.
  intros [m ->] Hne. rewrite length_app. destruct m; [by rewrite app_nil_r in Hne|]. cbn. lia.
Qed.

Lemma access_at_spec es target : access_spec es target (access_at es target).
Proof.
  unfold access_at. pose proof (max_by_precedence_spec None (List.filter (fun e => path_starts_with target (res_path e)) es)) as H.
  destruct (max_by_precedence _ _) as [m|]; cbn [option_map default].
  - right. destruct H as ([?|Hm] & Hmax & _); [done|]. apply filter_elem in Hm as (Hm & Hp%path_starts_with_prefix).
    exists (res_path m). split_and!; [done|by destruct m|]. intros e He Hpe.
    assert (Hle : precedence e <= precedence m) by (apply Hmax, filter_elem; by rewrite path_starts_with_prefix).
    unfold precedence in Hle. pose proof (access_rank_le (res_access e)). pose proof (access_rank_le (res_access m)).
    split; [apply (prefix_shorter _ _ target); auto; lia|]. intros E. rewrite E in Hle.
    unfold id. lia.
  - left. split; [done|]. destruct H as [_ Hnil]. intros e He Hp%path_starts_with_prefix.
    assert (He' : e ∈ List.filter (fun e => path_starts_with target (res_path e)) es) by by apply filter_elem.
    rewrite Hnil in He'. set_solver.
Qed.

Lemma access_spec_unique es es' target a b :
  (forall e, e ∈ es <-> e ∈ es') -> access_spec es target a -> access_spec es' target b -> a = b.
Proof.
  intros Hes [[-> Ha]|(q & Hq & Hqa & Ha)] [[-> Hb]|(r & Hr & Hrb & Hb)]; [done| | |].
  - apply Hes, Ha in Hrb. done.
  - apply Hes, Hb in Hqa. done.
  - pose proof Hqa as Hqa'. pose proof Hrb as Hrb'. apply Hes in Hqa'. apply Hes in Hrb'.
    destruct (Ha _ Hrb' Hr) as [H1 H1']. destruct (Hb _ Hqa' Hq) as [H2 H2']. cbn [res_path res_access] in *.
    assert (q = r) as <- by by apply (anti_symm prefix).
    specialize (H1' eq_refl). specialize (H2' eq_refl). apply access_rank_inj. lia.
Qed.

(** The entry that decides for a target also decides for its own path. *)
Lemma access_at_winner es q t :
  q `prefix_of` t -> (forall e, e ∈ es -> res_path e `prefix_of` t -> res_path e `prefix_of` q) ->
  access_at es q = access_at es t.
Proof.
  intros Hq Hmax. unfold access_at. f_equal. f_equal. f_equal. apply filter_ext_in. intros e He%list_elem_of_In.
  apply eq_true_iff_eq. rewrite !path_starts_with_prefix. split; [intros H; by etrans|by apply Hmax].
Qed.

(** With an entry for the path itself, the strongest of these decides. *)
Lemma access_at_own es q a :
  mkResolved q a ∈ es -> mkResolved q (access_at es q) ∈ es /\ access_rank a <= access_rank (access_at es q).
Proof.
  intros Ha. destruct (access_at_spec es q) as [[_ Hno]|(r & Hr & Hra & Hmax)]; [by destruct (Hno _ Ha)|].
  destruct (Hmax _ Ha) as [Hqr Hle]; [done|]. cbn [res_path res_access] in *.
  assert (r = q) as -> by by apply (anti_symm prefix). auto.
Qed.

Lemma head_omap {A B} (f : A -> option B) l y :
  head (omap f l) = Some y -> exists l1 x l2, l = l1 ++ x :: l2 /\ f x = Some y /\ Forall (fun z => f z = None) l1.
Proof.
  induction l as [|x l IH]; cbn; [done|]. destruct (f x) as [y'|] eqn:E; cbn.
  - intros [= <-]. by exists [], x, l.
  - intros (l1 & z & l2 & -> & Hz & Hl1)%IH. exists (x :: l1), z, l2. auto.
Qed.

Lemma head_omap_app {A B} (f : A -> option B) l1 x l2 y :
  Forall (fun z => f z = None) l1 -> f x = Some y -> head (omap f (l1 ++ x :: l2)) = Some y.
Proof. induction 1 as [|z l1 Hz Hl1 IH]; intros Hx; cbn; [by rewrite Hx|]. by rewrite Hz, IH. Qed.

Section facts.
Context `{Ho : Os} `{!OsLaws Ho}.

Lemma resolve_access_at p path cwd target :
  kind p = Restricted -> resolve_candidate_path path cwd = Some target ->
  resolve_access_with_cwd p path cwd = access_at (resolved_entries_with_cwd p cwd) target.
Proof. intros Hk Ht. unfold resolve_access_with_cwd. by rewrite Hk, Ht. Qed.

(** C4: Under a restricted policy access to a path is what the reference says: of the
    entries whose path is the target or above it, those with the longest path decide,
    and among these deny beats write and write beats read; a path without any entry
    is denied. *)
Theorem resolve_access_most_specific p path cwd target :
  kind p = Restricted -> resolve_candidate_path path cwd = Some target ->
  forall a, resolve_access_with_cwd p path cwd = a <-> access_spec (resolved_entries_with_cwd p cwd) target a.
Proof.
  intros Hk Ht a. rewrite (resolve_access_at _ _ _ _ Hk Ht). split; [intros <-; apply access_at_spec|].
  intros Ha. by eapply access_spec_unique, Ha; [|apply access_at_spec].
Qed.

Lemma resolved_entries_elem p cwd r :
  r ∈ resolved_entries_with_cwd p cwd <-> exists e, e ∈ entries p /\ resolve_entry (from_absolute_path cwd) e = Some r.
Proof. unfold resolved_entries_with_cwd. rewrite list_elem_of_omap. done. Qed.

Lemma resolve_access_order_lemma p p' path cwd :
  kind p = kind p' -> (forall e, e ∈ entries p <-> e ∈ entries p') ->
  resolve_access_with_cwd p path cwd = resolve_access_with_cwd p' path cwd.
Proof.
  intros Hk He. destruct (kind p) eqn:Ek; [|unfold resolve_access_with_cwd; by rewrite <- Hk, Ek..].
  destruct (resolve_candidate_path path cwd) as [target|] eqn:Et.
  - rewrite !(resolve_access_at _ path cwd target) by congruence.
    eapply access_spec_unique; [|apply access_at_spec..]. intros r. rewrite !resolved_entries_elem. by setoid_rewrite He.
  - unfold resolve_access_with_cwd. by rewrite <- Hk, Ek, Et.
Qed.

(** The order of the entries has no influence on the access that they grant. *)
Theorem resolve_access_order p p' path cwd :
  kind p = kind p' -> (forall e, e ∈ entries p <-> e ∈ entries p') ->
  resolve_access_with_cwd p path cwd = resolve_access_with_cwd p' path cwd.
Proof. apply resolve_access_order_lemma. Qed.

(** ** Resolved entries *)

(** The paths of the policy are normalised, as [AbsolutePathBuf] promises. *)
Definition well_formed (p : FileSystemSandboxPolicy) : Prop :=
  Forall (fun e => match entry_path e with Path q => normalized q | _ => True end) (entries p).

Lemma last_ancestors_fuel names fuel :
  length names <= fuel -> last (ancestors_fuel fuel (Shell.RootDir :: List.map Shell.Normal names)) = Some [Shell.RootDir].
Proof.
  revert fuel. induction names as [|name names IH] using rev_ind; intros fuel Hf; [by destruct fuel|].
  rewrite length_app, Nat.add_comm in Hf. destruct fuel as [|fuel]; [cbn in Hf; lia|].
  rewrite List.map_app, app_comm_cons. cbn [List.map ancestors_fuel].
  unfold parent at 1. rewrite last_snoc, List.removelast_last, last_cons, IH by (cbn in Hf; lia). done.
Qed.

Lemma last_ancestor_normalized q : normalized q -> last (ancestors q) = Some [Shell.RootDir].
Proof. intros [names ->]. apply last_ancestors_fuel. cbn. rewrite List.length_map. lia. Qed.

Lemma absolute_root_normalized q : normalized q -> absolute_root_path_for_cwd q = [Shell.RootDir].
Proof. intros Hq. unfold absolute_root_path_for_cwd. rewrite last_ancestor_normalized by done. cbn [mbind option_bind].
  by rewrite from_absolute_path_id by apply normalized_root. Qed.

Lemma slash_tmp_normalized : normalized SLASH_TMP.
Proof. by exists [lit "tmp"]. Qed.

Lemma resolve_special_normalized value cwd q :
  normalized cwd -> resolve_file_system_special_path value (Some cwd) = Some q -> normalized q.
Proof.
  intros Hcwd. destruct value as [| |[sub|]| | |]; cbn [resolve_file_system_special_path option_map]; try done.
  - intros [= <-]. by apply resolve_normalized, normalized_absolute.
  - by intros [= <-].
  - destruct tmpdir_var as [t|]; [|done]. destruct (is_empty t); [done|]. apply from_absolute_path_normalized.
  - destruct (is_dir SLASH_TMP); cbn; [|done]. intros [= <-]. apply slash_tmp_normalized.
Qed.

Context (cwd here : PathBuf) (Hcwd : from_absolute_path cwd = Some here).

Lemma root_normalized : normalized here.
Proof. by eapply from_absolute_path_normalized. Qed.

Lemma resolve_Root a : resolve_entry (Some here) (mkEntry (Special Root) a) = Some (mkResolved [Shell.RootDir] a).
Proof. unfold resolve_entry. cbn [resolve_entry_path entry_path option_map]. by rewrite absolute_root_normalized by apply root_normalized. Qed.

Lemma resolved_normalized p r : well_formed p -> r ∈ resolved_entries_with_cwd p cwd -> normalized (res_path r).
Proof.
  intros Hp (e & He & E)%resolved_entries_elem. rewrite Hcwd in E. unfold well_formed in Hp.
  rewrite Forall_forall in Hp. specialize (Hp _ He). destruct e as [[q|pat|value] a]; cbn [entry_path] in Hp.
  - by injection E as <-.
  - done.
  - destruct (decide (value = Root)) as [->|Hr].
    { rewrite resolve_Root in E. injection E as <-. apply normalized_root. }
    unfold resolve_entry in E. destruct (resolve_entry_path _ _) as [q|] eqn:Eq; [|done]. injection E as <-. cbn [res_path].
    assert (resolve_file_system_special_path value (Some here) = Some q) by (by destruct value).
    by eapply resolve_special_normalized; [apply root_normalized|].
Qed.

Lemma candidate_normalized t : normalized t -> resolve_candidate_path t cwd = Some t.
Proof. intros Ht. unfold resolve_candidate_path. by rewrite (normalized_absolute t Ht), from_absolute_path_id. Qed.

Lemma candidate_is_normalized path t : resolve_candidate_path path cwd = Some t -> normalized t.
Proof.
  unfold resolve_candidate_path. destruct (is_absolute path); [apply from_absolute_path_normalized|].
  rewrite Hcwd. intros [= <-]. apply abs_join_normalized, root_normalized.
Qed.

Lemma root_prefix t : normalized t -> [Shell.RootDir] `prefix_of` t.
Proof. intros [names ->]. by exists (List.map Shell.Normal names). Qed.

(** ** Full-disk access *)

Lemma has_root_access_entry p f :
  has_root_access p f = true -> exists a, f a = true /\ mkResolved [Shell.RootDir] a ∈ resolved_entries_with_cwd p cwd.
Proof.
  unfold has_root_access. intros (_ & (e & He & E)%existsb_exists)%andb_true_iff.
  destruct e as [[q|pat|[]] a]; try done. cbn [entry_path entry_access] in E. exists a. split; [done|].
  apply resolved_entries_elem. exists (mkEntry (Special Root) a). rewrite list_elem_of_In, Hcwd. split; [done|apply resolve_Root].
Qed.

(** Two entries with one target resolve to the same path. *)
Lemma share_target_resolve l r q a b :
  is_dir SLASH_TMP = true -> match l with Path lp => normalized lp | _ => True end -> normalized q ->
  file_system_paths_share_target l r = true ->
  resolve_entry (Some here) (mkEntry r a) = Some (mkResolved q a) ->
  resolve_entry (Some here) (mkEntry l b) = Some (mkResolved q b).
Proof.
  intros Htmp Hl Hq Hs. unfold resolve_entry. cbn [entry_path entry_access].
  destruct (resolve_entry_path r (Some here)) as [q'|] eqn:E; [|done]. intros [= ->].
  assert (Hspec : forall v path, special_path_matches_absolute_path v path = true -> normalized path ->
    resolve_entry_path (Special v) (Some here) = Some path).
  { intros v path Hv Hpath. destruct v; try done; cbn [special_path_matches_absolute_path] in Hv.
    - destruct Hpath as [names ->]. destruct names as [|n names _] using rev_ind.
      + cbn. by rewrite absolute_root_normalized by apply root_normalized.
      + rewrite List.map_app, app_comm_cons in Hv.
        unfold parent in Hv. cbn [List.map] in Hv. by rewrite last_snoc in Hv.
    - apply bool_decide_eq_true in Hv as ->. cbn. by rewrite Htmp. }
  enough (resolve_entry_path l (Some here) = Some q) as -> by done.
  destruct l as [lp|lg|lv], r as [rp|rg|rv]; try done; cbn [file_system_paths_share_target] in Hs.
  - apply bool_decide_eq_true in Hs as ->. done.
  - rewrite (Hspec rv lp Hs Hl) in E. by injection E as ->.
  - cbn in E. injection E as ->. by apply Hspec.
  - rewrite <- E. destruct lv, rv; try done; cbn [special_paths_share_target] in Hs.
    + by apply bool_decide_eq_true in Hs as ->.
Qed.

Lemma resolved_entry_of p q a :
  mkResolved q a ∈ resolved_entries_with_cwd p cwd ->
  exists path, mkEntry path a ∈ entries p /\ resolve_entry (Some here) (mkEntry path a) = Some (mkResolved q a).
Proof.
  intros ([path b] & He & E)%resolved_entries_elem. rewrite Hcwd in E.
  assert (b = a) as ->; [|by exists path].
  unfold resolve_entry in E. cbn in E. destruct (resolve_entry_path path (Some here)); [|done]. by injection E.
Qed.

(** An entry that does not narrow is beaten by a write entry for the same path. *)
Lemma not_narrowing p path q a :
  well_formed p -> is_dir SLASH_TMP = true -> has_root_access p can_write = true ->
  mkEntry path a ∈ entries p -> narrows_write p (mkEntry path a) = false -> normalized q ->
  resolve_entry (Some here) (mkEntry path a) = Some (mkResolved q a) ->
  a = Write \/ a = Read /\ mkResolved q Write ∈ resolved_entries_with_cwd p cwd.
Proof.
  intros Hp Htmp Hroot He Hn Hq E.
  assert (Hov : has_same_target_write_override p (mkEntry path a) = true -> a = Write \/
    a = Read /\ mkResolved q Write ∈ resolved_entries_with_cwd p cwd).
  { intros ([cp ca] & Hc & ((Hw & Hrank)%andb_true_iff & Hs)%andb_true_iff)%existsb_exists.
    cbn [entry_access entry_path] in *. destruct ca; try done. apply Nat.ltb_lt in Hrank.
    right. split; [destruct a; simpl in Hrank; (done || lia)|]. apply list_elem_of_In in Hc.
    apply resolved_entries_elem. exists (mkEntry cp Write). rewrite Hcwd. split; [done|].
    eapply share_target_resolve; eauto. unfold well_formed in Hp. rewrite Forall_forall in Hp. apply (Hp _ Hc). }
  unfold narrows_write in Hn. cbn [entry_access entry_path] in Hn. destruct (can_write a) eqn:Ea; [left; by destruct a|].
  destruct path as [path|pat|[]]; try done; try (by apply negb_false_iff in Hn; auto).
  right. unfold is_deny in Hn. cbn in Hn. apply bool_decide_eq_false in Hn. split; [by destruct a|].
  rewrite resolve_Root in E. injection E as <-. destruct (has_root_access_entry p _ Hroot) as ([] & Hb & Hin); done.
Qed.

Lemma access_at_all_write p t :
  well_formed p -> is_dir SLASH_TMP = true -> kind p = Restricted -> has_full_disk_write_access p = true -> normalized t ->
  access_at (resolved_entries_with_cwd p cwd) t = Write.
Proof.
  intros Hp Htmp Hk Hf Ht. unfold has_full_disk_write_access in Hf. rewrite Hk in Hf.
  apply andb_true_iff in Hf as [Hroot Hn%negb_true_iff]. destruct (has_root_access_entry p _ Hroot) as (ra & Hra & Hin).
  destruct (access_at_spec (resolved_entries_with_cwd p cwd) t) as [[_ Hno]|(q & Hq & Hqa & Hmax)].
  { by destruct (Hno _ Hin); apply root_prefix. }
  set (a := access_at _ t) in *. destruct (resolved_entry_of p q a Hqa) as (path & He & E).
  assert (Hnq : normalized q) by apply (resolved_normalized p (mkResolved q a) Hp Hqa).
  destruct (not_narrowing p path q a) as [|[Ea Hw]]; auto.
  - unfold has_write_narrowing_entries, is_restricted in Hn. rewrite Hk in Hn. cbn in Hn.
    apply not_true_is_false. intros Hx. apply not_true_iff_false in Hn. apply Hn, existsb_exists.
    exists (mkEntry path a). by rewrite <- list_elem_of_In.
  - destruct (Hmax _ Hw Hq) as [_ Hr]. specialize (Hr eq_refl). cbn [res_access] in Hr.
    rewrite Ea in Hr. cbn in Hr. lia.
Qed.

Lemma access_at_all_read p t :
  kind p = Restricted -> has_full_disk_read_access p = true -> normalized t ->
  can_read (access_at (resolved_entries_with_cwd p cwd) t) = true.
Proof.
  intros Hk Hf Ht. unfold has_full_disk_read_access in Hf. rewrite Hk in Hf.
  apply andb_true_iff in Hf as [Hroot Hd%negb_true_iff]. destruct (has_root_access_entry p _ Hroot) as (ra & Hra & Hin).
  destruct (access_at_spec (resolved_entries_with_cwd p cwd) t) as [[_ Hno]|(q & Hq & Hqa & _)].
  { by destruct (Hno _ Hin); apply root_prefix. }
  destruct (resolved_entry_of p q _ Hqa) as (path & He & _). destruct (access_at _ t); try done.
  unfold has_denied_read_restrictions, is_restricted in Hd. rewrite Hk in Hd. cbn in Hd.
  apply not_true_iff_false in Hd. destruct Hd. apply existsb_exists. exists (mkEntry path Deny). by rewrite <- list_elem_of_In.
Qed.

(** A policy that reports full-disk access grants it: with full write access every
    path can be written (where [/tmp] is a directory), with full read access every
    path can be read. *)
Theorem full_disk_access_sound p path :
  well_formed p -> is_dir SLASH_TMP = true ->
  (has_full_disk_write_access p = true -> can_write_path_with_cwd p path cwd = true) /\
  (has_full_disk_read_access p = true -> can_read_path_with_cwd p path cwd = true).
Proof.
  intros Hp Htmp. unfold can_write_path_with_cwd, can_read_path_with_cwd.
  assert (exists t, resolve_candidate_path path cwd = Some t) as [t Ht].
  { unfold resolve_candidate_path. rewrite Hcwd. destruct (is_absolute path) eqn:E; [|by eexists].
    rewrite from_absolute_path_absolute by done. by eexists. }
  pose proof (candidate_is_normalized _ _ Ht) as Hn. destruct (kind p) eqn:Hk.
  - rewrite (resolve_access_at p path cwd t Hk Ht). split; intros Hf.
    + by rewrite access_at_all_write, Hf.
    + by apply access_at_all_read.
  - unfold resolve_access_with_cwd. rewrite Hk. cbn. by split; [intros ->|].
  - unfold resolve_access_with_cwd. rewrite Hk. cbn. by split; [intros ->|].
Qed.

(** ** Metadata protection *)

Lemma metadata_path_name_Some n m : metadata_path_name n = Some m <-> n = m /\ m ∈ PROTECTED_METADATA_PATH_NAMES.
Proof.
  unfold metadata_path_name, PROTECTED_METADATA_PATH_NAMES. cbn [find_first].
  repeat case_bool_decide; subst; cbn; set_solver.
Qed.

Lemma protected_name_not_home n : n ∈ PROTECTED_METADATA_PATH_NAMES -> n <> lit "~".
Proof. unfold PROTECTED_METADATA_PATH_NAMES. rewrite !elem_of_cons. intros [->|[->|[->|[]%not_elem_of_nil]]]; discriminate. Qed.

Lemma metadata_child_Some t w m n :
  normalized t -> normalized (res_path w) ->
  metadata_child t w = Some (m, n) <->
    n ∈ PROTECTED_METADATA_PATH_NAMES /\ m = res_path w ++ [Shell.Normal n] /\ m `prefix_of` t.
Proof.
  intros Ht Hw. unfold metadata_child. split.
  - destruct (path_strip_prefix t (res_path w)) as [[|c rest]|] eqn:E; try done. apply path_strip_prefix_Some in E.
    destruct (metadata_path_name (component_str c)) as [n'|] eqn:En; [|done].
    apply metadata_path_name_Some in En as [En Hn]. intros [= <- ->].
    rewrite abs_join_name by auto using protected_name_not_home. split_and!; [done|done|].
    assert (c = Shell.Normal n) as ->; [|exists rest; by rewrite E, <- app_assoc].
    rewrite E, app_cons_shift in Ht. apply normalized_prefix with (q := res_path w ++ [c]) in Ht; [|by exists rest|by destruct (res_path w)].
    apply normalized_snoc_inv in Ht as [_ [name ->]]; [by cbn in En; subst|]. by destruct (res_path w), Hw.
  - intros (Hn & -> & [rest ->]). rewrite <- app_assoc. cbn [app].
    rewrite (proj2 (path_strip_prefix_Some _ _ _) eq_refl). cbn [component_str].
    rewrite (proj2 (metadata_path_name_Some n n)) by done. cbn [option_map].
    by rewrite abs_join_name by auto using protected_name_not_home.
Qed.

(** A denied write is in the metadata directory [m] of a writable root, which no write
    entry reaches into, and writing [m] itself is denied as well. *)
Lemma metadata_denied p t :
  well_formed p -> kind p = Restricted -> normalized t -> is_metadata_write_denied p t cwd = true ->
  exists w n, let m := w ++ [Shell.Normal n] in
    mkResolved w Write ∈ resolved_entries_with_cwd p cwd /\ n ∈ PROTECTED_METADATA_PATH_NAMES /\ m `prefix_of` t /\
    (forall q, mkResolved q Write ∈ resolved_entries_with_cwd p cwd -> q `prefix_of` t -> ~ m `prefix_of` q) /\
    is_metadata_write_denied p m cwd = true.
Proof.
  intros Hp Hk Ht. unfold is_metadata_write_denied, is_restricted. rewrite Hk, candidate_normalized by done. cbn [negb].
  rewrite (bool_decide_eq_true_2 (Restricted = Restricted)) by done. cbn [negb].
  set (es := resolved_entries_with_cwd p cwd).
  destruct (metadata_child_of_writable_root p t cwd) as [[m n]|] eqn:E; [|done]. intros Hex%negb_true_iff.
  unfold metadata_child_of_writable_root in E. fold es in E.
  apply head_omap in E as (l1 & [w a] & l2 & El & Ec & Hl1).
  assert (Hin : forall x, x ∈ l1 ++ mkResolved w a :: l2 -> x ∈ es /\ can_write (res_access x) = true) by (intros x; by rewrite <- El, filter_elem).
  destruct (Hin (mkResolved w a)) as [Hw Ha]; [set_solver|]. cbn in Ha. destruct a; try done.
  apply metadata_child_Some in Ec as (Hn & -> & Hm); [|done|by eapply resolved_normalized]. cbn [res_path] in *.
  assert (Hwn : normalized w) by apply (resolved_normalized p _ Hp Hw).
  assert (Hno : forall q, mkResolved q Write ∈ es -> q `prefix_of` t -> ~ (w ++ [Shell.Normal n]) `prefix_of` q).
  { intros q Hq Hqt Hmq. apply not_true_iff_false in Hex. apply Hex, existsb_exists. exists (mkResolved q Write).
    rewrite <- list_elem_of_In. split; [done|]. cbn. by rewrite !(proj2 (path_starts_with_prefix _ _)). }
  exists w, n. split_and!; try done.
  rewrite candidate_normalized by by apply normalized_snoc.
  assert (metadata_child_of_writable_root p (w ++ [Shell.Normal n]) cwd = Some (w ++ [Shell.Normal n], n)) as ->.
  { unfold metadata_child_of_writable_root. fold es. rewrite El. apply head_omap_app.
    - apply Forall_forall. intros x Hx. rewrite Forall_forall in Hl1. specialize (Hl1 x Hx).
      destruct (metadata_child (w ++ [Shell.Normal n]) x) as [[m' n']|] eqn:Ex; [|done].
      assert (normalized (res_path x)) by (eapply resolved_normalized, Hin; [done|set_solver]).
      apply metadata_child_Some in Ex as (Hn' & -> & Hpre); [|by apply normalized_snoc|done].
      assert (metadata_child t x = Some (res_path x ++ [Shell.Normal n'], n')) as Hx'; [|congruence].
      apply metadata_child_Some; auto. split_and!; auto. by etrans.
    - apply metadata_child_Some; [by apply normalized_snoc|done|]. auto. }
  apply negb_true_iff, not_true_is_false. intros ([q b] & Hq & ((Hb & H1)%andb_true_iff & H2)%andb_true_iff)%existsb_exists.
  cbn in *. destruct b; try done. apply list_elem_of_In in Hq. apply path_starts_with_prefix in H1, H2. eapply Hno; [exact Hq|by etrans|done].
Qed.

(** Writing below a write entry of its own is never denied at the entry itself. *)
Lemma metadata_not_denied_at_entry p q :
  well_formed p -> kind p = Restricted -> mkResolved q Write ∈ resolved_entries_with_cwd p cwd ->
  is_metadata_write_denied p q cwd = false.
Proof.
  intros Hp Hk Hq. apply not_true_is_false. intros H. apply metadata_denied in H as (w & n & _ & _ & Hm & Hno & _); auto.
  - by apply (Hno q).
  - apply (resolved_normalized p _ Hp Hq).
Qed.

(** ** The roots that sandboxes enforce *)

Lemma dedup_paths_elem f seen acc l x :
  (forall y, y ∈ seen -> y ∈ acc) -> x ∈ dedup_paths f seen acc l <-> x ∈ acc \/ exists y, y ∈ l /\ x = f y.
Proof.
  revert seen acc. induction l as [|y l IH]; intros seen acc Hs; cbn [dedup_paths]; [set_solver|].
  destruct (existsb _ seen) eqn:E.
  - rewrite IH by done. apply existsb_exists in E as (z & Hz & Ez). apply bool_decide_eq_true in Ez as ->.
    apply list_elem_of_In, Hs in Hz. set_solver.
  - rewrite IH by set_solver. set_solver.
Qed.

Lemma dedup_absolute_paths_elem l b x :
  x ∈ dedup_absolute_paths l b <-> exists y, y ∈ l /\ x = (if b then normalize_effective_absolute_path y else y).
Proof. unfold dedup_absolute_paths. rewrite dedup_paths_elem by done. set_solver. Qed.

Lemma can_write_at p t :
  kind p = Restricted -> has_full_disk_write_access p = false -> normalized t ->
  can_write_path_with_cwd p t cwd = true <->
    access_at (resolved_entries_with_cwd p cwd) t = Write /\ is_metadata_write_denied p t cwd = false.
Proof.
  intros Hk Hf Ht. unfold can_write_path_with_cwd. rewrite (resolve_access_at p t cwd t), Hf by auto using candidate_normalized.
  destruct (access_at _ _) eqn:E; cbn; rewrite ?negb_true_iff; naive_solver.
Qed.

Lemma writable_entries_elem p q :
  q ∈ writable_entries_with_cwd p cwd <->
    mkResolved q Write ∈ resolved_entries_with_cwd p cwd /\ can_write_path_with_cwd p q cwd = true.
Proof.
  unfold writable_entries_with_cwd. rewrite list_elem_of_In, List.in_map_iff. setoid_rewrite <- list_elem_of_In. split.
  - intros ([q' a] & <- & ((Hin & Ha)%filter_elem & Hw)%filter_elem). cbn in *. by destruct a.
  - intros [Hin Hw]. exists (mkResolved q Write). by rewrite !filter_elem.
Qed.

Section no_symlinks.
Context (p : FileSystemSandboxPolicy) (Hp : well_formed p) (Hk : kind p = Restricted).
Context (Hfull : has_full_disk_write_access p = false).
Notation es := (resolved_entries_with_cwd p cwd).
Context (Heff : forall e, e ∈ es -> normalize_effective_absolute_path (res_path e) = res_path e).

Notation view q := (writable_root_of p cwd es (writable_entries_with_cwd p cwd) q).

Lemma writable_root_elem r :
  r ∈ get_writable_roots_with_cwd p cwd <-> exists q, q ∈ writable_entries_with_cwd p cwd /\ r = view q.
Proof.
  unfold get_writable_roots_with_cwd. rewrite Hfull, list_elem_of_In, List.in_map_iff. setoid_rewrite <- list_elem_of_In.
  setoid_rewrite dedup_absolute_paths_elem. split.
  - intros (q & <- & y & Hy & ->). exists y. split; [done|]. f_equal.
    apply writable_entries_elem in Hy as [Hy _]. apply (Heff _ Hy).
  - intros (q & Hq & ->). exists q. split; [done|]. exists q. split; [done|].
    apply writable_entries_elem in Hq as [Hq _]. symmetry. apply (Heff _ Hq).
Qed.

(** An entry below a root that cannot be written is among its read-only subpaths. *)
Lemma carved_out q e :
  e ∈ es -> can_write (res_access e) = false -> can_write_path_with_cwd p (res_path e) cwd = false ->
  q `prefix_of` res_path e -> res_path e <> q -> res_path e ∈ read_only_subpaths (view q).
Proof.
  intros He Ha Hw Hq Hne. cbn [read_only_subpaths writable_root_of]. rewrite dedup_absolute_paths_elem. exists (res_path e).
  split; [|done]. apply elem_of_app. right. apply list_elem_of_omap. exists e. rewrite !filter_elem, Ha, Hw. split; [done|].
  unfold carveout, raw_carveout. rewrite (Heff e He). apply path_starts_with_prefix in Hq. rewrite Hq.
  rewrite (bool_decide_eq_false_2 (res_path e = q)) by done. cbn [negb orb].
  by destruct (is_some (parent q)).
Qed.

(** A write entry below a root, without a read-only subpath around it, is a root. *)
Lemma inner_write_entry q w :
  mkResolved w Write ∈ es -> q `prefix_of` w -> w <> q -> w ∉ read_only_subpaths (view q) ->
  w ∈ writable_entries_with_cwd p cwd.
Proof.
  intros Hw Hqw Hne Hro. apply writable_entries_elem. split; [done|].
  assert (Hn : normalized w) by apply (resolved_normalized p _ Hp Hw).
  apply can_write_at; auto. split; [|by apply metadata_not_denied_at_entry].
  destruct (access_at_own es w Write Hw) as [Hin Hle]. destruct (access_at es w) eqn:E; [cbn in Hle; lia|done|].
  destruct Hro. apply (carved_out q (mkResolved w Deny)); try done.
  apply not_true_is_false. rewrite can_write_at by done. intros [Hx _]. cbn [res_path] in Hx. congruence.
Qed.

(** Below a writable root and outside of its read-only subpaths access is write. *)
Lemma access_write_below q t :
  mkResolved q Write ∈ es -> access_at es q = Write -> q `prefix_of` t ->
  (forall s, s ∈ read_only_subpaths (view q) -> ~ s `prefix_of` t) -> access_at es t = Write.
Proof.
  intros Hqe Hqa Hqt Hsub.
  destruct (access_at_spec es t) as [[_ Hno]|(r & Hr & Hra & Hmax)]; [by destruct (Hno _ Hqe)|].
  destruct (Hmax _ Hqe Hqt) as [Hqr Hle]. cbn [res_path res_access] in *.
  assert (Hrt : access_at es r = access_at es t) by (apply access_at_winner; [done|intros; by apply Hmax]).
  destruct (decide (r = q)) as [->|Hne]; [congruence|]. destruct (access_at es t) eqn:E; [|done|].
  all: destruct (Hsub r); [|done]; apply (carved_out q (mkResolved r (access_at es t))); rewrite ?E; try done;
    apply not_true_is_false; rewrite can_write_at by (auto; apply (resolved_normalized p _ Hp Hra));
    intros [Hx _]; cbn [res_path] in Hx; congruence.
Qed.

Lemma protected_name q w n t :
  q ∈ writable_entries_with_cwd p cwd -> w = q -> n ∈ PROTECTED_METADATA_PATH_NAMES ->
  is_metadata_write_denied p (w ++ [Shell.Normal n]) cwd = true -> (w ++ [Shell.Normal n]) `prefix_of` t ->
  path_contains_protected_metadata_name (view q) t = true.
Proof.
  intros Hq -> Hn Hden [rest ->]. unfold path_contains_protected_metadata_name. cbn [root writable_root_of].
  rewrite <- app_assoc. cbn [app]. rewrite (proj2 (path_strip_prefix_Some _ _ _) eq_refl). apply existsb_exists.
  exists n. split; [|by apply bool_decide_eq_true]. rewrite <- list_elem_of_In. cbn [protected_metadata_names].
  unfold protected_metadata_names_for_writable_root. apply filter_elem. split; [done|].
  assert (Hqn : normalized q) by (apply writable_entries_elem in Hq as [Hq _]; apply (resolved_normalized p _ Hp Hq)).
  assert (Hcw : can_write_path_with_cwd p (abs_join q [Shell.Normal n]) cwd = false).
  { rewrite abs_join_name by auto using protected_name_not_home. apply not_true_is_false.
    rewrite can_write_at by auto using normalized_snoc. intros [_ ?]. congruence. }
  cbn [forallb]. rewrite Hcw. cbn. apply forallb_forall. intros x (raw & <- & Hraw)%List.in_map_iff.
  rewrite <- list_elem_of_In, filter_elem in Hraw. destruct Hraw as [Hraw Er%bool_decide_eq_true].
  apply writable_entries_elem in Hraw as [Hraw _]. pose proof (Heff _ Hraw) as Hr. cbn in Hr. rewrite Hr in Er. subst raw. by rewrite Hcw.
Qed.

(** C6: The writable roots computed for sandboxes refine the policy: where no resolved
    entry is reached through a symlink, a path that the most specific writable root
    around it allows (below the root, not below a read-only subpath, not in protected
    metadata) is one the policy lets the agent write. *)
Theorem writable_roots_sound r t :
  r ∈ get_writable_roots_with_cwd p cwd -> normalized t -> is_path_writable r t = true ->
  (forall r', r' ∈ get_writable_roots_with_cwd p cwd -> root r' `prefix_of` t -> root r' `prefix_of` root r) ->
  can_write_path_with_cwd p t cwd = true.
Proof.
  intros (q & Hq & ->)%writable_root_elem Ht Hwr Hspec. unfold is_path_writable in Hwr. cbn [root] in Hwr, Hspec.
  destruct (path_starts_with t _) eqn:Hqt; [|done]. apply path_starts_with_prefix in Hqt. cbn [root writable_root_of] in Hqt. cbn [negb] in Hwr.
  destruct (existsb _ _) eqn:Hro; [done|]. apply negb_true_iff in Hwr.
  assert (Hsub : forall s, s ∈ read_only_subpaths (view q) -> ~ s `prefix_of` t).
  { intros s Hs Hst. apply not_true_iff_false in Hro. apply Hro, existsb_exists. exists s.
    rewrite <- list_elem_of_In. by rewrite path_starts_with_prefix. }
  pose proof Hq as Hq'. apply writable_entries_elem in Hq' as [Hqe Hqw].
  assert (Hqn : normalized q) by apply (resolved_normalized p _ Hp Hqe).
  apply can_write_at in Hqw as [Hqa _]; auto. apply can_write_at; auto. split.
  - by eapply access_write_below.
  - apply not_true_is_false. intros (w & n & Hw & Hn & Hm & Hno & Hmd)%metadata_denied; auto.
    assert (Hwt : w `prefix_of` t) by (etrans; [|exact Hm]; by apply prefix_app_r).
    destruct (decide (w = q)) as [->|Hne]; [by rewrite (protected_name q q n t) in Hwr|].
    destruct (prefix_weak_total q w t Hqt Hwt) as [Hqw|Hwq].
    + apply Hne, (anti_symm prefix); [|done]. apply (Hspec (view w)); [|done]. apply writable_root_elem.
      exists w. split; [|done]. apply (inner_write_entry q); auto. intros Hs. by apply (Hsub w).
    + apply (Hno q); auto. apply (prefix_shorter _ _ t); auto. rewrite length_app. cbn.
      apply prefix_strict_length; auto.
Qed.

End no_symlinks.

(** ** Deny-read rules *)

Section matcher.
Context (build_glob_matcher : str -> result (PathBuf -> bool) str).
Notation build_matchers := (build_matchers build_glob_matcher).
Notation matcher_new := (matcher_new build_glob_matcher).
Notation matcher_try_new := (matcher_try_new build_glob_matcher).

Lemma build_matchers_FailClosed patterns ms invalid :
  exists ms' invalid', build_matchers FailClosed patterns ms invalid = Ok (ms', invalid') /\
    (invalid' = true <-> invalid = true \/ exists pat err, pat ∈ patterns /\ build_glob_matcher pat = Err err).
Proof using Type.
  revert ms invalid. induction patterns as [|pat patterns IH]; intros ms invalid; cbn [Permissions.build_matchers].
  { exists ms, invalid. split; [done|]. split; [by left|]. by intros [|(? & ? & []%not_elem_of_nil & _)]. }
  destruct (build_glob_matcher pat) as [m|err] eqn:E.
  - destruct (IH (ms ++ [m]) invalid) as (ms' & i & -> & Hi). exists ms', i. split; [done|]. rewrite Hi. split.
    + intros [?|(x & err & Hx & Ex)]; [by left|right; exists x, err; split; [by right|done]].
    + intros [?|(x & err & [->|Hx]%elem_of_cons & Ex)]; [by left|congruence|right; eauto].
  - destruct (IH ms true) as (ms' & i & -> & Hi). exists ms', i. split; [done|]. rewrite Hi.
    split; [intros _; right; exists pat, err; split; [by left|done]|by left].
Qed.

Lemma build_matchers_ReturnError patterns ms invalid pat err :
  pat ∈ patterns -> build_glob_matcher pat = Err err -> exists e, build_matchers ReturnError patterns ms invalid = Err e.
Proof using Type.
  revert ms. induction patterns as [|x patterns IH]; intros ms; [by intros ?%not_elem_of_nil|]. cbn [Permissions.build_matchers].
  intros Hin E. destruct (build_glob_matcher x) eqn:Ex; [|by eexists]. apply elem_of_cons in Hin as [->|Hin]; [congruence|auto].
Qed.

Lemma candidates_self t : normalized t -> t ∈ normalized_and_canonical_candidates t.
Proof.
  intros Ht. unfold normalized_and_canonical_candidates. rewrite from_absolute_path_id by done.
  assert (Hpush : forall l x y, y ∈ l -> y ∈ push_unique l x).
  { intros l x y Hy. unfold push_unique. destruct (existsb _ _); set_solver. }
  destruct (_ ≫= _); [apply Hpush|]; cbn; set_solver.
Qed.

Lemma unreadable_root p q :
  well_formed p -> kind p = Restricted -> mkResolved q Deny ∈ resolved_entries_with_cwd p cwd -> q <> [Shell.RootDir] ->
  normalize_effective_absolute_path q = q -> q ∈ get_unreadable_roots_with_cwd p cwd.
Proof.
  intros Hp Hk Hq Hr He. unfold get_unreadable_roots_with_cwd, is_restricted. rewrite Hk, Hcwd. cbn [option_map].
  rewrite (bool_decide_eq_true_2 (Restricted = Restricted)) by done. cbn [negb].
  rewrite absolute_root_normalized by apply root_normalized. apply dedup_absolute_paths_elem. exists q. split; [|done].
  rewrite list_elem_of_In, List.in_map_iff. exists (mkResolved q Deny). split; [done|]. rewrite <- list_elem_of_In, !filter_elem.
  split_and!; try done.
  - unfold can_read_path_with_cwd. cbn [res_path].
    rewrite (resolve_access_at p q cwd q) by (auto; apply candidate_normalized, (resolved_normalized p _ Hp Hq)).
    destruct (access_at_own _ _ _ Hq) as [_ Hle]. destruct (access_at _ q); cbn in Hle; try lia. done.
  - cbn [res_path]. apply negb_true_iff, bool_decide_eq_false. congruence.
Qed.

Lemma has_denied p q : kind p = Restricted -> mkResolved q Deny ∈ resolved_entries_with_cwd p cwd -> has_denied_read_restrictions p = true.
Proof.
  intros Hk (path & He & _)%resolved_entry_of. unfold has_denied_read_restrictions, is_restricted. rewrite Hk. cbn.
  apply existsb_exists. exists (mkEntry path Deny). by rewrite <- list_elem_of_In.
Qed.

(** C33: The deny-read matcher enforces the policy: where the deny entries are not reached
    through symlinks, a path that the policy denies because of an entry other than the
    root is denied by the matcher, which exists. *)
Theorem read_deny_enforced p t e :
  well_formed p -> kind p = Restricted -> normalized t ->
  (forall r, r ∈ resolved_entries_with_cwd p cwd -> normalize_effective_absolute_path (res_path r) = res_path r) ->
  resolve_access_with_cwd p t cwd = Deny -> e ∈ resolved_entries_with_cwd p cwd -> res_access e = Deny ->
  res_path e <> [Shell.RootDir] -> res_path e `prefix_of` t ->
  exists m, matcher_new p cwd = Some (Some m) /\ is_read_denied m t = true.
Proof.
  intros Hp Hk Ht Heff Hd He Ha Hne Het. rewrite (resolve_access_at p t cwd t) in Hd by auto using candidate_normalized.
  destruct (access_at_spec (resolved_entries_with_cwd p cwd) t) as [[_ Hno]|(q & Hq & Hqa & Hmax)]; [by destruct (Hno _ He)|].
  rewrite Hd in Hqa. destruct (Hmax _ He Het) as [Heq _].
  assert (Hqr : q <> [Shell.RootDir]).
  { intros ->. destruct (resolved_normalized p _ Hp He) as [[|n names] E]; [by cbn in E|].
    apply prefix_length in Heq. rewrite E in Heq. cbn in Heq. lia. }
  unfold Permissions.matcher_new, build_matcher. rewrite (has_denied p q) by done. cbn [negb].
  destruct (build_matchers_FailClosed (get_unreadable_globs_with_cwd p cwd) [] false) as (ms & invalid & -> & _).
  eexists. split; [reflexivity|]. unfold is_read_denied. cbn [invalid_pattern denied_candidates fst snd].
  destruct invalid; [done|]. assert (existsb _ _ = true) as ->; [|done].
  apply existsb_exists. exists (normalized_and_canonical_candidates q). split.
  - apply List.in_map_iff. exists q. rewrite <- list_elem_of_In. split; [done|]. apply unreadable_root; auto. apply (Heff _ Hqa).
  - apply existsb_exists. exists t. rewrite <- list_elem_of_In. split; [by apply candidates_self|].
    apply existsb_exists. exists q. rewrite <- list_elem_of_In.
    split; [apply candidates_self, (resolved_normalized p _ Hp Hqa)|]. rewrite (proj2 (path_starts_with_prefix t q)) by done.
    by rewrite orb_true_r.
Qed.

(** A malformed deny-read pattern never widens access: the matcher for direct reads
    then denies every path, and the matcher for callers that must not guess is an
    error; without such a pattern both matchers are the same. *)
Theorem deny_read_fails_closed p :
  (forall pat err t, pat ∈ get_unreadable_globs_with_cwd p cwd -> build_glob_matcher pat = Err err ->
    (exists m, matcher_new p cwd = Some (Some m) /\ is_read_denied m t = true) /\
    exists e, matcher_try_new p cwd = Err e) /\
  ((forall pat, pat ∈ get_unreadable_globs_with_cwd p cwd -> exists m, build_glob_matcher pat = Ok m) ->
    option_map Ok (matcher_new p cwd) = Some (matcher_try_new p cwd)).
Proof using Type.
  unfold Permissions.matcher_new, Permissions.matcher_try_new, build_matcher. split.
  - intros pat err t Hin E. destruct (has_denied_read_restrictions p) eqn:Hd.
    + cbn [negb]. destruct (build_matchers_FailClosed (get_unreadable_globs_with_cwd p cwd) [] false) as (ms & inv & -> & Hi).
      split; [|destruct (build_matchers_ReturnError _ [] false pat err Hin E) as [e ->]; by exists e].
      eexists. split; [reflexivity|]. unfold is_read_denied. cbn. destruct inv; [done|]. exfalso.
      enough (false = true) by done. apply Hi. eauto.
    + exfalso. revert Hin. unfold get_unreadable_globs_with_cwd, has_denied_read_restrictions in *.
      destruct (is_restricted p); cbn [andb negb] in *; [|by intros ?%not_elem_of_nil].
      assert (List.filter is_deny (entries p) = []) as ->; [|by intros ?%not_elem_of_nil].
      destruct (List.filter is_deny (entries p)) as [|x l] eqn:Ef; [done|].
      assert (Hx : x ∈ List.filter is_deny (entries p)) by (rewrite Ef; left). apply filter_elem in Hx as [Hx Hxd].
      apply not_true_iff_false in Hd. destruct Hd. apply existsb_exists. exists x. by rewrite <- list_elem_of_In.
  - intros Hall. destruct (has_denied_read_restrictions p); [|done]. cbn [negb].
    assert (Hsame : forall pats ms i, (forall pat, pat ∈ pats -> exists m, build_glob_matcher pat = Ok m) ->
      exists r, build_matchers FailClosed pats ms i = Ok r /\ build_matchers ReturnError pats ms i = Ok r).
    { induction pats as [|pat pats IH]; intros ms i Hp'; cbn [Permissions.build_matchers]; [by eexists|].
      destruct (Hp' pat) as [m ->]; [by left|]. apply IH. intros x Hx. apply Hp'. by right. }
    destruct (Hsame (get_unreadable_globs_with_cwd p cwd) [] false Hall) as (r & -> & ->). done.
Qed.

End matcher.

End facts.
End PermissionsFacts.
