(* ===== verification/PermissionsChange.v ===== *)
(** Theorems on changing and converting permissions: deny rules survive a replaced
    policy, added roots become writable, materialised project roots keep their
    authority, legacy policies survive the round trip; and two places where the code
    differs from what it promises. *)

From stdpp Require Import base list option numbers strings sets.
From S2P Require Import Prelude RustStr ShellTree AbsolutePath Permissions PermissionsFacts.

Module PermissionsChange.
Import AbsolutePath Permissions PermissionsFacts.

Lemma push_missing_elem es new x : x ∈ push_missing es new <-> x ∈ es \/ x ∈ new.
Proof.
  unfold push_missing. revert es. induction new as [|e new IH]; intros es; cbn [fold_left]; [set_solver|].
  rewrite IH. destruct (existsb _ es) eqn:E; [|set_solver].
  apply existsb_exists in E as (y & Hy & ->%bool_decide_eq_true). apply list_elem_of_In in Hy. set_solver.
Qed.

Section changes.
Context `{Ho : Os} `{!OsLaws Ho}.
Context (cwd here : PathBuf) (Hcwd : from_absolute_path cwd = Some here).

(** ** Deny rules survive *)

Lemma deny_decides p q :
  kind p = Restricted -> normalized q -> mkResolved q Deny ∈ resolved_entries_with_cwd p cwd ->
  resolve_access_with_cwd p q cwd = Deny.
Proof.
  intros Hk Hq Hin. rewrite (resolve_access_at p q cwd q) by (auto using candidate_normalized).
  destruct (access_at_own _ _ _ Hin) as [_ Hle]. destruct (access_at _ q); cbn in Hle; (done || lia).
Qed.

(** When a policy is replaced and the deny rules of the old one are to be preserved,
    every path that an old deny rule names is denied afterwards, unless an external
    sandbox is in charge; and no entry of the new policy is lost unless it granted
    everything. *)
Theorem deny_rules_preserved p existing e q :
  well_formed existing -> kind p <> ExternalSandboxKind -> e ∈ entries existing -> entry_access e = Deny ->
  resolve_entry_path (entry_path e) (Some here) = Some q ->
  let p' := preserve_deny_read_restrictions_from p existing in
  resolve_access_with_cwd p' q cwd = Deny /\ kind p' = Restricted /\
  (kind p = Restricted -> forall e', e' ∈ entries p -> e' ∈ entries p').
Proof.
  intros Hwf Hk He Hd Hq p'.
  assert (Hqn : normalized q).
  { apply (resolved_normalized cwd here Hcwd existing (mkResolved q Deny)); [done|]. apply resolved_entries_elem. exists e.
    split; [done|]. unfold resolve_entry. by rewrite Hcwd, Hq, Hd. }
  assert (Hdeny : existsb is_deny (entries existing) = true).
  { apply existsb_exists. exists e. rewrite <- list_elem_of_In. split; [done|]. unfold is_deny. by apply bool_decide_eq_true. }
  assert (Hp' : exists d es, p' = mkPolicy Restricted d (push_missing es (List.filter is_deny (entries existing))) /\
    (kind p = Restricted -> es = entries p)).
  { unfold p', preserve_deny_read_restrictions_from, is_restricted. rewrite Hdeny.
    destruct (kind p) eqn:Ek; [| |done].
    - rewrite (bool_decide_eq_false_2 (Restricted = Unrestricted)) by done. cbn [andb]. rewrite Ek.
      rewrite bool_decide_eq_true_2 by done. by eexists _, _.
    - rewrite !bool_decide_eq_true_2 by done. by eexists _, _. }
  destruct Hp' as (d & es & Ep & Hes). rewrite Ep. split_and!; [|done|].
  - apply deny_decides; [done|done|]. apply resolved_entries_elem. exists e. cbn [entries]. rewrite push_missing_elem, filter_elem.
    split; [right; split; [done|by apply bool_decide_eq_true]|]. unfold resolve_entry. by rewrite Hcwd, Hq, Hd.
  - intros Hr e' He'. cbn [entries]. rewrite push_missing_elem, (Hes Hr). by left.
Qed.

(** ** Added roots *)

Lemma push_entry_resolved p q a :
  resolved_entries_with_cwd (push_entry p (mkEntry (Path q) a)) cwd = resolved_entries_with_cwd p cwd ++ [mkResolved q a].
Proof. unfold resolved_entries_with_cwd, push_entry. cbn [entries]. by rewrite omap_app. Qed.

(** Adding a writable root makes it writable unless a deny rule names it, which
    stays in force; access to paths outside the new root is as before. *)
Theorem added_root_writable p q :
  well_formed p -> normalized q ->
  let p' := with_additional_writable_roots p cwd [q] in
  (mkResolved q Deny ∉ resolved_entries_with_cwd p cwd -> can_write_path_with_cwd p' q cwd = true) /\
  (kind p = Restricted -> mkResolved q Deny ∈ resolved_entries_with_cwd p cwd -> resolve_access_with_cwd p' q cwd = Deny) /\
  (forall t, normalized t -> ~ q `prefix_of` t -> resolve_access_with_cwd p' t cwd = resolve_access_with_cwd p t cwd).
Proof.
  intros Hwf Hq p'. unfold p', with_additional_writable_roots. cbn [fold_left].
  destruct (can_write_path_with_cwd p q cwd) eqn:Ecw.
  { split_and!; [done|intros; by apply deny_decides|done]. }
  assert (Hk : kind p = Restricted).
  { destruct (kind p) eqn:Ek; [done|..]; unfold can_write_path_with_cwd, resolve_access_with_cwd, has_full_disk_write_access in Ecw;
      by rewrite Ek in Ecw. }
  set (p1 := push_entry p (mkEntry (Path q) Write)).
  assert (Hk1 : kind p1 = Restricted) by done.
  assert (Hres : resolved_entries_with_cwd p1 cwd = resolved_entries_with_cwd p cwd ++ [mkResolved q Write]) by apply push_entry_resolved.
  assert (Hwf1 : well_formed p1).
  { unfold well_formed, p1, push_entry. cbn [entries]. rewrite Forall_app. split; [done|]. by constructor. }
  assert (Hin : mkResolved q Write ∈ resolved_entries_with_cwd p1 cwd) by (rewrite Hres; set_solver).
  split_and!.
  - intros Hnd. destruct (access_at_own _ _ _ Hin) as [Hown Hle].
    assert (Hacc : access_at (resolved_entries_with_cwd p1 cwd) q = Write).
    { destruct (access_at _ q); [cbn in Hle; lia|done|]. rewrite Hres in Hown. apply elem_of_app in Hown as [?|E%list_elem_of_singleton]; done. }
    destruct (has_full_disk_write_access p1) eqn:Ef; [|by apply can_write_at; auto; split; [|eapply metadata_not_denied_at_entry; eauto]].
    unfold can_write_path_with_cwd. by rewrite (resolve_access_at p1 q cwd q), Hacc, Ef by auto using candidate_normalized.
  - intros _ Hd. apply deny_decides; [done..|]. rewrite Hres. set_solver.
  - intros t Ht Hnp. rewrite !(resolve_access_at _ t cwd t) by auto using candidate_normalized.
    unfold access_at. rewrite Hres, List.filter_app. cbn [List.filter res_path].
    destruct (path_starts_with t q) eqn:E; [by apply path_starts_with_prefix in E|]. by rewrite app_nil_r.
Qed.

(** ** Materialised project roots *)

Lemma materialize_entry_resolve here2 e :
  normalized here2 -> resolve_entry (Some here2) (materialize_entry (Some here) e) = resolve_entry (Some here) e.
Proof.
  intros Hh2. assert (Hh : normalized here) by by eapply from_absolute_path_normalized.
  destruct e as [[q|pat|value] a]; cbn [materialize_entry entry_path]; [done|by destruct (parse_project_roots_glob_pattern pat)|].
  destruct value; try done.
  unfold resolve_entry. cbn [entry_path resolve_entry_path option_map]. by rewrite !absolute_root_normalized.
Qed.

(** Materialising the project roots fixes their meaning: for every path, the policy
    materialised at one directory grants at any other directory what the original
    granted at the first. *)
Theorem materialize_keeps_access p path cwd2 here2 :
  from_absolute_path cwd2 = Some here2 -> is_absolute path = true ->
  resolve_access_with_cwd (materialize_project_roots_with_cwd p cwd) path cwd2 = resolve_access_with_cwd p path cwd.
Proof.
  intros H2 Hpath. unfold resolve_access_with_cwd, resolve_candidate_path. cbn [kind materialize_project_roots_with_cwd].
  rewrite Hpath. destruct (kind p); try done. destruct (from_absolute_path path); [|done].
  do 4 f_equal. unfold resolved_entries_with_cwd. cbn [entries materialize_project_roots_with_cwd]. rewrite H2, Hcwd.
  induction (entries p) as [|e es IH]; cbn; [done|].
  rewrite materialize_entry_resolve by by eapply from_absolute_path_normalized. by rewrite IH.
Qed.

(** ** Legacy policies *)

Lemma scan_read s path : scan_entry (Some here) s (mkEntry path Read) = s.
Proof.
  destruct s, path as [q|pat|[]]; cbn [scan_entry entry_path entry_access can_write]; rewrite ?andb_false_r; try done.
Qed.

(** Default entries are read-only: the scan does not see them. *)
Definition reads_only (l : list FileSystemSandboxEntry) : Prop := Forall (fun e => entry_access e = Read) l.

Lemma scan_reads l s : reads_only l -> fold_left (scan_entry (Some here)) l s = s.
Proof. intros Hl. revert s. induction Hl as [|[path a] l Ha Hl IH]; intros s; [done|]. cbn in Ha |- *. by rewrite Ha, scan_read. Qed.

Lemma append_default_reads es path :
  exists l, append_default_read_only_entry_if_no_explicit_rule es path = es ++ l /\ reads_only l.
Proof.
  unfold append_default_read_only_entry_if_no_explicit_rule. destruct (existsb _ es).
  - exists []. rewrite app_nil_r. by split; [|constructor].
  - eexists. split; [done|]. by repeat constructor.
Qed.

Lemma fold_reads {A} (f : list FileSystemSandboxEntry -> A -> list FileSystemSandboxEntry) xs es :
  (forall es x, exists l, f es x = es ++ l /\ reads_only l) -> exists l, fold_left f xs es = es ++ l /\ reads_only l.
Proof.
  intros Hf. revert es. induction xs as [|x xs IH]; intros es; cbn [fold_left].
  - exists []. rewrite app_nil_r. by split; [|constructor].
  - destruct (Hf es x) as (l & -> & Hl). destruct (IH (es ++ l)) as (l' & -> & Hl'). exists (l ++ l').
    rewrite app_assoc. split; [done|]. by apply Forall_app.
Qed.

Lemma append_subpaths_reads es q b : exists l, append_default_read_only_subpaths es q b = es ++ l /\ reads_only l.
Proof. apply fold_reads. intros. apply append_default_reads. Qed.

Lemma legacy_workspace_entries roots net etmp eslash :
  exists l, from_legacy_sandbox_policy_for_cwd (WorkspaceWrite roots net etmp eslash) cwd =
    restricted (workspace_entries roots etmp eslash ++ l) /\ reads_only l.
Proof.
  unfold from_legacy_sandbox_policy_for_cwd, from_sandbox_policy, workspace_write, append_for_cwd. cbn [entries kind glob_scan_max_depth restricted].
  rewrite Hcwd. set (es := workspace_entries roots etmp eslash).
  destruct (append_default_reads es (Special (ProjectRoots (Some [Shell.Normal GIT])))) as (l1 & E1 & H1).
  unfold append_default_read_only_project_root_subpath_if_no_explicit_rule. rewrite E1.
  destruct (append_default_reads (es ++ l1) (Special (ProjectRoots (Some [Shell.Normal AGENTS])))) as (l2 & E2 & H2). rewrite E2.
  destruct (append_default_reads ((es ++ l1) ++ l2) (Special (ProjectRoots (Some [Shell.Normal CODEX])))) as (l3 & E3 & H3). rewrite E3.
  assert (Hf : forall es xs, exists l, fold_left (fun es writable_root => append_default_read_only_subpaths es writable_root false) xs es = es ++ l /\ reads_only l).
  { intros es' xs. apply (fold_reads (fun es writable_root => append_default_read_only_subpaths es writable_root false)). intros. apply append_subpaths_reads. }
  destruct (Hf (((es ++ l1) ++ l2) ++ l3) roots) as (l4 & E4 & H4). rewrite E4.
  destruct (append_subpaths_reads ((((es ++ l1) ++ l2) ++ l3) ++ l4) here true) as (l5 & E5 & H5). rewrite E5.
  destruct (Hf ((((( es ++ l1) ++ l2) ++ l3) ++ l4) ++ l5) roots) as (l6 & E6 & H6). rewrite E6.
  exists (l1 ++ l2 ++ l3 ++ l4 ++ l5 ++ l6). split; [by rewrite <- !app_assoc|]. unfold reads_only. by rewrite !Forall_app.
Qed.

Lemma scan_roots roots s :
  fold_left (scan_entry (Some here)) (List.map (fun q => mkEntry (Path q) Write) roots) s =
    mkScan (workspace_root_writable s || existsb (fun q => bool_decide (here = q)) roots)
      (scan_writable_roots s ++ List.filter (fun q => negb (bool_decide (here = q))) roots)
      (tmpdir_writable s) (slash_tmp_writable s) (unbridgeable_root_write s).
Proof.
  revert s. induction roots as [|q roots IH]; intros [w rs tmp slash unb]; cbn [List.map fold_left].
  { cbn. by rewrite orb_false_r, app_nil_r. }
  rewrite IH. cbn [scan_entry entry_path entry_access can_write is_some_and].
  destruct (bool_decide (here = q)) eqn:E; cbn; rewrite E; cbn; [by rewrite orb_true_r|by rewrite <- app_assoc].
Qed.

(** Converting a legacy policy to a filesystem policy and back gives the legacy
    policy again, except that the extra writable roots of a workspace policy lose
    duplicates and the working directory, which is writable anyway. *)
Theorem legacy_roundtrip policy :
  to_legacy_sandbox_policy (from_legacy_sandbox_policy_for_cwd policy cwd) (network_from_sandbox_policy policy) cwd =
    Ok (match policy with
        | WorkspaceWrite roots net etmp eslash =>
            WorkspaceWrite (dedup_absolute_paths (List.filter (fun q => negb (bool_decide (here = q))) roots) false) net etmp eslash
        | _ => policy
        end).
Proof.
  destruct policy as [|net|net|roots net etmp eslash]; [done|by destruct net|by destruct net|].
  destruct (legacy_workspace_entries roots net etmp eslash) as (l & -> & Hl).
  unfold to_legacy_sandbox_policy. cbn [kind restricted entries]. rewrite Hcwd.
  assert (has_full_disk_write_access (restricted (workspace_entries roots etmp eslash ++ l)) = false) as ->.
  { cbn [has_full_disk_write_access kind restricted]. apply andb_false_iff. left. unfold has_root_access. cbn [kind entries].
    apply andb_false_iff. right. apply not_true_is_false. intros (e & He%list_elem_of_In & Ee)%existsb_exists.
    apply elem_of_app in He as [He|He].
    - unfold workspace_entries in He. rewrite !elem_of_app, list_elem_of_fmap in He.
      destruct He as [He|[He|[He|(q & -> & _)]]]; [| | |done].
      + rewrite !elem_of_cons, elem_of_nil in He. by destruct He as [->|[->|[]]].
      + destruct eslash; cbn in He; [by apply not_elem_of_nil in He|]. apply list_elem_of_singleton in He as ->. done.
      + destruct etmp; cbn in He; [by apply not_elem_of_nil in He|]. apply list_elem_of_singleton in He as ->. done.
    - unfold reads_only in Hl. rewrite Forall_forall in Hl. specialize (Hl _ He). destruct e as [[| |[]] a]; try done.
      cbn in Hl, Ee. by subst a. }
  rewrite fold_left_app, (scan_reads l) by done. unfold workspace_entries. rewrite !fold_left_app, scan_roots.
  by destruct net, etmp, eslash.
Qed.

End changes.
(** ** Two surprises *)

Definition path_of (s : string) : PathBuf := Shell.components (lit s).

(** Whether the metadata of a writable root inside other metadata is protected
    depends on the order of the entries, although the access they grant does not: the
    check looks at the first writable entry that has a metadata directory on the way
    to the target, and stops there. *)
Theorem metadata_protection_depends_on_order {Ho : Os} :
  let outer := mkEntry (Path (path_of "/w")) Write in
  let inner := mkEntry (Path (path_of "/w/.git/sub")) Write in
  let target := path_of "/w/.git/sub/.git/config" in
  (forall a, resolve_access_with_cwd (restricted [outer; inner]) target (path_of "/w") = a <->
             resolve_access_with_cwd (restricted [inner; outer]) target (path_of "/w") = a) /\
  can_write_path_with_cwd (restricted [outer; inner]) target (path_of "/w") = true /\
  can_write_path_with_cwd (restricted [inner; outer]) target (path_of "/w") = false.
Proof. destruct Ho as [[home|] ?? ? ?????]; vm_compute; done. Qed.

(** A Unix system without symlinks, where [/w/.git] is the file of a worktree. *)
Definition worktree_os : Os := {|
  home_dir := None;
  current_dir := Some [Shell.RootDir];
  tmpdir_var := None;
  symlink_metadata := fun _ => Some false;
  fs_canonicalize := fun p => Some p;
  is_dir := fun p => bool_decide (p = SLASH_TMP);
  is_file := fun p => bool_decide (p = path_of "/w/.git");
  exists_path := fun _ => true;
  read_to_string := fun p => if bool_decide (p = path_of "/w/.git") then Some (lit "gitdir: /main/.git/worktrees/w") else None |}.

#[export] Instance worktree_os_laws : OsLaws worktree_os.
Proof. by intros cwd [= <-]. Qed.

(** The read-only subpaths of a writable root need not be under the root: for a git
    worktree the directory that its [.git] file points to is among them. *)
Theorem read_only_subpath_outside_root :
  let policy := restricted [mkEntry (Special Root) Read; mkEntry (Path (path_of "/w")) Write] in
  exists r s, get_writable_roots_with_cwd (H := worktree_os) policy (path_of "/w") = [r] /\
    root r = path_of "/w" /\ s ∈ read_only_subpaths r /\ ~ root r `prefix_of` s.
Proof.
  eexists _, (path_of "/main/.git/worktrees/w"). split; [vm_compute; reflexivity|]. split_and!; [done| |].
  - cbn [read_only_subpaths]. left.
  - cbn [root]. rewrite <- path_starts_with_prefix. vm_compute. done.
Qed.

(** ** Examples *)

Definition W : PathBuf := path_of "/w".

(** A workspace with a private and a secret directory. *)
Definition sample : FileSystemSandboxPolicy :=
  restricted [mkEntry (Special Root) Read; mkEntry (Special (ProjectRoots None)) Write;
              mkEntry (Path (path_of "/w/private")) Read; mkEntry (Path (path_of "/w/secret")) Deny].

Lemma W_ok : from_absolute_path (H := worktree_os) W = Some W.
Proof. reflexivity. Qed.

Lemma sample_well_formed : well_formed sample.
Proof. repeat constructor; [by exists [lit "w"; lit "private"]|by exists [lit "w"; lit "secret"]]. Qed.

Lemma sample_resolved :
  resolved_entries_with_cwd (H := worktree_os) sample W =
    [mkResolved [Shell.RootDir] Read; mkResolved W Write; mkResolved (path_of "/w/private") Read; mkResolved (path_of "/w/secret") Deny].
Proof. vm_compute. reflexivity. Qed.

Lemma sample_effective e :
  e ∈ resolved_entries_with_cwd (H := worktree_os) sample W ->
  normalize_effective_absolute_path (H := worktree_os) (res_path e) = res_path e.
Proof.
  rewrite sample_resolved, !elem_of_cons. intros [->|[->|[->|[->|[]%not_elem_of_nil]]]]; vm_compute; reflexivity.
Qed.

Lemma resolve_access_most_specific_witness :
  access_spec (resolved_entries_with_cwd (H := worktree_os) sample W) (path_of "/w/private/x") Read.
Proof. apply (resolve_access_most_specific (Ho := worktree_os) sample (path_of "/w/private/x") W); reflexivity. Defined.

Lemma resolve_access_order_witness :
  resolve_access_with_cwd (H := worktree_os) sample (path_of "/w/private") W =
  resolve_access_with_cwd (H := worktree_os) (restricted (reverse (entries sample))) (path_of "/w/private") W.
Proof. apply (resolve_access_order (Ho := worktree_os)); [reflexivity|]. intros e. cbn [entries restricted]. by rewrite elem_of_reverse. Defined.

Lemma full_disk_access_sound_witness :
  let p := restricted [mkEntry (Special Root) Write; mkEntry (Special Root) Read] in
  can_write_path_with_cwd (H := worktree_os) p (path_of "/etc/hosts") W = true.
Proof.
  apply (full_disk_access_sound (Ho := worktree_os) W W W_ok (restricted [mkEntry (Special Root) Write; mkEntry (Special Root) Read]));
    [by repeat constructor|reflexivity..].
Defined.

Lemma writable_roots_sound_witness :
  can_write_path_with_cwd (H := worktree_os) sample (path_of "/w/src/a") W = true.
Proof.
  eapply (writable_roots_sound (Ho := worktree_os) W W W_ok sample sample_well_formed eq_refl eq_refl sample_effective
           (hd (mkRoot [] [] []) (get_writable_roots_with_cwd (H := worktree_os) sample W))).
  - assert (E : exists r, get_writable_roots_with_cwd (H := worktree_os) sample W = [r]) by (eexists; vm_compute; reflexivity).
    destruct E as [r ->]. left.
  - by exists [lit "w"; lit "src"; lit "a"].
  - vm_compute. reflexivity.
  - assert (E : exists r, get_writable_roots_with_cwd (H := worktree_os) sample W = [r]) by (eexists; vm_compute; reflexivity).
    destruct E as [r ->]. intros r' ->%list_elem_of_singleton _. done.
Defined.

Lemma read_deny_enforced_witness :
  exists m, matcher_new (H := worktree_os) (fun _ => Err []) sample W = Some (Some m) /\
    is_read_denied (H := worktree_os) m (path_of "/w/secret/key") = true.
Proof.
  apply (read_deny_enforced (Ho := worktree_os) W W W_ok (fun _ => Err []) sample (path_of "/w/secret/key") (mkResolved (path_of "/w/secret") Deny)
           sample_well_formed); try (vm_compute; reflexivity).
  - by exists [lit "w"; lit "secret"; lit "key"].
  - exact sample_effective.
  - rewrite sample_resolved. by do 3 right; left.
  - discriminate.
  - by exists [Shell.Normal (lit "key")].
Defined.

Lemma deny_rules_preserved_witness :
  resolve_access_with_cwd (H := worktree_os) (preserve_deny_read_restrictions_from unrestricted sample) (path_of "/w/secret") W = Deny.
Proof.
  apply (deny_rules_preserved (Ho := worktree_os) W W W_ok unrestricted sample (mkEntry (Path (path_of "/w/secret")) Deny) (path_of "/w/secret"));
    try done; [apply sample_well_formed|]. by do 3 right; left.
Defined.

Lemma added_root_writable_witness :
  can_write_path_with_cwd (H := worktree_os)
    (with_additional_writable_roots (H := worktree_os) sample W [path_of "/w/private"]) (path_of "/w/private") W = true.
Proof.
  apply (added_root_writable (Ho := worktree_os) W W W_ok sample (path_of "/w/private") sample_well_formed);
    [by exists [lit "w"; lit "private"]|].
  rewrite sample_resolved, !elem_of_cons. intros [?|[?|[?|[?|[]%not_elem_of_nil]]]]; discriminate.
Defined.

Lemma materialize_keeps_access_witness :
  resolve_access_with_cwd (H := worktree_os) (materialize_project_roots_with_cwd (H := worktree_os) sample W) (path_of "/w/a") (path_of "/v") =
  resolve_access_with_cwd (H := worktree_os) sample (path_of "/w/a") W.
Proof. apply (materialize_keeps_access (Ho := worktree_os) W W W_ok sample (path_of "/w/a") (path_of "/v") (path_of "/v")); reflexivity. Defined.

Lemma legacy_roundtrip_witness :
  to_legacy_sandbox_policy (H := worktree_os)
    (from_legacy_sandbox_policy_for_cwd (H := worktree_os) (WorkspaceWrite [W; path_of "/v"] true false true) W) NetEnabled W =
  Ok (WorkspaceWrite [path_of "/v"] true false true).
Proof. exact (legacy_roundtrip (Ho := worktree_os) W W W_ok (WorkspaceWrite [W; path_of "/v"] true false true)). Defined.

End PermissionsChange.
