(* ===== verification/Profiles.v ===== *)
(** Permission profiles ([protocol/src/models.rs]) and how they are merged,
    intersected and applied ([sandboxing/src/policy_transforms.rs]).  The
    theorems are in the module [ProfilesFacts]. *)

From stdpp Require Import base list option numbers strings sets.
From S2P Require Import Prelude RustStr ShellTree AbsolutePath Permissions PermissionsFacts PermissionsChange.

Module Profiles.
Import AbsolutePath Permissions.

Open Scope rust_scope.

(** ** models.rs *)

(** [NonZeroUsize]: [NonZeroUsize::new], and back. *)
Definition non_zero (n : nat) : option positive := match n with O => None | S _ => Some (Pos.of_nat n) end.

Record FileSystemPermissions := mkPermissions {
  perm_entries : list FileSystemSandboxEntry;
  perm_depth : option positive }.

Definition default_permissions : FileSystemPermissions := mkPermissions [] None.

Definition permissions_is_empty (p : FileSystemPermissions) : bool := is_empty (perm_entries p).

Definition from_read_write_roots (read write : option (list AbsolutePathBuf)) : FileSystemPermissions :=
  mkPermissions
    (match read with Some read => List.map (fun path => mkEntry (Path path) Read) read | None => [] end
     ++ match write with Some write => List.map (fun path => mkEntry (Path path) Write) write | None => [] end)
    None.

Definition explicit_path_entries (p : FileSystemPermissions) : list (AbsolutePathBuf * FileSystemAccessMode) :=
  omap (fun e => match entry_path e with Path path => Some (path, entry_access e) | _ => None end) (perm_entries p).

Record LegacyFileSystemPermissions := mkLegacy {
  legacy_read : option (list AbsolutePathBuf);
  legacy_write : option (list AbsolutePathBuf) }.

Fixpoint legacy_loop (es : list FileSystemSandboxEntry) (read write : list AbsolutePathBuf)
    : option (list AbsolutePathBuf * list AbsolutePathBuf) :=
  match es with
  | [] => Some (read, write)
  | e :: es =>
      match entry_path e with
      | Path path =>
          match entry_access e with
          | Read => legacy_loop es (read ++ [path]) write
          | Write => legacy_loop es read (write ++ [path])
          | Deny => None
          end
      | _ => None
      end
  end.

Definition non_empty {A} (l : list A) : option (list A) := if is_empty l then None else Some l.

Definition as_legacy_permissions (p : FileSystemPermissions) : option LegacyFileSystemPermissions :=
  if is_some (perm_depth p) then None
  else option_map (fun rw => mkLegacy (non_empty rw.1) (non_empty rw.2)) (legacy_loop (perm_entries p) [] []).

Definition legacy_read_write_roots (p : FileSystemPermissions)
    : option (option (list AbsolutePathBuf) * option (list AbsolutePathBuf)) :=
  option_map (fun legacy => (legacy_read legacy, legacy_write legacy)) (as_legacy_permissions p).

(** What is written: the legacy shape where it is enough, else the canonical one; and
    what reading one of the shapes gives. *)
Inductive Wire :=
| Canonical (entries : list FileSystemSandboxEntry) (glob_scan_max_depth : option positive)
| Legacy (legacy : LegacyFileSystemPermissions).

Definition serialize (p : FileSystemPermissions) : Wire :=
  match as_legacy_permissions p with
  | Some legacy => Legacy legacy
  | None => Canonical (perm_entries p) (perm_depth p)
  end.

Definition deserialize (w : Wire) : FileSystemPermissions :=
  match w with
  | Canonical entries glob_scan_max_depth => mkPermissions entries glob_scan_max_depth
  | Legacy legacy => from_read_write_roots (legacy_read legacy) (legacy_write legacy)
  end.

Record NetworkPermissions := mkNetwork { net_enabled : option bool }.

Definition network_is_empty (n : NetworkPermissions) : bool := negb (is_some (net_enabled n)).

Record AdditionalPermissionProfile := mkAdditional {
  add_network : option NetworkPermissions;
  add_file_system : option FileSystemPermissions }.

Definition additional_is_empty (a : AdditionalPermissionProfile) : bool :=
  negb (is_some (add_network a)) && negb (is_some (add_file_system a)).

Inductive SandboxEnforcement := EnfManaged | EnfDisabled | EnfExternal.

Definition enforcement_from_legacy_sandbox_policy (policy : SandboxPolicy) : SandboxEnforcement :=
  match policy with
  | DangerFullAccess => EnfDisabled
  | ExternalSandbox _ => EnfExternal
  | ReadOnly _ | WorkspaceWrite _ _ _ _ => EnfManaged
  end.

Inductive ManagedFileSystemPermissions :=
| ManagedRestricted (entries : list FileSystemSandboxEntry) (glob_scan_max_depth : option positive)
| ManagedUnrestricted.

(** [None]: the [unreachable!] for an external policy. *)
Definition managed_from_sandbox_policy (p : FileSystemSandboxPolicy) : option ManagedFileSystemPermissions :=
  match kind p with
  | Restricted => Some (ManagedRestricted (entries p) (glob_scan_max_depth p ≫= non_zero))
  | Unrestricted => Some ManagedUnrestricted
  | ExternalSandboxKind => None
  end.

Definition managed_to_sandbox_policy (m : ManagedFileSystemPermissions) : FileSystemSandboxPolicy :=
  match m with
  | ManagedRestricted entries glob_scan_max_depth => mkPolicy Restricted (option_map Pos.to_nat glob_scan_max_depth) entries
  | ManagedUnrestricted => unrestricted
  end.

Inductive PermissionProfile :=
| Managed (file_system : ManagedFileSystemPermissions) (network : NetworkSandboxPolicy)
| Disabled
| External (network : NetworkSandboxPolicy).

Definition default_profile : PermissionProfile := Managed (ManagedRestricted [] None) NetRestricted.

Definition managed (p : FileSystemSandboxPolicy) (network : NetworkSandboxPolicy) : option PermissionProfile :=
  option_map (fun file_system => Managed file_system network) (managed_from_sandbox_policy p).

Definition profile_read_only : option PermissionProfile := managed read_only NetRestricted.

Definition enforcement (p : PermissionProfile) : SandboxEnforcement :=
  match p with Managed _ _ => EnfManaged | Disabled => EnfDisabled | External _ => EnfExternal end.

Definition file_system_sandbox_policy (p : PermissionProfile) : FileSystemSandboxPolicy :=
  match p with
  | Managed file_system _ => managed_to_sandbox_policy file_system
  | Disabled => unrestricted
  | External _ => external_sandbox
  end.

Definition network_sandbox_policy (p : PermissionProfile) : NetworkSandboxPolicy :=
  match p with Managed _ network | External network => network | Disabled => NetEnabled end.

Definition to_runtime_permissions (p : PermissionProfile) : FileSystemSandboxPolicy * NetworkSandboxPolicy :=
  (file_system_sandbox_policy p, network_sandbox_policy p).

Definition from_runtime_permissions_with_enforcement (enf : SandboxEnforcement) (fs : FileSystemSandboxPolicy)
    (network : NetworkSandboxPolicy) : option PermissionProfile :=
  match kind fs, enf with
  | ExternalSandboxKind, _ => Some (External network)
  | Unrestricted, EnfDisabled => Some Disabled
  | _, _ => managed fs network
  end.

Definition from_runtime_permissions (fs : FileSystemSandboxPolicy) (network : NetworkSandboxPolicy) : option PermissionProfile :=
  from_runtime_permissions_with_enforcement
    (match kind fs with ExternalSandboxKind => EnfExternal | _ => EnfManaged end) fs network.

(** [From<LegacyPermissionProfile>]. *)
Definition profile_from_legacy (value : AdditionalPermissionProfile) : PermissionProfile :=
  Managed
    (match add_file_system value with
     | None => ManagedRestricted [] None
     | Some permissions => ManagedRestricted (perm_entries permissions) (perm_depth permissions)
     end)
    (if default false (add_network value ≫= net_enabled) then NetEnabled else NetRestricted).

Definition permissions_from_policy (p : FileSystemSandboxPolicy) : FileSystemPermissions :=
  mkPermissions
    (match kind p with Restricted => entries p | _ => [mkEntry (Special Root) Write] end)
    (glob_scan_max_depth p ≫= non_zero).

Definition policy_from_permissions (p : FileSystemPermissions) : FileSystemSandboxPolicy :=
  mkPolicy Restricted (option_map Pos.to_nat (perm_depth p)) (perm_entries p).

(** ** policy_transforms.rs: merging *)

(** Push each entry that is not there yet. *)
Definition merge_permission_entries (base permissions : list FileSystemSandboxEntry) : list FileSystemSandboxEntry :=
  push_missing [] (base ++ permissions).

Inductive GlobScanDepth := Bounded (depth : nat) | Unbounded.

Definition is_deny_glob (e : FileSystemSandboxEntry) : bool :=
  is_deny e && match entry_path e with GlobPattern _ => true | _ => false end.

Definition effective_glob_scan_depth (es : list FileSystemSandboxEntry) (depth : option nat) : option GlobScanDepth :=
  if existsb is_deny_glob es then Some (match depth with Some depth => Bounded depth | None => Unbounded end) else None.

Definition merge_glob_scan_max_depth (left_entries : list FileSystemSandboxEntry) (left_depth : option nat)
    (right_entries : list FileSystemSandboxEntry) (right_depth : option nat) : option nat :=
  match effective_glob_scan_depth left_entries left_depth, effective_glob_scan_depth right_entries right_depth with
  | Some Unbounded, _ | _, Some Unbounded => None
  | Some (Bounded l), Some (Bounded r) => Some (Nat.max l r)
  | Some (Bounded depth), None | None, Some (Bounded depth) => Some depth
  | None, None => None
  end.

Definition is_network_enabled (n : option NetworkPermissions) : bool :=
  match n with Some (mkNetwork (Some true)) => true | _ => false end.

(** [Option::filter]. *)
Definition option_filter {A} (f : A -> bool) (o : option A) : option A :=
  match o with Some a => if f a then Some a else None | None => None end.

Definition merge_permission_profiles (base permissions : option AdditionalPermissionProfile) : option AdditionalPermissionProfile :=
  match permissions with
  | None => base
  | Some permissions =>
      match base with
      | Some base =>
          let network :=
            if is_network_enabled (add_network base) || is_network_enabled (add_network permissions)
            then Some (mkNetwork (Some true)) else None in
          let file_system :=
            match add_file_system base, add_file_system permissions with
            | Some base, Some permissions =>
                option_filter (fun fs => negb (permissions_is_empty fs))
                  (Some (mkPermissions (merge_permission_entries (perm_entries base) (perm_entries permissions))
                     (merge_glob_scan_max_depth (perm_entries base) (option_map Pos.to_nat (perm_depth base))
                        (perm_entries permissions) (option_map Pos.to_nat (perm_depth permissions)) ≫= non_zero)))
            | Some base, None => Some base
            | None, Some permissions => Some permissions
            | None, None => None
            end in
          option_filter (fun a => negb (additional_is_empty a)) (Some (mkAdditional network file_system))
      | None => option_filter (fun a => negb (additional_is_empty a)) (Some permissions)
      end
  end.

Definition access_covers (requested granted : FileSystemAccessMode) : bool :=
  match granted with Read => can_read requested | Write => can_write requested | Deny => false end.

Definition paths_overlap (l r : PathBuf) : bool := path_starts_with l r || path_starts_with r l.

Section os.
Context `{Os}.

Definition profile_workspace_write_with (writable_roots : list AbsolutePathBuf) (network : NetworkSandboxPolicy)
    (exclude_tmpdir_env_var exclude_slash_tmp : bool) : option PermissionProfile :=
  managed (workspace_write writable_roots exclude_tmpdir_env_var exclude_slash_tmp) network.

Definition profile_materialize (p : PermissionProfile) (workspace_roots : list AbsolutePathBuf) : option PermissionProfile :=
  match p with
  | Managed file_system network =>
      managed (materialize_project_roots_with_workspace_roots (managed_to_sandbox_policy file_system) workspace_roots) network
  | _ => Some p
  end.

Definition profile_from_legacy_sandbox_policy (policy : SandboxPolicy) : option PermissionProfile :=
  from_runtime_permissions_with_enforcement (enforcement_from_legacy_sandbox_policy policy) (from_sandbox_policy policy)
    (network_from_sandbox_policy policy).

Definition profile_from_legacy_sandbox_policy_for_cwd (policy : SandboxPolicy) (cwd : PathBuf) : option PermissionProfile :=
  from_runtime_permissions_with_enforcement (enforcement_from_legacy_sandbox_policy policy)
    (from_legacy_sandbox_policy_for_cwd policy cwd) (network_from_sandbox_policy policy).

Definition profile_to_legacy_sandbox_policy (p : PermissionProfile) (cwd : PathBuf) : result SandboxPolicy LegacyError :=
  match p with
  | Managed file_system network => to_legacy_sandbox_policy (managed_to_sandbox_policy file_system) network cwd
  | Disabled => Ok DangerFullAccess
  | External network => Ok (ExternalSandbox (if is_enabled network then NetAccessEnabled else NetAccessRestricted))
  end.

(** ** policy_transforms.rs: requests *)

Definition normalize_entry (e : FileSystemSandboxEntry) : FileSystemSandboxEntry :=
  mkEntry
    (match entry_path e with
     | Path path => Path (default path (canonicalize_preserving_symlinks path ≫= from_absolute_path))
     | p => p
     end) (entry_access e).

(** The loop over the entries. *)
Fixpoint normalize_entries (es acc : list FileSystemSandboxEntry) : result (list FileSystemSandboxEntry) str :=
  match es with
  | [] => Ok acc
  | e :: es =>
      if match entry_path e with GlobPattern _ => true | _ => false end && negb (is_deny e) then
        Err (lit "glob file system permissions only support deny-read entries")
      else
        let normalized_entry := normalize_entry e in
        normalize_entries es
          (if existsb (fun entry => entry == normalized_entry) acc then acc else acc ++ [normalized_entry])
  end.

Definition normalize_additional_permissions (a : AdditionalPermissionProfile) : result AdditionalPermissionProfile str :=
  let network := option_filter (fun network => negb (network_is_empty network)) (add_network a) in
  match add_file_system a with
  | Some file_system =>
      let? entries := normalize_entries (perm_entries file_system) [] in
      let file_system := mkPermissions entries (perm_depth file_system) in
      Ok (mkAdditional network (if negb (permissions_is_empty file_system) then Some file_system else None))
  | None => Ok (mkAdditional network None)
  end.

Definition resolve_permission_path (path : FileSystemPath) (cwd : PathBuf) : option AbsolutePathBuf :=
  match path with
  | Path path => Some path
  | GlobPattern _ => None
  | Special value =>
      match value with
      | Root => last (ancestors cwd) ≫= from_absolute_path
      | ProjectRoots subpath =>
          option_map (fun cwd => match subpath with Some subpath => resolve_path_against_base subpath cwd | None => cwd end)
            (from_absolute_path cwd)
      | Tmpdir =>
          match tmpdir_var with
          | None => None
          | Some tmpdir => if is_empty tmpdir then None else from_absolute_path tmpdir
          end
      | SlashTmp => if is_dir SLASH_TMP then Some SLASH_TMP else None
      | Minimal | Unknown _ _ => None
      end
  end.

Definition materialize_cwd_dependent_entry (e : FileSystemSandboxEntry) (cwd : PathBuf) : FileSystemSandboxEntry :=
  match entry_path e with
  | Special (ProjectRoots _) =>
      match resolve_permission_path (entry_path e) cwd with
      | Some path => mkEntry (Path path) (entry_access e)
      | None => e
      end
  | GlobPattern pattern =>
      mkEntry (GlobPattern (to_string_lossy (resolve_path_against_base (Shell.components pattern) cwd))) (entry_access e)
  | _ => e
  end.

(** The text of [pattern] up to its first wildcard. *)
Definition is_wildcard (c : char) : bool := existsb (fun w => (c =? w)%N) [42; 63; 91; 93]%N.

Fixpoint before_wildcard (s : str) : option str :=
  match s with
  | [] => None
  | c :: s => if is_wildcard c then Some [] else option_map (cons c) (before_wildcard s)
  end.

Definition glob_static_prefix_path (pattern : str) (cwd : PathBuf) : option AbsolutePathBuf :=
  let resolved_pattern := to_string_lossy (resolve_path_against_base (Shell.components pattern) cwd) in
  match before_wildcard resolved_pattern with
  | Some [] => None
  | Some prefix =>
      if ends_with [Shell.SLASH] prefix || ends_with [92%N] prefix then from_absolute_path (Shell.components prefix)
      else parent (Shell.components prefix) ≫= from_absolute_path
  | None => from_absolute_path (Shell.components resolved_pattern)
  end.

Definition deny_entry_constrains_accepted_grant (deny_entry : FileSystemSandboxEntry) (accepted_entries : list FileSystemSandboxEntry)
    (cwd : PathBuf) : bool :=
  existsb (fun e =>
    match resolve_permission_path (entry_path e) cwd with
    | None => false
    | Some grant_path =>
        match entry_path deny_entry with
        | GlobPattern pattern => is_some_and (glob_static_prefix_path pattern cwd) (fun prefix => paths_overlap prefix grant_path)
        | _ => is_some_and (resolve_permission_path (entry_path deny_entry) cwd) (fun deny_path => paths_overlap deny_path grant_path)
        end
    end) (List.filter (fun e => can_read (entry_access e)) accepted_entries).

(** The entries that are retained, materialised. *)
Definition retained_deny_entries (source_entries accepted_entries : list FileSystemSandboxEntry) (cwd : PathBuf)
    : list FileSystemSandboxEntry :=
  List.map (fun e => materialize_cwd_dependent_entry e cwd)
    (List.filter (fun e => deny_entry_constrains_accepted_grant e accepted_entries cwd) (List.filter is_deny source_entries)).

(** The new [output_entries], and the entries that were retained. *)
Definition retain_constraining_deny_entries (source_entries accepted_entries : list FileSystemSandboxEntry) (cwd : PathBuf)
    (output_entries : list FileSystemSandboxEntry) : list FileSystemSandboxEntry * list FileSystemSandboxEntry :=
  let retained := retained_deny_entries source_entries accepted_entries cwd in
  (push_missing output_entries retained, retained).

Section globs.
Context (build_glob_matcher : str -> result (PathBuf -> bool) str).

Definition granted_file_system_entry_within_request (requested : FileSystemPermissions) (requested_policy : FileSystemSandboxPolicy)
    (requested_read_deny_matcher : option ReadDenyMatcher) (granted_entry : FileSystemSandboxEntry) (cwd : PathBuf) : bool :=
  if negb (can_read (entry_access granted_entry)) then false
  else
    match resolve_permission_path (entry_path granted_entry) cwd with
    | Some path =>
        if is_some_and requested_read_deny_matcher (fun matcher => is_read_denied matcher path) then false
        else access_covers (resolve_access_with_cwd requested_policy path cwd) (entry_access granted_entry)
    | None =>
        existsb (fun requested_entry => access_covers (entry_access requested_entry) (entry_access granted_entry)
                                        && (entry_path requested_entry == entry_path granted_entry)) (perm_entries requested)
    end.

Definition accepted_grants (requested : FileSystemPermissions) (granted : FileSystemPermissions) (cwd : PathBuf)
    : option (list FileSystemSandboxEntry) :=
  let requested_policy := restricted (perm_entries requested) in
  match matcher_new build_glob_matcher requested_policy cwd with
  | None => None
  | Some matcher =>
      Some (push_missing []
        (List.map (fun e => materialize_cwd_dependent_entry e cwd)
           (List.filter (fun e => granted_file_system_entry_within_request requested requested_policy matcher e cwd)
              (perm_entries granted))))
  end.

(** [None]: the [unreachable!] of the matcher. *)
Definition intersect_file_systems (requested granted : FileSystemPermissions) (cwd : PathBuf) : option FileSystemPermissions :=
  match accepted_grants requested granted cwd with
  | None => None
  | Some accepted_entries =>
      let (es, requested_retained) :=
        retain_constraining_deny_entries (perm_entries requested) accepted_entries cwd accepted_entries in
      let (es, granted_retained) :=
        retain_constraining_deny_entries (perm_entries granted) accepted_entries cwd es in
      Some (mkPermissions es
        (merge_glob_scan_max_depth requested_retained (option_map Pos.to_nat (perm_depth requested))
           granted_retained (option_map Pos.to_nat (perm_depth granted)) ≫= non_zero))
  end.

Definition intersect_permission_profiles (requested granted : AdditionalPermissionProfile) (cwd : PathBuf)
    : option AdditionalPermissionProfile :=
  let network :=
    if is_network_enabled (add_network requested) && is_network_enabled (add_network granted)
    then Some (mkNetwork (Some true)) else None in
  match add_file_system requested with
  | None => Some (mkAdditional network None)
  | Some requested_file_system =>
      match intersect_file_systems requested_file_system (default default_permissions (add_file_system granted)) cwd with
      | None => None
      | Some fs => Some (mkAdditional network (option_filter (fun fs => negb (permissions_is_empty fs)) (Some fs)))
      end
  end.

End globs.
End os.

(** ** policy_transforms.rs: effective permissions *)

Definition merge_file_system_policy_with_additional_permissions (p : FileSystemSandboxPolicy) (additional : FileSystemPermissions)
    : FileSystemSandboxPolicy :=
  match kind p with
  | Restricted =>
      mkPolicy (kind p)
        (merge_glob_scan_max_depth (entries p) (glob_scan_max_depth p) (perm_entries additional)
           (option_map Pos.to_nat (perm_depth additional)))
        (push_missing (entries p) (perm_entries additional))
  | _ => p
  end.

Definition effective_file_system_sandbox_policy (p : FileSystemSandboxPolicy) (additional : option AdditionalPermissionProfile)
    : FileSystemSandboxPolicy :=
  match additional with
  | None => p
  | Some additional =>
      match add_file_system additional with
      | None => p
      | Some fs => if permissions_is_empty fs then p else merge_file_system_policy_with_additional_permissions p fs
      end
  end.

Definition merge_network_access (base_network_access : bool) (additional : AdditionalPermissionProfile) : bool :=
  base_network_access || default false (add_network additional ≫= net_enabled).

Definition effective_network_sandbox_policy (network : NetworkSandboxPolicy) (additional : option AdditionalPermissionProfile)
    : NetworkSandboxPolicy :=
  if is_some_and additional (merge_network_access (is_enabled network)) then NetEnabled
  else if is_some additional then NetRestricted else network.

Definition effective_permission_profile (p : PermissionProfile) (additional : option AdditionalPermissionProfile)
    : option PermissionProfile :=
  let (fs, network) := to_runtime_permissions p in
  from_runtime_permissions_with_enforcement (enforcement p) (effective_file_system_sandbox_policy fs additional)
    (effective_network_sandbox_policy network additional).

Definition should_require_platform_sandbox (p : FileSystemSandboxPolicy) (network : NetworkSandboxPolicy)
    (has_managed_network_requirements : bool) : bool :=
  if has_managed_network_requirements then true
  else if negb (is_enabled network) then match kind p with ExternalSandboxKind => false | _ => true end
  else match kind p with Restricted => negb (has_full_disk_write_access p) | _ => false end.

End Profiles.

(** * Theorems

    Theorems on permission profiles: an approved request never reads more than was
    asked for and granted, named denials survive merging, profiles and permissions
    survive their round trips; and the read-only parts of a request that an
    intersection loses. *)

Module ProfilesFacts.
Import AbsolutePath Permissions PermissionsFacts PermissionsChange Profiles.

Lemma deny_highest a : access_rank Deny <= access_rank a -> a = Deny.
Proof. destruct a; cbn; (done || lia). Qed.

Lemma not_deny_read a : a <> Deny -> can_read a = true.
Proof. by destruct a. Qed.

Lemma access_covering es q : access_at es q <> Deny -> exists e, e ∈ es /\ res_path e `prefix_of` q.
Proof. destruct (access_at_spec es q) as [[-> _]|(r & Hr & Hra & _)]; [done|]. intros _. by exists (mkResolved r (access_at es q)). Qed.

(** A denial that an entry is behind comes from a deny entry that no other is below. *)
Lemma access_at_deny es t e :
  access_at es t = Deny -> e ∈ es -> res_path e `prefix_of` t ->
  exists q, q `prefix_of` t /\ mkResolved q Deny ∈ es /\ forall e', e' ∈ es -> res_path e' `prefix_of` t -> res_path e' `prefix_of` q.
Proof.
  intros E He Het. destruct (access_at_spec es t) as [[_ Hno]|(q & Hq & Hqa & Hmax)]; [by destruct (Hno _ He)|].
  rewrite E in Hqa. exists q. split_and!; auto. intros e' He' Het'. by apply Hmax.
Qed.

Section facts.
Context `{Ho : Os} `{!OsLaws Ho}.
Context (cwd : PathBuf) (Hcwd : normalized cwd).

Lemma cwd_here : from_absolute_path cwd = Some cwd.
Proof. by apply from_absolute_path_id. Qed.

Lemma resolve_permission_entry path : resolve_permission_path path cwd = resolve_entry_path path (Some cwd).
Proof.
  destruct path as [q|pat|value]; [done..|].
  destruct value; cbn [resolve_permission_path resolve_entry_path resolve_file_system_path resolve_file_system_special_path]; try done.
  - rewrite last_ancestor_normalized by done. cbn [mbind option_bind option_map].
    rewrite from_absolute_path_id by apply normalized_root. by rewrite absolute_root_normalized.
  - by rewrite cwd_here.
  - by destruct (is_dir SLASH_TMP).
Qed.

Lemma materialize_resolve e : resolve_entry (Some cwd) (materialize_cwd_dependent_entry e cwd) = resolve_entry (Some cwd) e.
Proof.
  destruct e as [path a]. unfold materialize_cwd_dependent_entry. cbn [entry_path entry_access].
  destruct path as [q|pat|[]]; try done. rewrite resolve_permission_entry. unfold resolve_entry. cbn [entry_path entry_access].
  destruct (resolve_entry_path (Special (ProjectRoots subpath)) (Some cwd)) eqn:E; [done|]. cbn [entry_path]. by rewrite E.
Qed.

Lemma materialize_access e : entry_access (materialize_cwd_dependent_entry e cwd) = entry_access e.
Proof. destruct e as [[|pat|[]] a]; try done. unfold materialize_cwd_dependent_entry. cbn. by destruct (from_absolute_path cwd). Qed.

Lemma resolve_entry_path_of e q :
  resolve_entry (Some cwd) e = Some (mkResolved q (entry_access e)) <-> resolve_entry_path (entry_path e) (Some cwd) = Some q.
Proof. unfold resolve_entry. destruct (resolve_entry_path _ _); cbn; split; congruence. Qed.

(** ** Intersection *)

Context (build_glob_matcher : str -> result (PathBuf -> bool) str).
Context (requested granted : FileSystemPermissions).

Notation req := (restricted (perm_entries requested)).
Notation gra := (restricted (perm_entries granted)).

Lemma accepted_elem accepted e :
  accepted_grants build_glob_matcher requested granted cwd = Some accepted -> e ∈ accepted ->
  exists g, g ∈ perm_entries granted /\ e = materialize_cwd_dependent_entry g cwd /\ entry_access g <> Deny /\
    forall q, resolve_entry_path (entry_path g) (Some cwd) = Some q ->
      access_covers (resolve_access_with_cwd req q cwd) (entry_access g) = true.
Proof.
  unfold accepted_grants. destruct (matcher_new _ _ _) as [m|]; [|done]. intros [= <-].
  rewrite push_missing_elem. intros [[]%not_elem_of_nil|He].
  rewrite list_elem_of_In, List.in_map_iff in He. destruct He as (g & <- & Hg). rewrite <- list_elem_of_In, filter_elem in Hg.
  destruct Hg as [Hg Hw]. exists g. split_and!; [done|done|..]; unfold granted_file_system_entry_within_request in Hw.
  - intros E. by rewrite E in Hw.
  - intros q Hq. destruct (can_read (entry_access g)); [|done]. cbn [negb] in Hw. rewrite resolve_permission_entry, Hq in Hw.
    by destruct (is_some_and _ _).
Qed.

(** A named denial at or below an accepted grant is retained. *)
Lemma retained_elem source accepted d q a path q' :
  mkEntry path a ∈ accepted -> a <> Deny -> resolve_entry_path path (Some cwd) = Some q ->
  d ∈ source -> entry_access d = Deny -> resolve_entry_path (entry_path d) (Some cwd) = Some q' -> q `prefix_of` q' ->
  materialize_cwd_dependent_entry d cwd ∈ retained_deny_entries source accepted cwd.
Proof.
  intros Hacc Ha Hq Hd Hda Hq' Hpre. unfold retained_deny_entries. rewrite list_elem_of_In, List.in_map_iff.
  exists d. split; [done|]. rewrite <- list_elem_of_In, !filter_elem. split_and!; [done|by apply bool_decide_eq_true|].
  apply existsb_exists. exists (mkEntry path a). rewrite <- list_elem_of_In, filter_elem. split; [split; [done|by destruct a]|].
  cbn [entry_path]. rewrite resolve_permission_entry, Hq.
  assert (Hov : paths_overlap q' q = true) by (unfold paths_overlap; by rewrite (proj2 (path_starts_with_prefix q' q) Hpre)).
  destruct (entry_path d) eqn:Ed; [|done|]; by rewrite resolve_permission_entry, Hq'.
Qed.

Lemma retained_deny source accepted e : e ∈ retained_deny_entries source accepted cwd -> entry_access e = Deny.
Proof.
  unfold retained_deny_entries. rewrite list_elem_of_In, List.in_map_iff. intros (d & <- & Hd).
  rewrite <- list_elem_of_In, !filter_elem in Hd. destruct Hd as [[_ Hd%bool_decide_eq_true] _]. by rewrite materialize_access.
Qed.

Context (result_fs : FileSystemPermissions).
Context (Hres : intersect_file_systems build_glob_matcher requested granted cwd = Some result_fs).
Notation out := (restricted (perm_entries result_fs)).
Context (Hwf : well_formed gra).

Lemma intersect_entries :
  exists accepted, accepted_grants build_glob_matcher requested granted cwd = Some accepted /\
    forall e, e ∈ perm_entries result_fs <->
      e ∈ accepted \/ e ∈ retained_deny_entries (perm_entries requested) accepted cwd \/
      e ∈ retained_deny_entries (perm_entries granted) accepted cwd.
Proof.
  unfold intersect_file_systems in Hres. destruct (accepted_grants _ _ _ _) as [accepted|]; [|done]. exists accepted.
  split; [done|]. cbn in Hres. injection Hres as <-. intros e. cbn [perm_entries]. rewrite !push_missing_elem. tauto.
Qed.

Lemma mkResolved_elem p q a :
  mkResolved q a ∈ resolved_entries_with_cwd p cwd <->
    exists e, e ∈ entries p /\ entry_access e = a /\ resolve_entry_path (entry_path e) (Some cwd) = Some q.
Proof.
  rewrite resolved_entries_elem, cwd_here. split.
  - intros (e & He & E). exists e. unfold resolve_entry in E. destruct (resolve_entry_path _ _); [|done]. cbn in E.
    injection E as -> ->. done.
  - intros (e & He & <- & Hq). exists e. split; [done|]. by apply resolve_entry_path_of.
Qed.

Lemma out_deny d q' accepted a path q source :
  (forall e, e ∈ retained_deny_entries source accepted cwd -> e ∈ perm_entries result_fs) ->
  mkEntry path a ∈ accepted -> a <> Deny -> resolve_entry_path path (Some cwd) = Some q ->
  d ∈ source -> entry_access d = Deny -> resolve_entry_path (entry_path d) (Some cwd) = Some q' -> q `prefix_of` q' ->
  mkResolved q' Deny ∈ resolved_entries_with_cwd out cwd.
Proof.
  intros Hsub Hacc Ha Hq Hd Hda Hq' Hpre. apply mkResolved_elem. exists (materialize_cwd_dependent_entry d cwd).
  cbn [entries restricted]. split_and!.
  - by eapply Hsub, retained_elem.
  - by rewrite materialize_access.
  - pose proof (materialize_resolve d) as E. apply resolve_entry_path_of in Hq'. rewrite Hq', Hda in E.
    rewrite <- (materialize_access d) in Hda. apply resolve_entry_path_of. by rewrite E, Hda.
Qed.

(** C26: An approved request reads no more than was asked for and no more than was
    granted: a path that the intersection of the two lets the agent read is one that
    the request covers and one that the grant covers. *)
Theorem intersection_reads_within t :
  normalized t -> can_read_path_with_cwd out t cwd = true ->
  can_read_path_with_cwd req t cwd = true /\ can_read_path_with_cwd gra t cwd = true.
Proof.
  intros Ht. unfold can_read_path_with_cwd. rewrite !(resolve_access_at _ t cwd t) by (try done; by apply candidate_normalized).
  intros Hread. destruct intersect_entries as (accepted & Hacc & Hin).
  destruct (access_at_spec (resolved_entries_with_cwd out cwd) t) as [[E _]|(q & Hq & Hqa & Hmax)]; [by rewrite E in Hread|].
  set (a := access_at (resolved_entries_with_cwd out cwd) t) in *. assert (Ha : a <> Deny) by (by intros E; rewrite E in Hread).
  apply mkResolved_elem in Hqa as ([path a'] & He & Ea & Hp). cbn [entry_access entry_path entries restricted] in *. subst a'.
  apply Hin in He as [He|[He|He]]; [|by destruct (Ha (retained_deny _ _ _ He))..].
  destruct (accepted_elem _ _ Hacc He) as (g & Hg & Eg & _ & Hcov).
  assert (Hgq : resolve_entry_path (entry_path g) (Some cwd) = Some q).
  { apply resolve_entry_path_of. rewrite <- materialize_resolve, <- Eg. unfold resolve_entry. cbn [entry_path entry_access].
    rewrite Hp. cbn [option_map]. by rewrite <- (materialize_access g), <- Eg. }
  assert (Hga : entry_access g = a) by by rewrite <- (materialize_access g), <- Eg.
  specialize (Hcov q Hgq). rewrite Hga in Hcov. 
  assert (Hqg : mkResolved q a ∈ resolved_entries_with_cwd gra cwd) by (apply mkResolved_elem; eauto).
  assert (Hqn : normalized q) by apply (resolved_normalized cwd cwd cwd_here gra _ Hwf Hqg).
  rewrite (resolve_access_at req q cwd q) in Hcov by (try done; by apply candidate_normalized).
  split; apply not_deny_read; intros Hden.
  - assert (Hc : access_at (resolved_entries_with_cwd req cwd) q <> Deny) by (intros E; rewrite E in Hcov; by destruct a).
    apply access_covering in Hc as (e & He' & Heq). pose proof Hden as Hden'.
    apply (access_at_deny _ _ e) in Hden' as (q' & Hq' & Hd & Hmax'); [|done|by etrans].
    apply mkResolved_elem in Hd as (d & Hd & Hda & Hdq). destruct (prefix_weak_total q q' t Hq Hq') as [Hqq'|Hq'q].
    + assert (Hout : mkResolved q' Deny ∈ resolved_entries_with_cwd out cwd) by (eapply out_deny; eauto; naive_solver).
      destruct (Hmax _ Hout Hq') as [Hle Hrank]. cbn [res_path res_access] in *.
      assert (q' = q) as -> by by apply (anti_symm prefix). by apply Ha, deny_highest, Hrank.
    + rewrite (access_at_winner _ q t Hq) in Hcov by (intros e' He'' Het; exact (transitivity (Hmax' _ He'' Het) Hq'q)).
      by rewrite Hden in Hcov; destruct a.
  - apply (access_at_deny _ _ (mkResolved q a)) in Hden as (q' & Hq' & Hd & Hmax'); [|done..].
    assert (Hqq' : q `prefix_of` q') by by apply (Hmax' _ Hqg).
    apply mkResolved_elem in Hd as (d & Hd & Hda & Hdq).
    assert (Hout : mkResolved q' Deny ∈ resolved_entries_with_cwd out cwd) by (eapply out_deny; eauto; naive_solver).
    destruct (Hmax _ Hout Hq') as [Hle Hrank]. cbn [res_path res_access] in *.
    assert (q' = q) as -> by by apply (anti_symm prefix). by apply Ha, deny_highest, Hrank.
Qed.

End facts.
(** ** Round trips *)

Lemma non_zero_to_nat d : non_zero (Pos.to_nat d) = Some d.
Proof. unfold non_zero. destruct (Pos.to_nat d) eqn:E; [lia|]. rewrite <- E. by rewrite Pos2Nat.id. Qed.

(** A profile survives the conversion to runtime permissions and back, given its own
    enforcement; the conversion back is total, so it never meets the external policy
    that it takes to be unreachable. *)
Theorem profile_roundtrip p :
  let (fs, network) := to_runtime_permissions p in
  from_runtime_permissions_with_enforcement (enforcement p) fs network = Some p /\
  forall enf fs' network', is_some (from_runtime_permissions_with_enforcement enf fs' network') = true.
Proof.
  unfold to_runtime_permissions. split.
  - destruct p as [[es [d|]|] net| |net]; try done. unfold from_runtime_permissions_with_enforcement, managed, managed_from_sandbox_policy.
    cbn. by rewrite non_zero_to_nat.
  - intros enf fs' network'. unfold from_runtime_permissions_with_enforcement, managed, managed_from_sandbox_policy.
    destruct (kind fs'), enf; done.
Qed.

Lemma legacy_loop_Some es read write r w :
  legacy_loop es read write = Some (r, w) ->
  List.map (fun q => mkEntry (Path q) Read) r ++ List.map (fun q => mkEntry (Path q) Write) w ≡ₚ
  List.map (fun q => mkEntry (Path q) Read) read ++ List.map (fun q => mkEntry (Path q) Write) write ++ es.
Proof.
  revert read write. induction es as [|[path a] es IH]; intros read write; cbn [legacy_loop entry_path entry_access].
  { intros [= -> ->]. by rewrite app_nil_r. }
  destruct path as [q| |]; [|done..]. destruct a; [| |done]; intros ->%IH; rewrite List.map_app; cbn [List.map].
  - rewrite <- app_assoc. cbn [app]. apply Permutation_app_head, Permutation_middle.
  - by rewrite <- !app_assoc.
Qed.

Lemma from_non_empty {A B} (f : A -> B) l : match non_empty l with Some l => List.map f l | None => [] end = List.map f l.
Proof. by destruct l. Qed.

(** File-system permissions survive being written and read, in whichever shape they
    are written: the depth is the same, the entries are the same up to their order,
    and so is the access that they grant. *)
Theorem permissions_wire_roundtrip {Ho : Os} p path cwd :
  let p' := deserialize (serialize p) in
  perm_depth p' = perm_depth p /\ perm_entries p' ≡ₚ perm_entries p /\
  resolve_access_with_cwd (policy_from_permissions p') path cwd = resolve_access_with_cwd (policy_from_permissions p) path cwd.
Proof.
  intros p'. assert (Hd : perm_depth p' = perm_depth p /\ perm_entries p' ≡ₚ perm_entries p).
  { unfold p', serialize, as_legacy_permissions. destruct (is_some (perm_depth p)) eqn:Ed; [done|].
    destruct (legacy_loop (perm_entries p) [] []) as [[r w]|] eqn:E; [|done].
    cbn [option_map deserialize from_read_write_roots perm_depth perm_entries legacy_read legacy_write fst snd].
    split; [by destruct (perm_depth p)|]. rewrite !from_non_empty. by apply legacy_loop_Some in E. }
  destruct Hd as [Hd He]. split_and!; [done..|]. apply resolve_access_order_lemma; [done|].
  intros e. cbn [entries policy_from_permissions]. by rewrite He.
Qed.

(** ** Effective permissions *)

(** Additional permissions cannot lift a denial: a path that a deny entry of the base
    policy or of the additional permissions names is denied by the effective policy. *)
Theorem effective_policy_keeps_denials `{Ho : Os} `{!OsLaws Ho} cwd p additional fs e q :
  normalized cwd -> kind p = Restricted -> add_file_system additional = Some fs ->
  e ∈ entries p \/ e ∈ perm_entries fs -> entry_access e = Deny ->
  resolve_entry_path (entry_path e) (Some cwd) = Some q -> normalized q ->
  resolve_access_with_cwd (effective_file_system_sandbox_policy p (Some additional)) q cwd = Deny.
Proof.
  intros Hcwd Hk Hfs He Hd Hq Hn. unfold effective_file_system_sandbox_policy. rewrite Hfs.
  assert (Hin : forall p', kind p' = Restricted -> e ∈ entries p' -> resolve_access_with_cwd p' q cwd = Deny).
  { intros p' Hk' He'. apply deny_decides; [done..|]. apply mkResolved_elem; eauto. }
  destruct (permissions_is_empty fs) eqn:Ee.
  - apply Hin; [done|]. destruct He as [|He]; [done|]. apply is_empty_true in Ee. rewrite Ee in He. by apply not_elem_of_nil in He.
  - unfold merge_file_system_policy_with_additional_permissions. rewrite Hk. apply Hin; [done|]. cbn [entries]. by apply push_missing_elem.
Qed.

(** ** What the intersection loses *)

(** The intersection of a request and a grant may allow writes that were not asked
    for: of the request only denials are kept below an accepted grant, so a part that
    the request asks only to read becomes writable with its surroundings. *)
Theorem intersection_drops_read_only_part :
  let requested := mkPermissions [mkEntry (Path (path_of "/a")) Write; mkEntry (Path (path_of "/a/b")) Read] None in
  let granted := mkPermissions [mkEntry (Path (path_of "/a")) Write] None in
  let both := intersect_permission_profiles (H := worktree_os) (fun _ => Err [])
                (mkAdditional None (Some requested)) (mkAdditional None (Some granted)) W in
  both = Some (mkAdditional None (Some granted)) /\
  can_write_path_with_cwd (H := worktree_os) (policy_from_permissions requested) (path_of "/a/b/x") W = false /\
  can_write_path_with_cwd (H := worktree_os) (policy_from_permissions granted) (path_of "/a/b/x") W = true.
Proof. vm_compute. done. Qed.

Lemma W_normalized : normalized W.
Proof. by exists [lit "w"]. Qed.

Lemma intersection_reads_within_witness :
  let requested := mkPermissions [mkEntry (Path (path_of "/a")) Read; mkEntry (Path (path_of "/a/secret")) Deny] None in
  let granted := mkPermissions [mkEntry (Special Root) Read; mkEntry (Path (path_of "/a")) Read] None in
  can_read_path_with_cwd (H := worktree_os) (restricted (perm_entries requested)) (path_of "/a/b") W = true.
Proof.
  intros requested granted.
  assert (E : exists r, intersect_file_systems (H := worktree_os) (fun _ => Err []) requested granted W = Some r /\
    can_read_path_with_cwd (H := worktree_os) (restricted (perm_entries r)) (path_of "/a/b") W = true).
  { eexists. split; vm_compute; reflexivity. }
  destruct E as (r & Hr & Hread).
  refine (proj1 (intersection_reads_within (Ho := worktree_os) W W_normalized (fun _ => Err []) requested granted r Hr _ (path_of "/a/b") _ Hread)).
  - repeat constructor. by exists [lit "a"].
  - by exists [lit "a"; lit "b"].
Defined.

Lemma effective_policy_keeps_denials_witness :
  resolve_access_with_cwd (H := worktree_os)
    (effective_file_system_sandbox_policy sample
       (Some (mkAdditional None (Some (mkPermissions [mkEntry (Path (path_of "/w/secret")) Write] None)))))
    (path_of "/w/secret") W = Deny.
Proof.
  eapply (effective_policy_keeps_denials (Ho := worktree_os) W sample _ _ (mkEntry (Path (path_of "/w/secret")) Deny) (path_of "/w/secret"));
    [apply W_normalized|reflexivity|reflexivity| |reflexivity|reflexivity|by exists [lit "w"; lit "secret"]].
  left. by do 3 right; left.
Defined.

End ProfilesFacts.
