(* ===== verification/NetworkPolicy.v ===== *)
(** Hosts and domain patterns of the network proxy ([network-proxy/src/policy.rs]):
    normalising hosts, telling public addresses from the others, and domain patterns.
    The reading and the classes of IP addresses are those of [std::net]; compiling
    globs (globset) and parsing hosts of URLs (url) are the class [DomainLib]. *)

From stdpp Require Import base list option numbers strings.
From S2P Require Import Prelude RustStr.

Module NetworkPolicy.

Open Scope rust_scope.

(** ** Libraries *)

(** An [anyhow::Error]: a message, with the value it quotes, and the contexts put on it. *)
Inductive Error :=
| Msg (text : str)
| MsgFor (text value : str)
| InContext (context : str) (e : Error)
| InContextFor (context value : str) (e : Error).

(** globset (a case-insensitive glob, and a set of globs) and the hosts of url. *)
Class DomainLib := {
  glob_new : str -> option (str -> bool);
  globset_new : list (str -> bool) -> option (str -> bool);
  url_host_parse : str -> option str }.

(** ** [std::net] *)

(** The four bytes, and the eight 16-bit segments. *)
Inductive IpAddr :=
| V4 (a b c d : N)
| V6 (segments : list N).

Definition digit_value (radix : N) (c : char) : option N :=
  let v :=
    if is_ascii_digit c then Some (c - 48)%N
    else if ((97 <=? c) && (c <=? 102))%N then Some (c - 87)%N
    else if ((65 <=? c) && (c <=? 70))%N then Some (c - 55)%N
    else None in
  match v with Some v => if (v <? radix)%N then Some v else None | None => None end.

(** The digits at the front of [s], and the text after them. *)
Fixpoint read_digits (radix : N) (s : str) : list N * str :=
  match s with
  | c :: s' => match digit_value radix c with Some v => let (ds, rest) := read_digits radix s' in (v :: ds, rest) | None => ([], s) end
  | [] => ([], [])
  end.

Definition digits_value (radix : N) (ds : list N) : N := fold_left (fun acc d => acc * radix + d)%N ds 0%N.

(** [read_number]: at most [max_digits] digits, and a value below [bound]. *)
Definition read_number (radix bound : N) (max_digits : nat) (allow_zero_prefix : bool) (s : str) : option (N * str) :=
  let (ds, rest) := read_digits radix s in
  if is_empty ds || (max_digits <? length ds) then None
  else if (bound <=? digits_value radix ds)%N then None
  else if negb allow_zero_prefix && (1 <? length ds) && match ds with d :: _ => (d =? 0)%N | [] => false end then None
  else Some (digits_value radix ds, rest).

Definition read_given_char (c : char) (s : str) : option str :=
  match s with x :: s' => if (x =? c)%N then Some s' else None | [] => None end.

(** [read_separator]: the separator comes before every item but the first. *)
Definition read_separator {A} (sep : char) (first : bool) (inner : str -> option (A * str)) (s : str) : option (A * str) :=
  if first then inner s else match read_given_char sep s with Some s' => inner s' | None => None end.

Definition DOT : char := 46.
Definition COLON : char := 58.

Definition read_octet : str -> option (N * str) := read_number 10 256 3 false.

Definition read_ipv4_addr (s : str) : option (N * N * N * N * str) :=
  match read_octet s with
  | None => None
  | Some (a, s) =>
      match read_separator DOT false read_octet s with
      | None => None
      | Some (b, s) =>
          match read_separator DOT false read_octet s with
          | None => None
          | Some (c, s) =>
              match read_separator DOT false read_octet s with
              | None => None
              | Some (d, s) => Some (a, b, c, d, s)
              end
          end
      end
  end.

(** [read_groups]: up to [limit] groups, an IPv4 tail counting as two; whether there was
    one, and the text after them. *)
Fixpoint read_groups (limit : nat) (first : bool) (s : str) : list N * bool * str :=
  match limit with
  | O => ([], false, s)
  | S limit' =>
      let ipv4 := if is_some (match limit' with O => None | S _ => Some tt end)
                  then read_separator COLON first (fun s => match read_ipv4_addr s with
                                                            | Some (a, b, c, d, s) => Some ((a, b, c, d), s)
                                                            | None => None
                                                            end) s
                  else None in
      match ipv4 with
      | Some ((a, b, c, d), s) => ([a * 256 + b; c * 256 + d]%N, true, s)
      | None =>
          match read_separator COLON first (read_number 16 65536 4 true) s with
          | Some (g, s) => let '(gs, v4, s) := read_groups limit' false s in (g :: gs, v4, s)
          | None => ([], false, s)
          end
      end
  end.

Definition read_ipv6_addr (s : str) : option (list N * str) :=
  let '(head, head_ipv4, s) := read_groups 8 true s in
  if length head =? 8 then Some (head, s)
  else if head_ipv4 then None
  else match read_given_char COLON s ≫= read_given_char COLON with
       | None => None
       | Some s =>
           let '(tail, _, s) := read_groups (8 - (length head + 1)) true s in
           Some (head ++ replicate (8 - length head - length tail) 0%N ++ tail, s)
       end.

(** [str::parse::<IpAddr>]: the whole text is read. *)
Definition parse_ip (s : str) : option IpAddr :=
  match read_ipv4_addr s with
  | Some (a, b, c, d, []) => Some (V4 a b c d)
  | Some _ => None
  | None => match read_ipv6_addr s with Some (segments, []) => Some (V6 segments) | _ => None end
  end.

Definition ipv4_is_loopback (a : N) : bool := (a =? 127)%N.
Definition ipv4_is_private (a b : N) : bool :=
  ((a =? 10) || ((a =? 172) && (16 <=? b) && (b <=? 31)) || ((a =? 192) && (b =? 168)))%N.
Definition ipv4_is_link_local (a b : N) : bool := ((a =? 169) && (b =? 254))%N.
Definition ipv4_is_unspecified (a b c d : N) : bool := ((a =? 0) && (b =? 0) && (c =? 0) && (d =? 0))%N.
Definition ipv4_is_multicast (a : N) : bool := ((224 <=? a) && (a <=? 239))%N.
Definition ipv4_is_broadcast (a b c d : N) : bool := ((a =? 255) && (b =? 255) && (c =? 255) && (d =? 255))%N.

Definition u32_of (a b c d : N) : N := (((a * 256 + b) * 256 + c) * 256 + d)%N.

Definition ipv6_is_loopback (segs : list N) : bool := segs == [0; 0; 0; 0; 0; 0; 0; 1]%N.
Definition ipv6_is_unspecified (segs : list N) : bool := segs == [0; 0; 0; 0; 0; 0; 0; 0]%N.
Definition segment0 (segs : list N) : N := match segs with s :: _ => s | [] => 0 end%N.
Definition ipv6_is_multicast (segs : list N) : bool := (N.land (segment0 segs) 65280 =? 65280)%N.
Definition ipv6_is_unique_local (segs : list N) : bool := (N.land (segment0 segs) 65024 =? 64512)%N.
Definition ipv6_is_unicast_link_local (segs : list N) : bool := (N.land (segment0 segs) 65472 =? 65152)%N.

(** [to_ipv4]: IPv4-compatible and IPv4-mapped addresses. *)
Definition ipv6_to_ipv4 (segs : list N) : option (N * N * N * N) :=
  match segs with
  | [0; 0; 0; 0; 0; x; ab; cd]%N =>
      if ((x =? 0) || (x =? 65535))%N then Some (ab / 256, ab mod 256, cd / 256, cd mod 256)%N else None
  | _ => None
  end.

Definition is_loopback (ip : IpAddr) : bool :=
  match ip with V4 a _ _ _ => ipv4_is_loopback a | V6 segs => ipv6_is_loopback segs end.

(** ** policy.rs: addresses *)

Definition u32_max : N := 4294967295.

(** [u32::MAX << n], cut off at 32 bits. *)
Definition mask_of (prefix : N) : N := if (prefix =? 0)%N then 0%N else N.land (N.shiftl u32_max (32 - prefix)%N) u32_max.

Definition ipv4_in_cidr (ip base prefix : N) : bool := (N.land ip (mask_of prefix) =? N.land base (mask_of prefix))%N.

Definition is_non_public_ipv4 (a b c d : N) : bool :=
  let ip := u32_of a b c d in
  ipv4_is_loopback a || ipv4_is_private a b || ipv4_is_link_local a b || ipv4_is_unspecified a b c d
  || ipv4_is_multicast a || ipv4_is_broadcast a b c d
  || ipv4_in_cidr ip (u32_of 0 0 0 0) 8
  || ipv4_in_cidr ip (u32_of 100 64 0 0) 10
  || ipv4_in_cidr ip (u32_of 192 0 0 0) 24
  || ipv4_in_cidr ip (u32_of 192 0 2 0) 24
  || ipv4_in_cidr ip (u32_of 198 18 0 0) 15
  || ipv4_in_cidr ip (u32_of 198 51 100 0) 24
  || ipv4_in_cidr ip (u32_of 203 0 113 0) 24
  || ipv4_in_cidr ip (u32_of 240 0 0 0) 4.

Definition is_non_public_ipv6 (segs : list N) : bool :=
  match ipv6_to_ipv4 segs with
  | Some (a, b, c, d) => is_non_public_ipv4 a b c d || ipv6_is_loopback segs
  | None =>
      ipv6_is_loopback segs || ipv6_is_unspecified segs || ipv6_is_multicast segs || ipv6_is_unique_local segs
      || ipv6_is_unicast_link_local segs
  end.

Definition is_non_public_ip (ip : IpAddr) : bool :=
  match ip with V4 a b c d => is_non_public_ipv4 a b c d | V6 segs => is_non_public_ipv6 segs end.

(** ** policy.rs: hosts *)

Definition PERCENT : char := 37.
Definition LBRACKET : char := 91.
Definition RBRACKET : char := 93.

Definition unscoped_ip_literal (host : str) : option str :=
  match split_once [PERCENT] host with
  | None => None
  | Some (ip, _) => if is_some (parse_ip ip) then Some ip else None
  end.

(** The scope after [delimiter], if an address is before it. *)
Definition scoped (host : str) (delimiter : str) : option str :=
  match split_once delimiter host with
  | Some (ip, scope) => if is_some (parse_ip ip) then Some (ip ++ [PERCENT] ++ scope) else None
  | None => None
  end.

Definition normalize_ip_literal (host : str) : option str :=
  if is_some (parse_ip host) then Some host
  else match scoped host (lit "%25") with
       | Some r => Some r
       | None => scoped host [PERCENT]
       end.

Definition trim_dots (s : str) : str := trim_end_by (fun c => (c =? DOT)%N) s.

Definition normalize_dns_host_or_ip_literal (host : str) : str :=
  let host := trim_dots (to_ascii_lowercase host) in
  default host (normalize_ip_literal host).

Definition count_char (c : char) (s : str) : nat := length (List.filter (fun x => (x =? c)%N) s).

Definition normalize_host (host : str) : str :=
  let host := trim host in
  match (match host with
         | b :: rest => if (b =? LBRACKET)%N then option_map fst (split_once [RBRACKET] rest) else None
         | [] => None
         end) with
  | Some inner => normalize_dns_host_or_ip_literal inner
  | None =>
      if count_char COLON host =? 1 then normalize_dns_host_or_ip_literal (default [] (head (split_on COLON host)))
      else normalize_dns_host_or_ip_literal host
  end.

(** [Host::parse]. *)
Definition host_parse (input : str) : result str Error :=
  let normalized := normalize_host input in
  if is_empty normalized then Err (Msg (lit "host is empty")) else Ok normalized.

Definition is_loopback_host (host : str) : bool :=
  let host := default host (unscoped_ip_literal host) in
  if host == lit "localhost" then true
  else match parse_ip host with Some ip => is_loopback ip | None => false end.

(** ** policy.rs: domain patterns *)

Inductive DomainPattern :=
| ApexAndSubdomains (domain : str)
| SubdomainsOnly (domain : str)
| Exact (domain : str).

Definition parse_domain (domain : str) (build : str -> DomainPattern) : DomainPattern :=
  let domain := trim domain in
  if is_empty domain then Exact [] else build domain.

Definition pattern_parse (input : str) : DomainPattern :=
  let input := trim input in
  if is_empty input then Exact []
  else match strip_prefix (lit "**.") input with
       | Some domain => parse_domain domain ApexAndSubdomains
       | None =>
           match strip_prefix (lit "*.") input with
           | Some domain => parse_domain domain SubdomainsOnly
           | None => Exact input
           end
       end.

Definition expand_domain_pattern (pattern : str) : list str :=
  match pattern_parse pattern with
  | Exact domain => [domain]
  | SubdomainsOnly domain => [lit "?*." ++ domain]
  | ApexAndSubdomains domain => [domain; lit "?*." ++ domain]
  end.

Definition normalize_pattern (pattern : str) : str :=
  let pattern := trim pattern in
  if pattern == lit "*" then lit "*"
  else match strip_prefix (lit "**.") pattern with
       | Some domain => lit "**." ++ normalize_host domain
       | None =>
           match strip_prefix (lit "*.") pattern with
           | Some domain => lit "*." ++ normalize_host domain
           | None => normalize_host pattern
           end
       end.

Definition is_global_wildcard_domain_pattern (pattern : str) : bool :=
  existsb (fun candidate => candidate == lit "*") (expand_domain_pattern (normalize_pattern pattern)).

Definition normalize_domain (domain : str) : str := to_ascii_lowercase (trim_dots domain).

Definition domain_eq (l r : str) : bool := normalize_domain l == normalize_domain r.

Definition is_subdomain_or_equal (child parent : str) : bool :=
  let child := normalize_domain child in
  let parent := normalize_domain parent in
  if child == parent then true else ends_with (DOT :: parent) child.

Definition is_strict_subdomain (child parent : str) : bool :=
  let child := normalize_domain child in
  let parent := normalize_domain parent in
  negb (child == parent) && ends_with (DOT :: parent) child.

Definition allows (self candidate : DomainPattern) : bool :=
  match self, candidate with
  | Exact domain, Exact candidate => domain_eq candidate domain
  | Exact _, _ => false
  | SubdomainsOnly domain, Exact candidate => is_strict_subdomain candidate domain
  | SubdomainsOnly domain, SubdomainsOnly candidate => is_subdomain_or_equal candidate domain
  | SubdomainsOnly domain, ApexAndSubdomains candidate => is_strict_subdomain candidate domain
  | ApexAndSubdomains domain, Exact candidate => is_subdomain_or_equal candidate domain
  | ApexAndSubdomains domain, SubdomainsOnly candidate => is_subdomain_or_equal candidate domain
  | ApexAndSubdomains domain, ApexAndSubdomains candidate => is_subdomain_or_equal candidate domain
  end.

Section libraries.
Context `{DomainLib}.

Definition parse_domain_for_constraints (domain : str) : str :=
  let domain := trim_dots (trim domain) in
  if is_empty domain then []
  else
    let host :=
      if starts_with [LBRACKET] domain && ends_with [RBRACKET] domain then firstn (length domain - 2) (skipn 1 domain) else domain in
    if contains_char 42 host || contains_char 63 host || contains_char PERCENT host then domain
    else default [] (url_host_parse host).

Definition parse_for_constraints (input : str) : DomainPattern :=
  let input := trim input in
  if is_empty input then Exact []
  else match strip_prefix (lit "**.") input with
       | Some domain => ApexAndSubdomains (parse_domain_for_constraints domain)
       | None =>
           match strip_prefix (lit "*.") input with
           | Some domain => SubdomainsOnly (parse_domain_for_constraints domain)
           | None => Exact (parse_domain_for_constraints input)
           end
       end.

Inductive GlobalWildcard := WildcardAllow | WildcardReject.

(** The candidates of one pattern that were not seen before, compiled. *)
Fixpoint add_candidates (candidates seen : list str) (globs : list (str -> bool))
    : result (list str * list (str -> bool)) Error :=
  match candidates with
  | [] => Ok (seen, globs)
  | candidate :: candidates =>
      if existsb (fun s => s == candidate) seen then add_candidates candidates seen globs
      else match glob_new candidate with
           | None => Err (MsgFor (lit "invalid glob pattern") candidate)
           | Some glob => add_candidates candidates (candidate :: seen) (globs ++ [glob])
           end
  end.

Definition global_wildcard_error : Error :=
  Msg (lit "unsupported global wildcard domain pattern; use exact hosts or scoped wildcards like *.example.com or **.example.com").

Fixpoint compile_patterns (global_wildcard : GlobalWildcard) (patterns seen : list str) (globs : list (str -> bool))
    : result (list (str -> bool)) Error :=
  match patterns with
  | [] => Ok globs
  | pattern :: patterns =>
      if match global_wildcard with WildcardReject => is_global_wildcard_domain_pattern pattern | WildcardAllow => false end
      then Err global_wildcard_error
      else match add_candidates (expand_domain_pattern (normalize_pattern pattern)) seen globs with
           | Err e => Err e
           | Ok (seen, globs) => compile_patterns global_wildcard patterns seen globs
           end
  end.

Definition compile_globset_with_policy (patterns : list str) (global_wildcard : GlobalWildcard) : result (str -> bool) Error :=
  let? globs := compile_patterns global_wildcard patterns [] [] in
  match globset_new globs with Some set => Ok set | None => Err (Msg (lit "globset")) end.

Definition compile_allowlist_globset (patterns : list str) : result (str -> bool) Error :=
  compile_globset_with_policy patterns WildcardAllow.

Definition compile_denylist_globset (patterns : list str) : result (str -> bool) Error :=
  compile_globset_with_policy patterns WildcardReject.

End libraries.

(** A few addresses. *)
Example parse_ip_examples :
  parse_ip (lit "10.0.0.1") = Some (V4 10 0 0 1) /\ parse_ip (lit "10.0.0.01") = None /\
  parse_ip (lit "::1") = Some (V6 [0; 0; 0; 0; 0; 0; 0; 1]%N) /\
  parse_ip (lit "::ffff:127.0.0.1") = Some (V6 [0; 0; 0; 0; 0; 65535; 32512; 1]%N) /\
  parse_ip (lit "fe80::1:2") = Some (V6 [65152; 0; 0; 0; 0; 0; 1; 2]%N) /\
  parse_ip (lit "1:2:3:4:5:6:7:8") = Some (V6 [1; 2; 3; 4; 5; 6; 7; 8]%N) /\
  parse_ip (lit "1:2:3:4:5:6:7::") = Some (V6 [1; 2; 3; 4; 5; 6; 7; 0]%N) /\
  parse_ip (lit "1::2::3") = None /\ parse_ip (lit "1.2.3") = None /\ parse_ip (lit "12345::") = None.
Proof. vm_compute. done. Qed.

Example normalize_host_examples :
  normalize_host (lit " Example.COM.:443 ") = lit "example.com" /\
  normalize_host (lit "[FE80::1%25en0]:80") = lit "fe80::1%en0" /\
  normalize_host (lit "2001:db8::1") = lit "2001:db8::1".
Proof. vm_compute. done. Qed.

End NetworkPolicy.
