(* ===== verification/NetworkConfig.v ===== *)
(** Settings of the network proxy ([network-proxy/src/config.rs], and the hook settings of
    [mitm_hook.rs]): domain and unix socket permissions, the network mode, and the
    addresses the proxy listens on.  Parsing URLs is a parameter; JSON values are only
    passed along. *)

From stdpp Require Import base list option numbers gmap strings.
From S2P Require Import Prelude RustStr ShellTree AbsolutePath Invocation NetworkPolicy.

Module NetworkConfig.
Import NetworkPolicy.

Open Scope rust_scope.

(** ** Errors *)

(** The first error of a loop over a list. *)
Fixpoint try_each {A E} (f : A -> result unit E) (l : list A) : result unit E :=
  match l with
  | [] => Ok tt
  | x :: l => match f x with Ok _ => try_each f l | Err e => Err e end
  end.

Fixpoint try_map {A B E} (f : A -> result B E) (l : list A) : result (list B) E :=
  match l with
  | [] => Ok []
  | x :: l =>
      match f x with
      | Err e => Err e
      | Ok y => match try_map f l with Ok ys => Ok (y :: ys) | Err e => Err e end
      end
  end.

(** ** [BTreeMap<String, _>] as its ascending entries *)

Fixpoint bmap_insert {A} (k : str) (v : A) (m : list (str * A)) : list (str * A) :=
  match m with
  | [] => [(k, v)]
  | (k', v') :: m' =>
      match str_compare k k' with
      | Lt => (k, v) :: m
      | Eq => (k, v) :: m'
      | Gt => (k', v') :: bmap_insert k v m'
      end
  end.

Definition bmap_get {A} (k : str) (m : list (str * A)) : option A :=
  option_map snd (find_first (fun e => k == e.1) m).

Definition bmap_collect {A} (l : list (str * A)) : list (str * A) :=
  fold_left (fun m e => bmap_insert e.1 e.2 m) l [].

(** ** Domain permissions *)

Inductive NetworkDomainPermission := DomainNone | DomainAllow | DomainDeny.

#[export] Instance domain_permission_eq_dec : EqDecision NetworkDomainPermission.
Proof. solve_decision. Defined.

(** The derived order. *)
Definition permission_rank (p : NetworkDomainPermission) : nat :=
  match p with DomainNone => 0 | DomainAllow => 1 | DomainDeny => 2 end.

Record NetworkDomainPermissionEntry := mkDomainEntry { pattern : str; permission : NetworkDomainPermission }.

#[export] Instance domain_entry_eq_dec : EqDecision NetworkDomainPermissionEntry.
Proof. solve_decision. Defined.

Notation NetworkDomainPermissions := (list NetworkDomainPermissionEntry) (only parsing).

(** One pass of the loop: the patterns in the order of their first entry, and the
    strongest permission of each. *)
Definition effective_step (acc : list str * gmap str NetworkDomainPermission) (entry : NetworkDomainPermissionEntry)
    : list str * gmap str NetworkDomainPermission :=
  let '(order, effective) := acc in
  match effective !! pattern entry with
  | None => (order ++ [pattern entry], <[pattern entry := permission entry]> effective)
  | Some current =>
      (order,
       if permission_rank current <? permission_rank (permission entry)
       then <[pattern entry := permission entry]> effective
       else effective)
  end.

(** Each pattern of [order] with its permission, which is removed from the map. *)
Fixpoint take_in_order (order : list str) (effective : gmap str NetworkDomainPermission) : NetworkDomainPermissions :=
  match order with
  | [] => []
  | p :: order =>
      match effective !! p with
      | Some perm => mkDomainEntry p perm :: take_in_order order (delete p effective)
      | None => take_in_order order effective
      end
  end.

Definition effective_entries (entries : NetworkDomainPermissions) : NetworkDomainPermissions :=
  let '(order, effective) := fold_left effective_step entries ([], ∅) in
  take_in_order order effective.

(** [Serialize] and [Deserialize], by way of a [BTreeMap]. *)
Definition serialize_domains (entries : NetworkDomainPermissions) : list (str * NetworkDomainPermission) :=
  bmap_collect (List.map (fun e => (pattern e, permission e)) (effective_entries entries)).

Definition deserialize_domains (m : list (str * NetworkDomainPermission)) : NetworkDomainPermissions :=
  List.map (fun e => mkDomainEntry e.1 e.2) m.

(** ** Unix sockets, modes *)

Inductive NetworkUnixSocketPermission := SocketAllow | SocketDeny.

#[export] Instance socket_permission_eq_dec : EqDecision NetworkUnixSocketPermission.
Proof. solve_decision. Defined.

Notation NetworkUnixSocketPermissions := (list (str * NetworkUnixSocketPermission)) (only parsing).

Inductive NetworkMode := Limited | Full.

#[export] Instance network_mode_eq_dec : EqDecision NetworkMode.
Proof. solve_decision. Defined.

Definition allows_method (mode : NetworkMode) (method : str) : bool :=
  match mode with
  | Full => true
  | Limited => (method == lit "GET") || (method == lit "HEAD") || (method == lit "OPTIONS")
  end.

(** ** Settings *)

Record InjectedHeaderConfig := mkInjectedHeader {
  header_name : str;
  secret_env_var : option str;
  secret_file : option str;
  header_prefix : option str }.

#[export] Instance injected_header_eq_dec : EqDecision InjectedHeaderConfig.
Proof. solve_decision. Defined.

Record MitmHookActionsConfig := mkActionsConfig {
  strip_request_headers : list str;
  inject_request_headers : list InjectedHeaderConfig }.

#[export] Instance actions_config_eq_dec : EqDecision MitmHookActionsConfig.
Proof. solve_decision. Defined.

Section settings.
Context {Json : Type}.

Record MitmHookMatchConfig := mkMatchConfig {
  methods : list str;
  path_prefixes : list str;
  query : list (str * list str);
  headers : list (str * list str);
  body : option Json }.

Record MitmHookConfig := mkHookConfig {
  hook_host : str;
  matcher : MitmHookMatchConfig;
  actions : MitmHookActionsConfig }.

Record NetworkProxySettings := mkSettings {
  enabled : bool;
  proxy_url : str;
  enable_socks5 : bool;
  socks_url : str;
  enable_socks5_udp : bool;
  allow_upstream_proxy : bool;
  dangerously_allow_non_loopback_proxy : bool;
  dangerously_allow_all_unix_sockets : bool;
  mode : NetworkMode;
  domains : option NetworkDomainPermissions;
  unix_sockets : option NetworkUnixSocketPermissions;
  allow_local_binding : bool;
  mitm : bool;
  credential_broker : bool;
  dangerously_allow_plaintext_credential_injection : bool;
  mitm_hooks : list MitmHookConfig }.

Record NetworkProxyConfig := mkConfig { network : NetworkProxySettings }.

#[export] Instance match_config_eq_dec `{EqDecision Json} : EqDecision MitmHookMatchConfig.
Proof. solve_decision. Defined.
#[export] Instance hook_config_eq_dec `{EqDecision Json} : EqDecision MitmHookConfig.
Proof. solve_decision. Defined.
#[export] Instance settings_eq_dec `{EqDecision Json} : EqDecision NetworkProxySettings.
Proof. solve_decision. Defined.
#[export] Instance config_eq_dec `{EqDecision Json} : EqDecision NetworkProxyConfig.
Proof. solve_decision. Defined.

Definition default_proxy_url : str := lit "http://127.0.0.1:3128".
Definition default_socks_url : str := lit "http://127.0.0.1:8081".

Definition default_settings : NetworkProxySettings := {|
  enabled := false;
  proxy_url := default_proxy_url;
  enable_socks5 := true;
  socks_url := default_socks_url;
  enable_socks5_udp := true;
  allow_upstream_proxy := true;
  dangerously_allow_non_loopback_proxy := false;
  dangerously_allow_all_unix_sockets := false;
  mode := Full;
  domains := None;
  unix_sockets := None;
  allow_local_binding := false;
  mitm := false;
  credential_broker := false;
  dangerously_allow_plaintext_credential_injection := false;
  mitm_hooks := [] |}.

(** The settings with one field changed. *)
Definition with_domains (s : NetworkProxySettings) (d : option NetworkDomainPermissions) : NetworkProxySettings :=
  mkSettings (enabled s) (proxy_url s) (enable_socks5 s) (socks_url s) (enable_socks5_udp s) (allow_upstream_proxy s)
    (dangerously_allow_non_loopback_proxy s) (dangerously_allow_all_unix_sockets s) (mode s) d (unix_sockets s)
    (allow_local_binding s) (mitm s) (credential_broker s) (dangerously_allow_plaintext_credential_injection s) (mitm_hooks s).

Definition with_unix_sockets (s : NetworkProxySettings) (u : option NetworkUnixSocketPermissions) : NetworkProxySettings :=
  mkSettings (enabled s) (proxy_url s) (enable_socks5 s) (socks_url s) (enable_socks5_udp s) (allow_upstream_proxy s)
    (dangerously_allow_non_loopback_proxy s) (dangerously_allow_all_unix_sockets s) (mode s) (domains s) u
    (allow_local_binding s) (mitm s) (credential_broker s) (dangerously_allow_plaintext_credential_injection s) (mitm_hooks s).

Definition with_mode (s : NetworkProxySettings) (m : NetworkMode) : NetworkProxySettings :=
  mkSettings (enabled s) (proxy_url s) (enable_socks5 s) (socks_url s) (enable_socks5_udp s) (allow_upstream_proxy s)
    (dangerously_allow_non_loopback_proxy s) (dangerously_allow_all_unix_sockets s) m (domains s) (unix_sockets s)
    (allow_local_binding s) (mitm s) (credential_broker s) (dangerously_allow_plaintext_credential_injection s) (mitm_hooks s).

Definition set_credential_broker_enabled (c : NetworkProxyConfig) (on : bool) : NetworkProxyConfig :=
  let s := network c in
  mkConfig (mkSettings (enabled s) (proxy_url s) (enable_socks5 s) (socks_url s) (enable_socks5_udp s)
    (allow_upstream_proxy s) (dangerously_allow_non_loopback_proxy s) (dangerously_allow_all_unix_sockets s) (mode s)
    (domains s) (unix_sockets s) (allow_local_binding s) (mitm s || on) on
    (dangerously_allow_plaintext_credential_injection s) (mitm_hooks s)).

(** [Option::filter] on a list that is not empty. *)
Definition non_empty {A} (l : list A) : option (list A) := if is_empty l then None else Some l.

Definition domain_entries (s : NetworkProxySettings) (p : NetworkDomainPermission) : option (list str) :=
  match domains s with
  | None => None
  | Some d => non_empty (List.map pattern (List.filter (fun e => permission e == p) (effective_entries d)))
  end.

Definition allowed_domains (s : NetworkProxySettings) : option (list str) := domain_entries s DomainAllow.
Definition denied_domains (s : NetworkProxySettings) : option (list str) := domain_entries s DomainDeny.

Definition allow_unix_sockets (s : NetworkProxySettings) : list str :=
  match unix_sockets s with
  | None => []
  | Some u => List.map fst (List.filter (fun e => e.2 == SocketAllow) u)
  end.

Definition upsert_domain_permission (s : NetworkProxySettings) (host : str) (p : NetworkDomainPermission)
    (normalize : str -> str) : NetworkProxySettings :=
  let d := default [] (domains s) in
  let normalized_host := normalize host in
  let kept := List.filter (fun entry => negb (normalize (pattern entry) == normalized_host)) d in
  with_domains s (non_empty (kept ++ [mkDomainEntry host p])).

Definition push_domain_entry (p : NetworkDomainPermission) (d : NetworkDomainPermissions) (entry : str) : NetworkDomainPermissions :=
  if existsb (fun existing => (pattern existing == entry) && (permission existing == p)) d then d
  else d ++ [mkDomainEntry entry p].

Definition set_domain_entries (s : NetworkProxySettings) (entries : list str) (p : NetworkDomainPermission) : NetworkProxySettings :=
  let d := default [] (domains s) in
  let kept := List.filter (fun entry => negb (permission entry == p)) d in
  with_domains s (non_empty (fold_left (push_domain_entry p) entries kept)).

Definition set_allowed_domains (s : NetworkProxySettings) (l : list str) : NetworkProxySettings := set_domain_entries s l DomainAllow.
Definition set_denied_domains (s : NetworkProxySettings) (l : list str) : NetworkProxySettings := set_domain_entries s l DomainDeny.

Definition set_unix_socket_entries (s : NetworkProxySettings) (entries : list str) (p : NetworkUnixSocketPermission)
    : NetworkProxySettings :=
  let u := default [] (unix_sockets s) in
  let kept := List.filter (fun e => negb (e.2 == p)) u in
  with_unix_sockets s (non_empty (fold_left (fun m entry => bmap_insert entry p m) entries kept)).

Definition set_allow_unix_sockets (s : NetworkProxySettings) (l : list str) : NetworkProxySettings :=
  set_unix_socket_entries s l SocketAllow.

(** ** Listening addresses *)

Record SocketAddr := mkAddr { ip : IpAddr; port : N }.

Definition loopback_addr (port : N) : SocketAddr := mkAddr (V4 127 0 0 1) port.

Definition clamp_non_loopback (addr : SocketAddr) (allow_non_loopback : bool) : SocketAddr :=
  if is_loopback (ip addr) then addr
  else if allow_non_loopback then addr
  else loopback_addr (port addr).

Definition clamp_bind_addrs (http_addr socks_addr : SocketAddr) (cfg : NetworkProxySettings) : SocketAddr * SocketAddr :=
  let http_addr := clamp_non_loopback http_addr (dangerously_allow_non_loopback_proxy cfg) in
  let socks_addr := clamp_non_loopback socks_addr (dangerously_allow_non_loopback_proxy cfg) in
  if is_empty (allow_unix_sockets cfg) && negb (dangerously_allow_all_unix_sockets cfg) then (http_addr, socks_addr)
  else (loopback_addr (port http_addr), loopback_addr (port socks_addr)).

End settings.

Arguments MitmHookMatchConfig : clear implicits.
Arguments MitmHookConfig : clear implicits.
Arguments NetworkProxySettings : clear implicits.
Arguments NetworkProxyConfig : clear implicits.

(** ** Unix socket paths *)

Inductive ValidatedUnixSocketPath :=
| Native (path : list Shell.Component)
| UnixStyleAbsolute (path : str).

Section os.
Context `{AbsolutePath.Os} {Json : Type}.

Definition socket_path_parse (socket_path : str) : result ValidatedUnixSocketPath Error :=
  let path := Shell.components socket_path in
  if AbsolutePath.is_absolute path then
    match AbsolutePath.from_absolute_path path with
    | Some path => Ok (Native path)
    | None => Err (InContextFor (lit "failed to normalize unix socket path") socket_path (Msg (lit "current directory")))
    end
  else if starts_with [Shell.SLASH] socket_path then Ok (UnixStyleAbsolute socket_path)
  else Err (MsgFor (lit "expected an absolute path") socket_path).

Definition enumerate {A} (l : list A) : list (nat * A) := combine (seq 0 (length l)) l.

Definition validate_unix_socket_allowlist_paths (cfg : NetworkProxyConfig Json) : result unit Error :=
  try_each (fun '(index, socket_path) =>
      match socket_path_parse socket_path with
      | Ok _ => Ok tt
      | Err e => Err (InContext (lit "invalid network.allow_unix_sockets[" ++ show_nat index ++ lit "]") e)
      end)
    (enumerate (allow_unix_sockets (network cfg))).

End os.

(** ** Addresses in the settings *)

Record SocketAddressParts := mkParts { part_host : str; part_port : N }.

(** [str::parse::<u16>]: a leading plus sign is accepted. *)
Definition parse_u16 (s : str) : option N :=
  let digits := match s with 43%N :: rest => rest | _ => s end in
  match read_digits 10 digits with
  | (_ :: _ as ds, []) => if (digits_value 10 ds <? 65536)%N then Some (digits_value 10 ds) else None
  | _ => None
  end.

Definition missing_host (input : str) : Error := MsgFor (lit "missing host in network proxy address") input.

Definition parse_host_port_fallback (input : str) (default_port : N) : result SocketAddressParts Error :=
  let without_scheme := match split_once (lit "://") input with Some (_, rest) => rest | None => input end in
  let host_port := default without_scheme (head (split_on Shell.SLASH without_scheme)) in
  let host_port := match Invocation.rsplit_once 64 host_port with Some (_, rest) => rest | None => host_port end in
  match (match host_port with
         | b :: rest => if (b =? LBRACKET)%N then split_once [RBRACKET] rest else None
         | [] => None
         end) with
  | Some (host, after) =>
      let port := default default_port (strip_prefix [COLON] after ≫= parse_u16) in
      if is_empty host then Err (missing_host input) else Ok (mkParts host port)
  | None =>
      match (if count_char COLON host_port =? 1 then Invocation.rsplit_once COLON host_port else None) with
      | Some (host, port) =>
          if is_empty host then Err (missing_host input)
          else Ok (mkParts host (default default_port (parse_u16 port)))
      | None => if is_empty host_port then Err (missing_host input) else Ok (mkParts host_port default_port)
      end
  end.

(** [str::trim_matches]. *)
Definition trim_matches (p : char -> bool) (s : str) : str := trim_end_by p (trim_start_by p s).

Section url.

(** [Url::parse] with [host_str] and [port] of its result. *)
Context (url_parse : str -> option (option str * option N)).

Definition is_v6 (s : str) : bool := match parse_ip s with Some (V6 _) => true | _ => false end.

Definition parse_host_port (url : str) (default_port : N) : result SocketAddressParts Error :=
  let trimmed := trim url in
  if is_empty trimmed then Err (missing_host url)
  else if is_v6 trimmed && negb (starts_with [LBRACKET] trimmed) then Ok (mkParts trimmed default_port)
  else
    let candidate := if contains (lit "://") trimmed then trimmed else lit "http://" ++ trimmed in
    match url_parse candidate with
    | Some (Some host, port) =>
        let host := trim_matches (fun c => (c =? LBRACKET)%N || (c =? RBRACKET)%N) host in
        if is_empty host then Err (missing_host url) else Ok (mkParts host (default default_port port))
    | _ => parse_host_port_fallback trimmed default_port
    end.

Definition resolve_addr (url : str) (default_port : N) : result SocketAddr Error :=
  let? parts := parse_host_port url default_port in
  let host := if eq_ignore_ascii_case (part_host parts) (lit "localhost") then lit "127.0.0.1" else part_host parts in
  match parse_ip host with
  | Some ip => Ok (mkAddr ip (part_port parts))
  | None => Ok (loopback_addr (part_port parts))
  end.

Definition format_host_and_port (host : str) (port : N) : str :=
  if contains_char COLON host then [LBRACKET] ++ host ++ lit "]:" ++ show_N port
  else host ++ [COLON] ++ show_N port.

Definition host_and_port_from_network_addr (value : str) (default_port : N) : str :=
  let trimmed := trim value in
  if is_empty trimmed then lit "<missing>"
  else match parse_host_port trimmed default_port with
       | Err _ => format_host_and_port trimmed default_port
       | Ok parts => format_host_and_port (part_host parts) (part_port parts)
       end.

Record RuntimeConfig := mkRuntimeConfig { http_addr : SocketAddr; socks_addr : SocketAddr }.

Definition resolve_runtime `{AbsolutePath.Os} {Json} (cfg : NetworkProxyConfig Json) : result RuntimeConfig Error :=
  let? _ := validate_unix_socket_allowlist_paths cfg in
  let? http_addr := map_err (InContext (lit "invalid network.proxy_url: " ++ proxy_url (network cfg)))
                      (resolve_addr (proxy_url (network cfg)) 3128) in
  let? socks_addr := map_err (InContext (lit "invalid network.socks_url: " ++ socks_url (network cfg)))
                       (resolve_addr (socks_url (network cfg)) 8081) in
  let '(http_addr, socks_addr) := clamp_bind_addrs http_addr socks_addr (network cfg) in
  Ok (mkRuntimeConfig http_addr socks_addr).

End url.

End NetworkConfig.
