(* ===== verification/NetworkHooks.v ===== *)
(** Hooks on intercepted requests ([network-proxy/src/mitm_hook.rs]): validation and
    compilation of the configured hooks, and the choice of the hook for a request.  The
    HTTP, glob and URL libraries are the class [HttpLib].  The theorems are at the end. *)

From stdpp Require Import base list option numbers gmap strings.
From S2P Require Import Prelude RustStr ShellTree AbsolutePath NetworkPolicy NetworkConfig.

Module NetworkHooks.
Import NetworkPolicy NetworkConfig.

Open Scope rust_scope.

(** What the hooks use of the HTTP library (names and values of headers), of globset
    (compiling a glob, with or without [literal_separator]) and of [form_urlencoded]. *)
Class HttpLib := {
  HeaderValue : Type;
  header_name_from_bytes : str -> option str;
  header_value_from_str : str -> option HeaderValue;
  header_to_str : HeaderValue -> option str;
  glob_build : str -> bool -> option (str -> bool);
  form_urlencoded_parse : str -> list (str * str) }.

Definition PATTERN_PREFIX : str := lit "pattern:".
Definition LITERAL_PREFIX : str := lit "literal:".

Record CompiledGlobMatcher := mkGlob { glob_pattern : str; glob_is_match : str -> bool }.

Inductive PathMatcher := PathPrefix (prefix : str) | PathGlob (glob : CompiledGlobMatcher).
Inductive ValueMatcher := ValueExact (value : str) | ValueGlob (glob : CompiledGlobMatcher).
Inductive MatcherPattern := PatLiteral (literal : str) | PatGlob (glob : str).

Record QueryConstraint := mkQuery { query_name : str; query_values : list ValueMatcher }.
Record HeaderConstraint := mkHeader { constraint_name : str; header_values : list ValueMatcher }.

Inductive SecretSource := EnvVar (name : str) | SecretFile (path : list Shell.Component).

Section hooks.
Context `{HttpLib} `{AbsolutePath.Os} {Json : Type}.

Record ResolvedInjectedHeader := mkResolved { resolved_name : str; resolved_value : HeaderValue; source : SecretSource }.

Record MitmHookActions := mkActions { strip : list str; inject : list ResolvedInjectedHeader }.

Record MitmHookMatcher := mkMatcher {
  m_methods : list str;
  m_path_prefixes : list PathMatcher;
  m_query : list QueryConstraint;
  m_headers : list HeaderConstraint }.

Record MitmHook := mkHook { host : str; hook_matcher : MitmHookMatcher; hook_actions : MitmHookActions }.

Notation MitmHooksByHost := (list (str * list MitmHook)).

Inductive HookEvaluation := NoHooksForHost | Matched (actions : MitmHookActions) | HookedHostNoMatch.

Record Request := mkRequest { method : str; path : str; uri_query : option str; req_headers : list (str * HeaderValue) }.

(** ** Matchers *)

Definition path_matcher_matches (m : PathMatcher) (candidate : str) : bool :=
  match m with PathPrefix prefix => starts_with prefix candidate | PathGlob glob => glob_is_match glob candidate end.

Definition value_matches (m : ValueMatcher) (candidate : str) : bool :=
  match m with ValueExact value => value == candidate | ValueGlob glob => glob_is_match glob candidate end.

Definition parse_matcher_pattern (pattern : str) : result MatcherPattern Error :=
  match strip_prefix LITERAL_PREFIX pattern with
  | Some literal => Ok (PatLiteral literal)
  | None =>
      match strip_prefix PATTERN_PREFIX pattern with
      | None => Ok (PatLiteral pattern)
      | Some glob => if is_empty glob then Err (Msg (lit "glob pattern must not be empty")) else Ok (PatGlob glob)
      end
  end.

Definition compile_glob_matcher (pattern : str) (literal_separator : bool) : result CompiledGlobMatcher Error :=
  match glob_build pattern literal_separator with
  | Some matcher => Ok (mkGlob pattern matcher)
  | None => Err (MsgFor (lit "invalid glob pattern") pattern)
  end.

Definition compile_path_matchers : list str -> result (list PathMatcher) Error :=
  try_map (fun prefix =>
    let? p := parse_matcher_pattern prefix in
    match p with
    | PatLiteral prefix =>
        if is_empty prefix then Err (Msg (lit "path_prefixes must not contain empty entries")) else Ok (PathPrefix prefix)
    | PatGlob glob => let? g := compile_glob_matcher glob true in Ok (PathGlob g)
    end).

Definition compile_value_matchers : list str -> result (list ValueMatcher) Error :=
  try_map (fun value =>
    let? p := parse_matcher_pattern value in
    match p with
    | PatLiteral value => Ok (ValueExact value)
    | PatGlob glob => let? g := compile_glob_matcher glob false in Ok (ValueGlob g)
    end).

(** ** Normalisation *)

Definition normalize_hook_host (host : str) : result str Error :=
  let normalized := normalize_host host in
  if is_empty normalized then Err (Msg (lit "host must not be empty"))
  else if contains_char 42 normalized then
    Err (Msg (lit "MITM hook hosts must be exact hosts and cannot contain wildcards"))
  else Ok normalized.

Definition is_ascii_lowercase (c : char) : bool := ((97 <=? c) && (c <=? 122))%N.
Definition to_ascii_uppercase (s : str) : str := List.map (fun c => if is_ascii_lowercase c then (c - 32)%N else c) s.

Definition normalize_methods : list str -> result (list str) Error :=
  try_map (fun method =>
    let normalized := to_ascii_uppercase (trim method) in
    if is_empty normalized then Err (Msg (lit "methods must not contain empty entries")) else Ok normalized).

Definition normalize_query_name (name : str) : result str Error :=
  if is_empty name then Err (Msg (lit "query keys must not be empty")) else Ok name.

Definition parse_header_name (name : str) : result str Error :=
  match header_name_from_bytes name with
  | Some name => Ok name
  | None => Err (MsgFor (lit "invalid header name") name)
  end.

Definition parse_secret_file (path : str) : result (list Shell.Component) Error :=
  if is_empty (trim path) then Err (Msg (lit "secret_file must not be empty"))
  else
    let p := Shell.components path in
    if negb (AbsolutePath.is_absolute p) then Err (MsgFor (lit "secret_file must be an absolute path") path)
    else match AbsolutePath.from_absolute_path p with
         | Some p => Ok p
         | None => Err (MsgFor (lit "secret_file must be an absolute path") path)
         end.

(** ** Validation *)

Definition validate_query_constraints (query : list (str * list str)) : result unit Error :=
  try_each (fun '(name, values) =>
    let? normalized := normalize_query_name name in
    if is_empty normalized then Err (Msg (lit "query keys must not be empty"))
    else if is_empty values then Err (MsgFor (lit "query key must list at least one allowed value") name)
    else let? _ := map_err (InContextFor (lit "invalid matcher for query key") name) (compile_value_matchers values) in Ok tt) query.

Definition validate_header_constraints (headers : list (str * list str)) : result unit Error :=
  try_each (fun '(name, values) =>
    let? _ := parse_header_name name in
    let? _ := map_err (InContextFor (lit "invalid matcher for header") name) (compile_value_matchers values) in Ok tt) headers.

Definition validate_strip_request_headers (header_names : list str) : result unit Error :=
  try_each (fun name => let? _ := parse_header_name name in Ok tt) header_names.

Definition validate_injected_headers (headers : list InjectedHeaderConfig) : result unit Error :=
  try_each (fun header =>
    let? _ := parse_header_name (header_name header) in
    match secret_env_var header, secret_file header with
    | Some env_var, None =>
        if is_empty (trim env_var) then Err (Msg (lit "secret_env_var must not be empty")) else Ok tt
    | None, Some file => let? _ := parse_secret_file file in Ok tt
    | _, _ => Err (Msg (lit "expected exactly one of secret_env_var or secret_file"))
    end) headers.

Definition hook_field (index : nat) (field : str) : str := lit "network.mitm_hooks[" ++ show_nat index ++ lit "]" ++ field.

Definition validate_hook (index : nat) (hook : MitmHookConfig Json) : result unit Error :=
  let ctx := fun {A} (field : str) (r : result A Error) => map_err (InContext (lit "invalid " ++ hook_field index field)) r in
  let? host := ctx (lit ".host") (normalize_hook_host (hook_host hook)) in
  let? methods := ctx (lit ".match.methods") (normalize_methods (methods (matcher hook))) in
  if is_empty methods then Err (Msg (hook_field index (lit ".match.methods must not be empty")))
  else
    let? path_prefixes := ctx (lit ".match.path_prefixes") (compile_path_matchers (path_prefixes (matcher hook))) in
    if is_empty path_prefixes then Err (Msg (hook_field index (lit ".match.path_prefixes must not be empty")))
    else if is_some (body (matcher hook)) then
      Err (Msg (hook_field index (lit ".match.body is reserved for a future release and is not yet supported")))
    else
      let? _ := ctx (lit ".match.query") (validate_query_constraints (query (matcher hook))) in
      let? _ := ctx (lit ".match.headers") (validate_header_constraints (headers (matcher hook))) in
      let? _ := ctx (lit ".actions.strip_request_headers") (validate_strip_request_headers (strip_request_headers (actions hook))) in
      let? _ := ctx (lit ".actions.inject_request_headers") (validate_injected_headers (inject_request_headers (actions hook))) in
      if is_empty host then Err (Msg (hook_field index (lit ".host must not be empty"))) else Ok tt.

Definition validate_mitm_hook_config (config : NetworkProxyConfig Json) : result unit Error :=
  let hooks := mitm_hooks (network config) in
  if is_empty hooks then Ok tt
  else if negb (mitm (network config)) then Err (Msg (lit "network.mitm_hooks requires network.mitm = true"))
  else try_each (fun '(hook_index, hook) => validate_hook hook_index hook) (enumerate hooks).

(** ** Compilation *)

Section resolvers.
Context (resolve_env_var : str -> option str) (read_secret_file : list Shell.Component -> result str Error).

Definition resolve_secret (header : InjectedHeaderConfig) : result (str * SecretSource) Error :=
  match secret_env_var header, secret_file header with
  | Some env_var, None =>
      match resolve_env_var env_var with
      | Some value => Ok (value, EnvVar env_var)
      | None => Err (MsgFor (lit "missing required environment variable") env_var)
      end
  | None, Some file =>
      let? path := parse_secret_file file in
      let? value := read_secret_file path in
      Ok (value, SecretFile path)
  | _, _ => Err (Msg (lit "expected exactly one of secret_env_var or secret_file"))
  end.

Definition compile_injected_header (header : InjectedHeaderConfig) : result ResolvedInjectedHeader Error :=
  let? name := parse_header_name (header_name header) in
  let? (secret, source) := resolve_secret header in
  let prefix := default [] (header_prefix header) in
  match header_value_from_str (prefix ++ secret) with
  | Some value => Ok (mkResolved name value source)
  | None => Err (MsgFor (lit "invalid value for injected header") (header_name header))
  end.

Definition compile_query (e : str * list str) : result QueryConstraint Error :=
  let? name := normalize_query_name e.1 in
  let? values := compile_value_matchers e.2 in Ok (mkQuery name values).

Definition compile_header (e : str * list str) : result HeaderConstraint Error :=
  let? name := parse_header_name e.1 in
  let? values := compile_value_matchers e.2 in Ok (mkHeader name values).

Definition compile_hook (hook : MitmHookConfig Json) : result MitmHook Error :=
  let? host := normalize_hook_host (hook_host hook) in
  let? methods := normalize_methods (methods (matcher hook)) in
  let? path_prefixes := compile_path_matchers (path_prefixes (matcher hook)) in
  let? query := try_map compile_query (query (matcher hook)) in
  let? headers := try_map compile_header (headers (matcher hook)) in
  let? strip := try_map parse_header_name (strip_request_headers (actions hook)) in
  let? inject := try_map (fun header =>
                   map_err (InContext (lit "failed to compile injected header " ++ header_name header))
                     (compile_injected_header header)) (inject_request_headers (actions hook)) in
  Ok (mkHook host (mkMatcher methods path_prefixes query headers) (mkActions strip inject)).

(** [hooks_by_host.entry(host).or_default().push(hook)]. *)
Definition push_hook (hooks_by_host : MitmHooksByHost) (hook : MitmHook) : MitmHooksByHost :=
  bmap_insert (host hook) (default [] (bmap_get (host hook) hooks_by_host) ++ [hook]) hooks_by_host.

Fixpoint compile_loop (hooks : list (MitmHookConfig Json)) (hooks_by_host : MitmHooksByHost) : result MitmHooksByHost Error :=
  match hooks with
  | [] => Ok hooks_by_host
  | hook :: hooks => let? hook := compile_hook hook in compile_loop hooks (push_hook hooks_by_host hook)
  end.

Definition compile_mitm_hooks_with_resolvers (config : NetworkProxyConfig Json) : result MitmHooksByHost Error :=
  let? _ := validate_mitm_hook_config config in
  compile_loop (mitm_hooks (network config)) [].

End resolvers.

(** With the variables of the process and the files of the system. *)
Definition compile_mitm_hooks (env_var : str -> option str) (config : NetworkProxyConfig Json) : result MitmHooksByHost Error :=
  compile_mitm_hooks_with_resolvers env_var
    (fun path => match AbsolutePath.read_to_string path with
                 | Some value => Ok (trim value)
                 | None => Err (MsgFor (lit "failed to read secret file") (AbsolutePath.to_string_lossy path))
                 end) config.

(** ** Matching *)

(** The values of each name, in a map by name. *)
Definition collect_query (pairs : list (str * str)) : list (str * list str) :=
  fold_left (fun m e => bmap_insert e.1 (default [] (bmap_get e.1 m) ++ [e.2]) m) pairs [].

Definition query_matches (constraints : list QueryConstraint) (req : Request) : bool :=
  if is_empty constraints then true
  else
    let actual_values := collect_query (form_urlencoded_parse (default [] (uri_query req))) in
    forallb (fun constraint =>
      is_some_and (bmap_get (query_name constraint) actual_values) (fun actual =>
        existsb (fun candidate => existsb (fun allowed => value_matches allowed candidate) (query_values constraint)) actual))
      constraints.

Definition get_all (headers : list (str * HeaderValue)) (name : str) : list HeaderValue :=
  List.map snd (List.filter (fun e => e.1 == name) headers).

Definition headers_match (constraints : list HeaderConstraint) (req : Request) : bool :=
  forallb (fun constraint =>
    let actual := get_all (req_headers req) (constraint_name constraint) in
    if is_empty actual then false
    else if is_empty (header_values constraint) then true
    else existsb (fun value =>
           is_some_and (header_to_str value) (fun candidate =>
             existsb (fun allowed => value_matches allowed candidate) (header_values constraint))) actual) constraints.

Definition path_matches (path_prefixes : list PathMatcher) (path : str) : bool :=
  existsb (fun m => path_matcher_matches m path) path_prefixes.

Definition hook_matches (hook : MitmHook) (req : Request) : bool :=
  let method := to_ascii_uppercase (method req) in
  if negb (existsb (fun allowed => allowed == method) (m_methods (hook_matcher hook))) then false
  else if negb (path_matches (m_path_prefixes (hook_matcher hook)) (path req)) then false
  else if negb (query_matches (m_query (hook_matcher hook)) req) then false
  else headers_match (m_headers (hook_matcher hook)) req.

Definition evaluate_mitm_hooks (hooks_by_host : MitmHooksByHost) (host : str) (req : Request) : HookEvaluation :=
  match bmap_get (normalize_host host) hooks_by_host with
  | None => NoHooksForHost
  | Some hooks =>
      match find_first (fun hook => hook_matches hook req) hooks with
      | Some hook => Matched (hook_actions hook)
      | None => HookedHostNoMatch
      end
  end.

End hooks.

End NetworkHooks.

(** * Facts on the hooks of the network proxy: which hook a request gets, and that a
    validated configuration compiles unless a secret cannot be had. *)

Module NetworkHooksFacts.
Import NetworkPolicy NetworkConfig NetworkHooks.

Open Scope rust_scope.

(** ** Loops that stop at an error, and maps *)

Lemma try_each_ok {A E} (f : A -> result unit E) l : try_each f l = Ok tt <-> forall x, x ∈ l -> f x = Ok tt.
Proof.
  induction l as [|x l IH]; cbn [try_each]; [split; [intros _ ? []%not_elem_of_nil|done]|].
  destruct (f x) as [[]|] eqn:E0; [|split; [done|]; intros H; rewrite (H x) in E0 by (by left); done].
  rewrite IH. split; [|intros H y Hy; apply H; by right]. intros H y [->|Hy]%elem_of_cons; auto.
Qed.

Lemma try_map_ok {A B E} (f : A -> result B E) l : is_ok (try_map f l) = true <-> forall x, x ∈ l -> is_ok (f x) = true.
Proof.
  induction l as [|x l IH]; cbn [try_map]; [split; [intros _ ? []%not_elem_of_nil|done]|].
  destruct (f x) eqn:E0; [|split; [done|]; intros H; specialize (H x ltac:(by left)); by rewrite E0 in H].
  destruct (try_map f l); cbn [is_ok] in *.
  - split; [|done]. intros _ y [->|Hy]%elem_of_cons; [by rewrite E0|]. by apply IH.
  - split; [done|]. intros H. apply IH. intros y Hy. apply H. by right.
Qed.

Lemma elem_of_enumerate {A} (l : list A) x : x ∈ l -> exists i, (i, x) ∈ enumerate l.
Proof.
  unfold enumerate. generalize 0 as n. induction l as [|y l IH]; intros n; [by intros ?%not_elem_of_nil|].
  cbn [length seq combine]. intros [->|Hx]%elem_of_cons; [exists n; by left|]. destruct (IH (S n) Hx) as [i Hi]. exists i. by right.
Qed.

Lemma bmap_get_insert {A} k k' (v : A) m : bmap_get k' (bmap_insert k v m) = if k' == k then Some v else bmap_get k' m.
Proof.
  unfold bmap_get. induction m as [|[x y] m IH]; cbn [bmap_insert find_first fst].
  - by case_bool_decide.
  - destruct (str_compare k x) eqn:E; cbn [find_first fst].
    + apply str_compare_eq in E as <-. by case_bool_decide.
    + by case_bool_decide.
    + destruct (decide (k' = x)) as [->|Hx].
      * rewrite !(bool_decide_eq_true_2 (x = x)) by done. case_bool_decide as Ek; [subst; by rewrite str_compare_refl in E|done].
      * rewrite !(bool_decide_eq_false_2 (k' = x)) by done. apply IH.
Qed.

Lemma map_err_ok {A E F} (f : E -> F) (r : result A E) a : map_err f r = Ok a -> r = Ok a.
Proof. destruct r; [|done]. by intros [= <-]. Qed.

Lemma is_ok_map_err {A E F} (f : E -> F) (r : result A E) : is_ok (map_err f r) = is_ok r.
Proof. by destruct r. Qed.

Section hooks.
Context `{HttpLib} `{AbsolutePath.Os} {Json : Type}.
Context (resolve_env_var : str -> option str) (read_secret_file : list Shell.Component -> result str Error).

Notation compile_hook := (compile_hook (Json:=Json) resolve_env_var read_secret_file).
Notation compile_loop := (compile_loop (Json:=Json) resolve_env_var read_secret_file).
Notation compile := (compile_mitm_hooks_with_resolvers (Json:=Json) resolve_env_var read_secret_file).

(** ** Choice of the hook *)

(** The hooks of a host, in their order. *)
Definition hooks_for (k : str) (hooks : list MitmHook) : list MitmHook := List.filter (fun hook => host hook == k) hooks.

Lemma push_hook_get k m hook :
  bmap_get k (push_hook m hook) = if host hook == k then Some (default [] (bmap_get k m) ++ [hook]) else bmap_get k m.
Proof using Type.
  unfold push_hook. rewrite bmap_get_insert. repeat case_bool_decide; subst; done.
Qed.

Lemma compile_loop_get hooks m m' :
  compile_loop hooks m = Ok m' ->
  exists compiled, try_map compile_hook hooks = Ok compiled /\
    forall k, bmap_get k m' = match hooks_for k compiled with [] => bmap_get k m | l => Some (default [] (bmap_get k m) ++ l) end.
Proof using Type.
  revert m. induction hooks as [|h hooks IH]; intros m; cbn [NetworkHooks.compile_loop try_map].
  { intros [= <-]. by exists []. }
  destruct (compile_hook h) as [hook|e] eqn:Eh; [|done]. intros E. destruct (IH _ E) as (compiled & -> & Hk).
  exists (hook :: compiled). split; [done|]. intros k. rewrite Hk, push_hook_get. unfold hooks_for. cbn [List.filter].
  case_bool_decide as Ek; [|done]. cbn. fold (hooks_for k compiled). destruct (hooks_for k compiled); [done|]. by rewrite <- app_assoc.
Qed.

(** The hooks as they were configured, compiled: the first one for the host that matches. *)
Definition first_matching (compiled : list MitmHook) (h : str) (req : Request) : HookEvaluation :=
  match hooks_for (normalize_host h) compiled with
  | [] => NoHooksForHost
  | hooks => match find_first (fun hook => hook_matches hook req) hooks with
             | Some hook => Matched (hook_actions hook)
             | None => HookedHostNoMatch
             end
  end.

Lemma evaluate_compiled config m h req :
  compile config = Ok m ->
  exists compiled, try_map compile_hook (mitm_hooks (network config)) = Ok compiled /\
    evaluate_mitm_hooks m h req = first_matching compiled h req.
Proof using Type.
  unfold compile_mitm_hooks_with_resolvers. destruct (validate_mitm_hook_config config) as [[]|]; [|done].
  intros (compiled & Ec & Hk)%compile_loop_get. exists compiled. split; [done|].
  unfold evaluate_mitm_hooks, first_matching. rewrite Hk. by destruct (hooks_for (normalize_host h) compiled).
Qed.

(** ** Validation and compilation *)

(** What validating a hook establishes of its parts. *)
Lemma validate_hook_parts index (hook : MitmHookConfig Json) :
  validate_hook index hook = Ok tt ->
  is_ok (normalize_hook_host (hook_host hook)) = true /\ is_ok (normalize_methods (methods (matcher hook))) = true /\
  is_ok (compile_path_matchers (path_prefixes (matcher hook))) = true /\
  validate_query_constraints (query (matcher hook)) = Ok tt /\ validate_header_constraints (headers (matcher hook)) = Ok tt /\
  validate_strip_request_headers (strip_request_headers (actions hook)) = Ok tt.
Proof using Type.
  unfold validate_hook, map_err. cbv zeta. intros E.
  destruct (normalize_hook_host _); [|done]. destruct (normalize_methods _) as [ms|]; [|done].
  destruct (is_empty ms); [done|]. destruct (compile_path_matchers _) as [ps|]; [|done].
  destruct (is_empty ps); [done|]. destruct (is_some _); [done|].
  destruct (validate_query_constraints _) as [[]|]; [|done]. destruct (validate_header_constraints _) as [[]|]; [|done].
  destruct (validate_strip_request_headers _) as [[]|]; [|done]. done.
Qed.

Lemma validated_hook (config : NetworkProxyConfig Json) hook :
  validate_mitm_hook_config config = Ok tt -> hook ∈ mitm_hooks (network config) -> exists index, validate_hook index hook = Ok tt.
Proof using Type.
  unfold validate_mitm_hook_config. intros E Hh. destruct (mitm_hooks (network config)) as [|h0 hs] eqn:Eh; [by apply not_elem_of_nil in Hh|].
  cbn [is_empty] in E. destruct (negb _); [done|]. destruct (elem_of_enumerate _ _ Hh) as [i Hi].
  exists i. by apply (proj1 (try_each_ok _ _) E (i, hook)).
Qed.

(** Every secret of the hook can be had, and makes a value for its header. *)
Definition secrets_resolve (hook : MitmHookConfig Json) : Prop :=
  forall header, header ∈ inject_request_headers (actions hook) ->
  is_ok (compile_injected_header resolve_env_var read_secret_file header) = true.

Lemma compile_hook_ok index (hook : MitmHookConfig Json) :
  validate_hook index hook = Ok tt -> is_ok (compile_hook hook) = true <-> secrets_resolve hook.
Proof using Type.
  intros (E1 & E2 & E3 & E4 & E5 & E6)%validate_hook_parts. unfold NetworkHooks.compile_hook, secrets_resolve.
  destruct (normalize_hook_host _); [|done]. destruct (normalize_methods _); [|done]. destruct (compile_path_matchers _); [|done].
  assert (is_ok (try_map compile_query (query (matcher hook))) = true) as H1.
  { apply try_map_ok. intros [n v] Hx. pose proof (proj1 (try_each_ok _ _) E4 _ Hx) as E. unfold compile_query. cbn [fst snd] in *.
    destruct (normalize_query_name n) as [name|]; [|done]. destruct (is_empty name); [done|]. destruct (is_empty v); [done|].
    by destruct (compile_value_matchers v). }
  assert (is_ok (try_map compile_header (headers (matcher hook))) = true) as H2.
  { apply try_map_ok. intros [n v] Hx. pose proof (proj1 (try_each_ok _ _) E5 _ Hx) as E. unfold compile_header. cbn [fst snd] in *.
    destruct (parse_header_name n); [|done]. by destruct (compile_value_matchers v). }
  assert (is_ok (try_map parse_header_name (strip_request_headers (actions hook))) = true) as H3.
  { apply try_map_ok. intros n Hn. pose proof (proj1 (try_each_ok _ _) E6 _ Hn) as E. cbv beta in E. by destruct (parse_header_name n). }
  destruct (try_map compile_query _); [|done]. destruct (try_map compile_header _); [|done]. destruct (try_map parse_header_name _); [|done].
  set (f := fun header => map_err _ _).
  assert (is_ok (try_map f (inject_request_headers (actions hook))) = true <->
    forall header, header ∈ inject_request_headers (actions hook) ->
      is_ok (compile_injected_header resolve_env_var read_secret_file header) = true) as <-.
  { rewrite try_map_ok. unfold f. by setoid_rewrite is_ok_map_err. }
  by destruct (try_map f _).
Qed.

Lemma compile_loop_ok hooks m : is_ok (compile_loop hooks m) = true <-> forall hook, hook ∈ hooks -> is_ok (compile_hook hook) = true.
Proof using Type.
  revert m. induction hooks as [|h hooks IH]; intros m; cbn [NetworkHooks.compile_loop]; [split; [intros _ ? []%not_elem_of_nil|done]|].
  destruct (compile_hook h) eqn:E.
  - rewrite IH. split; [|intros Hh hook Hk; apply Hh; by right]. intros Hh hook [->|Hk]%elem_of_cons; [by rewrite E|auto].
  - split; [done|]. intros Hh. specialize (Hh h ltac:(by left)). by rewrite E in Hh.
Qed.

Lemma compile_validated config :
  validate_mitm_hook_config config = Ok tt ->
  is_ok (compile config) = true <-> forall hook, hook ∈ mitm_hooks (network config) -> secrets_resolve hook.
Proof using Type.
  intros E. unfold compile_mitm_hooks_with_resolvers. rewrite E, compile_loop_ok.
  split; intros Hh hook Hk; destruct (validated_hook _ _ E Hk) as [i Ei]; eapply compile_hook_ok; eauto.
Qed.

End hooks.

End NetworkHooksFacts.
