(* ===== verification/NetworkState.v ===== *)
(** Managed constraints on the settings of the proxy and the compiled configuration
    ([network-proxy/src/state.rs], and the state types of [runtime.rs]). *)

From stdpp Require Import base list option numbers gmap strings.
From S2P Require Import Prelude Machine RustStr ShellTree AbsolutePath NetworkPolicy NetworkConfig NetworkHooks.

Module NetworkState.
Import NetworkPolicy NetworkConfig NetworkHooks.

Open Scope rust_scope.

(** ** Data *)

Record NetworkProxyConstraints := mkConstraints {
  max_enabled : option bool;
  max_mode : option NetworkMode;
  c_allow_upstream_proxy : option bool;
  c_dangerously_allow_non_loopback_proxy : option bool;
  c_dangerously_allow_all_unix_sockets : option bool;
  c_allowed_domains : option (list str);
  allowlist_expansion_enabled : option bool;
  c_denied_domains : option (list str);
  denylist_expansion_enabled : option bool;
  c_allow_unix_sockets : option (list str);
  c_allow_local_binding : option bool }.

#[export] Instance constraints_eq_dec : EqDecision NetworkProxyConstraints.
Proof. solve_decision. Defined.

Definition no_constraints : NetworkProxyConstraints :=
  mkConstraints None None None None None None None None None None None.

(** A text of an error: as it is, the [Debug] form of a list of texts, or that of an error. *)
Inductive ErrorText := Text (s : str) | TextList (l : list str) | TextOf (e : Error).

Inductive NetworkProxyConstraintError := InvalidValue (field_name : str) (candidate allowed : ErrorText).

(** The errors of this component: plain ones, a broken constraint, and contexts on them. *)
Inductive StateError :=
| Plain (e : Error)
| Constraint (e : NetworkProxyConstraintError)
| StateContext (context : str) (e : StateError).

Record BlockedRequest := mkBlocked {
  blocked_host : str;
  reason : str;
  client : option str;
  blocked_method : option str;
  blocked_mode : option NetworkMode;
  protocol : str;
  decision : option str;
  blocked_source : option str;
  blocked_port : option N;
  timestamp : Z }.

#[export] Instance blocked_eq_dec : EqDecision BlockedRequest.
Proof. solve_decision. Defined.

Section state.
Context `{DomainLib} `{HttpLib} `{AbsolutePath.Os} {Json MitmState : Type}.

(** Reading an environment variable, and making the state of the interceptor, which
    loads its certificates. *)
Context (env_var : str -> option str) (mitm_new : bool -> bool -> result MitmState Error).

Record ConfigState := mkState {
  config : NetworkProxyConfig Json;
  allow_set : str -> bool;
  deny_set : str -> bool;
  mitm_state : option MitmState;
  state_hooks : list (str * list MitmHook);
  constraints : NetworkProxyConstraints;
  blocked : list BlockedRequest;
  blocked_total : Z }.

(** ** Validation *)

Definition network_mode_rank (mode : NetworkMode) : nat := match mode with Limited => 0 | Full => 1 end.

Definition mode_debug (mode : NetworkMode) : str := match mode with Limited => lit "Limited" | Full => lit "Full" end.

Definition validate_non_global_wildcard_domain_patterns (field_name : str) (patterns : list str)
    : result unit NetworkProxyConstraintError :=
  match find_first is_global_wildcard_domain_pattern patterns with
  | Some pattern =>
      Err (InvalidValue field_name (Text (trim pattern))
             (Text (lit "exact hosts or scoped wildcards like *.example.com or **.example.com")))
  | None => Ok tt
  end.

(** [true] where the managed configuration says it is off. *)
Definition check_off (field_name : str) (candidate allowed : bool) : result unit NetworkProxyConstraintError :=
  if candidate && negb allowed
  then Err (InvalidValue field_name (Text (lit "true")) (Text (lit "false (disabled by managed config)")))
  else Ok tt.

Definition lower_set (l : list str) : gset str := list_to_set (List.map to_ascii_lowercase l).

Definition check_mode (c : NetworkProxyConstraints) (mode : NetworkMode) : result unit NetworkProxyConstraintError :=
  match max_mode c with
  | None => Ok tt
  | Some max_mode =>
      if network_mode_rank max_mode <? network_mode_rank mode
      then Err (InvalidValue (lit "network.mode") (Text (mode_debug mode)) (Text (mode_debug max_mode ++ lit " or more restrictive")))
      else Ok tt
  end.

Definition check_allowed_domains (c : NetworkProxyConstraints) (candidate denied : list str)
    : result unit NetworkProxyConstraintError :=
  let field := lit "network.allowed_domains" in
  match c_allowed_domains c with
  | None => Ok tt
  | Some managed =>
      let? _ := validate_non_global_wildcard_domain_patterns field managed in
      match allowlist_expansion_enabled c with
      | Some true =>
          let missing := List.filter (fun entry => negb (bool_decide (entry ∈ lower_set candidate))
                                                   && negb (bool_decide (entry ∈ lower_set denied)))
                           (elements (lower_set managed)) in
          if is_empty missing then Ok tt
          else Err (InvalidValue field (Text (lit "missing managed allowed_domains entries")) (TextList missing))
      | Some false =>
          if lower_set candidate == lower_set managed ∖ lower_set denied then Ok tt
          else Err (InvalidValue field (TextList candidate) (Text (lit "must match managed allowed_domains")))
      | None =>
          let managed_patterns := List.map parse_for_constraints managed in
          let invalid := List.filter (fun entry =>
                           negb (existsb (fun m => allows m (parse_for_constraints entry)) managed_patterns)) candidate in
          if is_empty invalid then Ok tt
          else Err (InvalidValue field (TextList invalid) (Text (lit "subset of managed allowed_domains")))
      end
  end.

Definition check_denied_domains (c : NetworkProxyConstraints) (candidate : list str) : result unit NetworkProxyConstraintError :=
  let field := lit "network.denied_domains" in
  match c_denied_domains c with
  | None => Ok tt
  | Some managed =>
      let? _ := validate_non_global_wildcard_domain_patterns field managed in
      match denylist_expansion_enabled c with
      | Some false =>
          if lower_set candidate == lower_set managed then Ok tt
          else Err (InvalidValue field (TextList candidate) (Text (lit "must match managed denied_domains")))
      | Some true | None =>
          let missing := List.filter (fun entry => negb (bool_decide (entry ∈ lower_set candidate))) (elements (lower_set managed)) in
          if is_empty missing then Ok tt
          else Err (InvalidValue field (Text (lit "missing managed denied_domains entries")) (TextList missing))
      end
  end.

Definition check_unix_sockets (c : NetworkProxyConstraints) (candidate : list str) : result unit NetworkProxyConstraintError :=
  match c_allow_unix_sockets c with
  | None => Ok tt
  | Some managed =>
      let invalid := List.filter (fun entry => negb (bool_decide (to_ascii_lowercase entry ∈ lower_set managed))) candidate in
      if is_empty invalid then Ok tt
      else Err (InvalidValue (lit "network.allow_unix_sockets") (TextList invalid) (Text (lit "subset of managed allow_unix_sockets")))
  end.

Definition validate_policy_against_constraints (cfg : NetworkProxyConfig Json) (c : NetworkProxyConstraints)
    : result unit NetworkProxyConstraintError :=
  let s := network cfg in
  let config_allowed_domains := default [] (allowed_domains s) in
  let config_denied_domains := default [] (denied_domains s) in
  let? _ := map_err (fun err => InvalidValue (lit "network.mitm_hooks") (TextOf err) (Text (lit "valid MITM hook configuration")))
              (validate_mitm_hook_config cfg) in
  let? _ := validate_non_global_wildcard_domain_patterns (lit "network.denied_domains") config_denied_domains in
  let? _ := check_off (lit "network.enabled") (enabled s) (default true (max_enabled c)) in
  let? _ := check_mode c (mode s) in
  let? _ := check_off (lit "network.allow_upstream_proxy") (allow_upstream_proxy s) (default true (c_allow_upstream_proxy c)) in
  let? _ := check_off (lit "network.dangerously_allow_non_loopback_proxy") (dangerously_allow_non_loopback_proxy s)
              (default true (c_dangerously_allow_non_loopback_proxy c)) in
  let? _ := check_off (lit "network.dangerously_allow_all_unix_sockets") (dangerously_allow_all_unix_sockets s)
              (default (negb (is_some (c_allow_unix_sockets c))) (c_dangerously_allow_all_unix_sockets c)) in
  let? _ := check_off (lit "network.allow_local_binding") (allow_local_binding s) (default true (c_allow_local_binding c)) in
  let? _ := check_allowed_domains c config_allowed_domains config_denied_domains in
  let? _ := check_denied_domains c config_denied_domains in
  check_unix_sockets c (allow_unix_sockets s).

(** ** Compilation *)

Definition build_config_state (cfg : NetworkProxyConfig Json) (c : NetworkProxyConstraints) : result ConfigState StateError :=
  let? _ := map_err Plain (validate_unix_socket_allowlist_paths cfg) in
  if credential_broker (network cfg) && negb (mitm (network cfg))
  then Err (Plain (Msg (lit "network.credential_broker requires network.mitm = true")))
  else
    let allowed := default [] (allowed_domains (network cfg)) in
    let denied := default [] (denied_domains (network cfg)) in
    let? _ := map_err Constraint (validate_non_global_wildcard_domain_patterns (lit "network.denied_domains") denied) in
    let? deny_set := map_err Plain (compile_denylist_globset denied) in
    let? allow_set := map_err Plain (compile_allowlist_globset allowed) in
    let? hooks := map_err Plain (compile_mitm_hooks env_var cfg) in
    let? m := if mitm (network cfg)
              then match mitm_new (allow_upstream_proxy (network cfg)) (allow_local_binding (network cfg)) with
                   | Ok m => Ok (Some m)
                   | Err e => Err (Plain e)
                   end
              else Ok None in
    Ok (mkState cfg allow_set deny_set m hooks c [] 0).

End state.

Arguments ConfigState {_} Json MitmState.
End NetworkState.
