(* ===== verification/NetworkProxy.v ===== *)
(** The running proxy ([network-proxy/src/runtime.rs]), its policy decisions
    ([network_policy.rs]) and the check on connecting ([connect_policy.rs]).

    Every access to the shared [ConfigState] is under a lock, so an operation is a sequence
    of sections that each hold the lock once; between two sections of an operation,
    sections of others run.  [run_section] runs one section and [step] interleaves the
    operations in flight.  The reloader, the name server and the clock are inputs. *)

From stdpp Require Import base list option numbers gmap strings.
From S2P Require Import Prelude Machine RustStr ShellTree AbsolutePath NetworkPolicy NetworkConfig NetworkHooks NetworkState.

Module NetworkProxy.
Import NetworkPolicy NetworkConfig NetworkHooks NetworkState.

#[local] Existing Instance Shell.component_eq_dec.

Open Scope rust_scope.

Definition MAX_BLOCKED_EVENTS : nat := 200.

Inductive HostBlockReason := Denied | NotAllowed | NotAllowedLocal.

#[export] Instance host_block_reason_eq_dec : EqDecision HostBlockReason.
Proof. solve_decision. Defined.

Definition reason_str (r : HostBlockReason) : str :=
  match r with Denied => lit "denied" | NotAllowed => lit "not_allowed" | NotAllowedLocal => lit "not_allowed_local" end.

Inductive HostBlockDecision := Allowed | Blocked (reason : HostBlockReason).

#[export] Instance host_block_decision_eq_dec : EqDecision HostBlockDecision.
Proof. solve_decision. Defined.

Inductive DomainListKind := AllowList | DenyList.

(** ** Decisions on hosts *)

Definition globset_matches_host_or_unscoped (set : str -> bool) (host : str) : bool :=
  set host || is_some_and (unscoped_ip_literal host) set.

Definition is_explicit_local_allowlisted (allowed_domains : list str) (host : str) : bool :=
  let unscoped_host := unscoped_ip_literal host in
  existsb (fun pattern =>
    let pattern := trim pattern in
    if (pattern == lit "*") || starts_with (lit "*.") pattern || starts_with (lit "**.") pattern then false
    else if contains_char 42 pattern || contains_char 63 pattern then false
    else
      let normalized_pattern := normalize_host pattern in
      (normalized_pattern == host) || is_some_and unscoped_host (fun ip => normalized_pattern == ip)) allowed_domains.

(** [dns] is the answer of the name server, [None] if it failed or did not come in time. *)
Definition host_resolves_to_non_public_ip (host : str) (dns : option (list IpAddr)) : bool :=
  match parse_ip host with
  | Some ip => is_non_public_ip ip
  | None => match dns with None => true | Some addrs => existsb is_non_public_ip addrs end
  end.

Definition local_literal (host : str) : bool :=
  let host_no_scope := default host (unscoped_ip_literal host) in
  if is_loopback_host host then true
  else match parse_ip host_no_scope with Some ip => is_non_public_ip ip | None => false end.

(** What [host_blocked] copies out of the state. *)
Record HostPolicy := mkPolicy {
  p_deny_set : str -> bool;
  p_allow_set : str -> bool;
  p_allow_local_binding : bool;
  p_allowed_domains : option (list str) }.

Definition decide_host (p : HostPolicy) (host : str) (dns : option (list IpAddr)) : HostBlockDecision :=
  let allowed_domains := default [] (p_allowed_domains p) in
  if globset_matches_host_or_unscoped (p_deny_set p) host then Blocked Denied
  else
    let is_allowlisted := globset_matches_host_or_unscoped (p_allow_set p) host in
    if negb (p_allow_local_binding p)
       && (if local_literal host then negb (is_explicit_local_allowlisted allowed_domains host)
           else host_resolves_to_non_public_ip host dns)
    then Blocked NotAllowedLocal
    else if negb (is_some (p_allowed_domains p)) || negb is_allowlisted then Blocked NotAllowed
    else Allowed.

(** ** connect_policy.rs *)

(** Whether the stream connector connects to an address. *)
Definition connect_permitted (allow_local_binding : bool) (addr : IpAddr) : bool :=
  negb (negb allow_local_binding && is_non_public_ip addr).

(** ** network_policy.rs *)

Inductive NetworkPolicyDecision := PolicyDeny | PolicyAsk.
Inductive NetworkDecisionSource := BaselinePolicy | ModeGuard | ProxyState | Decider.

Inductive NetworkDecision :=
| NetworkAllow
| NetworkDeny (reason : str) (source : NetworkDecisionSource) (decision : NetworkPolicyDecision).

Definition deny_with_source (reason : str) (source : NetworkDecisionSource) : NetworkDecision :=
  NetworkDeny (if is_empty reason then lit "policy_denied" else reason) source PolicyDeny.

Definition ask_with_source (reason : str) (source : NetworkDecisionSource) : NetworkDecision :=
  NetworkDeny (if is_empty reason then lit "policy_denied" else reason) source PolicyAsk.

Definition map_decider_decision (d : NetworkDecision) : NetworkDecision :=
  match d with NetworkAllow => NetworkAllow | NetworkDeny reason _ decision => NetworkDeny reason Decider decision end.

(** The parts of the audit event that the decision fixes. *)
Record AuditEvent := mkAudit { audit_decision : str; audit_source : NetworkDecisionSource; audit_reason : str; policy_override : bool }.

Definition policy_decision_str (d : NetworkPolicyDecision) : str := match d with PolicyDeny => lit "deny" | PolicyAsk => lit "ask" end.

(** [evaluate_host_policy] after [host_blocked]; the decider is asked about this request. *)
Definition evaluate_host_policy (host_decision : HostBlockDecision) (decider : option (unit -> NetworkDecision))
    : NetworkDecision * AuditEvent :=
  let '(decision, override) :=
    match host_decision with
    | Allowed => (NetworkAllow, false)
    | Blocked NotAllowed =>
        match decider with
        | Some decide =>
            let d := map_decider_decision (decide tt) in
            (d, match d with NetworkAllow => true | _ => false end)
        | None => (deny_with_source (reason_str NotAllowed) BaselinePolicy, false)
        end
    | Blocked reason => (deny_with_source (reason_str reason) BaselinePolicy, false)
    end in
  (decision,
   match decision with
   | NetworkAllow =>
       mkAudit (lit "allow") (if override then Decider else BaselinePolicy)
         (if override then reason_str NotAllowed else lit "allow") override
   | NetworkDeny reason source d => mkAudit (policy_decision_str d) source reason override
   end).

(** ** Operations *)

Section runtime.
Context `{DomainLib} `{HttpLib} `{AbsolutePath.Os} {Json MitmState : Type} `{EqDecision Json}.
Context (env_var : str -> option str) (mitm_new : bool -> bool -> result MitmState Error).

(** [cfg!(target_os = "macos")], and whether the credential broker runs, which
    [with_reloader] takes from the first configuration. *)
Context (macos broker : bool).

Notation ConfigState := (ConfigState Json MitmState).

Definition with_blocked (st : ConfigState) (b : list BlockedRequest) (total : Z) : ConfigState :=
  mkState (config st) (allow_set st) (deny_set st) (mitm_state st) (state_hooks st) (constraints st) b total.

Definition with_config (st : ConfigState) (c : NetworkProxyConfig Json) : ConfigState :=
  mkState c (allow_set st) (deny_set st) (mitm_state st) (state_hooks st) (constraints st) (blocked st) (blocked_total st).

Definition ensure_credential_broker_enablement_unchanged (new_state : ConfigState) : result unit StateError :=
  if eqb broker (credential_broker (network (config new_state))) then Ok tt
  else Err (Plain (Msg (lit "network.credential_broker cannot change while the proxy is running"))).

(** [reload_if_needed] up to its write: the state to write, with the blocked requests
    that were read. *)
Definition reload_read (answer : result (option ConfigState) StateError) (st : ConfigState) : result (option ConfigState) StateError :=
  let? new_state := answer in
  match new_state with
  | None => Ok None
  | Some new_state =>
      let? _ := ensure_credential_broker_enablement_unchanged new_state in
      Ok (Some (with_blocked new_state (blocked st) (blocked_total st)))
  end.

(** [force_reload]: the blocked requests are kept, their total is that of the new state. *)
Definition force_reload (answer : result ConfigState StateError) (st : ConfigState) : result ConfigState StateError :=
  let? new_state := answer in
  let? _ := ensure_credential_broker_enablement_unchanged new_state in
  Ok (with_blocked new_state (blocked st) (blocked_total new_state)).

(** [replace_config_state] after its reload. *)
Definition replace_config_state (new_state st : ConfigState) : result ConfigState StateError :=
  let? _ := ensure_credential_broker_enablement_unchanged new_state in
  Ok (with_blocked new_state (blocked st) (blocked_total st)).

(** The write of [record_blocked]. *)
Definition push_blocked (entry : BlockedRequest) (st : ConfigState) : ConfigState :=
  let b := blocked st ++ [entry] in
  with_blocked st (drop (length b - MAX_BLOCKED_EVENTS) b) (Z.min u64_max (blocked_total st + 1)).

Definition drain_blocked (st : ConfigState) : list BlockedRequest * ConfigState :=
  (blocked st, with_blocked st [] (blocked_total st)).

Definition host_policy (st : ConfigState) : HostPolicy :=
  mkPolicy (deny_set st) (allow_set st) (allow_local_binding (network (config st))) (allowed_domains (network (config st))).

Definition current_patterns (st : ConfigState) : list str * list str :=
  (default [] (allowed_domains (network (config st))), default [] (denied_domains (network (config st)))).

Definition is_unix_socket_allowed (st : ConfigState) (path : str) : bool :=
  if negb macos then false
  else
    let requested_path := Shell.components path in
    if negb (AbsolutePath.is_absolute requested_path) then false
    else if dangerously_allow_all_unix_sockets (network (config st)) then true
    else match AbsolutePath.from_absolute_path requested_path with
         | None => false
         | Some requested_abs =>
             let requested_canonical := AbsolutePath.fs_canonicalize requested_abs in
             existsb (fun allowed =>
               match socket_path_parse allowed with
               | Ok (Native allowed_path) =>
                   (allowed_path == requested_abs)
                   || match requested_canonical, AbsolutePath.fs_canonicalize allowed_path with
                      | Some r, Some a => a == r
                      | _, _ => false
                      end
               | Ok (UnixStyleAbsolute _) | Err _ => false
               end) (allow_unix_sockets (network (config st)))
         end.

Definition kind_permission (k : DomainListKind) : NetworkDomainPermission :=
  match k with AllowList => DomainAllow | DenyList => DomainDeny end.

Definition kind_entries (k : DomainListKind) (s : NetworkProxySettings Json) : list str :=
  default [] (match k with AllowList => allowed_domains s | DenyList => denied_domains s end).

Definition kind_opposite_entries (k : DomainListKind) (s : NetworkProxySettings Json) : list str :=
  default [] (match k with AllowList => denied_domains s | DenyList => allowed_domains s end).

Definition list_name (k : DomainListKind) : str := match k with AllowList => lit "allowlist" | DenyList => lit "denylist" end.
Definition constraint_field (k : DomainListKind) : str :=
  match k with AllowList => lit "network.allowed_domains" | DenyList => lit "network.denied_domains" end.

(** One round of [update_domain_list] up to its write: nothing to do, or the state to
    write if configuration and constraints are still those that were read. *)
Definition update_read (normalized_host : str) (target : DomainListKind) (st : ConfigState) : result (option ConfigState) StateError :=
  let s := network (config st) in
  let target_contains := existsb (fun entry => normalize_host entry == normalized_host) (kind_entries target s) in
  let opposite_contains := existsb (fun entry => normalize_host entry == normalized_host) (kind_opposite_entries target s) in
  if target_contains && negb opposite_contains then Ok None
  else
    let candidate := mkConfig (upsert_domain_permission s normalized_host (kind_permission target) normalize_host) in
    let? _ := map_err (fun e => StateContext (constraint_field target ++ lit " constrained by managed config") (Constraint e))
                (validate_policy_against_constraints candidate (constraints st)) in
    let? new_state := map_err (StateContext (lit "failed to compile updated network " ++ list_name target))
                        (build_config_state env_var mitm_new candidate (constraints st)) in
    Ok (Some (with_blocked new_state (blocked st) (blocked_total st))).

(** One round of [set_network_mode] up to its write: the constraints it was checked against. *)
Definition mode_read (m : NetworkMode) (st : ConfigState) : result NetworkProxyConstraints StateError :=
  let candidate := mkConfig (with_mode (network (config st)) m) in
  let? _ := map_err (fun e => StateContext (lit "network.mode constrained by managed config") (Constraint e))
              (validate_policy_against_constraints candidate (constraints st)) in
  Ok (constraints st).

Definition mode_write (m : NetworkMode) (st : ConfigState) : ConfigState :=
  with_config st (mkConfig (with_mode (network (config st)) m)).

(** ** Interleaving *)

Inductive Op :=
| HostBlocked (host : str) (port : N)
| RecordBlocked (entry : BlockedRequest)
| BlockedSnapshot
| DrainBlocked
| IsUnixSocketAllowed (path : str)
| MethodAllowed (method : str)
| CurrentPatterns
| CurrentCfg
| Enabled
| PlaintextCredentialInjectionEnabled
| AllowUpstreamProxy
| AllowLocalBinding
| NetworkModeOf
| MitmStateOf
| EvaluateMitmHookRequest (host : str) (req : Request)
| SetNetworkMode (m : NetworkMode)
| UpdateDomainList (host : str) (target : DomainListKind)
| ReplaceConfigState (new_state : ConfigState)
| ForceReload.

Inductive Answer :=
| AUnit
| ABool (b : bool)
| ADecision (d : HostBlockDecision)
| ARequests (l : list BlockedRequest)
| APatterns (allowed denied : list str)
| AConfig (c : NetworkProxyConfig Json)
| AMode (m : NetworkMode)
| AMitm (m : option MitmState)
| AHook (e : HookEvaluation).

(** Where an operation in flight is.  [Running]: before [reload_if_needed]; the hosts of
    [UpdateDomainList] are normalised from then on. *)
Inductive Task :=
| Called (op : Op)
| Running (op : Op)
| Reloading (op : Op) (new_state : ConfigState)
| Reloaded (op : Op)
| Resolving (host : str) (p : HostPolicy)
| RecordReady (entry : BlockedRequest) (observed : bool)
| Notifying (entry : BlockedRequest)
| ModeReady (m : NetworkMode) (c : NetworkProxyConstraints)
| UpdateReady (host : str) (target : DomainListKind) (previous_cfg : NetworkProxyConfig Json) (c : NetworkProxyConstraints)
    (new_state : ConfigState)
| Done (r : result Answer StateError).

(** What the outside world answers. *)
Inductive Input :=
| NoInput
| MaybeReload (answer : result (option ConfigState) StateError)
| ReloadNow (answer : result ConfigState StateError)
| Resolved (dns : option (list IpAddr)).

Record World := mkWorld { shared : ConfigState; observer : bool; observed : list BlockedRequest; tasks : list Task }.

(** The section of an operation after its reload. *)
Definition run_body (op : Op) (st : ConfigState) (has_observer : bool) : ConfigState * Task :=
  match op with
  | HostBlocked host _ =>
      match host_parse host with
      | Ok host => (st, Resolving host (host_policy st))
      | Err _ => (st, Done (Ok (ADecision (Blocked NotAllowed))))
      end
  | RecordBlocked entry => (st, RecordReady entry has_observer)
  | BlockedSnapshot => (st, Done (Ok (ARequests (blocked st))))
  | DrainBlocked => let '(l, st) := drain_blocked st in (st, Done (Ok (ARequests l)))
  | IsUnixSocketAllowed path => (st, Done (Ok (ABool (is_unix_socket_allowed st path))))
  | MethodAllowed method => (st, Done (Ok (ABool (allows_method (mode (network (config st))) method))))
  | CurrentPatterns => let '(a, d) := current_patterns st in (st, Done (Ok (APatterns a d)))
  | CurrentCfg => (st, Done (Ok (AConfig (config st))))
  | Enabled => (st, Done (Ok (ABool (enabled (network (config st))))))
  | PlaintextCredentialInjectionEnabled =>
      (st, Done (Ok (ABool (dangerously_allow_plaintext_credential_injection (network (config st))))))
  | AllowUpstreamProxy => (st, Done (Ok (ABool (allow_upstream_proxy (network (config st))))))
  | NetworkModeOf => (st, Done (Ok (AMode (mode (network (config st))))))
  | MitmStateOf => (st, Done (Ok (AMitm (mitm_state st))))
  | AllowLocalBinding => (st, Done (Ok (ABool (allow_local_binding (network (config st))))))
  | EvaluateMitmHookRequest host req => (st, Done (Ok (AHook (evaluate_mitm_hooks (state_hooks st) host req))))
  | SetNetworkMode m =>
      match mode_read m st with Ok c => (st, ModeReady m c) | Err e => (st, Done (Err e)) end
  | UpdateDomainList host target =>
      match update_read host target st with
      | Ok None => (st, Done (Ok AUnit))
      | Ok (Some new_state) => (st, UpdateReady host target (config st) (constraints st) new_state)
      | Err e => (st, Done (Err e))
      end
  | ReplaceConfigState new_state =>
      match replace_config_state new_state st with Ok st => (st, Done (Ok AUnit)) | Err e => (st, Done (Err e)) end
  | ForceReload => (st, Done (Ok AUnit))
  end.

(** One section of a task: the new state, the requests shown to the observer, the task. *)
Definition run_section (t : Task) (input : Input) (st : ConfigState) (has_observer : bool)
    : option (ConfigState * list BlockedRequest * Task) :=
  match t, input with
  | Called (UpdateDomainList host target), NoInput =>
      Some (st, [], match host_parse host with
                    | Ok host => Running (UpdateDomainList host target)
                    | Err e => Done (Err (Plain (InContext (lit "invalid network host") e)))
                    end)
  | Called ForceReload, ReloadNow answer =>
      Some (match force_reload answer st with Ok st => (st, [], Done (Ok AUnit)) | Err e => (st, [], Done (Err e)) end)
  | Called ForceReload, _ => None
  | Called op, NoInput => Some (st, [], Running op)
  | Running op, MaybeReload answer =>
      Some (st, [], match reload_read answer st with
                    | Ok None => Reloaded op
                    | Ok (Some new_state) => Reloading op new_state
                    | Err e => Done (Err e)
                    end)
  | Reloading op new_state, NoInput => Some (new_state, [], Reloaded op)
  | Reloaded op, NoInput => let '(st, t) := run_body op st has_observer in Some (st, [], t)
  | Resolving host p, Resolved dns => Some (st, [], Done (Ok (ADecision (decide_host p host dns))))
  | RecordReady entry observed, NoInput => Some (push_blocked entry st, [], if observed then Notifying entry else Done (Ok AUnit))
  | Notifying entry, NoInput => Some (st, [entry], Done (Ok AUnit))
  | ModeReady m c, NoInput =>
      Some (if constraints st == c then (mode_write m st, [], Done (Ok AUnit)) else (st, [], Running (SetNetworkMode m)))
  | UpdateReady host target previous_cfg c new_state, NoInput =>
      Some (if (constraints st == c) && (config st == previous_cfg) then (new_state, [], Done (Ok AUnit))
            else (st, [], Running (UpdateDomainList host target)))
  | _, _ => None
  end.

Inductive step : World -> World -> Prop :=
| step_call w op : step w (mkWorld (shared w) (observer w) (observed w) (tasks w ++ [Called op]))
| step_observer w b : step w (mkWorld (shared w) b (observed w) (tasks w))
| step_section w i t input st shown t' :
    tasks w !! i = Some t ->
    run_section t input (shared w) (observer w) = Some (st, shown, t') ->
    step w (mkWorld st (observer w) (observed w ++ shown) (<[i := t']> (tasks w))).

(** A schedule, as the executable reading of [step]: calls and sections in order. *)
Inductive Event := Call (op : Op) | SetObserver (b : bool) | Section_ (i : nat) (input : Input).

Definition run_event (w : World) (e : Event) : option World :=
  match e with
  | Call op => Some (mkWorld (shared w) (observer w) (observed w) (tasks w ++ [Called op]))
  | SetObserver b => Some (mkWorld (shared w) b (observed w) (tasks w))
  | Section_ i input =>
      match tasks w !! i with
      | None => None
      | Some t =>
          match run_section t input (shared w) (observer w) with
          | None => None
          | Some (st, shown, t') => Some (mkWorld st (observer w) (observed w ++ shown) (<[i := t']> (tasks w)))
          end
      end
  end.

Fixpoint run_schedule (w : World) (es : list Event) : option World :=
  match es with [] => Some w | e :: es => run_event w e ≫= fun w => run_schedule w es end.

End runtime.

End NetworkProxy.
