(* ===== verification/NetworkBroker.v ===== *)
(** The credential broker of the network proxy ([network-proxy/src/credential_broker.rs] and
    its providers): child processes get dummy values for known credentials, and requests to
    the hosts of a credential get the real value in place of the dummy.  The random numbers
    are a sequence; the header library is [HttpLib], the JSON of the marker is [MarkerLib].  The
    theorems are at the end. *)

From stdpp Require Import base list option numbers gmap strings.
From S2P Require Import Prelude RustStr Utf8Stream ShellTree AbsolutePath NetworkPolicy NetworkConfig NetworkHooks NetworkState.

Module NetworkBroker.
Import NetworkPolicy NetworkConfig NetworkHooks NetworkState.

Open Scope rust_scope.

Definition CREDENTIAL_BROKER_ACTIVE_ENV_KEY : str := lit "CODEX_NETWORK_PROXY_CREDENTIAL_BROKER_ACTIVE".
Definition BROKERED_CREDENTIALS_ENV_KEY : str := lit "CODEX_NETWORK_PROXY_BROKERED_CREDENTIALS".

(** [serde_json] on a list of pairs of texts. *)
Class MarkerLib := {
  marker_to_string : list (str * str) -> option str;
  marker_from_str : str -> option (list (str * str)) }.

(** ** Providers *)

Inductive CredentialProvider := Github | OpenAI.

#[export] Instance provider_eq_dec : EqDecision CredentialProvider.
Proof. solve_decision. Defined.

Inductive CredentialHostBinding :=
| ExactHost (host : str)
| HostPattern (exact_hosts suffixes : list str).

#[export] Instance binding_eq_dec : EqDecision CredentialHostBinding.
Proof. solve_decision. Defined.

Definition credential_providers : list CredentialProvider := [Github; OpenAI].

(** providers/github.rs *)

Definition GH_HOST_ENV_VAR : str := lit "GH_HOST".
Definition GITHUB_TOKEN_PREFIXES : list str :=
  [lit "github_pat_"; lit "ghp_"; lit "gho_"; lit "ghu_"; lit "ghs_"; lit "ghr_"].
Definition GITHUB_TOKEN_MIN_LEN : nat := 40.
Definition GITHUB_CLOUD_TOKEN_ENV_VARS : list str := [lit "GH_TOKEN"; lit "GITHUB_TOKEN"].
Definition GITHUB_ENTERPRISE_TOKEN_ENV_VARS : list str := [lit "GH_ENTERPRISE_TOKEN"; lit "GITHUB_ENTERPRISE_TOKEN"].
Definition GITHUB_CLOUD_HOSTS : list str := [lit "api.github.com"; lit "github.com"].
Definition GITHUB_CLOUD_HOST_SUFFIXES : list str := [lit ".ghe.com"].

Notation Env := (gmap str str).

Definition github_cloud_binding (env : Env) : option CredentialHostBinding :=
  Some (HostPattern GITHUB_CLOUD_HOSTS GITHUB_CLOUD_HOST_SUFFIXES).

Definition github_cloud_host (host : str) : bool :=
  existsb (fun h => h == host) GITHUB_CLOUD_HOSTS || existsb (fun suffix => ends_with suffix host) GITHUB_CLOUD_HOST_SUFFIXES.

Definition github_host_hint (env : Env) : option str :=
  match env !! GH_HOST_ENV_VAR with
  | None => None
  | Some value => let host := normalize_host value in if is_empty host then None else Some host
  end.

Definition github_enterprise_binding (env : Env) : option CredentialHostBinding :=
  match github_host_hint env with
  | Some host => if github_cloud_host host then None else Some (ExactHost host)
  | None => None
  end.

Definition github_token_prefix (value : str) : str :=
  default (lit "ghp_") (find_first (fun prefix => starts_with prefix value) GITHUB_TOKEN_PREFIXES).

(** providers/openai.rs *)

Definition OPENAI_API_KEY_ENV_VARS : list str := [lit "OPENAI_API_KEY"].
Definition OPENAI_API_KEY_MIN_LEN : nat := 51.
Definition OPENAI_API_HOST : str := lit "api.openai.com".

Definition openai_host_binding (env : Env) : option CredentialHostBinding := Some (ExactHost OPENAI_API_HOST).

Definition openai_api_key_prefix (value : str) : str :=
  match strip_prefix (lit "sk-") value with
  | None => lit "sk-"
  | Some suffix =>
      match split_once (lit "-") suffix with
      | Some (kind, _) => lit "sk-" ++ kind ++ lit "-"
      | None => lit "sk-"
      end
  end.

(** providers.rs *)

Record CredentialSource := mkSource { env_vars : list str; host_binding : Env -> option CredentialHostBinding }.

Definition sources (p : CredentialProvider) : list CredentialSource :=
  match p with
  | Github => [mkSource GITHUB_CLOUD_TOKEN_ENV_VARS github_cloud_binding;
               mkSource GITHUB_ENTERPRISE_TOKEN_ENV_VARS github_enterprise_binding]
  | OpenAI => [mkSource OPENAI_API_KEY_ENV_VARS openai_host_binding]
  end.

Definition context_env_vars (p : CredentialProvider) : list str :=
  match p with Github => [GH_HOST_ENV_VAR] | OpenAI => [] end.

Definition credential_broker_env_keys : list str :=
  List.concat (List.map context_env_vars credential_providers)
  ++ List.concat (List.map env_vars (List.concat (List.map sources credential_providers))).

Definition binding_matches_host (b : CredentialHostBinding) (host : str) : bool :=
  match b with
  | ExactHost expected_host => host == expected_host
  | HostPattern exact_hosts suffixes =>
      existsb (fun h => h == host) exact_hosts || existsb (fun suffix => ends_with suffix host) suffixes
  end.

Definition DUMMY_ALPHANUMERIC : str := lit "ABCDEFGHIJKLMNOPQRSTUVWXYZabcdefghijklmnopqrstuvwxyz0123456789".

Definition is_ascii_alphanumeric (b : N) : bool := is_ascii_digit b || is_ascii_uppercase b || is_ascii_lowercase b.

(** The char at [index] of a dummy, with a random number for it. *)
Definition dummy_char (real_bytes : list N) (index random : nat) : char :=
  match real_bytes !! index with
  | Some template => if is_ascii_alphanumeric template then nth (random mod 62) DUMMY_ALPHANUMERIC 65%N else template
  | None => nth (random mod 62) DUMMY_ALPHANUMERIC 65%N
  end.

(** [rng n] is the [n]-th random number; those from [from] on are drawn, one for each char after the prefix. *)
Definition shaped_dummy_value (rng : nat -> nat) (from : nat) (real_value prefix : str) (minimum_len : nat) : str :=
  let target_len := Nat.max (Nat.max (str_len real_value) minimum_len) (str_len prefix + 16) in
  prefix ++ List.map (fun index => dummy_char (Utf8.encode real_value) index (rng (from + (index - str_len prefix))))
              (seq (str_len prefix) (target_len - str_len prefix)).

Definition dummy_value (p : CredentialProvider) (rng : nat -> nat) (from : nat) (real_value : str) : str :=
  match p with
  | Github => shaped_dummy_value rng from real_value (github_token_prefix real_value) GITHUB_TOKEN_MIN_LEN
  | OpenAI => shaped_dummy_value rng from real_value (openai_api_key_prefix real_value) OPENAI_API_KEY_MIN_LEN
  end.

(** ** The broker *)

Record CredentialRecord := mkRecord {
  env_var : str;
  provider : CredentialProvider;
  binding : CredentialHostBinding;
  real_value : str;
  dummy : str }.

Record CredentialBrokerState := mkBroker { broker_enabled : bool; credentials : list CredentialRecord }.

Definition broker_new (enabled : bool) : CredentialBrokerState := mkBroker enabled [].

Definition is_dummy_value (credentials : list CredentialRecord) (value : str) : bool :=
  existsb (fun credential => dummy credential == value) credentials.

(** The loop of [register]: the first candidate that is fresh, and the next random number. *)
Fixpoint fresh_dummy (fuel : nat) (p : CredentialProvider) (rng : nat -> nat) (from : nat) (creds : list CredentialRecord)
    (real_value : str) : option (str * nat) :=
  match fuel with
  | O => None
  | S fuel =>
      let candidate := dummy_value p rng from real_value in
      if negb (candidate == real_value) && negb (is_dummy_value creds candidate) then Some (candidate, from + length candidate)
      else fresh_dummy fuel p rng (from + length candidate) creds real_value
  end.

Definition AUTHORIZATION : str := lit "authorization".

Section broker.
Context `{HttpLib} `{MarkerLib}.
Context (fuel : nat) (rng : nat -> nat).

Definition request_header_value (value : str) : option HeaderValue := header_value_from_str (lit "Bearer " ++ value).

Definition register (env_var : str) (p : CredentialProvider) (b : CredentialHostBinding) (real : str) (from : nat)
    (creds : list CredentialRecord) : option (list CredentialRecord * str * nat) :=
  match find_first (fun c => (NetworkBroker.env_var c == env_var) && (provider c == p) && (binding c == b) && (real_value c == real)) creds with
  | Some existing => Some (creds, dummy existing, from)
  | None =>
      match fresh_dummy fuel p rng from creds real with
      | Some (d, from) => Some (creds ++ [mkRecord env_var p b real d], d, from)
      | None => None
      end
  end.

Definition brokerable_credential_value (env : Env) (creds : list CredentialRecord) (env_var : str) : option str :=
  match env !! env_var with
  | None => None
  | Some value =>
      let real := trim value in
      if negb (is_empty real) && negb (is_dummy_value creds real) && is_some (request_header_value real) then Some real else None
  end.

(** The environment, the records, and the next random number. *)
Notation Acc := (option (Env * list CredentialRecord * nat)).

Definition virtualize_env_var (p : CredentialProvider) (b : CredentialHostBinding) (acc : Acc) (env_var : str) : Acc :=
  match acc with
  | None => None
  | Some (env, creds, from) =>
      match brokerable_credential_value env creds env_var with
      | None => Some (env, creds, from)
      | Some real =>
          match register env_var p b real from creds with
          | Some (creds, d, from) => Some (<[env_var := d]> env, creds, from)
          | None => None
          end
      end
  end.

Definition virtualize_source (p : CredentialProvider) (acc : Acc) (source : CredentialSource) : Acc :=
  match acc with
  | None => None
  | Some (env, creds, from) =>
      match host_binding source env with
      | None => Some (env, creds, from)
      | Some b => fold_left (virtualize_env_var p b) (env_vars source) (Some (env, creds, from))
      end
  end.

Definition update_brokered_credentials_marker (creds : list CredentialRecord) (env : Env) : Env :=
  let brokered := omap (fun key => match env !! key with
                                   | Some value => if is_dummy_value creds value then Some (key, value) else None
                                   | None => None
                                   end) credential_broker_env_keys in
  match marker_to_string brokered with
  | Some marker => <[BROKERED_CREDENTIALS_ENV_KEY := marker]> env
  | None => delete BROKERED_CREDENTIALS_ENV_KEY env
  end.

Definition virtualize_child_env (from : nat) (state : CredentialBrokerState) (env : Env) : option (CredentialBrokerState * Env) :=
  if negb (broker_enabled state) then
    Some (state, delete BROKERED_CREDENTIALS_ENV_KEY (delete CREDENTIAL_BROKER_ACTIVE_ENV_KEY env))
  else
    let env := <[CREDENTIAL_BROKER_ACTIVE_ENV_KEY := lit "1"]> env in
    let acc := fold_left (fun acc p => fold_left (virtualize_source p) (sources p) acc) credential_providers
                 (Some (env, credentials state, from)) in
    match acc with
    | None => None
    | Some (env, creds, _) => Some (mkBroker true creds, update_brokered_credentials_marker creds env)
    end.

(** ** Requests *)

Definition matches_host (c : CredentialRecord) (host : str) : bool := binding_matches_host (binding c) host.

Definition host_requires_mitm (state : CredentialBrokerState) (host : str) : bool :=
  broker_enabled state && existsb (fun c => matches_host c (normalize_host host)) (credentials state).

(** The first value of the header, and setting it. *)
Definition headers_get (headers : list (str * HeaderValue)) (name : str) : option HeaderValue :=
  option_map snd (find_first (fun e => e.1 == name) headers).

Definition headers_insert (headers : list (str * HeaderValue)) (name : str) (value : HeaderValue) : list (str * HeaderValue) :=
  List.filter (fun e => negb (e.1 == name)) headers ++ [(name, value)].

Definition shows_dummy (headers : list (str * HeaderValue)) (c : CredentialRecord) : bool :=
  is_some_and (headers_get headers AUTHORIZATION ≫= header_to_str) (fun value => contains (dummy c) value).

Definition select_credential (headers : list (str * HeaderValue)) (matching : list CredentialRecord) : option CredentialRecord :=
  match List.filter (shows_dummy headers) matching with
  | [credential] => Some credential
  | _ => None
  end.

Definition inject_request_headers (state : CredentialBrokerState) (host : str) (headers : list (str * HeaderValue))
    : list (str * HeaderValue) :=
  let normalized_host := normalize_host host in
  if negb (broker_enabled state) then headers
  else
    match select_credential headers (List.filter (fun c => matches_host c normalized_host) (credentials state)) with
    | None => headers
    | Some c =>
        match request_header_value (real_value c) with
        | None => headers
        | Some value => headers_insert headers AUTHORIZATION value
        end
    end.

(** [host_mitm_requirement] of runtime.rs. *)
Inductive HostMitmRequirement := RequireNone | RequireTls | RequireAlways.

Definition host_mitm_requirement {Json MitmState} (st : ConfigState Json MitmState) (state : CredentialBrokerState) (host : str)
    : HostMitmRequirement :=
  let normalized_host := normalize_host host in
  if is_some (bmap_get normalized_host (state_hooks st)) then RequireAlways
  else if host_requires_mitm state normalized_host then RequireTls
  else RequireNone.

(** ** Child environments *)

Definition brokered_credential_dummy_env_keys (env : Env) : list str :=
  let pairs := default [] (env !! BROKERED_CREDENTIALS_ENV_KEY ≫= marker_from_str) in
  omap (fun '(key, d) =>
    if existsb (fun candidate => candidate == key) credential_broker_env_keys && (env !! key == Some d) then Some key else None) pairs.

Definition brokered_credential_env_keys (env : Env) : list str :=
  if is_some_and (env !! CREDENTIAL_BROKER_ACTIVE_ENV_KEY) (fun value => value == lit "1") then credential_broker_env_keys else [].

End broker.

End NetworkBroker.

(** * Facts on the credential broker: what a child process sees of a credential, where the
    real value may go, and that the marker names exactly the brokered variables. *)

Module NetworkBrokerFacts.
Import NetworkPolicy NetworkConfig NetworkHooks NetworkState NetworkBroker.

Open Scope rust_scope.

(** ** Dummies *)

Lemma is_dummy_value_true creds v : is_dummy_value creds v = true <-> exists c, c ∈ creds /\ dummy c = v.
Proof.
  unfold is_dummy_value. rewrite existsb_exists. split.
  - intros (c & Hc%list_elem_of_In & E%bool_decide_eq_true). by exists c.
  - intros (c & Hc & E). exists c. split; [by apply list_elem_of_In|by apply bool_decide_eq_true].
Qed.

Lemma is_dummy_value_app creds l v : is_dummy_value creds v = true -> is_dummy_value (creds ++ l) v = true.
Proof. unfold is_dummy_value. rewrite existsb_app. by intros ->. Qed.

Definition dummy_len (p : CredentialProvider) (real : str) : nat := length (dummy_value p (fun _ => 0) 0 real).

Lemma length_dummy_value p rng from real : length (dummy_value p rng from real) = dummy_len p real.
Proof. unfold dummy_len, dummy_value, shaped_dummy_value. destruct p; by rewrite !length_app, !List.length_map. Qed.

(** The [k]-th attempt to make a dummy. *)
Definition attempt (p : CredentialProvider) (rng : nat -> nat) (from k : nat) (real : str) : str :=
  dummy_value p rng (from + k * dummy_len p real) real.

Definition fresh (creds : list CredentialRecord) (real candidate : str) : Prop :=
  candidate <> real /\ is_dummy_value creds candidate = false.

Lemma fresh_dummy_fresh fuel p rng from creds real d n : fresh_dummy fuel p rng from creds real = Some (d, n) -> fresh creds real d.
Proof.
  revert from. induction fuel as [|fuel IH]; intros from; cbn [fresh_dummy]; [done|]. cbv zeta.
  destruct (_ && _) eqn:E; [|by apply IH]. intros [= <- <-]. bool_to_prop. done.
Qed.

(** As soon as one of the attempts is fresh the loop ends. *)
Lemma fresh_dummy_ends fuel p rng from creds real k :
  k < fuel -> fresh creds real (attempt p rng from k real) -> is_Some (fresh_dummy fuel p rng from creds real).
Proof.
  revert from k. induction fuel as [|fuel IH]; intros from k Hk Hf; [lia|]. cbn [fresh_dummy]. cbv zeta.
  destruct (_ && _) eqn:E; [done|]. destruct k as [|k].
  - exfalso. unfold attempt in Hf. rewrite Nat.mul_0_l, Nat.add_0_r in Hf. destruct Hf as [H1 H2].
    rewrite bool_decide_eq_false_2, H2 in E by done. done.
  - apply (IH _ k); [lia|]. rewrite length_dummy_value. unfold attempt in *. by replace (from + dummy_len p real + k * dummy_len p real) with
      (from + S k * dummy_len p real) by lia.
Qed.

(** ** Records *)

(** Dummies tell the records apart, and none is the value it stands for. *)
Definition wf_credentials (creds : list CredentialRecord) : Prop :=
  NoDup (List.map dummy creds) /\ forall c, c ∈ creds -> dummy c <> real_value c.

(** A record that stands for the value of the variable at the hosts of the binding. *)
Definition stands_for (c : CredentialRecord) (var : str) (p : CredentialProvider) (b : CredentialHostBinding) (real : str) : Prop :=
  env_var c = var /\ provider c = p /\ binding c = b /\ real_value c = real.

Lemma register_spec fuel rng var p b real from creds creds' d n :
  register fuel rng var p b real from creds = Some (creds', d, n) ->
  (exists l, creds' = creds ++ l) /\ (wf_credentials creds -> wf_credentials creds') /\
  exists c, c ∈ creds' /\ dummy c = d /\ stands_for c var p b real.
Proof.
  unfold register. destruct (find_first _ creds) as [c|] eqn:Ef.
  - intros [= <- <- <-]. split; [exists []; by rewrite app_nil_r|]. split; [done|].
    apply find_first_Some in Ef as (l1 & l2 & -> & E & _). bool_to_prop. exists c. split; [apply elem_of_app; right; by left|done].
  - destruct (fresh_dummy fuel p rng from creds real) as [[d' n']|] eqn:Ed; [|done]. intros [= <- <- <-].
    apply fresh_dummy_fresh in Ed as [Hr Hd]. set (c := mkRecord var p b real d'). split; [by exists [c]|]. split.
    + intros [Hn Hw]. split.
      * rewrite List.map_app. apply NoDup_app. split; [done|]. split; [|apply NoDup_singleton].
        intros x (c' & -> & Hc')%list_elem_of_fmap Hx%list_elem_of_singleton.
        rewrite (proj2 (is_dummy_value_true _ _)) in Hd; [done|]. by exists c'.
      * intros c' [Hc'|Hx]%elem_of_app; [by apply Hw|]. apply list_elem_of_singleton in Hx as ->. done.
    + exists c. split; [apply elem_of_app; right; by left|]. done.
Qed.

Section broker.
Context `{HttpLib}.

(** What became of a variable: a dummy is in its place, or nothing there can be sent. *)
Definition replaced (env env' : gmap str str) (creds' : list CredentialRecord) (var : str) (p : CredentialProvider)
    (b : CredentialHostBinding) : Prop :=
  forall value, env !! var = Some value ->
  (exists c, c ∈ creds' /\ stands_for c var p b (trim value) /\ env' !! var = Some (dummy c)) \/
  (env' !! var = Some value /\ (trim value = [] \/ is_dummy_value creds' (trim value) = true \/ request_header_value (trim value) = None)).

(** Only the variables of the list change, and records are only added. *)
Definition extends (vars : list str) (env : gmap str str) (creds : list CredentialRecord) (env' : gmap str str)
    (creds' : list CredentialRecord) : Prop :=
  (forall v, v ∉ vars -> env' !! v = env !! v) /\ (exists l, creds' = creds ++ l) /\ (wf_credentials creds -> wf_credentials creds').

Lemma extends_env vars env env' creds : (forall v, v ∉ vars -> env' !! v = env !! v) -> extends vars env creds env' creds.
Proof using Type. intros Hv. split; [done|]. split; [exists []; by rewrite app_nil_r|done]. Qed.

Lemma extends_refl vars env creds : extends vars env creds env creds.
Proof using Type. by apply extends_env. Qed.

Lemma extends_trans vars1 vars2 env1 creds1 env2 creds2 env3 creds3 :
  extends vars1 env1 creds1 env2 creds2 -> extends vars2 env2 creds2 env3 creds3 -> extends (vars1 ++ vars2) env1 creds1 env3 creds3.
Proof using Type.
  intros (H1 & [l1 ->] & W1) (H2 & [l2 ->] & W2). split; [|split; [exists (l1 ++ l2); by rewrite app_assoc|auto]].
  intros v Hv. rewrite elem_of_app in Hv. rewrite H2, H1 by tauto. done.
Qed.

Lemma replaced_extends env env' env'' creds' creds'' vars var p b :
  replaced env env' creds' var p b -> extends vars env' creds' env'' creds'' -> var ∉ vars -> replaced env env'' creds'' var p b.
Proof using Type.
  intros Hr (Hv & [l ->] & _) Hn value E. rewrite (Hv _ Hn). destruct (Hr value E) as [(c & Hc & Hs & Ed)|(E' & Hc)].
  - left. exists c. split; [apply elem_of_app; by left|done].
  - right. split; [done|]. destruct Hc as [?|[?|?]]; auto. right. left. by apply is_dummy_value_app.
Qed.

Lemma replaced_before env0 env env' creds' vars creds var p b :
  extends vars env0 creds env creds' -> var ∉ vars -> forall creds'', replaced env env' creds'' var p b -> replaced env0 env' creds'' var p b.
Proof using Type. intros (Hv & _) Hn creds'' Hr value E. apply Hr. by rewrite Hv. Qed.

Context (fuel : nat) (rng : nat -> nat).

Lemma virtualize_env_var_spec p b env creds from var env' creds' from' :
  virtualize_env_var fuel rng p b (Some (env, creds, from)) var = Some (env', creds', from') ->
  extends [var] env creds env' creds' /\ replaced env env' creds' var p b.
Proof using Type.
  cbn [virtualize_env_var]. destruct (brokerable_credential_value env creds var) as [real|] eqn:Eb; unfold brokerable_credential_value in Eb.
  - destruct (register fuel rng var p b real from creds) as [[[creds2 d] n]|] eqn:Er; [|done]. intros [= <- <- <-].
    apply register_spec in Er as ((l & ->) & Hw & c & Hc & <- & Hs). split.
    + split; [|split; [by exists l|done]]. intros v Hv. apply lookup_insert_ne. intros ->. apply Hv. by left.
    + intros value E. rewrite E in Eb. case_match; [|done]. injection Eb as <-. left. exists c. split; [done|]. split; [done|]. apply lookup_insert_eq.
  - intros [= <- <- <-]. split; [apply extends_refl|]. intros value E. right. split; [done|]. rewrite E in Eb. cbv zeta in Eb.
    destruct (is_empty (trim value)) eqn:E1; [left; by apply is_empty_true|]. destruct (is_dummy_value creds (trim value)) eqn:E2; [by right; left|].
    right. right. cbn in Eb. by destruct (request_header_value (trim value)).
Qed.

Lemma fold_None p b vars : fold_left (virtualize_env_var fuel rng p b) vars None = None.
Proof using Type. induction vars; [done|]. done. Qed.

Lemma virtualize_vars_spec p b vars env creds from env' creds' from' :
  NoDup vars -> fold_left (virtualize_env_var fuel rng p b) vars (Some (env, creds, from)) = Some (env', creds', from') ->
  extends vars env creds env' creds' /\ forall var, var ∈ vars -> replaced env env' creds' var p b.
Proof using Type.
  intros Hn. revert env creds from. induction Hn as [|var vars Hv Hn IH]; intros env creds from; cbn [fold_left].
  { intros [= <- <- <-]. split; [apply extends_refl|]. by intros ? ?%not_elem_of_nil. }
  destruct (virtualize_env_var fuel rng p b (Some (env, creds, from)) var) as [[[env2 creds2] from2]|] eqn:E; [|by rewrite fold_None].
  apply virtualize_env_var_spec in E as [He Hr]. intros (He' & Hr')%IH. split; [by apply (extends_trans [var] vars _ _ env2 creds2)|].
  intros v [->|Hin]%elem_of_cons; [by eapply replaced_extends|].
  eapply replaced_before; [exact He| |by apply Hr']. intros ->%list_elem_of_singleton. done.
Qed.

(** A variable of a source: without a host to bind it to it is left alone. *)
Definition accounted (source : CredentialSource) (env env' : gmap str str) (creds' : list CredentialRecord) (var : str) (p : CredentialProvider) : Prop :=
  match host_binding source env with Some b => replaced env env' creds' var p b | None => env' !! var = env !! var end.

Lemma virtualize_source_spec p source env creds from env' creds' from' :
  NoDup (env_vars source) -> virtualize_source fuel rng p (Some (env, creds, from)) source = Some (env', creds', from') ->
  extends (env_vars source) env creds env' creds' /\ forall var, var ∈ env_vars source -> accounted source env env' creds' var p.
Proof using Type.
  intros Hn. cbn [virtualize_source]. unfold accounted. destruct (host_binding source env) as [b|].
  - intros [He Hr]%virtualize_vars_spec; [|done]. by split.
  - intros [= <- <- <-]. split; [apply extends_refl|done].
Qed.

(** ** The environment of a child *)

Lemma disjoint_check (l1 l2 : list str) : forallb (fun v => negb (bool_decide (v ∈ l2))) l1 = true -> forall v, v ∈ l1 -> v ∉ l2.
Proof using Type.
  intros E v Hv Hin. rewrite forallb_forall in E. specialize (E v (proj1 (list_elem_of_In _ _) Hv)). bool_to_prop. done.
Qed.

(** The binding of a source is a matter of [GH_HOST] only. *)
Lemma host_binding_env (p : CredentialProvider) (source : CredentialSource) (env env' : gmap str str) :
  source ∈ sources p -> env' !! GH_HOST_ENV_VAR = env !! GH_HOST_ENV_VAR -> host_binding source env' = host_binding source env.
Proof using Type.
  intros Hs E. destruct p; cbn [sources] in Hs.
  - apply elem_of_cons in Hs as [->|Hs]; [done|]. apply list_elem_of_singleton in Hs as ->. cbn [host_binding].
    unfold github_enterprise_binding, github_host_hint. by rewrite E.
  - by apply list_elem_of_singleton in Hs as ->.
Qed.

(** One source among others: [before] and [after] are the variables that change around it. *)
Lemma source_accounted (p : CredentialProvider) (source : CredentialSource) env0 creds0 env1 creds1 env2 creds2 env3 creds3 before after from from' :
  source ∈ sources p -> NoDup (env_vars source) ->
  (forall v, v ∈ GH_HOST_ENV_VAR :: env_vars source -> v ∉ before) -> (forall v, v ∈ env_vars source -> v ∉ after) ->
  extends before env0 creds0 env1 creds1 ->
  virtualize_source fuel rng p (Some (env1, creds1, from)) source = Some (env2, creds2, from') ->
  extends after env2 creds2 env3 creds3 ->
  forall var, var ∈ env_vars source -> accounted source env0 env3 creds3 var p.
Proof using Type.
  intros Hs Hn Hb Ha He1 Ev He2 var Hv. apply virtualize_source_spec in Ev as [_ Hr]; [|done]. specialize (Hr var Hv). unfold accounted in *.
  assert (Hhost : host_binding source env1 = host_binding source env0).
  { eapply host_binding_env; [done|]. destruct He1 as [He1 _]. apply He1, Hb. by left. }
  rewrite Hhost in Hr. destruct (host_binding source env0) as [b|].
  - eapply replaced_before; [exact He1|apply Hb; by right|]. eapply replaced_extends; [exact Hr|exact He2|by apply Ha].
  - destruct He1 as [He1 _], He2 as [He2 _]. rewrite He2, Hr, He1; [done|apply Hb; by right|by apply Ha].
Qed.

Context `{MarkerLib}.

(** The variables that the broker may change. *)
Definition broker_vars : list str :=
  [CREDENTIAL_BROKER_ACTIVE_ENV_KEY; BROKERED_CREDENTIALS_ENV_KEY]
  ++ GITHUB_CLOUD_TOKEN_ENV_VARS ++ GITHUB_ENTERPRISE_TOKEN_ENV_VARS ++ OPENAI_API_KEY_ENV_VARS.

Lemma source_cases (p : CredentialProvider) source : source ∈ sources p ->
  p = Github /\ (source = mkSource GITHUB_CLOUD_TOKEN_ENV_VARS github_cloud_binding \/ source = mkSource GITHUB_ENTERPRISE_TOKEN_ENV_VARS github_enterprise_binding)
  \/ p = OpenAI /\ source = mkSource OPENAI_API_KEY_ENV_VARS openai_host_binding.
Proof using Type.
  intros Hs. destruct p; cbn [sources] in Hs.
  - apply elem_of_cons in Hs as [Hs|Hs]; [left; split; [reflexivity|left; exact Hs]|].
    apply list_elem_of_singleton in Hs. left. split; [reflexivity|right; exact Hs].
  - apply list_elem_of_singleton in Hs. right. split; [reflexivity|exact Hs].
Qed.

Lemma source_vars_nodup (p : CredentialProvider) source : source ∈ sources p -> NoDup (env_vars source).
Proof using Type. intros [[-> [->| ->]]|[-> ->]]%source_cases; apply (bool_decide_unpack _); vm_compute; exact I. Qed.

Lemma virtualize_child_env_spec from st env st' env' :
  broker_enabled st = true -> virtualize_child_env fuel rng from st env = Some (st', env') ->
  broker_enabled st' = true /\ (wf_credentials (credentials st) -> wf_credentials (credentials st')) /\
  (exists env3, env' = update_brokered_credentials_marker (credentials st') env3) /\
  (forall v, v ∉ broker_vars -> env' !! v = env !! v) /\
  forall (p : CredentialProvider) (source : CredentialSource) var, source ∈ sources p -> var ∈ env_vars source ->
    accounted source env env' (credentials st') var p.
Proof using Type.
  unfold virtualize_child_env. intros ->. cbn [negb credential_providers fold_left sources].
  set (s1 := mkSource GITHUB_CLOUD_TOKEN_ENV_VARS _). set (s2 := mkSource GITHUB_ENTERPRISE_TOKEN_ENV_VARS _).
  set (s3 := mkSource OPENAI_API_KEY_ENV_VARS _). set (env0 := <[CREDENTIAL_BROKER_ACTIVE_ENV_KEY := _]> env).
  destruct (virtualize_source fuel rng Github (Some (env0, credentials st, from)) s1) as [[[env1 creds1] from1]|] eqn:E1; [|done].
  destruct (virtualize_source fuel rng Github (Some (env1, creds1, from1)) s2) as [[[env2 creds2] from2]|] eqn:E2; [|done].
  destruct (virtualize_source fuel rng OpenAI (Some (env2, creds2, from2)) s3) as [[[env3 creds3] from3]|] eqn:E3; [|done].
  intros [= <- <-]. cbn [credentials broker_enabled].
  assert (N1 : NoDup (env_vars s1)) by (apply (source_vars_nodup Github); by left).
  assert (N2 : NoDup (env_vars s2)) by (apply (source_vars_nodup Github); by right; left).
  assert (N3 : NoDup (env_vars s3)) by (apply (source_vars_nodup OpenAI); by left).
  pose proof (virtualize_source_spec _ _ _ _ _ _ _ _ N1 E1) as [X1 _].
  pose proof (virtualize_source_spec _ _ _ _ _ _ _ _ N2 E2) as [X2 _].
  pose proof (virtualize_source_spec _ _ _ _ _ _ _ _ N3 E3) as [X3 _].
  assert (extends [CREDENTIAL_BROKER_ACTIVE_ENV_KEY] env (credentials st) env0 (credentials st)) as X0.
  { apply extends_env. intros v Hv. apply lookup_insert_ne. intros <-. apply Hv. by left. }
  assert (extends [BROKERED_CREDENTIALS_ENV_KEY] env3 creds3 (update_brokered_credentials_marker creds3 env3) creds3) as X4.
  { apply extends_env. intros v Hv. unfold update_brokered_credentials_marker. cbv zeta.
    case_match; [apply lookup_insert_ne|apply lookup_delete_ne]; intros <-; apply Hv; by left. }
  pose proof (extends_trans _ _ _ _ _ _ _ _ X0 X1) as Y1. pose proof (extends_trans _ _ _ _ _ _ _ _ Y1 X2) as Y2.
  pose proof (extends_trans _ _ _ _ _ _ _ _ X3 X4) as Z3. pose proof (extends_trans _ _ _ _ _ _ _ _ X2 Z3) as Z2.
  pose proof (extends_trans _ _ _ _ _ _ _ _ Y1 Z2) as (Hrest & _ & Hwf).
  split; [done|]. split; [done|]. split; [by exists env3|]. split.
  { intros v Hv. apply Hrest. intros Hin. apply Hv. revert v Hin Hv. clear. intros v Hin _. unfold broker_vars.
    unfold s1, s2, s3 in Hin. cbn [env_vars] in Hin. set_solver. }
  intros p source var [[-> [->| ->]]|[-> ->]]%source_cases Hv.
  - simple refine (source_accounted Github s1 _ _ _ _ _ _ _ _ _ _ _ _ _ N1 _ _ X0 E1 Z2 var Hv); [left|apply disjoint_check; vm_compute; reflexivity..].
  - simple refine (source_accounted Github s2 _ _ _ _ _ _ _ _ _ _ _ _ _ N2 _ _ Y1 E2 Z3 var Hv); [right; left|apply disjoint_check; vm_compute; reflexivity..].
  - simple refine (source_accounted OpenAI s3 _ _ _ _ _ _ _ _ _ _ _ _ _ N3 _ _ Y2 E3 X4 var Hv); [left|apply disjoint_check; vm_compute; reflexivity..].
Qed.

End broker.

(** ** The loop of [register] ends *)

(** The random numbers leave nothing out: from every place on each word is drawn
    in some round of its length. *)
Definition fair (rng : nat -> nat) : Prop :=
  forall from (w : list nat), w <> [] -> exists k, forall i x, w !! i = Some x -> rng (from + k * length w + i) mod 62 = x mod 62.

(** More dummies have the shape of the value than [n]. *)
Definition room (p : CredentialProvider) (real : str) (n : nat) : Prop :=
  exists draws : list (nat -> nat), NoDup (List.map (fun rng => dummy_value p rng 0 real) draws) /\ n < length draws.

Lemma room_le p real n m : n <= m -> room p real m -> room p real n.
Proof. intros Hle (draws & Hn & Hl). exists draws. split; [done|lia]. Qed.

Lemma pigeonhole (l avoid : list str) : NoDup l -> length avoid < length l -> exists x, x ∈ l /\ x ∉ avoid.
Proof.
  intros Hn Hl. destruct (decide (Exists (fun x => x ∉ avoid) l)) as [(x & Hx & Ha)%Exists_exists|Hno]; [eauto|].
  exfalso. assert (Hsub : forall x, x ∈ l -> x ∈ avoid).
  { intros x Hx. destruct (decide (x ∈ avoid)); [done|]. exfalso. apply Hno, Exists_exists. eauto. }
  pose proof (submseteq_length _ _ (NoDup_submseteq _ _ Hn Hsub)). lia.
Qed.

Lemma room_fresh p real creds : room p real (S (length creds)) -> exists rng0, fresh creds real (dummy_value p rng0 0 real).
Proof.
  intros (draws & Hn & Hl). destruct (pigeonhole _ (real :: List.map dummy creds) Hn) as (x & Hx & Ha).
  { cbn. by rewrite !List.length_map. }
  apply list_elem_of_fmap in Hx as (rng0 & -> & _). exists rng0. apply not_elem_of_cons in Ha as [Hr Hd]. split; [done|].
  apply not_true_iff_false. rewrite is_dummy_value_true. intros (c & Hc & Hdc). apply Hd. apply list_elem_of_fmap. eauto.
Qed.

Lemma shaped_ext rng1 rng2 from1 from2 real prefix n :
  (forall i, i < length (shaped_dummy_value rng1 from1 real prefix n) -> rng1 (from1 + i) mod 62 = rng2 (from2 + i) mod 62) ->
  shaped_dummy_value rng1 from1 real prefix n = shaped_dummy_value rng2 from2 real prefix n.
Proof.
  unfold shaped_dummy_value. rewrite length_app, List.length_map, length_seq. intros He. f_equal. apply List.map_ext_in. intros index Hi%List.in_seq.
  unfold dummy_char. rewrite He by lia. done.
Qed.

Lemma dummy_ext p rng1 rng2 from1 from2 real :
  (forall i, i < dummy_len p real -> rng1 (from1 + i) mod 62 = rng2 (from2 + i) mod 62) ->
  dummy_value p rng1 from1 real = dummy_value p rng2 from2 real.
Proof. rewrite <- (length_dummy_value p rng1 from1). unfold dummy_value. destruct p; apply shaped_ext. Qed.

Lemma dummy_len_pos p real : 0 < dummy_len p real.
Proof.
  unfold dummy_len, dummy_value, shaped_dummy_value. destruct p; rewrite length_app, List.length_map, length_seq;
    match goal with |- 0 < _ + (?target - ?start) => assert (start < target); [|lia] end; lia.
Qed.

(** Fair random numbers make every dummy of a shape at some time. *)
Lemma fair_draws rng from p real rng0 : fair rng -> exists k, attempt p rng from k real = dummy_value p rng0 0 real.
Proof.
  intros Hfair. pose proof (dummy_len_pos p real) as Hpos.
  destruct (Hfair from (List.map rng0 (seq 0 (dummy_len p real)))) as [k Hk].
  { intros E. apply (f_equal length) in E. rewrite List.length_map, length_seq in E. cbn in E. lia. }
  rewrite List.length_map, length_seq in Hk. exists k. apply dummy_ext. intros i Hi. apply Hk.
  rewrite list_lookup_fmap, lookup_seq_lt by lia. done.
Qed.

(** Enough rounds give one result, and more the same. *)
Definition settles {A} (c : nat -> option A) (a : A) : Prop := exists rounds, forall fuel, rounds <= fuel -> c fuel = Some a.

Lemma settles_ret {A} (a : A) : settles (fun _ => Some a) a.
Proof. by exists 0. Qed.

Lemma fresh_dummy_more p rng creds real d : forall fuel fuel' from, fuel <= fuel' ->
  fresh_dummy fuel p rng from creds real = Some d -> fresh_dummy fuel' p rng from creds real = Some d.
Proof.
  induction fuel as [|fuel IH]; intros [|fuel'] from Hle; try done; [lia|]. cbn [fresh_dummy]. cbv zeta.
  destruct (_ && _); [done|]. apply IH. lia.
Qed.

Section Settling.
Context `{HttpLib} (rng : nat -> nat) (Hfair : fair rng).

Lemma fresh_dummy_settles p from creds real : room p real (S (length creds)) ->
  exists d, settles (fun fuel => fresh_dummy fuel p rng from creds real) d.
Proof using Hfair.
  intros (rng0 & Hf)%room_fresh. destruct (fair_draws rng from p real rng0 Hfair) as [k Hk]. rewrite <- Hk in Hf.
  destruct (fresh_dummy_ends (S k) p rng from creds real k ltac:(lia) Hf) as [d Hd]. exists d, (S k). intros fuel Hle.
  by apply (fresh_dummy_more p rng creds real d (S k)).
Qed.

(** The values of variables leave room for [n] records. *)
Definition roomy (p : CredentialProvider) (env : gmap str str) (vars : list str) (n : nat) : Prop :=
  forall var value, var ∈ vars -> env !! var = Some value -> is_some (request_header_value (trim value)) = true -> room p (trim value) n.

Lemma env_var_settles p b env creds from var :
  roomy p env [var] (S (length creds)) ->
  exists env' creds' from', settles (fun fuel => virtualize_env_var fuel rng p b (Some (env, creds, from)) var) (env', creds', from')
    /\ length creds' <= S (length creds).
Proof using Hfair.
  intros Hroom. cbn [virtualize_env_var]. destruct (brokerable_credential_value env creds var) as [real|] eqn:Eb.
  2: { exists env, creds, from. split; [apply settles_ret|lia]. }
  assert (Hr : room p real (S (length creds))).
  { unfold brokerable_credential_value in Eb. destruct (env !! var) as [value|] eqn:Ev; [|done]. cbv zeta in Eb.
    destruct (negb _ && negb _); [|done]. destruct (is_some (request_header_value (trim value))) eqn:Es; [|done]. injection Eb as <-.
    eapply Hroom; [by left|done|done]. }
  unfold register. destruct (find_first _ creds) as [existing|].
  - exists (<[var := dummy existing]> env), creds, from. split; [apply settles_ret|lia].
  - destruct (fresh_dummy_settles p from creds real Hr) as [[d from'] [rounds Hd]]. eexists _, _, _. split.
    + exists rounds. intros fuel Hf. by rewrite Hd.
    + rewrite length_app. cbn. lia.
Qed.

Lemma vars_settle p b vars : forall env creds from, NoDup vars ->
  roomy p env vars (length creds + length vars) ->
  exists env' creds' from', settles (fun fuel => fold_left (virtualize_env_var fuel rng p b) vars (Some (env, creds, from))) (env', creds', from')
    /\ length creds' <= length creds + length vars.
Proof using Hfair.
  induction vars as [|var vars IH]; intros env creds from Hn Hroom; cbn [fold_left].
  { exists env, creds, from. split; [apply settles_ret|cbn; lia]. }
  apply NoDup_cons in Hn as [Hv Hn]. cbn [length] in Hroom.
  destruct (env_var_settles p b env creds from var) as (env1 & creds1 & from1 & H1 & L1).
  { intros v value ->%list_elem_of_singleton E Es. eapply room_le; [|eapply Hroom; [by left|done|done]]. lia. }
  assert (Hsame : forall v, v ∈ vars -> env1 !! v = env !! v).
  { intros v Hin. destruct H1 as [n1 H1]. specialize (H1 n1 ltac:(lia)). apply virtualize_env_var_spec in H1 as [[He _] _].
    apply He. intros ->%list_elem_of_singleton. done. }
  destruct (IH env1 creds1 from1 Hn) as (env2 & creds2 & from2 & H2 & L2).
  { intros v value Hin E Es. rewrite Hsame in E by done. eapply room_le; [|eapply Hroom; [by right|done|done]]. lia. }
  exists env2, creds2, from2. split; [|cbn [length]; lia].
  destruct H1 as [n1 H1], H2 as [n2 H2]. exists (n1 + n2). intros fuel Hf. rewrite H1 by lia. apply H2. lia.
Qed.

Lemma source_settles p source env creds from : source ∈ sources p ->
  roomy p env (env_vars source) (length creds + length (env_vars source)) ->
  exists env' creds' from', settles (fun fuel => virtualize_source fuel rng p (Some (env, creds, from)) source) (env', creds', from')
    /\ length creds' <= length creds + length (env_vars source).
Proof using Hfair.
  intros Hs Hroom. cbn [virtualize_source]. destruct (host_binding source env) as [b|].
  - apply vars_settle; [by eapply source_vars_nodup|done].
  - exists env, creds, from. split; [apply settles_ret|lia].
Qed.

Lemma source_keeps_roomy p source env creds from env' creds' from' q vars n m :
  source ∈ sources p -> settles (fun fuel => virtualize_source fuel rng p (Some (env, creds, from)) source) (env', creds', from') ->
  (forall v, v ∈ vars -> v ∉ env_vars source) -> m <= n -> roomy q env vars n -> roomy q env' vars m.
Proof using Type.
  intros Hs [rounds Hr] Hd Hle Hroom v value Hin E Es. specialize (Hr rounds ltac:(lia)).
  apply virtualize_source_spec in Hr as [[He _] _]; [|by eapply source_vars_nodup]. rewrite He in E by (by apply Hd).
  eapply room_le; [exact Hle|]. by eapply Hroom.
Qed.

Context `{MarkerLib}.

(** With room for five more records the broker gives an environment. *)
Lemma virtualize_child_env_settles from st env :
  (forall p source, source ∈ sources p -> roomy p env (env_vars source) (length (credentials st) + 5)) ->
  exists st' env', settles (fun fuel => virtualize_child_env fuel rng from st env) (st', env').
Proof using Hfair.
  intros Hroom. unfold virtualize_child_env. destruct (broker_enabled st); cbn [negb]; [|eexists _, _; apply settles_ret].
  cbn [credential_providers fold_left sources]. set (env0 := <[CREDENTIAL_BROKER_ACTIVE_ENV_KEY := _]> env).
  assert (Hroom0 : forall p source, source ∈ sources p -> roomy p env0 (env_vars source) (length (credentials st) + 5)).
  { intros p source Hs v value Hin E Es. eapply Hroom; [exact Hs|exact Hin| |exact Es]. unfold env0 in E. rewrite lookup_insert_ne in E; [done|].
    intros <-. revert Hin. apply source_cases in Hs as [[-> [->| ->]]|[-> ->]]; apply (disjoint_check [CREDENTIAL_BROKER_ACTIVE_ENV_KEY]); (by left || by vm_compute). }
  clearbody env0. clear Hroom.
  set (s1 := mkSource GITHUB_CLOUD_TOKEN_ENV_VARS _). set (s2 := mkSource GITHUB_ENTERPRISE_TOKEN_ENV_VARS _). set (s3 := mkSource OPENAI_API_KEY_ENV_VARS _).
  assert (I1 : s1 ∈ sources Github) by (by left). assert (I2 : s2 ∈ sources Github) by (by right; left). assert (I3 : s3 ∈ sources OpenAI) by (by left).
  pose proof (Hroom0 _ _ I1) as R1. pose proof (Hroom0 _ _ I2) as R2. pose proof (Hroom0 _ _ I3) as R3. set (n := length (credentials st)) in *.
  destruct (source_settles Github s1 env0 (credentials st) from I1) as (env1 & creds1 & from1 & H1 & L1).
  { intros v value Hin E Es. eapply room_le; [|by eapply R1]. cbn. lia. }
  cbn in L1. assert (R2' := source_keeps_roomy _ _ _ _ _ _ _ _ Github (env_vars s2) (n + 5) (length creds1 + 2) I1 H1
    ltac:(apply disjoint_check; by vm_compute) ltac:(lia) R2).
  assert (R3' := source_keeps_roomy _ _ _ _ _ _ _ _ OpenAI (env_vars s3) (n + 5) (n + 5) I1 H1 ltac:(apply disjoint_check; by vm_compute) ltac:(lia) R3).
  destruct (source_settles Github s2 env1 creds1 from1 I2 R2') as (env2 & creds2 & from2 & H2 & L2). cbn in L2.
  assert (R3'' := source_keeps_roomy _ _ _ _ _ _ _ _ OpenAI (env_vars s3) (n + 5) (length creds2 + 1) I2 H2
    ltac:(apply disjoint_check; by vm_compute) ltac:(lia) R3').
  destruct (source_settles OpenAI s3 env2 creds2 from2 I3 R3'') as (env3 & creds3 & from3 & H3 & _).
  eexists _, _. destruct H1 as [n1 H1], H2 as [n2 H2], H3 as [n3 H3]. exists (n1 + n2 + n3). intros fuel Hf.
  rewrite H1 by lia. rewrite H2 by lia. rewrite H3 by lia. done.
Qed.

End Settling.

(** *** Fair random numbers exist *)

(** In [2^j, 2^(j+1)) the word of number [j] is repeated. *)
Definition word_of (j : nat) : list nat := match decode_nat (A:=nat * list nat) j with Some (_, w) => w | None => [] end.
Definition sample_rng (n : nat) : nat := let w := word_of (Nat.log2 n) in nth (n mod length w) w 0.

Lemma word_of_encode (pad : nat) w : word_of (encode_nat (pad, w)) = w.
Proof. unfold word_of. by rewrite decode_encode_nat. Qed.

Lemma unbounded (f : nat -> nat) bound : Inj (=) (=) f -> exists x, bound <= f x.
Proof.
  intros Hinj. destruct (decide (Exists (fun x => bound <= f x) (seq 0 (S bound)))) as [(x & _ & Hx)%Exists_exists|Hno]; [eauto|].
  exfalso. assert (Hsub : forall y, y ∈ f <$> seq 0 (S bound) -> y ∈ seq 0 bound).
  { intros y (x & -> & Hx)%list_elem_of_fmap. apply elem_of_seq. split; [lia|]. destruct (decide (bound <= f x)); [|lia].
    exfalso. apply Hno, Exists_exists. eauto. }
  assert (Hn : NoDup (f <$> seq 0 (S bound))) by (apply NoDup_fmap_2, NoDup_seq; done).
  pose proof (submseteq_length _ _ (NoDup_submseteq _ _ Hn Hsub)) as Hl. rewrite length_fmap, !length_seq in Hl. lia.
Qed.

Lemma fair_sample : fair sample_rng.
Proof.
  intros from w Hw. set (n := length w). assert (Hpos : 0 < n) by (unfold n; destruct w; [done|cbn; lia]).
  (* the word turned so that it is read from [from] on *)
  set (turned := List.map (fun q => nth ((q + (n - from mod n)) mod n) w 0) (seq 0 n)).
  assert (Hlen : length turned = n) by (unfold turned; by rewrite List.length_map, length_seq).
  destruct (unbounded (fun pad => encode_nat (pad, turned)) (from + 2 * n)) as [pad Hpad].
  { intros x y E. apply (inj encode_nat) in E. congruence. }
  set (j := encode_nat (pad, turned)) in *. assert (Hbig : from + 2 * n < 2 ^ j) by (pose proof (Nat.pow_gt_lin_r 2 j ltac:(lia)); lia).
  pose proof (Nat.div_mod (2 ^ j - from + (n - 1)) n ltac:(lia)) as Hk. pose proof (Nat.mod_upper_bound (2 ^ j - from + (n - 1)) n ltac:(lia)) as Hm.
  exists ((2 ^ j - from + (n - 1)) / n). intros i x Hi. fold n. set (k := (2 ^ j - from + (n - 1)) / n) in *.
  pose proof (lookup_lt_Some _ _ _ Hi) as Hin. fold n in Hin.
  assert (Hlog : Nat.log2 (from + k * n + i) = j) by (apply Nat.log2_unique; [lia|]; rewrite Nat.pow_succ_r'; nia).
  unfold sample_rng. rewrite Hlog. unfold j. rewrite word_of_encode. cbv zeta. fold n. rewrite Hlen.
  replace (from + k * n + i) with (from + i + k * n) by lia. rewrite Nat.Div0.mod_add. f_equal.
  pose proof (Nat.mod_upper_bound (from + i) n ltac:(lia)) as Hq.
  rewrite (nth_lookup_Some _ _ 0 (nth (((from + i) mod n + (n - from mod n)) mod n) w 0)).
  - assert (((from + i) mod n + (n - from mod n)) mod n = i) as ->; [|by apply nth_lookup_Some].
    rewrite Nat.Div0.add_mod_idemp_l. pose proof (Nat.div_mod from n ltac:(lia)) as Hd. pose proof (Nat.mod_upper_bound from n ltac:(lia)).
    replace (from + i + (n - from mod n)) with (i + (from / n + 1) * n) by nia. rewrite Nat.Div0.mod_add. by apply Nat.mod_small.
  - unfold turned. rewrite list_lookup_fmap, lookup_seq_lt by done. done.
Qed.

(** A value whose chars after the prefix are all copied is its own only dummy: the loop never ends. *)
Definition shapeless_token : str := lit "ghp_" ++ List.repeat 45%N 40.

Lemma shapeless_never_ends rng fuel from creds : fresh_dummy fuel Github rng from creds shapeless_token = None.
Proof.
  revert from. induction fuel as [|fuel IH]; intros from; [done|]. cbn [fresh_dummy]. cbv zeta.
  assert (dummy_value Github rng from shapeless_token = shapeless_token) as -> by (by vm_compute).
  rewrite bool_decide_eq_true_2 by done. apply IH.
Qed.

Section requests.
Context `{HttpLib} `{MarkerLib}.

(** ** The marker *)

(** What is written is read back. *)
Class MarkerLaws : Prop := marker_roundtrip l : exists m, marker_to_string l = Some m /\ marker_from_str m = Some l.

Lemma broker_keys_not_marker key : key ∈ credential_broker_env_keys -> key <> BROKERED_CREDENTIALS_ENV_KEY.
Proof using Type.
  intros Hk ->. revert Hk. apply (disjoint_check [BROKERED_CREDENTIALS_ENV_KEY]); [vm_compute; reflexivity|by left].
Qed.

(** The keys read from the marker are the supported variables that hold a dummy. *)
Lemma marker_keys `{!MarkerLaws} creds env :
  brokered_credential_dummy_env_keys (update_brokered_credentials_marker creds env) =
  List.filter (fun key => is_some_and (env !! key) (is_dummy_value creds)) credential_broker_env_keys.
Proof using Type.
  unfold update_brokered_credentials_marker. cbv zeta. set (pairs := omap _ credential_broker_env_keys).
  destruct (marker_roundtrip pairs) as (m & -> & Em). unfold brokered_credential_dummy_env_keys. rewrite lookup_insert_eq.
  cbn [mbind option_bind]. rewrite Em. cbn [from_option id].
  subst pairs. pose proof broker_keys_not_marker as Hn.
  assert (forall key, key ∈ credential_broker_env_keys -> existsb (fun candidate => candidate == key) credential_broker_env_keys = true) as Hin.
  { intros key Hk. apply existsb_exists. exists key. split; [by apply list_elem_of_In|by apply bool_decide_eq_true]. }
  set (f := fun '(key, d) => _).
  assert (forall l, (forall k, k ∈ l -> k ∈ credential_broker_env_keys) ->
    omap f (omap (fun key => match env !! key with Some value => if is_dummy_value creds value then Some (key, value) else None | None => None end) l)
    = List.filter (fun key => is_some_and (env !! key) (is_dummy_value creds)) l) as Hl; [|by apply Hl].
  intros l. induction l as [|key l IH]; intros Hk; [done|].
  cbn [omap list_omap List.filter]. specialize (IH (fun k Hk' => Hk k (list_elem_of_further _ _ _ Hk'))).
  destruct (env !! key) as [value|] eqn:E; cbn [is_some_and]; [|done]. destruct (is_dummy_value creds value); [|done]. cbn [omap list_omap].
  unfold f at 1. rewrite (Hin key) by (apply Hk; by left). rewrite lookup_insert_ne by (apply not_eq_sym, Hn, Hk; by left).
  rewrite E, bool_decide_eq_true_2 by done. cbn. by f_equal.
Qed.

(** ** Requests *)

(** A request is left as it is, or one credential of its host was recognised by its dummy
    and the real value takes the place of the header. *)
Lemma inject_spec st h headers :
  inject_request_headers st h headers = headers \/
  exists c value, c ∈ credentials st /\ matches_host c (normalize_host h) = true /\ shows_dummy headers c = true /\
    (forall c', c' ∈ credentials st -> matches_host c' (normalize_host h) = true -> shows_dummy headers c' = true -> c' = c) /\
    request_header_value (real_value c) = Some value /\
    inject_request_headers st h headers = headers_insert headers AUTHORIZATION value.
Proof using Type.
  unfold inject_request_headers, select_credential. cbv zeta. destruct (broker_enabled st); [|by left]. cbn [negb].
  destruct (List.filter (shows_dummy headers) _) as [|c [|]] eqn:Ef; [by left| |by left].
  assert (forall c', c' ∈ [c] <-> c' ∈ credentials st /\ matches_host c' (normalize_host h) = true /\ shows_dummy headers c' = true) as Hc.
  { intros c'. rewrite <- Ef, !list_elem_of_In, !filter_In. tauto. }
  destruct (request_header_value (real_value c)) as [value|] eqn:Ev; [|by left]. right.
  destruct (proj1 (Hc c) ltac:(by left)) as (H1 & H2 & H3). exists c, value. split_and!; [done..| |done|done].
  intros c' ? ? ?. apply list_elem_of_singleton, Hc. done.
Qed.

End requests.

End NetworkBrokerFacts.
