(* ===== verification/NetworkPolicyFacts.v ===== *)
(** Facts on hosts and domain patterns of the network proxy: the ranges of non-public
    addresses, what comparing two patterns decides, and what a compiled list of patterns
    matches. *)

From stdpp Require Import base list option numbers gmap strings.
From Stdlib Require Import Btauto ZifyBool.
From S2P Require Import Prelude RustStr NetworkPolicy.

Module NetworkPolicyFacts.
Import NetworkPolicy.

Open Scope rust_scope.

(** ** Address ranges *)

Lemma u32_max_ones : u32_max = N.ones 32.
Proof. reflexivity. Qed.

(** Masking keeps the leading bits. *)
Lemma land_mask ip prefix :
  (ip < 2 ^ 32)%N -> (0 < prefix <= 32)%N ->
  N.land ip (mask_of prefix) = N.shiftl (N.shiftr ip (32 - prefix)) (32 - prefix).
Proof.
  intros Hip Hp. unfold mask_of. rewrite (proj2 (N.eqb_neq _ _)) by lia. rewrite u32_max_ones.
  apply N.bits_inj. intros i. rewrite !N.land_spec.
  destruct (N.lt_ge_cases i (32 - prefix)) as [Hi|Hi].
  - by rewrite !N.shiftl_spec_low, andb_false_l, andb_false_r by done.
  - rewrite !N.shiftl_spec_high', N.shiftr_spec' by done. replace (i - (32 - prefix) + (32 - prefix))%N with i by lia.
    destruct (N.lt_ge_cases i 32) as [Hi'|Hi'].
    + by rewrite !N.ones_spec_low, andb_true_r by lia.
    + rewrite (N.bits_above_log2 ip i); [done|]. destruct (decide (ip = 0)%N) as [->|]; [simpl; lia|].
      apply N.log2_lt_pow2; [lia|]. eapply N.lt_le_trans; [exact Hip|]. apply N.pow_le_mono_r; lia.
Qed.

Lemma ipv4_in_cidr_div ip base prefix :
  (ip < 2 ^ 32)%N -> (base < 2 ^ 32)%N -> (0 < prefix <= 32)%N ->
  ipv4_in_cidr ip base prefix = (ip / 2 ^ (32 - prefix) =? base / 2 ^ (32 - prefix))%N.
Proof.
  intros Hi Hb Hp. unfold ipv4_in_cidr. rewrite !land_mask by done. rewrite <- !N.shiftr_div_pow2.
  apply eq_bool_prop_intro. rewrite !Is_true_true, !N.eqb_eq. split; [|by intros ->].
  intros E. apply (f_equal (fun n => N.shiftr n (32 - prefix))) in E. by rewrite !N.shiftr_shiftl_l, !N.sub_diag, !N.shiftl_0_r in E.
Qed.

(** The first and the last address of each range that is not public. *)
Definition non_public_ranges : list (N * N) :=
  [(u32_of 0 0 0 0, u32_of 0 255 255 255);
   (u32_of 10 0 0 0, u32_of 10 255 255 255);
   (u32_of 100 64 0 0, u32_of 100 127 255 255);
   (u32_of 127 0 0 0, u32_of 127 255 255 255);
   (u32_of 169 254 0 0, u32_of 169 254 255 255);
   (u32_of 172 16 0 0, u32_of 172 31 255 255);
   (u32_of 192 0 0 0, u32_of 192 0 0 255);
   (u32_of 192 0 2 0, u32_of 192 0 2 255);
   (u32_of 192 168 0 0, u32_of 192 168 255 255);
   (u32_of 198 18 0 0, u32_of 198 19 255 255);
   (u32_of 198 51 100 0, u32_of 198 51 100 255);
   (u32_of 203 0 113 0, u32_of 203 0 113 255);
   (u32_of 224 0 0 0, u32_of 255 255 255 255)].

Definition range (ip : N) (first last : N) : bool := (first <=? ip)%N && (ip <=? last)%N.

Definition in_ranges (ip : N) (ranges : list (N * N)) : bool := existsb (fun r => range ip r.1 r.2) ranges.

Lemma u32_of_bound a b c d : (a < 256 -> b < 256 -> c < 256 -> d < 256 -> u32_of a b c d < 2 ^ 32)%N.
Proof. unfold u32_of. intros. change (2 ^ 32)%N with 4294967296%N. lia. Qed.

(** A block of addresses by its first and last one. *)
Lemma cidr_range ip first prefix (size last : N) :
  (ip < 2 ^ 32)%N -> (first < 2 ^ 32)%N -> (0 < prefix <= 32)%N ->
  size = (2 ^ (32 - prefix))%N -> (first mod size = 0)%N -> last = (first + size - 1)%N ->
  ipv4_in_cidr ip first prefix = range ip first last.
Proof.
  intros Hi Hf Hp -> Hm ->. unfold range. rewrite ipv4_in_cidr_div by done. remember (2 ^ (32 - prefix))%N as k eqn:Ek.
  assert (0 < k)%N by (subst; apply N.neq_0_lt_0, N.pow_nonzero; lia). clear Ek.
  pose proof (N.div_mod ip k ltac:(lia)). pose proof (N.mod_lt ip k ltac:(lia)).
  pose proof (N.div_mod first k ltac:(lia)) as Ef. rewrite Hm in Ef.
  apply eq_bool_prop_intro. rewrite !Is_true_true, N.eqb_eq, andb_true_iff, !N.leb_le.
  split.
  - intros E. rewrite E in *. clear E Hi Hf Hp Hm.
    generalize dependent (ip mod k)%N. generalize dependent (first / k)%N. intros. nia.
  - intros []. symmetry. apply (N.div_unique _ _ _ (ip - first)); lia.
Qed.

(** The classes of [std::net] are ranges. *)
Ltac octets := apply eq_bool_prop_intro; rewrite !Is_true_true; unfold range, u32_of;
  repeat rewrite ?orb_true_iff, ?andb_true_iff, ?N.eqb_eq, ?N.leb_le; lia.

Section octets.
Context (a b c d : N) (Ha : (a < 256)%N) (Hb : (b < 256)%N) (Hc : (c < 256)%N) (Hd : (d < 256)%N).
Notation ip := (u32_of a b c d).

Lemma loopback_range : ipv4_is_loopback a = range ip (u32_of 127 0 0 0) (u32_of 127 255 255 255).
Proof using Ha Hb Hc Hd. unfold ipv4_is_loopback. octets. Qed.

Lemma private_range :
  ipv4_is_private a b = range ip (u32_of 10 0 0 0) (u32_of 10 255 255 255)
                        || range ip (u32_of 172 16 0 0) (u32_of 172 31 255 255)
                        || range ip (u32_of 192 168 0 0) (u32_of 192 168 255 255).
Proof using Ha Hb Hc Hd. unfold ipv4_is_private. f_equal; [f_equal|]; octets. Qed.

Lemma link_local_range : ipv4_is_link_local a b = range ip (u32_of 169 254 0 0) (u32_of 169 254 255 255).
Proof using Ha Hb Hc Hd. unfold ipv4_is_link_local. octets. Qed.

Lemma this_network_range :
  ipv4_is_unspecified a b c d || range ip (u32_of 0 0 0 0) (u32_of 0 255 255 255) = range ip (u32_of 0 0 0 0) (u32_of 0 255 255 255).
Proof using Ha Hb Hc Hd. unfold ipv4_is_unspecified. octets. Qed.

Lemma reserved_range :
  ipv4_is_multicast a || ipv4_is_broadcast a b c d || range ip (u32_of 240 0 0 0) (u32_of 255 255 255 255)
  = range ip (u32_of 224 0 0 0) (u32_of 255 255 255 255).
Proof using Ha Hb Hc Hd. unfold ipv4_is_multicast, ipv4_is_broadcast. octets. Qed.

Lemma is_non_public_ipv4_ranges_lemma : is_non_public_ipv4 a b c d = in_ranges ip non_public_ranges.
Proof using Ha Hb Hc Hd.
  pose proof (u32_of_bound a b c d Ha Hb Hc Hd) as Hip. unfold is_non_public_ipv4.
  rewrite (cidr_range _ (u32_of 0 0 0 0) 8 16777216 (u32_of 0 255 255 255)),
    (cidr_range _ (u32_of 100 64 0 0) 10 4194304 (u32_of 100 127 255 255)),
    (cidr_range _ (u32_of 192 0 0 0) 24 256 (u32_of 192 0 0 255)),
    (cidr_range _ (u32_of 192 0 2 0) 24 256 (u32_of 192 0 2 255)),
    (cidr_range _ (u32_of 198 18 0 0) 15 131072 (u32_of 198 19 255 255)),
    (cidr_range _ (u32_of 198 51 100 0) 24 256 (u32_of 198 51 100 255)),
    (cidr_range _ (u32_of 203 0 113 0) 24 256 (u32_of 203 0 113 255)),
    (cidr_range _ (u32_of 240 0 0 0) 4 268435456 (u32_of 255 255 255 255))
    by first [exact Hip | vm_compute; reflexivity | vm_compute; split; discriminate || reflexivity].
  rewrite loopback_range, private_range, link_local_range.
  unfold in_ranges, non_public_ranges. cbn [existsb fst snd].
  rewrite <- this_network_range, <- reserved_range. btauto.
Qed.

End octets.

(** ** Reading addresses *)

(** The octets, and the eight segments, are in range. *)
Definition wf_ip (ip : IpAddr) : Prop :=
  match ip with
  | V4 a b c d => (a < 256 /\ b < 256 /\ c < 256 /\ d < 256)%N
  | V6 segs => length segs = 8 /\ Forall (fun g => (g < 65536)%N) segs
  end.

Lemma read_number_bound radix bound k zero s n s' : read_number radix bound k zero s = Some (n, s') -> (n < bound)%N.
Proof.
  unfold read_number. destruct (read_digits radix s) as [ds rest]. repeat case_match; try done.
  intros [= <- <-]. by apply N.leb_gt.
Qed.

Lemma read_separator_bound radix bound k zero sep first s n s' :
  read_separator sep first (read_number radix bound k zero) s = Some (n, s') -> (n < bound)%N.
Proof. unfold read_separator. repeat case_match; intros E; simplify_eq; by eapply read_number_bound. Qed.

Lemma read_ipv4_bound s a b c d s' : read_ipv4_addr s = Some (a, b, c, d, s') -> wf_ip (V4 a b c d).
Proof.
  unfold read_ipv4_addr, read_octet. intros E. repeat case_match; simplify_eq.
  split_and!; first [by eapply read_number_bound|by eapply read_separator_bound].
Qed.

Lemma read_groups_bound limit first s gs v4 s' :
  read_groups limit first s = (gs, v4, s') -> length gs <= limit /\ Forall (fun g => (g < 65536)%N) gs.
Proof.
  revert first s gs v4 s'. induction limit as [|limit IH]; intros first s gs v4 s'; cbn [read_groups]; [by intros [= <- <- <-]|].
  set (inner := fun s => _). destruct (if is_some _ then read_separator COLON first inner s else None) as [[[[[a b] c] d] s2]|] eqn:E4.
  - intros [= <- <- <-]. destruct limit as [|limit]; [done|]. cbn [is_some] in E4.
    assert (wf_ip (V4 a b c d)) as (?&?&?&?).
    { unfold read_separator in E4. unfold inner in E4. repeat case_match; simplify_eq; by eapply read_ipv4_bound. }
    cbn [length]. split; [lia|]. repeat constructor; lia.
  - destruct (read_separator COLON first (read_number 16 65536 4 true) s) as [[g s2]|] eqn:Eg; [|intros [= <- <- <-]; split; [simpl; lia|constructor]].
    destruct (read_groups limit false s2) as [[gs2 v42] s3] eqn:Er. intros [= <- <- <-].
    destruct (IH _ _ _ _ _ Er). split; [simpl; lia|]. constructor; [by eapply read_separator_bound|done].
Qed.

Lemma parse_ip_wf s ip : parse_ip s = Some ip -> wf_ip ip.
Proof.
  unfold parse_ip. destruct (read_ipv4_addr s) as [[[[[a b] c] d] [|]]|] eqn:E4; try done.
  - intros [= <-]. by eapply read_ipv4_bound.
  - unfold read_ipv6_addr. destruct (read_groups 8 true s) as [[hd v4] s1] eqn:Eh. destruct (read_groups_bound _ _ _ _ _ _ Eh) as [Hl Hf].
    destruct (length hd =? 8) eqn:E8; bool_to_prop; [destruct s1; [|done]; by intros [= <-]|].
    destruct v4; [done|]. destruct (read_given_char COLON s1 ≫= read_given_char COLON) as [s2|]; [|done].
    destruct (read_groups _ true s2) as [[tl v4] s3] eqn:Et. destruct (read_groups_bound _ _ _ _ _ _ Et) as [Hl' Hf'].
    destruct s3; [|done]. intros [= <-]. split.
    + rewrite !length_app, length_replicate. lia.
    + apply Forall_app. split; [done|]. apply Forall_app. split; [|done]. by apply Forall_replicate.
Qed.

(** ** Comparing patterns *)

Definition dotted (d : str) : str := DOT :: normalize_domain d.

(** [host] is strictly below [d]. *)
Definition below (host d : str) : Prop := exists x, x <> [] /\ normalize_domain host = x ++ dotted d.

(** The hosts a pattern stands for. *)
Definition covers (p : DomainPattern) (host : str) : Prop :=
  match p with
  | Exact d => normalize_domain host = normalize_domain d
  | SubdomainsOnly d => below host d
  | ApexAndSubdomains d => normalize_domain host = normalize_domain d \/ below host d
  end.

Definition domain_of (p : DomainPattern) : str :=
  match p with Exact d | SubdomainsOnly d | ApexAndSubdomains d => d end.

(** A name with no empty first label. *)
Definition proper_name (d : str) : Prop := exists c s, normalize_domain d = c :: s /\ c <> DOT.

Lemma domain_eq_true a b : domain_eq a b = true <-> normalize_domain a = normalize_domain b.
Proof. unfold domain_eq. apply bool_decide_eq_true. Qed.

Lemma is_subdomain_or_equal_true child parent :
  is_subdomain_or_equal child parent = true <->
  normalize_domain child = normalize_domain parent \/ exists x, normalize_domain child = x ++ dotted parent.
Proof.
  unfold is_subdomain_or_equal. case_bool_decide as E; [naive_solver|]. rewrite ends_with_true. unfold dotted. naive_solver.
Qed.

Lemma is_strict_subdomain_true child parent :
  is_strict_subdomain child parent = true <-> exists x, normalize_domain child = x ++ dotted parent.
Proof.
  unfold is_strict_subdomain. rewrite andb_true_iff, negb_true_iff, bool_decide_eq_false, ends_with_true.
  split; [by intros [_ ?]|]. intros [x E]. split; [|by exists x]. rewrite E. intros E'.
  apply (f_equal length) in E'. unfold dotted in E'. rewrite length_app in E'. simpl in E'. lia.
Qed.

Lemma proper_not_dotted d x p : proper_name d -> normalize_domain d = x ++ dotted p -> x <> [].
Proof. intros (c & s & E & Hc) E' ->. rewrite E in E'. injection E' as E'. done. Qed.

(** Subdomains compose. *)
Lemma below_equal host c d : below host c -> normalize_domain c = normalize_domain d -> below host d.
Proof. intros (x & Hx & E) E'. exists x. split; [done|]. unfold dotted in *. by rewrite <- E'. Qed.

Lemma below_suffix host c d x : below host c -> normalize_domain c = x ++ dotted d -> below host d.
Proof.
  intros (y & Hy & E) E'. exists (y ++ DOT :: x). split; [by destruct y|]. rewrite E. unfold dotted at 1. rewrite E'.
  by rewrite <- app_assoc.
Qed.

Lemma proper_below host c d x :
  proper_name host -> normalize_domain host = normalize_domain c -> normalize_domain c = x ++ dotted d -> below host d.
Proof. intros Hh E E'. exists x. split; [|by rewrite E]. eapply proper_not_dotted; [exact Hh|]. by rewrite E. Qed.

#[local] Hint Resolve below_equal below_suffix proper_below : rust.

(** The hosts of an allowed pattern are covered. *)
Lemma allows_covers self candidate host :
  allows self candidate = true -> proper_name host -> covers candidate host -> covers self host.
Proof.
  intros Ha Hh. destruct self as [d|d|d], candidate as [c|c|c]; cbn [allows covers] in *; try done;
    rewrite ?domain_eq_true, ?is_subdomain_or_equal_true, ?is_strict_subdomain_true in Ha;
    naive_solver eauto using below_equal, below_suffix, proper_below, eq_trans.
Qed.

Lemma to_ascii_lower_idem c : to_ascii_lower (to_ascii_lower c) = to_ascii_lower c.
Proof. unfold to_ascii_lower, is_ascii_uppercase. repeat case_match; lia. Qed.

Lemma to_ascii_lower_dot c : to_ascii_lower c = DOT -> c = DOT.
Proof. unfold to_ascii_lower, is_ascii_uppercase, DOT. case_match; lia. Qed.

Lemma to_ascii_lowercase_idem s : to_ascii_lowercase (to_ascii_lowercase s) = to_ascii_lowercase s.
Proof. unfold to_ascii_lowercase. rewrite List.map_map. apply List.map_ext, to_ascii_lower_idem. Qed.

Lemma trim_dots_last d c : last (trim_dots d) = Some c -> c <> DOT.
Proof.
  unfold trim_dots. intros (s & E)%last_Some_snoc ->. pose proof (trim_end_by_idem (fun c => (c =? DOT)%N) d) as E'.
  rewrite E, trim_end_by_snoc_drop in E' by done. destruct (trim_end_by_prefix (fun c => (c =? DOT)%N) s) as (w & E2 & _).
  rewrite E' in E2. apply (f_equal length) in E2. rewrite !length_app in E2. simpl in E2. lia.
Qed.

Lemma normalize_domain_last d c : last (normalize_domain d) = Some c -> c <> DOT.
Proof.
  unfold normalize_domain, to_ascii_lowercase. rewrite fmap_last.
  destruct (last (trim_dots d)) as [c'|] eqn:E; [|done]. intros [= <-] E'%to_ascii_lower_dot. by eapply trim_dots_last.
Qed.

(** A name that is lower case and does not end in a dot is its own normal form. *)
Lemma normalize_domain_fixed s c : last s = Some c -> c <> DOT -> to_ascii_lowercase s = s -> normalize_domain s = s.
Proof.
  intros (s' & ->)%last_Some_snoc Hc Hs. unfold normalize_domain, trim_dots.
  rewrite trim_end_by_snoc by (by apply N.eqb_neq). done.
Qed.

(** A host below a proper name. *)
Lemma normalize_domain_below (k : char) c :
  to_ascii_lower k = k -> proper_name c -> normalize_domain (k :: dotted c) = k :: dotted c.
Proof.
  intros Hk (x & s & E & Hx). destruct (last (normalize_domain c)) as [z|] eqn:Ez; [|by rewrite E in Ez; apply last_None in Ez].
  apply (normalize_domain_fixed _ z).
  - unfold dotted. by rewrite !last_cons, Ez.
  - by eapply normalize_domain_last.
  - unfold dotted. cbn [to_ascii_lowercase List.map]. rewrite Hk. do 2 f_equal. unfold normalize_domain. apply to_ascii_lowercase_idem.
Qed.

Lemma below_below (k : char) c : to_ascii_lower k = k -> proper_name c -> below (k :: dotted c) c.
Proof. intros Hk Hc. exists [k]. split; [done|]. by rewrite normalize_domain_below. Qed.

Lemma below_suffix_inv (k : char) c d :
  to_ascii_lower k = k -> proper_name c -> below (k :: dotted c) d -> is_subdomain_or_equal c d = true.
Proof.
  intros Hk Hc (x & Hx & E). rewrite normalize_domain_below in E by done. apply is_subdomain_or_equal_true.
  destruct x as [|k' [|z x]]; [done|..]; injection E as -> E; [by left|].
  right. by exists x.
Qed.

Lemma proper_below_host (k : char) c : to_ascii_lower k = k -> k <> DOT -> proper_name c -> proper_name (k :: dotted c).
Proof. intros Hk Hd Hc. exists k, (dotted c). by rewrite normalize_domain_below. Qed.

(** Two hosts below [c]: a pattern for a single host does not cover both. *)
Lemma covers_below self c :
  proper_name c -> (forall host, proper_name host -> below host c -> covers self host) ->
  (forall d, self <> Exact d) /\ is_subdomain_or_equal c (domain_of self) = true.
Proof.
  intros Hc H. assert (forall k, to_ascii_lower k = k -> k <> DOT -> covers self (k :: dotted c)) as Hk
    by (intros k Hk Hd; apply H; [by apply proper_below_host|by apply below_below]).
  pose proof (Hk 97%N ltac:(done) ltac:(done)) as Ha. pose proof (Hk 98%N ltac:(done) ltac:(done)) as Hb.
  pose proof (normalize_domain_below 97 c ltac:(done) Hc) as Ea. pose proof (normalize_domain_below 98 c ltac:(done) Hc) as Eb.
  destruct self as [d|d|d]; cbn [covers domain_of] in *.
  - split; [done|]. destruct Ha as [Ha|Ha]; [|by apply (below_suffix_inv 97)].
    destruct Hb as [Hb|Hb]; [|by apply (below_suffix_inv 98)].
    congruence.
  - split; [done|]. by apply (below_suffix_inv 97).
  - congruence.
Qed.

(** Comparing two patterns decides whether every host of the one is a host of the other. *)
Lemma allows_complete self candidate :
  proper_name (domain_of candidate) ->
  (forall host, proper_name host -> covers candidate host -> covers self host) -> allows self candidate = true.
Proof.
  intros Hc H. destruct candidate as [c|c|c]; cbn [domain_of covers] in *.
  - destruct (covers_below self c Hc ltac:(auto)) as [He Hs]. specialize (H c Hc (or_introl eq_refl)).
    destruct self as [d|d|d]; cbn [allows covers] in *; [done| |by destruct (He d)].
    apply is_strict_subdomain_true. destruct H as (x & _ & E). by exists x.
  - destruct (covers_below self c Hc ltac:(auto)) as [He Hs]. destruct self as [d|d|d]; cbn [allows] in *; [done|done|by destruct (He d)].
  - specialize (H c Hc eq_refl). destruct self as [d|d|d]; cbn [allows covers] in *.
    + apply is_subdomain_or_equal_true. destruct H as [|(x & _ & E)]; [by left|right; by exists x].
    + apply is_strict_subdomain_true. destruct H as (x & _ & E). by exists x.
    + by apply domain_eq_true.
Qed.

(** ** Compiled lists of patterns *)

(** Chars that stand for themselves in a glob, in ASCII. *)
Definition glob_plain (c : char) : bool :=
  (c <? 128)%N && negb (existsb (fun m => (m =? c)%N) [42; 63; 91; 93; 123; 125; 92; 44; 47]%N).

Definition plain (d : str) : Prop := forallb glob_plain d = true.
Definition ascii (h : str) : Prop := forallb (fun c => c <? 128)%N h = true.

(** What globset documents: a set matches what one of its globs matches; plain text
    matches itself, ignoring case; [*] matches any text and [?*] any that is not empty. *)
Class DomainLaws `(DomainLib) : Prop := {
  globset_new_spec globs set h : globset_new globs = Some set -> set h = existsb (fun g => g h) globs;
  glob_new_any g h : glob_new (lit "*") = Some g -> g h = true;
  glob_new_plain d g h : glob_new d = Some g -> plain d -> ascii h -> g h = eq_ignore_ascii_case h d;
  glob_new_below d g h : glob_new (lit "?*." ++ d) = Some g -> plain d -> ascii h ->
    g h = true <-> exists x, x <> [] /\ to_ascii_lowercase h = x ++ DOT :: to_ascii_lowercase d }.

Section compiled.
Context `{DomainLaws}.

(** The globs are those of the candidates seen so far. *)
Definition globs_of (seen : list str) (globs : list (str -> bool)) : Prop :=
  (forall c, c ∈ seen -> exists g, glob_new c = Some g /\ g ∈ globs) /\
  (forall g, g ∈ globs -> exists c, c ∈ seen /\ glob_new c = Some g).

Lemma add_candidates_spec candidates seen globs seen' globs' :
  globs_of seen globs -> add_candidates candidates seen globs = Ok (seen', globs') ->
  globs_of seen' globs' /\ forall c, c ∈ seen' <-> c ∈ candidates \/ c ∈ seen.
Proof using Type.
  revert seen globs. induction candidates as [|c cs IH]; intros seen globs Hg; cbn [add_candidates].
  { intros [= <- <-]. split; [done|]. intros c. rewrite elem_of_nil. tauto. }
  destruct (existsb (fun s => s == c) seen) eqn:Es.
  - intros E. destruct (IH _ _ Hg E) as [Hg' Hs]. split; [done|]. intros x. rewrite Hs, elem_of_cons.
    apply existsb_exists in Es as (c' & Hc' & E'%bool_decide_eq_true). subst. apply list_elem_of_In in Hc'. naive_solver.
  - destruct (glob_new c) as [g|] eqn:Eg; [|done]. intros E. destruct Hg as [H1 H2].
    assert (globs_of (c :: seen) (globs ++ [g])) as Hg.
    { split.
      - intros x [->|Hx]%elem_of_cons; [exists g; split; [done|]; apply elem_of_app; right; by left|].
        destruct (H1 x Hx) as (g' & ? & ?). exists g'. split; [done|]. apply elem_of_app. by left.
      - intros g' [Hg'|Hg']%elem_of_app.
        + destruct (H2 g' Hg') as (x & ? & ?). exists x. split; [by right|done].
        + apply list_elem_of_singleton in Hg' as ->. exists c. split; [by left|done]. }
    destruct (IH _ _ Hg E) as [Hg' Hs]. split; [done|]. intros x. rewrite Hs, !elem_of_cons. tauto.
Qed.

Lemma compile_patterns_spec w patterns seen globs globs' :
  globs_of seen globs -> compile_patterns w patterns seen globs = Ok globs' ->
  exists seen', globs_of seen' globs' /\
    forall c, c ∈ seen' <-> c ∈ seen \/ exists p, p ∈ patterns /\ c ∈ expand_domain_pattern (normalize_pattern p).
Proof using Type.
  revert seen globs. induction patterns as [|p ps IH]; intros seen globs Hg; cbn [compile_patterns].
  { intros [= <-]. exists seen. split; [done|]. intros c. split; [by left|]. intros [?|(p & Hp & _)]; [done|]. by apply elem_of_nil in Hp. }
  case_match; [done|]. destruct (add_candidates _ seen globs) as [[seen2 globs2]|] eqn:Ea; [|done].
  destruct (add_candidates_spec _ _ _ _ _ Hg Ea) as [Hg2 Hs2]. intros E.
  destruct (IH _ _ Hg2 E) as (seen' & Hg' & Hs'). exists seen'. split; [done|]. intros c. rewrite Hs', Hs2.
  setoid_rewrite elem_of_cons. naive_solver.
Qed.

Lemma compile_globset_spec w patterns set :
  compile_globset_with_policy patterns w = Ok set ->
  exists seen globs, globs_of seen globs /\
    (forall c, c ∈ seen <-> exists p, p ∈ patterns /\ c ∈ expand_domain_pattern (normalize_pattern p)) /\
    forall h, set h = existsb (fun g => g h) globs.
Proof using All.
  unfold compile_globset_with_policy. destruct (compile_patterns w patterns [] []) as [globs|] eqn:Ec; [|done].
  destruct (globset_new globs) as [set'|] eqn:En; [|done]. intros [= <-].
  destruct (compile_patterns_spec w patterns [] [] globs) as (seen & Hg & Hs); [|done|].
  { split; intros ? []%not_elem_of_nil. }
  exists seen, globs. split; [done|]. split; [|intros h; by apply globset_new_spec].
  intros c. rewrite Hs, elem_of_nil. tauto.
Qed.

(** Every candidate compiled, and the set matches what one of their globs matches. *)
Lemma compile_globset_matches w patterns set h :
  compile_globset_with_policy patterns w = Ok set ->
  (forall p c, p ∈ patterns -> c ∈ expand_domain_pattern (normalize_pattern p) -> exists g, glob_new c = Some g) /\
  (set h = true <-> exists p c g, p ∈ patterns /\ c ∈ expand_domain_pattern (normalize_pattern p) /\ glob_new c = Some g /\ g h = true).
Proof using All.
  intros (seen & globs & [H1 H2] & Hs & Hm)%compile_globset_spec. split.
  { intros p c Hp Hc. destruct (H1 c) as (g & ? & _); [apply Hs; by exists p|by exists g]. }
  rewrite Hm, existsb_exists. split.
  - intros (g & Hg%list_elem_of_In & Eg). destruct (H2 g Hg) as (c & (p & Hp & Hc)%Hs & En). by exists p, c, g.
  - intros (p & c & g & Hp & Hc & Eg & Em). destruct (H1 c) as (g' & Eg' & Hg'); [apply Hs; by exists p|].
    assert (g' = g) as -> by congruence. exists g. split; [by apply list_elem_of_In|done].
Qed.

(** The hosts of a pattern by its text, ignoring case. *)
Definition matches (p : DomainPattern) (h : str) : Prop :=
  match p with
  | Exact d => d = lit "*" \/ to_ascii_lowercase h = to_ascii_lowercase d
  | SubdomainsOnly d => exists x, x <> [] /\ to_ascii_lowercase h = x ++ DOT :: to_ascii_lowercase d
  | ApexAndSubdomains d =>
      to_ascii_lowercase h = to_ascii_lowercase d \/ exists x, x <> [] /\ to_ascii_lowercase h = x ++ DOT :: to_ascii_lowercase d
  end.

(** The pattern for every host, or one whose domain is plain. *)
Definition simple (p : DomainPattern) : Prop := p = Exact (lit "*") \/ plain (domain_of p).

(** The pattern of an entry of the lists. *)
Definition entry_pattern (entry : str) : DomainPattern := pattern_parse (normalize_pattern entry).

Definition candidates (p : DomainPattern) : list str :=
  match p with
  | Exact d => [d]
  | SubdomainsOnly d => [lit "?*." ++ d]
  | ApexAndSubdomains d => [d; lit "?*." ++ d]
  end.

Definition glob_matches (h c : str) : Prop := exists g, glob_new c = Some g /\ g h = true.

Lemma glob_matches_exact d h :
  plain d -> ascii h -> is_Some (glob_new d) -> glob_matches h d <-> to_ascii_lowercase h = to_ascii_lowercase d.
Proof using All.
  intros Hd Hh [g Eg]. unfold glob_matches. rewrite Eg. pose proof (glob_new_plain d g h Eg Hd Hh) as E.
  unfold eq_ignore_ascii_case in E. split.
  - intros (g' & [= <-] & E'). rewrite E in E'. by apply bool_decide_eq_true in E'.
  - intros E'. exists g. split; [done|]. rewrite E. by apply bool_decide_eq_true.
Qed.

Lemma glob_matches_below d h :
  plain d -> ascii h -> is_Some (glob_new (lit "?*." ++ d)) -> glob_matches h (lit "?*." ++ d) <-> matches (SubdomainsOnly d) h.
Proof using All.
  intros Hd Hh [g Eg]. unfold glob_matches. rewrite Eg. cbn [matches]. rewrite <- (glob_new_below d g h Eg Hd Hh). naive_solver.
Qed.

Lemma matches_plain d h : plain d -> matches (Exact d) h <-> to_ascii_lowercase h = to_ascii_lowercase d.
Proof using Type. intros Hd. cbn [matches]. split; [|by right]. by intros [->|]. Qed.

Lemma candidates_match p h :
  simple p -> ascii h -> (forall c, c ∈ candidates p -> is_Some (glob_new c)) ->
  (exists c, c ∈ candidates p /\ glob_matches h c) <-> matches p h.
Proof using All.
  intros [->|Hp] Hh Hg.
  { split; [by left|]. intros _. exists (lit "*"). split; [by left|]. destruct (Hg (lit "*")) as [g Eg]; [by left|].
    exists g. split; [done|]. by eapply glob_new_any. }
  destruct p as [d|d|d]; cbn [candidates domain_of] in *.
  - change (matches (ApexAndSubdomains d) h) with (to_ascii_lowercase h = to_ascii_lowercase d \/ matches (SubdomainsOnly d) h).
    rewrite <- glob_matches_exact, <- glob_matches_below by (done || apply Hg; repeat constructor). split.
    + intros (c & [->|[->|[]%not_elem_of_nil]%elem_of_cons]%elem_of_cons & ?); auto.
    + intros [?|?]; [exists d|exists (lit "?*." ++ d)]; split; try done; [by left|by right; left].
  - rewrite <- glob_matches_below by (done || apply Hg; constructor). split; [intros (c & ->%list_elem_of_singleton & ?); done|].
    intros ?. exists (lit "?*." ++ d). split; [by left|done].
  - rewrite matches_plain, <- glob_matches_exact by (done || apply Hg; constructor).
    split; [intros (c & ->%list_elem_of_singleton & ?); done|]. intros ?. exists d. split; [by left|done].
Qed.

(** A compiled list of simple entries matches the hosts of its patterns. *)
Lemma compiled_list_matches w entries set h :
  compile_globset_with_policy entries w = Ok set -> ascii h ->
  (forall e, e ∈ entries -> simple (entry_pattern e)) ->
  set h = true <-> exists e, e ∈ entries /\ matches (entry_pattern e) h.
Proof using All.
  intros Ec Hh Hp. destruct (compile_globset_matches _ _ _ h Ec) as [Hg Hs]. rewrite Hs. clear Hs.
  assert (forall e, e ∈ entries -> (exists c, c ∈ candidates (entry_pattern e) /\ glob_matches h c) <-> matches (entry_pattern e) h) as Hm.
  { intros e He. apply candidates_match; [by apply Hp|done|]. intros c Hc. by apply (Hg e c He). }
  split.
  - intros (e & c & g & He & Hc & Eg & Em). exists e. split; [done|]. apply Hm; [done|]. exists c. split; [done|]. by exists g.
  - intros (e & He & (c & Hc & g & Eg & Em)%Hm); [|done]. by exists e, c, g.
Qed.

End compiled.

(** ** IPv6 *)

(** A test on every 16-bit value. *)
Definition check16 (p : N -> bool) : bool := (N.iter 65536 (fun '(i, ok) => (i + 1, ok && p i)%N) (0%N, true)).2.

Lemma check16_true p x : check16 p = true -> (x < 65536)%N -> p x = true.
Proof.
  unfold check16. assert (forall n, (N.iter n (fun '(i, ok) => (i + 1, ok && p i)%N) (0%N, true)).1 = n /\
    ((N.iter n (fun '(i, ok) => (i + 1, ok && p i)%N) (0%N, true)).2 = true -> forall x, (x < n)%N -> p x = true)) as Hn.
  { intros n. induction n as [|n [E IH]] using N.peano_ind; [split; [done|]; lia|]. rewrite N.iter_succ.
    destruct (N.iter n _ _) as [i ok]. cbn [fst snd] in *. subst i. split; [lia|].
    intros [Hok Hp]%andb_true_iff y Hy. destruct (decide (y = n)) as [->|]; [done|]. apply IH; [done|lia]. }
  intros H. by apply Hn.
Qed.

Lemma segment_masks x :
  (x < 65536)%N ->
  (N.land x 65280 =? 65280)%N = range x 65280 65535 /\ (N.land x 65024 =? 64512)%N = range x 64512 65023 /\
  (N.land x 65472 =? 65152)%N = range x 65152 65215.
Proof.
  intros Hx. pose (p := fun x => eqb (N.land x 65280 =? 65280)%N (range x 65280 65535) && eqb (N.land x 65024 =? 64512)%N (range x 64512 65023)
    && eqb (N.land x 65472 =? 65152)%N (range x 65152 65215)).
  assert (p x = true) as Hp by (apply check16_true; [vm_compute; reflexivity|done]).
  unfold p in Hp. apply andb_true_iff in Hp as [[Ha Hb]%andb_true_iff Hc]. by rewrite !eqb_true_iff in Ha, Hb, Hc.
Qed.

(** Unless an IPv4 address is embedded, the addresses that are not public are those of
    [fc00::/7], [fe80::/10] and [ff00::/8]. *)
Lemma is_non_public_ipv6_ranges segs :
  wf_ip (V6 segs) -> ipv6_to_ipv4 segs = None ->
  is_non_public_ipv6 segs = in_ranges (segment0 segs) [(64512, 65023); (65152, 65215); (65280, 65535)]%N.
Proof.
  intros [Hl Hs] E. unfold is_non_public_ipv6. rewrite E. unfold in_ranges. cbn [existsb fst snd].
  assert (segment0 segs < 65536)%N as H0 by (destruct segs; [done|]; by inversion Hs).
  destruct (segment_masks _ H0) as (E1 & E2 & E3).
  unfold ipv6_is_multicast, ipv6_is_unique_local, ipv6_is_unicast_link_local. rewrite E1, E2, E3.
  assert (ipv6_is_loopback segs = false) as -> by (unfold ipv6_is_loopback; case_bool_decide; [by subst|done]).
  assert (ipv6_is_unspecified segs = false) as -> by (unfold ipv6_is_unspecified; case_bool_decide; [by subst|done]).
  btauto.
Qed.

Lemma embedded_octets segs a b c d :
  Forall (fun g => (g < 65536)%N) segs -> ipv6_to_ipv4 segs = Some (a, b, c, d) -> wf_ip (V4 a b c d).
Proof.
  intros Hs E. unfold ipv6_to_ipv4 in E. repeat case_match; try done. simplify_eq.
  rewrite !Forall_cons in Hs. destruct Hs as (_&_&_&_&_&_&?&?&_).
  split_and!; first [by apply N.mod_lt|apply N.Div0.div_lt_upper_bound; lia].
Qed.

(** An embedded IPv4 address decides; [::1] embeds one of "this network". *)
Lemma embedded_ranges segs a b c d :
  wf_ip (V6 segs) -> ipv6_to_ipv4 segs = Some (a, b, c, d) ->
  is_non_public_ipv6 segs = in_ranges (u32_of a b c d) non_public_ranges.
Proof.
  intros [_ Hs] E. unfold is_non_public_ipv6. rewrite E. destruct (ipv6_is_loopback segs) eqn:El.
  - unfold ipv6_is_loopback in El. apply bool_decide_eq_true in El. subst. injection E as <- <- <- <-. done.
  - rewrite orb_false_r. destruct (embedded_octets _ _ _ _ _ Hs E) as (?&?&?&?). by apply is_non_public_ipv4_ranges_lemma.
Qed.

End NetworkPolicyFacts.
