(* ===== verification/NetworkConfigFacts.v ===== *)
(** Facts on the settings of the network proxy: the strongest entry of a domain pattern
    wins, updates and the wire form keep that meaning, and what the proxy may listen on. *)

From stdpp Require Import base list option numbers gmap strings.
From S2P Require Import Prelude RustStr NetworkPolicy NetworkConfig.

Module NetworkConfigFacts.
Import NetworkPolicy NetworkConfig.

Open Scope rust_scope.

(** ** The strongest permission of a pattern *)

Definition stronger (p q : NetworkDomainPermission) : NetworkDomainPermission :=
  if permission_rank p <? permission_rank q then q else p.

Definition join_permission (current : option NetworkDomainPermission) (p : NetworkDomainPermission) : option NetworkDomainPermission :=
  Some (match current with None => p | Some current => stronger current p end).

(** The strongest permission that the entries give a pattern. *)
Definition strongest (entries : list NetworkDomainPermissionEntry) (p : str) : option NetworkDomainPermission :=
  fold_left (fun acc e => if pattern e == p then join_permission acc (permission e) else acc) entries None.

(** The patterns in the order of their first entries. *)
Definition first_patterns (entries : list NetworkDomainPermissionEntry) : list str :=
  fold_left (fun acc e => if bool_decide (pattern e ∈ acc) then acc else acc ++ [pattern e]) entries [].

Lemma strongest_snoc entries e p :
  strongest (entries ++ [e]) p = if pattern e == p then join_permission (strongest entries p) (permission e) else strongest entries p.
Proof. unfold strongest. by rewrite fold_left_app. Qed.

Lemma first_patterns_snoc entries e :
  first_patterns (entries ++ [e]) =
  if bool_decide (pattern e ∈ first_patterns entries) then first_patterns entries else first_patterns entries ++ [pattern e].
Proof. unfold first_patterns. by rewrite fold_left_app. Qed.

Lemma elem_of_first_patterns entries p : p ∈ first_patterns entries <-> p ∈ List.map pattern entries.
Proof.
  induction entries as [|e entries IH] using rev_ind; [done|]. rewrite first_patterns_snoc, List.map_app, elem_of_app. cbn [List.map].
  rewrite list_elem_of_singleton. case_bool_decide as E; [rewrite <- IH; naive_solver|]. rewrite elem_of_app, list_elem_of_singleton. tauto.
Qed.

Lemma first_patterns_nodup entries : NoDup (first_patterns entries).
Proof.
  induction entries as [|e entries IH] using rev_ind; [constructor|]. rewrite first_patterns_snoc.
  case_bool_decide as E; [done|]. apply NoDup_app. split; [done|]. split; [|apply NoDup_singleton].
  intros x Hx ->%list_elem_of_singleton. done.
Qed.

Lemma strongest_None entries p : strongest entries p = None <-> p ∉ first_patterns entries.
Proof.
  rewrite elem_of_first_patterns. induction entries as [|e entries IH] using rev_ind; [split; [intros _ []%not_elem_of_nil|done]|].
  rewrite strongest_snoc, List.map_app, elem_of_app. cbn [List.map]. rewrite list_elem_of_singleton.
  case_bool_decide as E; [subst; split; [done|tauto]|]. rewrite IH. naive_solver.
Qed.

Lemma strongest_Some entries p q : strongest entries p = Some q -> p ∈ first_patterns entries.
Proof. intros E. destruct (decide (p ∈ first_patterns entries)) as [|Hn]; [done|]. apply strongest_None in Hn. congruence. Qed.

(** The two parts of the state of the loop. *)
Lemma effective_fold entries :
  exists m, fold_left effective_step entries ([], ∅) = (first_patterns entries, m) /\ forall p, m !! p = strongest entries p.
Proof.
  induction entries as [|e entries (m & E & Hm)] using rev_ind; [by exists ∅|].
  rewrite fold_left_app, E. cbn [fold_left effective_step]. rewrite first_patterns_snoc, (Hm (pattern e)).
  destruct (strongest entries (pattern e)) as [current|] eqn:Es.
  - rewrite bool_decide_eq_true_2 by (by eapply strongest_Some).
    eexists. split; [done|]. intros p. rewrite strongest_snoc. case_bool_decide as Ep.
    + subst p. rewrite Es. unfold join_permission, stronger. case_match; [by rewrite lookup_insert_eq|by rewrite Hm].
    + case_match; [rewrite lookup_insert_ne by done|]; apply Hm.
  - rewrite bool_decide_eq_false_2 by (by apply strongest_None). eexists. split; [done|]. intros p. rewrite strongest_snoc.
    case_bool_decide as Ep; [subst p; by rewrite lookup_insert_eq, Es|]. rewrite lookup_insert_ne by done. apply Hm.
Qed.

Lemma take_in_order_eq order m :
  NoDup order -> (forall p, p ∈ order -> is_Some (m !! p)) ->
  take_in_order order m = omap (fun p => mkDomainEntry p <$> m !! p) order.
Proof.
  intros Hn. revert m. induction Hn as [|p order Hp Hn IH]; intros m Hm; [done|]. cbn [take_in_order omap list_omap].
  destruct (Hm p) as [perm E]; [by left|]. rewrite E. cbn. f_equal. rewrite IH.
  - apply list_omap_ext. apply Forall2_same_length_lookup_2; [done|]. intros i x y Hx Hy. rewrite Hx in Hy. injection Hy as <-.
    rewrite lookup_delete_ne; [done|]. intros ->. apply Hp. by eapply list_elem_of_lookup_2.
  - intros q Hq. rewrite lookup_delete_ne; [apply Hm; by right|]. by intros ->.
Qed.

(** The effective entries: every pattern once, in the order of first entries, with the
    strongest of its permissions. *)
Lemma effective_entries_eq entries :
  effective_entries entries = omap (fun p => mkDomainEntry p <$> strongest entries p) (first_patterns entries).
Proof.
  unfold effective_entries. destruct (effective_fold entries) as (m & -> & Hm).
  rewrite take_in_order_eq; [|apply first_patterns_nodup|].
  - apply list_omap_ext. apply Forall2_same_length_lookup_2; [done|]. intros i x y Hx Hy. rewrite Hx in Hy. injection Hy as <-. by rewrite Hm.
  - intros p Hp. rewrite Hm. destruct (strongest entries p) eqn:E; [done|]. by apply strongest_None in E.
Qed.

Lemma elem_of_effective entries e : e ∈ effective_entries entries <-> strongest entries (pattern e) = Some (permission e).
Proof.
  rewrite effective_entries_eq, list_elem_of_omap. split.
  - intros (p & Hp & E). destruct (strongest entries p) eqn:Es; [|done]. injection E as <-. done.
  - intros E. exists (pattern e). rewrite E. split; [by eapply strongest_Some|by destruct e].
Qed.

Lemma effective_patterns entries : List.map pattern (effective_entries entries) = first_patterns entries.
Proof.
  rewrite effective_entries_eq. assert (forall p, p ∈ first_patterns entries -> is_Some (strongest entries p)) as H.
  { intros p Hp. destruct (strongest entries p) eqn:E; [done|]. by apply strongest_None in E. }
  revert H. generalize (first_patterns entries) as l. induction l as [|p l IH]; intros H; [done|]. cbn [omap list_omap].
  destruct (H p) as [perm ->]; [by left|]. cbn. f_equal. apply IH. intros q Hq. apply H. by right.
Qed.

Lemma first_patterns_nodup_eq entries : NoDup (List.map pattern entries) -> first_patterns entries = List.map pattern entries.
Proof.
  induction entries as [|e entries IH] using rev_ind; [done|]. rewrite List.map_app, first_patterns_snoc. cbn [List.map].
  intros (Hn & Hd & _)%NoDup_app. rewrite IH by done. rewrite bool_decide_eq_false_2; [done|].
  intros Hin. apply (Hd _ Hin). by left.
Qed.

(** Where no pattern is repeated, an entry gives its own permission. *)
Lemma strongest_nodup entries e : NoDup (List.map pattern entries) -> e ∈ entries -> strongest entries (pattern e) = Some (permission e).
Proof.
  induction entries as [|x entries IH] using rev_ind; [by intros _ ?%not_elem_of_nil|]. rewrite List.map_app, strongest_snoc. cbn [List.map].
  intros (Hn & Hd & _)%NoDup_app [He|Hx%list_elem_of_singleton]%elem_of_app; [|subst x].
  - rewrite bool_decide_eq_false_2; [by apply IH|]. intros Ex.
    apply (Hd (pattern e)); [by apply (list_elem_of_fmap_2 pattern)|rewrite Ex; by left].
  - rewrite bool_decide_eq_true_2 by done. assert (strongest entries (pattern e) = None) as ->; [|done].
    apply strongest_None. rewrite elem_of_first_patterns. intros Hin. apply (Hd _ Hin). by left.
Qed.

Lemma effective_entries_nodup entries : NoDup (List.map pattern entries) -> effective_entries entries = entries.
Proof.
  intros Hn. rewrite effective_entries_eq, first_patterns_nodup_eq by done.
  assert (forall e, e ∈ entries -> strongest entries (pattern e) = Some (permission e)) as H by (intros; by apply strongest_nodup).
  revert H. generalize (strongest entries) as f. clear Hn. induction entries as [|e entries IH]; intros f H; [done|].
  cbn [List.map omap list_omap]. rewrite (H e) by (by left). cbn. f_equal; [by destruct e|]. apply IH. intros x Hx. apply H. by right.
Qed.

(** ** The wire form *)

Lemma bmap_insert_fresh {A} k (v : A) m : k ∉ List.map fst m -> bmap_insert k v m ≡ₚ (k, v) :: m.
Proof.
  induction m as [|[k' v'] m IH]; cbn [bmap_insert List.map fst]; [done|]. intros Hn.
  destruct (str_compare k k') eqn:E; [apply str_compare_eq in E as ->; destruct Hn; by left|done|].
  rewrite IH by (intros Hin; apply Hn; by right). by apply perm_swap.
Qed.

Lemma bmap_collect_perm {A} (l : list (str * A)) : NoDup (List.map fst l) -> bmap_collect l ≡ₚ l.
Proof.
  unfold bmap_collect. induction l as [|e l IH] using rev_ind; [done|]. rewrite List.map_app, fold_left_app. cbn [List.map fold_left].
  intros (Hn & Hd & _)%NoDup_app. specialize (IH Hn). rewrite bmap_insert_fresh.
  - rewrite IH, <- surjective_pairing. by apply Permutation_cons_append.
  - intros Hin. apply (Hd e.1); [|by left]. by rewrite <- IH.
Qed.

Definition wire_entry (e : NetworkDomainPermissionEntry) : str * NetworkDomainPermission := (pattern e, permission e).

Lemma deserialize_wire l : deserialize_domains (List.map wire_entry l) = l.
Proof. unfold deserialize_domains. rewrite List.map_map. rewrite <- (List.map_id l) at 2. apply List.map_ext. by intros []. Qed.

Lemma wire_roundtrip entries : deserialize_domains (serialize_domains entries) ≡ₚ effective_entries entries.
Proof.
  unfold serialize_domains. fold wire_entry. rewrite <- (deserialize_wire (effective_entries entries)) at 2.
  unfold deserialize_domains. apply Permutation_map, bmap_collect_perm. rewrite List.map_map. cbn.
  rewrite effective_patterns. apply first_patterns_nodup.
Qed.

(** Reading back what was written: the same effective entries, in the order of their patterns. *)
Lemma effective_wire entries : effective_entries (deserialize_domains (serialize_domains entries)) ≡ₚ effective_entries entries.
Proof.
  rewrite effective_entries_nodup; [apply wire_roundtrip|]. rewrite (Permutation_map pattern (wire_roundtrip entries)), effective_patterns.
  apply first_patterns_nodup.
Qed.

(** ** Updates *)

Section settings.
Context {Json : Type}.
Implicit Types s : NetworkProxySettings Json.

Notation entries_of s := (default [] (domains s)).

Lemma non_empty_default {A} (l : list A) : default [] (non_empty l) = l.
Proof. by destruct l. Qed.

Lemma domains_with_domains s d : domains (with_domains s d) = d.
Proof. done. Qed.

Lemma strongest_filter f entries p :
  (forall e, pattern e = p -> f e = true) -> strongest (List.filter f entries) p = strongest entries p.
Proof.
  intros Hf. induction entries as [|e entries IH] using rev_ind; [done|]. rewrite List.filter_app, strongest_snoc. cbn [List.filter].
  destruct (f e) eqn:E; [by rewrite strongest_snoc, IH|]. rewrite app_nil_r, IH. case_bool_decide as Ep; [|done].
  rewrite Hf in E by done. done.
Qed.

Lemma strongest_filter_out f entries p :
  (forall e, pattern e = p -> f e = false) -> strongest (List.filter f entries) p = None.
Proof.
  intros Hf. apply strongest_None. rewrite elem_of_first_patterns. intros (e & Ep & He)%list_elem_of_fmap.
  apply list_elem_of_In, filter_In in He as [_ He]. rewrite Hf in He; done.
Qed.

(** After an update the host, by its normal form, has the new permission only. *)
Lemma upsert_strongest s host perm normalize p :
  strongest (entries_of (upsert_domain_permission s host perm normalize)) p =
  if p == host then Some perm else if normalize p == normalize host then None else strongest (entries_of s) p.
Proof.
  unfold upsert_domain_permission. rewrite domains_with_domains, non_empty_default, strongest_snoc. cbn [pattern permission].
  destruct (decide (p = host)) as [->|Hp].
  - rewrite !bool_decide_eq_true_2 by done. rewrite strongest_filter_out; [done|]. intros e ->. by rewrite bool_decide_eq_true_2.
  - rewrite !(bool_decide_eq_false_2 (_ = _)) by congruence. case_bool_decide as E.
    + apply strongest_filter_out. intros e ->. by rewrite bool_decide_eq_true_2.
    + apply strongest_filter. intros e ->. by rewrite bool_decide_eq_false_2.
Qed.

(** The lists of allowed and denied domains, by their entries. *)
Lemma domain_entries_elem s perm p : p ∈ default [] (domain_entries s perm) <-> strongest (entries_of s) p = Some perm.
Proof.
  unfold domain_entries. destruct (domains s) as [d|]; [|split; [intros []%not_elem_of_nil|done]]. cbn [default].
  rewrite non_empty_default. unfold id. rewrite list_elem_of_fmap. split.
  - intros (e & -> & [He%list_elem_of_In Ee%bool_decide_eq_true]%list_elem_of_In%filter_In). apply elem_of_effective in He. by subst.
  - intros E. exists (mkDomainEntry p perm). split; [done|]. apply list_elem_of_In, filter_In. split.
    + by apply list_elem_of_In, elem_of_effective.
    + by apply bool_decide_eq_true.
Qed.

(** ** Listening *)

Lemma clamp_non_loopback_cases addr allow :
  clamp_non_loopback addr allow = addr /\ (is_loopback (ip addr) || allow = true) \/
  clamp_non_loopback addr allow = loopback_addr (port addr) /\ allow = false.
Proof. unfold clamp_non_loopback. destruct (is_loopback (ip addr)), allow; auto. Qed.

Lemma clamp_port addr allow : port (clamp_non_loopback addr allow) = port addr.
Proof. unfold clamp_non_loopback. by repeat case_match. Qed.

(** Whether programs on other machines can reach the address. *)
Definition exposed (addr : SocketAddr) : Prop := is_loopback (ip addr) = false.

Lemma clamp_exposed addr allow : exposed (clamp_non_loopback addr allow) -> allow = true /\ clamp_non_loopback addr allow = addr.
Proof. unfold clamp_non_loopback, exposed. repeat case_match; try done. congruence. Qed.

End settings.

End NetworkConfigFacts.
