(* ===== verification/NetworkProxyFacts.v ===== *)
(** Facts on the running network proxy: when a host is allowed, what holds in every state
    that interleaved operations reach, and what an update can lose. *)

From stdpp Require Import base list option numbers gmap strings.
From S2P Require Import Prelude Machine RustStr ShellTree AbsolutePath NetworkPolicy NetworkConfig NetworkHooks NetworkState NetworkProxy NetworkPolicyFacts NetworkConfigFacts.

Module NetworkProxyFacts.
Import NetworkPolicy NetworkConfig NetworkHooks NetworkState NetworkProxy NetworkPolicyFacts NetworkConfigFacts.

Open Scope rust_scope.

(** ** Decisions *)

(** The host, and the address in it if it has a scope. *)
Definition names_of (host : str) : list str := host :: match unscoped_ip_literal host with Some ip => [ip] | None => [] end.

Lemma globset_matches_names set host :
  globset_matches_host_or_unscoped set host = true <-> exists name, name ∈ names_of host /\ set name = true.
Proof.
  unfold globset_matches_host_or_unscoped, names_of. rewrite orb_true_iff. split.
  - intros [E|E]; [exists host; split; [by left|done]|].
    destruct (unscoped_ip_literal host) as [ip|]; [|done]. exists ip. split; [by right; left|done].
  - intros (name & [->|Hn]%elem_of_cons & E); [by left|right].
    destruct (unscoped_ip_literal host) as [ip|]; [|by apply not_elem_of_nil in Hn]. by apply list_elem_of_singleton in Hn as ->.
Qed.

(** An entry of the list that is no pattern names the host. *)
Definition listed_literally (allowed : list str) (host : str) : Prop :=
  exists e, e ∈ allowed /\ contains_char 42 (trim e) = false /\ contains_char 63 (trim e) = false /\
    normalize_host (trim e) ∈ names_of host.

Lemma starts_with_contains (c : char) q s : starts_with (c :: q) s = true -> contains_char c s = true.
Proof. intros (r & ->)%starts_with_true. cbn. by rewrite N.eqb_refl. Qed.

Lemma explicit_local allowed host : is_explicit_local_allowlisted allowed host = true <-> listed_literally allowed host.
Proof.
  unfold is_explicit_local_allowlisted, listed_literally. rewrite existsb_exists.
  split; intros (e & He & H); exists e; (split; [by apply list_elem_of_In|]).
  - cbv zeta in H. destruct (_ || _ || _); [done|]. destruct (contains_char 42 _) eqn:E1; [done|]. destruct (contains_char 63 _) eqn:E2; [done|].
    split_and!; [done..|]. unfold names_of. cbn in H. rewrite elem_of_cons.
    destruct (unscoped_ip_literal host); cbn [is_some_and] in H; rewrite ?orb_false_r, ?orb_true_iff in H.
    + destruct H as [H|H]; apply bool_decide_eq_true in H; [by left|right; rewrite H; by left].
    + apply bool_decide_eq_true in H. by left.
  - destruct H as (E1 & E2 & Hn). cbv zeta. rewrite E1, E2. cbn [orb].
    assert ((trim e == lit "*") || starts_with (lit "*.") (trim e) || starts_with (lit "**.") (trim e) = false) as ->.
    { apply not_true_is_false. intros [[E%bool_decide_eq_true|E]%orb_true_iff|E]%orb_true_iff.
      - by rewrite E in E1.
      - apply (starts_with_contains 42 (lit ".")) in E. congruence.
      - apply (starts_with_contains 42 (lit "*.")) in E. congruence. }
    unfold names_of in Hn. apply elem_of_cons in Hn as [->|Hn]; [by rewrite bool_decide_eq_true_2|].
    destruct (unscoped_ip_literal host); [|by apply not_elem_of_nil in Hn]. apply list_elem_of_singleton in Hn as ->. cbn [is_some_and].
    rewrite (bool_decide_eq_true_2 (l = l)) by done. by rewrite orb_true_r.
Qed.

(** Every address the host stands for is public. *)
Definition resolves_public (host : str) (dns : option (list IpAddr)) : Prop :=
  match parse_ip host with
  | Some ip => is_non_public_ip ip = false
  | None => exists addrs, dns = Some addrs /\ forall ip, ip ∈ addrs -> is_non_public_ip ip = false
  end.

Lemma resolves_public_false host dns : host_resolves_to_non_public_ip host dns = false <-> resolves_public host dns.
Proof.
  unfold host_resolves_to_non_public_ip, resolves_public. destruct (parse_ip host); [done|]. destruct dns as [addrs|]; [|naive_solver].
  split.
  - intros E. exists addrs. split; [done|]. intros ip Hip. destruct (is_non_public_ip ip) eqn:Ei; [|done].
    rewrite (proj2 (existsb_exists _ _)) in E; [done|]. exists ip. split; [by apply list_elem_of_In|done].
  - intros (? & [= <-] & Ha). apply not_true_is_false. intros (ip & Hip%list_elem_of_In & E)%existsb_exists. rewrite Ha in E; done.
Qed.

(** Local addresses are opt-in: for all of them, for a literal, or not at all. *)
Definition local_permitted (p : HostPolicy) (host : str) (dns : option (list IpAddr)) : Prop :=
  p_allow_local_binding p = true \/
  (local_literal host = true /\ listed_literally (default [] (p_allowed_domains p)) host) \/
  (local_literal host = false /\ resolves_public host dns).

Lemma decide_host_allowed p host dns :
  decide_host p host dns = Allowed <->
  (forall name, name ∈ names_of host -> p_deny_set p name = false) /\ local_permitted p host dns /\
  is_Some (p_allowed_domains p) /\ exists name, name ∈ names_of host /\ p_allow_set p name = true.
Proof.
  unfold decide_host, local_permitted. cbv zeta.
  destruct (globset_matches_host_or_unscoped (p_deny_set p) host) eqn:Ed.
  { split; [done|]. intros (Hd & _). apply globset_matches_names in Ed as (name & Hn & E). rewrite Hd in E; done. }
  assert (forall name, name ∈ names_of host -> p_deny_set p name = false) as Hd.
  { intros name Hn. apply not_true_is_false. intros E. rewrite (proj2 (globset_matches_names _ _)) in Ed; [done|]. by exists name. }
  rewrite <- globset_matches_names, <- explicit_local, <- resolves_public_false.
  destruct (p_allow_local_binding p), (local_literal host), (is_explicit_local_allowlisted _ host), (host_resolves_to_non_public_ip host dns),
    (p_allowed_domains p) as [l|], (globset_matches_host_or_unscoped (p_allow_set p) host); cbn;
    (split; [intros E; try discriminate E; split_and!; eauto|]);
    (intros (_ & [Hl|[[Hl1 Hl2]|[Hl1 Hl2]]] & [? Hs] & Ha); done).
Qed.

(** A host that is only not listed is not denied either, and local access is permitted. *)
Lemma decide_host_not_allowed p host dns :
  decide_host p host dns = Blocked NotAllowed ->
  (forall name, name ∈ names_of host -> p_deny_set p name = false) /\ local_permitted p host dns.
Proof.
  unfold decide_host, local_permitted. cbv zeta. destruct (globset_matches_host_or_unscoped (p_deny_set p) host) eqn:Ed; [done|]. intros E. split.
  - intros name Hn. apply not_true_is_false. intros E'. rewrite (proj2 (globset_matches_names _ _)) in Ed; [done|]. by exists name.
  - rewrite <- explicit_local, <- resolves_public_false. revert E.
    destruct (p_allow_local_binding p), (local_literal host), (is_explicit_local_allowlisted _ host), (host_resolves_to_non_public_ip host dns);
      cbn; intros; try done; eauto.
Qed.

(** ** Compiled states *)

Section compiled.
Context `{DomainLaws} `{HttpLib} `{AbsolutePath.Os} {Json MitmState : Type}.
Implicit Types st : ConfigState Json MitmState.

Notation allowed_of st := (default [] (allowed_domains (network (config st)))).
Notation denied_of st := (default [] (denied_domains (network (config st)))).

(** The compiled lists are those of the configuration. *)
Definition coherent st : Prop :=
  compile_denylist_globset (denied_of st) = Ok (deny_set st) /\ compile_allowlist_globset (allowed_of st) = Ok (allow_set st).

(** An entry of the list matches a name of the host. *)
Definition lists (entries : list str) (host : str) : Prop :=
  exists e name, e ∈ entries /\ name ∈ names_of host /\ matches (entry_pattern e) name.

Lemma compiled_names w entries set host :
  compile_globset_with_policy entries w = Ok set -> (forall name, name ∈ names_of host -> ascii name) ->
  (forall e, e ∈ entries -> simple (entry_pattern e)) ->
  (exists name, name ∈ names_of host /\ set name = true) <-> lists entries host.
Proof using H H0.
  intros Ec Hh He. unfold lists. split.
  - intros (name & Hn & E). apply (compiled_list_matches w entries) in E as (e & Hin & Hm); [by exists e, name|done|by apply Hh|done].
  - intros (e & name & Hin & Hn & Hm). exists name. split; [done|]. apply (compiled_list_matches w entries); [done|by apply Hh|done|by exists e].
Qed.

Lemma host_allowed_lemma st host dns :
  coherent st -> (forall name, name ∈ names_of host -> ascii name) ->
  (forall e, e ∈ allowed_of st ++ denied_of st -> simple (entry_pattern e)) ->
  decide_host (host_policy st) host dns = Allowed <->
  lists (allowed_of st) host /\ ~ lists (denied_of st) host /\ local_permitted (host_policy st) host dns.
Proof using H H0.
  intros [Hd Ha] Hh He. rewrite decide_host_allowed. cbn [p_deny_set p_allow_set p_allowed_domains host_policy].
  rewrite <- (compiled_names _ _ _ _ Hd), <- (compiled_names _ _ _ _ Ha) by (try done; intros; apply He, elem_of_app; auto).
  split.
  - intros (Hn & Hl & _ & Hs). split_and!; [done| |done]. intros (name & Hin & E). rewrite Hn in E; done.
  - intros (Hs & Hn & Hl). split_and!; [|done| |done].
    + intros name Hin. apply not_true_is_false. intros E. apply Hn. by exists name.
    + destruct (allowed_domains (network (config st))) eqn:E; [done|]. apply (compiled_names _ _ _ _ Ha) in Hs as (e & _ & Hin & _); [|done|].
      * by apply not_elem_of_nil in Hin.
      * intros e' He'. apply He, elem_of_app. by left.
Qed.

End compiled.

(** ** Interleaved operations *)

Section machine.
Context `{DomainLib} `{HttpLib} `{AbsolutePath.Os} {Json MitmState : Type} `{EqDecision Json}.
Context (env_var : str -> option str) (mitm_new : bool -> bool -> result MitmState Error) (macos broker : bool).
Implicit Types st : ConfigState Json MitmState.

Notation World := (World (Json:=Json) (MitmState:=MitmState)).
Notation Task := (Task (Json:=Json) (MitmState:=MitmState)).
Notation run_section := (run_section env_var mitm_new macos broker).
Notation step := (step env_var mitm_new macos broker).
Notation valid st := (validate_policy_against_constraints (config st) (constraints st) = Ok tt).

(** A configuration that keeps to its constraints, compiled. *)
Definition admissible st : Prop := coherent st /\ valid st.

(** It also keeps at most as many blocked requests as are buffered. *)
Definition good st : Prop := admissible st /\ length (blocked st) <= MAX_BLOCKED_EVENTS.

Lemma validate_with_mode (cfg : NetworkProxyConfig Json) c m :
  validate_policy_against_constraints cfg c = Ok tt -> check_mode c m = Ok tt ->
  validate_policy_against_constraints (mkConfig (with_mode (network cfg) m)) c = Ok tt.
Proof using Type.
  unfold validate_policy_against_constraints. cbn [network]. intros Hv Hm.
  change (validate_mitm_hook_config (mkConfig (with_mode (network cfg) m))) with (validate_mitm_hook_config cfg).
  destruct (map_err _ (validate_mitm_hook_config cfg)) as [[]|]; [|done]. cbn [mode with_mode].
  change (denied_domains (with_mode (network cfg) m)) with (denied_domains (network cfg)).
  destruct (validate_non_global_wildcard_domain_patterns _ _) as [[]|]; [|done].
  change (enabled (with_mode (network cfg) m)) with (enabled (network cfg)).
  destruct (check_off _ (enabled _) _) as [[]|]; [|done]. rewrite Hm.
  destruct (check_mode c (mode (network cfg))) as [[]|]; [|done]. exact Hv.
Qed.

Lemma validate_check_mode (cfg : NetworkProxyConfig Json) c :
  validate_policy_against_constraints cfg c = Ok tt -> check_mode c (mode (network cfg)) = Ok tt.
Proof using Type.
  unfold validate_policy_against_constraints. destruct (map_err _ _) as [[]|]; [|done].
  destruct (validate_non_global_wildcard_domain_patterns _ _) as [[]|]; [|done]. destruct (check_off _ _ _) as [[]|]; [|done].
  by destruct (check_mode c (mode (network cfg))) as [[]|].
Qed.

Lemma build_config_state_spec cfg c st :
  build_config_state env_var mitm_new cfg c = Ok st -> coherent st /\ config st = cfg /\ constraints st = c.
Proof using Type.
  unfold build_config_state, coherent. intros E. destruct (map_err _ (validate_unix_socket_allowlist_paths cfg)) as [[]|]; [|done].
  case_match; [done|]. destruct (map_err _ (validate_non_global_wildcard_domain_patterns _ _)) as [[]|]; [|done].
  destruct (compile_denylist_globset _) as [dset|] eqn:Ed; [|done]. cbn [map_err] in E.
  destruct (compile_allowlist_globset _) as [aset|] eqn:Ea; [|done]. cbn [map_err] in E.
  destruct (map_err _ (compile_mitm_hooks env_var cfg)) as [hooks|]; [|done].
  repeat case_match; try done; injection E as <-; cbn [config deny_set allow_set constraints]; by rewrite ?Ed, ?Ea.
Qed.

Lemma good_with_blocked st b total : admissible st -> length b <= MAX_BLOCKED_EVENTS -> good (with_blocked st b total).
Proof using Type. by intros [? ?] ?. Qed.

(** What the outside may hand over: states that keep to their constraints. *)
Definition input_ok (input : Input) : Prop :=
  match input with
  | MaybeReload (Ok (Some st)) => admissible st
  | ReloadNow (Ok st) => admissible st
  | _ => True
  end.

Definition op_ok (op : Op) : Prop := match op with ReplaceConfigState st => admissible st | _ => True end.

(** What a task holds between two sections. *)
Definition task_ok (t : Task) : Prop :=
  match t with
  | Called op | Running op | Reloaded op => op_ok op
  | Reloading op st => op_ok op /\ good st
  | ModeReady m c => check_mode c m = Ok tt
  | UpdateReady _ _ _ _ st => good st
  | _ => True
  end.

Lemma reload_read_good answer st st' :
  input_ok (MaybeReload answer) -> good st -> reload_read broker answer st = Ok (Some st') -> good st'.
Proof using Type.
  unfold reload_read. intros Ha [_ Hl]. destruct answer as [[new|]|]; try done.
  destruct (ensure_credential_broker_enablement_unchanged broker new); [|done]. intros [= <-]. by apply good_with_blocked.
Qed.

Lemma update_read_good host target st st' :
  good st -> update_read env_var mitm_new host target st = Ok (Some st') -> good st'.
Proof using Type.
  unfold update_read. intros [_ Hl]. case_match; [done|]. set (candidate := mkConfig _).
  destruct (validate_policy_against_constraints candidate (constraints st)) as [[]|] eqn:Ev; [|done]. cbn [map_err].
  destruct (build_config_state env_var mitm_new candidate (constraints st)) as [new|] eqn:Eb; [|done]. intros [= <-].
  destruct (build_config_state_spec _ _ _ Eb) as (Hc & E1 & E2). apply good_with_blocked; [|done]. split; [done|]. by rewrite E1, E2.
Qed.

Lemma push_blocked_good entry st : good st -> good (push_blocked entry st).
Proof using Type.
  intros [Ha Hl]. apply good_with_blocked; [done|]. rewrite length_drop. lia.
Qed.

Lemma mode_write_good m st : good st -> check_mode (constraints st) m = Ok tt -> good (mode_write m st).
Proof using Type. intros [[Hc Hv] Hl] Hm. split; [|done]. split; [done|]. by apply validate_with_mode. Qed.

Lemma run_body_good op st b st' t : good st -> op_ok op -> run_body env_var mitm_new macos broker op st b = (st', t) -> good st' /\ task_ok t.
Proof using Type.
  intros Hg Ho. destruct op; cbn [run_body]; try (intros [= <- <-]; done).
  - destruct (host_parse _); by intros [= <- <-].
  - unfold drain_blocked. intros [= <- <-]. split; [|done]. apply good_with_blocked; [apply Hg|simpl; lia].
  - destruct (mode_read _ st) as [c|] eqn:E; intros [= <- <-]; [|done]. split; [done|]. unfold mode_read in E.
    destruct (validate_policy_against_constraints _ _) as [[]|] eqn:Ev; [|done]. injection E as <-. by apply validate_check_mode in Ev.
  - destruct (update_read env_var mitm_new _ _ st) as [[new|]|] eqn:E; intros [= <- <-]; [|done..].
    split; [done|]. by eapply update_read_good.
  - unfold replace_config_state. destruct (ensure_credential_broker_enablement_unchanged broker _); intros [= <- <-]; [|done].
    split; [|done]. apply good_with_blocked; [done|apply Hg].
Qed.

Lemma run_section_good t input st b st' shown t' :
  good st -> task_ok t -> input_ok input -> run_section t input st b = Some (st', shown, t') -> good st' /\ task_ok t'.
Proof using Type.
  intros Hg Ht Hi. destruct t as [op|op|op new|op|h p|entry o|entry|m c|h k pc c new|r]; cbn [NetworkProxy.run_section task_ok] in *.
  - destruct op, input as [|answer|answer|dns]; try done; try (intros [= <- <- <-]; done).
    + destruct (host_parse _); by intros [= <- <- <-].
    + unfold force_reload. destruct answer as [new|]; [|by intros [= <- <- <-]].
      destruct (ensure_credential_broker_enablement_unchanged broker new); intros [= <- <- <-]; [|done].
      split; [|done]. apply good_with_blocked; [done|apply Hg].
  - destruct input as [|answer|answer|dns]; try done. destruct (reload_read broker answer st) as [[new|]|] eqn:E; intros [= <- <- <-]; try done.
    split; [done|]. split; [done|]. by eapply reload_read_good.
  - destruct input; try done. intros [= <- <- <-]. by destruct Ht.
  - destruct input; try done. destruct (run_body env_var mitm_new macos broker op st b) as [st2 t2] eqn:E. intros [= <- <- <-].
    by eapply run_body_good.
  - destruct input; try done. by intros [= <- <- <-].
  - destruct input; try done. destruct o; intros [= <- <- <-]; (split; [by apply push_blocked_good|done]).
  - destruct input; try done. by intros [= <- <- <-].
  - destruct input; try done. case_bool_decide as E; intros [= <- <- <-]; [|done]. split; [|done]. apply mode_write_good; [done|by rewrite E].
  - destruct input; try done. case_match; intros [= <- <- <-]; done.
  - done.
Qed.

(** Steps in which the outside hands over admissible states. *)
Inductive trusted_step : World -> World -> Prop :=
| trusted_call w op : op_ok op -> trusted_step w (mkWorld (shared w) (observer w) (observed w) (tasks w ++ [Called op]))
| trusted_observer w b : trusted_step w (mkWorld (shared w) b (observed w) (tasks w))
| trusted_section w i t input st shown t' :
    tasks w !! i = Some t -> input_ok input -> run_section t input (shared w) (observer w) = Some (st, shown, t') ->
    trusted_step w (mkWorld st (observer w) (observed w ++ shown) (<[i := t']> (tasks w))).

Lemma trusted_step_step w w' : trusted_step w w' -> step w w'.
Proof using Type. destruct 1; by econstructor. Qed.

(** Schedules are sequences of steps. *)
Definition event_ok (e : Event) : Prop :=
  match e with Call op => op_ok op | SetObserver _ => True | Section_ _ input => input_ok input end.

Lemma run_event_step w e w' : event_ok e -> run_event env_var mitm_new macos broker w e = Some w' -> trusted_step w w'.
Proof using Type.
  destruct e as [op|b|i input]; cbn [run_event event_ok]; intros He; [intros [= <-]; by constructor|intros [= <-]; by constructor|].
  destruct (tasks w !! i) as [t|] eqn:Et; [|done]. destruct (run_section t input (shared w) (observer w)) as [[[st shown] t']|] eqn:Er; [|done].
  intros [= <-]. by econstructor.
Qed.

Lemma run_schedule_steps w es w' : Forall event_ok es -> run_schedule env_var mitm_new macos broker w es = Some w' -> rtc trusted_step w w'.
Proof using Type.
  intros He. revert w. induction He as [|e es He Hes IH]; intros w; cbn [run_schedule]; [intros [= <-]; apply rtc_refl|].
  destruct (run_event env_var mitm_new macos broker w e) as [w2|] eqn:E; [|done]. cbn. intros Er.
  eapply rtc_l; [by eapply run_event_step|by apply IH].
Qed.

Definition world_ok (w : World) : Prop := good (shared w) /\ Forall task_ok (tasks w).

Lemma trusted_step_ok w w' : trusted_step w w' -> world_ok w -> world_ok w'.
Proof using Type.
  destruct 1 as [w op Ho|w b|w i t input st shown t' Ht Hi Hr]; intros [Hg Hts]; [|done|].
  - split; [done|]. cbn [tasks]. apply Forall_app. split; [done|]. by repeat constructor.
  - pose proof (proj1 (Forall_lookup _ _) Hts _ _ Ht) as Hti. destruct (run_section_good _ _ _ _ _ _ _ Hg Hti Hi Hr) as [Hg' Ht'].
    split; [done|]. by apply Forall_insert.
Qed.

Lemma reachable_good_lemma w w' : rtc trusted_step w w' -> world_ok w -> world_ok w'.
Proof using Type. induction 1; eauto using trusted_step_ok. Qed.

End machine.

End NetworkProxyFacts.
