(* ===== verification/NetworkTheorems.v ===== *)
(** The guarantees of the network proxy, with sample libraries on which they are applied. *)

From stdpp Require Import base list option numbers gmap strings.
From S2P Require Import Prelude Machine RustStr ShellTree AbsolutePath NetworkPolicy NetworkConfig NetworkHooks NetworkState NetworkProxy NetworkPolicyFacts NetworkConfigFacts NetworkProxyFacts NetworkBroker.

Module NetworkTheorems.
Import NetworkPolicy NetworkConfig NetworkHooks NetworkState NetworkProxy NetworkPolicyFacts NetworkConfigFacts NetworkHooksFacts NetworkProxyFacts NetworkBroker NetworkBrokerFacts.

Open Scope rust_scope.

(** ** Sample libraries *)

(** Globs of plain text, of any text, and of what ends in plain text. *)
Definition sample_glob (p : str) : option (str -> bool) :=
  if p == lit "*" then Some (fun _ => true)
  else match strip_prefix (lit "?*.") p with
       | Some d =>
           if forallb glob_plain d
           then Some (fun h => is_some_and (strip_suffix (DOT :: to_ascii_lowercase d) (to_ascii_lowercase h)) (fun x => negb (is_empty x)))
           else None
       | None => if forallb glob_plain p then Some (fun h => eq_ignore_ascii_case h p) else None
       end.

#[export] Instance sample_domains : DomainLib := {|
  glob_new := sample_glob;
  globset_new := fun globs => Some (fun h => existsb (fun g => g h) globs);
  url_host_parse := fun s => if is_empty s || negb (forallb glob_plain s) then None else Some (to_ascii_lowercase s) |}.

#[export] Instance sample_laws : DomainLaws sample_domains.
Proof.
  split; cbn [glob_new globset_new sample_domains].
  - by intros globs set h [= <-].
  - by intros g h [= <-].
  - intros d g h E Hd Hh. unfold sample_glob in E. destruct (decide (d = lit "*")) as [->|Hs]; [done|].
    rewrite bool_decide_eq_false_2 in E by done. destruct (strip_prefix (lit "?*.") d) as [r|] eqn:Ep.
    + apply strip_prefix_Some in Ep as ->. done.
    + unfold plain in Hd. rewrite Hd in E. by injection E as <-.
  - intros d g h E Hd Hh. unfold sample_glob in E. rewrite bool_decide_eq_false_2 in E by done.
    rewrite strip_prefix_app in E. unfold plain in Hd. rewrite Hd in E. injection E as <-. split.
    + destruct (strip_suffix _ _) as [x|] eqn:Ex; [|done]. apply strip_suffix_Some in Ex. cbn. intros Hx%negb_true_iff%is_empty_false. by exists x.
    + intros (x & Hx & Eh). rewrite (proj2 (strip_suffix_Some _ _ x) Eh). cbn. by apply negb_true_iff, is_empty_false.
Defined.

(** Headers whose names are not empty and values that are their text. *)
#[export] Instance sample_http : HttpLib := {|
  HeaderValue := str;
  header_name_from_bytes := fun s => if is_empty s then None else Some (to_ascii_lowercase s);
  header_value_from_str := Some;
  header_to_str := Some;
  glob_build := fun p _ => sample_glob p;
  form_urlencoded_parse := fun _ => [] |}.

#[export] Instance sample_os : AbsolutePath.Os := {|
  AbsolutePath.home_dir := None;
  AbsolutePath.current_dir := Some [Shell.RootDir];
  AbsolutePath.tmpdir_var := None;
  AbsolutePath.symlink_metadata := fun _ => None;
  AbsolutePath.fs_canonicalize := fun p => Some p;
  AbsolutePath.is_dir := fun _ => false;
  AbsolutePath.is_file := fun _ => false;
  AbsolutePath.exists_path := fun _ => false;
  AbsolutePath.read_to_string := fun _ => None |}.

(** ** Addresses *)

(** C40: Which addresses count as not public: an IPv4 address exactly if it is in one of
    thirteen ranges; an IPv6 address in which an IPv4 address is embedded if that one is;
    any other IPv6 address exactly if it is in [fc00::/7], [fe80::/10] or [ff00::/8]. *)
Theorem non_public_addresses s ip :
  parse_ip s = Some ip ->
  is_non_public_ip ip =
  match ip with
  | V4 a b c d => in_ranges (u32_of a b c d) non_public_ranges
  | V6 segs =>
      match ipv6_to_ipv4 segs with
      | Some (a, b, c, d) => in_ranges (u32_of a b c d) non_public_ranges
      | None => in_ranges (segment0 segs) [(64512, 65023); (65152, 65215); (65280, 65535)]%N
      end
  end.
Proof.
  intros Hw%parse_ip_wf. destruct ip as [a b c d|segs]; cbn [is_non_public_ip].
  - destruct Hw as (?&?&?&?). by apply is_non_public_ipv4_ranges_lemma.
  - destruct (ipv6_to_ipv4 segs) as [[[[a b] c] d]|] eqn:E; [|by apply is_non_public_ipv6_ranges].
    by apply embedded_ranges.
Qed.

Lemma non_public_addresses_witness : is_non_public_ip (V4 100 64 1 2) = true.
Proof. rewrite (non_public_addresses (lit "100.64.1.2")); vm_compute; reflexivity. Defined.

(** ** Patterns *)

(** Comparing a managed pattern with a configured one decides inclusion: for a
    candidate with a proper name, it is allowed exactly if every proper host the candidate
    covers is covered by the managed pattern. *)
Theorem allows_decides_inclusion self candidate :
  proper_name (domain_of candidate) ->
  allows self candidate = true <-> forall host, proper_name host -> covers candidate host -> covers self host.
Proof. intros Hc. split; [intros; by eapply allows_covers|by apply allows_complete]. Qed.

Lemma allows_decides_inclusion_witness :
  forall host, proper_name host -> covers (ApexAndSubdomains (lit "api.Example.com")) host -> covers (SubdomainsOnly (lit "example.com.")) host.
Proof.
  apply (allows_decides_inclusion (SubdomainsOnly (lit "example.com.")) (ApexAndSubdomains (lit "api.Example.com"))); [|vm_compute; reflexivity].
  exists 97%N, (lit "pi.example.com"). vm_compute. split; [reflexivity|discriminate].
Defined.

(** An entry of the managed list that is no valid host has the empty domain, and so has
    every other such entry: one in the list admits all of them. *)
Lemma unparsable_entries_admitted `{DomainLib} managed entry denied c :
  c_allowed_domains c = Some [managed] -> allowlist_expansion_enabled c = None -> is_global_wildcard_domain_pattern managed = false ->
  parse_for_constraints managed = Exact [] -> parse_for_constraints entry = Exact [] ->
  check_allowed_domains c [entry] denied = Ok tt.
Proof.
  intros Ec Ee Hw Em Ep. unfold check_allowed_domains, validate_non_global_wildcard_domain_patterns. rewrite Ec, Ee. cbn [find_first]. rewrite Hw.
  cbn [List.map List.filter existsb]. by rewrite Em, Ep.
Qed.

(** ** Decisions *)

(** C3: When a host is allowed, end to end from the settings: an allowed entry matches it
    (or the address in it, without its scope), no denied entry does, and local access is
    permitted: by the setting, by an entry that names a local literal, or because every
    address the name resolves to is public; a failed lookup permits nothing. *)
Theorem host_allowed_exact `{DomainLaws} `{HttpLib} {Json MitmState} (st : ConfigState Json MitmState) host dns :
  let allowed := default [] (allowed_domains (network (config st))) in
  let denied := default [] (denied_domains (network (config st))) in
  coherent st -> (forall name, name ∈ names_of host -> ascii name) -> (forall e, e ∈ allowed ++ denied -> simple (entry_pattern e)) ->
  decide_host (host_policy st) host dns = Allowed <->
  lists allowed host /\ ~ lists denied host /\ local_permitted (host_policy st) host dns.
Proof. intros allowed denied. apply host_allowed_lemma. Qed.

Definition sample_settings : NetworkProxySettings unit :=
  with_domains default_settings
    (Some [mkDomainEntry (lit "**.Example.com") DomainAllow; mkDomainEntry (lit "bad.example.com") DomainAllow;
           mkDomainEntry (lit "bad.example.com") DomainDeny]).

(** The state the settings are built to, or a state that allows nothing. *)
Definition state_of (s : NetworkProxySettings unit) (c : NetworkProxyConstraints) : ConfigState unit unit :=
  match build_config_state (fun _ => None) (fun _ _ => Ok tt) (mkConfig s) c with
  | Ok st => st
  | Err _ => mkState (mkConfig s) (fun _ => false) (fun _ => true) None [] c [] 0
  end.

Lemma sample_coherent : coherent (state_of sample_settings no_constraints).
Proof. apply (build_config_state_spec (fun _ => None) (fun _ _ => Ok tt) (mkConfig sample_settings) no_constraints). reflexivity. Qed.

Lemma host_allowed_exact_witness :
  lists [lit "**.Example.com"] (lit "api.example.com") /\ ~ lists [lit "bad.example.com"] (lit "api.example.com").
Proof.
  assert (forall name, name ∈ names_of (lit "api.example.com") -> ascii name) as Ha
    by (intros name ->%list_elem_of_singleton; vm_compute; reflexivity).
  destruct (proj1 (host_allowed_exact (state_of sample_settings no_constraints) (lit "api.example.com") (Some [V4 93 184 216 34])
    sample_coherent Ha ltac:(intros e [->|[->|[]%not_elem_of_nil]%elem_of_cons]%elem_of_cons; right; vm_compute; reflexivity))
    ltac:(vm_compute; reflexivity)) as (Hl & Hd & _).
  split; [exact Hl|exact Hd].
Defined.

(** A decider can only add what is not listed: whatever it answers, a request that is
    let through is to a host that is not denied and whose local access is permitted, and
    unless the event is marked as an override an allowed entry matches the host. *)
Theorem decider_cannot_override p host dns decider :
  fst (evaluate_host_policy (decide_host p host dns) decider) = NetworkAllow ->
  (forall name, name ∈ names_of host -> p_deny_set p name = false) /\ local_permitted p host dns /\
  (policy_override (snd (evaluate_host_policy (decide_host p host dns) decider)) = false ->
   exists name, name ∈ names_of host /\ p_allow_set p name = true).
Proof.
  destruct (decide_host p host dns) as [|[]] eqn:E; try done.
  - intros _. apply decide_host_allowed in E as (Hd & Hl & _ & Ha). done.
  - apply decide_host_not_allowed in E as [Hd Hl]. destruct decider as [f|]; [|done]. unfold evaluate_host_policy.
    destruct (f tt); cbn; [|done]. intros _. by split_and!.
Qed.

Lemma decider_cannot_override_witness :
  let p := host_policy (state_of sample_settings no_constraints) in
  p_deny_set p (lit "other.org") = false.
Proof.
  intros p. apply (decider_cannot_override p (lit "other.org") (Some []) (Some (fun _ => NetworkAllow))); [vm_compute; reflexivity|].
  by left.
Defined.

(** ** Settings *)

(** The proxy listens on an address that other machines reach only if the setting for
    that is on and no unix socket can be used through it. *)
Theorem listening_exposed `{AbsolutePath.Os} url_parse {Json} (cfg : NetworkProxyConfig Json) rc :
  resolve_runtime url_parse cfg = Ok rc -> exposed (http_addr rc) \/ exposed (socks_addr rc) ->
  dangerously_allow_non_loopback_proxy (network cfg) = true /\ allow_unix_sockets (network cfg) = [] /\
  dangerously_allow_all_unix_sockets (network cfg) = false.
Proof.
  unfold resolve_runtime. intros E He. destruct (validate_unix_socket_allowlist_paths cfg) as [[]|]; [|done].
  destruct (map_err _ (resolve_addr _ (proxy_url _) _)) as [ha|]; [|done]. destruct (map_err _ (resolve_addr _ (socks_url _) _)) as [sa|]; [|done].
  unfold clamp_bind_addrs in E. destruct (is_empty (allow_unix_sockets (network cfg))) eqn:Eu; cbn [andb] in E.
  - apply is_empty_true in Eu. destruct (dangerously_allow_all_unix_sockets (network cfg)); cbn [negb] in E; injection E as <-.
    + by destruct He.
    + destruct He as [He|He]; apply clamp_exposed in He as [He _]; auto.
  - injection E as <-. by destruct He.
Qed.

Definition exposed_settings : NetworkProxySettings unit :=
  mkSettings false (lit "http://0.0.0.0:8080") true (lit "http://127.0.0.1:8081") true true true false Full None None false false false false [].

Lemma listening_exposed_witness : allow_unix_sockets exposed_settings = [].
Proof.
  apply (listening_exposed (fun u => if u == lit "http://0.0.0.0:8080" then Some (Some (lit "0.0.0.0"), Some 8080%N) else Some (Some (lit "127.0.0.1"), None))
    (mkConfig exposed_settings) (mkRuntimeConfig (mkAddr (V4 0 0 0 0) 8080) (loopback_addr 8081))); [vm_compute; reflexivity|].
  left. vm_compute. reflexivity.
Defined.

(** Of several entries for a domain pattern the strongest counts, denial before
    permission, and domain permissions that are written and read back have the same
    effective entries. *)
Theorem domain_permissions_roundtrip entries :
  effective_entries (deserialize_domains (serialize_domains entries)) ≡ₚ effective_entries entries /\
  forall e, e ∈ effective_entries entries <-> strongest entries (pattern e) = Some (permission e).
Proof. split; [apply effective_wire|intros e; apply elem_of_effective]. Qed.

(** ** Hooks *)

(** A validated configuration of hooks compiles exactly if every secret of its
    injected headers can be had and makes a header value: nothing else can fail after
    validation. *)
Theorem hooks_compile_iff_secrets `{HttpLib} `{AbsolutePath.Os} {Json} env_var read_secret (cfg : NetworkProxyConfig Json) :
  validate_mitm_hook_config cfg = Ok tt ->
  is_ok (compile_mitm_hooks_with_resolvers env_var read_secret cfg) = true <->
  forall hook, hook ∈ mitm_hooks (network cfg) -> secrets_resolve env_var read_secret hook.
Proof. apply compile_validated. Qed.

Definition sample_hook : MitmHookConfig unit :=
  mkHookConfig (lit "API.github.com.") (mkMatchConfig [lit "get"] [lit "/repos"] [] [(lit "Accept", [])] None)
    (mkActionsConfig [lit "Cookie"] [mkInjectedHeader (lit "Authorization") (Some (lit "TOKEN")) None (Some (lit "Bearer "))]).

Definition hooked_settings : NetworkProxySettings unit :=
  mkSettings true default_proxy_url true default_socks_url true true false false Full None None false true false false [sample_hook].

Definition sample_env (name : str) : option str := if name == lit "TOKEN" then Some (lit "s3cret") else None.

Lemma hooks_compile_iff_secrets_witness :
  is_ok (compile_mitm_hooks_with_resolvers sample_env (fun _ => Ok []) (mkConfig hooked_settings)) = true.
Proof.
  apply (hooks_compile_iff_secrets sample_env (fun _ => Ok []) (mkConfig hooked_settings)); [vm_compute; reflexivity|].
  intros hook ->%list_elem_of_singleton header ->%list_elem_of_singleton. vm_compute. reflexivity.
Defined.

(** ** Interleavings *)

(** C14: However operations, reloads and updates interleave, as long as the states handed
    over from outside keep to their constraints: the compiled lists are those of the
    configuration, the configuration keeps to the managed constraints, and at most 200
    blocked requests are buffered. *)
Theorem constraints_always_hold `{DomainLib} `{HttpLib} `{AbsolutePath.Os} {Json MitmState} `{EqDecision Json} env_var mitm_new macos broker
    (st : ConfigState Json MitmState) observing w :
  admissible st -> length (blocked st) <= MAX_BLOCKED_EVENTS ->
  rtc (trusted_step env_var mitm_new macos broker) (mkWorld st observing [] []) w ->
  coherent (shared w) /\ validate_policy_against_constraints (config (shared w)) (constraints (shared w)) = Ok tt /\
  length (blocked (shared w)) <= MAX_BLOCKED_EVENTS.
Proof.
  intros Ha Hl Hr. destruct (reachable_good_lemma _ _ _ _ _ _ Hr) as [[[Hc Hv] Hb] _]; [|done]. split; [done|constructor].
Qed.

(** The proxy may only be read from, and starts that way. *)
Definition limited_constraints : NetworkProxyConstraints :=
  mkConstraints None (Some Limited) None None None None None None None None None.

Definition limited_state : ConfigState unit unit := state_of (with_mode sample_settings Limited) limited_constraints.

Notation sample_run := (run_schedule (Json:=unit) (MitmState:=unit) (fun _ => None) (fun _ _ => Ok tt) true false).

Lemma limited_admissible : admissible limited_state.
Proof.
  split; [|vm_compute; reflexivity].
  apply (build_config_state_spec (fun _ => None) (fun _ _ => Ok tt) (mkConfig (with_mode sample_settings Limited)) limited_constraints). reflexivity.
Qed.

(** Switching to full access is tried, and refused. *)
Definition try_full_access : list (Event (Json:=unit) (MitmState:=unit)) :=
  [Call (SetNetworkMode Full); Section_ 0 NoInput; Section_ 0 (MaybeReload (Ok None)); Section_ 0 NoInput].

Lemma constraints_always_hold_witness :
  exists w, sample_run (mkWorld limited_state false [] []) try_full_access = Some w /\ is_Some (tasks w !! 0) /\
    validate_policy_against_constraints (config (shared w)) (constraints (shared w)) = Ok tt.
Proof.
  assert (option_map (fun w => length (tasks w)) (sample_run (mkWorld limited_state false [] []) try_full_access) = Some 1) as Hl
    by (vm_compute; reflexivity).
  destruct (sample_run (mkWorld limited_state false [] []) try_full_access) as [w|] eqn:E; [|discriminate Hl].
  exists w. split; [reflexivity|]. split.
  - injection Hl as Hl. destruct (tasks w); [discriminate Hl|]. by eexists.
  - apply (constraints_always_hold (fun _ => None) (fun _ _ => Ok tt) true false limited_state false w limited_admissible); [vm_compute; lia|].
    eapply run_schedule_steps; [|exact E]. repeat constructor.
Defined.

(** A request is recorded as blocked between the two locks of an update. *)
Definition update_up_to_write : list (Event (Json:=unit) (MitmState:=unit)) :=
  [Call (UpdateDomainList (lit "new.org") AllowList); Section_ 0 NoInput; Section_ 0 (MaybeReload (Ok None)); Section_ 0 NoInput].

Definition record (i : nat) (entry : BlockedRequest) : list (Event (Json:=unit) (MitmState:=unit)) :=
  [Call (RecordBlocked entry); Section_ i NoInput; Section_ i (MaybeReload (Ok None)); Section_ i NoInput; Section_ i NoInput].

(** A request that is recorded as blocked while a domain list is being updated is
    lost: the update writes back the buffer and the total that it read before. Recorded
    after the update, the request is kept. *)
Theorem update_loses_blocked entry :
  let start := mkWorld (state_of sample_settings no_constraints) false [] [] in
  let outcome w := (tasks w, blocked (shared w), blocked_total (shared w)) in
  (outcome <$> sample_run start (update_up_to_write ++ record 1 entry ++ [Section_ 0 NoInput]) =
    Some ([Done (Ok AUnit); Done (Ok AUnit)], [], 0%Z)) /\
  (outcome <$> sample_run start (update_up_to_write ++ [Section_ 0 NoInput] ++ record 1 entry) =
    Some ([Done (Ok AUnit); Done (Ok AUnit)], [entry], 1%Z)).
Proof. split; vm_compute; reflexivity. Qed.

(** ** Credentials *)

(** C15: What a child process sees of its credentials.  The broker gives an
    environment, after some number of rounds of the loop that makes dummies, when the
    random numbers leave nothing out and the values that can be sent have room for
    the dummies: more texts of their shape than there are records.  When it is
    enabled, a supported variable with a host to send it to, and a value that can be
    sent in a header, holds a dummy that is not the value and stands for it at
    those hosts; any other value is left alone, also that of a GitHub Enterprise
    variable when GH_HOST names no host of its own; and no other variable changes but
    the two of the broker, which are removed when it is not enabled. *)
Theorem child_sees_no_credential `{HttpLib} `{MarkerLib} rng from st env :
  fair rng -> wf_credentials (credentials st) ->
  (forall p source, source ∈ sources p -> roomy p env (env_vars source) (length (credentials st) + 5)) ->
  exists rounds st' env', (forall fuel, rounds <= fuel -> virtualize_child_env fuel rng from st env = Some (st', env')) /\
  if broker_enabled st then
    wf_credentials (credentials st') /\
    (forall v, v ∉ broker_vars -> env' !! v = env !! v) /\
    forall p source var value, source ∈ sources p -> var ∈ env_vars source -> env !! var = Some value ->
      match host_binding source env with
      | Some b =>
          (exists c, c ∈ credentials st' /\ stands_for c var p b (trim value) /\ env' !! var = Some (dummy c) /\ dummy c <> trim value) \/
          (env' !! var = Some value /\
           (trim value = [] \/ is_dummy_value (credentials st') (trim value) = true \/ request_header_value (trim value) = None))
      | None => env' !! var = Some value
      end
  else st' = st /\ env' = delete BROKERED_CREDENTIALS_ENV_KEY (delete CREDENTIAL_BROKER_ACTIVE_ENV_KEY env).
Proof.
  intros Hfair Hw Hroom. destruct (virtualize_child_env_settles rng Hfair from st env Hroom) as (st' & env' & rounds & Hs).
  exists rounds, st', env'. split; [done|]. specialize (Hs rounds ltac:(lia)). destruct (broker_enabled st) eqn:He.
  - destruct (virtualize_child_env_spec _ _ _ _ _ _ _ He Hs) as (_ & Hw' & _ & Hrest & Hr). split; [auto|]. split; [done|].
    intros p source var value Hin Hv E. specialize (Hr p source var Hin Hv). unfold accounted in Hr.
    destruct (host_binding source env) as [b|]; [|by rewrite Hr].
    destruct (Hr value E) as [(c & Hc & Hst & Ec)|?]; [left|by right]. exists c. split_and!; [done..|].
    destruct Hst as (_ & _ & _ & <-). by apply (Hw' Hw).
  - unfold virtualize_child_env in Hs. rewrite He in Hs. by injection Hs as <- <-.
Qed.

#[export] Instance sample_marker : MarkerLib := {| marker_to_string := fun _ => Some []; marker_from_str := fun _ => Some [] |}.

Definition sample_child_env : gmap str str := {[ lit "GH_TOKEN" := lit " ghp_secret "; lit "GH_ENTERPRISE_TOKEN" := lit "ghp_other" ]}.

(** Eight dummies of the shape of a value. *)
Lemma eight_dummies p value :
  bool_decide (NoDup (List.map (fun i => dummy_value p (fun _ => i) 0 value) (seq 0 8))) = true -> room p value 5.
Proof.
  intros Hn%bool_decide_eq_true. exists (List.map (fun i _ => i) (seq 0 8)). split; [by rewrite List.map_map|]. rewrite List.length_map, length_seq. lia.
Qed.

(** The token of the cloud is replaced, that of an unknown enterprise host is not. *)
Lemma child_sees_no_credential_witness :
  exists rounds st' env', (forall fuel, rounds <= fuel -> virtualize_child_env fuel sample_rng 0 (broker_new true) sample_child_env = Some (st', env')) /\
    ((exists c, c ∈ credentials st' /\ stands_for c (lit "GH_TOKEN") Github (HostPattern GITHUB_CLOUD_HOSTS GITHUB_CLOUD_HOST_SUFFIXES) (lit "ghp_secret") /\
        env' !! lit "GH_TOKEN" = Some (dummy c) /\ dummy c <> lit "ghp_secret") \/ env' !! lit "GH_TOKEN" = Some (lit " ghp_secret ")) /\
    env' !! lit "GH_ENTERPRISE_TOKEN" = Some (lit "ghp_other").
Proof.
  assert (Hroom : forall p source, source ∈ sources p -> roomy p sample_child_env (env_vars source) (length (credentials (broker_new true)) + 5)).
  { intros p source Hs var value Hv E _.
    assert (p = Github /\ (value = lit " ghp_secret " \/ value = lit "ghp_other")) as [-> [-> | ->]]; [|apply eight_dummies; vm_compute; reflexivity..].
    unfold sample_child_env in E. apply lookup_insert_Some in E as [[<- <-]|[_ [<- <-]%lookup_singleton_Some]].
    - split; [|by left]. apply source_cases in Hs as [[-> _]|[-> ->]]; [done|]. by apply list_elem_of_singleton in Hv.
    - split; [|by right]. apply source_cases in Hs as [[-> _]|[-> ->]]; [done|]. by apply list_elem_of_singleton in Hv. }
  destruct (child_sees_no_credential sample_rng 0 (broker_new true) sample_child_env fair_sample) as (rounds & st' & env' & Hrun & _ & _ & H);
    [split; [constructor|by intros c ?%not_elem_of_nil]|exact Hroom|].
  exists rounds, st', env'. split; [exact Hrun|]. split.
  - destruct (H Github (mkSource GITHUB_CLOUD_TOKEN_ENV_VARS github_cloud_binding) (lit "GH_TOKEN") (lit " ghp_secret ")) as [Hc|[Hv _]];
      [left|left|vm_compute; reflexivity|left; exact Hc|right; exact Hv].
  - exact (H Github (mkSource GITHUB_ENTERPRISE_TOKEN_ENV_VARS github_enterprise_binding) (lit "GH_ENTERPRISE_TOKEN") (lit "ghp_other")
      ltac:(right; left) ltac:(left) ltac:(vm_compute; reflexivity)).
Defined.

(** C16: A real credential only goes where it belongs: a request is either left as it is, or
    exactly one credential whose hosts include the host of the request was recognised by its
    dummy in the header, and the header is set to that credential. *)
Theorem credential_only_to_its_hosts `{HttpLib} st h headers :
  inject_request_headers st h headers = headers \/
  exists c value, c ∈ credentials st /\ matches_host c (normalize_host h) = true /\ shows_dummy headers c = true /\
    (forall c', c' ∈ credentials st -> matches_host c' (normalize_host h) = true -> shows_dummy headers c' = true -> c' = c) /\
    request_header_value (real_value c) = Some value /\
    inject_request_headers st h headers = headers_insert headers AUTHORIZATION value.
Proof. apply inject_spec. Qed.

End NetworkTheorems.
