(* ===== verification/ConfigLayers.v ===== *)
(** Configuration layers: TOML values and their merge (config/src/merge.rs and
    key_aliases.rs), the stack of layers with its precedence order, the
    effective configuration and the origins of its fields (config/src/state.rs
    and fingerprint.rs), the sources of layers
    (app-server-protocol/src/protocol/v2/config.rs), and constrained values
    (config/src/constraint.rs). *)

From stdpp Require Import base list option numbers strings gmap.
From S2P Require Import Prelude RustStr ShellTree AbsolutePath NetworkPolicy.

Module ConfigLayers.
Open Scope rust_scope.

(** ** TOML values *)

(** A table keeps the order of insertion. *)
Inductive Toml :=
| TString (s : str)
| TInteger (z : Z)
| TFloat (bits : N)
| TBoolean (b : bool)
| TDatetime (text : str)
| TArray (items : list Toml)
| TTable (table : list (str * Toml)).

Notation table := (list (str * Toml)) (only parsing).

Definition table_get (k : str) (t : table) : option Toml := option_map snd (find_first (fun e => e.1 == k) t).

(** [Map::insert]: in place of the old value, else at the end. *)
Fixpoint table_insert (k : str) (v : Toml) (t : table) : table :=
  match t with
  | [] => [(k, v)]
  | (k', v') :: t' => if k' == k then (k', v) :: t' else (k', v') :: table_insert k v t'
  end.

Definition table_remove (k : str) (t : table) : table := List.filter (fun e => negb (e.1 == k)) t.

(** ** key_aliases.rs *)

Record ConfigKeyAlias := mkAlias { table_path : list str; legacy_key : str; canonical_key : str }.

Definition CONFIG_KEY_ALIASES : list ConfigKeyAlias :=
  [mkAlias [lit "memories"] (lit "no_memories_if_mcp_or_web_search") (lit "disable_on_external_context")].

Definition apply_alias (path : list str) (t : table) (a : ConfigKeyAlias) : table :=
  if path == table_path a then
    match table_get (legacy_key a) t with
    | Some value =>
        let t := table_remove (legacy_key a) t in
        match table_get (canonical_key a) t with Some _ => t | None => table_insert (canonical_key a) value t end
    | None => t
    end
  else t.

Definition normalize_key_aliases (path : list str) (t : table) : table := fold_left (apply_alias path) CONFIG_KEY_ALIASES t.

Fixpoint normalized_with_key_aliases (value : Toml) (path : list str) : Toml :=
  match value with
  | TTable t =>
      TTable (normalize_key_aliases path
        (fold_left (fun normalized '(key, child) => table_insert key child normalized)
           (List.map (fun '(key, child) => (key, normalized_with_key_aliases child (path ++ [key]))) t) []))
  | TArray items => TArray (List.map (fun item => normalized_with_key_aliases item path) items)
  | other => other
  end.

(** ** merge.rs *)

Definition is_permission_network_domains_path (path : list str) : bool :=
  match path with
  | [permissions; _; network; domains] =>
      (permissions == lit "permissions") && (network == lit "network") && (domains == lit "domains")
  | _ => false
  end.

Definition normalize_network_domain_keys (t : table) : table :=
  fold_left (fun t '(pattern, value) => table_insert (NetworkPolicy.normalize_host pattern) value t) t [].

(** The loop over the overlay, with the merge of existing values given. *)
Fixpoint merge_entries (merge : Toml -> Toml -> list str -> option Toml) (path : list str) (overlay base : table)
    : option table :=
  match overlay with
  | [] => Some base
  | (key, value) :: overlay' =>
      match table_get key base with
      | Some existing =>
          match merge existing value (path ++ [key]) with
          | Some merged => merge_entries merge path overlay' (table_insert key merged base)
          | None => None
          end
      | None =>
          merge_entries merge path overlay'
            (table_insert key (normalized_with_key_aliases value (path ++ [key])) base)
      end
  end.

(** The tables of both sides, their keys normalised. *)
Definition prepared_table (path : list str) (t : table) : table :=
  let t := normalize_key_aliases path t in
  if is_permission_network_domains_path path then normalize_network_domain_keys t else t.

(** [fuel] bounds the depth of the overlay. *)
Fixpoint merge_toml_values_at_path (fuel : nat) (base overlay : Toml) (path : list str) : option Toml :=
  match fuel with
  | O => None
  | S fuel =>
      match overlay, base with
      | TTable overlay_table, TTable base_table =>
          option_map TTable
            (merge_entries (merge_toml_values_at_path fuel) path (prepared_table path overlay_table) (prepared_table path base_table))
      | _, _ => Some (normalized_with_key_aliases overlay path)
      end
  end.

Fixpoint toml_depth (t : Toml) : nat :=
  match t with
  | TTable t => S (list_max (List.map (fun '(_, v) => toml_depth v) t))
  | TArray items => S (list_max (List.map toml_depth items))
  | _ => 1
  end.

Definition merge_toml_values (base overlay : Toml) : option Toml :=
  merge_toml_values_at_path (toml_depth overlay) base overlay [].

(** ** Sources of layers *)

Notation AbsolutePathBuf := str (only parsing).

Inductive ConfigLayerSource :=
| Mdm (domain key : str)
| System (file : AbsolutePathBuf)
| EnterpriseManaged (id name : str)
| User (file : AbsolutePathBuf) (profile : option str)
| Project (dot_codex_folder : AbsolutePathBuf)
| SessionFlags
| LegacyManagedConfigTomlFromFile (file : AbsolutePathBuf)
| LegacyManagedConfigTomlFromMdm.

#[export] Instance source_eq_dec : EqDecision ConfigLayerSource.
Proof. solve_decision. Defined.

Definition precedence (s : ConfigLayerSource) : nat :=
  match s with
  | Mdm _ _ => 0
  | System _ => 10
  | EnterpriseManaged _ _ => 15
  | User _ profile => if is_some profile then 21 else 20
  | Project _ => 25
  | SessionFlags => 30
  | LegacyManagedConfigTomlFromFile _ => 40
  | LegacyManagedConfigTomlFromMdm => 50
  end.

Definition is_user (s : ConfigLayerSource) : bool := match s with User _ _ => true | _ => false end.

(** [ProfileV2Name::from_str] of protocol/src/config_types.rs. *)
Definition profile_name_char (c : char) : bool :=
  is_ascii_digit c || is_ascii_uppercase c || ((97 <=? c) && (c <=? 122))%N || (c =? 95)%N || (c =? 45)%N.

Definition parse_profile_name (value : str) : option str :=
  if is_empty value || negb (forallb profile_name_char value) then None else Some value.

(** ** Layers and stacks *)

Record ConfigLayerEntry := mkLayer {
  name : ConfigLayerSource;
  config : Toml;
  version : str;
  disabled_reason : option str;
  raw_toml : option (str * AbsolutePathBuf);
  hooks_config_folder_override : option AbsolutePathBuf;
}.

Record ConfigLayerMetadata := mkMetadata { meta_name : ConfigLayerSource; meta_version : str }.

Definition is_disabled (l : ConfigLayerEntry) : bool := is_some (disabled_reason l).

Definition metadata (l : ConfigLayerEntry) : ConfigLayerMetadata := mkMetadata (name l) (version l).

Inductive ConfigLayerStackOrdering := LowestPrecedenceFirst | HighestPrecedenceFirst.

#[export] Instance ordering_eq_dec : EqDecision ConfigLayerStackOrdering.
Proof. solve_decision. Defined.

Section Stack.
(** The requirements are carried along; their parts are of other components. *)
Context {Requirements : Type}.
(** [Path::parent] and [Path::ancestors]; the digest of a configuration. *)
Context (parent : AbsolutePathBuf -> option AbsolutePathBuf) (ancestors : AbsolutePathBuf -> list AbsolutePathBuf)
  (version_for_toml : Toml -> str).

Record ConfigLayerStack := mkStack {
  layers : list ConfigLayerEntry;
  user_layer_index : option nat;
  requirements : Requirements;
  ignore_user_and_project_exec_policy_rules : bool;
  startup_warnings : option (list str);
}.

Definition layer_new (source : ConfigLayerSource) (cfg : Toml) : ConfigLayerEntry :=
  mkLayer source cfg (version_for_toml cfg) None None None.

Definition layer_new_with_raw_toml (source : ConfigLayerSource) (cfg : Toml) (raw : str) (base_dir : AbsolutePathBuf)
    : ConfigLayerEntry :=
  mkLayer source cfg (version_for_toml cfg) None (Some (raw, base_dir)) None.

Definition layer_new_disabled (source : ConfigLayerSource) (cfg : Toml) (reason : str) : ConfigLayerEntry :=
  mkLayer source cfg (version_for_toml cfg) (Some reason) None None.

Definition with_hooks_config_folder_override (l : ConfigLayerEntry) (folder : option AbsolutePathBuf) : ConfigLayerEntry :=
  mkLayer (name l) (config l) (version l) (disabled_reason l) (raw_toml l) folder.

Definition config_folder (l : ConfigLayerEntry) : option AbsolutePathBuf :=
  match name l with
  | System file => parent file
  | User file _ => parent file
  | Project dot_codex_folder => Some dot_codex_folder
  | Mdm _ _ | EnterpriseManaged _ _ | SessionFlags | LegacyManagedConfigTomlFromFile _ | LegacyManagedConfigTomlFromMdm => None
  end.

Definition hooks_config_folder (l : ConfigLayerEntry) : option AbsolutePathBuf :=
  match hooks_config_folder_override l with Some folder => Some folder | None => config_folder l end.

(** [is_sorted] on the precedences. *)
Fixpoint is_sorted (l : list nat) : bool :=
  match l with
  | a :: ((b :: _) as l') => (a <=? b) && is_sorted l'
  | _ => true
  end.

Definition msg_order : str := lit "config layers are not in correct precedence order".
Definition msg_no_parent : str := lit "project layer has no parent directory".
Definition msg_project_order : str := lit "project layers are not ordered from root to cwd".

Definition check_project (previous : option AbsolutePathBuf) (current : AbsolutePathBuf) : result unit str :=
  match previous with
  | None => Ok tt
  | Some previous =>
      match parent previous with
      | None => Err msg_no_parent
      | Some p =>
          if (previous == current) || negb (existsb (fun ancestor => ancestor == p) (ancestors current)) then Err msg_project_order
          else Ok tt
      end
  end.

Fixpoint verify_loop (index : nat) (ls : list ConfigLayerEntry) (user : option nat) (previous : option AbsolutePathBuf)
    : result (option nat) str :=
  match ls with
  | [] => Ok user
  | l :: ls' =>
      let user := if is_user (name l) then Some index else user in
      match name l with
      | Project current =>
          let? _ := check_project previous current in
          verify_loop (S index) ls' user (Some current)
      | _ => verify_loop (S index) ls' user previous
      end
  end.

Definition verify_layer_ordering (ls : list ConfigLayerEntry) : result (option nat) str :=
  if negb (is_sorted (List.map (fun l => precedence (name l)) ls)) then Err msg_order else verify_loop 0 ls None None.

Definition stack_new (ls : list ConfigLayerEntry) (r : Requirements) : result ConfigLayerStack str :=
  let? user := verify_layer_ordering ls in
  Ok (mkStack ls user r false None).

Definition with_user_and_project_exec_policy_rules_ignored (s : ConfigLayerStack) (ignore : bool) : ConfigLayerStack :=
  mkStack (layers s) (user_layer_index s) (requirements s) ignore (startup_warnings s).

Definition with_startup_warnings (s : ConfigLayerStack) (ws : list str) : ConfigLayerStack :=
  mkStack (layers s) (user_layer_index s) (requirements s) (ignore_user_and_project_exec_policy_rules s) (Some ws).

Definition get_active_user_layer (s : ConfigLayerStack) : option ConfigLayerEntry :=
  match user_layer_index s with Some index => layers s !! index | None => None end.

Definition get_user_config_file (s : ConfigLayerStack) : option AbsolutePathBuf :=
  match get_active_user_layer s with
  | Some l => match name l with User file _ => Some file | _ => None end
  | None => None
  end.

Definition get_layers (s : ConfigLayerStack) (ordering : ConfigLayerStackOrdering) (include_disabled : bool)
    : list ConfigLayerEntry :=
  let ls := List.filter (fun l => include_disabled || negb (is_disabled l)) (layers s) in
  if ordering == HighestPrecedenceFirst then reverse ls else ls.

Definition get_user_layers (s : ConfigLayerStack) (ordering : ConfigLayerStackOrdering) (include_disabled : bool)
    : list ConfigLayerEntry :=
  List.filter (fun l => is_user (name l)) (get_layers s ordering include_disabled).

Definition layers_high_to_low (s : ConfigLayerStack) : list ConfigLayerEntry := get_layers s HighestPrecedenceFirst false.

Definition merge_layer (merged : option Toml) (l : ConfigLayerEntry) : option Toml :=
  match merged with Some base => merge_toml_values base (config l) | None => None end.

Definition merge_layers (ls : list ConfigLayerEntry) : option Toml := fold_left merge_layer ls (Some (TTable [])).

(** The outer [None]: out of fuel, which does not happen ([merge_layers_total]). *)
Definition effective_user_config (s : ConfigLayerStack) : option (option Toml) :=
  let user_layers := get_user_layers s LowestPrecedenceFirst false in
  if is_empty user_layers then Some None else option_map Some (merge_layers user_layers).

Definition effective_config (s : ConfigLayerStack) : option Toml := merge_layers (get_layers s LowestPrecedenceFirst false).

(** [position] and [insert] at it, else [push]. *)
Fixpoint insert_by_precedence (l : ConfigLayerEntry) (ls : list ConfigLayerEntry) : list ConfigLayerEntry :=
  match ls with
  | [] => [l]
  | l' :: ls' => if precedence (name l) <? precedence (name l') then l :: l' :: ls' else l' :: insert_by_precedence l ls'
  end.

(** [position] and [remove]. *)
Fixpoint remove_first (p : ConfigLayerEntry -> bool) (ls : list ConfigLayerEntry) : list ConfigLayerEntry :=
  match ls with
  | [] => []
  | l :: ls' => if p l then ls' else l :: remove_first p ls'
  end.

Definition is_user_file (file : AbsolutePathBuf) (l : ConfigLayerEntry) : bool :=
  match name l with User f _ => f == file | _ => false end.

Definition last_user_index (ls : list ConfigLayerEntry) : option nat :=
  find_first (fun index => is_some_and (ls !! index) (fun l => is_user (name l))) (reverse (seq 0 (length ls))).

Definition with_user_config_profile (s : ConfigLayerStack) (config_toml : AbsolutePathBuf) (profile : option str) (user_config : Toml)
    : ConfigLayerStack :=
  let user_layer := layer_new (User config_toml profile) user_config in
  let ls := insert_by_precedence user_layer (remove_first (is_user_file config_toml) (layers s)) in
  mkStack ls (last_user_index ls) (requirements s) (ignore_user_and_project_exec_policy_rules s) (startup_warnings s).

(** [find_map] over the layers: a match without a valid profile goes on. *)
Definition profile_of_file (ls : list ConfigLayerEntry) (file : AbsolutePathBuf) : option str :=
  head (omap (fun l => match name l with
                       | User f profile => if f == file then profile ≫= parse_profile_name else None
                       | _ => None
                       end) ls).

Definition with_user_config (s : ConfigLayerStack) (config_toml : AbsolutePathBuf) (user_config : Toml) : ConfigLayerStack :=
  with_user_config_profile s config_toml (profile_of_file (layers s) config_toml) user_config.

Definition with_user_layer_from (s other : ConfigLayerStack) : ConfigLayerStack :=
  let user_layers := List.filter (fun l => is_user (name l)) (layers other) in
  let kept := List.filter (fun l => negb (is_user (name l))) (layers s) in
  let ls := fold_left (fun ls l => insert_by_precedence l ls) user_layers kept in
  mkStack ls (last_user_index ls) (requirements s) (ignore_user_and_project_exec_policy_rules s) (startup_warnings s).

(** ** Origins (fingerprint.rs) *)

Fixpoint record_origins (value : Toml) (meta : ConfigLayerMetadata) (path : list str) (origins : gmap str ConfigLayerMetadata)
    : gmap str ConfigLayerMetadata :=
  match value with
  | TTable t =>
      (fix entries (t : list (str * Toml)) (origins : gmap str ConfigLayerMetadata) :=
         match t with
         | [] => origins
         | (key, v) :: t' => entries t' (record_origins v meta (path ++ [key]) origins)
         end) t origins
  | TArray items =>
      (fix elements (index : nat) (items : list Toml) (origins : gmap str ConfigLayerMetadata) :=
         match items with
         | [] => origins
         | v :: items' => elements (S index) items' (record_origins v meta (path ++ [show_nat index]) origins)
         end) 0 items origins
  | _ => if is_empty path then origins else <[join (lit ".") path := meta]> origins
  end.

Definition origins (s : ConfigLayerStack) : gmap str ConfigLayerMetadata :=
  fold_left (fun origins l => record_origins (normalized_with_key_aliases (config l) []) (metadata l) [] origins)
    (get_layers s LowestPrecedenceFirst false) ∅.

End Stack.
Arguments ConfigLayerStack : clear implicits.

(** ** constraint.rs *)

Section Constraint.
Context {T E : Type} `{EqDecision T}.

Record Constrained := mkConstrained {
  value : T;
  validator : T -> result unit E;
  normalizer : option (T -> T);
}.

Definition constrained_new (initial_value : T) (v : T -> result unit E) : result Constrained E :=
  let? _ := v initial_value in Ok (mkConstrained initial_value v None).

Definition normalized (initial_value : T) (n : T -> T) : result Constrained E :=
  Ok (mkConstrained (n initial_value) (fun _ => Ok tt) (Some n)).

Definition allow_any (initial_value : T) : Constrained := mkConstrained initial_value (fun _ => Ok tt) None.

(** [invalid] is the error for a candidate other than the value. *)
Definition allow_only (invalid : T -> E) (only_value : T) : Constrained :=
  mkConstrained only_value (fun candidate => if candidate == only_value then Ok tt else Err (invalid candidate)) None.

Definition can_set (c : Constrained) (candidate : T) : result unit E := validator c candidate.

Definition add_validator (c : Constrained) (v : T -> result unit E) : Constrained * result unit E :=
  let combined candidate := match validator c candidate with Ok _ => v candidate | Err e => Err e end in
  match combined (value c) with
  | Ok _ => (mkConstrained (value c) combined (normalizer c), Ok tt)
  | Err e => (c, Err e)
  end.

Definition set_value (c : Constrained) (new : T) : Constrained * result unit E :=
  let new := match normalizer c with Some n => n new | None => new end in
  match validator c new with
  | Ok _ => (mkConstrained new (validator c) (normalizer c), Ok tt)
  | Err e => (c, Err e)
  end.

End Constraint.
Arguments Constrained : clear implicits.

End ConfigLayers.
