(* ===== verification/ConfigLayersFacts.v ===== *)
(** Theorems on configuration layers: the merge always ends, every setting of
    the effective configuration is that of the highest layer that says anything
    about it, the origin reported for it is that layer, changes of the user's
    layer keep the stack in order, and a constrained value satisfies its
    validators. *)

From stdpp Require Import base list option numbers strings gmap sorting.
From S2P Require Import Prelude RustStr ShellTree AbsolutePath NetworkPolicy ConfigLayers.

Module ConfigLayersFacts.
Import ConfigLayers.
Open Scope rust_scope.

(** ** Values *)

(** Induction with the hypothesis for the elements of arrays and tables. *)
Lemma toml_ind' (P : Toml -> Prop) :
  (forall s, P (TString s)) -> (forall z, P (TInteger z)) -> (forall b, P (TFloat b)) -> (forall b, P (TBoolean b)) ->
  (forall s, P (TDatetime s)) -> (forall items, Forall P items -> P (TArray items)) ->
  (forall t, Forall (fun e => P e.2) t -> P (TTable t)) -> forall v, P v.
Proof.
  intros H1 H2 H3 H4 H5 H6 H7. fix IH 1. intros [s|z|b|b|s|items|t]; [apply H1|apply H2|apply H3|apply H4|apply H5| |].
  - apply H6. induction items as [|v items IHi]; constructor; [apply IH|exact IHi].
  - apply H7. induction t as [|[k v] t IHt]; constructor; [apply IH|exact IHt].
Qed.

Definition keys (t : list (str * Toml)) : list str := List.map fst t.

(** A table has each key once; the parser and [Map] see to it. *)
Fixpoint wf (v : Toml) : Prop :=
  match v with
  | TTable t => NoDup (keys t) /\ (fix all (t : list (str * Toml)) := match t with [] => True | (_, c) :: t' => wf c /\ all t' end) t
  | TArray items => (fix all (items : list Toml) := match items with [] => True | c :: items' => wf c /\ all items' end) items
  | _ => True
  end.

Definition wf_table (t : list (str * Toml)) : Prop := NoDup (keys t) /\ forall k v, (k, v) ∈ t -> wf v.

Lemma wf_TTable t : wf (TTable t) <-> wf_table t.
Proof.
  unfold wf_table. cbn. apply and_iff_compat_l. induction t as [|[k v] t IH].
  - split; [by intros _ k v ?%not_elem_of_nil|done].
  - rewrite IH. split.
    + intros [Hv Ht] k' v' [[= -> ->]|Hin]%elem_of_cons; eauto.
    + intros H. split; [apply (H k v); left|intros k' v' Hin; apply (H k' v'); by right].
Qed.

Lemma wf_TArray items : wf (TArray items) <-> Forall wf items.
Proof. cbn. induction items as [|v items IH]; [split; done|]. by rewrite Forall_cons, IH. Qed.

(** *** Lookups *)

Lemma get_cons k k' v t : table_get k ((k', v) :: t) = if k' == k then Some v else table_get k t.
Proof. unfold table_get. cbn. by case_bool_decide. Qed.

Lemma get_elem k v t : table_get k t = Some v -> (k, v) ∈ t.
Proof.
  induction t as [|[k' v'] t IH]; [done|]. rewrite get_cons. case_bool_decide as E.
  - intros [= <-]. subst. left.
  - intros H%IH. by right.
Qed.

Lemma get_None k t : table_get k t = None <-> k ∉ keys t.
Proof.
  induction t as [|[k' v'] t IH]; [split; [intros _; apply not_elem_of_nil|done]|].
  rewrite get_cons. cbn. rewrite elem_of_cons. case_bool_decide as E; [naive_solver|]. rewrite IH. naive_solver.
Qed.

Lemma elem_get k v t : NoDup (keys t) -> (k, v) ∈ t -> table_get k t = Some v.
Proof.
  induction t as [|[k' v'] t IH]; cbn; [by intros _ ?%not_elem_of_nil|]. intros [Hk Hn]%NoDup_cons [[= -> ->]|Hin]%elem_of_cons; rewrite get_cons.
  - by rewrite bool_decide_true.
  - rewrite bool_decide_false; [auto|]. intros ->. apply Hk. apply list_elem_of_fmap. by exists (k, v).
Qed.

Lemma get_insert k v t k' : table_get k' (table_insert k v t) = if k == k' then Some v else table_get k' t.
Proof.
  induction t as [|[k0 v0] t IH]; cbn [table_insert]; [by rewrite get_cons|].
  destruct (bool_decide_reflect (k0 = k)) as [->|E]; rewrite !get_cons; [by case_bool_decide|].
  rewrite IH. repeat case_bool_decide; congruence.
Qed.

Lemma elem_insert k v t k' v' : (k', v') ∈ table_insert k v t -> (k', v') = (k, v) \/ (k', v') ∈ t.
Proof.
  induction t as [|[k0 v0] t IH]; cbn [table_insert].
  - intros ?%list_elem_of_singleton. auto.
  - case_bool_decide as E; intros [H|H]%elem_of_cons; subst; rewrite elem_of_cons; [left; congruence|by auto|by auto|].
    apply IH in H as [H|H]; auto.
Qed.

Lemma nodup_insert k v t : NoDup (keys t) -> NoDup (keys (table_insert k v t)).
Proof.
  induction t as [|[k0 v0] t IH]; cbn; [intros _; repeat constructor; apply not_elem_of_nil|].
  intros [H0 Hn]%NoDup_cons. case_bool_decide as E; cbn; constructor; auto.
  rewrite <- get_None in H0. change (k0 ∉ keys (table_insert k v t)). by rewrite <- get_None, get_insert, bool_decide_false.
Qed.

Lemma wf_insert k v t : wf_table t -> wf v -> wf_table (table_insert k v t).
Proof.
  intros [Hn Hw] Hv. split; [by apply nodup_insert|]. intros k' v' [[= -> ->]|Hin]%elem_insert; eauto.
Qed.

(** *** Aliases *)

Definition MEMORIES : list str := [lit "memories"].
Definition LEGACY : str := lit "no_memories_if_mcp_or_web_search".
Definition CANONICAL : str := lit "disable_on_external_context".

Lemma aliases_at path t :
  normalize_key_aliases path t =
  if path == MEMORIES then
    match table_get LEGACY t with
    | Some v => match table_get CANONICAL (table_remove LEGACY t) with
                | Some _ => table_remove LEGACY t
                | None => table_insert CANONICAL v (table_remove LEGACY t)
                end
    | None => t
    end
  else t.
Proof. reflexivity. Qed.

Lemma aliases_other path t : path <> MEMORIES -> normalize_key_aliases path t = t.
Proof. intros Hne. by rewrite aliases_at, bool_decide_false. Qed.

Lemma remove_cons k k0 v0 t : table_remove k ((k0, v0) :: t) = if k0 == k then table_remove k t else (k0, v0) :: table_remove k t.
Proof. unfold table_remove. cbn. by case_bool_decide. Qed.

Lemma get_remove k t k' : table_get k' (table_remove k t) = if k == k' then None else table_get k' t.
Proof.
  induction t as [|[k0 v0] t IH]; [cbn; by case_bool_decide|].
  rewrite remove_cons. destruct (bool_decide_reflect (k0 = k)) as [->|E]; rewrite ?get_cons, IH; repeat case_bool_decide; congruence.
Qed.

Lemma wf_remove k t : wf_table t -> wf_table (table_remove k t).
Proof.
  intros [Hn Hw]. split.
  - clear Hw. induction t as [|[k0 v0] t IH]; [done|]. rewrite remove_cons. apply NoDup_cons in Hn as [H0 Hn].
    case_bool_decide; cbn; [by apply IH|]. constructor; [|by apply IH].
    change (k0 ∉ keys (table_remove k t)). rewrite <- get_None, get_remove. case_bool_decide; [done|by apply get_None].
  - intros k' v' Hin. apply (Hw k' v'). apply list_elem_of_In in Hin. apply list_elem_of_In. by apply filter_In in Hin as [? _].
Qed.

Lemma aliases_legacy t : table_get LEGACY (normalize_key_aliases MEMORIES t) = None.
Proof.
  rewrite aliases_at, bool_decide_true by done. destruct (table_get LEGACY t) as [v|] eqn:E; [|done].
  destruct (table_get CANONICAL _); rewrite ?get_insert, get_remove; by vm_compute.
Qed.

Lemma aliases_id path t : (path = MEMORIES -> table_get LEGACY t = None) -> normalize_key_aliases path t = t.
Proof. intros H. rewrite aliases_at. case_bool_decide; [by rewrite H|done]. Qed.

Lemma aliases_idem path t : normalize_key_aliases path (normalize_key_aliases path t) = normalize_key_aliases path t.
Proof. apply aliases_id. intros ->. apply aliases_legacy. Qed.

Lemma wf_aliases path t : wf_table t -> wf_table (normalize_key_aliases path t).
Proof.
  intros Hw. rewrite aliases_at. case_bool_decide; [|done]. destruct (table_get LEGACY t) as [v|] eqn:E; [|done].
  pose proof (wf_remove LEGACY t Hw). destruct (table_get CANONICAL _); [done|]. apply wf_insert; [done|].
  apply get_elem in E. by apply Hw in E.
Qed.

Lemma elem_remove k t e : e ∈ table_remove k t -> e ∈ t.
Proof. rewrite !list_elem_of_In. by intros [? _]%filter_In. Qed.

Lemma elem_aliases path t k v : (k, v) ∈ normalize_key_aliases path t -> exists k', (k', v) ∈ t.
Proof.
  rewrite aliases_at. case_bool_decide; [|by eauto]. destruct (table_get LEGACY t) as [x|] eqn:E; [|by eauto].
  destruct (table_get CANONICAL _); [intros ?%elem_remove; by eauto|].
  intros [[= -> ->]|Hx%elem_remove]%elem_insert; [exists LEGACY; by apply get_elem|by eauto].
Qed.

Definition normalized_children (path : list str) (t : list (str * Toml)) : list (str * Toml) :=
  List.map (fun '(k, c) => (k, normalized_with_key_aliases c (path ++ [k]))) t.

Lemma fold_insert_app (t acc : list (str * Toml)) :
  NoDup (keys (acc ++ t)) -> fold_left (fun normalized '(k, c) => table_insert k c normalized) t acc = acc ++ t.
Proof.
  revert acc. induction t as [|[k v] t IH]; intros acc Hn; [by rewrite app_nil_r|]. cbn.
  assert (Hi : table_insert k v acc = acc ++ [(k, v)]).
  { assert (Hk : k ∉ keys acc).
    { unfold keys in Hn. rewrite map_app in Hn. apply NoDup_app in Hn as (_ & Hd & _). intros Hin. apply (Hd k Hin). left. }
    clear IH Hn. induction acc as [|[k0 v0] acc IHa]; [done|]. cbn in *. rewrite bool_decide_false by set_solver. rewrite IHa; [done|set_solver]. }
  rewrite Hi, IH; by rewrite <- (assoc_L (++)).
Qed.

Lemma keys_children path t : keys (normalized_children path t) = keys t.
Proof. unfold keys, normalized_children. rewrite map_map. apply map_ext. by intros [k c]. Qed.

Lemma normalized_table path t :
  NoDup (keys t) ->
  normalized_with_key_aliases (TTable t) path = TTable (normalize_key_aliases path (normalized_children path t)).
Proof. intros Hn. cbn [normalized_with_key_aliases]. rewrite fold_insert_app; [done|]. change (NoDup (keys (normalized_children path t))). by rewrite keys_children. Qed.

Lemma get_children path t k :
  table_get k (normalized_children path t) = option_map (fun c => normalized_with_key_aliases c (path ++ [k])) (table_get k t).
Proof.
  induction t as [|[k0 v0] t IH]; [done|]. cbn [normalized_children List.map]. rewrite !get_cons. case_bool_decide; [by subst|apply IH].
Qed.

(** Aliases are only of the table of the memories: nothing changes below it or beside it. *)
Lemma normalized_deep v path : wf v -> path <> [] -> path <> MEMORIES -> normalized_with_key_aliases v path = v.
Proof.
  revert path. induction v as [| | | | |items IH|t IH] using toml_ind'; intros path Hw H0 H1; try done.
  - cbn. f_equal. rewrite wf_TArray in Hw. induction items as [|x items IHi]; [done|]. cbn.
    apply Forall_cons in IH as [Hx IH]. apply Forall_cons in Hw as [Hwx Hw]. by rewrite Hx, IHi.
  - apply wf_TTable in Hw as [Hn Hw]. rewrite normalized_table, aliases_other by done. f_equal. clear Hn.
    induction t as [|[k c] t IHt]; [done|]. cbn. apply Forall_cons in IH as [Hc IH].
    rewrite Hc; [|apply (Hw k c); left|by destruct path|destruct path as [|? []]; try done; by intros [= _ ?]].
    f_equal. apply IHt; [done|]. intros k' v' Hin. apply (Hw k' v'). by right.
Qed.

Lemma children_memories t : wf_table t -> normalized_children MEMORIES t = t.
Proof.
  intros [_ Hw]. induction t as [|[k c] t IH]; [done|]. cbn [normalized_children List.map]. f_equal.
  - f_equal. apply normalized_deep; [apply (Hw k c); left|done|done].
  - apply IH. intros k' v' Hin. apply (Hw k' v'). by right.
Qed.

(** One level of a normalised table. *)
Lemma get_normalized path t k :
  wf_table t ->
  exists t', normalized_with_key_aliases (TTable t) path = TTable t' /\ normalize_key_aliases path t' = t' /\
    table_get k t' = option_map (fun c => normalized_with_key_aliases c (path ++ [k])) (table_get k (normalize_key_aliases path t)).
Proof.
  intros Hw. rewrite normalized_table by apply Hw. eexists. split; [done|]. split; [apply aliases_idem|].
  destruct (decide (path = MEMORIES)) as [->|Hne].
  - rewrite children_memories by done. destruct (table_get k (normalize_key_aliases MEMORIES t)) as [c|] eqn:E; [|done]. cbn. f_equal.
    symmetry. apply normalized_deep; [|done|done]. apply get_elem, elem_aliases in E as (k' & Hin). by apply Hw in Hin.
  - by rewrite !aliases_other, get_children by done.
Qed.

Lemma wf_normalized v path : wf v -> wf (normalized_with_key_aliases v path).
Proof.
  revert path. induction v as [| | | | |items IH|t IH] using toml_ind'; intros path Hw; try done.
  - cbn [normalized_with_key_aliases]. rewrite wf_TArray in *. apply Forall_map. rewrite Forall_forall in *. eauto.
  - apply wf_TTable in Hw as [Hn Hw]. rewrite normalized_table by done. apply wf_TTable, wf_aliases. split; [by rewrite keys_children|].
    intros k v [[k' c] [[= -> ->] Hin]]%list_elem_of_fmap. rewrite Forall_forall in IH. apply (IH _ Hin). by apply (Hw k').
Qed.

(** ** The merge *)

Lemma elem_domain_keys t : forall k v, (k, v) ∈ normalize_network_domain_keys t -> exists k', (k', v) ∈ t.
Proof.
  unfold normalize_network_domain_keys.
  assert (H : forall t acc k v, (k, v) ∈ fold_left (fun t '(pattern, value) => table_insert (NetworkPolicy.normalize_host pattern) value t) t acc ->
    (k, v) ∈ acc \/ exists k', (k', v) ∈ t).
  { clear t. induction t as [|[p x] t IH]; intros acc k v; cbn; [by left|].
    intros [[[= -> ->]|Hin]%elem_insert|(k' & Hin)]%IH; [right; exists p; left|by left|right; exists k'; by right]. }
  intros k v [Hin|Hin]%H; [by apply not_elem_of_nil in Hin|done].
Qed.

Lemma nodup_domain_keys t : NoDup (keys (normalize_network_domain_keys t)).
Proof.
  unfold normalize_network_domain_keys. assert (H : forall t acc, NoDup (keys acc) ->
    NoDup (keys (fold_left (fun t '(pattern, value) => table_insert (NetworkPolicy.normalize_host pattern) value t) t acc))); [|apply H; constructor].
  clear t. induction t as [|[p x] t IH]; intros acc Ha; [done|]. cbn. apply IH. by apply nodup_insert.
Qed.

Lemma elem_prepared path t k v : (k, v) ∈ prepared_table path t -> exists k', (k', v) ∈ t.
Proof.
  unfold prepared_table. case_match; [|apply elem_aliases].
  intros (k' & Hin)%elem_domain_keys. by apply elem_aliases in Hin.
Qed.

Lemma wf_prepared path t : wf_table t -> wf_table (prepared_table path t).
Proof.
  intros Hw. split.
  - unfold prepared_table. case_match; [apply nodup_domain_keys|by apply wf_aliases].
  - intros k v (k' & Hin)%elem_prepared. by apply Hw in Hin.
Qed.

Section Entries.
Context (merge : Toml -> Toml -> list str -> option Toml) (path : list str).

(** The merge of a key of both tables. *)
Definition merged_key (k : str) (over base : option Toml) : option (option Toml) :=
  match over, base with
  | Some v, Some e => option_map Some (merge e v (path ++ [k]))
  | Some v, None => Some (Some (normalized_with_key_aliases v (path ++ [k])))
  | None, base => Some base
  end.

Lemma merge_entries_total overlay base :
  (forall k v e, (k, v) ∈ overlay -> is_Some (merge e v (path ++ [k]))) -> is_Some (merge_entries merge path overlay base).
Proof.
  revert base. induction overlay as [|[k v] overlay IH]; intros base Hm; [by eexists|]. cbn.
  destruct (table_get k base) as [e|]; [destruct (Hm k v e ltac:(left)) as [m ->]|]; apply IH; intros k' v' e' Hin; apply Hm; by right.
Qed.

Lemma merge_entries_get overlay base r :
  NoDup (keys overlay) -> merge_entries merge path overlay base = Some r ->
  forall k, merged_key k (table_get k overlay) (table_get k base) = Some (table_get k r).
Proof.
  revert base. induction overlay as [|[k0 v0] overlay IH]; intros base Hn; cbn [merge_entries]; [by intros [= <-] k|].
  apply NoDup_cons in Hn as [H0 Hn]. intros Hr k. rewrite get_cons. case_bool_decide as E.
  - subst k0. change (k ∉ keys overlay) in H0. apply get_None in H0. destruct (table_get k base) as [e|] eqn:Eb; cbn.
    + destruct (merge e v0 (path ++ [k])) as [m|]; [|done]. apply IH with (k := k) in Hr; [|done]. rewrite H0 in Hr. cbn in Hr.
      rewrite get_insert, bool_decide_true in Hr by done. by injection Hr as <-.
    + apply IH with (k := k) in Hr; [|done]. rewrite H0 in Hr. cbn in Hr.
      rewrite get_insert, bool_decide_true in Hr by done. by injection Hr as <-.
  - destruct (table_get k0 base) as [e|]; [destruct (merge e v0 (path ++ [k0])) as [m|]; [|done]|];
      apply IH with (k := k) in Hr; try done; by rewrite get_insert, bool_decide_false in Hr.
Qed.

Lemma merge_entries_wf overlay base r :
  (forall k v e m, (k, v) ∈ overlay -> wf e -> merge e v (path ++ [k]) = Some m -> wf m) ->
  (forall k v, (k, v) ∈ overlay -> wf v) -> wf_table base ->
  merge_entries merge path overlay base = Some r -> wf_table r.
Proof.
  revert base. induction overlay as [|[k v] overlay IH]; intros base Hm Hw Hb; cbn [merge_entries]; [by intros [= <-]|].
  assert (Hm' : forall k v e m, (k, v) ∈ overlay -> wf e -> merge e v (path ++ [k]) = Some m -> wf m)
    by (intros k' v' e m Hin; apply Hm; by right).
  assert (Hw' : forall k v, (k, v) ∈ overlay -> wf v) by (intros k' v' Hin; apply (Hw k'); by right).
  destruct (table_get k base) as [e|] eqn:Eb.
  - destruct (merge e v (path ++ [k])) as [m|] eqn:Em; [|done]. apply IH; [done|done|]. apply wf_insert; [done|].
    eapply (Hm k v e); [left| |done]. apply get_elem in Eb. by apply Hb in Eb.
  - apply IH; [done|done|]. apply wf_insert; [done|]. apply wf_normalized, (Hw k). left.
Qed.

End Entries.

Lemma depth_child k v t : (k, v) ∈ t -> toml_depth v < toml_depth (TTable t).
Proof.
  intros Hin. cbn [toml_depth]. apply Nat.lt_succ_r.
  pose proof (proj1 (list_max_le (List.map (fun '(_, v) => toml_depth v) t) _) (le_n _)) as H.
  rewrite List.Forall_forall in H. apply H. apply list_elem_of_In in Hin. apply in_map_iff. by exists (k, v).
Qed.

Lemma merge_total fuel base overlay path :
  toml_depth overlay <= fuel -> is_Some (merge_toml_values_at_path fuel base overlay path).
Proof.
  revert base overlay path. induction fuel as [|fuel IH]; intros base overlay path Hf; [by destruct overlay; cbn in Hf; lia|].
  cbn. destruct overlay as [| | | | | |t]; try (by eexists); destruct base as [| | | | | |t']; try (by eexists).
  rewrite fmap_is_Some. apply merge_entries_total. intros k v e (k' & Hin)%elem_prepared. apply IH.
  apply depth_child in Hin. lia.
Qed.

Lemma merge_wf fuel base overlay path r :
  wf base -> wf overlay -> merge_toml_values_at_path fuel base overlay path = Some r -> wf r.
Proof.
  revert base overlay path r. induction fuel as [|fuel IH]; intros base overlay path r Hb Ho; [done|]. cbn.
  assert (Hn : Some (normalized_with_key_aliases overlay path) = Some r -> wf r) by (intros [= <-]; by apply wf_normalized).
  destruct overlay as [| | | | | |t]; try exact Hn; destruct base as [| | | | | |t']; try exact Hn.
  destruct (merge_entries _ _ _ _) as [r'|] eqn:Em; [|done]. intros [= <-]. apply wf_TTable in Hb, Ho. apply wf_TTable.
  eapply merge_entries_wf; [| | |exact Em].
  - intros k v e m (k' & Hin)%elem_prepared He. apply IH; [done|]. by apply Ho in Hin.
  - intros k v (k' & Hin)%elem_prepared. by apply Ho in Hin.
  - by apply wf_prepared.
Qed.

(** ** What a configuration says about a path *)

(** The setting at a path below [path]: a value that is no table. *)
Fixpoint setting_at (path p : list str) (v : Toml) : option Toml :=
  match p, v with
  | [], TTable _ => None
  | [], _ => Some (normalized_with_key_aliases v path)
  | k :: p', TTable t =>
      match table_get k (normalize_key_aliases path t) with Some c => setting_at (path ++ [k]) p' c | None => None end
  | _ :: _, _ => None
  end.

(** Whether it says anything about the path: a value for it, or a value that is
    no table on the way to it. *)
Fixpoint speaks (path p : list str) (v : Toml) : bool :=
  match p, v with
  | [], _ => true
  | k :: p', TTable t =>
      match table_get k (normalize_key_aliases path t) with Some c => speaks (path ++ [k]) p' c | None => false end
  | _ :: _, _ => true
  end.

(** No key on the way is one of the domains of a permission profile, which the merge rewrites. *)
Fixpoint domain_free (path p : list str) : bool :=
  match p with
  | [] => true
  | k :: p' => negb (is_permission_network_domains_path path) && domain_free (path ++ [k]) p'
  end.

Lemma silent_no_setting path p v : speaks path p v = false -> setting_at path p v = None.
Proof.
  revert path v. induction p as [|k p IH]; intros path v; [done|]. destruct v; try done. cbn.
  destruct (table_get k _); [apply IH|done].
Qed.

Lemma normalized_idem v path : wf v -> normalized_with_key_aliases (normalized_with_key_aliases v path) path = normalized_with_key_aliases v path.
Proof.
  revert path. induction v as [| | | | |items IH|t IH] using toml_ind'; intros path Hw; try done.
  - cbn. f_equal. rewrite map_map. apply map_ext_in. intros x Hx%list_elem_of_In. rewrite wf_TArray in Hw. rewrite Forall_forall in *. auto.
  - pose proof (wf_normalized (TTable t) path Hw) as Hw'. apply wf_TTable in Hw. rewrite normalized_table in * by apply Hw.
    apply wf_TTable in Hw'. rewrite normalized_table by apply Hw'. f_equal.
    destruct (decide (path = MEMORIES)) as [->|Hne]; [by rewrite children_memories, aliases_idem by done|].
    rewrite !aliases_other by done. unfold normalized_children. rewrite map_map. apply map_ext_in. intros [k c] Hx%list_elem_of_In.
    f_equal. rewrite Forall_forall in IH. apply (IH _ Hx). by apply Hw in Hx.
Qed.

Lemma setting_normalized path p v : wf v -> setting_at path p (normalized_with_key_aliases v path) = setting_at path p v.
Proof.
  revert path v. induction p as [|k p IH]; intros path v Hw.
  - destruct v as [| | | | |items|t]; try done.
    change (Some (normalized_with_key_aliases (normalized_with_key_aliases (TArray items) path) path) =
            Some (normalized_with_key_aliases (TArray items) path)). by rewrite normalized_idem.
  - destruct v as [| | | | |items|t]; try done. apply wf_TTable in Hw. destruct (get_normalized path t k Hw) as (t' & -> & Ht' & Hg).
    cbn [setting_at]. rewrite Ht', Hg. destruct (table_get k (normalize_key_aliases path t)) as [c|] eqn:E; [|done]. apply IH.
    apply get_elem, elem_aliases in E as (k' & Hin). by apply Hw in Hin.
Qed.

(** The overlay decides where it speaks; elsewhere the base is kept. *)
Lemma merge_setting fuel base overlay path p r :
  wf base -> wf overlay -> domain_free path p = true -> merge_toml_values_at_path fuel base overlay path = Some r ->
  setting_at path p r = if speaks path p overlay then setting_at path p overlay else setting_at path p base.
Proof.
  revert fuel base overlay path r. induction p as [|k p IH]; intros fuel base overlay path r Hb Ho Hd Hr; destruct fuel as [|fuel]; try done.
  - cbn [speaks]. cbn in Hr. assert (Hn : Some (normalized_with_key_aliases overlay path) = Some r -> setting_at path [] r = setting_at path [] overlay)
      by (intros [= <-]; by apply setting_normalized).
    destruct overlay as [| | | | | |t]; try exact (Hn Hr); destruct base as [| | | | | |t']; try exact (Hn Hr).
    destruct (merge_entries _ _ _ _); [by injection Hr as <-|done].
  - cbn in Hd. apply andb_true_iff in Hd as [Hd0 Hd]. cbn in Hr.
    assert (Hn : Some (normalized_with_key_aliases overlay path) = Some r -> (forall t t', overlay = TTable t -> base <> TTable t') ->
      setting_at path (k :: p) r = if speaks path (k :: p) overlay then setting_at path (k :: p) overlay else setting_at path (k :: p) base).
    { intros [= <-] Hbase. rewrite setting_normalized by done. destruct (speaks path (k :: p) overlay) eqn:Es; [done|].
      rewrite silent_no_setting by done. destruct overlay as [| | | | | |t]; try done. destruct base; try done. by destruct (Hbase t table). }
    destruct overlay as [| | | | | |t]; try (by apply Hn); destruct base as [| | | | | |t']; try (by apply Hn). clear Hn.
    destruct (merge_entries _ _ _ _) as [r'|] eqn:Em; [|done]. injection Hr as <-. apply wf_TTable in Hb, Ho.
    pose proof (merge_entries_get _ _ _ _ _ (proj1 (wf_prepared path t Ho)) Em) as Hg.
    unfold prepared_table in Hg. apply negb_true_iff in Hd0. rewrite Hd0 in Hg.
    assert (Hr' : normalize_key_aliases path r' = r').
    { apply aliases_id. intros ->. specialize (Hg LEGACY). rewrite !aliases_legacy in Hg. by injection Hg. }
    cbn [setting_at speaks]. rewrite Hr'. specialize (Hg k).
    destruct (table_get k (normalize_key_aliases path t)) as [v|] eqn:Ev.
    + assert (wf v) by (apply get_elem, elem_aliases in Ev as (k' & Hin); by apply Ho in Hin).
      destruct (table_get k (normalize_key_aliases path t')) as [e|] eqn:Ee; cbn in Hg.
      * assert (wf e) by (apply get_elem, elem_aliases in Ee as (k' & Hin); by apply Hb in Hin).
        destruct (merge_toml_values_at_path fuel e v (path ++ [k])) as [m|] eqn:Emm; [|done]. injection Hg as <-. by eapply IH.
      * injection Hg as <-. rewrite setting_normalized by done. destruct (speaks (path ++ [k]) p v) eqn:Es; [done|by apply silent_no_setting].
    + cbn in Hg. injection Hg as <-. done.
Qed.

(** ** The effective configuration *)

Lemma merge_layers_snoc ls l : merge_layers (ls ++ [l]) = merge_layer (merge_layers ls) l.
Proof. unfold merge_layers. by rewrite fold_left_app. Qed.

Lemma merge_layers_total ls : Forall (fun l => wf (config l)) ls -> exists e, merge_layers ls = Some e /\ wf e.
Proof.
  induction ls as [|l ls IH] using rev_ind; intros Hw.
  - eexists. split; [done|]. apply wf_TTable. split; [constructor|by intros k v ?%not_elem_of_nil].
  - apply Forall_app in Hw as [Hw [Hl _]%Forall_cons]. destruct (IH Hw) as (e & He & Hwe). rewrite merge_layers_snoc, He. cbn.
    destruct (merge_total (toml_depth (config l)) e (config l) [] (le_n _)) as [r Hr]. exists r. split; [done|]. exact (merge_wf _ _ _ _ _ Hwe Hl Hr).
Qed.

Lemma merge_layers_setting ls e p :
  Forall (fun l => wf (config l)) ls -> p <> [] -> domain_free [] p = true -> merge_layers ls = Some e ->
  setting_at [] p e =
  match find_first (fun l => speaks [] p (config l)) (reverse ls) with Some l => setting_at [] p (config l) | None => None end.
Proof.
  intros Hw Hp Hd. revert e. induction ls as [|l ls IH] using rev_ind; intros e He.
  - injection He as <-. by destruct p.
  - apply Forall_app in Hw as [Hw [Hl _]%Forall_cons]. destruct (merge_layers_total ls Hw) as (b & Hb & Hwb).
    rewrite merge_layers_snoc, Hb in He. cbn in He. unfold merge_toml_values in He.
    rewrite (merge_setting _ _ _ _ p _ Hwb Hl Hd He), reverse_snoc. cbn. destruct (speaks [] p (config l)); [done|]. by apply IH.
Qed.

Lemma reverse_layers {R} (s : ConfigLayerStack R) :
  get_layers s HighestPrecedenceFirst false = reverse (get_layers s LowestPrecedenceFirst false).
Proof. reflexivity. Qed.

(** ** Origins *)

(** The paths of the values that are neither tables nor arrays. *)
Fixpoint paths (v : Toml) (path : list str) : list (list str) :=
  match v with
  | TTable t => (fix entries (t : list (str * Toml)) :=
      match t with [] => [] | (k, c) :: t' => paths c (path ++ [k]) ++ entries t' end) t
  | TArray items => (fix elements (index : nat) (items : list Toml) :=
      match items with [] => [] | c :: items' => paths c (path ++ [show_nat index]) ++ elements (S index) items' end) 0 items
  | _ => [path]
  end.

Definition is_scalar (v : Toml) : bool := match v with TTable _ | TArray _ => false | _ => true end.

Definition record_path (meta : ConfigLayerMetadata) (origins : gmap str ConfigLayerMetadata) (p : list str) : gmap str ConfigLayerMetadata :=
  if is_empty p then origins else <[join (lit ".") p := meta]> origins.

Lemma record_origins_paths v meta path o : record_origins v meta path o = fold_left (record_path meta) (paths v path) o.
Proof.
  revert path o. induction v as [| | | | |items IH|t IH] using toml_ind'; intros path o; try done; cbn [record_origins paths].
  - generalize 0 as index. revert o. induction IH as [|c items Hc _ IHi]; intros o index; [done|]. cbn. by rewrite fold_left_app, <- Hc, IHi.
  - revert o. induction IH as [|[k c] t Hc _ IHt]; intros o; [done|]. cbn in *. by rewrite fold_left_app, <- Hc, IHt.
Qed.

Lemma elem_paths_table p t path : p ∈ paths (TTable t) path <-> exists k c, (k, c) ∈ t /\ p ∈ paths c (path ++ [k]).
Proof.
  induction t as [|[k c] t IH]; cbn [paths].
  - split; [by intros ?%not_elem_of_nil|intros (k & c & ?%not_elem_of_nil & _); done].
  - rewrite elem_of_app. cbn [paths] in IH. rewrite IH. split.
    + intros [Hp|(k' & c' & Hin & Hp)]; [exists k, c; split; [left|done]|exists k', c'; split; [by right|done]].
    + intros (k' & c' & [[= -> ->]|Hin]%elem_of_cons & Hp); [by left|right; eauto].
Qed.

Lemma paths_prefix v path p : p ∈ paths v path -> path `prefix_of` p.
Proof.
  revert path. induction v as [| | | | |items IH|t IH] using toml_ind'; intros path; try (by intros ->%list_elem_of_singleton).
  - cbn [paths]. generalize 0 as index. induction IH as [|c items Hc _ IHi]; intros index; [by intros ?%not_elem_of_nil|]. cbn.
    intros [Hp|Hp]%elem_of_app; [|by eapply IHi]. apply Hc in Hp. etrans; [|exact Hp]. by eexists.
  - intros (k & c & Hin & Hp)%elem_paths_table. rewrite Forall_forall in IH. apply (IH _ Hin) in Hp. etrans; [|exact Hp]. by eexists.
Qed.

Lemma setting_recorded path p v x :
  wf v -> setting_at path p v = Some x -> is_scalar x = true -> path ++ p ∈ paths (normalized_with_key_aliases v path) path.
Proof.
  revert path v. induction p as [|k p IH]; intros path v Hw Hx Hs.
  - rewrite app_nil_r. assert (Hn : normalized_with_key_aliases v path = x) by (destruct v; cbn in Hx |- *; congruence).
    rewrite Hn. destruct x; try done; by apply list_elem_of_singleton.
  - destruct v as [| | | | | |t]; try done. cbn [setting_at] in Hx. apply wf_TTable in Hw. destruct (get_normalized path t k Hw) as (t' & -> & _ & Hg).
    destruct (table_get k (normalize_key_aliases path t)) as [c|] eqn:Ec; [|done]. cbn in Hg. apply elem_paths_table.
    exists k, (normalized_with_key_aliases c (path ++ [k])). split; [by apply get_elem|].
    replace (path ++ k :: p) with ((path ++ [k]) ++ p) by (by rewrite <- app_assoc). apply IH; [|done|done].
    apply get_elem, elem_aliases in Ec as (k' & Hin). by apply Hw in Hin.
Qed.

Lemma recorded_speaks path p v : wf v -> path ++ p ∈ paths (normalized_with_key_aliases v path) path -> speaks path p v = true.
Proof.
  revert path v. induction p as [|k p IH]; intros path v Hw Hp; [done|]. destruct v as [| | | | | |t]; try done.
  pose proof (wf_normalized _ path Hw) as Hw'. apply wf_TTable in Hw. destruct (get_normalized path t k Hw) as (t' & Ht & _ & Hg).
  rewrite Ht in Hp, Hw'. apply wf_TTable in Hw'. apply elem_paths_table in Hp as (k' & c' & Hin & Hp).
  pose proof (paths_prefix _ _ _ Hp) as [q Hq]. rewrite <- !(assoc_L (++)) in Hq. apply app_inv_head in Hq. injection Hq as <- _.
  apply elem_get in Hin; [|apply Hw']. rewrite Hg in Hin. cbn [speaks].
  destruct (table_get k (normalize_key_aliases path t)) as [c|] eqn:Ec; [|done]. injection Hin as <-. apply IH.
  - apply get_elem, elem_aliases in Ec as (k' & Hin). by apply Hw in Hin.
  - by rewrite <- (assoc_L (++)).
Qed.

(** No key on the way to a value has a dot, which joins the keys in the name of an origin. *)
Definition dotless (v : Toml) : Prop := Forall (Forall (Forall (fun c => c <> 46%N))) (paths v []).

Lemma join_dot_inj (p q : list str) :
  p <> [] -> q <> [] -> Forall (Forall (fun c => c <> 46%N)) p -> Forall (Forall (fun c => c <> 46%N)) q ->
  join (lit ".") p = join (lit ".") q -> p = q.
Proof.
  intros Hp Hq Fp Fq Hj. change (lit ".") with [46%N] in Hj. rewrite <- (split_on_join 46 p), <- (split_on_join 46 q) by done. by rewrite Hj.
Qed.

Lemma record_paths_lookup meta ps o p :
  p <> [] -> Forall (Forall (fun c => c <> 46%N)) p -> Forall (Forall (Forall (fun c => c <> 46%N))) ps ->
  fold_left (record_path meta) ps o !! join (lit ".") p = if bool_decide (p ∈ ps) then Some meta else o !! join (lit ".") p.
Proof.
  intros Hp Fp Fps. revert o. induction Fps as [|q ps Fq _ IH]; intros o.
  - by rewrite bool_decide_false by apply not_elem_of_nil.
  - cbn. rewrite IH. unfold record_path. destruct (is_empty q) eqn:Eq.
    + apply is_empty_true in Eq as ->.
      by rewrite (bool_decide_ext (p ∈ [] :: ps) (p ∈ ps)) by (rewrite elem_of_cons; naive_solver).
    + apply is_empty_false in Eq. destruct (decide (p = q)) as [->|Hne].
      * rewrite lookup_insert_eq. rewrite (bool_decide_true (q ∈ q :: ps)) by left. by case_bool_decide.
      * rewrite lookup_insert_ne by (intros Hj; apply Hne; symmetry; by apply join_dot_inj).
        by rewrite (bool_decide_ext (p ∈ q :: ps) (p ∈ ps)) by (rewrite elem_of_cons; naive_solver).
Qed.

Definition record_layer (o : gmap str ConfigLayerMetadata) (l : ConfigLayerEntry) : gmap str ConfigLayerMetadata :=
  record_origins (normalized_with_key_aliases (config l) []) (metadata l) [] o.

Lemma origins_lookup ls p l x :
  Forall (fun l => wf (config l) /\ dotless (normalized_with_key_aliases (config l) [])) ls -> p <> [] ->
  find_first (fun l => speaks [] p (config l)) (reverse ls) = Some l ->
  setting_at [] p (config l) = Some x -> is_scalar x = true ->
  fold_left record_layer ls ∅ !! join (lit ".") p = Some (metadata l).
Proof.
  intros Hw Hp Hf Hx Hs.
  assert (Hl : l ∈ ls).
  { apply find_first_Some in Hf as (l1 & l2 & Heq & _). apply elem_of_reverse. rewrite Heq. set_solver. }
  rewrite Forall_forall in Hw. destruct (Hw l Hl) as [Hwl Hdl]. pose proof (setting_recorded [] p _ x Hwl Hx Hs) as Hin. cbn in Hin.
  assert (Fp : Forall (Forall (fun c => c <> 46%N)) p) by (unfold dotless in Hdl; rewrite Forall_forall in Hdl; by apply Hdl).
  clear Hl. revert Hf. induction ls as [|l' ls IH] using rev_ind; [done|]. rewrite reverse_snoc, fold_left_app. cbn [fold_left find_first].
  destruct (Hw l') as [Hw' Hd']; [set_solver|]. unfold record_layer at 1. rewrite record_origins_paths, record_paths_lookup by done.
  destruct (speaks [] p (config l')) eqn:Es.
  - intros [= ->]. by rewrite bool_decide_true.
  - intros Hf. rewrite bool_decide_false.
    + apply IH; [|done]. intros l0 Hl0. apply Hw. set_solver.
    + intros Hin'. rewrite (recorded_speaks [] p (config l') Hw' Hin') in Es. done.
Qed.

Section Effective.
Context {R : Type} (s : ConfigLayerStack R).

(** C8: the effective configuration always exists, and each setting of it is the one of the enabled layer of
    highest precedence that says anything about it: that gives it a value or has a value of another shape on the
    way to it.  Where no layer speaks, there is no setting.  (Domains of permission profiles apart, whose names the
    merge rewrites.) *)
Theorem effective_settings :
  Forall (fun l => wf (config l)) (layers s) ->
  exists e, effective_config s = Some e /\ forall p, p <> [] -> domain_free [] p = true ->
    setting_at [] p e =
    match find_first (fun l => speaks [] p (config l)) (get_layers s HighestPrecedenceFirst false) with
    | Some l => setting_at [] p (config l)
    | None => None
    end.
Proof using Type.
  intros Hw. assert (Hw' : Forall (fun l => wf (config l)) (get_layers s LowestPrecedenceFirst false)).
  { unfold get_layers. cbn. rewrite List.Forall_forall in *. intros l [Hl _]%filter_In. auto. }
  destruct (merge_layers_total _ Hw') as (e & He & _). exists e. split; [done|]. intros p Hp Hd. rewrite reverse_layers.
  by apply merge_layers_setting.
Qed.

(** The origin reported for a setting is the layer it has its effective value from. *)
Theorem origins_of_settings e p x :
  Forall (fun l => wf (config l) /\ dotless (normalized_with_key_aliases (config l) [])) (layers s) ->
  effective_config s = Some e -> p <> [] -> domain_free [] p = true -> setting_at [] p e = Some x -> is_scalar x = true ->
  exists l, l ∈ get_layers s LowestPrecedenceFirst false /\ setting_at [] p (config l) = Some x /\
    origins s !! join (lit ".") p = Some (metadata l).
Proof using Type.
  intros Hw He Hp Hd Hx Hs.
  assert (Hw' : Forall (fun l => wf (config l) /\ dotless (normalized_with_key_aliases (config l) [])) (get_layers s LowestPrecedenceFirst false)).
  { unfold get_layers. cbn. rewrite List.Forall_forall in *. intros l [Hl _]%filter_In. auto. }
  unfold effective_config in He. rewrite (merge_layers_setting _ e p (Forall_impl _ _ _ Hw' (fun l H => proj1 H)) Hp Hd He) in Hx.
  destruct (find_first _ _) as [l|] eqn:Ef; [|done]. exists l. split_and!; [|done|by eapply origins_lookup].
  apply find_first_Some in Ef as (l1 & l2 & Heq & _). apply elem_of_reverse. rewrite Heq. set_solver.
Qed.

End Effective.

(** ** The order of the layers *)

Section Order.
Context {R : Type} (parent : str -> option str) (ancestors : str -> list str) (version_for_toml : Toml -> str).

(** What the constructor checks and stores. *)
Definition stack_valid (s : ConfigLayerStack R) : Prop := verify_layer_ordering parent ancestors (layers s) = Ok (user_layer_index s).

Definition layer_le (a b : ConfigLayerEntry) : Prop := precedence (name a) <= precedence (name b).

Lemma is_sorted_spec ls : is_sorted (List.map (fun l => precedence (name l)) ls) = true <-> StronglySorted layer_le ls.
Proof using Type.
  induction ls as [|a [|b ls] IH]; [split; [constructor|done]|split; [repeat constructor|done]|].
  cbn [List.map is_sorted] in *. rewrite andb_true_iff, IH, Nat.leb_le. clear IH. split.
  - intros [Hab Hs]. constructor; [done|]. apply StronglySorted_inv in Hs as [Hs Hb]. constructor; [done|].
    eapply Forall_impl; [exact Hb|]. unfold layer_le. cbn. lia.
  - intros [Hs Ha]%StronglySorted_inv. split; [by apply Forall_cons in Ha as [? _]|done].
Qed.

Lemma sorted_insert l ls : StronglySorted layer_le ls -> StronglySorted layer_le (insert_by_precedence l ls).
Proof using Type.
  induction 1 as [|a ls Hs IH Ha]; cbn [insert_by_precedence]; [repeat constructor|]. destruct (Nat.ltb_spec (precedence (name l)) (precedence (name a))) as [Hlt|Hge].
  - constructor; [by constructor|]. constructor; [unfold layer_le; lia|]. eapply Forall_impl; [exact Ha|]. unfold layer_le. cbn. lia.
  - constructor; [done|]. clear Hs IH. induction ls as [|b ls IHl]; cbn [insert_by_precedence]; [by repeat constructor|].
    apply Forall_cons in Ha as [Hb Ha]. destruct (_ <? _); repeat (constructor; try done). by apply IHl.
Qed.

Lemma forall_remove_first (P : ConfigLayerEntry -> Prop) p ls : Forall P ls -> Forall P (remove_first p ls).
Proof using Type. induction 1 as [|a ls Ha Hs IH]; cbn; [constructor|]. destruct (p a); [done|by constructor]. Qed.

Lemma sorted_remove_first p ls : StronglySorted layer_le ls -> StronglySorted layer_le (remove_first p ls).
Proof using Type.
  induction 1 as [|a ls Hs IH Ha]; cbn; [constructor|]. destruct (p a); [done|]. constructor; [done|by apply forall_remove_first].
Qed.

Lemma sorted_filter p ls : StronglySorted layer_le ls -> StronglySorted layer_le (List.filter p ls).
Proof using Type.
  induction 1 as [|a ls Hs IH Ha]; cbn; [constructor|]. destruct (p a); [|done]. constructor; [done|].
  rewrite List.Forall_forall in *. intros x [Hx _]%filter_In. auto.
Qed.

Definition project_of (l : ConfigLayerEntry) : option str := match name l with Project folder => Some folder | _ => None end.

Lemma user_no_project l : is_user (name l) = true -> project_of l = None.
Proof using Type. unfold project_of. by destruct (name l). Qed.

Lemma projects_insert l ls : project_of l = None -> omap project_of (insert_by_precedence l ls) = omap project_of ls.
Proof using Type.
  intros Hl. induction ls as [|a ls IH]; cbn [insert_by_precedence]; [cbn; by rewrite Hl|].
  destruct (_ <? _); cbn; [by rewrite Hl|]. by rewrite IH.
Qed.

Lemma projects_remove p ls : (forall l, p l = true -> project_of l = None) -> omap project_of (remove_first p ls) = omap project_of ls.
Proof using Type.
  intros Hp. induction ls as [|a ls IH]; cbn; [done|]. destruct (p a) eqn:E; cbn; [by rewrite (Hp a E)|by rewrite IH].
Qed.

Lemma projects_filter p ls : (forall l, p l = false -> project_of l = None) -> omap project_of (List.filter p ls) = omap project_of ls.
Proof using Type.
  intros Hp. induction ls as [|a ls IH]; cbn; [done|]. destruct (p a) eqn:E; cbn; [by rewrite IH|by rewrite (Hp a E)].
Qed.

(** The loop: the checks of the project folders, and the index of the last user layer. *)
Fixpoint check_projects (previous : option str) (folders : list str) : result unit str :=
  match folders with
  | [] => Ok tt
  | current :: folders' => let? _ := check_project parent ancestors previous current in check_projects (Some current) folders'
  end.

Fixpoint user_from (index : nat) (ls : list ConfigLayerEntry) (user : option nat) : option nat :=
  match ls with
  | [] => user
  | l :: ls' => user_from (S index) ls' (if is_user (name l) then Some index else user)
  end.

Lemma verify_loop_eq index ls user previous :
  verify_loop parent ancestors index ls user previous =
  (let? _ := check_projects previous (omap project_of ls) in Ok (user_from index ls user)).
Proof using Type.
  revert index user previous. induction ls as [|l ls IH]; intros index user previous; [done|]. cbn. unfold project_of at 1.
  destruct (name l); cbn; try apply IH. destruct (check_project _ _ _ _); cbn; [apply IH|done].
Qed.

Lemma user_from_snoc index ls l user :
  user_from index (ls ++ [l]) user = if is_user (name l) then Some (index + length ls) else user_from index ls user.
Proof using Type.
  revert index user. induction ls as [|a ls IH]; intros index user; cbn; [by rewrite Nat.add_0_r|]. rewrite IH. by rewrite Nat.add_succ_comm.
Qed.

Lemma find_first_ext {A} (p q : A -> bool) l : (forall x, x ∈ l -> p x = q x) -> find_first p l = find_first q l.
Proof using Type.
  induction l as [|x l IH]; intros H; [done|]. cbn. rewrite (H x ltac:(left)), IH; [done|]. intros y Hy. apply H. by right.
Qed.

Lemma last_user_index_eq ls : last_user_index ls = user_from 0 ls None.
Proof using Type.
  induction ls as [|l ls IH] using rev_ind; [done|]. rewrite user_from_snoc, <- IH. unfold last_user_index.
  rewrite length_app, seq_app, reverse_app. cbn. rewrite lookup_app_r, Nat.sub_diag by done. cbn. destruct (is_user (name l)); [done|].
  apply find_first_ext. intros i [_ Hi]%elem_of_reverse%elem_of_seq. by rewrite lookup_app_l.
Qed.

Lemma valid_stack ls r ignore ws :
  StronglySorted layer_le ls -> check_projects None (omap project_of ls) = Ok tt ->
  stack_valid (mkStack ls (last_user_index ls) r ignore ws).
Proof using Type.
  intros Hs Hp. unfold stack_valid, verify_layer_ordering. cbn. apply is_sorted_spec in Hs. rewrite Hs. cbn.
  by rewrite verify_loop_eq, Hp, last_user_index_eq.
Qed.

Lemma stack_valid_inv s : stack_valid s -> StronglySorted layer_le (layers s) /\ check_projects None (omap project_of (layers s)) = Ok tt.
Proof using Type.
  unfold stack_valid, verify_layer_ordering. destruct (is_sorted _) eqn:Es; cbn; [|done]. rewrite verify_loop_eq.
  apply is_sorted_spec in Es. destruct (check_projects _ _) as [[]|]; [done|done].
Qed.

(** Replacing the user's configuration, and taking over the user's layers of another stack, keep a stack
    as its constructor would accept it: in the order of precedence, project folders from the root down, with the
    index of the last user layer. *)
Theorem user_changes_keep_order s other config_toml profile user_config :
  stack_valid s ->
  stack_valid (with_user_config_profile version_for_toml s config_toml profile user_config) /\
  stack_valid (with_user_config version_for_toml s config_toml user_config) /\
  stack_valid (with_user_layer_from s other).
Proof using Type.
  intros [Hs Hp]%stack_valid_inv.
  assert (H1 : forall profile, stack_valid (with_user_config_profile version_for_toml s config_toml profile user_config)).
  { intros pr. apply valid_stack; [by apply sorted_insert, sorted_remove_first|].
    rewrite projects_insert, projects_remove; [done| |done]. intros l. unfold is_user_file, project_of. by destruct (name l). }
  split; [apply H1|]. split; [apply H1|]. apply valid_stack.
  - apply (sorted_filter (fun l => negb (is_user (name l)))) in Hs. revert Hs. generalize (List.filter (fun l => negb (is_user (name l))) (layers s)).
    induction (List.filter _ (layers other)) as [|l us IH]; intros kept Hk; [done|]. cbn. by apply IH, sorted_insert.
  - rewrite <- Hp. rewrite <- (projects_filter (fun l => negb (is_user (name l))) (layers s)) at 1.
    2: { intros l Hl%negb_false_iff. by apply user_no_project. }
    generalize (List.filter (fun l => negb (is_user (name l))) (layers s)).
    assert (Hu : Forall (fun l => is_user (name l) = true) (List.filter (fun l => is_user (name l)) (layers other))).
    { rewrite List.Forall_forall. by intros l [_ Hl]%filter_In. }
    induction Hu as [|l us Hl _ IH]; intros kept; [done|]. cbn. rewrite IH, projects_insert; [done|by apply user_no_project].
Qed.

End Order.

(** ** Constrained values *)

Section ConstraintFacts.
Context {T E : Type}.

Inductive ConstrainedOp := AddValidator (v : T -> result unit E) | SetValue (new : T).

(** An operation that fails changes nothing. *)
Definition constrained_step (c : Constrained T E) (op : ConstrainedOp) : Constrained T E :=
  match op with AddValidator v => (add_validator c v).1 | SetValue new => (set_value c new).1 end.

Definition valid_constrained (c : Constrained T E) : Prop := validator c (value c) = Ok tt.

Lemma constrained_step_valid c op :
  valid_constrained c -> valid_constrained (constrained_step c op) /\
  forall y, validator (constrained_step c op) y = Ok tt -> validator c y = Ok tt.
Proof using Type.
  intros Hv. unfold valid_constrained in *. destruct op as [v|new]; cbn; unfold add_validator, set_value.
  - rewrite Hv. destruct (v (value c)) as [[]|] eqn:Ev; cbn; [|done]. rewrite Hv, Ev. split; [done|]. intros y.
    by destruct (validator c y) as [[]|].
  - set (x := match normalizer c with Some n => n new | None => new end). by destruct (validator c x) as [[]|] eqn:Ex.
Qed.

(** Whatever validators are added and values set, in any order and with any failures, the value satisfies the
    validator the constraint was made with and all that were added since. *)
Theorem constrained_value_stays_valid c before after :
  valid_constrained c -> let c1 := fold_left constrained_step before c in let c2 := fold_left constrained_step after c1 in
  valid_constrained c2 /\ validator c1 (value c2) = Ok tt /\ validator c (value c2) = Ok tt.
Proof using Type.
  assert (H : forall ops c, valid_constrained c -> valid_constrained (fold_left constrained_step ops c) /\
    forall y, validator (fold_left constrained_step ops c) y = Ok tt -> validator c y = Ok tt).
  { induction ops as [|op ops IH]; intros d Hd; [done|]. cbn. destruct (constrained_step_valid d op Hd) as [Hd1 Hd2].
    destruct (IH _ Hd1) as [H1 H2]. auto. }
  intros Hc c1 c2. destruct (H before c Hc) as [H1 H2]. destruct (H after c1 H1) as [H3 H4]. auto.
Qed.

End ConstraintFacts.

(** ** On a stack of three layers *)

Definition ex_layer (source : ConfigLayerSource) (t : list (str * Toml)) : ConfigLayerEntry := mkLayer source (TTable t) (lit "v") None None None.

Definition ex_stack : ConfigLayerStack unit :=
  mkStack [ex_layer (System (lit "/etc/config.toml")) [(lit "model", TString (lit "a")); (lit "tools", TTable [(lit "web", TBoolean true)])];
           ex_layer (User (lit "/u/config.toml") None) [(lit "model", TString (lit "b")); (lit "memories", TTable [(LEGACY, TBoolean true)])];
           ex_layer SessionFlags [(lit "tools", TInteger 5)]] (Some 1) tt false None.

Lemma ex_stack_wf : Forall (fun l => wf (config l)) (layers ex_stack).
Proof.
  repeat (apply Forall_cons; split); try by apply Forall_nil.
  all: cbn; split_and!; try done; apply (bool_decide_unpack _); vm_compute; exact I.
Qed.

Lemma ex_stack_dotless : Forall (fun l => wf (config l) /\ dotless (normalized_with_key_aliases (config l) [])) (layers ex_stack).
Proof.
  pose proof ex_stack_wf as Hw. rewrite Forall_forall in *. intros l Hl. split; [auto|].
  assert (Hd : Forall (fun l => dotless (normalized_with_key_aliases (config l) [])) (layers ex_stack)).
  { unfold dotless. apply (bool_decide_unpack _). vm_compute. exact I. }
  rewrite Forall_forall in Hd. auto.
Qed.

Lemma effective_settings_witness :
  exists e, effective_config ex_stack = Some e /\ forall p, p <> [] -> domain_free [] p = true ->
    setting_at [] p e =
    match find_first (fun l => speaks [] p (config l)) (get_layers ex_stack HighestPrecedenceFirst false) with
    | Some l => setting_at [] p (config l)
    | None => None
    end.
Proof. apply (effective_settings ex_stack). exact ex_stack_wf. Defined.

Definition ex_effective : Toml :=
  TTable [(lit "model", TString (lit "b")); (lit "tools", TInteger 5); (lit "memories", TTable [(CANONICAL, TBoolean true)])].

Lemma origins_of_settings_witness :
  exists l, l ∈ get_layers ex_stack LowestPrecedenceFirst false /\ setting_at [] [lit "memories"; CANONICAL] (config l) = Some (TBoolean true) /\
    origins ex_stack !! join (lit ".") [lit "memories"; CANONICAL] = Some (metadata l).
Proof.
  apply (origins_of_settings ex_stack ex_effective [lit "memories"; CANONICAL] (TBoolean true) ex_stack_dotless);
    first [done|vm_compute; reflexivity].
Defined.

(** The session's flags replace the table of tools; its old setting keeps an origin. *)
Example replaced_setting_keeps_origin :
  setting_at [] [lit "tools"; lit "web"] ex_effective = None /\
  is_Some (origins ex_stack !! lit "tools.web").
Proof. split; [by vm_compute|]. vm_compute. by eexists. Qed.

Definition ex_parent (f : str) : option str := Some f.
Definition ex_ancestors (f : str) : list str := [f].

Lemma user_changes_keep_order_witness :
  stack_valid ex_parent ex_ancestors ex_stack /\
  stack_valid ex_parent ex_ancestors (with_user_config (fun _ => lit "w") ex_stack (lit "/u/config.toml") (TTable [])).
Proof.
  assert (Hv : stack_valid ex_parent ex_ancestors ex_stack) by (vm_compute; reflexivity).
  split; [exact Hv|].
  apply (user_changes_keep_order ex_parent ex_ancestors (fun _ => lit "w") ex_stack ex_stack (lit "/u/config.toml") None (TTable []) Hv).
Defined.

Lemma constrained_value_stays_valid_witness :
  let c := allow_only (fun x => x) 3 in
  let c1 := fold_left constrained_step [SetValue 4] c in let c2 := fold_left constrained_step [SetValue 3] c1 in
  valid_constrained c2 /\ validator c1 (value c2) = Ok tt /\ validator c (value c2) = Ok tt.
Proof. apply (constrained_value_stays_valid (allow_only (fun x => x) 3) [SetValue 4] [SetValue 3]). vm_compute. reflexivity. Defined.

End ConfigLayersFacts.
