(* ===== verification/ExecApproval.v ===== *)
(** Whether a command needs approval (core/src/exec_policy.rs): the commands of
    a call, the decision for a command without a rule, the requirement for the
    call, proposed amendments, updates of the running policy, loading the policy
    from the configuration layers, and messages.  Also the approval policy
    (protocol/src/protocol.rs), sandbox permissions (protocol/src/models.rs) and
    the requirement type (core/src/tools/sandboxing.rs). *)

From stdpp Require Import base list option numbers strings gmap sorting.
From S2P Require Import Prelude RustStr ShellTree CommandSafety AbsolutePath Permissions Profiles ExecPolicy PolicyFiles ConfigLayers LegacyArgs.

Module ExecApproval.
Import ExecPolicy.
Open Scope rust_scope.

(** ** Protocol types *)

Record GranularApprovalConfig := mkGranular {
  sandbox_approval : bool;
  rules : bool;
  skill_approval : bool;
  request_permissions : bool;
  mcp_elicitations : bool;
}.

Inductive AskForApproval := UnlessTrusted | OnRequest | Granular (granular_config : GranularApprovalConfig) | Never.

#[export] Instance granular_eq_dec : EqDecision GranularApprovalConfig.
Proof. solve_decision. Defined.
#[export] Instance ask_eq_dec : EqDecision AskForApproval.
Proof. solve_decision. Defined.

Inductive SandboxPermissions := UseDefault | RequireEscalated | WithAdditionalPermissions.

Definition requires_escalated_permissions (s : SandboxPermissions) : bool :=
  match s with RequireEscalated => true | _ => false end.

Definition requests_sandbox_override (s : SandboxPermissions) : bool := match s with UseDefault => false | _ => true end.

Definition uses_additional_permissions (s : SandboxPermissions) : bool :=
  match s with WithAdditionalPermissions => true | _ => false end.

Inductive WindowsSandboxLevel := LevelDisabled | RestrictedToken | Elevated.

#[export] Instance level_eq_dec : EqDecision WindowsSandboxLevel.
Proof. solve_decision. Defined.

(** [ExecPolicyAmendment] is its command. *)
Inductive ExecApprovalRequirement :=
| Skip (bypass_sandbox : bool) (proposed_execpolicy_amendment : option (list str))
| NeedsApproval (reason : option str) (proposed_execpolicy_amendment : option (list str))
| ForbiddenRequirement (reason : str).

Definition proposed_execpolicy_amendment (r : ExecApprovalRequirement) : option (list str) :=
  match r with
  | NeedsApproval _ (Some prefix) | Skip _ (Some prefix) => Some prefix
  | _ => None
  end.

(** ** Constants *)

Definition PROMPT_CONFLICT_REASON : str := lit "approval required by policy, but AskForApproval is set to Never".
Definition REJECT_SANDBOX_APPROVAL_REASON : str :=
  lit "approval required by policy, but AskForApproval::Granular.sandbox_approval is false".
Definition REJECT_RULES_APPROVAL_REASON : str :=
  lit "approval required by policy rule, but AskForApproval::Granular.rules is false".
Definition RULES_DIR_NAME : str := lit "rules".
Definition RULE_EXTENSION : str := lit "rules".
Definition DEFAULT_POLICY_FILE : str := lit "default.rules".

Definition words (l : list string) : list str := List.map lit l.

Definition BANNED_PREFIX_SUGGESTIONS : list (list str) := List.map words
  [["python3"]; ["python3"; "-"]; ["python3"; "-c"]; ["python"]; ["python"; "-"]; ["python"; "-c"]; ["py"]; ["py"; "-3"];
   ["pythonw"]; ["pyw"]; ["pypy"]; ["pypy3"]; ["git"]; ["bash"]; ["bash"; "-lc"]; ["sh"]; ["sh"; "-c"]; ["sh"; "-lc"];
   ["zsh"]; ["zsh"; "-lc"]; ["/bin/zsh"]; ["/bin/zsh"; "-lc"]; ["/bin/bash"]; ["/bin/bash"; "-lc"]; ["pwsh"];
   ["pwsh"; "-Command"]; ["pwsh"; "-c"]; ["powershell"]; ["powershell"; "-Command"]; ["powershell"; "-c"];
   ["powershell.exe"]; ["powershell.exe"; "-Command"]; ["powershell.exe"; "-c"]; ["env"]; ["sudo"]; ["node"]; ["node"; "-e"];
   ["perl"]; ["perl"; "-e"]; ["ruby"]; ["ruby"; "-e"]; ["php"]; ["php"; "-r"]; ["lua"]; ["lua"; "-e"]; ["osascript"]]%string.

(** [cfg!(windows)]: the platform is another. *)
Definition cfg_windows : bool := false.

Definition prompt_is_rejected_by_policy (approval_policy : AskForApproval) (prompt_is_rule : bool) : option str :=
  match approval_policy with
  | Never => Some PROMPT_CONFLICT_REASON
  | OnRequest | UnlessTrusted => None
  | Granular granular_config =>
      if prompt_is_rule then
        if negb (rules granular_config) then Some REJECT_RULES_APPROVAL_REASON else None
      else if negb (sandbox_approval granular_config) then Some REJECT_SANDBOX_APPROVAL_REASON
      else None
  end.

Definition profile_has_managed_filesystem_restrictions (p : Profiles.PermissionProfile) : bool :=
  let fs := Profiles.file_system_sandbox_policy p in
  match p with Profiles.Managed _ _ => true | _ => false end
  && match Permissions.kind fs with Permissions.Restricted => true | _ => false end
  && negb (Permissions.has_full_disk_write_access fs).

Record ExecPolicyCommands := mkCommands { commands : list (list str); used_complex_parsing : bool }.

(** ** The requirement for a call *)

Section Approval.
Context {path : Type} `{AbsolutePaths path} {S : Type}.
(** The platform, the shell grammar, and shlex's quoting. *)
Context (linux : bool) (try_parse_shell : str -> option Shell.Tree) (try_join : list str -> option str).
Notation policy := (Policy (path:=path)).
Notation rule_match := (RuleMatch (path:=path)).
Notation evaluation := (Evaluation (path:=path)).

Definition is_policy_match (m : rule_match) : bool :=
  match m with PrefixRuleMatch _ _ _ _ => true | HeuristicsRuleMatch _ _ => false end.

Definition commands_for_exec_policy (command : list str) : ExecPolicyCommands :=
  match non_empty (Shell.parse_shell_lc_plain_commands try_parse_shell command) with
  | Some cmds => mkCommands cmds false
  | None =>
      match Shell.parse_shell_lc_single_command_prefix try_parse_shell command with
      | Some single_command => mkCommands [single_command] true
      | None => mkCommands [command] false
      end
  end.

Record UnmatchedCommandContext := mkContext {
  approval_policy : AskForApproval;
  permission_profile : Profiles.PermissionProfile;
  windows_sandbox_level : WindowsSandboxLevel;
  sandbox_permissions : SandboxPermissions;
  complex_parsing : bool;
}.

Definition decide_restricted (c : UnmatchedCommandContext) : Decision :=
  match Permissions.kind (Profiles.file_system_sandbox_policy (permission_profile c)) with
  | Permissions.Unrestricted | Permissions.ExternalSandboxKind => Allow
  | Permissions.Restricted => if requests_sandbox_override (sandbox_permissions c) then Prompt else Allow
  end.

Definition render_decision_for_unmatched_command (command : list str) (c : UnmatchedCommandContext) : Decision :=
  let is_known_safe := CommandSafety.is_known_safe_command linux try_parse_shell command in
  let without_sandbox_backend :=
    cfg_windows && (windows_sandbox_level c == LevelDisabled)
    && profile_has_managed_filesystem_restrictions (permission_profile c) in
  if is_known_safe && negb (complex_parsing c) && ((approval_policy c == UnlessTrusted) || without_sandbox_backend) then Allow
  else if CommandSafety.command_might_be_dangerous try_parse_shell command || without_sandbox_backend then
    match approval_policy c with
    | Never =>
        match permission_profile c with
        | Profiles.Disabled | Profiles.External _ => Allow
        | Profiles.Managed _ _ => Forbidden
        end
    | OnRequest | UnlessTrusted | Granular _ => Prompt
    end
  else
    match approval_policy c with
    | Never => Allow
    | UnlessTrusted => Prompt
    | OnRequest | Granular _ => decide_restricted c
    end.

(** *** Amendments *)

Definition prompts_by_rule (m : rule_match) : bool := is_policy_match m && (match_decision m == Prompt).
Definition allows_by_rule (m : rule_match) : bool := is_policy_match m && (match_decision m == Allow).

Definition first_heuristics (d : Decision) (ms : list rule_match) : option (list str) :=
  head (omap (fun m => match m with
                       | HeuristicsRuleMatch command d' => if d' == d then Some command else None
                       | PrefixRuleMatch _ _ _ _ => None
                       end) ms).

Definition try_derive_execpolicy_amendment_for_prompt_rules (ms : list rule_match) : option (list str) :=
  if existsb prompts_by_rule ms then None else first_heuristics Prompt ms.

Definition try_derive_execpolicy_amendment_for_allow_rules (ms : list rule_match) : option (list str) :=
  if existsb is_policy_match ms then None else first_heuristics Allow ms.

Definition decision_is (d : Decision) (e : option evaluation) : bool :=
  is_some_and e (fun ev => eval_decision ev == d).

Definition prefix_rule_would_approve_all_commands (exec_policy : policy) (prefix_rule : list str) (cmds : list (list str))
    (fallback : list str -> Decision) (options : MatchOptions) : bool :=
  match add_prefix_rule (S:=S) exec_policy prefix_rule Allow with
  | Err _ => false
  | Ok with_prefix_rule => forallb (fun command => decision_is Allow (check_with_options with_prefix_rule command fallback options)) cmds
  end.

Definition derive_requested_execpolicy_amendment_from_prefix_rule (prefix_rule : option (list str)) (ms : list rule_match)
    (exec_policy : policy) (cmds : list (list str)) (fallback : list str -> Decision) (options : MatchOptions)
    : option (list str) :=
  match prefix_rule with
  | None => None
  | Some prefix =>
      if is_empty prefix then None
      else if existsb (fun banned => (length prefix =? length banned) && (prefix == banned)) BANNED_PREFIX_SUGGESTIONS then None
      else if existsb is_policy_match ms then None
      else if prefix_rule_would_approve_all_commands exec_policy prefix cmds fallback options then Some prefix
      else None
  end.

(** *** Reasons *)

Definition render_shlex_command (args : list str) : str := default (join [SPACE] args) (try_join args).

(** [max_by_key]: the last of the greatest. *)
Fixpoint max_by_key {A} (key : A -> nat) (l : list A) : option A :=
  match l with
  | [] => None
  | x :: l' =>
      match max_by_key key l' with
      | None => Some x
      | Some y => if key x <=? key y then Some y else Some x
      end
  end.

Definition rule_matches_with (d : Decision) (ms : list rule_match) : list (list str * option str) :=
  omap (fun m => match m with
                 | PrefixRuleMatch matched_prefix d' _ justification => if d' == d then Some (matched_prefix, justification) else None
                 | HeuristicsRuleMatch _ _ => None
                 end) ms.

Definition most_specific (d : Decision) (ms : list rule_match) : option (list str * option str) :=
  max_by_key (fun m => length m.1) (rule_matches_with d ms).

Definition derive_prompt_reason (command_args : list str) (e : evaluation) : option str :=
  let command := render_shlex_command command_args in
  match most_specific Prompt (matched_rules e) with
  | Some (_, Some justification) => Some (lit "`" ++ command ++ lit "` requires approval: " ++ justification)
  | Some (_, None) => Some (lit "`" ++ command ++ lit "` requires approval by policy")
  | None => None
  end.

Definition derive_forbidden_reason (command_args : list str) (e : evaluation) : str :=
  let command := render_shlex_command command_args in
  match most_specific Forbidden (matched_rules e) with
  | Some (_, Some justification) => lit "`" ++ command ++ lit "` rejected: " ++ justification
  | Some (matched_prefix, None) =>
      lit "`" ++ command ++ lit "` rejected: policy forbids commands starting with `"
      ++ render_shlex_command matched_prefix ++ lit "`"
  | None => lit "`" ++ command ++ lit "` rejected: blocked by policy"
  end.

(** *** The requirement *)

Record ExecApprovalRequest := mkRequest {
  command : list str;
  req_approval_policy : AskForApproval;
  req_permission_profile : Profiles.PermissionProfile;
  req_windows_sandbox_level : WindowsSandboxLevel;
  req_sandbox_permissions : SandboxPermissions;
  req_prefix_rule : option (list str);
}.

Definition match_options : MatchOptions := mkOptions true.

Definition request_context (req : ExecApprovalRequest) (complex : bool) : UnmatchedCommandContext :=
  mkContext (req_approval_policy req) (req_permission_profile req) (req_windows_sandbox_level req)
    (req_sandbox_permissions req) complex.

Definition request_fallback (req : ExecApprovalRequest) (complex : bool) (cmd : list str) : Decision :=
  render_decision_for_unmatched_command cmd (request_context req complex).

Definition explicitly_allowed (exec_policy : policy) (cmd : list str) : bool :=
  existsb allows_by_rule (matches_for_command_with_options exec_policy cmd None match_options).

(** [None]: the evaluation panics, which does not happen ([requirement_total]). *)
Definition create_exec_approval_requirement_for_command (exec_policy : policy) (req : ExecApprovalRequest)
    : option ExecApprovalRequirement :=
  let parsed := commands_for_exec_policy (command req) in
  let auto_amendment_allowed := negb (used_complex_parsing parsed) in
  let fallback := request_fallback req (used_complex_parsing parsed) in
  match check_multiple_with_options exec_policy (commands parsed) fallback match_options with
  | None => None
  | Some ev =>
      let requested_amendment :=
        if auto_amendment_allowed then
          derive_requested_execpolicy_amendment_from_prefix_rule (req_prefix_rule req) (matched_rules ev) exec_policy
            (commands parsed) fallback match_options
        else None in
      Some
        match eval_decision ev with
        | Forbidden => ForbiddenRequirement (derive_forbidden_reason (command req) ev)
        | Prompt =>
            let prompt_is_rule := existsb prompts_by_rule (matched_rules ev) in
            match prompt_is_rejected_by_policy (req_approval_policy req) prompt_is_rule with
            | Some reason => ForbiddenRequirement reason
            | None =>
                NeedsApproval (derive_prompt_reason (command req) ev)
                  (match requested_amendment with
                   | Some a => Some a
                   | None =>
                       if auto_amendment_allowed then try_derive_execpolicy_amendment_for_prompt_rules (matched_rules ev) else None
                   end)
            end
        | Allow =>
            Skip (forallb (explicitly_allowed exec_policy) (commands parsed))
              (if auto_amendment_allowed then try_derive_execpolicy_amendment_for_allow_rules (matched_rules ev) else None)
        end
  end.

(** ** Updates of the running policy *)

Inductive ExecPolicyUpdateError (IoError : Type) :=
| AppendRule (path : str) (source : PolicyFiles.AmendError IoError)
| JoinBlockingTask
| AddRule (source : Error S).
Arguments AppendRule {IoError} path source.
Arguments JoinBlockingTask {IoError}.
Arguments AddRule {IoError} source.

(** [Path::join] of a relative name. *)
Context (path_join : str -> str -> str).

Definition default_policy_path (codex_home : str) : str := path_join (path_join codex_home RULES_DIR_NAME) DEFAULT_POLICY_FILE.

Section Updates.
Context {F IoError : Type} `{PolicyFiles.RulesFs F IoError}.
Context (parent : str -> option str) (json_string : str -> option str) (show_error : Error S -> str).

Definition semaphore_closed : Error S := InvalidRule (lit "exec policy update semaphore closed").

(** Is the amendment already allowed by the rules of the policy? *)
Definition already_allowed (current_policy : policy) (amendment : list str) : bool :=
  match check_multiple_with_options current_policy [amendment] (fun _ => Forbidden) match_options with
  | Some ev => (eval_decision ev == Allow) && existsb allows_by_rule (matched_rules ev)
  | None => false
  end.

(** The file system and the policy after an update.  The updates run one at a
    time under the semaphore; [closed] is whether it is, [joined] whether the
    blocking task ends without a panic. *)
Definition append_amendment_and_update (closed joined : bool) (fs : F) (current : policy) (codex_home : str) (amendment : list str)
    : F * policy * result unit (ExecPolicyUpdateError IoError) :=
  if closed then (fs, current, Err (AddRule semaphore_closed))
  else
    let policy_path := default_policy_path codex_home in
    let '(fs, appended) := PolicyFiles.blocking_append_allow_prefix_rule parent json_string fs policy_path amendment in
    if negb joined then (fs, current, Err JoinBlockingTask)
    else
      match appended with
      | Err e => (fs, current, Err (AppendRule policy_path e))
      | Ok _ =>
          if already_allowed current amendment then (fs, current, Ok tt)
          else
            match add_prefix_rule current amendment Allow with
            | Err e => (fs, current, Err (AddRule e))
            | Ok updated => (fs, updated, Ok tt)
            end
      end.

Definition append_network_rule_and_update (closed joined : bool) (fs : F) (current : policy) (codex_home host : str)
    (protocol : NetworkRuleProtocol) (d : Decision) (justification : option str)
    : F * policy * result unit (ExecPolicyUpdateError IoError) :=
  if closed then (fs, current, Err (AddRule semaphore_closed))
  else
    let policy_path := default_policy_path codex_home in
    let '(fs, appended) :=
      PolicyFiles.blocking_append_network_rule (S:=S) parent json_string show_error fs policy_path host protocol d justification in
    if negb joined then (fs, current, Err JoinBlockingTask)
    else
      match appended with
      | Err e => (fs, current, Err (AppendRule policy_path e))
      | Ok _ =>
          match add_network_rule current host protocol d justification with
          | Err e => (fs, current, Err (AddRule e))
          | Ok updated => (fs, updated, Ok tt)
          end
      end.

End Updates.
End Approval.

(** ** Loading the policy *)

Inductive ExecPolicyError {IoError S : Type} :=
| ReadDir (dir : str) (source : IoError)
| ReadFile (path : str) (source : IoError)
| ParsePolicy (path : str) (source : Error S).
Arguments ExecPolicyError : clear implicits.

(** The directories of rules: the entries of one, each with its path and
    whether it is a file, and the contents of a file. *)
Class RulesDirs (IoError : Type) := {
  dir_not_found : IoError -> bool;
  read_dir : str -> result (list (result (str * result bool IoError) IoError)) IoError;
  read_file : str -> result str IoError;
}.

(** [Path::extension] of a path. *)
Definition extension (path : str) : option str :=
  match Shell.file_name path with
  | None => None
  | Some name =>
      match rsplit_once_char 46 name with
      | Some (before, after) => if is_empty before then None else Some after
      | None => None
      end
  end.

Definition str_le (a b : str) : Prop := str_compare a b <> Gt.

#[export] Instance str_le_dec : RelDecision str_le.
Proof. intros a b. unfold str_le. apply _. Defined.

Section Loading.
Context {path : Type} `{AbsolutePaths path} {V : Type} `{PolicyFiles.StarlarkValues V} {S IoError : Type} `{RulesDirs IoError}.

Fixpoint policy_entries (dir : str) (entries : list (result (str * result bool IoError) IoError))
    : result (list str) (ExecPolicyError IoError S) :=
  match entries with
  | [] => Ok []
  | Err e :: _ => Err (ReadDir dir e)
  | Ok (_, Err e) :: _ => Err (ReadDir dir e)
  | Ok (p, Ok is_file) :: entries' =>
      let? policy_paths := policy_entries dir entries' in
      Ok (if (extension p == Some RULE_EXTENSION) && is_file then p :: policy_paths else policy_paths)
  end.

(** The paths in a directory differ in their names only, so the order of paths
    is that of strings. *)
Definition collect_policy_files (dir : str) : result (list str) (ExecPolicyError IoError S) :=
  match read_dir dir with
  | Err e => if dir_not_found e then Ok [] else Err (ReadDir dir e)
  | Ok entries =>
      let? policy_paths := policy_entries dir entries in
      Ok (merge_sort str_le policy_paths)
  end.

Context (parent : str -> option str) (path_join : str -> str -> str).
Context (shlex_split : str -> option (list str)) (path_error : str -> str) (try_join : list str -> option str)
  (debug_rule : PrefixRule -> str) (debug_match : RuleMatch (path:=path) -> str)
  (eval_module : str -> str -> result (list (PolicyFiles.Call V * option PolicyFiles.FileSpan) * option S) S)
  (builtin_error : Error S -> S).
Notation stack := (ConfigLayers.ConfigLayerStack (option (Policy (path:=path)))).
Notation parse := (PolicyFiles.parse shlex_split path_error try_join debug_rule debug_match eval_module builtin_error).

Definition layer_is_skipped (config_stack : stack) (layer : ConfigLayers.ConfigLayerEntry) : bool :=
  ConfigLayers.ignore_user_and_project_exec_policy_rules config_stack
  && match ConfigLayers.name layer with ConfigLayers.User _ _ | ConfigLayers.Project _ => true | _ => false end.

Fixpoint layer_policy_files (config_stack : stack) (layers : list ConfigLayers.ConfigLayerEntry)
    : result (list str) (ExecPolicyError IoError S) :=
  match layers with
  | [] => Ok []
  | layer :: layers' =>
      let? here :=
        if layer_is_skipped config_stack layer then Ok []
        else match ConfigLayers.config_folder parent layer with
             | Some folder => collect_policy_files (path_join folder RULES_DIR_NAME)
             | None => Ok []
             end in
      let? later := layer_policy_files config_stack layers' in
      Ok (here ++ later)
  end.

Fixpoint parse_policy_files (builder : PolicyFiles.PolicyBuilder path) (policy_paths : list str)
    : result (PolicyFiles.PolicyBuilder path) (ExecPolicyError IoError S) :=
  match policy_paths with
  | [] => Ok builder
  | policy_path :: policy_paths' =>
      match read_file policy_path with
      | Err e => Err (ReadFile policy_path e)
      | Ok contents =>
          match parse builder policy_path contents with
          | (_, Err e) => Err (ParsePolicy policy_path e)
          | (builder, Ok _) => parse_policy_files builder policy_paths'
          end
      end
  end.

(** The requirements of the stack are those on the policy. *)
Definition load_exec_policy (config_stack : stack) : result (Policy (path:=path)) (ExecPolicyError IoError S) :=
  let? policy_paths :=
    layer_policy_files config_stack (ConfigLayers.get_layers config_stack ConfigLayers.LowestPrecedenceFirst false) in
  let? builder := parse_policy_files PolicyFiles.builder_new policy_paths in
  let policy := PolicyFiles.build builder in
  match ConfigLayers.requirements config_stack with
  | None => Ok policy
  | Some requirements_policy => Ok (merge_overlay policy requirements_policy)
  end.

Definition load_exec_policy_with_warning (config_stack : stack)
    : result (Policy (path:=path) * option (ExecPolicyError IoError S)) (ExecPolicyError IoError S) :=
  match load_exec_policy config_stack with
  | Ok policy => Ok (policy, None)
  | Err (ParsePolicy p e) => Ok (policy_empty, Some (ParsePolicy p e))
  | Err e => Err e
  end.

Definition check_execpolicy_for_warnings (config_stack : stack)
    : result (option (ExecPolicyError IoError S)) (ExecPolicyError IoError S) :=
  let? loaded := load_exec_policy_with_warning config_stack in Ok loaded.2.

(** [ExecPolicyManager::load]: the warning is logged. *)
Definition manager_load (config_stack : stack) : result (Policy (path:=path)) (ExecPolicyError IoError S) :=
  let? loaded := load_exec_policy_with_warning config_stack in Ok loaded.1.

(** A child agent shares the policy of its parent when both would load it from the same places. *)
Definition exec_policy_config_folders (config_stack : stack) : list str :=
  omap (ConfigLayers.config_folder parent) (ConfigLayers.get_layers config_stack ConfigLayers.LowestPrecedenceFirst false).

Context (policy_eqb : option (Policy (path:=path)) -> option (Policy (path:=path)) -> bool).

Definition child_uses_parent_exec_policy (parent_stack child_stack : stack) : bool :=
  (exec_policy_config_folders parent_stack == exec_policy_config_folders child_stack)
  && (ConfigLayers.ignore_user_and_project_exec_policy_rules parent_stack
      == ConfigLayers.ignore_user_and_project_exec_policy_rules child_stack)
  && policy_eqb (ConfigLayers.requirements parent_stack) (ConfigLayers.requirements child_stack).

(** ** Messages *)

(** [s.rsplit_once(p)]: around the last occurrence. *)
Fixpoint rsplit_once_str (p s : str) : option (str * str) :=
  match s with
  | [] => if is_empty p then Some ([], []) else None
  | c :: s' =>
      match rsplit_once_str p s' with
      | Some (a, b) => Some (c :: a, b)
      | None => option_map (fun b => ([], b)) (strip_prefix p s)
      end
  end.

Context (show_error : Error S -> str) (starlark_span : S -> option (str * TextPosition * TextPosition))
  (show_load_error : ExecPolicyError IoError S -> str).

Definition exec_policy_message_for_display (source : Error S) : str :=
  let message := show_error source in
  match find_first (fun line => starts_with (lit "error: ") (trim_start line)) (lines message) with
  | Some line => line
  | None =>
      match head (lines message) ≫= rsplit_once_str (lit ": starlark error: ") with
      | Some (_, detail) => trim detail
      | None => trim (default [] (head (lines message)))
      end
  end.

Definition parse_starlark_line_from_message (message : str) : option (str * nat) :=
  first_line ← head (lines message);
  '(path_and_position, _) ← rsplit_once_str (lit ": starlark error:") (trim first_line);
  '(rest, column) ← rsplit_once_char 58 path_and_position;
  _ ← LegacyArgs.parse_u64 column;
  '(path, line) ← rsplit_once_char 58 rest;
  line ← LegacyArgs.parse_u64 line;
  if (line =? 0)%N then None else Some (path, N.to_nat line).

Definition format_exec_policy_error_with_source (e : ExecPolicyError IoError S) : str :=
  match e with
  | ParsePolicy path source =>
      let structured_location :=
        option_map (fun l => (loc_path l, line (start (loc_range l)))) (location starlark_span source) in
      let parsed_location := parse_starlark_line_from_message (show_error source) in
      let location :=
        match structured_location, parsed_location with
        | Some (p, n), Some (parsed_path, parsed_line) =>
            if (n =? 1) && (1 <? parsed_line) then Some (parsed_path, parsed_line) else Some (p, n)
        | Some structured, None => Some structured
        | None, parsed => parsed
        end in
      let message := exec_policy_message_for_display source in
      match location with
      | Some (p, n) =>
          p ++ lit ":" ++ show_nat n ++ lit ": " ++ message ++ lit " (problem is on or around line " ++ show_nat n ++ lit ")"
      | None => path ++ lit ": " ++ message
      end
  | _ => show_load_error e
  end.

End Loading.
End ExecApproval.
