(* ===== verification/ExecApprovalFacts.v ===== *)
(** Theorems on approval requirements: what may run without asking, what may
    leave the sandbox, when the user is asked, what an accepted amendment
    changes, and what a failing policy file leads to. *)

From stdpp Require Import base list option numbers strings gmap sorting.
From S2P Require Import Prelude RustStr ShellTree CommandSafety AbsolutePath Permissions Profiles ExecPolicy ExecPolicyFacts PolicyFiles ConfigLayers ExecApproval.

Module ExecApprovalFacts.
Import ExecPolicy ExecPolicyFacts ExecApproval.
Open Scope rust_scope.

Section Approval.
Context {path : Type} `{HA : AbsolutePaths path} {S : Type}.
Context (linux : bool) (try_parse_shell : str -> option Shell.Tree) (try_join : list str -> option str).
Notation policy := (Policy (path:=path)).
Notation rule_match := (RuleMatch (path:=path)).
Notation requirement := (create_exec_approval_requirement_for_command (S:=S) linux try_parse_shell try_join).
Notation fallback := (request_fallback linux try_parse_shell).
Notation parsed req := (commands_for_exec_policy try_parse_shell (command req)).

(** ** Matches of a command *)

(** The rules that match a command, without the fallback. *)
Definition rule_hits (p : policy) (cmd : list str) : list rule_match :=
  matches_for_command_with_options p cmd None match_options.

Lemma matches_fallback (p : policy) cmd fb :
  matches_for_command_with_options p cmd (Some fb) match_options =
  if is_empty (rule_hits p cmd) then [HeuristicsRuleMatch cmd (fb cmd)] else rule_hits p cmd.
Proof. reflexivity. Qed.

Lemma host_match_prefix (p : policy) cmd m :
  m ∈ match_host_executable_rules p cmd -> is_policy_match m = true.
Proof.
  unfold match_host_executable_rules. destruct (head cmd); [|set_solver]. destruct (path_try_from _); [|set_solver].
  destruct (executable_path_lookup_key _); [|set_solver]. destruct (rules_by_program p !! _); [|set_solver].
  destruct (is_some_and _ _); [set_solver|]. intros (m0 & -> & Hm)%list_elem_of_fmap.
  apply list_elem_of_omap in Hm as (r & _ & Hr). unfold rule_matches in Hr. destruct (matches_prefix _ _); by simplify_eq/=.
Qed.

(** Without a fallback only rules match. *)
Lemma rule_hits_policy (p : policy) cmd m : m ∈ rule_hits p cmd -> is_policy_match m = true.
Proof.
  unfold rule_hits, matches_for_command_with_options. cbn [match_options resolve_host_executables].
  destruct (match_exact_rules p cmd) as [[|x l]|] eqn:E; cbn [non_empty].
  - destruct (match_host_executable_rules p cmd) as [|y k] eqn:Eh; cbn; [set_solver|].
    rewrite <- Eh. apply host_match_prefix.
  - intros Hm. destruct (exact_match_prefix p cmd m) as (? & ? & ? & ? & ->); [|done]. unfold exact_matches. by rewrite E.
  - destruct (match_host_executable_rules p cmd) as [|y k] eqn:Eh; cbn; [set_solver|].
    rewrite <- Eh. apply host_match_prefix.
Qed.

(** ** The evaluation of a call *)

Lemma commands_not_empty cmd : commands (commands_for_exec_policy try_parse_shell cmd) <> [].
Proof.
  unfold commands_for_exec_policy. destruct (Shell.parse_shell_lc_plain_commands _ _) as [[|x l]|]; cbn [non_empty]; try done;
    by destruct (Shell.parse_shell_lc_single_command_prefix _ _).
Qed.

Lemma check_multiple_ev (p : policy) cmds fb :
  cmds <> [] ->
  exists ev, check_multiple_with_options p cmds fb match_options = Some ev /\
    (forall m, m ∈ matched_rules ev <-> exists cmd, cmd ∈ cmds /\ m ∈ matches_for_command_with_options p cmd (Some fb) match_options) /\
    (exists m, m ∈ matched_rules ev /\ match_decision m = eval_decision ev) /\
    (forall m, m ∈ matched_rules ev -> rank (match_decision m) <= rank (eval_decision ev)).
Proof.
  intros Hne. unfold check_multiple_with_options.
  set (ms := mjoin _). assert (Hms : forall m, m ∈ ms <-> exists cmd, cmd ∈ cmds /\ m ∈ matches_for_command_with_options p cmd (Some fb) match_options).
  { intros m. unfold ms. rewrite list_elem_of_join. split.
    - intros (l & Hm & (cmd & -> & Hc)%list_elem_of_fmap). eauto.
    - intros (cmd & Hc & Hm). eexists. split; [exact Hm|]. apply list_elem_of_fmap. eauto. }
  assert (ms <> []) as Hmne.
  { destruct cmds as [|cmd cmds]; [done|]. pose proof (matches_non_empty p cmd fb match_options) as Hn.
    destruct (matches_for_command_with_options p cmd (Some fb) match_options) as [|m k] eqn:E; [done|].
    intros Hms0. assert (m ∈ ms) by (apply Hms; exists cmd; rewrite E; set_solver). rewrite Hms0 in *. set_solver. }
  destruct (from_matches_Some ms Hmne) as [d E]. eexists. split; [exact E|]. cbn [matched_rules eval_decision].
  split; [done|]. unfold from_matches in E. destruct (max_decision _) as [d'|] eqn:Ed; simplify_eq.
  apply max_decision_Some in Ed as [Hin Hmax]. split.
  - apply list_elem_of_fmap in Hin as (m & -> & Hm). eauto.
  - intros m Hm. apply Hmax, list_elem_of_fmap. eauto.
Qed.

(** The requirement is always computed: the evaluation does not panic. *)
Lemma requirement_total (p : policy) req : is_some (requirement p req) = true.
Proof.
  unfold create_exec_approval_requirement_for_command.
  destruct (check_multiple_ev p (commands (parsed req)) (fallback req (used_complex_parsing (parsed req)))) as (ev & -> & _);
    [apply commands_not_empty|done].
Qed.

(** How each kind of requirement comes about. *)
Lemma skip_decision (p : policy) req b a ev :
  check_multiple_with_options p (commands (parsed req)) (fallback req (used_complex_parsing (parsed req))) match_options = Some ev ->
  requirement p req = Some (Skip b a) ->
  eval_decision ev = Allow /\ b = forallb (explicitly_allowed p) (commands (parsed req)).
Proof.
  unfold create_exec_approval_requirement_for_command. intros ->. intros [= E].
  destruct (eval_decision ev); [|by destruct (prompt_is_rejected_by_policy _ _)|done]. by simplify_eq.
Qed.

Lemma approval_decision (p : policy) req r a ev :
  check_multiple_with_options p (commands (parsed req)) (fallback req (used_complex_parsing (parsed req))) match_options = Some ev ->
  requirement p req = Some (NeedsApproval r a) ->
  eval_decision ev = Prompt /\
  prompt_is_rejected_by_policy (req_approval_policy req) (existsb prompts_by_rule (matched_rules ev)) = None.
Proof.
  unfold create_exec_approval_requirement_for_command. intros ->. intros [= E].
  destruct (eval_decision ev); try done. by destruct (prompt_is_rejected_by_policy _ _) eqn:Er; simplify_eq.
Qed.

(** ** What runs without asking *)

(** Every rule that matches the command allows it, and one does. *)
Definition allowed_by_rules (p : policy) (cmd : list str) : Prop :=
  rule_hits p cmd <> [] /\ Forall (fun m => match_decision m = Allow) (rule_hits p cmd).

(** No rule matches; the reasons to let the command run all the same. *)
Definition allowed_unmatched (req : ExecApprovalRequest) (complex : bool) (cmd : list str) : Prop :=
  match req_approval_policy req with
  | UnlessTrusted => CommandSafety.is_known_safe_command linux try_parse_shell cmd = true /\ complex = false
  | Never =>
      CommandSafety.command_might_be_dangerous try_parse_shell cmd = false \/
      match req_permission_profile req with Profiles.Managed _ _ => False | _ => True end
  | OnRequest | Granular _ =>
      CommandSafety.command_might_be_dangerous try_parse_shell cmd = false /\
      (Permissions.kind (Profiles.file_system_sandbox_policy (req_permission_profile req)) = Permissions.Restricted ->
       req_sandbox_permissions req = UseDefault)
  end.

Lemma fallback_allow req complex cmd : fallback req complex cmd = Allow <-> allowed_unmatched req complex cmd.
Proof.
  unfold request_fallback, render_decision_for_unmatched_command, allowed_unmatched, decide_restricted.
  cbn [request_context approval_policy permission_profile windows_sandbox_level sandbox_permissions complex_parsing cfg_windows andb].
  rewrite !orb_false_r.
  destruct (req_approval_policy req) as [| |g|]; cbn [bool_decide decide_rel];
    destruct (CommandSafety.command_might_be_dangerous try_parse_shell cmd);
    destruct (CommandSafety.is_known_safe_command linux try_parse_shell cmd); destruct complex; cbn;
    try (destruct (Permissions.kind _)); try (destruct (req_sandbox_permissions req)); try (destruct (req_permission_profile req));
    cbn; naive_solver.
Qed.

(** C5: What runs without a question.  When no approval is needed, each command
    of the call, inside a script too, is either allowed by every rule that
    matches it or matched by none and allowed for the policy in force: with
    [UnlessTrusted] it is on the safe list and was parsed plainly; with
    [OnRequest] or [Granular] it is not dangerous and asks for no more than the
    restricted sandbox; with [Never] it is not dangerous, or the sandbox was
    switched off.  And the call may leave the sandbox only when rules allow all
    of its commands. *)
Theorem skip_only_allowed (p : policy) req b a :
  requirement p req = Some (Skip b a) ->
  Forall (fun cmd => allowed_by_rules p cmd \/
            rule_hits p cmd = [] /\ allowed_unmatched req (used_complex_parsing (parsed req)) cmd) (commands (parsed req)) /\
  (b = true -> Forall (allowed_by_rules p) (commands (parsed req))).
Proof.
  intros Hreq. set (cx := used_complex_parsing (parsed req)) in *.
  destruct (check_multiple_ev p (commands (parsed req)) (fallback req cx)) as (ev & Hev & Hms & _ & Hmax); [apply commands_not_empty|].
  destruct (skip_decision p req b a ev Hev Hreq) as [Hd ->]. rewrite Hd in Hmax.
  assert (Hall : forall cmd m, cmd ∈ commands (parsed req) -> m ∈ matches_for_command_with_options p cmd (Some (fallback req cx)) match_options ->
    match_decision m = Allow).
  { intros cmd m Hc Hm. specialize (Hmax m (proj2 (Hms m) (ex_intro _ cmd (conj Hc Hm)))). by destruct (match_decision m); cbn in *; [|lia..]. }
  assert (Hhits : forall cmd, cmd ∈ commands (parsed req) -> rule_hits p cmd <> [] -> allowed_by_rules p cmd).
  { intros cmd Hc Hne. split; [done|]. apply Forall_forall. intros m Hm. apply (Hall cmd); [done|].
    rewrite matches_fallback, (proj2 (is_empty_false _)); done. }
  split.
  - apply Forall_forall. intros cmd Hc. destruct (rule_hits p cmd) as [|x l] eqn:E.
    + right. split; [done|]. apply fallback_allow. rewrite <- (Hall cmd (HeuristicsRuleMatch cmd (fallback req cx cmd))); [done|done|].
      rewrite matches_fallback, E. cbn. set_solver.
    + left. apply Hhits; [done|]. by rewrite E.
  - intros Hb. apply Forall_forall. intros cmd Hc. apply Hhits; [done|].
    rewrite forallb_forall in Hb. specialize (Hb cmd (proj1 (list_elem_of_In _ _) Hc)). unfold explicitly_allowed in Hb.
    fold (rule_hits p cmd) in Hb. by destruct (rule_hits p cmd).
Qed.

(** When the user is asked: never with [Never]; with [Granular] only for
    the kinds of prompts that it lets through, those of a rule or those of the
    sandbox; and only when no rule forbids a command. *)
Theorem prompts_respect_policy (p : policy) req r a :
  requirement p req = Some (NeedsApproval r a) ->
  req_approval_policy req <> Never /\
  (forall g, req_approval_policy req = Granular g ->
     if existsb (fun cmd => existsb prompts_by_rule (rule_hits p cmd)) (commands (parsed req)) then rules g = true
     else sandbox_approval g = true) /\
  (forall cmd m, cmd ∈ commands (parsed req) -> m ∈ rule_hits p cmd -> match_decision m <> Forbidden).
Proof.
  intros Hreq. set (cx := used_complex_parsing (parsed req)) in *.
  destruct (check_multiple_ev p (commands (parsed req)) (fallback req cx)) as (ev & Hev & Hms & _ & Hmax); [apply commands_not_empty|].
  destruct (approval_decision p req r a ev Hev Hreq) as [Hd Hrej]. rewrite Hd in Hmax.
  assert (Hsame : existsb prompts_by_rule (matched_rules ev) =
                  existsb (fun cmd => existsb prompts_by_rule (rule_hits p cmd)) (commands (parsed req))).
  { apply eq_iff_eq_true. rewrite !existsb_exists. setoid_rewrite existsb_exists. split.
    - intros (m & Hm%list_elem_of_In & Hp). apply Hms in Hm as (cmd & Hc & Hm). exists cmd. split; [by apply list_elem_of_In|].
      exists m. split; [|done]. rewrite matches_fallback in Hm. destruct (is_empty _); [|by apply list_elem_of_In].
      apply list_elem_of_singleton in Hm as ->. done.
    - intros (cmd & Hc%list_elem_of_In & m & Hm%list_elem_of_In & Hp). exists m. split; [|done].
      apply list_elem_of_In, Hms. exists cmd. split; [done|]. rewrite matches_fallback.
      destruct (rule_hits p cmd); [by apply not_elem_of_nil in Hm|done]. }
  rewrite Hsame in Hrej. unfold prompt_is_rejected_by_policy in Hrej. split; [by destruct (req_approval_policy req)|]. split.
  - intros g Hg. rewrite Hg in Hrej. destruct (existsb _ _); [by destruct (rules g)|by destruct (sandbox_approval g)].
  - intros cmd m Hc Hm Hf. assert (m ∈ matched_rules ev) as Hin.
    { apply Hms. exists cmd. split; [done|]. rewrite matches_fallback. destruct (rule_hits p cmd); [set_solver|done]. }
    apply Hmax in Hin. rewrite Hf in Hin. cbn in Hin. lia.
Qed.

(** ** What an amendment changes *)

Lemma exact_matches_added (p p' : policy) c rest d cmd :
  add_prefix_rule (S:=S) p (c :: rest) d = Ok p' ->
  exact_matches p' cmd = exact_matches p cmd ++
    (if decide (head cmd = Some c) then omap (fun r => rule_matches r cmd) [mkRule (mkPattern c (List.map Single rest)) d None] else []).
Proof.
  cbn [add_prefix_rule]. intros [= <-]. rewrite !exact_matches_rules. destruct (head cmd) as [c'|]; [|by rewrite decide_False].
  cbn [rules_by_program]. rewrite rules_for_insert, omap_app. destruct (decide (c' = c)) as [->|Hne].
  - by rewrite decide_True.
  - by rewrite decide_False by congruence.
Qed.

(** A command that a prefix rule is about: as it is written, or by the name of its program. *)
Definition covers (prefix cmd : list str) : Prop :=
  prefix `prefix_of` cmd \/
  exists program basename, head cmd ≫= path_try_from = Some program /\ executable_path_lookup_key program = Some basename
    /\ prefix `prefix_of` (basename :: drop 1 cmd).

Lemma instance_of_tokens c rest d ts : instance_of (pattern (mkRule (mkPattern c (List.map Single rest)) d None)) ts <-> ts = c :: rest.
Proof.
  split.
  - intros (tl & -> & Hf). f_equal. cbn [pattern first ExecPolicy.rest] in Hf. revert tl Hf.
    induction rest as [|x rest IH]; intros tl Hf; inversion Hf as [|? t ? tl' Ht Hf']; subst; [done|]. apply list_elem_of_singleton in Ht. f_equal; [done|by apply IH].
  - intros ->. exists rest. split; [done|]. cbn [pattern ExecPolicy.rest]. induction rest as [|x rest IH]; [constructor|]. constructor; [by apply list_elem_of_singleton|done].
Qed.

(** The rule that is added for a prefix. *)
Notation added_rule c rest d := (mkRule (mkPattern c (List.map Single rest)) d None).

Lemma added_rule_matches c rest d cmd :
  match rule_matches (path:=path) (added_rule c rest d) cmd with
  | Some m => (c :: rest) `prefix_of` cmd /\ match_decision m = d
  | None => ~ (c :: rest) `prefix_of` cmd
  end.
Proof.
  unfold rule_matches. destruct (matches_prefix _ cmd) as [ts|] eqn:E.
  - apply matches_prefix_spec in E as [->%instance_of_tokens [suffix ->]]. split; [by exists suffix|done].
  - intros [suffix ->]. rewrite (proj2 (matches_prefix_spec _ _ (c :: rest))) in E; [done|]. split; [by apply instance_of_tokens|by exists suffix].
Qed.

Lemma added_hits c rest cmd :
  Forall (fun m => match_decision m = Allow) (omap (fun r => rule_matches (path:=path) r cmd) [added_rule c rest Allow])
  /\ (omap (fun r => rule_matches (path:=path) r cmd) [added_rule c rest Allow] <> [] <-> (c :: rest) `prefix_of` cmd).
Proof.
  pose proof (added_rule_matches c rest Allow cmd) as H. cbn [omap list_omap]. destruct (rule_matches _ cmd); [|by split].
  destruct H as [Hp Hd]. split; [by repeat constructor|done].
Qed.

(** The host rules of a command, before the gate of the configured paths. *)
Lemma host_matches_added (p p' : policy) c rest cmd :
  add_prefix_rule (S:=S) p (c :: rest) Allow = Ok p' ->
  exists added, match_host_executable_rules p' cmd = match_host_executable_rules p cmd ++ added /\
    Forall (fun m => match_decision m = Allow) added /\ (added <> [] -> covers (c :: rest) cmd).
Proof.
  cbn [add_prefix_rule]. intros [= <-]. unfold match_host_executable_rules, covers.
  destruct (head cmd) as [f|]; [|by exists []]. cbn [mbind option_bind]. destruct (path_try_from f) as [q|]; [|by exists []].
  destruct (executable_path_lookup_key q) as [b|] eqn:Eb; [|by exists []].
  cbn [rules_by_program host_executables_by_name]. unfold multimap_insert. destruct (decide (b = c)) as [->|Hne].
  2: { rewrite lookup_insert_ne by done. exists []. by rewrite app_nil_r. }
  rewrite lookup_insert_eq.
  set (hit := List.map (fun m => with_resolved_program m q) (omap (fun r => rule_matches r (c :: drop 1 cmd)) [added_rule c rest Allow])).
  destruct (added_hits c rest (c :: drop 1 cmd)) as [Hd Hp].
  assert (Hhit : Forall (fun m => match_decision m = Allow) hit /\ (hit <> [] -> (c :: rest) `prefix_of` (c :: drop 1 cmd))).
  { split; [|intros Hne; apply Hp; intros E; apply Hne; unfold hit; by rewrite E].
    apply Forall_forall. intros m (m0 & -> & Hm)%list_elem_of_fmap. rewrite Forall_forall in Hd. specialize (Hd _ Hm). by destruct m0. }
  destruct Hhit as [Hh1 Hh2].
  destruct (rules_by_program p !! c) as [rs|]; cbn [default from_option id]; destruct (is_some_and _ _); try by exists [].
  - exists hit. rewrite omap_app, map_app. split_and!; [done..|]. intros Hn. right. by exists q, c; auto.
  - exists hit. split_and!; [done..|]. intros Hn. right. by exists q, c; auto.
Qed.

Lemma max_decision_allow_app (l k : list Decision) d :
  max_decision l = Some d -> Forall (eq Allow) k -> max_decision (l ++ k) = Some d.
Proof.
  intros Hl Hk. rewrite max_decision_app, Hl. destruct (max_decision k) as [e|] eqn:E; [|done].
  apply max_decision_Some in E as [He _]. rewrite Forall_forall in Hk. rewrite <- (Hk e He). by destruct d.
Qed.

Lemma matches_allow_app (l k : list rule_match) ev :
  from_matches l = Some ev -> Forall (fun m => match_decision m = Allow) k ->
  exists ev', from_matches (l ++ k) = Some ev' /\ eval_decision ev' = eval_decision ev.
Proof.
  unfold from_matches. rewrite map_app. destruct (max_decision (List.map match_decision l)) as [d|] eqn:E; [|done]. intros [= <-] Hk.
  rewrite (max_decision_allow_app _ _ d E); [by eexists|]. apply Forall_forall. intros e (m & -> & Hm)%list_elem_of_fmap.
  rewrite Forall_forall in Hk. by rewrite Hk.
Qed.

Lemma rule_matches_decision r cmd (m : rule_match) : rule_matches r cmd = Some m -> match_decision m = decision r.
Proof. unfold rule_matches. by destruct (matches_prefix _ _); intros; simplify_eq/=. Qed.

Lemma rule_hits_cases (p : policy) cmd :
  rule_hits p cmd = if is_empty (exact_matches p cmd) then match_host_executable_rules p cmd else exact_matches p cmd.
Proof.
  unfold rule_hits, matches_for_command_with_options, exact_matches. cbn [match_options resolve_host_executables].
  destruct (match_exact_rules p cmd) as [[|x l]|]; cbn; [|done|]; by destruct (match_host_executable_rules p cmd).
Qed.

Lemma from_matches_allow (l : list rule_match) ev :
  from_matches l = Some ev -> Forall (fun m => match_decision m = Allow) l -> eval_decision ev = Allow.
Proof.
  unfold from_matches. destruct (max_decision _) as [d|] eqn:Em; [|done]. intros [= <-] Hl. cbn.
  apply max_decision_Some in Em as [(m & -> & Hm)%list_elem_of_fmap _]. rewrite Forall_forall in Hl. by apply Hl.
Qed.

Lemma check_Some (p : policy) cmd fb : exists ev, check_with_options p cmd fb match_options = Some ev.
Proof.
  unfold check_with_options. rewrite matches_fallback. destruct (rule_hits p cmd) as [|x l]; cbn [is_empty].
  - destruct (from_matches_Some [HeuristicsRuleMatch cmd (fb cmd) : rule_match]) as [d ->]; eauto.
  - destruct (from_matches_Some (x :: l)) as [d ->]; eauto.
Qed.

(** What a rule that allows a prefix changes. *)
Lemma added_rule_effect (p p' : policy) prefix fb cmd ev ev' :
  add_prefix_rule (S:=S) p prefix Allow = Ok p' ->
  check_with_options p cmd fb match_options = Some ev -> check_with_options p' cmd fb match_options = Some ev' ->
  (eval_decision ev' = eval_decision ev \/ eval_decision ev' = Allow /\ exact_matches p cmd = [] /\ covers prefix cmd)
  /\ (prefix `prefix_of` cmd -> exact_matches p cmd = [] -> eval_decision ev' = Allow).
Proof.
  destruct prefix as [|c rest]; [done|]. intros Hadd. unfold check_with_options. rewrite !matches_fallback, !rule_hits_cases.
  rewrite (exact_matches_added p p' c rest Allow cmd Hadd). destruct (added_hits c rest cmd) as [Hnew Hcov].
  set (hits := omap _ _) in *.
  assert (Hh : (if decide (head cmd = Some c) then hits else []) = hits).
  { case_decide as Hc; [done|]. destruct hits as [|y k]; [done|]. destruct (proj1 Hcov ltac:(done)) as [suffix ->]. done. }
  rewrite Hh, is_empty_app. clear Hh. destruct (exact_matches p cmd) as [|x l] eqn:Ex; cbn [is_empty andb app].
  - destruct hits as [|y k] eqn:En; cbn [is_empty].
    + destruct (host_matches_added p p' c rest cmd Hadd) as (added & -> & Hadd' & Hc). rewrite is_empty_app.
      intros Hev Hev'. split; [|by intros Hp%Hcov].
      destruct (match_host_executable_rules p cmd) as [|z h]; cbn [is_empty andb app] in *.
      * destruct added as [|a added]; cbn [is_empty] in *; [left; congruence|]. right.
        split_and!; [by eapply from_matches_allow|done|by apply Hc].
      * destruct (matches_allow_app (z :: h) added ev Hev Hadd') as (ev1 & E & Hd). left. cbn [app] in E. congruence.
    + intros _ Hev'. assert (eval_decision ev' = Allow) by (by eapply from_matches_allow).
      split; [right; split_and!; [done|done|left; by apply Hcov]|done].
  - intros Hev Hev'. split; [|done]. destruct (matches_allow_app (x :: l) hits ev Hev Hnew) as (ev1 & E & Hd). left. cbn [app] in E. congruence.
Qed.

(** ** Requested amendments *)

Lemma all_allow_skip (p : policy) req :
  (forall cmd, cmd ∈ commands (parsed req) ->
     decision_is Allow (check_with_options p cmd (fallback req (used_complex_parsing (parsed req))) match_options) = true) ->
  exists b a, requirement p req = Some (Skip b a).
Proof.
  intros Hall. set (cx := used_complex_parsing (parsed req)) in *. unfold create_exec_approval_requirement_for_command. fold cx.
  destruct (check_multiple_ev p (commands (parsed req)) (fallback req cx)) as (ev & -> & Hms & (m & Hm & Hd) & _); [apply commands_not_empty|].
  apply Hms in Hm as (cmd & Hc & Hm). specialize (Hall cmd Hc). unfold decision_is, check_with_options in Hall.
  destruct (from_matches _) as [ev1|] eqn:E; [|done]. cbn in Hall. apply bool_decide_eq_true in Hall.
  unfold from_matches in E. destruct (max_decision _) as [d|] eqn:Em; simplify_eq. cbn in Hall. subst d.
  apply (max_decision_ge _ _ (match_decision m)) in Em; [|apply list_elem_of_fmap; eauto].
  assert (eval_decision ev = Allow) as -> by (rewrite <- Hd; by destruct (match_decision m); cbn in *; [|lia..]). eauto.
Qed.

Section Updates.
Context {F IoError : Type} `{PolicyFiles.RulesFs F IoError}.
Context (path_join : str -> str -> str) (parent : str -> option str) (json_string : str -> option str).

Lemma already_allowed_check (p : policy) a fb ev :
  already_allowed p a = true -> check_with_options p a fb match_options = Some ev -> eval_decision ev = Allow.
Proof.
  unfold already_allowed, check_multiple_with_options, check_with_options. cbn [List.map mjoin list_join]. rewrite app_nil_r, !matches_fallback.
  destruct (rule_hits p a) as [|x l] eqn:E; cbn [is_empty].
  - cbn. rewrite andb_false_r. done.
  - destruct (from_matches (x :: l)) as [ev0|]; [|done]. intros [Ha _]%andb_true_iff. apply bool_decide_eq_true in Ha. congruence.
Qed.

(** C22: An accepted amendment can only allow: whatever the update does, the decision
    for a command stays or becomes to allow it, and it changes only for a command that the
    amendment covers, as it is written or by the name of its program, and that has
    no rule for its program as it is written.  After a successful update, which has
    written the rule to the policy file, the amended command itself is allowed
    unless it has such rules; after any other the policy is what it was. *)
Theorem amendment_never_weakens_rules (p p' : policy) a closed joined fs fs' home r :
  append_amendment_and_update (S:=S) path_join parent json_string closed joined fs p home a = (fs', p', r) ->
  (r <> Ok tt -> p' = p) /\
  (r = Ok tt -> PolicyFiles.blocking_append_allow_prefix_rule parent json_string fs (default_policy_path path_join home) a = (fs', Ok tt)) /\
  forall cmd fb ev ev', check_with_options p cmd fb match_options = Some ev -> check_with_options p' cmd fb match_options = Some ev' ->
    (eval_decision ev' = eval_decision ev \/ eval_decision ev' = Allow /\ exact_matches p cmd = [] /\ covers a cmd) /\
    (r = Ok tt -> cmd = a -> exact_matches p a = [] -> eval_decision ev' = Allow).
Proof.
  unfold append_amendment_and_update.
  assert (Hsame : forall q : policy, q = p -> forall cmd fb ev ev', check_with_options p cmd fb match_options = Some ev ->
    check_with_options q cmd fb match_options = Some ev' -> eval_decision ev' = eval_decision ev) by (intros; subst; congruence).
  destruct closed; [intros [= <- <- <-]; split_and!; [done..|]; intros; split; [left; by eapply Hsame|done]|].
  destruct (PolicyFiles.blocking_append_allow_prefix_rule _ _ _ _ _) as [fs1 [[]|e]] eqn:Ea; destruct joined; cbn [negb];
    try (intros [= <- <- <-]; split_and!; [done..|]; intros; split; [left; by eapply Hsame|done]).
  destruct (already_allowed p a) eqn:Eal.
  - intros [= <- <- <-]. split_and!; [done..|]. intros cmd fb ev ev' Hev Hev'. split; [left; by eapply Hsame|]. intros _ -> _.
    by apply (already_allowed_check p a fb).
  - destruct (add_prefix_rule p a Allow) as [p1|e] eqn:Eadd; intros [= <- <- <-]; (split_and!; [done..|]); intros cmd fb ev ev' Hev Hev';
      [|split; [left; by eapply Hsame|done]].
    destruct (added_rule_effect p p1 a fb cmd ev ev' Eadd Hev Hev') as [H1 H2]. split; [done|]. by intros _ -> ?; apply H2.
Qed.

(** The amendment that a tool asked for does its job: once the user has
    accepted it and the update has succeeded, the same call runs without a
    question.  (If the policy already allowed the prefix, nothing is added.) *)
Theorem requested_amendment_works (p p' : policy) req ev a closed joined fs fs' home :
  check_multiple_with_options p (commands (parsed req)) (fallback req (used_complex_parsing (parsed req))) match_options = Some ev ->
  derive_requested_execpolicy_amendment_from_prefix_rule (S:=S) (req_prefix_rule req) (matched_rules ev) p (commands (parsed req))
    (fallback req (used_complex_parsing (parsed req))) match_options = Some a ->
  already_allowed p a = false ->
  append_amendment_and_update (S:=S) path_join parent json_string closed joined fs p home a = (fs', p', Ok tt) ->
  req_prefix_rule req = Some a /\ ~ a ∈ BANNED_PREFIX_SUGGESTIONS /\ exists b am, requirement p' req = Some (Skip b am).
Proof.
  intros Hev Hreq Hal Hup. unfold derive_requested_execpolicy_amendment_from_prefix_rule in Hreq.
  destruct (req_prefix_rule req) as [prefix|]; [|done]. destruct (is_empty prefix); [done|].
  destruct (existsb _ BANNED_PREFIX_SUGGESTIONS) eqn:Eb; [done|]. destruct (existsb is_policy_match _); [done|].
  destruct (prefix_rule_would_approve_all_commands _ _ _ _ _) eqn:Ew; [|done]. injection Hreq as ->. split; [done|]. split.
  - intros Hin. apply not_true_iff_false in Eb. apply Eb. apply existsb_exists. exists a. split; [by apply list_elem_of_In|].
    rewrite Nat.eqb_refl. by apply bool_decide_eq_true.
  - unfold append_amendment_and_update in Hup. destruct closed; [done|].
    destruct (PolicyFiles.blocking_append_allow_prefix_rule _ _ _ _ _) as [fs1 [[]|]]; destruct joined; cbn in Hup; try done.
    rewrite Hal in Hup. unfold prefix_rule_would_approve_all_commands in Ew.
    destruct (add_prefix_rule p a Allow) as [p1|]; [|done]. injection Hup as <- <-.
    apply all_allow_skip. intros cmd Hc. rewrite forallb_forall in Ew. by apply Ew, list_elem_of_In.
Qed.

End Updates.

End Approval.

(** ** Loading *)

Section Loading.
Context {path : Type} `{AbsolutePaths path} {V : Type} `{PolicyFiles.StarlarkValues V} {S IoError : Type} `{RulesDirs IoError}.
Context (parent : str -> option str) (path_join : str -> str -> str).
Context (shlex_split : str -> option (list str)) (path_error : str -> str) (try_join : list str -> option str)
  (debug_rule : PrefixRule -> str) (debug_match : RuleMatch (path:=path) -> str)
  (eval_module : str -> str -> result (list (PolicyFiles.Call V * option PolicyFiles.FileSpan) * option S) S)
  (builtin_error : Error S -> S).
Notation load := (load_exec_policy parent path_join shlex_split path_error try_join debug_rule debug_match eval_module builtin_error).
Notation load_manager := (manager_load parent path_join shlex_split path_error try_join debug_rule debug_match eval_module builtin_error).

(** What the policy files say of a command hides a requirement that is only
    reached by the name of the program: they have a rule for the program as it is
    written, or they list the paths of the program and this one is not among them. *)
Definition hidden_by (p o : Policy (path:=path)) (cmd : list str) : Prop :=
  exact_matches o cmd = [] /\
  (exact_matches p cmd <> [] \/
   exists program basename paths, head cmd ≫= path_try_from = Some program /\ executable_path_lookup_key program = Some basename
     /\ host_executables_by_name o !! basename = None /\ host_executables_by_name p !! basename = Some paths /\ program ∉ paths).

Lemma host_rules_eq (p : Policy (path:=path)) cmd :
  match_host_executable_rules p cmd =
  match head cmd ≫= path_try_from with
  | Some program =>
      match executable_path_lookup_key program with
      | Some basename =>
          if is_some_and (host_executables_by_name p !! basename) (fun paths => negb (existsb (fun q => q == program) paths)) then []
          else List.map (fun m => with_resolved_program m program)
                 (omap (fun r => rule_matches r (basename :: drop 1 cmd)) (rules_for (rules_by_program p) basename))
      | None => []
      end
  | None => []
  end.
Proof.
  unfold match_host_executable_rules, rules_for. destruct (head cmd) as [f|]; [|done]. cbn [mbind option_bind].
  destruct (path_try_from f) as [q|]; [|done]. destruct (executable_path_lookup_key q) as [b|]; [|done].
  destruct (rules_by_program p !! b); [done|]. by destruct (is_some_and _ _).
Qed.

(** A rule of the requirements that matches a command takes part in the decision, unless it is hidden. *)
Lemma overlay_rule_hits (p o : Policy (path:=path)) cmd m :
  m ∈ rule_hits o cmd -> m ∈ rule_hits (merge_overlay p o) cmd \/ hidden_by p o cmd.
Proof.
  rewrite !rule_hits_cases, exact_matches_merge, is_empty_app. unfold hidden_by.
  destruct (exact_matches o cmd) as [|x l] eqn:E; cbn [is_empty]; [|rewrite andb_false_r; set_solver].
  destruct (exact_matches p cmd) as [|y k] eqn:Ep; cbn [is_empty andb]; [|by right; split; [|left]].
  rewrite !host_rules_eq. destruct (head cmd ≫= path_try_from) as [q|]; [|set_solver]. destruct (executable_path_lookup_key q) as [b|] eqn:Eb; [|set_solver].
  cbn [merge_overlay from_parts rules_by_program host_executables_by_name]. rewrite rules_for_merge, omap_app, map_app, lookup_union.
  destruct (host_executables_by_name o !! b) as [paths|] eqn:Eo.
  - replace (Some paths ∪ host_executables_by_name p !! b) with (Some paths) by (by destruct (host_executables_by_name p !! b)).
    cbn [is_some_and]. destruct (negb _); set_solver.
  - cbn [is_some_and]. destruct (host_executables_by_name p !! b) as [paths|] eqn:Ep'; cbn; [|set_solver].
    destruct (existsb (fun q' => q' == q) paths) eqn:Ex; cbn [negb]; [set_solver|]. intros _. right. split; [done|]. right.
    exists q, b, paths. split_and!; [done..|]. intros Hin. apply not_true_iff_false in Ex. apply Ex. apply existsb_exists.
    exists q. split; [by apply list_elem_of_In|by apply bool_decide_eq_true].
Qed.

Definition without_requirements (st : ConfigLayers.ConfigLayerStack (option (Policy (path:=path)))) :
    ConfigLayers.ConfigLayerStack (option (Policy (path:=path))) :=
  ConfigLayers.mkStack (ConfigLayers.layers st) (ConfigLayers.user_layer_index st) None
    (ConfigLayers.ignore_user_and_project_exec_policy_rules st) (ConfigLayers.startup_warnings st).

Lemma load_requirements (st : ConfigLayers.ConfigLayerStack (option (Policy (path:=path)))) o :
  ConfigLayers.requirements st = Some o ->
  load st = match load (without_requirements st) with Ok p => Ok (merge_overlay p o) | Err e => Err e end.
Proof.
  intros Hr. unfold load_exec_policy. rewrite Hr.
  change (ConfigLayers.get_layers (without_requirements st)) with (ConfigLayers.get_layers st).
  assert (Hl : forall ls, layer_policy_files (S:=S) parent path_join (without_requirements st) ls = layer_policy_files (S:=S) parent path_join st ls).
  { induction ls as [|l ls IH]; [done|]. cbn [layer_policy_files]. rewrite IH. done. }
  rewrite Hl. destruct (layer_policy_files _ _ _ _) as [paths|]; [|done]. by destruct (parse_policy_files _ _ _ _ _ _ _ _ _).
Qed.

(** C38: The requirements on the policy are enforced when the policy files can be
    parsed: the decision for a command is at least as strict as each rule of the
    requirements that matches it, as it is written or by the name of its program,
    except that the files hide a rule of the second kind when they have a rule for
    the program as it is written, or list the paths of the program without this
    one.  When some policy file, of the user or of a project too, cannot be parsed,
    the session starts with the empty policy, without the requirements. *)
Theorem requirements_unless_parse_error (st : ConfigLayers.ConfigLayerStack (option (Policy (path:=path)))) o :
  ConfigLayers.requirements st = Some o ->
  match load (without_requirements st) with
  | Ok p =>
      load_manager st = Ok (merge_overlay p o) /\
      forall cmd fb ev m, check_with_options (merge_overlay p o) cmd fb match_options = Some ev -> m ∈ rule_hits o cmd ->
        rank (match_decision m) <= rank (eval_decision ev) \/ hidden_by p o cmd
  | Err (ParsePolicy f e) => load_manager st = Ok policy_empty
  | Err e => load_manager st = Err e
  end.
Proof.
  intros Hr. unfold manager_load, load_exec_policy_with_warning. rewrite (load_requirements st o Hr).
  destruct (load (without_requirements st)) as [p|[| |]]; [|done..]. split; [done|].
  intros cmd fb ev m Hev [Hm|Hm]%(overlay_rule_hits p); [left|by right].
  unfold check_with_options in Hev. rewrite matches_fallback in Hev.
  destruct (rule_hits (merge_overlay p o) cmd) as [|x l] eqn:Eh; [set_solver|]. cbn [is_empty] in Hev.
  unfold from_matches in Hev. destruct (max_decision _) as [d|] eqn:Em; simplify_eq. cbn [eval_decision].
  eapply max_decision_ge; [exact Em|]. apply list_elem_of_fmap. eauto.
Qed.

End Loading.

(** ** Programs given by a relative path *)

Section Relative.
Context `{AbsolutePath.Os}.
#[local] Existing Instance Shell.component_eq_dec.

(** The paths of the repository: [AbsolutePathBuf::try_from], which expands the
    home directory and resolves a relative path against the current directory. *)
Definition os_file_name (q : AbsolutePath.PathBuf) : option str :=
  match last q with Some (Shell.Normal name) => Some name | _ => None end.

#[local] Instance os_paths : AbsolutePaths AbsolutePath.PathBuf := {|
  path_try_from s := AbsolutePath.from_absolute_path (Shell.components s);
  path_file_name := os_file_name;
|}.

Lemma normalize_last (pre : AbsolutePath.PathBuf) name :
  last (AbsolutePath.normalize_path (pre ++ [Shell.Normal name])) = Some (Shell.Normal name).
Proof.
  unfold AbsolutePath.normalize_path. rewrite fold_left_app. cbn [fold_left AbsolutePath.normalize_step AbsolutePath.push_component].
  rewrite is_empty_app, andb_false_r. apply last_snoc.
Qed.

Lemma resolved_file_name first pre name q :
  Shell.components first = pre ++ [Shell.Normal name] ->
  AbsolutePath.is_absolute (Shell.components first) = false ->
  (forall tail, Shell.components first <> Shell.Normal (lit "~") :: tail) ->
  AbsolutePath.from_absolute_path (Shell.components first) = Some q -> os_file_name q = Some name.
Proof.
  intros Hc Habs Hh. unfold AbsolutePath.from_absolute_path.
  assert (AbsolutePath.maybe_expand_home_directory (Shell.components first) = Shell.components first) as ->.
  { unfold AbsolutePath.maybe_expand_home_directory. destruct AbsolutePath.home_dir; [|done].
    destruct (Shell.components first) as [|[| | |n] tail] eqn:E; try done.
    case_bool_decide; [|done]. subst. by destruct (Hh tail). }
  unfold AbsolutePath.absolutize. rewrite Habs. destruct AbsolutePath.current_dir as [cwd|]; [|done]. cbn [option_map]. intros [= <-].
  unfold AbsolutePath.absolutize_from, AbsolutePath.path_with_base. rewrite Habs. unfold AbsolutePath.path_join. rewrite Habs, Hc.
  unfold os_file_name. destruct cwd as [|c0 cwd]; [by rewrite normalize_last|].
  destruct pre as [|[| | |n] pre]; cbn [app]; rewrite ?app_comm_cons, ?app_assoc; try by rewrite normalize_last.
  all: change (?x :: pre ++ [Shell.Normal name]) with ((x :: pre) ++ [Shell.Normal name]); by rewrite app_assoc, normalize_last.
Qed.

(** A program that is given by a relative path, such as a script in the
    working directory, is treated as the program of that name: if no rule is
    written for the path itself and no [host_executable] is configured for the
    name, the rules for the name decide. *)
Theorem relative_program_resolves (p : Policy (path:=AbsolutePath.PathBuf)) first pre name args q :
  Shell.components first = pre ++ [Shell.Normal name] ->
  AbsolutePath.is_absolute (Shell.components first) = false ->
  (forall tail, Shell.components first <> Shell.Normal (lit "~") :: tail) ->
  AbsolutePath.from_absolute_path (Shell.components first) = Some q ->
  exact_matches p (first :: args) = [] -> host_executables_by_name p !! name = None ->
  rule_hits p (first :: args) = List.map (fun m => with_resolved_program m q) (exact_matches p (name :: args)).
Proof.
  intros Hc Habs Hh Hq Hex Hg. rewrite rule_hits_cases, Hex. cbn [is_empty].
  unfold match_host_executable_rules. cbn [head path_try_from os_paths]. rewrite Hq. unfold executable_path_lookup_key.
  cbn [path_file_name os_paths]. rewrite (resolved_file_name first pre name q Hc Habs Hh Hq). cbn [option_map]. unfold executable_lookup_key.
  rewrite exact_matches_rules. cbn [head]. unfold rules_for. destruct (rules_by_program p !! name) as [rs|]; [|done].
  cbn [default from_option]. by rewrite Hg.
Qed.

End Relative.

(** ** Examples *)

#[local] Instance work_os : AbsolutePath.Os := {|
  AbsolutePath.home_dir := None;
  AbsolutePath.current_dir := Some [Shell.RootDir; Shell.Normal (lit "work")];
  AbsolutePath.tmpdir_var := None;
  AbsolutePath.symlink_metadata := fun _ => None;
  AbsolutePath.fs_canonicalize := fun p => Some p;
  AbsolutePath.is_dir := fun _ => false;
  AbsolutePath.is_file := fun _ => false;
  AbsolutePath.exists_path := fun _ => false;
  AbsolutePath.read_to_string := fun _ => None |}.
#[local] Existing Instance os_paths.

Notation sample_policy := (Policy (path:=AbsolutePath.PathBuf)).

Definition allow_make : sample_policy :=
  mkPolicy {[ lit "make" := [mkRule (mkPattern (lit "make") []) Allow None] ]} [] ∅.
Definition no_tree (_ : str) : option Shell.Tree := None.
Definition no_join (_ : list str) : option str := None.
Definition request (words : list string) (ask : AskForApproval) (prefix : option (list str)) : ExecApprovalRequest :=
  mkRequest (List.map lit words) ask Profiles.default_profile LevelDisabled UseDefault prefix.
Notation requirement_of := (create_exec_approval_requirement_for_command (S:=unit) true no_tree no_join).

(** A program of that name in the working directory runs outside the sandbox, unasked. *)
Example planted_program_unsandboxed :
  requirement_of allow_make (request ["./make"; "install"]%string UnlessTrusted None) = Some (Skip true None).
Proof. by vm_compute. Qed.

(** An amendment for an absolute path takes the command away from the rules for its name. *)
Definition forbid_rm_rf : sample_policy :=
  mkPolicy {[ lit "rm" := [mkRule (mkPattern (lit "rm") [Single (lit "-rf")]) Forbidden None] ]} [] ∅.
Definition rm_amended : sample_policy :=
  mkPolicy {[ lit "rm" := [mkRule (mkPattern (lit "rm") [Single (lit "-rf")]) Forbidden None];
              lit "/bin/rm" := [mkRule (mkPattern (lit "/bin/rm") []) Allow None] ]} [] ∅.

Example amendment_shadows_basename :
  add_prefix_rule (S:=unit) forbid_rm_rf [lit "/bin/rm"] Allow = Ok rm_amended /\
  requirement_of forbid_rm_rf (request ["/bin/rm"; "-rf"; "x"]%string OnRequest None)
    = Some (ForbiddenRequirement (lit "`/bin/rm -rf x` rejected: policy forbids commands starting with `rm -rf`")) /\
  requirement_of rm_amended (request ["/bin/rm"; "-rf"; "x"]%string OnRequest None) = Some (Skip true None).
Proof. by vm_compute. Qed.

(** *** Witnesses *)

Lemma skip_only_allowed_witness :
  allowed_by_rules allow_make [lit "make"; lit "test"].
Proof.
  destruct (skip_only_allowed (S:=unit) true no_tree no_join allow_make (request ["make"; "test"]%string UnlessTrusted None) true None)
    as [_ Hb]; [by vm_compute|]. specialize (Hb eq_refl). inversion Hb. assumption.
Defined.

Definition prompt_git : sample_policy :=
  mkPolicy {[ lit "git" := [mkRule (mkPattern (lit "git") []) Prompt None] ]} [] ∅.
Definition rules_only : AskForApproval := Granular (mkGranular false true false false false).

Lemma prompts_respect_policy_witness :
  requirement_of prompt_git (request ["git"; "pull"]%string rules_only None)
    = Some (NeedsApproval (Some (lit "`git pull` requires approval by policy")) None) /\ rules_only <> Never.
Proof.
  assert (E : requirement_of prompt_git (request ["git"; "pull"]%string rules_only None)
    = Some (NeedsApproval (Some (lit "`git pull` requires approval by policy")) None)) by (by vm_compute).
  split; [exact E|]. exact (proj1 (prompts_respect_policy (S:=unit) true no_tree no_join _ _ _ _ E)).
Defined.

Lemma relative_program_resolves_witness :
  rule_hits allow_make [lit "./make"; lit "install"] =
  [PrefixRuleMatch [lit "make"] Allow (Some [Shell.RootDir; Shell.Normal (lit "work"); Shell.Normal (lit "make")]) None].
Proof.
  rewrite (relative_program_resolves allow_make (lit "./make") [Shell.CurDir] (lit "make") [lit "install"]
    [Shell.RootDir; Shell.Normal (lit "work"); Shell.Normal (lit "make")]); try (by intros tail); by vm_compute.
Defined.

(** A file system whose file takes any text. *)
#[local] Instance null_fs : PolicyFiles.RulesFs unit unit := {|
  PolicyFiles.already_exists _ := true;
  PolicyFiles.create_dir fs _ := Ok fs;
  PolicyFiles.open_append fs _ := Ok fs;
  PolicyFiles.lock_file _ _ := Ok tt;
  PolicyFiles.seek_start _ _ := Ok tt;
  PolicyFiles.read_to_string _ _ := Ok [];
  PolicyFiles.write_all fs _ _ := (fs, Ok tt);
|}.

Definition cargo_request : ExecApprovalRequest :=
  request ["cargo"; "build"; "--release"]%string UnlessTrusted (Some [lit "cargo"; lit "build"]).
Definition cargo_amended : sample_policy :=
  mkPolicy {[ lit "cargo" := [mkRule (mkPattern (lit "cargo") [Single (lit "build")]) Allow None] ]} [] ∅.

(** The amendment for [/bin/rm]: [rm -rf] stays forbidden, and [/bin/rm] runs. *)
Lemma amendment_never_weakens_rules_witness :
  append_amendment_and_update (S:=unit) (fun a b => a ++ b) (fun _ => Some []) (fun s => Some s) false true tt forbid_rm_rf (lit "home") [lit "/bin/rm"]
    = (tt, rm_amended, Ok tt)
  /\ (exists ev, check_with_options rm_amended [lit "rm"; lit "-rf"; lit "x"] (fun _ => Prompt) match_options = Some ev /\ eval_decision ev = Forbidden)
  /\ (exists ev, check_with_options rm_amended [lit "/bin/rm"] (fun _ => Prompt) match_options = Some ev /\ eval_decision ev = Allow).
Proof.
  assert (Hup : append_amendment_and_update (S:=unit) (fun a b => a ++ b) (fun _ => Some []) (fun s => Some s) false true tt forbid_rm_rf (lit "home")
    [lit "/bin/rm"] = (tt, rm_amended, Ok tt)) by (by vm_compute).
  split; [exact Hup|].
  destruct (amendment_never_weakens_rules (S:=unit) (fun a b => a ++ b) (fun _ => Some []) (fun s => Some s) forbid_rm_rf rm_amended [lit "/bin/rm"]
    false true tt tt (lit "home") (Ok tt) Hup) as (_ & _ & H).
  split.
  - destruct (check_Some forbid_rm_rf [lit "rm"; lit "-rf"; lit "x"] (fun _ => Prompt)) as [ev0 E0].
    destruct (check_Some rm_amended [lit "rm"; lit "-rf"; lit "x"] (fun _ => Prompt)) as [ev E]. exists ev. split; [exact E|].
    destruct (H _ _ ev0 ev E0 E) as [[Hd|(_ & Hx & _)] _]; [rewrite Hd; vm_compute in E0; by injection E0 as <-|].
    assert (is_empty (exact_matches forbid_rm_rf [lit "rm"; lit "-rf"; lit "x"]) = false) as Hn by (by vm_compute). by rewrite Hx in Hn.
  - destruct (check_Some forbid_rm_rf [lit "/bin/rm"] (fun _ => Prompt)) as [ev0 E0].
    destruct (check_Some rm_amended [lit "/bin/rm"] (fun _ => Prompt)) as [ev E]. exists ev. split; [exact E|].
    apply (H _ _ ev0 ev E0 E); [done|done|by vm_compute].
Defined.

Lemma requested_amendment_works_witness :
  exists b am, requirement_of cargo_amended cargo_request = Some (Skip b am).
Proof.
  apply (requested_amendment_works (S:=unit) true no_tree no_join (fun a b => a ++ b) (fun _ => Some []) (fun s => Some s)
    policy_empty cargo_amended cargo_request
    (mkEvaluation Prompt [HeuristicsRuleMatch [lit "cargo"; lit "build"; lit "--release"] Prompt]) [lit "cargo"; lit "build"]
    false true tt tt (lit "home")); by vm_compute.
Defined.

(** A user layer with a rules file, and requirements that forbid [curl]. *)
#[local] Instance one_rules_file : RulesDirs unit := {|
  dir_not_found _ := true;
  read_dir _ := Ok [Ok (lit "/home/rules/my.rules", Ok true)];
  read_file _ := Ok (lit "prefix_rule(");
|}.

#[local] Instance text_values : PolicyFiles.StarlarkValues str :=
  {| PolicyFiles.unpack_str v := Some v; PolicyFiles.list_content _ := None; PolicyFiles.get_type _ := lit "string" |}.

Definition forbid_curl : sample_policy :=
  mkPolicy {[ lit "curl" := [mkRule (mkPattern (lit "curl") []) Forbidden None] ]} [] ∅.

Definition managed_stack : ConfigLayers.ConfigLayerStack (option sample_policy) :=
  ConfigLayers.mkStack
    [ConfigLayers.mkLayer (ConfigLayers.User (lit "/home/config.toml") None) (ConfigLayers.TTable []) (lit "v") None None None]
    (Some 0) (Some forbid_curl) false None.

(** The interpreter rejects the file, or runs it to no effect. *)
Definition rejects (_ _ : str) : result (list (PolicyFiles.Call str * option PolicyFiles.FileSpan) * option unit) unit := Err tt.
Definition accepts (_ _ : str) : result (list (PolicyFiles.Call str * option PolicyFiles.FileSpan) * option unit) unit := Ok ([], None).

Notation load_sample eval := (manager_load (S:=unit) (IoError:=unit) (V:=str) (fun _ => Some (lit "/home")) (fun a b => a ++ lit "/" ++ b)
  (fun _ => None) (fun s => s) (fun _ => None) (fun _ => []) (fun _ => []) eval (fun _ => tt)).
Notation enforced_sample eval := (requirements_unless_parse_error (S:=unit) (IoError:=unit) (V:=str) (fun _ => Some (lit "/home"))
  (fun a b => a ++ lit "/" ++ b) (fun _ => None) (fun s => s) (fun _ => None) (fun _ => []) (fun _ => []) eval (fun _ => tt) managed_stack forbid_curl eq_refl).

Lemma requirements_unless_parse_error_witness :
  load_sample rejects managed_stack = Ok policy_empty
  /\ load_sample accepts managed_stack = Ok (merge_overlay policy_empty forbid_curl)
  /\ (exists ev, check_with_options (merge_overlay policy_empty forbid_curl) [lit "/usr/bin/curl"; lit "x"] (fun _ => Allow) match_options = Some ev
        /\ rank Forbidden <= rank (eval_decision ev)).
Proof.
  split; [exact (enforced_sample rejects)|]. destruct (enforced_sample accepts) as [Hload Hstrict]. split; [exact Hload|].
  destruct (check_Some (merge_overlay policy_empty forbid_curl) [lit "/usr/bin/curl"; lit "x"] (fun _ => Allow)) as [ev E]. exists ev. split; [exact E|].
  destruct (Hstrict _ _ ev (PrefixRuleMatch [lit "curl"] Forbidden (Some [Shell.RootDir; Shell.Normal (lit "usr"); Shell.Normal (lit "bin"); Shell.Normal (lit "curl")]) None)
    E) as [H|[_ [H|(q & b & paths & _ & _ & _ & H & _)]]]; [by vm_compute; left|exact H|by destruct H; vm_compute|by vm_compute in H].
Defined.

(** A rule of the user for the path of [curl], or a list of paths without it, hides the requirement. *)
Definition own_curl : sample_policy :=
  mkPolicy {[ lit "/usr/bin/curl" := [mkRule (mkPattern (lit "/usr/bin/curl") []) Allow None] ]} [] ∅.
Definition no_curl_paths : sample_policy := mkPolicy ∅ [] {[ lit "curl" := [] ]}.

Example requirement_hidden :
  eval_decision <$> check_with_options (merge_overlay own_curl forbid_curl) [lit "/usr/bin/curl"] (fun _ => Prompt) match_options = Some Allow
  /\ eval_decision <$> check_with_options (merge_overlay no_curl_paths forbid_curl) [lit "/usr/bin/curl"] (fun _ => Allow) match_options = Some Allow.
Proof. by vm_compute. Qed.

End ExecApprovalFacts.
