(* ===== verification/Orchestrator.v ===== *)
(** Running a tool call (core/src/tools/orchestrator.rs): approval, the first
    attempt under the selected sandbox and the retry; with the sandbox helpers
    and the approval cache of core/src/tools/sandboxing.rs, the choice of a
    sandbox (sandboxing/src/manager.rs), and the review types of
    protocol/src/protocol.rs and approvals.rs.

    What the orchestrator asks of the rest of the program (permission hooks,
    reviews by the guardian or the user, running the tool, the bookkeeping of
    network approvals) are the operations of the class [World]; an answer may
    depend on everything that happened before.  A run returns the log of these
    interactions. *)

From stdpp Require Import base list option numbers strings gmap.
From S2P Require Import Prelude RustStr Permissions Profiles ExecApproval NetworkProxy.

Module Orchestrator.
Import ExecApproval.
Open Scope rust_scope.

(** ** Review types *)

Inductive NetworkPolicyRuleAction := ActionAllow | ActionDeny.

Record NetworkPolicyAmendmentData := mkAmendment { amendment_host : str; action : NetworkPolicyRuleAction }.

Inductive ReviewDecision :=
| Approved
| ApprovedExecpolicyAmendment (proposed_execpolicy_amendment : list str)
| ApprovedForSession
| NetworkPolicyAmendment (network_policy_amendment : NetworkPolicyAmendmentData)
| Denied
| TimedOut
| Abort.

#[export] Instance action_eq_dec : EqDecision NetworkPolicyRuleAction.
Proof. solve_decision. Defined.
#[export] Instance amendment_eq_dec : EqDecision NetworkPolicyAmendmentData.
Proof. solve_decision. Defined.
#[export] Instance review_eq_dec : EqDecision ReviewDecision.
Proof. solve_decision. Defined.

Definition to_opaque_string (d : ReviewDecision) : str :=
  match d with
  | Approved => lit "approved"
  | ApprovedExecpolicyAmendment _ => lit "approved_with_amendment"
  | ApprovedForSession => lit "approved_for_session"
  | NetworkPolicyAmendment a =>
      match action a with
      | ActionAllow => lit "approved_with_network_policy_allow"
      | ActionDeny => lit "denied_with_network_policy_deny"
      end
  | Denied => lit "denied"
  | TimedOut => lit "timed_out"
  | Abort => lit "abort"
  end.

Inductive NetworkApprovalProtocol := ApproveHttp | ApproveHttps | ApproveSocks5Tcp | ApproveSocks5Udp.

Record NetworkApprovalContext := mkNetworkContext { context_host : str; context_protocol : NetworkApprovalProtocol }.

(** protocol/src/network_policy.rs, core/src/network_policy_decision.rs *)
Record NetworkPolicyDecisionPayload := mkPayload {
  payload_decision : NetworkProxy.NetworkPolicyDecision;
  payload_source : NetworkProxy.NetworkDecisionSource;
  payload_protocol : option NetworkApprovalProtocol;
  payload_host : option str;
  payload_reason : option str;
  payload_port : option N;
}.

Definition is_ask_from_decider (p : NetworkPolicyDecisionPayload) : bool :=
  match payload_decision p, payload_source p with
  | NetworkProxy.PolicyAsk, NetworkProxy.Decider => true
  | _, _ => false
  end.

Definition network_approval_context_from_payload (p : NetworkPolicyDecisionPayload) : option NetworkApprovalContext :=
  if negb (is_ask_from_decider p) then None
  else
    match payload_protocol p, payload_host p with
    | Some protocol, Some host => let host := trim host in if is_empty host then None else Some (mkNetworkContext host protocol)
    | _, _ => None
    end.

(** ** Sandboxes (sandboxing/src/manager.rs) *)

Inductive SandboxType := SandboxNone | MacosSeatbelt | LinuxSeccomp | WindowsRestrictedToken.
Inductive SandboxablePreference := Auto | Require | Forbid.
Inductive Platform := Macos | Linux | Windows | OtherPlatform.

Definition get_platform_sandbox (target : Platform) (windows_sandbox_enabled : bool) : option SandboxType :=
  match target with
  | Macos => Some MacosSeatbelt
  | Linux => Some LinuxSeccomp
  | Windows => if windows_sandbox_enabled then Some WindowsRestrictedToken else None
  | OtherPlatform => None
  end.

Definition should_sandbox (fs : Permissions.FileSystemSandboxPolicy) (network : Permissions.NetworkSandboxPolicy)
    (pref : SandboxablePreference) (has_managed_network_requirements : bool) : bool :=
  match pref with
  | Forbid => false
  | Require => true
  | Auto => Profiles.should_require_platform_sandbox fs network has_managed_network_requirements
  end.

Definition select_initial (target : Platform) (fs : Permissions.FileSystemSandboxPolicy) (network : Permissions.NetworkSandboxPolicy)
    (pref : SandboxablePreference) (level : WindowsSandboxLevel) (has_managed_network_requirements : bool) : SandboxType :=
  if should_sandbox fs network pref has_managed_network_requirements then
    default SandboxNone (get_platform_sandbox target (negb (level == LevelDisabled)))
  else SandboxNone.

(** ** Helpers of core/src/tools/sandboxing.rs *)

Definition default_exec_approval_requirement (policy : AskForApproval) (fs : Permissions.FileSystemSandboxPolicy)
    : ExecApprovalRequirement :=
  let needs_approval :=
    match policy with
    | Never => false
    | OnRequest | Granular _ => match Permissions.kind fs with Permissions.Restricted => true | _ => false end
    | UnlessTrusted => true
    end in
  if needs_approval && match policy with Granular granular_config => negb (sandbox_approval granular_config) | _ => false end then
    ForbiddenRequirement (lit "approval policy disallowed sandbox approval prompt")
  else if needs_approval then NeedsApproval None None
  else Skip false None.

Inductive SandboxOverride := NoOverride | BypassSandboxFirstAttempt.

Definition unsandboxed_execution_allowed (fs : Permissions.FileSystemSandboxPolicy) : bool :=
  negb (Permissions.has_denied_read_restrictions fs).

Definition sandbox_override_for_first_attempt (sandbox_permissions : SandboxPermissions) (requirement : ExecApprovalRequirement)
    (fs : Permissions.FileSystemSandboxPolicy) : SandboxOverride :=
  if negb (unsandboxed_execution_allowed fs) then NoOverride
  else
    match requirement with
    | Skip true _ => BypassSandboxFirstAttempt
    | _ => if requires_escalated_permissions sandbox_permissions then BypassSandboxFirstAttempt else NoOverride
    end.

Definition sandbox_permissions_preserving_denied_reads (sandbox_permissions : SandboxPermissions)
    (fs : Permissions.FileSystemSandboxPolicy) : SandboxPermissions :=
  if requires_escalated_permissions sandbox_permissions && negb (unsandboxed_execution_allowed fs) then UseDefault
  else sandbox_permissions.

Definition managed_network_for_sandbox_permissions {A} (network : option A) (sandbox_permissions : SandboxPermissions) : option A :=
  if requires_escalated_permissions sandbox_permissions then None else network.

(** The default methods of the trait [Approvable]. *)
Definition default_should_bypass_approval (policy : AskForApproval) (already_approved : bool) : bool :=
  if already_approved then true else match policy with Never => true | _ => false end.

Definition default_wants_no_sandbox_approval (policy : AskForApproval) : bool :=
  match policy with
  | UnlessTrusted => true
  | Never => false
  | OnRequest => false
  | Granular granular_config => sandbox_approval granular_config
  end.

(** *** The approval cache *)

Section Cache.
Context {K : Type} (to_json : K -> option str).

Definition store_get (store : gmap str ReviewDecision) (key : K) : option ReviewDecision :=
  match to_json key with Some s => store !! s | None => None end.

Definition store_put (store : gmap str ReviewDecision) (key : K) (value : ReviewDecision) : gmap str ReviewDecision :=
  match to_json key with Some s => <[s := value]> store | None => store end.

Definition already_approved_for_session (store : gmap str ReviewDecision) (keys : list K) : bool :=
  forallb (fun key => match store_get store key with Some ApprovedForSession => true | _ => false end) keys.

(** [fetched] is what the user answers, if asked; the last component of the
    result tells whether that is so. *)
Definition with_cached_approval (store : gmap str ReviewDecision) (keys : list K) (fetched : ReviewDecision)
    : gmap str ReviewDecision * ReviewDecision * bool :=
  if is_empty keys then (store, fetched, true)
  else if already_approved_for_session store keys then (store, ApprovedForSession, false)
  else
    let store :=
      match fetched with
      | ApprovedForSession => fold_left (fun store key => store_put store key ApprovedForSession) keys store
      | _ => store
      end in
    (store, fetched, true).

End Cache.

(** ** Errors *)

Section Run.
(** The outputs of a tool and of a command, errors of other kinds, hook payloads. *)
Context {Out ExecOutput OtherError HookPayload : Type}.

Inductive SandboxErr :=
| SandboxDenied (output : ExecOutput) (network_policy_decision : option NetworkPolicyDecisionPayload)
| SandboxTimeout (output : ExecOutput)
| SandboxSignal (signal : Z)
| SandboxOther (e : OtherError).

Inductive ToolError := Rejected (reason : str) | SandboxError (e : SandboxErr) | OtherToolError (e : OtherError).

Definition sandbox_outcome_from_tool_error (e : ToolError) : option str :=
  match e with
  | SandboxError (SandboxDenied _ _) => Some (lit "denied")
  | SandboxError (SandboxTimeout _) => Some (lit "timed_out")
  | SandboxError (SandboxSignal _) => Some (lit "signal")
  | _ => None
  end.

Definition build_denial_reason_from_output (_ : ExecOutput) : str := lit "command failed; retry without sandbox?".

(** ** The tool and its context *)

Inductive NetworkApprovalMode := Immediate | Deferred.

Inductive PermissionRequestDecision := HookAllow | HookDeny (message : str).

(** What the orchestrator asks of the tool about the request. *)
Record Tool := mkTool {
  exec_approval_requirement : option ExecApprovalRequirement;
  tool_sandbox_permissions : SandboxPermissions;
  sandbox_preference : SandboxablePreference;
  escalate_on_failure : bool;
  should_bypass_approval : AskForApproval -> bool -> bool;
  wants_no_sandbox_approval : AskForApproval -> bool;
  permission_request_payload : option HookPayload;
  network_approval_spec : option (bool * NetworkApprovalMode);
}.

Record TurnContext := mkTurn {
  turn_profile : Profiles.PermissionProfile;
  exec_server_profile : Profiles.PermissionProfile;
  network_active : bool;
  turn_windows_level : WindowsSandboxLevel;
  turn_use_legacy_landlock : bool;
  linux_sandbox_exe : option str;
  call_id : str;
  strict_auto_review : bool;
  routes_to_guardian : bool;
}.

Record SandboxAttempt := mkAttempt {
  sandbox : SandboxType;
  sandbox_requested : bool;
  permissions : Profiles.PermissionProfile;
  exec_server_permissions : Profiles.PermissionProfile;
  enforce_managed_network : bool;
  codex_linux_sandbox_exe : option str;
  use_legacy_landlock : bool;
  windows_level : WindowsSandboxLevel;
}.

Record ApprovalCtx := mkApproval {
  guardian_review_id : option str;
  retry_reason : option str;
  approval_network_context : option NetworkApprovalContext;
}.

(** ** The log *)

Inductive Event :=
| HookAnswered (run_id : str) (answer : option PermissionRequestDecision)
| Reviewed (ctx : ApprovalCtx) (decision : ReviewDecision)
| Ran (attempt : SandboxAttempt) (outcome : result Out ToolError)
| NetworkFinished (mode : NetworkApprovalMode) (rejection : option str).

Class World := {
  new_guardian_review_id : list Event -> str;
  guardian_rejection_message : list Event -> str -> str;
  guardian_timeout_message : str;
  run_permission_request_hooks : list Event -> str -> HookPayload -> option PermissionRequestDecision;
  start_approval_async : list Event -> ApprovalCtx -> ReviewDecision;
  run_tool : list Event -> SandboxAttempt -> result Out ToolError;
  (** A denial recorded for the call, which the call is rejected with. *)
  finish_network_approval : list Event -> NetworkApprovalMode -> option str;
}.

Context `{World} (target : Platform) (tool : Tool) (turn : TurnContext) (policy : AskForApproval).

(** Computations that extend the log and may end with an error. *)
Definition M (A : Type) : Type := list Event -> list Event * result A ToolError.

Definition ret {A} (a : A) : M A := fun log => (log, Ok a).
Definition fail {A} (e : ToolError) : M A := fun log => (log, Err e).
Definition bind {A B} (c : M A) (k : A -> M B) : M B :=
  fun log => match c log with (log, Ok a) => k a log | (log, Err e) => (log, Err e) end.

#[local] Notation "'let!' x ':=' c 'in' k" := (bind c (fun x => k))
  (at level 10, x pattern, c at level 200, k at level 200, format "'[v' 'let!'  x  ':='  c  'in'  '/' k ']'").

Definition fs_policy : Permissions.FileSystemSandboxPolicy := Profiles.file_system_sandbox_policy (turn_profile turn).
Definition network_policy : Permissions.NetworkSandboxPolicy := Profiles.network_sandbox_policy (turn_profile turn).

Definition use_guardian : bool := routes_to_guardian turn || strict_auto_review turn.

(** A review id, when the guardian reviews. *)
Definition review_id (guardian : bool) : M (option str) :=
  fun log => (log, Ok (if guardian then Some (new_guardian_review_id log) else None)).

(** *** Approval *)

Definition ask_review (ctx : ApprovalCtx) : M ReviewDecision :=
  fun log => let decision := start_approval_async log ctx in (log ++ [Reviewed ctx decision], Ok decision).

Definition request_approval (run_id : str) (ctx : ApprovalCtx) (evaluate_permission_request_hooks : bool) : M ReviewDecision :=
  fun log =>
    match (if evaluate_permission_request_hooks then permission_request_payload tool else None) with
    | None => ask_review ctx log
    | Some payload =>
        let answer := run_permission_request_hooks log run_id payload in
        let log := log ++ [HookAnswered run_id answer] in
        match answer with
        | Some HookAllow => (log, Ok Approved)
        | Some (HookDeny message) => (log, Err (Rejected message))
        | None => ask_review ctx log
        end
    end.

Definition reject_if_not_approved (review : option str) (decision : ReviewDecision) : M unit :=
  match decision with
  | Denied | Abort =>
      match review with
      | Some id => fun log => (log, Err (Rejected (guardian_rejection_message log id)))
      | None => fail (Rejected (lit "rejected by user"))
      end
  | TimedOut => fail (Rejected guardian_timeout_message)
  | Approved | ApprovedExecpolicyAmendment _ | ApprovedForSession => ret tt
  | NetworkPolicyAmendment a =>
      match action a with ActionAllow => ret tt | ActionDeny => fail (Rejected (lit "rejected by user")) end
  end.

Definition requirement : ExecApprovalRequirement :=
  default (default_exec_approval_requirement policy fs_policy) (exec_approval_requirement tool).

(** Step 1; the result is whether the call has been approved. *)
Definition approve : M bool :=
  match requirement with
  | Skip _ _ =>
      if strict_auto_review turn then
        let! review := review_id true in
        let! decision := request_approval (call_id turn) (mkApproval review None None) false in
        let! _ := reject_if_not_approved review decision in
        ret true
      else ret false
  | ForbiddenRequirement reason => fail (Rejected reason)
  | NeedsApproval reason _ =>
      let! review := review_id use_guardian in
      let! decision := request_approval (call_id turn) (mkApproval review reason None) (negb (strict_auto_review turn)) in
      let! _ := reject_if_not_approved review decision in
      ret true
  end.

(** *** Attempts *)

(** [begin_network_approval]: whether the attempt is registered, and how. *)
Definition begin_network_approval : option NetworkApprovalMode :=
  match network_approval_spec tool with
  | None => None
  | Some (has_network, mode) => if negb (network_active turn) || negb has_network then None else Some mode
  end.

(** The outcome is a value here: the caller looks at errors. *)
Definition run_attempt (attempt : SandboxAttempt) (log : list Event) : list Event * (result Out ToolError * bool) :=
  let run_result := run_tool log attempt in
  let log := log ++ [Ran attempt run_result] in
  match begin_network_approval with
  | None => (log, (run_result, false))
  | Some Immediate =>
      let finalize_result := finish_network_approval log Immediate in
      let log := log ++ [NetworkFinished Immediate finalize_result] in
      (log, (match finalize_result with Some reason => Err (Rejected reason) | None => run_result end, false))
  | Some Deferred =>
      match run_result with
      | Err _ =>
          let finalize_result := finish_network_approval log Deferred in
          let log := log ++ [NetworkFinished Deferred finalize_result] in
          (log, (match finalize_result with Some reason => Err (Rejected reason) | None => run_result end, false))
      | Ok _ => (log, (run_result, true))
      end
  end.

Definition sandboxing_required : bool :=
  should_sandbox fs_policy network_policy (sandbox_preference tool) (network_active turn).

Definition sandbox_type (requested : bool) : SandboxType :=
  if requested then
    select_initial target fs_policy network_policy (sandbox_preference tool) (turn_windows_level turn) (network_active turn)
  else SandboxNone.

Definition attempt_with (requested : bool) (exe : option str) : SandboxAttempt :=
  mkAttempt (sandbox_type requested) requested (turn_profile turn) (exec_server_profile turn) (network_active turn) exe
    (turn_use_legacy_landlock turn) (turn_windows_level turn).

Definition initial_attempt : SandboxAttempt :=
  attempt_with
    (match sandbox_override_for_first_attempt (tool_sandbox_permissions tool) requirement fs_policy with
     | BypassSandboxFirstAttempt => false
     | NoOverride => sandboxing_required
     end)
    (linux_sandbox_exe turn).

Definition retry_attempt : SandboxAttempt :=
  let unsandboxed_allowed := unsandboxed_execution_allowed fs_policy in
  attempt_with (negb unsandboxed_allowed && sandboxing_required)
    (if unsandboxed_allowed then None else linux_sandbox_exe turn).

Definition allow_on_request_network_prompt (network_context : option NetworkApprovalContext) : bool :=
  match policy with OnRequest => true | _ => false end
  && is_some network_context
  && match default_exec_approval_requirement policy fs_policy with NeedsApproval _ _ => true | _ => false end.

(** Whether a denied first attempt is retried at all. *)
Definition retry_admitted (decision : option NetworkPolicyDecisionPayload) (network_context : option NetworkApprovalContext) : bool :=
  negb (is_some decision && negb (is_some network_context))
  && escalate_on_failure tool
  && (wants_no_sandbox_approval tool policy || allow_on_request_network_prompt network_context)
  && (unsandboxed_execution_allowed fs_policy || is_some network_context).

Definition retry_reason_for (output : ExecOutput) (network_context : option NetworkApprovalContext) : str :=
  match network_context with
  | Some c => lit "Network access to " ++ [34%N] ++ context_host c ++ [34%N] ++ lit " is blocked by policy."
  | None => build_denial_reason_from_output output
  end.

Definition bypass_retry_approval (already_approved : bool) (network_context : option NetworkApprovalContext) : bool :=
  negb (strict_auto_review turn) && should_bypass_approval tool policy already_approved && negb (is_some network_context).

Definition approve_retry (already_approved : bool) (output : ExecOutput) (network_context : option NetworkApprovalContext) : M unit :=
  if bypass_retry_approval already_approved network_context then ret tt
  else
    let! review := review_id use_guardian in
    let! decision := request_approval (call_id turn ++ lit ":retry")
                       (mkApproval review (Some (retry_reason_for output network_context)) network_context)
                       (negb (strict_auto_review turn)) in
    reject_if_not_approved review decision.

(** The output and whether a deferred network approval is left. *)
Definition of_attempt (r : list Event * (result Out ToolError * bool)) : list Event * result (Out * bool) ToolError :=
  match r with
  | (log, (Ok out, deferred)) => (log, Ok (out, deferred))
  | (log, (Err e, _)) => (log, Err e)
  end.

Definition run_retry (already_approved : bool) (output : ExecOutput) (decision : option NetworkPolicyDecisionPayload) : M (Out * bool) :=
  let network_context := if network_active turn then decision ≫= network_approval_context_from_payload else None in
  if negb (retry_admitted decision network_context) then fail (SandboxError (SandboxDenied output decision))
  else
    let! _ := approve_retry already_approved output network_context in
    fun log => of_attempt (run_attempt retry_attempt log).

Definition run : M (Out * bool) :=
  let! already_approved := approve in
  fun log =>
    match run_attempt initial_attempt log with
    | (log, (Err (SandboxError (SandboxDenied output decision)), _)) => run_retry already_approved output decision log
    | r => of_attempt r
    end.

End Run.
End Orchestrator.
