(* ===== verification/OrchestratorFacts.v ===== *)
(** Theorems on running a tool call: no attempt before consent, when an attempt
    leaves the sandbox, that rules on denied reads keep it, when a call is
    retried, and what the approval cache remembers. *)

From stdpp Require Import base list option numbers strings gmap.
From S2P Require Import Prelude RustStr ShellTree Permissions Profiles ExecApproval NetworkProxy Orchestrator.

Module OrchestratorFacts.
Import ExecApproval Orchestrator.
Open Scope rust_scope.

Section Run.
Context {Out ExecOutput OtherError HookPayload : Type}.
Notation event := (Event (Out:=Out) (ExecOutput:=ExecOutput) (OtherError:=OtherError)).
Context `{W : World Out ExecOutput OtherError HookPayload}.
Context (target : Platform) (tool : Tool (HookPayload:=HookPayload)) (turn : TurnContext) (policy : AskForApproval).

(** ** What the log shows *)

Definition accepted (d : ReviewDecision) : bool :=
  match d with
  | Approved | ApprovedExecpolicyAmendment _ | ApprovedForSession => true
  | NetworkPolicyAmendment a => match action a with ActionAllow => true | ActionDeny => false end
  | Denied | TimedOut | Abort => false
  end.

(** A hook or a reviewer has said yes. *)
Definition consent (e : event) : bool :=
  match e with
  | HookAnswered _ (Some HookAllow) => true
  | Reviewed _ d => accepted d
  | _ => false
  end.

Definition is_run (e : event) : bool := match e with Ran _ _ => true | _ => false end.

Definition no_run (l : list event) : Prop := Forall (fun e => is_run e = false) l.

Lemma no_run_absurd (l pre post : list event) a o : no_run l -> l = pre ++ Ran a o :: post -> False.
Proof. intros Hl ->. apply Forall_app in Hl as [_ Hl]. by apply Forall_inv in Hl. Qed.

(** A run in a log lies at the first one or after it. *)
Lemma run_split (l1 rest pre post : list event) i o1 a o :
  no_run l1 -> l1 ++ Ran i o1 :: rest = pre ++ Ran a o :: post ->
  pre = l1 /\ a = i /\ o = o1 /\ post = rest \/ exists pre', pre = l1 ++ Ran i o1 :: pre' /\ rest = pre' ++ Ran a o :: post.
Proof.
  intros Hl. revert pre. induction Hl as [|e l1 He Hl IH]; intros [|x pre]; cbn [app]; intros E; simplify_eq.
  - by left.
  - right. by exists pre.
  - destruct (IH pre) as [(-> & -> & -> & ->)|(pre' & -> & ->)]; [done|by left|]. right. by exists pre'.
Qed.

(** ** The steps *)

Lemma ask_review_log ctx (log log' : list event) r :
  ask_review ctx log = (log', r) -> exists d, r = Ok d /\ log' = log ++ [Reviewed ctx d].
Proof. intros [= <- <-]. eauto. Qed.

Lemma reject_log review d (log log' : list event) r :
  reject_if_not_approved review d log = (log', r) -> log' = log /\ (r = Ok tt <-> accepted d = true).
Proof.
  unfold reject_if_not_approved, ret, fail, accepted.
  destruct d as [|p| |am| | |]; try destruct (action am); try destruct review; cbn; intros [= <- <-]; naive_solver.
Qed.

Lemma request_log id ctx hooks (log log' : list event) r :
  request_approval tool id ctx hooks log = (log', r) ->
  exists l, log' = log ++ l /\ no_run l /\
    match r with Ok d => accepted d = true -> existsb consent l = true | Err _ => True end.
Proof.
  unfold request_approval. destruct (if hooks then permission_request_payload tool else None) as [payload|].
  2: { intros (d & -> & ->)%ask_review_log. eexists. split; [done|]. split; [by repeat constructor|]. cbn. by intros ->. }
  destruct (run_permission_request_hooks log id payload) as [[|m]|].
  - intros [= <- <-]. eexists. split; [done|]. split; [by repeat constructor|done].
  - intros [= <- <-]. eexists. split; [done|]. split; [by repeat constructor|done].
  - intros (d & -> & ->)%ask_review_log. rewrite <- app_assoc. eexists. split; [done|]. split; [by repeat constructor|].
    cbn. by intros ->.
Qed.

(** Asking and rejecting, as both approvals do. *)
Lemma review_log guardian id mk hooks (log log' : list event) r :
  bind (review_id guardian) (fun review => bind (request_approval tool id (mk review) hooks)
    (fun d => reject_if_not_approved review d)) log = (log', r) ->
  exists l, log' = log ++ l /\ no_run l /\ (r = Ok tt -> existsb consent l = true).
Proof.
  unfold bind, review_id. destruct (request_approval tool id _ hooks log) as [log1 [d|e]] eqn:Eq.
  - apply request_log in Eq as (l & -> & Hn & Hd). intros [-> Ha]%reject_log. exists l. naive_solver.
  - apply request_log in Eq as (l & -> & Hn & _). intros [= <- <-]. by exists l.
Qed.

Lemma bind_assoc {A B C} (c : M (Out:=Out) (ExecOutput:=ExecOutput) (OtherError:=OtherError) A) (f : A -> M B) (g : B -> M C) log :
  bind (bind c f) g log = bind c (fun x => bind (f x) g) log.
Proof. unfold bind. by destruct (c log) as [? [|]]. Qed.

(** The call asks before its first attempt. *)
Definition asks_first : bool :=
  strict_auto_review turn || match requirement tool turn policy with NeedsApproval _ _ => true | _ => false end.

Lemma review_then_true guardian id mk hooks (log log' : list event) r :
  bind (review_id guardian) (fun review => bind (request_approval tool id (mk review) hooks)
    (fun d => bind (reject_if_not_approved review d) (fun _ => ret true))) log = (log', r) ->
  exists l, log' = log ++ l /\ no_run l /\ (forall ap, r = Ok ap -> ap = true /\ existsb consent l = true).
Proof.
  intros E. destruct (bind (review_id guardian) (fun review => bind (request_approval tool id (mk review) hooks)
    (fun d => reject_if_not_approved review d)) log) as [log1 r1] eqn:E1.
  pose proof (review_log guardian id mk hooks log log1 r1 E1) as (l & -> & Hn & Hr). exists l.
  unfold bind, ret in *. destruct (review_id guardian log) as [lg [rv|]]; [|naive_solver].
  destruct (request_approval tool id (mk rv) hooks lg) as [lg2 [d|]]; [|naive_solver].
  destruct (reject_if_not_approved rv d lg2) as [lg3 [[]|]]; naive_solver.
Qed.

Lemma approve_log (log' : list event) r :
  approve tool turn policy [] = (log', r) ->
  no_run log' /\
  forall ap, r = Ok ap -> ap = existsb consent log' /\ (asks_first = true -> ap = true) /\
    (forall reason, requirement tool turn policy <> ForbiddenRequirement reason).
Proof.
  unfold approve, asks_first. destruct (requirement tool turn policy) as [b a|reason a|reason].
  - destruct (strict_auto_review turn).
    + intros (l & -> & Hn & Hr)%(review_then_true true (call_id turn) (fun review => mkApproval review None None)).
      split; [done|]. intros ap Hap. destruct (Hr ap Hap) as [-> Hc]. cbn [app]. by rewrite Hc.
    + intros [= <- <-]. split; [constructor|]. by intros ap [= <-].
  - intros (l & -> & Hn & Hr)%(review_then_true _ (call_id turn) (fun review => mkApproval review reason None)).
    split; [done|]. intros ap Hap. destruct (Hr ap Hap) as [-> Hc]. cbn [app]. by rewrite Hc.
  - intros [= <- <-]. split; [constructor|]. done.
Qed.

Lemma approve_retry_log ap output ctx (log log' : list event) r :
  approve_retry tool turn policy ap output ctx log = (log', r) ->
  exists l, log' = log ++ l /\ no_run l /\
    (r = Ok tt -> existsb consent l = true \/ bypass_retry_approval tool turn policy ap ctx = true).
Proof.
  unfold approve_retry. destruct (bypass_retry_approval _ _ _ _ _).
  - intros [= <- <-]. exists []. rewrite app_nil_r. split; [done|]. split; [constructor|by right].
  - intros (l & -> & Hn & Hr)%(review_log _ _ (fun review => mkApproval review (Some (retry_reason_for output ctx)) ctx)).
    exists l. naive_solver.
Qed.

Lemma run_attempt_log a (log log' : list event) r d :
  run_attempt tool turn a log = (log', (r, d)) ->
  exists o fin, log' = log ++ Ran a o :: fin /\ no_run fin.
Proof.
  unfold run_attempt. destruct (begin_network_approval tool turn) as [[|]|].
  - intros [= <- <- <-]. rewrite <- app_assoc. eexists _, _. split; [done|]. by repeat constructor.
  - destruct (run_tool log a) as [o|e]; intros [= <- <- <-].
    + eexists _, _. split; [done|constructor].
    + rewrite <- app_assoc. eexists _, _. split; [done|]. by repeat constructor.
  - intros [= <- <- <-]. eexists _, _. split; [done|constructor].
Qed.

Lemma of_attempt_log r : (of_attempt (Out:=Out) (ExecOutput:=ExecOutput) (OtherError:=OtherError) r).1 = r.1.
Proof. by destruct r as [log [[|] ?]]. Qed.

(** The shape of a log: reviews, the first attempt, and after a denial perhaps
    further reviews and the retry. *)
Definition first_then (l1 : list event) (ap : bool) (log : list event) : Prop :=
  exists o1 fin, no_run fin /\
    (log = l1 ++ Ran (initial_attempt target tool turn policy) o1 :: fin \/
     exists out dec ctx l2, ctx = (if network_active turn then dec ≫= network_approval_context_from_payload else None) /\ no_run l2 /\
       (log = l1 ++ Ran (initial_attempt target tool turn policy) o1 :: fin ++ l2 \/
        exists o2 fin2, no_run fin2 /\ retry_admitted tool turn policy dec ctx = true /\ o1 = Err (SandboxError (SandboxDenied out dec)) /\
          (existsb consent l2 = true \/ bypass_retry_approval tool turn policy ap ctx = true) /\
          log = l1 ++ Ran (initial_attempt target tool turn policy) o1 :: fin ++ l2 ++ Ran (retry_attempt target tool turn) o2 :: fin2)).

Lemma run_attempt_denied a (log log' : list event) out dec d :
  run_attempt tool turn a log = (log', (Err (SandboxError (SandboxDenied out dec)), d)) ->
  exists fin, log' = log ++ Ran a (Err (SandboxError (SandboxDenied out dec))) :: fin /\ no_run fin.
Proof.
  unfold run_attempt. destruct (begin_network_approval tool turn) as [[|]|].
  - destruct (finish_network_approval _ _); [done|]. intros [= <- E <-]. rewrite E, <- app_assoc. eexists. split; [done|]. by repeat constructor.
  - destruct (run_tool log a) as [o|e]; [done|]. destruct (finish_network_approval _ _); [done|].
    intros [= <- -> <-]. rewrite <- app_assoc. eexists. split; [done|]. by repeat constructor.
  - intros [= <- -> <-]. eexists. split; [done|constructor].
Qed.

Lemma run_shape (log : list event) r :
  run target tool turn policy [] = (log, r) ->
  exists l1 ap, no_run l1 /\
    (log = l1 \/
     ap = existsb consent l1 /\ (asks_first = true -> ap = true) /\
     (forall reason, requirement tool turn policy <> ForbiddenRequirement reason) /\ first_then l1 ap log).
Proof.
  unfold run, bind. destruct (approve tool turn policy []) as [l1 [ap|e]] eqn:Ea.
  2: { apply approve_log in Ea as [Hn _]. intros [= <- <-]. exists l1, false. auto. }
  apply approve_log in Ea as [Hn Hap]. destruct (Hap ap eq_refl) as (Hc & Hf & Hreq).
  destruct (run_attempt tool turn (initial_attempt target tool turn policy) l1) as [log1 [r1 d]] eqn:E1.
  intros Hrun. exists l1, ap. split; [done|]. right. do 3 (split; [done|]).
  assert (Hplain : (log, r) = of_attempt (log1, (r1, d)) -> first_then l1 ap log).
  { intros E. pose proof (of_attempt_log (log1, (r1, d))) as Hl. rewrite <- E in Hl. cbn in Hl. subst log1.
    apply run_attempt_log in E1 as (o & fin & -> & Hfin). exists o, fin. auto. }
  destruct r1 as [o1|[reason|[out dec|out|sig|oe]|oe]]; try (by apply Hplain).
  apply run_attempt_denied in E1 as (fin & -> & Hfin). exists (Err (SandboxError (SandboxDenied out dec))), fin. split; [done|]. right.
  unfold run_retry, bind, fail in Hrun. set (ctx := if network_active turn then _ else None) in Hrun.
  exists out, dec, ctx. destruct (retry_admitted tool turn policy dec ctx) eqn:Er; cbn [negb] in Hrun.
  2: { injection Hrun as <- <-. exists []. rewrite app_nil_r. split; [done|]. split; [constructor|by left]. }
  destruct (approve_retry tool turn policy ap out ctx _) as [log2 [[]|e]] eqn:E2.
  2: { apply approve_retry_log in E2 as (l2 & -> & Hl2 & _). injection Hrun as <- <-. exists l2. rewrite <- app_assoc. auto. }
  apply approve_retry_log in E2 as (l2 & -> & Hl2 & Hby). exists l2. split; [done|]. split; [done|]. right.
  destruct (run_attempt tool turn (retry_attempt target tool turn) _) as [log3 [r3 d3]] eqn:E3.
  pose proof (of_attempt_log (log3, (r3, d3))) as Hl. rewrite Hrun in Hl. cbn in Hl. subst log3.
  apply run_attempt_log in E3 as (o2 & fin2 & -> & Hfin2). exists o2, fin2. split; [done|]. split; [done|]. split; [done|].
  split; [by apply Hby|]. by rewrite <- !app_assoc.
Qed.

(** What lies before an attempt. *)
Lemma consent_before_attempt (log : list event) r pre a o post :
  run target tool turn policy [] = (log, r) -> log = pre ++ Ran a o :: post ->
  (forall reason, requirement tool turn policy <> ForbiddenRequirement reason) /\
  (asks_first = true -> existsb consent pre = true) /\
  (a = initial_attempt target tool turn policy /\ no_run pre \/
   a = retry_attempt target tool turn /\
   exists p1 out dec p2, pre = p1 ++ Ran (initial_attempt target tool turn policy) (Err (SandboxError (SandboxDenied out dec))) :: p2 /\
     no_run p1 /\ no_run p2 /\
     (existsb consent p2 = true \/
      strict_auto_review turn = false /\ should_bypass_approval tool policy (existsb consent p1) = true)).
Proof.
  intros Hrun Hpre. destruct (run_shape log r Hrun) as (l1 & ap & Hl1 & [->|(Hap & Hasks & Hreq & (o1 & fin & Hfin & Hrest))]).
  { exfalso. by eapply no_run_absurd. }
  split; [done|]. subst ap.
  assert (Hfirst : forall rest, log = l1 ++ Ran (initial_attempt target tool turn policy) o1 :: rest ->
    (asks_first = true -> existsb consent pre = true) /\
    (a = initial_attempt target tool turn policy /\ no_run pre \/
     exists pre', pre = l1 ++ Ran (initial_attempt target tool turn policy) o1 :: pre' /\ rest = pre' ++ Ran a o :: post)).
  { intros rest Hr. rewrite Hpre in Hr. symmetry in Hr.
    destruct (run_split l1 rest pre post _ o1 a o Hl1 Hr) as [(-> & -> & _)|(pre' & -> & ->)]; [by auto|].
    split; [|by right; exists pre']. rewrite existsb_app. intros Ha. by rewrite Hasks. }
  destruct Hrest as [Hlog|(out & dec & ctx & l2 & Hctx & Hl2 & [Hlog|(o2 & fin2 & Hfin2 & Hadm & -> & Hby & Hlog)])].
  - destruct (Hfirst _ Hlog) as [? [?|(pre' & _ & E)]]; [by auto|]. exfalso. by eapply no_run_absurd.
  - destruct (Hfirst _ Hlog) as [? [?|(pre' & _ & E)]]; [by auto|]. exfalso. eapply no_run_absurd; [|exact E].
    by apply Forall_app.
  - destruct (Hfirst _ Hlog) as [? [?|(pre' & -> & E)]]; [by auto|]. split; [done|]. right. rewrite app_assoc in E.
    destruct (run_split (fin ++ l2) fin2 pre' post (retry_attempt target tool turn) o2 a o) as [(-> & -> & _)|(pre2 & _ & ->)]; [by apply Forall_app|done| |].
    + split; [done|]. exists l1, out, dec, (fin ++ l2). split; [done|]. split; [done|]. split; [by apply Forall_app|].
      destruct Hby as [Hc|Hby]; [left; rewrite existsb_app, Hc; apply orb_true_r|right].
      unfold bypass_retry_approval in Hby. rewrite !andb_true_iff, negb_true_iff in Hby. tauto.
    + exfalso. eapply no_run_absurd; [exact Hfin2|done].
Qed.

(** C2: No attempt without consent.  Before every attempt at running the tool:
    the call is not forbidden; if it needs approval, or reviews are strict, a
    hook or a reviewer has said yes; and the attempt is the first one, or it is
    the retry after the sandbox denied the first one, and then a hook or a
    reviewer has said yes since, or the tool waives the second approval, which
    strict reviews do not allow. *)
Theorem no_attempt_without_consent (log : list event) r pre a o post :
  run target tool turn policy [] = (log, r) -> log = pre ++ Ran a o :: post ->
  (forall reason, requirement tool turn policy <> ForbiddenRequirement reason) /\
  (asks_first = true -> existsb consent pre = true) /\
  (a = initial_attempt target tool turn policy /\ no_run pre \/
   a = retry_attempt target tool turn /\
   exists p1 out dec p2, pre = p1 ++ Ran (initial_attempt target tool turn policy) (Err (SandboxError (SandboxDenied out dec))) :: p2 /\
     no_run p1 /\ no_run p2 /\
     (existsb consent p2 = true \/
      strict_auto_review turn = false /\ should_bypass_approval tool policy (existsb consent p1) = true)).
Proof. apply consent_before_attempt. Qed.

(** ** Sandboxing of attempts *)

Lemma initial_unsandboxed :
  sandbox (initial_attempt target tool turn policy) = SandboxNone ->
  sandboxing_required tool turn = false \/
  get_platform_sandbox target (negb (turn_windows_level turn == LevelDisabled)) = None \/
  Permissions.has_denied_read_restrictions (fs_policy turn) = false /\
    ((exists am, requirement tool turn policy = Skip true am) \/ tool_sandbox_permissions tool = RequireEscalated).
Proof.
  unfold initial_attempt, sandbox_override_for_first_attempt, unsandboxed_execution_allowed, attempt_with, sandbox_type, select_initial.
  fold (sandboxing_required tool turn). cbn [sandbox]. destruct (sandboxing_required tool turn) eqn:Hs; [|by left].
  rewrite negb_involutive. intros H. right.
  destruct (get_platform_sandbox target _) as [st|] eqn:E; [|by left]. right. cbn [default from_option id] in H.
  assert (Hst : st <> SandboxNone) by (intros ->; destruct target; cbn in E; try done; by destruct (negb _)).
  destruct (Permissions.has_denied_read_restrictions (fs_policy turn)); [done|]. split; [done|].
  destruct (requirement tool turn policy) as [[|] am| |]; [by eauto|..]; destruct (tool_sandbox_permissions tool); cbn in H; (done || auto).
Qed.

Lemma retry_unsandboxed :
  sandbox (retry_attempt target tool turn) = SandboxNone ->
  sandboxing_required tool turn = false \/
  get_platform_sandbox target (negb (turn_windows_level turn == LevelDisabled)) = None \/
  Permissions.has_denied_read_restrictions (fs_policy turn) = false.
Proof.
  unfold retry_attempt, unsandboxed_execution_allowed, attempt_with, sandbox_type, select_initial. cbn [sandbox]. rewrite negb_involutive.
  destruct (Permissions.has_denied_read_restrictions (fs_policy turn)); [|by auto]. destruct (sandboxing_required tool turn) eqn:Hs; [|by auto].
  unfold sandboxing_required in Hs. cbn [andb]. rewrite Hs. intros H. right. left.
  destruct target; cbn in *; try done. by destruct (negb _).
Qed.

(** C23: Every attempt that runs without a sandbox, and why: none is required, or the
    platform has none; otherwise the permissions deny no reads, which only a
    sandbox enforces, and either it is the first attempt, and the policy rules
    allow all of the call or the tool asked to be escalated, or the sandbox denied
    the first attempt and a hook or a reviewer has said yes since, or the tool
    waives that.  And every attempt runs with the permissions of the turn. *)
Theorem sandbox_kept_for_denied_reads (log : list event) r pre a o post :
  run target tool turn policy [] = (log, r) -> log = pre ++ Ran a o :: post ->
  permissions a = turn_profile turn /\
  (sandbox a = SandboxNone ->
     sandboxing_required tool turn = false \/
     get_platform_sandbox target (negb (turn_windows_level turn == LevelDisabled)) = None \/
     Permissions.has_denied_read_restrictions (fs_policy turn) = false /\
     (no_run pre /\ ((exists am, requirement tool turn policy = Skip true am) \/ tool_sandbox_permissions tool = RequireEscalated) \/
      exists p1 out dec p2, pre = p1 ++ Ran (initial_attempt target tool turn policy) (Err (SandboxError (SandboxDenied out dec))) :: p2 /\
        (existsb consent p2 = true \/ strict_auto_review turn = false /\ should_bypass_approval tool policy (existsb consent p1) = true))).
Proof.
  intros Hrun Hlog. destruct (consent_before_attempt log r pre a o post Hrun Hlog) as (_ & _ & [[-> Hpre]|(-> & p1 & out & dec & p2 & Hp & _ & _ & Hc)]).
  - split; [done|]. intros [?|[?|[? ?]]]%initial_unsandboxed; auto 10.
  - split; [done|]. intros [?|[?|?]]%retry_unsandboxed; [by auto..|]. right. right. split; [done|]. right. by exists p1, out, dec, p2.
Qed.

(** ** When the sandbox is escaped on a retry *)

(** With the default methods of the trait, a call is attempted at most once
    with [Never]; with [OnRequest] a second attempt follows only a new consent,
    given for a network request; and there are never more than two attempts. *)
Theorem retries_are_limited (log : list event) r :
  should_bypass_approval tool = default_should_bypass_approval ->
  wants_no_sandbox_approval tool = default_wants_no_sandbox_approval ->
  run target tool turn policy [] = (log, r) ->
  length (List.filter is_run log) <= match policy with Never => 1 | _ => 2 end /\
  (policy = OnRequest -> length (List.filter is_run log) = 2 ->
     network_active turn = true /\
     exists l1 o1 l2 o2 l3, log = l1 ++ Ran (initial_attempt target tool turn policy) o1 :: l2 ++ Ran (retry_attempt target tool turn) o2 :: l3 /\
       existsb consent l2 = true).
Proof.
  intros Hb Hw Hrun. assert (Hnil : forall l : list event, no_run l -> List.filter is_run l = []).
  { induction 1 as [|e l He _ IH]; [done|]. cbn. by rewrite He. }
  destruct (run_shape log r Hrun) as (l1 & ap & Hl1 & [->|(Hap & Hasks & Hreq & (o1 & fin & Hfin & Hrest))]).
  { rewrite Hnil by done. split; [destruct policy; cbn; lia|done]. }
  destruct Hrest as [->|(out & dec & ctx & l2 & Hctx & Hl2 & [->|(o2 & fin2 & Hfin2 & Hadm & -> & Hby & ->)])].
  - rewrite List.filter_app. cbn [List.filter is_run]. rewrite !Hnil by done. cbn. split; [destruct policy; lia|done].
  - rewrite List.filter_app. cbn [List.filter is_run]. rewrite List.filter_app, !Hnil by done. cbn. split; [destruct policy; lia|done].
  - rewrite List.filter_app. cbn [List.filter is_run]. rewrite !List.filter_app. cbn [List.filter is_run]. rewrite !Hnil by done. cbn [app length].
    unfold retry_admitted in Hadm. rewrite !andb_true_iff in Hadm. destruct Hadm as [[_ Hwant] _]. rewrite Hw in Hwant.
    split; [destruct policy; try lia; cbn in Hwant; done|]. intros -> _. unfold allow_on_request_network_prompt in Hwant.
    cbn [default_wants_no_sandbox_approval orb andb] in Hwant. rewrite andb_true_iff in Hwant.
    destruct Hwant as [Hctx' _]. subst ctx. destruct (network_active turn) eqn:Hn; [|done]. split; [done|].
    eexists l1, _, (fin ++ l2), o2, fin2. split; [by rewrite <- app_assoc|]. destruct Hby as [Hc|Hby].
    + rewrite existsb_app, Hc. apply orb_true_r.
    + unfold bypass_retry_approval in Hby. rewrite Hctx' in Hby. by rewrite andb_false_r in Hby.
Qed.

End Run.

(** ** The approval cache *)

Section Cache.
Context {K : Type} (to_json : K -> option str).

(** The cache after a sequence of requests, each with the answer the user gives if asked. *)
Definition cache_run (reqs : list (list K * ReviewDecision)) : gmap str ReviewDecision :=
  fold_left (fun store '(keys, answer) => (with_cached_approval to_json store keys answer).1.1) reqs ∅.

(** Some request with a key of this text was approved for the session. *)
Definition approved_text (reqs : list (list K * ReviewDecision)) (s : str) : Prop :=
  exists keys k, (keys, ApprovedForSession) ∈ reqs /\ k ∈ keys /\ to_json k = Some s.

Lemma put_all (keys : list K) (store : gmap str ReviewDecision) s :
  fold_left (fun store key => store_put to_json store key ApprovedForSession) keys store !! s = Some ApprovedForSession <->
  store !! s = Some ApprovedForSession \/ exists k, k ∈ keys /\ to_json k = Some s.
Proof.
  revert store. induction keys as [|k keys IH]; intros store; cbn [fold_left]; [set_solver|]. rewrite IH. unfold store_put.
  destruct (to_json k) as [t|] eqn:Ek.
  - destruct (decide (t = s)) as [->|Hne]; [rewrite lookup_insert_eq|rewrite lookup_insert_ne by done]; set_solver.
  - set_solver.
Qed.

Lemma approved_for_session_spec (store : gmap str ReviewDecision) keys :
  already_approved_for_session to_json store keys = true <->
  forall k, k ∈ keys -> exists s, to_json k = Some s /\ store !! s = Some ApprovedForSession.
Proof.
  unfold already_approved_for_session. rewrite forallb_forall. setoid_rewrite <- list_elem_of_In. unfold store_get.
  apply forall_proper. intros k. destruct (to_json k) as [s|]; [|naive_solver].
  destruct (store !! s) as [[]|] eqn:E; naive_solver.
Qed.

Lemma cache_run_spec reqs s : cache_run reqs !! s = Some ApprovedForSession <-> approved_text reqs s.
Proof.
  induction reqs as [|[keys answer] reqs IH] using rev_ind.
  { unfold cache_run, approved_text. cbn [fold_left]. rewrite lookup_empty. set_solver. }
  unfold cache_run. rewrite fold_left_app. cbn [fold_left]. fold (cache_run reqs).
  assert (Hext : approved_text (reqs ++ [(keys, answer)]) s <->
    approved_text reqs s \/ answer = ApprovedForSession /\ exists k, k ∈ keys /\ to_json k = Some s).
  { unfold approved_text. set_solver. }
  rewrite Hext, <- IH. unfold with_cached_approval. destruct (is_empty keys) eqn:Ee.
  { apply is_empty_true in Ee as ->. cbn. set_solver. }
  destruct (already_approved_for_session to_json (cache_run reqs) keys) eqn:Ea; cbn [fst].
  - split; [by left|]. intros [?|(-> & k & Hk & Hs)]; [done|].
    destruct (proj1 (approved_for_session_spec _ _) Ea k Hk) as (s' & Hs' & ?). by simplify_eq.
  - destruct answer; cbn [fst]; try (rewrite put_all); naive_solver.
Qed.

(** The approval cache remembers exactly what was approved for the session:
    after any sequence of requests, a further one is not asked if and only if it
    has keys and each of them was in some request that the user approved for
    the session; and then the answer is that approval. *)
Theorem cache_asks_unless_approved reqs keys answer :
  let '(_, decision, asked) := with_cached_approval to_json (cache_run reqs) keys answer in
  (asked = false <-> keys <> [] /\ forall k, k ∈ keys -> exists s, to_json k = Some s /\ approved_text reqs s) /\
  decision = (if asked then answer else ApprovedForSession).
Proof.
  unfold with_cached_approval. destruct (is_empty keys) eqn:Ee.
  { apply is_empty_true in Ee. naive_solver. }
  apply is_empty_false in Ee. pose proof (approved_for_session_spec (cache_run reqs) keys) as Hs.
  setoid_rewrite cache_run_spec in Hs. destruct (already_approved_for_session to_json (cache_run reqs) keys); naive_solver.
Qed.

End Cache.

(** ** Examples *)

Definition shell_tool (r : ExecApprovalRequirement) : Tool (HookPayload:=unit) :=
  mkTool (Some r) UseDefault Auto true default_should_bypass_approval default_wants_no_sandbox_approval None None.

Definition guarded_turn : TurnContext :=
  mkTurn Profiles.default_profile Profiles.default_profile false LevelDisabled false None (lit "call") false false.

(** The user approves whatever is asked; the sandbox denies the first attempt. *)
#[local] Instance yes_world : World (Out:=unit) (ExecOutput:=unit) (OtherError:=unit) (HookPayload:=unit) := {|
  new_guardian_review_id _ := lit "id";
  guardian_rejection_message _ _ := lit "no";
  guardian_timeout_message := lit "late";
  run_permission_request_hooks _ _ _ := None;
  start_approval_async _ _ := Approved;
  run_tool log attempt := if sandbox_requested attempt then Err (SandboxError (SandboxDenied tt None)) else Ok tt;
  finish_network_approval _ _ := None;
|}.

Definition approved_tool : Tool (HookPayload:=unit) := shell_tool (NeedsApproval None None).
Definition approved_run : list (Event (Out:=unit) (ExecOutput:=unit) (OtherError:=unit)) * result (unit * bool) (ToolError (ExecOutput:=unit) (OtherError:=unit)) :=
  run Linux approved_tool guarded_turn UnlessTrusted [].

(** An approved call that the sandbox denies is run again, outside, without a second question. *)
Lemma no_attempt_without_consent_witness :
  exists pre, approved_run.1 = pre ++ [Ran (retry_attempt Linux approved_tool guarded_turn) (Ok tt)] /\ existsb consent pre = true.
Proof.
  eexists [Reviewed (mkApproval None None None) Approved;
           Ran (initial_attempt Linux approved_tool guarded_turn UnlessTrusted) (Err (SandboxError (SandboxDenied tt None)))].
  split; [by vm_compute|].
  destruct (no_attempt_without_consent Linux approved_tool guarded_turn UnlessTrusted approved_run.1 approved_run.2
    [Reviewed (mkApproval None None None) Approved;
     Ran (initial_attempt Linux approved_tool guarded_turn UnlessTrusted) (Err (SandboxError (SandboxDenied tt None)))]
    (retry_attempt Linux approved_tool guarded_turn) (Ok tt) []) as (_ & Hask & _); [by vm_compute..|].
  apply Hask. by vm_compute.
Defined.

(** Permissions that deny a directory. *)
Definition secret_profile : Profiles.PermissionProfile :=
  Profiles.Managed (Profiles.ManagedRestricted
    [Permissions.mkEntry (Permissions.Special Permissions.Root) Permissions.Write;
     Permissions.mkEntry (Permissions.Path (ShellTree.Shell.components (lit "/secret"))) Permissions.Deny] None) Permissions.NetRestricted.
Definition secret_turn : TurnContext := mkTurn secret_profile secret_profile false LevelDisabled false None (lit "call") false false.

(** The sandbox denies the attempt and, after the user has approved, the retry too. *)
Definition secret_run : list (Event (Out:=unit) (ExecOutput:=unit) (OtherError:=unit)) * result (unit * bool) (ToolError (ExecOutput:=unit) (OtherError:=unit)) :=
  run Linux approved_tool secret_turn UnlessTrusted [].

Lemma sandbox_kept_for_denied_reads_witness :
  sandbox (retry_attempt Linux approved_tool secret_turn) <> SandboxNone.
Proof.
  destruct (sandbox_kept_for_denied_reads Linux approved_tool secret_turn UnlessTrusted secret_run.1 secret_run.2
    (take (pred (length secret_run.1)) secret_run.1) (retry_attempt Linux approved_tool secret_turn) (Err (SandboxError (SandboxDenied tt None))) []
    (surjective_pairing _) ltac:(by vm_compute)) as [_ H].
  intros E. destruct (H E) as [Hn|[Hn|[Hn _]]]; by vm_compute in Hn.
Defined.

Lemma retries_are_limited_witness :
  length (List.filter is_run (run Linux (shell_tool (Skip false None)) guarded_turn Never []).1) <= 1.
Proof.
  apply (retries_are_limited Linux (shell_tool (Skip false None)) guarded_turn Never
    (run Linux (shell_tool (Skip false None)) guarded_turn Never []).1
    (run Linux (shell_tool (Skip false None)) guarded_turn Never []).2); [done..|by vm_compute].
Defined.

End OrchestratorFacts.
