(* ===== verification/NetworkApproval.v ===== *)
(** Network approvals (core/src/tools/network_approval.rs): the service that
    decides about requests of the proxy to hosts outside the allow list.  It
    attributes a request to a tool call, looks into the caches of the session,
    and asks a hook, the guardian or the user, once for requests to the same
    host at the same time; the others wait for that answer.  Also
    core/src/network_policy_decision.rs.

    Requests are handled by tasks that interleave, so the model is a machine
    with a program counter per task and one transition per access to shared
    state (each is made under its own lock).  The answers of hooks and reviews
    and what the session knows are inputs of the transitions. *)

From stdpp Require Import base list option numbers strings gmap sets.
From S2P Require Import Prelude RustStr Profiles ExecPolicy ExecApproval NetworkState NetworkProxy Orchestrator.

Module NetworkApproval.
Import ExecApproval Orchestrator NetworkProxy.
Open Scope rust_scope.

(** ** Requests and keys *)

Inductive NetworkProtocol := ProtoHttp | ProtoHttpsConnect | ProtoSocks5Tcp | ProtoSocks5Udp.

(** The fields of [NetworkPolicyRequest] that the service reads. *)
Record NetworkPolicyRequest := mkPolicyRequest {
  req_protocol : NetworkProtocol;
  req_host : str;
  req_port : N;
  req_environment_id : option str;
}.

Definition approval_protocol (p : NetworkProtocol) : NetworkApprovalProtocol :=
  match p with
  | ProtoHttp => ApproveHttp
  | ProtoHttpsConnect => ApproveHttps
  | ProtoSocks5Tcp => ApproveSocks5Tcp
  | ProtoSocks5Udp => ApproveSocks5Udp
  end.

Definition protocol_key_label (p : NetworkApprovalProtocol) : str :=
  match p with
  | ApproveHttp => lit "http"
  | ApproveHttps => lit "https"
  | ApproveSocks5Tcp => lit "socks5-tcp"
  | ApproveSocks5Udp => lit "socks5-udp"
  end.

(** Environment, host, protocol, port. *)
Notation HostApprovalKey := (str * str * str * N)%type (only parsing).

Definition key_from_request (request : NetworkPolicyRequest) (protocol : NetworkApprovalProtocol) (environment_id : str)
    : HostApprovalKey :=
  (environment_id, to_ascii_lowercase (req_host request), protocol_key_label protocol, req_port request).

Definition format_network_target (protocol host : str) (port : N) : str :=
  protocol ++ lit "://" ++ host ++ lit ":" ++ show_N port.

Definition approval_id_for_key (key : HostApprovalKey) : str :=
  let '(environment_id, host, protocol, port) := key in
  lit "network#" ++ environment_id ++ lit "#" ++ protocol ++ lit "#" ++ host ++ lit "#" ++ show_N port.

(** ** Decisions and outcomes *)

Inductive PendingApprovalDecision := AllowOnce | AllowForSession | PendingDeny.

Definition REASON_NOT_ALLOWED : str := lit "not_allowed".

Definition deny_not_allowed : NetworkDecision := deny_with_source REASON_NOT_ALLOWED Decider.

Definition to_network_decision (d : PendingApprovalDecision) : NetworkDecision :=
  match d with AllowOnce | AllowForSession => NetworkAllow | PendingDeny => deny_not_allowed end.

Inductive NetworkApprovalOutcome := DeniedByUser | DeniedByPolicy (message : str).

(** The reason a call is rejected with, if it is. *)
Definition network_approval_outcome_to_result (o : option NetworkApprovalOutcome) : option str :=
  match o with
  | Some DeniedByUser => Some (lit "rejected by user")
  | Some (DeniedByPolicy message) => Some message
  | None => None
  end.

Definition allows_network_approval_flow (policy : AskForApproval) : bool := match policy with Never => false | _ => true end.

Definition permission_profile_allows_network_approval_flow (p : Profiles.PermissionProfile) : bool :=
  match p with Profiles.Managed _ _ => true | _ => false end.

(** ** Calls *)

Record ActiveNetworkApprovalCall := mkCall { registration_id : str; turn_id : str; call_command : str; environment_id : str }.

(** [IndexMap]: in order of insertion; [cancelled] are the calls whose token was cancelled. *)
Record NetworkApprovalCallState := mkCalls {
  active_calls : list (str * ActiveNetworkApprovalCall);
  call_outcomes : gmap str NetworkApprovalOutcome;
  cancelled : gset str;
}.

Definition find_call (calls : NetworkApprovalCallState) (id : str) : option ActiveNetworkApprovalCall :=
  option_map snd (find_first (fun e => e.1 == id) (active_calls calls)).

Fixpoint index_insert (id : str) (call : ActiveNetworkApprovalCall) (l : list (str * ActiveNetworkApprovalCall))
    : list (str * ActiveNetworkApprovalCall) :=
  match l with
  | [] => [(id, call)]
  | (k, c) :: l' => if k == id then (k, call) :: l' else (k, c) :: index_insert id call l'
  end.

Definition register_call (calls : NetworkApprovalCallState) (call : ActiveNetworkApprovalCall) : NetworkApprovalCallState :=
  mkCalls (index_insert (registration_id call) call (active_calls calls)) (call_outcomes calls) (cancelled calls).

Definition remove_call (calls : NetworkApprovalCallState) (id : str) : NetworkApprovalCallState * option NetworkApprovalOutcome :=
  (mkCalls (List.filter (fun e => negb (e.1 == id)) (active_calls calls)) (delete id (call_outcomes calls)) (cancelled calls),
   call_outcomes calls !! id).

(** Cancelling the token follows the release of the lock. *)
Definition record_call_outcome (calls : NetworkApprovalCallState) (id : str) (outcome : NetworkApprovalOutcome)
    : NetworkApprovalCallState :=
  match find_call calls id with
  | None => calls
  | Some _ =>
      match call_outcomes calls !! id with
      | Some DeniedByUser => calls
      | _ => mkCalls (active_calls calls) (<[id := outcome]> (call_outcomes calls)) ({[id]} ∪ cancelled calls)
      end
  end.

Definition resolve_single_active_call (calls : NetworkApprovalCallState) : option ActiveNetworkApprovalCall :=
  match active_calls calls with [(_, call)] => Some call | _ => None end.

Inductive ActiveNetworkApprovalAttribution := AttributedNone | AttributedSingle (call : ActiveNetworkApprovalCall) | Ambiguous.

Definition resolve_active_call_attribution (calls : NetworkApprovalCallState) : ActiveNetworkApprovalAttribution :=
  match active_calls calls with
  | [] => AttributedNone
  | [(_, call)] => AttributedSingle call
  | _ => Ambiguous
  end.

(** *** Blocked requests (network_policy_decision.rs) *)

Definition parse_network_policy_decision (value : str) : option NetworkPolicyDecision :=
  if value == lit "deny" then Some PolicyDeny else if value == lit "ask" then Some PolicyAsk else None.

Definition blocked_detail (reason : str) : str :=
  if reason == lit "denied" then lit "domain is explicitly denied by policy and cannot be approved from this prompt"
  else if reason == lit "not_allowed" then lit "domain is not on the allowlist for the current sandbox mode"
  else if reason == lit "not_allowed_local" then lit "local/private network addresses are blocked by the sandbox policy"
  else if reason == lit "method_not_allowed" then lit "request method is blocked by the current network mode"
  else if reason == lit "proxy_disabled" then lit "network proxy is disabled"
  else lit "request is blocked by network policy".

Definition denied_network_policy_message (blocked : NetworkState.BlockedRequest) : option str :=
  match NetworkState.decision blocked ≫= parse_network_policy_decision with
  | Some PolicyDeny =>
      let host := trim (NetworkState.blocked_host blocked) in
      if is_empty host then Some (lit "Network access was blocked by policy.")
      else Some (lit "Network access to " ++ [34%N] ++ host ++ [34%N] ++ lit " was blocked: "
                 ++ blocked_detail (NetworkState.reason blocked) ++ lit ".")
  | _ => None
  end.

(** The two accesses to the calls, when nothing comes between them. *)
Definition record_blocked_request (calls : NetworkApprovalCallState) (blocked : NetworkState.BlockedRequest) : NetworkApprovalCallState :=
  match denied_network_policy_message blocked with
  | None => calls
  | Some message =>
      match resolve_single_active_call calls with
      | None => calls
      | Some owner_call => record_call_outcome calls (registration_id owner_call) (DeniedByPolicy message)
      end
  end.

Record ExecPolicyNetworkRuleAmendment := mkRuleAmendment {
  amendment_protocol : ExecPolicy.NetworkRuleProtocol;
  amendment_decision : ExecPolicy.Decision;
  amendment_justification : str;
}.

Definition execpolicy_network_rule_amendment (amendment : NetworkPolicyAmendmentData) (context : NetworkApprovalContext) (host : str)
    : ExecPolicyNetworkRuleAmendment :=
  let protocol := match context_protocol context with
                  | ApproveHttp => ExecPolicy.Http
                  | ApproveHttps => ExecPolicy.Https
                  | ApproveSocks5Tcp => ExecPolicy.Socks5Tcp
                  | ApproveSocks5Udp => ExecPolicy.Socks5Udp
                  end in
  let '(decision, action_verb) := match action amendment with
                                  | ActionAllow => (ExecPolicy.Allow, lit "Allow")
                                  | ActionDeny => (ExecPolicy.Forbidden, lit "Deny")
                                  end in
  let protocol_label := match context_protocol context with
                        | ApproveHttp => lit "http"
                        | ApproveHttps => lit "https_connect"
                        | ApproveSocks5Tcp => lit "socks5_tcp"
                        | ApproveSocks5Udp => lit "socks5_udp"
                        end in
  mkRuleAmendment protocol decision (action_verb ++ [SPACE] ++ protocol_label ++ lit " access to " ++ host).

(** ** The service *)

(** [PendingHostApproval]: the decision, and how often waiters were notified. *)
Record Cell := mkCell { cell_decision : option PendingApprovalDecision; notified : nat }.

(** [cells] are the shared objects; the map of pending approvals has references. *)
Record Service := mkService {
  calls : NetworkApprovalCallState;
  pending_host_approvals : gmap HostApprovalKey nat;
  cells : gmap nat Cell;
  next_cell : nat;
  session_approved_hosts : gset HostApprovalKey;
  session_denied_hosts : gset HostApprovalKey;
}.

Definition service_default : Service := mkService (mkCalls [] ∅ ∅) ∅ ∅ 0 ∅ ∅.

Definition with_calls (s : Service) (c : NetworkApprovalCallState) : Service :=
  mkService c (pending_host_approvals s) (cells s) (next_cell s) (session_approved_hosts s) (session_denied_hosts s).
Definition with_approved (s : Service) (x : gset HostApprovalKey) : Service :=
  mkService (calls s) (pending_host_approvals s) (cells s) (next_cell s) x (session_denied_hosts s).
Definition with_denied (s : Service) (x : gset HostApprovalKey) : Service :=
  mkService (calls s) (pending_host_approvals s) (cells s) (next_cell s) (session_approved_hosts s) x.
Definition with_cells (s : Service) (x : gmap nat Cell) : Service :=
  mkService (calls s) (pending_host_approvals s) x (next_cell s) (session_approved_hosts s) (session_denied_hosts s).
Definition with_pending (s : Service) (x : gmap HostApprovalKey nat) : Service :=
  mkService (calls s) x (cells s) (next_cell s) (session_approved_hosts s) (session_denied_hosts s).

(** The cache of [other] after it takes over the approved hosts of [self]. *)
Definition sync_session_approved_hosts_to (self other : Service) : Service := with_approved other (session_approved_hosts self).

(** The cell for the key and whether it is new. *)
Definition get_or_create_pending_approval (s : Service) (key : HostApprovalKey) : Service * nat * bool :=
  match pending_host_approvals s !! key with
  | Some existing => (s, existing, false)
  | None =>
      (mkService (calls s) (<[key := next_cell s]> (pending_host_approvals s)) (<[next_cell s := mkCell None 0]> (cells s))
         (S (next_cell s)) (session_approved_hosts s) (session_denied_hosts s),
       next_cell s, true)
  end.

(** ** What the owner of a prompt does at the end, one access at a time *)

Inductive MicroOp :=
| SetDecision (cell : nat) (d : PendingApprovalDecision)
| NotifyWaiters (cell : nat)
| RemovePending (key : HostApprovalKey)
| RecordOutcome (id : str) (outcome : NetworkApprovalOutcome)
| RemoveDenied (key : HostApprovalKey)
| InsertApproved (key : HostApprovalKey)
| RemoveApproved (key : HostApprovalKey)
| InsertDenied (key : HostApprovalKey).

Definition apply_op (s : Service) (op : MicroOp) : Service :=
  match op with
  | SetDecision cell d => with_cells s (alter (fun c => mkCell (Some d) (notified c)) cell (cells s))
  | NotifyWaiters cell => with_cells s (alter (fun c => mkCell (cell_decision c) (S (notified c))) cell (cells s))
  | RemovePending key => with_pending s (delete key (pending_host_approvals s))
  | RecordOutcome id outcome => with_calls s (record_call_outcome (calls s) id outcome)
  | RemoveDenied key => with_denied s (session_denied_hosts s ∖ {[key]})
  | InsertApproved key => with_approved s ({[key]} ∪ session_approved_hosts s)
  | RemoveApproved key => with_approved s (session_approved_hosts s ∖ {[key]})
  | InsertDenied key => with_denied s ({[key]} ∪ session_denied_hosts s)
  end.

Definition set_decision (cell : nat) (d : PendingApprovalDecision) : list MicroOp := [SetDecision cell d; NotifyWaiters cell].

Definition record_for (owner_call : option str) (outcome : NetworkApprovalOutcome) : list MicroOp :=
  match owner_call with Some id => [RecordOutcome id outcome] | None => [] end.

(** What the session tells about the active turn. *)
Record TurnInfo := mkTurnInfo {
  info_profile : Profiles.PermissionProfile;
  info_policy : AskForApproval;
  info_environment : option str;
  info_guardian : bool;
}.

(** A request on its way: its key, the call it is attributed to, the turn. *)
Record Pending := mkPendingRequest {
  request : NetworkPolicyRequest;
  key : HostApprovalKey;
  owner_call : option str;
  turn : option TurnInfo;
}.

Definition policy_denial_message (p : Pending) : str :=
  let '(_, _, protocol, port) := key p in
  lit "Network access to " ++ [34%N] ++ format_network_target protocol (req_host (request p)) port ++ [34%N]
  ++ lit " was blocked by policy.".

(** The early denials of the owner. *)
Definition deny_ops (p : Pending) (cell : nat) : list MicroOp :=
  set_decision cell PendingDeny ++ [RemovePending (key p)]
  ++ record_for (owner_call p) (DeniedByPolicy (policy_denial_message p)).

Definition prompt_allowed (p : Pending) : bool :=
  is_some_and (turn p) (fun t => permission_profile_allows_network_approval_flow (info_profile t)
                                 && allows_network_approval_flow (info_policy t)).

Definition hook_allow_ops (p : Pending) (cell : nat) : list MicroOp := set_decision cell AllowOnce ++ [RemovePending (key p)].

Definition hook_deny_ops (p : Pending) (cell : nat) (message : str) : list MicroOp :=
  record_for (owner_call p) (DeniedByPolicy message) ++ set_decision cell PendingDeny ++ [RemovePending (key p)].

(** What a review resolves to, whether the denial is cached, and the outcome to
    record; [rejection] is the guardian's message, [timeout] the one for a timeout. *)
Definition resolve_review (guardian : bool) (rejection timeout : str) (d : ReviewDecision)
    : PendingApprovalDecision * bool * option NetworkApprovalOutcome :=
  match d with
  | Approved | ApprovedExecpolicyAmendment _ => (AllowOnce, false, None)
  | ApprovedForSession => (AllowForSession, false, None)
  | NetworkPolicyAmendment a =>
      match action a with
      | ActionAllow => (AllowForSession, false, None)
      | ActionDeny => (PendingDeny, true, Some DeniedByUser)
      end
  | Orchestrator.Denied | Abort => (PendingDeny, false, Some (if guardian then DeniedByPolicy rejection else DeniedByUser))
  | TimedOut => (PendingDeny, false, Some (DeniedByPolicy timeout))
  end.

Definition review_ops (p : Pending) (cell : nat) (resolution : PendingApprovalDecision * bool * option NetworkApprovalOutcome)
    : list MicroOp :=
  let '(resolved, cache_session_deny, outcome) := resolution in
  match outcome with Some o => record_for (owner_call p) o | None => [] end
  ++ match resolved with AllowForSession => [RemoveDenied (key p); InsertApproved (key p)] | _ => [] end
  ++ (if cache_session_deny then [RemoveApproved (key p); InsertDenied (key p)] else [])
  ++ set_decision cell resolved ++ [RemovePending (key p)].

(** ** The machine *)

Inductive Pc :=
| Idle
| Attribute (r : NetworkPolicyRequest)
| ReadTurn (r : NetworkPolicyRequest) (owner : option str) (environment : option str)
| CheckDenied (p : Pending)
| CheckApproved (p : Pending)
| GetPending (p : Pending)
| WaitCreate (cell : nat)
| WaitCheck (cell : nat) (seen : nat)
| WaitNotified (cell : nat) (seen : nat)
| CheckFlow (p : Pending) (cell : nat)
| AskHooks (p : Pending) (cell : nat)
| AskReview (p : Pending) (cell : nat)
| Finishing (ops : list MicroOp) (cell : nat) (key : HostApprovalKey) (answer : PendingApprovalDecision).

Definition Task := nat.

(** A request arrives; a task goes on; the answers of the session, of the hooks
    and of the review; tool calls come and go.  [Drop]: the future of the request
    is dropped, as when its connection is closed. *)
Inductive Action :=
| Arrive (r : NetworkPolicyRequest)
| Run
| Turn (t : option TurnInfo)
| Hooks (answer : option PermissionRequestDecision)
| Review (rejection timeout : str) (d : ReviewDecision)
| Register (call : ActiveNetworkApprovalCall)
| Finish (id : str)
| Drop.

(** The log: who asked a question about which key, which amendments of the network
    policy the session was told to keep, and what a task returned for the cell it
    had (none for an answer from the caches). *)
Inductive Entry :=
| Asked (t : Task) (key : HostApprovalKey)
| Persisted (t : Task) (amendment : NetworkPolicyAmendmentData)
| Returned (t : Task) (cell : option nat) (d : NetworkDecision).

Record State := mkState { service : Service; pcs : Task -> Pc; log : list Entry }.

Definition start : State := mkState service_default (fun _ => Idle) [].

Definition goto (f : Task -> Pc) (t : Task) (p : Pc) : Task -> Pc := fun u => if decide (u = t) then p else f u.

Definition move (s : State) (t : Task) (p : Pc) : State := mkState (service s) (goto (pcs s) t p) (log s).

Definition return_with (s : State) (t : Task) (cell : option nat) (d : NetworkDecision) : State :=
  mkState (service s) (goto (pcs s) t Idle) (log s ++ [Returned t cell d]).

(** The attribution of a request: the owner and the environment, or a denial. *)
Definition attribute (c : NetworkApprovalCallState) (r : NetworkPolicyRequest) : option (option str * option str) :=
  match req_environment_id r with
  | Some env =>
      let owner := match resolve_active_call_attribution c with
                   | AttributedSingle call => if environment_id call == env then Some (registration_id call) else None
                   | AttributedNone | Ambiguous => None
                   end in
      Some (owner, Some env)
  | None =>
      match resolve_active_call_attribution c with
      | AttributedNone => Some (None, None)
      | AttributedSingle call => Some (Some (registration_id call), Some (environment_id call))
      | Ambiguous => None
      end
  end.

(** [persist_network_policy_amendment]; whether it succeeds changes no decision. *)
Definition persisted (t : Task) (d : ReviewDecision) : list Entry :=
  match d with NetworkPolicyAmendment a => [Persisted t a] | _ => [] end.

Definition step (t : Task) (a : Action) (s : State) : option State :=
  let sv := service s in
  match pcs s t, a with
  | _, Drop => Some (move s t Idle)
  | Idle, Arrive r => Some (move s t (Attribute r))
  | Idle, Register call => Some (mkState (with_calls sv (register_call (calls sv) call)) (pcs s) (log s))
  | Idle, Finish id => Some (mkState (with_calls sv (remove_call (calls sv) id).1) (pcs s) (log s))
  | Attribute r, Run =>
      match attribute (calls sv) r with
      | None => Some (return_with s t None deny_not_allowed)
      | Some (owner, environment) => Some (move s t (ReadTurn r owner environment))
      end
  | ReadTurn r owner environment, Turn info =>
      match (match environment with Some env => Some env | None => info ≫= info_environment end) with
      | None => Some (return_with s t None deny_not_allowed)
      | Some env =>
          Some (move s t (CheckDenied (mkPendingRequest r (key_from_request r (approval_protocol (req_protocol r)) env) owner info)))
      end
  | CheckDenied p, Run =>
      if bool_decide (key p ∈ session_denied_hosts sv) then Some (return_with s t None deny_not_allowed)
      else Some (move s t (CheckApproved p))
  | CheckApproved p, Run =>
      if bool_decide (key p ∈ session_approved_hosts sv) then Some (return_with s t None NetworkAllow)
      else Some (move s t (GetPending p))
  | GetPending p, Run =>
      let '(sv, cell, is_owner) := get_or_create_pending_approval sv (key p) in
      Some (mkState sv (goto (pcs s) t (if is_owner then CheckFlow p cell else WaitCreate cell)) (log s))
  | WaitCreate cell, Run =>
      match cells sv !! cell with Some c => Some (move s t (WaitCheck cell (notified c))) | None => None end
  | WaitCheck cell seen, Run =>
      match cells sv !! cell with
      | Some c =>
          match cell_decision c with
          | Some d => Some (return_with s t (Some cell) (to_network_decision d))
          | None => Some (move s t (WaitNotified cell seen))
          end
      | None => None
      end
  | WaitNotified cell seen, Run =>
      match cells sv !! cell with
      | Some c => if notified c =? seen then None else Some (move s t (WaitCreate cell))
      | None => None
      end
  | CheckFlow p cell, Run =>
      if prompt_allowed p then
        Some (mkState sv (goto (pcs s) t (AskHooks p cell)) (log s ++ [Asked t (key p)]))
      else Some (move s t (Finishing (deny_ops p cell) cell (key p) PendingDeny))
  | AskHooks p cell, Hooks answer =>
      match answer with
      | Some HookAllow => Some (move s t (Finishing (hook_allow_ops p cell) cell (key p) AllowOnce))
      | Some (HookDeny message) => Some (move s t (Finishing (hook_deny_ops p cell message) cell (key p) PendingDeny))
      | None => Some (move s t (AskReview p cell))
      end
  | AskReview p cell, Review rejection timeout d =>
      let resolution := resolve_review (is_some_and (turn p) info_guardian) rejection timeout d in
      Some (mkState sv (goto (pcs s) t (Finishing (review_ops p cell resolution) cell (key p) resolution.1.1))
              (log s ++ persisted t d))
  | Finishing (op :: ops) cell k answer, Run =>
      Some (mkState (apply_op sv op) (goto (pcs s) t (Finishing ops cell k answer)) (log s))
  | Finishing [] cell k answer, Run => Some (return_with s t (Some cell) (to_network_decision answer))
  | _, _ => None
  end.

(** A schedule; steps that are not possible are skipped. *)
Definition exec (sched : list (Task * Action)) (s : State) : State :=
  fold_left (fun s '(t, a) => default s (step t a s)) sched s.

(** With or without dropped requests. *)
Inductive reachable (drops : bool) : State -> Prop :=
| reachable_start : reachable drops start
| reachable_step s t a s' :
    reachable drops s -> (drops = true \/ a <> Drop) -> step t a s = Some s' -> reachable drops s'.

End NetworkApproval.
