(* ===== verification/NetworkApprovalFacts.v ===== *)
(** Theorems on network approvals: one question per host at a time, one answer
    for all who share a question, and no waiter is forgotten unless the request
    that asks is dropped. *)

From stdpp Require Import base list option numbers strings gmap sets.
From S2P Require Import Prelude RustStr Profiles ExecPolicy ExecApproval NetworkState NetworkProxy Orchestrator NetworkApproval.

Module NetworkApprovalFacts.
Import ExecApproval Orchestrator NetworkProxy NetworkApproval.
Open Scope rust_scope.

(** ** Owners *)

Inductive Phase := Undecided | Decided | Notified | Removed.

Definition is_set (op : MicroOp) : bool := match op with SetDecision _ _ => true | _ => false end.
Definition is_notify (op : MicroOp) : bool := match op with NotifyWaiters _ => true | _ => false end.
Definition is_remove (op : MicroOp) : bool := match op with RemovePending _ => true | _ => false end.
Definition is_side (op : MicroOp) : bool := negb (is_set op || is_notify op || is_remove op).

Definition phase (ops : list MicroOp) : Phase :=
  if existsb is_set ops then Undecided
  else if existsb is_notify ops then Decided
  else if existsb is_remove ops then Notified
  else Removed.

(** The task that asks for a cell: its key, the cell, and how far it is. *)
Definition owner (pc : Pc) : option (str * str * str * N * nat * Phase) :=
  match pc with
  | CheckFlow p c | AskHooks p c | AskReview p c => Some (key p, c, Undecided)
  | Finishing ops c k _ => Some (k, c, phase ops)
  | _ => None
  end.

(** What is left to do at the end is a tail of: side effects, the decision, the
    notification, the removal, side effects. *)
Definition tail_of (c : nat) (k : str * str * str * N) (ans : PendingApprovalDecision) (ops : list MicroOp) : Prop :=
  exists before after, Forall (fun op => is_side op = true) before /\ Forall (fun op => is_side op = true) after /\
    (ops = before ++ [SetDecision c ans; NotifyWaiters c; RemovePending k] ++ after \/
     ops = [NotifyWaiters c; RemovePending k] ++ after \/ ops = RemovePending k :: after \/ ops = after).

Definition pc_wf (pc : Pc) : Prop :=
  match pc with
  | Finishing ops c k ans => tail_of c k ans ops
  | WaitNotified _ seen => seen = 0
  | _ => True
  end.

Definition mentions (pc : Pc) : option nat :=
  match pc with
  | WaitCreate c | WaitCheck c _ | WaitNotified c _ | CheckFlow _ c | AskHooks _ c | AskReview _ c | Finishing _ c _ _ => Some c
  | _ => None
  end.

(** What an owner has made of its cell; what a waiter has seen of its cell. *)
Definition expects (pc : Pc) (cell : Cell) : Prop :=
  match pc with
  | CheckFlow _ _ | AskHooks _ _ | AskReview _ _ => cell_decision cell = None
  | Finishing ops _ _ ans =>
      match phase ops with
      | Undecided => cell_decision cell = None
      | Decided => cell_decision cell = Some ans /\ notified cell = 0
      | Notified | Removed => cell_decision cell = Some ans /\ notified cell = 1
      end
  | WaitCheck _ seen => seen <= notified cell
  | _ => True
  end.

Record inv (s : State) : Prop := mkInv {
  inv_pending t k c ph : owner (pcs s t) = Some (k, c, ph) -> ph <> Removed -> pending_host_approvals (service s) !! k = Some c;
  inv_unique t u k c ph k' ph' : owner (pcs s t) = Some (k, c, ph) -> owner (pcs s u) = Some (k', c, ph') -> t = u;
  inv_fresh k c : pending_host_approvals (service s) !! k = Some c -> c < next_cell (service s);
  inv_cells c : is_Some (cells (service s) !! c) <-> c < next_cell (service s);
  inv_mentions t c : mentions (pcs s t) = Some c -> c < next_cell (service s);
  inv_wf t : pc_wf (pcs s t);
  inv_expects t c cell : mentions (pcs s t) = Some c -> cells (service s) !! c = Some cell -> expects (pcs s t) cell;
  inv_quiet c cell : cells (service s) !! c = Some cell -> cell_decision cell = None -> notified cell = 0;
  inv_log t c d : Returned t (Some c) d ∈ log s ->
    exists cell e, cells (service s) !! c = Some cell /\ cell_decision cell = Some e /\ d = to_network_decision e;
}.

(** Without dropped requests: an undecided cell, or one whose waiters were not
    notified, has an owner that is at it. *)
Definition owned (s : State) : Prop :=
  forall c cell, cells (service s) !! c = Some cell -> cell_decision cell = None \/ notified cell = 0 ->
    exists t k ph, owner (pcs s t) = Some (k, c, ph) /\ (ph = Undecided \/ ph = Decided).

(** ** Tails *)

Lemma phase_side (ops : list MicroOp) : Forall (fun op => is_side op = true) ops -> phase ops = Removed.
Proof.
  intros Hs. unfold phase. assert (H : existsb is_set ops = false /\ existsb is_notify ops = false /\ existsb is_remove ops = false).
  { induction Hs as [|op ops Hop _ (IH1 & IH2 & IH3)]; [done|]. cbn. rewrite IH1, IH2, IH3. by destruct op. }
  destruct H as (-> & -> & ->). done.
Qed.

Lemma phase_before before rest : existsb is_set rest = true -> phase (before ++ rest) = Undecided.
Proof. intros Hr. unfold phase. by rewrite existsb_app, Hr, orb_true_r. Qed.

Lemma moved_eq f t p : goto f t p t = p.
Proof. unfold goto. by rewrite decide_True. Qed.

Lemma moved_ne f t p u : u <> t -> goto f t p u = f u.
Proof. intros Hn. unfold goto. by rewrite decide_False. Qed.

(** A step that leaves the cells and the pending approvals alone and moves one
    task to a program counter with the same claim on a cell, or none. *)
Lemma inv_local s t sv' p' log' :
  inv s ->
  pending_host_approvals sv' = pending_host_approvals (service s) -> cells sv' = cells (service s) ->
  next_cell sv' = next_cell (service s) ->
  (owner p' = owner (pcs s t) \/ owner p' = None) ->
  (forall c, mentions p' = Some c -> c < next_cell (service s) /\ forall cell, cells (service s) !! c = Some cell -> expects p' cell) ->
  pc_wf p' ->
  (log' = log s \/ exists e, log' = log s ++ [e] /\
     match e with
     | Returned _ (Some c) d => exists cell x, cells (service s) !! c = Some cell /\ cell_decision cell = Some x /\ d = to_network_decision x
     | _ => True
     end) ->
  inv (mkState sv' (goto (pcs s) t p') log').
Proof.
  intros I Hp Hc Hn Ho Hm Hw Hl. destruct sv' as [cs pd ce nx ap de]. cbn in Hp, Hc, Hn. subst.
  assert (Hown : forall u k c ph, owner (goto (pcs s) t p' u) = Some (k, c, ph) -> owner (pcs s u) = Some (k, c, ph)).
  { intros u k c ph. unfold goto. case_decide; [subst|done]. destruct Ho as [->| ->]; done. }
  split; cbn.
  - intros u k c ph Hu. apply (inv_pending s I u k c ph). auto.
  - intros u v k c ph k' ph' Hu Hv. apply (inv_unique s I u v k c ph k' ph'); auto.
  - apply (inv_fresh s I).
  - apply (inv_cells s I).
  - intros u c. unfold goto. case_decide; [intros Hu; by apply Hm|apply (inv_mentions s I)].
  - intros u. unfold goto. case_decide; [done|apply (inv_wf s I)].
  - intros u c cell. unfold goto. case_decide; [intros Hu; by apply Hm|apply (inv_expects s I)].
  - apply (inv_quiet s I).
  - intros u c d. destruct Hl as [->|(e & -> & He)]; [apply (inv_log s I)|]. intros [Hin|Hin%list_elem_of_singleton]%elem_of_app.
    + by apply (inv_log s I) in Hin.
    + by subst e.
Qed.

Lemma phase_cons_side op ops : is_side op = true -> phase (op :: ops) = phase ops.
Proof. unfold phase. by destruct op. Qed.

Lemma tail_step c k ans op ops :
  tail_of c k ans (op :: ops) ->
  tail_of c k ans ops /\
  (is_side op = true /\ phase (op :: ops) = phase ops \/
   op = SetDecision c ans /\ phase (op :: ops) = Undecided /\ phase ops = Decided \/
   op = NotifyWaiters c /\ phase (op :: ops) = Decided /\ phase ops = Notified \/
   op = RemovePending k /\ phase (op :: ops) = Notified /\ phase ops = Removed).
Proof.
  intros (before & after & Hb & Ha & Hops).
  assert (Hrem : forall l, Forall (fun op => is_side op = true) l ->
    existsb is_set l = false /\ existsb is_notify l = false /\ existsb is_remove l = false).
  { induction 1 as [|x l Hx _ (IH1 & IH2 & IH3)]; [done|]. cbn. rewrite IH1, IH2, IH3. by destruct x. }
  destruct (Hrem after Ha) as (Ha1 & Ha2 & Ha3).
  destruct Hops as [Hops|[Hops|[Hops|Hops]]].
  - destruct before as [|b before]; cbn in Hops; simplify_eq.
    + split; [exists [], after; by auto 12|]. right. left. unfold phase. cbn. by rewrite Ha1.
    + inversion Hb as [|? ? Hb1 Hb2]; subst. split; [exists before, after; by auto 12|]. left. by rewrite phase_cons_side.
  - cbn in Hops; simplify_eq. split; [exists [], after; by auto 12|]. right; right; left. unfold phase. cbn. by rewrite Ha1, Ha2.
  - simplify_eq. split; [exists [], after; by auto 12|]. right; right; right. unfold phase. cbn. by rewrite Ha1, Ha2, Ha3.
  - subst after. inversion Ha as [|? ? Hb1 Hb2]; subst. split; [exists [], ops; by auto 12|]. left. by rewrite phase_cons_side.
Qed.

(** Changing one cell. *)
Lemma alter_cell (m : gmap nat Cell) f c c' cell :
  alter f c m !! c' = Some cell ->
  c' = c /\ (exists old, m !! c = Some old /\ cell = f old) \/ c' <> c /\ m !! c' = Some cell.
Proof.
  destruct (decide (c' = c)) as [->|Hne]; [rewrite lookup_alter_eq|rewrite lookup_alter_ne by done]; [|by auto].
  destruct (m !! c) as [old|]; cbn; intros [= <-]. left. eauto.
Qed.

Lemma alter_is_Some (m : gmap nat Cell) f c c' : is_Some (alter f c m !! c') <-> is_Some (m !! c').
Proof.
  destruct (decide (c' = c)) as [->|Hne]; [rewrite lookup_alter_eq|by rewrite lookup_alter_ne by done].
  by rewrite fmap_is_Some.
Qed.

(** ** The owner of a cell takes its next step *)

Section OwnerStep.
Context (s : State) (t : Task) (op : MicroOp) (ops : list MicroOp) (c : nat) (k : str * str * str * N)
  (ans : PendingApprovalDecision) (cell : Cell).
Context (I : inv s) (Ht : pcs s t = Finishing (op :: ops) c k ans) (Hcell : cells (service s) !! c = Some cell)
  (Hwf : tail_of c k ans ops).

Let after_step : Task -> Pc := goto (pcs s) t (Finishing ops c k ans).

Lemma owner_before : owner (pcs s t) = Some (k, c, phase (op :: ops)).
Proof using Ht. by rewrite Ht. Qed.

Lemma owners_after u k1 c1 ph1 : owner (after_step u) = Some (k1, c1, ph1) -> exists k2 ph2, owner (pcs s u) = Some (k2, c1, ph2).
Proof using Ht.
  unfold after_step, goto. case_decide; [subst|by eauto]. cbn. intros [= <- <- <-]. eexists _, _. apply owner_before.
Qed.

Lemma unique_after u v k1 c1 ph1 k2 ph2 :
  owner (after_step u) = Some (k1, c1, ph1) -> owner (after_step v) = Some (k2, c1, ph2) -> u = v.
Proof using I Ht.
  intros (? & ? & Hu)%owners_after (? & ? & Hv)%owners_after. by eapply (inv_unique s I).
Qed.

Lemma no_other_owner u k' ph : u <> t -> owner (pcs s u) = Some (k', c, ph) -> False.
Proof using I Ht. intros Hn Hu. apply Hn. eapply (inv_unique s I); [exact Hu|apply owner_before]. Qed.

Lemma mentions_after u c' : mentions (after_step u) = Some c' -> c' < next_cell (service s).
Proof using I Ht.
  unfold after_step, goto. case_decide; [intros [= <-]; apply (inv_mentions s I t); by rewrite Ht|apply (inv_mentions s I)].
Qed.

Lemma wf_after u : pc_wf (after_step u).
Proof using I Hwf. unfold after_step, goto. case_decide; [done|apply (inv_wf s I)]. Qed.

(** A change of the owner's cell that only weakens what the others expect of it. *)
Lemma inv_cell_change (f : Cell -> Cell) :
  (forall u, u <> t -> mentions (pcs s u) = Some c -> owner (pcs s u) = None -> expects (pcs s u) cell -> expects (pcs s u) (f cell)) ->
  expects (Finishing ops c k ans) (f cell) ->
  (cell_decision (f cell) = None -> notified (f cell) = 0) ->
  (forall e, cell_decision cell = Some e -> cell_decision (f cell) = Some e) ->
  phase (op :: ops) <> Removed ->
  inv (mkState (with_cells (service s) (alter f c (cells (service s)))) after_step (log s)).
Proof using I Ht Hcell Hwf.
  intros Hoth Hself Hq Hst Hph. split; cbn [service pcs log with_cells pending_host_approvals next_cell cells].
  - intros u k' c' ph Hu Hne. destruct (decide (u = t)) as [->|Hn].
    + unfold after_step in Hu. rewrite moved_eq in Hu. injection Hu as <- <- <-. eapply (inv_pending s I t); [exact owner_before|done].
    + unfold after_step in Hu. rewrite moved_ne in Hu by done. by eapply (inv_pending s I u).
  - exact unique_after.
  - apply (inv_fresh s I).
  - intros c'. rewrite alter_is_Some. apply (inv_cells s I).
  - exact mentions_after.
  - exact wf_after.
  - intros u c' cell' Hu Hc'. unfold after_step in *. destruct (decide (u = t)) as [->|Hn].
    + rewrite moved_eq in *. injection Hu as <-. rewrite lookup_alter_eq, Hcell in Hc'. by injection Hc' as <-.
    + rewrite moved_ne in * by done. apply alter_cell in Hc' as [(-> & old & Hold & ->)|(_ & Hc')]; [|by eapply (inv_expects s I)].
      rewrite Hcell in Hold. injection Hold as <-. pose proof (inv_expects s I u c cell Hu Hcell) as Heu.
      destruct (owner (pcs s u)) as [[[k' c''] ph]|] eqn:Eo; [|by apply Hoth].
      assert (c'' = c) as -> by (destruct (pcs s u); cbn in *; congruence). by destruct (no_other_owner u k' ph Hn Eo).
  - intros c' cell' [(-> & old & Hold & ->)|(_ & Hc')]%alter_cell; [|by apply (inv_quiet s I c')].
    rewrite Hcell in Hold. by injection Hold as <-.
  - intros u c' d Hin. destruct (inv_log s I u c' d Hin) as (x & e & Hx & He & ->). destruct (decide (c' = c)) as [->|Hne].
    + rewrite Hcell in Hx. injection Hx as <-. exists (f cell), e. rewrite lookup_alter_eq, Hcell. cbn. auto.
    + exists x, e. by rewrite lookup_alter_ne.
Qed.

Lemma inv_removal :
  phase (op :: ops) = Notified -> phase ops = Removed ->
  inv (mkState (with_pending (service s) (delete k (pending_host_approvals (service s)))) after_step (log s)).
Proof using I Ht Hcell Hwf.
  intros Hph Hph'. split; cbn [service pcs log with_pending pending_host_approvals next_cell cells].
  - intros u k' c' ph Hu Hne. unfold after_step in Hu. destruct (decide (u = t)) as [->|Hn].
    { rewrite moved_eq in Hu. cbn in Hu. injection Hu as <- <- <-. congruence. }
    rewrite moved_ne in Hu by done. pose proof (inv_pending s I u k' c' ph Hu Hne) as Hp.
    rewrite lookup_delete_ne; [done|]. intros <-.
    assert (pending_host_approvals (service s) !! k = Some c) as Hp' by (eapply (inv_pending s I t); [exact owner_before|by rewrite Hph]).
    rewrite Hp in Hp'. injection Hp' as ->. by eapply no_other_owner.
  - exact unique_after.
  - intros k' c' [_ Hp]%lookup_delete_Some. by eapply (inv_fresh s I).
  - apply (inv_cells s I).
  - exact mentions_after.
  - exact wf_after.
  - intros u c' cell' Hu Hc'. unfold after_step in *. destruct (decide (u = t)) as [->|Hn].
    + rewrite moved_eq in *. injection Hu as <-. rewrite Hcell in Hc'. injection Hc' as <-.
      pose proof (inv_expects s I t c cell) as Hex. rewrite Ht in Hex. specialize (Hex eq_refl Hcell).
      cbn [expects] in *. by rewrite Hph', Hph in *.
    + rewrite moved_ne in * by done. by eapply (inv_expects s I).
  - apply (inv_quiet s I).
  - apply (inv_log s I).
Qed.

End OwnerStep.

Lemma inv_owner_step s t op ops c k ans :
  inv s -> pcs s t = Finishing (op :: ops) c k ans ->
  inv (mkState (apply_op (service s) op) (goto (pcs s) t (Finishing ops c k ans)) (log s)).
Proof.
  intros I Ht. pose proof (inv_wf s I t) as Hwf. rewrite Ht in Hwf. cbn in Hwf. apply tail_step in Hwf as [Hwf Hop].
  assert (Hmt : mentions (pcs s t) = Some c) by (by rewrite Ht).
  pose proof (inv_mentions s I t c Hmt) as Hlt. destruct (proj2 (inv_cells s I c) Hlt) as [cell Hcell].
  pose proof (inv_expects s I t c cell Hmt Hcell) as Hex. rewrite Ht in Hex. cbn [expects] in Hex.
  destruct Hop as [[Hs Hph]|[(-> & Hph & Hph')|[(-> & Hph & Hph')|(-> & Hph & Hph')]]].
  - apply inv_local; try done; try (by destruct op); [left; rewrite Ht; cbn; by rewrite Hph| |by left].
    intros c' [= <-]. split; [done|]. intros cell' Hc'. simplify_eq. cbn [expects]. by rewrite Hph in Hex.
  - rewrite Hph in Hex. eapply inv_cell_change; try done; cbn.
    + intros u _ _ Ho He. by destruct (pcs s u).
    + rewrite Hph'. split; [done|]. by apply (inv_quiet s I c).
    + congruence.
  - rewrite Hph in Hex. destruct Hex as [Hd Hnt]. eapply inv_cell_change; try done; cbn.
    + intros u _ _ Ho He. destruct (pcs s u); cbn in *; try done. lia.
    + rewrite Hph', Hnt. done.
    + by rewrite Hd.
    + by rewrite Hph.
  - by eapply inv_removal.
Qed.

(** ** The other steps *)

(** A new cell has one owner and nobody waits for it. *)
Lemma inv_create s t p :
  inv s -> pending_host_approvals (service s) !! key p = None ->
  inv (mkState (get_or_create_pending_approval (service s) (key p)).1.1 (goto (pcs s) t (CheckFlow p (next_cell (service s)))) (log s)).
Proof.
  intros I Hp. unfold get_or_create_pending_approval. rewrite Hp. cbn [fst].
  set (n := next_cell (service s)).
  assert (Hold : forall u c, mentions (pcs s u) = Some c -> c <> n) by (intros u c Hm; apply (inv_mentions s I) in Hm; lia).
  assert (Hno : forall u k c ph, owner (pcs s u) = Some (k, c, ph) -> c <> n).
  { intros u k c ph Ho. apply (Hold u). destruct (pcs s u); cbn in *; congruence. }
  split; cbn [service pcs log pending_host_approvals next_cell cells]; fold n.
  - intros u k c ph. unfold goto. case_decide.
    + cbn. intros [= <- <- <-] _. apply lookup_insert_eq.
    + intros Ho Hne. pose proof (inv_pending s I u k c ph Ho Hne). rewrite lookup_insert_ne; [done|congruence].
  - intros u v k c ph k' ph'. unfold goto. repeat case_decide; [congruence| | |apply (inv_unique s I)]; cbn.
    + intros [= <- <- <-] Ho%Hno. done.
    + intros Ho%Hno [= <- <- <-]. done.
  - intros k c. destruct (decide (k = key p)) as [->|Hne].
    + rewrite lookup_insert_eq. intros [= <-]. lia.
    + rewrite lookup_insert_ne by done. intros Hk%(inv_fresh s I). fold n in Hk. lia.
  - intros c. destruct (decide (c = n)) as [->|Hne].
    + rewrite lookup_insert_eq. split; [lia|by eexists].
    + rewrite lookup_insert_ne by done. rewrite (inv_cells s I). fold n. lia.
  - intros u c. unfold goto. case_decide; [intros [= <-]; lia|]. intros Hm%(inv_mentions s I). fold n in Hm. lia.
  - intros u. unfold goto. case_decide; [done|apply (inv_wf s I)].
  - intros u c cell. unfold goto. case_decide.
    + intros [= <-]. rewrite lookup_insert_eq. by intros [= <-].
    + intros Hm. rewrite lookup_insert_ne by (symmetry; by eapply Hold). by apply (inv_expects s I).
  - intros c cell. destruct (decide (c = n)) as [->|Hne].
    + rewrite lookup_insert_eq. by intros [= <-].
    + rewrite lookup_insert_ne by done. apply (inv_quiet s I).
  - intros u c d Hin. destruct (inv_log s I u c d Hin) as (cell & e & Hc & He). exists cell, e. split; [|done].
    rewrite lookup_insert_ne; [done|]. intros <-. assert (n < n); [|lia]. apply (inv_cells s I). by eexists.
Qed.

Lemma inv_calls s cs : inv s -> inv (mkState (with_calls (service s) cs) (pcs s) (log s)).
Proof. intros I. by destruct I. Qed.

Lemma sides_record owner outcome : Forall (fun op => is_side op = true) (record_for owner outcome).
Proof. destruct owner; repeat constructor. Qed.

Definition fresh_tail (c : nat) (k : str * str * str * N) (ans : PendingApprovalDecision) (ops : list MicroOp) : Prop :=
  tail_of c k ans ops /\ phase ops = Undecided.

(** All ways to answer end with the same three accesses, in the same order. *)
Lemma tail_intro c k ans before after :
  Forall (fun op => is_side op = true) before -> Forall (fun op => is_side op = true) after ->
  fresh_tail c k ans (before ++ set_decision c ans ++ [RemovePending k] ++ after).
Proof. intros Hb Ha. split; [exists before, after; auto|by apply phase_before]. Qed.

Lemma tail_deny p c : fresh_tail c (key p) PendingDeny (deny_ops p c).
Proof. apply (tail_intro c (key p) PendingDeny []); [done|apply sides_record]. Qed.

Lemma tail_hook_allow p c : fresh_tail c (key p) AllowOnce (hook_allow_ops p c).
Proof. by apply (tail_intro c (key p) AllowOnce [] []). Qed.

Lemma tail_hook_deny p c message : fresh_tail c (key p) PendingDeny (hook_deny_ops p c message).
Proof. apply (tail_intro c (key p) PendingDeny (record_for _ _) []); [apply sides_record|done]. Qed.

Lemma tail_review p c r : fresh_tail c (key p) r.1.1 (review_ops p c r).
Proof.
  destruct r as [[d cache] o]. cbn [fst review_ops]. rewrite !(assoc_L (++)), <- !(assoc_L (++) _ (set_decision _ _)).
  rewrite <- (app_nil_r [RemovePending _]). apply tail_intro; [|done]. rewrite !Forall_app. split_and!.
  - destruct o; [apply sides_record|done].
  - destruct d; repeat constructor.
  - destruct cache; repeat constructor.
Qed.

(** The task goes on to end with an answer; nothing else changes. *)
Lemma inv_answer s t p c ans ops log' :
  inv s -> owner (pcs s t) = Some (key p, c, Undecided) -> fresh_tail c (key p) ans ops ->
  log' = log s \/ (exists a, log' = log s ++ [Persisted t a]) ->
  inv (mkState (service s) (goto (pcs s) t (Finishing ops c (key p) ans)) log').
Proof.
  intros I Ho [Ht Hph] Hl. assert (Hm : mentions (pcs s t) = Some c) by (destruct (pcs s t); cbn in *; congruence).
  apply inv_local; try done; [left; cbn; by rewrite Hph, Ho| |destruct Hl as [->|(a & ->)]; [by left|right; by eexists]].
  intros c' [= <-]. split; [by apply (inv_mentions s I t)|]. intros cell Hc. pose proof (inv_expects s I t c cell Hm Hc) as He.
  cbn [expects]. rewrite Hph. destruct (pcs s t) eqn:Et; cbn in Ho, He; try done; try (by injection Ho as -> -> ->).
  injection Ho as -> -> Hp. by rewrite Hp in He.
Qed.

(** The task moves without an owner's claim. *)
Lemma inv_leave s t p' log' :
  inv s -> owner p' = None -> pc_wf p' ->
  (forall c, mentions p' = Some c -> c < next_cell (service s) /\ forall cell, cells (service s) !! c = Some cell -> expects p' cell) ->
  (log' = log s \/ exists e, log' = log s ++ [e] /\
     match e with
     | Returned _ (Some c) d => exists cell x, cells (service s) !! c = Some cell /\ cell_decision cell = Some x /\ d = to_network_decision x
     | _ => True
     end) ->
  inv (mkState (service s) (goto (pcs s) t p') log').
Proof. intros I Ho Hw Hm Hl. apply inv_local; auto. Qed.

(** The kinds of steps. *)
Inductive step_kind (s : State) (t : Task) (a : Action) : State -> Prop :=
| kind_calls cs : step_kind s t a (mkState (with_calls (service s) cs) (pcs s) (log s))
| kind_leave p' log' :
    owner p' = None -> pc_wf p' ->
    (forall c, mentions p' = Some c -> c < next_cell (service s) /\ forall cell, cells (service s) !! c = Some cell -> expects p' cell) ->
    (log' = log s \/ exists e, log' = log s ++ [e] /\
       match e with
       | Returned _ (Some c) d => exists cell x, cells (service s) !! c = Some cell /\ cell_decision cell = Some x /\ d = to_network_decision x
       | _ => True
       end) ->
    owner (pcs s t) = None \/ a = Drop \/ (exists c k ans, pcs s t = Finishing [] c k ans) ->
    step_kind s t a (mkState (service s) (goto (pcs s) t p') log')
| kind_ask p c p' log' :
    owner (pcs s t) = Some (key p, c, Undecided) -> p' = AskHooks p c \/ p' = AskReview p c ->
    log' = log s \/ log' = log s ++ [Asked t (key p)] ->
    step_kind s t a (mkState (service s) (goto (pcs s) t p') log')
| kind_answer p c ans ops log' :
    owner (pcs s t) = Some (key p, c, Undecided) -> fresh_tail c (key p) ans ops ->
    log' = log s \/ (exists a, log' = log s ++ [Persisted t a]) ->
    step_kind s t a (mkState (service s) (goto (pcs s) t (Finishing ops c (key p) ans)) log')
| kind_create p :
    owner (pcs s t) = None -> pending_host_approvals (service s) !! key p = None ->
    step_kind s t a (mkState (get_or_create_pending_approval (service s) (key p)).1.1
                       (goto (pcs s) t (CheckFlow p (next_cell (service s)))) (log s))
| kind_owner op ops c k ans :
    pcs s t = Finishing (op :: ops) c k ans ->
    step_kind s t a (mkState (apply_op (service s) op) (goto (pcs s) t (Finishing ops c k ans)) (log s)).

(** A step that returns with an answer that is not about a cell. *)
Ltac leave Et :=
  apply kind_leave; [done|done|done| |first [by (left; rewrite Et)|by (right; left)]];
  first [by left|right; by eexists].

Lemma waiter_step s t a s' c :
  inv s -> (pcs s t = WaitCreate c \/ exists seen, pcs s t = WaitCheck c seen \/ pcs s t = WaitNotified c seen) ->
  a <> Drop -> step t a s = Some s' -> step_kind s t a s'.
Proof.
  intros I Hw Hd Hs. unfold step, move, return_with in Hs.
  assert (Hm : c < next_cell (service s)).
  { apply (inv_mentions s I t). destruct Hw as [->|(seen & [->| ->])]; done. }
  destruct (proj2 (inv_cells s I c) Hm) as [cell Hc].
  destruct Hw as [Et|(seen & [Et|Et])]; rewrite Et in Hs; destruct a; try done; rewrite Hc in Hs.
  - injection Hs as <-. apply kind_leave; try done; [|by left|left; by rewrite Et].
    intros c' [= <-]. split; [done|]. intros cell' Hc'. simplify_eq. cbn. lia.
  - destruct (cell_decision cell) as [d|] eqn:Ed; injection Hs as <-; apply kind_leave; try done; try (left; by rewrite Et); cbn.
    + right. eexists. split; [done|]. cbn. by eauto 6.
    + pose proof (inv_expects s I t c cell) as He. rewrite Et in He. cbn in He. specialize (He eq_refl Hc).
      rewrite (inv_quiet s I c cell Hc Ed) in He. lia.
    + intros c' [= <-]. by split.
    + by left.
  - destruct (notified cell =? seen); [done|]. injection Hs as <-. apply kind_leave; try done; [|by left|left; by rewrite Et].
    intros c' [= <-]. by split.
Qed.

Lemma owner_task_step s t a s' k c ph :
  inv s -> owner (pcs s t) = Some (k, c, ph) -> a <> Drop -> step t a s = Some s' -> step_kind s t a s'.
Proof.
  intros I Ho Hd Hs. unfold step, move, return_with in Hs. destruct (pcs s t) eqn:Et; try done; destruct a; try done;
    try (by destruct ops).
  - destruct (prompt_allowed p); injection Hs as <-.
    + eapply kind_ask; [by rewrite Et|by left|by right].
    + apply kind_answer; [by rewrite Et|apply tail_deny|by left].
  - destruct answer as [[|message]|]; injection Hs as <-.
    + apply kind_answer; [by rewrite Et|apply tail_hook_allow|by left].
    + apply kind_answer; [by rewrite Et|apply tail_hook_deny|by left].
    + eapply kind_ask; [by rewrite Et|by right|by left].
  - injection Hs as <-. apply kind_answer; [by rewrite Et|apply tail_review|].
    destruct d; cbn; rewrite ?app_nil_r; eauto.
  - destruct ops as [|op ops]; injection Hs as <-; [|by apply kind_owner].
    apply kind_leave; try done; [|by eauto 6]. right. eexists. split; [done|]. cbn.
    pose proof (inv_mentions s I t cell) as Hm. rewrite Et in Hm. specialize (Hm eq_refl).
    destruct (proj2 (inv_cells s I cell) Hm) as [x Hx]. pose proof (inv_expects s I t cell x) as He. rewrite Et in He. cbn in He.
    destruct (He eq_refl Hx) as [He1 _]. eauto.
Qed.

Lemma step_drop s t : step t Drop s = Some (move s t Idle).
Proof. unfold step. by destruct (pcs s t) as [| | | | | | | | | | | |[|]]. Qed.

Lemma step_classify s t a s' : inv s -> step t a s = Some s' -> step_kind s t a s'.
Proof.
  intros I Hs. assert (a = Drop \/ a <> Drop) as [->|Hd] by (destruct a; auto; by right).
  { rewrite step_drop in Hs. injection Hs as <-. leave I. }
  destruct (owner (pcs s t)) as [[[k c] ph]|] eqn:Eo; [by eapply owner_task_step|].
  destruct (pcs s t) eqn:Et; try done; try (eapply waiter_step; eauto; done);
    unfold step, move, return_with in Hs; rewrite Et in Hs; destruct a; try done.
  - injection Hs as <-. leave Et.
  - injection Hs as <-. apply kind_calls.
  - injection Hs as <-. apply kind_calls.
  - destruct (attribute _ _) as [[? ?]|]; injection Hs as <-; leave Et.
  - case_match; injection Hs as <-; leave Et.
  - case_match; injection Hs as <-; leave Et.
  - case_match; injection Hs as <-; leave Et.
  - destruct (pending_host_approvals (service s) !! key p) as [c|] eqn:Ep.
    + unfold get_or_create_pending_approval in Hs. rewrite Ep in Hs. injection Hs as <-.
      destruct s as [sv pc lg]. apply kind_leave; try done; [|by left|by left; rewrite Et].
      intros c' [= <-]. split; [by eapply (inv_fresh _ I)|done].
    + pose proof (kind_create s t Run p) as Hk. rewrite Et in Hk. specialize (Hk eq_refl Ep).
      unfold get_or_create_pending_approval in *. rewrite Ep in *. by injection Hs as <-.
Qed.

Lemma service_inv_step s t a s' : inv s -> step t a s = Some s' -> inv s'.
Proof.
  intros I Hs. destruct (step_classify s t a s' I Hs) as [cs|p' log' Ho Hw Hm Hl _|p c p' log' Ho Hp' Hl|p c ans ops log' Ho Ht Hl|p Ho Hp|op ops c k ans Ht].
  - by apply inv_calls.
  - by apply inv_leave.
  - assert (Hm : mentions (pcs s t) = Some c) by (destruct (pcs s t); cbn in *; congruence).
    apply inv_local; try done; [left; rewrite Ho; by destruct Hp' as [->| ->]| |by destruct Hp' as [->| ->]|].
    + intros c' Hc'. assert (c' = c) as -> by (destruct Hp' as [->| ->]; cbn in Hc'; congruence).
      split; [by apply (inv_mentions s I t)|]. intros cell Hc. pose proof (inv_expects s I t c cell Hm Hc) as He.
      destruct Hp' as [->| ->]; destruct (pcs s t) eqn:Et; cbn in Ho, He |- *; try done;
        injection Ho as -> -> Hp; by rewrite Hp in He.
    + destruct Hl as [->| ->]; [by left|right; by eexists].
  - by apply inv_answer.
  - by apply inv_create.
  - by apply inv_owner_step.
Qed.

Lemma service_inv_start : inv start.
Proof.
  split; cbn; intros *; rewrite ?lookup_empty; try done.
  - split; [by intros []|lia].
  - by intros ?%not_elem_of_nil.
Qed.

Lemma service_inv drops s : reachable drops s -> inv s.
Proof. induction 1; [apply service_inv_start|by eapply service_inv_step]. Qed.

(** ** Theorems on questions and answers *)

Definition asking (pc : Pc) (k : str * str * str * N) : Prop :=
  exists p c, (pc = AskHooks p c \/ pc = AskReview p c) /\ key p = k.

(** Whatever the interleaving, and even when requests are dropped, at most one request asks hooks,
    the guardian or the user about a host, protocol, port and environment at a time. *)
Theorem single_prompt s t u k : reachable true s -> asking (pcs s t) k -> asking (pcs s u) k -> t = u.
Proof.
  intros I%service_inv (p & c & Hp & <-) (q & c' & Hq & Hk).
  assert (Ho : owner (pcs s t) = Some (key p, c, Undecided)) by (by destruct Hp as [->| ->]).
  assert (Ho' : owner (pcs s u) = Some (key p, c', Undecided)) by (rewrite <- Hk; by destruct Hq as [->| ->]).
  pose proof (inv_pending s I t _ _ _ Ho ltac:(done)). pose proof (inv_pending s I u _ _ _ Ho' ltac:(done)).
  simplify_eq. by eapply (inv_unique s I).
Qed.

(** All requests that share a question return the same decision, the one that asked and those that waited. *)
Theorem shared_prompt_agrees s t u c d d' :
  reachable true s -> Returned t (Some c) d ∈ log s -> Returned u (Some c) d' ∈ log s -> d = d'.
Proof.
  intros I%service_inv (x & e & Hx & He & ->)%(inv_log s I) (x' & e' & Hx' & He' & ->)%(inv_log s I). by simplify_eq.
Qed.

(** ** Nobody is forgotten *)

Lemma apply_op_other s t op ops c k ans c' :
  inv s -> pcs s t = Finishing (op :: ops) c k ans -> c' <> c -> cells (apply_op (service s) op) !! c' = cells (service s) !! c'.
Proof.
  intros I Ht Hne. pose proof (inv_wf s I t) as Hwf. rewrite Ht in Hwf. apply tail_step in Hwf as [_ Hop].
  destruct Hop as [[Hs _]|[(-> & _)|[(-> & _)|(-> & _)]]]; [by destruct op| | |done]; cbn; by rewrite lookup_alter_ne.
Qed.

Lemma owned_step s t a s' : inv s -> owned s -> a <> Drop -> step t a s = Some s' -> owned s'.
Proof.
  intros I O Hd Hs. pose proof (service_inv_step s t a s' I Hs) as I'. intros c cell Hc Hopen.
  assert (Hkeep : forall p', owner p' = owner (pcs s t) \/
      (forall k ph, owner (pcs s t) = Some (k, c, ph) -> ph = Removed) ->
      cells (service s) !! c = Some cell ->
      exists u k ph, owner (goto (pcs s) t p' u) = Some (k, c, ph) /\ (ph = Undecided \/ ph = Decided)).
  { intros p' Hp' Hc'. destruct (O c cell Hc' Hopen) as (u & k & ph & Hu & Hph). exists u, k, ph. split; [|done].
    unfold goto. case_decide; [subst u|done]. destruct Hp' as [Hp'|Hp']; [by rewrite Hp'|].
    apply Hp' in Hu. subst ph. by destruct Hph. }
  destruct (step_classify s t a s' I Hs) as [cs|p' log' _ _ _ _ Hl|p c1 p' log' Ho Hp' _|p c1 ans ops log' Ho [_ Ht] _|p Ho Hp|op ops c1 k ans Ht];
    cbn [service pcs] in *.
  - by apply (O c cell).
  - apply Hkeep; [right|done]. intros k ph Hk. destruct Hl as [Hl|[Hl|(c1 & k1 & ans & Hl)]]; [congruence|done|].
    rewrite Hl in Hk. by injection Hk as _ _ <-.
  - apply Hkeep; [left|done]. rewrite Ho. by destruct Hp' as [->| ->].
  - apply Hkeep; [left|done]. rewrite Ho. cbn. by rewrite Ht.
  - unfold get_or_create_pending_approval in Hc. rewrite Hp in Hc. cbn in Hc. destruct (decide (c = next_cell (service s))) as [->|Hne].
    + exists t, (key p), Undecided. rewrite moved_eq. auto.
    + rewrite lookup_insert_ne in Hc by done. apply Hkeep; [right|done]. by rewrite Ho.
  - destruct (decide (c = c1)) as [->|Hne].
    + exists t, k, (phase ops). rewrite moved_eq. split; [done|].
      pose proof (inv_expects _ I' t c1 cell) as He. cbn [pcs service] in He. rewrite moved_eq in He. specialize (He eq_refl Hc).
      cbn [expects] in He. destruct (phase ops); auto; destruct He as [He1 He2]; rewrite He1, He2 in Hopen; by destruct Hopen.
    + rewrite (apply_op_other s t op ops c1 k ans c I Ht Hne) in Hc. apply Hkeep; [right|done].
      intros k' ph. rewrite Ht. cbn. congruence.
Qed.

Lemma reachable_owned s : reachable false s -> owned s.
Proof.
  induction 1 as [|s t a s' Hr IH Hd Hs].
  - intros c cell. cbn. by rewrite lookup_empty.
  - eapply owned_step; [by eapply service_inv|done| |done]. by destruct Hd.
Qed.

Definition waits (pc : Pc) (c : nat) : Prop :=
  pc = WaitCreate c \/ exists seen, pc = WaitCheck c seen \/ pc = WaitNotified c seen.

Lemma schedule_app a b s : exec (a ++ b) s = exec b (exec a s).
Proof. apply fold_left_app. Qed.

Lemma exec_inv sched s : inv s -> inv (exec sched s).
Proof.
  revert s. induction sched as [|[t a] sched IH]; intros s I; [done|]. cbn. apply IH.
  destruct (step t a s) as [s'|] eqn:Es; [by eapply service_inv_step|done].
Qed.

(** One task's actions leave the program counters of the others alone. *)
Lemma step_others s t a s' u : step t a s = Some s' -> u <> t -> pcs s' u = pcs s u.
Proof.
  intros Hs Hn. unfold step, move, return_with in Hs.
  destruct (pcs s t) as [| | | | | | | | | | | |[|op ops]], a; simplify_eq; try done; try (by apply moved_ne);
    repeat case_match; simplify_eq; cbn; try done; by apply moved_ne.
Qed.

Lemma exec_others t acts s u : u <> t -> pcs (exec (map (pair t) acts) s) u = pcs s u.
Proof.
  intros Hn. revert s. induction acts as [|a acts IH]; intros s; [done|]. cbn. rewrite IH.
  destruct (step t a s) as [s'|] eqn:Es; [by eapply step_others|done].
Qed.

Lemma finish_ops t ops c k ans s :
  pcs s t = Finishing ops c k ans -> pcs (exec (map (pair t) (replicate (length ops) Run)) s) t = Finishing [] c k ans.
Proof.
  revert s. induction ops as [|op ops IH]; intros s Ht; [done|]. cbn [length replicate map exec fold_left].
  unfold step at 2. rewrite Ht. cbn [default]. apply IH. cbn. apply moved_eq.
Qed.

(** How many of the questions a task that asks may still have before it. *)
Definition stage (n : nat) (k : str * str * str * N) (c : nat) (pc : Pc) : Prop :=
  match pc with
  | CheckFlow p c' => 3 <= n /\ key p = k /\ c' = c
  | AskHooks p c' => 2 <= n /\ key p = k /\ c' = c
  | AskReview p c' => 1 <= n /\ key p = k /\ c' = c
  | Finishing _ c' k' _ => k' = k /\ c' = c
  | _ => False
  end.

Definition act (t : Task) (a : Action) (s : State) : State := default s (step t a s).

Lemma stage_run s t k c ph : owner (pcs s t) = Some (k, c, ph) -> ph <> Removed -> stage 2 k c (pcs (act t Run s) t).
Proof.
  intros Ho Hph. unfold act, step. destruct (pcs s t) as [| | | | | | | | |p c1|p c1|p c1|[|op ops] c1 k1 ans1] eqn:Et; cbn in Ho; simplify_eq; try done.
  - destruct (prompt_allowed p); cbn; rewrite moved_eq; cbn; auto.
  - cbn. rewrite Et. cbn. auto.
  - cbn. rewrite Et. cbn. auto.
  - cbn. rewrite moved_eq. cbn. auto.
Qed.

Lemma stage_hooks s t k c h : stage 2 k c (pcs s t) -> stage 1 k c (pcs (act t (Hooks h) s) t).
Proof.
  intros Hst. unfold act, step. destruct (pcs s t) as [| | | | | | | | |p c1|p c1|p c1|[|op ops] c1 k1 ans1] eqn:Et; cbn in Hst; try done; cbn.
  - lia.
  - destruct h as [[|m]|]; cbn; rewrite moved_eq; cbn; intuition lia.
  - rewrite Et. cbn. intuition lia.
  - by rewrite Et.
  - by rewrite Et.
Qed.

Lemma stage_review s t k c rejection timeout d :
  stage 1 k c (pcs s t) -> exists ops ans, pcs (act t (Review rejection timeout d) s) t = Finishing ops c k ans.
Proof.
  intros Hst. unfold act, step. destruct (pcs s t) as [| | | | | | | | |p c1|p c1|p c1|[|op ops] c1 k1 ans1] eqn:Et; cbn in Hst; try done; try lia; cbn.
  - rewrite moved_eq. destruct Hst as (_ & <- & <-). eauto.
  - rewrite Et. destruct Hst as (<- & <-). eauto.
  - rewrite Et. destruct Hst as (<- & <-). eauto.
Qed.

(** The task that asks, once its questions are answered, whatever the answers. *)
Definition owner_actions (h : option PermissionRequestDecision) (rejection timeout : str) (d : ReviewDecision) (n : nat) : list Action :=
  [Run; Hooks h; Review rejection timeout d] ++ replicate n Run.

Lemma owner_finishes h rejection timeout d s t k c ph :
  owner (pcs s t) = Some (k, c, ph) -> ph <> Removed ->
  exists n ans, pcs (exec (map (pair t) (owner_actions h rejection timeout d n)) s) t = Finishing [] c k ans.
Proof.
  intros Ho Hph. pose proof (stage_run s t k c ph Ho Hph) as H1. apply (stage_hooks _ t k c h) in H1.
  apply (stage_review _ t k c rejection timeout d) in H1 as (ops & ans & Hf).
  exists (length ops), ans. unfold owner_actions. rewrite map_app, schedule_app. by apply finish_ops.
Qed.

Section Waiter.
Context (t : Task) (c : nat) (cell : Cell) (x : PendingApprovalDecision) (Hd : cell_decision cell = Some x).

Definition returned_in (n : nat) (s : State) : Prop :=
  exists m, m <= n /\ Returned t (Some c) (to_network_decision x) ∈ log (exec (replicate m (t, Run)) s).

Lemma returned_later n s : returned_in n (act t Run s) -> returned_in (S n) s.
Proof. intros (m & Hm & Hin). exists (S m). split; [lia|done]. Qed.

Lemma check_returns s seen : cells (service s) !! c = Some cell -> pcs s t = WaitCheck c seen -> returned_in 1 s.
Proof using Hd.
  intros Hc Ht. exists 1. split; [lia|]. cbn. unfold step. rewrite Ht, Hc, Hd. cbn. set_solver.
Qed.

Lemma create_returns s : cells (service s) !! c = Some cell -> pcs s t = WaitCreate c -> returned_in 2 s.
Proof using Hd.
  intros Hc Ht. apply returned_later. unfold act, step. rewrite Ht, Hc. cbn.
  apply (check_returns _ (notified cell)); [done|]. apply moved_eq.
Qed.

Lemma waiter_returns s :
  cells (service s) !! c = Some cell -> notified cell <> 0 -> waits (pcs s t) c -> pc_wf (pcs s t) -> returned_in 3 s.
Proof using Hd.
  intros Hc Hn [Hw|(seen & [Hw|Hw])] Hwf.
  - destruct (create_returns s Hc Hw) as (m & Hm & Hin). exists m. split; [lia|done].
  - destruct (check_returns s seen Hc Hw) as (m & Hm & Hin). exists m. split; [lia|done].
  - rewrite Hw in Hwf. cbn in Hwf. subst seen. apply returned_later. unfold act, step. rewrite Hw, Hc.
    destruct (Nat.eqb_spec (notified cell) 0) as [?|_]; [done|]. cbn. apply create_returns; [done|]. apply moved_eq.
Qed.

End Waiter.

(** A waiter and the task that asks for its cell. *)
Lemma owner_then_waiter s t u k c ph h rejection timeout d :
  inv s -> waits (pcs s t) c -> owner (pcs s u) = Some (k, c, ph) -> ph <> Removed ->
  exists n m r, m <= 3 /\
    Returned t (Some c) r ∈ log (exec (map (pair u) (owner_actions h rejection timeout d n) ++ replicate m (t, Run)) s).
Proof.
  intros I Hw Ho Hph. destruct (owner_finishes h rejection timeout d s u k c ph Ho Hph) as (n & ans & Hf).
  set (s1 := exec _ s) in Hf. pose proof (exec_inv (map (pair u) (owner_actions h rejection timeout d n)) s I) as I1. fold s1 in I1.
  assert (Hne : t <> u) by (intros ->; destruct Hw as [Hw|(seen & [Hw|Hw])]; by rewrite Hw in Ho).
  assert (Ht : pcs s1 t = pcs s t) by (by apply exec_others).
  pose proof (inv_mentions s1 I1 u c) as Hm. rewrite Hf in Hm. destruct (proj2 (inv_cells s1 I1 c) (Hm eq_refl)) as [cell Hc].
  pose proof (inv_expects s1 I1 u c cell) as He. rewrite Hf in He. destruct (He eq_refl Hc) as [He1 He2].
  destruct (waiter_returns t c cell ans He1 s1 Hc ltac:(lia) ltac:(by rewrite Ht) (inv_wf s1 I1 t)) as (m & Hm3 & Hin).
  exists n, m, (to_network_decision ans). by rewrite schedule_app.
Qed.

(** C13: when no request is dropped, no waiting request is forgotten: at every point of every interleaving
    there is a task that, whatever the hooks and the reviewer answer it, comes to the end of its work, and then
    the waiting request returns within three of its own steps. *)
Theorem waiters_are_answered s t c h rejection timeout d :
  reachable false s -> waits (pcs s t) c ->
  exists u acts m r, (acts = [] \/ exists n, acts = owner_actions h rejection timeout d n) /\ m <= 3 /\
    Returned t (Some c) r ∈ log (exec (map (pair u) acts ++ replicate m (t, Run)) s).
Proof.
  intros Hr Hw. pose proof (service_inv _ _ Hr) as I.
  assert (Hm : c < next_cell (service s)) by (apply (inv_mentions s I t); by destruct Hw as [->|(seen & [->| ->])]).
  destruct (proj2 (inv_cells s I c) Hm) as [cell Hc].
  assert ((cell_decision cell = None \/ notified cell = 0) \/ exists x, cell_decision cell = Some x /\ notified cell <> 0)
    as [Hopen|(x & Ed & En)].
  { destruct (cell_decision cell), (decide (notified cell = 0)); eauto. }
  - destruct (reachable_owned _ Hr c cell Hc Hopen) as (u & k & ph & Ho & Hph).
    destruct (owner_then_waiter s t u k c ph h rejection timeout d I Hw Ho ltac:(by destruct Hph; subst)) as (n & m & r & Hm3 & Hin).
    eauto 10.
  - destruct (waiter_returns t c cell x Ed s Hc En Hw (inv_wf s I t)) as (m & Hm3 & Hin).
    exists t, [], m, (to_network_decision x). auto.
Qed.

(** ** When the request that asks is dropped *)

Record stranded (s : State) (k : str * str * str * N) (c : nat) : Prop := mkStranded {
  stranded_pending : pending_host_approvals (service s) !! k = Some c;
  stranded_cell : exists cell, cells (service s) !! c = Some cell /\ cell_decision cell = None;
  stranded_owner t k' ph : owner (pcs s t) <> Some (k', c, ph);
}.

Lemma apply_op_pending s t op ops c1 k1 ans k c :
  inv s -> pcs s t = Finishing (op :: ops) c1 k1 ans -> pending_host_approvals (service s) !! k = Some c -> c <> c1 ->
  pending_host_approvals (apply_op (service s) op) !! k = Some c.
Proof.
  intros I Ht Hk Hne. pose proof (inv_wf s I t) as Hwf. rewrite Ht in Hwf. apply tail_step in Hwf as [_ Hop].
  destruct Hop as [[Hs _]|[(-> & _)|[(-> & _)|(-> & Hph & _)]]]; [by destruct op|done|done|].
  cbn. rewrite lookup_delete_ne; [done|]. intros ->. apply Hne.
  assert (pending_host_approvals (service s) !! k = Some c1); [|congruence].
  eapply (inv_pending s I t); [by rewrite Ht|]. cbn. by rewrite Hph.
Qed.

Lemma stranded_step s t a s' k c : inv s -> stranded s k c -> step t a s = Some s' -> stranded s' k c.
Proof.
  intros I [Hk Hc Hno] Hs.
  assert (Hgo : forall p', (forall k' ph, owner p' <> Some (k', c, ph)) -> forall u k' ph, owner (goto (pcs s) t p' u) <> Some (k', c, ph)).
  { intros p' Hp' u k' ph. unfold goto. case_decide; [apply Hp'|apply Hno]. }
  destruct (step_classify s t a s' I Hs) as [cs|p' log' Ho _ _ _ _|p c1 p' log' Ho Hp' _|p c1 ans ops log' Ho [_ Ht] _|p Ho Hp|op ops c1 k1 ans Ht].
  - by split.
  - split; [done|done|]. apply Hgo. intros k' ph. by rewrite Ho.
  - split; [done|done|]. apply Hgo. intros k' ph Ho'. apply (Hno t (key p) Undecided). rewrite Ho.
    destruct Hp' as [->| ->]; cbn in Ho'; congruence.
  - split; [done|done|]. apply Hgo. intros k' ph [= <- <- <-]. by apply (Hno t (key p) Undecided).
  - pose proof (inv_fresh s I k c Hk). unfold get_or_create_pending_approval. rewrite Hp. split; cbn.
    + rewrite lookup_insert_ne; [done|congruence].
    + rewrite lookup_insert_ne by lia. done.
    + apply Hgo. intros k' ph [= _ ?]. lia.
  - assert (Hne : c <> c1) by (intros ->; apply (Hno t k1 (phase (op :: ops))); by rewrite Ht).
    split; cbn [service pcs].
    + by eapply apply_op_pending.
    + by rewrite (apply_op_other s t op ops c1 k1 ans c I Ht Hne).
    + apply Hgo. intros k' ph [= _ ?]. congruence.
Qed.

Lemma stranded_exec sched s k c : inv s -> stranded s k c -> stranded (exec sched s) k c.
Proof.
  revert s. induction sched as [|[t a] sched IH]; intros s I Hst; [done|]. cbn.
  destruct (step t a s) as [s'|] eqn:Es; cbn; [|by apply IH]. apply IH; [by eapply service_inv_step|by eapply stranded_step].
Qed.

(** When the request that asks about a host is dropped before it has an answer, its question stays registered:
    whatever happens after, later requests for the host wait for it and none is ever answered. *)
Theorem dropped_prompt_strands s t p c :
  reachable true s -> pcs s t = AskHooks p c \/ pcs s t = AskReview p c ->
  forall sched, let s' := exec sched (act t Drop s) in
    pending_host_approvals (service s') !! key p = Some c /\ forall u d, Returned u (Some c) d ∉ log s'.
Proof.
  intros I%service_inv Hp sched s'. assert (Ho : owner (pcs s t) = Some (key p, c, Undecided)) by (by destruct Hp as [->| ->]).
  assert (Hm : mentions (pcs s t) = Some c) by (by destruct Hp as [->| ->]).
  destruct (proj2 (inv_cells s I c) (inv_mentions s I t c Hm)) as [cell Hc].
  assert (Hd : step t Drop s = Some (act t Drop s)) by (unfold act; by rewrite step_drop).
  pose proof (service_inv_step _ _ _ _ I Hd) as I1.
  assert (Hst : stranded (act t Drop s) (key p) c).
  { unfold act. rewrite step_drop. split; cbn.
    - by eapply (inv_pending s I t).
    - exists cell. split; [done|]. pose proof (inv_expects s I t c cell Hm Hc) as He. by destruct Hp as [Hp|Hp]; rewrite Hp in He.
    - intros u k' ph. unfold goto. case_decide as Hu; [done|]. intros Hu'. apply Hu. by eapply (inv_unique s I). }
  apply (stranded_exec sched) in Hst as [Hk (cell' & Hc' & Hn) _]; [|done]. split; [done|]. intros u d Hin.
  apply (inv_log _ (exec_inv sched _ I1)) in Hin as (x & e & Hx & He & _). subst s'. congruence.
Qed.

(** ** On a run: two requests for one host *)

Lemma schedule_reachable drops sched :
  Forall (fun e : Task * Action => drops = true \/ e.2 <> Drop) sched -> reachable drops (exec sched start).
Proof.
  intros Hs. assert (H : forall s, reachable drops s -> reachable drops (exec sched s)); [|by apply H, reachable_start].
  induction Hs as [|[t a] sched Ha _ IH]; intros s Hr; [done|]. cbn. apply IH.
  destruct (step t a s) as [s'|] eqn:Es; [by eapply reachable_step|done].
Qed.

Definition ex_request : NetworkPolicyRequest := mkPolicyRequest ProtoHttpsConnect (lit "Example.com") 443 (Some (lit "local")).
Definition ex_info : TurnInfo := mkTurnInfo Profiles.default_profile OnRequest None false.
Definition ex_pending : Pending :=
  mkPendingRequest ex_request (lit "local", lit "example.com", lit "https", 443%N) None (Some ex_info).

(** Up to the question of the first task. *)
Definition ex_asks (t : Task) : list (Task * Action) :=
  [(t, Arrive ex_request); (t, Run); (t, Turn (Some ex_info)); (t, Run); (t, Run); (t, Run); (t, Run)].

Definition ex_waiting : State := exec (ex_asks 0 ++ ex_asks 1 ++ [(1, Run)]) start.

Definition ex_answered : State :=
  exec (map (pair 0) (owner_actions None [] [] ApprovedForSession 6) ++ replicate 3 (1, Run)) ex_waiting.

Lemma ex_waiting_reachable drops : reachable drops ex_waiting.
Proof. apply schedule_reachable. cbv [ex_asks app]. repeat (constructor; [by right|]). constructor. Qed.

Lemma ex_answered_reachable : reachable true ex_answered.
Proof.
  unfold ex_answered, ex_waiting. rewrite <- schedule_app. apply schedule_reachable. apply Forall_forall. auto.
Qed.

Lemma single_prompt_witness : asking (pcs ex_waiting 0) (key ex_pending) /\ 0 = 0.
Proof.
  assert (Ha : asking (pcs ex_waiting 0) (key ex_pending)) by (exists ex_pending, 0; split; [by left; vm_compute|done]).
  split; [exact Ha|]. apply (single_prompt ex_waiting 0 0 (key ex_pending) (ex_waiting_reachable true) Ha Ha).
Defined.

Lemma shared_prompt_agrees_witness :
  log ex_answered = [Asked 0 (key ex_pending); Returned 0 (Some 0) NetworkAllow; Returned 1 (Some 0) NetworkAllow] /\ NetworkAllow = NetworkAllow.
Proof.
  assert (Hl : log ex_answered = [Asked 0 (key ex_pending); Returned 0 (Some 0) NetworkAllow; Returned 1 (Some 0) NetworkAllow])
    by (vm_compute; reflexivity).
  split; [exact Hl|]. apply (shared_prompt_agrees ex_answered 0 1 0 NetworkAllow NetworkAllow ex_answered_reachable); rewrite Hl.
  - apply list_elem_of_further, list_elem_of_here.
  - apply list_elem_of_further, list_elem_of_further, list_elem_of_here.
Defined.

Lemma waiters_are_answered_witness :
  exists u acts m r, (acts = [] \/ exists n, acts = owner_actions None [] [] Orchestrator.Denied n) /\ m <= 3 /\
    Returned 1 (Some 0) r ∈ log (exec (map (pair u) acts ++ replicate m (1, Run)) ex_waiting).
Proof.
  apply (waiters_are_answered ex_waiting 1 0 None [] [] Orchestrator.Denied (ex_waiting_reachable false)). right. exists 0. right. by vm_compute.
Defined.

(** The first request is dropped while it asks; the second one goes on, and a third one arrives. *)
Definition ex_later : list (Task * Action) := replicate 3 (1, Run) ++ ex_asks 2 ++ replicate 3 (2, Run).

Lemma dropped_prompt_strands_witness :
  pending_host_approvals (service (exec ex_later (act 0 Drop ex_waiting))) !! key ex_pending = Some 0 /\
  ~ Returned 2 (Some 0) NetworkAllow ∈ log (exec ex_later (act 0 Drop ex_waiting)).
Proof.
  destruct (dropped_prompt_strands ex_waiting 0 ex_pending 0 (ex_waiting_reachable true) ltac:(left; by vm_compute) ex_later) as [H1 H2].
  exact (conj H1 (H2 2 NetworkAllow)).
Defined.

End NetworkApprovalFacts.
