(* ===== verification/WorldState.v ===== *)
(** The state of the world that the model has been told of
    (core/src/context/world_state/mod.rs): snapshots of its sections, the JSON
    merge patches between them, and what has to be told anew.

    A JSON object is a map; serialising a section and reading a snapshot back
    are parts of the section.  The theorems are in the module [WorldStateFacts]. *)

From stdpp Require Import base list option numbers strings gmap.
From S2P Require Import Prelude RustStr ResponseItems.

Module WorldState.
Open Scope rust_scope.

(** ** JSON *)

(** A number is its text. *)
Inductive Value :=
| Null
| VBool (b : bool)
| VNumber (text : str)
| VString (s : str)
| VArray (items : list Value)
| VObject (fields : gmap str Value).

Fixpoint value_eqb (a b : Value) {struct a} : bool :=
  match a, b with
  | Null, Null => true
  | VBool x, VBool y => bool_decide (x = y)
  | VNumber x, VNumber y | VString x, VString y => bool_decide (x = y)
  | VArray l, VArray l' =>
      (fix go l l' := match l, l' with
                      | [], [] => true
                      | x :: l, y :: l' => value_eqb x y && go l l'
                      | _, _ => false
                      end) l l'
  | VObject m, VObject n =>
      bool_decide (dom m = dom n)
      && bool_decide (map_Forall (fun _ same => same = true)
           (map_imap (fun k v => Some (match n !! k with Some w => value_eqb v w | None => false end)) m))
  | _, _ => false
  end.

Definition is_null (v : Value) : bool := match v with Null => true | _ => false end.

Definition as_object (v : Value) : option (gmap str Value) := match v with VObject m => Some m | _ => None end.

Fixpoint remove_null_object_fields (v : Value) : Value :=
  match v with
  | VObject values => VObject (omap (fun v => if is_null v then None else Some (remove_null_object_fields v)) values)
  | other => other
  end.

(** ** Merge patches *)

(** The keys of the previous object that go, and the changes of the others. *)
Fixpoint create_merge_patch (previous current : Value) {struct current} : option Value :=
  if value_eqb previous current then None
  else
    match current with
    | VObject current =>
        let previous := default ∅ (as_object previous) in
        Some (VObject
          (map_imap (fun key current_value =>
             match previous !! key with
             | None => Some current_value
             | Some previous_value => create_merge_patch previous_value current_value
             end) current
           ∪ ((fun _ => Null) <$> (previous ∖ current))))
    | other => Some other
    end.

Fixpoint apply_merge_patch_value (target patch : Value) {struct patch} : Value :=
  match patch with
  | VObject patch =>
      let target := default ∅ (as_object target) in
      VObject
        (map_imap (fun key value =>
           if is_null value then None else Some (apply_merge_patch_value (default Null (target !! key)) value)) patch
         ∪ (target ∖ patch))
  | other => other
  end.

(** ** Snapshots *)

Definition WorldStateSnapshot := gmap str Value.

Definition into_value (s : WorldStateSnapshot) : Value := VObject s.

(** [serde_json::from_value]. *)
Definition snapshot_from_value (v : Value) : option WorldStateSnapshot := as_object v.

Definition merge_patch_from (current previous : WorldStateSnapshot) : option Value :=
  create_merge_patch (into_value previous) (into_value current).

Definition apply_merge_patch (s : WorldStateSnapshot) (patch : Value) : option WorldStateSnapshot :=
  snapshot_from_value (apply_merge_patch_value (into_value s) patch).

Record WorldStateItem := mkWorldStateItem { full : bool; item_state : Value }.

(** ** Sections *)

Inductive PreviousSectionState := Absent | Unknown | Known (previous : Value).

Section Sections.
Context {Fragment : Type}.

(** [section_value]: the snapshot, serialised; [readable]: the values that are
    snapshots of the section. *)
Record WorldStateSection := mkSection {
  section_value : option Value;
  readable : Value -> bool;
  matches_legacy_fragment : str -> str -> bool;
  has_retained_fragment_matcher : bool;
  matches_retained_fragment : str -> str -> bool;
  render_section : PreviousSectionState -> option Fragment;
}.

Definition section_snapshot (s : WorldStateSection) : option Value :=
  match section_value s with
  | Some value => let snapshot := remove_null_object_fields value in if is_null snapshot then None else Some snapshot
  | None => None
  end.

Definition section_render_diff (s : WorldStateSection) (previous : PreviousSectionState) : option Fragment :=
  render_section s (match previous with Known value => if readable s value then Known value else Unknown | other => other end).

(** In the order of insertion. *)
Definition WorldState := list (str * WorldStateSection).

(** [None]: the assertion fails. *)
Definition add_section (w : WorldState) (id : str) (s : WorldStateSection) : option WorldState :=
  if existsb (fun e => e.1 == id) w then None else Some (w ++ [(id, s)]).

Definition snapshot (w : WorldState) : WorldStateSnapshot :=
  list_to_map (omap (fun e : str * WorldStateSection => match section_snapshot e.2 with Some v => Some (e.1, v) | None => None end) w).

Definition render_with (previous : str -> WorldStateSection -> PreviousSectionState) (w : WorldState) : list Fragment :=
  omap (fun e : str * WorldStateSection => section_render_diff e.2 (previous e.1 e.2)) w.

Definition render_full (w : WorldState) : list Fragment := render_with (fun _ _ => Absent) w.

Definition render_diff (w : WorldState) (previous : WorldStateSnapshot) : list Fragment :=
  render_with (fun id _ => match previous !! id with Some value => Known value | None => Absent end) w.

Context {Json : Type}.

Definition has_fragment (p : str -> str -> bool) (items : list (ResponseItem Json)) : bool :=
  existsb (fun item => match item with
                       | Message _ role content _ _ =>
                           existsb (fun c => match c with Msg.InputText text => p role text | _ => false end) content
                       | _ => false
                       end) items.

Definition has_retained_fragment (items : list (ResponseItem Json)) (s : WorldStateSection) : bool :=
  has_fragment (matches_retained_fragment s) items.

Definition has_legacy_fragment (items : list (ResponseItem Json)) (s : WorldStateSection) : bool :=
  has_fragment (matches_legacy_fragment s) items.

Definition render_history_diff (w : WorldState) (previous : option WorldStateSnapshot) (items : list (ResponseItem Json)) : list Fragment :=
  render_with (fun id section =>
    match previous ≫= (fun previous => previous !! id) with
    | Some value =>
        if has_retained_fragment_matcher section && negb (has_retained_fragment items section) then Absent else Known value
    | None => if has_legacy_fragment items section then Unknown else Absent
    end) w.

(** [ContextManager::update_world_state]: what the model is told, and what is
    written to the log; the baseline becomes the snapshot. *)
Definition update_world_state (baseline : option WorldStateSnapshot) (items : list (ResponseItem Json)) (w : WorldState)
    : list Fragment * option WorldStateItem * WorldStateSnapshot :=
  let s := snapshot w in
  (render_history_diff w baseline items,
   match baseline with
   | None => Some (mkWorldStateItem true (into_value s))
   | Some previous => option_map (mkWorldStateItem false) (merge_patch_from s previous)
   end,
   s).

End Sections.
Arguments WorldStateSection : clear implicits.
Arguments WorldState : clear implicits.
End WorldState.

(** * Theorems: a merge patch leads from one snapshot to the next. *)

Module WorldStateFacts.
Import WorldState.
Open Scope rust_scope.

(** ** Induction on values *)

Fixpoint size (v : Value) : nat :=
  match v with
  | VArray l => S (sum_list_with size l)
  | VObject m => S (map_fold (fun _ v n => size v + n) 0 m)
  | _ => 1
  end.

Lemma size_field m k v : m !! k = Some v -> size v < size (VObject m).
Proof.
  intros H. cbn [size]. rewrite (map_fold_delete_L _ _ k v m); [lia| |done]. intros. lia.
Qed.

Lemma size_element l v : v ∈ l -> size v < size (VArray l).
Proof. intros H%(sum_list_with_in _ size). cbn. lia. Qed.

Lemma value_ind (P : Value -> Prop) :
  P Null -> (forall b, P (VBool b)) -> (forall t, P (VNumber t)) -> (forall s, P (VString s)) ->
  (forall l, (forall v, v ∈ l -> P v) -> P (VArray l)) -> (forall m, (forall k v, m !! k = Some v -> P v) -> P (VObject m)) ->
  forall v, P v.
Proof.
  intros H1 H2 H3 H4 H5 H6 v. remember (size v) as n eqn:En. revert v En. induction (lt_wf n) as [n _ IH]. intros v ->.
  destruct v as [|b|t|s|l|m]; [done|done|done|done| |].
  - apply H5. intros v Hv. by apply (IH (size v)), eq_refl; apply size_element.
  - apply H6. intros k v Hv. by apply (IH (size v)), eq_refl; apply (size_field m k).
Qed.

Lemma value_eqb_spec a b : value_eqb a b = true <-> a = b.
Proof.
  revert b. induction a as [|x|x|x|l IH|m IH] using value_ind; intros b; destruct b as [|y|y|y|l'|n]; cbn [value_eqb];
    try (by split); try (rewrite bool_decide_eq_true; by split; [intros ->|intros [= ->]]).
  - revert l'. induction l as [|x l IHl]; intros [|y l']; try by split.
    rewrite andb_true_iff, (IH x) by left. rewrite IHl by (intros v Hv; apply IH; by right). split.
    + by intros [-> [= ->]].
    + by intros [= -> ->].
  - rewrite andb_true_iff, !bool_decide_eq_true. split.
    + intros [Hdom Hall]. f_equal. apply map_eq. intros k. destruct (m !! k) as [v|] eqn:Ev.
      * specialize (Hall k). rewrite map_lookup_imap, Ev in Hall. cbn in Hall. specialize (Hall _ eq_refl).
        destruct (n !! k) as [w|] eqn:Ew; [|done]. by apply (IH k v Ev) in Hall as ->.
      * symmetry. apply not_elem_of_dom. rewrite <- Hdom. by apply not_elem_of_dom.
    + intros [= ->]. split; [done|]. intros k c. rewrite map_lookup_imap. destruct (n !! k) as [v|] eqn:Ev; [|done]. cbn.
      intros [= <-]. by apply (IH k v Ev).
Qed.

(** ** Merge patches *)

(** No field of an object is null. *)
Fixpoint plain (v : Value) : bool :=
  match v with
  | VObject m => bool_decide (map_Forall (fun _ ok => ok = true) ((fun v => negb (is_null v) && plain v) <$> m))
  | _ => true
  end.

Lemma plain_object m : plain (VObject m) = true <-> forall k v, m !! k = Some v -> v <> Null /\ plain v = true.
Proof.
  cbn [plain]. rewrite bool_decide_eq_true. split.
  - intros H k v Hv. specialize (H k (negb (is_null v) && plain v)). rewrite lookup_fmap, Hv in H.
    specialize (H eq_refl). apply andb_true_iff in H as [H ?]. by destruct v.
  - intros H k c. rewrite lookup_fmap. destruct (m !! k) as [v|] eqn:Ev; [|done]. intros [= <-]. destruct (H k v Ev) as [Hn ->]. by destruct v.
Qed.

Lemma removed_plain v : plain (remove_null_object_fields v) = true.
Proof.
  induction v as [| | | |l IH|m IH] using value_ind; try done. cbn [remove_null_object_fields]. apply plain_object. intros k v.
  rewrite lookup_omap. destruct (m !! k) as [w|] eqn:Ew; [|done]. cbn. destruct (is_null w) eqn:En; [done|]. intros [= <-].
  split; [by destruct w|by eapply IH].
Qed.

Lemma patch_lookup target patch k :
  default ∅ (as_object (apply_merge_patch_value target (VObject patch))) !! k =
  match patch !! k with
  | Some value => if is_null value then None else Some (apply_merge_patch_value (default Null (default ∅ (as_object target) !! k)) value)
  | None => default ∅ (as_object target) !! k
  end.
Proof.
  cbn [apply_merge_patch_value as_object from_option id]. rewrite lookup_union, map_lookup_imap, lookup_difference.
  destruct (patch !! k) as [v|] eqn:Ev; cbn.
  - by destruct (is_null v); rewrite (right_id_L None _).
  - by rewrite (left_id_L None _).
Qed.

Lemma not_null v : v <> Null -> is_null v = false.
Proof. by destruct v. Qed.

(** A patch that is a plain value replaces what is not an object by it. *)
Lemma apply_to_null v : plain v = true -> apply_merge_patch_value Null v = v.
Proof.
  induction v as [| | | |l IH|m IH] using value_ind; try done. intros Hp. cbn [apply_merge_patch_value as_object from_option id]. f_equal.
  apply map_eq. intros k. assert (H := patch_lookup Null m k). cbn [apply_merge_patch_value as_object from_option id] in H. rewrite H. clear H.
  rewrite lookup_empty. cbn [from_option id]. destruct (m !! k) as [v|] eqn:Ev; [|done].
  destruct (proj1 (plain_object m) Hp k v Ev) as [Hn Hv]. by rewrite (not_null v Hn), (IH k _ Ev Hv).
Qed.

Lemma create_lookup previous current : value_eqb previous (VObject current) = false ->
  exists patch, create_merge_patch previous (VObject current) = Some (VObject patch) /\
  forall k, patch !! k =
    match current !! k, default ∅ (as_object previous) !! k with
    | Some v, None => Some v
    | Some v, Some p => create_merge_patch p v
    | None, Some _ => Some Null
    | None, None => None
    end.
Proof.
  intros Hne. cbn [create_merge_patch]. rewrite Hne. eexists. split; [done|]. intros k.
  rewrite lookup_union, map_lookup_imap, lookup_fmap, lookup_difference.
  destruct (current !! k) as [v|] eqn:Ev; cbn.
  - rewrite (right_id_L None _). by destruct (default ∅ (as_object previous) !! k).
  - rewrite (left_id_L None _). by destruct (default ∅ (as_object previous) !! k).
Qed.

Lemma patch_advances previous current : plain current = true ->
  match create_merge_patch previous current with
  | None => previous = current
  | Some patch => apply_merge_patch_value previous patch = current /\ (current <> Null -> patch <> Null)
  end.
Proof.
  revert previous. induction current as [| | | |l IH|m IH] using value_ind; intros previous Hp;
    try (cbn [create_merge_patch]; destruct (value_eqb previous _) eqn:E; [by apply value_eqb_spec in E|done]).
  destruct (value_eqb previous (VObject m)) eqn:E; [cbn [create_merge_patch]; rewrite E; by apply value_eqb_spec in E|].
  destruct (create_lookup previous m E) as (patch & -> & Hpatch). split; [|done].
  assert (Hl := patch_lookup previous patch). cbn [apply_merge_patch_value as_object from_option id] in Hl |- *. f_equal. apply map_eq. intros k.
  rewrite Hl, Hpatch. clear Hl Hpatch. destruct (m !! k) as [v|] eqn:Ev.
  - destruct (proj1 (plain_object m) Hp k v Ev) as [Hn Hv]. destruct (default ∅ (as_object previous) !! k) as [p|] eqn:Eprev.
    + specialize (IH k v Ev p Hv). destruct (create_merge_patch p v) as [q|]; [|by subst]. destruct IH as [<- Hq].
      by rewrite (not_null q (Hq Hn)).
    + by rewrite (not_null v Hn), apply_to_null.
  - by destruct (default ∅ (as_object previous) !! k).
Qed.

Lemma snapshot_plain {Fragment} (w : WorldState Fragment) : plain (into_value (snapshot w)) = true.
Proof.
  apply plain_object. intros k v Hv. unfold snapshot in Hv. apply elem_of_list_to_map_2 in Hv.
  apply list_elem_of_omap in Hv as ([id s] & _ & Hs). cbn in Hs. unfold section_snapshot in Hs.
  destruct (section_value s) as [value|]; [|done]. destruct (is_null (remove_null_object_fields value)) eqn:En; [done|].
  injection Hs as <- <-. split; [|apply removed_plain]. intros E. by rewrite E in En.
Qed.

(** The patch to the present state of the world leads to it from the previous one. *)
Lemma snapshot_advances {Fragment} previous (w : WorldState Fragment) :
  match merge_patch_from (snapshot w) previous with
  | None => previous = snapshot w
  | Some patch => apply_merge_patch previous patch = Some (snapshot w)
  end.
Proof.
  assert (H := patch_advances (into_value previous) _ (snapshot_plain w)). unfold merge_patch_from, apply_merge_patch.
  destruct (create_merge_patch _ _) as [patch|]; [by destruct H as [-> _]|by injection H].
Qed.

End WorldStateFacts.
