(* ===== verification/ThreadItems.v ===== *)
(** Items of a thread as the app server shows them
    (app-server-protocol/src/protocol/v2/item.rs) and how they are built from
    events (app-server-protocol/src/protocol/item_builders.rs).

    Parts of a payload that are only carried along are opaque; where the app
    server has a type of its own for such a part, converted constructor by
    constructor, the model has one type for both. *)

From stdpp Require Import base list option numbers strings gmap sorting.
From S2P Require Import Prelude RustStr ResponseItems ParseCommand ExecApproval.

Module ThreadItems.
Open Scope rust_scope.

Class Carried := {
  Json : Type;
  json_null : Json;
  TextElement : Type;
  MemoryCitation : Type;
  ReasoningEffort : Type;
  SubAgentActivityKind : Type;
  (** [PathUri], and the path text of the app server. *)
  Uri : Type;
  uri_of_path : str -> Uri;
  (** The working directory, when it is a path of this host. *)
  native_cwd : Uri -> option str;
  (** [AbsolutePathBuf::join]; quoting; summaries of commands ([ParseCommand]). *)
  join_path : str -> str -> str;
  shlex_join : list str -> str;
  parse_command : list str -> list ParseCommand.ParsedCommand;
}.

(** ** Parts of items *)

Inductive CommandExecutionSource := SourceAgent | SourceUserShell | SourceUnifiedExecStartup | SourceUnifiedExecInteraction.
Inductive CommandExecutionStatus := CommandInProgress | CommandCompleted | CommandFailed | CommandDeclined.
Inductive PatchApplyStatus := PatchInProgress | PatchCompleted | PatchFailed | PatchDeclined.
Inductive McpToolCallStatus := McpInProgress | McpCompleted | McpFailed.
Inductive DynamicToolCallStatus := DynamicInProgress | DynamicCompleted | DynamicFailed.
Inductive CollabAgentTool := SpawnAgent | SendInput | ResumeAgent | WaitAgent | CloseAgent.
Inductive CollabAgentToolCallStatus := CollabInProgress | CollabCompleted | CollabFailed.

Inductive AgentStatus := PendingInit | Running | AgentInterrupted | AgentCompleted (message : option str)
| Errored (message : str) | Shutdown | NotFound.

Inductive CollabAgentStatus := CollabPendingInit | CollabRunning | CollabStatusInterrupted | CollabStatusCompleted | CollabErrored
| CollabShutdown | CollabNotFound.

Record CollabAgentState := mkAgentState { agent_status : CollabAgentStatus; agent_message : option str }.

Definition collab_state (s : AgentStatus) : CollabAgentState :=
  match s with
  | PendingInit => mkAgentState CollabPendingInit None
  | Running => mkAgentState CollabRunning None
  | AgentInterrupted => mkAgentState CollabStatusInterrupted None
  | AgentCompleted message => mkAgentState CollabStatusCompleted message
  | Errored message => mkAgentState CollabErrored (Some message)
  | Shutdown => mkAgentState CollabShutdown None
  | NotFound => mkAgentState CollabNotFound None
  end.

Inductive CommandAction :=
| ReadAction (command name path : str)
| ListFilesAction (command : str) (path : option str)
| SearchAction (command : str) (query path : option str)
| UnknownAction (command : str).

(** The change of a file as the core reports it. *)
Inductive FileChange := AddFile (content : str) | DeleteFile (content : str) | UpdateFile (unified_diff : str) (move_path : option str).

Inductive PatchChangeKind := AddKind | DeleteKind | UpdateKind (move_path : option str).

Record FileUpdateChange := mkUpdateChange { change_path : str; change_kind : PatchChangeKind; change_diff : str }.

Inductive DynamicContentItem := DynamicText (text : str) | DynamicImage (image_url : str).

Section Items.
Context {Cr : Carried}.

Inductive UserInput :=
| InputText (text : str) (text_elements : list TextElement)
| InputImage (url : str) (detail : option ImageDetail)
| InputLocalImage (path : str) (detail : option ImageDetail).

Record McpToolCallAppContext := mkAppContext {
  connector_id : str;
  link_id : option str;
  resource_uri : option str;
  app_name : option str;
  template_id : option str;
  action_name : option str;
}.

Record McpToolCallResult := mkMcpResult { mcp_content : list Json; structured_content : option Json; mcp_meta : option Json }.

Inductive ThreadItem :=
| UserMessage (id : str) (client_id : option str) (content : list UserInput)
| HookPrompt (id : str) (fragments : list (str * str))
| AgentMessage (id text : str) (phase : option MessagePhase) (memory_citation : option MemoryCitation)
| Plan (id text : str)
| Reasoning (id : str) (summary content : list str)
| CommandExecution (id command : str) (cwd : Uri) (process_id : option str) (source : CommandExecutionSource)
    (status : CommandExecutionStatus) (command_actions : list CommandAction) (aggregated_output : option str)
    (exit_code : option Z) (duration_ms : option Z)
| FileChangeItem (id : str) (changes : list FileUpdateChange) (status : PatchApplyStatus)
| McpToolCall (id server tool : str) (status : McpToolCallStatus) (arguments : Json) (app_context : option McpToolCallAppContext)
    (mcp_app_resource_uri plugin_id : option str) (result : option McpToolCallResult) (error : option str) (duration_ms : option Z)
| DynamicToolCall (id : str) (namespace : option str) (tool : str) (arguments : Json) (status : DynamicToolCallStatus)
    (content_items : option (list DynamicContentItem)) (success : option bool) (duration_ms : option Z)
| CollabAgentToolCall (id : str) (tool : CollabAgentTool) (status : CollabAgentToolCallStatus) (sender_thread_id : str)
    (receiver_thread_ids : list str) (prompt model : option str) (reasoning_effort : option ReasoningEffort)
    (agents_states : gmap str CollabAgentState)
| SubAgentActivity (id : str) (kind : SubAgentActivityKind) (agent_thread_id agent_path : str)
| WebSearch (id query : str) (action : option WebSearchAction)
| ImageView (id : str) (path : Uri)
| Sleep (id : str) (duration_ms : N)
| ImageGeneration (id status : str) (revised_prompt : option str) (result : str) (saved_path : option str)
| EnteredReviewMode (id review : str)
| ExitedReviewMode (id review : str)
| ContextCompaction (id : str).

Definition item_id (item : ThreadItem) : str :=
  match item with
  | UserMessage id _ _ | HookPrompt id _ | AgentMessage id _ _ _ | Plan id _ | Reasoning id _ _
  | CommandExecution id _ _ _ _ _ _ _ _ _ | FileChangeItem id _ _ | McpToolCall id _ _ _ _ _ _ _ _ _ _
  | DynamicToolCall id _ _ _ _ _ _ _ | CollabAgentToolCall id _ _ _ _ _ _ _ _ | SubAgentActivity id _ _ _
  | WebSearch id _ _ | ImageView id _ | Sleep id _ | ImageGeneration id _ _ _ _ | EnteredReviewMode id _
  | ExitedReviewMode id _ | ContextCompaction id => id
  end.

(** ** item_builders.rs *)

Definition I64_MAX : Z := 9223372036854775807.

(** [i64::try_from(duration.as_millis())]. *)
Definition millis (duration : N) : option Z := if (Z.of_N duration <=? I64_MAX)%Z then Some (Z.of_N duration) else None.

Definition map_patch_change_kind (change : FileChange) : PatchChangeKind :=
  match change with AddFile _ => AddKind | DeleteFile _ => DeleteKind | UpdateFile _ move_path => UpdateKind move_path end.

Definition format_file_change_diff (change : FileChange) : str :=
  match change with
  | AddFile content | DeleteFile content => content
  | UpdateFile unified_diff (Some path) => unified_diff ++ [LF; LF] ++ lit "Moved to: " ++ path
  | UpdateFile unified_diff None => unified_diff
  end.

Definition change_le (a b : FileUpdateChange) : Prop := ExecApproval.str_le (change_path a) (change_path b).

#[export] Instance change_le_dec : RelDecision change_le.
Proof. intros a b. unfold change_le. apply _. Defined.

Definition convert_patch_changes (changes : gmap str FileChange) : list FileUpdateChange :=
  merge_sort change_le
    (List.map (fun '(path, change) => mkUpdateChange path (map_patch_change_kind change) (format_file_change_diff change))
       (map_to_list changes)).

Definition build_file_change_approval_request_item (call_id : str) (changes : gmap str FileChange) : ThreadItem :=
  FileChangeItem call_id (convert_patch_changes changes) PatchInProgress.

Definition build_file_change_begin_item (call_id : str) (changes : gmap str FileChange) : ThreadItem :=
  FileChangeItem call_id (convert_patch_changes changes) PatchInProgress.

Definition build_file_change_end_item (call_id : str) (changes : gmap str FileChange) (status : PatchApplyStatus) : ThreadItem :=
  FileChangeItem call_id (convert_patch_changes changes) status.

Definition from_core_with_cwd (parsed : ParseCommand.ParsedCommand) (cwd : str) : CommandAction :=
  match parsed with
  | ParseCommand.Read cmd name path => ReadAction cmd name (join_path cwd path)
  | ParseCommand.ListFiles cmd path => ListFilesAction cmd path
  | ParseCommand.Search cmd query path => SearchAction cmd query path
  | ParseCommand.Unknown cmd => UnknownAction cmd
  end.

Definition command_actions_for_path_uri (parsed_cmd : list ParseCommand.ParsedCommand) (cwd : Uri) : list CommandAction :=
  omap (fun parsed =>
    match parsed with
    | ParseCommand.Read cmd name path =>
        match native_cwd cwd with Some native => Some (ReadAction cmd name (join_path native path)) | None => None end
    | ParseCommand.ListFiles cmd path => Some (ListFilesAction cmd path)
    | ParseCommand.Search cmd query path => Some (SearchAction cmd query path)
    | ParseCommand.Unknown cmd => Some (UnknownAction cmd)
    end) parsed_cmd.

Record ExecApprovalRequestEvent := mkExecApprovalRequest {
  approval_call_id : str;
  approval_command : list str;
  approval_cwd : str;
  approval_parsed_cmd : list ParseCommand.ParsedCommand;
}.

Definition build_command_execution_approval_request_item (p : ExecApprovalRequestEvent) : ThreadItem :=
  CommandExecution (approval_call_id p) (shlex_join (approval_command p)) (uri_of_path (approval_cwd p)) None SourceAgent
    CommandInProgress (List.map (fun parsed => from_core_with_cwd parsed (approval_cwd p)) (approval_parsed_cmd p)) None None None.

Record ExecCommandBeginEvent := mkExecBegin {
  begin_call_id : str;
  begin_process_id : option str;
  begin_turn_id : str;
  begin_command : list str;
  begin_cwd : Uri;
  begin_parsed_cmd : list ParseCommand.ParsedCommand;
  begin_source : CommandExecutionSource;
}.

Record ExecCommandEndEvent := mkExecEnd {
  end_call_id : str;
  end_process_id : option str;
  end_turn_id : str;
  end_command : list str;
  end_cwd : Uri;
  end_parsed_cmd : list ParseCommand.ParsedCommand;
  end_source : CommandExecutionSource;
  end_aggregated_output : str;
  end_exit_code : Z;
  end_duration : N;
  end_status : CommandExecutionStatus;
}.

Definition build_command_execution_begin_item (p : ExecCommandBeginEvent) : ThreadItem :=
  CommandExecution (begin_call_id p) (shlex_join (begin_command p)) (begin_cwd p) (begin_process_id p) (begin_source p)
    CommandInProgress (command_actions_for_path_uri (begin_parsed_cmd p) (begin_cwd p)) None None None.

Definition build_command_execution_end_item (p : ExecCommandEndEvent) : ThreadItem :=
  CommandExecution (end_call_id p) (shlex_join (end_command p)) (end_cwd p) (end_process_id p) (end_source p) (end_status p)
    (command_actions_for_path_uri (end_parsed_cmd p) (end_cwd p))
    (if is_empty (end_aggregated_output p) then None else Some (end_aggregated_output p))
    (Some (end_exit_code p)) (Some (default I64_MAX (millis (end_duration p)))).

Inductive GuardianAssessmentStatus := GuardianInProgress | GuardianApproved | GuardianDenied | GuardianTimedOut | GuardianAborted.

(** The other actions (patches, network access, MCP calls, permissions) show no item. *)
Inductive GuardianAssessmentAction :=
| GuardianCommand (command : str) (cwd : str)
| GuardianExecve (program : str) (argv : list str) (cwd : str)
| GuardianOther.

Record GuardianAssessmentEvent := mkGuardian {
  target_item_id : option str;
  guardian_turn_id : str;
  guardian_status : GuardianAssessmentStatus;
  guardian_action : GuardianAssessmentAction;
}.

Definition build_item_from_guardian_event (assessment : GuardianAssessmentEvent) (status : CommandExecutionStatus) : option ThreadItem :=
  match guardian_action assessment with
  | GuardianCommand command cwd =>
      option_map (fun id => CommandExecution id command (uri_of_path cwd) None SourceAgent status [UnknownAction command] None None None)
        (target_item_id assessment)
  | GuardianExecve program argv cwd =>
      option_map (fun id =>
        let argv := if is_empty argv then [program] else program :: drop 1 argv in
        let command := shlex_join argv in
        let parsed_cmd := parse_command argv in
        let command_actions := if is_empty parsed_cmd then [UnknownAction command]
                               else List.map (fun parsed => from_core_with_cwd parsed cwd) parsed_cmd in
        CommandExecution id command (uri_of_path cwd) None SourceAgent status command_actions None None None)
        (target_item_id assessment)
  | GuardianOther => None
  end.

End Items.
End ThreadItems.
