(* ===== verification/ThreadHistory.v ===== *)
(** The history of a thread (app-server-protocol/src/protocol/thread_history.rs):
    the reducer that turns the persisted events of a thread into turns with
    items, for replay and for a running thread alike, and the changes it reports
    to those who follow the thread.

    Item indexes are below [2^63]; indexes into the log are those of a list. *)

From stdpp Require Import base list option numbers strings gmap sorting.
From S2P Require Import Prelude RustStr ResponseItems ParseCommand ContextFragments ExecApproval ThreadItems.

Module ThreadHistory.
Import ThreadItems.
Open Scope rust_scope.

Inductive TurnStatus := Completed | Interrupted | Failed | InProgress.

#[export] Instance turn_status_eq_dec : EqDecision TurnStatus.
Proof. solve_decision. Defined.

Section History.
Context {Cr : Carried}.
(** The XML reading of a hook prompt. *)
Context (hook_prompt_xml : str -> option (str * str)).

(** The errors that concern no turn, and the others. *)
Inductive CodexErrorInfo := ThreadRollbackFailed | ActiveTurnNotSteerable (turn_kind : Json) | OtherErrorInfo (info : Json).

Definition info_affects_turn_status (info : CodexErrorInfo) : bool :=
  match info with ThreadRollbackFailed | ActiveTurnNotSteerable _ => false | OtherErrorInfo _ => true end.

(** [ErrorEvent::affects_turn_status]: [is_none_or]. *)
Definition affects_turn_status (codex_error_info : option CodexErrorInfo) : bool :=
  match codex_error_info with None => true | Some info => info_affects_turn_status info end.

Record TurnError := mkTurnError { error_message : str; error_info : option CodexErrorInfo; additional_details : option str }.

Record Turn := mkTurn {
  turn_id : str;
  turn_items : list ThreadItem;
  turn_error : option TurnError;
  turn_status : TurnStatus;
  turn_started_at : option Z;
  turn_completed_at : option Z;
  turn_duration_ms : option Z;
}.

Record PendingTurn := mkPending {
  pending : Turn;
  opened_explicitly : bool;
  saw_compaction : bool;
  rollout_start_index : nat;
}.

(** ** Changes *)

Record ThreadHistoryItemChange := mkItemChange { changed_in : str; changed_item : ThreadItem }.

Record ThreadHistoryTurnChange := mkTurnChange {
  change_turn_id : str;
  change_status : TurnStatus;
  change_error : option TurnError;
  change_started_at : option Z;
  change_completed_at : option Z;
  change_duration_ms : option Z;
}.

Record ThreadHistoryChangeSet := mkChangeSet {
  changed_items : list ThreadHistoryItemChange;
  changed_turns : list ThreadHistoryTurnChange;
  removed_turn_ids : list str;
}.

Definition no_changes : ThreadHistoryChangeSet := mkChangeSet [] [] [].

Definition changes_is_empty (c : ThreadHistoryChangeSet) : bool :=
  is_empty (changed_items c) && is_empty (changed_turns c) && is_empty (removed_turn_ids c).

Definition from_turn (t : Turn) : ThreadHistoryTurnChange :=
  mkTurnChange (turn_id t) (turn_status t) (turn_error t) (turn_started_at t) (turn_completed_at t) (turn_duration_ms t).

Definition from_pending_turn (t : PendingTurn) : ThreadHistoryTurnChange := from_turn (pending t).

(** *** The accumulator of a batch *)

Record ThreadHistoryChangeAccumulator := mkAccumulator {
  acc_items : list (option ThreadHistoryItemChange);
  acc_item_indexes : gmap (str * str) nat;
  acc_turns : list (option ThreadHistoryTurnChange);
  acc_turn_indexes : gmap str nat;
  acc_removed : list str;
  acc_removed_indexes : gmap str nat;
}.

Definition accumulator_default : ThreadHistoryChangeAccumulator := mkAccumulator [] ∅ [] ∅ [] ∅.

Definition push_item_change (a : ThreadHistoryChangeAccumulator) (change : ThreadHistoryItemChange) : ThreadHistoryChangeAccumulator :=
  let key := (changed_in change, item_id (changed_item change)) in
  match acc_item_indexes a !! key with
  | Some index =>
      mkAccumulator (<[index := Some change]> (acc_items a)) (acc_item_indexes a) (acc_turns a) (acc_turn_indexes a)
        (acc_removed a) (acc_removed_indexes a)
  | None =>
      mkAccumulator (acc_items a ++ [Some change]) (<[key := length (acc_items a)]> (acc_item_indexes a)) (acc_turns a)
        (acc_turn_indexes a) (acc_removed a) (acc_removed_indexes a)
  end.

Definition push_turn_change (a : ThreadHistoryChangeAccumulator) (change : ThreadHistoryTurnChange) : ThreadHistoryChangeAccumulator :=
  match acc_turn_indexes a !! change_turn_id change with
  | Some index =>
      mkAccumulator (acc_items a) (acc_item_indexes a) (<[index := Some change]> (acc_turns a)) (acc_turn_indexes a)
        (acc_removed a) (acc_removed_indexes a)
  | None =>
      mkAccumulator (acc_items a) (acc_item_indexes a) (acc_turns a ++ [Some change])
        (<[change_turn_id change := length (acc_turns a)]> (acc_turn_indexes a)) (acc_removed a) (acc_removed_indexes a)
  end.

(** The entries of the items of a removed turn, in some order. *)
Definition clear_items (keys : list ((str * str) * nat)) (items : list (option ThreadHistoryItemChange))
    : list (option ThreadHistoryItemChange) :=
  fold_left (fun items '(_, index) => <[index := None]> items) keys items.

Definition push_removed_turn_id (a : ThreadHistoryChangeAccumulator) (id : str) : ThreadHistoryChangeAccumulator :=
  let '(removed, removed_indexes) :=
    match acc_removed_indexes a !! id with
    | Some _ => (acc_removed a, acc_removed_indexes a)
    | None => (acc_removed a ++ [id], <[id := length (acc_removed a)]> (acc_removed_indexes a))
    end in
  let turns := match acc_turn_indexes a !! id with Some index => <[index := None]> (acc_turns a) | None => acc_turns a end in
  mkAccumulator
    (clear_items (map_to_list (filter (fun e : (str * str) * nat => e.1.1 = id) (acc_item_indexes a))) (acc_items a))
    (filter (fun e : (str * str) * nat => e.1.1 <> id) (acc_item_indexes a))
    turns (delete id (acc_turn_indexes a)) removed removed_indexes.

Definition push (a : ThreadHistoryChangeAccumulator) (c : ThreadHistoryChangeSet) : ThreadHistoryChangeAccumulator :=
  fold_left push_turn_change (changed_turns c)
    (fold_left push_item_change (changed_items c)
       (fold_left push_removed_turn_id (removed_turn_ids c) a)).

Definition finish_changes (a : ThreadHistoryChangeAccumulator) : ThreadHistoryChangeSet :=
  mkChangeSet (omap id (acc_items a)) (omap id (acc_turns a)) (acc_removed a).

(** ** The builder *)

Record ThreadHistoryBuilder := mkBuilder {
  turns : list Turn;
  current_turn : option PendingTurn;
  next_item_index : nat;
  current_rollout_index : nat;
  next_rollout_index : nat;
  active_change_set : option ThreadHistoryChangeSet;
}.

Notation Builder := ThreadHistoryBuilder.

Definition builder_new : Builder := mkBuilder [] None 1 0 0 None.

Definition with_turns (b : Builder) (ts : list Turn) : Builder :=
  mkBuilder ts (current_turn b) (next_item_index b) (current_rollout_index b) (next_rollout_index b) (active_change_set b).
Definition with_current (b : Builder) (t : option PendingTurn) : Builder :=
  mkBuilder (turns b) t (next_item_index b) (current_rollout_index b) (next_rollout_index b) (active_change_set b).
Definition with_next_item (b : Builder) (n : nat) : Builder :=
  mkBuilder (turns b) (current_turn b) n (current_rollout_index b) (next_rollout_index b) (active_change_set b).
Definition with_changes (b : Builder) (c : option ThreadHistoryChangeSet) : Builder :=
  mkBuilder (turns b) (current_turn b) (next_item_index b) (current_rollout_index b) (next_rollout_index b) c.

(** *** Recording *)

Definition record_changed_item (b : Builder) (id : str) (item : ThreadItem) : Builder :=
  with_changes b (option_map (fun c => mkChangeSet (changed_items c ++ [mkItemChange id item]) (changed_turns c) (removed_turn_ids c))
                    (active_change_set b)).

Definition record_changed_turn (b : Builder) (t : ThreadHistoryTurnChange) : Builder :=
  with_changes b (option_map (fun c => mkChangeSet (changed_items c) (changed_turns c ++ [t]) (removed_turn_ids c)) (active_change_set b)).

Definition record_changed_pending_turn (b : Builder) (t : PendingTurn) : Builder := record_changed_turn b (from_pending_turn t).

Definition record_removed_turn_ids (b : Builder) (ids : list str) : Builder :=
  with_changes b (option_map (fun c => mkChangeSet (changed_items c) (changed_turns c) (removed_turn_ids c ++ ids)) (active_change_set b)).

(** *** Turns *)

Definition finish_current_turn (b : Builder) : Builder :=
  match current_turn b with
  | None => b
  | Some t =>
      if is_empty (turn_items (pending t)) && negb (opened_explicitly t) && negb (saw_compaction t) then with_current b None
      else with_turns (with_current b None) (turns b ++ [pending t])
  end.

Definition finish (b : Builder) : list Turn := turns (finish_current_turn b).

Definition active_turn_snapshot (b : Builder) : option Turn :=
  match current_turn b with Some t => Some (pending t) | None => last (turns b) end.

Definition find_turn (id : str) (ts : list Turn) : option Turn := find_first (fun t => turn_id t == id) ts.

Definition turn_snapshot (b : Builder) (id : str) : option Turn :=
  match current_turn b with
  | Some t => if turn_id (pending t) == id then Some (pending t) else find_turn id (turns b)
  | None => find_turn id (turns b)
  end.

Definition active_turn_position (b : Builder) : option nat :=
  if is_some (current_turn b) then Some (length (turns b))
  else if is_empty (turns b) then None
  else Some (length (turns b) - 1).

Definition has_active_turn (b : Builder) : bool := is_some (current_turn b).

Definition active_turn_id_if_explicit (b : Builder) : option str :=
  match current_turn b with Some t => if opened_explicitly t then Some (turn_id (pending t)) else None | None => None end.

Definition active_turn_start_index (b : Builder) : option nat := option_map rollout_start_index (current_turn b).

(** [uuid]: the identifier drawn if one is needed. *)
Definition new_turn (uuid : str) (b : Builder) (id : option str) : PendingTurn :=
  let id := match id with
            | Some id => id
            | None => if next_rollout_index b =? 0 then uuid else lit "rollout-" ++ show_nat (current_rollout_index b)
            end in
  mkPending (mkTurn id [] None Completed None None None) false false (current_rollout_index b).

Definition ensure_turn (uuid : str) (b : Builder) : Builder * PendingTurn :=
  match current_turn b with
  | Some t => (b, t)
  | None =>
      let t := new_turn uuid b None in
      (with_current (record_changed_pending_turn b t) (Some t), t)
  end.

Definition with_items (t : Turn) (items : list ThreadItem) : Turn :=
  mkTurn (turn_id t) items (turn_error t) (turn_status t) (turn_started_at t) (turn_completed_at t) (turn_duration_ms t).

Definition pending_with (t : PendingTurn) (turn : Turn) : PendingTurn :=
  mkPending turn (opened_explicitly t) (saw_compaction t) (rollout_start_index t).

(** *** Items *)

Definition next_item_id (b : Builder) : Builder * str :=
  (with_next_item b (S (next_item_index b)), lit "item-" ++ show_nat (next_item_index b)).

Definition push_item_in_current_turn (uuid : str) (b : Builder) (item : ThreadItem) : Builder :=
  let '(b, t) := ensure_turn uuid b in
  record_changed_item (with_current b (Some (pending_with t (with_items (pending t) (turn_items (pending t) ++ [item])))))
    (turn_id (pending t)) item.

(** In place of the first item with the id, else at the end. *)
Fixpoint upsert_turn_item (items : list ThreadItem) (item : ThreadItem) : list ThreadItem :=
  match items with
  | [] => [item]
  | existing :: items' => if item_id existing == item_id item then item :: items' else existing :: upsert_turn_item items' item
  end.

(** A change of the first turn with the id, if there is one. *)
Fixpoint update_turn (id : str) (f : Turn -> Turn) (ts : list Turn) : option (list Turn * Turn) :=
  match ts with
  | [] => None
  | t :: ts' =>
      if turn_id t == id then Some (f t :: ts', f t)
      else match update_turn id f ts' with Some (ts', t') => Some (t :: ts', t') | None => None end
  end.

Definition upsert_in (item : ThreadItem) (t : Turn) : Turn := with_items t (upsert_turn_item (turn_items t) item).

Definition upsert_item_in_finished_turn (b : Builder) (id : str) (item : ThreadItem) : Builder :=
  match update_turn id (upsert_in item) (turns b) with
  | Some (ts, _) => record_changed_item (with_turns b ts) id item
  | None => b
  end.

Definition upsert_item_in_turn_id (b : Builder) (id : str) (item : ThreadItem) : Builder :=
  match current_turn b with
  | Some t =>
      if turn_id (pending t) == id then
        record_changed_item (with_current b (Some (pending_with t (upsert_in item (pending t))))) id item
      else upsert_item_in_finished_turn b id item
  | None => upsert_item_in_finished_turn b id item
  end.

Definition upsert_item_in_current_turn (uuid : str) (b : Builder) (item : ThreadItem) : Builder :=
  let '(b, t) := ensure_turn uuid b in
  record_changed_item (with_current b (Some (pending_with t (upsert_in item (pending t))))) (turn_id (pending t)) item.

(** An event of an older log has no turn id. *)
Definition upsert_item (uuid : str) (b : Builder) (id : str) (item : ThreadItem) : Builder :=
  if is_empty id then upsert_item_in_current_turn uuid b item else upsert_item_in_turn_id b id item.

(** ** Events *)

Record UserMessageEvent := mkUserMessage {
  user_client_id : option str;
  user_message : str;
  images : option (list str);
  image_details : list (option ImageDetail);
  local_images : list str;
  local_image_details : list (option ImageDetail);
  user_text_elements : list TextElement;
}.

(** The fields that the begin and the end of an MCP call share. *)
Record McpCall := mkMcpCall {
  mcp_call_id : str;
  mcp_server : str;
  mcp_tool : str;
  mcp_arguments : option Json;
  mcp_connector_id : option str;
  mcp_resource_uri : option str;
  mcp_link_id : option str;
  mcp_app_name : option str;
  mcp_template_id : option str;
  mcp_action_name : option str;
  mcp_plugin_id : option str;
}.

Record CallToolResult := mkToolResult {
  tool_content : list Json;
  tool_structured_content : option Json;
  tool_is_error : option bool;
  tool_meta : option Json;
}.

Record DynamicCall := mkDynamicCall {
  dynamic_call_id : str;
  dynamic_turn_id : str;
  dynamic_namespace : option str;
  dynamic_tool : str;
  dynamic_arguments : Json;
}.

(** Items of the core that the app server shows as they are; the others reach
    it through events of their own. *)
Inductive TurnItem :=
| CorePlan (id text : str)
| CoreSleep (id : str) (duration_ms : N)
| CoreCommandExecution (id : str) (command : list str) (cwd : Uri) (process_id : option str) (source : CommandExecutionSource)
    (status : CommandExecutionStatus) (parsed_cmd : list ParseCommand.ParsedCommand) (aggregated_output : option str)
    (exit_code : option Z) (duration : option N)
| CoreDynamicToolCall (id : str) (namespace : option str) (tool : str) (arguments : Json) (status : DynamicToolCallStatus)
    (content_items : option (list DynamicContentItem)) (success : option bool) (duration : option N)
| CoreCollabAgentToolCall (id : str) (tool : CollabAgentTool) (status : CollabAgentToolCallStatus) (sender_thread_id : str)
    (receiver_thread_ids : list str) (prompt model : option str) (reasoning_effort : option ReasoningEffort)
    (agents_states : gmap str AgentStatus)
| CoreSubAgentActivity (id : str) (kind : SubAgentActivityKind) (agent_thread_id agent_path : str)
| OtherTurnItem.

Inductive EventMsg :=
| EvUserMessage (p : UserMessageEvent)
| EvAgentMessage (message : str) (phase : option MessagePhase) (memory_citation : option MemoryCitation)
| EvAgentReasoning (text : str)
| EvAgentReasoningRawContent (text : str)
| EvWebSearchBegin (call_id : str)
| EvWebSearchEnd (call_id query : str) (action : WebSearchAction)
| EvExecCommandBegin (p : ExecCommandBeginEvent)
| EvExecCommandEnd (p : ExecCommandEndEvent)
| EvGuardianAssessment (p : GuardianAssessmentEvent)
| EvApplyPatchApprovalRequest (call_id turn_id : str) (changes : gmap str FileChange)
| EvPatchApplyBegin (call_id turn_id : str) (changes : gmap str FileChange)
| EvPatchApplyEnd (call_id turn_id : str) (changes : gmap str FileChange) (status : PatchApplyStatus)
| EvDynamicToolCallRequest (p : DynamicCall)
| EvDynamicToolCallResponse (p : DynamicCall) (content_items : list DynamicContentItem) (success : bool) (duration : N)
| EvMcpToolCallBegin (p : McpCall)
| EvMcpToolCallEnd (p : McpCall) (duration : N) (result : result CallToolResult str)
| EvViewImageToolCall (call_id : str) (path : Uri)
| EvImageGenerationBegin (call_id : str)
| EvImageGenerationEnd (call_id status : str) (revised_prompt : option str) (result : str) (saved_path : option str)
| EvCollabAgentSpawnBegin (call_id sender_thread_id prompt model : str) (reasoning_effort : ReasoningEffort)
| EvCollabAgentSpawnEnd (call_id sender_thread_id : str) (new_thread_id : option str) (prompt model : str)
    (reasoning_effort : ReasoningEffort) (status : AgentStatus)
| EvCollabAgentInteractionBegin (call_id sender_thread_id receiver_thread_id prompt : str)
| EvCollabAgentInteractionEnd (call_id sender_thread_id receiver_thread_id prompt : str) (status : AgentStatus)
| EvSubAgentActivity (event_id : str) (kind : SubAgentActivityKind) (agent_thread_id agent_path : str)
| EvCollabWaitingBegin (call_id sender_thread_id : str) (receiver_thread_ids : list str)
| EvCollabWaitingEnd (call_id sender_thread_id : str) (statuses : gmap str AgentStatus)
| EvCollabCloseBegin (call_id sender_thread_id receiver_thread_id : str)
| EvCollabCloseEnd (call_id sender_thread_id receiver_thread_id : str) (status : AgentStatus)
| EvCollabResumeBegin (call_id sender_thread_id receiver_thread_id : str)
| EvCollabResumeEnd (call_id sender_thread_id receiver_thread_id : str) (status : AgentStatus)
| EvContextCompacted
| EvEnteredReviewMode (user_facing_hint : option str)
| EvExitedReviewMode (overall_explanation : option str)
| EvItemStarted (turn_id : str) (item : TurnItem)
| EvItemCompleted (turn_id : str) (item : TurnItem)
| EvError (message : str) (codex_error_info : option CodexErrorInfo)
| EvThreadRolledBack (num_turns : nat)
| EvTurnAborted (turn_id : option str) (completed_at duration_ms : option Z)
| EvTurnStarted (turn_id : str) (started_at : option Z)
| EvTurnComplete (turn_id : str) (completed_at duration_ms : option Z)
| EvOther.

(** *** Messages *)

(** The image [idx] has the detail at its place, if there is one. *)
Definition with_details {A} (f : str -> option ImageDetail -> A) (images : list str) (details : list (option ImageDetail)) : list A :=
  imap (fun idx image => f image (mjoin (details !! idx))) images.

Definition build_user_inputs (p : UserMessageEvent) : list UserInput :=
  (if is_empty (trim (user_message p)) then [] else [InputText (user_message p) (user_text_elements p)])
  ++ match images p with Some images => with_details InputImage images (image_details p) | None => [] end
  ++ with_details InputLocalImage (local_images p) (local_image_details p).

(** Whether a message of the user closes the current turn. *)
Definition closes_for_user (t : PendingTurn) : bool :=
  negb (opened_explicitly t) && negb (saw_compaction t && is_empty (turn_items (pending t))).

Definition handle_user_message (uuid : str) (b : Builder) (p : UserMessageEvent) : Builder :=
  let b := if is_some_and (current_turn b) closes_for_user then finish_current_turn b else b in
  let '(b, id) := next_item_id b in
  push_item_in_current_turn uuid b (UserMessage id (user_client_id p) (build_user_inputs p)).

Definition handle_agent_message (uuid : str) (b : Builder) (text : str) (phase : option MessagePhase)
    (memory_citation : option MemoryCitation) : Builder :=
  if is_empty text then b
  else
    let '(b, id) := next_item_id b in
    push_item_in_current_turn uuid b (AgentMessage id text phase memory_citation).

(** Appends to the reasoning at the end of the turn, or starts one. *)
Definition extend_reasoning (uuid : str) (b : Builder) (add : list str -> list str -> list str * list str) : Builder :=
  let '(b, t) := ensure_turn uuid b in
  match last (turn_items (pending t)) with
  | Some (Reasoning id summary content) =>
      let '(summary, content) := add summary content in
      let item := Reasoning id summary content in
      record_changed_item
        (with_current b (Some (pending_with t (with_items (pending t) (update_last (fun _ => item) (turn_items (pending t)))))))
        (turn_id (pending t)) item
  | _ =>
      let '(b, id) := next_item_id b in
      let '(summary, content) := add [] [] in
      push_item_in_current_turn uuid b (Reasoning id summary content)
  end.

Definition handle_agent_reasoning (uuid : str) (b : Builder) (text : str) : Builder :=
  if is_empty text then b else extend_reasoning uuid b (fun summary content => (summary ++ [text], content)).

Definition handle_agent_reasoning_raw_content (uuid : str) (b : Builder) (text : str) : Builder :=
  if is_empty text then b else extend_reasoning uuid b (fun summary content => (summary, content ++ [text])).

(** [parse_hook_prompt_message] of protocol/src/items.rs. *)
Definition parse_hook_prompt_message (hook_uuid : str) (id : option str) (content : list Msg.ContentItem) : option (str * list (str * str)) :=
  match mapM (fun item => match item with Msg.InputText text => parse_hook_prompt_fragment hook_prompt_xml text | _ => None end) content with
  | Some fragments => if is_empty fragments then None else Some (default hook_uuid id, fragments)
  | None => None
  end.

Definition handle_response_item (uuid hook_uuid : str) (b : Builder) (item : ResponseItem Json) : Builder :=
  match item with
  | Message id role content _ _ =>
      if negb (role == lit "user") then b
      else match parse_hook_prompt_message hook_uuid id content with
           | Some (id, fragments) => push_item_in_current_turn uuid b (HookPrompt id fragments)
           | None => b
           end
  | _ => b
  end.

(** *** Tool calls *)

Definition thread_item_from (item : TurnItem) : option ThreadItem :=
  match item with
  | CorePlan id text => Some (Plan id text)
  | CoreSleep id duration_ms => Some (Sleep id duration_ms)
  | CoreCommandExecution id command cwd process_id source status parsed_cmd aggregated_output exit_code duration =>
      Some (CommandExecution id (shlex_join command) cwd process_id source status (command_actions_for_path_uri parsed_cmd cwd)
              (match aggregated_output with Some output => if is_empty output then None else Some output | None => None end)
              exit_code (duration ≫= millis))
  | CoreDynamicToolCall id namespace tool arguments status content_items success duration =>
      Some (DynamicToolCall id namespace tool arguments status content_items success (duration ≫= millis))
  | CoreCollabAgentToolCall id tool status sender receivers prompt model effort states =>
      Some (CollabAgentToolCall id tool status sender receivers prompt model effort (collab_state <$> states))
  | CoreSubAgentActivity id kind agent_thread_id agent_path => Some (SubAgentActivity id kind agent_thread_id agent_path)
  | OtherTurnItem => None
  end.

Definition should_upsert (item : TurnItem) : bool :=
  match item with CorePlan _ text => negb (is_empty text) | OtherTurnItem => false | _ => true end.

Definition handle_materialized_item_lifecycle (b : Builder) (id : str) (item : TurnItem) : Builder :=
  if should_upsert item then
    match thread_item_from item with Some item => upsert_item_in_turn_id b id item | None => b end
  else b.

Definition guardian_item (p : GuardianAssessmentEvent) : option ThreadItem :=
  match guardian_status p with
  | GuardianInProgress => build_item_from_guardian_event p CommandInProgress
  | GuardianDenied | GuardianAborted => build_item_from_guardian_event p CommandDeclined
  | GuardianTimedOut => build_item_from_guardian_event p CommandFailed
  | GuardianApproved => None
  end.

Definition handle_guardian_assessment (uuid : str) (b : Builder) (p : GuardianAssessmentEvent) : Builder :=
  match guardian_item p with Some item => upsert_item uuid b (guardian_turn_id p) item | None => b end.

Definition dynamic_request_item (p : DynamicCall) : ThreadItem :=
  DynamicToolCall (dynamic_call_id p) (dynamic_namespace p) (dynamic_tool p) (dynamic_arguments p) DynamicInProgress None None None.

Definition dynamic_response_item (p : DynamicCall) (content_items : list DynamicContentItem) (success : bool) (duration : N) : ThreadItem :=
  DynamicToolCall (dynamic_call_id p) (dynamic_namespace p) (dynamic_tool p) (dynamic_arguments p)
    (if success then DynamicCompleted else DynamicFailed) (Some content_items) (Some success) (millis duration).

Definition mcp_app_context (p : McpCall) : option McpToolCallAppContext :=
  option_map (fun connector_id => mkAppContext connector_id (mcp_link_id p) (mcp_resource_uri p) (mcp_app_name p) (mcp_template_id p)
                                    (mcp_action_name p)) (mcp_connector_id p).

Definition mcp_begin_item (p : McpCall) : ThreadItem :=
  McpToolCall (mcp_call_id p) (mcp_server p) (mcp_tool p) McpInProgress (default json_null (mcp_arguments p)) (mcp_app_context p)
    (mcp_resource_uri p) (mcp_plugin_id p) None None None.

Definition is_success (r : result CallToolResult str) : bool :=
  match r with Ok value => negb (default false (tool_is_error value)) | Err _ => false end.

Definition mcp_end_item (p : McpCall) (duration : N) (r : result CallToolResult str) : ThreadItem :=
  let '(value, error) := match r with
                         | Ok value => (Some (mkMcpResult (tool_content value) (tool_structured_content value) (tool_meta value)), None)
                         | Err message => (None, Some message)
                         end in
  McpToolCall (mcp_call_id p) (mcp_server p) (mcp_tool p) (if is_success r then McpCompleted else McpFailed)
    (default json_null (mcp_arguments p)) (mcp_app_context p) (mcp_resource_uri p) (mcp_plugin_id p) value error (millis duration).

(** *** Agents *)

Definition agent_failed (s : AgentStatus) : bool := match s with Errored _ | NotFound => true | _ => false end.

Definition collab_status (s : AgentStatus) : CollabAgentToolCallStatus := if agent_failed s then CollabFailed else CollabCompleted.

Definition spawn_end_item (call_id sender : str) (new_thread_id : option str) (prompt model : str) (effort : ReasoningEffort)
    (status : AgentStatus) : ThreadItem :=
  let call_status := if agent_failed status then CollabFailed else if is_some new_thread_id then CollabCompleted else CollabFailed in
  let '(receivers, states) := match new_thread_id with
                              | Some id => ([id], {[id := collab_state status]})
                              | None => ([], ∅)
                              end in
  CollabAgentToolCall call_id SpawnAgent call_status sender receivers (Some prompt) (Some model) (Some effort) states.

(** A call that concerns one other agent. *)
Definition agent_begin_item (tool : CollabAgentTool) (call_id sender receiver : str) (prompt : option str) : ThreadItem :=
  CollabAgentToolCall call_id tool CollabInProgress sender [receiver] prompt None None ∅.

Definition agent_end_item (tool : CollabAgentTool) (call_id sender receiver : str) (prompt : option str) (status : AgentStatus) : ThreadItem :=
  CollabAgentToolCall call_id tool (collab_status status) sender [receiver] prompt None None {[receiver := collab_state status]}.

Definition waiting_end_item (call_id sender : str) (statuses : gmap str AgentStatus) : ThreadItem :=
  CollabAgentToolCall call_id WaitAgent
    (if existsb (fun e => agent_failed e.2) (map_to_list statuses) then CollabFailed else CollabCompleted) sender
    (merge_sort ExecApproval.str_le (map_to_list statuses).*1) None None None (collab_state <$> statuses).

(** *** Turns *)

Definition REVIEW_FALLBACK_MESSAGE : str := lit "Reviewer failed to output a response.".

Definition render_review_output_text (overall_explanation : str) : str :=
  let explanation := trim overall_explanation in
  if is_empty explanation then REVIEW_FALLBACK_MESSAGE else explanation.

Definition push_new_item (uuid : str) (b : Builder) (make : str -> ThreadItem) : Builder :=
  let '(b, id) := next_item_id b in push_item_in_current_turn uuid b (make id).

Definition handle_context_compacted (uuid : str) (b : Builder) : Builder := push_new_item uuid b ContextCompaction.

Definition handle_entered_review_mode (uuid : str) (b : Builder) (user_facing_hint : option str) : Builder :=
  push_new_item uuid b (fun id => EnteredReviewMode id (default (lit "Review requested.") user_facing_hint)).

Definition handle_exited_review_mode (uuid : str) (b : Builder) (overall_explanation : option str) : Builder :=
  push_new_item uuid b (fun id => ExitedReviewMode id (match overall_explanation with
                                                       | Some text => render_review_output_text text
                                                       | None => REVIEW_FALLBACK_MESSAGE
                                                       end)).

Definition handle_error (b : Builder) (message : str) (codex_error_info : option CodexErrorInfo) : Builder :=
  if negb (affects_turn_status codex_error_info) then b
  else
    match current_turn b with
    | None => b
    | Some t =>
        let turn := pending t in
        let turn := mkTurn (turn_id turn) (turn_items turn) (Some (mkTurnError message codex_error_info None)) Failed
                      (turn_started_at turn) (turn_completed_at turn) (turn_duration_ms turn) in
        record_changed_turn (with_current b (Some (pending_with t turn))) (from_turn turn)
    end.

Definition apply_abort (completed_at duration_ms : option Z) (t : Turn) : Turn :=
  mkTurn (turn_id t) (turn_items t) (turn_error t) Interrupted (turn_started_at t) completed_at duration_ms.

Definition mark_completed (completed_at duration_ms : option Z) (t : Turn) : Turn :=
  let status := match turn_status t with Completed | InProgress => Completed | s => s end in
  mkTurn (turn_id t) (turn_items t) (turn_error t) status (turn_started_at t) completed_at duration_ms.

(** A change of the current turn. *)
Definition change_current (b : Builder) (t : PendingTurn) (f : Turn -> Turn) : Builder :=
  record_changed_turn (with_current b (Some (pending_with t (f (pending t))))) (from_turn (f (pending t))).

Definition change_finished (b : Builder) (id : str) (f : Turn -> Turn) : option Builder :=
  match update_turn id f (turns b) with
  | Some (ts, t) => Some (record_changed_turn (with_turns b ts) (from_turn t))
  | None => None
  end.

Definition is_turn (id : str) (t : PendingTurn) : bool := turn_id (pending t) == id.

Definition handle_turn_aborted (b : Builder) (id : option str) (completed_at duration_ms : option Z) : Builder :=
  let abort := apply_abort completed_at duration_ms in
  let fall_back := match current_turn b with Some t => change_current b t abort | None => b end in
  match id with
  | None => fall_back
  | Some id =>
      match current_turn b with
      | Some t => if is_turn id t then change_current b t abort else default fall_back (change_finished b id abort)
      | None => default fall_back (change_finished b id abort)
      end
  end.

Definition handle_turn_started (uuid : str) (b : Builder) (id : str) (started_at : option Z) : Builder :=
  let b := finish_current_turn b in
  let t := new_turn uuid b (Some id) in
  let turn := pending t in
  let t := mkPending (mkTurn (turn_id turn) (turn_items turn) (turn_error turn) InProgress started_at (turn_completed_at turn) (turn_duration_ms turn))
             true (saw_compaction t) (rollout_start_index t) in
  with_current (record_changed_pending_turn b t) (Some t).

Definition handle_turn_complete (b : Builder) (id : str) (completed_at duration_ms : option Z) : Builder :=
  let complete := mark_completed completed_at duration_ms in
  let fall_back := match current_turn b with Some t => finish_current_turn (change_current b t complete) | None => b end in
  match current_turn b with
  | Some t => if is_turn id t then fall_back else default fall_back (change_finished b id complete)
  | None => default fall_back (change_finished b id complete)
  end.

Definition handle_compacted (uuid : str) (b : Builder) : Builder :=
  let '(b, t) := ensure_turn uuid b in
  with_current b (Some (mkPending (pending t) (opened_explicitly t) true (rollout_start_index t))).

Definition item_count (ts : list Turn) : nat := sum_list (List.map (fun t => length (turn_items t)) ts).

Definition handle_thread_rollback (b : Builder) (num_turns : nat) : Builder :=
  let b := finish_current_turn b in
  let len := length (turns b) in
  let removed := if len <=? num_turns then List.map turn_id (turns b)
                 else if num_turns =? 0 then []
                 else List.map turn_id (drop (len - num_turns) (turns b)) in
  let b := record_removed_turn_ids b removed in
  let b := with_turns b (if len <=? num_turns then [] else take (len - num_turns) (turns b)) in
  with_next_item b (S (item_count (turns b))).

(** ** The reducer *)

Definition handle_event (uuid : str) (b : Builder) (event : EventMsg) : Builder :=
  match event with
  | EvUserMessage p => handle_user_message uuid b p
  | EvAgentMessage message phase citation => handle_agent_message uuid b message phase citation
  | EvAgentReasoning text => handle_agent_reasoning uuid b text
  | EvAgentReasoningRawContent text => handle_agent_reasoning_raw_content uuid b text
  | EvWebSearchBegin call_id => upsert_item_in_current_turn uuid b (WebSearch call_id [] None)
  | EvWebSearchEnd call_id query action => upsert_item_in_current_turn uuid b (WebSearch call_id query (Some action))
  | EvExecCommandBegin p => upsert_item_in_turn_id b (begin_turn_id p) (build_command_execution_begin_item p)
  | EvExecCommandEnd p => upsert_item_in_turn_id b (end_turn_id p) (build_command_execution_end_item p)
  | EvGuardianAssessment p => handle_guardian_assessment uuid b p
  | EvApplyPatchApprovalRequest call_id id changes => upsert_item uuid b id (build_file_change_approval_request_item call_id changes)
  | EvPatchApplyBegin call_id id changes => upsert_item uuid b id (build_file_change_begin_item call_id changes)
  | EvPatchApplyEnd call_id id changes status => upsert_item uuid b id (build_file_change_end_item call_id changes status)
  | EvDynamicToolCallRequest p => upsert_item uuid b (dynamic_turn_id p) (dynamic_request_item p)
  | EvDynamicToolCallResponse p content_items success duration =>
      upsert_item uuid b (dynamic_turn_id p) (dynamic_response_item p content_items success duration)
  | EvMcpToolCallBegin p => upsert_item_in_current_turn uuid b (mcp_begin_item p)
  | EvMcpToolCallEnd p duration r => upsert_item_in_current_turn uuid b (mcp_end_item p duration r)
  | EvViewImageToolCall call_id path => upsert_item_in_current_turn uuid b (ImageView call_id path)
  | EvImageGenerationBegin call_id => upsert_item_in_current_turn uuid b (ImageGeneration call_id [] None [] None)
  | EvImageGenerationEnd call_id status revised_prompt r saved_path =>
      upsert_item_in_current_turn uuid b (ImageGeneration call_id status revised_prompt r saved_path)
  | EvCollabAgentSpawnBegin call_id sender prompt model effort =>
      upsert_item_in_current_turn uuid b
        (CollabAgentToolCall call_id SpawnAgent CollabInProgress sender [] (Some prompt) (Some model) (Some effort) ∅)
  | EvCollabAgentSpawnEnd call_id sender new_thread_id prompt model effort status =>
      upsert_item_in_current_turn uuid b (spawn_end_item call_id sender new_thread_id prompt model effort status)
  | EvCollabAgentInteractionBegin call_id sender receiver prompt =>
      upsert_item_in_current_turn uuid b (agent_begin_item SendInput call_id sender receiver (Some prompt))
  | EvCollabAgentInteractionEnd call_id sender receiver prompt status =>
      upsert_item_in_current_turn uuid b (agent_end_item SendInput call_id sender receiver (Some prompt) status)
  | EvSubAgentActivity event_id kind agent_thread_id agent_path =>
      upsert_item_in_current_turn uuid b (SubAgentActivity event_id kind agent_thread_id agent_path)
  | EvCollabWaitingBegin call_id sender receivers =>
      upsert_item_in_current_turn uuid b (CollabAgentToolCall call_id WaitAgent CollabInProgress sender receivers None None None ∅)
  | EvCollabWaitingEnd call_id sender statuses => upsert_item_in_current_turn uuid b (waiting_end_item call_id sender statuses)
  | EvCollabCloseBegin call_id sender receiver => upsert_item_in_current_turn uuid b (agent_begin_item CloseAgent call_id sender receiver None)
  | EvCollabCloseEnd call_id sender receiver status =>
      upsert_item_in_current_turn uuid b (agent_end_item CloseAgent call_id sender receiver None status)
  | EvCollabResumeBegin call_id sender receiver => upsert_item_in_current_turn uuid b (agent_begin_item ResumeAgent call_id sender receiver None)
  | EvCollabResumeEnd call_id sender receiver status =>
      upsert_item_in_current_turn uuid b (agent_end_item ResumeAgent call_id sender receiver None status)
  | EvContextCompacted => handle_context_compacted uuid b
  | EvEnteredReviewMode hint => handle_entered_review_mode uuid b hint
  | EvExitedReviewMode explanation => handle_exited_review_mode uuid b explanation
  | EvItemStarted id item => handle_materialized_item_lifecycle b id item
  | EvItemCompleted id item => handle_materialized_item_lifecycle b id item
  | EvError message info => handle_error b message info
  | EvThreadRolledBack num_turns => handle_thread_rollback b num_turns
  | EvTurnAborted id completed_at duration_ms => handle_turn_aborted b id completed_at duration_ms
  | EvTurnStarted id started_at => handle_turn_started uuid b id started_at
  | EvTurnComplete id completed_at duration_ms => handle_turn_complete b id completed_at duration_ms
  | EvOther => b
  end.

Inductive RolloutItem := RolloutEvent (e : EventMsg) | Compacted | RolloutResponseItem (hook_uuid : str) (item : ResponseItem Json) | RolloutOther.

(** The index into the log moves on; a turn opened without an id is named after it. *)
Definition handle_rollout_item (uuid : str) (b : Builder) (item : RolloutItem) : Builder :=
  let b := mkBuilder (turns b) (current_turn b) (next_item_index b) (next_rollout_index b) (S (next_rollout_index b)) (active_change_set b) in
  match item with
  | RolloutEvent e => handle_event uuid b e
  | Compacted => handle_compacted uuid b
  | RolloutResponseItem hook_uuid item => handle_response_item uuid hook_uuid b item
  | RolloutOther => b
  end.

Definition collect_changes (b : Builder) (handle : Builder -> Builder) : Builder * ThreadHistoryChangeSet :=
  let b := handle (with_changes b (Some no_changes)) in
  (with_changes b None, default no_changes (active_change_set b)).

Definition handle_event_with_changes (uuid : str) (b : Builder) (e : EventMsg) : Builder * ThreadHistoryChangeSet :=
  collect_changes b (fun b => handle_event uuid b e).

Definition handle_rollout_item_with_changes (uuid : str) (b : Builder) (item : RolloutItem) : Builder * ThreadHistoryChangeSet :=
  collect_changes b (fun b => handle_rollout_item uuid b item).

Definition push_changes_of (uuid : str) (acc : Builder * ThreadHistoryChangeAccumulator) (item : RolloutItem)
    : Builder * ThreadHistoryChangeAccumulator :=
  let '(b, changes) := handle_rollout_item_with_changes uuid acc.1 item in (b, push acc.2 changes).

(** In a replay no identifier is drawn for a turn. *)
Definition handle_rollout_items_with_changes (uuid : str) (b : Builder) (items : list RolloutItem) : Builder * ThreadHistoryChangeSet :=
  let '(b, acc) := fold_left (push_changes_of uuid) items (b, accumulator_default) in (b, finish_changes acc).

Definition build_turns_from_rollout_items (uuid : str) (items : list RolloutItem) : list Turn :=
  finish (fold_left (handle_rollout_item uuid) items builder_new).

End History.
Arguments CodexErrorInfo {Cr}.
End ThreadHistory.
