(* ===== verification/ThreadChangesFacts.v ===== *)
(** The changes that a thread's history reports (app-server-protocol/src/protocol/thread_history.rs):
    one who applies them, and why a batch may leave out the changes that later
    ones of it replace. *)

From stdpp Require Import base list option numbers strings gmap sorting.
From S2P Require Import Prelude RustStr ResponseItems ContextFragments ThreadItems ThreadHistory.

Module ThreadChangesFacts.
Import ThreadItems ThreadHistory.
Open Scope rust_scope.

(** ** Slots

    A list of slots indexed by key: the changes of a key replace each other. *)
Definition slots_ok {A K} `{Countable K} (key : A -> K) (l : list (option A)) (ix : gmap K nat) : Prop :=
  (forall k i, ix !! k = Some i -> exists c, l !! i = Some (Some c) /\ key c = k)
  /\ (forall i c, l !! i = Some (Some c) -> ix !! key c = Some i).

(** The change of a key. *)
Definition slot {A K} `{Countable K} (l : list (option A)) (ix : gmap K nat) (k : K) : option A :=
  match ix !! k with Some i => mjoin (l !! i) | None => None end.

Section Slots.
Context {A K : Type} `{Countable K} (key : A -> K).
Implicit Types (l : list (option A)) (ix : gmap K nat).

Lemma slots_replace l ix c i : slots_ok key l ix -> ix !! key c = Some i -> slots_ok key (<[i := Some c]> l) ix.
Proof using.
  intros [H1 H2] Hi. destruct (H1 _ _ Hi) as (c0 & Hc0 & Hk0). assert (Hlt : i < length l) by by eapply lookup_lt_Some. split.
  - intros k j Hj. destruct (decide (j = i)) as [->|Hne].
    + exists c. split; [by apply list_lookup_insert_eq|]. destruct (H1 _ _ Hj) as (c1 & Hc1 & <-). by simplify_eq.
    + rewrite list_lookup_insert_ne by done. by apply H1.
  - intros j c' Hj. destruct (decide (j = i)) as [->|Hne].
    + rewrite list_lookup_insert_eq in Hj by done. by simplify_eq.
    + rewrite list_lookup_insert_ne in Hj by done. by apply H2.
Qed.

Lemma slots_add l ix c : slots_ok key l ix -> ix !! key c = None -> slots_ok key (l ++ [Some c]) (<[key c := length l]> ix).
Proof using.
  intros [H1 H2] Hn. split.
  - intros k j. destruct (decide (k = key c)) as [->|Hne].
    + rewrite lookup_insert_eq. intros [= <-]. exists c. by rewrite lookup_app_r, Nat.sub_diag by lia.
    + rewrite lookup_insert_ne by done. intros Hj. destruct (H1 _ _ Hj) as (c' & Hc' & Hk). exists c'. by rewrite (lookup_app_l_Some _ _ _ _ Hc').
  - intros j c' [[_ Hj]|[-> [= <-]]]%lookup_snoc_Some.
    + rewrite lookup_insert_ne; [by apply H2|]. intros Heq. specialize (H2 _ _ Hj). by rewrite <- Heq, Hn in H2.
    + by rewrite lookup_insert_eq.
Qed.

Lemma slot_replace l ix c i k : slots_ok key l ix -> ix !! key c = Some i ->
  slot (<[i := Some c]> l) ix k = if bool_decide (k = key c) then Some c else slot l ix k.
Proof using.
  intros [H1 H2] Hi. destruct (H1 _ _ Hi) as (c0 & Hc0 & Hk0). unfold slot. case_bool_decide as Hk.
  - rewrite Hk, Hi, list_lookup_insert_eq by by eapply lookup_lt_Some. done.
  - destruct (ix !! k) as [j|] eqn:Ej; [|done]. rewrite list_lookup_insert_ne; [done|]. intros ->.
    destruct (H1 _ _ Ej) as (c1 & Hc1 & Hk1). by simplify_eq.
Qed.

Lemma slot_add l ix c k : slots_ok key l ix ->
  slot (l ++ [Some c]) (<[key c := length l]> ix) k = if bool_decide (k = key c) then Some c else slot l ix k.
Proof using.
  intros [H1 H2]. unfold slot. case_bool_decide as Hk.
  - by rewrite Hk, lookup_insert_eq, lookup_app_r, Nat.sub_diag by lia.
  - rewrite lookup_insert_ne by done. destruct (ix !! k) as [j|] eqn:Ej; [|done].
    destruct (H1 _ _ Ej) as (c1 & Hc1 & _). by rewrite (lookup_app_l_Some _ _ _ _ Hc1), Hc1.
Qed.

(** Dropping keys, with their slots emptied. *)
Lemma slots_drop (P : K -> Prop) `{!forall k, Decision (P k)} l l' ix ix' :
  slots_ok key l ix ->
  (forall k, ix' !! k = if decide (P k) then None else ix !! k) ->
  (forall k i, ix !! k = Some i -> ~ P k -> l' !! i = l !! i) ->
  (forall i c, l' !! i = Some (Some c) -> l !! i = Some (Some c) /\ ~ P (key c)) ->
  slots_ok key l' ix' /\ (forall k, slot l' ix' k = if bool_decide (P k) then None else slot l ix k).
Proof using.
  intros [H1 H2] Hix Hkeep Hl. split; [split|].
  - intros k i. rewrite Hix. destruct (decide (P k)) as [?|Hp]; [done|]. intros Hi. rewrite (Hkeep k i Hi Hp). by apply H1.
  - intros i c Hc. destruct (Hl i c Hc) as [Hc' Hp]. rewrite Hix. destruct (decide (P (key c))); [done|]. by apply H2.
  - intros k. unfold slot. rewrite Hix. destruct (decide (P k)) as [Hp|Hp]; [by rewrite bool_decide_true|].
    rewrite bool_decide_false by done. destruct (ix !! k) as [i|] eqn:E; [|done]. by rewrite (Hkeep k i).
Qed.

(** In a list of slots with one change per key, the change of a key is the one at its index. *)
Lemma last_index l (k : K) (index : option nat) :
  (forall i, index = Some i -> exists c, l !! i = Some (Some c) /\ key c = k) ->
  (forall i c, l !! i = Some (Some c) -> key c = k -> index = Some i) ->
  last (List.filter (fun c => key c == k) (omap id l)) = match index with Some i => mjoin (l !! i) | None => None end.
Proof using.
  intros H1 H2. induction l as [|x l IH] using rev_ind.
  - destruct index as [i|]; [|done]. by destruct (H1 i eq_refl) as (c & Hc & _).
  - rewrite omap_app, List.filter_app. destruct index as [i|].
    + destruct (H1 i eq_refl) as (c & Hc & Hk). rewrite Hc. cbn [mjoin option_join].
      apply lookup_snoc_Some in Hc as [[Hlt Hc]|[Hi Hx]].
      * assert (Hx : List.filter (fun c => key c == k) (omap id [x]) = []).
        { cbn. destruct x as [c'|]; [|done]. cbn. rewrite bool_decide_false; [done|]. intros Hk'.
          assert (Some i = Some (length l)) as [= ->]; [|lia]. apply (H2 (length l) c'); [|done]. by rewrite lookup_app_r, Nat.sub_diag by lia. }
        rewrite Hx, app_nil_r. rewrite IH, Hc; [done| |].
        -- intros j [= <-]. eauto.
        -- intros j c' Hj Hk'. apply (H2 j c'); [|done]. apply lookup_app_l_Some. done.
      * subst x. cbn. rewrite bool_decide_true by done. by rewrite last_snoc.
    + assert (Hnil : forall m, (forall c, Some c ∈ m -> key c <> k) -> List.filter (fun c => key c == k) (omap id m) = []).
      { intros m Hm. induction m as [|y m IHm]; [done|]. cbn. destruct y as [c|]; cbn.
        - rewrite bool_decide_false by (apply Hm; left). apply IHm. intros c' Hc'. apply Hm. by right.
        - apply IHm. intros c' Hc'. apply Hm. by right. }
      assert (Hne : forall c, Some c ∈ l ++ [x] -> key c <> k).
      { intros c [j Hj]%list_elem_of_lookup Hk. by specialize (H2 j c Hj Hk). }
      rewrite !Hnil; [done|intros c Hc; apply Hne, elem_of_app; by right|intros c Hc; apply Hne, elem_of_app; by left].
Qed.

Lemma last_slot l ix k : slots_ok key l ix -> last (List.filter (fun c => key c == k) (omap id l)) = slot l ix k.
Proof using.
  intros [H1 H2]. apply last_index; [intros i; apply H1|]. intros i c Hc <-. by apply H2.
Qed.

End Slots.

Section Facts.
Context {Cr : Carried}.

(** ** Followers

    A follower keeps the last snapshot per turn and per item of a turn. *)

Record Client := mkClient { client_turns : gmap str ThreadHistoryTurnChange; client_items : gmap (str * str) ThreadItem }.

Definition client_empty : Client := mkClient ∅ ∅.

Definition remove_turn (st : Client) (id : str) : Client :=
  mkClient (delete id (client_turns st)) (filter (fun e : (str * str) * ThreadItem => e.1.1 <> id) (client_items st)).

Definition item_key (c : ThreadHistoryItemChange) : str * str := (changed_in c, item_id (changed_item c)).

Definition put_item (st : Client) (c : ThreadHistoryItemChange) : Client :=
  mkClient (client_turns st) (<[item_key c := changed_item c]> (client_items st)).

Definition put_turn (st : Client) (c : ThreadHistoryTurnChange) : Client :=
  mkClient (<[change_turn_id c := c]> (client_turns st)) (client_items st).

Definition apply_changes (st : Client) (c : ThreadHistoryChangeSet) : Client :=
  fold_left put_turn (changed_turns c) (fold_left put_item (changed_items c) (fold_left remove_turn (removed_turn_ids c) st)).

Lemma client_eq (a b : Client) :
  (forall id, client_turns a !! id = client_turns b !! id) -> (forall k, client_items a !! k = client_items b !! k) -> a = b.
Proof. destruct a, b. cbn. intros H1 H2. f_equal; by apply map_eq. Qed.

Lemma remove_turn_items st id k : client_items (remove_turn st id) !! k = if k.1 == id then None else client_items st !! k.
Proof.
  cbn. case_bool_decide as E.
  - apply map_lookup_filter_None. right. intros x _. cbn. by intros ?.
  - destruct (client_items st !! k) as [x|] eqn:Ex; [by apply map_lookup_filter_Some|by apply map_lookup_filter_None; left].
Qed.

Lemma remove_turns_turns ids st id :
  client_turns (fold_left remove_turn ids st) !! id = if bool_decide (id ∈ ids) then None else client_turns st !! id.
Proof.
  revert st. induction ids as [|x ids IH]; intros st; cbn [fold_left]; [by rewrite bool_decide_false by apply not_elem_of_nil|].
  rewrite IH. cbn. destruct (decide (id = x)) as [->|Hne].
  - rewrite lookup_delete_eq, (bool_decide_true (x ∈ x :: ids)) by left. by case_bool_decide.
  - rewrite lookup_delete_ne by done. by rewrite (bool_decide_ext (id ∈ x :: ids) (id ∈ ids)) by (rewrite elem_of_cons; naive_solver).
Qed.

Lemma remove_turns_items ids st k :
  client_items (fold_left remove_turn ids st) !! k = if bool_decide (k.1 ∈ ids) then None else client_items st !! k.
Proof.
  revert st. induction ids as [|x ids IH]; intros st; cbn [fold_left]; [by rewrite bool_decide_false by apply not_elem_of_nil|].
  rewrite IH, remove_turn_items. destruct (decide (k.1 = x)) as [->|Hne].
  - rewrite (bool_decide_true (x = x)) by done. rewrite (bool_decide_true (x ∈ x :: ids)) by left. by destruct (bool_decide (x ∈ ids)).
  - rewrite (bool_decide_false (k.1 = x)) by done.
    by rewrite (bool_decide_ext (k.1 ∈ x :: ids) (k.1 ∈ ids)) by (rewrite elem_of_cons; naive_solver).
Qed.

(** Inserting changes of which each key has one. *)
Lemma fold_put_items cs st k :
  client_items (fold_left put_item cs st) !! k =
  match last (List.filter (fun c => item_key c == k) cs) with Some c => Some (changed_item c) | None => client_items st !! k end.
Proof.
  induction cs as [|c cs IH] using rev_ind; [done|]. rewrite fold_left_app, List.filter_app. cbn.
  destruct (decide (item_key c = k)) as [<-|Hne].
  - by rewrite lookup_insert_eq, bool_decide_true, last_snoc by done.
  - by rewrite lookup_insert_ne, bool_decide_false, app_nil_r by done.
Qed.

Lemma fold_put_items_turns cs st : client_turns (fold_left put_item cs st) = client_turns st.
Proof. revert st. induction cs as [|c cs IH]; intros st; [done|]. cbn. by rewrite IH. Qed.

Lemma fold_put_turns cs st k :
  client_turns (fold_left put_turn cs st) !! k =
  match last (List.filter (fun c => change_turn_id c == k) cs) with Some c => Some c | None => client_turns st !! k end.
Proof.
  induction cs as [|c cs IH] using rev_ind; [done|]. rewrite fold_left_app, List.filter_app. cbn.
  destruct (decide (change_turn_id c = k)) as [<-|Hne].
  - by rewrite lookup_insert_eq, bool_decide_true, last_snoc by done.
  - by rewrite lookup_insert_ne, bool_decide_false, app_nil_r by done.
Qed.

Lemma fold_put_turns_items cs st : client_items (fold_left put_turn cs st) = client_items st.
Proof. revert st. induction cs as [|c cs IH]; intros st; [done|]. cbn. by rewrite IH. Qed.

(** ** Batches *)

Definition acc_ok (a : ThreadHistoryChangeAccumulator) : Prop :=
  slots_ok item_key (acc_items a) (acc_item_indexes a) /\ slots_ok change_turn_id (acc_turns a) (acc_turn_indexes a)
  /\ (forall k, is_Some (acc_removed_indexes a !! k) <-> k ∈ acc_removed a).

(** What a batch so far makes of a follower. *)
Definition meaning (a : ThreadHistoryChangeAccumulator) (st : Client) : Client := apply_changes st (finish_changes a).

Definition item_slot (a : ThreadHistoryChangeAccumulator) (k : str * str) := slot (acc_items a) (acc_item_indexes a) k.
Definition turn_slot (a : ThreadHistoryChangeAccumulator) (k : str) := slot (acc_turns a) (acc_turn_indexes a) k.

Lemma meaning_items a st k : acc_ok a ->
  client_items (meaning a st) !! k =
  match item_slot a k with
  | Some c => Some (changed_item c)
  | None => if bool_decide (k.1 ∈ acc_removed a) then None else client_items st !! k
  end.
Proof.
  intros (Hi & _ & _). unfold meaning, apply_changes, finish_changes. cbn [changed_items changed_turns removed_turn_ids].
  by rewrite fold_put_turns_items, fold_put_items, remove_turns_items, (last_slot item_key _ (acc_item_indexes a)).
Qed.

Lemma meaning_turns a st k : acc_ok a ->
  client_turns (meaning a st) !! k =
  match turn_slot a k with
  | Some c => Some c
  | None => if bool_decide (k ∈ acc_removed a) then None else client_turns st !! k
  end.
Proof.
  intros (_ & Ht & _). unfold meaning, apply_changes, finish_changes. cbn [changed_items changed_turns removed_turn_ids].
  by rewrite fold_put_turns, fold_put_items_turns, remove_turns_turns, (last_slot change_turn_id _ (acc_turn_indexes a)).
Qed.

Lemma acc_default_ok : acc_ok accumulator_default.
Proof. split; [done|split; [done|]]. intros k. cbn. rewrite lookup_empty, elem_of_nil. split; [by intros [? ?]|done]. Qed.

Lemma push_item_ok a c : acc_ok a ->
  acc_ok (push_item_change a c) /\ forall k, item_slot (push_item_change a c) k = if bool_decide (k = item_key c) then Some c else item_slot a k.
Proof.
  intros (Hi & Ht & Hr). unfold push_item_change, item_slot. fold (item_key c).
  destruct (acc_item_indexes a !! item_key c) as [i|] eqn:E; cbn; (split; [split; [|done]|]).
  - by apply slots_replace.
  - intros k. by apply slot_replace.
  - by apply slots_add.
  - intros k. by apply slot_add.
Qed.

Lemma push_turn_ok a c : acc_ok a ->
  acc_ok (push_turn_change a c) /\ forall k, turn_slot (push_turn_change a c) k = if bool_decide (k = change_turn_id c) then Some c else turn_slot a k.
Proof.
  intros (Hi & Ht & Hr). unfold push_turn_change, turn_slot.
  destruct (acc_turn_indexes a !! change_turn_id c) as [i|] eqn:E; cbn; (split; [split; [done|split; [|done]]|]).
  - by apply slots_replace.
  - intros k. by apply slot_replace.
  - by apply slots_add.
  - intros k. by apply slot_add.
Qed.

Lemma clear_items_lookup keys items i :
  clear_items keys items !! i = if bool_decide (i ∈ keys.*2) then option_map (fun _ => None) (items !! i) else items !! i.
Proof.
  unfold clear_items. revert items. induction keys as [|[k j] keys IH]; intros items; cbn [fold_left fmap list_fmap snd].
  - by rewrite bool_decide_false by apply not_elem_of_nil.
  - rewrite IH. destruct (decide (i = j)) as [->|Hne].
    + rewrite (bool_decide_true (j ∈ j :: keys.*2)) by left.
      destruct (decide (j < length items)) as [Hlt|Hge].
      * rewrite list_lookup_insert_eq by done. apply lookup_lt_is_Some in Hlt as [x ->]. by destruct (bool_decide (j ∈ keys.*2)).
      * rewrite list_insert_ge by lia. rewrite (lookup_ge_None_2 items j) by lia. by destruct (bool_decide (j ∈ keys.*2)).
    + rewrite list_lookup_insert_ne by done. by rewrite (bool_decide_ext (i ∈ j :: keys.*2) (i ∈ keys.*2)) by (rewrite elem_of_cons; naive_solver).
Qed.

Lemma elem_of_indexes (id : str) (ix : gmap (str * str) nat) (i : nat) :
  i ∈ (map_to_list (filter (fun e : (str * str) * nat => e.1.1 = id) ix)).*2 <-> exists k, ix !! k = Some i /\ k.1 = id.
Proof.
  rewrite list_elem_of_fmap. split.
  - intros ([k j] & -> & Hk). apply elem_of_map_to_list, map_lookup_filter_Some in Hk as [Hk HP]. by exists k.
  - intros (k & Hk & HP). exists (k, i). split; [done|]. by apply elem_of_map_to_list, map_lookup_filter_Some.
Qed.

Lemma push_removed_items a id :
  acc_ok a -> slots_ok item_key (acc_items (push_removed_turn_id a id)) (acc_item_indexes (push_removed_turn_id a id))
  /\ forall k, item_slot (push_removed_turn_id a id) k = if bool_decide (k.1 = id) then None else item_slot a k.
Proof.
  unfold item_slot. intros (Hi & _ & _).
  replace (acc_items (push_removed_turn_id a id)) with
    (clear_items (map_to_list (filter (fun e : (str * str) * nat => e.1.1 = id) (acc_item_indexes a))) (acc_items a))
    by (unfold push_removed_turn_id; by destruct (acc_removed_indexes a !! id)).
  replace (acc_item_indexes (push_removed_turn_id a id)) with (filter (fun e : (str * str) * nat => e.1.1 <> id) (acc_item_indexes a))
    by (unfold push_removed_turn_id; by destruct (acc_removed_indexes a !! id)).
  apply (slots_drop item_key (fun k => k.1 = id) (acc_items a) _ (acc_item_indexes a)); [done| | |].
  - intros k. destruct (decide (k.1 = id)) as [Hk|Hk].
    + apply map_lookup_filter_None. right. intros x _. cbn. by intros ?.
    + destruct (acc_item_indexes a !! k) as [x|] eqn:E; [by apply map_lookup_filter_Some|by apply map_lookup_filter_None; left].
  - intros k i Hk Hp. rewrite clear_items_lookup, bool_decide_false; [done|].
    intros (k' & Hk' & Hp')%elem_of_indexes. destruct Hi as [H1 _].
    destruct (H1 _ _ Hk) as (c & Hc & Hkey). destruct (H1 _ _ Hk') as (c' & Hc' & Hkey'). by simplify_eq.
  - intros i c. rewrite clear_items_lookup. case_bool_decide as Hin.
    + destruct (acc_items a !! i); by cbn.
    + intros Hc. split; [done|]. intros Hp. apply Hin. apply elem_of_indexes. exists (item_key c).
      split; [|done]. by apply Hi.
Qed.

Lemma push_removed_turns a id :
  acc_ok a -> slots_ok change_turn_id (acc_turns (push_removed_turn_id a id)) (acc_turn_indexes (push_removed_turn_id a id))
  /\ forall k, turn_slot (push_removed_turn_id a id) k = if bool_decide (k = id) then None else turn_slot a k.
Proof.
  unfold turn_slot. intros (_ & Ht & _).
  replace (acc_turns (push_removed_turn_id a id)) with
    (match acc_turn_indexes a !! id with Some index => <[index := None]> (acc_turns a) | None => acc_turns a end)
    by (unfold push_removed_turn_id; by destruct (acc_removed_indexes a !! id)).
  replace (acc_turn_indexes (push_removed_turn_id a id)) with (delete id (acc_turn_indexes a))
    by (unfold push_removed_turn_id; by destruct (acc_removed_indexes a !! id)).
  apply (slots_drop change_turn_id (fun k => k = id) (acc_turns a) _ (acc_turn_indexes a)); [done| | |].
  - intros k. destruct (decide (k = id)) as [->|Hk]; [by rewrite lookup_delete_eq|by rewrite lookup_delete_ne].
  - intros k i Hk Hp. destruct (acc_turn_indexes a !! id) as [j|] eqn:E; [|done]. apply list_lookup_insert_ne. intros ->.
    destruct Ht as [H1 _]. destruct (H1 _ _ Hk) as (c & Hc & Hkey). destruct (H1 _ _ E) as (c' & Hc' & Hkey'). by simplify_eq.
  - intros i c. destruct (acc_turn_indexes a !! id) as [j|] eqn:E.
    + intros [(_ & ? & _)|[Hne Hc]]%list_lookup_insert_Some; [done|]. split; [done|]. intros Hp.
      destruct Ht as [_ H2]. specialize (H2 _ _ Hc). by rewrite Hp, E in H2; simplify_eq.
    + intros Hc. split; [done|]. intros Hp. destruct Ht as [_ H2]. specialize (H2 _ _ Hc). by rewrite Hp, E in H2.
Qed.

Lemma elem_of_push_removed a id k : acc_ok a -> k ∈ acc_removed (push_removed_turn_id a id) <-> k = id \/ k ∈ acc_removed a.
Proof.
  intros Ha. unfold push_removed_turn_id. destruct (acc_removed_indexes a !! id) as [j|] eqn:E; cbn.
  - assert (id ∈ acc_removed a) by by apply Ha. naive_solver.
  - rewrite elem_of_app, list_elem_of_singleton. tauto.
Qed.

Lemma push_removed_ok a id : acc_ok a -> acc_ok (push_removed_turn_id a id).
Proof.
  intros Ha. split; [by apply push_removed_items|]. split; [by apply push_removed_turns|].
  intros k. rewrite elem_of_push_removed by done. rewrite <- (proj2 (proj2 Ha) k). unfold push_removed_turn_id.
  destruct (acc_removed_indexes a !! id) as [j|] eqn:E; cbn.
  - split; [by right|]. intros [->|?]; [|done]. by rewrite E.
  - destruct (decide (k = id)) as [->|Hne]; [rewrite lookup_insert_eq; split; [by left|done]|rewrite lookup_insert_ne by done; naive_solver].
Qed.

Lemma meaning_push_item a st c : acc_ok a -> meaning (push_item_change a c) st = put_item (meaning a st) c.
Proof.
  intros Ha. destruct (push_item_ok a c Ha) as [Ha' Hs]. apply client_eq; intros k; cbn [put_item client_turns client_items].
  - rewrite !meaning_turns by done. unfold turn_slot, push_item_change. by destruct (acc_item_indexes a !! _).
  - rewrite meaning_items, Hs by done. case_bool_decide as Hk; [by rewrite Hk, lookup_insert_eq|].
    rewrite lookup_insert_ne, meaning_items by done. unfold push_item_change. by destruct (acc_item_indexes a !! _).
Qed.

Lemma meaning_push_turn a st c : acc_ok a -> meaning (push_turn_change a c) st = put_turn (meaning a st) c.
Proof.
  intros Ha. destruct (push_turn_ok a c Ha) as [Ha' Hs]. apply client_eq; intros k; cbn [put_turn client_turns client_items].
  - rewrite meaning_turns, Hs by done. case_bool_decide as Hk; [by rewrite Hk, lookup_insert_eq|].
    rewrite lookup_insert_ne, meaning_turns by done. unfold push_turn_change. by destruct (acc_turn_indexes a !! _).
  - rewrite !meaning_items by done. unfold item_slot, push_turn_change. by destruct (acc_turn_indexes a !! _).
Qed.

Lemma meaning_push_removed a st id : acc_ok a -> meaning (push_removed_turn_id a id) st = remove_turn (meaning a st) id.
Proof.
  intros Ha. assert (Ha' := push_removed_ok a id Ha). apply client_eq; intros k.
  - rewrite meaning_turns by done. cbn [remove_turn client_turns]. rewrite (proj2 (push_removed_turns a id Ha)).
    rewrite (bool_decide_ext _ _ (elem_of_push_removed a id k Ha)). destruct (decide (k = id)) as [->|Hne].
    + by rewrite lookup_delete_eq, !bool_decide_true by auto.
    + rewrite lookup_delete_ne, meaning_turns, (bool_decide_false (k = id)) by done. case_match; [done|].
      by rewrite (bool_decide_ext (k = id \/ k ∈ acc_removed a) (k ∈ acc_removed a)) by naive_solver.
  - rewrite meaning_items, remove_turn_items, (proj2 (push_removed_items a id Ha)) by done.
    rewrite (bool_decide_ext _ _ (elem_of_push_removed a id k.1 Ha)). destruct (decide (k.1 = id)) as [Hk|Hne].
    + by rewrite !bool_decide_true by auto.
    + rewrite meaning_items, (bool_decide_false (k.1 = id)) by done. case_match; [done|].
      by rewrite (bool_decide_ext (k.1 = id \/ k.1 ∈ acc_removed a) (k.1 ∈ acc_removed a)) by naive_solver.
Qed.

Lemma fold_meaning {A} (f : ThreadHistoryChangeAccumulator -> A -> ThreadHistoryChangeAccumulator) (g : Client -> A -> Client) st l a :
  (forall a x, acc_ok a -> acc_ok (f a x) /\ meaning (f a x) st = g (meaning a st) x) ->
  acc_ok a -> acc_ok (fold_left f l a) /\ meaning (fold_left f l a) st = fold_left g l (meaning a st).
Proof.
  intros Hfg. revert a. induction l as [|x l IH]; intros a Ha; [done|]. cbn [fold_left].
  destruct (Hfg a x Ha) as [Ha' <-]. by apply IH.
Qed.

Lemma push_meaning a st c : acc_ok a -> acc_ok (push a c) /\ meaning (push a c) st = apply_changes (meaning a st) c.
Proof.
  intros Ha. unfold push, apply_changes.
  destruct (fold_meaning push_removed_turn_id remove_turn st (removed_turn_ids c) a) as [H1 <-]; [|done|].
  { intros a' id H. split; [by apply push_removed_ok|by apply meaning_push_removed]. }
  destruct (fold_meaning push_item_change put_item st (changed_items c) (fold_left push_removed_turn_id (removed_turn_ids c) a)) as [H2 <-]; [|done|].
  { intros a' c' H. split; [by apply push_item_ok|by apply meaning_push_item]. }
  apply fold_meaning; [|done]. intros a' c' H. split; [by apply push_turn_ok|by apply meaning_push_turn].
Qed.

(** A batch of changes does to a follower what the changes do one by one. *)
Lemma batch_meaning cs st : apply_changes st (finish_changes (fold_left push cs accumulator_default)) = fold_left apply_changes cs st.
Proof.
  destruct (fold_meaning push apply_changes st cs accumulator_default) as [_ H]; [intros a x; apply push_meaning|apply acc_default_ok|].
  exact H.
Qed.

End Facts.
End ThreadChangesFacts.
