(* ===== verification/ThreadHistoryFacts.v ===== *)
(** Theorems on the history of a thread: one who follows the reported changes,
    batch by batch, sees what a replay of the whole log shows, and identifiers
    are unique. *)

From stdpp Require Import base list option numbers strings gmap sorting pretty.
From S2P Require Import Prelude RustStr ResponseItems ContextFragments ThreadItems ThreadHistory ThreadChangesFacts.

Module ThreadHistoryFacts.
Import ThreadItems ThreadHistory ThreadChangesFacts.
Open Scope rust_scope.

(** ** Identifiers

    Of a thread: the id of each turn with the ids of its items. *)
Notation Shape := (list (str * list str)).

Definition item_name (k : nat) : str := lit "item-" ++ show_nat k.
Definition turn_name (n : nat) : str := lit "rollout-" ++ show_nat n.

Definition shape_count (sh : Shape) : nat := sum_list_with (fun e => length e.2) sh.

(** [n]: the place in the log; [next]: the number of the next item. *)
Record core (n next : nat) (sh : Shape) : Prop := mkCore {
  core_turns : NoDup sh.*1;
  core_items e : e ∈ sh -> NoDup e.2;
  core_names e m : e ∈ sh -> e.1 = turn_name m -> m < n;
  core_next : next <= S (shape_count sh);
  core_used j e k : sh !! j = Some e -> item_name k ∈ e.2 -> k < next /\ k <= shape_count (take (S j) sh);
}.

Lemma lit_inj a b : lit a = lit b -> a = b.
Proof.
  intros H. unfold lit in H.
  assert (Hl : String.list_ascii_of_string a = String.list_ascii_of_string b).
  { apply (f_equal (List.map Ascii.ascii_of_N)) in H. rewrite !List.map_map in H.
    rewrite !(List.map_ext _ (fun x => x) Ascii.ascii_N_embedding), !List.map_id in H. exact H. }
  apply (f_equal String.string_of_list_ascii) in Hl. by rewrite !String.string_of_list_ascii_of_string in Hl.
Qed.

Lemma name_inj (p : string) a b : lit p ++ show_nat a = lit p ++ show_nat b -> a = b.
Proof. intros H%(inj (lit p ++.)). unfold show_nat in H. apply lit_inj in H. by apply (inj pretty) in H. Qed.

Lemma shape_count_app sh sh' : shape_count (sh ++ sh') = shape_count sh + shape_count sh'.
Proof. apply sum_list_with_app. Qed.

Lemma shape_count_take j sh : shape_count (take j sh) <= shape_count sh.
Proof. rewrite <- (take_drop j sh) at 2. rewrite shape_count_app. lia. Qed.

(** One more item in the turn [j]. *)
Lemma shape_count_append j id ids x sh m : sh !! j = Some (id, ids) ->
  shape_count (take m (<[j := (id, ids ++ [x])]> sh)) = shape_count (take m sh) + if j <? m then 1 else 0.
Proof.
  intros Hj. destruct (j <? m) eqn:E.
  - apply Nat.ltb_lt in E. assert (Hlt := lookup_lt_Some _ _ _ Hj).
    rewrite take_insert_lt by done. assert (Hj' : take m sh !! j = Some (id, ids)) by by rewrite lookup_take_lt.
    rewrite <- (take_drop_middle _ _ _ Hj') at 2. rewrite insert_take_drop by by eapply lookup_lt_Some.
    rewrite !shape_count_app. unfold shape_count. cbn. rewrite length_app. cbn. lia.
  - apply Nat.ltb_ge in E. rewrite take_insert_ge by done. lia.
Qed.

Lemma core_mono n n' next sh : n <= n' -> core n next sh -> core n' next sh.
Proof. intros Hn [H1 H2 H3 H4 H5]. split; try done. intros e m He Hm. specialize (H3 e m He Hm). lia. Qed.

Lemma core_new n n' next sh id :
  core n next sh -> n <= n' -> id ∉ sh.*1 -> (forall m, id = turn_name m -> m < n') -> core n' next (sh ++ [(id, [])]).
Proof.
  intros [H1 H2 H3 H4 H5] Hn Hid Hm. split.
  - rewrite fmap_app. apply NoDup_app. split; [done|]. split; [|apply NoDup_singleton]. by intros x Hx ->%list_elem_of_singleton.
  - intros e [He| ->%list_elem_of_singleton]%elem_of_app; [by apply H2|apply NoDup_nil_2].
  - intros e m [He| ->%list_elem_of_singleton]%elem_of_app; [intros Hm'; specialize (H3 e m He Hm'); lia|apply Hm].
  - rewrite shape_count_app. lia.
  - intros j e k [[Hlt Hj]|[-> <-]]%lookup_snoc_Some Hk; [|by apply elem_of_nil in Hk].
    rewrite take_app_le by lia. by apply (H5 j e).
Qed.

Lemma core_take n next sh m : core n next sh -> core n (S (shape_count (take m sh))) (take m sh).
Proof.
  intros [H1 H2 H3 H4 H5]. split.
  - rewrite <- (take_drop m sh), fmap_app in H1. by apply NoDup_app in H1 as [? _].
  - intros e (i & Hi & _)%elem_of_take. by apply H2, (list_elem_of_lookup_2 _ i).
  - intros e k (i & Hi & _)%elem_of_take. by apply H3, (list_elem_of_lookup_2 _ i).
  - lia.
  - intros j e k Hj Hk. apply lookup_take_Some in Hj as [Hj Hlt]. destruct (H5 j e k Hj Hk) as [_ Hc].
    rewrite take_take. replace (S j `min` m) with (S j) by lia. split; [|done].
    assert (Hle := shape_count_take (S j) (take m sh)). rewrite take_take in Hle. replace (S j `min` m) with (S j) in Hle by lia. lia.
Qed.

Lemma core_append n next next' sh j id ids x :
  core n next sh -> sh !! j = Some (id, ids) -> x ∉ ids -> next <= next' -> next' <= S next ->
  (forall k, x = item_name k -> k = next /\ next' = S next /\ S j = length sh) ->
  core n next' (<[j := (id, ids ++ [x])]> sh).
Proof.
  intros [H1 H2 H3 H4 H5] Hj Hx Hle Hle' Hk. assert (Hlt := lookup_lt_Some _ _ _ Hj). assert (Hin := list_elem_of_lookup_2 _ _ _ Hj).
  assert (Hmem : forall e, e ∈ <[j := (id, ids ++ [x])]> sh -> e = (id, ids ++ [x]) \/ e ∈ sh).
  { intros e [i Hi]%list_elem_of_lookup_1. apply list_lookup_insert_Some in Hi as [(_ & <- & _)|[_ Hi]]; [by left|].
    right. by eapply list_elem_of_lookup_2. }
  split.
  - rewrite list_fmap_insert. rewrite list_insert_id; [done|]. by rewrite list_lookup_fmap, Hj.
  - intros e [->|He]%Hmem; [|by apply H2]. apply NoDup_app. specialize (H2 _ Hin). split; [done|].
    split; [|apply NoDup_singleton]. by intros y Hy ->%list_elem_of_singleton.
  - intros e m [->|He]%Hmem; [apply (H3 _ _ Hin)|by apply H3].
  - rewrite <- (take_ge (<[j := _]> sh) (length sh)) by (rewrite length_insert; lia).
    rewrite (shape_count_append _ _ _ _ _ _ Hj), take_ge by lia. replace (j <? length sh) with true by (symmetry; by apply Nat.ltb_lt). lia.
  - intros i e k Hi He. rewrite (shape_count_append _ _ _ _ _ _ Hj). apply list_lookup_insert_Some in Hi as [(-> & <- & _)|[Hne Hi]].
    + cbn in He. apply elem_of_app in He as [He|He%list_elem_of_singleton].
      * destruct (H5 i (id, ids) k Hj He). lia.
      * destruct (Hk k (eq_sym He)) as (-> & -> & Hlast). rewrite Hlast, (take_ge sh) by lia.
        replace (i <? length sh) with true by (symmetry; apply Nat.ltb_lt; lia). lia.
    + destruct (H5 i e k Hi He). lia.
Qed.

Section Facts.
Context {Cr : Carried}.
Implicit Types (b : ThreadHistoryBuilder) (t : Turn) (ts : list Turn) (item : ThreadItem) (st : Client).

Definition item_ids t : list str := item_id <$> turn_items t.
Definition shape ts : Shape := (fun t => (turn_id t, item_ids t)) <$> ts.

Lemma item_count_shape ts : item_count ts = shape_count (shape ts).
Proof.
  unfold item_count, shape_count, shape. induction ts as [|t ts IH]; [done|]. rewrite fmap_cons.
  cbn [List.map]. cbn. unfold item_ids at 1. rewrite length_fmap. f_equal. exact IH.
Qed.

Lemma shape_ids ts : (shape ts).*1 = turn_id <$> ts.
Proof. unfold shape. rewrite <- list_fmap_compose. done. Qed.

(** ** Turns and items *)

Definition find_item (k : str) t : option ThreadItem := find_first (fun i => item_id i == k) (turn_items t).

Definition edit_turn (id : str) (f : Turn -> Turn) ts : list Turn := (fun t => if turn_id t == id then f t else t) <$> ts.

Lemma upsert_ids items item :
  item_id <$> upsert_turn_item items item =
  if bool_decide (item_id item ∈ item_id <$> items) then item_id <$> items else (item_id <$> items) ++ [item_id item].
Proof.
  induction items as [|x items IH]; [done|]. cbn [upsert_turn_item]. destruct (decide (item_id x = item_id item)) as [Hx|Hx].
  - rewrite (bool_decide_true _ Hx), !fmap_cons, Hx. by rewrite bool_decide_true by left.
  - rewrite (bool_decide_false _ Hx), !fmap_cons, IH.
    rewrite (bool_decide_ext (item_id item ∈ item_id x :: (item_id <$> items)) (item_id item ∈ item_id <$> items))
      by (rewrite elem_of_cons; naive_solver).
    by case_bool_decide.
Qed.

(** Pushing an item with a new id. *)
Lemma upsert_fresh items item : item_id item ∉ item_id <$> items -> upsert_turn_item items item = items ++ [item].
Proof.
  induction items as [|x items IH]; intros Hn; [done|]. cbn [upsert_turn_item app]. rewrite fmap_cons, not_elem_of_cons in Hn.
  destruct Hn as [Hne Hn]. rewrite bool_decide_false by done. by rewrite IH.
Qed.

(** Replacing the last item. *)
Lemma upsert_last items x item :
  NoDup (item_id <$> items) -> last items = Some x -> item_id item = item_id x ->
  update_last (fun _ => item) items = upsert_turn_item items item.
Proof.
  intros Hnd [l ->]%last_Some Hid. rewrite fmap_app in Hnd. apply NoDup_app in Hnd as (_ & Hd & _).
  assert (Hn : item_id item ∉ item_id <$> l). { rewrite Hid. intros H. apply (Hd _ H). left. }
  clear Hd. induction l as [|y l IH]; cbn [app].
  - cbn. by rewrite Hid, bool_decide_true.
  - rewrite fmap_cons, not_elem_of_cons in Hn. destruct Hn as [Hne Hn]. specialize (IH Hn).
    cbn [upsert_turn_item]. rewrite bool_decide_false by done. rewrite <- IH. cbn [update_last]. by destruct (l ++ [x]) eqn:E; [destruct l|].
Qed.

Lemma find_item_upsert k item t : find_item k (upsert_in item t) = if k == item_id item then Some item else find_item k t.
Proof.
  unfold find_item, upsert_in. cbn [turn_items with_items]. induction (turn_items t) as [|x items IH]; cbn [upsert_turn_item find_first].
  - case_bool_decide; [by subst; rewrite bool_decide_true|by rewrite bool_decide_false].
  - destruct (decide (item_id x = item_id item)) as [Hx|Hx].
    + rewrite (bool_decide_true _ Hx). cbn [find_first]. rewrite Hx. destruct (decide (k = item_id item)) as [->|Hk].
      * by rewrite !bool_decide_true.
      * by rewrite !bool_decide_false by done.
    + rewrite (bool_decide_false _ Hx). cbn [find_first]. rewrite IH. destruct (decide (item_id x = k)) as [<-|Hk].
      * by rewrite bool_decide_true, bool_decide_false by done.
      * by rewrite (bool_decide_false _ Hk).
Qed.

Lemma find_turn_app id ts ts' :
  find_turn id (ts ++ ts') = match find_turn id ts with Some t => Some t | None => find_turn id ts' end.
Proof. unfold find_turn. induction ts as [|t ts IH]; [done|]. cbn. by case_bool_decide. Qed.

Lemma find_turn_None id ts : find_turn id ts = None <-> id ∉ turn_id <$> ts.
Proof.
  unfold find_turn. induction ts as [|t ts IH]; cbn [find_first]; [split; [intros _; apply not_elem_of_nil|done]|].
  rewrite fmap_cons, not_elem_of_cons. case_bool_decide; naive_solver.
Qed.

Lemma find_turn_id id ts t : find_turn id ts = Some t -> turn_id t = id.
Proof. intros (l1 & l2 & _ & H & _)%find_first_Some. by apply bool_decide_eq_true in H. Qed.

Lemma find_turn_edit id' id f ts : (forall t, turn_id (f t) = turn_id t) ->
  find_turn id' (edit_turn id f ts) = if id' == id then option_map f (find_turn id' ts) else find_turn id' ts.
Proof.
  intros Hf. unfold find_turn, edit_turn. induction ts as [|t ts IH]; cbn; [by case_bool_decide|].
  destruct (decide (turn_id t = id)) as [E|E].
  - rewrite (bool_decide_true _ E). rewrite Hf, E. destruct (decide (id = id')) as [->|Hne].
    + by rewrite !bool_decide_true by done.
    + rewrite !bool_decide_false by done. by rewrite IH, bool_decide_false by done.
  - rewrite (bool_decide_false _ E). destruct (decide (turn_id t = id')) as [<-|Hne].
    + by rewrite bool_decide_true, bool_decide_false by done.
    + rewrite bool_decide_false by done. apply IH.
Qed.

Lemma edit_turn_absent id f ts : id ∉ turn_id <$> ts -> edit_turn id f ts = ts.
Proof.
  unfold edit_turn. induction ts as [|t ts IH]; intros Hn; [done|]. rewrite fmap_cons, not_elem_of_cons in Hn. destruct Hn as [Hne Hn].
  rewrite fmap_cons, IH by done. by rewrite bool_decide_false.
Qed.

Lemma update_turn_None id f ts : update_turn id f ts = None <-> id ∉ turn_id <$> ts.
Proof.
  induction ts as [|t ts IH]; cbn [update_turn]; [split; [intros _; apply not_elem_of_nil|done]|].
  rewrite fmap_cons, not_elem_of_cons. case_bool_decide; [naive_solver|]. destruct (update_turn id f ts) as [[]|]; naive_solver.
Qed.

Lemma update_turn_Some id f ts ts' t' : NoDup (turn_id <$> ts) -> update_turn id f ts = Some (ts', t') ->
  ts' = edit_turn id f ts /\ exists t, find_turn id ts = Some t /\ t' = f t.
Proof.
  unfold find_turn. revert ts'. induction ts as [|t ts IH]; intros ts' Hnd; [done|]. cbn [update_turn find_first]. cbn in Hnd. apply NoDup_cons in Hnd as [Hn Hnd].
  unfold edit_turn. rewrite fmap_cons. case_bool_decide as E.
  - intros [= <- <-]. split; [|by exists t]. f_equal. subst id. symmetry. by apply edit_turn_absent.
  - destruct (update_turn id f ts) as [[ts1 t1]|]; [|done]. intros [= <- <-]. destruct (IH ts1 Hnd eq_refl) as [-> ?]. done.
Qed.

Lemma edit_turn_insert f ts j t : NoDup (turn_id <$> ts) -> ts !! j = Some t -> edit_turn (turn_id t) f ts = <[j := f t]> ts.
Proof.
  revert j. induction ts as [|x ts IH]; intros j; [done|]. rewrite fmap_cons. intros [Hn Hnd]%NoDup_cons.
  destruct j as [|j]; cbn [lookup list_lookup]; unfold edit_turn; rewrite fmap_cons.
  - intros [= ->]. rewrite bool_decide_true by done. cbn. f_equal. by apply edit_turn_absent.
  - intros Hj. rewrite bool_decide_false.
    + cbn. f_equal. by apply IH.
    + intros E. apply Hn. rewrite E. by eapply list_elem_of_fmap_2, list_elem_of_lookup_2.
Qed.

Lemma core_upsert n next next' ts j t item :
  core n next (shape ts) -> ts !! j = Some t -> next <= next' -> next' <= S next ->
  (next' <> next -> item_id item ∉ item_ids t) ->
  (forall k, item_id item = item_name k -> item_id item ∈ item_ids t \/ k = next /\ next' = S next /\ S j = length ts) ->
  core n next' (shape (edit_turn (turn_id t) (upsert_in item) ts)).
Proof.
  intros Hc Hj Hle Hle' Hfresh Hk. assert (Hnd := core_turns _ _ _ Hc). rewrite shape_ids in Hnd.
  rewrite (edit_turn_insert _ _ _ _ Hnd Hj). unfold shape. rewrite list_fmap_insert. fold (shape ts).
  assert (Hj' : shape ts !! j = Some (turn_id t, item_ids t)) by (unfold shape; by rewrite list_lookup_fmap, Hj).
  unfold item_ids at 1, upsert_in. cbn [turn_id turn_items with_items]. rewrite upsert_ids. fold (item_ids t). case_bool_decide as Hin.
  - rewrite list_insert_id by done. destruct (decide (next' = next)) as [->|Hne]; [done|]. by destruct (Hfresh Hne).
  - apply (core_append n next); try done. intros k Hx. destruct (Hk k Hx) as [?|(? & ? & ?)]; [done|].
    unfold shape. by rewrite length_fmap.
Qed.

Lemma shape_change id f ts : (forall t, turn_id (f t) = turn_id t) -> (forall t, turn_items (f t) = turn_items t) ->
  shape (edit_turn id f ts) = shape ts.
Proof.
  intros H1 H2. unfold shape, edit_turn. rewrite <- list_fmap_compose. apply list_fmap_ext. intros i t _. cbn.
  case_bool_decide; [|done]. unfold item_ids. by rewrite H1, H2.
Qed.

(** ** What a follower shows *)

Definition shows st ts : Prop :=
  (forall id, client_turns st !! id = option_map from_turn (find_turn id ts))
  /\ (forall id k, client_items st !! (id, k) = find_turn id ts ≫= find_item k).

Lemma shows_empty : shows client_empty [].
Proof. split; intros; cbn; by rewrite lookup_empty. Qed.

Lemma shows_item st ts id item : id ∈ turn_id <$> ts -> shows st ts ->
  shows (put_item st (mkItemChange id item)) (edit_turn id (upsert_in item) ts).
Proof.
  intros Hid [Ht Hi]. split.
  - intros id'. cbn [put_item client_turns]. rewrite Ht, find_turn_edit by done. case_bool_decide; [|done].
    by destruct (find_turn id' ts).
  - intros id' k. cbn [put_item client_items]. unfold item_key. cbn [changed_in changed_item].
    rewrite find_turn_edit by done. destruct (decide (id' = id)) as [->|Hne].
    + rewrite bool_decide_true by done. destruct (find_turn id ts) as [t|] eqn:E; [|by apply find_turn_None in E].
      cbn [option_map mbind option_bind]. rewrite find_item_upsert. case_bool_decide as Hk; [by rewrite Hk, lookup_insert_eq|].
      rewrite lookup_insert_ne by congruence. by rewrite Hi, E.
    + rewrite bool_decide_false, lookup_insert_ne by congruence. apply Hi.
Qed.

Lemma shows_change st ts id f t : (forall t, turn_id (f t) = turn_id t) -> (forall t, turn_items (f t) = turn_items t) ->
  find_turn id ts = Some t -> shows st ts -> shows (put_turn st (from_turn (f t))) (edit_turn id f ts).
Proof.
  intros H1 H2 Hid [Ht Hi]. assert (Eid := find_turn_id _ _ _ Hid). split.
  - intros id'. cbn [put_turn client_turns]. rewrite find_turn_edit by done. cbn [change_turn_id from_turn]. rewrite H1, Eid.
    destruct (decide (id' = id)) as [->|Hne].
    + by rewrite bool_decide_true, lookup_insert_eq, Hid by done.
    + rewrite bool_decide_false, lookup_insert_ne by congruence. apply Ht.
  - intros id' k. cbn [put_turn client_items]. rewrite Hi, find_turn_edit by done. case_bool_decide; [|done].
    destruct (find_turn id' ts) as [t'|]; [|done]. cbn. unfold find_item. by rewrite H2.
Qed.

Lemma shows_new st ts t : turn_id t ∉ turn_id <$> ts -> turn_items t = [] -> shows st ts ->
  shows (put_turn st (from_turn t)) (ts ++ [t]).
Proof.
  intros Hid%find_turn_None Hitems [Ht Hi]. split.
  - intros id. cbn [put_turn client_turns change_turn_id from_turn]. rewrite find_turn_app. destruct (decide (id = turn_id t)) as [->|Hne].
    + rewrite lookup_insert_eq, Hid. unfold find_turn. cbn. by rewrite bool_decide_true.
    + rewrite lookup_insert_ne, Ht by congruence. destruct (find_turn id ts); [done|]. unfold find_turn. cbn.
      by rewrite bool_decide_false by congruence.
  - intros id k. cbn [put_turn client_items]. rewrite Hi, find_turn_app. destruct (find_turn id ts); [done|]. unfold find_turn. cbn.
    case_bool_decide; [|done]. cbn. unfold find_item. by rewrite Hitems.
Qed.

Lemma shows_removed st ts m : NoDup (turn_id <$> ts) -> shows st ts ->
  shows (fold_left remove_turn (turn_id <$> drop m ts) st) (take m ts).
Proof.
  intros Hnd [Ht Hi]. rewrite <- (take_drop m ts), fmap_app in Hnd. apply NoDup_app in Hnd as (_ & Hd & _).
  assert (Hf : forall id, find_turn id (take m ts) = if bool_decide (id ∈ turn_id <$> drop m ts) then None else find_turn id ts).
  { intros id. assert (find_turn id ts = find_turn id (take m ts ++ drop m ts)) as -> by by rewrite take_drop.
    rewrite find_turn_app. case_bool_decide as E.
    - apply find_turn_None. intros H. by apply (Hd id).
    - apply find_turn_None in E. rewrite E. by destruct (find_turn id (take m ts)). }
  split.
  - intros id. rewrite remove_turns_turns, Hf, Ht. by case_bool_decide.
  - intros id k. rewrite remove_turns_items, Hf, Hi. cbn. by case_bool_decide.
Qed.

(** ** Following the builder *)

(** The turns, the current one last. *)
Definition all_turns b : list Turn := turns b ++ match current_turn b with Some t => [pending t] | None => [] end.

(** A current turn that will be kept. *)
Definition kept b : Prop :=
  match current_turn b with
  | Some t => turn_items (pending t) <> [] \/ opened_explicitly t = true \/ saw_compaction t = true
  | None => True
  end.

(** The builder is at entry [r] of the log, and what it recorded leads one who saw [ts] to what it holds. *)
Record tracks (n r : nat) ts b : Prop := mkTracks {
  tracks_core : core n (next_item_index b) (shape (all_turns b));
  tracks_at : current_rollout_index b = r /\ next_rollout_index b = S r;
  tracks_changes : exists items changes, active_change_set b = Some (mkChangeSet items changes [])
    /\ forall st, shows st ts -> shows (fold_left put_turn changes (fold_left put_item items st)) (all_turns b);
}.

Lemma put_turns_item cs st c : fold_left put_turn cs (put_item st c) = put_item (fold_left put_turn cs st) c.
Proof. revert st. induction cs as [|x cs IH]; intros st; [done|]. cbn [fold_left]. by rewrite <- IH. Qed.

Lemma tracks_ids n r ts b : tracks n r ts b -> NoDup (turn_id <$> all_turns b).
Proof. intros [Hc _ _]. rewrite <- shape_ids. apply Hc. Qed.

Lemma tracks_start n r b :
  core n (next_item_index b) (shape (all_turns b)) -> current_rollout_index b = r -> next_rollout_index b = S r ->
  active_change_set b = Some no_changes -> tracks n r (all_turns b) b.
Proof. intros Hc H1 H2 H3. split; [done|done|]. by exists [], []. Qed.

(** An item set in a turn. *)
Lemma tracks_item n r ts b b' j t item :
  tracks n r ts b -> all_turns b !! j = Some t -> all_turns b' = edit_turn (turn_id t) (upsert_in item) (all_turns b) ->
  active_change_set b' = active_change_set (record_changed_item b (turn_id t) item) ->
  current_rollout_index b' = current_rollout_index b -> next_rollout_index b' = next_rollout_index b ->
  next_item_index b <= next_item_index b' -> next_item_index b' <= S (next_item_index b) ->
  (next_item_index b' <> next_item_index b -> item_id item ∉ item_ids t) ->
  (forall k, item_id item = item_name k -> item_id item ∈ item_ids t
     \/ k = next_item_index b /\ next_item_index b' = S (next_item_index b) /\ S j = length (all_turns b)) ->
  tracks n r ts b'.
Proof.
  intros [Hc [Hr Hr'] (items & changes & Ha & Hs)] Hj Hall Hact Hc1 Hc2 Hle Hle' Hfresh Hk. split.
  - rewrite Hall. by apply (core_upsert n (next_item_index b) _ _ j).
  - by rewrite Hc1, Hc2.
  - exists (items ++ [mkItemChange (turn_id t) item]), changes. rewrite Hact. unfold record_changed_item. cbn [active_change_set with_changes].
    rewrite Ha. split; [done|]. intros st Hst. rewrite fold_left_app. cbn [fold_left]. rewrite put_turns_item, Hall.
    apply shows_item; [|by apply Hs]. by eapply list_elem_of_fmap_2, list_elem_of_lookup_2.
Qed.

(** A turn changed, but for its items. *)
Lemma tracks_change n r ts b b' f id t :
  tracks n r ts b -> find_turn id (all_turns b) = Some t -> all_turns b' = edit_turn id f (all_turns b) ->
  (forall t, turn_id (f t) = turn_id t) -> (forall t, turn_items (f t) = turn_items t) ->
  active_change_set b' = active_change_set (record_changed_turn b (from_turn (f t))) ->
  current_rollout_index b' = current_rollout_index b -> next_rollout_index b' = next_rollout_index b ->
  next_item_index b' = next_item_index b -> tracks n r ts b'.
Proof.
  intros [Hc Hr (items & changes & Ha & Hs)] Hj Hall H1 H2 Hact Hc1 Hc2 Hn. split.
  - by rewrite Hall, Hn, shape_change.
  - by rewrite Hc1, Hc2.
  - exists items, (changes ++ [from_turn (f t)]). rewrite Hact. unfold record_changed_turn. cbn [active_change_set with_changes].
    rewrite Ha. split; [done|]. intros st Hst. rewrite fold_left_app, Hall. cbn [fold_left]. apply shows_change; try done. by apply Hs.
Qed.

(** A new turn at the end. *)
Lemma tracks_new n r ts b pt :
  tracks n r ts b -> n <= S r -> current_turn b = None -> turn_id (pending pt) ∉ turn_id <$> all_turns b ->
  turn_items (pending pt) = [] -> (forall m, turn_id (pending pt) = turn_name m -> m < S r) ->
  tracks (S r) r ts (with_current (record_changed_pending_turn b pt) (Some pt)).
Proof.
  intros [Hc Hr (items & changes & Ha & Hs)] Hn Hcur Hid Hitems Hm.
  assert (Hall : all_turns (with_current (record_changed_pending_turn b pt) (Some pt)) = all_turns b ++ [pending pt])
    by (unfold all_turns; cbn; by rewrite Hcur, app_nil_r).
  split.
  - rewrite Hall. unfold shape. rewrite fmap_app. cbn [fmap list_fmap]. unfold item_ids at 2. rewrite Hitems.
    apply (core_new n); try done. by rewrite shape_ids.
  - done.
  - exists items, (changes ++ [from_pending_turn pt]). rewrite Hall. unfold record_changed_pending_turn, record_changed_turn. cbn [active_change_set with_changes with_current].
    rewrite Ha. split; [done|]. intros st Hst. rewrite fold_left_app. cbn [fold_left].
    apply shows_new; try done. by apply Hs.
Qed.

(** The same turns, recorded no further. *)
Lemma tracks_same n r ts b b' :
  tracks n r ts b -> all_turns b' = all_turns b -> active_change_set b' = active_change_set b ->
  current_rollout_index b' = current_rollout_index b -> next_rollout_index b' = next_rollout_index b ->
  next_item_index b' = next_item_index b -> tracks n r ts b'.
Proof. intros [Hc Hr Hs] H1 H2 H3 H4 H5. split; rewrite ?H1, ?H2, ?H3, ?H4, ?H5; done. Qed.

Lemma tracks_mono n n' r ts b : n <= n' -> tracks n r ts b -> tracks n' r ts b.
Proof. intros Hn [Hc Hr Hs]. split; [by eapply core_mono|done|done]. Qed.

Lemma finish_turns b : kept b -> all_turns (finish_current_turn b) = all_turns b /\ current_turn (finish_current_turn b) = None.
Proof.
  unfold kept, finish_current_turn, all_turns. destruct (current_turn b) as [t|] eqn:E; [|by rewrite E].
  intros H. replace (is_empty (turn_items (pending t)) && negb (opened_explicitly t) && negb (saw_compaction t)) with false.
  - cbn. by rewrite app_nil_r.
  - destruct H as [H|[H|H]]; [|by rewrite H, andb_false_r|by rewrite H, !andb_false_r]. by destruct (turn_items (pending t)).
Qed.

Lemma tracks_finish n r ts b : kept b -> tracks n r ts b -> tracks n r ts (finish_current_turn b).
Proof.
  intros Hk Ht. apply (tracks_same _ _ _ _ _ Ht); [by apply finish_turns|..]; unfold finish_current_turn; by repeat case_match.
Qed.

(** *** The current turn *)

Lemma all_turns_current b (t : PendingTurn) : current_turn b = Some t -> all_turns b = turns b ++ [pending t].
Proof. intros H. unfold all_turns. by rewrite H. Qed.

Lemma current_at b (t : PendingTurn) : current_turn b = Some t -> all_turns b !! length (turns b) = Some (pending t).
Proof. intros H. rewrite (all_turns_current _ _ H). by rewrite lookup_app_r, Nat.sub_diag by lia. Qed.

Lemma edit_current f b (t : PendingTurn) : NoDup (turn_id <$> all_turns b) -> current_turn b = Some t ->
  edit_turn (turn_id (pending t)) f (all_turns b) = turns b ++ [f (pending t)].
Proof.
  intros Hnd H. rewrite (edit_turn_insert _ _ _ _ Hnd (current_at _ _ H)), (all_turns_current _ _ H).
  rewrite insert_app_r_alt by lia. by rewrite Nat.sub_diag.
Qed.

Lemma edit_other f b id : id ∈ turn_id <$> turns b -> NoDup (turn_id <$> all_turns b) ->
  edit_turn id f (all_turns b) = edit_turn id f (turns b) ++ match current_turn b with Some t => [pending t] | None => [] end.
Proof.
  unfold all_turns. intros Hid Hnd. unfold edit_turn. rewrite fmap_app. f_equal. destruct (current_turn b) as [t|]; [|done].
  cbn. rewrite bool_decide_false; [done|]. intros <-. rewrite fmap_app in Hnd. apply NoDup_app in Hnd as (_ & Hd & _).
  apply (Hd _ Hid). by left.
Qed.

Lemma update_finished f b id ts' t' : NoDup (turn_id <$> all_turns b) -> update_turn id f (turns b) = Some (ts', t') ->
  ts' = edit_turn id f (turns b) /\ id ∈ turn_id <$> turns b /\ exists t, find_turn id (turns b) = Some t /\ t' = f t.
Proof.
  unfold all_turns. rewrite fmap_app. intros [Hnd _]%NoDup_app E. destruct (update_turn_Some _ _ _ _ _ Hnd E) as (-> & t & Hf & ->).
  split; [done|]. split; [|by exists t]. destruct (decide (id ∈ turn_id <$> turns b)) as [|Hn]; [done|].
  apply find_turn_None in Hn. congruence.
Qed.

(** Setting an item of the current turn, with [next] the number of the item after it. *)
Definition set_item b (next : nat) (t : PendingTurn) item : ThreadHistoryBuilder :=
  record_changed_item (with_current (with_next_item b next) (Some (pending_with t (upsert_in item (pending t))))) (turn_id (pending t)) item.

Lemma set_item_kept b next (t : PendingTurn) item : kept (set_item b next t item).
Proof. unfold kept, set_item. cbn. left. destruct (turn_items (pending t)) as [|x l]; cbn; [done|]. by case_bool_decide. Qed.

Lemma set_item_tracks n r ts b next (t : PendingTurn) item :
  tracks n r ts b -> current_turn b = Some t -> next_item_index b <= next -> next <= S (next_item_index b) ->
  (next <> next_item_index b -> item_id item ∉ item_ids (pending t)) ->
  (forall k, item_id item = item_name k -> item_id item ∈ item_ids (pending t) \/ k = next_item_index b /\ next = S (next_item_index b)) ->
  tracks n r ts (set_item b next t item) /\ kept (set_item b next t item).
Proof.
  intros Ht Hcur Hle Hle' Hfresh Hk. split; [|apply set_item_kept].
  apply (tracks_item _ _ _ b _ (length (turns b)) (pending t) item Ht (current_at _ _ Hcur)); try done.
  - by rewrite (edit_current _ _ _ (tracks_ids _ _ _ _ Ht) Hcur).
  - intros k Hx. destruct (Hk k Hx) as [?|[? ?]]; [by left|right]. split; [done|]. split; [done|].
    rewrite (all_turns_current _ _ Hcur), length_app. cbn. lia.
Qed.

Lemma item_name_fresh n r ts b (t : PendingTurn) : tracks n r ts b -> current_turn b = Some t -> item_name (next_item_index b) ∉ item_ids (pending t).
Proof.
  intros [Hc _ _] Hcur Hin. apply current_at in Hcur.
  assert (Hj : shape (all_turns b) !! length (turns b) = Some (turn_id (pending t), item_ids (pending t)))
    by (unfold shape; by rewrite list_lookup_fmap, Hcur).
  destruct (core_used _ _ _ Hc _ _ _ Hj Hin). lia.
Qed.

Lemma push_new_tracks uuid n r ts b (t : PendingTurn) make :
  tracks n r ts b -> current_turn b = Some t -> (forall id, item_id (make id) = id) ->
  tracks n r ts (push_new_item uuid b make) /\ kept (push_new_item uuid b make).
Proof.
  intros Ht Hcur Hmake. assert (Hf := item_name_fresh _ _ _ _ _ Ht Hcur).
  assert (E : push_new_item uuid b make = set_item b (S (next_item_index b)) t (make (item_name (next_item_index b)))).
  { unfold push_new_item, next_item_id, push_item_in_current_turn, ensure_turn, set_item, upsert_in. cbn. rewrite Hcur.
    rewrite upsert_fresh; [done|]. by rewrite Hmake. }
  rewrite E. apply set_item_tracks; try done; [lia| |]; rewrite Hmake; [done|].
  intros k Hk. right. split; [symmetry; by eapply name_inj|done].
Qed.

Lemma ensure_tracks uuid r ts b : tracks r r ts b ->
  exists b' (t : PendingTurn), ensure_turn uuid b = (b', t) /\ tracks (S r) r ts b' /\ current_turn b' = Some t /\
    (current_turn b = Some t \/ current_turn b = None /\ turn_items (pending t) = []).
Proof.
  intros Ht. unfold ensure_turn. destruct (current_turn b) as [t|] eqn:Hcur.
  - exists b, t. split; [done|]. split; [by apply (tracks_mono r); [lia|]|]. by auto.
  - eexists _, _. split; [done|]. split; [|by auto]. destruct (tracks_at _ _ _ _ Ht) as [Hr Hr'].
    assert (Hid : turn_id (pending (new_turn uuid b None)) = turn_name r) by (cbn; by rewrite Hr', Hr).
    apply (tracks_new r); try done; [lia| |]; rewrite Hid.
    + rewrite <- shape_ids. intros (e & He & Hin)%list_elem_of_fmap. assert (H := core_names _ _ _ (tracks_core _ _ _ _ Ht) e r Hin (eq_sym He)). lia.
    + intros m Hm%name_inj. lia.
Qed.

(** *** The operations *)

(** Before and after an entry of the log. *)
Definition ready (r : nat) ts b : Prop := tracks r r ts b /\ kept b.
Definition followed (r : nat) ts b : Prop := tracks (S r) r ts b /\ kept b.

Lemma ready_followed r ts b : ready r ts b -> followed r ts b.
Proof. intros [H ?]. split; [by apply (tracks_mono r); [lia|]|done]. Qed.

Lemma push_new_followed uuid r ts b make :
  tracks r r ts b -> (forall id, item_id (make id) = id) -> followed r ts (push_new_item uuid b make).
Proof.
  intros Ht Hmake. destruct (ensure_tracks uuid r ts b Ht) as (b' & t & E & Ht' & Hcur & _).
  assert (push_new_item uuid b make = push_new_item uuid b' make) as ->; [|by eapply push_new_tracks].
  unfold ensure_turn in E. destruct (current_turn b) as [t0|] eqn:Ec; [by simplify_eq|]. injection E as <- <-.
  unfold push_new_item, next_item_id, push_item_in_current_turn, ensure_turn. cbn. by rewrite Ec.
Qed.

(** Ids that the builder does not draw itself. *)
Definition own_item_id (id : str) : bool := negb (starts_with (lit "item-") id).

Lemma own_item_id_spec id k : own_item_id id = true -> id <> item_name k.
Proof.
  unfold own_item_id, item_name. intros H ->. apply negb_true_iff in H.
  assert (starts_with (lit "item-") (lit "item-" ++ show_nat k) = true) by (apply starts_with_true; eauto). congruence.
Qed.

Lemma upsert_current_followed uuid r ts b item :
  tracks r r ts b -> own_item_id (item_id item) = true -> followed r ts (upsert_item_in_current_turn uuid b item).
Proof.
  intros Ht Hown. unfold upsert_item_in_current_turn. destruct (ensure_tracks uuid r ts b Ht) as (b' & t & -> & Ht' & Hcur & _).
  apply (set_item_tracks _ _ _ b' (next_item_index b')); try done; [lia|]. intros k Hk. by destruct (own_item_id_spec _ k Hown).
Qed.

Lemma push_given_followed uuid r ts b item :
  tracks r r ts b -> own_item_id (item_id item) = true -> is_some_and (current_turn b) (fun t : PendingTurn => bool_decide (item_id item ∈ item_ids (pending t))) = false ->
  followed r ts (push_item_in_current_turn uuid b item).
Proof.
  intros Ht Hown Hfresh. unfold push_item_in_current_turn. destruct (ensure_tracks uuid r ts b Ht) as (b' & t & -> & Ht' & Hcur & Hc).
  assert (Hn : item_id item ∉ item_ids (pending t)).
  { destruct Hc as [Hc|[_ Hc]]; [rewrite Hc in Hfresh; by apply bool_decide_eq_false in Hfresh|].
    unfold item_ids. rewrite Hc. apply not_elem_of_nil. }
  rewrite <- (upsert_fresh _ _ Hn). apply (set_item_tracks _ _ _ b' (next_item_index b')); try done; [lia|].
  intros k Hk. by destruct (own_item_id_spec _ k Hown).
Qed.

Lemma extend_reasoning_followed uuid r ts b add : tracks r r ts b -> followed r ts (extend_reasoning uuid b add).
Proof.
  intros Ht. unfold extend_reasoning. destruct (ensure_tracks uuid r ts b Ht) as (b' & t & -> & Ht' & Hcur & _).
  assert (Hnew : followed r ts (push_new_item uuid b' (fun id => Reasoning id (add [] []).1 (add [] []).2))).
  { by eapply push_new_tracks. }
  destruct (last (turn_items (pending t))) as [[]|] eqn:El;
    try (unfold push_new_item in Hnew; destruct (next_item_id b'), (add [] []); exact Hnew).
  destruct (add summary content) as [summary' content'].
  assert (Hin : id ∈ item_ids (pending t)).
  { apply last_Some in El as [l Hl]. unfold item_ids. rewrite Hl, fmap_app. apply elem_of_app. right. by left. }
  rewrite (upsert_last _ _ (Reasoning id summary' content') ) with (2 := El); [|..|done].
  - apply (set_item_tracks _ _ _ b' (next_item_index b')); try done; [lia|]. intros k Hk. by left.
  - apply (core_items _ _ _ (tracks_core _ _ _ _ Ht') (turn_id (pending t), item_ids (pending t))).
    unfold shape. eapply (list_elem_of_fmap_2' _ _ (pending t)); [|done]. by eapply list_elem_of_lookup_2, current_at.
Qed.

Lemma upsert_finished_followed r ts b id item :
  ready r ts b -> own_item_id (item_id item) = true -> followed r ts (upsert_item_in_finished_turn b id item).
Proof.
  intros Hr Hown. unfold upsert_item_in_finished_turn.
  destruct (update_turn id (upsert_in item) (turns b)) as [[ts' t']|] eqn:E; [|by apply ready_followed].
  apply ready_followed in Hr as [Ht Hk]. assert (Hnd := tracks_ids _ _ _ _ Ht). split; [|done].
  destruct (update_finished _ _ _ _ _ Hnd E) as (-> & Hin & t & Hf & _). assert (Hid := find_turn_id _ _ _ Hf).
  apply find_first_Some in Hf as (l1 & l2 & Hl & _). subst id.
  apply (tracks_item _ _ _ b _ (length l1) t item Ht); try done.
  - unfold all_turns. rewrite Hl, <- app_assoc. by rewrite lookup_app_r, Nat.sub_diag by lia.
  - by rewrite edit_other.
  - cbn. lia.
  - intros k Hk'. by destruct (own_item_id_spec _ k Hown).
Qed.

Lemma upsert_turn_id_followed r ts b id item :
  ready r ts b -> own_item_id (item_id item) = true -> followed r ts (upsert_item_in_turn_id b id item).
Proof.
  intros Hr Hown. unfold upsert_item_in_turn_id. destruct (current_turn b) as [t|] eqn:Hcur; [|by apply upsert_finished_followed].
  case_bool_decide as Hid; [|by apply upsert_finished_followed]. subst id. apply ready_followed in Hr as [Ht Hk].
  apply (set_item_tracks _ _ _ b (next_item_index b)); try done; [lia|]. intros k Hk'. by destruct (own_item_id_spec _ k Hown).
Qed.

(** A change that leaves the id and the items of a turn. *)
Definition metadata (f : Turn -> Turn) : Prop := (forall t, turn_id (f t) = turn_id t) /\ (forall t, turn_items (f t) = turn_items t).

Lemma change_current_tracks n r ts b (t : PendingTurn) f : metadata f -> tracks n r ts b -> kept b -> current_turn b = Some t ->
  tracks n r ts (change_current b t f) /\ kept (change_current b t f).
Proof.
  intros [H1 H2] Ht Hk Hcur. assert (Hnd := tracks_ids _ _ _ _ Ht). split.
  - apply (tracks_change _ _ _ b _ f (turn_id (pending t)) (pending t) Ht); try done.
    + rewrite (all_turns_current _ _ Hcur), find_turn_app. rewrite (all_turns_current _ _ Hcur), fmap_app in Hnd.
      apply NoDup_app in Hnd as (_ & Hd & _). rewrite (proj2 (find_turn_None _ _)).
      * unfold find_turn. cbn. by rewrite bool_decide_true.
      * intros H. apply (Hd _ H). by left.
    + by rewrite (edit_current _ _ _ Hnd Hcur).
  - unfold kept in *. rewrite Hcur in Hk. cbn. by rewrite H2.
Qed.

Lemma change_finished_tracks n r ts b b' id f : metadata f -> tracks n r ts b -> kept b -> change_finished b id f = Some b' ->
  tracks n r ts b' /\ kept b'.
Proof.
  intros [H1 H2] Ht Hk. unfold change_finished. destruct (update_turn id f (turns b)) as [[ts' t']|] eqn:E; [|done]. intros [= <-].
  split; [|done]. assert (Hnd := tracks_ids _ _ _ _ Ht).
  destruct (update_finished _ _ _ _ _ Hnd E) as (-> & Hin & t & Hf & ->).
  apply (tracks_change _ _ _ b _ f id t Ht); try done.
  - unfold all_turns. by rewrite find_turn_app, Hf.
  - by rewrite edit_other.
Qed.

Lemma handle_error_followed r ts b message info : ready r ts b -> followed r ts (handle_error b message info).
Proof.
  intros Hr. apply ready_followed in Hr as [Ht Hk]. unfold handle_error. destruct (negb (affects_turn_status info)); [done|].
  destruct (current_turn b) as [t|] eqn:Hcur; [|done].
  by apply (change_current_tracks _ _ _ b t (fun t => mkTurn (turn_id t) (turn_items t) (Some (mkTurnError message info None)) Failed
    (turn_started_at t) (turn_completed_at t) (turn_duration_ms t))).
Qed.

Lemma handle_turn_aborted_followed r ts b id completed_at duration_ms :
  ready r ts b -> followed r ts (handle_turn_aborted b id completed_at duration_ms).
Proof.
  intros Hr. apply ready_followed in Hr as [Ht Hk]. unfold handle_turn_aborted.
  assert (Hm : metadata (apply_abort completed_at duration_ms)) by done.
  assert (Hfb : followed r ts (match current_turn b with Some t => change_current b t (apply_abort completed_at duration_ms) | None => b end)).
  { destruct (current_turn b) as [t|] eqn:E; [by apply change_current_tracks|done]. }
  assert (Hf : forall id, followed r ts (default (match current_turn b with Some t => change_current b t (apply_abort completed_at duration_ms) | None => b end)
                            (change_finished b id (apply_abort completed_at duration_ms)))).
  { intros id'. destruct (change_finished b id' _) as [b'|] eqn:E; [|done]. by eapply change_finished_tracks. }
  destruct id as [id|]; [|done]. destruct (current_turn b) as [t|] eqn:E; [destruct (is_turn id t)|]; done.
Qed.

Lemma handle_turn_complete_followed r ts b id completed_at duration_ms :
  ready r ts b -> followed r ts (handle_turn_complete b id completed_at duration_ms).
Proof.
  intros Hr. apply ready_followed in Hr as [Ht Hk]. unfold handle_turn_complete.
  assert (Hm : metadata (mark_completed completed_at duration_ms)) by done.
  assert (Hfb : followed r ts (match current_turn b with Some t => finish_current_turn (change_current b t (mark_completed completed_at duration_ms)) | None => b end)).
  { destruct (current_turn b) as [t|] eqn:E; [|done]. destruct (change_current_tracks _ _ _ b t _ Hm Ht Hk E) as [Ht' Hk'].
    split; [by apply tracks_finish|]. unfold kept. by rewrite (proj2 (finish_turns _ Hk')). }
  assert (Hf : followed r ts (default (match current_turn b with Some t => finish_current_turn (change_current b t (mark_completed completed_at duration_ms)) | None => b end)
                            (change_finished b id (mark_completed completed_at duration_ms)))).
  { destruct (change_finished b id _) as [b'|] eqn:E; [|done]. by eapply change_finished_tracks. }
  destruct (current_turn b) as [t|] eqn:E; [destruct (is_turn id t)|]; done.
Qed.

Lemma handle_turn_started_followed uuid r ts b id started_at :
  ready r ts b -> starts_with (lit "rollout-") id = false -> id ∉ turn_id <$> all_turns b -> followed r ts (handle_turn_started uuid b id started_at).
Proof.
  intros [Ht Hk] Hname Hid. unfold handle_turn_started. destruct (finish_turns b Hk) as [Hall Hcur]. split; [|unfold kept; cbn; by auto].
  apply (tracks_new r); try done; [by apply tracks_finish|lia|by rewrite Hall|]. cbn. intros m ->.
  assert (starts_with (lit "rollout-") (turn_name m) = true) by (apply starts_with_true; unfold turn_name; eauto). congruence.
Qed.

Lemma handle_compacted_followed uuid r ts b : tracks r r ts b -> followed r ts (handle_compacted uuid b).
Proof.
  intros Ht. unfold handle_compacted. destruct (ensure_tracks uuid r ts b Ht) as (b' & t & -> & Ht' & Hcur & _).
  split; [|unfold kept; cbn; by auto]. apply (tracks_same _ _ _ _ _ Ht'); try done. by rewrite (all_turns_current _ _ Hcur).
Qed.

Lemma handle_user_message_followed uuid r ts b p : ready r ts b -> followed r ts (handle_user_message uuid b p).
Proof.
  intros [Ht Hk]. unfold handle_user_message. cbn zeta.
  set (b1 := if is_some_and (current_turn b) closes_for_user then finish_current_turn b else b).
  assert (Ht1 : tracks r r ts b1) by (unfold b1; case_match; [by apply tracks_finish|done]).
  by apply (push_new_followed uuid r ts b1 (fun id => UserMessage id (user_client_id p) (build_user_inputs p))).
Qed.

(** What an entry of the log, at [r], does for one who saw [ts]. *)
Record reported (r : nat) ts b : Prop := mkReported {
  reported_core : core (S r) (next_item_index b) (shape (all_turns b));
  reported_kept : kept b;
  reported_at : next_rollout_index b = S r;
  reported_changes st : shows st ts -> shows (apply_changes st (default no_changes (active_change_set b))) (all_turns b);
}.

Lemma followed_reported r ts b : followed r ts b -> reported r ts b.
Proof.
  intros [[Hc [Hr Hr'] (items & changes & Ha & Hs)] Hk]. split; try done. intros st Hst. rewrite Ha. by apply Hs.
Qed.

Lemma rollback_turns b n :
  let b1 := finish_current_turn b in let m := length (turns b1) - n in
  handle_thread_rollback b n =
  with_next_item (with_turns (record_removed_turn_ids b1 (turn_id <$> drop m (turns b1))) (take m (turns b1))) (S (item_count (take m (turns b1)))).
Proof.
  cbn zeta. unfold handle_thread_rollback. set (b1 := finish_current_turn b). set (l := turns b1).
  destruct (length l <=? n) eqn:E; [apply Nat.leb_le in E; by replace (length l - n) with 0 by lia|].
  destruct (n =? 0) eqn:E0; [|done]. apply Nat.eqb_eq in E0. subst n. rewrite Nat.sub_0_r. by rewrite drop_ge by done.
Qed.

Lemma handle_thread_rollback_reported r b n :
  ready r (all_turns b) b -> active_change_set b = Some no_changes -> reported r (all_turns b) (handle_thread_rollback b n).
Proof.
  intros [Ht Hk] Ha. rewrite rollback_turns. cbn zeta. destruct (finish_turns b Hk) as [Hall Hcur].
  assert (Ht' := tracks_finish _ _ _ _ Hk Ht). assert (Ha' : active_change_set (finish_current_turn b) = Some no_changes).
  { unfold finish_current_turn. by repeat case_match. }
  set (b1 := finish_current_turn b) in *. set (m := length (turns b1) - n).
  assert (Ht1 : turns b1 = all_turns b) by (rewrite <- Hall; unfold all_turns; by rewrite Hcur, app_nil_r).
  destruct Ht' as [Hc [Hr Hr'] _]. rewrite Hall in Hc.
  assert (Hall' : forall c x, all_turns (with_next_item (with_turns (with_changes b1 c) (take m (turns b1))) x) = take m (all_turns b))
    by (intros; unfold all_turns at 1; cbn; by rewrite Hcur, Ht1, app_nil_r).
  split; cbn [next_item_index next_rollout_index]; unfold record_removed_turn_ids; rewrite ?Hall'.
  - rewrite Ht1, item_count_shape. replace (shape (take m (all_turns b))) with (take m (shape (all_turns b))) by (unfold shape; by rewrite fmap_take).
    cbn. apply (core_mono r); [lia|]. by eapply core_take.
  - unfold kept. cbn. by rewrite Hcur.
  - done.
  - intros st Hst. cbn [active_change_set with_next_item with_turns with_changes]. rewrite Ha'. cbn [option_map default].
    unfold apply_changes, no_changes. cbn [changed_items changed_turns removed_turn_ids fold_left app]. rewrite Ht1.
    apply shows_removed; [|done]. rewrite <- shape_ids. apply Hc.
Qed.

(** *** Events *)

(** The item that an event sets, in the current turn or in a given one. *)
Definition target (id : str) : option str := if is_empty id then None else Some id.

Definition upserted (e : EventMsg) : option (option str * ThreadItem) :=
  match e with
  | EvWebSearchBegin call_id => Some (None, WebSearch call_id [] None)
  | EvWebSearchEnd call_id query action => Some (None, WebSearch call_id query (Some action))
  | EvExecCommandBegin p => Some (Some (begin_turn_id p), build_command_execution_begin_item p)
  | EvExecCommandEnd p => Some (Some (end_turn_id p), build_command_execution_end_item p)
  | EvGuardianAssessment p => option_map (fun item => (target (guardian_turn_id p), item)) (guardian_item p)
  | EvApplyPatchApprovalRequest call_id id changes => Some (target id, build_file_change_approval_request_item call_id changes)
  | EvPatchApplyBegin call_id id changes => Some (target id, build_file_change_begin_item call_id changes)
  | EvPatchApplyEnd call_id id changes status => Some (target id, build_file_change_end_item call_id changes status)
  | EvDynamicToolCallRequest p => Some (target (dynamic_turn_id p), dynamic_request_item p)
  | EvDynamicToolCallResponse p content_items success duration =>
      Some (target (dynamic_turn_id p), dynamic_response_item p content_items success duration)
  | EvMcpToolCallBegin p => Some (None, mcp_begin_item p)
  | EvMcpToolCallEnd p duration r => Some (None, mcp_end_item p duration r)
  | EvViewImageToolCall call_id path => Some (None, ImageView call_id path)
  | EvImageGenerationBegin call_id => Some (None, ImageGeneration call_id [] None [] None)
  | EvImageGenerationEnd call_id status revised_prompt r saved_path => Some (None, ImageGeneration call_id status revised_prompt r saved_path)
  | EvCollabAgentSpawnBegin call_id sender prompt model effort =>
      Some (None, CollabAgentToolCall call_id SpawnAgent CollabInProgress sender [] (Some prompt) (Some model) (Some effort) ∅)
  | EvCollabAgentSpawnEnd call_id sender new_thread_id prompt model effort status =>
      Some (None, spawn_end_item call_id sender new_thread_id prompt model effort status)
  | EvCollabAgentInteractionBegin call_id sender receiver prompt => Some (None, agent_begin_item SendInput call_id sender receiver (Some prompt))
  | EvCollabAgentInteractionEnd call_id sender receiver prompt status =>
      Some (None, agent_end_item SendInput call_id sender receiver (Some prompt) status)
  | EvSubAgentActivity event_id kind agent_thread_id agent_path => Some (None, SubAgentActivity event_id kind agent_thread_id agent_path)
  | EvCollabWaitingBegin call_id sender receivers =>
      Some (None, CollabAgentToolCall call_id WaitAgent CollabInProgress sender receivers None None None ∅)
  | EvCollabWaitingEnd call_id sender statuses => Some (None, waiting_end_item call_id sender statuses)
  | EvCollabCloseBegin call_id sender receiver => Some (None, agent_begin_item CloseAgent call_id sender receiver None)
  | EvCollabCloseEnd call_id sender receiver status => Some (None, agent_end_item CloseAgent call_id sender receiver None status)
  | EvCollabResumeBegin call_id sender receiver => Some (None, agent_begin_item ResumeAgent call_id sender receiver None)
  | EvCollabResumeEnd call_id sender receiver status => Some (None, agent_end_item ResumeAgent call_id sender receiver None status)
  | EvItemStarted id item | EvItemCompleted id item =>
      if should_upsert item then option_map (fun item => (Some id, item)) (thread_item_from item) else None
  | _ => None
  end.

(** Ids that come with the log: those of items are not of the form the builder
    draws, those of turns neither, and a turn is started once. *)
Definition clean_event b (e : EventMsg) : bool :=
  match upserted e with Some (_, item) => own_item_id (item_id item) | None => true end
  && match e with
     | EvTurnStarted id _ => negb (starts_with (lit "rollout-") id) && negb (bool_decide (id ∈ turn_id <$> all_turns b))
     | _ => true
     end.

Definition upsert_at (uuid : str) b (id : option str) item : ThreadHistoryBuilder :=
  match id with None => upsert_item_in_current_turn uuid b item | Some id => upsert_item_in_turn_id b id item end.

Lemma upsert_item_at uuid b id item : upsert_item uuid b id item = upsert_at uuid b (target id) item.
Proof. unfold upsert_item, target. by case_match. Qed.

Lemma handle_event_upsert uuid b e id item : upserted e = Some (id, item) -> handle_event uuid b e = upsert_at uuid b id item.
Proof.
  intros H. destruct e; cbn [upserted] in H; try (injection H as <- <-; cbn [handle_event]; rewrite ?upsert_item_at; done); try done.
  - cbn [handle_event]. unfold handle_guardian_assessment. destruct (guardian_item p); [|done]. injection H as <- <-. apply upsert_item_at.
  - cbn [handle_event]. unfold handle_materialized_item_lifecycle. destruct (should_upsert item0), (thread_item_from item0); try done.
    by injection H as <- <-.
  - cbn [handle_event]. unfold handle_materialized_item_lifecycle. destruct (should_upsert item0), (thread_item_from item0); try done.
    by injection H as <- <-.
Qed.

Lemma upsert_at_followed uuid r ts b id item :
  ready r ts b -> own_item_id (item_id item) = true -> followed r ts (upsert_at uuid b id item).
Proof. intros Hr Hown. destruct id; [by apply upsert_turn_id_followed|]. apply upsert_current_followed; [apply Hr|done]. Qed.

Lemma handle_event_reported uuid r b e :
  ready r (all_turns b) b -> active_change_set b = Some no_changes -> clean_event b e = true ->
  reported r (all_turns b) (handle_event uuid b e).
Proof.
  intros Hr Ha [Hup Hstart]%andb_true_iff. destruct (upserted e) as [[id item]|] eqn:Eu.
  { rewrite (handle_event_upsert _ _ _ _ _ Eu). by apply followed_reported, upsert_at_followed. }
  assert (Ht := proj1 Hr). assert (Hsame := followed_reported _ _ _ (ready_followed _ _ _ Hr)).
  destruct e; cbn [upserted] in Eu; try done; cbn [handle_event];
    unfold handle_agent_message, handle_agent_reasoning, handle_agent_reasoning_raw_content, handle_guardian_assessment, handle_materialized_item_lifecycle.
  - by apply followed_reported, handle_user_message_followed.
  - case_match; [done|]. by apply followed_reported, (push_new_followed uuid r _ b (fun id => AgentMessage id message phase memory_citation)).
  - case_match; [done|]. by apply followed_reported, extend_reasoning_followed.
  - case_match; [done|]. by apply followed_reported, extend_reasoning_followed.
  - by destruct (guardian_item p).
  - by apply followed_reported, push_new_followed.
  - by apply followed_reported, push_new_followed.
  - by apply followed_reported, push_new_followed.
  - by destruct (should_upsert item), (thread_item_from item).
  - by destruct (should_upsert item), (thread_item_from item).
  - by apply followed_reported, handle_error_followed.
  - by apply handle_thread_rollback_reported.
  - by apply followed_reported, handle_turn_aborted_followed.
  - apply andb_true_iff in Hstart as [H1%negb_true_iff H2%negb_true_iff%bool_decide_eq_false].
    by apply followed_reported, handle_turn_started_followed.
  - by apply followed_reported, handle_turn_complete_followed.
Qed.

(** *** Recording changes leaves the turns as they are *)

Definition quiet b : ThreadHistoryBuilder := with_changes b None.

Lemma quiet_ensure uuid b : ensure_turn uuid (quiet b) = (quiet (ensure_turn uuid b).1, (ensure_turn uuid b).2).
Proof. unfold ensure_turn. cbn. by destruct (current_turn b). Qed.

Lemma quiet_push uuid b item : quiet (push_item_in_current_turn uuid b item) = push_item_in_current_turn uuid (quiet b) item.
Proof. unfold push_item_in_current_turn. rewrite quiet_ensure. by destruct (ensure_turn uuid b). Qed.

Lemma quiet_push_new uuid b make : quiet (push_new_item uuid b make) = push_new_item uuid (quiet b) make.
Proof. unfold push_new_item, next_item_id. apply quiet_push. Qed.

Lemma quiet_upsert_at uuid b id item : quiet (upsert_at uuid b id item) = upsert_at uuid (quiet b) id item.
Proof.
  destruct id as [id|]; cbn [upsert_at].
  - unfold upsert_item_in_turn_id, upsert_item_in_finished_turn. cbn.
    destruct (current_turn b) as [t|] eqn:E; [case_bool_decide; [done|]|]; destruct (update_turn id (upsert_in item) (turns b)) as [[]|];
      unfold quiet, with_changes; cbn; by rewrite ?E.
  - unfold upsert_item_in_current_turn. rewrite quiet_ensure. by destruct (ensure_turn uuid b).
Qed.

Lemma quiet_finish b : quiet (finish_current_turn b) = finish_current_turn (quiet b).
Proof. unfold finish_current_turn. cbn. destruct (current_turn b) as [t|] eqn:E; [by case_match|]. unfold quiet, with_changes. cbn. by rewrite E. Qed.

Lemma quiet_extend uuid b add : quiet (extend_reasoning uuid b add) = extend_reasoning uuid (quiet b) add.
Proof.
  unfold extend_reasoning. rewrite quiet_ensure. destruct (ensure_turn uuid b) as [b' t]. cbn.
  repeat case_match; first [apply quiet_push|done].
Qed.

Lemma quiet_compacted uuid b : quiet (handle_compacted uuid b) = handle_compacted uuid (quiet b).
Proof. unfold handle_compacted. rewrite quiet_ensure. by destruct (ensure_turn uuid b). Qed.

Lemma quiet_event uuid b e : quiet (handle_event uuid b e) = handle_event uuid (quiet b) e.
Proof.
  destruct (upserted e) as [[id item]|] eqn:Eu; [rewrite !(handle_event_upsert _ _ _ _ _ Eu); apply quiet_upsert_at|].
  destruct e; cbn [upserted] in Eu; try done; cbn [handle_event];
    unfold handle_agent_message, handle_agent_reasoning, handle_agent_reasoning_raw_content, handle_guardian_assessment, handle_materialized_item_lifecycle.
  - unfold handle_user_message. cbn zeta. replace (current_turn (quiet b)) with (current_turn b) by done.
    assert (H := fun b => quiet_push_new uuid b (fun id => UserMessage id (user_client_id p) (build_user_inputs p))).
    destruct (is_some_and (current_turn b) closes_for_user); [rewrite <- quiet_finish|]; apply H.
  - case_match; [done|]. by apply (quiet_push_new uuid b (fun id => AgentMessage id message phase memory_citation)).
  - case_match; [done|]. apply quiet_extend.
  - case_match; [done|]. apply quiet_extend.
  - by destruct (guardian_item p).
  - apply quiet_push_new.
  - apply quiet_push_new.
  - apply quiet_push_new.
  - by destruct (should_upsert item), (thread_item_from item).
  - by destruct (should_upsert item), (thread_item_from item).
  - unfold handle_error. cbn. case_match; [done|]. destruct (current_turn b) eqn:E; [done|]. unfold quiet, with_changes. cbn. by rewrite E.
  - rewrite !rollback_turns. cbn zeta. rewrite <- quiet_finish. done.
  - unfold handle_turn_aborted, change_finished, default. cbn.
    repeat (case_match; simplify_eq/=; try done).
  - unfold handle_turn_started. cbn zeta. rewrite <- quiet_finish. done.
  - unfold handle_turn_complete, change_finished, default. cbn.
    repeat (case_match; simplify_eq/=; try done; rewrite ?quiet_finish; try done).
Qed.

(** ** The log *)

(** Between the entries of a log. *)
Definition log_inv b : Prop := core (next_rollout_index b) (next_item_index b) (shape (all_turns b)) /\ kept b.

Lemma log_inv_new : log_inv builder_new.
Proof.
  split; [|done]. split; [apply NoDup_nil_2|by intros e He%elem_of_nil|by intros e m He%elem_of_nil|cbn; lia|done].
Qed.

Section Log.
Context (hook_prompt_xml : str -> option (str * str)) (uuid : str).

Notation handle := (handle_rollout_item hook_prompt_xml uuid).

Definition clean b (i : RolloutItem) : bool :=
  match i with
  | RolloutEvent e => clean_event b e
  | RolloutResponseItem hook_uuid (Message id role content _ _) =>
      match parse_hook_prompt_message hook_prompt_xml hook_uuid id content with
      | Some (id, _) => own_item_id id && negb (is_some_and (current_turn b) (fun t : PendingTurn => bool_decide (id ∈ item_ids (pending t))))
      | None => true
      end
  | _ => true
  end.

Fixpoint clean_log b (items : list RolloutItem) : bool :=
  match items with [] => true | i :: items => clean b i && clean_log (handle b i) items end.

Lemma clean_log_app b l l' : clean_log b (l ++ l') = clean_log b l && clean_log (fold_left handle l b) l'.
Proof using. revert b. induction l as [|i l IH]; intros b; [done|]. cbn. rewrite IH. by rewrite andb_assoc. Qed.

Lemma handle_reported b i :
  log_inv b -> active_change_set b = Some no_changes -> clean b i = true ->
  reported (next_rollout_index b) (all_turns b) (handle b i).
Proof using.
  intros [Hc Hk] Ha Hclean. unfold handle_rollout_item. set (r := next_rollout_index b) in *.
  set (b1 := mkBuilder (turns b) (current_turn b) (next_item_index b) r (S r) (active_change_set b)).
  assert (Hr : ready r (all_turns b1) b1) by (split; [by apply tracks_start|done]).
  change (all_turns b) with (all_turns b1). destruct i as [e| |hook_uuid item|].
  - by apply handle_event_reported.
  - apply followed_reported, handle_compacted_followed, Hr.
  - assert (Hsame := followed_reported _ _ _ (ready_followed _ _ _ Hr)). cbn [clean] in Hclean.
    unfold handle_response_item. destruct item; try done.
    destruct (negb (role == lit "user")); [done|].
    destruct (parse_hook_prompt_message hook_prompt_xml hook_uuid id content) as [[hid fragments]|]; [|done].
    apply andb_true_iff in Hclean as [H1 H2%negb_true_iff].
    apply followed_reported, push_given_followed; [apply Hr|done|done].
  - apply followed_reported, ready_followed, Hr.
Qed.

Lemma quiet_handle b i : quiet (handle b i) = handle (quiet b) i.
Proof using.
  unfold handle_rollout_item. destruct i as [e| |hook_uuid item|]; [apply quiet_event|apply quiet_compacted| |done].
  unfold handle_response_item. repeat case_match; try done. apply quiet_push.
Qed.

Lemma handle_with_changes b i : log_inv b -> quiet b = b -> clean b i = true ->
  exists c, handle_rollout_item_with_changes hook_prompt_xml uuid b i = (handle b i, c)
    /\ log_inv (handle b i) /\ quiet (handle b i) = handle b i
    /\ forall st, shows st (all_turns b) -> shows (apply_changes st c) (all_turns (handle b i)).
Proof using.
  intros [Hc Hk] Hq Hclean. unfold handle_rollout_item_with_changes, collect_changes. set (b1 := with_changes b (Some no_changes)).
  assert (Hb : quiet (handle b1 i) = handle b i) by (rewrite quiet_handle; by change (quiet b1) with (quiet b); rewrite Hq).
  assert (Hr : reported (next_rollout_index b) (all_turns b) (handle b1 i)) by (by apply (handle_reported b1 i)).
  exists (default no_changes (active_change_set (handle b1 i))). rewrite <- Hb. destruct Hr as [H1 H2 H3 H4].
  split; [done|]. split; [split; [|done]; cbn; by rewrite H3|]. split; [done|]. exact H4.
Qed.

Lemma handle_batch b items : log_inv b -> quiet b = b -> clean_log b items = true ->
  exists c, handle_rollout_items_with_changes hook_prompt_xml uuid b items = (fold_left handle items b, c)
    /\ log_inv (fold_left handle items b) /\ quiet (fold_left handle items b) = fold_left handle items b
    /\ forall st, shows st (all_turns b) -> shows (apply_changes st c) (all_turns (fold_left handle items b)).
Proof using.
  intros Hi Hq Hclean.
  assert (H : forall acc, exists cs, fold_left (push_changes_of hook_prompt_xml uuid) items (b, acc) = (fold_left handle items b, fold_left push cs acc)
    /\ log_inv (fold_left handle items b) /\ quiet (fold_left handle items b) = fold_left handle items b
    /\ forall st, shows st (all_turns b) -> shows (fold_left apply_changes cs st) (all_turns (fold_left handle items b))).
  { revert b Hi Hq Hclean. induction items as [|i items IH]; intros b Hi Hq Hclean acc; [by exists []|].
    cbn [clean_log] in Hclean. apply andb_true_iff in Hclean as [H1 H2].
    destruct (handle_with_changes b i Hi Hq H1) as (c & E & Hi' & Hq' & Hs). cbn [fold_left]. unfold push_changes_of at 2. cbn [fst snd]. rewrite E.
    destruct (IH _ Hi' Hq' H2 (push acc c)) as (cs & E' & Hi'' & Hq'' & Hs'). exists (c :: cs). cbn [fold_left]. rewrite E'.
    split; [done|]. split; [done|]. split; [done|]. intros st Hst. by apply Hs', Hs. }
  destruct (H accumulator_default) as (cs & E & Hi' & Hq' & Hs). eexists. unfold handle_rollout_items_with_changes. rewrite E.
  split; [done|]. split; [done|]. split; [done|]. intros st Hst. rewrite batch_meaning. by apply Hs.
Qed.

(** A follower that is given a log batch by batch. *)
Definition follow (acc : ThreadHistoryBuilder * Client) (batch : list RolloutItem) : ThreadHistoryBuilder * Client :=
  let '(b, c) := handle_rollout_items_with_changes hook_prompt_xml uuid acc.1 batch in (b, apply_changes acc.2 c).

Lemma follow_batches batches b st : log_inv b -> quiet b = b -> clean_log b (concat batches) = true -> shows st (all_turns b) ->
  let '(b', st') := fold_left follow batches (b, st) in
  b' = fold_left handle (concat batches) b /\ log_inv b' /\ shows st' (all_turns b').
Proof using.
  revert b st. induction batches as [|batch batches IH]; intros b st Hi Hq Hclean Hs; [done|]. cbn [concat] in *.
  rewrite clean_log_app in Hclean. apply andb_true_iff in Hclean as [H1 H2].
  destruct (handle_batch b batch Hi Hq H1) as (c & E & Hi' & Hq' & Hs'). cbn [fold_left]. unfold follow at 2. cbn [fst snd]. rewrite E.
  rewrite fold_left_app. apply IH; try done. by apply Hs'.
Qed.

Lemma finish_all b : kept b -> finish b = all_turns b.
Proof using. intros Hk. unfold finish. destruct (finish_turns b Hk) as [<- Hc]. unfold all_turns. by rewrite Hc, app_nil_r. Qed.

(** C9: One who applies the changes reported for a log, however it is cut into
    batches, has the turns and the items that a replay of the log shows: of
    each turn its status, error and times, of each item its last state.  The log
    starts each turn once, and its own ids are not of the form the builder draws. *)
Theorem follower_sees_replay (batches : list (list RolloutItem)) :
  clean_log builder_new (concat batches) = true ->
  shows (fold_left follow batches (builder_new, client_empty)).2 (build_turns_from_rollout_items hook_prompt_xml uuid (concat batches)).
Proof using.
  intros Hclean. assert (H := follow_batches batches builder_new client_empty log_inv_new eq_refl Hclean shows_empty).
  destruct (fold_left follow batches _) as [b st]. destruct H as (Hb & [_ Hk] & Hs). subst b. unfold build_turns_from_rollout_items. by rewrite finish_all.
Qed.

(** In the replay of a log that starts each turn once, and whose own ids are not of
    the form the builder draws, no two turns have the same id, nor two items of a
    turn: the ids the builder draws are fresh, also after a rollback. *)
Theorem history_ids_unique (items : list RolloutItem) :
  clean_log builder_new items = true ->
  let ts := build_turns_from_rollout_items hook_prompt_xml uuid items in
  NoDup (turn_id <$> ts) /\ (forall t, t ∈ ts -> NoDup (item_ids t)).
Proof using.
  intros Hclean. destruct (handle_batch builder_new items log_inv_new eq_refl Hclean) as (c & _ & [Hc Hk] & _).
  cbn zeta. unfold build_turns_from_rollout_items. rewrite finish_all by done. split.
  - rewrite <- shape_ids. apply Hc.
  - intros t Ht. apply (core_items _ _ _ Hc (turn_id t, item_ids t)). unfold shape. by eapply (list_elem_of_fmap_2' _ _ t).
Qed.

End Log.
End Facts.

(** ** A log *)

#[local] Instance plain : Carried := {|
  Json := unit; json_null := tt; TextElement := unit; MemoryCitation := unit; ReasoningEffort := unit; SubAgentActivityKind := unit;
  Uri := str; uri_of_path := fun p => p; native_cwd := Some; join_path := fun a b => a ++ lit "/" ++ b;
  shlex_join := fun l => concat l; parse_command := fun _ => [] |}.

Definition said (text : string) : RolloutItem := RolloutEvent (EvUserMessage (mkUserMessage None (lit text) None [] [] [] [])).

(** A turn that searches the web, one without an id, both rolled back but for the first, and another. *)
Definition example_log : list (list RolloutItem) :=
  [ [ RolloutEvent (EvTurnStarted (lit "t1") (Some 5%Z)); said "hello"; RolloutEvent (EvAgentReasoning (lit "Thinking"));
      RolloutEvent (EvAgentReasoning (lit "Still thinking")); RolloutEvent (EvWebSearchBegin (lit "call-1")) ];
    [ RolloutEvent (EvWebSearchEnd (lit "call-1") (lit "query") OtherAction); RolloutEvent (EvTurnComplete (lit "t1") (Some 9%Z) (Some 4000%Z));
      said "again"; RolloutEvent (EvAgentMessage (lit "Yes") None None); Compacted; RolloutEvent (EvThreadRolledBack 1); said "once more" ] ].

Notation replayed := (build_turns_from_rollout_items (fun _ => None) [] (concat example_log)).

Example example_replayed :
  (fun t => (turn_id t, item_ids t, turn_status t)) <$> replayed =
  [ (lit "t1", [lit "item-1"; lit "item-2"; lit "call-1"], Completed); (lit "rollout-11", [lit "item-4"], Completed) ].
Proof. by vm_compute. Qed.

Lemma follower_sees_replay_witness :
  clean_log (fun _ => None) [] builder_new (concat example_log) = true
  /\ shows (fold_left (follow (fun _ => None) []) example_log (builder_new, client_empty)).2 replayed.
Proof. split; [by vm_compute|]. apply (follower_sees_replay (fun _ => None) [] example_log). by vm_compute. Defined.

Lemma history_ids_unique_witness :
  clean_log (fun _ => None) [] builder_new (concat example_log) = true /\ NoDup (turn_id <$> replayed).
Proof. split; [by vm_compute|]. apply (history_ids_unique (fun _ => None) [] (concat example_log)). by vm_compute. Defined.

(** An abort after an error leaves the error, though the turn has not failed. *)
Example aborted_keeps_error :
  (fun t => (turn_status t, turn_error t)) <$>
    build_turns_from_rollout_items (fun _ => None) [] [RolloutEvent (EvTurnStarted (lit "t1") None); RolloutEvent (EvError (lit "gone") None);
      RolloutEvent (EvTurnAborted (Some (lit "t1")) None None)]
  = [(Interrupted, Some (mkTurnError (lit "gone") None None))].
Proof. by vm_compute. Qed.

(** A rollback of one turn drops a turn that the user did not ask for. *)
Example rollback_drops_compaction :
  (fun t => turn_id t) <$>
    build_turns_from_rollout_items (fun _ => None) [] [RolloutEvent (EvTurnStarted (lit "t1") None); said "hello";
      RolloutEvent (EvTurnComplete (lit "t1") None None); Compacted; RolloutEvent (EvThreadRolledBack 1)]
  = [lit "t1"].
Proof. by vm_compute. Qed.

End ThreadHistoryFacts.
