(* ===== verification/Rollout.v ===== *)
(** The log of a session, as the agent reads it back: the user's messages in it
    (core/src/event_mapping.rs), cutting a log for a fork
    (core/src/thread_rollout_truncation.rs) and the history after a compaction
    (core/src/compact.rs).  The theorems are in the module [RolloutFacts].

    Counts of turns stay below [2^64]; indexes are those of a list. *)

From stdpp Require Import base list option numbers strings gmap sorting.
From S2P Require Import Prelude Machine RustStr Truncate ResponseItems Normalize ContextFragments History WorldState ThreadItems ThreadHistory.

Module Rollout.
Import History WorldState ThreadItems ThreadHistory.
Open Scope rust_scope.

(** ** Entries *)

Section Log.
Context {Cr : Carried}.
(** The part of a turn's context that nothing here reads, and identifiers. *)
Context {TurnContextRest Uuid : Type}.

Record TurnContextItem := mkTurnContext {
  ctx_turn_id : option str;
  ctx_model : str;
  ctx_comp_hash : option str;
  ctx_realtime_active : option bool;
  ctx_rest : TurnContextRest;
}.

Record InterAgentCommunication := mkCommunication {
  comm_id : option str;
  author : str;
  recipient : str;
  other_recipients : list str;
  comm_content : str;
  encrypted_content : option str;
  comm_meta : option InternalChatMessageMetadataPassthrough;
  trigger_turn : bool;
}.

Record CompactedItem := mkCompacted {
  compacted_message : str;
  replacement_history : option (list (ResponseItem Json));
  compacted_window_number : option N;
  compacted_first_window_id : option str;
  compacted_previous_window_id : option str;
  compacted_window_id : option str;
}.

(** [SessionMeta]: the id of its context window. *)
Inductive LogItem :=
| SessionMeta (context_window : option str)
| LogResponse (item : ResponseItem Json)
| LogCommunication (c : InterAgentCommunication)
| LogCommunicationMetadata (trigger_turn : bool)
| LogCompacted (c : CompactedItem)
| LogTurnContext (ctx : TurnContextItem)
| LogWorldState (item : WorldStateItem)
| LogEvent (e : EventMsg).

Definition to_model_input_item (c : InterAgentCommunication) : ResponseItem Json :=
  let content := match encrypted_content c with
                 | Some encrypted =>
                     [AgentInputText (lit "Message Type: " ++ (if trigger_turn c then lit "NEW_TASK" else lit "MESSAGE") ++ [LF]
                        ++ lit "Task name: " ++ recipient c ++ [LF] ++ lit "Sender: " ++ author c ++ [LF] ++ lit "Payload:" ++ [LF]);
                      AgentEncryptedContent encrypted]
                 | None => [AgentInputText (comm_content c)]
                 end in
  ResponseItems.AgentMessage (comm_id c) (author c) (recipient c) content (comm_meta c).

(** ** Messages of the user *)

Context (hook_prompt_xml : str -> option (str * str)).
(** The JSON reading of an inter-agent communication. *)
Context (communication_from_json : str -> option InterAgentCommunication).

Definition from_message_content (content : list Msg.ContentItem) : option InterAgentCommunication :=
  match content with [Msg.InputText text] | [Msg.OutputText text] => communication_from_json text | _ => None end.

Definition is_boundary (item : ResponseItem Json) : bool :=
  is_user_turn_boundary hook_prompt_xml (fun text => is_some (communication_from_json text)) item.

(** [parse_visible_hook_prompt_message]: the fragments, if it is one. *)
Definition parse_visible_hook_prompt_message (content : list Msg.ContentItem) : option (list (str * str)) :=
  match mapM (fun c => match c with
                       | Msg.InputText text =>
                           match parse_hook_prompt_fragment hook_prompt_xml text with
                           | Some fragment => Some [fragment]
                           | None => if is_standard_contextual_user_text text then Some [] else None
                           end
                       | _ => None
                       end) content with
  | Some fragments => if is_empty (concat fragments) then None else Some (concat fragments)
  | None => None
  end.

Definition is_local_image_open_tag_text (text : str) : bool :=
  is_some_and (strip_prefix (lit "<image name=") text) (fun rest => is_some (strip_suffix (lit ">") rest)).
Definition is_image_open_tag_text (text : str) : bool := text == lit "<image>".
Definition is_image_close_tag_text (text : str) : bool := text == lit "</image>".
Definition is_local_image_close_tag_text (text : str) : bool := is_image_close_tag_text text.

Definition is_image_at (content : list Msg.ContentItem) (idx : nat) : bool :=
  match content !! idx with Some (Msg.InputImage _ _) => true | _ => false end.

(** The tags around an image are not part of the text. *)
Definition parse_user_message (content : list Msg.ContentItem) : option (list UserInput) :=
  if is_contextual_user_message_content hook_prompt_xml content then None
  else
    Some (concat (imap (fun idx c =>
      match c with
      | Msg.InputText text =>
          if (is_local_image_open_tag_text text || is_image_open_tag_text text) && is_image_at content (idx + 1)
             || (0 <? idx) && (is_local_image_close_tag_text text || is_image_close_tag_text text) && is_image_at content (idx - 1)
          then []
          else [ThreadItems.InputText text []]
      | Msg.InputImage image_url detail => [ThreadItems.InputImage image_url detail]
      | Msg.OutputText _ => []
      end) content)).

(** The content of the [UserMessage] that [parse_turn_item] gives, if any. *)
Definition parse_user_turn (item : ResponseItem Json) : option (list UserInput) :=
  match item with
  | Message _ role content _ _ =>
      if role == lit "user" then
        match parse_visible_hook_prompt_message content with Some _ => None | None => parse_user_message content end
      else None
  | _ => None
  end.

Definition user_text (content : list UserInput) : str :=
  concat (List.map (fun c => match c with ThreadItems.InputText text _ => text | _ => [] end) content).

(** ** thread_rollout_truncation.rs *)

Definition rollout_item_is_user_turn_boundary (item : LogItem) : bool :=
  match item with LogResponse item => is_boundary item | LogCommunication _ => true | _ => false end.

Definition is_real_user_message_boundary (item : ResponseItem Json) : bool := is_some (parse_user_turn item).

Definition is_trigger_turn_boundary (item : ResponseItem Json) : bool :=
  match item with
  | Message _ role content _ _ => (role == lit "assistant") && is_some_and (from_message_content content) trigger_turn
  | _ => false
  end.

Definition is_message (item : ResponseItem Json) : bool := match item with Message _ _ _ _ _ => true | _ => false end.

(** One entry of the loop, at [idx]. *)
Definition user_position_step (user_positions : list nat) (idx : nat) (item : LogItem) : list nat :=
  match item with
  | LogResponse item => if is_message item && is_real_user_message_boundary item then user_positions ++ [idx] else user_positions
  | LogEvent (EvThreadRolledBack num_turns) => take (length user_positions - num_turns) user_positions
  | _ => user_positions
  end.

Fixpoint user_positions_from (user_positions : list nat) (idx : nat) (items : list LogItem) : list nat :=
  match items with [] => user_positions | item :: items => user_positions_from (user_position_step user_positions idx item) (S idx) items end.

Definition user_message_positions_in_rollout (items : list LogItem) : list nat := user_positions_from [] 0 items.

Definition is_agent_message (item : ResponseItem Json) : bool :=
  match item with ResponseItems.AgentMessage _ _ _ _ _ => true | _ => false end.

Definition is_delivery_metadata (item : LogItem) : bool := match item with LogCommunicationMetadata _ => true | _ => false end.

(** The positions that rollbacks count, and those of fork turns; [previous] is the entry before. *)
Definition fork_position_step (positions : list nat * list nat) (previous : option LogItem) (idx : nat) (item : LogItem)
    : list nat * list nat :=
  let '(rollback_turn_positions, fork_turn_positions) := positions in
  let add (rolls forks : bool) := (if rolls then rollback_turn_positions ++ [idx] else rollback_turn_positions,
                                   if forks then fork_turn_positions ++ [idx] else fork_turn_positions) in
  match item with
  | LogResponse item =>
      let has_delivery_metadata := is_agent_message item && is_some_and previous is_delivery_metadata in
      add (is_boundary item && negb has_delivery_metadata) (is_real_user_message_boundary item || is_trigger_turn_boundary item)
  | LogCommunication c => add true (trigger_turn c)
  | LogCommunicationMetadata trigger_turn => add true trigger_turn
  | LogEvent (EvThreadRolledBack num_turns) =>
      if num_turns =? 0 then positions
      else
        let start := if num_turns <=? length rollback_turn_positions then rollback_turn_positions !! (length rollback_turn_positions - num_turns)
                     else head rollback_turn_positions in
        match start with
        | None => positions
        | Some rollback_start_idx =>
            (take (length rollback_turn_positions - num_turns) rollback_turn_positions,
             List.filter (fun position => position <? rollback_start_idx) fork_turn_positions)
        end
  | _ => positions
  end.

Fixpoint fork_positions_from (positions : list nat * list nat) (previous : option LogItem) (idx : nat) (items : list LogItem)
    : list nat * list nat :=
  match items with
  | [] => positions
  | item :: items => fork_positions_from (fork_position_step positions previous idx item) (Some item) (S idx) items
  end.

Definition fork_turn_positions_in_rollout (items : list LogItem) : list nat := (fork_positions_from ([], []) None 0 items).2.

Definition truncate_rollout_before_nth_user_message_from_start (items : list LogItem) (n_from_start : nat) : list LogItem :=
  match user_message_positions_in_rollout items !! n_from_start with
  | None => items
  | Some cut_idx => take cut_idx items
  end.

Definition truncate_rollout_to_last_n_fork_turns (items : list LogItem) (n_from_end : nat) : list LogItem :=
  if n_from_end =? 0 then []
  else
    let positions := fork_turn_positions_in_rollout items in
    match (if n_from_end <=? length positions then positions !! (length positions - n_from_end) else head positions) with
    | None => []
    | Some keep_idx => drop keep_idx items
    end.

(** What the history of the thread sees of an entry. *)
Definition to_history (hook_uuid : str) (item : LogItem) : ThreadHistory.RolloutItem :=
  match item with
  | LogResponse item => RolloutResponseItem hook_uuid item
  | LogCompacted _ => Compacted
  | LogEvent e => RolloutEvent e
  | _ => RolloutOther
  end.

Definition starts_turn (id : option str) (item : LogItem) : bool :=
  match item with
  | LogEvent (EvTurnStarted turn_id _) => match id with Some id => turn_id == id | None => true end
  | _ => false
  end.

Fixpoint position (p : LogItem -> bool) (items : list LogItem) : option nat :=
  match items with [] => None | item :: items => if p item then Some 0 else option_map S (position p items) end.

Inductive ForkError := TurnNotFound (id : str) | NotCanonical (id : str) | TurnInProgress (id : str).

Definition truncate_rollout_after_turn_id (uuid hook_uuid : str) (items : list LogItem) (last_turn_id : str) : result (list LogItem) ForkError :=
  let turns := build_turns_from_rollout_items hook_prompt_xml uuid (List.map (to_history hook_uuid) items) in
  match find_turn last_turn_id turns with
  | None => Err (TurnNotFound last_turn_id)
  | Some turn =>
      match position (starts_turn (Some last_turn_id)) items with
      | None => Err (NotCanonical last_turn_id)
      | Some target_start_index =>
          if turn_status turn == InProgress then Err (TurnInProgress last_turn_id)
          else
            let after := drop (S target_start_index) items in
            let cut_index := match position (starts_turn None) after with
                             | Some i => S target_start_index + i
                             | None => length items
                             end in
            Ok (take cut_index items)
      end
  end.

(** ** compact.rs *)

Definition SUMMARY_PREFIX : str :=
  lit "Another language model started to solve this problem and produced a summary of its thinking process. You also have access to the state of the tools that were used by that language model. Use this to build on the work that has already been done and avoid duplicating work. Here is the summary produced by the other language model, use the information in this summary to assist with your own analysis:".

Definition COMPACT_USER_MESSAGE_MAX_TOKENS : Z := 20000.

Definition is_summary_message (message : str) : bool := starts_with (SUMMARY_PREFIX ++ [LF]) message.

Record CompactedUserMessage := mkUserMessageOf { kept_message : str; kept_meta : option InternalChatMessageMetadataPassthrough }.

Definition collect_user_messages (items : list (ResponseItem Json)) : list CompactedUserMessage :=
  omap (fun item =>
    match parse_user_turn item with
    | Some content =>
        if is_summary_message (user_text content) then None
        else Some (mkUserMessageOf (user_text content) (match item with Message _ _ _ _ meta => meta | _ => None end))
    | None => None
    end) items.

(** The newest messages that fit, newest first; the last of them may be shortened. *)
Fixpoint select_messages (messages : list CompactedUserMessage) (remaining : Z) : option (list CompactedUserMessage) :=
  match messages with
  | [] => Some []
  | message :: messages =>
      if (remaining =? 0)%Z then Some []
      else
        let tokens := Truncate.approx_token_count (kept_message message) in
        if (tokens <=? remaining)%Z then
          option_map (cons message) (select_messages messages (sat_sub remaining tokens))
        else
          match Truncate.truncate_text (kept_message message) (Truncate.Tokens remaining) with
          | Some truncated => Some [mkUserMessageOf truncated (kept_meta message)]
          | None => None
          end
  end.

Definition user_item (text : str) (meta : option InternalChatMessageMetadataPassthrough) : ResponseItem Json :=
  Message None (lit "user") [Msg.InputText text] None meta.

Definition build_compacted_history_with_limit (history : list (ResponseItem Json)) (user_messages : list CompactedUserMessage)
    (summary_text : str) (max_tokens : Z) : option (list (ResponseItem Json)) :=
  match (if (0 <? max_tokens)%Z then select_messages (reverse user_messages) max_tokens else Some []) with
  | Some selected =>
      let summary_text := if is_empty summary_text then lit "(no summary available)" else summary_text in
      Some (history ++ List.map (fun m => user_item (kept_message m) (kept_meta m)) (reverse selected) ++ [user_item summary_text None])
  | None => None
  end.

Definition build_compacted_history (initial_context : list (ResponseItem Json)) (user_messages : list CompactedUserMessage)
    (summary_text : str) : option (list (ResponseItem Json)) :=
  build_compacted_history_with_limit initial_context user_messages summary_text COMPACT_USER_MESSAGE_MAX_TOKENS.

End Log.
End Rollout.

(** * Theorems: what a fork keeps *)

Module RolloutFacts.
Import ThreadItems ThreadHistory Rollout.
Open Scope rust_scope.

Section Facts.
Context {Cr : Carried} {TurnContextRest : Type}.
Context (hook_prompt_xml : str -> option (str * str)) (communication_from_json : str -> option InterAgentCommunication).
Notation Entry := (@LogItem Cr TurnContextRest).
Notation positions_from := (user_positions_from hook_prompt_xml).
Notation step := (user_position_step hook_prompt_xml).

(** ** Reference: the turns that no rollback reaches *)

(** An entry adds a turn, of a fork or not, or drops the last turns. *)
Inductive Mark := Adds (fork : bool) | Drops (num_turns : nat) | Keeps.

(** Seen from the newest entry: turns still to be dropped, and the turns that are left, by position. *)
Fixpoint surviving (idx : nat) (marks : list Mark) : nat * list (nat * bool) :=
  match marks with
  | [] => (0, [])
  | mark :: marks =>
      let '(dropped, turns) := surviving (S idx) marks in
      match mark with
      | Adds fork => match dropped with 0 => (0, (idx, fork) :: turns) | S dropped => (dropped, turns) end
      | Drops n => (dropped + n, turns)
      | Keeps => (dropped, turns)
      end
  end.

Definition user_mark (item : Entry) : Mark :=
  match item with
  | LogResponse item => if is_real_user_message_boundary hook_prompt_xml item then Adds true else Keeps
  | LogEvent (EvThreadRolledBack num_turns) => Drops num_turns
  | _ => Keeps
  end.

Definition surviving_messages (items : list Entry) : list nat := (surviving 0 (user_mark <$> items)).2.*1.

Definition fork_mark (previous : option Entry) (item : Entry) : Mark :=
  match item with
  | LogResponse item =>
      if is_boundary hook_prompt_xml communication_from_json item && negb (is_agent_message item && is_some_and previous is_delivery_metadata)
      then Adds (is_real_user_message_boundary hook_prompt_xml item || is_trigger_turn_boundary communication_from_json item)
      else Keeps
  | LogCommunication c => Adds (trigger_turn c)
  | LogCommunicationMetadata trigger_turn => Adds trigger_turn
  | LogEvent (EvThreadRolledBack num_turns) => Drops num_turns
  | _ => Keeps
  end.

Fixpoint fork_marks (previous : option Entry) (items : list Entry) : list Mark :=
  match items with [] => [] | item :: items => fork_mark previous item :: fork_marks (Some item) items end.

Definition forks_of (turns : list (nat * bool)) : list nat := (List.filter snd turns).*1.

Definition surviving_fork_turns (items : list Entry) : list nat := forks_of (surviving 0 (fork_marks None items)).2.

(** The same from the oldest entry. *)
Definition mark_step (turns : list (nat * bool)) (idx : nat) (mark : Mark) : list (nat * bool) :=
  match mark with Adds fork => turns ++ [(idx, fork)] | Drops n => take (length turns - n) turns | Keeps => turns end.

Fixpoint mark_run (turns : list (nat * bool)) (idx : nat) (marks : list Mark) : list (nat * bool) :=
  match marks with [] => turns | mark :: marks => mark_run (mark_step turns idx mark) (S idx) marks end.

Lemma mark_run_surviving turns idx marks :
  mark_run turns idx marks = take (length turns - (surviving idx marks).1) turns ++ (surviving idx marks).2.
Proof using.
  revert turns idx. induction marks as [|mark marks IH]; intros turns idx; cbn [mark_run surviving fst snd].
  { by rewrite Nat.sub_0_r, firstn_all, app_nil_r. }
  rewrite IH. destruct (surviving (S idx) marks) as [dropped left]. destruct mark as [fork|n|]; cbn [mark_step fst snd]; [| |done].
  - rewrite length_app. cbn [length]. destruct dropped as [|dropped]; cbn [fst snd].
    + rewrite !Nat.sub_0_r, firstn_all. rewrite take_ge by (rewrite length_app; cbn; lia). by rewrite <- app_assoc.
    + by rewrite take_app_le by lia; do 2 f_equal; lia.
  - rewrite length_take, take_take. do 2 f_equal. lia.
Qed.

Lemma user_run turns idx (l : list Entry) : positions_from turns.*1 idx l = (mark_run turns idx (user_mark <$> l)).*1.
Proof using.
  revert turns idx. induction l as [|i l IH]; intros turns idx; [done|]. cbn [user_positions_from]. rewrite fmap_cons. cbn [mark_run]. rewrite <- IH.
  f_equal. destruct i as [|item| | | | | |e]; cbn [user_position_step user_mark mark_step]; try done.
  - assert (Hm : is_real_user_message_boundary hook_prompt_xml item = true -> is_message item = true).
    { unfold is_real_user_message_boundary, parse_user_turn. by destruct item. }
    destruct (is_real_user_message_boundary hook_prompt_xml item); [rewrite Hm by done|by rewrite andb_false_r]. cbn [andb mark_step]. by rewrite fmap_app.
  - destruct e; try done. cbn [mark_step]. by rewrite fmap_take, length_fmap.
Qed.

Lemma messages_surviving (items : list Entry) : user_message_positions_in_rollout hook_prompt_xml items = surviving_messages items.
Proof using. unfold user_message_positions_in_rollout. change (@nil nat) with ((@nil (nat * bool)).*1). by rewrite user_run, mark_run_surviving. Qed.

(** ** Messages of the user *)

(** The positions before [idx] in the result are the first of those there were. *)
Lemma positions_old acc idx (l : list Entry) n p :
  positions_from acc idx l !! n = Some p -> p < idx -> take (S n) (positions_from acc idx l) = take (S n) acc.
Proof using.
  revert acc idx. induction l as [|i l IH]; intros acc idx Hp Hlt; [done|]. cbn [user_positions_from] in *.
  assert (E := IH _ _ Hp ltac:(lia)). rewrite E. clear IH. apply (f_equal (lookup n)) in E.
  rewrite !lookup_take_lt, Hp in E by lia. symmetry in E. revert E.
  destruct i as [|item| | | | | |e]; cbn [user_position_step]; try done.
  - case_match; [|done]. intros [Hn|[-> ->]]%lookup_snoc_Some; [|lia]. destruct Hn as [Hn _]. by rewrite take_app_le by lia.
  - destruct e; try done. intros [_ Hn]%lookup_take_Some. rewrite take_take. f_equal. lia.
Qed.

Lemma step_bounded acc idx (i : Entry) : Forall (fun p => p < idx) acc -> Forall (fun p => p < S idx) (step acc idx i).
Proof using.
  intros H. assert (H' : Forall (fun p => p < S idx) acc) by (eapply Forall_impl; [exact H|cbn; lia]).
  destruct i as [|item| | | | | |e]; cbn [user_position_step]; try done.
  - case_match; [|done]. apply Forall_app. split; [done|]. by repeat constructor.
  - destruct e; try done. by apply Forall_take.
Qed.

(** The entries before a position that is left lead to the positions before it. *)
Lemma positions_cut acc idx (l : list Entry) n p :
  Forall (fun p => p < idx) acc -> positions_from acc idx l !! n = Some p -> idx <= p ->
  positions_from acc idx (take (p - idx) l) = take n (positions_from acc idx l).
Proof using.
  revert acc idx. induction l as [|i l IH]; intros acc idx Hacc Hp Hle.
  { cbn in Hp. assert (Hin := list_elem_of_lookup_2 _ _ _ Hp). rewrite Forall_forall in Hacc. specialize (Hacc _ Hin). lia. }
  cbn [user_positions_from] in *. destruct (decide (p = idx)) as [->|Hne].
  - rewrite Nat.sub_diag. cbn [take user_positions_from]. assert (E := positions_old _ _ _ _ _ Hp ltac:(lia)).
    assert (En : take n (positions_from (step acc idx i) (S idx) l) = take n (step acc idx i)).
    { apply (f_equal (take n)) in E. by rewrite !take_take, !Nat.min_l in E by lia. }
    rewrite En. apply (f_equal (lookup n)) in E. rewrite !lookup_take_lt, Hp in E by lia. symmetry in E. revert E. clear -Hacc.
    assert (Hout : acc !! n <> Some idx).
    { intros Hn. rewrite Forall_forall in Hacc. specialize (Hacc idx (list_elem_of_lookup_2 _ _ _ Hn)). lia. }
    destruct i as [|item| | | | | |e]; cbn [user_position_step]; try done.
    + case_match; [|done]. intros [[_ Hn]|[Hn _]]%lookup_snoc_Some; [done|]. subst n. by rewrite take_app_length.
    + destruct e; try done. by intros [Hn _]%lookup_take_Some.
  - replace (p - idx) with (S (p - S idx)) by lia. cbn [take user_positions_from]. apply IH; [by apply step_bounded|done|lia].
Qed.

(** A log that is cut before the [n]-th message of the user, counted from 0 and
    without those that were rolled back, has exactly the messages before it; a
    log with fewer is kept whole. *)
Theorem fork_keeps_first_messages (items : list Entry) n :
  surviving_messages (truncate_rollout_before_nth_user_message_from_start hook_prompt_xml items n) = take n (surviving_messages items)
  /\ truncate_rollout_before_nth_user_message_from_start hook_prompt_xml items n `prefix_of` items.
Proof using.
  rewrite <- !messages_surviving. unfold truncate_rollout_before_nth_user_message_from_start.
  destruct (user_message_positions_in_rollout hook_prompt_xml items !! n) as [p|] eqn:E.
  - split; [|apply prefix_take]. unfold user_message_positions_in_rollout in *.
    assert (H := positions_cut [] 0 items n p (Forall_nil_2 _) E ltac:(lia)). by rewrite Nat.sub_0_r in H.
  - split; [|done]. symmetry. apply take_ge. by apply lookup_ge_None.
Qed.

(** ** Fork turns *)

Notation fork_from := (fork_positions_from hook_prompt_xml communication_from_json).
Notation fork_step := (fork_position_step hook_prompt_xml communication_from_json).

Lemma fork_boundary (item : ResponseItem Json) :
  is_real_user_message_boundary hook_prompt_xml item || is_trigger_turn_boundary communication_from_json item = true ->
  is_boundary hook_prompt_xml communication_from_json item = true /\ is_agent_message item = false.
Proof using.
  intros Ef. unfold is_real_user_message_boundary, is_trigger_turn_boundary, parse_user_turn, parse_user_message, from_message_content, is_boundary in *.
  destruct item; try done. split; [|done]. cbn [History.is_user_turn_boundary]. apply orb_true_iff in Ef as [Ef|Ef]; apply orb_true_iff.
  - left. destruct (role == lit "user"); [|done]. repeat case_match; done.
  - right. apply andb_true_iff in Ef as [-> Ef]. cbn [andb]. unfold History.is_inter_agent_instruction_content.
    repeat case_match; try done; cbn in Ef; by destruct (communication_from_json _).
Qed.

(** A fork turn counts for rollbacks, whatever is before it. *)
Lemma fork_turn_counts rolls forks previous idx (i : Entry) r f :
  fork_step (rolls, forks) previous idx i = (r, f) -> idx ∈ f -> idx ∉ forks ->
  r = rolls ++ [idx] /\ f = forks ++ [idx] /\ forall rolls' forks' previous' idx', fork_step (rolls', forks') previous' idx' i = (rolls' ++ [idx'], forks' ++ [idx']).
Proof using.
  intros E Hin Hout. destruct i as [|item|c|trigger| | | |e]; cbn [fork_position_step] in E |- *; try (by injection E as <- <-).
  - destruct (is_real_user_message_boundary hook_prompt_xml item || is_trigger_turn_boundary communication_from_json item) eqn:Ef; [|by injection E as <- <-].
    destruct (fork_boundary item Ef) as [Hb1 Hb2]. rewrite Hb1, Hb2 in *. cbn in E |- *. injection E as <- <-. done.
  - destruct (trigger_turn c); by injection E as <- <-.
  - destruct trigger; by injection E as <- <-.
  - destruct e; try (by injection E as <- <-). repeat case_match; injection E as <- <-; try done;
      apply list_elem_of_In, filter_In in Hin as [Hin _]; by apply list_elem_of_In in Hin.
Qed.

Lemma fork_step_forks rolls forks previous idx (i : Entry) p : p ∈ (fork_step (rolls, forks) previous idx i).2 -> p < idx -> p ∈ forks.
Proof using.
  assert (Hadd : forall b : bool, p ∈ (if b then forks ++ [idx] else forks) -> p < idx -> p ∈ forks).
  { intros [] Hp Hlt; [|done]. apply elem_of_app in Hp as [?| ->%list_elem_of_singleton]; [done|lia]. }
  destruct i as [|item|c|trigger| | | |e]; cbn [fork_position_step]; try done; try apply Hadd.
  destruct e; try done. repeat case_match; try done; cbn; intros [Hp _]%list_elem_of_In%filter_In; by apply list_elem_of_In in Hp.
Qed.

(** Positions that are gone do not come back. *)
Lemma fork_from_forks rolls forks previous idx (l : list Entry) p : p ∈ (fork_from (rolls, forks) previous idx l).2 -> p < idx -> p ∈ forks.
Proof using.
  revert rolls forks previous idx. induction l as [|i l IH]; intros rolls forks previous idx Hp Hlt; [done|]. cbn [fork_positions_from] in Hp.
  destruct (fork_step (rolls, forks) previous idx i) as [r f] eqn:E. specialize (IH _ _ _ _ Hp ltac:(lia)).
  apply (fork_step_forks rolls forks previous idx i); [by rewrite E|done].
Qed.

Lemma fork_step_bounded rolls forks previous idx (i : Entry) :
  Forall (fun p => p < idx) rolls -> Forall (fun p => p < idx) forks ->
  Forall (fun p => p < S idx) (fork_step (rolls, forks) previous idx i).1 /\ Forall (fun p => p < S idx) (fork_step (rolls, forks) previous idx i).2.
Proof using.
  intros Hr Hf. assert (Hr' : Forall (fun p => p < S idx) rolls) by (eapply Forall_impl; [exact Hr|cbn; lia]).
  assert (Hf' : Forall (fun p => p < S idx) forks) by (eapply Forall_impl; [exact Hf|cbn; lia]).
  assert (Hadd : forall (b : bool) (acc : list nat), Forall (fun p => p < S idx) acc -> Forall (fun p => p < S idx) (if b then acc ++ [idx] else acc)).
  { intros [] acc Hacc; [|done]. apply Forall_app. split; [done|]. by repeat constructor. }
  destruct i as [|item|c|trigger| | | |e]; cbn [fork_position_step]; try done;
    try (split; [first [by apply Hadd|by apply (Hadd true)]|by apply Hadd]).
  destruct e; try done. assert (Hfil : forall q, Forall (fun p => p < S idx) (List.filter q forks)).
  { intros q. apply Forall_forall. intros p [Hp _]%list_elem_of_In%filter_In. apply list_elem_of_In in Hp. rewrite Forall_forall in Hf'. by apply Hf'. }
  repeat case_match; try done; (split; [by apply Forall_take|apply Hfil]).
Qed.

Lemma fork_from_bounded rolls forks previous idx (l : list Entry) :
  Forall (fun p => p < idx) rolls -> Forall (fun p => p < idx) forks ->
  Forall (fun p => p < idx + length l) (fork_from (rolls, forks) previous idx l).1
  /\ Forall (fun p => p < idx + length l) (fork_from (rolls, forks) previous idx l).2.
Proof using.
  revert rolls forks previous idx. induction l as [|i l IH]; intros rolls forks previous idx Hr Hf; cbn [fork_positions_from length]; [by rewrite Nat.add_0_r|].
  destruct (fork_step_bounded rolls forks previous idx i Hr Hf) as [Hr' Hf']. destruct (fork_step (rolls, forks) previous idx i) as [r f].
  replace (idx + S (length l)) with (S idx + length l) by lia. by apply IH.
Qed.

(** *** The turns are those that survive *)

Lemma forks_of_app l1 l2 : forks_of (l1 ++ l2) = forks_of l1 ++ forks_of l2.
Proof using. unfold forks_of. by rewrite List.filter_app, fmap_app. Qed.

Lemma forks_of_in turns p : p ∈ forks_of turns -> p ∈ turns.*1.
Proof using.
  unfold forks_of. intros (x & -> & [Hx _]%list_elem_of_In%filter_In)%list_elem_of_fmap. apply list_elem_of_fmap. exists x.
  split; [done|by apply list_elem_of_In].
Qed.

(** Dropping the fork turns from a turn on is dropping the turns from it on. *)
Lemma forks_before turns n p : StronglySorted lt turns.*1 -> turns.*1 !! n = Some p ->
  List.filter (fun q => q <? p) (forks_of turns) = forks_of (take n turns).
Proof using.
  intros Hs Hn. rewrite <- (take_drop n turns) at 1. rewrite forks_of_app, List.filter_app.
  assert (Hd : (drop n turns).*1 = p :: (drop (S n) turns).*1).
  { rewrite list_lookup_fmap in Hn. destruct (turns !! n) as [x|] eqn:E; [|done]. injection Hn as <-. by rewrite (drop_S _ _ _ E). }
  rewrite <- (take_drop n turns), fmap_app, Hd in Hs. apply StronglySorted_app in Hs as (Hlt & _ & Hgt).
  apply StronglySorted_inv in Hgt as [_ Hgt]. rewrite Forall_forall in Hgt.
  rewrite filter_all_id, filter_nothing, app_nil_r; [done| |].
  - intros q Hq%forks_of_in. rewrite Hd in Hq. apply Nat.ltb_ge. apply list_elem_of_In in Hq as [<-|Hq%list_elem_of_In]; [lia|].
    specialize (Hgt q Hq). lia.
  - intros q Hq%forks_of_in. apply Nat.ltb_lt. apply (Hlt q p Hq). by left.
Qed.

Lemma fork_step_marks (turns : list (nat * bool)) previous idx (i : Entry) : StronglySorted lt turns.*1 ->
  fork_step (turns.*1, forks_of turns) previous idx i
  = ((mark_step turns idx (fork_mark previous i)).*1, forks_of (mark_step turns idx (fork_mark previous i))).
Proof using.
  intros Hs. assert (Hadd : forall fork : bool, (turns.*1 ++ [idx], if fork then forks_of turns ++ [idx] else forks_of turns)
    = ((turns ++ [(idx, fork)]).*1, forks_of (turns ++ [(idx, fork)]))).
  { intros fork. rewrite fmap_app, forks_of_app. destruct fork; [done|]. by rewrite app_nil_r. }
  destruct i as [|item|c|trigger| | | |e]; cbn [fork_position_step fork_mark mark_step]; try done; try apply Hadd.
  - destruct (is_real_user_message_boundary _ _ || _) eqn:Ef.
    + destruct (fork_boundary item Ef) as [-> ->]. cbn [andb negb mark_step]. exact (Hadd true).
    + destruct (is_boundary _ _ _ && _); cbn [mark_step]; [exact (Hadd false)|done].
  - destruct e; try done. cbn [mark_step]. destruct (Nat.eqb_spec num_turns 0) as [->|Hn].
    { by rewrite Nat.sub_0_r, firstn_all. }
    replace (if num_turns <=? _ then _ else _) with (turns.*1 !! (length turns - num_turns)).
    2:{ rewrite length_fmap. destruct (Nat.leb_spec num_turns (length turns)); [done|]. rewrite head_lookup. f_equal. lia. }
    rewrite length_fmap. destruct (turns.*1 !! (length turns - num_turns)) as [p|] eqn:E.
    + by rewrite (forks_before turns _ p Hs E), fmap_take.
    + apply lookup_ge_None in E. rewrite length_fmap in E. destruct turns; [done|cbn in E; lia].
Qed.

Lemma mark_step_sorted turns idx mark : StronglySorted lt (turns.*1 ++ [idx]) -> StronglySorted lt ((mark_step turns idx mark).*1 ++ [S idx]).
Proof using.
  intros H. assert (Hn : forall l, StronglySorted lt (l ++ [idx]) -> StronglySorted lt (l ++ [S idx])).
  { intros l (Hl & H1 & _)%StronglySorted_app. apply StronglySorted_app_2; [|done|by repeat constructor].
    intros x y Hx ->%list_elem_of_singleton. specialize (Hl x idx Hx ltac:(by left)). lia. }
  destruct mark as [fork|n|]; cbn [mark_step].
  - rewrite fmap_app. cbn. apply StronglySorted_app_2; [|done|by repeat constructor].
    apply StronglySorted_app in H as (Hl & _ & _). intros x y Hx ->%list_elem_of_singleton.
    apply elem_of_app in Hx as [Hx| ->%list_elem_of_singleton]; [|lia]. specialize (Hl x idx Hx ltac:(by left)). lia.
  - apply Hn. set (m := length turns - n). rewrite <- (take_drop m turns), fmap_app in H. apply StronglySorted_app in H as (Hl & H1 & _).
    apply StronglySorted_app_2; [|by apply StronglySorted_app_1_l in H1|by repeat constructor].
    intros x y Hx Hy. apply Hl; [apply elem_of_app; by left|done].
  - by apply Hn.
Qed.

Lemma fork_run turns previous idx (l : list Entry) : StronglySorted lt (turns.*1 ++ [idx]) ->
  (fork_from (turns.*1, forks_of turns) previous idx l).2 = forks_of (mark_run turns idx (fork_marks previous l)).
Proof using.
  revert turns previous idx. induction l as [|i l IH]; intros turns previous idx Hs; [done|]. cbn [fork_positions_from fork_marks mark_run].
  rewrite fork_step_marks by (by apply StronglySorted_app_1_l in Hs). by apply IH, mark_step_sorted.
Qed.

Lemma fork_turns_surviving (items : list Entry) :
  fork_turn_positions_in_rollout hook_prompt_xml communication_from_json items = surviving_fork_turns items.
Proof using.
  unfold fork_turn_positions_in_rollout. change ((@nil nat), (@nil nat)) with ((@nil (nat * bool)).*1, forks_of []).
  rewrite fork_run by (by repeat constructor). by rewrite mark_run_surviving.
Qed.

(** Two runs, one of which started at [k]. *)
Definition shifted (k : nat) (whole part : list nat) : Prop :=
  exists old rest, part = 0 :: rest /\ whole = old ++ (Nat.add k <$> part) /\ Forall (fun p => p < k) old /\ Forall (fun p => 0 < p) rest.

Lemma shifted_add k whole part n : 0 < n -> shifted k whole part -> shifted k (whole ++ [k + n]) (part ++ [n]).
Proof using.
  intros Hn (old & rest & -> & -> & Ho & Hr). exists old, (rest ++ [n]). rewrite fmap_app, app_assoc. split; [done|]. split; [done|].
  split; [done|]. apply Forall_app. split; [done|]. by repeat constructor.
Qed.

Lemma shifted_at k whole part j p : shifted k whole part -> whole !! j = Some p -> k < p ->
  exists old, length whole = old + length part /\ old < j /\ exists q, part !! (j - old) = Some q /\ p = k + q /\ 0 < q.
Proof using.
  intros (old & rest & Hp & -> & Ho & Hr) Hj Hlt. exists (length old). rewrite length_app, length_fmap. split; [done|].
  destruct (decide (j < length old)) as [Hj'|Hj'].
  { rewrite lookup_app_l in Hj by done. rewrite Forall_lookup in Ho. specialize (Ho _ _ Hj). lia. }
  rewrite lookup_app_r, list_lookup_fmap in Hj by lia. destruct (part !! (j - length old)) as [q|] eqn:Eq; [|done]. cbn in Hj. injection Hj as <-.
  assert (j <> length old) by (intros ->; rewrite Nat.sub_diag, Hp in Eq; injection Eq as <-; lia). split; [lia|]. exists q. split; [done|]. split; [done|lia].
Qed.

Lemma shifted_take k whole part m : shifted k whole part -> m < length part -> shifted k (take (length whole - m) whole) (take (length part - m) part).
Proof using.
  intros (old & rest & -> & -> & Ho & Hr) Hm. exists old, (take (length rest - m) rest).
  rewrite length_app, length_fmap. cbn [length] in *. replace (S (length rest) - m) with (S (length rest - m)) by lia.
  split; [done|]. split; [|split; [done|by apply Forall_take]].
  replace (length old + S (length rest) - m) with (length old + S (length rest - m)) by lia. rewrite take_app_add. by rewrite fmap_take.
Qed.

Lemma shifted_filter k whole part s : shifted k whole part -> 0 < s ->
  shifted k (List.filter (fun p => p <? k + s) whole) (List.filter (fun p => p <? s) part).
Proof using.
  intros (old & rest & -> & -> & Ho & Hr) Hs. exists old, (List.filter (fun p => p <? s) rest).
  assert (Hf : forall l, List.filter (fun p => p <? k + s) (Nat.add k <$> l) = Nat.add k <$> List.filter (fun p => p <? s) l).
  { induction l as [|x l IH]; [done|]. rewrite fmap_cons. cbn [List.filter]. replace (k + x <? k + s) with (x <? s).
    - destruct (x <? s); [by rewrite fmap_cons, IH|done].
    - destruct (Nat.ltb_spec x s), (Nat.ltb_spec (k + x) (k + s)); lia || done. }
  assert (Ho' : List.filter (fun p => p <? k + s) old = old).
  { clear -Ho. induction Ho as [|x l Hx _ IH]; [done|]. cbn [List.filter]. replace (x <? k + s) with true by (symmetry; apply Nat.ltb_lt; lia). by rewrite IH. }
  split; [cbn [List.filter]; by rewrite (proj2 (Nat.ltb_lt 0 s) Hs)|]. rewrite List.filter_app, Hf, Ho'.
  split; [done|]. split; [done|]. apply Forall_forall. intros x [Hx _]%list_elem_of_In%filter_In. apply list_elem_of_In in Hx.
  rewrite Forall_forall in Hr. by apply Hr.
Qed.

(** While [k] is among the fork turns, no rollback reaches it. *)
Lemma shifted_step k idx rolls forks rolls' forks' previous (i : Entry) :
  k < idx -> shifted k rolls rolls' -> shifted k forks forks' -> k ∈ (fork_step (rolls, forks) previous idx i).2 ->
  shifted k (fork_step (rolls, forks) previous idx i).1 (fork_step (rolls', forks') previous (idx - k) i).1
  /\ shifted k (fork_step (rolls, forks) previous idx i).2 (fork_step (rolls', forks') previous (idx - k) i).2.
Proof using.
  intros Hlt Hr Hf. assert (Hadd : forall (b : bool) whole part, shifted k whole part ->
    shifted k (if b then whole ++ [idx] else whole) (if b then part ++ [idx - k] else part)).
  { intros [] whole part H; [|done]. replace idx with (k + (idx - k)) at 1 by lia. apply shifted_add; [lia|done]. }
  destruct i as [|item|c|trigger| | | |e]; cbn [fork_position_step]; try done;
    try (intros _; split; [first [by apply Hadd|by apply (Hadd true)]|by apply Hadd]).
  destruct e; try done. destruct (Nat.eqb_spec num_turns 0) as [->|Hn]; [done|].
  set (start := if num_turns <=? length rolls then _ else _). destruct start as [p|] eqn:Es; [|].
  2:{ (* a rollback of nothing: there is a turn at [k] *)
      exfalso. unfold start in Es. destruct Hr as (old & rest & -> & -> & _). destruct (Nat.leb_spec num_turns (length (old ++ (Nat.add k <$> 0 :: rest)))) as [Hle|Hle].
      - apply lookup_ge_None in Es. lia.
      - by destruct old. }
  cbn [snd]. intros [Hk Hkp%Nat.ltb_lt]%list_elem_of_In%filter_In.
  assert (Hidx : exists j, rolls !! j = Some p /\ (num_turns <= length rolls -> j = length rolls - num_turns) /\ (length rolls < num_turns -> j = 0)).
  { unfold start in Es. destruct (Nat.leb_spec num_turns (length rolls)) as [Hle|Hle].
    - exists (length rolls - num_turns). split; [done|]. split; lia.
    - exists 0. rewrite <- head_lookup. split; [done|]. split; lia. }
  destruct Hidx as (j & Hj & Hle & Hgt). destruct (shifted_at k rolls rolls' j p Hr Hj Hkp) as (old & Hlen & Hold & q & Hq & -> & Hq0).
  assert (Hnum : num_turns < length rolls') by (destruct (decide (num_turns <= length rolls)); [specialize (Hle l); lia|specialize (Hgt ltac:(lia)); lia]).
  rewrite (proj2 (Nat.leb_le num_turns (length rolls'))) by lia.
  replace (rolls' !! (length rolls' - num_turns)) with (Some q) by (rewrite <- Hq; f_equal; specialize (Hle ltac:(lia)); lia).
  split; cbn [fst snd]; [by apply shifted_take|by apply shifted_filter].
Qed.

Lemma shifted_run k idx rolls forks rolls' forks' previous (l : list Entry) :
  k < idx -> shifted k rolls rolls' -> shifted k forks forks' -> k ∈ (fork_from (rolls, forks) previous idx l).2 ->
  shifted k (fork_from (rolls, forks) previous idx l).2 (fork_from (rolls', forks') previous (idx - k) l).2.
Proof using.
  revert idx rolls forks rolls' forks' previous. induction l as [|i l IH]; intros idx rolls forks rolls' forks' previous Hlt Hr Hf Hk; [done|].
  cbn [fork_positions_from] in *. assert (Hk' : k ∈ (fork_step (rolls, forks) previous idx i).2).
  { destruct (fork_step (rolls, forks) previous idx i) as [r f]. apply (fork_from_forks _ _ _ _ _ _ Hk). lia. }
  destruct (shifted_step k idx rolls forks rolls' forks' previous i Hlt Hr Hf Hk') as [H1 H2].
  destruct (fork_step (rolls, forks) previous idx i) as [r f], (fork_step (rolls', forks') previous (idx - k) i) as [r' f'].
  replace (S (idx - k)) with (S idx - k) by lia. apply IH; [lia|done|done|done].
Qed.

Lemma fork_from_app positions previous idx (l1 l2 : list Entry) :
  fork_from positions previous idx (l1 ++ l2) =
  fork_from (fork_from positions previous idx l1) (match last l1 with Some i => Some i | None => previous end) (idx + length l1) l2.
Proof using.
  revert positions previous idx. induction l1 as [|i l1 IH]; intros positions previous idx; cbn [app fork_positions_from length]; [by rewrite Nat.add_0_r|].
  rewrite IH. replace (S idx + length l1) with (idx + S (length l1)) by lia. f_equal. rewrite last_cons. by destruct (last l1).
Qed.

(** The fork turns from a position on are those of the log from there. *)
Lemma fork_turns_from k (items : list Entry) : k ∈ fork_turn_positions_in_rollout hook_prompt_xml communication_from_json items ->
  shifted k (fork_turn_positions_in_rollout hook_prompt_xml communication_from_json items)
    (fork_turn_positions_in_rollout hook_prompt_xml communication_from_json (drop k items)).
Proof using.
  unfold fork_turn_positions_in_rollout. intros Hk.
  assert (Hlt : k < length items).
  { destruct (fork_from_bounded [] [] None 0 items) as [_ H]; [done|done|]. rewrite Forall_forall in H. by apply H. }
  destruct (lookup_lt_is_Some_2 items k Hlt) as [i Hi]. rewrite <- (take_drop_middle _ _ _ Hi) in Hk at 1 |- * at 1.
  rewrite (drop_S _ _ _ Hi). rewrite fork_from_app, length_take_le in Hk |- * by lia.
  destruct (fork_from_bounded [] [] None 0 (take k items)) as [Hr Hf]; [done|done|]. rewrite length_take_le in Hr, Hf by lia. cbn [Nat.add] in *.
  destruct (fork_from ([], []) None 0 (take k items)) as [r f]. cbn [fst snd] in Hr, Hf.
  set (previous := match last (take k items) with Some i => Some i | None => None end) in *. cbn [fork_positions_from] in Hk |- *.
  assert (Hout : k ∉ f). { intros H. rewrite Forall_forall in Hf. specialize (Hf k H). lia. }
  destruct (fork_step (r, f) previous k i) as [r' f'] eqn:E. assert (Hin : k ∈ f') by (apply (fork_from_forks _ _ _ _ _ _ Hk); lia).
  destruct (fork_turn_counts _ _ _ _ _ _ _ E Hin Hout) as (-> & -> & Hany). rewrite Hany. cbn [app].
  replace 1 with (S k - k) by lia. apply shifted_run; [lia| | |done].
  - exists r, []. cbn. rewrite Nat.add_0_r. by repeat constructor.
  - exists f, []. cbn. rewrite Nat.add_0_r. by repeat constructor.
Qed.


End Facts.
End RolloutFacts.
