(* ===== verification/Reconstruction.v ===== *)
(** The reconstruction of a conversation from its log
    (core/src/session/rollout_reconstruction.rs): a scan from the newest entry
    to the oldest that stops once it has found a history to start from and the
    settings of the last turn, and a replay of the rest. *)

From stdpp Require Import base list option numbers strings gmap.
From S2P Require Import Prelude Machine RustStr Truncate ResponseItems Normalize ContextFragments History WorldState ThreadItems ThreadHistory Rollout.

Module Reconstruction.
Import History WorldState ThreadItems ThreadHistory Rollout.
Open Scope rust_scope.

Record PreviousTurnSettings := mkTurnSettings { model : str; comp_hash : option str; realtime_active : option bool }.

Section Scan.
Context {Cr : Carried} {TurnContextRest Uuid : Type}.
Context (hook_prompt_xml : str -> option (str * str)) (communication_from_json : str -> option InterAgentCommunication).
(** [Uuid::parse_str] with version 7. *)
Context (parse_uuid_v7 : str -> option Uuid).

Notation Entry := (@LogItem Cr TurnContextRest).
Notation TurnContext := (@TurnContextItem TurnContextRest).
Notation Manager := (@ContextManager Json TurnContext WorldStateSnapshot).

Record ReconstructedWindow := mkWindow { number : N; first_id : option Uuid; previous_id : option Uuid; window_id : option Uuid }.

Inductive TurnReferenceContextItem := NeverSet | Cleared | Latest (item : TurnContext).

Record ActiveReplaySegment := mkSegment {
  seg_turn_id : option str;
  counts_as_user_turn : bool;
  seg_previous_turn_settings : option PreviousTurnSettings;
  seg_reference_context_item : TurnReferenceContextItem;
  seg_world_state_replay : list Entry;
  seg_base_replacement_history : option (list (ResponseItem Json));
  seg_window : option ReconstructedWindow;
}.

Definition segment_default : ActiveReplaySegment := mkSegment None false None NeverSet [] None None.

(** The variables of the loop. *)
Record ReplayScan := mkScan {
  base_replacement_history : option (list (ResponseItem Json));
  previous_turn_settings : option PreviousTurnSettings;
  reference_context : TurnReferenceContextItem;
  world_state_replay : list Entry;
  window : option ReconstructedWindow;
  pending_rollback_turns : nat;
  rollout_suffix : list Entry;
  active_segment : option ActiveReplaySegment;
}.

Definition turn_ids_are_compatible (active_turn_id item_turn_id : option str) : bool :=
  match active_turn_id, item_turn_id with Some a, Some i => i == a | _, _ => true end.

Definition is_never_set (r : TurnReferenceContextItem) : bool := match r with NeverSet => true | _ => false end.
Definition is_cleared (r : TurnReferenceContextItem) : bool := match r with Cleared => true | _ => false end.

(** [None] keeps what is there. *)
Definition or_else {A} (a b : option A) : option A := match a with Some _ => a | None => b end.

Definition finalize_active_segment (seg : ActiveReplaySegment) (s : ReplayScan) : ReplayScan :=
  if 0 <? pending_rollback_turns s then
    mkScan (base_replacement_history s) (previous_turn_settings s) (reference_context s) (world_state_replay s) (window s)
      (if counts_as_user_turn seg then pending_rollback_turns s - 1 else pending_rollback_turns s) (rollout_suffix s) None
  else
    mkScan (or_else (base_replacement_history s) (seg_base_replacement_history seg))
      (if is_some (previous_turn_settings s) then previous_turn_settings s
       else if counts_as_user_turn seg then seg_previous_turn_settings seg else None)
      (if is_never_set (reference_context s) && (counts_as_user_turn seg || is_cleared (seg_reference_context_item seg))
       then seg_reference_context_item seg else reference_context s)
      (world_state_replay s ++ seg_world_state_replay seg)
      (or_else (window s) (seg_window seg))
      (pending_rollback_turns s) (rollout_suffix s) None.

Definition with_active (s : ReplayScan) (seg : option ActiveReplaySegment) : ReplayScan :=
  mkScan (base_replacement_history s) (previous_turn_settings s) (reference_context s) (world_state_replay s) (window s)
    (pending_rollback_turns s) (rollout_suffix s) seg.

Definition with_suffix (s : ReplayScan) (l : list Entry) : ReplayScan :=
  mkScan (base_replacement_history s) (previous_turn_settings s) (reference_context s) (world_state_replay s) (window s)
    (pending_rollback_turns s) l (active_segment s).

(** The segment, created if there is none. *)
Definition segment_of (s : ReplayScan) : ActiveReplaySegment := default segment_default (active_segment s).

Definition compacted_window (c : CompactedItem) : option ReconstructedWindow :=
  option_map (fun n => mkWindow n (compacted_first_window_id c ≫= parse_uuid_v7) (compacted_previous_window_id c ≫= parse_uuid_v7)
                         (compacted_window_id c ≫= parse_uuid_v7)) (compacted_window_number c).

Definition scan_compacted (c : CompactedItem) (newer : list Entry) (s : ReplayScan) : ReplayScan :=
  let seg := segment_of s in
  let takes := negb (is_some (seg_base_replacement_history seg)) && is_some (replacement_history c) in
  let seg' := mkSegment (seg_turn_id seg) (counts_as_user_turn seg) (seg_previous_turn_settings seg)
                (if is_never_set (seg_reference_context_item seg) then Cleared else seg_reference_context_item seg)
                (seg_world_state_replay seg ++ [LogCompacted c])
                (or_else (seg_base_replacement_history seg) (replacement_history c))
                (or_else (seg_window seg) (compacted_window c)) in
  with_active (if takes then with_suffix s newer else s) (Some seg').

Definition with_turn_id (seg : ActiveReplaySegment) (id : option str) : ActiveReplaySegment :=
  mkSegment id (counts_as_user_turn seg) (seg_previous_turn_settings seg) (seg_reference_context_item seg)
    (seg_world_state_replay seg) (seg_base_replacement_history seg) (seg_window seg).

Definition with_counts (seg : ActiveReplaySegment) (counts : bool) : ActiveReplaySegment :=
  mkSegment (seg_turn_id seg) counts (seg_previous_turn_settings seg) (seg_reference_context_item seg)
    (seg_world_state_replay seg) (seg_base_replacement_history seg) (seg_window seg).

Definition scan_turn_context (ctx : TurnContext) (seg : ActiveReplaySegment) : ActiveReplaySegment :=
  let seg := with_turn_id seg (or_else (seg_turn_id seg) (ctx_turn_id ctx)) in
  if turn_ids_are_compatible (seg_turn_id seg) (ctx_turn_id ctx) then
    mkSegment (seg_turn_id seg) (counts_as_user_turn seg)
      (Some (mkTurnSettings (ctx_model ctx) (ctx_comp_hash ctx) (ctx_realtime_active ctx)))
      (if is_never_set (seg_reference_context_item seg) then Latest ctx else seg_reference_context_item seg)
      (seg_world_state_replay seg) (seg_base_replacement_history seg) (seg_window seg)
  else seg.

(** One entry; [newer] are the entries after it. *)
Definition scan_item (item : Entry) (newer : list Entry) (s : ReplayScan) : ReplayScan :=
  match item with
  | LogCompacted c => scan_compacted c newer s
  | LogEvent (EvThreadRolledBack num_turns) =>
      mkScan (base_replacement_history s) (previous_turn_settings s) (reference_context s) (world_state_replay s) (window s)
        (pending_rollback_turns s + num_turns) (rollout_suffix s) (active_segment s)
  | LogEvent (EvTurnComplete turn_id _ _) =>
      let seg := segment_of s in with_active s (Some (with_turn_id seg (or_else (seg_turn_id seg) (Some turn_id))))
  | LogEvent (EvTurnAborted turn_id _ _) =>
      match active_segment s with
      | Some seg => with_active s (Some (with_turn_id seg (or_else (seg_turn_id seg) turn_id)))
      | None => match turn_id with
                | Some id => with_active s (Some (with_turn_id segment_default (Some id)))
                | None => s
                end
      end
  | LogEvent (EvUserMessage _) => with_active s (Some (with_counts (segment_of s) true))
  | LogTurnContext ctx => with_active s (Some (scan_turn_context ctx (segment_of s)))
  | LogWorldState _ =>
      let seg := segment_of s in
      with_active s (Some (mkSegment (seg_turn_id seg) (counts_as_user_turn seg) (seg_previous_turn_settings seg)
        (seg_reference_context_item seg) (seg_world_state_replay seg ++ [item]) (seg_base_replacement_history seg) (seg_window seg)))
  | LogEvent (EvTurnStarted turn_id _) =>
      match active_segment s with
      | Some seg => if turn_ids_are_compatible (seg_turn_id seg) (Some turn_id) then finalize_active_segment seg s else s
      | None => s
      end
  | LogResponse response_item =>
      let seg := segment_of s in
      with_active s (Some (with_counts seg (counts_as_user_turn seg || is_boundary hook_prompt_xml communication_from_json response_item)))
  | LogCommunication _ => with_active s (Some (with_counts (segment_of s) true))
  | LogEvent _ | SessionMeta _ | LogCommunicationMetadata _ => s
  end.

(** The condition to stop. *)
Definition found_all (s : ReplayScan) : bool :=
  is_some (base_replacement_history s) && is_some (previous_turn_settings s) && negb (is_never_set (reference_context s)).

Definition scan_start (rollout_items : list Entry) : ReplayScan := mkScan None None NeverSet [] None 0 rollout_items None.

(** The loop over the last entries [items] of the log, from the end; with [stops] it may end early. *)
Fixpoint scan (stops : bool) (rollout_items items : list Entry) : ReplayScan :=
  match items with
  | [] => scan_start rollout_items
  | item :: newer =>
      let s := scan stops rollout_items newer in
      if stops && found_all s then s else scan_item item newer s
  end.

(** The segment that is left at the end. *)
Definition scan_finish (s : ReplayScan) : ReplayScan :=
  match active_segment s with Some seg => finalize_active_segment seg s | None => s end.

Definition scanned (stops : bool) (rollout_items : list Entry) : ReplayScan := scan_finish (scan stops rollout_items rollout_items).

(** ** Replay *)

Definition replay_item (policy : Truncate.TruncationPolicy) (history : Manager) (item : Entry) : option Manager :=
  match item with
  | LogResponse response_item => record_items history [response_item] policy
  | LogCommunication c => record_items history [to_model_input_item c] policy
  | LogCompacted c =>
      match replacement_history c with
      | Some replacement => Some (replace history replacement)
      | None =>
          let user_messages := collect_user_messages hook_prompt_xml (items history) in
          rebuilt ← build_compacted_history [] user_messages (compacted_message c);
          Some (replace history rebuilt)
      end
  | LogEvent (EvThreadRolledBack num_turns) =>
      drop_last_n_user_turns hook_prompt_xml (fun text => is_some (communication_from_json text)) history num_turns
  | _ => Some history
  end.

Fixpoint replay (policy : Truncate.TruncationPolicy) (history : Manager) (l : list Entry) : option Manager :=
  match l with
  | [] => Some history
  | item :: l => history ← replay_item policy history item; replay policy history l
  end.

Definition is_compacted (item : Entry) : bool := match item with LogCompacted _ => true | _ => false end.
Definition is_legacy_compaction (item : Entry) : bool :=
  match item with LogCompacted c => negb (is_some (replacement_history c)) | _ => false end.

(** *** The baseline of the world state *)

Definition replay_world_item (baseline : option WorldStateSnapshot) (item : Entry) : option WorldStateSnapshot :=
  match item with
  | LogCompacted _ => None
  | LogWorldState state =>
      if full state then snapshot_from_value (item_state state)
      else match baseline with Some b => apply_merge_patch b (item_state state) | None => None end
  | _ => baseline
  end.

(** Collected newest first. *)
Definition replay_world (world : list Entry) : option WorldStateSnapshot := fold_left replay_world_item (reverse world) None.

(** *** The result *)

Record RolloutReconstruction := mkReconstruction {
  rec_history : list (ResponseItem Json);
  rec_previous_turn_settings : option PreviousTurnSettings;
  rec_reference_context_item : option TurnContext;
  rec_world_state_baseline : option WorldStateSnapshot;
  rec_window : ReconstructedWindow;
}.

Definition reconstructed_window_from_session_context_window (id : str) : option ReconstructedWindow :=
  option_map (fun id => mkWindow 0 (Some id) None (Some id)) (parse_uuid_v7 id).

Definition lacks_window_number (item : Entry) : bool :=
  match item with LogCompacted c => negb (is_some (compacted_window_number c)) | _ => false end.

Definition initial_window (rollout_items : list Entry) : option ReconstructedWindow :=
  if existsb lacks_window_number rollout_items then None
  else head (omap (fun item => match item with
                               | SessionMeta context_window => context_window ≫= reconstructed_window_from_session_context_window
                               | _ => None
                               end) rollout_items).

Definition reconstructed_window (s : ReplayScan) (rollout_items : list Entry) : ReconstructedWindow :=
  default (mkWindow (N.of_nat (length (List.filter is_compacted rollout_items))) None None None)
    (or_else (window s) (initial_window rollout_items)).

(** The history a replay starts from. *)
Definition base_history (s : ReplayScan) : Manager :=
  match base_replacement_history s with Some base => replace new base | None => new end.

Definition reconstruct_with (stops : bool) (policy : Truncate.TruncationPolicy) (rollout_items : list Entry) : option RolloutReconstruction :=
  let s := scanned stops rollout_items in
  history ← replay policy (base_history s) (rollout_suffix s);
  let reference := match reference_context s with Latest item => Some item | _ => None end in
  Some (mkReconstruction (items history) (previous_turn_settings s)
    (if existsb is_legacy_compaction (rollout_suffix s) then None else reference)
    (replay_world (world_state_replay s)) (reconstructed_window s rollout_items)).

Definition reconstruct_history_from_rollout : Truncate.TruncationPolicy -> list Entry -> option RolloutReconstruction := reconstruct_with true.

End Scan.
End Reconstruction.
