(* ===== verification/ReconstructionFacts.v ===== *)
(** Theorems on the reconstruction of a conversation: the scan from the newest
    entry, which stops early, gives what a replay of the whole log gives. *)

From stdpp Require Import base list option numbers strings gmap.
From S2P Require Import Prelude Machine RustStr Truncate ResponseItems Normalize ContextFragments History HistoryFacts WorldState ThreadItems ThreadHistory Rollout Reconstruction.

Module ReconstructionFacts.
Import History WorldState ThreadItems ThreadHistory Rollout Reconstruction.
Open Scope rust_scope.

Section Facts.
Context {Cr : Carried} {TurnContextRest Uuid : Type}.
Context (hook_prompt_xml : str -> option (str * str)) (communication_from_json : str -> option InterAgentCommunication).
Context (parse_uuid_v7 : str -> option Uuid).

Notation Entry := (@LogItem Cr TurnContextRest).
Notation TurnContext := (@TurnContextItem TurnContextRest).
Notation Manager := (@ContextManager Json TurnContext WorldStateSnapshot).
Notation Scan := (@ReplayScan Cr TurnContextRest Uuid).
Notation step := (scan_item hook_prompt_xml communication_from_json parse_uuid_v7).
Notation scan := (scan hook_prompt_xml communication_from_json parse_uuid_v7).
Notation scanned := (scanned hook_prompt_xml communication_from_json parse_uuid_v7).
Notation replay := (replay hook_prompt_xml communication_from_json).
Notation replay_item := (replay_item hook_prompt_xml communication_from_json).
Notation is_instruction := (fun text => is_some (communication_from_json text)).

(** ** Replay depends on the items only *)

Lemma trim_reference (snapshot : list (ResponseItem Json)) first (r r' : option TurnContext) cut :
  option_map snd (trim_pre_turn_context_updates hook_prompt_xml snapshot first r cut)
  = option_map snd (trim_pre_turn_context_updates hook_prompt_xml snapshot first r' cut).
Proof using.
  revert r r'. induction cut as [|cut IH]; intros r r'; [done|]. cbn [trim_pre_turn_context_updates].
  destruct (first <? S cut); [|done]. destruct (snapshot !! cut) as [item|]; [|done]. cbn. destruct item; try done. by repeat case_match.
Qed.

Lemma drop_last_items (m m' : Manager) n : items m = items m' ->
  option_map items (drop_last_n_user_turns hook_prompt_xml is_instruction m n)
  = option_map items (drop_last_n_user_turns hook_prompt_xml is_instruction m' n).
Proof using.
  intros H. unfold drop_last_n_user_turns. rewrite H. destruct (n =? 0); [by cbn; rewrite H|].
  destruct (user_message_positions _ _ (items m')) as [|first ps]; [done|]. cbn [mbind option_bind].
  destruct (if _ <=? n then _ else _) as [cut|]; [|done]. cbn [mbind option_bind].
  assert (E := trim_reference (items m') first (reference_context_item m) (reference_context_item m') cut).
  destruct (trim_pre_turn_context_updates _ _ _ (reference_context_item m) _) as [[r c]|],
    (trim_pre_turn_context_updates _ _ _ (reference_context_item m') _) as [[r' c']|]; cbn in E |- *; congruence.
Qed.

Lemma record_items_items (m m' : Manager) l policy : items m = items m' ->
  option_map items (record_items m l policy) = option_map items (record_items m' l policy).
Proof using.
  revert m m'. induction l as [|i l IH]; intros m m' H; cbn [record_items]; [by cbn; rewrite H|].
  destruct (negb (is_api_message i)); [by apply IH|]. destruct (process_item i policy); [|done]. cbn. apply IH. cbn. by rewrite H.
Qed.

Lemma replay_item_items policy (m m' : Manager) i : items m = items m' ->
  option_map items (replay_item policy m i) = option_map items (replay_item policy m' i).
Proof using.
  intros H. destruct i as [|item|c| |c|ctx|w|e]; cbn [Reconstruction.replay_item]; try (by cbn; rewrite H).
  - by apply record_items_items.
  - destruct (replacement_history c); [done|]. rewrite H. by destruct (build_compacted_history _ _ _).
  - destruct e; try (by cbn; rewrite H). by apply drop_last_items.
Qed.

Lemma replay_items policy (m m' : Manager) l : items m = items m' ->
  option_map items (replay policy m l) = option_map items (replay policy m' l).
Proof using.
  revert m m'. induction l as [|i l IH]; intros m m' H; cbn [Reconstruction.replay]; [by cbn; rewrite H|].
  assert (E := replay_item_items policy m m' i H).
  destruct (replay_item policy m i), (replay_item policy m' i); cbn in E |- *; [|done|done|done]. apply IH. congruence.
Qed.

Lemma replay_app policy (m : Manager) l l' : replay policy m (l ++ l') = replay policy m l ≫= (fun m => replay policy m l').
Proof using.
  revert m. induction l as [|i l IH]; intros m; [done|]. cbn [app Reconstruction.replay].
  destruct (replay_item policy m i); [|done]. cbn. apply IH.
Qed.

(** Whether an entry can be replayed does not depend on the history, but for old compactions. *)
Lemma drop_last_total (m : Manager) n : is_Some (drop_last_n_user_turns hook_prompt_xml is_instruction m n).
Proof using.
  unfold drop_last_n_user_turns. destruct (Nat.eqb_spec n 0); [done|].
  destruct (user_message_positions _ _ (items m)) as [|first ps] eqn:E; [done|]. cbn [mbind option_bind].
  assert (Hcut : exists j p, (if length (first :: ps) <=? n then Some first else (first :: ps) !! (length (first :: ps) - n)) = Some p
    /\ (first :: ps) !! j = Some p).
  { destruct (Nat.leb_spec (length (first :: ps)) n); [by exists 0, first|].
    destruct (lookup_lt_is_Some_2 (first :: ps) (length (first :: ps) - n)) as [p Hp]; [cbn [length] in *; lia|]. eauto. }
  destruct Hcut as (j & p & -> & Hp). cbn [mbind option_bind]. rewrite <- E in Hp.
  apply HistoryFacts.positions_lookup in Hp as (l1 & i & l2 & Hl & -> & _).
  destruct (HistoryFacts.trim_spec hook_prompt_xml (items m) first (reference_context_item m) (0 + length l1)) as (r' & c' & ctx & -> & _).
  { rewrite Hl, length_app. lia. }
  done.
Qed.

Definition legacy_free (l : list Entry) : bool := negb (existsb is_legacy_compaction l).

Lemma legacy_free_cons i l : legacy_free (i :: l) = true <-> is_legacy_compaction i = false /\ legacy_free l = true.
Proof using. unfold legacy_free. cbn. rewrite negb_orb, andb_true_iff. by rewrite negb_true_iff. Qed.

Lemma replay_item_any policy (m m' : Manager) i : is_legacy_compaction i = false ->
  is_Some (replay_item policy m i) -> is_Some (replay_item policy m' i).
Proof using.
  intros Hl. destruct i as [|item|c| |c|ctx|w|e]; cbn [Reconstruction.replay_item record_items]; try done.
  - destruct (negb (is_api_message item)); [done|]. by destruct (process_item item policy).
  - cbn in Hl. by destruct (replacement_history c).
  - destruct e; try done. intros _. apply drop_last_total.
Qed.

Lemma replay_any policy (m m' : Manager) l : legacy_free l = true -> is_Some (replay policy m l) -> is_Some (replay policy m' l).
Proof using.
  revert m m'. induction l as [|i l IH]; intros m m' Hl; [done|]. apply legacy_free_cons in Hl as [Hi Hl]. cbn [Reconstruction.replay].
  destruct (replay_item policy m i) as [m1|] eqn:E; [|by intros []]. cbn. intros H.
  destruct (replay_item_any policy m m' i Hi) as [m1' ->]; [by rewrite E|]. cbn. by apply (IH m1).
Qed.

(** ** The scan *)

#[local] Arguments segment_of : simpl never.

Definition is_checkpoint (i : Entry) : bool := match i with LogCompacted c => is_some (replacement_history c) | _ => false end.

(** The suffix starts right after a compaction of [l] that left [r], or before it. *)
Definition leads (l suffix : list Entry) (r : list (ResponseItem Json)) : Prop :=
  exists c l1 l2, replacement_history c = Some r /\ l = l1 ++ LogCompacted c :: l2
    /\ (suffix = l2 \/ exists l3, suffix = l3 ++ LogCompacted c :: l2).

Record scan_ok (log l : list Entry) (s : Scan) : Prop := mkScanOk {
  ok_suffix : exists p, log = p ++ rollout_suffix s;
  ok_base r : base_replacement_history s = Some r -> leads l (rollout_suffix s) r;
  ok_active seg r : active_segment s = Some seg -> seg_base_replacement_history seg = Some r -> leads l (rollout_suffix s) r;
  ok_none : existsb is_checkpoint l = false -> rollout_suffix s = log;
}.

Lemma leads_cons i l suffix r : leads l suffix r -> leads (i :: l) suffix r.
Proof using. intros (c & l1 & l2 & Hc & -> & H). exists c, (i :: l1), l2. eauto. Qed.

Lemma leads_whole l suffix r : leads l suffix r -> leads l l r.
Proof using. intros (c & l1 & l2 & Hc & -> & _). exists c, l1, l2. eauto. Qed.

(** An entry that is no checkpoint, and that leaves the base and the suffix. *)
Lemma scan_ok_other log i l (s s' : Scan) : scan_ok log l s ->
  rollout_suffix s' = rollout_suffix s -> base_replacement_history s' = base_replacement_history s ->
  (forall seg' r, active_segment s' = Some seg' -> seg_base_replacement_history seg' = Some r ->
     exists seg, active_segment s = Some seg /\ seg_base_replacement_history seg = Some r) ->
  scan_ok log (i :: l) s'.
Proof using.
  intros [H1 H2 H3 H4] Es Eb Ea. split; rewrite ?Es, ?Eb; [done| | |].
  - intros r Hr. by apply leads_cons, H2.
  - intros seg r Hseg Hr. destruct (Ea seg r Hseg Hr) as (seg0 & ? & ?). by eapply leads_cons, H3.
  - cbn. intros [_ H]%orb_false_iff. by apply H4.
Qed.

Lemma finalize_ok log i l (s : Scan) seg : scan_ok log l s -> active_segment s = Some seg ->
  scan_ok log (i :: l) (finalize_active_segment seg s).
Proof using.
  intros [H1 H2 H3 H4] Hseg. unfold finalize_active_segment. destruct (0 <? pending_rollback_turns s); (split; cbn; [done| |done|]).
  - intros r Hr. by apply leads_cons, H2.
  - intros [_ H]%orb_false_iff. by apply H4.
  - intros r Hr. apply leads_cons. unfold or_else in Hr. destruct (base_replacement_history s) eqn:Eb; [apply H2; congruence|by eapply H3].
  - intros [_ H]%orb_false_iff. by apply H4.
Qed.

Lemma segment_of_base (s : Scan) r : seg_base_replacement_history (segment_of s) = Some r ->
  exists seg, active_segment s = Some seg /\ seg_base_replacement_history seg = Some r.
Proof using. unfold segment_of. destruct (active_segment s) as [seg|]; [|done]. cbn. eauto. Qed.

Lemma scan_compacted_ok log pre c l (s : Scan) : log = pre ++ LogCompacted c :: l -> scan_ok log l s ->
  scan_ok log (LogCompacted c :: l) (scan_compacted parse_uuid_v7 c l s).
Proof using.
  intros Hlog Hs. assert (Hs' := Hs). destruct Hs as [H1 H2 H3 H4]. unfold scan_compacted.
  destruct (seg_base_replacement_history (segment_of s)) as [r0|] eqn:Eseg; cbn [is_some negb andb].
  - apply (scan_ok_other _ _ _ s); [done|done|done|]. cbn. intros seg' r [= <-]. cbn. intros [= <-]. by apply segment_of_base.
  - destruct (replacement_history c) as [r0|] eqn:Er; cbn [is_some].
    + split; cbn.
      * exists (pre ++ [LogCompacted c]). by rewrite <- app_assoc.
      * intros r Hr. eapply leads_cons, leads_whole. by apply H2.
      * intros seg r [= <-]. cbn. intros [= <-]. exists c, [], l. by auto.
      * by rewrite Er.
    + apply (scan_ok_other _ _ _ s); [done|done|done|]. cbn. by intros seg' r [= <-].
Qed.

Lemma scan_item_ok log pre i l (s : Scan) : log = pre ++ i :: l -> scan_ok log l s -> scan_ok log (i :: l) (step i l s).
Proof using.
  intros Hlog Hs. assert (Hsame : scan_ok log (i :: l) s) by (apply (scan_ok_other _ _ _ s); eauto).
  destruct i as [|item|c| |c|ctx|w|e]; cbn [scan_item]; try done; try (by eapply scan_compacted_ok);
    try (apply (scan_ok_other _ _ _ s); [done|done|done|]; cbn; intros seg' r [= <-]; apply segment_of_base).
  - apply (scan_ok_other _ _ _ s); [done|done|done|]. cbn. intros seg' r [= <-]. unfold scan_turn_context. case_match; apply segment_of_base.
  - destruct e; try done.
    + apply (scan_ok_other _ _ _ s); [done|done|done|]. cbn. intros seg' r [= <-]. apply segment_of_base.
    + apply (scan_ok_other _ _ _ s); [done|done|done|]. cbn. eauto.
    + destruct (active_segment s) as [seg|] eqn:E; [|case_match; [|done]];
        (apply (scan_ok_other _ _ _ s); [done|done|done|]); cbn; intros seg' r [= <-]; [|done]. cbn. eauto.
    + destruct (active_segment s) as [seg|] eqn:E; [|done]. case_match; [by apply finalize_ok|done].
    + apply (scan_ok_other _ _ _ s); [done|done|done|]. cbn. intros seg' r [= <-]. apply segment_of_base.
Qed.

Lemma scan_ok_all stops log pre l : log = pre ++ l -> scan_ok log l (scan stops log l).
Proof using.
  revert pre. induction l as [|i l IH]; intros pre Hlog; cbn [Reconstruction.scan].
  - split; cbn; [by exists []|done|done|done].
  - assert (Hs : scan_ok log l (scan stops log l)) by (apply (IH (pre ++ [i])); by rewrite <- app_assoc).
    case_match; [|by eapply scan_item_ok]. apply (scan_ok_other _ _ _ (scan stops log l)); eauto.
Qed.

(** ** The history *)

Lemma scan_finish_fields (s : Scan) : rollout_suffix (scan_finish s) = rollout_suffix s.
Proof using. unfold scan_finish, finalize_active_segment. destruct (active_segment s); [|done]. by case_match. Qed.

Lemma scanned_base stops log r : base_replacement_history (scanned stops log) = Some r ->
  leads log (rollout_suffix (scanned stops log)) r /\ exists p, log = p ++ rollout_suffix (scanned stops log).
Proof using.
  assert (Hs := scan_ok_all stops log [] log eq_refl). unfold Reconstruction.scanned. rewrite scan_finish_fields. intros Hr.
  split; [|by apply Hs]. destruct Hs as [_ H2 H3 _]. unfold scan_finish in Hr.
  destruct (active_segment (scan stops log log)) as [seg|] eqn:E; [|by apply H2].
  unfold finalize_active_segment in Hr. case_match; cbn in Hr; [by apply H2|]. unfold or_else in Hr.
  destruct (base_replacement_history (scan stops log log)) eqn:Eb; [apply H2; congruence|by eapply H3].
Qed.

(** The compaction that a scan would start from is not one that was rolled back. *)
Definition checkpoint_survives (stops : bool) (log : list Entry) : bool :=
  negb (existsb is_checkpoint log) || is_some (base_replacement_history (scanned stops log)).

Lemma replayed_suffix stops policy log (m : Manager) :
  legacy_free log = true -> checkpoint_survives stops log = true -> replay policy new log = Some m ->
  exists m', replay policy (base_history (scanned stops log)) (rollout_suffix (scanned stops log)) = Some m' /\ items m' = items m.
Proof using.
  intros Hlf Hsurv Hm. unfold base_history. destruct (base_replacement_history (scanned stops log)) as [r|] eqn:Er.
  - destruct (scanned_base _ _ _ Er) as [(c & l1 & l2 & Hc & Hlog & Hsuf) [p Hp]].
    assert (Hcut : forall (m1 : Manager), exists m', replay policy (replace m1 r) l2 = Some m' /\ items m' = items m).
    { intros m1. rewrite Hlog, replay_app in Hm. destruct (replay policy new l1) as [m2|]; [|done].
      cbn [mbind option_bind Reconstruction.replay Reconstruction.replay_item] in Hm. rewrite Hc in Hm. cbn in Hm.
      assert (E := replay_items policy (replace m1 r) (replace m2 r) l2 eq_refl). rewrite Hm in E.
      destruct (replay policy (replace m1 r) l2) as [m'|]; [|done]. exists m'. cbn in E. split; [done|congruence]. }
    destruct Hsuf as [->|[l3 Hsuf]]; [apply Hcut|]. rewrite Hsuf, replay_app.
    rewrite Hsuf in Hp. rewrite Hp in Hm, Hlf. rewrite replay_app in Hm. destruct (replay policy new p) as [m2|]; [|done].
    cbn [mbind option_bind] in Hm. rewrite replay_app in Hm.
    assert (Hl3 : legacy_free l3 = true).
    { unfold legacy_free in *. rewrite !existsb_app in Hlf. by destruct (existsb is_legacy_compaction p), (existsb is_legacy_compaction l3). }
    destruct (replay_any policy m2 (replace new r) l3 Hl3) as [m3 ->]; [by destruct (replay policy m2 l3)|].
    cbn [mbind option_bind Reconstruction.replay Reconstruction.replay_item]. rewrite Hc. apply Hcut.
  - assert (Hnone : existsb is_checkpoint log = false).
    { unfold checkpoint_survives in Hsurv. rewrite Er in Hsurv. by destruct (existsb is_checkpoint log). }
    exists m. split; [|done]. unfold Reconstruction.scanned. rewrite scan_finish_fields.
    by rewrite (ok_none _ _ _ (scan_ok_all stops log [] log eq_refl) Hnone).
Qed.

(** Without rollbacks every checkpoint survives. *)
Definition is_rollback (i : Entry) : bool := match i with LogEvent (EvThreadRolledBack _) => true | _ => false end.

Definition base_or_active (s : Scan) : bool :=
  is_some (base_replacement_history s) || is_some (seg_base_replacement_history (segment_of s)).

Lemma segment_of_active (s : Scan) seg : segment_of (with_active s (Some seg)) = seg.
Proof using. done. Qed.

Lemma scan_item_base i l (s : Scan) : is_rollback i = false -> pending_rollback_turns s = 0 ->
  pending_rollback_turns (step i l s) = 0 /\ (is_checkpoint i || base_or_active s = true -> base_or_active (step i l s) = true).
Proof using.
  intros Hi Hp. unfold base_or_active.
  destruct i as [|item|c| |c|ctx|w|e]; cbn [scan_item is_checkpoint orb]; try (by split).
  - unfold scan_compacted, or_else. split; [by case_match|]. intros H.
    rewrite segment_of_active. cbn [seg_base_replacement_history]. destruct (seg_base_replacement_history (segment_of s)) as [r|]; cbn; [by rewrite orb_true_r|].
    rewrite orb_false_r in H. destruct (replacement_history c); cbn; [by rewrite orb_true_r|]. by rewrite orb_false_r.
  - split; [done|]. rewrite segment_of_active. unfold scan_turn_context. by case_match.
  - destruct e; cbn [is_rollback] in Hi; try (by split).
    + destruct (active_segment s) as [seg|] eqn:E; [|case_match; [|done]]; (split; [done|]); unfold segment_of; by rewrite E.
    + destruct (active_segment s) as [seg|] eqn:E; [|done]. case_match; [|done]. unfold finalize_active_segment. rewrite Hp. cbn.
      split; [done|]. unfold segment_of. rewrite E. cbn. unfold or_else. by destruct (base_replacement_history s), (seg_base_replacement_history seg).
Qed.

Lemma no_rollback_scan stops log l : existsb is_rollback l = false ->
  pending_rollback_turns (scan stops log l) = 0 /\ (existsb is_checkpoint l = true -> base_or_active (scan stops log l) = true).
Proof using.
  induction l as [|i l IH]; intros Hr; [done|]. cbn [existsb] in Hr. apply orb_false_iff in Hr as [Hi Hr]. destruct (IH Hr) as [Hp Hb]. clear IH.
  cbn [Reconstruction.scan existsb]. set (s := scan stops log l) in *. destruct (stops && found_all s) eqn:Ef.
  { split; [done|]. intros _. apply andb_true_iff in Ef as [_ Ef]. unfold found_all in Ef. unfold base_or_active.
    by destruct (base_replacement_history s). }
  destruct (scan_item_base i l s Hi Hp) as [Hp' Hb']. split; [done|]. intros H. apply Hb'. destruct (is_checkpoint i); [done|]. by apply Hb.
Qed.

Lemma no_rollback_survives stops log : existsb is_rollback log = false -> checkpoint_survives stops log = true.
Proof using.
  intros Hr. unfold checkpoint_survives. destruct (existsb is_checkpoint log) eqn:Ec; [|done]. cbn.
  destruct (no_rollback_scan stops log log Hr) as [Hp Hb]. specialize (Hb Ec). unfold Reconstruction.scanned, scan_finish.
  set (s := scan stops log log) in *. unfold base_or_active, segment_of in Hb.
  destruct (active_segment s) as [seg|]; [|by rewrite orb_false_r in Hb]. cbn in Hb. unfold finalize_active_segment, or_else. rewrite Hp. cbn.
  by destruct (base_replacement_history s), (seg_base_replacement_history seg).
Qed.

(** ** Stopping early *)

(** [s'] went on where [s] stopped. *)
Record goes_on (s s' : Scan) : Prop := mkGoesOn {
  on_found : found_all s = true;
  on_idle : active_segment s = None;
  on_base : base_replacement_history s' = base_replacement_history s;
  on_settings : previous_turn_settings s' = previous_turn_settings s;
  on_reference : reference_context s' = reference_context s;
  on_world : exists older, world_state_replay s' = world_state_replay s ++ older;
}.

Lemma finalize_goes_on (s s' : Scan) seg : goes_on s s' -> goes_on s (finalize_active_segment seg s').
Proof using.
  intros [Hf Hi Hb Hs Hr [older Hw]]. unfold finalize_active_segment. destruct (0 <? pending_rollback_turns s'); [split; eauto|].
  unfold found_all in Hf. apply andb_true_iff in Hf as [[Hf1 Hf2]%andb_true_iff Hf3]. apply negb_true_iff in Hf3.
  split; cbn; [unfold found_all; by rewrite Hf1, Hf2, Hf3|done| | | |].
  - rewrite Hb. unfold or_else. by destruct (base_replacement_history s).
  - by rewrite Hs, Hf2.
  - by rewrite Hr, Hf3.
  - exists (older ++ seg_world_state_replay seg). by rewrite Hw, app_assoc.
Qed.

Lemma scan_item_goes_on i l (s s' : Scan) : goes_on s s' -> goes_on s (step i l s').
Proof using.
  intros H. assert (H' := H). destruct H' as [Hf Hi Hb Hs Hr Hw]. destruct i as [|item|c| |c|ctx|w|e]; cbn [scan_item]; try (by split).
  - unfold scan_compacted. case_match; by split.
  - destruct e; try (by split).
    + destruct (active_segment s'); [by split|]. case_match; [by split|done].
    + destruct (active_segment s'); [|done]. case_match; [by apply finalize_goes_on|done].
Qed.

Lemma found_finalized i l (s : Scan) : found_all s = false -> found_all (step i l s) = true -> active_segment (step i l s) = None.
Proof using.
  intros Hn. assert (Hne : forall s' : Scan, found_all s' = found_all s -> found_all s' = true -> active_segment s' = None)
    by (intros s' E H; congruence).
  destruct i as [|item|c| |c|ctx|w|e]; cbn [scan_item]; try (by apply Hne).
  - apply Hne. unfold scan_compacted. by case_match.
  - destruct e; try (by apply Hne).
    + destruct (active_segment s); [by apply Hne|]. case_match; by apply Hne.
    + destruct (active_segment s); [|by apply Hne]. case_match; [|by apply Hne]. intros _. unfold finalize_active_segment. by case_match.
Qed.

Lemma found_idle (log l : list Entry) : found_all (scan true log l) = true -> active_segment (scan true log l) = None.
Proof using.
  induction l as [|i l IH]; [done|]. cbn [Reconstruction.scan andb]. destruct (found_all (scan true log l)) eqn:E; [by intros _; apply IH|].
  by apply found_finalized.
Qed.

Lemma stopped_scan (log l : list Entry) : scan false log l = scan true log l \/ goes_on (scan true log l) (scan false log l).
Proof using.
  induction l as [|i l IH]; [by left|]. cbn [Reconstruction.scan andb]. destruct (found_all (scan true log l)) eqn:E.
  - right. apply scan_item_goes_on. destruct IH as [->|IH]; [|done]. split; [done|by apply found_idle|done..|]. exists []. by rewrite app_nil_r.
  - destruct IH as [->|[IH _ _ _ _ _]]; [by left|congruence].
Qed.

(** What a scan has of the world state goes back to a compaction, once it has a base. *)
Definition compacted_in (base : option (list (ResponseItem Json))) (world : list Entry) : Prop :=
  is_some base = true -> existsb is_compacted world = true.

Definition world_ok (s : Scan) : Prop :=
  compacted_in (base_replacement_history s) (world_state_replay s)
  /\ compacted_in (seg_base_replacement_history (segment_of s)) (seg_world_state_replay (segment_of s)).

Lemma finalize_world_ok (s : Scan) seg : world_ok s -> active_segment s = Some seg -> world_ok (finalize_active_segment seg s).
Proof using.
  intros [H1 H2] E. unfold segment_of in H2. rewrite E in H2. cbn in H2. unfold finalize_active_segment. case_match; (split; [|done]); [done|].
  unfold compacted_in, or_else in *. cbn. rewrite existsb_app. destruct (base_replacement_history s); cbn; intros Hs.
  - by rewrite H1.
  - by rewrite H2, orb_true_r.
Qed.

Lemma scan_item_world_ok i l (s : Scan) : world_ok s -> world_ok (step i l s).
Proof using.
  intros Hw. assert (Hw' := Hw). destruct Hw' as [H1 H2].
  assert (Hseg : forall seg, compacted_in (seg_base_replacement_history seg) (seg_world_state_replay seg) -> world_ok (with_active s (Some seg)))
    by (intros seg Hseg; by split).
  destruct i as [|item|c| |c|ctx|w|e]; cbn [scan_item]; try done; try (by apply Hseg).
  - unfold scan_compacted. split; [by case_match|]. rewrite segment_of_active. unfold compacted_in. cbn. by rewrite existsb_app, orb_true_r.
  - apply Hseg. unfold scan_turn_context. by case_match.
  - apply Hseg. unfold compacted_in. cbn. rewrite existsb_app. intros H. by rewrite H2.
  - destruct e; try done; try (by apply Hseg).
    + destruct (active_segment s) as [seg|] eqn:E; [|case_match; [|done]]; apply Hseg; [|done]. unfold segment_of in H2. by rewrite E in H2.
    + destruct (active_segment s) as [seg|] eqn:E; [|done]. case_match; [by apply finalize_world_ok|done].
Qed.

Lemma scan_world_ok stops (log l : list Entry) : world_ok (scan stops log l).
Proof using. induction l as [|i l IH]; [done|]. cbn [Reconstruction.scan]. case_match; [done|]. by apply scan_item_world_ok. Qed.

Lemma replay_world_compacted (l : list Entry) b b' : existsb is_compacted l = true ->
  fold_left replay_world_item l b = fold_left replay_world_item l b'.
Proof using.
  revert b b'. induction l as [|i l IH]; intros b b'; [done|]. cbn. destruct (is_compacted i) eqn:E; [by destruct i|]. apply IH.
Qed.

Lemma replay_world_older (world older : list Entry) : existsb is_compacted world = true -> replay_world (world ++ older) = replay_world world.
Proof using.
  intros H. unfold replay_world. rewrite reverse_app, fold_left_app. apply replay_world_compacted.
  apply existsb_exists in H as (i & Hi & Hc). apply existsb_exists. exists i. split; [|done]. by apply list_elem_of_In, elem_of_reverse, list_elem_of_In.
Qed.

Lemma stopped_scanned (log : list Entry) :
  previous_turn_settings (scanned true log) = previous_turn_settings (scanned false log)
  /\ reference_context (scanned true log) = reference_context (scanned false log)
  /\ replay_world (world_state_replay (scanned true log)) = replay_world (world_state_replay (scanned false log)).
Proof using.
  unfold Reconstruction.scanned. destruct (stopped_scan log log) as [->|Hon]; [done|].
  assert (Hw := proj1 (scan_world_ok true log log)). set (s := scan true log log) in *. set (s' := scan false log log) in *.
  assert (Hon' : goes_on s (scan_finish s')) by (unfold scan_finish; destruct (active_segment s'); [by apply finalize_goes_on|done]).
  destruct Hon' as [Hf Hi Hb Hs Hr [older Ho]]. unfold scan_finish at 1 3 5. rewrite Hi. rewrite Hs, Hr, Ho.
  split; [done|]. split; [done|]. rewrite replay_world_older; [done|]. apply Hw. unfold found_all in Hf. by destruct (base_replacement_history s).
Qed.

(** C10: The conversation that is reconstructed from a log is the one that replaying
    all of the log gives, and the settings, the context and the world state are
    those that a scan of all of the log finds, although the scan stops as soon as
    it knows them; given that compactions carry the history they left and the
    one found is not rolled back. *)
Theorem reconstruction_is_replay policy log (m : Manager) :
  legacy_free log = true -> checkpoint_survives true log = true -> replay policy new log = Some m ->
  exists r, reconstruct_history_from_rollout hook_prompt_xml communication_from_json parse_uuid_v7 policy log = Some r
    /\ rec_history r = items m
    /\ rec_previous_turn_settings r = previous_turn_settings (scanned false log)
    /\ rec_reference_context_item r = match reference_context (scanned false log) with Latest item => Some item | _ => None end
    /\ rec_world_state_baseline r = replay_world (world_state_replay (scanned false log)).
Proof using.
  intros Hlf Hsurv Hm. destruct (replayed_suffix true policy log m Hlf Hsurv Hm) as (m' & E & Hitems).
  destruct (stopped_scanned log) as (H1 & H2 & H3). unfold reconstruct_history_from_rollout, reconstruct_with.
  set (s := scanned true log) in *. rewrite E. cbn [mbind option_bind]. eexists. split; [done|].
  cbn [rec_history rec_previous_turn_settings rec_reference_context_item rec_world_state_baseline]. rewrite H1, H2, H3.
  split; [done|]. split; [done|]. split; [|done]. replace (existsb is_legacy_compaction (rollout_suffix s)) with false; [done|].
  assert (Hp : exists p, log = p ++ rollout_suffix s).
  { unfold s, Reconstruction.scanned. rewrite scan_finish_fields. apply (ok_suffix _ _ _ (scan_ok_all true log [] log eq_refl)). }
  destruct Hp as [p Hp]. unfold legacy_free in Hlf. rewrite Hp, existsb_app in Hlf. by destruct (existsb is_legacy_compaction p), (existsb is_legacy_compaction (rollout_suffix s)).
Qed.

(** ** The world state in the log *)

(** What a session does with its world state: it tells the model of it before a
    step, with what [items] the history then has, or compacts the history. *)
Inductive WorldStep {Fragment : Type} := Tell (items : list (ResponseItem Json)) (w : WorldState Fragment) | Compact (c : CompactedItem).

Definition world_step {Fragment} (acc : option WorldStateSnapshot * list Entry) (d : @WorldStep Fragment)
    : option WorldStateSnapshot * list Entry :=
  match d with
  | Tell items w =>
      let '(_, written, baseline) := update_world_state acc.1 items w in
      (Some baseline, acc.2 ++ match written with Some item => [LogWorldState item] | None => [] end)
  | Compact c => (None, acc.2 ++ [LogCompacted c])
  end.


End Facts.

(** ** Logs *)

#[local] Instance unit_carried : Carried := {|
  Json := unit; json_null := tt; TextElement := unit; MemoryCitation := unit; ReasoningEffort := unit; SubAgentActivityKind := unit;
  Uri := str; uri_of_path := fun p => p; native_cwd := Some; join_path := fun a b => a ++ lit "/" ++ b;
  shlex_join := fun l => concat l; parse_command := fun _ => [] |}.

Notation Entry := (@LogItem unit_carried unit).

Definition says (text : string) : ResponseItem unit := Message None (lit "user") [Msg.InputText (lit text)] None None.

Definition turn_of (id text : string) (inner : list Entry) : list Entry :=
  [LogEvent (EvTurnStarted (lit id) None); LogResponse (says text); LogTurnContext (mkTurnContext (Some (lit id)) (lit text) None None tt)]
  ++ inner ++ [LogEvent (EvTurnComplete (lit id) None None)].

Definition compaction (texts : list string) : Entry := LogCompacted (mkCompacted [] (Some (says <$> texts)) (Some 1%N) None None None).

(** A compaction in the second of three turns. *)
Definition example_log : list Entry := turn_of "t1" "a" [] ++ turn_of "t2" "b" [compaction ["a"%string; "b"%string]] ++ turn_of "t3" "c" [].

Notation reconstruct := (reconstruct_history_from_rollout (Uuid := unit) (fun _ => None) (fun _ => None) (fun _ => None) (Truncate.Tokens 100)).
Notation replayed log := (replay (fun _ => None) (fun _ => None) (Truncate.Tokens 100) new (log : list Entry)).

Lemma reconstruction_is_replay_witness :
  option_map rec_history (reconstruct example_log) = Some (says <$> ["a"; "b"; "c"]%string)
  /\ exists r, reconstruct example_log = Some r /\ rec_history r = says <$> ["a"; "b"; "c"]%string.
Proof.
  split; [by vm_compute|].
  destruct (replayed example_log) as [m|] eqn:E; [|by vm_compute in E].
  destruct (reconstruction_is_replay (Uuid := unit) (fun _ => None) (fun _ => None) (fun _ => None) (Truncate.Tokens 100) example_log m)
    as (r & H1 & H2 & _); [by vm_compute|by vm_compute|exact E|].
  exists r. split; [exact H1|]. rewrite H2. vm_compute in E. injection E as <-. by vm_compute.
Defined.

(** When the turn of a compaction is rolled back, what came before it is lost:
    the entries to replay start after the compaction, but its history is not taken. *)
Example rolled_back_compaction_loses_history :
  let log := turn_of "t1" "a" [] ++ turn_of "t2" "b" [compaction ["a"%string; "b"%string]] ++ [LogEvent (EvThreadRolledBack 1)] in
  option_map rec_history (reconstruct log) = Some [] /\ option_map items (replayed log) = Some [says "a"].
Proof. by vm_compute. Qed.

End ReconstructionFacts.
