(* ===== verification/Hooks.v ===== *)
(** The hooks engine (hooks/src): commands of the user that run at events of a
    session and may block, rewrite or annotate what the agent does.

    The files are modelled in this order: the types of
    protocol/src/protocol.rs and of engine/mod.rs, schema.rs (what a hook may
    answer), events/common.rs, engine/dispatcher.rs, engine/output_parser.rs and
    the events: pre_tool_use.rs, permission_request.rs, post_tool_use.rs,
    user_prompt_submit.rs, session_start.rs, stop.rs and compact.rs; last
    output_spill.rs.

    Hooks of one event run at the same time.  What the [i]-th of them returns
    is the argument [run_command], the order in which they finish is the
    argument [order].  Reading JSON and regular expressions are the class
    [HookLib]; a path is its text.  [None] is a panic. *)

From stdpp Require Import base list option numbers strings gmap sorting pretty.
From S2P Require Import Prelude Machine RustStr Truncate ResponseItems WorldState.

Module Hooks.
Import WorldState.
Open Scope rust_scope.

Notation AbsolutePathBuf := str (only parsing).

Definition show_Z (z : Z) : str := lit (pretty z).

(** ** Types *)

Inductive HookEventName :=
| PreToolUse | PermissionRequest | PostToolUse | PreCompact | PostCompact | SessionStart | UserPromptSubmit | SubagentStart | SubagentStop | Stop.

#[export] Instance event_name_eq_dec : EqDecision HookEventName.
Proof. solve_decision. Defined.

Inductive HookHandlerType := CommandHook | PromptHook | AgentHook.
Inductive HookExecutionMode := Sync | Async.
Inductive HookScope := ThreadScope | TurnScope.

Inductive HookSource :=
| SourceSystem | SourceUser | SourceProject | SourceMdm | SourceSessionFlags | SourcePlugin | CloudRequirements | CloudManagedConfig
| LegacyManagedConfigFile | LegacyManagedConfigMdm | SourceUnknown.

Inductive HookRunStatus := Running | Completed | Failed | Blocked | Stopped.

#[export] Instance run_status_eq_dec : EqDecision HookRunStatus.
Proof. solve_decision. Defined.

Inductive HookOutputEntryKind := EntryWarning | EntryStop | EntryFeedback | EntryContext | EntryError.

Record HookOutputEntry := mkEntry { kind : HookOutputEntryKind; text : str }.

Record HookRunSummary := mkSummary {
  run_summary_id : str;
  run_event_name : HookEventName;
  handler_type : HookHandlerType;
  execution_mode : HookExecutionMode;
  run_scope : HookScope;
  run_source_path : AbsolutePathBuf;
  run_source : HookSource;
  run_display_order : Z;
  run_status : HookRunStatus;
  run_status_message : option str;
  started_at : Z;
  completed_at : option Z;
  duration_ms : option Z;
  entries : list HookOutputEntry;
}.

Record HookCompletedEvent := mkCompletedEvent { event_turn_id : option str; event_run : HookRunSummary }.

Record HookPromptFragment := mkFragment { fragment_text : str; hook_run_id : str }.

Record ConfiguredHandler := mkHandler {
  event_name : HookEventName;
  matcher : option str;
  command : str;
  timeout_sec : N;
  status_message : option str;
  source_path : AbsolutePathBuf;
  source : HookSource;
  display_order : Z;
  env : gmap str str;
}.

Definition event_name_label (e : HookEventName) : str :=
  match e with
  | PreToolUse => lit "pre-tool-use"
  | PermissionRequest => lit "permission-request"
  | PostToolUse => lit "post-tool-use"
  | PreCompact => lit "pre-compact"
  | PostCompact => lit "post-compact"
  | SessionStart => lit "session-start"
  | UserPromptSubmit => lit "user-prompt-submit"
  | SubagentStart => lit "subagent-start"
  | SubagentStop => lit "subagent-stop"
  | Stop => lit "stop"
  end.

Definition run_id (h : ConfiguredHandler) : str :=
  event_name_label (event_name h) ++ lit ":" ++ show_Z (display_order h) ++ lit ":" ++ source_path h.

(** [exit_code]: [None] if a signal ended the command; [run_error]: it could not
    be run or did not end in time. *)
Record CommandRunResult := mkRunResult {
  run_started_at : Z;
  run_completed_at : Z;
  run_duration_ms : Z;
  exit_code : option Z;
  stdout : str;
  stderr : str;
  run_error : option str;
}.

(** ** schema.rs *)

Record HookUniversalOutputWire := mkUniversalWire {
  wire_continue : bool;
  wire_stop_reason : option str;
  wire_suppress_output : bool;
  wire_system_message : option str;
}.

Inductive PreToolUsePermissionDecisionWire := PermissionAllow | PermissionDeny | PermissionAsk.
Inductive PreToolUseDecisionWire := Approve | Block.
Inductive BlockDecisionWire := DecisionBlock.
Inductive PermissionRequestBehaviorWire := BehaviorAllow | BehaviorDeny.

Record PreToolUseHookSpecificOutputWire := mkPreSpecific {
  permission_decision : option PreToolUsePermissionDecisionWire;
  permission_decision_reason : option str;
  pre_updated_input : option Value;
  pre_additional_context : option str;
}.

Record PreToolUseCommandOutputWire := mkPreWire {
  pre_wire_universal : HookUniversalOutputWire;
  pre_wire_decision : option PreToolUseDecisionWire;
  pre_wire_reason : option str;
  pre_wire_specific : option PreToolUseHookSpecificOutputWire;
}.

Record PermissionRequestDecisionWire := mkDecisionWire {
  behavior : PermissionRequestBehaviorWire;
  request_updated_input : option Value;
  updated_permissions : option Value;
  decision_message : option str;
  interrupt : bool;
}.

(** [request_wire_specific]: the decision of the specific output, if there is one. *)
Record PermissionRequestCommandOutputWire := mkRequestWire {
  request_wire_universal : HookUniversalOutputWire;
  request_wire_specific : option (option PermissionRequestDecisionWire);
}.

Record PostToolUseHookSpecificOutputWire := mkPostSpecific { post_additional_context : option str; updated_mcp_tool_output : option Value }.

Record PostToolUseCommandOutputWire := mkPostWire {
  post_wire_universal : HookUniversalOutputWire;
  post_wire_decision : option BlockDecisionWire;
  post_wire_reason : option str;
  post_wire_specific : option PostToolUseHookSpecificOutputWire;
}.

(** [context_specific]: the additional context of the specific output, if there is one. *)
Record SessionStartCommandOutputWire := mkContextWire {
  context_universal : HookUniversalOutputWire;
  context_specific : option (option str);
}.

Record UserPromptSubmitCommandOutputWire := mkPromptWire {
  prompt_wire_universal : HookUniversalOutputWire;
  prompt_wire_decision : option BlockDecisionWire;
  prompt_wire_reason : option str;
  prompt_wire_specific : option (option str);
}.

Record StopCommandOutputWire := mkStopWire {
  stop_wire_universal : HookUniversalOutputWire;
  stop_wire_decision : option BlockDecisionWire;
  stop_wire_reason : option str;
}.

(** What is used of serde and of the regex library: reading JSON, reading the
    wire types off a value, writing an object with its fields in order (or the
    text of the error), and matching ([None]: the pattern does not compile). *)
Class HookLib := {
  json_from_str : str -> option Value;
  json_to_string : list (str * Value) -> result str str;
  read_pre_tool_use : Value -> option PreToolUseCommandOutputWire;
  read_permission_request : Value -> option PermissionRequestCommandOutputWire;
  read_post_tool_use : Value -> option PostToolUseCommandOutputWire;
  read_session_start : Value -> option SessionStartCommandOutputWire;
  read_subagent_start : Value -> option SessionStartCommandOutputWire;
  read_user_prompt_submit : Value -> option UserPromptSubmitCommandOutputWire;
  read_stop : Value -> option StopCommandOutputWire;
  read_subagent_stop : Value -> option StopCommandOutputWire;
  read_pre_compact : Value -> option HookUniversalOutputWire;
  read_post_compact : Value -> option HookUniversalOutputWire;
  regex_is_match : str -> str -> option bool }.

Section Engine.
Context `{HookLib}.

(** ** events/common.rs *)

Definition join_text_chunks (chunks : list str) : option str :=
  if is_empty chunks then None else Some (join [LF; LF] chunks).

Definition trimmed_non_empty (text : str) : option str :=
  let trimmed := trim text in if is_empty trimmed then None else Some trimmed.

Definition is_match_all_matcher (matcher : str) : bool := is_empty matcher || (matcher == lit "*").

Definition is_ascii_alphanumeric (c : char) : bool :=
  is_ascii_digit c || is_ascii_uppercase c || ((97 <=? c) && (c <=? 122))%N.

Definition is_exact_matcher (matcher : str) : bool :=
  forallb (fun ch => is_ascii_alphanumeric ch || (ch =? 95)%N || (ch =? 124)%N) matcher.

Definition validate_matcher_pattern (matcher : str) : bool :=
  is_match_all_matcher matcher || is_exact_matcher matcher || is_some (regex_is_match matcher []).

Definition matches_matcher (matcher input : option str) : bool :=
  match matcher with
  | None => true
  | Some matcher =>
      if is_match_all_matcher matcher then true
      else if is_exact_matcher matcher then
        match input with Some input => existsb (fun candidate => candidate == input) (split_on 124%N matcher) | None => false end
      else match input with Some input => default false (regex_is_match matcher input) | None => false end
  end.

Definition matcher_pattern_for_event (e : HookEventName) (matcher : option str) : option str :=
  match e with UserPromptSubmit | Stop => None | _ => matcher end.

Definition matcher_inputs (tool_name : str) (matcher_aliases : list str) : list str := tool_name :: matcher_aliases.

Definition hook_run_for_tool_use (run : HookRunSummary) (tool_use_id : str) : HookRunSummary :=
  mkSummary (run_summary_id run ++ lit ":" ++ tool_use_id) (run_event_name run) (handler_type run) (execution_mode run) (run_scope run)
    (run_source_path run) (run_source run) (run_display_order run) (run_status run) (run_status_message run) (started_at run)
    (completed_at run) (duration_ms run) (entries run).

Definition hook_completed_for_tool_use (event : HookCompletedEvent) (tool_use_id : str) : HookCompletedEvent :=
  mkCompletedEvent (event_turn_id event) (hook_run_for_tool_use (event_run event) tool_use_id).

(** ** engine/dispatcher.rs *)

Record ParsedHandler (T : Type) := mkParsed { completed : HookCompletedEvent; data : T; completion_order : nat }.
Arguments mkParsed {T}.
Arguments completed {T}.
Arguments data {T}.
Arguments completion_order {T}.

Definition handler_selected (e : HookEventName) (inputs : list str) (h : ConfiguredHandler) : bool :=
  bool_decide (event_name h = e) &&
  match e with
  | UserPromptSubmit | Stop => true
  | _ => if is_empty inputs then matches_matcher (matcher h) None else existsb (fun input => matches_matcher (matcher h) (Some input)) inputs
  end.

Definition select_handlers_for_matcher_inputs (handlers : list ConfiguredHandler) (e : HookEventName) (inputs : list str)
    : list ConfiguredHandler := List.filter (handler_selected e inputs) handlers.

Definition select_handlers (handlers : list ConfiguredHandler) (e : HookEventName) (matcher_input : option str) : list ConfiguredHandler :=
  select_handlers_for_matcher_inputs handlers e (option_list matcher_input).

Definition scope_for_event (e : HookEventName) : HookScope :=
  match e with SessionStart | SubagentStart => ThreadScope | _ => TurnScope end.

(** [now]: the time. *)
Definition running_summary (now : Z) (h : ConfiguredHandler) : HookRunSummary :=
  mkSummary (run_id h) (event_name h) CommandHook Sync (scope_for_event (event_name h)) (source_path h) (source h) (display_order h)
    Running (status_message h) now None None [].

Definition completed_summary (h : ConfiguredHandler) (r : CommandRunResult) (status : HookRunStatus) (l : list HookOutputEntry)
    : HookRunSummary :=
  mkSummary (run_id h) (event_name h) CommandHook Sync (scope_for_event (event_name h)) (source_path h) (source h) (display_order h)
    status (status_message h) (run_started_at r) (Some (run_completed_at r)) (Some (run_duration_ms r)) l.

(** The runs of the hooks of an event, by position, and the order in which they end. *)
Context (run_command : nat -> ConfiguredHandler -> str -> str -> CommandRunResult) (order : list nat).

Definition key_le {A} (a b : nat * A) : Prop := a.1 <= b.1.
#[export] Instance key_le_dec {A} : RelDecision (@key_le A) := fun a b => decide (a.1 <= b.1).

Definition with_completion_order {T} (p : ParsedHandler T) (n : nat) : ParsedHandler T := mkParsed (completed p) (data p) n.

(** One future of the pool: the hook at [configured_order], which ends as the [completion_order]-th. *)
Definition execute_one {T} (handlers : list ConfiguredHandler) (input_json cwd : str) (turn_id : option str)
    (parse : ConfiguredHandler -> CommandRunResult -> option str -> option (ParsedHandler T)) (slot : nat * nat) : option (nat * ParsedHandler T) :=
  let '(completion_order, configured_order) := slot in
  handler ← handlers !! configured_order;
  parsed ← parse handler (run_command configured_order handler input_json cwd) turn_id;
  Some (configured_order, with_completion_order parsed completion_order).

Definition execute_handlers {T} (handlers : list ConfiguredHandler) (input_json cwd : str) (turn_id : option str)
    (parse : ConfiguredHandler -> CommandRunResult -> option str -> option (ParsedHandler T)) : option (list (ParsedHandler T)) :=
  completed ← mapM (execute_one handlers input_json cwd turn_id parse) (imap pair order);
  Some (snd <$> merge_sort key_le completed).

(** events/common.rs, where the input cannot be written. *)
Definition serialization_failure_hook_events (now : Z) (handlers : list ConfiguredHandler) (turn_id : option str) (error_message : str)
    : list HookCompletedEvent :=
  (fun h => let run := running_summary now h in
    mkCompletedEvent turn_id
      (mkSummary (run_summary_id run) (run_event_name run) (handler_type run) (execution_mode run) (run_scope run) (run_source_path run)
         (run_source run) (run_display_order run) Failed (run_status_message run) (started_at run) (Some (started_at run)) (Some 0%Z)
         [mkEntry EntryError error_message])) <$> handlers.

Definition serialization_failure_hook_events_for_tool_use (now : Z) (handlers : list ConfiguredHandler) (turn_id : option str)
    (error_message tool_use_id : str) : list HookCompletedEvent :=
  (fun event => hook_completed_for_tool_use event tool_use_id) <$> serialization_failure_hook_events now handlers turn_id error_message.

(** ** engine/output_parser.rs *)

Record UniversalOutput := mkUniversal {
  continue_processing : bool;
  stop_reason : option str;
  suppress_output : bool;
  system_message : option str;
}.

Record SessionStartOutput := mkSessionStartOutput { start_universal : UniversalOutput; start_context : option str }.

Record PreToolUseOutput := mkPreOutput {
  pre_universal : UniversalOutput;
  pre_block_reason : option str;
  pre_context : option str;
  pre_input : option Value;
  pre_invalid_reason : option str;
}.

Inductive PermissionRequestDecision := Allow | Deny (message : str).

Record PermissionRequestOutput := mkRequestOutput {
  request_universal : UniversalOutput;
  request_decision : option PermissionRequestDecision;
  request_invalid_reason : option str;
}.

Record PostToolUseOutput := mkPostOutput {
  post_universal : UniversalOutput;
  post_should_block : bool;
  post_reason : option str;
  post_invalid_block_reason : option str;
  post_context : option str;
  post_invalid_reason : option str;
}.

Record UserPromptSubmitOutput := mkPromptOutput {
  prompt_universal : UniversalOutput;
  prompt_should_block : bool;
  prompt_reason : option str;
  prompt_invalid_block_reason : option str;
  prompt_context : option str;
}.

Record StopOutput := mkStopOutput {
  stop_universal : UniversalOutput;
  stop_should_block : bool;
  stop_block_reason : option str;
  stop_invalid_block_reason : option str;
}.

(** Also [PreCompactOutput]. *)
Record StatelessHookOutput := mkStatelessOutput { stateless_universal : UniversalOutput; stateless_invalid_reason : option str }.

Definition universal_from (w : HookUniversalOutputWire) : UniversalOutput :=
  mkUniversal (wire_continue w) (wire_stop_reason w) (wire_suppress_output w) (wire_system_message w).

Definition parse_json {T} (from_value : Value -> option T) (stdout : str) : option T :=
  let trimmed := trim stdout in
  if is_empty trimmed then None
  else
    value ← json_from_str trimmed;
    if is_some (as_object value) then from_value value else None.

Definition looks_like_json (stdout : str) : bool :=
  let trimmed := trim_start stdout in starts_with (lit "{") trimmed || starts_with (lit "[") trimmed.

Definition trimmed_reason (reason : str) : option str :=
  let trimmed := trim reason in if is_empty trimmed then None else Some trimmed.

Definition invalid_block_message (event_name : str) : str :=
  event_name ++ lit " hook returned decision:block without a non-empty reason".

Definition invalid_pre_tool_use_reason_message : str :=
  lit "PreToolUse hook returned permissionDecision:deny without a non-empty permissionDecisionReason".

Definition unsupported_universal (event_name : str) (u : UniversalOutput) : option str :=
  if negb (continue_processing u) then Some (event_name ++ lit " hook returned unsupported continue:false")
  else if is_some (stop_reason u) then Some (event_name ++ lit " hook returned unsupported stopReason")
  else if suppress_output u then Some (event_name ++ lit " hook returned unsupported suppressOutput")
  else None.

Definition unsupported_pre_tool_use_universal : UniversalOutput -> option str := unsupported_universal (lit "PreToolUse").
Definition unsupported_permission_request_universal : UniversalOutput -> option str := unsupported_universal (lit "PermissionRequest").

Definition unsupported_post_tool_use_universal (u : UniversalOutput) : option str :=
  if suppress_output u then Some (lit "PostToolUse hook returned unsupported suppressOutput") else None.

Definition is_allow (d : option PreToolUsePermissionDecisionWire) : bool := match d with Some PermissionAllow => true | _ => false end.

Definition unsupported_pre_tool_use_hook_specific_output (output : PreToolUseHookSpecificOutputWire) : option str :=
  if is_some (pre_updated_input output) && negb (is_allow (permission_decision output)) then
    Some (lit "PreToolUse hook returned updatedInput without permissionDecision:allow")
  else
    match permission_decision output with
    | Some PermissionAllow =>
        if is_some (pre_updated_input output) then None
        else Some (lit "PreToolUse hook returned unsupported permissionDecision:allow")
    | Some PermissionAsk => Some (lit "PreToolUse hook returned unsupported permissionDecision:ask")
    | Some PermissionDeny =>
        if is_some (permission_decision_reason output ≫= trimmed_reason) then None else Some invalid_pre_tool_use_reason_message
    | None =>
        if is_some (permission_decision_reason output) then
          Some (lit "PreToolUse hook returned permissionDecisionReason without permissionDecision")
        else None
    end.

Definition unsupported_pre_tool_use_legacy_decision (decision : option PreToolUseDecisionWire) (reason : option str) : option str :=
  match decision with
  | Some Approve => Some (lit "PreToolUse hook returned unsupported decision:approve")
  | Some Block => if is_some (reason ≫= trimmed_reason) then None else Some (invalid_block_message (lit "PreToolUse"))
  | None => if is_some reason then Some (lit "PreToolUse hook returned reason without decision") else None
  end.

Definition or_else {A} (a b : option A) : option A := match a with Some _ => a | None => b end.

Definition uses_specific_decision (output : PreToolUseHookSpecificOutputWire) : bool :=
  is_some (permission_decision output) || is_some (permission_decision_reason output) || is_some (pre_updated_input output).

Definition parse_pre_tool_use (stdout : str) : option PreToolUseOutput :=
  wire ← parse_json read_pre_tool_use stdout;
  let universal := universal_from (pre_wire_universal wire) in
  let specific := pre_wire_specific wire in
  let additional_context := specific ≫= pre_additional_context in
  let use_hook_specific_decision := is_some_and specific uses_specific_decision in
  let invalid_reason :=
    or_else (unsupported_pre_tool_use_universal universal)
      (if use_hook_specific_decision then specific ≫= unsupported_pre_tool_use_hook_specific_output
       else unsupported_pre_tool_use_legacy_decision (pre_wire_decision wire) (pre_wire_reason wire)) in
  let block_reason :=
    if is_some invalid_reason then None
    else if use_hook_specific_decision then
      specific ≫= (fun output => match permission_decision output with
                                 | Some PermissionDeny => permission_decision_reason output ≫= trimmed_reason
                                 | _ => None
                                 end)
    else match pre_wire_decision wire with Some Block => pre_wire_reason wire ≫= trimmed_reason | _ => None end in
  let updated_input :=
    if is_some invalid_reason then None
    else specific ≫= (fun output => if is_allow (permission_decision output) then pre_updated_input output else None) in
  Some (mkPreOutput universal block_reason additional_context updated_input invalid_reason).

Definition unsupported_permission_request_hook_specific_output (decision : option PermissionRequestDecisionWire) : option str :=
  decision ← decision;
  if is_some (request_updated_input decision) then Some (lit "PermissionRequest hook returned unsupported updatedInput")
  else if is_some (updated_permissions decision) then Some (lit "PermissionRequest hook returned unsupported updatedPermissions")
  else if interrupt decision then Some (lit "PermissionRequest hook returned unsupported interrupt:true")
  else None.

Definition permission_request_decision (decision : PermissionRequestDecisionWire) : PermissionRequestDecision :=
  match behavior decision with
  | BehaviorAllow => Allow
  | BehaviorDeny => Deny (default (lit "PermissionRequest hook denied approval") (decision_message decision ≫= trimmed_reason))
  end.

Definition parse_permission_request (stdout : str) : option PermissionRequestOutput :=
  wire ← parse_json read_permission_request stdout;
  let universal := universal_from (request_wire_universal wire) in
  let specific := request_wire_specific wire in
  let decision := specific ≫= id in
  let invalid_reason := or_else (unsupported_permission_request_universal universal)
                          (specific ≫= unsupported_permission_request_hook_specific_output) in
  Some (mkRequestOutput universal (if is_some invalid_reason then None else option_map permission_request_decision decision) invalid_reason).

Definition is_blank (reason : option str) : bool := match reason with Some reason => is_empty (trim reason) | None => true end.

Definition unsupported_post_tool_use_hook_specific_output (output : PostToolUseHookSpecificOutputWire) : option str :=
  if is_some (updated_mcp_tool_output output) then Some (lit "PostToolUse hook returned unsupported updatedMCPToolOutput") else None.

Definition parse_post_tool_use (stdout : str) : option PostToolUseOutput :=
  wire ← parse_json read_post_tool_use stdout;
  let universal := universal_from (post_wire_universal wire) in
  let invalid_reason := or_else (unsupported_post_tool_use_universal universal)
                          (post_wire_specific wire ≫= unsupported_post_tool_use_hook_specific_output) in
  let should_block := is_some (post_wire_decision wire) in
  let invalid_block_reason :=
    if should_block && is_blank (post_wire_reason wire) then Some (invalid_block_message (lit "PostToolUse"))
    else if negb should_block && continue_processing universal && is_some (post_wire_reason wire) then
      Some (lit "PostToolUse hook returned reason without decision")
    else None in
  Some (mkPostOutput universal (should_block && negb (is_some invalid_reason) && negb (is_some invalid_block_reason)) (post_wire_reason wire)
          invalid_block_reason (post_wire_specific wire ≫= post_additional_context) invalid_reason).

Definition session_start_output (w : SessionStartCommandOutputWire) : SessionStartOutput :=
  mkSessionStartOutput (universal_from (context_universal w)) (context_specific w ≫= id).

Definition parse_session_start (stdout : str) : option SessionStartOutput := option_map session_start_output (parse_json read_session_start stdout).
Definition parse_subagent_start (stdout : str) : option SessionStartOutput := option_map session_start_output (parse_json read_subagent_start stdout).

Definition parse_stateless (from_value : Value -> option HookUniversalOutputWire) (stdout : str) : option StatelessHookOutput :=
  option_map (fun w => mkStatelessOutput (universal_from w) None) (parse_json from_value stdout).

Definition parse_pre_compact : str -> option StatelessHookOutput := parse_stateless read_pre_compact.
Definition parse_post_compact : str -> option StatelessHookOutput := parse_stateless read_post_compact.

Definition parse_user_prompt_submit (stdout : str) : option UserPromptSubmitOutput :=
  wire ← parse_json read_user_prompt_submit stdout;
  let should_block := is_some (prompt_wire_decision wire) in
  let invalid_block_reason :=
    if should_block && is_blank (prompt_wire_reason wire) then Some (invalid_block_message (lit "UserPromptSubmit")) else None in
  Some (mkPromptOutput (universal_from (prompt_wire_universal wire)) (should_block && negb (is_some invalid_block_reason))
          (prompt_wire_reason wire) invalid_block_reason (prompt_wire_specific wire ≫= id)).

Definition stop_output (event_name : str) (w : StopCommandOutputWire) : StopOutput :=
  let should_block := is_some (stop_wire_decision w) in
  let invalid_block_reason :=
    if should_block && is_blank (stop_wire_reason w) then Some (invalid_block_message event_name) else None in
  mkStopOutput (universal_from (stop_wire_universal w)) (should_block && negb (is_some invalid_block_reason)) (stop_wire_reason w) invalid_block_reason.

Definition parse_stop (stdout : str) : option StopOutput := option_map (stop_output (lit "Stop")) (parse_json read_stop stdout).
Definition parse_subagent_stop (stdout : str) : option StopOutput :=
  option_map (stop_output (lit "SubagentStop")) (parse_json read_subagent_stop stdout).

(** ** Events *)

(** What the requests share. *)
Record RequestBase := mkBase { session_id : str; cwd : AbsolutePathBuf; transcript_path : option str; model : str }.

(** [SubagentHookContext]: the id and the type of the agent. *)
Notation SubagentHookContext := (prod str str) (only parsing).

Definition field (name : string) (value : str) : str * Value := (lit name, VString value).
Definition optional_field (name : string) (value : option str) : list (str * Value) :=
  match value with Some value => [field name value] | None => [] end.
Definition nullable_field (name : string) (value : option str) : str * Value :=
  (lit name, match value with Some value => VString value | None => Null end).

Definition subagent_fields (subagent : option SubagentHookContext) : list (str * Value) :=
  optional_field "agent_id" (fst <$> subagent) ++ optional_field "agent_type" (snd <$> subagent).

(** What a run of a hook comes to: its status, what is shown of it, and its effect. *)
Notation Verdict T := (HookRunStatus * list HookOutputEntry * T)%type.

Definition failed {T} (none : T) (message : str) : Verdict T := (Failed, [mkEntry EntryError message], none).

Definition exited_with_code (code : Z) : str := lit "hook exited with code " ++ show_Z code.
Definition no_status_code : str := lit "hook exited without a status code".

Definition warning_entries (u : UniversalOutput) : list HookOutputEntry := mkEntry EntryWarning <$> option_list (system_message u).
Definition context_entries (contexts : list str) : list HookOutputEntry := mkEntry EntryContext <$> contexts.

Definition parsed_handler {T} (h : ConfiguredHandler) (r : CommandRunResult) (turn_id : option str) (v : Verdict T) : ParsedHandler T :=
  let '(status, l, d) := v in mkParsed (mkCompletedEvent turn_id (completed_summary h r status l)) d 0.

(** *** pre_tool_use.rs *)

Record PreToolUseRequest := mkPreRequest {
  pre_base : RequestBase;
  pre_turn_id : str;
  pre_subagent : option SubagentHookContext;
  pre_permission_mode : str;
  pre_tool_name : str;
  pre_matcher_aliases : list str;
  pre_tool_use_id : str;
  pre_tool_input : Value;
}.

Record PreToolUseHandlerData := mkPreData {
  should_block : bool;
  block_reason : option str;
  additional_contexts_for_model : list str;
  updated_input : option Value;
}.

Record PreToolUseOutcome := mkPreOutcome {
  pre_hook_events : list HookCompletedEvent;
  pre_outcome_block : bool;
  pre_outcome_reason : option str;
  pre_contexts : list str;
  pre_outcome_input : option Value;
}.

Definition pre_default : PreToolUseHandlerData := mkPreData false None [] None.

Definition pre_tool_use_stdout (out : str) : Verdict PreToolUseHandlerData :=
  if is_empty (trim out) then (Completed, [], pre_default)
  else
    match parse_pre_tool_use out with
    | Some parsed =>
        let warnings := warning_entries (pre_universal parsed) in
        match pre_invalid_reason parsed with
        | Some invalid_reason => (Failed, warnings ++ [mkEntry EntryError invalid_reason], pre_default)
        | None =>
            let contexts := option_list (pre_context parsed) in
            let shown := warnings ++ context_entries contexts in
            match pre_block_reason parsed with
            | Some reason => (Blocked, shown ++ [mkEntry EntryFeedback reason], mkPreData true (Some reason) contexts None)
            | None => (Completed, shown, mkPreData false None contexts (pre_input parsed))
            end
        end
    | None =>
        if looks_like_json out then failed pre_default (lit "hook returned invalid pre-tool-use JSON output") else (Completed, [], pre_default)
    end.

Definition pre_tool_use_verdict (r : CommandRunResult) : Verdict PreToolUseHandlerData :=
  match run_error r with
  | Some error => failed pre_default error
  | None =>
      match exit_code r with
      | Some 0%Z => pre_tool_use_stdout (stdout r)
      | Some 2%Z =>
          match trimmed_non_empty (stderr r) with
          | Some reason => (Blocked, [mkEntry EntryFeedback reason], mkPreData true (Some reason) [] None)
          | None => failed pre_default (lit "PreToolUse hook exited with code 2 but did not write a blocking reason to stderr")
          end
      | Some code => failed pre_default (exited_with_code code)
      | None => failed pre_default no_status_code
      end
  end.

Definition pre_tool_use_parse (h : ConfiguredHandler) (r : CommandRunResult) (turn_id : option str) : option (ParsedHandler PreToolUseHandlerData) :=
  Some (parsed_handler h r turn_id (pre_tool_use_verdict r)).

(** [max_by_key] keeps the last of equal maxima. *)
Definition latest_updated_input (results : list (ParsedHandler PreToolUseHandlerData)) : option Value :=
  snd <$> fold_left (fun best r =>
    match updated_input (data r) with
    | Some input =>
        match best with
        | Some (n, _) => if n <=? completion_order r then Some (completion_order r, input) else best
        | None => Some (completion_order r, input)
        end
    | None => best
    end) results (None : option (nat * Value)).

Definition pre_tool_use_input (q : PreToolUseRequest) : list (str * Value) :=
  [field "session_id" (session_id (pre_base q)); field "turn_id" (pre_turn_id q)] ++ subagent_fields (pre_subagent q)
  ++ [nullable_field "transcript_path" (transcript_path (pre_base q)); field "cwd" (cwd (pre_base q)); field "hook_event_name" (lit "PreToolUse");
      field "model" (model (pre_base q)); field "permission_mode" (pre_permission_mode q); field "tool_name" (pre_tool_name q);
      (lit "tool_input", pre_tool_input q); field "tool_use_id" (pre_tool_use_id q)].

Definition pre_tool_use_preview (now : Z) (handlers : list ConfiguredHandler) (q : PreToolUseRequest) : list HookRunSummary :=
  (fun h => hook_run_for_tool_use (running_summary now h) (pre_tool_use_id q))
  <$> select_handlers_for_matcher_inputs handlers PreToolUse (matcher_inputs (pre_tool_name q) (pre_matcher_aliases q)).

Definition pre_tool_use_run (now : Z) (handlers : list ConfiguredHandler) (q : PreToolUseRequest) : option PreToolUseOutcome :=
  let matched := select_handlers_for_matcher_inputs handlers PreToolUse (matcher_inputs (pre_tool_name q) (pre_matcher_aliases q)) in
  if is_empty matched then Some (mkPreOutcome [] false None [] None)
  else
    match json_to_string (pre_tool_use_input q) with
    | Err error =>
        Some (mkPreOutcome (serialization_failure_hook_events_for_tool_use now matched (Some (pre_turn_id q))
                (lit "failed to serialize pre tool use hook input: " ++ error) (pre_tool_use_id q)) false None [] None)
    | Ok input_json =>
        results ← execute_handlers matched input_json (cwd (pre_base q)) (Some (pre_turn_id q)) pre_tool_use_parse;
        let blocks := existsb (fun r => should_block (data r)) results in
        Some (mkPreOutcome ((fun r => hook_completed_for_tool_use (completed r) (pre_tool_use_id q)) <$> results)
                blocks (head (omap (fun r => block_reason (data r)) results))
                (concat (List.map (fun r => additional_contexts_for_model (data r)) results))
                (if blocks then None else latest_updated_input results))
    end.

(** *** permission_request.rs *)

Record PermissionRequestRequest := mkPermissionRequest {
  request_base : RequestBase;
  request_turn_id : str;
  request_subagent : option SubagentHookContext;
  request_permission_mode : str;
  request_tool_name : str;
  request_matcher_aliases : list str;
  run_id_suffix : str;
  request_tool_input : Value;
}.

(** The data of a handler: its decision. *)
Notation PermissionRequestHandlerData := (option PermissionRequestDecision) (only parsing).

Record PermissionRequestOutcome := mkRequestOutcome { request_hook_events : list HookCompletedEvent; decision : option PermissionRequestDecision }.

Definition permission_request_stdout (out : str) : Verdict PermissionRequestHandlerData :=
  if is_empty (trim out) then (Completed, [], None)
  else
    match parse_permission_request out with
    | Some parsed =>
        let warnings := warning_entries (request_universal parsed) in
        match request_invalid_reason parsed, request_decision parsed with
        | Some invalid_reason, _ => (Failed, warnings ++ [mkEntry EntryError invalid_reason], None)
        | None, Some Allow => (Completed, warnings, Some Allow)
        | None, Some (Deny message) => (Blocked, warnings ++ [mkEntry EntryFeedback message], Some (Deny message))
        | None, None => (Completed, warnings, None)
        end
    | None =>
        if looks_like_json out then failed None (lit "hook returned invalid permission-request JSON output") else (Completed, [], None)
    end.

Definition permission_request_verdict (r : CommandRunResult) : Verdict PermissionRequestHandlerData :=
  match run_error r with
  | Some error => failed None error
  | None =>
      match exit_code r with
      | Some 0%Z => permission_request_stdout (stdout r)
      | Some 2%Z =>
          match trimmed_non_empty (stderr r) with
          | Some message => (Blocked, [mkEntry EntryFeedback message], Some (Deny message))
          | None => failed None (lit "PermissionRequest hook exited with code 2 but did not write a denial reason to stderr")
          end
      | Some code => failed None (exited_with_code code)
      | None => failed None no_status_code
      end
  end.

Definition permission_request_parse (h : ConfiguredHandler) (r : CommandRunResult) (turn_id : option str) : option (ParsedHandler PermissionRequestHandlerData) :=
  Some (parsed_handler h r turn_id (permission_request_verdict r)).

Fixpoint resolve_permission_request_from (resolved_allow : option PermissionRequestDecision) (decisions : list PermissionRequestDecision)
    : option PermissionRequestDecision :=
  match decisions with
  | [] => resolved_allow
  | Allow :: decisions => resolve_permission_request_from (Some Allow) decisions
  | Deny message :: _ => Some (Deny message)
  end.

Definition resolve_permission_request_decision : list PermissionRequestDecision -> option PermissionRequestDecision :=
  resolve_permission_request_from None.

Definition permission_request_input (q : PermissionRequestRequest) : list (str * Value) :=
  [field "session_id" (session_id (request_base q)); field "turn_id" (request_turn_id q)] ++ subagent_fields (request_subagent q)
  ++ [nullable_field "transcript_path" (transcript_path (request_base q)); field "cwd" (cwd (request_base q));
      field "hook_event_name" (lit "PermissionRequest"); field "model" (model (request_base q));
      field "permission_mode" (request_permission_mode q); field "tool_name" (request_tool_name q); (lit "tool_input", request_tool_input q)].

Definition permission_request_preview (now : Z) (handlers : list ConfiguredHandler) (q : PermissionRequestRequest) : list HookRunSummary :=
  (fun h => hook_run_for_tool_use (running_summary now h) (run_id_suffix q))
  <$> select_handlers_for_matcher_inputs handlers PermissionRequest (matcher_inputs (request_tool_name q) (request_matcher_aliases q)).

Definition permission_request_run (now : Z) (handlers : list ConfiguredHandler) (q : PermissionRequestRequest) : option PermissionRequestOutcome :=
  let matched := select_handlers_for_matcher_inputs handlers PermissionRequest (matcher_inputs (request_tool_name q) (request_matcher_aliases q)) in
  if is_empty matched then Some (mkRequestOutcome [] None)
  else
    match json_to_string (permission_request_input q) with
    | Err error =>
        Some (mkRequestOutcome (serialization_failure_hook_events_for_tool_use now matched (Some (request_turn_id q))
                (lit "failed to serialize permission request hook input: " ++ error) (run_id_suffix q)) None)
    | Ok input_json =>
        results ← execute_handlers matched input_json (cwd (request_base q)) (Some (request_turn_id q)) permission_request_parse;
        Some (mkRequestOutcome ((fun r => hook_completed_for_tool_use (completed r) (run_id_suffix q)) <$> results)
                (resolve_permission_request_decision (omap data results)))
    end.

(** *** post_tool_use.rs *)

Record PostToolUseRequest := mkPostRequest {
  post_base : RequestBase;
  post_turn_id : str;
  post_subagent : option SubagentHookContext;
  post_permission_mode : str;
  post_tool_name : str;
  post_matcher_aliases : list str;
  post_tool_use_id : str;
  post_tool_input : Value;
  post_tool_response : Value;
}.

Record PostToolUseHandlerData := mkPostData { post_blocks : bool; post_contexts_for_model : list str; feedback_messages_for_model : list str }.

Record PostToolUseOutcome := mkPostOutcome {
  post_hook_events : list HookCompletedEvent;
  post_outcome_block : bool;
  post_contexts : list str;
  feedback_message : option str;
}.

Definition post_default : PostToolUseHandlerData := mkPostData false [] [].

Definition post_tool_use_stdout (out : str) : Verdict PostToolUseHandlerData :=
  if is_empty (trim out) then (Completed, [], post_default)
  else
    match parse_post_tool_use out with
    | Some parsed =>
        let contexts := if is_some (post_invalid_reason parsed) || is_some (post_invalid_block_reason parsed) then []
                        else option_list (post_context parsed) in
        let shown := warning_entries (post_universal parsed) ++ context_entries contexts in
        if negb (continue_processing (post_universal parsed)) then
          let stop_text := default (lit "PostToolUse hook stopped execution") (stop_reason (post_universal parsed)) in
          let model_feedback := default stop_text (post_reason parsed ≫= trimmed_non_empty) in
          (Stopped, shown ++ [mkEntry EntryStop stop_text], mkPostData false contexts [model_feedback])
        else
          match post_invalid_reason parsed, post_invalid_block_reason parsed with
          | Some invalid_reason, _ => (Failed, shown ++ [mkEntry EntryError invalid_reason], mkPostData false contexts [])
          | None, Some invalid_block_reason => (Failed, shown ++ [mkEntry EntryError invalid_block_reason], mkPostData false contexts [])
          | None, None =>
              if post_should_block parsed then
                (Blocked, shown ++ (mkEntry EntryFeedback <$> option_list (post_reason parsed)),
                 mkPostData true contexts (option_list (post_reason parsed)))
              else (Completed, shown, mkPostData false contexts [])
          end
    | None =>
        if looks_like_json out then failed post_default (lit "hook returned invalid post-tool-use JSON output") else (Completed, [], post_default)
    end.

Definition post_tool_use_verdict (r : CommandRunResult) : Verdict PostToolUseHandlerData :=
  match run_error r with
  | Some error => failed post_default error
  | None =>
      match exit_code r with
      | Some 0%Z => post_tool_use_stdout (stdout r)
      | Some 2%Z =>
          match trimmed_non_empty (stderr r) with
          | Some reason => (Blocked, [mkEntry EntryFeedback reason], mkPostData true [] [reason])
          | None => failed post_default (lit "PostToolUse hook exited with code 2 but did not write feedback to stderr")
          end
      | Some code => failed post_default (exited_with_code code)
      | None => failed post_default no_status_code
      end
  end.

Definition post_tool_use_parse (h : ConfiguredHandler) (r : CommandRunResult) (turn_id : option str) : option (ParsedHandler PostToolUseHandlerData) :=
  Some (parsed_handler h r turn_id (post_tool_use_verdict r)).

Definition post_tool_use_input (q : PostToolUseRequest) : list (str * Value) :=
  [field "session_id" (session_id (post_base q)); field "turn_id" (post_turn_id q)] ++ subagent_fields (post_subagent q)
  ++ [nullable_field "transcript_path" (transcript_path (post_base q)); field "cwd" (cwd (post_base q)); field "hook_event_name" (lit "PostToolUse");
      field "model" (model (post_base q)); field "permission_mode" (post_permission_mode q); field "tool_name" (post_tool_name q);
      (lit "tool_input", post_tool_input q); (lit "tool_response", post_tool_response q); field "tool_use_id" (post_tool_use_id q)].

Definition post_tool_use_preview (now : Z) (handlers : list ConfiguredHandler) (q : PostToolUseRequest) : list HookRunSummary :=
  (fun h => hook_run_for_tool_use (running_summary now h) (post_tool_use_id q))
  <$> select_handlers_for_matcher_inputs handlers PostToolUse (matcher_inputs (post_tool_name q) (post_matcher_aliases q)).

Definition post_tool_use_run (now : Z) (handlers : list ConfiguredHandler) (q : PostToolUseRequest) : option PostToolUseOutcome :=
  let matched := select_handlers_for_matcher_inputs handlers PostToolUse (matcher_inputs (post_tool_name q) (post_matcher_aliases q)) in
  if is_empty matched then Some (mkPostOutcome [] false [] None)
  else
    match json_to_string (post_tool_use_input q) with
    | Err error =>
        Some (mkPostOutcome (serialization_failure_hook_events_for_tool_use now matched (Some (post_turn_id q))
                (lit "failed to serialize post tool use hook input: " ++ error) (post_tool_use_id q)) false [] None)
    | Ok input_json =>
        results ← execute_handlers matched input_json (cwd (post_base q)) (Some (post_turn_id q)) post_tool_use_parse;
        Some (mkPostOutcome ((fun r => hook_completed_for_tool_use (completed r) (post_tool_use_id q)) <$> results)
                (existsb (fun r => post_blocks (data r)) results)
                (concat (List.map (fun r => post_contexts_for_model (data r)) results))
                (join_text_chunks (concat (List.map (fun r => feedback_messages_for_model (data r)) results))))
    end.

(** *** user_prompt_submit.rs and session_start.rs *)

(** [UserPromptSubmitHandlerData] and [SessionStartHandlerData]. *)
Record ContextHandlerData := mkContextData { should_stop : bool; handler_stop_reason : option str; contexts_for_model : list str }.

(** [UserPromptSubmitOutcome] and [SessionStartOutcome]. *)
Record ContextOutcome := mkContextOutcome {
  context_hook_events : list HookCompletedEvent;
  outcome_stop : bool;
  outcome_stop_reason : option str;
  additional_contexts : list str;
}.

Definition context_default : ContextHandlerData := mkContextData false None [].

Definition context_outcome (results : list (ParsedHandler ContextHandlerData)) : ContextOutcome :=
  mkContextOutcome (completed <$> results) (existsb (fun r => should_stop (data r)) results)
    (head (omap (fun r => handler_stop_reason (data r)) results)) (concat (List.map (fun r => contexts_for_model (data r)) results)).

Record UserPromptSubmitRequest := mkPromptRequest {
  prompt_base : RequestBase;
  prompt_turn_id : str;
  prompt_subagent : option SubagentHookContext;
  prompt_permission_mode : str;
  prompt : str;
}.

Definition user_prompt_submit_stdout (out : str) : Verdict ContextHandlerData :=
  if is_empty (trim out) then (Completed, [], context_default)
  else
    match parse_user_prompt_submit out with
    | Some parsed =>
        let contexts := if is_some (prompt_invalid_block_reason parsed) then [] else option_list (prompt_context parsed) in
        let shown := warning_entries (prompt_universal parsed) ++ context_entries contexts in
        let reason := stop_reason (prompt_universal parsed) in
        if negb (continue_processing (prompt_universal parsed)) then
          (Stopped, shown ++ (mkEntry EntryStop <$> option_list reason), mkContextData true reason contexts)
        else
          match prompt_invalid_block_reason parsed with
          | Some invalid_block_reason => (Failed, shown ++ [mkEntry EntryError invalid_block_reason], mkContextData false None contexts)
          | None =>
              if prompt_should_block parsed then
                (Blocked, shown ++ (mkEntry EntryFeedback <$> option_list (prompt_reason parsed)), mkContextData true (prompt_reason parsed) contexts)
              else (Completed, shown, mkContextData false None contexts)
          end
    | None =>
        if looks_like_json out then failed context_default (lit "hook returned invalid user prompt submit JSON output")
        else (Completed, context_entries [trim out], mkContextData false None [trim out])
    end.

Definition user_prompt_submit_verdict (r : CommandRunResult) : Verdict ContextHandlerData :=
  match run_error r with
  | Some error => failed context_default error
  | None =>
      match exit_code r with
      | Some 0%Z => user_prompt_submit_stdout (stdout r)
      | Some 2%Z =>
          match trimmed_non_empty (stderr r) with
          | Some reason => (Blocked, [mkEntry EntryFeedback reason], mkContextData true (Some reason) [])
          | None => failed context_default (lit "UserPromptSubmit hook exited with code 2 but did not write a blocking reason to stderr")
          end
      | Some code => failed context_default (exited_with_code code)
      | None => failed context_default no_status_code
      end
  end.

Definition user_prompt_submit_parse (h : ConfiguredHandler) (r : CommandRunResult) (turn_id : option str) : option (ParsedHandler ContextHandlerData) :=
  Some (parsed_handler h r turn_id (user_prompt_submit_verdict r)).

Definition user_prompt_submit_input (q : UserPromptSubmitRequest) : list (str * Value) :=
  [field "session_id" (session_id (prompt_base q)); field "turn_id" (prompt_turn_id q)] ++ subagent_fields (prompt_subagent q)
  ++ [nullable_field "transcript_path" (transcript_path (prompt_base q)); field "cwd" (cwd (prompt_base q));
      field "hook_event_name" (lit "UserPromptSubmit"); field "model" (model (prompt_base q));
      field "permission_mode" (prompt_permission_mode q); field "prompt" (prompt q)].

Definition user_prompt_submit_preview (now : Z) (handlers : list ConfiguredHandler) : list HookRunSummary :=
  running_summary now <$> select_handlers handlers UserPromptSubmit None.

Definition user_prompt_submit_run (now : Z) (handlers : list ConfiguredHandler) (q : UserPromptSubmitRequest) : option ContextOutcome :=
  let matched := select_handlers handlers UserPromptSubmit None in
  if is_empty matched then Some (mkContextOutcome [] false None [])
  else
    match json_to_string (user_prompt_submit_input q) with
    | Err error =>
        Some (mkContextOutcome (serialization_failure_hook_events now matched (Some (prompt_turn_id q))
                (lit "failed to serialize user prompt submit hook input: " ++ error)) false None [])
    | Ok input_json =>
        option_map context_outcome
          (execute_handlers matched input_json (cwd (prompt_base q)) (Some (prompt_turn_id q)) user_prompt_submit_parse)
    end.

Inductive SessionStartSource := Startup | Resume | Clear | Compact.

Definition source_as_str (s : SessionStartSource) : str :=
  match s with Startup => lit "startup" | Resume => lit "resume" | Clear => lit "clear" | Compact => lit "compact" end.

Inductive StartHookTarget := TargetSessionStart (s : SessionStartSource) | TargetSubagentStart (turn_id agent_id agent_type : str).

Record SessionStartRequest := mkStartRequest { start_base : RequestBase; start_permission_mode : str; start_target : StartHookTarget }.

Definition start_event_name (t : StartHookTarget) : HookEventName :=
  match t with TargetSessionStart _ => SessionStart | TargetSubagentStart _ _ _ => SubagentStart end.

Definition start_matcher_input (t : StartHookTarget) : str :=
  match t with TargetSessionStart s => source_as_str s | TargetSubagentStart _ _ agent_type => agent_type end.

Definition session_start_stdout (e : HookEventName) (out : str) : option (Verdict ContextHandlerData) :=
  if is_empty (trim out) then Some (Completed, [], context_default)
  else
    parsed ← match e with SessionStart => Some (parse_session_start out) | SubagentStart => Some (parse_subagent_start out) | _ => None end;
    match parsed with
    | Some parsed =>
        let contexts := option_list (start_context parsed) in
        let shown := warning_entries (start_universal parsed) ++ context_entries contexts in
        let reason := stop_reason (start_universal parsed) in
        if bool_decide (e = SessionStart) && negb (continue_processing (start_universal parsed)) then
          Some (Stopped, shown ++ (mkEntry EntryStop <$> option_list reason), mkContextData true reason contexts)
        else Some (Completed, shown, mkContextData false None contexts)
    | None =>
        if looks_like_json out then
          match e with
          | SessionStart => Some (failed context_default (lit "hook returned invalid session start JSON output"))
          | SubagentStart => Some (failed context_default (lit "hook returned invalid subagent start JSON output"))
          | _ => None
          end
        else Some (Completed, context_entries [trim out], mkContextData false None [trim out])
    end.

Definition session_start_verdict (e : HookEventName) (r : CommandRunResult) : option (Verdict ContextHandlerData) :=
  match run_error r with
  | Some error => Some (failed context_default error)
  | None =>
      match exit_code r with
      | Some 0%Z => session_start_stdout e (stdout r)
      | Some code => Some (failed context_default (exited_with_code code))
      | None => Some (failed context_default no_status_code)
      end
  end.

Definition session_start_parse (h : ConfiguredHandler) (r : CommandRunResult) (turn_id : option str) : option (ParsedHandler ContextHandlerData) :=
  option_map (parsed_handler h r turn_id) (session_start_verdict (event_name h) r).

Definition session_start_input (q : SessionStartRequest) : list (str * Value) :=
  match start_target q with
  | TargetSessionStart s =>
      [field "session_id" (session_id (start_base q)); nullable_field "transcript_path" (transcript_path (start_base q));
       field "cwd" (cwd (start_base q)); field "hook_event_name" (lit "SessionStart"); field "model" (model (start_base q));
       field "permission_mode" (start_permission_mode q); field "source" (source_as_str s)]
  | TargetSubagentStart turn_id agent_id agent_type =>
      [field "session_id" (session_id (start_base q)); field "turn_id" turn_id;
       nullable_field "transcript_path" (transcript_path (start_base q)); field "cwd" (cwd (start_base q));
       field "hook_event_name" (lit "SubagentStart"); field "model" (model (start_base q));
       field "permission_mode" (start_permission_mode q); field "agent_id" agent_id; field "agent_type" agent_type]
  end.

Definition session_start_preview (now : Z) (handlers : list ConfiguredHandler) (q : SessionStartRequest) : list HookRunSummary :=
  running_summary now <$> select_handlers handlers (start_event_name (start_target q)) (Some (start_matcher_input (start_target q))).

Definition session_start_run (now : Z) (handlers : list ConfiguredHandler) (q : SessionStartRequest) (turn_id : option str) : option ContextOutcome :=
  let matched := select_handlers handlers (start_event_name (start_target q)) (Some (start_matcher_input (start_target q))) in
  if is_empty matched then Some (mkContextOutcome [] false None [])
  else
    let turn_id := match start_target q with TargetSessionStart _ => turn_id | TargetSubagentStart id _ _ => Some id end in
    match json_to_string (session_start_input q) with
    | Err error =>
        Some (mkContextOutcome (serialization_failure_hook_events now matched turn_id
                (match start_target q with
                 | TargetSessionStart _ => lit "failed to serialize session start hook input: "
                 | TargetSubagentStart _ _ _ => lit "failed to serialize subagent start hook input: "
                 end ++ error)) false None [])
    | Ok input_json => option_map context_outcome (execute_handlers matched input_json (cwd (start_base q)) turn_id session_start_parse)
    end.

(** *** stop.rs *)

Inductive StopHookTarget := TargetStop | TargetSubagentStop (agent_id agent_type : str) (agent_transcript_path : option str).

Record StopRequest := mkStopRequest {
  stop_base : RequestBase;
  stop_turn_id : str;
  stop_permission_mode : str;
  stop_hook_active : bool;
  last_assistant_message : option str;
  stop_target : StopHookTarget;
}.

Definition stop_event_name (t : StopHookTarget) : HookEventName :=
  match t with TargetStop => Stop | TargetSubagentStop _ _ _ => SubagentStop end.

Definition stop_matcher_input (t : StopHookTarget) : option str :=
  match t with TargetStop => None | TargetSubagentStop _ agent_type _ => Some agent_type end.

Record StopHandlerData := mkStopData {
  stop_stops : bool;
  stop_data_reason : option str;
  stop_blocks : bool;
  stop_data_block_reason : option str;
  continuation_fragments : list HookPromptFragment;
}.

Record StopOutcome := mkStopOutcome { stop_hook_events : list HookCompletedEvent; stop_aggregate : StopHandlerData }.

Definition stop_default : StopHandlerData := mkStopData false None false None [].

(** The run [id] asks to go on with [reason]. *)
Definition stop_blocked (id reason : str) : StopHandlerData := mkStopData false None true (Some reason) [mkFragment reason id].

(** The name of the event, as in the messages. *)
Definition stop_label (e : HookEventName) : str := match e with SubagentStop => lit "SubagentStop" | _ => lit "Stop" end.

Definition stop_stdout (e : HookEventName) (id out : str) : Verdict StopHandlerData :=
  if is_empty (trim out) then (Completed, [], stop_default)
  else
    match (match e with SubagentStop => parse_subagent_stop out | _ => parse_stop out end) with
    | Some parsed =>
        let warnings := warning_entries (stop_universal parsed) in
        let reason := stop_reason (stop_universal parsed) in
        if negb (continue_processing (stop_universal parsed)) then
          (Stopped, warnings ++ (mkEntry EntryStop <$> option_list reason), mkStopData true reason false None [])
        else
          match stop_invalid_block_reason parsed with
          | Some invalid_block_reason => (Failed, warnings ++ [mkEntry EntryError invalid_block_reason], stop_default)
          | None =>
              if stop_should_block parsed then
                match stop_block_reason parsed ≫= trimmed_non_empty with
                | Some reason => (Blocked, warnings ++ [mkEntry EntryFeedback reason], stop_blocked id reason)
                | None =>
                    (Failed, warnings ++ [mkEntry EntryError (stop_label e ++ lit " hook returned decision:block without a non-empty reason")], stop_default)
                end
              else (Completed, warnings, stop_default)
          end
    | None =>
        failed stop_default (match e with
                             | SubagentStop => lit "hook returned invalid subagent stop hook JSON output"
                             | _ => lit "hook returned invalid stop hook JSON output"
                             end)
    end.

Definition stop_verdict (e : HookEventName) (id : str) (r : CommandRunResult) : Verdict StopHandlerData :=
  match run_error r with
  | Some error => failed stop_default error
  | None =>
      match exit_code r with
      | Some 0%Z => stop_stdout e id (stdout r)
      | Some 2%Z =>
          match trimmed_non_empty (stderr r) with
          | Some reason => (Blocked, [mkEntry EntryFeedback reason], stop_blocked id reason)
          | None => failed stop_default (stop_label e ++ lit " hook exited with code 2 but did not write a continuation prompt to stderr")
          end
      | Some code => failed stop_default (exited_with_code code)
      | None => failed stop_default no_status_code
      end
  end.

Definition stop_parse (h : ConfiguredHandler) (r : CommandRunResult) (turn_id : option str) : option (ParsedHandler StopHandlerData) :=
  match event_name h with
  | Stop | SubagentStop => Some (parsed_handler h r turn_id (stop_verdict (event_name h) (run_id h) r))
  | _ => None
  end.

Definition aggregate_results (results : list StopHandlerData) : StopHandlerData :=
  let stops := existsb stop_stops results in
  let blocks := negb stops && existsb stop_blocks results in
  mkStopData stops (head (omap stop_data_reason results)) blocks
    (if blocks then join_text_chunks (omap stop_data_block_reason results) else None)
    (if blocks then concat (List.map continuation_fragments (List.filter stop_blocks results)) else []).

Definition stop_input (q : StopRequest) : list (str * Value) :=
  let base := stop_base q in
  match stop_target q with
  | TargetStop =>
      [field "session_id" (session_id base); field "turn_id" (stop_turn_id q); nullable_field "transcript_path" (transcript_path base);
       field "cwd" (cwd base); field "hook_event_name" (lit "Stop"); field "model" (model base); field "permission_mode" (stop_permission_mode q);
       (lit "stop_hook_active", VBool (stop_hook_active q)); nullable_field "last_assistant_message" (last_assistant_message q)]
  | TargetSubagentStop agent_id agent_type agent_transcript_path =>
      [field "session_id" (session_id base); field "turn_id" (stop_turn_id q); nullable_field "transcript_path" (transcript_path base);
       nullable_field "agent_transcript_path" agent_transcript_path; field "cwd" (cwd base); field "hook_event_name" (lit "SubagentStop");
       field "model" (model base); field "permission_mode" (stop_permission_mode q); (lit "stop_hook_active", VBool (stop_hook_active q));
       field "agent_id" agent_id; field "agent_type" agent_type; nullable_field "last_assistant_message" (last_assistant_message q)]
  end.

Definition stop_preview (now : Z) (handlers : list ConfiguredHandler) (q : StopRequest) : list HookRunSummary :=
  running_summary now <$> select_handlers handlers (stop_event_name (stop_target q)) (stop_matcher_input (stop_target q)).

Definition stop_run (now : Z) (handlers : list ConfiguredHandler) (q : StopRequest) : option StopOutcome :=
  let matched := select_handlers handlers (stop_event_name (stop_target q)) (stop_matcher_input (stop_target q)) in
  if is_empty matched then Some (mkStopOutcome [] stop_default)
  else
    match json_to_string (stop_input q) with
    | Err error =>
        Some (mkStopOutcome (serialization_failure_hook_events now matched (Some (stop_turn_id q))
                (match stop_target q with
                 | TargetStop => lit "failed to serialize stop hook input: "
                 | TargetSubagentStop _ _ _ => lit "failed to serialize subagent stop hook input: "
                 end ++ error)) stop_default)
    | Ok input_json =>
        results ← execute_handlers matched input_json (cwd (stop_base q)) (Some (stop_turn_id q)) stop_parse;
        Some (mkStopOutcome (completed <$> results) (aggregate_results (data <$> results)))
    end.

(** *** compact.rs *)

(** [PreCompactRequest] and [PostCompactRequest]. *)
Record CompactRequest := mkCompactRequest {
  compact_base : RequestBase;
  compact_turn_id : str;
  compact_subagent : option SubagentHookContext;
  trigger : str;
}.

Record CompactHandlerData := mkCompactData { compact_stops : bool; compact_stop_reason : option str }.

(** [PreCompactOutcome] and [StatelessHookOutcome]. *)
Record CompactOutcome := mkCompactOutcome {
  compact_hook_events : list HookCompletedEvent;
  compact_outcome_stop : bool;
  compact_outcome_reason : option str;
}.

Definition compact_default : CompactHandlerData := mkCompactData false None.

Definition compact_stdout (event_label : str) (parse_output : str -> option StatelessHookOutput) (out : str) : Verdict CompactHandlerData :=
  if is_empty (trim out) then (Completed, [], compact_default)
  else
    match parse_output out with
    | Some parsed =>
        let warnings := warning_entries (stateless_universal parsed) in
        let reason := stop_reason (stateless_universal parsed) in
        if negb (continue_processing (stateless_universal parsed)) then
          (Stopped, warnings ++ [mkEntry EntryStop (default (event_label ++ lit " hook stopped execution") reason)], mkCompactData true reason)
        else
          match stateless_invalid_reason parsed with
          | Some invalid_reason => (Failed, warnings ++ [mkEntry EntryError invalid_reason], compact_default)
          | None => (Completed, warnings, compact_default)
          end
    | None =>
        if looks_like_json out then failed compact_default (lit "hook returned invalid " ++ event_label ++ lit " hook JSON output")
        else (Completed, [], compact_default)
    end.

Definition compact_verdict (event_label : str) (parse_output : str -> option StatelessHookOutput) (r : CommandRunResult) : Verdict CompactHandlerData :=
  match run_error r with
  | Some error => failed compact_default error
  | None =>
      match exit_code r with
      | Some 0%Z => compact_stdout event_label parse_output (stdout r)
      | Some code => failed compact_default (default (exited_with_code code) (trimmed_non_empty (stderr r)))
      | None => failed compact_default (lit "hook process terminated without an exit code")
      end
  end.

(** [parse_pre_completed], and [parse_completed] for the event after a compaction. *)
Definition compact_parse (event_label : str) (parse_output : str -> option StatelessHookOutput) (h : ConfiguredHandler) (r : CommandRunResult)
    (turn_id : option str) : option (ParsedHandler CompactHandlerData) :=
  Some (parsed_handler h r turn_id (compact_verdict event_label parse_output r)).

Definition compact_input (event_label : str) (q : CompactRequest) : list (str * Value) :=
  [field "session_id" (session_id (compact_base q)); field "turn_id" (compact_turn_id q)] ++ subagent_fields (compact_subagent q)
  ++ [nullable_field "transcript_path" (transcript_path (compact_base q)); field "cwd" (cwd (compact_base q));
      field "hook_event_name" event_label; field "model" (model (compact_base q)); field "trigger" (trigger q)].

Definition compact_preview (e : HookEventName) (now : Z) (handlers : list ConfiguredHandler) (q : CompactRequest) : list HookRunSummary :=
  running_summary now <$> select_handlers handlers e (Some (trigger q)).

Definition compact_run (e : HookEventName) (event_label failure : str) (parse_output : str -> option StatelessHookOutput) (now : Z)
    (handlers : list ConfiguredHandler) (q : CompactRequest) : option CompactOutcome :=
  let matched := select_handlers handlers e (Some (trigger q)) in
  if is_empty matched then Some (mkCompactOutcome [] false None)
  else
    match json_to_string (compact_input event_label q) with
    | Err error =>
        Some (mkCompactOutcome (serialization_failure_hook_events now matched (Some (compact_turn_id q)) (failure ++ error)) false None)
    | Ok input_json =>
        results ← execute_handlers matched input_json (cwd (compact_base q)) (Some (compact_turn_id q)) (compact_parse event_label parse_output);
        Some (mkCompactOutcome (completed <$> results) (existsb (fun r => compact_stops (data r)) results)
                (head (omap (fun r => compact_stop_reason (data r)) results)))
    end.

Definition run_pre : Z -> list ConfiguredHandler -> CompactRequest -> option CompactOutcome :=
  compact_run PreCompact (lit "PreCompact") (lit "failed to serialize pre compact hook input: ") parse_pre_compact.

Definition run_post : Z -> list ConfiguredHandler -> CompactRequest -> option CompactOutcome :=
  compact_run PostCompact (lit "PostCompact") (lit "failed to serialize post compact hook input: ") parse_post_compact.

Definition preview_pre : Z -> list ConfiguredHandler -> CompactRequest -> list HookRunSummary := compact_preview PreCompact.
Definition preview_post : Z -> list ConfiguredHandler -> CompactRequest -> list HookRunSummary := compact_preview PostCompact.

End Engine.

(** ** output_spill.rs *)

Definition HOOK_OUTPUT_TOKEN_LIMIT : Z := 2500.

Definition spilled_hook_output_preview (text : str) (path : AbsolutePathBuf) : option str :=
  let footer := [LF; LF] ++ lit "Full hook output saved to: " ++ path in
  let preview_policy := Truncate.Tokens (sat_sub HOOK_OUTPUT_TOKEN_LIMIT (Truncate.approx_token_count footer)) in
  option_map (fun preview => preview ++ footer) (Truncate.formatted_truncate_text text preview_policy).

(** [created] and [written]: whether the directory and the file could be written. *)
Definition maybe_spill_text (created written : bool) (path : AbsolutePathBuf) (text : str) : option str :=
  if (Truncate.approx_token_count text <=? HOOK_OUTPUT_TOKEN_LIMIT)%Z then Some text
  else if negb created || negb written then Truncate.formatted_truncate_text text (Truncate.Tokens HOOK_OUTPUT_TOKEN_LIMIT)
  else spilled_hook_output_preview text path.

Arguments mkParsed {T}.
Arguments completed {T}.
Arguments data {T}.
Arguments completion_order {T}.
End Hooks.
