(* ===== verification/HooksFacts.v ===== *)
(** Theorems on the hooks engine: what the hooks of an event do together does
    not depend on the order in which they end, and a hook that objects is heard. *)

From stdpp Require Import base list option numbers strings gmap sorting.
From S2P Require Import Prelude Machine RustStr Truncate ResponseItems WorldState Hooks.

Module HooksFacts.
Import WorldState Hooks.
Open Scope rust_scope.

(** ** Running the hooks of an event *)

(** Every one of [n] hooks ends once. *)
Definition all_end (order : list nat) (n : nat) : Prop := order ≡ₚ seq 0 n.

Section Facts.
Context `{HookLib}.
Context (run_command : nat -> ConfiguredHandler -> str -> str -> CommandRunResult) (order : list nat).

#[local] Instance key_total {A} : Total (@key_le A).
Proof. intros x y. unfold key_le. lia. Qed.
#[local] Instance key_trans {A} : Transitive (@key_le A).
Proof. intros x y z. unfold key_le. lia. Qed.

(** A list of pairs whose keys are the first numbers is sorted by position. *)
Lemma sorted_keys {A} (l : list (nat * A)) n : l.*1 ≡ₚ seq 0 n -> (merge_sort key_le l).*1 = seq 0 n.
Proof using.
  intros Hp. apply (StronglySorted_unique le).
  - assert (Hs := StronglySorted_merge_sort key_le l). clear Hp. induction Hs as [|x l' Hs IH Hx]; [constructor|]. rewrite fmap_cons.
    constructor; [done|]. apply Forall_fmap. eapply Forall_impl; [exact Hx|]. done.
  - clear Hp. generalize 0. induction n as [|n IH]; intros k; [constructor|]. cbn [seq]. constructor; [apply IH|].
    apply Forall_forall. intros x Hx%elem_of_seq. lia.
  - rewrite <- Hp. by rewrite merge_sort_Permutation.
Qed.

(** The results are those of the hooks, in the order of the configuration, each with the place in which it ended. *)
Lemma execute_results {T} handlers input_json cwd turn_id (parse : ConfiguredHandler -> CommandRunResult -> option str -> option (ParsedHandler T))
    (parsed : nat -> ConfiguredHandler -> ParsedHandler T) :
  all_end order (length handlers) ->
  (forall i h, handlers !! i = Some h -> parse h (run_command i h input_json cwd) turn_id = Some (parsed i h)) ->
  exists results, execute_handlers run_command order handlers input_json cwd turn_id parse = Some results
    /\ length results = length handlers
    /\ forall i h, handlers !! i = Some h -> exists n, order !! n = Some i /\ results !! i = Some (with_completion_order (parsed i h) n).
Proof using.
  intros Ho Hparse. unfold execute_handlers.
  assert (Hall : exists l, mapM (execute_one run_command handlers input_json cwd turn_id parse) (imap pair order) = Some l
    /\ l.*1 = order /\ forall j i p, l !! j = Some (i, p) -> exists h, handlers !! i = Some h /\ order !! j = Some i /\ p = with_completion_order (parsed i h) j).
  { assert (Hone : forall j i, order !! j = Some i -> exists h, handlers !! i = Some h
      /\ execute_one run_command handlers input_json cwd turn_id parse (j, i) = Some (i, with_completion_order (parsed i h) j)).
    { intros j i Hj. assert (Hi : i ∈ order) by (by eapply list_elem_of_lookup_2). rewrite Ho in Hi. apply elem_of_seq in Hi.
      destruct (lookup_lt_is_Some_2 handlers i ltac:(lia)) as [h Hh]. exists h. split; [done|]. cbn. rewrite Hh. cbn. by rewrite (Hparse i h Hh). }
    destruct (mapM_is_Some_2 (execute_one run_command handlers input_json cwd turn_id parse) (imap pair order)) as [l El].
    { apply Forall_lookup. intros j [n i]. rewrite list_lookup_imap. destruct (order !! j) as [i'|] eqn:Ej; [|done]. cbn. intros [= <- <-].
      destruct (Hone j i' Ej) as (h & _ & E). by eexists. }
    exists l. split; [done|]. apply mapM_Some_1 in El.
    assert (Hget : forall j i p, l !! j = Some (i, p) -> exists h, handlers !! i = Some h /\ order !! j = Some i /\ p = with_completion_order (parsed i h) j).
    { intros j i p Hj. destruct (Forall2_lookup_r _ _ _ _ _ El Hj) as ([n i'] & Hs & Hx). rewrite list_lookup_imap in Hs.
      destruct (order !! j) as [i''|] eqn:Ej; [|done]. cbn in Hs. injection Hs as <- <-. destruct (Hone j i'' Ej) as (h & Hh & E). rewrite E in Hx.
      injection Hx as <- <-. by exists h. }
    split; [|done]. apply list_eq. intros j. rewrite list_lookup_fmap. apply Forall2_length in El. rewrite length_imap in El.
    destruct (l !! j) as [[i p]|] eqn:Ej.
    - destruct (Hget j i p Ej) as (h & _ & -> & _). done.
    - cbn. symmetry. apply lookup_ge_None. apply lookup_ge_None in Ej. lia. }
  destruct Hall as (l & -> & Hl & Hget). cbn [mbind option_bind]. eexists. split; [done|].
  assert (Hk : (merge_sort key_le l).*1 = seq 0 (length handlers)) by (apply sorted_keys; by rewrite Hl).
  assert (Hlen : length (merge_sort key_le l) = length handlers) by (rewrite <- (length_fmap fst), Hk; apply length_seq).
  split; [by rewrite length_fmap|]. intros i h Hh. rewrite list_lookup_fmap.
  assert (Hlt := lookup_lt_Some _ _ _ Hh). destruct (lookup_lt_is_Some_2 (merge_sort key_le l) i ltac:(lia)) as [[k p] Hi]. rewrite Hi. cbn.
  assert (k = i) as ->.
  { apply (f_equal (lookup i)) in Hk. rewrite list_lookup_fmap, Hi, lookup_seq_lt in Hk by lia. by injection Hk. }
  assert (Hin : (i, p) ∈ l) by (rewrite <- (merge_sort_Permutation key_le l); by eapply list_elem_of_lookup_2).
  apply list_elem_of_lookup in Hin as [j Hj]. destruct (Hget j i p Hj) as (h' & Hh' & Hj' & ->). rewrite Hh in Hh'. injection Hh' as <-. by exists j.
Qed.

(** What does not look at the place is that of the hooks, in the order of the configuration. *)
Lemma execute_spec {T} handlers input_json cwd turn_id (parse : ConfiguredHandler -> CommandRunResult -> option str -> option (ParsedHandler T))
    (parsed : nat -> ConfiguredHandler -> ParsedHandler T) :
  all_end order (length handlers) ->
  (forall i h, handlers !! i = Some h -> parse h (run_command i h input_json cwd) turn_id = Some (parsed i h)) ->
  exists results, execute_handlers run_command order handlers input_json cwd turn_id parse = Some results
    /\ data <$> results = imap (fun i h => data (parsed i h)) handlers
    /\ completed <$> results = imap (fun i h => completed (parsed i h)) handlers
    /\ forall r, r ∈ results <-> exists i h n, handlers !! i = Some h /\ order !! n = Some i /\ r = with_completion_order (parsed i h) n.
Proof using.
  intros Ho Hparse. destruct (execute_results handlers input_json cwd turn_id parse parsed Ho Hparse) as (results & E & Hlen & Hget).
  exists results. split; [done|].
  assert (Hmap : forall B (f : ParsedHandler T -> B), (forall p n, f (with_completion_order p n) = f p) -> f <$> results = imap (fun i h => f (parsed i h)) handlers).
  { intros B f Hf. apply list_eq. intros i. rewrite list_lookup_fmap, list_lookup_imap. destruct (handlers !! i) as [h|] eqn:Eh.
    - destruct (Hget i h Eh) as (n & _ & ->). cbn. by rewrite Hf.
    - apply lookup_ge_None in Eh. by rewrite (proj2 (lookup_ge_None results i)) by lia. }
  split; [by apply Hmap|]. split; [by apply Hmap|]. intros r. split.
  - intros [i Hi]%list_elem_of_lookup. assert (Hlt := lookup_lt_Some _ _ _ Hi). destruct (lookup_lt_is_Some_2 handlers i ltac:(lia)) as [h Hh].
    destruct (Hget i h Hh) as (n & Hn & Hr). rewrite Hi in Hr. injection Hr as ->. by exists i, h, n.
  - intros (i & h & n & Hh & Hn & ->). destruct (Hget i h Hh) as (n' & Hn' & Hr).
    assert (n' = n) as ->; [|by eapply list_elem_of_lookup_2].
    assert (Hnd : NoDup order) by (rewrite Ho; apply NoDup_seq). by eapply NoDup_lookup.
Qed.

Lemma existsb_fmap {A B} (f : B -> bool) (g : A -> B) l : existsb f (g <$> l) = existsb (fun x => f (g x)) l.
Proof using. induction l as [|x l IH]; [done|]. rewrite fmap_cons. cbn [existsb]. by rewrite IH. Qed.

Lemma omap_of_fmap {A B C} (f : B -> option C) (g : A -> B) (l : list A) : omap f (g <$> l) = omap (fun x => f (g x)) l.
Proof using. induction l as [|x l IH]; [done|]. rewrite fmap_cons. cbn. by rewrite IH. Qed.

Lemma existsb_ext_all {A} (f g : A -> bool) l : (forall x, f x = g x) -> existsb f l = existsb g l.
Proof using. intros Hfg. induction l as [|x l IH]; [done|]. cbn [existsb]. by rewrite Hfg, IH. Qed.

Lemma omap_ext_all {A B} (f g : A -> option B) (l : list A) : (forall x, f x = g x) -> omap f l = omap g l.
Proof using. intros Hfg. induction l as [|x l IH]; [done|]. cbn. by rewrite Hfg, IH. Qed.

Lemma concat_fmap {A B C} (f : B -> list C) (g : A -> B) (l : list A) : concat (List.map f (g <$> l)) = concat (List.map (fun x => f (g x)) l).
Proof using. induction l as [|x l IH]; [done|]. rewrite fmap_cons. cbn. by rewrite IH. Qed.

(** ** Before a tool call *)

(** *** Reference: what a hook that ran says *)

Definition supported (u : HookUniversalOutputWire) : bool :=
  wire_continue u && negb (is_some (wire_stop_reason u)) && negb (wire_suppress_output u).

(** The objection of an answer: a denial with a reason, or a block of the old form. *)
Definition objection (w : PreToolUseCommandOutputWire) : option str :=
  if supported (pre_wire_universal w) then
    match List.filter uses_specific_decision (option_list (pre_wire_specific w)) with
    | output :: _ =>
        match permission_decision output, pre_updated_input output with
        | Some PermissionDeny, None => permission_decision_reason output ≫= trimmed_non_empty
        | _, _ => None
        end
    | [] => match pre_wire_decision w with Some Block => pre_wire_reason w ≫= trimmed_non_empty | _ => None end
    end
  else None.

Definition objects (r : CommandRunResult) : option str :=
  if is_some (run_error r) then None
  else match exit_code r with
       | Some 0%Z => parse_json read_pre_tool_use (stdout r) ≫= objection
       | Some 2%Z => trimmed_non_empty (stderr r)
       | _ => None
       end.

(** The input it wants instead. *)
Definition rewrite_of (w : PreToolUseCommandOutputWire) : option Value :=
  if supported (pre_wire_universal w) then
    output ← pre_wire_specific w; if is_allow (permission_decision output) then pre_updated_input output else None
  else None.

Definition rewrites (r : CommandRunResult) : option Value :=
  if is_some (run_error r) then None
  else match exit_code r with Some 0%Z => parse_json read_pre_tool_use (stdout r) ≫= rewrite_of | _ => None end.

Lemma unsupported_universal_spec e u : unsupported_universal e (universal_from u) = None <-> supported u = true.
Proof using.
  unfold unsupported_universal, supported, universal_from. cbn. destruct u as [c [r|] s m]; cbn; destruct c, s; by cbn.
Qed.

Lemma parse_pre_tool_use_spec out parsed : parse_pre_tool_use out = Some parsed ->
  match pre_invalid_reason parsed with
  | Some _ => parse_json read_pre_tool_use out ≫= objection = None /\ parse_json read_pre_tool_use out ≫= rewrite_of = None
  | None => pre_block_reason parsed = parse_json read_pre_tool_use out ≫= objection /\ pre_input parsed = parse_json read_pre_tool_use out ≫= rewrite_of
              /\ (is_some (pre_block_reason parsed) = true -> pre_input parsed = None)
  end.
Proof using.
  unfold parse_pre_tool_use. destruct (parse_json read_pre_tool_use out) as [w|]; [|done]. cbn [mbind option_bind]. intros [= <-].
  cbn [pre_invalid_reason pre_block_reason pre_input]. unfold objection, rewrite_of, unsupported_pre_tool_use_universal.
  assert (Hu := unsupported_universal_spec (lit "PreToolUse") (pre_wire_universal w)).
  destruct (unsupported_universal (lit "PreToolUse") (universal_from (pre_wire_universal w))) as [bad|] eqn:Eu; cbn [or_else].
  { destruct (supported (pre_wire_universal w)); [by destruct Hu as [_ Hu]; specialize (Hu eq_refl)|done]. }
  rewrite (proj1 Hu eq_refl). clear Hu Eu. change trimmed_non_empty with trimmed_reason.
  destruct w as [u d reason sp]. destruct sp as [[pd r i c]|]; [destruct pd as [[]|], r as [r|], i as [i|]|];
    destruct d as [[]|], reason as [reason|]; cbn; try done;
    first [destruct (trimmed_reason r) eqn:?; cbn; done|destruct (trimmed_reason reason) eqn:?; cbn; done].
Qed.

(** Shown and effect agree: [Blocked] is an objection, and a failed hook has no effect. *)
Lemma pre_verdict_spec r :
  let '(status, _, d) := pre_tool_use_verdict r in
  should_block d = is_some (objects r) /\ block_reason d = objects r
  /\ updated_input d = (if is_some (objects r) then None else rewrites r).
Proof using.
  unfold pre_tool_use_verdict, objects, rewrites. destruct (run_error r); [done|]. cbn [is_some].
  destruct (exit_code r) as [code|]; [|done]. destruct code as [|p|p]; [| |done].
  - unfold pre_tool_use_stdout. destruct (is_empty (trim (stdout r))) eqn:Et.
    { assert (parse_json read_pre_tool_use (stdout r) = None) as -> by (unfold parse_json; by rewrite Et). done. }
    destruct (parse_pre_tool_use (stdout r)) as [parsed|] eqn:Ep.
    + apply parse_pre_tool_use_spec in Ep. destruct (pre_invalid_reason parsed); [by destruct Ep as [-> ->]|].
      destruct Ep as (<- & <- & Hx). by destruct (pre_block_reason parsed).
    + assert (parse_json read_pre_tool_use (stdout r) = None) as ->.
      { unfold parse_pre_tool_use in Ep. by destruct (parse_json read_pre_tool_use (stdout r)). }
      by destruct (looks_like_json (stdout r)).
  - destruct p as [p|[p|p|]|]; try done. by destruct (trimmed_non_empty (stderr r)).
Qed.

Lemma latest_best (results : list (ParsedHandler PreToolUseHandlerData)) best :
  match fold_left (fun best r =>
    match updated_input (data r) with
    | Some input => match best with Some (n, _) => if n <=? completion_order r then Some (completion_order r, input) else best | None => Some (completion_order r, input) end
    | None => best
    end) results best with
  | Some (n, v) => ((exists r, r ∈ results /\ completion_order r = n /\ updated_input (data r) = Some v) \/ best = Some (n, v))
      /\ (forall r, r ∈ results -> updated_input (data r) <> None -> completion_order r <= n) /\ (forall m w, best = Some (m, w) -> m <= n)
  | None => best = None /\ forall r, r ∈ results -> updated_input (data r) = None
  end.
Proof using.
  revert best. induction results as [|r results IH]; intros best; cbn [fold_left].
  { destruct best as [[n v]|]; [|split; [done|by intros r Hr%elem_of_nil]]. split; [by right|]. split; [by intros r Hr%elem_of_nil|]. by intros m w [= -> ->]. }
  set (best' := match updated_input (data r) with Some _ => _ | None => _ end). specialize (IH best').
  destruct (fold_left _ results best') as [[n v]|].
  - destruct IH as (Hfrom & Hmax & Hb).
    assert (Hbest : forall m w, best = Some (m, w) -> m <= n).
    { intros m w ->. unfold best' in Hb. destruct (updated_input (data r)); [|by eapply Hb].
      destruct (Nat.leb_spec m (completion_order r)); [specialize (Hb _ _ eq_refl); lia|by eapply Hb]. }
    split; [|split; [|done]].
    + destruct Hfrom as [(r' & Hr' & H1 & H2)|Hfrom]; [left; exists r'; split; [by right|done]|].
      unfold best' in Hfrom. destruct (updated_input (data r)) as [input|] eqn:Eu; [|by right].
      destruct best as [[m w]|]; [destruct (m <=? completion_order r)|];
        first [by right|injection Hfrom as <- <-; left; exists r; split; [by left|done]].
    + intros r' [->|Hr']%elem_of_cons Hu; [|by apply Hmax]. unfold best' in Hb. destruct (updated_input (data r)) as [input|]; [|done].
      destruct best as [[m w]|]; [destruct (Nat.leb_spec m (completion_order r))|]; [specialize (Hb _ _ eq_refl); lia| |specialize (Hb _ _ eq_refl); lia].
      specialize (Hb _ _ eq_refl). lia.
  - destruct IH as [Hb Hnone]. unfold best' in Hb. destruct (updated_input (data r)) as [input|] eqn:Eu.
    + destruct best as [[m w]|]; [by destruct (m <=? completion_order r)|done].
    + split; [done|]. by intros r' [->|Hr']%elem_of_cons; [|apply Hnone].
Qed.

(** [w i]: what the [i]-th hook rewrites the input to. *)
Lemma latest_of_runs results (w : nat -> option Value) :
  (forall n v, (exists r, r ∈ results /\ completion_order r = n /\ updated_input (data r) = Some v) <-> exists i, order !! n = Some i /\ w i = Some v) ->
  match latest_updated_input results with
  | Some v => exists i n, order !! n = Some i /\ w i = Some v /\ forall i' n', order !! n' = Some i' -> w i' <> None -> n' <= n
  | None => forall n i, order !! n = Some i -> w i = None
  end.
Proof using.
  intros Hr. assert (Hbest := latest_best results None). unfold latest_updated_input. destruct (fold_left _ results None) as [[n v]|]; cbn.
  - destruct Hbest as ([Hv|?] & Hmax & _); [|done]. apply Hr in Hv as (i & Hn & Hv). exists i, n. split; [done|]. split; [done|].
    intros i' n' Hn' Hw. destruct (w i') as [v'|] eqn:Ew; [|done]. destruct (proj2 (Hr n' v') (ex_intro _ i' (conj Hn' Ew))) as (r & Hin & <- & Hu).
    apply Hmax; [done|]. by rewrite Hu.
  - destruct Hbest as [_ Hnone]. intros n i Hn. destruct (w i) as [v|] eqn:Ew; [|done].
    destruct (proj2 (Hr n v) (ex_intro _ i (conj Hn Ew))) as (r & Hin & _ & Hu). by rewrite (Hnone r Hin) in Hu.
Qed.

Lemma data_parsed {T} h r turn_id (v : HookRunStatus * list HookOutputEntry * T) : data (parsed_handler h r turn_id v) = v.2.
Proof using. by destruct v as [[] ?]. Qed.

(** What the hooks that ran say, in terms of the reference. *)
Lemma pre_results matched input_json dir turn_id :
  let runs := imap (fun i h => run_command i h input_json dir) matched in
  all_end order (length matched) ->
  exists results, execute_handlers run_command order matched input_json dir turn_id pre_tool_use_parse = Some results
    /\ existsb (fun r => should_block (data r)) results = existsb (fun r => is_some (objects r)) runs
    /\ omap (fun r => block_reason (data r)) results = omap objects runs
    /\ forall n v, (exists r, r ∈ results /\ completion_order r = n /\ updated_input (data r) = Some v)
         <-> exists i, order !! n = Some i /\ (runs !! i ≫= fun r => if is_some (objects r) then None else rewrites r) = Some v.
Proof using.
  intros runs Ho.
  destruct (execute_spec matched input_json dir turn_id pre_tool_use_parse
    (fun i h => parsed_handler h (run_command i h input_json dir) turn_id (pre_tool_use_verdict (run_command i h input_json dir))) Ho ltac:(done))
    as (results & E & Hdata & _ & Hin).
  assert (Hd : data <$> results = (fun r => (pre_tool_use_verdict r).2) <$> runs).
  { rewrite Hdata. unfold runs. rewrite fmap_imap. apply imap_ext. intros i h _. apply data_parsed. }
  exists results. split; [done|]. split; [|split].
  - rewrite <- (existsb_fmap should_block data), Hd, existsb_fmap. apply existsb_ext_all. intros r. assert (Hv := pre_verdict_spec r).
    destruct (pre_tool_use_verdict r) as [[] d]. apply Hv.
  - rewrite <- (omap_of_fmap block_reason data), Hd, omap_of_fmap. apply omap_ext_all. intros r. assert (Hv := pre_verdict_spec r).
    destruct (pre_tool_use_verdict r) as [[] d]. apply Hv.
  - assert (Hup : forall i h, matched !! i = Some h -> (runs !! i ≫= fun r => if is_some (objects r) then None else rewrites r)
      = updated_input (pre_tool_use_verdict (run_command i h input_json dir)).2).
    { intros i h Hh. unfold runs. rewrite list_lookup_imap, Hh. cbn. assert (Hv := pre_verdict_spec (run_command i h input_json dir)).
      destruct (pre_tool_use_verdict _) as [[] d]. symmetry. apply Hv. }
    intros n v. split.
    + intros (r & (i & h & m & Hh & Hm & ->)%Hin & <- & Hu). exists i. split; [done|]. rewrite (Hup i h Hh). cbn in Hu. by rewrite data_parsed in Hu.
    + intros (i & Hn & Hw). destruct (matched !! i) as [h|] eqn:Eh; [|unfold runs in Hw; by rewrite list_lookup_imap, Eh in Hw].
      rewrite (Hup i h Eh) in Hw. eexists. split; [apply Hin; by exists i, h, n|]. split; [done|]. cbn. by rewrite data_parsed.
Qed.

(** The hooks that a call of a tool runs. *)
Definition pre_tool_use_matched (handlers : list ConfiguredHandler) (q : PreToolUseRequest) : list ConfiguredHandler :=
  select_handlers_for_matcher_inputs handlers PreToolUse (matcher_inputs (pre_tool_name q) (pre_matcher_aliases q)).

(** C17: A call of a tool is blocked exactly when one of its hooks objects, with a
    non-blank text on the error output and code 2 or with a denial that the
    protocol supports; the reason given is that of the first such hook of the
    configuration, in whatever order they end.  A blocked call is not
    rewritten, and otherwise the input is that of the rewriting hook that
    ended last. *)
Theorem pre_tool_use_blocks now handlers q input_json :
  let matched := pre_tool_use_matched handlers q in
  let runs := imap (fun i h => run_command i h input_json (cwd (pre_base q))) matched in
  all_end order (length matched) -> json_to_string (pre_tool_use_input q) = Ok input_json ->
  exists o, pre_tool_use_run run_command order now handlers q = Some o
    /\ pre_outcome_block o = existsb (fun r => is_some (objects r)) runs
    /\ pre_outcome_reason o = head (omap objects runs)
    /\ match pre_outcome_input o with
       | Some v => pre_outcome_block o = false
           /\ exists i n r, order !! n = Some i /\ runs !! i = Some r /\ rewrites r = Some v
                /\ forall i' n' r', order !! n' = Some i' -> runs !! i' = Some r' -> rewrites r' <> None -> n' <= n
       | None => pre_outcome_block o = true \/ forall r, r ∈ runs -> rewrites r = None
       end.
Proof using.
  intros matched runs Ho Hjson. unfold pre_tool_use_run. fold (pre_tool_use_matched handlers q). fold matched.
  destruct (is_empty matched) eqn:Eempty.
  { apply is_empty_true in Eempty. eexists. split; [done|]. unfold runs. rewrite Eempty. split; [done|]. split; [done|].
    right. by intros r Hr%elem_of_nil. }
  rewrite Hjson. destruct (pre_results matched input_json (cwd (pre_base q)) (Some (pre_turn_id q)) Ho) as (results & -> & Hb & Hr & Hu).
  fold runs in Hb, Hr, Hu. cbn [mbind option_bind]. eexists. split; [done|]. cbn [pre_outcome_block pre_outcome_reason pre_outcome_input].
  rewrite Hb, Hr. split; [done|]. split; [done|]. destruct (existsb (fun r => is_some (objects r)) runs) eqn:Eb; [by left|].
  assert (Hno : forall i r, runs !! i = Some r -> objects r = None).
  { intros i r Hi. destruct (objects r) eqn:Eo; [|done]. apply not_true_iff_false in Eb. destruct Eb. apply existsb_exists. exists r.
    split; [by apply list_elem_of_In, (list_elem_of_lookup_2 _ i)|by rewrite Eo]. }
  assert (Hlatest := latest_of_runs results (fun i => runs !! i ≫= rewrites)). cbn beta in Hlatest.
  assert (Hw : forall i, (runs !! i ≫= fun r => if is_some (objects r) then None else rewrites r) = runs !! i ≫= rewrites).
  { intros i. destruct (runs !! i) as [r|] eqn:Er; [|done]. cbn. by rewrite (Hno i r Er). }
  setoid_rewrite Hw in Hu. specialize (Hlatest Hu). destruct (latest_updated_input results) as [v|].
  - destruct Hlatest as (i & n & Hn & Hv & Hmax). split; [done|]. destruct (runs !! i) as [r|] eqn:Er; [|done]. exists i, n, r.
    split; [done|]. split; [done|]. split; [done|]. intros i' n' r' Hn' Hr' Hw'. apply (Hmax i' n' Hn'). by rewrite Hr'.
  - right. intros r [i Hi]%list_elem_of_lookup. assert (Hi' : i ∈ order).
    { rewrite Ho. apply elem_of_seq. apply lookup_lt_Some in Hi. unfold runs in Hi. rewrite length_imap in Hi. lia. }
    apply list_elem_of_lookup in Hi' as [n Hn]. specialize (Hlatest n i Hn). by rewrite Hi in Hlatest.
Qed.

(** ** Permission requests *)

(** *** Reference: the answer of a hook that ran *)

Definition request_answer (w : PermissionRequestCommandOutputWire) : option PermissionRequestDecision :=
  if supported (request_wire_universal w) then
    d ← request_wire_specific w ≫= id;
    if is_some (request_updated_input d) || is_some (updated_permissions d) || interrupt d then None else Some (permission_request_decision d)
  else None.

Definition answers (r : CommandRunResult) : option PermissionRequestDecision :=
  if is_some (run_error r) then None
  else match exit_code r with
       | Some 0%Z => parse_json read_permission_request (stdout r) ≫= request_answer
       | Some 2%Z => Deny <$> trimmed_non_empty (stderr r)
       | _ => None
       end.

Definition denial (d : PermissionRequestDecision) : option str := match d with Deny message => Some message | Allow => None end.

Lemma parse_permission_request_spec out parsed : parse_permission_request out = Some parsed ->
  (if is_some (request_invalid_reason parsed) then None else request_decision parsed) = parse_json read_permission_request out ≫= request_answer.
Proof using.
  unfold parse_permission_request. destruct (parse_json read_permission_request out) as [w|]; [|done]. cbn [mbind option_bind]. intros [= <-].
  cbn [request_invalid_reason request_decision]. unfold request_answer, unsupported_permission_request_universal.
  assert (Hu := unsupported_universal_spec (lit "PermissionRequest") (request_wire_universal w)).
  destruct (unsupported_universal (lit "PermissionRequest") (universal_from (request_wire_universal w))) as [bad|] eqn:Eu; cbn [or_else is_some].
  { destruct (supported (request_wire_universal w)); [by destruct Hu as [_ Hu]; specialize (Hu eq_refl)|done]. }
  rewrite (proj1 Hu eq_refl). destruct (request_wire_specific w) as [[[b [i|] [p|] m []]|]|]; done.
Qed.

Lemma request_verdict_spec r : (permission_request_verdict r).2 = answers r.
Proof using.
  unfold permission_request_verdict, answers. destruct (run_error r); [done|]. cbn [is_some].
  destruct (exit_code r) as [code|]; [|done]. destruct code as [|p|p]; [| |done].
  - unfold permission_request_stdout. destruct (is_empty (trim (stdout r))) eqn:Et.
    { assert (parse_json read_permission_request (stdout r) = None) as -> by (unfold parse_json; by rewrite Et). done. }
    destruct (parse_permission_request (stdout r)) as [parsed|] eqn:Ep.
    + apply parse_permission_request_spec in Ep. rewrite <- Ep. destruct (request_invalid_reason parsed); [done|].
      by destruct (request_decision parsed) as [[]|].
    + assert (parse_json read_permission_request (stdout r) = None) as ->.
      { unfold parse_permission_request in Ep. by destruct (parse_json read_permission_request (stdout r)). }
      by destruct (looks_like_json (stdout r)).
  - destruct p as [p|[p|p|]|]; try done. by destruct (trimmed_non_empty (stderr r)).
Qed.

Lemma resolve_decision_spec ds allow : (allow = None \/ allow = Some Allow) ->
  resolve_permission_request_from allow ds = match head (omap denial ds) with
                                             | Some message => Some (Deny message)
                                             | None => if is_empty ds then allow else Some Allow
                                             end.
Proof using.
  revert allow. induction ds as [|[|m] ds IH]; intros allow Ha; [done| |done]. cbn [resolve_permission_request_from].
  rewrite IH by (by right). cbn. change (omap denial (Allow :: ds)) with (omap denial ds). destruct (head (omap denial ds)); [done|]. by destruct ds.
Qed.

Definition permission_request_matched (handlers : list ConfiguredHandler) (q : PermissionRequestRequest) : list ConfiguredHandler :=
  select_handlers_for_matcher_inputs handlers PermissionRequest (matcher_inputs (request_tool_name q) (request_matcher_aliases q)).

(** C19: A request for permission is denied when one of its hooks denies it, with the
    message of the first such hook of the configuration, and granted by hooks
    only when one of them allows it and none denies it; in whatever order they
    end. *)
Theorem permission_denial_wins now handlers q input_json :
  let matched := permission_request_matched handlers q in
  let ds := omap answers (imap (fun i h => run_command i h input_json (cwd (request_base q))) matched) in
  all_end order (length matched) -> json_to_string (permission_request_input q) = Ok input_json ->
  exists o, permission_request_run run_command order now handlers q = Some o
    /\ decision o = match head (omap denial ds) with
                    | Some message => Some (Deny message)
                    | None => if is_empty ds then None else Some Allow
                    end.
Proof using.
  intros matched ds Ho Hjson. unfold permission_request_run. fold (permission_request_matched handlers q). fold matched.
  destruct (is_empty matched) eqn:Eempty.
  { apply is_empty_true in Eempty. eexists. split; [done|]. unfold ds. by rewrite Eempty. }
  rewrite Hjson.
  destruct (execute_spec matched input_json (cwd (request_base q)) (Some (request_turn_id q)) permission_request_parse
    (fun i h => parsed_handler h (run_command i h input_json (cwd (request_base q))) (Some (request_turn_id q))
       (permission_request_verdict (run_command i h input_json (cwd (request_base q))))) Ho ltac:(done)) as (results & -> & Hdata & _).
  cbn [mbind option_bind]. eexists. split; [done|]. cbn [decision]. unfold resolve_permission_request_decision.
  rewrite resolve_decision_spec by (by left). assert (omap data results = ds) as ->; [|done].
  change (omap data results) with (omap (fun r => id (data r)) results). rewrite <- (omap_of_fmap id data), Hdata. unfold ds.
  transitivity (omap id (answers <$> imap (fun i h => run_command i h input_json (cwd (request_base q))) matched)); [|by rewrite omap_of_fmap].
  f_equal. rewrite fmap_imap. apply imap_ext. intros i h _. cbn. rewrite <- request_verdict_spec. unfold parsed_handler.
  by destruct (permission_request_verdict _) as [[] ?].
Qed.

(** ** Status and effect *)

Ltac by_cases := repeat (case_match; simplify_eq/=); try done; naive_solver.

Lemma pre_status r :
  let '(status, _, d) := pre_tool_use_verdict r in
  status <> Running /\ (status = Failed -> d = pre_default) /\ (should_block d = true <-> status = Blocked).
Proof using. unfold pre_tool_use_verdict, pre_tool_use_stdout, failed. by_cases. Qed.

Lemma request_status r :
  let '(status, _, d) := permission_request_verdict r in
  status <> Running /\ (status = Failed -> d = None) /\ (status = Blocked <-> is_some (d ≫= denial) = true).
Proof using. unfold permission_request_verdict, permission_request_stdout, failed. by_cases. Qed.

Lemma post_block_reason out parsed :
  parse_post_tool_use out = Some parsed -> post_should_block parsed = true -> exists reason, post_reason parsed = Some reason.
Proof using.
  unfold parse_post_tool_use. destruct (parse_json read_post_tool_use out) as [w|]; [|done]. intros [= <-]. cbn.
  destruct (post_wire_reason w) as [reason|]; [by eauto|]. destruct (post_wire_decision w); cbn; [|done]. by rewrite andb_false_r.
Qed.

Lemma post_effect r :
  let '(status, entries, d) := post_tool_use_verdict r in
  status <> Running /\ (status = Failed -> d = post_default) /\ (post_blocks d = true <-> status = Blocked)
  /\ (feedback_messages_for_model d <> [] <-> status = Blocked \/ status = Stopped)
  /\ (status = Stopped -> exists stop_text feedback, mkEntry EntryStop stop_text ∈ entries /\ feedback_messages_for_model d = [feedback]).
Proof using.
  unfold post_tool_use_verdict, failed. destruct (run_error r); [naive_solver|].
  destruct (exit_code r) as [code|]; [|naive_solver]. destruct (decide (code = 0)%Z) as [->|]; [|repeat case_match; naive_solver].
  unfold post_tool_use_stdout, failed. destruct (is_empty (trim (stdout r))); [naive_solver|].
  destruct (parse_post_tool_use (stdout r)) as [parsed|] eqn:E; [|destruct (looks_like_json (stdout r)); naive_solver].
  destruct (negb (continue_processing (post_universal parsed))).
  { split_and!; try naive_solver. intros _. eexists _, _. split; [|done]. apply elem_of_app. right. by apply list_elem_of_singleton. }
  pose proof (post_block_reason _ _ E) as Hr. destruct (post_invalid_reason parsed); [naive_solver|].
  destruct (post_invalid_block_reason parsed); [naive_solver|]. destruct (post_should_block parsed); [|naive_solver].
  destruct (Hr eq_refl) as [reason ->]. naive_solver.
Qed.

Lemma post_status r :
  let '(status, _, d) := post_tool_use_verdict r in status <> Running /\ (status = Failed -> d = post_default).
Proof using. pose proof (post_effect r) as He. destruct (post_tool_use_verdict r) as [[status ?] d]. naive_solver. Qed.

Lemma prompt_status r :
  let '(status, _, d) := user_prompt_submit_verdict r in
  status <> Running /\ (status = Failed -> d = context_default) /\ (should_stop d = true <-> status = Blocked \/ status = Stopped).
Proof using. unfold user_prompt_submit_verdict, user_prompt_submit_stdout, failed. by_cases. Qed.

Lemma start_status e r v : session_start_verdict e r = Some v ->
  let '(status, _, d) := v in
  status <> Running /\ (status = Failed -> d = context_default) /\ (should_stop d = true <-> status = Stopped).
Proof using. unfold session_start_verdict, session_start_stdout, failed. by_cases. Qed.

Lemma stop_status e id r :
  let '(status, _, d) := stop_verdict e id r in
  status <> Running /\ (status = Failed -> d = stop_default) /\ (stop_stops d = true <-> status = Stopped)
  /\ (stop_blocks d = true <-> status = Blocked) /\ (stop_blocks d = true <-> continuation_fragments d <> []).
Proof using. unfold stop_verdict, stop_stdout, failed. by_cases. Qed.

Lemma compact_status label parse_output r :
  let '(status, _, d) := compact_verdict label parse_output r in
  status <> Running /\ (status = Failed -> d = compact_default) /\ (compact_stops d = true <-> status = Stopped).
Proof using. unfold compact_verdict, compact_stdout, failed. by_cases. Qed.


(** ** What is shown *)

(** The requests of the engine (engine/mod.rs). *)
Inductive HookRequest :=
| AskPreToolUse (q : PreToolUseRequest)
| AskPermission (q : PermissionRequestRequest)
| AskPostToolUse (q : PostToolUseRequest)
| AskUserPrompt (q : UserPromptSubmitRequest)
| AskStart (q : SessionStartRequest) (turn_id : option str)
| AskStop (q : StopRequest)
| AskPreCompact (q : CompactRequest)
| AskPostCompact (q : CompactRequest).

(** The rows announced for a request. *)
Definition preview (now : Z) (handlers : list ConfiguredHandler) (q : HookRequest) : list HookRunSummary :=
  match q with
  | AskPreToolUse q => pre_tool_use_preview now handlers q
  | AskPermission q => permission_request_preview now handlers q
  | AskPostToolUse q => post_tool_use_preview now handlers q
  | AskUserPrompt q => user_prompt_submit_preview now handlers
  | AskStart q _ => session_start_preview now handlers q
  | AskStop q => stop_preview now handlers q
  | AskPreCompact q => preview_pre now handlers q
  | AskPostCompact q => preview_post now handlers q
  end.

(** The rows reported when it is done. *)
Definition reported (now : Z) (handlers : list ConfiguredHandler) (q : HookRequest) : option (list HookCompletedEvent) :=
  match q with
  | AskPreToolUse q => option_map pre_hook_events (pre_tool_use_run run_command order now handlers q)
  | AskPermission q => option_map request_hook_events (permission_request_run run_command order now handlers q)
  | AskPostToolUse q => option_map post_hook_events (post_tool_use_run run_command order now handlers q)
  | AskUserPrompt q => option_map context_hook_events (user_prompt_submit_run run_command order now handlers q)
  | AskStart q turn_id => option_map context_hook_events (session_start_run run_command order now handlers q turn_id)
  | AskStop q => option_map stop_hook_events (stop_run run_command order now handlers q)
  | AskPreCompact q => option_map compact_hook_events (run_pre run_command order now handlers q)
  | AskPostCompact q => option_map compact_hook_events (run_post run_command order now handlers q)
  end.

Definition finished (e : HookCompletedEvent) : Prop := run_status (event_run e) <> Running /\ completed_at (event_run e) <> None.

(** The rows of [handlers], with ids changed by [f]. *)
Definition rows_of (f : str -> str) (handlers : list ConfiguredHandler) (events : list HookCompletedEvent) : Prop :=
  (fun e => run_summary_id (event_run e)) <$> events = (fun h => f (run_id h)) <$> handlers /\ Forall finished events.

Lemma execute_rows {T} handlers input_json cwd turn_id (parse : ConfiguredHandler -> CommandRunResult -> option str -> option (ParsedHandler T))
    (verdict : nat -> ConfiguredHandler -> HookRunStatus * list HookOutputEntry * T) :
  all_end order (length handlers) ->
  (forall i h, h ∈ handlers -> parse h (run_command i h input_json cwd) turn_id = Some (parsed_handler h (run_command i h input_json cwd) turn_id (verdict i h))) ->
  (forall i h, (verdict i h).1.1 <> Running) ->
  exists results, execute_handlers run_command order handlers input_json cwd turn_id parse = Some results /\ rows_of id handlers (completed <$> results).
Proof using.
  intros Ho Hparse Hrun. destruct (execute_spec handlers input_json cwd turn_id parse
    (fun i h => parsed_handler h (run_command i h input_json cwd) turn_id (verdict i h)) Ho) as (results & E & _ & Hc & _).
  { intros i h Hh. apply Hparse. by eapply list_elem_of_lookup_2. }
  exists results. split; [done|]. rewrite Hc. split.
  - rewrite fmap_imap, <- imap_const. apply imap_ext. intros i h _. cbn. unfold parsed_handler. by destruct (verdict i h) as [[] ?].
  - apply Forall_lookup. intros i e. rewrite list_lookup_imap. destruct (handlers !! i) as [h|]; [|done]. cbn. intros [= <-].
    specialize (Hrun i h). unfold parsed_handler. by destruct (verdict i h) as [[] ?].
Qed.

Lemma failure_rows now handlers turn_id message : rows_of id handlers (serialization_failure_hook_events now handlers turn_id message).
Proof using.
  unfold rows_of, serialization_failure_hook_events. rewrite <- list_fmap_compose. split; [by apply list_fmap_ext|].
  apply Forall_fmap, Forall_forall. by intros h _.
Qed.

Lemma tool_rows handlers events tool_use_id : rows_of id handlers events ->
  rows_of (fun id => id ++ lit ":" ++ tool_use_id) handlers ((fun e => hook_completed_for_tool_use e tool_use_id) <$> events).
Proof using.
  intros [Hid Hf]. split; [|by apply Forall_fmap]. rewrite <- list_fmap_compose.
  transitivity ((fun id => id ++ lit ":" ++ tool_use_id) <$> ((fun e => run_summary_id (event_run e)) <$> events)); [by rewrite <- list_fmap_compose|].
  rewrite Hid, <- list_fmap_compose. done.
Qed.

Lemma tool_results {T} handlers (results : list (ParsedHandler T)) tool_use_id : rows_of id handlers (completed <$> results) ->
  rows_of (fun id => id ++ lit ":" ++ tool_use_id) handlers ((fun r => hook_completed_for_tool_use (completed r) tool_use_id) <$> results).
Proof using. intros Hr. apply (tool_rows _ _ tool_use_id) in Hr. by rewrite <- list_fmap_compose in Hr. Qed.

(** The shape of all runs: nothing matches, the input cannot be written, or the hooks run. *)
Lemma run_rows {T O} f matched (json : result str str) cwd turn_id (parse : ConfiguredHandler -> CommandRunResult -> option str -> option (ParsedHandler T))
    (verdict : str -> nat -> ConfiguredHandler -> HookRunStatus * list HookOutputEntry * T) (events : O -> list HookCompletedEvent)
    (none : O) (failure : str -> O) (outcome : list (ParsedHandler T) -> O) :
  all_end order (length matched) ->
  (forall j i h, h ∈ matched -> parse h (run_command i h j cwd) turn_id = Some (parsed_handler h (run_command i h j cwd) turn_id (verdict j i h))) ->
  (forall j i h, (verdict j i h).1.1 <> Running) ->
  events none = [] -> (forall e, rows_of f matched (events (failure e))) ->
  (forall results, rows_of id matched (completed <$> results) -> rows_of f matched (events (outcome results))) ->
  exists evs, option_map events (if is_empty matched then Some none
                                 else match json with
                                      | Err e => Some (failure e)
                                      | Ok j => results ← execute_handlers run_command order matched j cwd turn_id parse; Some (outcome results)
                                      end) = Some evs /\ rows_of f matched evs.
Proof using.
  intros Ho Hparse Hrun Hnone Hfail Hok. destruct (is_empty matched) eqn:E.
  { apply is_empty_true in E as ->. eexists. split; [done|]. rewrite Hnone. by split. }
  destruct json as [j|e]; [|by eexists].
  destruct (execute_rows matched j cwd turn_id parse (verdict j) Ho (Hparse j) (Hrun j)) as (results & -> & Hrows). cbn. eexists. split; [done|]. by apply Hok.
Qed.

Lemma rows_reported f matched (row : ConfiguredHandler -> HookRunSummary) r :
  (forall h, run_summary_id (row h) = f (run_id h)) -> (exists events, r = Some events /\ rows_of f matched events) ->
  exists events, r = Some events /\ (fun e => run_summary_id (event_run e)) <$> events = run_summary_id <$> (row <$> matched) /\ Forall finished events.
Proof using.
  intros Hrow (events & -> & Hids & Hf). exists events. split; [done|]. split; [|done]. rewrite Hids, <- list_fmap_compose.
  apply list_fmap_ext. intros i h _. by rewrite <- Hrow.
Qed.

Lemma not_running {T} (v : HookRunStatus * list HookOutputEntry * T) (Q : HookRunStatus -> T -> Prop) :
  (let '(status, _, d) := v in status <> Running /\ Q status d) -> v.1.1 <> Running.
Proof using. destruct v as [[]]. by intros [? _]. Qed.

Lemma selected_event handlers e inputs h : h ∈ select_handlers_for_matcher_inputs handlers e inputs -> event_name h = e.
Proof using.
  intros [_ Hh]%list_elem_of_In%filter_In. unfold handler_selected in Hh. apply andb_true_iff in Hh as [Hh _]. by apply bool_decide_eq_true in Hh.
Qed.

Lemma start_total e r : (e = SessionStart \/ e = SubagentStart) -> exists v, session_start_verdict e r = Some v.
Proof using.
  intros He. unfold session_start_verdict. destruct (run_error r); [by eexists|]. destruct (exit_code r) as [[|p|p]|]; try by eexists.
  unfold session_start_stdout. destruct (is_empty _); [by eexists|].
  destruct He as [-> | ->]; cbn [mbind option_bind]; repeat case_match; by eexists.
Qed.

(** One event: what its hooks come to, and that none of them is still running. *)
Ltac report_as f verdict status :=
  apply (rows_reported f); [done|]; eapply (run_rows _ _ _ _ _ _ verdict); try done;
  try (by intros; eapply not_running; apply status);
  try (intros; first [apply tool_rows, failure_rows|apply failure_rows|by apply tool_results]).

(** C20: Every announced row is reported: whatever a request and its hooks, the
    engine does not panic, and it reports one finished run for each of the rows
    that the preview shows, with the same ids and in the same order. *)
Theorem previewed_rows_reported now handlers q :
  all_end order (length (preview now handlers q)) ->
  exists events, reported now handlers q = Some events
    /\ (fun e => run_summary_id (event_run e)) <$> events = run_summary_id <$> preview now handlers q
    /\ Forall finished events.
Proof using.
  intros Ho. destruct q as [q|q|q|q|q turn_id|q|q|q]; cbn [preview reported] in *;
    unfold preview_pre, preview_post, compact_preview, stop_preview, session_start_preview, user_prompt_submit_preview,
      pre_tool_use_preview, permission_request_preview, post_tool_use_preview, select_handlers in *;
    rewrite length_fmap in Ho.
  - report_as (fun id => id ++ lit ":" ++ pre_tool_use_id q)
      (fun (j : str) i h => pre_tool_use_verdict (run_command i h j (cwd (pre_base q)))) pre_status.
  - report_as (fun id => id ++ lit ":" ++ run_id_suffix q)
      (fun (j : str) i h => permission_request_verdict (run_command i h j (cwd (request_base q)))) request_status.
  - report_as (fun id => id ++ lit ":" ++ post_tool_use_id q)
      (fun (j : str) i h => post_tool_use_verdict (run_command i h j (cwd (post_base q)))) post_status.
  - report_as (fun id : str => id) (fun (j : str) i h => user_prompt_submit_verdict (run_command i h j (cwd (prompt_base q)))) prompt_status.
  - report_as (fun id : str => id) (fun (j : str) i h => default (Completed, [], context_default)
      (session_start_verdict (start_event_name (start_target q)) (run_command i h j (cwd (start_base q))))) start_status.
    + intros j i h Hh%selected_event. unfold session_start_parse. rewrite Hh.
      destruct (start_total (start_event_name (start_target q)) (run_command i h j (cwd (start_base q)))) as [v ->]; [|done].
      by destruct (start_target q); [left|right].
    + intros j i h. destruct (session_start_verdict _ _) as [v|] eqn:E; [|done]. apply (not_running _ _ (start_status _ _ _ E)).
  - report_as (fun id : str => id) (fun (j : str) i h => stop_verdict (event_name h) (run_id h) (run_command i h j (cwd (stop_base q)))) stop_status.
    intros j i h Hh%selected_event. unfold stop_parse. rewrite Hh. by destruct (stop_target q).
  - report_as (fun id : str => id)
      (fun (j : str) i (h : ConfiguredHandler) => compact_verdict (lit "PreCompact") parse_pre_compact (run_command i h j (cwd (compact_base q)))) compact_status.
  - report_as (fun id : str => id)
      (fun (j : str) i (h : ConfiguredHandler) => compact_verdict (lit "PostCompact") parse_post_compact (run_command i h j (cwd (compact_base q)))) compact_status.
Qed.

End Facts.

(** ** At work *)

(** A library that reads every text as an answer that allows a call with another input. *)
Definition sample_universal : HookUniversalOutputWire := mkUniversalWire true None false None.

#[local] Instance sample_lib : HookLib := {|
  json_from_str := fun _ => Some (VObject ∅);
  json_to_string := fun _ => Ok [];
  read_pre_tool_use := fun _ => Some (mkPreWire sample_universal None None (Some (mkPreSpecific (Some PermissionAllow) None (Some Null) None)));
  read_permission_request := fun _ => Some (mkRequestWire sample_universal (Some (Some (mkDecisionWire BehaviorAllow None None None false))));
  read_post_tool_use := fun _ => None;
  read_session_start := fun _ => None;
  read_subagent_start := fun _ => None;
  read_user_prompt_submit := fun _ => None;
  read_stop := fun _ => None;
  read_subagent_stop := fun _ => None;
  read_pre_compact := fun _ => None;
  read_post_compact := fun _ => None;
  regex_is_match := fun _ _ => None |}.

Definition sample_handler (e : HookEventName) (n : Z) : ConfiguredHandler := mkHandler e None (lit "check") 600 None (lit "/h") SourceUser n ∅.

(** The first hook answers, the second one objects. *)
Definition sample_run (i : nat) (_ : ConfiguredHandler) (_ _ : str) : CommandRunResult :=
  match i with
  | 0 => mkRunResult 0 0 0 (Some 0%Z) (lit "{}") [] None
  | _ => mkRunResult 0 0 0 (Some 2%Z) [] (lit " no ") None
  end.

Definition sample_base : RequestBase := mkBase (lit "s") (lit "/w") None (lit "m").
Definition sample_call : PreToolUseRequest := mkPreRequest sample_base (lit "t") None (lit "default") (lit "Bash") [] (lit "c") Null.
Definition sample_ask : PermissionRequestRequest := mkPermissionRequest sample_base (lit "t") None (lit "default") (lit "Bash") [] (lit "c") Null.

Lemma all_end_two : all_end [1; 0] 2.
Proof. apply perm_swap. Qed.

Lemma pre_tool_use_blocks_witness :
  option_map (fun o => (pre_outcome_block o, pre_outcome_reason o, pre_outcome_input o))
    (pre_tool_use_run sample_run [1; 0] 0 [sample_handler PreToolUse 0; sample_handler PreToolUse 1] sample_call)
  = Some (true, Some (lit "no"), None).
Proof.
  destruct (pre_tool_use_blocks (H := sample_lib) sample_run [1; 0] 0 [sample_handler PreToolUse 0; sample_handler PreToolUse 1] sample_call [] all_end_two eq_refl)
    as (o & -> & Hb & Hr & Hi).
  cbn [option_map]. assert (Hb' : pre_outcome_block o = true) by (rewrite Hb; reflexivity).
  assert (Hr' : pre_outcome_reason o = Some (lit "no")) by (rewrite Hr; reflexivity).
  rewrite Hb', Hr'. rewrite Hb' in Hi. destruct (pre_outcome_input o); [|reflexivity]. destruct Hi as [Hi _]. discriminate Hi.
Defined.

Lemma permission_denial_wins_witness :
  option_map decision (permission_request_run sample_run [1; 0] 0 [sample_handler PermissionRequest 0; sample_handler PermissionRequest 1] sample_ask)
  = Some (Some (Deny (lit "no"))).
Proof.
  destruct (permission_denial_wins (H := sample_lib) sample_run [1; 0] 0 [sample_handler PermissionRequest 0; sample_handler PermissionRequest 1] sample_ask [] all_end_two eq_refl)
    as (o & -> & Hd).
  cbn [option_map]. rewrite Hd. reflexivity.
Defined.

Lemma previewed_rows_reported_witness : exists events,
  reported sample_run [1; 0] 0 [sample_handler PreToolUse 0; sample_handler PreToolUse 1] (AskPreToolUse sample_call) = Some events
  /\ (fun e => run_summary_id (event_run e)) <$> events = [lit "pre-tool-use:0:/h:c"; lit "pre-tool-use:1:/h:c"].
Proof.
  destruct (previewed_rows_reported (H := sample_lib) sample_run [1; 0] 0 [sample_handler PreToolUse 0; sample_handler PreToolUse 1] (AskPreToolUse sample_call) all_end_two)
    as (events & E & Hids & _).
  exists events. split; [exact E|]. rewrite Hids. vm_compute. reflexivity.
Defined.

(** The preview of a text that was written to a file is above the limit: the
    warning in front of it and the mark in the middle are not budgeted. *)
Example spilled_preview_above_limit :
  option_map (fun preview => (HOOK_OUTPUT_TOKEN_LIMIT <? Truncate.approx_token_count preview)%Z)
    (maybe_spill_text true true (lit "/tmp/x") (repeat 97%N (N.to_nat 10001))) = Some true.
Proof. vm_compute. reflexivity. Qed.

End HooksFacts.
