(* ===== verification/HookDiscovery.v ===== *)
(** Finding the hooks that may run (hooks/src/engine/discovery.rs and
    config_rules.rs, config/src/hook_config.rs): the hooks that the
    requirements, the layers of the configuration and the plugins declare, the
    user's decisions about them, and which of them are trusted.  The theorems
    are in the module [HookDiscoveryFacts].

    Files, the reading of TOML and JSON, paths and the digest of a hook are the
    class [HookSources].  [i64] counts of hooks do not overflow. *)

From stdpp Require Import base list option numbers strings gmap.
From S2P Require Import Prelude RustStr ShellTree AbsolutePath NetworkPolicy ConfigLayers WorldState Hooks HooksFacts.

Module HookDiscovery.
Import ConfigLayers Hooks.
Open Scope rust_scope.

Notation AbsolutePathBuf := str (only parsing).

(** ** hook_config.rs *)

Record HookStateToml := mkHookState { enabled : option bool; trusted_hash : option str }.

Inductive HookHandlerConfig :=
| CommandHandler (command : str) (command_windows : option str) (timeout_sec : option N) (is_async : bool) (status_message : option str)
| PromptHandler
| AgentHandler.

Record MatcherGroup := mkGroup { group_matcher : option str; group_hooks : list HookHandlerConfig }.

Record HookEventsToml := mkHookEvents {
  toml_pre_tool_use : list MatcherGroup;
  toml_permission_request : list MatcherGroup;
  toml_post_tool_use : list MatcherGroup;
  toml_pre_compact : list MatcherGroup;
  toml_post_compact : list MatcherGroup;
  toml_session_start : list MatcherGroup;
  toml_user_prompt_submit : list MatcherGroup;
  toml_subagent_start : list MatcherGroup;
  toml_subagent_stop : list MatcherGroup;
  toml_stop : list MatcherGroup;
}.

Definition into_matcher_groups (e : HookEventsToml) : list (HookEventName * list MatcherGroup) :=
  [(PreToolUse, toml_pre_tool_use e); (PermissionRequest, toml_permission_request e); (PostToolUse, toml_post_tool_use e);
   (PreCompact, toml_pre_compact e); (PostCompact, toml_post_compact e); (SessionStart, toml_session_start e);
   (UserPromptSubmit, toml_user_prompt_submit e); (SubagentStart, toml_subagent_start e); (SubagentStop, toml_subagent_stop e);
   (Stop, toml_stop e)].

Definition events_is_empty (e : HookEventsToml) : bool := forallb (fun g => is_empty g.2) (into_matcher_groups e).

Definition handler_count (e : HookEventsToml) : nat :=
  sum_list (List.map (fun g : MatcherGroup => length (group_hooks g)) (concat (List.map snd (into_matcher_groups e)))).

Record ManagedHooksRequirementsToml := mkManagedHooks { managed_dir : option str; managed_hooks_events : HookEventsToml }.

(** ** lib.rs and declarations.rs *)

Definition hook_event_key_label (e : HookEventName) : str :=
  match e with
  | PreToolUse => lit "pre_tool_use"
  | PermissionRequest => lit "permission_request"
  | PostToolUse => lit "post_tool_use"
  | PreCompact => lit "pre_compact"
  | PostCompact => lit "post_compact"
  | SessionStart => lit "session_start"
  | UserPromptSubmit => lit "user_prompt_submit"
  | SubagentStart => lit "subagent_start"
  | SubagentStop => lit "subagent_stop"
  | Stop => lit "stop"
  end.

Definition hook_key (key_source : str) (e : HookEventName) (group_index handler_index : nat) : str :=
  key_source ++ lit ":" ++ hook_event_key_label e ++ lit ":" ++ show_nat group_index ++ lit ":" ++ show_nat handler_index.

Definition plugin_hook_key_source (plugin_id source_relative_path : str) : str := plugin_id ++ lit ":" ++ source_relative_path.

Record PluginHookSource := mkPluginSource {
  plugin_id : str;
  plugin_root : AbsolutePathBuf;
  plugin_data_root : AbsolutePathBuf;
  plugin_source_path : AbsolutePathBuf;
  source_relative_path : str;
  plugin_hooks : HookEventsToml;
}.

Record PluginHookDeclaration := mkDeclaration { declared_key : str; declared_event : HookEventName }.

Definition plugin_hook_declarations (hook_sources : list PluginHookSource) : list PluginHookDeclaration :=
  concat (List.map (fun s =>
    let key_source := plugin_hook_key_source (plugin_id s) (source_relative_path s) in
    concat (List.map (fun '(e, groups) =>
      concat (imap (fun group_index group =>
        imap (fun handler_index _ => mkDeclaration (hook_key key_source e group_index handler_index) e) (group_hooks group)) groups))
      (into_matcher_groups (plugin_hooks s)))) hook_sources).

(** ** Requirements *)

Inductive RequirementSource :=
| UnknownSource
| MdmManagedPreferences (domain key : str)
| Composite (sources : list RequirementSource)
| EnterpriseRequirements (id name : str)
| SystemRequirementsToml (file : AbsolutePathBuf)
| LegacyManagedFile (file : AbsolutePathBuf)
| LegacyManagedMdm.

(** The requirements that concern hooks, without the other fields. *)
Record HookRequirements := mkHookRequirements {
  allow_managed_hooks_only : option bool;
  managed_hooks : option (ManagedHooksRequirementsToml * option RequirementSource);
}.

(** [hooks_json folder]: nothing if the folder has no file hooks.json, else its
    text or the error.  [replace_env]: the iteration over the variables of a
    HashMap, in its order. *)
Class HookSources := {
  hooks_json_path : str -> str;
  hooks_json : str -> option (result str str);
  read_hooks_file : str -> result HookEventsToml str;
  read_hook_events : Toml -> result HookEventsToml str;
  read_hook_state : Toml -> option HookStateToml;
  is_absolute_path : str -> bool;
  from_absolute_path : str -> result AbsolutePathBuf str;
  resolve_path_against_base : str -> str -> AbsolutePathBuf;
  config_toml_in : AbsolutePathBuf -> AbsolutePathBuf;
  parent_of : AbsolutePathBuf -> option AbsolutePathBuf;
  identity_digest : str -> MatcherGroup -> str;
  env_iter : gmap str str -> list (str * str);
  debug_str : str -> str;
  regex_error : str -> str }.

Section Discovery.
Context `{HookLib} `{HookSources}.

Notation Stack := (@ConfigLayerStack HookRequirements).

(** ** config_rules.rs *)

(** [Value::get] with a key. *)
Definition value_get (key : str) (t : Toml) : option Toml := match t with TTable t => table_get key t | _ => None end.

Definition is_state_layer (l : ConfigLayerEntry) : bool := match name l with User _ _ | SessionFlags => true | _ => false end.

Definition merge_state (states : gmap str HookStateToml) (entry : str * Toml) : gmap str HookStateToml :=
  match read_hook_state entry.2 with
  | None => states
  | Some state =>
      let key := trim entry.1 in
      if is_empty key then states
      else
        let effective := default (mkHookState None None) (states !! key) in
        <[key := mkHookState (match enabled state with Some e => Some e | None => enabled effective end)
                             (match trusted_hash state with Some t => Some t | None => trusted_hash effective end)]> states
  end.

Definition layer_states (states : gmap str HookStateToml) (l : ConfigLayerEntry) : gmap str HookStateToml :=
  if is_state_layer l then
    match value_get (lit "hooks") (config l) ≫= value_get (lit "state") with
    | Some (TTable state_by_key) => fold_left merge_state state_by_key states
    | _ => states
    end
  else states.

Definition hook_states_from_stack (stack : option Stack) : gmap str HookStateToml :=
  match stack with None => ∅ | Some stack => fold_left layer_states (get_layers stack LowestPrecedenceFirst true) ∅ end.

(** ** discovery.rs: trust *)

Inductive HookTrustStatus := Managed | Untrusted | Trusted | Modified.

#[export] Instance trust_eq_dec : EqDecision HookTrustStatus.
Proof. solve_decision. Defined.

Record HookListEntry := mkListEntry {
  entry_key : str;
  entry_event_name : HookEventName;
  entry_handler_type : HookHandlerType;
  entry_matcher : option str;
  entry_command : option str;
  entry_timeout_sec : N;
  entry_status_message : option str;
  entry_source_path : AbsolutePathBuf;
  entry_source : HookSource;
  entry_plugin_id : option str;
  entry_display_order : Z;
  entry_enabled : bool;
  entry_is_managed : bool;
  current_hash : str;
  trust_status : HookTrustStatus;
}.

Record HookHandlerSource := mkHandlerSource {
  src_path : AbsolutePathBuf;
  key_source : str;
  src_source : HookSource;
  is_managed : bool;
  bypass_hook_trust : bool;
  hook_states : gmap str HookStateToml;
  src_env : gmap str str;
  src_plugin_id : option str;
}.

Record HookDiscoveryPolicy := mkPolicy { managed_only : bool; policy_bypass : bool }.

Definition policy_allows (p : HookDiscoveryPolicy) (s : HookHandlerSource) : bool := negb (managed_only p) || is_managed s.

Definition hook_enabled (managed : bool) (state : option HookStateToml) : bool :=
  managed || negb (bool_decide (state ≫= enabled = Some false)).

Definition hook_trusted_hash (managed : bool) (state : option HookStateToml) : option str := if managed then None else state ≫= trusted_hash.

Definition hook_trust_status (managed : bool) (hash : str) (trusted : option str) : HookTrustStatus :=
  if managed then Managed
  else match trusted with Some trusted => if trusted == hash then Trusted else Modified | None => Untrusted end.

Definition command_hook_hash (e : HookEventName) (matcher : option str) (normalized_handler : HookHandlerConfig) : str :=
  identity_digest (hook_event_key_label e) (mkGroup matcher [normalized_handler]).

(** [str::replace] with a pattern that is not empty: at most one match per char. *)
Fixpoint replace_from (fuel : nat) (pattern value s : str) : str :=
  match fuel with
  | O => s
  | S fuel => match split_once pattern s with Some (before, after) => before ++ value ++ replace_from fuel pattern value after | None => s end
  end.

Definition replace_str (pattern value s : str) : str := replace_from (length s) pattern value s.

Definition expand_env (vars : gmap str str) (command : str) : str :=
  fold_left (fun command '(key, value) => replace_str (lit "${" ++ key ++ lit "}") value command) (env_iter vars) command.

(** ** discovery.rs: the hooks of a source *)

(** [next_order]: the counter [display_order]. *)
Record DiscoveryState := mkDiscovery {
  handlers : list ConfiguredHandler;
  hook_entries : list HookListEntry;
  warnings : list str;
  next_order : Z;
}.

Definition warn (d : DiscoveryState) (w : str) : DiscoveryState := mkDiscovery (handlers d) (hook_entries d) (warnings d ++ [w]) (next_order d).

Definition append_handler (s : HookHandlerSource) (e : HookEventName) (matcher : option str) (group_index : nat) (d : DiscoveryState)
    (slot : nat * HookHandlerConfig) : DiscoveryState :=
  let '(handler_index, handler) := slot in
  match handler with
  | CommandHandler command _ timeout is_async message =>
      if is_async then warn d (lit "skipping async hook in " ++ src_path s ++ lit ": async hooks are not supported yet")
      else if is_empty (trim command) then warn d (lit "skipping empty hook command in " ++ src_path s)
      else
        let timeout := N.max (default 600%N timeout) 1 in
        let hash := command_hook_hash e matcher (CommandHandler command None (Some timeout) is_async message) in
        let command := expand_env (src_env s) command in
        let key := hook_key (key_source s) e group_index handler_index in
        let state := hook_states s !! key in
        let is_enabled := hook_enabled (is_managed s) state in
        let status := hook_trust_status (is_managed s) hash (hook_trusted_hash (is_managed s) state) in
        let entry := mkListEntry key e CommandHook matcher (Some command) timeout message (src_path s) (src_source s) (src_plugin_id s)
                       (next_order d) is_enabled (is_managed s) hash status in
        let runs := is_enabled && (bypass_hook_trust s || bool_decide (status = Managed) || bool_decide (status = Trusted)) in
        mkDiscovery
          (if runs then handlers d ++ [mkHandler e matcher command timeout message (src_path s) (src_source s) (next_order d) (src_env s)]
           else handlers d)
          (hook_entries d ++ [entry]) (warnings d) (next_order d + 1)
  | PromptHandler => warn d (lit "skipping prompt hook in " ++ src_path s ++ lit ": prompt hooks are not supported yet")
  | AgentHandler => warn d (lit "skipping agent hook in " ++ src_path s ++ lit ": agent hooks are not supported yet")
  end.

Definition append_group (s : HookHandlerSource) (e : HookEventName) (d : DiscoveryState) (slot : nat * MatcherGroup) : DiscoveryState :=
  let '(group_index, group) := slot in
  let matcher := matcher_pattern_for_event e (group_matcher group) in
  match List.filter (fun m => negb (validate_matcher_pattern m)) (option_list matcher) with
  | m :: _ => warn d (lit "invalid matcher " ++ debug_str m ++ lit " in " ++ src_path s ++ lit ": " ++ regex_error m)
  | [] => fold_left (append_handler s e matcher group_index) (imap pair (group_hooks group)) d
  end.

Definition append_matcher_groups (s : HookHandlerSource) (d : DiscoveryState) (slot : HookEventName * list MatcherGroup) : DiscoveryState :=
  fold_left (append_group s slot.1) (imap pair slot.2) d.

Definition append_hook_events (p : HookDiscoveryPolicy) (s : HookHandlerSource) (e : HookEventsToml) (d : DiscoveryState) : DiscoveryState :=
  if policy_allows p s then fold_left (append_matcher_groups s) (into_matcher_groups e) d else d.

(** ** discovery.rs: sources *)

(** [synthetic_layer_path] on Unix. *)
Definition synthetic_layer_path (path : str) : AbsolutePathBuf := resolve_path_against_base path (lit "/").

Definition escape_xml_char (c : char) : str :=
  if (c =? 38)%N then lit "&amp;"
  else if (c =? 60)%N then lit "&lt;"
  else if (c =? 62)%N then lit "&gt;"
  else if (c =? 34)%N then lit "&quot;"
  else if (c =? 39)%N then lit "&apos;"
  else [c].

Definition escape_xml_text (value : str) : str := concat (List.map escape_xml_char value).

Definition fallback_managed_hooks_source_path (source : option RequirementSource) : AbsolutePathBuf :=
  match source with
  | Some (SystemRequirementsToml file) | Some (LegacyManagedFile file) => file
  | Some (MdmManagedPreferences domain key) => synthetic_layer_path (lit "<mdm:" ++ domain ++ lit ":" ++ key ++ lit ">/requirements.toml")
  | Some (Composite _) => synthetic_layer_path (lit "<requirements-composition>/requirements.toml")
  | Some (EnterpriseRequirements id name) =>
      synthetic_layer_path (lit "<enterprise-managed:" ++ escape_xml_text name ++ lit ":" ++ escape_xml_text id ++ lit ">/requirements.toml")
  | Some LegacyManagedMdm => synthetic_layer_path (lit "<legacy-managed-config.toml-mdm>/managed_config.toml")
  | Some UnknownSource | None => synthetic_layer_path (lit "<managed-requirements>/requirements.toml")
  end.

Definition managed_hooks_source_path (managed : ManagedHooksRequirementsToml) (source : option RequirementSource) : AbsolutePathBuf :=
  match managed_dir managed with
  | Some dir =>
      if is_absolute_path dir then match from_absolute_path dir with Ok path => path | Err _ => fallback_managed_hooks_source_path source end
      else fallback_managed_hooks_source_path source
  | None => fallback_managed_hooks_source_path source
  end.

Fixpoint hook_source_for_requirement_source (source : RequirementSource) : HookSource :=
  match source with
  | MdmManagedPreferences _ _ => SourceMdm
  | SystemRequirementsToml _ => SourceSystem
  | LegacyManagedFile _ => LegacyManagedConfigFile
  | LegacyManagedMdm => LegacyManagedConfigMdm
  | Composite (first :: _) => hook_source_for_requirement_source first
  | Composite [] => SourceUnknown
  | EnterpriseRequirements _ _ => CloudRequirements
  | UnknownSource => SourceUnknown
  end.

Definition hook_metadata_for_config_layer_source (source : ConfigLayerSource) : HookSource * bool :=
  match source with
  | System _ => (SourceSystem, true)
  | User _ _ => (SourceUser, false)
  | Project _ => (SourceProject, false)
  | Mdm _ _ => (SourceMdm, true)
  | EnterpriseManaged _ _ => (CloudManagedConfig, true)
  | SessionFlags => (SourceSessionFlags, false)
  | LegacyManagedConfigTomlFromFile _ => (LegacyManagedConfigFile, true)
  | LegacyManagedConfigTomlFromMdm => (LegacyManagedConfigMdm, true)
  end.

Definition config_toml_source_path (l : ConfigLayerEntry) : AbsolutePathBuf :=
  match name l with
  | System file | User file _ | LegacyManagedConfigTomlFromFile file => file
  | Project dot_codex_folder => config_toml_in (default dot_codex_folder (hooks_config_folder parent_of l))
  | Mdm domain key => synthetic_layer_path (lit "<mdm:" ++ domain ++ lit ":" ++ key ++ lit ">/config.toml")
  | EnterpriseManaged id name => synthetic_layer_path (lit "<enterprise-managed:" ++ name ++ lit ":" ++ id ++ lit ">/config.toml")
  | LegacyManagedConfigTomlFromMdm => synthetic_layer_path (lit "<legacy-managed-config.toml-mdm>/managed_config.toml")
  | SessionFlags => synthetic_layer_path (lit "<session-flags>/config.toml")
  end.

(** A source of hooks with its path, and the warnings. *)
Definition load_hooks_json (folder : str) : option (AbsolutePathBuf * HookEventsToml) * list str :=
  let path := hooks_json_path folder in
  match hooks_json folder with
  | None => (None, [])
  | Some (Err err) => (None, [lit "failed to read hooks config " ++ path ++ lit ": " ++ err])
  | Some (Ok contents) =>
      match read_hooks_file contents with
      | Err err => (None, [lit "failed to parse hooks config " ++ path ++ lit ": " ++ err])
      | Ok hooks =>
          match from_absolute_path path with
          | Err err => (None, [lit "failed to normalize hooks config path " ++ path ++ lit ": " ++ err])
          | Ok source_path => (if events_is_empty hooks then None else Some (source_path, hooks), [])
          end
      end
  end.

Definition load_toml_hooks_from_layer (l : ConfigLayerEntry) : option (AbsolutePathBuf * HookEventsToml) * list str :=
  let source_path := config_toml_source_path l in
  match value_get (lit "hooks") (config l) with
  | None => (None, [])
  | Some hook_value =>
      match read_hook_events hook_value with
      | Err err => (None, [lit "failed to parse TOML hooks in " ++ source_path ++ lit ": " ++ err])
      | Ok parsed => (if events_is_empty parsed then None else Some (source_path, parsed), [])
      end
  end.

Definition handler_source (path : AbsolutePathBuf) (source : HookSource) (managed bypass : bool) (states : gmap str HookStateToml)
    : HookHandlerSource := mkHandlerSource path path source managed bypass states ∅ None.

Definition append_managed_requirement_handlers (p : HookDiscoveryPolicy) (states : gmap str HookStateToml) (r : HookRequirements)
    (d : DiscoveryState) : DiscoveryState :=
  match managed_hooks r with
  | None => d
  | Some (managed, source) =>
      append_hook_events p
        (handler_source (managed_hooks_source_path managed source) (default SourceUnknown (hook_source_for_requirement_source <$> source))
           true false states)
        (managed_hooks_events managed) d
  end.

(** The hooks of one layer; the folders whose hooks.json was read. *)
Definition append_layer (p : HookDiscoveryPolicy) (states : gmap str HookStateToml) (acc : list str * DiscoveryState) (l : ConfigLayerEntry)
    : list str * DiscoveryState :=
  let '(visited, d) := acc in
  let '(source, managed) := hook_metadata_for_config_layer_source (name l) in
  if negb (policy_allows p (handler_source (config_toml_source_path l) source managed false states)) then acc
  else
    let '(visited, json_hooks, json_warnings) :=
      match hooks_config_folder parent_of l with
      | Some folder =>
          if bool_decide (folder ∈ visited) then (visited, None, [])
          else let '(hooks, w) := load_hooks_json folder in (visited ++ [folder], hooks, w)
      | None => (visited, None, [])
      end in
    let '(toml_hooks, toml_warnings) := load_toml_hooks_from_layer l in
    let both := match json_hooks, toml_hooks with
                | Some (json_path, json_events), Some (toml_path, toml_events) =>
                    if negb (events_is_empty json_events) && negb (events_is_empty toml_events) then
                      [lit "loading hooks from both " ++ json_path ++ lit " and " ++ toml_path
                         ++ lit "; prefer a single representation for this layer"]
                    else []
                | _, _ => []
                end in
    let d := fold_left warn (json_warnings ++ toml_warnings ++ both) d in
    (visited,
     fold_left (fun d '(path, events) => append_hook_events p (handler_source path source managed (policy_bypass p) states) events d)
       (option_list json_hooks ++ option_list toml_hooks) d).

Definition plugin_env (s : PluginHookSource) : gmap str str :=
  <[lit "CLAUDE_PLUGIN_DATA" := plugin_data_root s]> (<[lit "PLUGIN_DATA" := plugin_data_root s]>
    (<[lit "CLAUDE_PLUGIN_ROOT" := plugin_root s]> (<[lit "PLUGIN_ROOT" := plugin_root s]> ∅))).

Definition append_plugin (p : HookDiscoveryPolicy) (states : gmap str HookStateToml) (d : DiscoveryState) (s : PluginHookSource) : DiscoveryState :=
  append_hook_events p
    (mkHandlerSource (plugin_source_path s) (plugin_hook_key_source (plugin_id s) (source_relative_path s)) SourcePlugin false (policy_bypass p)
       states (plugin_env s) (Some (plugin_id s)))
    (plugin_hooks s) d.

Definition append_plugin_hook_sources (p : HookDiscoveryPolicy) (states : gmap str HookStateToml) (l : list PluginHookSource) (d : DiscoveryState)
    : DiscoveryState := fold_left (append_plugin p states) l d.

Definition discovery_policy (stack : option Stack) (bypass : bool) : HookDiscoveryPolicy :=
  mkPolicy (is_some_and stack (fun stack => bool_decide (allow_managed_hooks_only (requirements stack) = Some true))) bypass.

Definition discover_handlers (stack : option Stack) (plugins : list PluginHookSource) (load_warnings : list str) (bypass : bool) : DiscoveryState :=
  let states := hook_states_from_stack stack in
  let policy := discovery_policy stack bypass in
  let d := mkDiscovery [] [] load_warnings 0 in
  let d := match stack with
           | None => d
           | Some stack =>
               (fold_left (append_layer policy states) (get_layers stack LowestPrecedenceFirst false)
                  ([], append_managed_requirement_handlers policy states (requirements stack) d)).2
           end in
  append_plugin_hook_sources policy states plugins d.

End Discovery.
End HookDiscovery.

(** * Theorems: which hooks may run *)

Module HookDiscoveryFacts.
Import ConfigLayers Hooks HookDiscovery.
Open Scope rust_scope.

Lemma fold_preserves {A B} (P : A -> Prop) (f : A -> B -> A) l a :
  P a -> (forall a b, b ∈ l -> P a -> P (f a b)) -> P (fold_left f l a).
Proof.
  revert a. induction l as [|b l IH]; intros a Ha Hf; [done|]. cbn. apply IH; [apply Hf; [by left|done]|]. intros a' b' Hb. apply Hf. by right.
Qed.

(** The replacement ends: a pattern takes at least one char each time. *)
Lemma split_once_shorter p s a b : p <> [] -> split_once p s = Some (a, b) -> length b < length s.
Proof.
  intros Hp. revert a b. induction s as [|c s IH]; intros a b; cbn [split_once].
  - destruct p; [done|]. done.
  - destruct (strip_prefix p (c :: s)) as [rest|] eqn:E.
    + intros [= <- <-]. apply strip_prefix_Some in E. rewrite E. rewrite length_app. destruct p; [done|]. cbn. lia.
    + destruct (split_once p s) as [[a' b']|]; [|done]. intros [= <- <-]. specialize (IH _ _ eq_refl). cbn. lia.
Qed.

Lemma replace_fuel p v s n : p <> [] -> length s <= n -> replace_from n p v s = replace_str p v s.
Proof.
  intros Hp. unfold replace_str. enough (H : forall m n s, length s <= m -> length s <= n -> replace_from n p v s = replace_from m p v s) by (intros; by apply H).
  clear s n. induction m as [|m IH]; intros n s Hm Hn; (destruct n as [|n]; [|]; cbn [replace_from]).
  all: destruct (split_once p s) as [[a b]|] eqn:E; try done; try (apply split_once_shorter in E; [|done]; lia).
  apply split_once_shorter in E; [|done]. by rewrite (IH n b) by lia.
Qed.

Section Facts.
Context `{HookLib} `{HookSources}.
Notation Stack := (@ConfigLayerStack HookRequirements).

(** The sources an administrator controls. *)
Definition administered (s : HookSource) : bool :=
  match s with SourceUser | SourceProject | SourceSessionFlags | SourcePlugin => false | _ => true end.

(** The stack without the layers that may not decide about hooks. *)
Definition deciding_layers (stack : Stack) : Stack :=
  mkStack (List.filter is_state_layer (layers stack)) (user_layer_index stack) (requirements stack)
    (ignore_user_and_project_exec_policy_rules stack) (startup_warnings stack).

Lemma states_of_deciding (stack : Stack) : hook_states_from_stack (Some (deciding_layers stack)) = hook_states_from_stack (Some stack).
Proof using.
  unfold hook_states_from_stack, get_layers. cbn [layers deciding_layers orb].
  rewrite !(bool_decide_false (LowestPrecedenceFirst = HighestPrecedenceFirst)), !filter_all_id by done.
  generalize (∅ : gmap str HookStateToml). induction (layers stack) as [|l ls IH]; intros states; [done|]. cbn [List.filter fold_left].
  destruct (is_state_layer l) eqn:E; cbn [fold_left]; [apply IH|].
  assert (layer_states states l = states) as -> by (unfold layer_states; by rewrite E). apply IH.
Qed.

(** [h] may run: the entry that is listed for it is enabled, and managed or
    trusted by what [states] say of its key, unless trust is bypassed. *)
Definition justified (p : HookDiscoveryPolicy) (states : gmap str HookStateToml) (h : ConfiguredHandler) (e : HookListEntry) : Prop :=
  entry_event_name e = event_name h /\ entry_matcher e = matcher h /\ entry_command e = Some (command h)
  /\ entry_display_order e = display_order h /\ entry_source e = source h
  /\ (exists written, command h = expand_env (env h) written
        /\ current_hash e = command_hook_hash (event_name h) (matcher h) (CommandHandler written None (Some (timeout_sec h)) false (status_message h)))
  /\ if entry_is_managed e then administered (source h) = true
     else managed_only p = false /\ states !! entry_key e ≫= enabled <> Some false
          /\ (policy_bypass p = true \/ states !! entry_key e ≫= trusted_hash = Some (current_hash e)).

Definition all_justified (p : HookDiscoveryPolicy) (states : gmap str HookStateToml) (d : DiscoveryState) : Prop :=
  forall h, h ∈ handlers d -> exists e, e ∈ hook_entries d /\ justified p states h e.

(** A source that tells its trust as it is. *)
Record sound_source (p : HookDiscoveryPolicy) (states : gmap str HookStateToml) (s : HookHandlerSource) : Prop := {
  source_states : hook_states s = states;
  source_managed : is_managed s = true -> administered (src_source s) = true;
  source_bypass : bypass_hook_trust s = true -> policy_bypass p = true }.

Lemma warn_justified p states d w : all_justified p states d -> all_justified p states (warn d w).
Proof using. done. Qed.

Lemma handler_justified p states s e matcher group_index d slot :
  sound_source p states s -> policy_allows p s = true -> all_justified p states d -> all_justified p states (append_handler s e matcher group_index d slot).
Proof using.
  intros [Hst Hman Hby] Hal Hd. destruct slot as [handler_index [command cw timeout is_async message| |]]; cbn [append_handler]; [|by apply warn_justified..].
  destruct is_async; [by apply warn_justified|]. destruct (is_empty (trim command)); [by apply warn_justified|].
  set (key := hook_key _ _ _ _). set (state := hook_states s !! key). set (t := N.max _ 1). set (hash := command_hook_hash _ _ _). cbn zeta.
  intros h Hh. cbn [handlers hook_entries] in *.
  destruct (_ && _) eqn:Eruns in Hh.
  2:{ destruct (Hd h Hh) as (e' & He' & Hj). exists e'. split; [apply elem_of_app; by left|done]. }
  apply elem_of_app in Hh as [Hh|Hh].
  { destruct (Hd h Hh) as (e' & He' & Hj). exists e'. split; [apply elem_of_app; by left|done]. }
  apply list_elem_of_singleton in Hh as ->. eexists. split; [apply elem_of_app; right; by left|].
  split; [done|]. split; [done|]. split; [done|]. split; [done|]. split; [done|]. split; [by exists command|]. cbn.
  apply andb_true_iff in Eruns as [Hen Htr]. unfold hook_enabled in Hen. unfold policy_allows in Hal.
  destruct (is_managed s) eqn:Em; [by apply Hman|]. rewrite orb_false_r in Hal. cbn in Hen.
  split; [by destruct (managed_only p)|]. unfold state in *. rewrite Hst in *. split.
  { intros E. rewrite E in Hen. by rewrite bool_decide_true in Hen. }
  apply orb_true_iff in Htr as [Htr|Htr]; [apply orb_true_iff in Htr as [Htr|Htr]; [left; by apply Hby|]|].
  - apply bool_decide_eq_true in Htr. unfold hook_trust_status in Htr. by repeat case_match.
  - right. apply bool_decide_eq_true in Htr. unfold hook_trust_status, hook_trusted_hash in Htr.
    destruct (states !! key ≫= trusted_hash) as [trusted|]; [|done]. case_bool_decide as Eh; [|done]. by rewrite Eh.
Qed.

Lemma events_justified p states s e d : sound_source p states s -> all_justified p states d -> all_justified p states (append_hook_events p s e d).
Proof using.
  intros Hs Hd. unfold append_hook_events. destruct (policy_allows p s) eqn:Ea; [|done].
  apply fold_preserves; [done|]. intros d1 g _ H1. unfold append_matcher_groups.
  apply fold_preserves; [done|]. intros d2 [group_index group] _ H2. cbn [append_group].
  destruct (List.filter _ _); [|by apply warn_justified]. apply fold_preserves; [done|]. intros d3 slot _ H3. by apply handler_justified.
Qed.

Lemma layer_justified p states acc l : all_justified p states acc.2 -> all_justified p states (append_layer p states acc l).2.
Proof using.
  destruct acc as [visited d]. cbn [snd]. intros Hd. unfold append_layer.
  destruct (hook_metadata_for_config_layer_source (name l)) as [source managed] eqn:Em.
  destruct (negb _); [done|]. destruct (match hooks_config_folder parent_of l with Some _ => _ | None => _ end) as [[visited' json] jw].
  destruct (load_toml_hooks_from_layer l) as [toml tw]. cbn zeta. cbn [snd].
  assert (Hs : forall path, sound_source p states (handler_source path source managed (policy_bypass p) states)).
  { intros path. split; [done| |done]. cbn. intros ->. by destruct (name l); injection Em as <-. }
  apply fold_preserves; [|intros d' [path events] _ Hd'; by apply events_justified].
  apply fold_preserves; [done|]. intros d' w _ Hd'. by apply warn_justified.
Qed.

Lemma requirement_administered s : administered (hook_source_for_requirement_source s) = true.
Proof using. revert s. fix IH 1. intros [| |[|first rest]| | | |]; cbn; try reflexivity. apply IH. Qed.

(** C18: A hook that a project, the user, the flags of a session or a plugin declares
    runs only if the layers of the user and of the session trust exactly what
    it is now, and do not disable it, unless trust is bypassed; and not at all
    where only managed hooks are allowed.  No other layer has a say in it.  Every
    hook that runs is listed with what it runs. *)
Theorem untrusted_hooks_never_run (stack : option Stack) plugins load_warnings bypass h :
  let d := discover_handlers stack plugins load_warnings bypass in
  h ∈ handlers d ->
  exists e, e ∈ hook_entries d
    /\ justified (discovery_policy stack bypass) (hook_states_from_stack (deciding_layers <$> stack)) h e
    /\ (administered (source h) = false -> entry_is_managed e = false).
Proof using.
  intros d Hh.
  assert (Hst : hook_states_from_stack (deciding_layers <$> stack) = hook_states_from_stack stack).
  { destruct stack as [stack|]; [apply states_of_deciding|done]. }
  rewrite Hst. clear Hst. set (p := discovery_policy stack bypass). set (states := hook_states_from_stack stack).
  assert (Hall : all_justified p states d).
  { unfold d, discover_handlers, append_plugin_hook_sources. fold p states. apply fold_preserves.
    - assert (Hnil : all_justified p states (mkDiscovery [] [] load_warnings 0)) by (by intros h' Hh'%elem_of_nil).
      destruct stack as [stack|]; [|done].
      apply (fold_preserves (fun acc : list str * DiscoveryState => all_justified p states acc.2)); [|intros acc l _; apply layer_justified].
      cbn [snd]. unfold append_managed_requirement_handlers. destruct (managed_hooks (requirements stack)) as [[managed source]|]; [|done].
      apply events_justified; [|done]. split; [done| |done]. intros _. cbn. destruct source as [source|]; [|done]. cbn.
      apply requirement_administered.
    - intros d' s _ Hd'. apply events_justified; [|done]. by split. }
  destruct (Hall h Hh) as (e & He & Hj). exists e. split; [done|]. split; [done|]. intros Hs.
  destruct Hj as (_ & _ & _ & _ & _ & _ & Hj). destruct (entry_is_managed e); [congruence|done].
Qed.

End Facts.

(** ** At work: a project declares a hook, the user trusts it or not *)

Definition lint_events : HookEventsToml :=
  mkHookEvents [mkGroup None [CommandHandler (lit "lint ${DIR}") None None false None]] [] [] [] [] [] [] [] [] [].

#[local] Instance sample_sources : HookSources := {|
  hooks_json_path := fun folder => folder ++ lit "/hooks.json";
  hooks_json := fun _ => None;
  read_hooks_file := fun _ => Err [];
  read_hook_events := fun t => Ok (if is_some (value_get (lit "state") t) then mkHookEvents [] [] [] [] [] [] [] [] [] [] else lint_events);
  read_hook_state := fun t => Some (mkHookState None (match value_get (lit "trusted_hash") t with Some (TString s) => Some s | _ => None end));
  is_absolute_path := fun _ => true;
  from_absolute_path := Ok;
  resolve_path_against_base := fun path base => base ++ path;
  config_toml_in := fun folder => folder ++ lit "/config.toml";
  parent_of := fun _ => None;
  identity_digest := fun label _ => label;
  env_iter := map_to_list;
  debug_str := id;
  regex_error := id |}.

Definition user_layer (trusted : str) : ConfigLayerEntry :=
  mkLayer (User (lit "/u/config.toml") None)
    (TTable [(lit "hooks", TTable [(lit "state", TTable [(lit "/p/config.toml:pre_tool_use:0:0", TTable [(lit "trusted_hash", TString trusted)])])])])
    [] None None None.

Definition project_layer : ConfigLayerEntry := mkLayer (Project (lit "/p")) (TTable [(lit "hooks", TTable [])]) [] None None None.

Definition sample_stack (trusted : str) : @ConfigLayerStack HookRequirements :=
  mkStack [user_layer trusted; project_layer] (Some 0) (mkHookRequirements None None) false None.

Definition sample_discovery (trusted : str) : DiscoveryState :=
  discover_handlers (H := HooksFacts.sample_lib) (H0 := sample_sources) (Some (sample_stack trusted)) [] [] false.

Definition lint_handler : ConfiguredHandler := mkHandler PreToolUse None (lit "lint ${DIR}") 600 None (lit "/p/config.toml") SourceProject 0 ∅.

Lemma untrusted_hooks_never_run_witness : exists e,
  e ∈ hook_entries (sample_discovery (lit "pre_tool_use")) /\ entry_is_managed e = false /\ entry_command e = Some (lit "lint ${DIR}").
Proof.
  assert (Hh : lint_handler ∈ handlers (sample_discovery (lit "pre_tool_use"))).
  { assert (handlers (sample_discovery (lit "pre_tool_use")) = [lint_handler]) as -> by (vm_compute; reflexivity). by left. }
  destruct (untrusted_hooks_never_run (H := HooksFacts.sample_lib) (H0 := sample_sources) (Some (sample_stack (lit "pre_tool_use"))) [] [] false lint_handler Hh)
    as (e & He & (_ & _ & Hc & _) & Hm).
  exists e. split; [exact He|]. split; [apply Hm; reflexivity|exact Hc].
Defined.

(** The same hook, changed since it was trusted, is listed and does not run. *)
Example changed_hook_does_not_run :
  handlers (sample_discovery (lit "another")) = [] /\ trust_status <$> hook_entries (sample_discovery (lit "another")) = [Modified].
Proof. vm_compute. by split. Qed.

End HookDiscoveryFacts.
