(* ===== verification/TurnDiff.v ===== *)
(** The changes of a turn ([core/src/turn_diff_tracker.rs]): what the patches of
    a turn did to the files in the end, as one diff.  The tracker never reads a
    file; it adds up the deltas of the patches.  With the attempts of a patch
    ([core/src/tools/runtimes/apply_patch.rs]) and the updates of the tracker at
    their end ([core/src/tools/events.rs]).  The theorems are in the module
    [TurnDiffFacts].

    A path is its text, which a path URI gives in normal form.  SHA-1, the
    renderings of the diff library and the order of HashMaps are the class
    [DiffLib]; that a rendering of a large diff is cut short after a time is not
    modelled. *)

From stdpp Require Import base list option numbers strings gmap sorting.
From S2P Require Import Prelude RustStr ShellTree AbsolutePath PatchParser Replacements PatchApply PatchApplyFacts.

Module TurnDiff.
Import AbsolutePath Apply.
Open Scope rust_scope.

Definition ZERO_OID : str := lit "0000000000000000000000000000000000000000".
Definition DEV_NULL : str := lit "/dev/null".
Definition REGULAR_FILE_MODE : str := lit "100644".

Record TrackedContent := mkContent { content : str; revision : N }.

Record TrackedPath := mkPath { environment_id : str; path : str }.

#[export] Instance tracked_path_eq_dec : EqDecision TrackedPath.
Proof. solve_decision. Defined.
#[export] Instance tracked_path_countable : Countable TrackedPath.
Proof. by refine (inj_countable' (fun p => (environment_id p, path p)) (fun p => mkPath p.1 p.2) _); intros []. Defined.

Record DiffCacheKey := mkKey {
  left_path : TrackedPath;
  left_revision : option N;
  right_path : TrackedPath;
  right_revision : option N;
}.

#[export] Instance cache_key_eq_dec : EqDecision DiffCacheKey.
Proof. solve_decision. Defined.
#[export] Instance cache_key_countable : Countable DiffCacheKey.
Proof.
  by refine (inj_countable' (fun k => (left_path k, left_revision k, (right_path k, right_revision k)))
    (fun k => mkKey k.1.1 k.1.2 k.2.1 k.2.2) _); intros [].
Defined.

Record TurnDiffTracker := mkTracker {
  valid : bool;
  display_roots_by_environment : gmap str str;
  baseline_by_path : gmap TrackedPath TrackedContent;
  current_by_path : gmap TrackedPath TrackedContent;
  origin_by_current_path : gmap TrackedPath TrackedPath;
  next_revision : N;
  rendered_diffs : gmap DiffCacheKey (option str);
  unified_diff : option str;
}.

(** [sha1_hex]: of the UTF-8 bytes of a text.  [diff_lines old new old_header
    new_header]: the unified diff of two texts with three lines of context.
    [hash_iter]: the entries of a HashMap in the order of its iteration. *)
Class DiffLib := {
  sha1_hex : str -> str;
  diff_lines : str -> str -> str -> str -> str;
  hash_iter : forall A, gmap TrackedPath A -> list (TrackedPath * A);
}.
Arguments hash_iter {_ A} m.

(** [TurnDiffTracker::with_environment_display_roots]. *)
Definition with_environment_display_roots (display_roots : gmap str str) : TurnDiffTracker :=
  mkTracker true display_roots ∅ ∅ ∅ 0 ∅ None.

Definition invalidate (t : TurnDiffTracker) : TurnDiffTracker :=
  mkTracker false (display_roots_by_environment t) (baseline_by_path t) (current_by_path t) (origin_by_current_path t)
    (next_revision t) ∅ None.

Definition get_unified_diff (t : TurnDiffTracker) : option str := unified_diff t.
Definition has_unified_diff (t : TurnDiffTracker) : bool := is_some (unified_diff t).

(** ** Adding up changes *)

Definition set_paths (t : TurnDiffTracker) (baseline current : gmap TrackedPath TrackedContent) (origin : gmap TrackedPath TrackedPath)
    : TurnDiffTracker :=
  mkTracker (valid t) (display_roots_by_environment t) baseline current origin (next_revision t) (rendered_diffs t) (unified_diff t).
Definition set_baseline (t : TurnDiffTracker) (baseline : gmap TrackedPath TrackedContent) : TurnDiffTracker :=
  set_paths t baseline (current_by_path t) (origin_by_current_path t).
Definition set_current (t : TurnDiffTracker) (current : gmap TrackedPath TrackedContent) : TurnDiffTracker :=
  set_paths t (baseline_by_path t) current (origin_by_current_path t).
Definition set_origin (t : TurnDiffTracker) (origin : gmap TrackedPath TrackedPath) : TurnDiffTracker :=
  set_paths t (baseline_by_path t) (current_by_path t) origin.

Definition tracked_content (t : TurnDiffTracker) (c : str) : TurnDiffTracker * TrackedContent :=
  (mkTracker (valid t) (display_roots_by_environment t) (baseline_by_path t) (current_by_path t) (origin_by_current_path t)
     (next_revision t + 1) (rendered_diffs t) (unified_diff t),
   mkContent c (next_revision t)).

(** [current_by_path.insert(path, self.tracked_content(c))], and the same for the baseline. *)
Definition insert_current (t : TurnDiffTracker) (p : TrackedPath) (c : str) : TurnDiffTracker :=
  let '(t, c) := tracked_content t c in set_current t (<[p := c]> (current_by_path t)).
Definition insert_baseline (t : TurnDiffTracker) (p : TrackedPath) (c : str) : TurnDiffTracker :=
  let '(t, c) := tracked_content t c in set_baseline t (<[p := c]> (baseline_by_path t)).

Definition has_path {A} (m : gmap TrackedPath A) (p : TrackedPath) : bool := is_some (m !! p).

(** The text of a path that is seen for the first time. *)
Definition note_baseline (t : TurnDiffTracker) (p : TrackedPath) (old : option str) : TurnDiffTracker :=
  match old with
  | Some old =>
      if negb (has_path (current_by_path t) p) && negb (has_path (baseline_by_path t) p) then insert_baseline t p old else t
  | None => t
  end.

Definition apply_add (t : TurnDiffTracker) (p : TrackedPath) (c : str) (overwritten_content : option str) : TurnDiffTracker :=
  let t := set_origin t (delete p (origin_by_current_path t)) in
  insert_current (note_baseline t p overwritten_content) p c.

Definition apply_delete (t : TurnDiffTracker) (p : TrackedPath) (c : str) : TurnDiffTracker :=
  let was_current := has_path (current_by_path t) p in
  let t := set_current t (delete p (current_by_path t)) in
  let t := if negb was_current && negb (has_path (baseline_by_path t) p) then insert_baseline t p c else t in
  set_origin t (delete p (origin_by_current_path t)).

Definition apply_update (t : TurnDiffTracker) (source_path : TrackedPath) (move_path : option TrackedPath)
    (old_content : str) (overwritten_move_content : option str) (new_content : str) : TurnDiffTracker :=
  let t := note_baseline t source_path (Some old_content) in
  match move_path with
  | Some dest_path =>
      let t := note_baseline t dest_path overwritten_move_content in
      let origin := default source_path (origin_by_current_path t !! source_path) in
      let t := set_origin t (delete source_path (origin_by_current_path t)) in
      let t := set_current t (delete source_path (current_by_path t)) in
      let t := insert_current t dest_path new_content in
      let t := set_origin t (delete dest_path (origin_by_current_path t)) in
      if bool_decide (dest_path <> origin) then set_origin t (<[dest_path := origin]> (origin_by_current_path t)) else t
  | None => insert_current t source_path new_content
  end.

Definition apply_change (env : str) (t : TurnDiffTracker) (c : AppliedPatchChange) : TurnDiffTracker :=
  let source_path := mkPath env (change_path c) in
  match change c with
  | ChangeAdd content overwritten_content => apply_add t source_path content overwritten_content
  | ChangeDelete content => apply_delete t source_path content
  | ChangeUpdate move_path old_content overwritten_move_content new_content =>
      apply_update t source_path (mkPath env <$> move_path) old_content overwritten_move_content new_content
  end.

(** ** The diff *)

Section Diff.
Context `{DiffLib}.

Definition git_blob_oid (data : str) : str := sha1_hex (lit "blob " ++ show_nat (str_len data) ++ [0%N] ++ data).

Definition BACKSLASH : char := 92%N.

Definition display_path (roots : gmap str str) (p : TrackedPath) : str :=
  let display :=
    match roots !! environment_id p ≫= (fun root => path_strip_prefix (Shell.components (path p)) (Shell.components root)) with
    | Some rest => to_string_lossy rest
    | None => path p
    end in
  let display := List.map (fun c => if (c =? BACKSLASH)%N then Shell.SLASH else c) display in
  if (1 <? size roots) && negb (is_empty (environment_id p)) then environment_id p ++ [Shell.SLASH] ++ display else display.

Definition render_diff (roots : gmap str str) (left : TrackedPath) (left_content : option str) (right : TrackedPath) (right_content : option str)
    : option str :=
  if left_content == right_content then None
  else
    let left_display := display_path roots left in
    let right_display := display_path roots right in
    let oid c := match c with Some c => git_blob_oid c | None => ZERO_OID end in
    let diff := lit "diff --git a/" ++ left_display ++ lit " b/" ++ right_display ++ [LF] in
    match (match left_content, right_content with
           | None, Some _ => Some (lit "new file mode " ++ REGULAR_FILE_MODE ++ [LF])
           | Some _, None => Some (lit "deleted file mode " ++ REGULAR_FILE_MODE ++ [LF])
           | Some _, Some _ => Some []
           | None, None => None
           end) with
    | None => None
    | Some mode =>
        let old_header := match left_content with Some _ => lit "a/" ++ left_display | None => DEV_NULL end in
        let new_header := match right_content with Some _ => lit "b/" ++ right_display | None => DEV_NULL end in
        Some (diff ++ mode ++ lit "index " ++ oid left_content ++ lit ".." ++ oid right_content ++ [LF]
                ++ diff_lines (default [] left_content) (default [] right_content) old_header new_header)
    end.

Definition is_rename (t : TurnDiffTracker) (dest origin : TrackedPath) : bool :=
  negb (bool_decide (dest = origin) || has_path (current_by_path t) origin || negb (has_path (current_by_path t) dest)
        || negb (has_path (baseline_by_path t) origin) || has_path (baseline_by_path t) dest).

(** From origins to destinations; of several destinations the one that the iteration sees last. *)
Definition rename_pairs (t : TurnDiffTracker) : gmap TrackedPath TrackedPath :=
  fold_left (fun pairs '(dest, origin) => if is_rename t dest origin then <[origin := dest]> pairs else pairs)
    (hash_iter (origin_by_current_path t)) ∅.

Definition display_le (roots : gmap str str) (p q : TrackedPath) : Prop := str_compare (display_path roots p) (display_path roots q) <> Gt.

#[export] Instance display_le_dec roots : RelDecision (display_le roots).
Proof. intros p q. unfold display_le. solve_decision. Defined.

(** [Vec::dedup]. *)
Fixpoint dedup (l : list TrackedPath) : list TrackedPath :=
  match l with
  | p :: l => match dedup l with q :: l' => if bool_decide (p = q) then q :: l' else p :: q :: l' | [] => [p] end
  | [] => []
  end.

Definition sorted_paths (t : TurnDiffTracker) : list TrackedPath :=
  dedup (merge_sort (display_le (display_roots_by_environment t))
    ((hash_iter (baseline_by_path t)).*1 ++ (hash_iter (current_by_path t)).*1)).

Record RefreshState := mkRefresh {
  handled : gset TrackedPath;
  previous : gmap DiffCacheKey (option str);
  rendered : gmap DiffCacheKey (option str);
  aggregated : str;
}.

(** [aggregated.push_str(diff)], and a line feed if there is none. *)
Definition push_diff (aggregated : str) (rendered : option str) : str :=
  match rendered with
  | Some diff => let aggregated := aggregated ++ diff in if ends_with [LF] aggregated then aggregated else aggregated ++ [LF]
  | None => aggregated
  end.

Definition refresh_step (t : TurnDiffTracker) (pairs : gmap TrackedPath TrackedPath) (s : RefreshState) (p : TrackedPath) : RefreshState :=
  if bool_decide (p ∈ handled s) then s
  else
    let handled := {[p]} ∪ handled s in
    if bool_decide (p ∈ (map_to_list pairs).*2) then mkRefresh handled (previous s) (rendered s) (aggregated s)
    else
      let '(handled, right_path) := match pairs !! p with Some dest => ({[dest]} ∪ handled, dest) | None => (handled, p) end in
      let left_content := baseline_by_path t !! p in
      let right_content := current_by_path t !! right_path in
      let key := mkKey p (revision <$> left_content) right_path (revision <$> right_content) in
      let diff := match previous s !! key with
                  | Some diff => diff
                  | None => render_diff (display_roots_by_environment t) p (content <$> left_content) right_path (content <$> right_content)
                  end in
      mkRefresh handled (delete key (previous s)) (<[key := diff]> (rendered s)) (push_diff (aggregated s) diff).

Definition refresh_unified_diff (t : TurnDiffTracker) : TurnDiffTracker :=
  let s := fold_left (refresh_step t (rename_pairs t)) (sorted_paths t) (mkRefresh ∅ (rendered_diffs t) ∅ []) in
  mkTracker (valid t) (display_roots_by_environment t) (baseline_by_path t) (current_by_path t) (origin_by_current_path t)
    (next_revision t) (rendered s) (if is_empty (aggregated s) then None else Some (aggregated s)).

Definition track_delta (env : str) (t : TurnDiffTracker) (d : AppliedPatchDelta) : TurnDiffTracker :=
  if negb (valid t) then t
  else if negb (exact d) then invalidate t
  else refresh_unified_diff (fold_left (apply_change env) (changes d) t).

(** ** tools/events.rs *)

Inductive TurnDiffTrackerUpdate :=
| Track (env : option str) (delta : AppliedPatchDelta)
| Invalidate
| NoUpdate.

Definition tracker_update_for_known_delta (env : option str) (delta : AppliedPatchDelta) : TurnDiffTrackerUpdate :=
  if exact delta && delta_is_empty delta then NoUpdate else Track env delta.

(** What a call of a tool came to, without the texts. *)
Inductive ToolOut := OutOk | OutTimeout | OutDenied | OutOtherError | OutRejected.

Inductive PatchStage :=
| StageSuccess (applied_patch_delta : option AppliedPatchDelta)
| StageOutput
| StageMessage
| StageRejected (applied_patch_delta : option AppliedPatchDelta).

(** [ToolEmitter::finish] of an emitter for a patch. *)
Definition finish_stage (out : ToolOut) (applied_patch_delta : option AppliedPatchDelta) : PatchStage :=
  match out with
  | OutOk => StageSuccess applied_patch_delta
  | OutTimeout => StageOutput
  | OutDenied => match applied_patch_delta with Some delta => StageSuccess (Some delta) | None => StageOutput end
  | OutOtherError => StageMessage
  | OutRejected => StageRejected applied_patch_delta
  end.

(** [ToolEmitter::emit]: the update of the tracker. *)
Definition stage_update (env : option str) (stage : PatchStage) : TurnDiffTrackerUpdate :=
  match stage with
  | StageSuccess (Some delta) | StageRejected (Some delta) => tracker_update_for_known_delta env delta
  | StageSuccess None | StageOutput => Invalidate
  | StageMessage | StageRejected None => NoUpdate
  end.

(** [emit_patch_end]: the tracker, and the diff that clients are sent. *)
Definition emit_patch_end (t : TurnDiffTracker) (update : TurnDiffTrackerUpdate) : TurnDiffTracker * option str :=
  let had_unified_diff := has_unified_diff t in
  let '(t, tracker_changed) :=
    match update with
    | Track env delta => (track_delta (default [] env) t delta, true)
    | Invalidate => (invalidate t, true)
    | NoUpdate => (t, false)
    end in
  (t, if tracker_changed && (had_unified_diff || has_unified_diff t) then Some (default [] (get_unified_diff t)) else None).

End Diff.

(** ** runtimes/apply_patch.rs *)

Section Runtime.
Context {uri fs w Sandbox : Type} `{PathUriOps uri} `{ExecutorFileSystem fs uri} `{Write w}.
Context (under : Sandbox -> fs -> fs) (no_output : w).

Definition delta_of (r : result AppliedPatchDelta ApplyPatchFailure) : AppliedPatchDelta :=
  match r with Ok delta => delta | Err failure => failure_delta failure end.

(** One attempt of [ApplyPatchRuntime::run], in a sandbox. *)
Definition run_attempt (patch : str) (cwd : uri) (st : fs * AppliedPatchDelta) (sandbox : Sandbox) : fs * AppliedPatchDelta :=
  let '(f, committed_delta) := st in
  let '(_, _, f, r) := apply_patch patch cwd no_output no_output (under sandbox f) in
  (f, delta_append committed_delta (delta_of r)).

(** A call of the tool: the sandboxes of its attempts and what it came to are
    up to the orchestrator. *)
Record PatchCall := mkCall {
  call_environment : str;
  call_cwd : uri;
  call_patch : str;
  call_attempts : list Sandbox;
  call_out : ToolOut;
}.

Definition run_call `{DiffLib} (files : str -> fs) (t : TurnDiffTracker) (c : PatchCall)
    : (str -> fs) * TurnDiffTracker * AppliedPatchDelta :=
  let env := call_environment c in
  let '(f, committed_delta) := fold_left (run_attempt (call_patch c) (call_cwd c)) (call_attempts c) (files env, empty_delta) in
  (fun e => if bool_decide (e = env) then f else files e,
   (emit_patch_end t (stage_update (Some env) (finish_stage (call_out c) (Some committed_delta)))).1,
   committed_delta).

(** The calls of a turn, with what each of them committed. *)
Fixpoint run_turn `{DiffLib} (files : str -> fs) (t : TurnDiffTracker) (calls : list PatchCall)
    : (str -> fs) * TurnDiffTracker * list (PatchCall * AppliedPatchDelta) :=
  match calls with
  | [] => (files, t, [])
  | c :: calls =>
      let '(files, t, d) := run_call files t c in
      let '(files, t, log) := run_turn files t calls in
      (files, t, (c, d) :: log)
  end.

End Runtime.
Arguments PatchCall : clear implicits.

End TurnDiff.

(** * Theorems: the diff shows the net change of the turn *)

Module TurnDiffFacts.
Import AbsolutePath Patch Apply ApplyFacts TurnDiff.
Open Scope rust_scope.

(** ** Texts of the files of all environments *)

Notation world := (TrackedPath -> option str).

Definition set_world (w : world) (p : TrackedPath) (t : option str) : world := fun q => if bool_decide (q = p) then t else w q.

Definition after (env : str) (w : world) (c : AppliedPatchChange) : world :=
  let p := mkPath env (change_path c) in
  match change c with
  | ChangeAdd content _ => set_world w p (Some content)
  | ChangeDelete _ => set_world w p None
  | ChangeUpdate None _ _ new => set_world w p (Some new)
  | ChangeUpdate (Some dest) _ _ new => set_world (set_world w (mkPath env dest) (Some new)) p None
  end.

Definition before (env : str) (w : world) (c : AppliedPatchChange) : world :=
  let p := mkPath env (change_path c) in
  match change c with
  | ChangeAdd _ overwritten => set_world w p overwritten
  | ChangeDelete content => set_world w p (Some content)
  | ChangeUpdate None old _ _ => set_world w p (Some old)
  | ChangeUpdate (Some dest) old overwritten _ => set_world (set_world w (mkPath env dest) overwritten) p (Some old)
  end.

(** The change leads from [w] to [w'], and says what was there. *)
Definition describes (env : str) (w : world) (c : AppliedPatchChange) (w' : world) : Prop :=
  (forall p, w' p = after env w c p) /\ (forall p, w p = before env w' c p).

Fixpoint follows (env : str) (w : world) (cs : list AppliedPatchChange) (w' : world) : Prop :=
  match cs with
  | [] => forall p, w' p = w p
  | c :: cs => exists w1, describes env w c w1 /\ follows env w1 cs w'
  end.

(** Not a move of a file onto itself, which [apply_patch] turns into a removal. *)
Definition moves_away (c : AppliedPatchChange) : Prop :=
  match change c with ChangeUpdate (Some dest) _ _ _ => dest <> change_path c | _ => True end.

(** ** What the tracker knows *)

(** A path that the tracker has not seen, or no longer, has its first text; of
    the others it has the first and the present one. *)
Definition tracks_path (w0 w : world) (t : TurnDiffTracker) (p : TrackedPath) : Prop :=
  match baseline_by_path t !! p, current_by_path t !! p with
  | None, None => w p = w0 p
  | b, c => w0 p = content <$> b /\ w p = content <$> c
  end.

Definition tracks (w0 w : world) (t : TurnDiffTracker) : Prop := forall p, tracks_path w0 w t p.

Definition known (w0 : world) (t : TurnDiffTracker) (p : TrackedPath) : Prop := w0 p = content <$> baseline_by_path t !! p.

Lemma tracks_at w0 w t p : known w0 t p -> w p = content <$> current_by_path t !! p -> tracks_path w0 w t p.
Proof. unfold known, tracks_path. intros ->. destruct (baseline_by_path t !! p), (current_by_path t !! p); cbn; auto. Qed.

(** Where nothing happens, nothing changes. *)
Lemma tracks_frame w0 w w' t t' p : tracks_path w0 w t p -> w' p = w p ->
  baseline_by_path t' !! p = baseline_by_path t !! p -> current_by_path t' !! p = current_by_path t !! p ->
  tracks_path w0 w' t' p.
Proof. unfold tracks_path. by intros Ht -> -> ->. Qed.

Lemma note_same t p old q : q <> p -> baseline_by_path (note_baseline t p old) !! q = baseline_by_path t !! q.
Proof.
  intros Hq. unfold note_baseline. destruct old; [|done]. destruct (_ && _); [|done]. cbn. by rewrite lookup_insert_ne by done.
Qed.

Lemma note_current t p old : current_by_path (note_baseline t p old) = current_by_path t.
Proof. unfold note_baseline. destruct old; [|done]. by destruct (_ && _). Qed.

Lemma note_known w0 w t p old : tracks_path w0 w t p -> w p = old -> known w0 (note_baseline t p old) p.
Proof.
  unfold tracks_path. intros Ht Hw. unfold known, note_baseline, has_path.
  destruct (baseline_by_path t !! p) eqn:Eb, (current_by_path t !! p) eqn:Ec; cbn in Ht; destruct old; cbn; rewrite ?Eb, ?lookup_insert_eq;
    cbn; intuition congruence.
Qed.

Lemma note_frame w0 w t p old q : q <> p -> tracks_path w0 w t q -> tracks_path w0 w (note_baseline t p old) q.
Proof. intros Hq Ht. apply (tracks_frame w0 w _ t); [done|done|by apply note_same|by rewrite note_current]. Qed.

Lemma add_tracks w0 w w' t p c overwritten :
  tracks w0 w t -> w p = overwritten -> w' p = Some c -> (forall q, q <> p -> w' q = w q) -> tracks w0 w' (apply_add t p c overwritten).
Proof.
  intros Ht Hw Hp Hq q. set (t1 := set_origin t (delete p (origin_by_current_path t))).
  assert (Ht1 : tracks w0 w t1) by done. destruct (decide (q = p)) as [->|Hne].
  - apply tracks_at; cbn.
    + unfold known. cbn. by apply (note_known w0 w t1).
    + by rewrite lookup_insert_eq.
  - apply (tracks_frame w0 w _ t1); [done|by apply Hq| |]; cbn.
    + by rewrite note_same.
    + rewrite lookup_insert_ne by done. by rewrite note_current.
Qed.

Lemma delete_tracks w0 w w' t p c :
  tracks w0 w t -> w p = Some c -> w' p = None -> (forall q, q <> p -> w' q = w q) -> tracks w0 w' (apply_delete t p c).
Proof.
  intros Ht Hw Hp Hq q. unfold apply_delete. destruct (decide (q = p)) as [->|Hne].
  - apply tracks_at; [|cbn; destruct (_ && _); cbn; by rewrite lookup_delete_eq].
    pose proof (Ht p) as Htp. unfold tracks_path in Htp. unfold known, has_path. cbn.
    destruct (baseline_by_path t !! p) eqn:Eb, (current_by_path t !! p) eqn:Ec; cbn in *; rewrite ?Eb, ?lookup_insert_eq; cbn; intuition congruence.
  - apply (tracks_frame w0 w _ t); [done|by apply Hq| |]; cbn; destruct (_ && _); cbn; by rewrite ?lookup_insert_ne, ?lookup_delete_ne by done.
Qed.

Lemma update_tracks w0 w w' t p old new overwritten :
  tracks w0 w t -> w p = Some old -> w' p = Some new -> (forall q, q <> p -> w' q = w q) ->
  tracks w0 w' (apply_update t p None old overwritten new).
Proof.
  intros Ht Hw Hp Hq q. unfold apply_update. destruct (decide (q = p)) as [->|Hne].
  - apply tracks_at; [|cbn [insert_current tracked_content current_by_path set_current set_paths]; by rewrite lookup_insert_eq].
    by apply (note_known w0 w).
  - apply (tracks_frame w0 w _ t); [done|by apply Hq| |].
    + cbn [insert_current tracked_content baseline_by_path set_current set_paths]. by rewrite note_same.
    + cbn [insert_current tracked_content current_by_path set_current set_paths]. by rewrite lookup_insert_ne, note_current by done.
Qed.

(** The state of the maps after a move, without the origins. *)
Lemma move_maps t p dest old overwritten new :
  let t' := apply_update t p (Some dest) old overwritten new in
  baseline_by_path t' = baseline_by_path (note_baseline (note_baseline t p (Some old)) dest overwritten)
  /\ current_by_path t' = <[dest := mkContent new (next_revision (note_baseline (note_baseline t p (Some old)) dest overwritten))]>
                            (delete p (current_by_path t)).
Proof.
  intros t'. unfold t', apply_update. set (t2 := note_baseline (note_baseline t p (Some old)) dest overwritten).
  assert (Hc : current_by_path t2 = current_by_path t) by (unfold t2; by rewrite !note_current).
  clearbody t2. split; case_bool_decide; cbn; by rewrite ?Hc.
Qed.

Lemma move_tracks w0 w w' t p dest old overwritten new :
  tracks w0 w t -> dest <> p -> w p = Some old -> w dest = overwritten -> w' p = None -> w' dest = Some new ->
  (forall q, q <> p -> q <> dest -> w' q = w q) ->
  tracks w0 w' (apply_update t p (Some dest) old overwritten new).
Proof.
  intros Ht Hne Hp Hd Hp' Hd' Hq q. destruct (move_maps t p dest old overwritten new) as [Hb Hc].
  set (t' := apply_update _ _ _ _ _ _) in *. set (t1 := note_baseline t p (Some old)) in *.
  assert (Hknown : known w0 (note_baseline t1 dest overwritten) dest).
  { apply (note_known w0 w); [by apply note_frame|done]. }
  destruct (decide (q = p)) as [->|Hqp]; [|destruct (decide (q = dest)) as [->|Hqd]].
  - apply tracks_at.
    + unfold known. rewrite Hb, note_same by done. by apply (note_known w0 w).
    + by rewrite Hc, lookup_insert_ne, lookup_delete_eq.
  - apply tracks_at.
    + unfold known. rewrite Hb. apply Hknown.
    + by rewrite Hc, lookup_insert_eq.
  - apply (tracks_frame w0 w _ t); [done|by apply Hq| |].
    + rewrite Hb, note_same by done. by apply note_same.
    + by rewrite Hc, lookup_insert_ne, lookup_delete_ne by done.
Qed.

Lemma set_world_eq w p t : set_world w p t p = t.
Proof. unfold set_world. by rewrite bool_decide_true. Qed.
Lemma set_world_ne w p t q : q <> p -> set_world w p t q = w q.
Proof. intros. unfold set_world. by rewrite bool_decide_false. Qed.

Lemma set_world_ext w w' p t q : (forall r, w r = w' r) -> set_world w p t q = set_world w' p t q.
Proof. intros Hw. unfold set_world. by case_bool_decide. Qed.

Lemma after_ext env w w' c p : (forall r, w r = w' r) -> after env w c p = after env w' c p.
Proof. intros Hw. unfold after. destruct (change c) as [| |[dest|]]; by repeat (apply set_world_ext; intros). Qed.

Lemma follows_start env cs w w1 w' : follows env w cs w' -> (forall p, w1 p = w p) -> follows env w1 cs w'.
Proof.
  destruct cs as [|c cs]; cbn; intros Hf Hw.
  - intros p. by rewrite Hf.
  - destruct Hf as (w2 & [Ha Hb] & Hf). exists w2. split; [|done]. split; intros p; [|by rewrite Hw].
    rewrite Ha. by apply after_ext.
Qed.

Lemma follows_end env cs w w' w2 : (forall p, w2 p = w' p) -> follows env w cs w' -> follows env w cs w2.
Proof.
  intros Hw. revert w. induction cs as [|c cs IH]; cbn; intros w Hf.
  - intros p. by rewrite Hw.
  - destruct Hf as (w1 & Hc & Hf). eauto.
Qed.

Lemma follows_app env cs ds w w1 w' : follows env w cs w1 -> follows env w1 ds w' -> follows env w (cs ++ ds) w'.
Proof.
  revert w. induction cs as [|c cs IH]; cbn; intros w Hc Hd; [by eapply follows_start|].
  destruct Hc as (w2 & Hw & Hc). eauto.
Qed.

(** A text before or after a change. *)
Ltac world_simpl Ha Hb :=
  intros; first [rewrite Ha|rewrite Hb]; repeat first [rewrite set_world_eq|rewrite set_world_ne by done]; done.

Lemma change_tracks env w0 w w' t c :
  tracks w0 w t -> describes env w c w' -> moves_away c -> tracks w0 w' (apply_change env t c).
Proof.
  intros Ht [Ha Hb] Hm. unfold apply_change, after, before, moves_away in *. destruct (change c) as [new old|old|[dest|] old overwritten new].
  - apply (add_tracks w0 w); try done; world_simpl Ha Hb.
  - apply (delete_tracks w0 w); try done; world_simpl Ha Hb.
  - assert (mkPath env dest <> mkPath env (change_path c)) by congruence. apply (move_tracks w0 w); try done; world_simpl Ha Hb.
  - apply (update_tracks w0 w); try done; world_simpl Ha Hb.
Qed.

(** ** Lists of paths *)

Lemma elem_of_dedup l p : p ∈ dedup l <-> p ∈ l.
Proof.
  induction l as [|q l IH]; [done|]. cbn. rewrite elem_of_cons, <- IH.
  destruct (dedup l) as [|q' l'] eqn:E; [by rewrite list_elem_of_singleton; set_solver|]. case_bool_decide; subst; set_solver.
Qed.

Lemma dedup_sublist l : dedup l `sublist_of` l.
Proof.
  induction l as [|q l IH]; [done|]. cbn. destruct (dedup l) as [|q' l'] eqn:E; [by apply sublist_skip|].
  case_bool_decide; [by apply sublist_cons|by apply sublist_skip].
Qed.

Lemma StronglySorted_sublist {A} (R : relation A) l k : l `sublist_of` k -> StronglySorted R k -> StronglySorted R l.
Proof.
  induction 1 as [|x l k Hl IH|x l k Hl IH]; [done| |]; intros Hs; apply StronglySorted_inv in Hs as [Hs Hx]; [|auto].
  constructor; [auto|]. rewrite Forall_forall in Hx |- *. intros y Hy. apply Hx. by eapply elem_of_sublist.
Qed.

(** ** The cache of renderings *)

Section Diffs.
Context `{DiffLib}.
Context (hash_iter_perm : forall A (m : gmap TrackedPath A), hash_iter m ≡ₚ map_to_list m).

(** Revisions name texts, and the cache holds renderings of what its keys name. *)
Record named (t : TurnDiffTracker) (text : N -> str) : Prop := {
  named_contents p c : baseline_by_path t !! p = Some c \/ current_by_path t !! p = Some c ->
    (revision c < next_revision t)%N /\ content c = text (revision c);
  named_cache k d : rendered_diffs t !! k = Some d ->
    (forall n, left_revision k = Some n \/ right_revision k = Some n -> (n < next_revision t)%N)
    /\ d = render_diff (display_roots_by_environment t) (left_path k) (text <$> left_revision k) (right_path k) (text <$> right_revision k);
}.

Definition cache_sound (t : TurnDiffTracker) : Prop := exists text, named t text.

(** The next revision names [c]. *)
Definition name_next (t : TurnDiffTracker) (text : N -> str) (c : str) : N -> str := fun n => if (n =? next_revision t)%N then c else text n.

Lemma name_next_old t text c n : (n < next_revision t)%N -> name_next t text c n = text n.
Proof using. intros. unfold name_next. by rewrite (proj2 (N.eqb_neq _ _)) by lia. Qed.

Lemma name_next_revisions t text c (r : option N) : (forall n, r = Some n -> (n < next_revision t)%N) ->
  name_next t text c <$> r = text <$> r.
Proof using. destruct r as [n|]; [|done]. intros Hn. cbn. by rewrite name_next_old by auto. Qed.

(** A step that adds the text [c], at most, and otherwise only forgets. *)
Lemma cache_sound_step t t' c :
  cache_sound t -> display_roots_by_environment t' = display_roots_by_environment t -> rendered_diffs t' = rendered_diffs t ->
  (next_revision t <= next_revision t')%N ->
  (forall p d, baseline_by_path t' !! p = Some d \/ current_by_path t' !! p = Some d ->
     (exists q, baseline_by_path t !! q = Some d \/ current_by_path t !! q = Some d)
     \/ (d = mkContent c (next_revision t) /\ (next_revision t < next_revision t')%N)) ->
  cache_sound t'.
Proof using.
  intros [text [Hcont Hcache]] Hroots Hr Hnext Hnew. exists (name_next t text c). split.
  - intros p d [[q Hq]|[-> Hlt]]%Hnew.
    + apply Hcont in Hq as [Hlt ->]. rewrite name_next_old by done. split; [lia|done].
    + cbn. split; [done|]. unfold name_next. by rewrite N.eqb_refl.
  - rewrite Hr, Hroots. intros k d [Hlt ->]%Hcache. split; [intros n Hn%Hlt; lia|]. rewrite !name_next_revisions; auto.
Qed.

Lemma sound_insert_baseline t p c : cache_sound t -> cache_sound (insert_baseline t p c).
Proof using.
  intros Ht. apply (cache_sound_step t _ c); try done; cbn; [lia|]. intros q d [Hq|Hq]; [|eauto].
  apply lookup_insert_Some in Hq as [[_ <-]|[_ Hq]]; [|eauto]. right. split; [done|lia].
Qed.

Lemma sound_insert_current t p c : cache_sound t -> cache_sound (insert_current t p c).
Proof using.
  intros Ht. apply (cache_sound_step t _ c); try done; cbn; [lia|]. intros q d [Hq|Hq]; [eauto|].
  apply lookup_insert_Some in Hq as [[_ <-]|[_ Hq]]; [|eauto]. right. split; [done|lia].
Qed.

Lemma sound_set_origin t o : cache_sound t -> cache_sound (set_origin t o).
Proof using. intros Ht. apply (cache_sound_step t _ []); try done; cbn; first [lia|eauto]. Qed.

Lemma sound_delete_current t p : cache_sound t -> cache_sound (set_current t (delete p (current_by_path t))).
Proof using.
  intros Ht. apply (cache_sound_step t _ []); try done; cbn. intros q d [Hq|Hq]; [eauto|].
  apply lookup_delete_Some in Hq as [_ Hq]. eauto.
Qed.

Lemma sound_note t p old : cache_sound t -> cache_sound (note_baseline t p old).
Proof using. unfold note_baseline. destruct old; [|done]. destruct (_ && _); [|done]. apply sound_insert_baseline. Qed.

#[local] Hint Resolve sound_insert_baseline sound_insert_current sound_set_origin sound_delete_current sound_note : rust.

Lemma change_sound env t c : cache_sound t -> cache_sound (apply_change env t c).
Proof using.
  intros Ht. unfold apply_change. destruct (change c) as [new old|old|[dest|] old overwritten new]; cbn [fmap option_fmap option_map].
  - unfold apply_add. auto 6 with rust.
  - unfold apply_delete. apply sound_set_origin. destruct (_ && _); auto with rust.
  - unfold apply_update. case_bool_decide; auto 10 with rust.
  - unfold apply_update. auto with rust.
Qed.

(** ** The sections of the diff *)

Lemma has_path_true {A} (m : gmap TrackedPath A) p : has_path m p = true <-> is_Some (m !! p).
Proof using. unfold has_path. destruct (m !! p); cbn; split; intros Hp; eauto; [done|by destruct Hp]. Qed.

Lemma has_path_false {A} (m : gmap TrackedPath A) p : has_path m p = false <-> m !! p = None.
Proof using. unfold has_path. by destruct (m !! p). Qed.

Lemma is_rename_true t dest origin : is_rename t dest origin = true ->
  dest <> origin /\ current_by_path t !! origin = None /\ is_Some (current_by_path t !! dest)
  /\ is_Some (baseline_by_path t !! origin) /\ baseline_by_path t !! dest = None.
Proof using.
  unfold is_rename. rewrite negb_true_iff, !orb_false_iff, !negb_false_iff, bool_decide_eq_false, !has_path_true, !has_path_false. tauto.
Qed.

Lemma elem_of_hash_iter {A} (m : gmap TrackedPath A) k a : (k, a) ∈ hash_iter m <-> m !! k = Some a.
Proof using hash_iter_perm. by rewrite hash_iter_perm, elem_of_map_to_list. Qed.

Lemma rename_pairs_spec t origin dest : rename_pairs t !! origin = Some dest ->
  origin_by_current_path t !! dest = Some origin /\ is_rename t dest origin = true.
Proof using hash_iter_perm.
  unfold rename_pairs. intros Hp. rewrite <- elem_of_hash_iter. revert Hp.
  assert (Hinv : forall l (pairs : gmap TrackedPath TrackedPath),
    (forall o d, pairs !! o = Some d -> (d, o) ∈ hash_iter (origin_by_current_path t) /\ is_rename t d o = true) ->
    (forall x, x ∈ l -> x ∈ hash_iter (origin_by_current_path t)) ->
    forall o d, fold_left (fun pairs '(dest, origin) => if is_rename t dest origin then <[origin := dest]> pairs else pairs) l pairs !! o = Some d ->
      (d, o) ∈ hash_iter (origin_by_current_path t) /\ is_rename t d o = true).
  { induction l as [|[d' o'] l IH]; intros pairs Hp Hl; [done|]. cbn. apply IH; [|intros; apply Hl; by right].
    destruct (is_rename t d' o') eqn:E; [|done]. intros o d [[<- <-]|[_ Hod]]%lookup_insert_Some; [|by apply Hp].
    split; [|done]. apply Hl. by left. }
  apply Hinv; [|done]. intros ? ? Hnone. by rewrite lookup_empty in Hnone.
Qed.

(** The paths that open a section, and the sections. *)
Definition is_dest (t : TurnDiffTracker) (p : TrackedPath) : Prop := p ∈ (map_to_list (rename_pairs t)).*2.

#[local] Instance is_dest_dec t p : Decision (is_dest t p).
Proof using. unfold is_dest. apply _. Defined.

Lemma is_dest_spec t p : is_dest t p <-> exists o, rename_pairs t !! o = Some p.
Proof using.
  unfold is_dest. rewrite list_elem_of_fmap. split.
  - intros ([o d] & -> & Hod). exists o. by apply elem_of_map_to_list.
  - intros [o Ho]. exists (o, p). split; [done|]. by apply elem_of_map_to_list.
Qed.

Definition section (t : TurnDiffTracker) (p : TrackedPath) : TrackedPath * TrackedPath := (p, default p (rename_pairs t !! p)).

(** The rendering of a section, from the maps alone. *)
Definition section_diff (t : TurnDiffTracker) (s : TrackedPath * TrackedPath) : option str :=
  render_diff (display_roots_by_environment t) s.1 (content <$> baseline_by_path t !! s.1) s.2 (content <$> current_by_path t !! s.2).

(** After the paths [l]. *)
Record refreshing (t : TurnDiffTracker) (text : N -> str) (l : list TrackedPath) (s : RefreshState) (opened : list TrackedPath) : Prop := {
  refreshing_text : aggregated s = fold_left push_diff (section_diff t <$> (section t <$> opened)) [];
  refreshing_nodup : NoDup opened;
  refreshing_opened p : p ∈ opened <-> p ∈ l /\ ~ is_dest t p;
  refreshing_sublist : opened `sublist_of` l;
  refreshing_handled p : ~ is_dest t p -> p ∈ handled s <-> p ∈ l;
  refreshing_cache k d : previous s !! k = Some d \/ rendered s !! k = Some d ->
    (forall n, left_revision k = Some n \/ right_revision k = Some n -> (n < next_revision t)%N)
    /\ d = render_diff (display_roots_by_environment t) (left_path k) (text <$> left_revision k) (right_path k) (text <$> right_revision k);
}.

Lemma named_content t text p : named t text ->
  content <$> baseline_by_path t !! p = text <$> (revision <$> baseline_by_path t !! p)
  /\ content <$> current_by_path t !! p = text <$> (revision <$> current_by_path t !! p).
Proof using.
  intros Ht. split.
  - destruct (baseline_by_path t !! p) as [c|] eqn:E; [|done]. cbn. f_equal. by apply (named_contents _ _ Ht p c); left.
  - destruct (current_by_path t !! p) as [c|] eqn:E; [|done]. cbn. f_equal. by apply (named_contents _ _ Ht p c); right.
Qed.

Lemma named_revision t text p r : named t text ->
  (revision <$> baseline_by_path t !! p = Some r \/ revision <$> current_by_path t !! p = Some r) -> (r < next_revision t)%N.
Proof using.
  intros Ht [Hr|Hr]; apply fmap_Some in Hr as (c & Hc & ->); apply (named_contents _ _ Ht p c); auto.
Qed.

Lemma rename_injective t o o' d : rename_pairs t !! o = Some d -> rename_pairs t !! o' = Some d -> o = o'.
Proof using hash_iter_perm. intros [Ho _]%rename_pairs_spec [Ho' _]%rename_pairs_spec. congruence. Qed.

(** What the step does with a path that opens a section. *)
Lemma refresh_open t text s p :
  named t text -> p ∉ handled s -> ~ is_dest t p ->
  (forall k d, previous s !! k = Some d ->
     d = render_diff (display_roots_by_environment t) (left_path k) (text <$> left_revision k) (right_path k) (text <$> right_revision k)) ->
  let right := (section t p).2 in
  let key := mkKey p (revision <$> baseline_by_path t !! p) right (revision <$> current_by_path t !! right) in
  exists handled', refresh_step t (rename_pairs t) s p
      = mkRefresh handled' (delete key (previous s)) (<[key := section_diff t (section t p)]> (rendered s))
          (push_diff (aggregated s) (section_diff t (section t p)))
    /\ forall q, q ∈ handled' <-> q = p \/ q ∈ handled s \/ (is_dest t q /\ rename_pairs t !! p = Some q).
Proof using hash_iter_perm.
  intros Ht Hin Hd Hc right key. unfold refresh_step. fold (is_dest t p). rewrite !bool_decide_false by done.
  assert (Hdiff : match previous s !! key with
                  | Some diff => diff
                  | None => render_diff (display_roots_by_environment t) p (content <$> baseline_by_path t !! p) right (content <$> current_by_path t !! right)
                  end = section_diff t (section t p)).
  { destruct (previous s !! key) as [d|] eqn:E; [|done]. rewrite (Hc _ _ E). unfold section_diff.
    rewrite (proj1 (named_content t text (section t p).1 Ht)), (proj2 (named_content t text (section t p).2 Ht)). done. }
  subst key right. unfold section in *. cbn [fst snd] in *.
  destruct (rename_pairs t !! p) as [dest|] eqn:E; cbn [default from_option id] in *; rewrite Hdiff; eexists; (split; [done|]); intros q.
  - assert (is_dest t dest) by (apply is_dest_spec; eauto). set_solver.
  - set_solver.
Qed.

Lemma refresh_step_spec t text l s opened p :
  named t text -> refreshing t text l s opened ->
  exists opened', refreshing t text (l ++ [p]) (refresh_step t (rename_pairs t) s p) opened'.
Proof using hash_iter_perm.
  intros Ht [Htext Hnd Hop Hsub Hh Hc]. unfold refresh_step. fold (is_dest t p).
  destruct (decide (is_dest t p)) as [Hd|Hd].
  { exists opened.
    assert (Hskip : forall q, ~ is_dest t q -> q ∈ l ++ [p] <-> q ∈ l).
    { intros q Hq. rewrite elem_of_app, list_elem_of_singleton. split; [|auto]. intros [Hql|Hqp]; [done|]. by subst. }
    assert (Hsub' : opened `sublist_of` l ++ [p]) by (by apply sublist_inserts_r).
    case_bool_decide; [|rewrite bool_decide_true by done]; split; cbn; try done; intros q; try (rewrite Hop; naive_solver).
    - intros Hq. rewrite Hskip by done. by apply Hh.
    - intros Hq. rewrite Hskip by done. rewrite elem_of_union, elem_of_singleton, Hh by done. naive_solver. }
  case_bool_decide as Hin.
  { exists opened. apply Hh in Hin; [|done]. split; try done.
    - intros q. rewrite elem_of_app, list_elem_of_singleton, Hop. naive_solver.
    - by apply sublist_inserts_r.
    - intros q Hq. rewrite Hh, elem_of_app, list_elem_of_singleton by done. naive_solver. }
  exists (opened ++ [p]). destruct (refresh_open t text s p Ht Hin Hd) as (handled' & Hstep & Hhandled); [naive_solver|].
  unfold refresh_step in Hstep. fold (is_dest t p) in Hstep. rewrite !bool_decide_false in Hstep by done.
  rewrite bool_decide_false by done. rewrite Hstep. rewrite Hh in Hin by done. split; cbn [aggregated handled previous rendered].
  - rewrite !fmap_app, fold_left_app, <- Htext. done.
  - apply NoDup_app. split; [done|]. split; [|apply NoDup_singleton]. intros q Hq ->%list_elem_of_singleton. apply Hin, Hop, Hq.
  - intros q. rewrite !elem_of_app, !list_elem_of_singleton, Hop. naive_solver.
  - by apply sublist_app.
  - intros q Hq. rewrite Hhandled, elem_of_app, list_elem_of_singleton, Hh by done. naive_solver.
  - intros k d [Hk|Hk].
    + apply lookup_delete_Some in Hk as [_ Hk]. auto.
    + apply lookup_insert_Some in Hk as [[<- <-]|[_ Hk]]; [|auto]. cbn. split.
      * intros n [Hn|Hn]; eapply named_revision; eauto.
      * unfold section_diff. by rewrite (proj1 (named_content t text _ Ht)), (proj2 (named_content t text _ Ht)).
Qed.


(** ** The paths in order *)

#[local] Instance display_le_total roots : Total (display_le roots).
Proof using.
  intros p q. unfold display_le. rewrite (str_compare_antisym (display_path roots p) (display_path roots q)).
  destruct (str_compare (display_path roots p) (display_path roots q)); cbn; [left|left|right]; done.
Qed.

#[local] Instance display_le_trans roots : Transitive (display_le roots).
Proof using.
  intros p q r. unfold display_le. generalize (display_path roots p) (display_path roots q) (display_path roots r). intros a b c Hab Hbc.
  destruct (str_compare a b) eqn:E; [apply str_compare_eq in E as ->; done| |done].
  destruct (str_compare b c) eqn:E'; [apply str_compare_eq in E' as <-; by rewrite E| |done]. by rewrite (str_compare_lt_trans a b c).
Qed.

Lemma sorted_paths_spec t :
  (forall p, p ∈ sorted_paths t <-> is_Some (baseline_by_path t !! p) \/ is_Some (current_by_path t !! p))
  /\ StronglySorted (display_le (display_roots_by_environment t)) (sorted_paths t).
Proof using hash_iter_perm.
  assert (Hkey : forall A (m : gmap TrackedPath A) p, p ∈ (hash_iter m).*1 <-> is_Some (m !! p)).
  { intros A m p. rewrite list_elem_of_fmap. split.
    - intros ([q a] & -> & Ha%elem_of_hash_iter). by exists a.
    - intros [a Ha]. exists (p, a). split; [done|]. by apply elem_of_hash_iter. }
  split.
  - intros p. unfold sorted_paths. by rewrite elem_of_dedup, merge_sort_Permutation, elem_of_app, !Hkey.
  - apply (StronglySorted_sublist _ _ _ (dedup_sublist _)). apply (StronglySorted_merge_sort _).
Qed.

Lemma refresh_sections t : cache_sound t ->
  cache_sound (refresh_unified_diff t) /\
  exists opened, NoDup opened /\ StronglySorted (display_le (display_roots_by_environment t)) opened
    /\ (forall p, p ∈ opened <-> (is_Some (baseline_by_path t !! p) \/ is_Some (current_by_path t !! p)) /\ ~ is_dest t p)
    /\ unified_diff (refresh_unified_diff t)
       = (let d := fold_left push_diff (section_diff t <$> (section t <$> opened)) [] in if is_empty d then None else Some d).
Proof using hash_iter_perm.
  intros [text Ht]. destruct (sorted_paths_spec t) as [Hin Hsorted].
  assert (Hloop : forall l k s opened, refreshing t text k s opened ->
    exists opened', refreshing t text (k ++ l) (fold_left (refresh_step t (rename_pairs t)) l s) opened').
  { induction l as [|p l IH]; intros k s opened Hs; [rewrite app_nil_r; eauto|]. cbn. rewrite (app_cons_shift k).
    destruct (refresh_step_spec t text k s opened p Ht Hs) as [opened' Hs']. by apply (IH _ _ opened'). }
  destruct (Hloop (sorted_paths t) [] (mkRefresh ∅ (rendered_diffs t) ∅ []) []) as [opened Hfinal].
  { split; cbn; try done; try set_solver; [apply NoDup_nil_2|]. intros k d [Hk|Hk]; [|by rewrite lookup_empty in Hk].
    by apply (named_cache _ _ Ht). }
  cbn [app] in Hfinal. destruct Hfinal as [Htext Hnd Hop Hsub _ Hc]. split.
  - exists text. split; cbn; [apply Ht|]. auto.
  - exists opened. split_and!; [done| | |].
    + by apply (StronglySorted_sublist _ _ _ Hsub).
    + intros p. by rewrite Hop, Hin.
    + cbn. by rewrite Htext.
Qed.

(** ** What the diff shows *)

Definition section_paths (s : TrackedPath * TrackedPath) : list TrackedPath := if bool_decide (s.1 = s.2) then [s.1] else [s.1; s.2].

(** The diff between the texts [w0] and [w]: every path that differs is in
    exactly one section; a section is for one path, or for a file that is gone
    and one that is new; the sections are ordered, and each shows the first text
    of its left side and the present one of its right side. *)
Definition shows_net_change (roots : gmap str str) (w0 w : world) (shown : option str) : Prop := exists sections : list (TrackedPath * TrackedPath),
  NoDup (sections ≫= section_paths)
  /\ (forall p, w p <> w0 p -> p ∈ sections ≫= section_paths)
  /\ (forall s, s ∈ sections -> s.1 <> s.2 -> w0 s.1 <> None /\ w s.1 = None /\ w0 s.2 = None /\ w s.2 <> None)
  /\ StronglySorted (display_le roots) sections.*1
  /\ shown = (let d := fold_left push_diff ((fun s => render_diff roots s.1 (w0 s.1) s.2 (w s.2)) <$> sections) [] in
              if is_empty d then None else Some d).

Lemma tracks_rename w0 w t o d : tracks w0 w t -> rename_pairs t !! o = Some d ->
  o <> d /\ w0 o <> None /\ w o = None /\ w0 d = None /\ w d <> None /\ is_Some (baseline_by_path t !! o) /\ ~ is_dest t o.
Proof using hash_iter_perm.
  intros Ht [_ (Hne & Hco & [c Hcd] & [b Hbo] & Hbd)%is_rename_true]%rename_pairs_spec.
  pose proof (Ht o) as Ho. pose proof (Ht d) as Hd. unfold tracks_path in *. rewrite Hco, Hbo in Ho. rewrite Hcd, Hbd in Hd.
  destruct Ho as [-> ->], Hd as [-> ->]. split_and!; try done; eauto. intros [o' Ho']%is_dest_spec.
  apply rename_pairs_spec in Ho' as [_ (_ & _ & [? ?] & _)%is_rename_true]. congruence.
Qed.

Lemma tracks_touched w0 w t p : tracks w0 w t -> is_Some (baseline_by_path t !! p) \/ is_Some (current_by_path t !! p) ->
  w0 p = content <$> baseline_by_path t !! p /\ w p = content <$> current_by_path t !! p.
Proof using.
  intros Ht Hp. specialize (Ht p). unfold tracks_path in Ht.
  destruct (baseline_by_path t !! p), (current_by_path t !! p); try done. by destruct Hp as [[? [=]]|[? [=]]].
Qed.

Lemma tracks_present w0 w t o d : tracks w0 w t -> rename_pairs t !! o = Some d -> w d = content <$> current_by_path t !! d.
Proof using hash_iter_perm.
  intros Ht [_ (_ & _ & Hd & _)%is_rename_true]%rename_pairs_spec. apply (tracks_touched w0 w t d Ht). auto.
Qed.

Lemma sections_nodup w0 w t opened : tracks w0 w t -> NoDup opened -> (forall p, p ∈ opened -> ~ is_dest t p) ->
  NoDup ((section t <$> opened) ≫= section_paths).
Proof using hash_iter_perm.
  intros Ht Hnd Hop. apply NoDup_bind.
  - intros s1 s2 q (p1 & -> & H1)%list_elem_of_fmap (p2 & -> & H2)%list_elem_of_fmap. unfold section_paths, section. cbn [fst snd].
    intros Hq1 Hq2. enough (p1 = p2) as -> by done. apply Hop in H1, H2.
    assert (Hcase : forall p, q ∈ (if bool_decide (p = default p (rename_pairs t !! p)) then [p] else [p; default p (rename_pairs t !! p)]) ->
      q = p \/ rename_pairs t !! p = Some q).
    { clear Hq1 Hq2. intros p. destruct (rename_pairs t !! p) as [d|]; cbn; case_bool_decide; intros Hq; set_unfold; naive_solver. }
    destruct (Hcase _ Hq1) as [->|E1], (Hcase _ Hq2) as [E2|E2]; try done.
    + destruct H1. apply is_dest_spec. eauto.
    + subst. destruct H2. apply is_dest_spec. eauto.
    + by eapply rename_injective.
  - intros s _. unfold section_paths. case_bool_decide; [apply NoDup_singleton|]. apply NoDup_cons. split; [set_solver|apply NoDup_singleton].
  - apply NoDup_fmap_2; [|done]. by intros p1 p2 [= ->].
Qed.

Lemma refresh_shows w0 w t : tracks w0 w t -> cache_sound t ->
  shows_net_change (display_roots_by_environment t) w0 w (unified_diff (refresh_unified_diff t)).
Proof using hash_iter_perm.
  intros Ht Hs. destruct (refresh_sections t Hs) as (_ & opened & Hnd & Hsorted & Hop & ->). exists (section t <$> opened).
  assert (Htouched : forall p, is_Some (baseline_by_path t !! p) \/ is_Some (current_by_path t !! p) -> p ∈ (section t <$> opened) ≫= section_paths).
  { intros p Hp. apply list_elem_of_bind. destruct (decide (is_dest t p)) as [[o Ho]%is_dest_spec|Hd].
    - destruct (tracks_rename _ _ _ _ _ Ht Ho) as (Hne & _ & _ & _ & _ & Hbo & Hdo). exists (section t o). split.
      + unfold section_paths, section. rewrite Ho. cbn. rewrite bool_decide_false by done. set_solver.
      + apply list_elem_of_fmap. exists o. rewrite Hop. auto.
    - exists (section t p). split; [unfold section_paths, section; cbn; case_bool_decide; set_solver|].
      apply list_elem_of_fmap. exists p. by rewrite Hop. }
  split_and!.
  - apply (sections_nodup w0 w); [done|done|]. intros p [_ Hp]%Hop. done.
  - intros p Hp. apply Htouched. specialize (Ht p). unfold tracks_path in Ht.
    destruct (baseline_by_path t !! p), (current_by_path t !! p); eauto. done.
  - intros s (p & -> & Hp)%list_elem_of_fmap. unfold section. cbn [fst snd]. destruct (rename_pairs t !! p) as [d|] eqn:E; [|done]. cbn.
    destruct (tracks_rename _ _ _ _ _ Ht E) as (? & ? & ? & ? & ? & _). auto.
  - rewrite <- list_fmap_compose. by rewrite list_fmap_id.
  - assert (section_diff t <$> (section t <$> opened)
      = (fun s => render_diff (display_roots_by_environment t) s.1 (w0 s.1) s.2 (w s.2)) <$> (section t <$> opened)) as ->; [|done].
    rewrite <- !list_fmap_compose. apply list_fmap_ext. intros i p Hi. apply list_elem_of_lookup_2, Hop in Hi as [Hi _].
    unfold section_diff, section. cbn [fst snd compose]. rewrite (proj1 (tracks_touched _ _ _ _ Ht Hi)).
    destruct (rename_pairs t !! p) as [d|] eqn:E; cbn; [|by rewrite (proj2 (tracks_touched _ _ _ _ Ht Hi))].
    destruct (tracks_rename _ _ _ _ _ Ht E) as (_ & _ & _ & _ & Hd & _). by rewrite (tracks_present _ _ _ _ _ Ht E).
Qed.

(** ** Deltas *)

(** The tracker of a turn that began with the texts [w0], when they are [w]. *)
Definition tracker_ok (roots : gmap str str) (w0 w : world) (t : TurnDiffTracker) : Prop :=
  if valid t then
    display_roots_by_environment t = roots /\ tracks w0 w t /\ cache_sound t /\ shows_net_change roots w0 w (unified_diff t)
  else unified_diff t = None.

Lemma apply_change_frame env t c : valid (apply_change env t c) = valid t
  /\ display_roots_by_environment (apply_change env t c) = display_roots_by_environment t.
Proof using.
  unfold apply_change, apply_add, apply_delete, apply_update, note_baseline. destruct (change c) as [? []|?|[?|] ? [] ?]; cbn;
    repeat case_match; done.
Qed.

Lemma changes_valid env cs t : valid (fold_left (apply_change env) cs t) = valid t.
Proof using. revert t. induction cs as [|c cs IH]; intros t; [done|]. cbn. rewrite IH. apply apply_change_frame. Qed.

Lemma track_delta_valid env t d : valid (track_delta env t d) = valid t && exact d.
Proof using.
  unfold track_delta. destruct (valid t) eqn:Ev; cbn [negb andb]; [|done]. destruct (exact d); cbn [negb]; [|done].
  cbn [refresh_unified_diff valid]. by rewrite changes_valid.
Qed.

Lemma changes_tracked env w0 cs : forall w w' t, tracks w0 w t -> cache_sound t -> follows env w cs w' -> Forall moves_away cs ->
  let t' := fold_left (apply_change env) cs t in
  tracks w0 w' t' /\ cache_sound t' /\ valid t' = valid t /\ display_roots_by_environment t' = display_roots_by_environment t.
Proof using.
  induction cs as [|c cs IH]; intros w w' t Ht Hs Hf Hm; cbn in *.
  - split_and!; try done. intros p. by apply (tracks_frame w0 w _ t).
  - destruct Hf as (w1 & Hc & Hf). apply Forall_cons in Hm as [Hmc Hm]. destruct (apply_change_frame env t c) as [<- <-].
    apply (IH w1); [by apply (change_tracks env w0 w)|by apply change_sound|done|done].
Qed.

Lemma track_delta_ok roots env w0 w w' t d : tracker_ok roots w0 w t -> (exact d = true -> follows env w (changes d) w') ->
  Forall moves_away (changes d) -> tracker_ok roots w0 w' (track_delta env t d).
Proof using hash_iter_perm.
  unfold tracker_ok, track_delta. destruct (valid t) eqn:Ev; cbn [negb]; [|by rewrite Ev].
  intros (Hroots & Ht & Hs & _) Hd Hm. destruct (exact d); cbn [negb]; [|done].
  destruct (changes_tracked env w0 _ w w' t Ht Hs (Hd eq_refl) Hm) as (Ht' & Hs' & Hv' & Hr').
  set (t' := fold_left _ _ _) in *. cbn [refresh_unified_diff valid]. rewrite Hv', Ev. split_and!.
  - cbn. congruence.
  - done.
  - by apply refresh_sections.
  - rewrite <- Hroots, <- Hr'. by apply (refresh_shows w0 w').
Qed.

Lemma tracker_ok_same roots w0 w w' t : tracker_ok roots w0 w t -> (forall p, w' p = w p) -> tracker_ok roots w0 w' t.
Proof using.
  unfold tracker_ok. destruct (valid t); [|done]. intros (Hr & Ht & Hs & L & Hnd & Hall & Hren & Hsort & Hshow) Hw. split_and!; try done.
  - intros p. by apply (tracks_frame w0 w _ t).
  - exists L. split_and!; try done.
    + intros p. rewrite Hw. apply Hall.
    + intros s Hs1 Hs2. rewrite !Hw. auto.
    + rewrite Hshow. assert ((fun s => render_diff roots s.1 (w0 s.1) s.2 (w s.2)) <$> L = (fun s => render_diff roots s.1 (w0 s.1) s.2 (w' s.2)) <$> L)
        as ->; [|done]. apply list_fmap_ext. intros i s _. by rewrite Hw.
Qed.

Lemma start_ok roots w : tracker_ok roots w w (with_environment_display_roots roots).
Proof using.
  split_and!; [done| | |].
  - intros p. unfold tracks_path. cbn. by rewrite !lookup_empty.
  - exists (fun _ => []). split; cbn; intros ? ?; rewrite ?lookup_empty; [by intros [?|?]|done].
  - exists []. split_and!; cbn; [apply NoDup_nil_2|done|by intros s Hs%elem_of_nil|constructor|done].
Qed.

End Diffs.

(** ** Patches and files *)

Section Files.
Context {uri fs wr Sandbox : Type} {HU : PathUriOps uri} {HF : ExecutorFileSystem fs uri} {HD : EqDecision uri} {HL : FileSystemLaws fs uri}.
Context {HW : Write wr}.
Context (of_path : str -> option uri) (of_path_spec : forall p u, of_path p = Some u <-> to_path_buf u = p).

(** A path of an environment has the text of the file with that path. *)
Definition text_at (files : str -> fs) : world := fun p => of_path (path p) ≫= fs_text (files (environment_id p)).

(** The same with other texts in one environment. *)
Definition with_texts (env : str) (rest : world) (g : uri -> option str) : world :=
  fun p => if bool_decide (environment_id p = env) then of_path (path p) ≫= g else rest p.

Lemma to_path_buf_inj u v : to_path_buf u = to_path_buf v -> u = v.
Proof using of_path_spec. intros Huv%of_path_spec. assert (of_path (to_path_buf v) = Some v) by by apply of_path_spec. congruence. Qed.

Lemma with_texts_ext env rest g g' p : (forall v, g v = g' v) -> with_texts env rest g p = with_texts env rest g' p.
Proof using. intros Hg. unfold with_texts. case_bool_decide; [|done]. destruct (of_path (path p)); cbn; auto. Qed.

Lemma with_texts_set env rest g (u : uri) t p :
  with_texts env rest (set_text g (to_path_buf u) t) p = set_world (with_texts env rest g) (mkPath env (to_path_buf u)) t p.
Proof using of_path_spec.
  unfold with_texts, set_world, set_text. destruct p as [e q]. cbn [environment_id path].
  case_bool_decide as He; [subst e|rewrite bool_decide_false by congruence; done].
  destruct (of_path q) as [v|] eqn:Ev; cbn.
  - apply of_path_spec in Ev as <-. case_bool_decide as E1; case_bool_decide as E2; try done; congruence.
  - rewrite bool_decide_false; [done|]. intros [= ->]. assert (of_path (to_path_buf u) = Some u) by by apply of_path_spec. congruence.
Qed.

(** The paths of a change are those of files. *)
Definition located (c : AppliedPatchChange) : Prop :=
  (exists u : uri, change_path c = to_path_buf u)
  /\ match change c with ChangeUpdate (Some dest) _ _ _ => exists v : uri, dest = to_path_buf v | _ => True end.

Lemma describes_texts env rest g g' c : located c -> (forall v, g' v = replay_change g c v) -> (forall v, undo_change g' c v = g v) ->
  describes env (with_texts env rest g) c (with_texts env rest g').
Proof using of_path_spec.
  intros [[u Hu] Hdest] Hr Hb. unfold describes, after, before.
  split; intros p; [rewrite (with_texts_ext _ _ _ _ _ Hr)|rewrite <- (with_texts_ext _ _ _ _ _ Hb)];
    unfold replay_change, undo_change; rewrite Hu in *; destruct (change c) as [| |[dest|]]; try apply with_texts_set;
    destruct Hdest as [v ->]; rewrite with_texts_set; apply set_world_ext; intros; apply with_texts_set.
Qed.

Lemma hunk_located cwd (f : fs) d a h f' d' a' r : Forall located (changes d) -> apply_hunk cwd (f, d, a) h = ((f', d', a'), r) -> Forall located (changes d').
Proof using.
  intros Hd. assert (Hu : forall (u : uri) ch, (match ch with ChangeUpdate (Some dest) _ _ _ => exists v : uri, dest = to_path_buf v | _ => True end) ->
    Forall located (changes d ++ [mkChange (to_path_buf u) ch])).
  { intros u ch Hch. apply Forall_app. split; [done|]. apply Forall_singleton. split; [by exists u|done]. }
  unfold apply_hunk, apply_add, apply_delete, apply_update, apply_move, apply_update_in_place.
  destruct (uri_join cwd _); [|by intros; simplify_eq].
  destruct h; intros Hstep; cbn in Hstep; repeat (case_hyp Hstep); simplify_eq/=; try done; try (by apply Hu).
  all: try (match goal with |- context [ok ?x] => destruct x end; cbn; first [done|by apply Hu]).
  rewrite insert_snoc. apply Hu. eauto.
Qed.

Lemma loop_follows env rest cwd hs : forall (f : fs) d a f' d' a' r,
  Forall located (changes d) -> apply_loop cwd (f, d, a) hs = ((f', d', a'), r) -> exact d' = true ->
  exact d = true /\ exists cs, changes d' = changes d ++ cs
    /\ follows env (with_texts env rest (fs_text f)) cs (with_texts env rest (fs_text f')).
Proof using of_path_spec.
  induction hs as [|h hs IH]; intros f d a f' d' a' r Hl; cbn [apply_loop].
  { intros [= -> -> _ _] Hex. split; [done|]. exists []. rewrite app_nil_r. done. }
  destruct (apply_hunk cwd (f, d, a) h) as [[[f1 d1] a1] r1] eqn:E.
  pose proof (hunk_located _ _ _ _ _ _ _ _ _ Hl E) as Hl1.
  apply (apply_hunk_recorded to_path_buf_inj) in E. intros Hloop Hex.
  assert (Hrest : exact d1 = true /\ exists cs, changes d' = changes d1 ++ cs
    /\ follows env (with_texts env rest (fs_text f1)) cs (with_texts env rest (fs_text f'))).
  { destruct r1 as [u|e]; [by eapply IH|]. simplify_eq. split; [done|]. exists []. rewrite app_nil_r. done. }
  destruct Hrest as (Hd1 & cs & Hcs & Hf). destruct (E Hd1) as [Hd [[Hsame Ht]|(c & Hc & Hr & Hu)]]; (split; [done|]).
  - exists cs. split; [by rewrite Hcs, Hsame|]. apply (follows_start _ _ _ _ _ Hf). intros p. symmetry. by apply with_texts_ext.
  - exists (c :: cs). split; [by rewrite Hcs, Hc, <- app_assoc|]. exists (with_texts env rest (fs_text f1)). split; [|done].
    rewrite Hc, Forall_app, Forall_singleton in Hl1. apply describes_texts; [tauto|done|done].
Qed.

(** A patch, whatever comes of it, applies hunks or does nothing. *)
Lemma patch_hunks patch (cwd : uri) (out err : wr) (f : fs) out' err' f' r :
  apply_patch patch cwd out err f = (out', err', f', r) ->
  (f' = f /\ delta_of r = empty_delta) \/ exists hs r', apply_hunks_to_files cwd f empty_delta hs = (f', delta_of r, r').
Proof using.
  unfold apply_patch. destruct (parse_patch patch) as [source|e].
  - unfold apply_hunks. destruct (apply_hunks_to_files cwd f empty_delta (args_hunks source)) as [[f1 d] [affected|e]] eqn:E; intros Hp; right;
      exists (args_hunks source); rewrite E; repeat (case_match; simplify_eq/=); eauto.
  - intros Hp. left. repeat (case_match; simplify_eq/=); done.
Qed.

Lemma patch_follows env rest patch cwd (out err : wr) (f : fs) out' err' f' r :
  apply_patch patch cwd out err f = (out', err', f', r) -> exact (delta_of r) = true ->
  follows env (with_texts env rest (fs_text f)) (changes (delta_of r)) (with_texts env rest (fs_text f')).
Proof using of_path_spec.
  intros [[-> ->]|(hs & r' & Hp)]%patch_hunks; [done|]. revert Hp. generalize (delta_of r). intros d Hp Hex. unfold apply_hunks_to_files in Hp.
  destruct (is_empty hs); [by simplify_eq|].
  destruct (apply_loop cwd (f, empty_delta, no_affected) hs) as [[[f1 d1] a1] r1] eqn:E.
  assert (f1 = f' /\ d1 = d) as [-> ->] by (destruct r1; by simplify_eq).
  by destruct (loop_follows env rest cwd hs f empty_delta _ _ _ _ _ (Forall_nil_2 _) E Hex) as (_ & cs & -> & Hf).
Qed.

(** ** The turn *)

Context (under : Sandbox -> fs -> fs) (no_output : wr).
Context (under_text : forall s f v, fs_text (under s f) v = fs_text f v).
Context {HDiff : DiffLib} (hash_iter_perm : forall A (m : gmap TrackedPath A), hash_iter m ≡ₚ map_to_list m).

Notation run_attempt := (run_attempt under no_output).
Notation run_call := (run_call under no_output).
Notation run_turn := (run_turn under no_output).

Lemma attempts_follow env rest patch cwd sandboxes : forall (f : fs) d f' d',
  fold_left (run_attempt patch cwd) sandboxes (f, d) = (f', d') -> exact d' = true ->
  exact d = true /\ exists cs, changes d' = changes d ++ cs /\ follows env (with_texts env rest (fs_text f)) cs (with_texts env rest (fs_text f')).
Proof using of_path_spec under_text.
  induction sandboxes as [|s sandboxes IH]; intros f d f' d'; cbn [fold_left].
  - intros [= -> ->] Hex. split; [done|]. exists []. rewrite app_nil_r. done.
  - unfold run_attempt at 2. destruct (apply_patch patch cwd no_output no_output (under s f)) as [[[out err] f1] r] eqn:E.
    intros Hrest Hex. destruct (IH _ _ _ _ Hrest Hex) as (Hd & cs & Hcs & Hf). cbn in Hd, Hcs. apply andb_true_iff in Hd as [Hd Hr].
    split; [done|]. exists (changes (delta_of r) ++ cs). split; [by rewrite Hcs, app_assoc|].
    apply (follows_app _ _ _ _ (with_texts env rest (fs_text f1))); [|done].
    apply (follows_start _ _ _ _ _ (patch_follows env rest _ _ _ _ _ _ _ _ _ E Hr)). intros p. apply with_texts_ext. intros v. by rewrite under_text.
Qed.

(** What the theorem asks of a call: it moves no file onto itself, and no change
    is committed by a call that fails for a reason other than the sandbox or a
    rejection, which the tracker is not told of. *)
Definition accounted (x : PatchCall uri Sandbox * AppliedPatchDelta) : Prop :=
  Forall moves_away (changes x.2) /\ (call_out x.1 = OutOtherError -> exact x.2 && delta_is_empty x.2 = true).

Definition is_exact_call (x : PatchCall uri Sandbox * AppliedPatchDelta) : bool :=
  exact x.2 && match call_out x.1 with OutTimeout => false | _ => true end.

Lemma known_delta_ok roots w0 w w' t env d : tracker_ok roots w0 w t -> (exact d = true -> follows env w (changes d) w') ->
  Forall moves_away (changes d) ->
  tracker_ok roots w0 w' (emit_patch_end t (tracker_update_for_known_delta (Some env) d)).1
  /\ valid (emit_patch_end t (tracker_update_for_known_delta (Some env) d)).1 = valid t && exact d.
Proof using hash_iter_perm.
  intros Ht Hd Hm. unfold tracker_update_for_known_delta. case_eq (exact d); intros Eex; cbn [andb].
  - destruct (delta_is_empty d) eqn:Eempty; cbn.
    + split; [|by rewrite andb_true_r]. apply is_empty_true in Eempty. specialize (Hd Eex). rewrite Eempty in Hd. by apply (tracker_ok_same _ _ w).
    + rewrite track_delta_valid, Eex. split; [|done]. by apply (track_delta_ok hash_iter_perm roots env w0 w).
  - cbn. rewrite track_delta_valid, Eex. split; [|done]. apply (track_delta_ok hash_iter_perm roots env w0 w); [done| |done]. congruence.
Qed.

Lemma text_at_env files env p : text_at files p = with_texts env (text_at files) (fs_text (files env)) p.
Proof using. unfold with_texts, text_at. case_bool_decide; [by subst|done]. Qed.

Lemma call_ok roots w0 files t c files' t' d : tracker_ok roots w0 (text_at files) t -> run_call files t c = (files', t', d) -> accounted (c, d) ->
  tracker_ok roots w0 (text_at files') t' /\ valid t' = valid t && is_exact_call (c, d).
Proof using of_path_spec under_text hash_iter_perm.
  intros Ht Hrun [Hm Hother]. unfold run_call in Hrun.
  destruct (fold_left (run_attempt (call_patch c) (call_cwd c)) (call_attempts c) (files (call_environment c), empty_delta)) as [f' d'] eqn:E.
  injection Hrun as <- <- ->. set (env := call_environment c) in *.
  set (files' := fun e => if bool_decide (e = env) then f' else files e).
  assert (Hf : exact d = true -> follows env (text_at files) (changes d) (text_at files')).
  { intros Hex. destruct (attempts_follow env (text_at files) _ _ _ _ _ _ _ E Hex) as (_ & cs & -> & Hf). cbn [changes empty_delta app].
    apply (follows_start _ _ (with_texts env (text_at files) (fs_text (files env)))); [|apply text_at_env].
    revert Hf. apply follows_end. intros p. unfold with_texts, text_at, files'. case_bool_decide; done. }
  unfold is_exact_call. cbn [fst snd] in *. unfold stage_update, finish_stage. destruct (call_out c); rewrite ?andb_true_r, ?andb_false_r.
  - by apply (known_delta_ok roots w0 (text_at files)).
  - done.
  - by apply (known_delta_ok roots w0 (text_at files)).
  - cbn. specialize (Hother eq_refl) as [Hex Hempty]%andb_true_iff. rewrite Hex, andb_true_r. split; [|done].
    specialize (Hf Hex). apply is_empty_true in Hempty. rewrite Hempty in Hf. by apply (tracker_ok_same _ _ (text_at files)).
  - by apply (known_delta_ok roots w0 (text_at files)).
Qed.

Lemma turn_ok roots w0 calls : forall files t files' t' log,
  tracker_ok roots w0 (text_at files) t -> run_turn files t calls = (files', t', log) -> Forall accounted log ->
  tracker_ok roots w0 (text_at files') t' /\ valid t' = valid t && forallb is_exact_call log.
Proof using of_path_spec under_text hash_iter_perm.
  induction calls as [|c calls IH]; intros files t files' t' log Ht; cbn [run_turn].
  - intros [= <- <- <-] _. split; [done|]. by rewrite andb_true_r.
  - destruct (run_call files t c) as [[files1 t1] d] eqn:Ec. destruct (run_turn files1 t1 calls) as [[files2 t2] log2] eqn:Et.
    intros [= <- <- <-] [Hc Hlog]%Forall_cons. destruct (call_ok roots w0 _ _ _ _ _ _ Ht Ec Hc) as [Ht1 Hv1].
    destruct (IH _ _ _ _ _ Ht1 Et Hlog) as [Ht2 Hv2]. split; [done|]. by rewrite Hv2, Hv1, <- andb_assoc.
Qed.

(** C11: The diff of a turn shows its net change: when the deltas of all its calls
    are exact, the files that differ from those at the start of the turn are each
    in exactly one section, and each section compares the text at the start with
    the one at the end, although the tracker reads no file and renders a section
    anew only when it has changed; when a delta is not exact, or a call timed
    out, there is no diff.  Calls may be denied or rejected after part of a patch
    was applied, be retried in other sandboxes, and go to different environments.
    Two cases, in which the diff is wrong, are excluded: a patch that moves a file
    onto itself, and a call that ends in another error after it has committed
    changes, of which the tracker is not told. *)
Theorem turn_diff_shows_net_change files roots calls files' t log :
  run_turn files (with_environment_display_roots roots) calls = (files', t, log) ->
  (forall c d change, (c, d) ∈ log -> change ∈ changes d -> moves_away change) ->
  (forall c d, (c, d) ∈ log -> call_out c = OutOtherError -> exact d = true /\ changes d = []) ->
  if forallb is_exact_call log then shows_net_change roots (text_at files) (text_at files') (get_unified_diff t)
  else get_unified_diff t = None.
Proof using of_path_spec under_text hash_iter_perm.
  intros Hrun Hmoves Hother.
  assert (Hlog : Forall accounted log).
  { apply Forall_forall. intros [c d] Hx. split.
    - apply Forall_forall. intros change. by apply (Hmoves c d).
    - intros [Hex Hnil]%(Hother c d Hx). cbn. rewrite Hex. unfold delta_is_empty. by rewrite Hnil. }
  destruct (turn_ok roots (text_at files) calls _ _ _ _ _ (start_ok roots (text_at files)) Hrun Hlog) as [Hok Hv].
  unfold tracker_ok in Hok. rewrite Hv in Hok. cbn [with_environment_display_roots valid andb] in Hok.
  destruct (forallb is_exact_call log); [apply Hok|done].
Qed.

(** What a call that ends in another error has committed is not in the diff. *)
Lemma other_error_untold files t c files' t' d :
  run_call files t c = (files', t', d) -> call_out c = OutOtherError -> t' = t.
Proof using. unfold run_call. intros Hrun Hout. case_match. rewrite Hout in Hrun. by simplify_eq/=. Qed.

End Files.

(** ** At work: a patch that adds a file and moves another *)

Section Witness.
Import ApplyFacts.Mem.

Definition sample_diffs : DiffLib :=
  {| sha1_hex s := show_nat (length s); diff_lines old new old_header new_header := old_header ++ lit ">" ++ new_header ++ lit ":" ++ old ++ lit ">" ++ new;
     hash_iter A m := map_to_list m |}.

Definition patch_of (ls : list string) : str := join [LF] (lit "*** Begin Patch" :: (lit <$> ls) ++ [lit "*** End Patch"]).

Definition move_patch : str :=
  patch_of ["*** Add File: x"; "+new"; "*** Update File: a"; "*** Move to: c"; "@@"; "-one"; "+uno"]%string.

Definition sample_call (patch : str) : PatchCall str unit := mkCall [] cwd patch [tt; tt] OutRejected.
Definition sample_files (_ : str) : mem := start.
Definition sample_turn (patch : str) := run_turn (fun _ f => f) ([] : list str) (H2 := sample_diffs) sample_files
  (with_environment_display_roots ∅) [sample_call patch].

Lemma sample_of_path (p : str) (u : str) : Some p = Some u <-> to_path_buf u = p.
Proof. unfold to_path_buf. cbn. split; [by intros [= ->]|by intros ->]. Qed.

Lemma turn_diff_shows_net_change_witness :
  shows_net_change (H := sample_diffs) ∅ (text_at Some sample_files) (text_at Some (sample_turn move_patch).1.1)
    (get_unified_diff (sample_turn move_patch).1.2).
Proof.
  refine (turn_diff_shows_net_change Some sample_of_path (fun (_ : unit) f => f) ([] : list str) (fun _ _ _ => eq_refl)
    (HDiff := sample_diffs) (fun A m => reflexivity _) sample_files ∅ [sample_call move_patch] _ _ (sample_turn move_patch).2
    (eq_trans (surjective_pairing _) (f_equal2 pair (surjective_pairing _) eq_refl)) _ _).
  - intros c d change Hx. revert change. apply Forall_forall. revert c d Hx.
    assert (Hlog : Forall (fun x => Forall moves_away (changes x.2)) (sample_turn move_patch).2) by (vm_compute; repeat constructor; done).
    intros c d Hx. by apply (proj1 (Forall_forall _ _) Hlog (c, d)).
  - assert (Hlog : Forall (fun x => call_out x.1 <> OutOtherError) (sample_turn move_patch).2) by (vm_compute; repeat constructor; done).
    intros c d Hx Hout. by destruct (proj1 (Forall_forall _ _) Hlog (c, d) Hx).
Defined.

Definition self_move_patch : str := patch_of ["*** Update File: a"; "*** Move to: a"; "@@"; "-one"; "+uno"]%string.

(** The moved file is one section with its change, the new file another; what the
    second attempt does to the new file again is not seen. *)
Example moved_file_diff :
  get_unified_diff (sample_turn move_patch).1.2 =
  Some (join [LF] (lit <$> ["diff --git a/w/a b/w/c"; "index 11..11"; "a/w/a>b/w/c:one"; ">uno"; "diff --git a/w/x b/w/x"; "new file mode 100644";
    "index 0000000000000000000000000000000000000000..11"; "/dev/null>b/w/x:>new"]%string) ++ [LF]).
Proof. by vm_compute. Qed.

(** A file that is moved onto itself is gone, and the diff shows its new text. *)
Example self_move_still_shown :
  text_at Some (sample_turn self_move_patch).1.1 (mkPath [] (lit "w/a")) = None
  /\ get_unified_diff (sample_turn self_move_patch).1.2
     = Some (join [LF] (lit <$> ["diff --git a/w/a b/w/a"; "index 11..11"; "a/w/a>b/w/a:one"; ">uno"]%string) ++ [LF]).
Proof. by vm_compute. Qed.

(** A call that ends in another error after its patch was applied: the files have
    changed and there is no diff. *)
Example other_error_loses_changes :
  let turn := run_turn (fun (_ : unit) f => f) ([] : list str) (H2 := sample_diffs) sample_files
    (with_environment_display_roots ∅) [mkCall [] cwd move_patch [tt] OutOtherError] in
  text_at Some sample_files (mkPath [] (lit "w/a")) <> None
  /\ text_at Some turn.1.1 (mkPath [] (lit "w/a")) = None
  /\ get_unified_diff turn.1.2 = None.
Proof. split_and!; by vm_compute. Qed.

End Witness.

End TurnDiffFacts.
