(* ===== verification/Agents.v ===== *)
(** The agents of a session: their paths ([protocol/src/agent_path.rs]), the
    registry that limits how many there are ([core/src/agent/registry.rs]), the
    slots of loaded threads ([core/src/agent/control/residency.rs]) and the limit
    on running turns ([core/src/agent/control/execution.rs]).  All agents of a
    session share the registry, so the model is a machine of interleaved tasks:
    one transition per access to the counter, which is atomic, and per section
    under the lock of the tree.  The theorems are in the module [AgentsFacts].

    The id of a thread is its text.  A random choice is the argument [pick]; a
    HashMap is searched in the order of its keys. *)

From stdpp Require Import base list option numbers strings gmap sets.
From S2P Require Import Prelude Machine RustStr.

Module Agents.
Open Scope rust_scope.

(** ** agent_path.rs *)

Notation AgentPath := str (only parsing).
Notation ThreadId := str (only parsing).

Definition SLASH : char := 47%N.
Definition ROOT : AgentPath := lit "/root".
Definition MORPHEUS : AgentPath := lit "/morpheus".
Definition ROOT_SEGMENT : str := lit "root".

Definition is_root (p : AgentPath) : bool := p == ROOT.

Definition is_name_char (ch : char) : bool := ((97 <=? ch) && (ch <=? 122))%N || is_ascii_digit ch || (ch =? 95)%N.

Definition validate_agent_name (agent_name : str) : result unit str :=
  if is_empty agent_name then Err (lit "agent_name must not be empty")
  else if agent_name == ROOT_SEGMENT then Err (lit "agent_name `root` is reserved")
  else if (agent_name == lit ".") || (agent_name == lit "..") then Err (lit "agent_name `" ++ agent_name ++ lit "` is reserved")
  else if contains_char SLASH agent_name then Err (lit "agent_name must not contain `/`")
  else if negb (forallb is_name_char agent_name) then Err (lit "agent_name must use only lowercase letters, digits, and underscores")
  else Ok tt.

(** The loop over the segments. *)
Fixpoint validate_segments (segments : list str) : result unit str :=
  match segments with
  | [] => Ok tt
  | segment :: segments => let? _ := validate_agent_name segment in validate_segments segments
  end.

Definition not_absolute : str := lit "absolute agent paths must start with `/root` or be `/morpheus`".

Definition validate_absolute_path (p : str) : result unit str :=
  if p == MORPHEUS then Ok tt
  else
    match strip_prefix [SLASH] p with
    | None => Err not_absolute
    | Some stripped =>
        match split_on SLASH stripped with
        | [] => Err (lit "absolute agent path must not be empty")
        | root :: segments =>
            if negb (root == ROOT_SEGMENT) then Err not_absolute
            else if ends_with [SLASH] stripped then Err (lit "absolute agent path must not end with `/`")
            else validate_segments segments
        end
    end.

Definition validate_relative_reference (reference : str) : result unit str :=
  if ends_with [SLASH] reference then Err (lit "relative agent path must not end with `/`")
  else validate_segments (split_on SLASH reference).

Definition from_string (p : str) : result AgentPath str := let? _ := validate_absolute_path p in Ok p.

(** The last segment, if it is not empty. *)
Definition path_name (p : AgentPath) : str :=
  if is_root p then ROOT_SEGMENT
  else match last (split_on SLASH p) with
       | Some segment => if is_empty segment then ROOT_SEGMENT else segment
       | None => ROOT_SEGMENT
       end.

Definition path_join (self : AgentPath) (agent_name : str) : result AgentPath str :=
  let? _ := validate_agent_name agent_name in from_string (self ++ [SLASH] ++ agent_name).

Definition resolve (self : AgentPath) (reference : str) : result AgentPath str :=
  if is_empty reference then Err (lit "agent path must not be empty")
  else if reference == ROOT then Ok ROOT
  else if starts_with [SLASH] reference then from_string reference
  else let? _ := validate_relative_reference reference in from_string (self ++ [SLASH] ++ reference).

(** ** registry.rs *)

Record AgentMetadata := mkAgent {
  agent_id : option ThreadId;
  agent_path : option AgentPath;
  agent_nickname : option str;
  agent_role : option str;
  last_task_message : option str;
}.

Record ActiveAgents := mkActive {
  agent_tree : gmap str AgentMetadata;
  used_agent_nicknames : gset str;
  nickname_reset_count : N;
}.

Definition set_tree (a : ActiveAgents) (tree : gmap str AgentMetadata) : ActiveAgents :=
  mkActive tree (used_agent_nicknames a) (nickname_reset_count a).

Definition ordinal_suffix (value : N) : str :=
  let last_two := (value mod 100)%N in
  if ((11 <=? last_two) && (last_two <=? 13))%N then lit "th"
  else match (value mod 10)%N with 1%N => lit "st" | 2%N => lit "nd" | 3%N => lit "rd" | _ => lit "th" end.

Definition format_agent_nickname (name : str) (nickname_reset_count : N) : str :=
  if (nickname_reset_count =? 0)%N then name
  else let value := (nickname_reset_count + 1)%N in name ++ lit " the " ++ show_N value ++ ordinal_suffix value.

(** The depth of a thread spawned by another, 0 for all others. *)
Definition next_thread_spawn_depth (session_depth : Z) : Z := Z.min (session_depth + 1) (2 ^ 31 - 1).
Definition exceeds_thread_spawn_depth_limit (depth max_depth : Z) : bool := (max_depth <? depth)%Z.

(** [choose(&mut rand::rng())]. *)
Definition choose {A} (pick : nat) (l : list A) : option A := l !! (pick mod length l)%nat.

Definition reserve_agent_nickname (names : list str) (preferred : option str) (pick : nat) (a : ActiveAgents) : ActiveAgents * option str :=
  let reserve (a : ActiveAgents) (name : str) :=
    (mkActive (agent_tree a) ({[name]} ∪ used_agent_nicknames a) (nickname_reset_count a), Some name) in
  match preferred with
  | Some preferred => reserve a preferred
  | None =>
      if is_empty names then (a, None)
      else
        let available_names :=
          List.filter (fun name => bool_decide (name ∉ used_agent_nicknames a)) ((fun name => format_agent_nickname name (nickname_reset_count a)) <$> names) in
        match choose pick available_names with
        | Some name => reserve a name
        | None =>
            let a := mkActive (agent_tree a) ∅ (nickname_reset_count a + 1) in
            match choose pick names with
            | Some name => reserve a (format_agent_nickname name (nickname_reset_count a))
            | None => (a, None)
            end
        end
  end.

Definition reserve_agent_path (p : AgentPath) (a : ActiveAgents) : result ActiveAgents str :=
  match agent_tree a !! p with
  | Some _ => Err (lit "agent path `" ++ p ++ lit "` already exists")
  | None => Ok (set_tree a (<[p := mkAgent None (Some p) None None None]> (agent_tree a)))
  end.

Definition release_reserved_agent_path (p : AgentPath) (a : ActiveAgents) : ActiveAgents :=
  match agent_tree a !! p with
  | Some metadata => if is_some (agent_id metadata) then a else set_tree a (delete p (agent_tree a))
  | None => a
  end.

Definition tree_key (m : AgentMetadata) (thread_id : ThreadId) : str :=
  match agent_path m with Some p => p | None => lit "thread:" ++ thread_id end.

Definition register_spawned_thread (m : AgentMetadata) (a : ActiveAgents) : ActiveAgents :=
  match agent_id m with
  | None => a
  | Some thread_id =>
      mkActive (<[tree_key m thread_id := m]> (agent_tree a))
        (match agent_nickname m with Some nickname => {[nickname]} ∪ used_agent_nicknames a | None => used_agent_nicknames a end)
        (nickname_reset_count a)
  end.

Definition register_root_thread (thread_id : ThreadId) (a : ActiveAgents) : ActiveAgents :=
  match agent_tree a !! ROOT with
  | Some _ => a
  | None => set_tree a (<[ROOT := mkAgent (Some thread_id) (Some ROOT) None None None]> (agent_tree a))
  end.

(** The key of the first entry of a thread. *)
Definition key_of_thread (a : ActiveAgents) (thread_id : ThreadId) : option str :=
  fst <$> find_first (fun '(_, m) => bool_decide (agent_id m = Some thread_id)) (map_to_list (agent_tree a)).

Definition has_root_path (m : AgentMetadata) : bool := is_some_and (agent_path m) is_root.

(** [removed_counted_agent]. *)
Definition remove_thread (thread_id : ThreadId) (a : ActiveAgents) : ActiveAgents * bool :=
  match key_of_thread a thread_id with
  | Some key => (set_tree a (delete key (agent_tree a)), is_some_and (agent_tree a !! key) (fun m => negb (has_root_path m)))
  | None => (a, false)
  end.

Definition agent_id_for_path (a : ActiveAgents) (p : AgentPath) : option ThreadId := agent_tree a !! p ≫= agent_id.

Definition agent_metadata_for_thread (a : ActiveAgents) (thread_id : ThreadId) : option AgentMetadata :=
  find_first (fun m => bool_decide (agent_id m = Some thread_id)) (map_to_list (agent_tree a)).*2.

Definition is_live (m : AgentMetadata) : bool := is_some (agent_id m) && negb (has_root_path m).

Definition live_agents (a : ActiveAgents) : list AgentMetadata := List.filter is_live (map_to_list (agent_tree a)).*2.

Definition set_last_task_message (thread_id : ThreadId) (message : option str) (a : ActiveAgents) : ActiveAgents :=
  match key_of_thread a thread_id with
  | Some key =>
      set_tree a (alter (fun m => mkAgent (agent_id m) (agent_path m) (agent_nickname m) (agent_role m) message) key (agent_tree a))
  | None => a
  end.
Definition update_last_task_message (thread_id : ThreadId) (message : str) : ActiveAgents -> ActiveAgents := set_last_task_message thread_id (Some message).
Definition clear_last_task_message (thread_id : ThreadId) : ActiveAgents -> ActiveAgents := set_last_task_message thread_id None.

(** ** Tasks *)

(** A task that spawns: in the loop of [try_increment_spawned] with the value it
    last saw, with a [SpawnReservation], or about to take its share off the
    counter, as is a task that has released a thread. *)
Inductive Task :=
| Incrementing (max_threads current : Z)
| Holding (nickname : option str) (path : option AgentPath)
| Subtracting.

Record System := mkSystem { active_agents : ActiveAgents; total_count : Z; tasks : gmap nat Task }.

Definition initial : System := mkSystem (mkActive ∅ ∅ 0) 0 ∅.

(** [fetch_add] and [fetch_sub] wrap around. *)
Definition wrap_usize (z : Z) : Z := z mod 2 ^ 64.

Inductive Event :=
| ReserveSlot (max_threads : option Z)
| Exchange (spurious : bool)
| ReserveNickname (names : list str) (preferred : option str) (pick : nat)
| ReservePath (p : AgentPath)
| Commit (m : AgentMetadata)
| DropReservation
| Subtract
| ReleaseThread (thread_id : ThreadId)
| RegisterRoot (thread_id : ThreadId)
| SetLastMessage (thread_id : ThreadId) (message : option str).

Definition set_task (s : System) (t : nat) (task : Task) : System := mkSystem (active_agents s) (total_count s) (<[t := task]> (tasks s)).
Definition end_task (s : System) (t : nat) : System := mkSystem (active_agents s) (total_count s) (delete t (tasks s)).
Definition set_active (s : System) (a : ActiveAgents) : System := mkSystem a (total_count s) (tasks s).
Definition set_total (s : System) (total : Z) : System := mkSystem (active_agents s) total (tasks s).

(** One transition of a task; [None] when the task is not at this point.  A weak
    exchange may fail without reason ([spurious]). *)
Definition step (s : System) (t : nat) (e : Event) : option System :=
  match e, tasks s !! t with
  | ReserveSlot (Some max_threads), None => Some (set_task s t (Incrementing max_threads (total_count s)))
  | ReserveSlot None, None => Some (set_task (set_total s (wrap_usize (total_count s + 1))) t (Holding None None))
  | Exchange spurious, Some (Incrementing max_threads current) =>
      Some (if (max_threads <=? current)%Z then end_task s t
            else if bool_decide (total_count s = current) && negb spurious then
              set_task (set_total s (wrap_usize (current + 1))) t (Holding None None)
            else set_task s t (Incrementing max_threads (total_count s)))
  | ReserveNickname names preferred pick, Some (Holding nickname path) =>
      let '(a, reserved) := reserve_agent_nickname names preferred pick (active_agents s) in
      Some (set_task (set_active s a) t (Holding (match reserved with Some n => Some n | None => nickname end) path))
  | ReservePath p, Some (Holding nickname path) =>
      Some (match reserve_agent_path p (active_agents s) with
            | Ok a => set_task (set_active s a) t (Holding nickname (Some p))
            | Err _ => s
            end)
  | Commit m, Some (Holding _ _) => Some (end_task (set_active s (register_spawned_thread m (active_agents s))) t)
  | DropReservation, Some (Holding _ path) =>
      let a := match path with Some p => release_reserved_agent_path p (active_agents s) | None => active_agents s end in
      Some (set_task (set_active s a) t Subtracting)
  | Subtract, Some Subtracting => Some (end_task (set_total s (wrap_usize (total_count s - 1))) t)
  | ReleaseThread thread_id, None =>
      let '(a, removed_counted_agent) := remove_thread thread_id (active_agents s) in
      Some (if removed_counted_agent then set_task (set_active s a) t Subtracting else set_active s a)
  | RegisterRoot thread_id, _ => Some (set_active s (register_root_thread thread_id (active_agents s)))
  | SetLastMessage thread_id message, _ => Some (set_active s (set_last_task_message thread_id message (active_agents s)))
  | _, _ => None
  end.

Fixpoint run (s : System) (events : list (nat * Event)) : option System :=
  match events with
  | [] => Some s
  | (t, e) :: events => s ← step s t e; run s events
  end.

(** ** residency.rs *)

Record V2ResidencyState := mkResidency { residents : list ThreadId; pending_slots : Z }.

Definition try_reserve_pending_slot (capacity : Z) (r : V2ResidencyState) : V2ResidencyState * bool :=
  if (capacity <=? sat_add (len (residents r)) (pending_slots r))%Z then (r, false)
  else (mkResidency (residents r) (pending_slots r + 1), true).

Definition touch_resident (residents : list ThreadId) (thread_id : ThreadId) : list ThreadId :=
  List.filter (fun resident => negb (resident == thread_id)) residents ++ [thread_id].

Definition touch (thread_id : ThreadId) (r : V2ResidencyState) : V2ResidencyState :=
  mkResidency (touch_resident (residents r) thread_id) (pending_slots r).
Definition remove_resident (thread_id : ThreadId) (r : V2ResidencyState) : V2ResidencyState :=
  mkResidency (List.filter (fun resident => negb (resident == thread_id)) (residents r)) (pending_slots r).

(** [pending_slots.saturating_sub(1)]. *)
Definition release_pending_slot (r : V2ResidencyState) : V2ResidencyState := mkResidency (residents r) (sat_sub (pending_slots r) 1).
Definition commit_slot (thread_id : ThreadId) (r : V2ResidencyState) : V2ResidencyState := touch thread_id (release_pending_slot r).

Fixpoint pop_candidate (candidates_to_scan : nat) (protected : option ThreadId) (residents : list ThreadId) : list ThreadId * option ThreadId :=
  match candidates_to_scan, residents with
  | S n, candidate :: rest =>
      if bool_decide (Some candidate = protected) then pop_candidate n protected (rest ++ [candidate]) else (rest, Some candidate)
  | _, _ => (residents, None)
  end.

Definition pop_lru_candidate (protected : option ThreadId) (r : V2ResidencyState) : V2ResidencyState * option ThreadId :=
  let '(l, candidate) := pop_candidate (length (residents r)) protected (residents r) in (mkResidency l (pending_slots r), candidate).

(** ** execution.rs *)

(** [max_threads] is set once. *)
Record AgentExecutionLimiter := mkLimiter { active : Z; max_threads : option Z }.

Definition initialize (max : Z) (l : AgentExecutionLimiter) : AgentExecutionLimiter :=
  mkLimiter (active l) (match max_threads l with Some max => Some max | None => Some max end).
Definition limit_of (l : AgentExecutionLimiter) : Z := default usize_max (max_threads l).
Definition has_capacity (l : AgentExecutionLimiter) : bool := (active l <? limit_of l)%Z.
(** [guard], and the drop of a guard. *)
Definition take_guard (l : AgentExecutionLimiter) : AgentExecutionLimiter := mkLimiter (wrap_usize (active l + 1)) (max_threads l).
Definition drop_guard (l : AgentExecutionLimiter) : AgentExecutionLimiter := mkLimiter (wrap_usize (active l - 1)) (max_threads l).

End Agents.

(** * Theorems: how many agents there are *)

Module AgentsFacts.
Import Agents.
Open Scope rust_scope.
Open Scope Z_scope.

(** ** Counting entries *)

Definition cnt `{Countable K} {A} (f : A -> bool) (m : gmap K A) : Z := Z.of_nat (size (filter (fun kv => f kv.2 = true) m)).
#[local] Arguments cnt : simpl never.

Section Counting.
Context `{Countable K} {A : Type} (f : A -> bool).
Implicit Types m : gmap K A.

Lemma cnt_delete m k v : m !! k = Some v -> cnt f m = cnt f (delete k m) + Z.b2z (f v).
Proof.
  intros Hk. unfold cnt. rewrite map_filter_delete. destruct (f v) eqn:E; cbn [Z.b2z].
  - assert (Hs : is_Some (filter (fun kv => f kv.2 = true) m !! k)).
    { exists v. by apply map_lookup_filter_Some. }
    rewrite map_size_delete. destruct Hs as [v' Hs]. rewrite Hs. cbn.
    assert (size (filter (fun kv => f kv.2 = true) m) <> 0%nat); [|lia].
    intros Hz%map_size_empty_inv. by rewrite Hz, lookup_empty in Hs.
  - rewrite delete_id; [lia|]. apply map_lookup_filter_None. right. intros v' Hv'. cbn. congruence.
Qed.

Lemma cnt_insert_new m k v : m !! k = None -> cnt f (<[k := v]> m) = cnt f m + Z.b2z (f v).
Proof. intros Hk. rewrite (cnt_delete (<[k := v]> m) k v) by apply lookup_insert_eq. by rewrite delete_insert_id. Qed.

Lemma cnt_insert m k v v' : m !! k = Some v -> cnt f (<[k := v']> m) = cnt f m - Z.b2z (f v) + Z.b2z (f v').
Proof.
  intros Hk. rewrite <- insert_delete_eq, cnt_insert_new by apply lookup_delete_eq. rewrite (cnt_delete m k v Hk). lia.
Qed.

Lemma cnt_alter m k g : (forall v, f (g v) = f v) -> cnt f (alter g k m) = cnt f m.
Proof.
  intros Hg. destruct (m !! k) as [v|] eqn:E; [|by rewrite alter_id by congruence].
  replace (alter g k m) with (<[k := g v]> m); [rewrite (cnt_insert m k v) by done; rewrite Hg; lia|].
  apply map_eq. intros j. destruct (decide (j = k)) as [->|Hj].
  - by rewrite lookup_insert_eq, lookup_alter_eq, E.
  - by rewrite lookup_insert_ne, lookup_alter_ne.
Qed.

Lemma cnt_nonneg m : 0 <= cnt f m.
Proof. unfold cnt. lia. Qed.

End Counting.

(** ** The counter *)

(** A task with a share of the counter. *)
Definition holds_share (task : Task) : bool := match task with Incrementing _ _ => false | _ => true end.

Definition counted (s : System) : Z := cnt holds_share (tasks s) + cnt is_live (agent_tree (active_agents s)).

(** A path below the root. *)
Definition below_root (p : str) : Prop := from_string p = Ok p /\ p <> ROOT.

(** What callers keep to: no limit they give is above [max]; a reserved path is
    one of an agent; a reservation is committed for its path and for a thread that is
    not registered yet. *)
Definition disciplined (max : Z) (s : System) (t : nat) (e : Event) : Prop :=
  match e with
  | ReserveSlot (Some m) => m <= max
  | ReservePath p => below_root p
  | Commit m => exists id nickname path, agent_id m = Some id /\ tasks s !! t = Some (Holding nickname path) /\ agent_path m = path
      /\ agent_tree (active_agents s) !! (lit "thread:" ++ id) = None
  | _ => True
  end.

Fixpoint disciplined_run (max : Z) (s : System) (events : list (nat * Event)) : Prop :=
  match events with
  | [] => True
  | (t, e) :: events => disciplined max s t e /\ forall s', step s t e = Some s' -> disciplined_run max s' events
  end.

(** The reservations without a limit. *)
Definition unlimited (events : list (nat * Event)) : Z :=
  len (List.filter (fun '(_, e) => match e with ReserveSlot None => true | _ => false end) events).

(** [max] bounds the counter. *)
Record registry_inv (max : Z) (s : System) : Prop := {
  inv_total : total_count s = counted s;
  inv_max : counted s <= max;
  inv_incrementing t m c : tasks s !! t = Some (Incrementing m c) -> m <= max;
  inv_path t nickname p : tasks s !! t = Some (Holding nickname (Some p)) ->
    below_root p /\ exists m, agent_tree (active_agents s) !! p = Some m /\ agent_id m = None;
  inv_distinct t t' nickname nickname' p : tasks s !! t = Some (Holding nickname (Some p)) ->
    tasks s !! t' = Some (Holding nickname' (Some p)) -> t = t';
}.

Lemma wrap_usize_id z : 0 <= z <= usize_max -> wrap_usize z = z.
Proof. unfold wrap_usize, usize_max. intros. apply Z.mod_small. lia. Qed.

Lemma below_root_slash p : below_root p -> exists q, p = SLASH :: q.
Proof.
  unfold below_root, from_string, validate_absolute_path. intros [Hp _].
  case_bool_decide as Em; [subst p; by eexists|]. destruct (strip_prefix [SLASH] p) as [q|] eqn:E; [|done].
  apply strip_prefix_Some in E. by exists q.
Qed.

Lemma is_live_id m : agent_id m = None -> is_live m = false.
Proof. unfold is_live. by intros ->. Qed.

Lemma key_of_thread_Some a id key : key_of_thread a id = Some key -> exists m, agent_tree a !! key = Some m /\ agent_id m = Some id.
Proof.
  unfold key_of_thread. intros Hk. destruct (find_first _ _) as [[k m]|] eqn:E; [|done]. injection Hk as <-.
  apply find_first_Some in E as (l1 & l2 & E & Hm & _). apply bool_decide_eq_true in Hm. exists m. split; [|done].
  apply elem_of_map_to_list. rewrite E. set_solver.
Qed.

(** ** Steps *)

(** What is left to show of a step that reserves no path. *)
Lemma inv_frame max s s' : registry_inv max s -> total_count s' = counted s' -> counted s' <= max ->
  (forall t m c, tasks s' !! t = Some (Incrementing m c) -> m <= max) ->
  (forall t n p, tasks s' !! t = Some (Holding n (Some p)) -> exists n', tasks s !! t = Some (Holding n' (Some p))
     /\ forall m, agent_tree (active_agents s) !! p = Some m -> agent_id m = None ->
          exists m', agent_tree (active_agents s') !! p = Some m' /\ agent_id m' = None) ->
  registry_inv max s'.
Proof.
  intros [_ _ _ Hp Hd] Ht Hm Hi Hk. split; try done.
  - intros t n p (n' & Hl & Htree)%Hk. destruct (Hp _ _ _ Hl) as (Hb & m & Hlook & Hid). eauto.
  - intros t t' n n' p (m & Hl & _)%Hk (m' & Hl' & _)%Hk. eauto.
Qed.

(** Only the tree changes. *)
Lemma set_active_inv max s a : registry_inv max s -> cnt is_live (agent_tree a) = cnt is_live (agent_tree (active_agents s)) ->
  (forall p m, agent_tree (active_agents s) !! p = Some m -> agent_id m = None -> p <> ROOT ->
     exists m', agent_tree a !! p = Some m' /\ agent_id m' = None) ->
  registry_inv max (set_active s a).
Proof.
  intros Hinv Hc Hk. pose proof Hinv as [Ht Hm Hi Hp _]. apply (inv_frame max s _ Hinv); try done; unfold counted in *; cbn; [by rewrite Hc..|].
  intros t n p Hl. exists n. split; [done|]. intros m Hlook Hid. destruct (Hp _ _ _ Hl) as [[_ Hroot] _]. eauto.
Qed.

(** Only a task changes, and neither its path nor its share. *)
Lemma set_task_inv max s t task task' : registry_inv max s -> tasks s !! t = Some task -> holds_share task' = holds_share task ->
  match task' with
  | Holding _ (Some p) => exists nickname, task = Holding nickname (Some p)
  | Incrementing m _ => m <= max
  | _ => True
  end -> registry_inv max (set_task s t task').
Proof.
  intros Hinv Htask Hs Hok. pose proof Hinv as [Ht Hm Hi _ _].
  assert (Hc : counted (set_task s t task') = counted s) by (unfold counted; cbn; rewrite (cnt_insert _ _ _ task) by done; rewrite Hs; lia).
  apply (inv_frame max s _ Hinv); rewrite ?Hc; try done; cbn.
  - intros t' m c [[<- ->]|[_ Hl]]%lookup_insert_Some; eauto.
  - intros t' n p [[<- ->]|[_ Hl]]%lookup_insert_Some; [destruct Hok as [n' ->]|]; eauto.
Qed.

Lemma nickname_tree names preferred pick a : agent_tree (reserve_agent_nickname names preferred pick a).1 = agent_tree a.
Proof. unfold reserve_agent_nickname. repeat (case_match; simplify_eq/=); done. Qed.

Lemma counted_nonneg s : 0 <= counted s.
Proof. unfold counted. pose proof (cnt_nonneg holds_share (tasks s)). pose proof (cnt_nonneg is_live (agent_tree (active_agents s))). lia. Qed.

Section Steps.
Context (max : Z) (max_range : 0 <= max <= usize_max) (s : System) (t : nat).
Context (Hinv : registry_inv max s).

Lemma begin_inv m : tasks s !! t = None -> m <= max -> registry_inv max (set_task s t (Incrementing m (total_count s))).
Proof using Hinv.
  intros Hnone Hm. pose proof Hinv as [Ht Hmax Hi _ _].
  assert (Hc : counted (set_task s t (Incrementing m (total_count s))) = counted s) by (unfold counted; cbn; rewrite cnt_insert_new by done; cbn; lia).
  apply (inv_frame max s _ Hinv); rewrite ?Hc; try done; cbn.
  - intros t' m' c [[<- [= <- _]]|[_ Hl]]%lookup_insert_Some; eauto.
  - intros t' n p [[_ ?]|[_ Hl]]%lookup_insert_Some; [done|eauto].
Qed.

Lemma exchange_inv m c spurious s' : tasks s !! t = Some (Incrementing m c) -> step s t (Exchange spurious) = Some s' -> registry_inv max s'.
Proof using Hinv max_range.
  intros Htask. cbn. rewrite Htask. intros [= <-]. pose proof Hinv as [Ht Hmax Hi _ _]. pose proof (Hi _ _ _ Htask) as Hm.
  pose proof (cnt_delete holds_share _ _ _ Htask) as Hd. cbn in Hd.
  destruct (m <=? c) eqn:Emc; [|apply Z.leb_gt in Emc; destruct (_ && _) eqn:Eok].
  - apply (inv_frame max s _ Hinv); unfold counted in *; cbn; try lia.
    + intros t' m' c' [_ Hl]%lookup_delete_Some. eauto.
    + intros t' n p [_ Hl]%lookup_delete_Some. eauto.
  - apply andb_true_iff in Eok as [Ec%bool_decide_eq_true _]. pose proof (counted_nonneg s).
    rewrite wrap_usize_id by lia. pose proof (cnt_insert holds_share _ _ _ (Holding None None) Htask) as Hins. cbn in Hins.
    apply (inv_frame max s _ Hinv); unfold counted in *; cbn; try lia.
    + intros t' m' c' [[_ ?]|[_ Hl]]%lookup_insert_Some; [done|eauto].
    + intros t' n p [[_ ?]|[_ Hl]]%lookup_insert_Some; [done|eauto].
  - by apply (set_task_inv _ _ _ (Incrementing m c)).
Qed.

Lemma reserve_path_inv nickname path p a : tasks s !! t = Some (Holding nickname path) -> below_root p ->
  reserve_agent_path p (active_agents s) = Ok a -> registry_inv max (set_task (set_active s a) t (Holding nickname (Some p))).
Proof using Hinv.
  intros Htask Hb Ha. unfold reserve_agent_path in Ha. destruct (agent_tree (active_agents s) !! p) as [m|] eqn:E; [done|]. injection Ha as <-.
  destruct Hinv as [Ht Hmax Hi Hp Hd].
  assert (Hc : counted (set_task (set_active s (set_tree (active_agents s) (<[p := mkAgent None (Some p) None None None]> (agent_tree (active_agents s))))) t
    (Holding nickname (Some p))) = counted s).
  { unfold counted. cbn. rewrite (cnt_insert _ _ _ _ _ Htask), cnt_insert_new by done. cbn. lia. }
  assert (Hother : forall t' n q, t' <> t -> tasks s !! t' = Some (Holding n (Some q)) -> q <> p).
  { intros t' n q _ Hl ->. destruct (Hp _ _ _ Hl) as (_ & m & Hm & _). congruence. }
  split; rewrite ?Hc; try done; cbn.
  - intros t' m c [[_ ?]|[_ Hl]]%lookup_insert_Some; [done|eauto].
  - intros t' n q [[<- [= <- <-]]|[Hne Hl]]%lookup_insert_Some.
    + split; [done|]. rewrite lookup_insert_eq. by eexists.
    + destruct (Hp _ _ _ Hl) as (Hbq & m & Hm & Hid). split; [done|]. exists m. split; [|done]. rewrite lookup_insert_ne; [done|].
      intros ->. congruence.
  - intros t1 t2 n1 n2 q [[<- [= <- <-]]|[Hne1 H1]]%lookup_insert_Some [[<- E2]|[Hne2 H2]]%lookup_insert_Some; [done| | |eauto].
    + by destruct (Hother t2 n2 p).
    + injection E2 as _ <-. by destruct (Hother t1 n1 p).
Qed.

Lemma commit_inv m : disciplined max s t (Commit m) -> registry_inv max (end_task (set_active s (register_spawned_thread m (active_agents s))) t).
Proof using Hinv.
  intros (id & nickname & path & Hid & Htask & Hpath & Hfree). pose proof Hinv as [Ht Hmax Hi Hp Hd].
  pose proof (cnt_delete holds_share _ _ _ Htask) as Hdel. cbn in Hdel. unfold register_spawned_thread. rewrite Hid.
  assert (Hlive : cnt is_live (<[tree_key m id := m]> (agent_tree (active_agents s))) = cnt is_live (agent_tree (active_agents s)) + 1).
  { unfold tree_key. rewrite Hpath. destruct path as [p|].
    - destruct (Hp _ _ _ Htask) as ([_ Hroot] & m0 & Hm0 & Hid0).
      assert (is_live m = true) as Hm by (unfold is_live, has_root_path, is_root; rewrite Hid, Hpath; cbn; by rewrite bool_decide_false).
      rewrite (cnt_insert _ _ _ _ _ Hm0), (is_live_id m0), Hm by assumption. cbn. lia.
    - assert (is_live m = true) as Hm by (unfold is_live, has_root_path; by rewrite Hid, Hpath). rewrite cnt_insert_new, Hm by assumption. done. }
  apply (inv_frame max s _ Hinv); unfold counted in *; cbn; try lia.
  - intros t' m' c' [_ Hl]%lookup_delete_Some. eauto.
  - intros t' n p [Hne Hl]%lookup_delete_Some. exists n. split; [done|]. intros m0 Hm0 Hid0. exists m0. split; [|done].
    rewrite lookup_insert_ne; [done|]. unfold tree_key. rewrite Hpath. destruct path as [q|]; [intros ->; by destruct Hne; eauto|].
    destruct (Hp _ _ _ Hl) as [[q ->]%below_root_slash _]. done.
Qed.

Lemma drop_inv nickname path : tasks s !! t = Some (Holding nickname path) ->
  registry_inv max (set_task (set_active s match path with Some p => release_reserved_agent_path p (active_agents s) | None => active_agents s end) t Subtracting).
Proof using Hinv.
  intros Htask. pose proof (set_task_inv max s t _ Subtracting Hinv Htask eq_refl I) as Hsub.
  destruct path as [p|]; [|by destruct s]. pose proof Hinv as [Ht Hmax Hi Hp Hd]. destruct (Hp _ _ _ Htask) as (_ & m & Hm & Hid).
  unfold release_reserved_agent_path. rewrite Hm, Hid. cbn [is_some].
  pose proof (cnt_delete is_live _ _ _ Hm) as Hdel. rewrite (is_live_id m) in Hdel by done. cbn in Hdel.
  pose proof (inv_total _ _ Hsub). pose proof (inv_max _ _ Hsub).
  apply (inv_frame max _ _ Hsub); unfold counted in *; cbn in *; try lia; [by apply Hsub|].
  intros t' n q Hl. exists n. split; [done|]. intros m' Hm' Hid'. exists m'. split; [|done]. rewrite lookup_delete_ne; [done|].
  intros ->. apply lookup_insert_Some in Hl as [[_ ?]|[Hne Hl]]; [done|]. destruct Hne. eauto.
Qed.

Lemma subtract_inv : tasks s !! t = Some Subtracting -> registry_inv max (end_task (set_total s (wrap_usize (total_count s - 1))) t).
Proof using Hinv max_range.
  intros Htask. pose proof Hinv as [Ht Hmax Hi Hp Hd]. pose proof (cnt_delete holds_share _ _ _ Htask) as Hdel. cbn in Hdel.
  pose proof (cnt_nonneg holds_share (delete t (tasks s))). pose proof (cnt_nonneg is_live (agent_tree (active_agents s))).
  rewrite wrap_usize_id by (unfold counted in *; lia). apply (inv_frame max s _ Hinv); unfold counted in *; cbn; try lia.
  - intros t' m' c' [_ Hl]%lookup_delete_Some. eauto.
  - intros t' n p [Hne Hl]%lookup_delete_Some. eauto.
Qed.

Lemma release_inv id s' : tasks s !! t = None -> step s t (ReleaseThread id) = Some s' -> registry_inv max s'.
Proof using Hinv.
  intros Hnone. cbn. rewrite Hnone. unfold remove_thread. pose proof Hinv as [Ht Hmax Hi Hp Hd].
  destruct (key_of_thread (active_agents s) id) as [key|] eqn:E; [|intros [= <-]; by destruct s]. apply key_of_thread_Some in E as (m & Hm & Hid).
  pose proof (cnt_delete is_live _ _ _ Hm) as Hdel. rewrite Hm. cbn.
  assert (Hlive : is_live m = negb (has_root_path m)) by (unfold is_live; by rewrite Hid). rewrite Hlive in Hdel.
  assert (Hkeep : forall p m0, agent_tree (active_agents s) !! p = Some m0 -> agent_id m0 = None ->
    exists m', delete key (agent_tree (active_agents s)) !! p = Some m' /\ agent_id m' = None).
  { intros p m0 Hm0 Hid0. exists m0. split; [|done]. rewrite lookup_delete_ne; [done|]. intros ->. congruence. }
  destruct (negb (has_root_path m)); intros [= <-]; cbn in Hdel.
  - apply (inv_frame max s _ Hinv); unfold counted in *; cbn; rewrite ?cnt_insert_new by done; cbn; try lia.
    + intros t' m' c' [[_ ?]|[_ Hl]]%lookup_insert_Some; [done|eauto].
    + intros t' n p [[_ ?]|[_ Hl]]%lookup_insert_Some; [done|eauto].
  - apply set_active_inv; [done|cbn; lia|]. eauto.
Qed.

End Steps.

Lemma inv_le max max' s : max <= max' -> registry_inv max s -> registry_inv max' s.
Proof. intros Hle [Ht Hm Hi Hp Hd]. split; try done; [lia|]. intros t m c Hl. specialize (Hi t m c Hl). lia. Qed.

Lemma unlimited_inv max s t : max + 1 <= usize_max -> registry_inv max s -> tasks s !! t = None ->
  registry_inv (max + 1) (set_task (set_total s (wrap_usize (total_count s + 1))) t (Holding None None)).
Proof.
  intros Hmax Hinv Hnone. pose proof Hinv as [Ht Hm Hi Hp Hd]. pose proof (counted_nonneg s). rewrite wrap_usize_id by lia.
  assert (Hc : counted (set_task (set_total s (total_count s + 1)) t (Holding None None)) = counted s + 1).
  { unfold counted. cbn. rewrite cnt_insert_new by done. cbn. lia. }
  apply (inv_frame _ s _ (inv_le max (max + 1) s ltac:(lia) Hinv)); rewrite ?Hc; [cbn; lia|lia|..]; cbn.
  - intros t' m' c' [[_ ?]|[_ Hl]]%lookup_insert_Some; [done|]. specialize (Hi _ _ _ Hl). lia.
  - intros t' n p [[_ ?]|[_ Hl]]%lookup_insert_Some; [done|eauto].
Qed.

Lemma step_inv bound max s t e s' : 0 <= bound -> max <= bound -> bound + unlimited [(t, e)] <= usize_max -> registry_inv bound s ->
  disciplined max s t e -> step s t e = Some s' -> registry_inv (bound + unlimited [(t, e)]) s'.
Proof.
  intros Hpos Hle Hmax Hinv Hdis. destruct (decide (unlimited [(t, e)] = 0)) as [Hu|Hu].
  2: { destruct e as [[m|]| | | | | | | | |]; try done. cbn [step]. destruct (tasks s !! t) eqn:E; [done|]. intros [= <-]. by apply unlimited_inv. }
  rewrite Hu, Z.add_0_r in *. destruct e as [[m|]|spurious|names preferred pick|p|m| | |id|id|id message]; cbn [step]; [|done|..].
  - destruct (tasks s !! t) eqn:E; intros [= <-]. apply begin_inv; [done..|]. cbn in Hdis. lia.
  - destruct (tasks s !! t) as [[]|] eqn:E; try done. intros Hs. eapply (exchange_inv bound (conj Hpos Hmax) s t Hinv _ _ spurious); [done|]. cbn. by rewrite E.
  - destruct (tasks s !! t) as [[]|] eqn:E; try done. pose proof (nickname_tree names preferred pick (active_agents s)) as Htree.
    destruct (reserve_agent_nickname _ _ _ _) as [a reserved]. cbn in Htree. intros [= <-].
    assert (Ha : registry_inv bound (set_active s a)) by (apply set_active_inv; rewrite ?Htree; eauto).
    eapply set_task_inv; [done|cbn; done|done|]. destruct path; [by eexists|done].
  - destruct (tasks s !! t) as [[]|] eqn:E; try done. destruct (reserve_agent_path p (active_agents s)) eqn:Ep; intros [= <-]; [|done].
    by eapply reserve_path_inv.
  - destruct (tasks s !! t) as [[]|] eqn:E; try done. intros [= <-]. by apply (commit_inv bound).
  - destruct (tasks s !! t) as [[]|] eqn:E; try done. intros [= <-]. by eapply drop_inv.
  - destruct (tasks s !! t) as [[]|] eqn:E; try done. intros [= <-]. by apply (subtract_inv bound (conj Hpos Hmax)).
  - destruct (tasks s !! t) as [|] eqn:E; [done|]. intros Hs. eapply (release_inv bound s t Hinv id); [done|]. cbn. by rewrite E.
  - intros [= <-]. unfold register_root_thread. destruct (agent_tree (active_agents s) !! ROOT) eqn:E; [by destruct s|].
    apply set_active_inv; [done|cbn; rewrite cnt_insert_new by done; by apply Z.add_0_r|]. cbn. intros p m Hm Hid Hp. exists m. by rewrite lookup_insert_ne.
  - intros [= <-]. unfold set_last_task_message. destruct (key_of_thread (active_agents s) id) as [key|] eqn:E; [|by destruct s].
    apply set_active_inv; [done|cbn; by apply cnt_alter|]. cbn. intros p m Hm Hid _. destruct (decide (p = key)) as [->|Hne].
    + rewrite lookup_alter_eq, Hm. by eexists.
    + rewrite lookup_alter_ne by done. eauto.
Qed.

Lemma disciplined_cons max s t e s1 events : disciplined max s t e -> step s t e = Some s1 -> disciplined_run max s1 events ->
  disciplined_run max s ((t, e) :: events).
Proof. intros Hd Hs Hr. split; [done|]. rewrite Hs. by intros s' [= <-]. Qed.

Lemma initial_inv max : 0 <= max -> registry_inv max initial.
Proof. intros. split; cbn; try done. all: intros *; by rewrite lookup_empty. Qed.

Lemma unlimited_cons t e events : unlimited ((t, e) :: events) = unlimited [(t, e)] + unlimited events.
Proof. unfold unlimited, len. cbn. repeat case_match; cbn; lia. Qed.

Lemma unlimited_nonneg events : 0 <= unlimited events.
Proof. unfold unlimited, len. lia. Qed.

Lemma run_inv max events : forall bound s s', 0 <= bound -> max <= bound -> bound + unlimited events <= usize_max -> registry_inv bound s ->
  disciplined_run max s events -> run s events = Some s' -> registry_inv (bound + unlimited events) s'.
Proof.
  induction events as [|[t e] events IH]; intros bound s s' Hpos Hle Hmax Hinv Hdis Hrun; cbn [run] in *.
  { simplify_eq. by rewrite Z.add_0_r. }
  destruct (step s t e) as [s1|] eqn:E; [|done]. cbn [disciplined_run] in Hdis. destruct Hdis as [Hd Hrest]. cbn in Hrun.
  rewrite unlimited_cons in *. pose proof (unlimited_nonneg events). pose proof (unlimited_nonneg [(t, e)]). rewrite Z.add_assoc.
  apply (IH _ s1); [lia|lia|lia| |by apply Hrest|done]. eapply (step_inv bound max); eauto; lia.
Qed.

Lemma length_filter_perm {A} (f : A -> bool) l k : l ≡ₚ k -> length (List.filter f l) = length (List.filter f k).
Proof. induction 1; cbn; repeat case_match; cbn; congruence. Qed.

Lemma live_count (a : ActiveAgents) : len (live_agents a) = cnt is_live (agent_tree a).
Proof.
  unfold len, live_agents. induction (agent_tree a) as [|k m tree Hk IH] using map_ind; [done|]. rewrite cnt_insert_new, <- IH by done.
  rewrite (length_filter_perm _ _ _ (fmap_Permutation snd _ _ (map_to_list_insert _ _ _ Hk))). cbn. destruct (is_live m); cbn; lia.
Qed.

(** C12: However the tasks of a session interleave, the counter of agents is exact:
    it is the number of agents, of reservations and of shares about to be given
    back, it does not wrap around, and no share is lost.  A reservation with a limit
    is granted only while the counter is below the limit; those without one, which
    agents with a residency slot get, are always granted, so the counter never
    exceeds the largest limit by more than their number, and not at all when there
    are none.  The path of a reservation belongs to it alone, and no agent is found
    under it before the reservation is committed.  Callers reserve paths below the
    root, and commit a reservation for its path and a thread not yet registered. *)
Theorem agents_within_limit max events s :
  0 <= max -> max + unlimited events <= usize_max -> disciplined_run max initial events -> run initial events = Some s ->
  total_count s = len (live_agents (active_agents s)) + cnt holds_share (tasks s)
  /\ total_count s <= max + unlimited events
  /\ (forall t limit current spurious s', tasks s !! t = Some (Incrementing limit current) -> step s t (Exchange spurious) = Some s' ->
       tasks s' !! t = Some (Holding None None) -> total_count s < limit /\ total_count s' = total_count s + 1)
  /\ (forall t nickname p, tasks s !! t = Some (Holding nickname (Some p)) ->
       agent_id_for_path (active_agents s) p = None
       /\ forall t' nickname', tasks s !! t' = Some (Holding nickname' (Some p)) -> t' = t).
Proof.
  intros Hpos Hmax Hdis Hrun. pose proof (run_inv max events max initial s Hpos (Z.le_refl _) Hmax (initial_inv max Hpos) Hdis Hrun) as [Ht Hm Hi Hp Hd].
  rewrite live_count. unfold counted in *. split_and!; [lia|lia| |].
  - intros t limit current spurious s' Htask. cbn [step]. rewrite Htask. intros [= <-]. specialize (Hi _ _ _ Htask).
    destruct (limit <=? current) eqn:El; [cbn; by rewrite lookup_delete_eq|]. apply Z.leb_gt in El.
    destruct (_ && _) eqn:Ec; cbn; [|by rewrite lookup_insert_eq]. intros _. apply andb_true_iff in Ec as [Ec%bool_decide_eq_true _].
    pose proof (counted_nonneg s). unfold counted in *. rewrite wrap_usize_id by lia. lia.
  - intros t nickname p Hl. split; [|by intros; eapply Hd].
    destruct (Hp _ _ _ Hl) as (_ & m & Hlook & Hid). unfold agent_id_for_path. by rewrite Hlook.
Qed.

(** ** Paths of agents *)

(** A valid path is [/morpheus], or the root with names below it. *)
Definition valid_name (name : str) : Prop := validate_agent_name name = Ok tt.

Definition descend (p : str) (names : list str) : str := p ++ concat (List.map (cons SLASH) names).

Lemma valid_name_spec name : valid_name name -> name <> [] /\ Forall (fun c => c <> SLASH) name.
Proof.
  unfold valid_name, validate_agent_name. destruct (is_empty name) eqn:Ee; [done|]. repeat (case_match; [done|]). intros _.
  split; [by apply is_empty_false|]. apply Forall_forall. intros c Hc ->.
  match goal with Hs : contains_char SLASH name = false |- _ => unfold contains_char in Hs; apply not_true_iff_false in Hs; apply Hs end.
  apply existsb_exists. exists SLASH. split; [by apply list_elem_of_In|]. done.
Qed.

Lemma validate_segments_ok segments : validate_segments segments = Ok tt <-> Forall valid_name segments.
Proof.
  induction segments as [|name segments IH]; cbn; [done|]. rewrite Forall_cons, <- IH. unfold valid_name.
  destruct (validate_agent_name name) as [[]|]; intuition done.
Qed.

Lemma join_descend name names : join [SLASH] (name :: names) = descend name names.
Proof.
  revert name. induction names as [|n names IH]; intros name; [unfold descend; cbn; by rewrite app_nil_r|].
  rewrite join_cons, IH by done. done.
Qed.

Lemma descend_last p names : names <> [] -> Forall valid_name names -> exists q c, descend p names = q ++ [c] /\ c <> SLASH.
Proof.
  intros Hne Hv. destruct names as [|name names _] using rev_ind; [done|]. rewrite Forall_app, Forall_singleton in Hv. destruct Hv as [_ Hv].
  apply valid_name_spec in Hv as [Hn Hc]. destruct name as [|c name _] using rev_ind; [done|]. rewrite Forall_app, Forall_singleton in Hc. destruct Hc as [_ Hc].
  exists (p ++ concat (List.map (cons SLASH) names) ++ SLASH :: name), c. split; [|done]. unfold descend. rewrite List.map_app, concat_app. cbn.
  rewrite app_nil_r. by rewrite <- !app_assoc.
Qed.

Lemma from_string_spec p : from_string p = Ok p <-> p = MORPHEUS \/ exists names, Forall valid_name names /\ p = descend ROOT names.
Proof.
  unfold from_string, validate_absolute_path. case_bool_decide as Em; [intuition done|]. split.
  - destruct (strip_prefix [SLASH] p) as [stripped|] eqn:E; [|done]. apply strip_prefix_Some in E as ->.
    pose proof (join_split_on SLASH stripped) as Hj. destruct (split_on SLASH stripped) as [|root segments]; [done|].
    case_bool_decide as Hr; [subst root|done]. cbn. destruct (ends_with [SLASH] stripped); [done|].
    destruct (validate_segments segments) as [[]|] eqn:Es; [|done]. intros _. right. exists segments. apply validate_segments_ok in Es.
    split; [done|]. by rewrite <- Hj, join_descend.
  - intros [->|(names & Hv & ->)]; [done|]. change (descend ROOT names) with ([SLASH] ++ descend ROOT_SEGMENT names). rewrite strip_prefix_app.
    rewrite <- join_descend, split_on_join; [|done|].
    + rewrite bool_decide_true by done. cbn [negb]. rewrite join_descend. destruct (ends_with [SLASH] (descend ROOT_SEGMENT names)) eqn:E.
      * apply ends_with_true in E as [r E]. destruct names as [|n names]; [apply (f_equal last) in E; by rewrite last_snoc in E|].
        destruct (descend_last ROOT_SEGMENT (n :: names)) as (q & c & Hq & Hc); [done|done|]. rewrite Hq in E. apply app_inj_tail in E as [_ E]. done.
      * by apply validate_segments_ok in Hv as ->.
    + constructor; [|]. { repeat constructor; done. } eapply Forall_impl; [done|]. intros n Hn. by apply valid_name_spec.
Qed.

(** A relative reference names an agent below the one that resolves it. *)
Lemma resolve_below self reference p : starts_with [SLASH] reference = false -> resolve self reference = Ok p ->
  exists names, names <> [] /\ Forall valid_name names /\ p = descend self names.
Proof.
  intros Hs. unfold resolve. destruct (is_empty reference) eqn:Ee; [done|]. case_bool_decide as Hr; [subst reference; done|]. rewrite Hs.
  unfold validate_relative_reference. destruct (ends_with [SLASH] reference); [done|].
  destruct (validate_segments (split_on SLASH reference)) as [[]|] eqn:E; [|done]. unfold from_string.
  destruct (validate_absolute_path _) as [[]|]; [|done]. intros [= <-]. exists (split_on SLASH reference).
  split; [apply split_on_not_nil|]. split; [by apply validate_segments_ok|].
  rewrite <- (join_split_on SLASH reference) at 1. pose proof (split_on_not_nil SLASH reference) as Hn.
  destruct (split_on SLASH reference) as [|name names]; [done|]. rewrite join_descend. done.
Qed.

(** ** At work *)

(** Two tasks race for one place; the first reserves a path and is committed, then released. *)
Definition race : list (nat * Event) :=
  [(1%nat, ReserveSlot (Some 1)); (2%nat, ReserveSlot (Some 1)); (1%nat, Exchange true); (1%nat, Exchange false); (2%nat, Exchange false);
   (2%nat, Exchange false); (1%nat, ReservePath (lit "/root/helper")); (1%nat, ReserveNickname [lit "Ada"] None 0);
   (1%nat, Commit (mkAgent (Some (lit "t1")) (Some (lit "/root/helper")) (Some (lit "Ada")) None None));
   (3%nat, ReleaseThread (lit "t1")); (3%nat, Subtract)].

Definition after_race (n : nat) : System := default initial (run initial (take n race)).

(** The next event of the race, after which the state is [after_race n]. *)
Ltac step_to n tac := apply (disciplined_cons _ _ _ _ (after_race n)); [tac|by vm_compute|].

Lemma agents_within_limit_witness :
  total_count (after_race 9) = len (live_agents (active_agents (after_race 9))) + cnt holds_share (tasks (after_race 9))
  /\ total_count (after_race 9) <= 1.
Proof.
  assert (Hdis : disciplined_run 1 initial (take 9 race)).
  { unfold race. cbn [take].
    step_to 1%nat ltac:(by vm_compute). step_to 2%nat ltac:(by vm_compute). step_to 3%nat done. step_to 4%nat done. step_to 5%nat done.
    step_to 6%nat done. step_to 7%nat ltac:(by split; vm_compute). step_to 8%nat done.
    step_to 9%nat ltac:(exists (lit "t1"), (Some (lit "Ada")), (Some (lit "/root/helper")); by vm_compute). done. }
  destruct (agents_within_limit 1 (take 9 race) (after_race 9) ltac:(by vm_compute) ltac:(by vm_compute) Hdis ltac:(by vm_compute)) as (Ht & Hm & _).
  by split.
Defined.

(** An agent with a residency slot is spawned although the limit of the others is reached. *)
Example unlimited_over_limit :
  total_count <$> run initial [(1%nat, ReserveSlot (Some 1)); (1%nat, Exchange false); (2%nat, ReserveSlot None)] = Some 2.
Proof. by vm_compute. Qed.

(** The loser of the race has no place, and after the release there is one again. *)
Example race_outcome :
  tasks (after_race 6) !! 2%nat = None /\ total_count (after_race 9) = 1
  /\ agent_id_for_path (active_agents (after_race 9)) (lit "/root/helper") = Some (lit "t1")
  /\ live_agents (active_agents (after_race 10)) = [] /\ total_count (after_race 10) = 1 /\ total_count (after_race 11) = 0.
Proof. by vm_compute. Qed.

(** While a resident is examined for unloading it does not count: another spawn
    takes its slot, and when it turns out to be busy and is put back there are
    more residents and slots than the capacity of 1. *)
Example residency_overshoot :
  let r := mkResidency [lit "busy"] 0 in
  let '(r, refused) := try_reserve_pending_slot 1 r in
  let '(r, candidate) := pop_lru_candidate None r in
  let '(r, reserved) := try_reserve_pending_slot 1 r in
  let r := commit_slot (lit "new") (touch (default [] candidate) r) in
  refused = false /\ candidate = Some (lit "busy") /\ reserved = true /\ residents r = [lit "busy"; lit "new"] /\ pending_slots r = 0.
Proof. by vm_compute. Qed.

(** The check for capacity and the guard are two steps: two turns that start at
    the same time both pass the check. *)
Example execution_limit_overshoot :
  let l := initialize 1 (mkLimiter 0 None) in
  has_capacity l = true /\ has_capacity l = true /\ active (take_guard (take_guard l)) = 2 /\ limit_of (take_guard (take_guard l)) = 1.
Proof. by vm_compute. Qed.

End AgentsFacts.
